(* ===== verification/_CoqProject ===== *)
-Q . S2P
Prelude.v
Bytes.v
Text.v
Framing.v
Cbor.v
CborProofs.v
CborSafe.v
PriorityQueue.v
Scheduler.v
SchedulerProofs.v
SchedulerOps.v
SchedulerWake.v
SchedulerStop.v
SchedulerTheorems.v
Tree.v
TreeProofs.v
Json.v
Frames.v
FramesProofs.v
Reducer.v
ReducerProofs.v
RecoveryProofs.v
JsonStrict.v
ToolDispatch.v
ToolDispatchProofs.v
ToolRecovery.v
Conversation.v
ConversationProofs.v
ConversationCommits.v
AsyncProg.v
Agent.v
AgentProofs.v
AgentWork.v
AgentTheorems.v
Leases.v
MutationQueue.v
MutationQueueProofs.v
Lanes.v
LanesProofs.v
JsValue.v
JsonText.v
JsonTextProofs.v
SessionEntries.v
SessionEntriesProofs.v
JsonLines.v
SessionBackends.v
SessionBackendsProofs.v
SessionStores.v
SessionTheorems.v
Journal.v
JournalProofs.v
JournalTheorems.v
RpcLines.v
RpcLinesProofs.v
RpcSender.v
RpcRequests.v
RpcRequestsProofs.v
Admission.v
AdmissionProofs.v
Proposals.v
ProposalRuns.v
ProposalProofs.v
ProposalProjection.v
ProjectionProofs.v
Editor.v
EditorProofs.v
EditDiff.v
EditDiffProofs.v
Typography.v
Materializer.v
MaterializerProofs.v
DomainLog.v
DomainLogProofs.v
DomainLogTheorems.v
DomainWatch.v
DomainWatchProofs.v
TaskRouter.v
TaskRouterProofs.v
SqliteBackend.v
SqliteProofs.v
