(* ===== verification/Prelude.v ===== *)
(** * InkPi: a verified model of the core of a writing-agent runtime

    InkPi (packages under src/packages) runs writing agents.  A daemon speaks a binary protocol
    to its clients, schedules durable tasks, drives the turns of an agent, and keeps what must
    survive a crash: the journal of each session, the change log of each workspace, the lanes
    and leases under which documents are written.  This library models the parts on which that
    survival and the order of events rest, as executable definitions, and proves what makes
    each of them correct.  Names of methods are those of the sources.

    [Prelude] has what the components share: results with their notations, arrays indexed by
    [Z], association lists, stable sorting, and the tactics.

    ** Wire protocol (packages/protocol)

    - [Bytes], [Text]: the numbers, buffers, UTF-16 strings and UTF-8 codecs of the language.
    - [Framing] (framing.ts): [encodeFrame], [assertCompleteFrame] and the incremental
      [FrameDecoder], whose blocks and header buffer are the record [decoder]; [push_loop] is
      its [push].  The decoder refines a parser of the whole stream, so that the output does
      not depend on how a transport cuts it.
    - [Cbor], [CborProofs], [CborSafe] (cbor/): the writer's growing buffer, the encoder and
      the bounds-checked decoder; round trip, exact acceptance of the encoder, safety and
      totality of the decoder on any bytes.
    - [JsonStrict] (json.ts): the search for a value that cannot cross a JSON boundary, over a
      heap of objects that may be shared or cyclic.
    - [RpcLines], [RpcLinesProofs] (rpc-limits.ts): the line buffer of a text stream and the
      window of bytes being sent; [RpcSender] (rpc-buffered-send.ts): sends that wait for the
      buffer of a socket; [RpcRequests], [RpcRequestsProofs] (rpc-stream.ts): requests that
      wait for responses, as a step relation over the events of a connection.

    ** Scheduling (packages/agent-core/src/lifecycle)

    - [PriorityQueue]: the indexed binary heap, proved against the class of comparators.
    - [Scheduler]: every method, timer, microtask and settlement of [TaskScheduler] as one
      transition; [SchedulerProofs] and [SchedulerOps] carry its invariant, with concrete
      runs, [SchedulerWake] that no wake-up is lost, [SchedulerStop] shutdown, and that a
      scheduler that stops stays stopped in [calm] runs, [SchedulerTheorems] the properties.
    - [TaskRouter], [TaskRouterProofs] (tasks/task-router.ts): durable tasks that own others:
      which stores a router accepts when it starts and what it makes of them, cancellation
      and shutdown of owned trees, and the queue of writes behind the status it shows.
    - [Admission], [AdmissionProofs] (codemode-admission.ts): the permits under which scripts
      run, and the reservation of a worker.

    ** Sessions (packages/agent-core, packages/session-backends, packages/storage)

    - [Tree], [TreeProofs] (agent-core/src/tree.ts): the branching history of a session.
    - [Json], [Frames], [FramesProofs] (turn/assistant-frames.ts): durable frames of a
      streamed message and their reduction.
    - [Reducer], [ReducerProofs], [RecoveryProofs] (reducer/session-reducer.ts and what it
      calls): the state of a session as a function of its journal, and what may be replayed
      after a crash.
    - [ToolDispatch], [ToolDispatchProofs] (journal-commit.ts, turn/tool-dispatcher.ts,
      turn/extract-tool-calls.ts, concurrency.ts): the writer of a journal, and the execution of
      the tool calls of a message, as the interleaving of one state machine per call over the
      writer of the journal; [ToolRecovery] composes it with the reducer and the recovery
      plan: a batch, a crash, the plan and the batch of the plan.
    - [Conversation] (conversation-context.ts): the conversation of an agent as a path in its
      journal, what a model is shown of it, and the caches behind; [ConversationProofs] the walk
      along parents, the caches and the updates, [ConversationCommits] what is accepted, with
      concrete runs.
    - [AsyncProg]: asynchronous functions as programs cut at their [await]s, with a
      rely-guarantee logic; [Agent] (agent.ts, turn/agent-loop-runner.ts, turn/stream-invoker.ts,
      turn/context-transformer.ts, turn/turn-finalizer.ts, queues.ts): the public methods of an
      agent and its turn loop as such programs; [AgentProofs] what a run keeps and gives back,
      [AgentWork] the invariant of many calls under way, [AgentTheorems] the properties, with
      concrete runs.
    - [JsValue], [JsonText], [JsonTextProofs]: dynamic values, [JSON.stringify] and
      [JSON.parse] on texts: the round trip, and that a proper prefix of the text of an object
      is no JSON text.  The files below rest on these two facts.
    - [SessionEntries], [SessionEntriesProofs] (session-backends/src/entry-contract.ts): which
      batches a journal accepts, pages with cursors, forks.
    - [JsonLines], [SessionBackends] (memory.ts, jsonl.ts): the two backends as
      implementations of the class [SessionBackend]; [SessionBackendsProofs] says what the
      files hold after a write that was cut short; [SessionStores] states the promise of a
      backend as the class [JournalStore], implemented by both; [SessionTheorems] has the
      properties of any such store, the equivalence of the two and crash safety.
    - [SqliteBackend], [SqliteProofs] (sqlite.ts, storage/src/repository.ts): the third
      implementation, over the tables of a database; it stores the columns of an entry, and
      answers as the backend in memory with the entries in that form.
    - [Journal], [JournalProofs], [JournalTheorems] (storage/src/journal.ts): the daemon's own
      journal with transactions, recovery, export and import.

    ** Documents and workspaces (packages/storage, packages/protocol)

    - [Leases] (leases.ts): writer leases with fencing tokens.  It implements the classes
      [LeaseService], [LeaseLaws] (a history of grants whose tokens increase, and an active
      grant is the last of it) and [LeaseTotal] of its client,
    - [MutationQueue], [MutationQueueProofs] (mutation-queue.ts): the serial queue of the
      mutations of a document, each under a lease.
    - [Lanes], [LanesProofs] (lanes.ts, the transaction of db.ts): parallel lanes, forks and
      merges, statement by statement with their rollback.
    - [Materializer], [MaterializerProofs] (domain-materializer.ts): the read models of a
      workspace, rebuilt from its changes.
    - [DomainLog], [DomainLogProofs], [DomainLogTheorems] (domain-projection.ts,
      domain-change-codec.ts, protocol/src/domain-sync.ts): the change log with its
      checksums, pages and snapshots.
    - [DomainWatch], [DomainWatchProofs] (protocol/src/domain-watch.ts): the observer that
      follows the log of another process through the class [DomainWatchReader].
    - [Proposals] (proposals/domain-proposal-ledger.ts, protocol/src/domain-proposal.ts): the
      review of changes an agent proposes; [ProposalRuns] has the contract of the store that
      applies them as the class [DomainStore] and its laws, and the interleavings of calls
      with the store; [ProposalProofs] the properties over them.
    - [ProposalProjection], [ProjectionProofs] (proposal-projection.ts,
      protocol/src/proposal-sync.ts): the read model of proposals in the workspace database.

    ** Editor (packages/editor-core)

    - [Editor] (state.ts, ghost-text.ts, ime.ts), [EditorProofs]: documents
      with undo and redo, refined by a history of texts; ghost text and its acceptance.
    - [Typography] (typography.ts): the layout of prose.
    - [EditDiff], [EditDiffProofs] (agent-core/src/tools/edit-diff.ts): the replacement of a
      passage that is found up to typography, and the lines it leaves alone.

    ** What the theorems show

    - Invariants of every reachable state: slots and queues of the scheduler, one mutation
      running per document, journals numbered without a gap, the log and its projection, the
      permits of scripts, the intent before the run of a tool and the settlement before its
      result, the one run of an agent.
    - Safety under interleaving: a result is delivered only while its grant is the last one, a
      late settlement changes nothing, an observer's view is a prefix of the log, only what
      was accepted is applied, a response settles its own request and no other, a cancellation
      reaches the tasks below and no other, and the status shown of a task is the stored one.
    - Crash safety: writes are cut short at any byte, any number of times; acknowledged
      batches are found again, the others wholly or not at all; what a tool has done is found
      again, and not done twice.
    - Refinement and equivalence: the decoder and a stream parser, the pump and priority
      dispatch, the stores and their logs, the editor and a history, the line buffer and
      the lines of the stream, the session backends.
    - Round trips: CBOR, frames of a message, history deltas, exports of a journal.
    - Termination, totality and exact acceptance: decoders on any bytes, shutdown, the search
      in cyclic values, encoders, compare-and-set of change sets.
    - Lemmas beside the properties prove where the code falls short of its intention: the
      stranded tasks of [SchedulerOps], [SchedulerStop] and [MutationQueueProofs], the merge baseline of
      [LanesProofs], the lost documents of [MaterializerProofs], the corrupt journals of
      [SessionTheorems] and [JournalTheorems], the unreviewed patches of [ProposalProofs], the
      colliding states of [ProjectionProofs], the timeouts of [RpcSender], the duplicated text
      of [EditorProofs], the blank passages and rewritten lines of [EditDiffProofs], the open
      gate of [ToolDispatchProofs], the unfinished messages and misplaced edits of
      [ConversationCommits], the stranded
      agents, lost queues and repeated commits of [AgentTheorems], the misplaced folder and the
      numbers of deltas of [SqliteProofs], the change sets of [DomainWatchProofs] that fit in
      no page.

    ** Conventions

    A call that may throw returns [result]; a stateful method takes the state and returns the
    new one, with the error where a throw leaves a change behind.  An asynchronous method is
    cut at its [await]s into transitions or events.  Readings of the clock, generated
    identifiers and the outcomes of writes are arguments.

    Fuel: the loops of the frame decoder and the line buffer have the length of the chunk and
    the CBOR decoder the depth limit; loops over the session tree have its size; the pump of the scheduler has the lengths
    of the queues; the strict JSON check the size of the heap plus one; [JSON_parse] the length
    of the text plus one; the search of the last line the size of the file; a fork and the
    path of a conversation the number of entries; the climb along owners the number of tasks,
    a walk down them one step for each; the turns of an agent's run are bounded by
    an argument, and any bound above the number of things that happen gives the same states.  Each is proved enough where it matters: the theorems say what the loops
    return, for every input they range over.

    Hypotheses: random epochs are fresh ([DomainWatchProofs]); the comparator of a locale is
    a total order ([Scheduler]); the engine's [JSON.parse] and [JSON.stringify] are parameters
    in [Frames], [Reducer] and [Conversation] with the schemas of messages and tools, its NFKC normalisation in [EditDiff]; the store of a proposal
    keeps the laws of [ProposalRuns], modifications name no negative revision and rebases keep
    the patch there ([orderly]); the states of an operation do not collide
    ([ProjectionProofs]); the invocations of a batch are different and new to the journal
    ([ToolDispatchProofs], [ToolRecovery]); what the host of an agent answers is [allowed] in
    [AgentProofs]; in the runs of [SchedulerStop] no load of a rehydration ends after what was
    checked before it has changed, nor is a scheduler started while it stops ([calm]); the
    entries of the file backend have no property [journalBatch] of their own ([storable]) and
    the payloads of the daemon's journal are not undefined ([request_ok]); a database driver stores strings, exact integers and [null] as they are
    ([SqliteDriverLaws] of [SqliteBackend]).  Numbers of dynamic values are integers; a string in the text
    of a file stands for its UTF-8 bytes; [trim] removes the white space of ASCII, except in
    the line buffer and the editor, whose strings are code units.

    ** Not modelled

    Model providers, HTTP, sockets, processes and the terminal (packages ai, client, cli,
    server, tui): input and output of the host.  The snapshot file of the JSONL
    backend, keyword searches, the migrations of the database schema, the projection of a journal to the relational
    database ([replayToDb]), full-text search and prompts: their behaviour is that of a
    database engine or of a model.  The reads that code mode makes for its scripts, and the
    tool calls of a session without a journal.  Of the agent: its listeners, tool discovery, the
    frames and deltas of a stream while it is collected.  Of the task router: the execution of
    handlers, whose updates are arbitrary here, steering, resumption, retries and checkpoints. *)

From Stdlib Require Export ZArith Lia.
From stdpp Require Export strings numbers gmap list.

#[global] Set Default Goal Selector "!".

(** * Results: a JavaScript call either returns or throws *)

Inductive result (E A : Type) : Type :=
| Ok (a : A)
| Err (e : E).
Arguments Ok {E A} a.
Arguments Err {E A} e.

Definition bind_res {E A B : Type} (m : result E A) (k : A -> result E B) : result E B :=
  match m with
  | Ok a => k a
  | Err e => Err e
  end.

Definition is_ok {E A : Type} (m : result E A) : bool :=
  match m with Ok _ => true | Err _ => false end.

Declare Scope inkpi_scope.
Delimit Scope inkpi_scope with inkpi.

(** [let* x := m in k] runs [k] on the value of [m] and propagates a throw;
    [guard* c else e in k] is the source's [if (c) throw e]. *)
Notation "'let*' x := m 'in' k" := (bind_res m (fun x => k))
  (at level 200, x pattern, m at level 100, k at level 200, right associativity) : inkpi_scope.
Notation "'throw_if' c 'with' e 'in' k" := (if c then Err e else k)
  (at level 10, c at level 100, e at level 100, k at level 200) : inkpi_scope.
#[global] Open Scope inkpi_scope.

#[export] Instance result_eq_dec {E A : Type} `{EqDecision E} `{EqDecision A} : EqDecision (result E A).
Proof. solve_decision. Defined.

(** Case analysis on the outermost scrutinee of a goal or a hypothesis. *)
Ltac case_res :=
  match goal with
  | H : context [match ?x with _ => _ end] |- _ => destruct x eqn:?; simplify_eq/=
  | |- context [match ?x with _ => _ end] => destruct x eqn:?; simplify_eq/=
  end.

Lemma bind_res_ok {E A B : Type} (m : result E A) (k : A -> result E B) b :
  bind_res m k = Ok b <-> exists a, m = Ok a /\ k a = Ok b.
Proof.
  destruct m as [a|e]; simpl; split.
  - eauto.
  - intros (a' & Ha & Hk). congruence.
  - discriminate.
  - intros (a' & Ha & _). discriminate.
Qed.

(** Open every hypothesis of the form [bind_res m k = Ok b]. *)
Ltac inv_bind :=
  repeat match goal with
  | H : bind_res _ _ = Ok _ |- _ =>
      apply bind_res_ok in H;
      let a := fresh "v" in let Ha := fresh "Hv" in
      destruct H as (a & Ha & H)
  end.

(** A loop whose body may throw. *)
Fixpoint fold_res {A B E : Type} (f : A -> B -> result E A) (a : A) (l : list B) : result E A :=
  match l with
  | [] => Ok a
  | b :: l => bind_res (f a b) (fun a' => fold_res f a' l)
  end.

Lemma fold_res_app {A B E : Type} (f : A -> B -> result E A) a l k :
  fold_res f a (l ++ k) = bind_res (fold_res f a l) (fun a' => fold_res f a' k).
Proof. revert a. induction l as [|b l IH]; intros a; simpl; [done|]. destruct (f a b); simpl; [apply IH|done]. Qed.

(** Turn boolean comparisons of the source into arithmetic. *)
Ltac bools :=
  repeat match goal with
  | H : (_ && _) = true |- _ => apply andb_true_iff in H as [? ?]
  | H : (_ || _) = false |- _ => apply orb_false_iff in H as [? ?]
  | H : negb _ = true |- _ => apply negb_true_iff in H
  | H : negb _ = false |- _ => apply negb_false_iff in H
  | H : (_ <? _)%Z = true |- _ => apply Z.ltb_lt in H
  | H : (_ <? _)%Z = false |- _ => apply Z.ltb_ge in H
  | H : (_ <=? _)%Z = true |- _ => apply Z.leb_le in H
  | H : (_ <=? _)%Z = false |- _ => apply Z.leb_gt in H
  | H : (_ >? _)%Z = true |- _ => rewrite Z.gtb_ltb in H
  | H : (_ >? _)%Z = false |- _ => rewrite Z.gtb_ltb in H
  | H : (_ >=? _)%Z = true |- _ => rewrite Z.geb_leb in H
  | H : (_ >=? _)%Z = false |- _ => rewrite Z.geb_leb in H
  | H : (_ =? _)%Z = true |- _ => apply Z.eqb_eq in H
  | H : (_ =? _)%Z = false |- _ => apply Z.eqb_neq in H
  | H : (_ =? _)%nat = true |- _ => apply Nat.eqb_eq in H
  | H : (_ =? _)%nat = false |- _ => apply Nat.eqb_neq in H
  | H : (_ <? _)%nat = true |- _ => apply Nat.ltb_lt in H
  | H : (_ <? _)%nat = false |- _ => apply Nat.ltb_ge in H
  | H : (_ <=? _)%nat = true |- _ => apply Nat.leb_le in H
  | H : (_ <=? _)%nat = false |- _ => apply Nat.leb_gt in H
  end.

(** Linear arithmetic with division and modulus by constants. *)
Ltac zlia := Z.to_euclidean_division_equations; lia.

(** * Lists indexed by [Z], as JavaScript arrays are *)

Definition zlen {A : Type} (l : list A) : Z := Z.of_nat (length l).
Definition ztake {A : Type} (n : Z) (l : list A) : list A := take (Z.to_nat n) l.
Definition zdrop {A : Type} (n : Z) (l : list A) : list A := drop (Z.to_nat n) l.

(** [subarray l a b]: the elements of [l] from [a] up to [b], both clamped. *)
Definition subarray {A : Type} (l : list A) (a b : Z) : list A := ztake (b - a) (zdrop a l).

Section ZLists.
Context {A : Type}.
Implicit Types l k : list A.
Local Open Scope Z_scope.

Lemma zlen_nonneg l : 0 <= zlen l.
Proof. unfold zlen. lia. Qed.

Lemma zlen_nil : zlen (@nil A) = 0.
Proof. reflexivity. Qed.

Lemma zlen_cons (x : A) l : zlen (x :: l) = 1 + zlen l.
Proof. unfold zlen. simpl length. lia. Qed.

Lemma zlen_app l k : zlen (l ++ k) = zlen l + zlen k.
Proof. unfold zlen. rewrite length_app. lia. Qed.

Lemma zlen_ztake n l : 0 <= n <= zlen l -> zlen (ztake n l) = n.
Proof. unfold zlen, ztake. rewrite length_take. lia. Qed.

Lemma zlen_ztake_le n l : zlen (ztake n l) <= zlen l.
Proof. unfold zlen, ztake. rewrite length_take. lia. Qed.

Lemma zlen_zdrop n l : 0 <= n <= zlen l -> zlen (zdrop n l) = zlen l - n.
Proof. unfold zlen, zdrop. rewrite length_drop. lia. Qed.

Lemma ztake_zdrop n l : ztake n l ++ zdrop n l = l.
Proof. apply take_drop. Qed.

Lemma ztake_all n l : zlen l <= n -> ztake n l = l.
Proof. unfold zlen, ztake. intros. apply take_ge. lia. Qed.

Lemma zdrop_all n l : zlen l <= n -> zdrop n l = [].
Proof. unfold zlen, zdrop. intros. apply drop_ge. lia. Qed.

Lemma ztake_0 l : ztake 0 l = [].
Proof. reflexivity. Qed.

Lemma zdrop_0 l : zdrop 0 l = l.
Proof. reflexivity. Qed.

Lemma ztake_app_l n l k : n <= zlen l -> ztake n (l ++ k) = ztake n l.
Proof. unfold zlen, ztake. intros. apply take_app_le. lia. Qed.

Lemma ztake_app_r n l k : zlen l <= n -> ztake n (l ++ k) = l ++ ztake (n - zlen l) k.
Proof.
  unfold zlen, ztake. intros. rewrite take_app_ge by lia.
  do 2 f_equal. lia.
Qed.

Lemma zdrop_app_r n l k : zlen l <= n -> zdrop n (l ++ k) = zdrop (n - zlen l) k.
Proof.
  unfold zlen, zdrop. intros. rewrite drop_app_ge by lia. f_equal. lia.
Qed.

Lemma zdrop_app_l n l k : 0 <= n <= zlen l -> zdrop n (l ++ k) = zdrop n l ++ k.
Proof. unfold zlen, zdrop. intros. apply drop_app_le. lia. Qed.

Lemma zdrop_zdrop n m l : 0 <= n -> 0 <= m -> zdrop n (zdrop m l) = zdrop (m + n) l.
Proof. unfold zdrop. intros. rewrite drop_drop. f_equal. lia. Qed.

Lemma ztake_ztake n m l : n <= m -> ztake n (ztake m l) = ztake n l.
Proof. unfold ztake. intros. rewrite take_take. f_equal. lia. Qed.

Lemma ztake_split n m l : 0 <= n -> 0 <= m -> ztake (n + m) l = ztake n l ++ ztake m (zdrop n l).
Proof.
  intros. unfold ztake, zdrop. rewrite Z2Nat.inj_add by lia.
  generalize (Z.to_nat n) (Z.to_nat m). clear. intros a b.
  revert l. induction a as [|a IH]; intros [|x l]; simpl; [done|done|by destruct b|].
  by rewrite IH.
Qed.

Lemma zlen_0_nil l : zlen l = 0 -> l = [].
Proof. unfold zlen. destruct l; simpl; [done|lia]. Qed.

Lemma zlen_pos_cons l : 0 < zlen l -> exists x k, l = x :: k.
Proof. unfold zlen. destruct l as [|x k]; simpl; [lia|eauto]. Qed.
End ZLists.

Create HintDb inkpi discriminated.
#[export] Hint Resolve zlen_nonneg : inkpi.
#[export] Hint Rewrite @zlen_nil @zlen_cons @zlen_app : zlen.

(** Arithmetic over list lengths. *)
Ltac len :=
  autorewrite with zlen in *;
  repeat match goal with
  | |- context [zlen ?l] => lazymatch goal with H : 0 <= zlen l |- _ => fail | _ => pose proof (zlen_nonneg l) end
  end; try lia.

(** * Strings as conditions *)

(** [s.trim()] is empty: every code unit is white space (of the Latin-1 range). *)
Definition is_space (c : Ascii.ascii) : bool :=
  let n := Ascii.N_of_ascii c in ((9 <=? n) && (n <=? 13) || (n =? 32) || (n =? 160))%N.

Fixpoint blank (s : string) : bool :=
  match s with
  | EmptyString => true
  | String c s => is_space c && blank s
  end.

(** A string used as a condition: absent and empty are false. *)
Definition truthy (s : option string) : option string :=
  match s with Some EmptyString => None | _ => s end.

Lemma truthy_some s x : truthy s = Some x <-> s = Some x /\ x <> EmptyString.
Proof. destruct s as [[|c s]|]; simpl; naive_solver. Qed.

Lemma truthy_nonempty x : x <> EmptyString -> truthy (Some x) = Some x.
Proof. by destruct x. Qed.

(** * Association lists: a JavaScript [Map] or object with its insertion order *)

Lemma filter_none {A} (p : A -> bool) l : Forall (fun x => p x = false) l -> List.filter p l = [].
Proof. induction 1 as [|x l Hx _ IH]; simpl; [done|]. by rewrite Hx. Qed.

Section Assoc.
Context {A : Type}.
Implicit Types (l : list (string * A)) (k : string) (v : A).

Fixpoint assoc_get l k : option A :=
  match l with
  | [] => None
  | (k', v) :: l => if bool_decide (k' = k) then Some v else assoc_get l k
  end.

(** [Map.set]: an existing key keeps its place. *)
Fixpoint assoc_set l k v : list (string * A) :=
  match l with
  | [] => [(k, v)]
  | (k', v') :: l => if bool_decide (k' = k) then (k', v) :: l else (k', v') :: assoc_set l k v
  end.

(** [{ ...base, ...over }]. *)
Definition assoc_spread (base over : list (string * A)) : list (string * A) :=
  foldl (fun l '(k, v) => assoc_set l k v) base over.

Lemma assoc_get_set_eq l k v : assoc_get (assoc_set l k v) k = Some v.
Proof. induction l as [|[k' v'] l IH]; simpl; repeat (case_bool_decide; simpl; simplify_eq); done. Qed.

Lemma assoc_get_set_ne l k k' v : k <> k' -> assoc_get (assoc_set l k v) k' = assoc_get l k'.
Proof.
  intros Hne. induction l as [|[k0 v0] l IH]; simpl; repeat (case_bool_decide; simpl; simplify_eq); done.
Qed.

Lemma assoc_get_in l k v : assoc_get l k = Some v -> (k, v) ∈ l.
Proof.
  induction l as [|[k0 v0] l IH]; simpl; [done|]. case_bool_decide; intros Hg.
  - simplify_eq. by left.
  - right. by apply IH.
Qed.

Lemma assoc_in_get l k v : NoDup (l.*1) -> (k, v) ∈ l -> assoc_get l k = Some v.
Proof.
  induction l as [|[k0 v0] l IH]; intros Hnd Hin; [by inversion Hin|]. simpl in *. apply NoDup_cons in Hnd as [Hk Hnd].
  apply elem_of_cons in Hin as [[= -> ->]|Hin]; [by rewrite bool_decide_eq_true_2|].
  rewrite bool_decide_eq_false_2; [by apply IH|]. intros ->. apply Hk.
  apply list_elem_of_In, in_map_iff. exists (k, v). split; [done|by apply list_elem_of_In].
Qed.

Lemma assoc_set_keys l k v : (assoc_set l k v).*1 = if decide (k ∈ l.*1) then l.*1 else l.*1 ++ [k].
Proof.
  induction l as [|[k0 v0] l IH].
  - destruct (decide (k ∈ [].*1)) as [H|]; [by inversion H|done].
  - cbn [assoc_set]. case_bool_decide as E; rewrite !fmap_cons; cbn [fst].
    + subst. rewrite decide_True; [done|]. by left.
    + rewrite IH. destruct (decide (k ∈ l.*1)) as [H|H].
      * rewrite decide_True; [done|]. by right.
      * rewrite decide_False; [done|]. intros [->|?]%elem_of_cons; done.
Qed.

Lemma assoc_set_nodup l k v : NoDup (l.*1) -> NoDup ((assoc_set l k v).*1).
Proof.
  intros H. rewrite assoc_set_keys. destruct (decide _) as [?|Hk]; [done|].
  apply NoDup_app. split_and!; [done| |apply NoDup_singleton]. by intros x Hx ->%list_elem_of_singleton.
Qed.

Lemma assoc_set_in l k v k' v' : (k', v') ∈ assoc_set l k v -> (k', v') = (k, v) \/ (k', v') ∈ l.
Proof.
  induction l as [|[k0 v0] l IH]; simpl.
  - intros ->%list_elem_of_singleton. by left.
  - case_bool_decide as E; intros [H|H]%elem_of_cons.
    + left. by simplify_eq.
    + right. by right.
    + right. rewrite H. by left.
    + destruct (IH H); [by left|right; by right].
Qed.

Lemma assoc_set_fresh l k v : k ∉ l.*1 -> assoc_set l k v = l ++ [(k, v)].
Proof.
  induction l as [|[k' v'] l IH]; intros Hk; [done|]. rewrite fmap_cons in Hk. apply not_elem_of_cons in Hk as [Hne Hk].
  simpl. rewrite bool_decide_eq_false_2 by (by intros ->). by rewrite IH.
Qed.

Lemma assoc_set_key l k v x : x ∈ (assoc_set l k v).*1 -> x = k \/ x ∈ l.*1.
Proof. rewrite assoc_set_keys. destruct (decide _); [by right|]. intros [?|?%list_elem_of_singleton]%elem_of_app; auto. Qed.
End Assoc.

(** * [Array.prototype.sort] with a comparator: a stable sort *)

Section Sort.
Context {A : Type} (compare : A -> A -> Z).

Fixpoint sort_insert (x : A) (l : list A) : list A :=
  match l with
  | [] => [x]
  | y :: l => if (compare x y <=? 0)%Z then x :: y :: l else y :: sort_insert x l
  end.

Definition js_sort (l : list A) : list A := foldr sort_insert [] l.

Lemma sort_insert_perm x l : sort_insert x l ≡ₚ x :: l.
Proof.
  induction l as [|y l IH]; simpl; [done|]. destruct (_ <=? _)%Z; [done|]. rewrite IH. apply Permutation_swap.
Qed.

Lemma js_sort_perm l : js_sort l ≡ₚ l.
Proof. induction l as [|x l IH]; simpl; [done|]. by rewrite sort_insert_perm, IH. Qed.
End Sort.
