(* ===== verification/Bytes.v ===== *)
(** JavaScript numbers, [Uint8Array] buffers and big-endian integers: the part of the
    language's standard library that the wire formats of [packages/protocol] use. *)

From S2P Require Import Prelude.

Open Scope Z_scope.

(** * Numbers *)

(** A JavaScript number is an IEEE binary64 value.  The model keeps an integral value as
    [NInt], and a finite non-integral value as its 64-bit pattern. *)
Inductive number : Type :=
| NInt (z : Z)
| NNegZero
| NFrac (bits : Z)
| NInf (negative : bool)
| NNaN.

#[export] Instance number_eq_dec : EqDecision number.
Proof. solve_decision. Defined.

Definition MAX_SAFE_INTEGER : Z := 9007199254740991.

(** [Number.isFinite], [Number.isInteger] and [Number.isSafeInteger]. *)
Definition isFinite (n : number) : bool :=
  match n with NInt _ | NNegZero | NFrac _ => true | NInf _ | NNaN => false end.

Definition isInteger (n : number) : bool :=
  match n with NInt _ | NNegZero => true | _ => false end.

Definition isSafeZ (z : Z) : bool := Z.abs z <=? MAX_SAFE_INTEGER.

Definition isSafeInteger (n : number) : bool :=
  match n with NInt z => isSafeZ z | NNegZero => true | _ => false end.

(** The integer an integral number denotes. *)
Definition num_Z (n : number) : Z :=
  match n with NInt z => z | _ => 0 end.

(** * Byte buffers *)

(** A byte is a [Z] in [0, 256), a [Uint8Array] a list of bytes; [ToUint8] on a store. *)
Definition is_byte (b : Z) : Prop := 0 <= b < 256.
Definition to_uint8 (v : Z) : Z := v mod 256.
Definition to_uint32 (v : Z) : Z := v mod 4294967296.

(** [new Uint8Array(n)], [a[i] = v] (ignored out of range), and [a.set(src, off)], which
    throws a [RangeError] (here [None]) when [src] does not fit. *)
Definition u8_new (n : Z) : list Z := replicate (Z.to_nat n) 0.
Definition u8_store (a : list Z) (i v : Z) : list Z := <[Z.to_nat i := to_uint8 v]> a.
Definition u8_get (a : list Z) (i : Z) : Z := default 0 (a !! Z.to_nat i).
Definition u8_set (a src : list Z) (off : Z) : option (list Z) :=
  if off + zlen src <=? zlen a
  then Some (ztake off a ++ src ++ zdrop (off + zlen src) a)
  else None.

(** [v >>> k] on a number: the value modulo 2^32, shifted. *)
Definition ushr (v k : Z) : Z := Z.shiftr (to_uint32 v) k.

(** The four bytes of an unsigned 32-bit integer, most significant first, and back. *)
Definition be32_bytes (n : Z) : list Z :=
  [to_uint8 (ushr n 24); to_uint8 (ushr n 16); to_uint8 (ushr n 8); to_uint8 n].

Definition be32_read (b0 b1 b2 b3 : Z) : Z :=
  b0 * 0x1000000 + b1 * 0x10000 + b2 * 0x100 + b3.

(** The first four bytes of a buffer, read as an integer. *)
Definition be32_head (bs : list Z) : Z :=
  be32_read (u8_get bs 0) (u8_get bs 1) (u8_get bs 2) (u8_get bs 3).

(** * Lemmas *)

Lemma to_uint8_byte v : is_byte (to_uint8 v).
Proof. unfold is_byte, to_uint8. apply Z.mod_pos_bound. lia. Qed.

Lemma to_uint8_id v : is_byte v -> to_uint8 v = v.
Proof. intros. apply Z.mod_small. done. Qed.

Lemma ushr_div n k : 0 <= n < 4294967296 -> 0 <= k -> ushr n k = n / 2 ^ k.
Proof.
  intros. unfold ushr, to_uint32. rewrite Z.mod_small by lia. by rewrite Z.shiftr_div_pow2.
Qed.

Lemma be32_bytes_byte n : Forall is_byte (be32_bytes n).
Proof. repeat constructor; apply to_uint8_byte. Qed.

Lemma be32_bytes_len n : zlen (be32_bytes n) = 4.
Proof. reflexivity. Qed.

Lemma be32_head_bytes n rest :
  0 <= n < 4294967296 -> be32_head (be32_bytes n ++ rest) = n.
Proof.
  intros. unfold be32_head, be32_bytes, be32_read, u8_get. simpl.
  rewrite !ushr_div by lia. unfold to_uint8.
  change (2 ^ 24) with 16777216. change (2 ^ 16) with 65536. change (2 ^ 8) with 256.
  zlia.
Qed.

Lemma be32_bytes_head b0 b1 b2 b3 rest :
  Forall is_byte [b0; b1; b2; b3] ->
  be32_bytes (be32_head (b0 :: b1 :: b2 :: b3 :: rest)) = [b0; b1; b2; b3].
Proof.
  intros H. repeat match goal with H : Forall _ (_ :: _) |- _ => inversion_clear H end.
  unfold is_byte in *. unfold be32_head, be32_bytes, be32_read, u8_get. simpl.
  rewrite !ushr_div by lia. unfold to_uint8.
  change (2 ^ 24) with 16777216. change (2 ^ 16) with 65536. change (2 ^ 8) with 256.
  repeat f_equal; zlia.
Qed.

Lemma be32_head_range bs :
  Forall is_byte bs -> 0 <= be32_head bs < 4294967296.
Proof.
  intros H. assert (Hg : forall i, is_byte (u8_get bs i)).
  { intros i. unfold u8_get. destruct (bs !! Z.to_nat i) eqn:E; simpl.
    - eapply Forall_lookup_1 in E; eauto.
    - unfold is_byte. lia. }
  unfold be32_head, be32_read. unfold is_byte in Hg.
  pose proof (Hg 0). pose proof (Hg 1). pose proof (Hg 2). pose proof (Hg 3). lia.
Qed.

Lemma be32_head_app bs rest : 4 <= zlen bs -> be32_head (bs ++ rest) = be32_head bs.
Proof.
  intros. unfold zlen in *.
  unfold be32_head, u8_get. rewrite !lookup_app_l by lia. done.
Qed.

Lemma u8_new_len n : 0 <= n -> zlen (u8_new n) = n.
Proof. intros. unfold zlen, u8_new. rewrite length_replicate. lia. Qed.

Lemma u8_store_len a i v : zlen (u8_store a i v) = zlen a.
Proof. unfold zlen, u8_store. by rewrite length_insert. Qed.

Lemma u8_set_ok a src off :
  off + zlen src <= zlen a ->
  u8_set a src off = Some (ztake off a ++ src ++ zdrop (off + zlen src) a).
Proof. intros. unfold u8_set. by rewrite (proj2 (Z.leb_le _ _)). Qed.

Lemma u8_set_len a src off a' : 0 <= off -> u8_set a src off = Some a' -> zlen a' = zlen a.
Proof.
  unfold u8_set. intros. case_res; bools.
  pose proof (zlen_nonneg src).
  rewrite !zlen_app, zlen_ztake, zlen_zdrop by lia. lia.
Qed.

(** Storing one byte at [i] splits the buffer there. *)
Lemma u8_store_split a i v :
  0 <= i < zlen a -> u8_store a i v = ztake i a ++ [to_uint8 v] ++ zdrop (i + 1) a.
Proof.
  intros. unfold u8_store, ztake, zdrop, zlen in *.
  rewrite insert_take_drop by lia. simpl. repeat f_equal. lia.
Qed.

Lemma ztake_u8_store a i v :
  0 <= i < zlen a -> ztake (i + 1) (u8_store a i v) = ztake i a ++ [to_uint8 v].
Proof.
  intros. rewrite u8_store_split by done.
  rewrite app_assoc. rewrite ztake_app_l.
  - apply ztake_all. rewrite zlen_app, zlen_ztake by lia. reflexivity || (unfold zlen; simpl; lia).
  - rewrite zlen_app, zlen_ztake by lia. unfold zlen. simpl. lia.
Qed.

Lemma ztake_u8_set a src off a' :
  0 <= off -> u8_set a src off = Some a' ->
  ztake (off + zlen src) a' = ztake off a ++ src.
Proof.
  unfold u8_set. intros. case_res; bools. pose proof (zlen_nonneg src).
  rewrite app_assoc, ztake_app_l.
  - apply ztake_all. rewrite zlen_app, zlen_ztake by lia. lia.
  - rewrite zlen_app, zlen_ztake by lia. lia.
Qed.

#[export] Hint Resolve to_uint8_byte be32_bytes_byte : inkpi.
#[export] Hint Rewrite be32_bytes_len : zlen.
