(* ===== verification/Text.v ===== *)
(** JavaScript strings as sequences of UTF-16 code units, and the [TextEncoder] and fatal
    [TextDecoder] that the protocol uses: lone surrogates are replaced on encoding, ill-formed
    UTF-8 is refused on decoding, and a byte order mark is kept. *)

From S2P Require Import Prelude Bytes.

Open Scope Z_scope.

(** A string is the list of its code units, each in [0, 65536). *)
Abbreviation ustring := (list Z).

Definition is_unit (u : Z) : Prop := 0 <= u < 65536.
Definition is_high (u : Z) : bool := (0xd800 <=? u) && (u <=? 0xdbff).
Definition is_low (u : Z) : bool := (0xdc00 <=? u) && (u <=? 0xdfff).

(** A Unicode scalar value: a code point that is not a surrogate. *)
Definition is_scalar (c : Z) : Prop := 0 <= c < 0xd800 \/ 0xe000 <= c < 0x110000.

(** The scalar values of a string, each lone surrogate read as U+FFFD. *)
Fixpoint scalars (s : ustring) : list Z :=
  match s with
  | [] => []
  | u :: s' =>
      if is_high u then
        match s' with
        | v :: s'' =>
            if is_low v
            then (0x10000 + (u - 0xd800) * 0x400 + (v - 0xdc00)) :: scalars s''
            else 0xfffd :: scalars s'
        | [] => [0xfffd]
        end
      else if is_low u then 0xfffd :: scalars s'
      else u :: scalars s'
  end.

Definition utf16_of_scalar (c : Z) : list Z :=
  if c <? 0x10000 then [c]
  else [0xd800 + (c - 0x10000) / 0x400; 0xdc00 + (c - 0x10000) mod 0x400].

Definition utf8_of_scalar (c : Z) : list Z :=
  if c <? 0x80 then [c]
  else if c <? 0x800 then [0xc0 + c / 64; 0x80 + c mod 64]
  else if c <? 0x10000 then [0xe0 + c / 4096; 0x80 + c / 64 mod 64; 0x80 + c mod 64]
  else [0xf0 + c / 262144; 0x80 + c / 4096 mod 64; 0x80 + c / 64 mod 64; 0x80 + c mod 64].

(** [textEncoder.encode(s)]. *)
Definition utf8_encode (s : ustring) : list Z := concat (map utf8_of_scalar (scalars s)).

Definition in_range (lo hi b : Z) : bool := (lo <=? b) && (b <=? hi).

(** The scalar values of a UTF-8 byte sequence; [None] where the fatal decoder throws. *)
Fixpoint utf8_scalars (bs : list Z) : option (list Z) :=
  match bs with
  | [] => Some []
  | b0 :: r0 =>
      if b0 <? 0x80 then cons b0 <$> utf8_scalars r0
      else if in_range 0xc2 0xdf b0 then
        match r0 with
        | b1 :: r1 =>
            if in_range 0x80 0xbf b1
            then cons ((b0 - 0xc0) * 64 + (b1 - 0x80)) <$> utf8_scalars r1 else None
        | [] => None
        end
      else if in_range 0xe0 0xef b0 then
        match r0 with
        | b1 :: b2 :: r2 =>
            if in_range (if b0 =? 0xe0 then 0xa0 else 0x80) (if b0 =? 0xed then 0x9f else 0xbf) b1
               && in_range 0x80 0xbf b2
            then cons ((b0 - 0xe0) * 4096 + (b1 - 0x80) * 64 + (b2 - 0x80)) <$> utf8_scalars r2
            else None
        | _ => None
        end
      else if in_range 0xf0 0xf4 b0 then
        match r0 with
        | b1 :: b2 :: b3 :: r3 =>
            if in_range (if b0 =? 0xf0 then 0x90 else 0x80) (if b0 =? 0xf4 then 0x8f else 0xbf) b1
               && in_range 0x80 0xbf b2 && in_range 0x80 0xbf b3
            then cons ((b0 - 0xf0) * 262144 + (b1 - 0x80) * 4096 + (b2 - 0x80) * 64 + (b3 - 0x80))
                   <$> utf8_scalars r3
            else None
        | _ => None
        end
      else None
  end.

(** [textDecoder.decode(bytes)] with [fatal: true, ignoreBOM: true]. *)
Definition utf8_decode (bs : list Z) : option ustring :=
  (fun cs => concat (map utf16_of_scalar cs)) <$> utf8_scalars bs.

(** [s.toWellFormed()]: lone surrogates replaced by U+FFFD. *)
Definition toWellFormed (s : ustring) : ustring := concat (map utf16_of_scalar (scalars s)).

(** No lone surrogate: every high surrogate is followed by a low one and conversely. *)
Fixpoint well_formed (s : ustring) : bool :=
  match s with
  | [] => true
  | u :: s' =>
      if is_high u then
        match s' with
        | v :: s'' => is_low v && well_formed s''
        | [] => false
        end
      else negb (is_low u) && well_formed s'
  end.

(** * Lemmas *)

(** Strings are taken two units at a time when a surrogate pair starts them. *)
Lemma ustring_ind (P : ustring -> Prop) :
  P [] -> (forall u s, P s -> (forall v s', s = v :: s' -> P s') -> P (u :: s)) -> forall s, P s.
Proof.
  intros H0 H1 s. assert (H : P s /\ forall v s', s = v :: s' -> P s'); [|tauto].
  induction s as [|u s [IH1 IH2]]; split; auto; [done|]. intros v s' [= -> ->]. done.
Qed.

Lemma scalars_valid s : Forall is_unit s -> Forall is_scalar (scalars s).
Proof.
  induction s as [|u s IH IH2] using ustring_ind; intros Hs; [constructor|].
  inversion_clear Hs as [|? ? Hu Hs']. unfold is_unit in Hu. specialize (IH Hs').
  assert (Hr : is_scalar 0xfffd) by (unfold is_scalar; lia).
  simpl. unfold is_high, is_low in *.
  destruct ((0xd800 <=? u) && (u <=? 0xdbff)) eqn:Eh.
  - destruct s as [|v s']; [by repeat constructor|].
    destruct ((0xdc00 <=? v) && (v <=? 0xdfff)) eqn:El.
    + bools. constructor; [unfold is_scalar; lia|].
      apply (IH2 v s'); [done|by inversion Hs'].
    + by constructor.
  - destruct ((0xdc00 <=? u) && (u <=? 0xdfff)) eqn:El; constructor; auto.
    unfold is_scalar. apply andb_false_iff in Eh, El.
    destruct Eh, El; bools; lia.
Qed.

Lemma utf8_of_scalar_byte c : is_scalar c -> Forall is_byte (utf8_of_scalar c).
Proof.
  unfold is_scalar, utf8_of_scalar, is_byte. intros Hc.
  repeat case_res; bools; repeat constructor; zlia.
Qed.

Lemma utf8_encode_byte s : Forall is_unit s -> Forall is_byte (utf8_encode s).
Proof.
  intros Hs. unfold utf8_encode. apply (proj2 (Forall_concat _ _)), (proj2 (List.Forall_map _ _ _)).
  eapply Forall_impl; [by apply scalars_valid|]. apply utf8_of_scalar_byte.
Qed.

(** Settle the comparisons of a goal by arithmetic; a test that is open is split. *)
Ltac settle :=
  repeat (match goal with
  | |- context [?a <=? ?b] =>
      first [rewrite (proj2 (Z.leb_le a b)) by zlia | rewrite (proj2 (Z.leb_gt a b)) by zlia]
  | |- context [?a <? ?b] =>
      first [rewrite (proj2 (Z.ltb_lt a b)) by zlia | rewrite (proj2 (Z.ltb_ge a b)) by zlia]
  | |- context [?a =? ?b] => destruct (Z.eqb_spec a b)
  end; cbn [andb]).

(** One scalar value: the decoder consumes exactly the bytes the encoder emits for it. *)
Lemma utf8_scalars_step c rest :
  is_scalar c -> utf8_scalars (utf8_of_scalar c ++ rest) = cons c <$> utf8_scalars rest.
Proof.
  intros Hc. unfold is_scalar in Hc. unfold utf8_of_scalar.
  destruct (c <? 0x80) eqn:E1; [|destruct (c <? 0x800) eqn:E2; [|destruct (c <? 0x10000) eqn:E3]];
    bools; cbn [app utf8_scalars]; unfold in_range; settle;
    do 2 f_equal; zlia.
Qed.

Lemma utf8_scalars_concat cs : Forall is_scalar cs -> utf8_scalars (concat (map utf8_of_scalar cs)) = Some cs.
Proof.
  induction 1 as [|c cs Hc _ IH]; [done|]. cbn [map concat].
  by rewrite utf8_scalars_step, IH.
Qed.

(** Decoding what was encoded gives the string back, up to lone surrogates. *)
Lemma utf8_decode_encode s : Forall is_unit s -> utf8_decode (utf8_encode s) = Some (toWellFormed s).
Proof.
  intros Hs. unfold utf8_decode, utf8_encode.
  by rewrite utf8_scalars_concat by (by apply scalars_valid).
Qed.

Lemma toWellFormed_id s : Forall is_unit s -> well_formed s = true -> toWellFormed s = s.
Proof.
  unfold toWellFormed. induction s as [|u s IH IH2] using ustring_ind; intros Hs Hw; [done|].
  inversion_clear Hs as [|? ? Hu Hs']. unfold is_unit in Hu. simpl in *.
  destruct (is_high u) eqn:Eh.
  - destruct s as [|v s']; [done|]. apply andb_true_iff in Hw as [Hl Hw]. rewrite Hl.
    cbn [map concat]. rewrite (IH2 v s' eq_refl) by (by inversion Hs').
    unfold is_high, is_low in *. bools. unfold utf16_of_scalar.
    rewrite (proj2 (Z.ltb_ge _ _)) by lia. cbn [app]. repeat f_equal; zlia.
  - apply andb_true_iff in Hw as [Hl Hw]. apply negb_true_iff in Hl. rewrite Hl. cbn [map concat].
    rewrite IH by done. unfold utf16_of_scalar. by rewrite (proj2 (Z.ltb_lt _ _)) by lia.
Qed.

#[export] Hint Resolve utf8_encode_byte : inkpi.
