(* ===== verification/Framing.v ===== *)
(** Length-prefixed framing of CBOR payloads (packages/protocol/src/framing.ts): the encoder,
    the one-frame check and the incremental [FrameDecoder] with its header buffer and its
    64 KiB payload blocks.  The decoder is proved to refine a parser of the whole byte
    stream, so its output does not depend on how the transport cuts the stream in chunks. *)

From S2P Require Import Prelude Bytes.

Open Scope Z_scope.

Definition FRAME_HEADER_LENGTH : Z := 4.
Definition MAX_UINT32 : Z := 0xffffffff.
Definition PAYLOAD_BLOCK_SIZE : Z := 64 * 1024.
Definition DEFAULT_MAX_FRAME_LENGTH : Z := 16 * 1024 * 1024.

(** What the module throws.  [BlockRange] is the [RangeError] of [Uint8Array.set];
    [Unfinished] is a loop of the model that ran out of fuel (never reached, see
    [push_loop_refines]). *)
Inductive frame_error : Type :=
| RangeError
| FrameEnded
| FrameFailed
| LengthExceeded (length limit : Z)
| IncompletePrefix
| NotOneFrame
| TruncatedStream
| BlockRange
| Unfinished.

#[export] Instance frame_error_eq_dec : EqDecision frame_error.
Proof. solve_decision. Defined.

Definition resolveMaxFrameLength (options : option number) : result frame_error Z :=
  let value := default (NInt DEFAULT_MAX_FRAME_LENGTH) options in
  throw_if negb (isSafeInteger value) || (num_Z value <? 0) || (num_Z value >? MAX_UINT32)
    with RangeError in
  Ok (num_Z value).

Definition encodeFrame (payload : list Z) : result frame_error (list Z) :=
  throw_if zlen payload >? MAX_UINT32 with RangeError in
  let frame := u8_new (FRAME_HEADER_LENGTH + zlen payload) in
  let length := zlen payload in
  let frame := u8_store frame 0 (ushr length 24) in
  let frame := u8_store frame 1 (ushr length 16) in
  let frame := u8_store frame 2 (ushr length 8) in
  let frame := u8_store frame 3 length in
  match u8_set frame payload FRAME_HEADER_LENGTH with
  | Some frame => Ok frame
  | None => Err BlockRange
  end.

Definition assertCompleteFrame (frame : list Z) (options : option number) : result frame_error unit :=
  throw_if zlen frame <? FRAME_HEADER_LENGTH with IncompletePrefix in
  let length := be32_head frame in
  let* maxFrameLength := resolveMaxFrameLength options in
  throw_if length >? maxFrameLength with LengthExceeded length maxFrameLength in
  throw_if negb (zlen frame =? FRAME_HEADER_LENGTH + length) with NotOneFrame in
  Ok tt.

Inductive decoder_state : Type := Open | Ended | Failed.

(** The fields of [FrameDecoder].  [currentPayloadBlock] is a reference to an element of
    [payloadBlocks], kept as its index, so writes through it are seen in the array. *)
Record decoder : Type := MkDecoder {
  header : list Z;
  headerLength : Z;
  maxFrameLength : Z;
  payloadBlocks : list (list Z);
  currentPayloadBlock : option nat;
  currentPayloadBlockLength : Z;
  expectedPayloadLength : option Z;
  payloadLength : Z;
  state : decoder_state
}.

Definition new_decoder (options : option number) : result frame_error decoder :=
  let* limit := resolveMaxFrameLength options in
  Ok (MkDecoder (u8_new FRAME_HEADER_LENGTH) 0 limit [] None 0 None 0 Open).

(** [this.fail(message)]: everything buffered is dropped, and the message is thrown. *)
Definition fail (d : decoder) : decoder :=
  MkDecoder (header d) 0 (maxFrameLength d) [] None 0 None 0 Failed.

Definition start_payload (d : decoder) (n : Z) : decoder :=
  MkDecoder (header d) 0 (maxFrameLength d) [] None 0 (Some n) 0 (state d).

Definition reset_header (d : decoder) : decoder :=
  MkDecoder (header d) 0 (maxFrameLength d) (payloadBlocks d) (currentPayloadBlock d)
    (currentPayloadBlockLength d) (expectedPayloadLength d) (payloadLength d) (state d).

Definition end_payload (d : decoder) : decoder :=
  MkDecoder (header d) (headerLength d) (maxFrameLength d) [] None 0 None 0 (state d).

(** The block the next payload byte goes to: the current one, or a new one when there is
    none or it is full. *)
Definition ensure_block (d : decoder) (expected : Z) : decoder * nat * list Z :=
  let fresh :=
    let block := u8_new (Z.min PAYLOAD_BLOCK_SIZE (expected - payloadLength d)) in
    let index := length (payloadBlocks d) in
    (MkDecoder (header d) (headerLength d) (maxFrameLength d) (payloadBlocks d ++ [block])
       (Some index) 0 (expectedPayloadLength d) (payloadLength d) (state d), index, block) in
  match currentPayloadBlock d with
  | None => fresh
  | Some index =>
      let block := default [] (payloadBlocks d !! index) in
      if currentPayloadBlockLength d =? zlen block then fresh else (d, index, block)
  end.

(** The inner loop of [push]: copy payload bytes of [chunk] from [off] into the blocks. *)
Fixpoint copy_payload (fuel : nat) (expected : Z) (chunk : list Z) (d : decoder) (off : Z)
  : result frame_error (decoder * Z) :=
  if (off <? zlen chunk) && (payloadLength d <? expected) then
    match fuel with
    | O => Err Unfinished
    | S fuel =>
        let '(d, index, block) := ensure_block d expected in
        let payloadBytes := Z.min (zlen block - currentPayloadBlockLength d) (zlen chunk - off) in
        match u8_set block (subarray chunk off (off + payloadBytes)) (currentPayloadBlockLength d) with
        | None => Err BlockRange
        | Some block =>
            copy_payload fuel expected chunk
              (MkDecoder (header d) (headerLength d) (maxFrameLength d)
                 (<[index := block]> (payloadBlocks d)) (Some index)
                 (currentPayloadBlockLength d + payloadBytes) (expectedPayloadLength d)
                 (payloadLength d + payloadBytes) (state d))
              (off + payloadBytes)
        end
    end
  else Ok (d, off).

(** [payload.set(payloadBlock, offset)] over all the blocks. *)
Fixpoint gather (blocks : list (list Z)) (payload : list Z) (offset : Z) : result frame_error (list Z) :=
  match blocks with
  | [] => Ok payload
  | b :: blocks =>
      match u8_set payload b offset with
      | None => Err BlockRange
      | Some payload => gather blocks payload (offset + zlen b)
      end
  end.

Definition assemble (blocks : list (list Z)) (expected : Z) : result frame_error (list Z) :=
  match blocks with
  | [block] => Ok block
  | _ => gather blocks (u8_new expected) 0
  end.

(** The rest of an iteration of [push] once the payload length is known: copy what the
    chunk has, and emit the payload when it is complete. *)
Definition payload_step (chunk : list Z) (d : decoder) (off expected : Z)
  : result frame_error (decoder * Z * option (list Z)) :=
  let* (d, off) := copy_payload (length chunk) expected chunk d off in
  if payloadLength d =? expected then
    let* payload := assemble (payloadBlocks d) expected in
    Ok (end_payload d, off, Some payload)
  else Ok (d, off, None).

(** The outer loop of [push] with the frames emitted so far.  A throw carries the state the
    decoder is left in. *)
Fixpoint push_loop (fuel : nat) (chunk : list Z) (d : decoder) (off : Z) (frames : list (list Z))
  : decoder * result frame_error (list (list Z)) :=
  if off <? zlen chunk then
    match fuel with
    | O => (d, Err Unfinished)
    | S fuel =>
        let with_payload (d : decoder) (off : Z) (expected : Z) :=
          match payload_step chunk d off expected with
          | Err e => (d, Err e)
          | Ok (d, off, Some payload) => push_loop fuel chunk d off (frames ++ [payload])
          | Ok (d, off, None) => push_loop fuel chunk d off frames
          end in
        match expectedPayloadLength d with
        | None =>
            let headerBytes := Z.min (FRAME_HEADER_LENGTH - headerLength d) (zlen chunk - off) in
            match u8_set (header d) (subarray chunk off (off + headerBytes)) (headerLength d) with
            | None => (d, Err BlockRange)
            | Some h =>
                let d := MkDecoder h (headerLength d + headerBytes) (maxFrameLength d)
                  (payloadBlocks d) (currentPayloadBlock d) (currentPayloadBlockLength d)
                  (expectedPayloadLength d) (payloadLength d) (state d) in
                let off := off + headerBytes in
                if headerLength d <? FRAME_HEADER_LENGTH then push_loop fuel chunk d off frames
                else
                  let frameLength := be32_head (header d) in
                  let d := reset_header d in
                  if frameLength >? maxFrameLength d
                  then (fail d, Err (LengthExceeded frameLength (maxFrameLength d)))
                  else if frameLength =? 0 then push_loop fuel chunk d off (frames ++ [[]])
                  else with_payload (start_payload d frameLength) off frameLength
            end
        | Some expected => with_payload d off expected
        end
    end
  else (d, Ok frames).

Definition push (d : decoder) (chunk : list Z) : decoder * result frame_error (list (list Z)) :=
  match state d with
  | Ended => (d, Err FrameEnded)
  | Failed => (d, Err FrameFailed)
  | Open => push_loop (length chunk) chunk d 0 []
  end.

Definition end_ (d : decoder) : decoder * result frame_error unit :=
  match state d with
  | Ended => (d, Err FrameEnded)
  | Failed => (d, Err FrameFailed)
  | Open =>
      if negb (headerLength d =? 0) || bool_decide (is_Some (expectedPayloadLength d))
      then (fail d, Err TruncatedStream)
      else (MkDecoder (header d) (headerLength d) (maxFrameLength d) (payloadBlocks d)
              (currentPayloadBlock d) (currentPayloadBlockLength d) (expectedPayloadLength d)
              (payloadLength d) Ended, Ok tt)
  end.

(** Feeding chunks one after the other, as a transport does. *)
Fixpoint push_all (d : decoder) (chunks : list (list Z)) : decoder * result frame_error (list (list Z)) :=
  match chunks with
  | [] => (d, Ok [])
  | c :: chunks =>
      match push d c with
      | (d, Err e) => (d, Err e)
      | (d, Ok fs) =>
          match push_all d chunks with
          | (d, Err e) => (d, Err e)
          | (d, Ok gs) => (d, Ok (fs ++ gs))
          end
      end
  end.

(** * The stream parser the decoder implements *)

(** How a byte stream ends: in an unfinished frame, or in one whose length is refused. *)
Inductive stream_end : Type :=
| Pending (tail : list Z)
| TooLong (length : Z).

(** [parses limit bs payloads r]: the stream [bs] holds the complete [payloads] and ends in [r]. *)
Inductive parses (limit : Z) : list Z -> list (list Z) -> stream_end -> Prop :=
| parses_header bs : zlen bs < 4 -> parses limit bs [] (Pending bs)
| parses_long bs : 4 <= zlen bs -> limit < be32_head bs -> parses limit bs [] (TooLong (be32_head bs))
| parses_wait bs :
    4 <= zlen bs -> be32_head bs <= limit -> zlen bs < 4 + be32_head bs ->
    parses limit bs [] (Pending bs)
| parses_frame bs payloads r :
    4 <= zlen bs -> be32_head bs <= limit -> 4 + be32_head bs <= zlen bs ->
    parses limit (zdrop (be32_head bs) (zdrop 4 bs)) payloads r ->
    parses limit bs (ztake (be32_head bs) (zdrop 4 bs) :: payloads) r.

(** What a decoder has received of the frame it is in. *)
Definition received (d : decoder) : list Z := ztake (payloadLength d) (concat (payloadBlocks d)).

Definition buffered (d : decoder) : list Z :=
  match expectedPayloadLength d with
  | None => ztake (headerLength d) (header d)
  | Some n => be32_bytes n ++ received d
  end.

(** The blocks of a payload of [n] bytes: all full but the last, the current one. *)
Definition payload_inv (n : Z) (d : decoder) : Prop :=
  0 <= payloadLength d <= n /\
  ((payloadBlocks d = [] /\ currentPayloadBlock d = None /\ payloadLength d = 0) \/
   (exists prev b, payloadBlocks d = prev ++ [b] /\ currentPayloadBlock d = Some (length prev) /\
      0 <= currentPayloadBlockLength d <= zlen b /\
      payloadLength d = zlen (concat prev) + currentPayloadBlockLength d /\
      zlen (concat prev) + zlen b <= n)).

Record wf_decoder (limit : Z) (d : decoder) : Prop := {
  wf_open : state d = Open;
  wf_header : zlen (header d) = 4;
  wf_bytes : Forall is_byte (header d);
  wf_limit : maxFrameLength d = limit;
  wf_limit_range : 0 <= limit <= MAX_UINT32;
  wf_phase :
    match expectedPayloadLength d with
    | None => 0 <= headerLength d < 4
    | Some n => headerLength d = 0 /\ 0 < n <= limit /\ payloadLength d < n /\ payload_inv n d
    end
}.

(** * The inner loop *)

(** Two decoders that differ at most in the payload being assembled. *)
Definition same_frame (d d' : decoder) : Prop :=
  header d' = header d /\ headerLength d' = headerLength d /\
  maxFrameLength d' = maxFrameLength d /\
  expectedPayloadLength d' = expectedPayloadLength d /\ state d' = state d.

Lemma zlen_concat_app (ls : list (list Z)) (b : list Z) :
  zlen (concat (ls ++ [b])) = zlen (concat ls) + zlen b.
Proof. rewrite concat_app. simpl. rewrite app_nil_r. apply zlen_app. Qed.

(** [ensure_block] leaves the payload as it is and makes room for at least a byte. *)
Lemma ensure_block_spec n d d1 index block :
  payload_inv n d -> payloadLength d < n ->
  ensure_block d n = (d1, index, block) ->
  exists prev, payloadBlocks d1 = prev ++ [block] /\ index = length prev /\
    payloadLength d1 = payloadLength d /\ received d1 = received d /\ same_frame d d1 /\
    0 <= currentPayloadBlockLength d1 < zlen block /\
    payloadLength d1 = zlen (concat prev) + currentPayloadBlockLength d1 /\
    zlen (concat prev) + zlen block <= n.
Proof.
  intros [Hn Hb] Hlt He.
  set (fresh := u8_new (Z.min PAYLOAD_BLOCK_SIZE (n - payloadLength d))) in *.
  assert (Hf : zlen fresh = Z.min PAYLOAD_BLOCK_SIZE (n - payloadLength d)).
  { apply u8_new_len. unfold PAYLOAD_BLOCK_SIZE. lia. }
  assert (Hfresh : payloadLength d = zlen (concat (payloadBlocks d)) ->
    ztake (payloadLength d) (concat (payloadBlocks d ++ [fresh])) = received d).
  { intros E. unfold received. rewrite concat_app. simpl. rewrite ztake_app_l; [done|lia]. }
  unfold PAYLOAD_BLOCK_SIZE in Hf.
  unfold ensure_block in He. fold fresh in He.
  destruct Hb as [(Hnil & Hc & H0)|(prev & b & Hbl & Hc & Hl & Hp & Hs)]; rewrite Hc in He.
  - inversion He; subst d1 index block; clear He. exists (payloadBlocks d).
    rewrite Hnil in *. unfold received, same_frame; simpl in *.
    rewrite H0 in *. repeat split; simpl; rewrite ?zlen_nil; lia || done.
  - rewrite Hbl, lookup_app_r, Nat.sub_diag in He by done. simpl in He.
    case_res; bools.
    + exists (prev ++ [b]). rewrite Hbl in Hfresh.
      assert (E : payloadLength d = zlen (concat (prev ++ [b]))) by (rewrite zlen_concat_app; lia).
      specialize (Hfresh E). unfold same_frame; simpl.
      repeat split; try done; rewrite ?Hf; unfold PAYLOAD_BLOCK_SIZE; lia.
    + exists prev. unfold same_frame. repeat split; try done; lia.
Qed.

Lemma received_extend d prev block block' n src :
  payloadBlocks d = prev ++ [block] ->
  payloadLength d = zlen (concat prev) + n -> 0 <= n -> n <= zlen block ->
  u8_set block src n = Some block' ->
  ztake (payloadLength d + zlen src) (concat (prev ++ [block'])) = received d ++ src.
Proof.
  intros Hb Hp Hn Hle Hs. unfold received. rewrite Hb, !concat_app. simpl. rewrite !app_nil_r.
  pose proof (zlen_nonneg src).
  rewrite !ztake_app_r by lia. rewrite <- app_assoc. f_equal.
  replace (payloadLength d + zlen src - zlen (concat prev)) with (n + zlen src) by lia.
  replace (payloadLength d - zlen (concat prev)) with n by lia.
  eauto using ztake_u8_set.
Qed.

Lemma zlen_subarray {A} (l : list A) a b : 0 <= a -> a <= b <= zlen l -> zlen (subarray l a b) = b - a.
Proof. intros. unfold subarray. rewrite zlen_ztake; rewrite ?zlen_zdrop; lia. Qed.

Lemma subarray_split {A} (l : list A) a b c :
  0 <= a -> a <= b <= c -> subarray l a b ++ subarray l b c = subarray l a c.
Proof.
  intros. unfold subarray. replace (c - a) with ((b - a) + (c - b)) by lia.
  rewrite ztake_split by lia. rewrite zdrop_zdrop by lia. repeat f_equal. lia.
Qed.

Lemma copy_payload_spec n chunk fuel d off :
  payload_inv n d -> 0 <= off <= zlen chunk -> zlen chunk - off <= Z.of_nat fuel ->
  let k := Z.min (n - payloadLength d) (zlen chunk - off) in
  exists d', copy_payload fuel n chunk d off = Ok (d', off + k) /\
    payload_inv n d' /\ payloadLength d' = payloadLength d + k /\
    received d' = received d ++ subarray chunk off (off + k) /\ same_frame d d'.
Proof.
  revert d off. induction fuel as [|fuel IH]; intros d off Hinv Hoff Hfuel k; subst k.
  all: pose proof (proj1 Hinv) as Hr; simpl copy_payload.
  all: destruct ((off <? zlen chunk) && (payloadLength d <? n)) eqn:E.
  2,4: (replace (Z.min _ _) with 0 by (apply andb_false_iff in E as [E|E]; bools; lia));
    exists d; rewrite !Z.add_0_r; unfold subarray; rewrite Z.sub_diag, ztake_0, app_nil_r;
    unfold same_frame; auto 10.
  all: apply andb_true_iff in E as [E1 E2]; bools; try lia.
  destruct (ensure_block d n) as [[d1 index] block] eqn:He.
  destruct (ensure_block_spec _ _ _ _ _ Hinv E2 He)
    as (prev & Hb & -> & Hpl & Hrec & Hsf & Hcur & Hp & Hs).
  set (pb := Z.min (zlen block - currentPayloadBlockLength d1) (zlen chunk - off)).
  assert (Hpb : 0 < pb <= zlen chunk - off) by lia.
  assert (Hlen : zlen (subarray chunk off (off + pb)) = pb) by (rewrite zlen_subarray; lia).
  rewrite u8_set_ok by lia. rewrite Hlen.
  set (block' := ztake (currentPayloadBlockLength d1) block ++ subarray chunk off (off + pb) ++
                 zdrop (currentPayloadBlockLength d1 + pb) block).
  assert (Hset : u8_set block (subarray chunk off (off + pb)) (currentPayloadBlockLength d1) = Some block').
  { rewrite u8_set_ok by lia. by rewrite Hlen. }
  pose proof (u8_set_len _ _ _ _ (proj1 Hcur) Hset) as Hlb.
  rewrite Hb, insert_app_r_alt, Nat.sub_diag by done. simpl.
  set (d2 := MkDecoder _ _ _ _ _ _ _ _ _).
  assert (Hinv2 : payload_inv n d2).
  { split; [simpl; lia|]. right. exists prev, block'. simpl. repeat split; try done; lia. }
  assert (Hrec2 : received d2 = received d ++ subarray chunk off (off + pb)).
  { unfold received at 1. simpl. rewrite <- Hrec, <- Hlen at 1.
    eapply received_extend; eauto; lia. }
  destruct (IH d2 (off + pb) Hinv2 ltac:(lia) ltac:(lia)) as (d' & Hc & Hi & Hl & Hrc & Hsf').
  simpl in Hl. exists d'. rewrite Hc. rewrite Hpl in *.
  replace (off + pb + _) with
    (off + Z.min (n - payloadLength d) (zlen chunk - off)) in * by (simpl; lia).
  split; [done|]. split; [done|]. split; [simpl in Hl; lia|]. split.
  - rewrite Hrc, Hrec2, <- app_assoc. f_equal. simpl. apply subarray_split; lia.
  - unfold same_frame in *; simpl in *; intuition congruence.
Qed.

Lemma gather_spec blocks payload offset :
  0 <= offset -> offset + zlen (concat blocks) = zlen payload ->
  gather blocks payload offset = Ok (ztake offset payload ++ concat blocks).
Proof.
  revert payload offset. induction blocks as [|b blocks IH]; intros payload offset Ho Hl; simpl in *.
  - rewrite zlen_nil in Hl. rewrite app_nil_r, ztake_all by lia. done.
  - rewrite zlen_app in Hl. pose proof (zlen_nonneg b). pose proof (zlen_nonneg (concat blocks)).
    destruct (u8_set payload b offset) as [p|] eqn:E.
    + pose proof (u8_set_len _ _ _ _ Ho E). rewrite IH by lia.
      rewrite (ztake_u8_set _ _ _ _ Ho E). by rewrite <- app_assoc.
    + unfold u8_set in E. case_res; bools. lia.
Qed.

Lemma received_len n d : payload_inv n d -> zlen (received d) = payloadLength d.
Proof.
  intros [Hn [(Hb & _ & H0)|(prev & b & Hb & _ & Hl & Hp & Hs)]]; unfold received; rewrite Hb.
  - by rewrite H0.
  - apply zlen_ztake. rewrite zlen_concat_app. lia.
Qed.

Lemma assemble_spec n d :
  payload_inv n d -> 0 < n -> payloadLength d = n ->
  assemble (payloadBlocks d) n = Ok (received d).
Proof.
  intros [Hn [(Hb & _ & H0)|(prev & b & Hb & _ & Hl & Hp & Hs)]] Hpos Heq; [lia|].
  assert (Hc : received d = concat (payloadBlocks d)).
  { unfold received. apply ztake_all. rewrite Hb, zlen_concat_app. lia. }
  assert (Hz : zlen (concat (payloadBlocks d)) = n) by (rewrite Hb, zlen_concat_app; lia).
  rewrite Hc. unfold assemble.
  destruct (payloadBlocks d) as [|b0 [|b1 bs]]; [by destruct prev|simpl; by rewrite app_nil_r|].
  rewrite gather_spec; [by rewrite ztake_0|lia|]. rewrite u8_new_len by lia. lia.
Qed.

Lemma payload_step_spec limit n chunk d off :
  wf_decoder limit d -> expectedPayloadLength d = Some n -> 0 <= off <= zlen chunk ->
  let k := Z.min (n - payloadLength d) (zlen chunk - off) in
  exists d' o, payload_step chunk d off n = Ok (d', off + k, o) /\ wf_decoder limit d' /\
    match o with
    | None => payloadLength d + k < n /\
              buffered d' = buffered d ++ subarray chunk off (off + k)
    | Some p => p = received d ++ subarray chunk off (off + k) /\ zlen p = n /\ buffered d' = []
    end.
Proof.
  intros [Ho Hh Hb Hl Hr Hp] He Hoff k. rewrite He in Hp. destruct Hp as (Hh0 & Hn & Hlt & Hinv).
  destruct (copy_payload_spec n chunk (length chunk) d off Hinv Hoff) as
    (d' & Hc & Hi & Hpl & Hrec & Hhd & Hhl & Hml & Hex & Hst); [unfold zlen; lia|].
  fold k in Hc, Hpl, Hrec. unfold payload_step. rewrite Hc. simpl.
  destruct (payloadLength d' =? n) eqn:E; bools.
  - rewrite (assemble_spec n d') by (done || lia). simpl.
    eexists _, _. split; [reflexivity|]. split; [|split; [done|split]].
    + constructor; simpl; try congruence. lia.
    + by rewrite (received_len n d') by done.
    + unfold buffered. simpl. by rewrite Hhl, Hh0.
  - eexists _, _. split; [reflexivity|]. split; [|split].
    + constructor; try congruence. rewrite Hex, He. destruct Hi as [? ?].
      split; [congruence|]. split; [done|]. split; [lia|]. by split.
    + destruct Hi. lia.
    + unfold buffered. rewrite Hex, He, Hrec. by rewrite app_assoc.
Qed.

(** * The decoder refines the stream parser *)

Lemma zdrop_split {A} (l : list A) a b :
  0 <= a -> a <= b -> zdrop a l = subarray l a b ++ zdrop b l.
Proof.
  intros. unfold subarray. rewrite <- (ztake_zdrop (b - a) (zdrop a l)) at 1.
  rewrite zdrop_zdrop by lia. repeat f_equal. lia.
Qed.

Lemma parses_pending limit bs payloads r :
  parses limit bs payloads r -> zlen bs < 4 -> payloads = [] /\ r = Pending bs.
Proof. intros H ?; inversion H; subst; first [lia|done]. Qed.

Lemma wf_buffered_pending limit d rest payloads r :
  wf_decoder limit d -> rest = [] ->
  parses limit (buffered d ++ rest) payloads r -> payloads = [] /\ r = Pending (buffered d).
Proof.
  intros [Ho Hh Hb Hl Hr Hp] -> Hps. rewrite app_nil_r in Hps.
  unfold MAX_UINT32 in Hr. unfold buffered in *.
  destruct (expectedPayloadLength d) as [n|].
  - destruct Hp as (Hh0 & Hn & Hlt & Hi).
    pose proof (received_len _ _ Hi) as Hrl.
    pose proof (be32_head_bytes n (received d) ltac:(lia)) as Hhd.
    assert (Hz : zlen (be32_bytes n ++ received d) = 4 + payloadLength d) by (rewrite zlen_app, Hrl; done).
    inversion Hps; subst; first [lia|done].
  - apply parses_pending in Hps; [done|]. rewrite zlen_ztake; lia.
Qed.

Definition push_result (limit : Z) (frames payloads : list (list Z)) (r : stream_end)
    (out : decoder * result frame_error (list (list Z))) : Prop :=
  match r with
  | Pending tail => exists d', out = (d', Ok (frames ++ payloads)) /\
                      wf_decoder limit d' /\ buffered d' = tail
  | TooLong n => exists d', out = (d', Err (LengthExceeded n limit)) /\ state d' = Failed
  end.

Lemma push_result_app limit frames p payloads r out :
  push_result limit (frames ++ [p]) payloads r out ->
  push_result limit frames (p :: payloads) r out.
Proof. unfold push_result. destruct r; [|done]. by rewrite <- app_assoc. Qed.

Lemma parses_inv_frame limit n p rest payloads r :
  0 <= n <= limit -> limit <= MAX_UINT32 -> zlen p = n ->
  parses limit (be32_bytes n ++ p ++ rest) payloads r ->
  exists payloads', payloads = p :: payloads' /\ parses limit rest payloads' r.
Proof.
  unfold MAX_UINT32. intros Hn Hl Hp Hps.
  pose proof (be32_head_bytes n (p ++ rest) ltac:(lia)) as Hh.
  assert (Hz : zlen (be32_bytes n ++ p ++ rest) = 4 + n + zlen rest) by (rewrite !zlen_app, Hp, be32_bytes_len; lia).
  pose proof (zlen_nonneg rest).
  inversion Hps as [bs|bs|bs|bs pls r' H1 H2 H3 H4]; subst; try lia.
  rewrite Hh in H4 |- *.
  replace (zdrop 4 (be32_bytes (zlen p) ++ p ++ rest)) with (p ++ rest) in * by (rewrite zdrop_app_r; done).
  rewrite zdrop_app_r, Z.sub_diag, zdrop_0 in H4 by lia.
  rewrite ztake_app_l, ztake_all by lia. eauto.
Qed.

Lemma parses_inv_long limit bs payloads r :
  4 <= zlen bs -> limit < be32_head bs -> parses limit bs payloads r ->
  payloads = [] /\ r = TooLong (be32_head bs).
Proof. intros H1 H2 H; inversion H; subst; first [lia|done]. Qed.

Section PushLoop.
Context (limit : Z) (chunk : list Z) (Hbytes : Forall is_byte chunk).

Definition loop_refines (fuel : nat) : Prop :=
  forall d off frames payloads r,
    wf_decoder limit d -> 0 <= off <= zlen chunk -> zlen chunk - off <= Z.of_nat fuel ->
    parses limit (buffered d ++ zdrop off chunk) payloads r ->
    push_result limit frames payloads r (push_loop fuel chunk d off frames).

Lemma with_payload_refines fuel d off n frames payloads r :
  loop_refines fuel -> wf_decoder limit d -> expectedPayloadLength d = Some n ->
  0 <= off <= zlen chunk ->
  zlen chunk - (off + Z.min (n - payloadLength d) (zlen chunk - off)) <= Z.of_nat fuel ->
  parses limit (buffered d ++ zdrop off chunk) payloads r ->
  push_result limit frames payloads r
    (match payload_step chunk d off n with
     | Err e => (d, Err e)
     | Ok (d, off, Some payload) => push_loop fuel chunk d off (frames ++ [payload])
     | Ok (d, off, None) => push_loop fuel chunk d off frames
     end).
Proof using Hbytes.
  intros IH Hwf He Hoff Hfuel Hps.
  destruct (payload_step_spec limit n chunk d off Hwf He Hoff) as (d' & o & Hs & Hwf' & Ho).
  rewrite Hs. set (k := Z.min _ _) in *.
  pose proof (wf_phase _ _ Hwf) as Hph. rewrite He in Hph. destruct Hph as (_ & Hn & Hlt & Hi & _).
  pose proof (wf_limit_range _ _ Hwf).
  rewrite (zdrop_split chunk off (off + k)), app_assoc in Hps by lia.
  destruct o as [p|].
  - destruct Ho as (-> & Hzp & Hbuf). unfold buffered in Hps. rewrite He, <- !app_assoc in Hps.
    rewrite (app_assoc (received d)) in Hps.
    apply parses_inv_frame in Hps as (pls & -> & Hps); [|lia..|done].
    apply push_result_app. apply IH; [done|lia|lia|by rewrite Hbuf].
  - destruct Ho as (Hk & Hbuf). apply IH; [done|lia|lia|by rewrite Hbuf].
Qed.

Lemma push_loop_refines fuel : loop_refines fuel.
Proof using Hbytes.
  induction fuel as [|fuel IH]; intros d off frames payloads r Hwf Hoff Hfuel Hps;
    simpl push_loop; destruct (off <? zlen chunk) eqn:E; bools; try lia.
  1,3: apply (wf_buffered_pending limit) in Hps as [-> ->]; [|done|apply zdrop_all; lia];
    exists d; by rewrite app_nil_r.
  pose proof (wf_phase _ _ Hwf) as Hph.
  pose proof (wf_limit_range _ _ Hwf) as Hlr. unfold MAX_UINT32 in Hlr.
  destruct (expectedPayloadLength d) as [n|] eqn:He.
  { apply with_payload_refines; try done; try lia. }
  unfold FRAME_HEADER_LENGTH.
  set (hb := Z.min (4 - headerLength d) (zlen chunk - off)).
  pose proof (wf_header _ _ Hwf) as Hh.
  assert (Hsub : zlen (subarray chunk off (off + hb)) = hb) by (rewrite zlen_subarray; lia).
  destruct (u8_set (header d) _ _) as [h|] eqn:Hset.
  2: { unfold u8_set in Hset. case_res. bools. lia. }
  pose proof (u8_set_len _ _ _ _ (proj1 Hph) Hset) as Hlh.
  pose proof (ztake_u8_set _ _ _ _ (proj1 Hph) Hset) as Hth. rewrite Hsub in Hth.
  assert (Hhb : Forall is_byte h).
  { unfold u8_set in Hset. case_res. pose proof (wf_bytes _ _ Hwf).
    unfold subarray, ztake, zdrop. repeat (apply Forall_app; split); auto using Forall_take, Forall_drop. }
  rewrite (zdrop_split chunk off (off + hb)), app_assoc in Hps by lia.
  unfold buffered in Hps. rewrite He, <- Hth in Hps. simpl.
  destruct (headerLength d + hb <? 4) eqn:Hc; bools.
  { apply IH; [|lia|lia|done].
    destruct Hwf. constructor; simpl; try done; try congruence; lia. }
  replace (headerLength d + hb) with 4 in * by lia.
  rewrite (ztake_all 4) in Hps by lia.
  set (rest := zdrop (off + hb) chunk) in *.
  pose proof (zlen_nonneg rest). pose proof (be32_head_range h Hhb).
  pose proof (be32_head_app h rest ltac:(lia)) as Hhr.
  rewrite (wf_limit _ _ Hwf).
  destruct (be32_head h >? limit) eqn:Hbig; bools.
  { apply parses_inv_long in Hps as [-> ->]; [|rewrite zlen_app; lia|lia].
    rewrite Hhr. eexists. by split. }
  assert (Hh4 : be32_bytes (be32_head h) = h).
  { unfold zlen in *. destruct h as [|b0 [|b1 [|b2 [|b3 [|? ?]]]]]; simpl in *; try lia.
    by apply be32_bytes_head. }
  destruct (be32_head h =? 0) eqn:Hz; bools.
  { rewrite <- Hh4, Hz in Hps. change (be32_bytes 0 ++ rest) with (be32_bytes 0 ++ [] ++ rest) in Hps.
    apply parses_inv_frame in Hps as (pls & -> & Hps); [|lia|unfold MAX_UINT32; lia|done].
    apply push_result_app. apply IH; [|lia|lia|done].
    destruct Hwf. constructor; simpl; try done; try congruence; rewrite ?He; lia. }
  apply with_payload_refines; simpl; try done; try lia.
  - destruct Hwf. constructor; simpl; try done; try congruence.
    split; [done|]. split; [lia|]. split; [lia|]. split; simpl; [lia|]. by left.
  - change (parses limit (be32_bytes (be32_head h) ++ rest) payloads r). by rewrite Hh4.
Qed.
End PushLoop.

(** * Composition of parses *)

Lemma parses_det limit bs p1 r1 p2 r2 :
  parses limit bs p1 r1 -> parses limit bs p2 r2 -> p1 = p2 /\ r1 = r2.
Proof.
  intros H. revert p2 r2. induction H; intros p2 r2 H'; inversion H'; subst; try lia; try done.
  match goal with IH : forall _ _, _ -> _, H : parses _ _ _ _ |- _ => apply IH in H as [-> ->] end.
  done.
Qed.

Lemma parses_total limit bs : Forall is_byte bs -> exists p r, parses limit bs p r.
Proof.
  remember (length bs) as n eqn:Hn. revert bs Hn.
  induction n as [n IH] using lt_wf_ind; intros bs -> Hb.
  destruct (decide (zlen bs < 4)); [eauto using parses_header|].
  destruct (decide (limit < be32_head bs)); [eexists _, _; apply parses_long; lia|].
  destruct (decide (zlen bs < 4 + be32_head bs)); [eexists _, _; apply parses_wait; lia|].
  pose proof (be32_head_range bs Hb).
  destruct (IH (length (zdrop (be32_head bs) (zdrop 4 bs)))) with (bs := zdrop (be32_head bs) (zdrop 4 bs))
    as (p & r & Hp); [|done|by apply Forall_drop, Forall_drop|].
  - unfold zdrop, zlen in *. rewrite !length_drop. lia.
  - eexists _, _. apply parses_frame; eauto; lia.
Qed.

Lemma parses_app limit a b p1 r1 p2 r :
  Forall is_byte a -> parses limit a p1 r1 ->
  match r1 with
  | Pending t => parses limit (t ++ b) p2 r
  | TooLong n => p2 = [] /\ r = TooLong n
  end -> parses limit (a ++ b) (p1 ++ p2) r.
Proof.
  intros Hb H. induction H as [bs|bs|bs|bs pls r' H1 H2 H3 H4 IH]; intros Hr; try done.
  - destruct Hr as [-> ->]. rewrite <- (be32_head_app bs b) by done.
    apply parses_long; [rewrite zlen_app; pose proof (zlen_nonneg b); lia|rewrite be32_head_app; lia].
  - pose proof (be32_head_range bs Hb). pose proof (zlen_nonneg b).
    specialize (IH (Forall_drop _ _ _ (Forall_drop _ _ _ Hb)) Hr).
    rewrite <- !zdrop_app_l in IH by (rewrite ?zlen_zdrop; lia). simpl.
    rewrite <- (ztake_app_l _ _ b) by (rewrite zlen_zdrop; lia).
    rewrite <- (zdrop_app_l 4 bs b) by lia.
    rewrite <- (be32_head_app bs b) in IH |- * by done.
    apply parses_frame; rewrite ?be32_head_app, ?zlen_app by done; try lia.
    rewrite be32_head_app in IH by done. done.
Qed.

Lemma push_refines limit d chunk payloads r :
  wf_decoder limit d -> Forall is_byte chunk -> parses limit (buffered d ++ chunk) payloads r ->
  push_result limit [] payloads r (push d chunk).
Proof.
  intros Hwf Hb Hp. unfold push. rewrite (wf_open _ _ Hwf).
  apply push_loop_refines; try done; unfold zlen; lia.
Qed.

Lemma wf_buffered_bytes limit d : wf_decoder limit d -> forall bs, Forall is_byte (received d ++ bs) ->
  Forall is_byte (buffered d).
Proof.
  intros Hwf bs [Hb _]%Forall_app. unfold buffered. destruct (expectedPayloadLength d).
  - apply Forall_app. auto with inkpi.
  - apply Forall_take, (wf_bytes _ _ Hwf).
Qed.

Lemma push_all_refines limit chunks d payloads r :
  wf_decoder limit d -> Forall is_byte (buffered d) -> Forall is_byte (concat chunks) ->
  parses limit (buffered d ++ concat chunks) payloads r ->
  push_result limit [] payloads r (push_all d chunks).
Proof.
  revert d payloads r. induction chunks as [|c chunks IH]; intros d payloads r Hwf Hd Hb Hp; simpl in *.
  - apply (wf_buffered_pending limit) in Hp as [-> ->]; [|done|done]. simpl. eauto.
  - apply Forall_app in Hb as [Hc Hb]. rewrite app_assoc in Hp.
    destruct (parses_total limit (buffered d ++ c)) as (p1 & r1 & Hp1); [by apply Forall_app|].
    assert (Hdc : Forall is_byte (buffered d ++ c)) by (by apply Forall_app).
    pose proof (push_refines limit d c p1 r1 Hwf Hc Hp1) as Hpush.
    destruct r1 as [t|n].
    + destruct Hpush as (d1 & -> & Hwf1 & Hbuf).
      assert (Ht : Forall is_byte t).
      { clear -Hp1 Hdc. remember (Pending t) as r1. induction Hp1; simplify_eq; try done.
        apply IHHp1; [done|by apply Forall_drop, Forall_drop]. }
      destruct (parses_total limit (t ++ concat chunks)) as (p2 & r2 & Hp2); [by apply Forall_app|].
      pose proof (parses_app limit _ (concat chunks) p1 (Pending t) p2 r2 Hdc Hp1 Hp2) as Hall.
      destruct (parses_det _ _ _ _ _ _ Hp Hall) as [-> ->].
      rewrite <- Hbuf in Hp2, Ht. specialize (IH d1 p2 r2 Hwf1 Ht Hb Hp2).
      destruct r2 as [t2|n2]; destruct IH as (d2 & -> & Hd2); exists d2; by split.
    + pose proof (parses_app limit _ (concat chunks) p1 (TooLong n) [] (TooLong n) Hdc Hp1 (conj eq_refl eq_refl)) as Hall.
      destruct (parses_det _ _ _ _ _ _ Hp Hall) as [-> ->].
      destruct Hpush as (d1 & -> & Hf). eexists. by split.
Qed.

Lemma new_decoder_wf options d :
  new_decoder options = Ok d -> wf_decoder (maxFrameLength d) d /\ buffered d = [].
Proof.
  unfold new_decoder. intros H. inv_bind. simplify_eq. unfold resolveMaxFrameLength in Hv.
  case_res; bools. split; [|done]. constructor; simpl; try done; try lia.
  all: repeat constructor; unfold is_byte; lia.
Qed.

Lemma encodeFrame_eq payload :
  zlen payload <= MAX_UINT32 -> encodeFrame payload = Ok (be32_bytes (zlen payload) ++ payload).
Proof.
  intros Hl. unfold encodeFrame. pose proof (zlen_nonneg payload).
  assert (Hn : u8_new (FRAME_HEADER_LENGTH + zlen payload) = 0 :: 0 :: 0 :: 0 :: u8_new (zlen payload)).
  { unfold u8_new, FRAME_HEADER_LENGTH. by rewrite Z2Nat.inj_add by lia. }
  rewrite Hn. destruct (zlen payload >? MAX_UINT32) eqn:E; bools; [lia|].
  set (n := zlen payload) in *. unfold be32_bytes.
  set (b0 := ushr n 24). set (b1 := ushr n 16). set (b2 := ushr n 8).
  change (u8_store (u8_store (u8_store (u8_store _ 0 b0) 1 b1) 2 b2) 3 n) with
    (to_uint8 b0 :: to_uint8 b1 :: to_uint8 b2 :: to_uint8 n :: u8_new n).
  assert (Hz : zlen (u8_new n) = n) by (by apply u8_new_len).
  rewrite u8_set_ok; rewrite !zlen_cons || idtac; fold n; [|unfold FRAME_HEADER_LENGTH; lia].
  do 2 f_equal. unfold FRAME_HEADER_LENGTH. simpl.
  rewrite (zdrop_all (4 + n)) by (rewrite !zlen_cons; lia). by rewrite app_nil_r.
Qed.

Lemma encodeFrame_ok payload frame :
  encodeFrame payload = Ok frame ->
  zlen payload <= MAX_UINT32 /\ frame = be32_bytes (zlen payload) ++ payload.
Proof.
  intros H. destruct (zlen payload >? MAX_UINT32) eqn:E; bools.
  - unfold encodeFrame in H. rewrite (proj2 (Z.gtb_lt _ _)) in H by lia. done.
  - rewrite encodeFrame_eq in H by lia. by simplify_eq.
Qed.

Lemma frames_parse limit payloads frames :
  0 <= limit <= MAX_UINT32 ->
  Forall2 (fun p f => zlen p <= limit /\ encodeFrame p = Ok f) payloads frames ->
  parses limit (concat frames) payloads (Pending []).
Proof.
  intros Hl. induction 1 as [|p f payloads frames [Hp Hf] _ IH]; simpl.
  { by apply parses_header. }
  apply encodeFrame_ok in Hf as [_ ->]. pose proof (zlen_nonneg p) as Hz.
  pose proof (zlen_nonneg (concat frames)). rewrite <- app_assoc. unfold MAX_UINT32 in Hl.
  pose proof (be32_head_bytes (zlen p) (p ++ concat frames) ltac:(lia)) as Hh.
  pose proof (parses_frame limit (be32_bytes (zlen p) ++ p ++ concat frames) payloads (Pending [])) as Hfr.
  rewrite Hh in Hfr. rewrite !zlen_app, be32_bytes_len in Hfr.
  change (zdrop 4 (be32_bytes (zlen p) ++ p ++ concat frames)) with (p ++ concat frames) in Hfr.
  rewrite ztake_app_l, ztake_all, zdrop_app_r, Z.sub_diag, zdrop_0 in Hfr by lia.
  apply Hfr; try lia. done.
Qed.

(** * Properties *)

(** C3: the decoder refines the stream parser.  Whatever chunks the transport cuts the byte
    stream into, pushing them yields the payloads the whole stream parses to and leaves
    exactly the unfinished tail buffered, or fails on the first frame whose announced length
    exceeds the limit; no buffer write is out of range and no loop runs out of fuel. *)
Theorem decoder_refines_stream_parser options d chunks payloads r :
  new_decoder options = Ok d -> Forall is_byte (concat chunks) ->
  parses (maxFrameLength d) (concat chunks) payloads r ->
  match r with
  | Pending tail =>
      exists d', push_all d chunks = (d', Ok payloads) /\ state d' = Open /\ buffered d' = tail
  | TooLong n =>
      exists d', push_all d chunks = (d', Err (LengthExceeded n (maxFrameLength d))) /\ state d' = Failed
  end.
Proof.
  intros Hn Hb Hp. destruct (new_decoder_wf _ _ Hn) as [Hwf Hbuf].
  assert (H := push_all_refines _ chunks d payloads r Hwf).
  rewrite Hbuf in H. specialize (H (Forall_nil_2 _) Hb Hp).
  destruct r; destruct H as (d' & H); exists d'; [|done].
  destruct H as (-> & Hwf' & Ht). split; [done|]. split; [by apply wf_open in Hwf'|done].
Qed.

(** The round trip.  Payloads framed with [encodeFrame], concatenated and cut at
    arbitrary points, come back unchanged and in order, and the stream ends cleanly. *)
Theorem framed_payloads_survive_chunking options d payloads frames chunks :
  new_decoder options = Ok d ->
  Forall2 (fun p f => zlen p <= maxFrameLength d /\ encodeFrame p = Ok f) payloads frames ->
  Forall is_byte (concat frames) -> concat chunks = concat frames ->
  exists d', push_all d chunks = (d', Ok payloads) /\ snd (end_ d') = Ok tt.
Proof.
  intros Hn Hf Hb Hc. destruct (new_decoder_wf _ _ Hn) as [Hwf Hbuf].
  assert (H := push_all_refines _ chunks d payloads (Pending []) Hwf).
  rewrite Hbuf, Hc in H. specialize (H (Forall_nil_2 _) Hb).
  destruct H as (d' & -> & Hwf' & Ht).
  { apply frames_parse; [apply (wf_limit_range _ _ Hwf)|done]. }
  exists d'. split; [done|]. unfold end_. rewrite (wf_open _ _ Hwf').
  pose proof (wf_phase _ _ Hwf') as Hph. pose proof (wf_header _ _ Hwf'). unfold buffered in Ht.
  destruct (expectedPayloadLength d'); [by destruct (app_nil_r (be32_bytes z)); inversion Ht|].
  assert (headerLength d' = 0) as ->; [|done].
  apply (f_equal zlen) in Ht. rewrite zlen_ztake in Ht by lia. done.
Qed.

(** [assertCompleteFrame] accepts exactly the encodings of payloads within the limit:
    a frame that passes is the encoding of the payload after its prefix, and the encoding of
    a payload within the limit passes. *)
Theorem assertCompleteFrame_exact frame options limit :
  Forall is_byte frame -> resolveMaxFrameLength options = Ok limit ->
  assertCompleteFrame frame options = Ok tt <->
  exists payload, zlen payload <= limit /\ encodeFrame payload = Ok frame.
Proof.
  intros Hb Hl. unfold assertCompleteFrame. rewrite Hl. simpl.
  assert (Hlim : 0 <= limit <= MAX_UINT32).
  { unfold resolveMaxFrameLength in Hl. case_res; bools; lia. }
  split.
  - intros H. repeat (case_res; bools). pose proof (be32_head_range frame Hb).
    unfold FRAME_HEADER_LENGTH in *. exists (zdrop 4 frame).
    assert (Hz : zlen (zdrop 4 frame) = be32_head frame) by (rewrite zlen_zdrop; lia).
    split; [lia|]. rewrite encodeFrame_eq by lia. rewrite Hz. f_equal.
    rewrite <- (ztake_zdrop 4 frame) at 3. f_equal. unfold zlen in *.
    destruct frame as [|b0 [|b1 [|b2 [|b3 bs]]]]; simpl in *; try lia.
    apply be32_bytes_head. exact (Forall_take _ 4 _ Hb).
  - intros (p & Hp & He). apply encodeFrame_ok in He as [Hm ->]. pose proof (zlen_nonneg p).
    unfold MAX_UINT32 in *. rewrite be32_head_bytes, zlen_app, be32_bytes_len by lia.
    unfold FRAME_HEADER_LENGTH.
    repeat match goal with |- context [if ?c then _ else _] => destruct c eqn:?; bools; try lia end.
    done.
Qed.

(** * Witnesses *)

(** Two frames cut inside the second header, under the default limit. *)
Definition sample_chunks : list (list Z) := [[0; 0; 0; 2; 7]; [8; 0; 0]; [0; 1; 9]].
Definition sample_stream : list Z := concat sample_chunks.

Definition sample_decoder : decoder :=
  MkDecoder (u8_new FRAME_HEADER_LENGTH) 0 100 [] None 0 None 0 Open.

Lemma sample_bytes_ok : Forall is_byte sample_stream.
Proof. repeat constructor; unfold is_byte; lia. Qed.

Lemma decoder_refines_stream_parser_witness :
  exists d', push_all sample_decoder sample_chunks = (d', Ok [[7; 8]; [9]]) /\
    state d' = Open /\ buffered d' = [].
Proof.
  apply (decoder_refines_stream_parser (Some (NInt 100)) sample_decoder sample_chunks
           [[7; 8]; [9]] (Pending []) eq_refl sample_bytes_ok).
  eapply (parses_frame 100); [done|done|done|].
  eapply (parses_frame 100); [done|done|done|].
  by apply parses_header.
Defined.

Lemma framed_payloads_survive_chunking_witness :
  exists d', push_all sample_decoder sample_chunks = (d', Ok [[7; 8]; [9]]) /\ snd (end_ d') = Ok tt.
Proof.
  apply (framed_payloads_survive_chunking (Some (NInt 100)) sample_decoder _
           [[0; 0; 0; 2; 7; 8]; [0; 0; 0; 1; 9]]); [done| |exact sample_bytes_ok|done].
  repeat constructor; done.
Defined.

Lemma assertCompleteFrame_exact_witness :
  assertCompleteFrame [0; 0; 0; 2; 7; 8] (Some (NInt 100)) = Ok tt <->
  exists payload, zlen payload <= 100 /\ encodeFrame payload = Ok [0; 0; 0; 2; 7; 8].
Proof.
  apply assertCompleteFrame_exact; [|done]. repeat constructor; unfold is_byte; lia.
Defined.
