(* ===== verification/Cbor.v ===== *)
(** The CBOR codec of the wire protocol (packages/protocol/src/cbor): the growing output
    buffer of the encoder, the encoder, and the bounds-checked decoder.  CborProofs.v proves
    that the encoder writes the item bytes defined here and that the decoder inverts it. *)

From S2P Require Import Prelude Bytes Text.

Open Scope Z_scope.

Definition UINT32_BASE : Z := 0x100000000.
Definition MAX_UINT32 : Z := 0xffffffff.
Definition MAX_CONFIGURED_DEPTH : Z := 512.
Definition DEFAULT_MAX_CBOR_BYTE_LENGTH : Z := 16 * 1024 * 1024.
Definition DEFAULT_MAX_CBOR_CONTAINER_LENGTH : Z := 1000000.
Definition DEFAULT_MAX_CBOR_DEPTH : Z := 64.

(** * Values *)

(** A JavaScript value as the codec sees it.  An object is the list of its own enumerable
    string-keyed properties in creation order; [VOther] is any value whose [typeof] is none
    of the supported ones (undefined, a function, a symbol, a bigint). *)
Inductive value : Type :=
| VNull
| VBool (b : bool)
| VNum (n : number)
| VStr (s : ustring)
| VBytes (bs : list Z)
| VArr (items : list value)
| VObj (props : list (ustring * value))
| VOther (typeof : ustring).

(** The index an array-index key denotes: a canonical decimal below 2^32 - 1. *)
Fixpoint digits (acc : Z) (s : ustring) : option Z :=
  match s with
  | [] => Some acc
  | u :: s => if in_range 48 57 u then digits (acc * 10 + (u - 48)) s else None
  end.

Definition array_index (k : ustring) : option Z :=
  match k with
  | [] => None
  | [48] => Some 0
  | 48 :: _ => None
  | _ => match digits 0 k with
         | Some i => if i <? 4294967295 then Some i else None
         | None => None
         end
  end.

Section Entries.
Context {A : Type}.

Fixpoint insert_entry (i : Z) (e : ustring * A) (l : list (Z * (ustring * A))) :=
  match l with
  | [] => [(i, e)]
  | (j, f) :: l' => if i <? j then (i, e) :: l else (j, f) :: insert_entry i e l'
  end.

Fixpoint index_entries (props : list (ustring * A)) : list (Z * (ustring * A)) :=
  match props with
  | [] => []
  | e :: props =>
      match array_index (fst e) with
      | Some i => insert_entry i e (index_entries props)
      | None => index_entries props
      end
  end.

Definition is_string_key (e : ustring * A) : bool :=
  match array_index (fst e) with Some _ => false | None => true end.

(** [Object.entries(value)]: array-index keys in ascending order, then the others in
    creation order. *)
Definition object_entries (props : list (ustring * A)) : list (ustring * A) :=
  map snd (index_entries props) ++ List.filter is_string_key props.
End Entries.

(** * Numbers as binary64 *)

(** The number a 64-bit pattern denotes. *)
Definition number_of_bits (b : Z) : number :=
  let negative := 0 <? b / 2 ^ 63 in
  let e := b / 2 ^ 52 mod 2048 in
  let f := b mod 2 ^ 52 in
  let signed m := if negative then - m else m in
  if e =? 2047 then (if f =? 0 then NInf negative else NNaN)
  else if (e =? 0) && (f =? 0) then (if negative then NNegZero else NInt 0)
  else
    let m := if e =? 0 then f else f + 2 ^ 52 in
    let x := (if e =? 0 then 1 else e) - 1075 in
    if 0 <=? x then NInt (signed (m * 2 ^ x))
    else if m mod 2 ^ (- x) =? 0 then NInt (signed (m / 2 ^ (- x)))
    else NFrac b.

(** An integral double is at most 2^53 in magnitude or a multiple of its last place, so
    integer subtraction rounds to nearest, ties to even. *)
Definition round_int (z : Z) : Z :=
  if Z.abs z <=? 2 ^ 53 then z
  else
    let e := Z.log2 (Z.abs z) - 52 in
    let q := Z.abs z / 2 ^ e in
    let r := Z.abs z mod 2 ^ e in
    let half := 2 ^ (e - 1) in
    let q := if r <? half then q else if half <? r then q + 1 else if Z.even q then q else q + 1 in
    Z.sgn z * (q * 2 ^ e).

(** The eight bytes [DataView.setFloat64] writes, and what [getFloat64] reads. *)
Definition be64_bytes (b : Z) : list Z :=
  be32_bytes (b / UINT32_BASE) ++ be32_bytes (b mod UINT32_BASE).

Definition be64_read (bs : list Z) : Z := be32_head bs * UINT32_BASE + be32_head (zdrop 4 bs).

(** * Options and errors *)

Record CborOptions : Type := MkCborOptions {
  opt_maxByteLength : option number;
  opt_maxContainerLength : option number;
  opt_maxDepth : option number
}.

Record ResolvedCborOptions : Type := MkResolved {
  maxByteLength : Z;
  maxContainerLength : Z;
  maxDepth : Z
}.

Inductive length_kind : Type := ByteString | TextString | ArrayLength | MapLength.

Inductive cbor_error : Type :=
| OptionRange (maximum : Z)
| ByteLengthExceeded (limit : Z)
| DepthExceeded (limit : Z)
| NonFiniteNumber
| IntegerUnsafe
| NegativeUnsafe
| TextTooLong (limit : Z)
| BytesTooLong (limit : Z)
| ArrayTooLong (limit : Z)
| MapTooLong (limit : Z)
| Unsupported (typeof : ustring)
| TrailingData
| UnexpectedEnd
| DecodedUnsafe
| DecodedNonFinite
| InvalidUtf8
| KeyNotString
| DuplicateKey
| TagsUnsupported
| UnsupportedSimple
| UnsupportedInfo
| LengthExceeds (kind : length_kind) (length limit : Z)
| MalformedMajor
| BufferRange
| NoFuel.

Definition resolveLimit (value : number) (maximum : Z) : result cbor_error Z :=
  throw_if negb (isSafeInteger value) || (num_Z value <? 0) || (num_Z value >? maximum)
    with OptionRange maximum in
  Ok (num_Z value).

Definition resolveOptions (options : option CborOptions) : result cbor_error ResolvedCborOptions :=
  let get f d := default (NInt d) (options ≫= f) in
  let* b := resolveLimit (get opt_maxByteLength DEFAULT_MAX_CBOR_BYTE_LENGTH) MAX_UINT32 in
  let* c := resolveLimit (get opt_maxContainerLength DEFAULT_MAX_CBOR_CONTAINER_LENGTH) MAX_UINT32 in
  let* d := resolveLimit (get opt_maxDepth DEFAULT_MAX_CBOR_DEPTH) MAX_CONFIGURED_DEPTH in
  Ok (MkResolved b c d).

(** * The writer *)

(** [CborWriter]: a buffer whose first [offset] bytes are written. *)
Record CborWriter : Type := MkWriter {
  buffer : list Z;
  offset : Z;
  w_maxByteLength : Z
}.

Definition new_writer (limit : Z) : CborWriter := MkWriter (u8_new (Z.min 256 limit)) 0 limit.

(** The capacity loop of [ensureCapacity].  One round is enough: the new capacity is at
    least [required], which is at most the limit. *)
Fixpoint grow (fuel : nat) (limit required capacity : Z) : result cbor_error Z :=
  if capacity <? required then
    match fuel with
    | O => Err NoFuel
    | S fuel => grow fuel limit required (Z.min limit (Z.max required (capacity * 2)))
    end
  else Ok capacity.

Definition ensureCapacity (w : CborWriter) (additionalBytes : Z) : result cbor_error CborWriter :=
  let required := offset w + additionalBytes in
  throw_if required >? w_maxByteLength w with ByteLengthExceeded (w_maxByteLength w) in
  if required <=? zlen (buffer w) then Ok w
  else
    let* capacity := grow 1 (w_maxByteLength w) required (Z.max 1 (zlen (buffer w))) in
    match u8_set (u8_new capacity) (buffer w) 0 with
    | None => Err BufferRange
    | Some expanded => Ok (MkWriter expanded (offset w) (w_maxByteLength w))
    end.

(** [this.buffer[this.offset + i] = v] for consecutive [i], then the offset moves. *)
Fixpoint store_all (b : list Z) (i : Z) (vs : list Z) : list Z :=
  match vs with
  | [] => b
  | v :: vs => store_all (u8_store b i v) (i + 1) vs
  end.

Definition put (w : CborWriter) (vs : list Z) : CborWriter :=
  MkWriter (store_all (buffer w) (offset w) vs) (offset w + zlen vs) (w_maxByteLength w).

Definition writeByte (w : CborWriter) (v : Z) : result cbor_error CborWriter :=
  let* w := ensureCapacity w 1 in Ok (put w [v]).

Definition writeBytes (w : CborWriter) (bytes : list Z) : result cbor_error CborWriter :=
  let* w := ensureCapacity w (zlen bytes) in
  match u8_set (buffer w) bytes (offset w) with
  | None => Err BufferRange
  | Some b => Ok (MkWriter b (offset w + zlen bytes) (w_maxByteLength w))
  end.

Definition writeUint16 (w : CborWriter) (v : Z) : result cbor_error CborWriter :=
  let* w := ensureCapacity w 2 in Ok (put w [ushr v 8; v]).

Definition writeUint32 (w : CborWriter) (v : Z) : result cbor_error CborWriter :=
  let* w := ensureCapacity w 4 in Ok (put w [ushr v 24; ushr v 16; ushr v 8; v]).

Definition writeUint64 (w : CborWriter) (v : Z) : result cbor_error CborWriter :=
  let high := v / UINT32_BASE in
  let low := v - high * UINT32_BASE in
  let* w := writeUint32 w high in
  writeUint32 w low.

Definition writeFloat64 (w : CborWriter) (bits : Z) : result cbor_error CborWriter :=
  let* w := ensureCapacity w 9 in
  Ok (put w (0xfb :: be64_bytes bits)).

Definition finish (w : CborWriter) : list Z := ztake (offset w) (buffer w).

(** * The encoder *)

Definition writeArgument (w : CborWriter) (majorType value : Z) : result cbor_error CborWriter :=
  let prefix := Z.shiftl majorType 5 in
  if value <? 24 then writeByte w (Z.lor prefix value)
  else if value <=? 0xff then
    let* w := writeByte w (Z.lor prefix 24) in writeByte w value
  else if value <=? 0xffff then
    let* w := writeByte w (Z.lor prefix 25) in writeUint16 w value
  else if value <=? MAX_UINT32 then
    let* w := writeByte w (Z.lor prefix 26) in writeUint32 w value
  else
    let* w := writeByte w (Z.lor prefix 27) in writeUint64 w value.

(** The number branch of [encodeItem]. *)
Definition encodeNumber (w : CborWriter) (n : number) : result cbor_error CborWriter :=
  throw_if negb (isFinite n) with NonFiniteNumber in
  match n with
  | NFrac bits => writeFloat64 w bits
  | _ =>
      let value := num_Z n in
      if 0 <=? value then
        throw_if value >? MAX_SAFE_INTEGER with IntegerUnsafe in
        writeArgument w 0 value
      else
        let magnitude := round_int (-1 - value) in
        throw_if (magnitude <? 0) || (magnitude >? MAX_SAFE_INTEGER) with NegativeUnsafe in
        writeArgument w 1 magnitude
  end.

(** The string branch. *)
Definition encodeText (options : ResolvedCborOptions) (w : CborWriter) (s : ustring)
  : result cbor_error CborWriter :=
  let bytes := utf8_encode s in
  throw_if zlen bytes >? maxByteLength options with TextTooLong (maxByteLength options) in
  let* w := writeArgument w 3 (zlen bytes) in
  writeBytes w bytes.

(** [encodeItem(writer, key, depth, options)] on a property name. *)
Definition encodeKey (options : ResolvedCborOptions) (depth : Z) (k : ustring) (w : CborWriter)
  : result cbor_error CborWriter :=
  throw_if depth >? maxDepth options with DepthExceeded (maxDepth options) in
  encodeText options w k.

(** Run writes in sequence: the bodies of the two [for] loops. *)
Fixpoint in_sequence {A : Type} (step : A -> CborWriter -> result cbor_error CborWriter)
    (l : list A) (w : CborWriter) : result cbor_error CborWriter :=
  match l with
  | [] => Ok w
  | x :: l => let* w := step x w in in_sequence step l w
  end.

Fixpoint encodeItem (options : ResolvedCborOptions) (v : value) (depth : Z) (w : CborWriter)
  : result cbor_error CborWriter :=
  throw_if depth >? maxDepth options with DepthExceeded (maxDepth options) in
  match v with
  | VNull => writeByte w 0xf6
  | VBool false => writeByte w 0xf4
  | VBool true => writeByte w 0xf5
  | VNum n => encodeNumber w n
  | VStr s => encodeText options w s
  | VBytes bs =>
      throw_if zlen bs >? maxByteLength options with BytesTooLong (maxByteLength options) in
      let* w := writeArgument w 2 (zlen bs) in
      writeBytes w bs
  | VArr items =>
      throw_if zlen items >? maxContainerLength options with ArrayTooLong (maxContainerLength options) in
      let* w := writeArgument w 4 (zlen items) in
      in_sequence (fun write w => write w) (map (fun item => encodeItem options item (depth + 1)) items) w
  | VObj props =>
      let entries := object_entries (map (fun '(k, v) => (k, encodeItem options v (depth + 1))) props) in
      throw_if zlen entries >? maxContainerLength options with MapTooLong (maxContainerLength options) in
      let* w := writeArgument w 5 (zlen entries) in
      in_sequence (fun '(k, write_value) w =>
        let* w := encodeKey options (depth + 1) k w in write_value w) entries w
  | VOther typeof => Err (Unsupported typeof)
  end.

Definition encodeCbor (v : value) (options : option CborOptions) : result cbor_error (list Z) :=
  let* resolved := resolveOptions options in
  let* w := encodeItem resolved v 0 (new_writer (maxByteLength resolved)) in
  Ok (finish w).

(** * The decoder *)

Section Reader.
(** [CborReader]: the input and the options are fixed, the offset is threaded. *)
Context (bytes : list Z) (options : ResolvedCborOptions).

Definition readByte (off : Z) : result cbor_error (Z * Z) :=
  throw_if off >=? zlen bytes with UnexpectedEnd in
  Ok (u8_get bytes off, off + 1).

Definition readBytes (off length : Z) : result cbor_error (list Z * Z) :=
  throw_if off + length >? zlen bytes with UnexpectedEnd in
  Ok (subarray bytes off (off + length), off + length).

Definition readArgument (off additionalInformation : Z) : result cbor_error (Z * Z) :=
  if additionalInformation <? 24 then Ok (additionalInformation, off)
  else if additionalInformation =? 24 then readByte off
  else if additionalInformation =? 25 then
    let* (bs, off) := readBytes off 2 in
    Ok (Z.lor (Z.shiftl (u8_get bs 0) 8) (u8_get bs 1), off)
  else if additionalInformation =? 26 then
    let* (bs, off) := readBytes off 4 in
    let value := be32_head bs in
    throw_if negb (isSafeZ value) with DecodedUnsafe in
    Ok (value, off)
  else if additionalInformation =? 27 then
    let* (bs, off) := readBytes off 8 in
    let high := be32_head bs in
    let low := be32_head (zdrop 4 bs) in
    let value := round_int (high * UINT32_BASE + low) in
    throw_if negb (isSafeZ value) with DecodedUnsafe in
    Ok (value, off)
  else Err UnsupportedInfo.

Definition readLength (off additionalInformation : Z) (kind : length_kind) (limit : Z)
  : result cbor_error (Z * Z) :=
  let* (length, off) := readArgument off additionalInformation in
  throw_if length >? limit with LengthExceeds kind length limit in
  Ok (length, off).

Definition readSimple (off additionalInformation : Z) : result cbor_error (value * Z) :=
  if additionalInformation =? 20 then Ok (VBool false, off)
  else if additionalInformation =? 21 then Ok (VBool true, off)
  else if additionalInformation =? 22 then Ok (VNull, off)
  else if additionalInformation =? 27 then
    let* (bs, off) := readBytes off 8 in
    let n := number_of_bits (be64_read bs) in
    throw_if negb (isFinite n) with DecodedNonFinite in
    throw_if isInteger n && negb (isSafeInteger n) with DecodedUnsafe in
    Ok (VNum n, off)
  else Err UnsupportedSimple.

(** The [for] loop of an array: [item] reads the next element. *)
Fixpoint readItems (item : Z -> result cbor_error (value * Z)) (n : nat) (acc : list value) (off : Z)
  : result cbor_error (list value * Z) :=
  match n with
  | O => Ok (acc, off)
  | S n =>
      let* (v, off) := item off in
      readItems item n (acc ++ [v]) off
  end.

(** The [for] loop of a map; [keys] is the set of keys seen. *)
Fixpoint readEntries (item : Z -> result cbor_error (value * Z)) (n : nat)
    (keys : list ustring) (acc : list (ustring * value)) (off : Z)
  : result cbor_error (list (ustring * value) * Z) :=
  match n with
  | O => Ok (acc, off)
  | S n =>
      let* (key, off) := item off in
      match key with
      | VStr key =>
          throw_if bool_decide (key ∈ keys) with DuplicateKey in
          let* (v, off) := item off in
          readEntries item n (key :: keys) (acc ++ [(key, v)]) off
      | _ => Err KeyNotString
      end
  end.

(** [readItem]: the recursion is bounded by the depth check; [fuel] only serves the
    structural recursion (see [decodeCbor]). *)
Fixpoint readItem (fuel : nat) (depth off : Z) : result cbor_error (value * Z) :=
  match fuel with
  | O => Err NoFuel
  | S fuel =>
      throw_if depth >? maxDepth options with DepthExceeded (maxDepth options) in
      let* (initial, off) := readByte off in
      let majorType := Z.shiftr initial 5 in
      let additionalInformation := Z.land initial 0x1f in
      if majorType =? 0 then
        let* (v, off) := readArgument off additionalInformation in
        Ok (VNum (NInt v), off)
      else if majorType =? 1 then
        let* (v, off) := readArgument off additionalInformation in
        let value := -1 - v in
        throw_if negb (isSafeZ value) with DecodedUnsafe in
        Ok (VNum (NInt value), off)
      else if majorType =? 2 then
        let* (length, off) := readLength off additionalInformation ByteString (maxByteLength options) in
        let* (bs, off) := readBytes off length in
        Ok (VBytes bs, off)
      else if majorType =? 3 then
        let* (length, off) := readLength off additionalInformation TextString (maxByteLength options) in
        let* (bs, off) := readBytes off length in
        match utf8_decode bs with
        | Some s => Ok (VStr s, off)
        | None => Err InvalidUtf8
        end
      else if majorType =? 4 then
        let* (length, off) := readLength off additionalInformation ArrayLength (maxContainerLength options) in
        let* (items, off) := readItems (readItem fuel (depth + 1)) (Z.to_nat length) [] off in
        Ok (VArr items, off)
      else if majorType =? 5 then
        let* (length, off) := readLength off additionalInformation MapLength (maxContainerLength options) in
        let* (props, off) := readEntries (readItem fuel (depth + 1)) (Z.to_nat length) [] [] off in
        Ok (VObj props, off)
      else if majorType =? 6 then Err TagsUnsupported
      else if majorType =? 7 then readSimple off additionalInformation
      else Err MalformedMajor
  end.
End Reader.

(** [maxDepth + 2] levels of fuel reach every depth the check lets through, and the check
    itself at the first one it does not. *)
Definition decodeCbor (bytes : list Z) (options : option CborOptions) : result cbor_error value :=
  let* resolved := resolveOptions options in
  let* (v, off) := readItem bytes resolved (Z.to_nat (maxDepth resolved + 2)) 0 0 in
  throw_if negb (off =? zlen bytes) with TrailingData in
  Ok v.
