(* ===== verification/CborProofs.v ===== *)
(** What the CBOR codec of Cbor.v does: the growing buffer of the writer refines appending
    to a byte string, the encoder writes [item_bytes] exactly for the values that [fits] its
    limits, and the decoder inverts it. *)

From S2P Require Import Prelude Bytes Text Cbor.

Open Scope Z_scope.

(** * The encoding, as bytes *)

Definition argument_bytes (majorType v : Z) : list Z :=
  let prefix := majorType * 32 in
  if v <? 24 then [prefix + v]
  else if v <=? 0xff then [prefix + 24; v]
  else if v <=? 0xffff then [prefix + 25; v / 256; v mod 256]
  else if v <=? Cbor.MAX_UINT32 then (prefix + 26) :: be32_bytes v
  else (prefix + 27) :: be64_bytes v.

Definition number_bytes (n : number) : list Z :=
  match n with
  | NFrac bits => 0xfb :: be64_bytes bits
  | _ => if 0 <=? num_Z n then argument_bytes 0 (num_Z n) else argument_bytes 1 (-1 - num_Z n)
  end.

Definition text_bytes (s : ustring) : list Z :=
  argument_bytes 3 (zlen (utf8_encode s)) ++ utf8_encode s.

Fixpoint item_bytes (v : value) : list Z :=
  match v with
  | VNull => [0xf6]
  | VBool b => [if b then 0xf5 else 0xf4]
  | VNum n => number_bytes n
  | VStr s => text_bytes s
  | VBytes bs => argument_bytes 2 (zlen bs) ++ bs
  | VArr items => argument_bytes 4 (zlen items) ++ concat (map item_bytes items)
  | VObj props =>
      argument_bytes 5 (zlen props) ++
      concat (map (fun '(k, bs) => text_bytes k ++ bs)
                (object_entries (map (fun '(k, v) => (k, item_bytes v)) props)))
  | VOther _ => []
  end.

(** The values the encoder accepts under given limits, whatever their encoded size. *)
Definition number_fits (n : number) : bool :=
  match n with
  | NInt z => (-1 - MAX_SAFE_INTEGER <=? z) && (z <=? MAX_SAFE_INTEGER)
  | NNegZero | NFrac _ => true
  | NInf _ | NNaN => false
  end.

Definition text_fits (o : ResolvedCborOptions) (s : ustring) : bool :=
  zlen (utf8_encode s) <=? maxByteLength o.

Fixpoint fits (o : ResolvedCborOptions) (v : value) (depth : Z) : bool :=
  (depth <=? maxDepth o) &&
  match v with
  | VNull | VBool _ => true
  | VNum n => number_fits n
  | VStr s => text_fits o s
  | VBytes bs => zlen bs <=? maxByteLength o
  | VArr items =>
      (zlen items <=? maxContainerLength o) && forallb (fun i => fits o i (depth + 1)) items
  | VObj props =>
      (zlen props <=? maxContainerLength o) &&
      forallb (fun '(k, v) => (depth + 1 <=? maxDepth o) && text_fits o k && fits o v (depth + 1)) props
  | VOther _ => false
  end.

(** Induction over the elements of arrays and the properties of objects. *)
Section ValueInd.
Context (P : value -> Prop).
Context (Hnull : P VNull) (Hbool : forall b, P (VBool b)) (Hnum : forall n, P (VNum n))
        (Hstr : forall s, P (VStr s)) (Hbytes : forall bs, P (VBytes bs))
        (Harr : forall items, Forall P items -> P (VArr items))
        (Hobj : forall props, Forall (fun kv => P (snd kv)) props -> P (VObj props))
        (Hother : forall t, P (VOther t)).

Fixpoint value_ind' (v : value) : P v :=
  match v with
  | VNull => Hnull
  | VBool b => Hbool b
  | VNum n => Hnum n
  | VStr s => Hstr s
  | VBytes bs => Hbytes bs
  | VArr items => Harr items
      ((fix go l : Forall P l :=
          match l with [] => Forall_nil_2 _ | x :: l => Forall_cons_2 _ _ _ (value_ind' x) (go l) end) items)
  | VObj props => Hobj props
      ((fix go l : Forall (fun kv => P (snd kv)) l :=
          match l with
          | [] => Forall_nil_2 _
          | kv :: l => Forall_cons_2 _ _ _ (value_ind' (snd kv)) (go l)
          end) props)
  | VOther t => Hother t
  end.
End ValueInd.

(** * Property order *)

Section EntriesLemmas.
Context {A B : Type}.
Implicit Types props : list (ustring * A).

Lemma insert_entry_perm (i : Z) (e : ustring * A) l : insert_entry i e l ≡ₚ (i, e) :: l.
Proof.
  induction l as [|[j f] l IH]; simpl; [done|]. case_match; [done|].
  rewrite IH. apply Permutation_swap.
Qed.

Lemma object_entries_perm props : object_entries props ≡ₚ props.
Proof.
  unfold object_entries. induction props as [|e props IH]; simpl; [done|].
  unfold is_string_key at 1. destruct (array_index (fst e)) as [i|]; simpl.
  - rewrite insert_entry_perm. simpl. by rewrite IH.
  - rewrite <- Permutation_middle. by rewrite IH.
Qed.

Lemma object_entries_len props : zlen (object_entries props) = zlen props.
Proof. unfold zlen. by rewrite (Permutation_length (object_entries_perm props)). Qed.

Lemma insert_entry_map (f : ustring * A -> ustring * B) i e l :
  insert_entry i (f e) (map (fun '(j, x) => (j, f x)) l) =
  map (fun '(j, x) => (j, f x)) (insert_entry i e l).
Proof.
  induction l as [|[j x] l IH]; simpl; [done|]. case_match; simpl; [done|]. by rewrite IH.
Qed.

(** The order of the properties depends on their names only. *)
Lemma object_entries_map (f : ustring * A -> ustring * B) props :
  (forall e, fst (f e) = fst e) -> object_entries (map f props) = map f (object_entries props).
Proof.
  intros Hf. unfold object_entries. rewrite map_app. f_equal.
  - assert (H : index_entries (map f props) = map (fun '(j, x) => (j, f x)) (index_entries props)).
    { induction props as [|e props IH]; simpl; [done|]. rewrite Hf.
      case_match; [|done]. by rewrite IH, insert_entry_map. }
    rewrite H, !map_map. apply map_ext. by intros [].
  - induction props as [|e props IH]; simpl; [done|].
    replace (is_string_key (f e)) with (is_string_key e) by (unfold is_string_key; by rewrite Hf).
    case_match; simpl; by rewrite IH.
Qed.
End EntriesLemmas.

(** The two uses of [object_entries] on mapped values. *)
Lemma entries_natural {A B} (f : A -> B) (props : list (ustring * A)) :
  object_entries (map (fun '(k, v) => (k, f v)) props) =
  map (fun '(k, v) => (k, f v)) (object_entries props).
Proof. apply (object_entries_map (fun '(k, v) => (k, f v))). by intros []. Qed.

Lemma zlen_map {A B} (f : A -> B) l : zlen (map f l) = zlen l.
Proof. unfold zlen. by rewrite length_map. Qed.

Lemma forallb_perm {A} (f : A -> bool) l k : l ≡ₚ k -> forallb f l = forallb f k.
Proof.
  induction 1; simpl; try congruence. by rewrite !andb_assoc, (andb_comm (f x)).
Qed.

(** * The writer appends *)

Definition wf_writer (w : CborWriter) : Prop :=
  0 <= offset w <= zlen (buffer w) /\ zlen (buffer w) <= w_maxByteLength w.

Lemma new_writer_wf limit : 0 <= limit -> wf_writer (new_writer limit).
Proof. intros. unfold wf_writer, new_writer. simpl. rewrite u8_new_len by lia. lia. Qed.

(** [op] appends [bs] when it fits the limit and throws otherwise. *)
Definition emits (op : CborWriter -> result cbor_error CborWriter) (bs : list Z) : Prop :=
  forall w, wf_writer w ->
    if offset w + zlen bs <=? w_maxByteLength w then
      exists w', op w = Ok w' /\ wf_writer w' /\ w_maxByteLength w' = w_maxByteLength w /\
                 offset w' = offset w + zlen bs /\ finish w' = finish w ++ bs
    else op w = Err (ByteLengthExceeded (w_maxByteLength w)).

Lemma ensureCapacity_spec w n :
  wf_writer w -> 0 <= n -> offset w + n <= w_maxByteLength w ->
  exists w', ensureCapacity w n = Ok w' /\ wf_writer w' /\
    w_maxByteLength w' = w_maxByteLength w /\ offset w' = offset w /\
    finish w' = finish w /\ offset w + n <= zlen (buffer w').
Proof.
  intros [Hw1 Hw2] Hn Hfit. unfold ensureCapacity.
  destruct (offset w + n >? w_maxByteLength w) eqn:E1; bools; [lia|].
  destruct (offset w + n <=? zlen (buffer w)) eqn:E2; bools.
  { exists w. unfold wf_writer. auto 10. }
  set (limit := w_maxByteLength w) in *. set (req := offset w + n) in *.
  set (cap := Z.min limit (Z.max req (Z.max 1 (zlen (buffer w)) * 2))).
  assert (Hcap : req <= cap <= limit) by lia.
  assert (Hg : grow 1 limit req (Z.max 1 (zlen (buffer w))) =
    Ok (if Z.max 1 (zlen (buffer w)) <? req then cap else Z.max 1 (zlen (buffer w)))).
  { simpl. destruct (_ <? req) eqn:E; [|done]. fold cap. destruct (cap <? req) eqn:E'; bools; [lia|done]. }
  rewrite Hg. simpl. clear Hg.
  set (c := if _ <? req then cap else _).
  assert (Hc : req <= c <= limit) by (subst c; destruct (_ <? req) eqn:?; bools; lia).
  assert (Hnew : zlen (u8_new c) = c) by (apply u8_new_len; lia).
  destruct (u8_set (u8_new c) (buffer w) 0) as [b|] eqn:Hs; [|unfold u8_set in Hs; case_res; bools; lia].
  pose proof (u8_set_len _ _ _ _ (Z.le_refl 0) Hs) as Hl.
  pose proof (ztake_u8_set _ _ _ _ (Z.le_refl 0) Hs) as Ht. rewrite ztake_0, Z.add_0_l in Ht. simpl in Ht.
  eexists. split; [done|]. unfold wf_writer, finish; simpl.
  repeat split; try lia.
  rewrite <- (ztake_ztake (offset w) (zlen (buffer w)) b) by lia. by rewrite Ht.
Qed.

Lemma ensureCapacity_over w n :
  w_maxByteLength w < offset w + n -> ensureCapacity w n = Err (ByteLengthExceeded (w_maxByteLength w)).
Proof. intros. unfold ensureCapacity. by rewrite (proj2 (Z.gtb_lt _ _)) by lia. Qed.

Lemma store_all_spec vs b i :
  0 <= i -> i + zlen vs <= zlen b ->
  zlen (store_all b i vs) = zlen b /\
  ztake (i + zlen vs) (store_all b i vs) = ztake i b ++ map to_uint8 vs.
Proof.
  revert b i. induction vs as [|v vs IH]; intros b i Hi Hl; simpl.
  - rewrite zlen_nil, Z.add_0_r, app_nil_r. done.
  - rewrite zlen_cons in *. pose proof (zlen_nonneg vs).
    destruct (IH (u8_store b i v) (i + 1)) as [H1 H2]; [lia|rewrite u8_store_len; lia|].
    rewrite u8_store_len in H1. split; [done|].
    replace (i + (1 + zlen vs)) with (i + 1 + zlen vs) by lia. rewrite H2.
    rewrite ztake_u8_store by lia. by rewrite <- app_assoc.
Qed.

Lemma put_spec w vs :
  wf_writer w -> offset w + zlen vs <= zlen (buffer w) ->
  wf_writer (put w vs) /\ finish (put w vs) = finish w ++ map to_uint8 vs.
Proof.
  intros [Hw1 Hw2] Hf. pose proof (zlen_nonneg vs).
  destruct (store_all_spec vs (buffer w) (offset w)) as [H1 H2]; [lia..|].
  unfold wf_writer, finish, put; simpl. rewrite H1, H2. split; [lia|done].
Qed.

(** Reserving room and storing emits the stored bytes. *)
Lemma emits_put vs bs :
  map to_uint8 vs = bs -> emits (fun w => let* w := ensureCapacity w (zlen vs) in Ok (put w vs)) bs.
Proof.
  intros <- w Hw. replace (zlen (map to_uint8 vs)) with (zlen vs) by (unfold zlen; by rewrite length_map).
  destruct (_ <=? _) eqn:E; bools.
  - destruct (ensureCapacity_spec w (zlen vs) Hw (zlen_nonneg _) E) as (w' & -> & Hw' & Hm & Ho & Hf & Hb).
    simpl. destruct (put_spec w' vs Hw') as [Hwf Hp]; [by rewrite Ho|].
    eexists. split; [done|]. split; [done|]. unfold put at 1 2; simpl. by rewrite Hp, Hm, Ho, Hf.
  - by rewrite ensureCapacity_over.
Qed.

Lemma emits_writeBytes bs : emits (fun w => writeBytes w bs) bs.
Proof.
  intros w Hw. unfold writeBytes. destruct (_ <=? _) eqn:E; bools.
  - destruct (ensureCapacity_spec w (zlen bs) Hw (zlen_nonneg _) E) as (w' & -> & Hw' & Hm & Ho & Hf & Hb).
    simpl. destruct Hw' as [Hw1 Hw2]. pose proof (zlen_nonneg bs).
    destruct (u8_set (buffer w') bs (offset w')) as [b|] eqn:Hs; [|unfold u8_set in Hs; case_res; bools; lia].
    pose proof (u8_set_len _ _ _ _ (proj1 Hw1) Hs) as Hl.
    pose proof (ztake_u8_set _ _ _ _ (proj1 Hw1) Hs) as Ht.
    eexists. split; [done|]. unfold wf_writer, finish in *; simpl. rewrite Ht, Hf, Hl, Ho, Hm in *.
    repeat split; lia.
  - by rewrite ensureCapacity_over.
Qed.

Lemma emits_seq op1 op2 bs1 bs2 :
  emits op1 bs1 -> emits op2 bs2 -> emits (fun w => let* w := op1 w in op2 w) (bs1 ++ bs2).
Proof.
  intros H1 H2 w Hw. specialize (H1 w Hw). rewrite zlen_app. pose proof (zlen_nonneg bs2).
  destruct (offset w + zlen bs1 <=? w_maxByteLength w) eqn:E1; bools.
  - destruct H1 as (w1 & -> & Hw1 & Hm1 & Ho1 & Hf1). simpl. specialize (H2 w1 Hw1).
    rewrite Ho1, Hm1 in H2. rewrite Z.add_assoc.
    destruct (_ <=? _) eqn:E2; [|done].
    destruct H2 as (w2 & -> & Hw2 & Hm2 & Ho2 & Hf2). eexists. split; [done|].
    rewrite Hf2, Hf1, app_assoc. auto.
  - rewrite H1. by rewrite (proj2 (Z.leb_gt _ _)) by lia.
Qed.

Lemma emits_ext op op' bs : (forall w, op w = op' w) -> emits op' bs -> emits op bs.
Proof. intros He H w Hw. rewrite He. by apply H. Qed.

Lemma emits_nil : emits Ok [].
Proof.
  intros w Hw. rewrite zlen_nil, Z.add_0_r, app_nil_r. destruct (_ <=? _) eqn:E; [eauto 10|].
  bools. destruct Hw. lia.
Qed.

Lemma emits_in_sequence {A B C} (f : A -> B) (g : A -> C)
    (step : B -> CborWriter -> result cbor_error CborWriter) (bytes : C -> list Z) l :
  Forall (fun x => emits (step (f x)) (bytes (g x))) l ->
  emits (in_sequence step (map f l)) (concat (map bytes (map g l))).
Proof.
  induction 1 as [|x l Hx _ IH]; simpl; [apply emits_nil|by apply emits_seq].
Qed.

Lemma emits_wf op bs : emits op bs -> forall w w', wf_writer w -> op w = Ok w' -> wf_writer w'.
Proof.
  intros H w w' Hw Ho. specialize (H w Hw). destruct (_ <=? _); [|congruence].
  destruct H as (w1 & H1 & H2 & _). congruence.
Qed.

(** One element that is refused makes the sequence fail. *)
Lemma in_sequence_misfit {A B} (f : A -> B) step (ok : A -> bool) w l :
  forallb ok l = false ->
  Forall (fun x =>
    (ok x = true -> forall w w', wf_writer w -> step (f x) w = Ok w' -> wf_writer w') /\
    (ok x = false -> forall w, wf_writer w -> exists e, step (f x) w = Err e)) l ->
  wf_writer w -> exists e, in_sequence step (map f l) w = Err (e : cbor_error).
Proof.
  intros Hl H. revert w. induction H as [|x l [Hok Hko] _ IH]; intros w Hw; simpl in *; [done|].
  destruct (step (f x) w) as [w'|e] eqn:E; simpl; [|eauto].
  destruct (ok x); [by eauto|]. destruct (Hko eq_refl w Hw). congruence.
Qed.

(** * The encoder emits [item_bytes] *)

(** Disjoint bits: a shifted value and one below the shift. *)
Lemma lor_shiftl a k b : 0 <= k -> 0 <= b < 2 ^ k -> Z.lor (Z.shiftl a k) b = a * 2 ^ k + b.
Proof.
  intros Hk Hb. pose proof (Z.add_lor_land (Z.shiftl a k) b) as Hadd.
  rewrite <- (Z.shiftl_mul_pow2 a k) by done.
  assert (Hz : Z.land (Z.shiftl a k) b = 0); [|lia].
  apply Z.bits_inj_0. intros n. rewrite Z.land_spec. destruct (decide (n < k)).
  - by rewrite Z.shiftl_spec_low.
  - rewrite <- (Z.mod_small b (2 ^ k)), (Z.mod_pow2_bits_high b k n) by lia. apply andb_false_r.
Qed.

Lemma lor_prefix m v : 0 <= v < 32 -> Z.lor (Z.shiftl m 5) v = m * 32 + v.
Proof. apply (lor_shiftl m 5 v). lia. Qed.

Lemma lor_shift8 a b : 0 <= b < 256 -> Z.lor (Z.shiftl a 8) b = a * 256 + b.
Proof. apply (lor_shiftl a 8 b). lia. Qed.

Definition is_major (m : Z) : Prop := 0 <= m < 8.
Definition is_argument (v : Z) : Prop := 0 <= v <= MAX_SAFE_INTEGER.

Lemma emits_writeArgument m v :
  is_major m -> is_argument v -> emits (fun w => writeArgument w m v) (argument_bytes m v).
Proof.
  unfold is_major, is_argument, MAX_SAFE_INTEGER, writeArgument, argument_bytes. intros Hm Hv.
  assert (Hp : forall k, 0 <= k < 32 -> to_uint8 (Z.lor (Z.shiftl m 5) k) = m * 32 + k).
  { intros. rewrite lor_prefix by lia. apply to_uint8_id. unfold is_byte. lia. }
  assert (Hb : forall k, 0 <= k < 32 ->
    emits (fun w => writeByte w (Z.lor (Z.shiftl m 5) k)) [m * 32 + k]).
  { intros k Hk. apply (emits_put [_]). simpl. by rewrite Hp. }
  assert (H32 : forall u, 0 <= u < 2 ^ 32 -> emits (fun w => writeUint32 w u) (be32_bytes u)).
  { intros u Hu. apply (emits_put [_; _; _; _]). done. }
  unfold Cbor.MAX_UINT32.
  destruct (v <? 24) eqn:E1; [|destruct (v <=? 0xff) eqn:E2;
    [|destruct (v <=? 0xffff) eqn:E3; [|destruct (v <=? 0xffffffff) eqn:E4]]]; bools.
  - apply Hb. lia.
  - apply (emits_seq _ _ [_]); [apply Hb; lia|]. apply (emits_put [_]). simpl.
    rewrite to_uint8_id; [done|unfold is_byte; lia].
  - apply (emits_seq _ _ [_]); [apply Hb; lia|]. apply (emits_put [_; _]). simpl.
    rewrite ushr_div by lia. change (2 ^ 8) with 256. unfold to_uint8. repeat f_equal. zlia.
  - apply (emits_seq _ _ [_]); [apply Hb; lia|]. apply H32. lia.
  - apply (emits_seq _ _ [_]); [apply Hb; lia|]. unfold writeUint64, be64_bytes, UINT32_BASE.
    replace (v - v / 0x100000000 * 0x100000000) with (v mod 0x100000000) by zlia.
    apply emits_seq; apply H32; zlia.
Qed.

Lemma round_int_id z : Z.abs z <= 2 ^ 53 -> round_int z = z.
Proof. intros. unfold round_int. by rewrite (proj2 (Z.leb_le _ _)) by lia. Qed.

Lemma round_int_big z : 2 ^ 53 < z -> 2 ^ 53 <= round_int z.
Proof.
  intros Hz. unfold round_int. rewrite (Z.abs_eq z), (proj2 (Z.leb_gt _ _)) by lia.
  rewrite Z.sgn_pos, Z.mul_1_l by lia.
  set (e := Z.log2 z - 52).
  assert (Hl : 53 <= Z.log2 z) by (apply Z.log2_le_pow2; lia).
  assert (Hq : 2 ^ 52 <= z / 2 ^ e).
  { apply Z.div_le_lower_bound; [apply Z.pow_pos_nonneg; lia|].
    rewrite <- Z.pow_add_r by lia. replace (e + 52) with (Z.log2 z) by lia.
    apply Z.log2_spec. lia. }
  assert (He : 2 <= 2 ^ e) by (change 2 with (2 ^ 1) at 1; apply Z.pow_le_mono_r; lia).
  set (q' := if _ <? _ then _ else _).
  assert (z / 2 ^ e <= q') by (subst q'; repeat case_match; lia).
  change (2 ^ 53) with (2 ^ 52 * 2). nia.
Qed.

Lemma map_to_uint8_id bs : Forall is_byte bs -> map to_uint8 bs = bs.
Proof. induction 1 as [|b bs Hb _ IH]; simpl; [done|]. by rewrite IH, to_uint8_id. Qed.

Lemma be64_bytes_byte b : Forall is_byte (be64_bytes b).
Proof. apply Forall_app. auto with inkpi. Qed.

Lemma emits_encodeNumber n :
  number_fits n = true -> emits (fun w => encodeNumber w n) (number_bytes n).
Proof.
  unfold number_fits, encodeNumber, number_bytes, MAX_SAFE_INTEGER. intros Hn.
  destruct n as [z| |bits|s|]; try done; simpl.
  - bools. destruct (0 <=? z) eqn:E; bools.
    + eapply emits_ext; [intros w; destruct (z >? 9007199254740991) eqn:E'; bools; [lia|reflexivity]|].
      apply emits_writeArgument; unfold is_major, is_argument, MAX_SAFE_INTEGER; lia.
    + rewrite round_int_id by lia.
      eapply emits_ext; [intros w; destruct (_ || _) eqn:E';
        [apply orb_true_iff in E' as [?|?]; bools; lia|reflexivity]|].
      apply emits_writeArgument; unfold is_major, is_argument, MAX_SAFE_INTEGER; lia.
  - apply emits_writeArgument; unfold is_major, is_argument, MAX_SAFE_INTEGER; lia.
  - apply (emits_put (251 :: be64_bytes bits)), map_to_uint8_id.
    constructor; [unfold is_byte; lia|apply be64_bytes_byte].
Qed.

Lemma encodeNumber_misfit n w : number_fits n = false -> exists e, encodeNumber w n = Err e.
Proof.
  unfold number_fits, encodeNumber, MAX_SAFE_INTEGER. intros Hn.
  destruct n as [z| |bits|s|]; try done; simpl; [|eauto..].
  destruct (0 <=? z) eqn:E; bools.
  - destruct (z >? 9007199254740991) eqn:E'; [eauto|]. bools.
    apply andb_false_iff in Hn as [?|?]; bools; lia.
  - apply andb_false_iff in Hn as [?|?]; bools; [|lia].
    destruct (Z.eq_dec z (-1 - 2 ^ 53)) as [->|]; [eauto|].
    pose proof (round_int_big (-1 - z) ltac:(lia)).
    destruct (_ || _) eqn:E'; [eauto|]. bools. lia.
Qed.

(** The goal is a computation that throws. *)
Ltac throws := solve [eexists; reflexivity | simpl; eauto].

Section EncodeItem.
Context (o : ResolvedCborOptions) (Hlimit : maxByteLength o <= Cbor.MAX_UINT32)
        (Hcontainer : maxContainerLength o <= Cbor.MAX_UINT32).

Lemma is_argument_len {A} (l : list A) limit :
  zlen l <= limit -> limit <= Cbor.MAX_UINT32 -> is_argument (zlen l).
Proof. unfold is_argument, Cbor.MAX_UINT32, MAX_SAFE_INTEGER. pose proof (zlen_nonneg l). lia. Qed.

Lemma emits_encodeText s : text_fits o s = true -> emits (fun w => encodeText o w s) (text_bytes s).
Proof using Hlimit.
  unfold text_fits, encodeText, text_bytes. intros Hs. bools.
  eapply emits_ext; [intros w; destruct (_ >? _) eqn:E; bools; [lia|reflexivity]|].
  apply emits_seq; [|apply emits_writeBytes].
  apply emits_writeArgument; [unfold is_major; lia|by eapply is_argument_len].
Qed.

Lemma emits_encodeKey depth k :
  depth <= maxDepth o -> text_fits o k = true -> emits (encodeKey o depth k) (text_bytes k).
Proof using Hlimit.
  intros. eapply emits_ext; [|by apply emits_encodeText].
  intros w. unfold encodeKey. destruct (_ >? _) eqn:E; bools; [lia|reflexivity].
Qed.

(** A value within the limits is written as its bytes, as long as they fit the buffer. *)
Lemma emits_encodeItem v depth : fits o v depth = true -> emits (encodeItem o v depth) (item_bytes v).
Proof using Hlimit Hcontainer.
  revert depth. induction v as [|b|n|s|bs|items IH|props IH|t] using value_ind'; intros depth Hf;
    simpl in Hf; apply andb_true_iff in Hf as [Hd Hf]; bools;
    (eapply emits_ext; [intros w; simpl; destruct (depth >? maxDepth o) eqn:E; bools; [lia|reflexivity]|]).
  - by apply (emits_put [_]).
  - destruct b; by apply (emits_put [_]).
  - by apply emits_encodeNumber.
  - by apply emits_encodeText.
  - eapply emits_ext; [intros w; destruct (zlen bs >? maxByteLength o) eqn:E; bools; [lia|reflexivity]|].
    apply emits_seq; [|apply emits_writeBytes].
    apply emits_writeArgument; [unfold is_major; lia|by eapply is_argument_len].
  - eapply emits_ext; [intros w; destruct (_ >? _) eqn:E; bools; [lia|reflexivity]|]. simpl.
    apply emits_seq; [apply emits_writeArgument; [unfold is_major; lia|by eapply is_argument_len]|].
    rewrite <- (map_id (map item_bytes items)).
    apply (emits_in_sequence _ item_bytes (fun write w => write w) (fun bs => bs)).
    rewrite forallb_forall in H0. rewrite Forall_forall in IH |- *. intros x Hx.
    apply IH; [done|]. by apply H0, list_elem_of_In.
  - rewrite <- (object_entries_len props) in H.
    rewrite (forallb_perm _ _ _ (symmetry (object_entries_perm props))), forallb_forall in H0.
    eapply emits_ext.
    { intros w. rewrite entries_natural, zlen_map.
      destruct (_ >? _) eqn:E; bools; [lia|reflexivity]. }
    simpl. rewrite entries_natural, <- (object_entries_len props). apply emits_seq.
    { apply emits_writeArgument; [unfold is_major; lia|by eapply is_argument_len]. }
    apply (emits_in_sequence _ (fun '(k, v) => (k, item_bytes v))
             (fun '(k, wr) w => let* w := encodeKey o (depth + 1) k w in wr w)).
    rewrite Forall_forall in IH |- *. intros [k v] Hx. apply emits_seq.
    + apply list_elem_of_In, H0 in Hx. bools. by apply emits_encodeKey.
    + apply (IH (k, v)); [by rewrite <- object_entries_perm|].
      apply list_elem_of_In, H0 in Hx. by bools.
  - done.
Qed.

Lemma encodeKey_misfit depth k w :
  (depth <=? maxDepth o) && text_fits o k = false -> exists e, encodeKey o depth k w = Err e.
Proof.
  unfold encodeKey, encodeText, text_fits. intros H.
  destruct (depth >? maxDepth o) eqn:E1; [throws|]. bools.
  destruct (_ >? _) eqn:E2; [throws|]. bools. apply andb_false_iff in H as [?|?]; bools; lia.
Qed.

(** A value outside the limits is refused, whatever is already in the buffer. *)
Lemma encodeItem_misfit v depth w :
  fits o v depth = false -> wf_writer w -> exists e, encodeItem o v depth w = Err e.
Proof using Hlimit Hcontainer.
  revert depth w. induction v as [|b|n|s|bs|items IH|props IH|t] using value_ind';
    intros depth w Hf Hw; simpl in *; (destruct (depth >? maxDepth o) eqn:Ed; [throws|]); bools;
    rewrite (proj2 (Z.leb_le _ _)) in Hf by lia; simpl in Hf; try done; [| | | | |throws].
  - by apply encodeNumber_misfit.
  - unfold encodeText, text_fits in *. bools. destruct (_ >? _) eqn:E; [throws|]. bools. lia.
  - destruct (_ >? _) eqn:E; [throws|]. bools. lia.
  - destruct (_ >? _) eqn:E; [throws|]. bools.
    rewrite (proj2 (Z.leb_le _ _)) in Hf by lia. simpl in Hf.
    destruct (writeArgument w 4 _) as [w1|e] eqn:Ew; simpl; [|throws].
    apply (emits_wf _ _ (emits_writeArgument 4 (zlen items) ltac:(unfold is_major; lia)
            (is_argument_len _ _ E Hcontainer))) in Ew; [|done].
    apply (in_sequence_misfit _ _ (fun i => fits o i (depth + 1)) _ items); try done.
    rewrite Forall_forall in IH |- *. intros x Hx. split.
    + intros Hfit w2 w3 Hw2. by apply (emits_wf _ _ (emits_encodeItem x _ Hfit)).
    + intros. by apply IH.
  - destruct (_ >? _) eqn:E; [throws|].
    rewrite entries_natural, zlen_map, object_entries_len in E |- *. bools.
    rewrite (proj2 (Z.leb_le _ _)) in Hf by lia. simpl in Hf.
    destruct (writeArgument w 5 _) as [w1|e] eqn:Ew; simpl; [|throws].
    apply (emits_wf _ _ (emits_writeArgument 5 (zlen props) ltac:(unfold is_major; lia)
            (is_argument_len _ _ E Hcontainer))) in Ew; [|done].
    rewrite (forallb_perm _ _ _ (symmetry (object_entries_perm props))) in Hf.
    apply (in_sequence_misfit _ _ _ _ _ Hf); [|done].
    rewrite Forall_forall in IH |- *. intros [k v] Hx.
    assert (Hv : (k, v) ∈ props) by (by rewrite <- object_entries_perm). split.
    + intros [[Ek1%Z.leb_le Ek2]%andb_true_iff Ev]%andb_true_iff w2 w3 Hw2.
      by apply (emits_wf _ _ (emits_seq _ _ _ _ (emits_encodeKey _ k Ek1 Ek2) (emits_encodeItem v _ Ev))).
    + intros Hfit w2 Hw2. destruct ((depth + 1 <=? maxDepth o) && text_fits o k) eqn:Ek.
      * destruct (encodeKey o (depth + 1) k w2) as [w3|e] eqn:Ew3; simpl; [|throws].
        apply andb_true_iff in Ek as [Ek1%Z.leb_le Ek2].
        apply (IH (k, v)); [done..|]. by apply (emits_wf _ _ (emits_encodeKey _ k Ek1 Ek2) _ _ Hw2).
      * destruct (encodeKey_misfit _ _ w2 Ek) as [e ->]. throws.
Qed.
End EncodeItem.

(** * The encoder as a function of the value *)

Lemma resolveOptions_bounds options o :
  resolveOptions options = Ok o ->
  0 <= maxByteLength o <= Cbor.MAX_UINT32 /\ 0 <= maxContainerLength o <= Cbor.MAX_UINT32 /\
  0 <= maxDepth o <= MAX_CONFIGURED_DEPTH.
Proof.
  unfold resolveOptions. intros H. inv_bind. simplify_eq. simpl.
  unfold resolveLimit in *. repeat (case_res; bools). lia.
Qed.

Lemma encodeCbor_spec v options bs :
  encodeCbor v options = Ok bs <->
  exists o, resolveOptions options = Ok o /\ fits o v 0 = true /\
    zlen (item_bytes v) <= maxByteLength o /\ bs = item_bytes v.
Proof.
  unfold encodeCbor. destruct (resolveOptions options) as [o|e] eqn:Er; simpl;
    [|split; [done|by intros (? & ? & _)]].
  destruct (resolveOptions_bounds _ _ Er) as (Hb & Hc & Hd).
  pose proof (new_writer_wf (maxByteLength o) ltac:(lia)) as Hw.
  assert (Hoff : offset (new_writer (maxByteLength o)) = 0) by done.
  destruct (fits o v 0) eqn:Hf.
  - pose proof (emits_encodeItem o ltac:(lia) ltac:(lia) v 0 Hf _ Hw) as He. rewrite Hoff in He.
    simpl w_maxByteLength in He. destruct (_ <=? _) eqn:E; bools.
    + destruct He as (w' & -> & _ & _ & _ & Hfin). simpl. unfold finish at 2 in Hfin. rewrite Hoff, ztake_0 in Hfin.
      rewrite Hfin. simpl. split; [intros [= <-]; eauto 10|by intros (? & [= <-] & _ & _ & ->)].
    + rewrite He. split; [done|]. intros (? & [= <-] & _ & ? & _). lia.
  - destruct (encodeItem_misfit o ltac:(lia) ltac:(lia) v 0 _ Hf Hw) as [e ->].
    split; [done|]. intros (? & [= <-] & ? & _). congruence.
Qed.

(** * The decoder inverts the encoding *)

(** What survives the wire unchanged up to [canonical]: strings of code units, bytes,
    non-integral numbers given by their own bit pattern, integers above -2^53 (see
    [encoder_accepts_undecodable_integer]), distinct well-formed property names. *)
Fixpoint portable (v : value) : Prop :=
  match v with
  | VNull | VBool _ => True
  | VNum (NInt z) => - 2 ^ 53 < z
  | VNum (NFrac bits) => 0 <= bits < 2 ^ 64 /\ number_of_bits bits = NFrac bits
  | VNum _ => True
  | VStr s => Forall is_unit s
  | VBytes bs => Forall is_byte bs
  | VArr items => fold_right and True (map portable items)
  | VObj props =>
      NoDup (map fst props) /\ Forall (fun k => Forall is_unit k /\ well_formed k = true) (map fst props) /\
      fold_right and True (map (fun '(_, v) => portable v) props)
  | VOther _ => False
  end.

(** The value read back: -0 becomes 0, lone surrogates become U+FFFD, and properties are
    created in the order the encoder enumerated them. *)
Fixpoint canonical (v : value) : value :=
  match v with
  | VNum NNegZero => VNum (NInt 0)
  | VStr s => VStr (toWellFormed s)
  | VArr items => VArr (map canonical items)
  | VObj props => VObj (object_entries (map (fun '(k, v) => (k, canonical v)) props))
  | _ => v
  end.

Lemma fold_and_map {A} (P : A -> Prop) l : fold_right and True (map P l) <-> Forall P l.
Proof.
  induction l as [|x l IH]; simpl.
  - split; [constructor|done].
  - rewrite IH, Forall_cons. done.
Qed.

(** Step through the head of [readItem]: initial byte, major type, argument. *)
Ltac read_with H1 H2 Hr :=
  rewrite H1; cbn [bind_res]; rewrite H2; cbn [Z.eqb Pos.eqb]; rewrite Hr; cbn [bind_res].

Section Decode.
Context (bytes : list Z) (o : ResolvedCborOptions).

(** The input holds [bs] at [off]. *)
Definition has (off : Z) (bs : list Z) : Prop :=
  0 <= off <= zlen bytes /\ exists rest, zdrop off bytes = bs ++ rest.

Lemma has_len off bs : has off bs -> off + zlen bs <= zlen bytes.
Proof.
  intros [Ho [rest Hr]]. apply (f_equal zlen) in Hr. rewrite zlen_app, zlen_zdrop in Hr by lia.
  pose proof (zlen_nonneg rest). lia.
Qed.

Lemma has_app off a b : has off (a ++ b) -> has off a /\ has (off + zlen a) b.
Proof.
  intros H. pose proof (has_len _ _ H) as Hl. rewrite zlen_app in Hl.
  pose proof (zlen_nonneg a). pose proof (zlen_nonneg b).
  destruct H as [Ho [rest Hr]]. rewrite <- app_assoc in Hr. split; (split; [lia|]).
  - eauto.
  - exists rest. rewrite <- zdrop_zdrop by lia. rewrite Hr, zdrop_app_r, Z.sub_diag by lia. done.
Qed.

Lemma readByte_has off b bs : has off (b :: bs) -> readByte bytes off = Ok (b, off + 1).
Proof.
  intros H. pose proof (has_len _ _ H) as Hl. rewrite zlen_cons in Hl. pose proof (zlen_nonneg bs).
  destruct H as [Ho [rest Hr]]. unfold readByte. destruct (_ >=? _) eqn:E; bools; [lia|].
  do 2 f_equal. unfold u8_get. rewrite <- (Nat.add_0_r (Z.to_nat off)), <- lookup_drop.
  unfold zdrop in Hr. by rewrite Hr.
Qed.

Lemma readBytes_has off bs : has off bs -> readBytes bytes off (zlen bs) = Ok (bs, off + zlen bs).
Proof.
  intros H. pose proof (has_len _ _ H) as Hl. destruct H as [Ho [rest Hr]].
  unfold readBytes. destruct (_ >? _) eqn:E; bools; [lia|]. do 2 f_equal.
  unfold subarray. rewrite Hr. replace (off + zlen bs - off) with (zlen bs) by lia.
  by rewrite ztake_app_l, ztake_all by lia.
Qed.

(** The initial byte and the argument it announces. *)
Lemma argument_has m v off :
  is_major m -> is_argument v -> has off (argument_bytes m v) ->
  exists b, readByte bytes off = Ok (b, off + 1) /\ Z.shiftr b 5 = m /\
    readArgument bytes (off + 1) (Z.land b 0x1f) = Ok (v, off + zlen (argument_bytes m v)).
Proof.
  unfold is_major, is_argument, MAX_SAFE_INTEGER. intros Hm Hv.
  assert (Hb : forall k, 0 <= k < 32 -> Z.shiftr (m * 32 + k) 5 = m /\ Z.land (m * 32 + k) 31 = k).
  { intros k Hk. rewrite Z.shiftr_div_pow2 by lia. change 31 with (Z.ones 5).
    rewrite Z.land_ones by lia. change (2 ^ 5) with 32. split; zlia. }
  assert (Hsafe : forall z, 0 <= z <= 9007199254740991 -> isSafeZ z = true).
  { intros. unfold isSafeZ, MAX_SAFE_INTEGER. apply Z.leb_le. lia. }
  unfold argument_bytes, Cbor.MAX_UINT32.
  destruct (v <? 24) eqn:E1; [|destruct (v <=? 0xff) eqn:E2;
    [|destruct (v <=? 0xffff) eqn:E3; [|destruct (v <=? 0xffffffff) eqn:E4]]]; bools; intros H.
  all: eexists; (split; [by eapply readByte_has|]).
  all: match goal with |- context [Z.shiftr (_ * 32 + ?k) 5] =>
    destruct (Hb k ltac:(lia)) as [-> ->] end.
  all: (split; [done|]); unfold readArgument.
  - rewrite (proj2 (Z.ltb_lt _ _)) by lia. done.
  - apply (has_app _ [_]) in H as [_ H]. change (zlen [_]) with 1 in H. simpl.
    rewrite (readByte_has _ _ _ H). done || (do 2 f_equal; unfold zlen; simpl; lia).
  - apply (has_app _ [_]) in H as [_ H]. change (zlen [_]) with 1 in H.
    pose proof (readBytes_has _ _ H) as Hr. change (zlen [_; _]) with 2 in Hr.
    simpl. rewrite Hr. simpl. unfold u8_get. simpl. do 2 f_equal; [|unfold zlen; simpl; lia].
    pose proof (Z.mod_pos_bound v 256 ltac:(lia)). pose proof (Z.div_mod v 256 ltac:(lia)).
    rewrite lor_shift8; lia.
  - apply (has_app _ [_]) in H as [_ H]. change (zlen [_]) with 1 in H.
    pose proof (readBytes_has _ _ H) as Hr. rewrite be32_bytes_len in Hr.
    pose proof (be32_head_bytes v [] ltac:(lia)) as Hh. rewrite app_nil_r in Hh.
    change (26 <? 24) with false. change (26 =? 24) with false. change (26 =? 25) with false.
    change (26 =? 26) with true. cbv iota. rewrite Hr. cbn [bind_res]. rewrite Hh, Hsafe by lia. cbn [negb].
    do 2 f_equal. rewrite zlen_cons, be32_bytes_len. lia.
  - apply (has_app _ [_]) in H as [_ H]. change (zlen [_]) with 1 in H.
    pose proof (readBytes_has _ _ H) as Hr. change (zlen (be64_bytes v)) with 8 in Hr.
    unfold be64_bytes in *. unfold UINT32_BASE in *.
    assert (Hz : zdrop 4 (be32_bytes (v / 4294967296) ++ be32_bytes (v mod 4294967296)) =
                 be32_bytes (v mod 4294967296)) by reflexivity.
    pose proof (Z.mod_pos_bound v 4294967296 ltac:(lia)) as H2.
    pose proof (Z.div_mod v 4294967296 ltac:(lia)) as Hdm.
    assert (H1 : 0 <= v / 4294967296 < 4294967296) by lia.
    pose proof (be32_head_bytes _ (be32_bytes (v mod 4294967296)) H1) as Hh1.
    pose proof (be32_head_bytes _ [] H2) as Hh2. rewrite app_nil_r in Hh2.
    change (27 <? 24) with false. change (27 =? 24) with false. change (27 =? 25) with false.
    change (27 =? 26) with false. change (27 =? 27) with true. cbv iota.
    rewrite Hr. cbn [bind_res]. rewrite Hz, Hh1, Hh2.
    unfold UINT32_BASE. replace (v / 4294967296 * 4294967296 + v mod 4294967296) with v by lia.
    rewrite round_int_id, Hsafe by lia. cbn [negb]. do 2 f_equal.
    rewrite zlen_cons, zlen_app, !be32_bytes_len. lia.
Qed.

(** What [readItem] does on the encoding of an item, whatever the fuel left. *)
Definition reads (fuel : nat) (depth : Z) (bs : list Z) (v : value) : Prop :=
  forall off, has off bs -> readItem bytes o fuel depth off = Ok (v, off + zlen bs).

Context (Hlimit : maxByteLength o <= Cbor.MAX_UINT32)
        (Hcontainer : maxContainerLength o <= Cbor.MAX_UINT32).

Lemma readLength_has {A} m (l : list A) limit kind off :
  is_major m -> zlen l <= limit -> limit <= Cbor.MAX_UINT32 ->
  has off (argument_bytes m (zlen l)) ->
  exists b, readByte bytes off = Ok (b, off + 1) /\ Z.shiftr b 5 = m /\
    readLength bytes (off + 1) (Z.land b 0x1f) kind limit =
      Ok (zlen l, off + zlen (argument_bytes m (zlen l))).
Proof.
  intros Hm Hl Hlim H.
  destruct (argument_has m (zlen l) off Hm (is_argument_len l limit Hl Hlim) H) as (b & H1 & H2 & H3).
  exists b. split; [done|]. split; [done|]. unfold readLength. rewrite H3. simpl.
  destruct (_ >? _) eqn:E; bools; [lia|done].
Qed.

Lemma reads_text fuel depth s :
  depth <= maxDepth o -> text_fits o s = true -> Forall is_unit s ->
  reads (S fuel) depth (text_bytes s) (VStr (toWellFormed s)).
Proof using Hlimit.
  unfold text_fits, text_bytes. intros Hd Hf Hu off H. bools.
  apply has_app in H as [H1 H2]. cbn [readItem].
  destruct (depth >? maxDepth o) eqn:Ed; bools; [lia|].
  destruct (readLength_has 3 (utf8_encode s) (maxByteLength o) TextString off) as (b & Hb1 & Hb2 & Hr);
    [unfold is_major; lia|done..|].
  read_with Hb1 Hb2 Hr. rewrite (readBytes_has _ _ H2). simpl.
  rewrite utf8_decode_encode by done. do 2 f_equal. rewrite zlen_app. lia.
Qed.

Lemma be64_read_bytes bits : 0 <= bits < 2 ^ 64 -> be64_read (be64_bytes bits) = bits.
Proof.
  change (2 ^ 64) with 18446744073709551616. intros Hb. unfold be64_read, be64_bytes, UINT32_BASE.
  pose proof (Z.mod_pos_bound bits 4294967296 ltac:(lia)) as H2.
  pose proof (Z.div_mod bits 4294967296 ltac:(lia)) as Hdm.
  assert (H1 : 0 <= bits / 4294967296 < 4294967296) by lia.
  rewrite be32_head_bytes by done.
  rewrite zdrop_app_r by (rewrite be32_bytes_len; lia). rewrite be32_bytes_len, Z.sub_diag, zdrop_0.
  pose proof (be32_head_bytes _ [] H2) as Hh2. rewrite app_nil_r in Hh2. rewrite Hh2. lia.
Qed.

Lemma reads_number fuel depth n :
  depth <= maxDepth o -> number_fits n = true -> portable (VNum n) ->
  reads (S fuel) depth (number_bytes n) (canonical (VNum n)).
Proof.
  intros Hd Hf Hp off H. cbn [readItem].
  destruct (depth >? maxDepth o) eqn:Ed; bools; [lia|].
  assert (Harg : forall m v, is_major m -> is_argument v -> has off (argument_bytes m v) ->
    exists b, readByte bytes off = Ok (b, off + 1) /\ Z.shiftr b 5 = m /\
    readArgument bytes (off + 1) (Z.land b 0x1f) = Ok (v, off + zlen (argument_bytes m v)))
    by (intros; by apply argument_has).
  unfold is_major, is_argument in Harg. unfold number_bytes in *.
  destruct n as [z| |bits| |]; try done.
  - simpl in Hf, Hp. unfold MAX_SAFE_INTEGER in Hf. bools. cbn [num_Z] in *.
    destruct (0 <=? z) eqn:E; bools.
    + destruct (Harg 0 z) as (b & Hb1 & Hb2 & Hr); [lia|unfold MAX_SAFE_INTEGER; lia|done|].
      by read_with Hb1 Hb2 Hr.
    + destruct (Harg 1 (-1 - z)) as (b & Hb1 & Hb2 & Hr); [lia|unfold MAX_SAFE_INTEGER; lia|done|].
      read_with Hb1 Hb2 Hr. replace (-1 - (-1 - z)) with z by lia.
      unfold isSafeZ, MAX_SAFE_INTEGER. rewrite (proj2 (Z.leb_le _ _)) by lia. done.
  - cbn [num_Z] in *. destruct (Harg 0 0) as (b & Hb1 & Hb2 & Hr); [lia|unfold MAX_SAFE_INTEGER; lia|done|].
    by read_with Hb1 Hb2 Hr.
  - destruct Hp as [Hb Hn]. apply (has_app _ [_]) in H as [H1 H2].
    rewrite (readByte_has _ _ _ H1). cbn [bind_res].
    change (Z.shiftr 251 5) with 7. change (Z.land 251 31) with 27. cbn [Z.eqb Pos.eqb].
    change (zlen [251]) with 1 in H2. pose proof (readBytes_has _ _ H2) as Hr.
    change (zlen (be64_bytes bits)) with 8 in Hr. unfold readSimple. cbn [Z.eqb Pos.eqb]. rewrite Hr.
    cbn [bind_res]. rewrite be64_read_bytes, Hn by done. simpl.
    do 2 f_equal. rewrite zlen_cons. change (zlen (be64_bytes bits)) with 8. lia.
Qed.

Lemma readItems_reads {A} item (bytes_of : A -> list Z) (out : A -> value) l acc off :
  (forall x off, x ∈ l -> has off (bytes_of x) -> item off = Ok (out x, off + zlen (bytes_of x))) ->
  has off (concat (map bytes_of l)) ->
  readItems item (length l) acc off = Ok (acc ++ map out l, off + zlen (concat (map bytes_of l))).
Proof.
  revert acc off. induction l as [|x l IH]; intros acc off Hitem H; simpl in *.
  - by rewrite app_nil_r, zlen_nil, Z.add_0_r.
  - apply has_app in H as [H1 H2]. rewrite (Hitem x) by (done || left). simpl.
    rewrite IH; [|intros; apply Hitem; [by right|done]|done].
    rewrite <- app_assoc, zlen_app. do 2 f_equal. lia.
Qed.

Lemma readEntries_reads item (bytes_of : value -> list Z) (out : value -> value) l keys acc off :
  (forall k v off, (k, v) ∈ l -> has off (text_bytes k) -> item off = Ok (VStr k, off + zlen (text_bytes k))) ->
  (forall k v off, (k, v) ∈ l -> has off (bytes_of v) -> item off = Ok (out v, off + zlen (bytes_of v))) ->
  NoDup (map fst l) -> (forall k, k ∈ map fst l -> k ∉ keys) ->
  let bs := concat (map (fun '(k, bs) => text_bytes k ++ bs) (map (fun '(k, v) => (k, bytes_of v)) l)) in
  has off bs ->
  readEntries item (length l) keys acc off =
    Ok (acc ++ map (fun '(k, v) => (k, out v)) l, off + zlen bs).
Proof.
  revert keys acc off. induction l as [|[k v] l IH]; intros keys acc off Hk Hv Hnd Hin bs H; simpl in *.
  - unfold bs. by rewrite app_nil_r, (@zlen_nil Z), Z.add_0_r.
  - apply NoDup_cons in Hnd as [Hnk Hnd].
    apply has_app in H as [H1 H2]. pose proof (has_app _ _ _ H1) as [Hk1 Hv1].
    rewrite (Hk k v) by (done || left). simpl.
    rewrite bool_decide_eq_false_2 by (apply Hin; left).
    rewrite (Hv k v) by (done || left). simpl. rewrite zlen_app, Z.add_assoc in H2.
    rewrite IH; [| | |done| |done].
    + subst bs. rewrite <- app_assoc, !zlen_app. do 2 f_equal. lia.
    + intros; eapply Hk; [by right|done].
    + intros; eapply Hv; [by right|done].
    + intros k' Hk'. rewrite not_elem_of_cons. split; [by intros ->|]. apply Hin. by right.
Qed.

Lemma reads_item v fuel depth :
  portable v -> fits o v depth = true -> maxDepth o - depth < Z.of_nat fuel ->
  reads fuel depth (item_bytes v) (canonical v).
Proof using Hlimit Hcontainer.
  revert fuel depth. induction v as [|b|n|s|bs|items IH|props IH|t] using value_ind';
    intros fuel depth Hp Hf Hfuel; simpl in Hf; apply andb_true_iff in Hf as [Hd%Z.leb_le Hf];
    (destruct fuel as [|fuel]; [lia|]);
    try (by apply reads_number || by apply reads_text); try done;
    intros off H; cbn [readItem];
    (destruct (depth >? maxDepth o) eqn:Ed;
     [rewrite Z.gtb_ltb in Ed; apply Z.ltb_lt in Ed; lia|clear Ed]).
  - by rewrite (readByte_has _ _ _ H).
  - by destruct b; rewrite (readByte_has _ _ _ H).
  - apply Z.leb_le in Hf. apply has_app in H as [H1 H2].
    destruct (readLength_has 2 bs (maxByteLength o) ByteString off) as (b & Hb1 & Hb2 & Hr);
      [unfold is_major; lia|done..|].
    read_with Hb1 Hb2 Hr. rewrite (readBytes_has _ _ H2). simpl.
    do 2 f_equal. rewrite zlen_app. lia.
  - apply andb_true_iff in Hf as [Hl%Z.leb_le Hf]. apply has_app in H as [H1 H2].
    destruct (readLength_has 4 items (maxContainerLength o) ArrayLength off) as (b & Hb1 & Hb2 & Hr);
      [unfold is_major; lia|done..|].
    read_with Hb1 Hb2 Hr. unfold zlen at 1. rewrite Nat2Z.id.
    simpl in Hp. apply fold_and_map in Hp. rewrite forallb_forall in Hf.
    rewrite (readItems_reads _ item_bytes canonical items [] _); [|
      intros x off' Hx Hoff; rewrite Forall_forall in IH, Hp;
      apply IH; [done|by apply Hp|by apply Hf, list_elem_of_In|lia|done] | done].
    simpl. do 2 f_equal. rewrite zlen_app. lia.
  - apply andb_true_iff in Hf as [Hl%Z.leb_le Hf]. cbn [item_bytes] in *. apply has_app in H as [H1 H2].
    destruct (readLength_has 5 props (maxContainerLength o) MapLength off) as (b & Hb1 & Hb2 & Hr);
      [unfold is_major; lia|done..|].
    read_with Hb1 Hb2 Hr. unfold zlen at 1. rewrite Nat2Z.id.
    destruct Hp as (Hnd & Hkeys & Hp). rewrite forallb_forall in Hf.
    assert (Hin : forall k v, (k, v) ∈ object_entries props -> (k, v) ∈ props)
      by (intros k v; by rewrite object_entries_perm).
    rewrite <- (Permutation_length (object_entries_perm props)).
    rewrite entries_natural in *.
    rewrite (readEntries_reads _ item_bytes canonical (object_entries props) [] [] _); [| | | |set_solver|done].
    + simpl. rewrite (entries_natural canonical props). do 2 f_equal. rewrite zlen_app. lia.
    + intros k v off' Hx Hoff. apply Hin in Hx.
      assert (Hk : k ∈ map fst props) by (apply list_elem_of_In, in_map_iff; exists (k, v); by rewrite <- list_elem_of_In).
      rewrite Forall_forall in Hkeys. destruct (Hkeys k Hk) as [Hu Hw].
      apply list_elem_of_In, Hf in Hx. apply andb_true_iff in Hx as [[Hx1%Z.leb_le Hx2]%andb_true_iff _].
      destruct fuel as [|fuel]; [lia|].
      pose proof (reads_text fuel (depth + 1) k Hx1 Hx2 Hu off' Hoff) as Hr'.
      by rewrite toWellFormed_id in Hr'.
    + intros k v off' Hx Hoff. apply Hin in Hx. rewrite Forall_forall in IH.
      assert (Hpv : portable v).
      { clear -Hp Hx. induction props as [|[k' v'] props IHp]; [by inversion Hx|]. simpl in Hp.
        apply elem_of_cons in Hx as [[= -> ->]|Hx]; [tauto|]. apply IHp; tauto. }
      pose proof Hx as Hx'. apply list_elem_of_In, Hf in Hx'. apply andb_true_iff in Hx' as [_ Hx'].
      apply (IH (k, v) Hx); [done|done|lia|done].
    + rewrite (Permutation_map fst (object_entries_perm props)). done.
Qed.
End Decode.
