(* ===== verification/CborSafe.v ===== *)
(** What the CBOR decoder guarantees about any input, well-formed or hostile: it terminates,
    and an accepted value respects every configured limit. The properties of the codec are
    stated at the end of this file. *)

From S2P Require Import Prelude Bytes Text Cbor CborProofs.

Open Scope Z_scope.

(** * The contract of an accepted value *)

(** Nested no deeper than [maxDepth], every container and byte string within its limit, every
    integer exactly representable, every number finite, property names distinct. *)
Fixpoint decoded (o : ResolvedCborOptions) (depth : Z) (v : value) : Prop :=
  depth <= maxDepth o /\
  match v with
  | VNull | VBool _ => True
  | VNum n => isFinite n = true /\ (isInteger n = true -> isSafeInteger n = true)
  | VStr s => exists bs, utf8_decode bs = Some s /\ zlen bs <= maxByteLength o
  | VBytes bs => zlen bs <= maxByteLength o
  | VArr items =>
      zlen items <= maxContainerLength o /\
      fold_right and True (map (decoded o (depth + 1)) items)
  | VObj props =>
      zlen props <= maxContainerLength o /\ NoDup (map fst props) /\
      fold_right and True (map (fun '(_, v) => decoded o (depth + 1) v) props)
  | VOther _ => False
  end.

(** The items a value is made of, property names included. *)
Fixpoint nodes (v : value) : Z :=
  match v with
  | VArr items => 1 + fold_right Z.add 0 (map nodes items)
  | VObj props => 1 + fold_right Z.add 0 (map (fun '(_, v) => 1 + nodes v) props)
  | _ => 1
  end.

Lemma round_int_nonneg z : 0 <= z -> 0 <= round_int z.
Proof.
  intros Hz. destruct (Z.le_gt_cases z (2 ^ 53)).
  - by rewrite round_int_id by lia.
  - pose proof (round_int_big z ltac:(lia)). lia.
Qed.

Section Safe.
Context (bytes : list Z) (o : ResolvedCborOptions) (Hbytes : Forall is_byte bytes).

Lemma readByte_ok off b off' :
  0 <= off -> readByte bytes off = Ok (b, off') ->
  off' = off + 1 /\ off' <= zlen bytes /\ is_byte b.
Proof using Hbytes.
  unfold readByte. intros Ho H. case_res; bools. split; [done|]. split; [lia|]. unfold u8_get.
  destruct (bytes !! Z.to_nat off) eqn:E; simpl; [by eapply Forall_lookup_1|unfold is_byte; lia].
Qed.

Lemma readBytes_ok off length bs off' :
  0 <= off -> 0 <= length -> readBytes bytes off length = Ok (bs, off') ->
  off' = off + length /\ off' <= zlen bytes /\ zlen bs = length /\ Forall is_byte bs.
Proof using Hbytes.
  unfold readBytes. intros Ho Hl H. case_res; bools. unfold subarray.
  split; [done|]. split; [lia|]. split.
  - rewrite zlen_ztake; [lia|]. rewrite zlen_zdrop by lia. lia.
  - apply Forall_take, Forall_drop, Hbytes.
Qed.

Lemma u8_get_byte bs i : Forall is_byte bs -> is_byte (u8_get bs i).
Proof.
  intros H. unfold u8_get. destruct (bs !! Z.to_nat i) eqn:E; simpl;
    [by eapply Forall_lookup_1|unfold is_byte; lia].
Qed.

Lemma readArgument_ok off ai v off' :
  0 <= off <= zlen bytes -> 0 <= ai -> readArgument bytes off ai = Ok (v, off') ->
  off <= off' <= zlen bytes /\ 0 <= v <= MAX_SAFE_INTEGER.
Proof using Hbytes.
  unfold readArgument, MAX_SAFE_INTEGER. intros Ho Ha H.
  destruct (ai <? 24) eqn:E0; bools; [simplify_eq; lia|].
  destruct (ai =? 24) eqn:E1; [apply readByte_ok in H as (-> & ? & Hb); [unfold is_byte in Hb; lia|lia]|].
  assert (Hsafe : forall z, 0 <= z -> isSafeZ z = true -> z <= 9007199254740991).
  { unfold isSafeZ, MAX_SAFE_INTEGER. intros z Hz Hs%Z.leb_le. lia. }
  destruct (ai =? 25) eqn:E2; [|destruct (ai =? 26) eqn:E3; [|destruct (ai =? 27) eqn:E4; [|done]]];
    inv_bind; destruct v0 as [bs off1];
    (apply readBytes_ok in Hv as (-> & ? & _ & Hb); [|lia..]).
  - simplify_eq. pose proof (u8_get_byte bs 0 Hb) as Hb0. pose proof (u8_get_byte bs 1 Hb) as Hb1.
    unfold is_byte in *. rewrite lor_shift8 by lia. lia.
  - pose proof (be32_head_range bs Hb). repeat case_res; bools. split; [lia|]. eauto with lia.
  - pose proof (be32_head_range bs Hb). pose proof (be32_head_range (zdrop 4 bs) (Forall_drop _ _ _ Hb)).
    assert (Hr : 0 <= round_int (be32_head bs * UINT32_BASE + be32_head (zdrop 4 bs))).
    { apply round_int_nonneg. unfold UINT32_BASE. lia. }
    repeat case_res; bools. split; [lia|]. eauto with lia.
Qed.

Lemma readLength_ok off ai kind limit v off' :
  0 <= off <= zlen bytes -> 0 <= ai -> readLength bytes off ai kind limit = Ok (v, off') ->
  off <= off' <= zlen bytes /\ 0 <= v <= limit.
Proof using Hbytes.
  unfold readLength. intros Ho Ha H. inv_bind. destruct v0 as [l off1].
  apply readArgument_ok in Hv as [? ?]; [|done..]. case_res; bools. lia.
Qed.
(** What a successful read promises: it consumes input, at least a byte per item. *)
Definition good_read (depth : Z) (read : Z -> result cbor_error (value * Z)) : Prop :=
  forall off v off', 0 <= off <= zlen bytes -> read off = Ok (v, off') ->
    off + nodes v <= off' <= zlen bytes /\ decoded o depth v.

Lemma nodes_pos v : 1 <= nodes v.
Proof.
  induction v as [|b|n|s|bs|items IH|props IH|t] using value_ind'; simpl; try lia.
  - induction IH; simpl; lia.
  - induction IH as [|[k v] props H _ IH]; simpl in *; lia.
Qed.

Lemma readItems_good depth read n acc off vs off' :
  good_read depth read -> 0 <= off <= zlen bytes ->
  readItems read n acc off = Ok (vs, off') ->
  exists new, vs = acc ++ new /\ length new = n /\
    off + fold_right Z.add 0 (map nodes new) <= off' <= zlen bytes /\
    fold_right and True (map (decoded o depth) new).
Proof.
  intros Hread. revert acc off. induction n as [|n IH]; intros acc off Ho H; simpl in H.
  - simplify_eq. exists []. rewrite app_nil_r. simpl. split_and!; [done..|lia|lia|done].
  - inv_bind. destruct v as [x off1]. apply Hread in Hv as [Hx Hd]; [|done].
    pose proof (nodes_pos x). apply IH in H as (new & -> & Hn & Hs & Hnew); [|lia].
    exists (x :: new). rewrite <- app_assoc. simpl. split_and!; [done|lia|lia|lia|done|done].
Qed.

Lemma readEntries_good depth read n keys acc off vs off' :
  good_read depth read -> 0 <= off <= zlen bytes ->
  readEntries read n keys acc off = Ok (vs, off') ->
  exists new, vs = acc ++ new /\ length new = n /\
    off + fold_right Z.add 0 (map (fun '(_, v) => 1 + nodes v) new) <= off' <= zlen bytes /\
    NoDup (map fst new) /\ (forall k, k ∈ map fst new -> k ∉ keys) /\
    fold_right and True (map (fun '(_, v) => decoded o depth v) new).
Proof.
  intros Hread. revert keys acc off. induction n as [|n IH]; intros keys acc off Ho H; simpl in H.
  - simplify_eq. exists []. rewrite app_nil_r. simpl.
    split_and!; [done..|lia|lia|constructor|set_solver|done].
  - inv_bind. destruct v as [key off1]. apply Hread in Hv as [Hk _]; [|done].
    pose proof (nodes_pos key). destruct key as [| | |k| | | |]; try done.
    case_bool_decide; [done|]. inv_bind. destruct v as [x off2].
    apply Hread in Hv as [Hx Hd]; [|lia]. pose proof (nodes_pos x). simpl in Hk.
    apply IH in H as (new & -> & Hn & Hs & Hnd & Hfresh & Hnew); [|lia].
    exists ((k, x) :: new). rewrite <- app_assoc. simpl.
    split_and!; [done|lia|lia|lia| | |done|done].
    + constructor; [|done]. intros Hin. apply (Hfresh k Hin). left.
    + intros k' [->|Hin]%elem_of_cons; [done|]. intros Hk'. apply (Hfresh k' Hin). by right.
Qed.

Lemma readSimple_good off ai v off' depth :
  depth <= maxDepth o -> 0 <= off <= zlen bytes ->
  readSimple bytes off ai = Ok (v, off') ->
  off <= off' <= zlen bytes /\ nodes v = 1 /\ decoded o depth v.
Proof using Hbytes.
  unfold readSimple. intros Hd Ho H. repeat (case_res; [simpl; split_and!; (done || lia)|]).
  case_res. inv_bind. destruct v0 as [bs off1].
  apply readBytes_ok in Hv as (-> & Hl & _ & _); [|lia..].
  destruct (number_of_bits _) as [z| | | |] eqn:En; simpl in *; simplify_eq.
  - case_res; bools. simpl. split_and!; [lia|lia|done..|]. intros _. by destruct (isSafeZ z).
  - by simpl; split_and!; try lia.
  - by simpl; split_and!; try lia.
Qed.

Lemma readItem_good fuel depth : good_read depth (readItem bytes o fuel depth).
Proof using Hbytes.
  revert depth. induction fuel as [|fuel IH]; intros depth off v off' Ho H; [done|].
  cbn [readItem] in H. case_res; bools. inv_bind. destruct v0 as [initial off1].
  apply readByte_ok in Hv as (-> & Hl & Hi); [|lia].
  assert (Hai : 0 <= Z.land initial 31) by (apply Z.land_nonneg; lia).
  set (ai := Z.land initial 31) in *. clearbody ai. set (major := Z.shiftr initial 5) in *. clearbody major.
  assert (Hlen : forall kind limit l off2, readLength bytes (off + 1) ai kind limit = Ok (l, off2) ->
    off + 1 <= off2 <= zlen bytes /\ 0 <= l <= limit) by (intros; eapply readLength_ok; [| |done]; lia).
  repeat (match type of H with (if ?c then _ else _) = _ => destruct c eqn:? end); try done; inv_bind;
    try (destruct v0 as [l off2]).
  - apply readArgument_ok in Hv as [? Hr]; [|lia..]. simplify_eq. simpl. unfold isSafeZ.
    split_and!; [lia|lia|lia|done|]. intros _. apply Z.leb_le. lia.
  - apply readArgument_ok in Hv as [? Hr]; [|lia..]. case_res; bools. simpl. by split_and!; try lia.
  - apply Hlen in Hv as [? ?]. inv_bind. destruct v0 as [bs off3].
    apply readBytes_ok in Hv as (-> & ? & ? & _); [|lia..]. simplify_eq. simpl. split_and!; lia.
  - apply Hlen in Hv as [? ?]. inv_bind. destruct v0 as [bs off3].
    apply readBytes_ok in Hv as (-> & ? & ? & _); [|lia..]. case_res. simpl.
    split_and!; [lia..|]. exists bs. split; [done|lia].
  - apply Hlen in Hv as [? ?]. inv_bind. destruct v0 as [items off3].
    eapply readItems_good in Hv as (new & -> & ? & ? & ?); [|apply IH|lia]. simplify_eq/=.
    split_and!; [lia..| |done]. unfold zlen. lia.
  - apply Hlen in Hv as [? ?]. inv_bind. destruct v0 as [props off3].
    eapply readEntries_good in Hv as (new & -> & ? & ? & ? & _ & ?); [|apply IH|lia]. simplify_eq/=.
    split_and!; [lia..| |done|done]. unfold zlen. lia.
  - apply (readSimple_good _ _ _ _ depth) in H as (? & -> & ?); [|lia..]. split_and!; [lia|lia|done].
Qed.
End Safe.

(** * Termination: the depth check bounds the recursion *)

Section Total.
Context (bytes : list Z) (o : ResolvedCborOptions).

Definition never_starves {A} (m : result cbor_error A) : Prop := m <> Err NoFuel.

Lemma bind_never_starves {A B} (m : result cbor_error A) (k : A -> result cbor_error B) :
  never_starves m -> (forall a, never_starves (k a)) -> never_starves (bind_res m k).
Proof. destruct m as [a|e]; simpl; [auto|]. intros H _ [= ->]. by apply H. Qed.

Lemma readByte_never off : never_starves (readByte bytes off).
Proof. unfold never_starves, readByte. by case_res. Qed.

Lemma readBytes_never off length : never_starves (readBytes bytes off length).
Proof. unfold never_starves, readBytes. by case_res. Qed.

Lemma readArgument_never off ai : never_starves (readArgument bytes off ai).
Proof.
  unfold readArgument.
  repeat match goal with |- never_starves (if ?c then _ else _) => destruct c end; try done.
  - apply readByte_never.
  - apply bind_never_starves; [apply readBytes_never|]. by intros [].
  - apply bind_never_starves; [apply readBytes_never|]. intros []. by case_res.
  - apply bind_never_starves; [apply readBytes_never|]. intros []. by case_res.
Qed.

Lemma readLength_never off ai kind limit : never_starves (readLength bytes off ai kind limit).
Proof. apply bind_never_starves; [apply readArgument_never|]. intros []. by case_res. Qed.

Lemma readSimple_never off ai : never_starves (readSimple bytes off ai).
Proof.
  unfold readSimple.
  repeat match goal with |- never_starves (if ?c then _ else _) => destruct c end; try done.
  apply bind_never_starves; [apply readBytes_never|]. intros []. unfold never_starves. by repeat case_res.
Qed.

Lemma readItems_never read n acc off :
  (forall off, never_starves (read off)) -> never_starves (readItems read n acc off).
Proof.
  intros H. revert acc off. induction n as [|n IH]; intros acc off; [done|].
  apply bind_never_starves; [apply H|]. intros []. apply IH.
Qed.

Lemma readEntries_never read n keys acc off :
  (forall off, never_starves (read off)) -> never_starves (readEntries read n keys acc off).
Proof.
  intros H. revert keys acc off. induction n as [|n IH]; intros keys acc off; [done|].
  apply bind_never_starves; [apply H|]. intros [[] ?]; try done. case_bool_decide; [done|].
  apply bind_never_starves; [apply H|]. intros []. apply IH.
Qed.

Lemma readItem_never fuel depth off :
  0 <= maxDepth o + 1 - depth < Z.of_nat fuel -> never_starves (readItem bytes o fuel depth off).
Proof.
  revert depth off. induction fuel as [|fuel IH]; intros depth off Hf; cbn [readItem].
  - lia.
  - destruct (depth >? maxDepth o) eqn:E; [done|]. bools.
    apply bind_never_starves; [apply readByte_never|]. intros [initial off1].
    assert (IH' : forall off, never_starves (readItem bytes o fuel (depth + 1) off))
      by (intros; apply IH; lia).
    repeat match goal with |- never_starves (if ?c then _ else _) => destruct c end; try done;
      try (apply bind_never_starves; [apply readArgument_never || apply readLength_never|]; intros []).
    + done.
    + by case_res.
    + apply bind_never_starves; [apply readBytes_never|]. by intros [].
    + apply bind_never_starves; [apply readBytes_never|]. intros []. by case_res.
    + apply bind_never_starves; [by apply readItems_never|]. by intros [].
    + apply bind_never_starves; [by apply readEntries_never|]. by intros [].
    + apply readSimple_never.
Qed.
End Total.

(** * Properties *)

(** C4: the round trip.  Whatever options it is given, when the encoder produces bytes for a
    value made of wire data, the decoder under the same options reads the value back, up to
    -0, lone surrogates and the order of properties. *)
Theorem cbor_roundtrip v options bs :
  portable v -> encodeCbor v options = Ok bs -> decodeCbor bs options = Ok (canonical v).
Proof.
  intros Hp (o & Ho & Hf & Hz & ->)%encodeCbor_spec.
  destruct (resolveOptions_bounds _ _ Ho) as (Hb & Hc & Hd).
  unfold decodeCbor. rewrite Ho. cbn [bind_res].
  rewrite (reads_item _ o ltac:(lia) ltac:(lia) v); [|done|done|lia|].
  - cbn [bind_res]. by rewrite Z.add_0_l, Z.eqb_refl.
  - split; [pose proof (zlen_nonneg (item_bytes v)); lia|]. exists []. by rewrite app_nil_r.
Qed.

(** The encoder is exact.  It succeeds on exactly the values that respect the limits and
    whose encoding fits the byte limit, and then returns that encoding; in particular the
    growing buffer never writes out of range and never truncates. *)
Theorem encodeCbor_exact v options bs :
  encodeCbor v options = Ok bs <->
  exists o, resolveOptions options = Ok o /\ fits o v 0 = true /\
    zlen (item_bytes v) <= maxByteLength o /\ bs = item_bytes v.
Proof. apply encodeCbor_spec. Qed.

(** C29: the decoder is safe on hostile input.  A value it accepts respects the configured
    depth, container and string limits, has distinct property names and only finite, exactly
    represented numbers, and is made of no more items than the input has bytes. *)
Theorem decodeCbor_safe bytes options o v :
  Forall is_byte bytes -> resolveOptions options = Ok o -> decodeCbor bytes options = Ok v ->
  decoded o 0 v /\ nodes v <= zlen bytes.
Proof.
  intros Hb Ho H. unfold decodeCbor in H. rewrite Ho in H. cbn [bind_res] in H.
  inv_bind. destruct v0 as [v' off]. pose proof (zlen_nonneg bytes).
  apply readItem_good in Hv as [Hn Hd]; [|done|lia]. case_res. split; [done|lia].
Qed.

(** The decoder terminates on every input: the depth limit bounds its recursion. *)
Theorem decodeCbor_total bytes options : decodeCbor bytes options <> Err NoFuel.
Proof.
  unfold decodeCbor. destruct (resolveOptions options) as [o|e] eqn:Ho; simpl.
  - destruct (resolveOptions_bounds _ _ Ho) as (_ & _ & Hd).
    apply bind_never_starves; [apply readItem_never; lia|]. intros []. by case_res.
  - intros [= ->]. revert Ho. unfold resolveOptions, resolveLimit. repeat case_res; done.
Qed.

(** The two halves disagree on -2^53.  The encoder's guard on a negative integer tests
    [-1 - n] for safety, so it emits -2^53, while the decoder tests [n] itself and refuses
    the bytes. *)
Lemma encoder_accepts_undecodable_integer :
  exists bs, encodeCbor (VNum (NInt (- 2 ^ 53))) None = Ok bs /\
    decodeCbor bs None = Err DecodedUnsafe.
Proof. exists [59; 0; 31; 255; 255; 255; 255; 255; 255]. split; vm_compute; reflexivity. Qed.

(** * Witnesses *)

Definition sample : value :=
  VObj [([98], VArr [VNum (NInt 300); VNull; VNum NNegZero]); ([49], VStr [55357; 56832])].

Lemma sample_portable : portable sample.
Proof.
  simpl. split_and!; try done.
  - repeat constructor; set_solver.
  - repeat constructor; unfold is_unit; lia.
  - repeat constructor; unfold is_unit; lia.
Defined.

Definition sample_bytes : list Z := item_bytes sample.

Lemma cbor_roundtrip_witness :
  encodeCbor sample None = Ok sample_bytes /\
  decodeCbor sample_bytes None = Ok (canonical sample).
Proof.
  split; [vm_compute; reflexivity|].
  apply (cbor_roundtrip sample None sample_bytes); [exact sample_portable|vm_compute; reflexivity].
Defined.

Lemma decodeCbor_safe_witness :
  decoded (MkResolved DEFAULT_MAX_CBOR_BYTE_LENGTH DEFAULT_MAX_CBOR_CONTAINER_LENGTH DEFAULT_MAX_CBOR_DEPTH)
    0 (VArr [VNull]) /\ nodes (VArr [VNull]) <= zlen [0x81; 0xf6].
Proof.
  apply (decodeCbor_safe [0x81; 0xf6] None); [|reflexivity|vm_compute; reflexivity].
  repeat constructor; unfold is_byte; lia.
Defined.
