(* ===== verification/PriorityQueue.v ===== *)
(** The indexed binary heap of the task scheduler ([ScheduledPriorityQueue] of
    agent-core/src/lifecycle/scheduler.ts): an array heap with a map from the id of each
    entry to its index.  The laws of a comparator are a class; the heap is proved against
    them, and the scheduler discharges them for its two comparison functions. *)

From Stdlib Require Import Sorting.Sorted.
From S2P Require Import Prelude.

(** * Comparators *)

(** What [Array.sort]-style comparators promise: a total preorder read off the sign. *)
Class Comparator {A : Type} (compare : A -> A -> Z) : Prop := {
  compare_flip : forall x y, (compare x y <= 0 <-> 0 <= compare y x)%Z;
  compare_trans : forall x y z, (compare x y <= 0 -> compare y z <= 0 -> compare x z <= 0)%Z
}.

Lemma compare_refl {A} (compare : A -> A -> Z) `{!Comparator compare} x : (compare x x <= 0)%Z.
Proof. destruct (compare_flip x x). lia. Qed.

Lemma compare_total {A} (compare : A -> A -> Z) `{!Comparator compare} x y :
  (compare x y <= 0 \/ compare y x <= 0)%Z.
Proof. destruct (compare_flip x y), (compare_flip y x). lia. Qed.

(** * The queue *)

Record queue (A : Type) : Type := MkQueue {
  entries : list A;
  positions : gmap string nat
}.
Arguments MkQueue {A} _ _.
Arguments entries {A} _.
Arguments positions {A} _.

Definition empty_queue {A : Type} : queue A := MkQueue [] ∅.

Definition parentIndex (index : nat) : nat := (index - 1) / 2.

Section Operations.
Context {A : Type} (ident : A -> string) (compare : A -> A -> Z).

Definition peek (q : queue A) : option A := head (entries q).

Definition swap (q : queue A) (left right : nat) : queue A :=
  match entries q !! left, entries q !! right with
  | Some leftEntry, Some rightEntry =>
      MkQueue (<[right := leftEntry]> (<[left := rightEntry]> (entries q)))
              (<[ident rightEntry := left]> (<[ident leftEntry := right]> (positions q)))
  | _, _ => q
  end.

(** [this.compare(this.entries[i]!, this.entries[j]!) < 0]. *)
Definition before (q : queue A) (i j : nat) : bool :=
  match entries q !! i, entries q !! j with
  | Some x, Some y => (compare x y <? 0)%Z
  | _, _ => false
  end.

(** The index only moves to its parent, so [start] rounds are enough. *)
Fixpoint sift_up (fuel : nat) (q : queue A) (index : nat) : queue A :=
  match fuel with
  | O => q
  | S fuel =>
      if index =? 0 then q
      else
        let parent := parentIndex index in
        if before q index parent then sift_up fuel (swap q index parent) parent else q
  end.

Definition siftUp (q : queue A) (start : nat) : queue A := sift_up start q start.

(** The index moves to a child below the array length, so [length] rounds are enough. *)
Fixpoint sift_down (fuel : nat) (q : queue A) (index : nat) : queue A :=
  match fuel with
  | O => q
  | S fuel =>
      let left := index * 2 + 1 in
      let right := left + 1 in
      let first := index in
      let first := if (left <? length (entries q)) && before q left first then left else first in
      let first := if (right <? length (entries q)) && before q right first then right else first in
      if first =? index then q else sift_down fuel (swap q index first) first
  end.

Definition siftDown (q : queue A) (start : nat) : queue A :=
  sift_down (length (entries q)) q start.

Definition push (q : queue A) (record : A) : queue A :=
  match positions q !! ident record with
  | Some _ => q
  | None =>
      let index := length (entries q) in
      siftUp (MkQueue (entries q ++ [record]) (<[ident record := index]> (positions q))) index
  end.

Definition removeAt (q : queue A) (index : nat) : option A * queue A :=
  match entries q !! index, last (entries q) with
  | Some removed, Some lst =>
      let popped := removelast (entries q) in
      let positions := delete (ident removed) (positions q) in
      if index <? length popped then
        let q := MkQueue (<[index := lst]> popped) (<[ident lst := index]> positions) in
        (Some removed,
         if (0 <? index) && before q index (parentIndex index) then siftUp q index else siftDown q index)
      else (Some removed, MkQueue popped positions)
  | _, _ => (None, q)
  end.

Definition pop (q : queue A) : option A * queue A := removeAt q 0.

Definition remove (q : queue A) (id : string) : bool * queue A :=
  match positions q !! id with
  | None => (false, q)
  | Some index => (true, snd (removeAt q index))
  end.

(** * Well-formedness *)

Definition indexed (q : queue A) : Prop :=
  forall id i, positions q !! id = Some i <-> ident <$> entries q !! i = Some id.

Definition ordered_at (e : list A) (i : nat) : Prop :=
  forall x p, 0 < i -> e !! i = Some x -> e !! parentIndex i = Some p -> (compare p x <= 0)%Z.

Definition heap (e : list A) : Prop := forall i, ordered_at e i.

Definition wf_queue (q : queue A) : Prop := indexed q /\ heap (entries q).
End Operations.

(** * Lemmas *)

Lemma parent_bounds i : 0 < i -> i = 2 * parentIndex i + 1 \/ i = 2 * parentIndex i + 2.
Proof.
  unfold parentIndex. intros. pose proof (Nat.div_mod (i - 1) 2 ltac:(lia)).
  pose proof (Nat.mod_upper_bound (i - 1) 2 ltac:(lia)). lia.
Qed.

Lemma parent_child i j : i = 2 * j + 1 \/ i = 2 * j + 2 -> parentIndex i = j.
Proof. intros. pose proof (parent_bounds i ltac:(lia)). lia. Qed.

Section Laws.
Context {A : Type} (ident : A -> string) (compare : A -> A -> Z) `{!Comparator compare}.
Implicit Types (q : queue A) (e : list A).

Abbreviation swap := (swap ident).
Abbreviation before := (before compare).
Abbreviation ordered_at := (ordered_at compare).
Abbreviation heap := (heap compare).
Abbreviation indexed := (indexed ident).

Lemma indexed_nodup q : indexed q -> NoDup (map ident (entries q)).
Proof.
  intros H. apply NoDup_alt. intros i j id Hi Hj.
  rewrite list_lookup_fmap in Hi, Hj. apply H in Hi, Hj. congruence.
Qed.

Lemma swap_entries q i j x y :
  entries q !! i = Some x -> entries q !! j = Some y ->
  entries (swap q i j) = <[j := x]> (<[i := y]> (entries q)).
Proof. intros Hi Hj. unfold swap. by rewrite Hi, Hj. Qed.

Lemma swap_lookup q i j x y k :
  entries q !! i = Some x -> entries q !! j = Some y ->
  entries (swap q i j) !! k = if decide (k = j) then Some x else if decide (k = i) then Some y else entries q !! k.
Proof.
  intros Hi Hj. rewrite (swap_entries _ _ _ _ _ Hi Hj).
  apply lookup_lt_Some in Hi as Hil. apply lookup_lt_Some in Hj as Hjl.
  destruct (decide (k = j)) as [->|Hkj].
  - rewrite list_lookup_insert_eq; [done|]. by rewrite length_insert.
  - rewrite list_lookup_insert_ne by done. destruct (decide (k = i)) as [->|Hki].
    + by rewrite list_lookup_insert_eq.
    + by rewrite list_lookup_insert_ne.
Qed.

Lemma swap_length q i j : length (entries (swap q i j)) = length (entries q).
Proof. unfold swap. repeat case_match; simpl; rewrite ?length_insert; done. Qed.

Lemma swap_perm q i j x y :
  entries q !! i = Some x -> entries q !! j = Some y -> entries (swap q i j) ≡ₚ entries q.
Proof.
  intros Hi Hj. destruct (decide (i = j)) as [->|Hne].
  - rewrite (swap_entries _ _ _ _ _ Hi Hj). assert (x = y) as -> by congruence.
    rewrite (list_insert_id (entries q) j y) by done. by rewrite list_insert_id.
  - apply Permutation_inj. rewrite swap_length. split; [done|].
    exists (fun k => if decide (k = j) then i else if decide (k = i) then j else k). split.
    + intros a b H. repeat case_decide; congruence.
    + intros k. rewrite (swap_lookup _ _ _ _ _ _ Hi Hj). repeat case_decide; congruence.
Qed.

Lemma swap_indexed q i j x y :
  entries q !! i = Some x -> entries q !! j = Some y -> i <> j -> indexed q -> indexed (swap q i j).
Proof.
  intros Hi Hj Hne H id k. rewrite (swap_lookup _ _ _ _ _ _ Hi Hj).
  unfold swap. rewrite Hi, Hj. simpl.
  assert (Hx : positions q !! ident x = Some i) by (apply H; by rewrite Hi).
  assert (Hy : positions q !! ident y = Some j) by (apply H; by rewrite Hj).
  assert (Hxy : ident x <> ident y) by congruence.
  destruct (decide (id = ident y)) as [->|Hny].
  - rewrite lookup_insert_eq. repeat case_decide; subst; split; intros; simplify_eq/=; try done.
    apply H in H2. congruence.
  - rewrite lookup_insert_ne by done. destruct (decide (id = ident x)) as [->|Hnx].
    + rewrite lookup_insert_eq. repeat case_decide; subst; split; intros; simplify_eq/=; try done.
      apply H in H2. congruence.
    + rewrite lookup_insert_ne by done. repeat case_decide; subst; simpl.
      * split; [|intros; by simplify_eq]. intros Hk%H. rewrite Hj in Hk. by simplify_eq/=.
      * split; [|intros; by simplify_eq]. intros Hk%H. rewrite Hi in Hk. by simplify_eq/=.
      * apply H.
Qed.

Lemma before_spec q i j x y :
  entries q !! i = Some x -> entries q !! j = Some y ->
  if before q i j then (compare x y <= 0)%Z else (compare y x <= 0)%Z.
Proof.
  intros Hi Hj. unfold before. rewrite Hi, Hj. pose proof (compare_flip y x).
  destruct (_ <? 0)%Z eqn:E; bools; lia.
Qed.

(** Only the entry at [i] may be out of order with its parent. *)
Definition up_hole e i : Prop :=
  (forall j, j <> i -> ordered_at e j) /\
  (forall j x p, 0 < i -> 0 < j -> parentIndex j = i ->
     e !! j = Some x -> e !! parentIndex i = Some p -> (compare p x <= 0)%Z).

(** Only the entry at [i] may be out of order with its children. *)
Definition down_hole e i : Prop :=
  (forall j, j = 0 \/ parentIndex j <> i -> ordered_at e j) /\
  (forall j x p, 0 < i -> 0 < j -> parentIndex j = i ->
     e !! j = Some x -> e !! parentIndex i = Some p -> (compare p x <= 0)%Z).

Lemma up_hole_step q i x p :
  0 < i -> entries q !! i = Some x -> entries q !! parentIndex i = Some p -> (compare x p <= 0)%Z ->
  up_hole (entries q) i -> up_hole (entries (swap q i (parentIndex i))) (parentIndex i).
Proof.
  intros Hi Hx Hp Hlt [Ho Hg]. pose proof (parent_bounds i Hi).
  split.
  - intros j Hj a b Hj0. rewrite !(swap_lookup _ _ _ _ _ _ Hx Hp).
    pose proof (parent_bounds j Hj0) as Hpj. intros Ha Hb.
    rewrite decide_False in Ha by done.
    destruct (decide (parentIndex j = parentIndex i)) as [E|Hn].
    + simplify_eq. destruct (decide (j = i)) as [->|Hji]; [by simplify_eq|].
      eapply compare_trans; [done|]. apply (Ho j Hji a p); [done..|by rewrite E].
    + rewrite decide_False in Ha by congruence.
      destruct (decide (parentIndex j = i)) as [E2|Hn2].
      * simplify_eq. by apply (Hg j a b).
      * by apply (Ho j ltac:(congruence) a b).
  - intros j a b Hp0 Hj0 Epj. rewrite !(swap_lookup _ _ _ _ _ _ Hx Hp).
    pose proof (parent_bounds (parentIndex i) Hp0). pose proof (parent_bounds j Hj0).
    rewrite (decide_False (P := j = parentIndex i)) by lia.
    rewrite (decide_False (P := parentIndex (parentIndex i) = parentIndex i)) by lia.
    rewrite (decide_False (P := parentIndex (parentIndex i) = i)) by lia.
    intros Ha Hb. assert (Hbp : (compare b p <= 0)%Z) by (apply (Ho (parentIndex i)); [lia|done..]).
    destruct (decide (j = i)) as [->|Hji]; [by simplify_eq|].
    eapply compare_trans; [done|]. apply (Ho j Hji); [done..|by rewrite Epj].
Qed.

Lemma sift_up_spec fuel q i :
  indexed q -> up_hole (entries q) i -> i < length (entries q) -> i <= fuel ->
  wf_queue ident compare (sift_up ident compare fuel q i) /\
  entries (sift_up ident compare fuel q i) ≡ₚ entries q.
Proof.
  revert q i. induction fuel as [|fuel IH]; intros q i Hq [Ho Hg] Hl Hf; simpl.
  - assert (i = 0) as -> by lia. split; [|done]. split; [done|].
    intros j. destruct (decide (j = 0)) as [->|Hj]; [intros ? ? ?; lia|by apply Ho].
  - destruct (i =? 0) eqn:E; bools.
    + subst. split; [|done]. split; [done|].
      intros j. destruct (decide (j = 0)) as [->|Hj]; [intros ? ? ?; lia|by apply Ho].
    + pose proof (parent_bounds i ltac:(lia)).
      destruct (lookup_lt_is_Some_2 (entries q) i Hl) as [x Hx].
      destruct (lookup_lt_is_Some_2 (entries q) (parentIndex i) ltac:(lia)) as [p Hp].
      pose proof (before_spec q i (parentIndex i) x p Hx Hp) as Hb.
      destruct (before q i (parentIndex i)).
      * destruct (IH (swap q i (parentIndex i)) (parentIndex i)) as [Hwf Hperm].
        -- apply (swap_indexed _ _ _ x p); [done|done|lia|done].
        -- eapply up_hole_step; [lia|done..].
        -- rewrite swap_length. lia.
        -- lia.
        -- split; [done|]. rewrite Hperm. by eapply swap_perm.
      * split; [|done]. split; [done|]. intros j. destruct (decide (j = i)) as [->|Hj]; [|by apply Ho].
        intros a b _ Ha Hb'. simplify_eq. done.
Qed.

Lemma down_hole_step q i c x y :
  0 < c -> parentIndex c = i -> entries q !! i = Some x -> entries q !! c = Some y ->
  (compare y x <= 0)%Z ->
  (forall j z, 0 < j -> parentIndex j = i -> entries q !! j = Some z -> (compare y z <= 0)%Z) ->
  down_hole (entries q) i -> down_hole (entries (swap q i c)) c.
Proof.
  intros Hc0 Hci Hx Hy Hyx Hmin [Ho Hg]. pose proof (parent_bounds c Hc0). split.
  - intros j Hj a b Hj0. pose proof (parent_bounds j Hj0). rewrite !(swap_lookup _ _ _ _ _ _ Hx Hy).
    rewrite (decide_False (P := parentIndex j = c)) by (destruct Hj; lia).
    intros Ha Hb. destruct (decide (j = c)) as [->|Hjc].
    + rewrite decide_True in Hb by done. by simplify_eq.
    + destruct (decide (parentIndex j = i)) as [E|Hn].
      * rewrite decide_False in Ha by lia. simplify_eq. by apply (Hmin j).
      * destruct (decide (j = i)) as [->|Hji].
        -- simplify_eq. apply (Hg c a b); [lia|done..].
        -- apply (Ho j ltac:(auto) a b); done.
  - intros j a b _ Hj0 Epj. pose proof (parent_bounds j Hj0). rewrite !(swap_lookup _ _ _ _ _ _ Hx Hy).
    rewrite (decide_False (P := j = c)), (decide_False (P := j = i)) by lia.
    rewrite (decide_False (P := parentIndex c = c)), (decide_True (P := parentIndex c = i)) by lia.
    intros Ha [= <-]. apply (Ho j ltac:(lia) a y); [done..|]. by rewrite Epj.
Qed.

(** The child [sift_down] picks: none when both are in order, else the lesser one. *)
Definition pick_child (q : queue A) (i : nat) : nat :=
  let left := i * 2 + 1 in
  let right := left + 1 in
  let first := if (left <? length (entries q)) && before q left i then left else i in
  if (right <? length (entries q)) && before q right first then right else first.

Lemma pick_child_spec q i x :
  entries q !! i = Some x ->
  let c := pick_child q i in
  exists y, entries q !! c = Some y /\ (c = i \/ (0 < c /\ parentIndex c = i)) /\ (compare y x <= 0)%Z /\
    forall j z, 0 < j -> parentIndex j = i -> entries q !! j = Some z -> (compare y z <= 0)%Z.
Proof.
  intros Hx. unfold pick_child.
  set (left := i * 2 + 1). set (right := left + 1).
  assert (Hl : forall c, c < length (entries q) -> exists y, entries q !! c = Some y).
  { intros c Hc. by apply lookup_lt_is_Some_2. }
  assert (Hfirst : exists f y, (if (left <? length (entries q)) && before q left i then left else i) = f /\
    entries q !! f = Some y /\ (f = i \/ f = left) /\ (compare y x <= 0)%Z /\
    (forall z, entries q !! left = Some z -> (compare y z <= 0)%Z)).
  { destruct (left <? length (entries q)) eqn:E; simpl; bools.
    - destruct (Hl left ltac:(lia)) as [y Hy]. pose proof (before_spec q left i y x Hy Hx) as Hb.
      destruct (before q left i).
      + exists left, y. split_and!; auto. intros z Hz. simplify_eq. apply (compare_refl compare).
      + exists i, x. split_and!; auto; [apply (compare_refl compare)|]. intros z Hz. by simplify_eq.
    - exists i, x. split_and!; auto; [apply (compare_refl compare)|].
      intros z Hz%lookup_lt_Some. lia. }
  destruct Hfirst as (f & y & -> & Hy & Hf & Hyx & Hyl).
  assert (Hchild : forall j, 0 < j -> parentIndex j = i -> j = left \/ j = right).
  { intros j Hj <-. subst left right. destruct (parent_bounds j Hj); lia. }
  destruct (right <? length (entries q)) eqn:E; simpl; bools.
  - destruct (Hl right ltac:(lia)) as [z Hz]. pose proof (before_spec q right f z y Hz Hy) as Hb.
    destruct (before q right f).
    + exists z. split_and!; [done| | |].
      * right. split; [lia|]. apply parent_child. lia.
      * by eapply compare_trans.
      * intros j w Hj Hp Hw. destruct (Hchild j Hj Hp) as [->| ->].
        -- eapply compare_trans; [done|]. by apply Hyl.
        -- simplify_eq. apply (compare_refl compare).
    + exists y. split_and!; [done| |done|].
      * destruct Hf as [->| ->]; [by left|right]. split; [lia|]. apply parent_child. lia.
      * intros j w Hj Hp Hw. destruct (Hchild j Hj Hp) as [->| ->]; [by apply Hyl|by simplify_eq].
  - exists y. split_and!; [done| |done|].
    + destruct Hf as [->| ->]; [by left|right]. split; [lia|]. apply parent_child. lia.
    + intros j w Hj Hp Hw. destruct (Hchild j Hj Hp) as [->| ->]; [by apply Hyl|].
      apply lookup_lt_Some in Hw. lia.
Qed.

Lemma sift_down_spec fuel q i :
  indexed q -> down_hole (entries q) i -> i < length (entries q) -> length (entries q) - i <= fuel ->
  wf_queue ident compare (sift_down ident compare fuel q i) /\
  entries (sift_down ident compare fuel q i) ≡ₚ entries q.
Proof.
  revert q i. induction fuel as [|fuel IH]; intros q i Hq Hd Hl Hf; [lia|].
  destruct (lookup_lt_is_Some_2 (entries q) i Hl) as [x Hx].
  destruct (pick_child_spec q i x Hx) as (y & Hy & Hc & Hyx & Hmin).
  change (sift_down ident compare (S fuel) q i) with
    (let c := pick_child q i in if c =? i then q else sift_down ident compare fuel (swap q i c) c).
  cbv zeta. destruct (pick_child q i =? i) eqn:E; bools.
  - split; [|done]. split; [done|]. intros j a b Hj Ha Hb.
    destruct (decide (parentIndex j = i)) as [Ep|Hn].
    + rewrite Ep in Hb. rewrite E in Hy. simplify_eq. by apply (Hmin j).
    + apply (proj1 Hd j (or_intror Hn) a b); done.
  - destruct Hc as [|[Hc0 Hci]]; [done|]. pose proof (parent_bounds _ Hc0).
    apply lookup_lt_Some in Hy as Hyl.
    destruct (IH (swap q i (pick_child q i)) (pick_child q i)) as [Hwf Hperm].
    + apply (swap_indexed _ _ _ x y); [done|done|lia|done].
    + by eapply down_hole_step.
    + by rewrite swap_length.
    + rewrite swap_length. lia.
    + split; [done|]. rewrite Hperm. by eapply swap_perm.
Qed.

(** * What each operation does *)

Lemma empty_queue_wf : wf_queue ident compare empty_queue.
Proof.
  split; [|intros i x p _ Hx; simpl in Hx; by rewrite lookup_nil in Hx].
  intros id i. simpl. rewrite lookup_empty. by destruct i.
Qed.

Lemma positions_in q id :
  indexed q -> is_Some (positions q !! id) <-> exists x, x ∈ entries q /\ ident x = id.
Proof.
  intros H. split.
  - intros [i Hi]. apply H in Hi. destruct (entries q !! i) as [x|] eqn:E; simplify_eq/=.
    exists x. split; [by eapply list_elem_of_lookup_2|done].
  - intros (x & [i Hi]%list_elem_of_lookup_1 & <-). exists i. apply H. by rewrite Hi.
Qed.

Lemma push_spec q r :
  wf_queue ident compare q -> (forall x, x ∈ entries q -> ident x <> ident r) ->
  wf_queue ident compare (push ident compare q r) /\ entries (push ident compare q r) ≡ₚ r :: entries q.
Proof.
  intros [Hq Hh] Hf. unfold push. destruct (positions q !! ident r) as [i|] eqn:E.
  { destruct (proj1 (positions_in q (ident r) Hq)) as (x & Hx & Heq); [eauto|]. by destruct (Hf x). }
  unfold siftUp. edestruct (sift_up_spec (length (entries q))
    (MkQueue (entries q ++ [r]) (<[ident r:=length (entries q)]> (positions q)))) as [Hwf Hp].
  5: { split; [exact Hwf|]. rewrite Hp. simpl. by rewrite <- Permutation_cons_append. }
  - intros id i. simpl. destruct (decide (id = ident r)) as [->|Hne].
    + rewrite lookup_insert_eq. split.
      * intros [= <-]. by rewrite list_lookup_middle.
      * destruct (decide (i < length (entries q))) as [Hi|Hi].
        -- rewrite lookup_app_l by done. intros Hx. apply Hq in Hx. congruence.
        -- rewrite lookup_app_r by lia. intros Hx. f_equal.
           destruct (i - length (entries q)) as [|k] eqn:Ek; [lia|done].
    + rewrite lookup_insert_ne by done. rewrite (Hq id i).
      destruct (decide (i < length (entries q))) as [Hi|Hi]; [by rewrite lookup_app_l|].
      rewrite lookup_app_r by lia. rewrite (lookup_ge_None_2 (entries q)) by lia.
      destruct (i - length (entries q)) as [|k]; simpl; [|done]. split; [done|]. by intros [= <-].
  - simpl. split.
    + intros j Hj a b Hj0 Ha Hb. apply lookup_lt_Some in Ha as Hal. rewrite length_app in Hal. simpl in Hal.
      pose proof (parent_bounds j Hj0). rewrite lookup_app_l in Ha, Hb by lia. by apply (Hh j).
    + intros j a b _ Hj0 Hj Ha. apply lookup_lt_Some in Ha. rewrite length_app in Ha. simpl in Ha.
      pose proof (parent_bounds j Hj0). lia.
  - simpl. rewrite length_app. simpl. lia.
  - simpl. lia.
Qed.

Lemma heap_app_l e k : heap (e ++ k) -> heap e.
Proof.
  intros H i x p Hi Hx Hp. apply (H i); [done|by apply lookup_app_l_Some..].
Qed.

Lemma insert_perm e i r x : e !! i = Some r -> e ++ [x] ≡ₚ r :: <[i := x]> e.
Proof.
  intros Hi. apply lookup_lt_Some in Hi as Hl. rewrite insert_take_drop by done.
  rewrite <- (take_drop_middle e i r Hi) at 1. solve_Permutation.
Qed.

(** The popped last entry, put in place of the removed one. *)
Lemma replace_indexed q l lst i r :
  indexed q -> entries q = l ++ [lst] -> l !! i = Some r ->
  indexed (MkQueue (<[i := lst]> l) (<[ident lst := i]> (delete (ident r) (positions q)))).
Proof.
  intros Hq He Hi id k. simpl. apply lookup_lt_Some in Hi as Hl.
  assert (Hr : positions q !! ident r = Some i) by (apply Hq; by rewrite He, lookup_app_l, Hi).
  assert (Hlst : positions q !! ident lst = Some (length l)) by (apply Hq; by rewrite He, list_lookup_middle).
  destruct (decide (id = ident lst)) as [->|Hne].
  - rewrite lookup_insert_eq. split; [intros [= <-]; by rewrite list_lookup_insert_eq|].
    destruct (decide (k = i)) as [->|Hki]; [done|]. rewrite list_lookup_insert_ne by done.
    intros Hk. exfalso. destruct (l !! k) as [y|] eqn:Ek; [|done]. simplify_eq/=. 
    apply lookup_lt_Some in Ek as Hkl.
    assert (positions q !! ident y = Some k) by (apply Hq; by rewrite He, lookup_app_l, Ek).
    rewrite Hk in *. simplify_eq. lia.
  - rewrite lookup_insert_ne by done. destruct (decide (id = ident r)) as [->|Hnr].
    + rewrite lookup_delete_eq. split; [done|]. destruct (decide (k = i)) as [->|Hki].
      * rewrite list_lookup_insert_eq by done. intros [= Heq]. congruence.
      * rewrite list_lookup_insert_ne by done. intros Hk. destruct (l !! k) as [y|] eqn:Ek; [|done].
        apply lookup_lt_Some in Ek as Hkl.
        assert (positions q !! ident r = Some k) by (apply Hq; rewrite He, lookup_app_l, Ek by done; done).
        congruence.
    + rewrite lookup_delete_ne by done. rewrite (Hq id k), He.
      destruct (decide (k = i)) as [->|Hki].
      * rewrite list_lookup_insert_eq, lookup_app_l, Hi by done. simpl. split; intros [= ?]; congruence.
      * rewrite list_lookup_insert_ne by done. destruct (decide (k < length l)) as [Hk|Hk].
        -- by rewrite lookup_app_l.
        -- rewrite (lookup_ge_None_2 l), lookup_app_r by lia.
           destruct (k - length l) as [|n]; simpl; [|done]. split; [|done]. intros [= ?]. congruence.
Qed.

Lemma truncate_indexed q l r :
  indexed q -> entries q = l ++ [r] -> indexed (MkQueue l (delete (ident r) (positions q))).
Proof.
  intros Hq He id k. simpl.
  assert (Hr : positions q !! ident r = Some (length l)) by (apply Hq; by rewrite He, list_lookup_middle).
  destruct (decide (id = ident r)) as [->|Hne].
  - rewrite lookup_delete_eq. split; [done|]. intros Hk. destruct (l !! k) as [y|] eqn:Ek; [|done].
    apply lookup_lt_Some in Ek as Hkl.
    assert (positions q !! ident r = Some k) by (apply Hq; rewrite He, lookup_app_l, Ek by done; done).
    rewrite Hr in *. simplify_eq. lia.
  - rewrite lookup_delete_ne by done. rewrite (Hq id k), He.
    destruct (decide (k < length l)) as [Hk|Hk]; [by rewrite lookup_app_l|].
    rewrite (lookup_ge_None_2 l), lookup_app_r by lia.
    destruct (k - length l) as [|n]; simpl; [|done]. split; [|done]. intros [= ?]. congruence.
Qed.

(** The order around a replaced entry. *)
Lemma replace_below e i r x :
  heap e -> e !! i = Some r ->
  forall j a b, 0 < i -> 0 < j -> parentIndex j = i -> <[i := x]> e !! j = Some a ->
    <[i := x]> e !! parentIndex i = Some b -> (compare b a <= 0)%Z.
Proof.
  intros Hh Hi j a b Hi0 Hj0 Hp. pose proof (parent_bounds i Hi0). pose proof (parent_bounds j Hj0).
  rewrite !list_lookup_insert_ne by lia. intros Ha Hb.
  apply (compare_trans (compare := compare) b r a); [by apply (Hh i)|]. apply (Hh j); [done..|by rewrite Hp].
Qed.

Lemma replace_elsewhere e i x j :
  heap e -> j <> i -> parentIndex j <> i -> ordered_at (<[i := x]> e) j.
Proof.
  intros Hh Hj Hp a b Hj0 Ha Hb. rewrite list_lookup_insert_ne in Ha, Hb by done. by apply (Hh j).
Qed.

Lemma removeAt_spec q i r :
  wf_queue ident compare q -> entries q !! i = Some r ->
  exists q', removeAt ident compare q i = (Some r, q') /\ wf_queue ident compare q' /\
    entries q ≡ₚ r :: entries q'.
Proof.
  intros [Hq Hh] Hi. unfold removeAt. rewrite Hi.
  destruct (entries q) as [|lst l _] eqn:He using rev_ind; [by rewrite lookup_nil in Hi|].
  rewrite last_snoc, removelast_last. destruct (i <? length l) eqn:El; bools.
  - rewrite lookup_app_l in Hi by done. apply heap_app_l in Hh.
    set (q1 := MkQueue _ _). assert (Hq1 : indexed q1) by (by apply replace_indexed).
    assert (Hlen : i < length (entries q1)) by (simpl; by rewrite length_insert).
    destruct ((0 <? i) && before q1 i (parentIndex i)) eqn:Eb.
    + destruct (sift_up_spec i q1 i) as [Hwf Hp]; [done| |done|done|].
      * apply andb_true_iff in Eb as [Hi0%Nat.ltb_lt Eb]. pose proof (parent_bounds i Hi0).
        destruct (lookup_lt_is_Some_2 l (parentIndex i) ltac:(lia)) as [p Hpi].
        pose proof (before_spec q1 i (parentIndex i) lst p) as Hbs. rewrite Eb in Hbs. simpl in Hbs.
        rewrite list_lookup_insert_eq, list_lookup_insert_ne in Hbs by lia. specialize (Hbs eq_refl Hpi).
        split; [|intros; by eapply (replace_below l i r lst)]. intros j Hj.
        destruct (decide (parentIndex j = i)) as [Epj|]; [|by apply replace_elsewhere].
        intros a b Hj0. simpl. rewrite Epj, list_lookup_insert_eq, list_lookup_insert_ne by done.
        intros Ha [= <-]. apply (compare_trans (compare := compare) lst p a); [done|].
        apply (compare_trans (compare := compare) p r a); [by apply (Hh i)|]. apply (Hh j); [done..|by rewrite Epj].
      * eexists. split; [done|]. split; [done|]. unfold siftUp. rewrite Hp. simpl. by apply insert_perm.
    + destruct (sift_down_spec (length (entries q1)) q1 i) as [Hwf Hp]; [done| |done|lia|].
      * split; [|intros; by eapply (replace_below l i r lst)]. intros j Hj.
        destruct (decide (j = i)) as [->|Hji].
        -- intros a b Hi0 Ha Hb. pose proof (before_spec q1 i (parentIndex i) a b Ha Hb) as Hbs.
           rewrite (proj2 (Nat.ltb_lt 0 i) Hi0) in Eb. simpl in Eb. by rewrite Eb in Hbs.
        -- destruct Hj as [->|Hj]; [intros ? ? ?; lia|by apply replace_elsewhere].
      * eexists. split; [done|]. split; [done|]. unfold siftDown. rewrite Hp. simpl. by apply insert_perm.
  - rewrite lookup_app_r in Hi by lia. destruct (i - length l) eqn:Ei; [|done]. simplify_eq/=.
    eexists. split; [done|]. split; [|by rewrite <- Permutation_cons_append].
    split; [by apply truncate_indexed|by eapply heap_app_l].
Qed.

Lemma heap_root e r i x : heap e -> e !! 0 = Some r -> e !! i = Some x -> (compare r x <= 0)%Z.
Proof.
  intros Hh Hr. revert x. induction i as [i IH] using lt_wf_ind. intros x Hx.
  destruct (decide (i = 0)) as [->|Hi]; [simplify_eq; apply (compare_refl compare)|].
  pose proof (parent_bounds i ltac:(lia)). apply lookup_lt_Some in Hx as Hl.
  destruct (lookup_lt_is_Some_2 e (parentIndex i) ltac:(lia)) as [p Hp].
  eapply compare_trans; [by apply (IH (parentIndex i) ltac:(lia))|]. by apply (Hh i x p ltac:(lia)).
Qed.

Lemma peek_spec q r :
  wf_queue ident compare q -> peek q = Some r -> r ∈ entries q /\ forall x, x ∈ entries q -> (compare r x <= 0)%Z.
Proof.
  intros [_ Hh] Hr. unfold peek in Hr. destruct (entries q) as [|r' e] eqn:E; simplify_eq/=.
  split; [left|]. intros x [i Hi]%list_elem_of_lookup_1. by eapply heap_root.
Qed.

Lemma pop_spec q r :
  wf_queue ident compare q -> peek q = Some r ->
  exists q', pop ident compare q = (Some r, q') /\ wf_queue ident compare q' /\ entries q ≡ₚ r :: entries q'.
Proof.
  intros Hwf Hr. apply removeAt_spec; [done|]. unfold peek in Hr. by destruct (entries q).
Qed.

Lemma remove_spec q id :
  wf_queue ident compare q ->
  wf_queue ident compare (snd (remove ident compare q id)) /\
  match fst (remove ident compare q id) with
  | true => exists r, ident r = id /\ entries q ≡ₚ r :: entries (snd (remove ident compare q id))
  | false => (forall x, x ∈ entries q -> ident x <> id) /\ snd (remove ident compare q id) = q
  end.
Proof.
  intros Hwf. pose proof (positions_in q id (proj1 Hwf)) as Hin. unfold remove.
  destruct (positions q !! id) as [i|] eqn:E.
  - apply (proj1 Hwf) in E. destruct (entries q !! i) as [r|] eqn:Er; simplify_eq/=.
    destruct (removeAt_spec q i r Hwf Er) as (q' & -> & Hwf' & Hp). simpl. eauto.
  - simpl. split; [done|]. split; [|done]. intros x Hx Heq.
    destruct (proj2 Hin) as [? ?]; [eauto|done].
Qed.
End Laws.

(** Membership after each operation. *)

Section Members.
Context {A : Type} (ident : A -> string) (compare : A -> A -> Z) `{!Comparator compare}.
Implicit Types (q : queue A).

Lemma members_removed q q' r x :
  wf_queue ident compare q -> entries q ≡ₚ r :: entries q' ->
  x ∈ entries q' <-> x ∈ entries q /\ ident x <> ident r.
Proof.
  intros [Hq _] Hp. pose proof (indexed_nodup ident q Hq) as Hnd.
  rewrite Hp in Hnd. simpl in Hnd. apply NoDup_cons in Hnd as [Hr _]. rewrite Hp, elem_of_cons. split.
  - intros Hx. split; [by right|]. intros Heq. apply Hr. rewrite <- Heq. by apply list_elem_of_fmap_2.
  - intros [[->|Hx] Hne]; done.
Qed.

Lemma remove_members q id :
  wf_queue ident compare q ->
  wf_queue ident compare (snd (remove ident compare q id)) /\
  forall x, x ∈ entries (snd (remove ident compare q id)) <-> x ∈ entries q /\ ident x <> id.
Proof.
  intros Hwf. destruct (remove_spec ident compare q id Hwf) as [Hwf' H]. split; [done|]. intros x.
  destruct (fst _).
  - destruct H as (r & <- & Hp). by apply members_removed.
  - destruct H as [Hno ->]. naive_solver.
Qed.

Lemma push_members q r :
  wf_queue ident compare q -> (forall x, x ∈ entries q -> ident x <> ident r) ->
  wf_queue ident compare (push ident compare q r) /\
  forall x, x ∈ entries (push ident compare q r) <-> x = r \/ x ∈ entries q.
Proof.
  intros Hwf Hf. destruct (push_spec ident compare q r Hwf Hf) as [Hwf' Hp]. split; [done|].
  intros x. by rewrite Hp, elem_of_cons.
Qed.

Lemma pop_members q r :
  wf_queue ident compare q -> peek q = Some r ->
  fst (pop ident compare q) = Some r /\ wf_queue ident compare (snd (pop ident compare q)) /\
  S (length (entries (snd (pop ident compare q)))) = length (entries q) /\
  forall x, x ∈ entries (snd (pop ident compare q)) <-> x ∈ entries q /\ ident x <> ident r.
Proof.
  intros Hwf Hr. destruct (pop_spec ident compare q r Hwf Hr) as (q' & -> & Hwf' & Hp). simpl.
  split_and!; [done|done|by rewrite Hp|]. intros x. by apply members_removed.
Qed.

Lemma peek_in q r : peek q = Some r -> r ∈ entries q.
Proof. unfold peek. destruct (entries q); intros; simplify_eq/=. left. Qed.

Lemma peek_none q : peek q = None -> entries q = [].
Proof. unfold peek. by destruct (entries q). Qed.
End Members.

(** A queue stays well formed when the ids and keys of its own entries do not change. *)
Lemma wf_queue_ext {A} (ident ident' : A -> string) (compare compare' : A -> A -> Z) (q : queue A) :
  (forall x, x ∈ entries q -> ident' x = ident x) ->
  (forall x y, x ∈ entries q -> y ∈ entries q -> compare' x y = compare x y) ->
  wf_queue ident compare q -> wf_queue ident' compare' q.
Proof.
  intros Hi Hc [Hq Hh]. split.
  - intros id i. rewrite (Hq id i). destruct (entries q !! i) as [x|] eqn:E; simpl; [|done].
    by rewrite Hi by (by eapply list_elem_of_lookup_2).
  - intros i x p Hi0 Hx Hp. rewrite Hc by (by eapply list_elem_of_lookup_2). by apply (Hh i).
Qed.

Lemma pop_empty {A} (ident : A -> string) (compare : A -> A -> Z) (q : queue A) :
  peek q = None -> pop ident compare q = (None, q).
Proof. unfold peek, pop, removeAt. by destruct (entries q). Qed.

(** * Draining *)

Section Drain.
Context {A : Type} (ident : A -> string) (compare : A -> A -> Z).

Definition push_all (q : queue A) (l : list A) : queue A := foldl (push ident compare) q l.

Fixpoint drain (n : nat) (q : queue A) : list A :=
  match n with
  | O => []
  | S n =>
      match pop ident compare q with
      | (Some r, q) => r :: drain n q
      | (None, _) => []
      end
  end.

Context `{!Comparator compare}.

Lemma push_all_spec q l :
  wf_queue ident compare q -> NoDup (map ident (entries q ++ l)) ->
  wf_queue ident compare (push_all q l) /\ entries (push_all q l) ≡ₚ entries q ++ l.
Proof.
  revert q. induction l as [|r l IH]; intros q Hwf Hnd; simpl.
  - by rewrite app_nil_r.
  - destruct (push_spec ident compare q r Hwf) as [Hwf' Hp].
    + intros x Hx Heq. rewrite map_app in Hnd. apply NoDup_app in Hnd as (_ & Hd & _).
      apply (Hd (ident x)); [by apply list_elem_of_fmap_2|]. rewrite Heq. left.
    + destruct (IH _ Hwf') as [Hw Hp']; [|split; [done|rewrite Hp', Hp; solve_Permutation]].
      rewrite Hp. erewrite Permutation_map; [exact Hnd|solve_Permutation].
Qed.

Lemma drain_spec n q :
  wf_queue ident compare q -> length (entries q) = n ->
  drain n q ≡ₚ entries q /\ StronglySorted (fun x y => (compare x y <= 0)%Z) (drain n q).
Proof.
  revert q. induction n as [|n IH]; intros q Hwf Hn; simpl.
  - apply nil_length_inv in Hn. rewrite Hn. split; [done|constructor].
  - destruct (peek q) as [r|] eqn:E; [|unfold peek in E; by destruct (entries q)].
    destruct (pop_spec ident compare q r Hwf E) as (q' & -> & Hwf' & Hp).
    destruct (peek_spec ident compare q r Hwf E) as [_ Hmin].
    destruct (IH q' Hwf') as [Hp' Hs]; [apply Permutation_length in Hp; simpl in Hp; lia|].
    split; [by rewrite Hp, Hp'|]. constructor; [done|].
    apply Forall_forall. intros x Hx. apply Hmin. rewrite Hp. right. by rewrite <- Hp'.
Qed.

(** The heap is a priority queue.  Records with distinct ids that are pushed in any order
    come out complete and in comparator order: at every pop the heap yields a least entry. *)
Theorem queue_drains_in_order l :
  NoDup (map ident l) ->
  let drained := drain (length l) (push_all empty_queue l) in
  drained ≡ₚ l /\ StronglySorted (fun x y => (compare x y <= 0)%Z) drained.
Proof.
  intros Hnd. destruct (push_all_spec empty_queue l) as [Hwf Hp]; [apply empty_queue_wf|done|].
  simpl in Hp. destruct (drain_spec (length l) _ Hwf) as [Hd Hs]; [by rewrite Hp|].
  split; [by rewrite Hd|done].
Qed.
End Drain.

(** * Witness *)

Definition letter (n : nat) : string := String (Ascii.ascii_of_nat n) EmptyString.

Lemma nat_compare_laws : Comparator (fun x y : nat => (Z.of_nat x - Z.of_nat y)%Z).
Proof. split; intros; lia. Defined.

Lemma queue_drains_in_order_witness :
  NoDup (map letter [3; 1; 2]) /\
  let drained := drain letter (fun x y => (Z.of_nat x - Z.of_nat y)%Z) 3
    (push_all letter (fun x y => (Z.of_nat x - Z.of_nat y)%Z) empty_queue [3; 1; 2]) in
  drained ≡ₚ [3; 1; 2] /\ StronglySorted (fun x y => (Z.of_nat x - Z.of_nat y <= 0)%Z) drained.
Proof.
  assert (Hnd : NoDup (map letter [3; 1; 2])) by (apply (bool_decide_unpack _); vm_compute; exact I).
  split; [exact Hnd|].
  exact (@queue_drains_in_order nat letter (fun x y => (Z.of_nat x - Z.of_nat y)%Z) nat_compare_laws [3; 1; 2] Hnd).
Defined.
