(* ===== verification/Scheduler.v ===== *)
(** The task scheduler ([TaskScheduler] of agent-core/src/lifecycle/scheduler.ts) as a state
    machine.  Record objects live in [store]; a reference is an index, which is also the
    record's [sequence].  The map [records], the queues and the dedupe index hold references,
    as the source's maps and arrays hold objects.  Each public method, timer, microtask and
    settlement of a running operation is one transition, executed at a clock reading [now].
    Abort controllers, promises and running executions are tables indexed by allocation.

    Modelling choices: times and priorities are integers; [localeCompare] is the parameter
    [locale] of the transitions; checkpoint data and results are opaque strings, on which
    [structuredClone] is the identity; listeners and [run] do not call back synchronously. *)

From S2P Require Import Prelude PriorityQueue.

(** * Data *)

Inductive mode : Type := Interactive | ForegroundMode | BackgroundMode | Batch.
Inductive status : Type :=
| Queued | Running | WaitingUser | Completed | Failed | Cancelled | Interrupted.
Inductive lifecycle_state : Type := Idle | LRunning | Stopping | Stopped.

#[export] Instance mode_eq_dec : EqDecision mode.
Proof. solve_decision. Defined.
#[export] Instance status_eq_dec : EqDecision status.
Proof. solve_decision. Defined.
#[export] Instance lifecycle_eq_dec : EqDecision lifecycle_state.
Proof. solve_decision. Defined.

Record checkpoint : Type := MkCheckpoint {
  cp_step : string;
  cp_data : option string;
  cp_updatedAt : option Z
}.

(** What a [catch] clause receives: an [Error] with its name and [retryable] flag, or any
    other value, of which only the text matters. *)
Inductive thrown : Type :=
| ErrorObject (name : string) (message : string) (retryable : bool)
| NonError (text : string).

Record snapshot : Type := MkSnapshot {
  s_id : string;
  s_mode : mode;
  s_status : status;
  s_startedAt : option Z;
  s_finishedAt : option Z;
  s_error : option thrown;
  s_progress : option Z;
  s_attempts : option Z;
  s_checkpoint : option checkpoint
}.

Record work : Type := MkWork {
  w_id : string;
  w_mode : mode;
  w_priority : option Z;
  w_dedupeKey : option string;
  w_debounceMs : option Z;
  w_timeoutMs : option Z;
  w_maxAttempts : option Z;
  w_retryDelayMs : option Z
}.

(** [ScheduledTaskState], the durable form. *)
Record task_state : Type := MkTaskState {
  t_id : string;
  t_mode : mode;
  t_status : status;
  t_snapshot : snapshot;
  t_attempts : Z;
  t_readyAt : Z
}.

Record record : Type := MkRecord {
  r_work : option work;
  r_controller : option nat;
  r_snapshot : snapshot;
  r_promise : option nat;
  r_attempts : Z;
  r_readyAt : Z;
  r_priority : Z;
  r_dedupeKey : option string;
  r_slotAcquired : bool;
  r_generation : Z;
  r_resumeFrom : option checkpoint
}.

Inductive event_type : Type :=
| Created | EQueued | Started | Progress | Retrying | Checkpointed | EWaitingUser
| ECompleted | EFailed | ECancelled | EInterrupted.

Inductive promise : Type :=
| Pending
| Resolved (value : option string)
| Rejected (error : thrown).

(** An [execute] call suspended on its operation: what its closure captured, the checkpoint
    passed to [run], and whether the operation has settled. *)
Record execution : Type := MkExecution {
  x_record : nat;
  x_generation : Z;
  x_controller : nat;
  x_work : work;
  x_resumeFrom : option checkpoint;
  x_settled : bool
}.

Inductive sched_error : Type :=
| CannotRestart
| SchedulerStopping
| IdUnavailable (id : string)
| UnknownTask (id : string)
| CannotResume (s : status)
| NoCheckpoint (id : string)
| BadCheckpoint
| NoActivePromise (id : string)
| NoPersistence
| NoListing
| ResolvedIdMismatch (id : string)
| StateMismatch (id : string)
| ModeMismatch (id : string).

Record scheduler : Type := MkScheduler {
  store : list record;
  records : list (string * nat);
  foregroundReady : queue nat;
  backgroundReady : queue nat;
  delayedReady : queue nat;
  dedupeIndex : gmap string (gset nat);
  maxForeground : Z;
  maxBackground : Z;
  persistent : bool;
  lifecycle : lifecycle_state;
  runningForeground : Z;
  runningBackground : Z;
  readyTimer : option Z;
  pumpScheduled : bool;
  controllers : list bool;
  promises : list promise;
  executions : list execution;
  saved : list task_state;
  emitted : list (event_type * snapshot)
}.

(** Field updates. *)

Definition on_store (f : (list record) -> (list record)) (s : scheduler) : scheduler :=
  MkScheduler (f (store s)) (records s) (foregroundReady s) (backgroundReady s) (delayedReady s)
    (dedupeIndex s) (maxForeground s) (maxBackground s) (persistent s) (lifecycle s)
    (runningForeground s) (runningBackground s) (readyTimer s) (pumpScheduled s) (controllers s)
    (promises s) (executions s) (saved s) (emitted s).
Definition on_records (f : (list (string * nat)) -> (list (string * nat))) (s : scheduler) : scheduler :=
  MkScheduler (store s) (f (records s)) (foregroundReady s) (backgroundReady s) (delayedReady s)
    (dedupeIndex s) (maxForeground s) (maxBackground s) (persistent s) (lifecycle s)
    (runningForeground s) (runningBackground s) (readyTimer s) (pumpScheduled s) (controllers s)
    (promises s) (executions s) (saved s) (emitted s).
Definition on_foregroundReady (f : (queue nat) -> (queue nat)) (s : scheduler) : scheduler :=
  MkScheduler (store s) (records s) (f (foregroundReady s)) (backgroundReady s) (delayedReady s)
    (dedupeIndex s) (maxForeground s) (maxBackground s) (persistent s) (lifecycle s)
    (runningForeground s) (runningBackground s) (readyTimer s) (pumpScheduled s) (controllers s)
    (promises s) (executions s) (saved s) (emitted s).
Definition on_backgroundReady (f : (queue nat) -> (queue nat)) (s : scheduler) : scheduler :=
  MkScheduler (store s) (records s) (foregroundReady s) (f (backgroundReady s)) (delayedReady s)
    (dedupeIndex s) (maxForeground s) (maxBackground s) (persistent s) (lifecycle s)
    (runningForeground s) (runningBackground s) (readyTimer s) (pumpScheduled s) (controllers s)
    (promises s) (executions s) (saved s) (emitted s).
Definition on_delayedReady (f : (queue nat) -> (queue nat)) (s : scheduler) : scheduler :=
  MkScheduler (store s) (records s) (foregroundReady s) (backgroundReady s) (f (delayedReady s))
    (dedupeIndex s) (maxForeground s) (maxBackground s) (persistent s) (lifecycle s)
    (runningForeground s) (runningBackground s) (readyTimer s) (pumpScheduled s) (controllers s)
    (promises s) (executions s) (saved s) (emitted s).
Definition on_dedupeIndex (f : (gmap string (gset nat)) -> (gmap string (gset nat))) (s : scheduler) : scheduler :=
  MkScheduler (store s) (records s) (foregroundReady s) (backgroundReady s) (delayedReady s) (f
    (dedupeIndex s)) (maxForeground s) (maxBackground s) (persistent s) (lifecycle s)
    (runningForeground s) (runningBackground s) (readyTimer s) (pumpScheduled s) (controllers s)
    (promises s) (executions s) (saved s) (emitted s).
Definition on_lifecycle (f : lifecycle_state -> lifecycle_state) (s : scheduler) : scheduler :=
  MkScheduler (store s) (records s) (foregroundReady s) (backgroundReady s) (delayedReady s)
    (dedupeIndex s) (maxForeground s) (maxBackground s) (persistent s) (f (lifecycle s))
    (runningForeground s) (runningBackground s) (readyTimer s) (pumpScheduled s) (controllers s)
    (promises s) (executions s) (saved s) (emitted s).
Definition on_runningForeground (f : Z -> Z) (s : scheduler) : scheduler :=
  MkScheduler (store s) (records s) (foregroundReady s) (backgroundReady s) (delayedReady s)
    (dedupeIndex s) (maxForeground s) (maxBackground s) (persistent s) (lifecycle s) (f
    (runningForeground s)) (runningBackground s) (readyTimer s) (pumpScheduled s) (controllers s)
    (promises s) (executions s) (saved s) (emitted s).
Definition on_runningBackground (f : Z -> Z) (s : scheduler) : scheduler :=
  MkScheduler (store s) (records s) (foregroundReady s) (backgroundReady s) (delayedReady s)
    (dedupeIndex s) (maxForeground s) (maxBackground s) (persistent s) (lifecycle s)
    (runningForeground s) (f (runningBackground s)) (readyTimer s) (pumpScheduled s) (controllers s)
    (promises s) (executions s) (saved s) (emitted s).
Definition on_readyTimer (f : (option Z) -> (option Z)) (s : scheduler) : scheduler :=
  MkScheduler (store s) (records s) (foregroundReady s) (backgroundReady s) (delayedReady s)
    (dedupeIndex s) (maxForeground s) (maxBackground s) (persistent s) (lifecycle s)
    (runningForeground s) (runningBackground s) (f (readyTimer s)) (pumpScheduled s) (controllers s)
    (promises s) (executions s) (saved s) (emitted s).
Definition on_pumpScheduled (f : bool -> bool) (s : scheduler) : scheduler :=
  MkScheduler (store s) (records s) (foregroundReady s) (backgroundReady s) (delayedReady s)
    (dedupeIndex s) (maxForeground s) (maxBackground s) (persistent s) (lifecycle s)
    (runningForeground s) (runningBackground s) (readyTimer s) (f (pumpScheduled s)) (controllers s)
    (promises s) (executions s) (saved s) (emitted s).
Definition on_controllers (f : (list bool) -> (list bool)) (s : scheduler) : scheduler :=
  MkScheduler (store s) (records s) (foregroundReady s) (backgroundReady s) (delayedReady s)
    (dedupeIndex s) (maxForeground s) (maxBackground s) (persistent s) (lifecycle s)
    (runningForeground s) (runningBackground s) (readyTimer s) (pumpScheduled s) (f (controllers s))
    (promises s) (executions s) (saved s) (emitted s).
Definition on_promises (f : (list promise) -> (list promise)) (s : scheduler) : scheduler :=
  MkScheduler (store s) (records s) (foregroundReady s) (backgroundReady s) (delayedReady s)
    (dedupeIndex s) (maxForeground s) (maxBackground s) (persistent s) (lifecycle s)
    (runningForeground s) (runningBackground s) (readyTimer s) (pumpScheduled s) (controllers s) (f
    (promises s)) (executions s) (saved s) (emitted s).
Definition on_executions (f : (list execution) -> (list execution)) (s : scheduler) : scheduler :=
  MkScheduler (store s) (records s) (foregroundReady s) (backgroundReady s) (delayedReady s)
    (dedupeIndex s) (maxForeground s) (maxBackground s) (persistent s) (lifecycle s)
    (runningForeground s) (runningBackground s) (readyTimer s) (pumpScheduled s) (controllers s)
    (promises s) (f (executions s)) (saved s) (emitted s).
Definition on_saved (f : (list task_state) -> (list task_state)) (s : scheduler) : scheduler :=
  MkScheduler (store s) (records s) (foregroundReady s) (backgroundReady s) (delayedReady s)
    (dedupeIndex s) (maxForeground s) (maxBackground s) (persistent s) (lifecycle s)
    (runningForeground s) (runningBackground s) (readyTimer s) (pumpScheduled s) (controllers s)
    (promises s) (executions s) (f (saved s)) (emitted s).
Definition on_emitted (f : (list (event_type * snapshot)) -> (list (event_type * snapshot))) (s : scheduler) : scheduler :=
  MkScheduler (store s) (records s) (foregroundReady s) (backgroundReady s) (delayedReady s)
    (dedupeIndex s) (maxForeground s) (maxBackground s) (persistent s) (lifecycle s)
    (runningForeground s) (runningBackground s) (readyTimer s) (pumpScheduled s) (controllers s)
    (promises s) (executions s) (saved s) (f (emitted s)).

Definition on_s_status (f : status -> status) (n : snapshot) : snapshot :=
  MkSnapshot (s_id n) (s_mode n) (f (s_status n)) (s_startedAt n) (s_finishedAt n) (s_error n)
    (s_progress n) (s_attempts n) (s_checkpoint n).
Definition on_s_startedAt (f : (option Z) -> (option Z)) (n : snapshot) : snapshot :=
  MkSnapshot (s_id n) (s_mode n) (s_status n) (f (s_startedAt n)) (s_finishedAt n) (s_error n)
    (s_progress n) (s_attempts n) (s_checkpoint n).
Definition on_s_finishedAt (f : (option Z) -> (option Z)) (n : snapshot) : snapshot :=
  MkSnapshot (s_id n) (s_mode n) (s_status n) (s_startedAt n) (f (s_finishedAt n)) (s_error n)
    (s_progress n) (s_attempts n) (s_checkpoint n).
Definition on_s_error (f : (option thrown) -> (option thrown)) (n : snapshot) : snapshot :=
  MkSnapshot (s_id n) (s_mode n) (s_status n) (s_startedAt n) (s_finishedAt n) (f (s_error n))
    (s_progress n) (s_attempts n) (s_checkpoint n).
Definition on_s_progress (f : (option Z) -> (option Z)) (n : snapshot) : snapshot :=
  MkSnapshot (s_id n) (s_mode n) (s_status n) (s_startedAt n) (s_finishedAt n) (s_error n) (f
    (s_progress n)) (s_attempts n) (s_checkpoint n).
Definition on_s_attempts (f : (option Z) -> (option Z)) (n : snapshot) : snapshot :=
  MkSnapshot (s_id n) (s_mode n) (s_status n) (s_startedAt n) (s_finishedAt n) (s_error n)
    (s_progress n) (f (s_attempts n)) (s_checkpoint n).
Definition on_s_checkpoint (f : (option checkpoint) -> (option checkpoint)) (n : snapshot) : snapshot :=
  MkSnapshot (s_id n) (s_mode n) (s_status n) (s_startedAt n) (s_finishedAt n) (s_error n)
    (s_progress n) (s_attempts n) (f (s_checkpoint n)).

Definition on_r_work (f : (option work) -> (option work)) (r : record) : record :=
  MkRecord (f (r_work r)) (r_controller r) (r_snapshot r) (r_promise r) (r_attempts r) (r_readyAt
    r) (r_priority r) (r_dedupeKey r) (r_slotAcquired r) (r_generation r) (r_resumeFrom r).
Definition on_r_controller (f : (option nat) -> (option nat)) (r : record) : record :=
  MkRecord (r_work r) (f (r_controller r)) (r_snapshot r) (r_promise r) (r_attempts r) (r_readyAt
    r) (r_priority r) (r_dedupeKey r) (r_slotAcquired r) (r_generation r) (r_resumeFrom r).
Definition on_r_snapshot (f : snapshot -> snapshot) (r : record) : record :=
  MkRecord (r_work r) (r_controller r) (f (r_snapshot r)) (r_promise r) (r_attempts r) (r_readyAt
    r) (r_priority r) (r_dedupeKey r) (r_slotAcquired r) (r_generation r) (r_resumeFrom r).
Definition on_r_promise (f : (option nat) -> (option nat)) (r : record) : record :=
  MkRecord (r_work r) (r_controller r) (r_snapshot r) (f (r_promise r)) (r_attempts r) (r_readyAt
    r) (r_priority r) (r_dedupeKey r) (r_slotAcquired r) (r_generation r) (r_resumeFrom r).
Definition on_r_attempts (f : Z -> Z) (r : record) : record :=
  MkRecord (r_work r) (r_controller r) (r_snapshot r) (r_promise r) (f (r_attempts r)) (r_readyAt
    r) (r_priority r) (r_dedupeKey r) (r_slotAcquired r) (r_generation r) (r_resumeFrom r).
Definition on_r_readyAt (f : Z -> Z) (r : record) : record :=
  MkRecord (r_work r) (r_controller r) (r_snapshot r) (r_promise r) (r_attempts r) (f (r_readyAt
    r)) (r_priority r) (r_dedupeKey r) (r_slotAcquired r) (r_generation r) (r_resumeFrom r).
Definition on_r_dedupeKey (f : (option string) -> (option string)) (r : record) : record :=
  MkRecord (r_work r) (r_controller r) (r_snapshot r) (r_promise r) (r_attempts r) (r_readyAt r)
    (r_priority r) (f (r_dedupeKey r)) (r_slotAcquired r) (r_generation r) (r_resumeFrom r).
Definition on_r_slotAcquired (f : bool -> bool) (r : record) : record :=
  MkRecord (r_work r) (r_controller r) (r_snapshot r) (r_promise r) (r_attempts r) (r_readyAt r)
    (r_priority r) (r_dedupeKey r) (f (r_slotAcquired r)) (r_generation r) (r_resumeFrom r).
Definition on_r_generation (f : Z -> Z) (r : record) : record :=
  MkRecord (r_work r) (r_controller r) (r_snapshot r) (r_promise r) (r_attempts r) (r_readyAt r)
    (r_priority r) (r_dedupeKey r) (r_slotAcquired r) (f (r_generation r)) (r_resumeFrom r).
Definition on_r_resumeFrom (f : (option checkpoint) -> (option checkpoint)) (r : record) : record :=
  MkRecord (r_work r) (r_controller r) (r_snapshot r) (r_promise r) (r_attempts r) (r_readyAt r)
    (r_priority r) (r_dedupeKey r) (r_slotAcquired r) (r_generation r) (f (r_resumeFrom r)).

Definition settle_execution (x : execution) : execution :=
  MkExecution (x_record x) (x_generation x) (x_controller x) (x_work x) (x_resumeFrom x) true.

(** * Helpers *)

Definition isTerminal (s : status) : bool :=
  match s with WaitingUser | Completed | Failed | Cancelled => true | _ => false end.

(** [new TaskScheduler]: [Math.max(1, options.max...)] with the defaults 1 and 2. *)
Definition new_scheduler (maxFg maxBg : option Z) (persistence : bool) : scheduler :=
  MkScheduler [] [] empty_queue empty_queue empty_queue ∅
    (Z.max 1 (default 1%Z maxFg)) (Z.max 1 (default 2%Z maxBg)) persistence
    Idle 0 0 None false [] [] [] [] [].

Definition isForegroundMode (m : mode) : bool :=
  match m with Interactive | ForegroundMode => true | _ => false end.

Definition normalizePriority (p : option Z) : Z := default 0%Z p.

Definition isRetryable (e : thrown) : bool :=
  match e with
  | ErrorObject name _ retryable => bool_decide (name = "TaskTimeoutError"%string) || retryable
  | NonError _ => false
  end.

(** [error instanceof Error ? error : new Error(String(error))]. *)
Definition as_error (e : thrown) : thrown :=
  match e with ErrorObject _ _ _ => e | NonError text => ErrorObject "Error" text false end.

Definition interruptedError (message : string) : thrown := ErrorObject "TaskInterruptedError" message false.

Definition interrupted_message : string := "Scheduled task was interrupted; resume it to continue".
Definition recovery_message : string := "Scheduled task was interrupted before scheduler recovery".

Definition normalizeCheckpoint (c : checkpoint) (now : Z) : option checkpoint :=
  if blank (cp_step c) then None
  else Some (MkCheckpoint (cp_step c) (cp_data c) (Some (default now (cp_updatedAt c)))).

(** An empty or missing dedupe key is falsy. *)
Definition truthy_key (k : option string) : option string :=
  match k with Some EmptyString => None | _ => k end.

Definition toScheduledTaskState (r : record) : task_state :=
  let n := r_snapshot r in
  MkTaskState (s_id n) (s_mode n) (s_status n) n (r_attempts r) (r_readyAt r).

(** The fields [releaseSettledRuntime] clears. *)
Definition releaseSettledRuntime (r : record) : record :=
  MkRecord None None (r_snapshot r) None (r_attempts r) (r_readyAt r) (r_priority r) None
    (r_slotAcquired r) (r_generation r) None.

Section Scheduler.
Context (locale : string -> string -> Z).
Implicit Types (s : scheduler) (i p c : nat) (id : string) (now : Z).

(** * Reading the store *)

Definition ident s i : string := default EmptyString ((fun r => s_id (r_snapshot r)) <$> store s !! i).
Definition priority_of s i : Z := default 0%Z (r_priority <$> store s !! i).
Definition readyAt_of s i : Z := default 0%Z (r_readyAt <$> store s !! i).
Definition status_of s i : option status := (fun r => s_status (r_snapshot r)) <$> store s !! i.

Definition find_record s id : option nat :=
  snd <$> List.find (fun '(k, _) => bool_decide (k = id)) (records s).

(** [Map.set]: an existing key keeps its place in the iteration order. *)
Fixpoint map_set (l : list (string * nat)) id i : list (string * nat) :=
  match l with
  | [] => [(id, i)]
  | (k, j) :: l => if bool_decide (k = id) then (k, i) :: l else (k, j) :: map_set l id i
  end.

Definition aborted s c : bool := default false (controllers s !! c).
Definition record_aborted s (r : record) : bool :=
  match r_controller r with Some c => aborted s c | None => false end.

Definition compareScheduledRecords s i j : Z :=
  let d := (priority_of s j - priority_of s i)%Z in
  if (d =? 0)%Z then locale (ident s i) (ident s j) else d.

Definition compareReadyRecords s i j : Z :=
  let d := (readyAt_of s i - readyAt_of s j)%Z in
  if (d =? 0)%Z then compareScheduledRecords s i j else d.

(** * Effects *)

Definition modify s i (f : record -> record) : scheduler := on_store (alter f i) s.
Definition set_status st : record -> record := on_r_snapshot (on_s_status (fun _ => st)).

Definition persist s i : scheduler :=
  match store s !! i with
  | Some r => if persistent s then on_saved (fun l => l ++ [toScheduledTaskState r]) s else s
  | None => s
  end.

(** [this.emit({ type, snapshot: this.status(id) })]. *)
Definition emit s ty id : scheduler :=
  match find_record s id ≫= (fun i => store s !! i) with
  | Some r => on_emitted (fun l => l ++ [(ty, r_snapshot r)]) s
  | None => s
  end.

(** Settle a promise once. *)
Definition settle_promise s (p : option nat) (v : promise) : scheduler :=
  match p with
  | Some p => on_promises (alter (fun old => match old with Pending => v | _ => old end) p) s
  | None => s
  end.

Definition abort s (c : option nat) : scheduler :=
  match c with Some c => on_controllers (alter (fun _ => true) c) s | None => s end.

Definition scheduleReadyTimer s : scheduler :=
  match peek (delayedReady s) with
  | None => on_readyTimer (fun _ => None) s
  | Some next =>
      if bool_decide (readyTimer s = Some (readyAt_of s next)) then s
      else on_readyTimer (fun _ => Some (readyAt_of s next)) s
  end.

Definition schedulePump s : scheduler := on_pumpScheduled (fun _ => true) s.

(** [this.readyQueue(mode).push(record)]. *)
Definition push_ready s i : scheduler :=
  match store s !! i with
  | Some r =>
      let q := PriorityQueue.push (ident s) (compareScheduledRecords s) in
      if isForegroundMode (s_mode (r_snapshot r))
      then on_foregroundReady (fun fg => q fg i) s
      else on_backgroundReady (fun bg => q bg i) s
  | None => s
  end.

Definition push_delayed s i : scheduler :=
  on_delayedReady (fun d => PriorityQueue.push (ident s) (compareReadyRecords s) d i) s.

Definition removeReady s i (refreshTimer : bool) : scheduler :=
  match store s !! i with
  | Some r =>
      let id := ident s i in
      let rm q := snd (PriorityQueue.remove (ident s) (compareScheduledRecords s) q id) in
      let s := if isForegroundMode (s_mode (r_snapshot r))
               then on_foregroundReady rm s else on_backgroundReady rm s in
      let '(removedDelayed, d) := PriorityQueue.remove (ident s) (compareReadyRecords s) (delayedReady s) id in
      let s := on_delayedReady (fun _ => d) s in
      if removedDelayed && refreshTimer then scheduleReadyTimer s else s
  | None => s
  end.

Definition count_slot (r : record) (d : Z) s : scheduler :=
  if isForegroundMode (s_mode (r_snapshot r))
  then on_runningForeground (fun n => n + d)%Z s
  else on_runningBackground (fun n => n + d)%Z s.

Definition acquireSlot s i : scheduler :=
  match store s !! i with
  | Some r =>
      if r_slotAcquired r then s
      else modify (count_slot r 1 s) i (on_r_slotAcquired (fun _ => true))
  | None => s
  end.

Definition releaseSlot s i : scheduler :=
  match store s !! i with
  | Some r =>
      if negb (r_slotAcquired r) then s
      else modify (count_slot r (-1) s) i (on_r_slotAcquired (fun _ => false))
  | None => s
  end.

(** * The dedupe index *)

Definition least (l : list nat) : option nat :=
  foldr (fun i acc => match acc with Some j => Some (Nat.min i j) | None => Some i end) None l.

(** Terminal candidates are dropped; the oldest of the others is the duplicate. *)
Definition findDuplicate s (dedupeKey : option string) : scheduler * option nat :=
  match truthy_key dedupeKey with
  | None => (s, None)
  | Some key =>
      match dedupeIndex s !! key with
      | None => (s, None)
      | Some candidates =>
          let live := filter (fun i => default true (isTerminal <$> status_of s i) = false) candidates in
          (on_dedupeIndex (fun d => if decide (live = ∅) then delete key d else <[key := live]> d) s,
           least (elements live))
      end
  end.

Definition registerDedupe s i : scheduler :=
  match store s !! i with
  | Some r =>
      match truthy_key (r_dedupeKey r) with
      | Some key =>
          if isTerminal (s_status (r_snapshot r)) then s
          else on_dedupeIndex (fun d => <[key := {[i]} ∪ default ∅ (d !! key)]> d) s
      | None => s
      end
  | None => s
  end.

Definition releaseDedupe s i : scheduler :=
  match store s !! i with
  | Some r =>
      match truthy_key (r_dedupeKey r) with
      | Some key =>
          match dedupeIndex s !! key with
          | Some candidates =>
              let rest := candidates ∖ {[i]} in
              on_dedupeIndex (fun d => if decide (rest = ∅) then delete key d else <[key := rest]> d) s
          | None => s
          end
      | None => s
      end
  | None => s
  end.

(** * Dispatch *)

Definition arm s now i : scheduler :=
  match store s !! i with
  | Some r =>
      let s := removeReady s i false in
      let readyNow := (r_readyAt r <=? now)%Z in
      let s :=
        if bool_decide (s_status (r_snapshot r) = Queued) && negb (record_aborted s r)
        then (if readyNow then push_ready s i else push_delayed s i) else s in
      let s := scheduleReadyTimer s in
      if readyNow then schedulePump s else s
  | None => s
  end.

(** Every round removes an entry of [delayedReady]. *)
Fixpoint promote (fuel : nat) s now : scheduler :=
  match fuel with
  | O => s
  | S fuel =>
      match peek (delayedReady s) with
      | None => s
      | Some i =>
          if (readyAt_of s i >? now)%Z then s
          else
            let s := on_delayedReady (fun d => snd (PriorityQueue.pop (ident s) (compareReadyRecords s) d)) s in
            match store s !! i with
            | Some r =>
                promote fuel
                  (if bool_decide (s_status (r_snapshot r) = Queued) && negb (record_aborted s r)
                   then push_ready s i else s) now
            | None => promote fuel s now
            end
      end
  end.

Definition promoteReady s now : scheduler :=
  scheduleReadyTimer (promote (length (entries (delayedReady s))) s now).

(** The synchronous part of [execute], up to the call of [run]. *)
Definition execute s now i : scheduler :=
  match store s !! i with
  | Some r =>
      match r_work r, r_controller r with
      | Some w, Some c =>
          if negb (bool_decide (s_status (r_snapshot r) = Queued)) || aborted s c then s
          else
            let resumeFrom := r_resumeFrom r in
            let attempts := (r_attempts r + 1)%Z in
            let s := modify s i (fun r =>
              on_r_attempts (fun _ => attempts)
                (on_r_snapshot (fun n =>
                   on_s_attempts (fun _ => Some attempts)
                     (on_s_error (fun _ => None)
                        (on_s_startedAt (fun t => Some (default now t))
                           (on_s_status (fun _ => Running) n))))
                   (on_r_resumeFrom (fun _ => None) r))) in
            let s := persist s i in
            let s := emit s Started (ident s i) in
            on_executions (fun l => l ++ [MkExecution i (r_generation r) c w resumeFrom false]) s
      | _, _ => s
      end
  | None => s
  end.

(** Every round pops a ready queue. *)
Fixpoint pump_loop (fuel : nat) s now : scheduler :=
  match fuel with
  | O => s
  | S fuel =>
      let foreground := if (runningForeground s <? maxForeground s)%Z then peek (foregroundReady s) else None in
      let background := if (runningBackground s <? maxBackground s)%Z then peek (backgroundReady s) else None in
      let use_foreground :=
        match foreground, background with
        | _, None => true
        | Some f, Some b => (compareScheduledRecords s f b <=? 0)%Z
        | None, Some _ => false
        end in
      match foreground, background with
      | None, None => s
      | _, _ =>
          let pop := PriorityQueue.pop (ident s) (compareScheduledRecords s) in
          let '(popped, s) :=
            if use_foreground
            then let '(r, q) := pop (foregroundReady s) in (r, on_foregroundReady (fun _ => q) s)
            else let '(r, q) := pop (backgroundReady s) in (r, on_backgroundReady (fun _ => q) s) in
          match popped with
          | None => pump_loop fuel s now
          | Some i =>
              match store s !! i with
              | Some r =>
                  if negb (bool_decide (s_status (r_snapshot r) = Queued)) || record_aborted s r
                  then pump_loop fuel s now
                  else pump_loop fuel (execute (acquireSlot s i) now i) now
              | None => pump_loop fuel s now
              end
          end
      end
  end.

Definition stopping s : bool := bool_decide (lifecycle s = Stopping \/ lifecycle s = Stopped).

Definition pump s now : scheduler :=
  if stopping s then s
  else
    let s := promoteReady s now in
    pump_loop (length (entries (foregroundReady s)) + length (entries (backgroundReady s))) s now.

(** * Settling a record *)

Definition finishCancelled s now i : scheduler :=
  match store s !! i with
  | Some r =>
      if isTerminal (s_status (r_snapshot r)) || bool_decide (s_status (r_snapshot r) = Interrupted) then s
      else
        let s := removeReady s i true in
        let s := releaseSlot s i in
        let s := modify s i (on_r_snapshot (fun n =>
                   on_s_finishedAt (fun _ => Some now) (on_s_status (fun _ => Cancelled) n))) in
        let s := releaseDedupe s i in
        let s := persist s i in
        let s := modify s i releaseSettledRuntime in
        let s := emit s ECancelled (ident s i) in
        let s := settle_promise s (r_promise r) (Resolved None) in
        pump s now
  | None => s
  end.

Definition recordCheckpoint s now i (cp : checkpoint) (generation : Z) : scheduler * bool :=
  match store s !! i with
  | Some r =>
      if negb (r_generation r =? generation)%Z || negb (bool_decide (s_status (r_snapshot r) = Running))
      then (s, false)
      else
        match normalizeCheckpoint cp now with
        | None => (s, false)
        | Some cp =>
            let s := modify s i (on_r_snapshot (on_s_checkpoint (fun _ => Some cp))) in
            let s := persist s i in
            (emit s Checkpointed (ident s i), true)
        end
  | None => (s, false)
  end.

(** * Public operations *)

Definition start s now : scheduler * result sched_error unit :=
  if bool_decide (lifecycle s = Stopped) then (s, Err CannotRestart)
  else (pump (on_lifecycle (fun _ => LRunning) s) now, Ok tt).

Definition started_if_idle s : scheduler :=
  on_lifecycle (fun l => match l with Idle => LRunning | _ => l end) s.

(** Allocate a record with a fresh controller and promise, and register it. *)
Definition register s (w : work) (n : snapshot) (attempts readyAt : Z) (resumeFrom : option checkpoint)
    (p : promise) : scheduler * nat :=
  let i := length (store s) in
  let r := MkRecord (Some w) (Some (length (controllers s))) n (Some (length (promises s))) attempts readyAt
             (normalizePriority (w_priority w)) (w_dedupeKey w) false 0 resumeFrom in
  let s := on_store (fun l => l ++ [r]) s in
  let s := on_controllers (fun l => l ++ [false]) s in
  let s := on_promises (fun l => l ++ [p]) s in
  let s := on_records (fun l => map_set l (w_id w) i) s in
  (registerDedupe s i, i).

(** The handle of a record is its promise. *)
Definition scheduledPromise s i : result sched_error nat :=
  match store s !! i ≫= r_promise with
  | Some p => Ok p
  | None => Err (NoActivePromise (ident s i))
  end.

Definition schedule s now (w : work) : scheduler * result sched_error nat :=
  if stopping s then (s, Err SchedulerStopping)
  else if blank (w_id w) then (s, Err (IdUnavailable (w_id w)))
  else
    let '(s, duplicate) := findDuplicate s (w_dedupeKey w) in
    match duplicate with
    | Some d => (s, scheduledPromise s d)
    | None =>
        match find_record s (w_id w) with
        | Some _ => (s, Err (IdUnavailable (w_id w)))
        | None =>
            let s := started_if_idle s in
            let n := MkSnapshot (w_id w) (w_mode w) Queued None None None None None None in
            let '(s, i) :=
              register s w n 0 (now + Z.max 0 (default 0%Z (w_debounceMs w))) None Pending in
            let s := persist s i in
            let s := emit s Created (w_id w) in
            let s := emit s EQueued (w_id w) in
            let s := arm s now i in
            (s, scheduledPromise s i)
        end
    end.

Definition cancel s now id : scheduler * bool :=
  match find_record s id ≫= (fun i => pair i <$> store s !! i) with
  | None => (s, false)
  | Some (i, r) =>
      let st := s_status (r_snapshot r) in
      if isTerminal st || bool_decide (st = Interrupted) then (s, false)
      else
        let s := modify s i (on_r_generation (fun g => g + 1)%Z) in
        let s := abort s (r_controller r) in
        (if bool_decide (st = Queued) || bool_decide (st = Running) then finishCancelled s now i else s, true)
  end.

(** [checkpoint(id, checkpoint)]. *)
Definition checkpoint_op s now id (cp : checkpoint) : scheduler * bool :=
  match find_record s id ≫= (fun i => pair i <$> store s !! i) with
  | None => (s, false)
  | Some (i, r) =>
      if negb (bool_decide (s_status (r_snapshot r) = Running)) then (s, false)
      else recordCheckpoint s now i cp (r_generation r)
  end.

Definition waitForUser s now id (cp : option checkpoint) : scheduler * bool :=
  match find_record s id ≫= (fun i => pair i <$> store s !! i) with
  | None => (s, false)
  | Some (i, r) =>
      if negb (bool_decide (s_status (r_snapshot r) = Running)) then (s, false)
      else
        let '(s, recorded) :=
          match cp with Some cp => recordCheckpoint s now i cp (r_generation r) | None => (s, true) end in
        if negb recorded then (s, false)
        else
          match store s !! i ≫= (fun r => s_checkpoint (r_snapshot r)) with
          | None => (s, false)
          | Some _ =>
              let s := modify s i (on_r_generation (fun g => g + 1)%Z) in
              let s := abort s (r_controller r) in
              let s := releaseSlot s i in
              let s := releaseDedupe s i in
              let s := modify s i (on_r_snapshot (fun n =>
                         on_s_finishedAt (fun _ => Some now)
                           (on_s_error (fun _ => None) (on_s_status (fun _ => WaitingUser) n)))) in
              let s := persist s i in
              let s := emit s EWaitingUser id in
              let s := settle_promise s (r_promise r) (Resolved None) in
              (pump s now, true)
          end
  end.

Definition interrupt s now id : scheduler * bool :=
  match find_record s id ≫= (fun i => pair i <$> store s !! i) with
  | None => (s, false)
  | Some (i, r) =>
      let st := s_status (r_snapshot r) in
      if isTerminal st || bool_decide (st = Interrupted) then (s, false)
      else
        let s := modify s i (on_r_generation (fun g => g + 1)%Z) in
        let s := abort s (r_controller r) in
        let s := removeReady s i true in
        let s := releaseSlot s i in
        let s := modify s i (on_r_snapshot (fun n =>
                   on_s_finishedAt (fun _ => Some now)
                     (on_s_error (fun _ => Some (interruptedError interrupted_message))
                        (on_s_status (fun _ => Interrupted) n)))) in
        let s := persist s i in
        let s := emit s EInterrupted id in
        let s := settle_promise s (r_promise r) (Resolved None) in
        (pump s now, true)
  end.

Definition resume s now id (cp : option checkpoint) : scheduler * result sched_error nat :=
  if stopping s then (s, Err SchedulerStopping)
  else
    match find_record s id ≫= (fun i => pair i <$> store s !! i) with
    | None => (s, Err (UnknownTask id))
    | Some (i, r) =>
        let st := s_status (r_snapshot r) in
        if negb (bool_decide (st = Interrupted)) && negb (bool_decide (st = WaitingUser))
        then (s, Err (CannotResume st))
        else if bool_decide (st = WaitingUser) && negb (bool_decide (is_Some (s_checkpoint (r_snapshot r))))
        then (s, Err (NoCheckpoint id))
        else
          match (match cp with None => Some (s_checkpoint (r_snapshot r))
                 | Some cp => Some <$> normalizeCheckpoint cp now end) with
          | None => (s, Err BadCheckpoint)
          | Some cp =>
              let s := modify s i (fun r =>
                MkRecord (r_work r) (Some (length (controllers s)))
                  (MkSnapshot (s_id (r_snapshot r)) (s_mode (r_snapshot r)) Queued None None None
                     (s_progress (r_snapshot r)) (s_attempts (r_snapshot r)) cp)
                  (Some (length (promises s))) (r_attempts r) now (r_priority r) (r_dedupeKey r)
                  (r_slotAcquired r) (r_generation r + 1) cp) in
              let s := on_controllers (fun l => l ++ [false]) s in
              let s := on_promises (fun l => l ++ [Pending]) s in
              let s := registerDedupe s i in
              let s := started_if_idle s in
              let s := persist s i in
              let s := emit s EQueued id in
              let s := arm s now i in
              (s, scheduledPromise s i)
          end
    end.

(** * Recovery *)

(** [rehydrate] up to its [await persistence.load(...)]. *)
Definition rehydrate_check s (w : work) : result sched_error unit :=
  throw_if negb (persistent s) with NoPersistence in
  throw_if stopping s with SchedulerStopping in
  throw_if blank (w_id w) with IdUnavailable (w_id w) in
  throw_if bool_decide (is_Some (find_record s (w_id w))) with IdUnavailable (w_id w) in
  Ok tt.

(** [rehydrate] after the load: nothing checked before the [await] is checked again. *)
Definition rehydrate_load s now (w : work) (loaded : option task_state)
  : scheduler * result sched_error (option nat) :=
  match loaded with
  | None => (s, Ok None)
  | Some t =>
      let n := t_snapshot t in
      if negb (bool_decide (t_id t = w_id w)) || negb (bool_decide (s_id n = w_id w))
      then (s, Err (StateMismatch (w_id w)))
      else if negb (bool_decide (t_mode t = w_mode w)) || negb (bool_decide (s_mode n = w_mode w))
      then (s, Err (ModeMismatch (w_id w)))
      else if isTerminal (t_status t) && negb (bool_decide (t_status t = WaitingUser)) then (s, Ok None)
      else
        let interruptedOnRecovery := bool_decide (t_status t = Running) in
        let n := on_s_status (fun _ => t_status t) n in
        let n :=
          if interruptedOnRecovery
          then on_s_finishedAt (fun _ => Some now)
                 (on_s_error (fun _ => Some (interruptedError recovery_message))
                    (on_s_status (fun _ => Interrupted) n))
          else n in
        let attempts := Z.max 0 (t_attempts t) in
        let resumeFrom := if bool_decide (s_status n = Queued) then s_checkpoint n else None in
        let n := on_s_attempts (fun a => Some (default attempts a)) n in
        let settled := bool_decide (s_status n = Interrupted) || bool_decide (s_status n = WaitingUser) in
        let '(s, i) := register s w n attempts (t_readyAt t) resumeFrom
                         (if settled then Resolved None else Pending) in
        let s := started_if_idle s in
        let s :=
          if bool_decide (s_status n = Queued) then arm (emit s EQueued (w_id w)) now i
          else if interruptedOnRecovery then persist s i
          else s in
        (s, let* p := scheduledPromise s i in Ok (Some p))
  end.

(** [rehydrate] with no other event between its check and the end of its load. *)
Definition rehydrate s now (w : work) (loaded : option task_state)
  : scheduler * result sched_error (option nat) :=
  match rehydrate_check s w with
  | Err e => (s, Err e)
  | Ok _ => rehydrate_load s now w loaded
  end.

(** The loop of [rehydrateAll] over the listed states, with no other event at its awaits:
    [resolveWork] finds the executable work of a state and [load] is the persistence layer's. *)
Fixpoint rehydrate_each s now (resolveWork : task_state -> option work) (load : string -> option task_state)
    (states : list task_state) (handles : list nat) : scheduler * result sched_error (list nat) :=
  match states with
  | [] => (s, Ok handles)
  | state :: states =>
      if isTerminal (t_status state) && negb (bool_decide (t_status state = WaitingUser))
      then rehydrate_each s now resolveWork load states handles
      else
        match resolveWork state with
        | None => rehydrate_each s now resolveWork load states handles
        | Some w =>
            if negb (bool_decide (w_id w = t_id state)) then (s, Err (ResolvedIdMismatch (t_id state)))
            else
              match rehydrate s now w (load (w_id w)) with
              | (s, Err e) => (s, Err e)
              | (s, Ok handle) =>
                  rehydrate_each s now resolveWork load states
                    (handles ++ match handle with Some p => [p] | None => [] end)
              end
        end
  end.

Definition rehydrateAll s now (resolveWork : task_state -> option work) (load : string -> option task_state)
    (list_states : option (list task_state)) : scheduler * result sched_error (list nat) :=
  if negb (persistent s) then (s, Err NoPersistence)
  else
    match list_states with
    | None => (s, Err NoListing)
    | Some states =>
        if stopping s then (s, Err SchedulerStopping)
        else rehydrate_each s now resolveWork load states []
    end.

(** * Completion of running work *)

Definition get_execution s (e : nat) : option (execution * record) :=
  x ← executions s !! e; r ← store s !! x_record x; Some (x, r).

Definition is_current (x : execution) (r : record) : bool := (r_generation r =? x_generation x)%Z.

(** The [reportProgress] callback of execution [e]. *)
Definition report_progress s (e : nat) (p : Z) : scheduler :=
  match get_execution s e with
  | None => s
  | Some (x, r) =>
      if negb (is_current x r) || negb (bool_decide (s_status (r_snapshot r) = Running)) then s
      else
        let s := modify s (x_record x) (on_r_snapshot (on_s_progress (fun _ => Some (Z.max 0 (Z.min 1 p))))) in
        emit s Progress (ident s (x_record x))
  end.

(** The [reportCheckpoint] callback. *)
Definition report_checkpoint s now (e : nat) (cp : checkpoint) : scheduler :=
  match executions s !! e with
  | None => s
  | Some x => fst (recordCheckpoint s now (x_record x) cp (x_generation x))
  end.

(** The timer of [withTimeout] fires: the controller is aborted; the rejection with
    [timeout_error] then reaches [settle], unless the operation settles first. *)
Definition timeout_fires s (e : nat) : scheduler :=
  match executions s !! e with
  | Some x =>
      if negb (x_settled x) && (0 <? default 0%Z (w_timeoutMs (x_work x)))%Z
      then abort s (Some (x_controller x)) else s
  | None => s
  end.

Definition timeout_error : thrown := ErrorObject "TaskTimeoutError" "Scheduled task exceeded its timeout" true.

Definition settle_fulfilled s now (x : execution) (r : record) (v : string) : scheduler :=
  let i := x_record x in
  if negb (is_current x r) then s
  else if aborted s (x_controller x) then finishCancelled s now i
  else
    let s := releaseSlot s i in
    let s := modify s i (on_r_snapshot (fun n =>
               on_s_finishedAt (fun _ => Some now) (on_s_status (fun _ => Completed) n))) in
    let s := releaseDedupe s i in
    let s := persist s i in
    let s := modify s i releaseSettledRuntime in
    let s := emit s ECompleted (ident s i) in
    settle_promise s (r_promise r) (Resolved (Some v)).

Definition settle_rejected s now (x : execution) (r : record) (error : thrown) : scheduler :=
  let i := x_record x in
  if negb (is_current x r) then s
  else if isRetryable error && (r_attempts r <? Z.max 1 (default 1 (w_maxAttempts (x_work x))))%Z then
    let s := releaseSlot s i in
    let s := modify s i (fun r =>
      on_r_readyAt (fun _ => now + Z.max 0 (default 0 (w_retryDelayMs (x_work x))))%Z
        (on_r_snapshot (on_s_status (fun _ => Queued))
           (on_r_generation (fun g => g + 1)%Z
              (on_r_controller (fun _ => Some (length (controllers s))) r)))) in
    let s := on_controllers (fun l => l ++ [false]) s in
    let s := persist s i in
    let s := emit s Retrying (ident s i) in
    arm s now i
  else if aborted s (x_controller x) then finishCancelled s now i
  else
    let s := releaseSlot s i in
    let s := modify s i (set_status Failed) in
    let s := releaseDedupe s i in
    let s := modify s i (on_r_snapshot (fun n =>
               on_s_finishedAt (fun _ => Some now) (on_s_error (fun _ => Some (as_error error)) n))) in
    let s := persist s i in
    let s := modify s i releaseSettledRuntime in
    let s := emit s EFailed (ident s i) in
    settle_promise s (r_promise r) (Rejected error).

(** The operation of execution [e] settles; [finally] pumps. *)
Definition settle s now (e : nat) (outcome : result thrown string) : scheduler :=
  match get_execution s e with
  | None => s
  | Some (x, r) =>
      if x_settled x then s
      else
        let s := on_executions (alter settle_execution e) s in
        let s := match outcome with
                 | Ok v => settle_fulfilled s now x r v
                 | Err error => settle_rejected s now x r error
                 end in
        pump s now
  end.

(** * Timers, microtasks and shutdown *)

Definition ready_timer_fires s now : scheduler :=
  match readyTimer s with
  | None => s
  | Some _ => schedulePump (promoteReady (on_readyTimer (fun _ => None) s) now)
  end.

Definition pump_microtask s now : scheduler :=
  if pumpScheduled s then pump (on_pumpScheduled (fun _ => false) s) now else s.

(** The synchronous part of [stop]: interrupt every live record. *)
Definition stop_begin s now : scheduler :=
  if bool_decide (lifecycle s = Stopped) then s
  else
    let s := on_lifecycle (fun _ => Stopping) s in
    foldl (fun s '(_, i) =>
      match status_of s i with
      | Some st =>
          if negb (isTerminal st) && negb (bool_decide (st = Interrupted))
          then fst (interrupt s now (ident s i)) else s
      | None => s
      end) s (records s).

Definition promise_settled s (r : record) : bool :=
  match r_promise r ≫= (fun p => promises s !! p) with
  | Some Pending => false
  | _ => true
  end.

(** The promises [stop] waits for, read when its synchronous part has run. *)
Definition awaited s : list nat := omap (fun '(_, i) => store s !! i ≫= r_promise) (records s).

(** [Promise.allSettled] over the awaited promises has resolved: [stop] finishes, whatever the
    lifecycle is by then. *)
Definition stop_end s (promises_awaited : list nat) : scheduler :=
  if forallb (fun p => match promises s !! p with Some Pending => false | _ => true end) promises_awaited
  then on_lifecycle (fun _ => Stopped) s else s.

(** * Runs *)

Inductive event : Type :=
| EvStart
| EvSchedule (w : work)
| EvCancel (id : string)
| EvCheckpoint (id : string) (cp : checkpoint)
| EvWaitForUser (id : string) (cp : option checkpoint)
| EvInterrupt (id : string)
| EvResume (id : string) (cp : option checkpoint)
| EvRehydrate (w : work) (loaded : option task_state)
| EvLoadFinished (w : work) (loaded : option task_state)
| EvProgress (e : nat) (p : Z)
| EvReportCheckpoint (e : nat) (cp : checkpoint)
| EvTimeout (e : nat)
| EvSettle (e : nat) (outcome : result thrown string)
| EvReadyTimer
| EvPump
| EvStop
| EvStopEnd (promises_awaited : list nat).

Definition step s now (ev : event) : scheduler :=
  match ev with
  | EvStart => fst (start s now)
  | EvSchedule w => fst (schedule s now w)
  | EvCancel id => fst (cancel s now id)
  | EvCheckpoint id cp => fst (checkpoint_op s now id cp)
  | EvWaitForUser id cp => fst (waitForUser s now id cp)
  | EvInterrupt id => fst (interrupt s now id)
  | EvResume id cp => fst (resume s now id cp)
  | EvRehydrate w loaded => fst (rehydrate s now w loaded)
  | EvLoadFinished w loaded => fst (rehydrate_load s now w loaded)
  | EvProgress e p => report_progress s e p
  | EvReportCheckpoint e cp => report_checkpoint s now e cp
  | EvTimeout e => timeout_fires s e
  | EvSettle e outcome => settle s now e outcome
  | EvReadyTimer => ready_timer_fires s now
  | EvPump => pump_microtask s now
  | EvStop => stop_begin s now
  | EvStopEnd awaited => stop_end s awaited
  end.

(** A run: events, each at a clock reading. *)
Definition run s (trace : list (Z * event)) : scheduler :=
  foldl (fun s '(now, ev) => step s now ev) s trace.
End Scheduler.
