(* ===== verification/SchedulerProofs.v ===== *)
(** The invariant of the task scheduler and the lemmas that preserve it.  An operation takes a
    record apart in several steps; [inv (Some (i, q)) s] is the invariant with a hole: record
    [i], whose handle was the promise [q], is being worked on, every other one is settled. *)

From S2P Require Import Prelude PriorityQueue Scheduler.

(** * Slots *)

Definition slot_of (fg : bool) (r : record) : Z :=
  if r_slotAcquired r && Bool.eqb (isForegroundMode (s_mode (r_snapshot r))) fg then 1 else 0.

Definition slots (fg : bool) (l : list record) : Z := foldr (fun r n => slot_of fg r + n)%Z 0%Z l.

Lemma slots_insert fg l i r r' :
  l !! i = Some r -> slots fg (<[i := r']> l) = (slots fg l - slot_of fg r + slot_of fg r')%Z.
Proof.
  revert i. induction l as [|x l IH]; intros [|i] H; simplify_eq/=; [lia|]. rewrite IH by done. lia.
Qed.

Lemma slots_app fg l k : slots fg (l ++ k) = (slots fg l + slots fg k)%Z.
Proof. induction l as [|x l IH]; simpl; [done|]. rewrite IH. lia. Qed.

Lemma slots_nonneg fg l : (0 <= slots fg l)%Z.
Proof. induction l as [|x l IH]; simpl; [done|]. unfold slot_of. case_match; lia. Qed.

Lemma alter_insert {A} (f : A -> A) (l : list A) (i : nat) (x : A) : l !! i = Some x -> alter f i l = <[i := f x]> l.
Proof. revert i. induction l as [|y l IH]; intros [|i] H; simplify_eq/=; [done|]. f_equal. by apply IH. Qed.

(** * The invariant *)

Definition active (st : status) : bool := match st with Queued | Running => true | _ => false end.

Definition in_queue (s : scheduler) (i : nat) : Prop :=
  i ∈ entries (foregroundReady s) \/ i ∈ entries (backgroundReady s) \/ i ∈ entries (delayedReady s).

Definition promise_is (s : scheduler) (r : record) (v : promise) : Prop :=
  exists p, r_promise r = Some p /\ promises s !! p = Some v.

(** What holds of a record at rest: a queued one waits in a queue under a controller nobody
    aborted, a running one has an unsettled execution of its generation, and any other one
    has settled its promise. *)
Definition live_record (s : scheduler) (i : nat) (r : record) : Prop :=
  (r_slotAcquired r = true <-> s_status (r_snapshot r) = Running) /\
  (forall e x, executions s !! e = Some x -> x_record x = i -> x_settled x = false ->
     x_generation x = r_generation r -> s_status (r_snapshot r) = Running) /\
  (s_status (r_snapshot r) <> Completed -> s_status (r_snapshot r) <> Failed ->
     s_status (r_snapshot r) <> Cancelled -> is_Some (r_work r) /\ is_Some (r_controller r)) /\
  match s_status (r_snapshot r) with
  | Queued =>
      promise_is s r Pending /\ in_queue s i /\ record_aborted s r = false /\
      (forall e x, executions s !! e = Some x -> x_record x = i -> r_controller r <> Some (x_controller x))
  | Running =>
      promise_is s r Pending /\
      exists e x, executions s !! e = Some x /\ x_record x = i /\ x_settled x = false /\
        x_generation x = r_generation r
  | _ => promise_settled s r = true
  end.

Definition queued_at (s : scheduler) (i : nat) (P : mode -> Prop) : Prop :=
  exists r, store s !! i = Some r /\ s_status (r_snapshot r) = Queued /\ P (s_mode (r_snapshot r)).

Definition is_hole (h : option (nat * option nat)) (i : nat) : Prop := exists q, h = Some (i, q).

Section Invariant.
Context (locale : string -> string -> Z).
Implicit Types (s : scheduler) (i e p c : nat) (h : option (nat * option nat)) (r : record).

Record inv h s : Prop := MkInv {
  inv_live : forall i r, ~ is_hole h i -> store s !! i = Some r -> live_record s i r;
  inv_id : forall i r, store s !! i = Some r -> find_record s (s_id (r_snapshot r)) = Some i;
  inv_records : forall id i, find_record s id = Some i -> ident s i = id /\ i < length (store s);
  inv_controller : forall i r c, store s !! i = Some r -> r_controller r = Some c -> c < length (controllers s);
  inv_promise : forall i r p, store s !! i = Some r -> r_promise r = Some p -> p < length (promises s);
  inv_fg : wf_queue (ident s) (compareScheduledRecords locale s) (foregroundReady s);
  inv_bg : wf_queue (ident s) (compareScheduledRecords locale s) (backgroundReady s);
  inv_delayed : wf_queue (ident s) (compareReadyRecords locale s) (delayedReady s);
  inv_fg_in : forall i, i ∈ entries (foregroundReady s) -> queued_at s i (fun m => isForegroundMode m = true);
  inv_bg_in : forall i, i ∈ entries (backgroundReady s) -> queued_at s i (fun m => isForegroundMode m = false);
  inv_delayed_in : forall i, i ∈ entries (delayedReady s) ->
    queued_at s i (fun _ => True) /\ i ∉ entries (foregroundReady s) /\ i ∉ entries (backgroundReady s);
  inv_controllers_ne : forall i j r r' c, store s !! i = Some r -> store s !! j = Some r' ->
    r_controller r = Some c -> r_controller r' = Some c -> i = j;
  inv_promises_ne : forall i j r r' p, store s !! i = Some r -> store s !! j = Some r' ->
    r_promise r = Some p -> r_promise r' = Some p -> i = j;
  inv_hole : forall i p, h = Some (i, Some p) ->
    p < length (promises s) /\ forall j r, store s !! j = Some r -> r_promise r = Some p -> j = i;
  inv_exec : forall e x, executions s !! e = Some x ->
    exists r, store s !! x_record x = Some r /\ (x_generation x <= r_generation r)%Z /\
      x_controller x < length (controllers s) /\
      forall j r', store s !! j = Some r' -> r_controller r' = Some (x_controller x) -> j = x_record x;
  inv_unique : forall e e' x x', executions s !! e = Some x -> executions s !! e' = Some x' ->
    x_record x = x_record x' -> x_generation x = x_generation x' ->
    x_settled x = false -> x_settled x' = false -> e = e';
  inv_pending : forall p, promises s !! p = Some Pending ->
    (exists i, h = Some (i, Some p)) \/
    (exists i r, ~ is_hole h i /\ store s !! i = Some r /\ r_promise r = Some p /\
       active (s_status (r_snapshot r)) = true);
  inv_slots_fg : runningForeground s = slots true (store s);
  inv_slots_bg : runningBackground s = slots false (store s);
  inv_max_fg : (runningForeground s <= maxForeground s)%Z;
  inv_max_bg : (runningBackground s <= maxBackground s)%Z
}.

(** * Updates the invariant does not see *)

(** Two states are equivalent when they agree on all the fields the invariant reads: they
    may differ in the logs, the dedupe index, the timer, the pending microtask and the
    lifecycle. *)
Definition core s :=
  (store s, records s, (foregroundReady s, backgroundReady s, delayedReady s),
   (maxForeground s, maxBackground s, runningForeground s, runningBackground s),
   (controllers s, promises s, executions s)).

#[export] Instance scheduler_equiv : Equiv scheduler := fun s s' => core s = core s'.

#[export] Instance scheduler_equivalence : Equivalence (≡@{scheduler}).
Proof. unfold equiv, scheduler_equiv. split; [by intros ?|by intros ? ?|intros ? ? ?; congruence]. Qed.

(** Open an equivalence of two states into the equality of their fields. *)
Ltac open_core :=
  repeat match goal with
  | s : scheduler |- _ => destruct s
  end; unfold equiv, scheduler_equiv, core in *; simpl in *; simplify_eq/=.

#[export] Instance inv_proper h : Proper ((≡) ==> iff) (inv h).
Proof.
  assert (Hi : forall s s', s ≡ s' -> inv h s -> inv h s').
  { intros s s' E H. open_core. destruct H. constructor; assumption. }
  intros s s' E. split; [by apply Hi|by apply Hi; symmetry].
Qed.

Lemma persist_equiv s i : persist s i ≡ s.
Proof. unfold persist. by repeat case_match. Qed.
Lemma emit_equiv s ty id : emit s ty id ≡ s.
Proof. unfold emit. by repeat case_match. Qed.
Lemma scheduleReadyTimer_equiv s : scheduleReadyTimer s ≡ s.
Proof. unfold scheduleReadyTimer. by repeat case_match. Qed.
Lemma registerDedupe_equiv s i : registerDedupe s i ≡ s.
Proof. unfold registerDedupe. by repeat case_match. Qed.
Lemma releaseDedupe_equiv s i : releaseDedupe s i ≡ s.
Proof. unfold releaseDedupe. by repeat case_match. Qed.
Lemma findDuplicate_equiv s k : fst (findDuplicate s k) ≡ s.
Proof. unfold findDuplicate. by repeat case_match. Qed.
Lemma lifecycle_equiv s f : on_lifecycle f s ≡ s.
Proof. done. Qed.
Lemma pumpScheduled_equiv s f : on_pumpScheduled f s ≡ s.
Proof. done. Qed.
Lemma readyTimer_equiv s f : on_readyTimer f s ≡ s.
Proof. done. Qed.

#[export] Instance store_proper : Proper ((≡) ==> (=)) store.
Proof. intros s s' E. by open_core. Qed.
#[export] Instance ident_proper : Proper ((≡) ==> (=)) ident.
Proof. intros s s' E. by open_core. Qed.
#[export] Instance live_record_proper : Proper ((≡) ==> (=) ==> (=) ==> iff) live_record.
Proof. intros s s' E i ? <- r ? <-. by open_core. Qed.
#[export] Instance on_store_proper f : Proper ((≡) ==> (≡)) (on_store f).
Proof. intros s s' E. by open_core. Qed.
#[export] Instance modify_proper : Proper ((≡) ==> (=) ==> (=) ==> (≡)) modify.
Proof. intros s s' E i ? <- f ? <-. by open_core. Qed.
#[export] Instance settle_promise_proper : Proper ((≡) ==> (=) ==> (=) ==> (≡)) settle_promise.
Proof. intros s s' E p ? <- v ? <-. destruct p; by open_core. Qed.
#[export] Instance abort_proper : Proper ((≡) ==> (=) ==> (≡)) abort.
Proof. intros s s' E c ? <-. destruct c; by open_core. Qed.
#[export] Instance on_controllers_proper f : Proper ((≡) ==> (≡)) (on_controllers f).
Proof. intros s s' E. by open_core. Qed.
#[export] Instance on_promises_proper f : Proper ((≡) ==> (≡)) (on_promises f).
Proof. intros s s' E. by open_core. Qed.
#[export] Instance on_executions_proper f : Proper ((≡) ==> (≡)) (on_executions f).
Proof. intros s s' E. by open_core. Qed.
#[export] Instance releaseSlot_proper : Proper ((≡) ==> (=) ==> (≡)) releaseSlot.
Proof.
  intros s s' E i ? <-. unfold releaseSlot. replace (store s') with (store s) by (by open_core).
  repeat case_match; [done| |done]. apply modify_proper; [|done..].
  unfold count_slot. destruct (isForegroundMode _); by open_core.
Qed.
#[export] Instance acquireSlot_proper : Proper ((≡) ==> (=) ==> (≡)) acquireSlot.
Proof.
  intros s s' E i ? <-. unfold acquireSlot. replace (store s') with (store s) by (by open_core).
  repeat case_match; [done| |done]. apply modify_proper; [|done..].
  unfold count_slot. destruct (isForegroundMode _); by open_core.
Qed.

(** * Opening and closing the hole *)

Lemma not_hole_ne i q j : ~ is_hole (Some (i, q)) j <-> j <> i.
Proof. unfold is_hole. split; [intros H ->; apply H; eauto|intros H [q' [= -> ->]]; done]. Qed.

Lemma inv_open s i r : inv None s -> store s !! i = Some r -> inv (Some (i, r_promise r)) s.
Proof.
  intros H Hr. destruct H. constructor; try assumption.
  - intros j r' _. apply inv_live0. unfold is_hole. naive_solver.
  - intros j p [= <- Hp]. eauto.
  - intros p Hp. destruct (inv_pending0 p Hp) as [[? ?]|(j & r' & _ & Hj & Hp' & Ha)]; [done|].
    destruct (decide (j = i)) as [->|Hne]; [left; exists i; simplify_eq; by rewrite <- Hp'|].
    right. exists j, r'. by rewrite not_hole_ne.
Qed.

Lemma inv_close s i q r :
  inv (Some (i, q)) s -> store s !! i = Some r -> live_record s i r ->
  (forall p, q = Some p -> promises s !! p = Some Pending ->
     r_promise r = Some p /\ active (s_status (r_snapshot r)) = true) ->
  inv None s.
Proof.
  intros H Hr Hl Hq. assert (Hno : forall j, ~ is_hole None j) by (intros j [? [=]]).
  destruct H. constructor; try assumption.
  - intros j r' _ Hj. destruct (decide (j = i)) as [->|Hne]; [by simplify_eq|].
    apply inv_live0; [by rewrite not_hole_ne|done].
  - done.
  - intros p Hp. right. destruct (inv_pending0 p Hp) as [[j [= <- ->]]|(j & r' & _ & ?)]; [|eauto].
    destruct (Hq p eq_refl Hp). eauto 10.
Qed.

(** * Single steps under a hole *)

Definition put s i r : scheduler := on_store (fun l => <[i := r]> l) s.

Lemma modify_put s i f r : store s !! i = Some r -> modify s i f = put s i (f r).
Proof. intros Hr. unfold modify, put, on_store. by rewrite (alter_insert _ _ _ r). Qed.

Lemma put_lookup s i r r' j :
  store s !! i = Some r -> store (put s i r') !! j = if decide (j = i) then Some r' else store s !! j.
Proof.
  intros Hr. simpl. case_decide; subst.
  - apply list_lookup_insert_eq. by eapply lookup_lt_Some.
  - by apply list_lookup_insert_ne.
Qed.

Lemma ident_eq s i r : store s !! i = Some r -> ident s i = s_id (r_snapshot r).
Proof. unfold ident. by intros ->. Qed.

(** Records that agree on id, mode and priority are the same to the indexes. *)
Definition same_key (r r' : record) : Prop :=
  s_id (r_snapshot r') = s_id (r_snapshot r) /\ s_mode (r_snapshot r') = s_mode (r_snapshot r) /\
  r_priority r' = r_priority r.

Lemma put_ident s i r r' j : store s !! i = Some r -> same_key r r' -> ident (put s i r') j = ident s j.
Proof.
  intros Hr (Hid & _ & _). unfold ident. rewrite (put_lookup _ _ _ _ _ Hr). case_decide; [|done].
  subst. rewrite Hr. exact Hid.
Qed.

Lemma put_compare s i r r' a b :
  store s !! i = Some r -> same_key r r' ->
  compareScheduledRecords locale (put s i r') a b = compareScheduledRecords locale s a b.
Proof.
  intros Hr Hk. unfold compareScheduledRecords. rewrite !(put_ident _ _ _ _ _ Hr Hk).
  assert (Hp : forall j, priority_of (put s i r') j = priority_of s j); [|by rewrite !Hp].
  intros j. unfold priority_of. rewrite (put_lookup _ _ _ _ _ Hr). case_decide; [|done].
  subst. rewrite Hr. by destruct Hk as (_ & _ & Hp).
Qed.

Lemma put_compare_ready s i r r' a b :
  store s !! i = Some r -> same_key r r' -> (a = i \/ b = i -> r_readyAt r' = r_readyAt r) ->
  compareReadyRecords locale (put s i r') a b = compareReadyRecords locale s a b.
Proof.
  intros Hr Hk Ht. unfold compareReadyRecords. rewrite (put_compare _ _ _ _ _ _ Hr Hk).
  assert (Hp : forall j, j = a \/ j = b -> readyAt_of (put s i r') j = readyAt_of s j).
  { intros j Hj. unfold readyAt_of. rewrite (put_lookup _ _ _ _ _ Hr). case_decide; [|done].
    subst. rewrite Hr. simpl. rewrite Ht; [done|naive_solver]. }
  by rewrite !Hp by auto.
Qed.

Lemma live_record_ext s s' i r :
  executions s' = executions s -> (forall c, r_controller r = Some c -> aborted s' c = aborted s c) ->
  (forall p, r_promise r = Some p -> promises s' !! p = promises s !! p) ->
  (in_queue s i -> in_queue s' i) -> live_record s i r -> live_record s' i r.
Proof.
  intros He Ha Hp Hq (H1 & H2 & H3 & H4). unfold live_record. rewrite He. split_and!; [done..|].
  assert (Hpi : forall v, promise_is s r v -> promise_is s' r v).
  { intros v (p & Hrp & Hv). exists p. by rewrite Hp. }
  assert (Hps : promise_settled s r = true -> promise_settled s' r = true).
  { unfold promise_settled. destruct (r_promise r) as [p|] eqn:E; simpl; [by rewrite Hp|done]. }
  destruct (s_status (r_snapshot r)) eqn:Es; auto.
  - destruct H4 as (? & ? & Hab & ?). split_and!; auto. unfold record_aborted in *.
    destruct (r_controller r); [by rewrite Ha|done].
  - destruct H4 as (? & ?). split; auto.
Qed.

(** A controller or promise that was just allocated. *)
Definition fresh_controller s c : Prop :=
  c < length (controllers s) /\
  (forall j r, store s !! j = Some r -> r_controller r <> Some c) /\
  (forall e x, executions s !! e = Some x -> x_controller x <> c).

Definition fresh_promise s p : Prop :=
  p < length (promises s) /\ (forall j r, store s !! j = Some r -> r_promise r <> Some p).

(** The slot counters move by [df] and [db]. *)
Definition recount s (df db : Z) : scheduler :=
  on_runningForeground (fun n => n + df)%Z (on_runningBackground (fun n => n + db)%Z s).

Lemma recount_0 s : recount s 0 0 = s.
Proof. destruct s. unfold recount, on_runningForeground, on_runningBackground. simpl. by rewrite !Z.add_0_r. Qed.

Lemma inv_put_count s i q r r' df db :
  inv (Some (i, q)) s -> store s !! i = Some r -> same_key r r' ->
  (r_generation r <= r_generation r')%Z ->
  (forall c, r_controller r' = Some c -> r_controller r = Some c \/ fresh_controller s c) ->
  (forall p, r_promise r' = Some p -> r_promise r = Some p \/ fresh_promise s p) ->
  (df = slot_of true r' - slot_of true r)%Z -> (db = slot_of false r' - slot_of false r)%Z ->
  (runningForeground s + df <= maxForeground s)%Z -> (runningBackground s + db <= maxBackground s)%Z ->
  (in_queue s i -> s_status (r_snapshot r') = Queued /\ r_readyAt r' = r_readyAt r) ->
  inv (Some (i, q)) (recount (put s i r') df db).
Proof.
  intros H Hr Hk Hg Hc Hp Hdf Hdb Hmf Hmb Hq. set (s' := recount (put s i r') df db).
  pose proof (fun j => put_lookup s i r r' j Hr : store s' !! j = _) as Hl.
  assert (Hid : forall j, ident s' j = ident s j) by (intros; by apply (put_ident s i r)).
  assert (Hold : forall j x, store s' !! j = Some x ->
    (j = i /\ x = r') \/ (j <> i /\ store s !! j = Some x)).
  { intros j x. rewrite Hl. case_decide; naive_solver. }
  assert (Hqd : forall j P, in_queue s j -> queued_at s j P -> queued_at s' j P).
  { intros j P Hj (x & Hx & Hxs & HP). unfold queued_at. rewrite Hl. case_decide; [|eauto].
    subst. simplify_eq. destruct (Hq Hj) as [? _]. destruct Hk as (_ & Hm & _). exists r'. by rewrite Hm. }
  destruct H. constructor; try (simpl; assumption).
  - intros j x Hj. rewrite not_hole_ne in Hj. change (store (recount _ _ _)) with (store s').
    rewrite Hl, decide_False by done. intros Hx.
    apply (live_record_ext s); [done..|]. apply inv_live0; [by rewrite not_hole_ne|done].
  - intros j x Hx. destruct (Hold _ _ Hx) as [[-> ->]|[_ Hx']]; [|by apply inv_id0].
    destruct Hk as (-> & _). by apply inv_id0.
  - intros id j Hj. destruct (inv_records0 id j Hj) as [<- ?]. rewrite Hid.
    split; [done|]. simpl. by rewrite length_insert.
  - intros j x c Hx Hxc. destruct (Hold _ _ Hx) as [[-> ->]|[_ Hx']]; [|by eapply inv_controller0].
    destruct (Hc c Hxc) as [?|[? _]]; [by eapply inv_controller0|done].
  - intros j x p Hx Hxp. destruct (Hold _ _ Hx) as [[-> ->]|[_ Hx']]; [|by eapply inv_promise0].
    destruct (Hp p Hxp) as [?|[? _]]; [by eapply inv_promise0|done].
  - eapply wf_queue_ext; [| |exact inv_fg0]; intros; [by apply Hid|by apply (put_compare s i r)].
  - eapply wf_queue_ext; [| |exact inv_bg0]; intros; [by apply Hid|by apply (put_compare s i r)].
  - eapply wf_queue_ext; [| |exact inv_delayed0]; intros; [by apply Hid|].
    apply (put_compare_ready s i r); [done..|]. unfold in_queue in Hq. naive_solver.
  - intros j Hj. apply Hqd; [by left|by apply inv_fg_in0].
  - intros j Hj. apply Hqd; [by right; left|by apply inv_bg_in0].
  - intros j Hj. destruct (inv_delayed_in0 j Hj) as (? & ? & ?). split; [|done]. apply Hqd; [by right; right|done].
  - intros j k x y c Hx Hy Hcx Hcy.
    destruct (Hold _ _ Hx) as [[-> ->]|[_ Hx']], (Hold _ _ Hy) as [[-> ->]|[_ Hy']]; [done| | |by eauto].
    + destruct (Hc c Hcx) as [?|(_ & Hf & _)]; [by eauto|by destruct (Hf k y)].
    + destruct (Hc c Hcy) as [?|(_ & Hf & _)]; [by eauto|by destruct (Hf j x)].
  - intros j k x y p Hx Hy Hpx Hpy.
    destruct (Hold _ _ Hx) as [[-> ->]|[_ Hx']], (Hold _ _ Hy) as [[-> ->]|[_ Hy']]; [done| | |by eauto].
    + destruct (Hp p Hpx) as [?|(_ & Hf)]; [by eauto|by destruct (Hf k y)].
    + destruct (Hp p Hpy) as [?|(_ & Hf)]; [by eauto|by destruct (Hf j x)].
  - intros j p [= <- ->]. destruct (inv_hole0 i p eq_refl) as [? Hh]. split; [done|].
    intros k x Hx Hxp. destruct (Hold _ _ Hx) as [[-> ->]|[_ Hx']]; [done|by eauto].
  - intros e x Hx. destruct (inv_exec0 e x Hx) as (y & Hy & Hge & Hcl & Hown).
    assert (Hlk : exists z, store s' !! x_record x = Some z /\ (x_generation x <= r_generation z)%Z).
    { rewrite Hl. case_decide as E; [rewrite E in Hy; simplify_eq; exists r'; split; [done|lia]|eauto]. }
    destruct Hlk as (z & Hz & Hgz). exists z. split_and!; [done..|].
    intros j w Hw Hwc. destruct (Hold _ _ Hw) as [[-> ->]|[_ Hw']]; [|by eauto].
    destruct (Hc _ Hwc) as [?|(_ & _ & Hf)]; [by eauto|by destruct (Hf e x)].
  - intros p Hpp. destruct (inv_pending0 p Hpp) as [?|(j & x & Hj & Hx & ?)]; [by left|right].
    exists j, x. rewrite not_hole_ne in Hj. destruct H. split_and!; [by rewrite not_hole_ne| |done..]. by rewrite Hl, decide_False.
  - simpl. rewrite inv_slots_fg0, (slots_insert _ _ _ r) by done. lia.
  - simpl. rewrite inv_slots_bg0, (slots_insert _ _ _ r) by done. lia.
Qed.

Lemma inv_put s i q r r' :
  inv (Some (i, q)) s -> store s !! i = Some r -> same_key r r' ->
  (r_generation r <= r_generation r')%Z ->
  (forall c, r_controller r' = Some c -> r_controller r = Some c \/ fresh_controller s c) ->
  (forall p, r_promise r' = Some p -> r_promise r = Some p \/ fresh_promise s p) ->
  r_slotAcquired r' = r_slotAcquired r ->
  (in_queue s i -> s_status (r_snapshot r') = Queued /\ r_readyAt r' = r_readyAt r) ->
  inv (Some (i, q)) (put s i r').
Proof.
  intros H Hr Hk Hg Hc Hp Hs Hq. rewrite <- recount_0.
  assert (Hslot : forall b, slot_of b r' = slot_of b r).
  { intros b. unfold slot_of. destruct Hk as (_ & -> & _). by rewrite Hs. }
  pose proof (inv_max_fg _ _ H). pose proof (inv_max_bg _ _ H).
  apply (inv_put_count s i q r r' 0 0); rewrite ?Hslot; (done || lia).
Qed.

(** Slots. *)

Lemma store_count r (d : Z) s : store (count_slot r d s) = store s.
Proof. unfold count_slot. by destruct (isForegroundMode _). Qed.

Lemma modify_count s i q r (b : bool) (d : Z) :
  inv (Some (i, q)) s -> store s !! i = Some r ->
  d = ((if b then 1 else 0) - (if r_slotAcquired r then 1 else 0))%Z ->
  (if isForegroundMode (s_mode (r_snapshot r))
   then runningForeground s + d <= maxForeground s else runningBackground s + d <= maxBackground s)%Z ->
  inv (Some (i, q)) (modify (count_slot r d s) i (on_r_slotAcquired (fun _ => b))).
Proof.
  intros H Hr Hd Hmax. set (r' := on_r_slotAcquired (fun _ => b) r).
  set (fg := isForegroundMode (s_mode (r_snapshot r))) in *.
  pose proof (inv_max_fg _ _ H). pose proof (inv_max_bg _ _ H).
  assert (Heq : modify (count_slot r d s) i (on_r_slotAcquired (fun _ => b)) =
                recount (put s i r') (if fg then d else 0) (if fg then 0 else d)).
  { rewrite (modify_put _ _ _ r) by (by rewrite store_count).
    unfold count_slot, recount. fold fg. destruct s, fg; simpl; unfold put, on_store, on_runningForeground,
      on_runningBackground; simpl; by rewrite Z.add_0_r. }
  rewrite Heq. apply (inv_put_count s i q r r'); [done|done|done|done|by left|by left|..].
  - unfold slot_of. simpl. fold fg. destruct fg, b, (r_slotAcquired r); simpl; lia.
  - unfold slot_of. simpl. fold fg. destruct fg, b, (r_slotAcquired r); simpl; lia.
  - destruct fg; lia.
  - destruct fg; lia.
  - intros Hq. subst r'. simpl. split; [|done].
    assert (Hi : exists P, queued_at s i P).
    { destruct Hq as [Hq|[Hq|Hq]]; [apply (inv_fg_in _ _ H) in Hq|apply (inv_bg_in _ _ H) in Hq|
        apply (inv_delayed_in _ _ H) in Hq as [Hq _]]; eauto. }
    destruct Hi as (P & x & Hx & ? & _). by simplify_eq.
Qed.


(** Queues. *)

Lemma queued_of h s i : inv h s -> in_queue s i -> queued_at s i (fun _ => True).
Proof.
  intros H [Hi|[Hi|Hi]]; [apply (inv_fg_in _ _ H) in Hi|apply (inv_bg_in _ _ H) in Hi|
    by apply (inv_delayed_in _ _ H) in Hi as [? _]]; destruct Hi as (r & ? & ? & _); by exists r.
Qed.

Lemma same_ident h s i j r r' :
  inv h s -> store s !! i = Some r -> store s !! j = Some r' -> ident s i = ident s j -> i = j.
Proof.
  intros H Hi Hj E. rewrite (ident_eq _ _ _ Hi), (ident_eq _ _ _ Hj) in E.
  apply (inv_id _ _ H) in Hi, Hj. congruence.
Qed.

Definition set_queues (fg bg d : queue nat) s : scheduler :=
  on_foregroundReady (fun _ => fg) (on_backgroundReady (fun _ => bg) (on_delayedReady (fun _ => d) s)).

Lemma inv_queues s i q fg bg d :
  inv (Some (i, q)) s ->
  wf_queue (ident s) (compareScheduledRecords locale s) fg ->
  wf_queue (ident s) (compareScheduledRecords locale s) bg ->
  wf_queue (ident s) (compareReadyRecords locale s) d ->
  (forall j, j ∈ entries fg -> queued_at s j (fun m => isForegroundMode m = true)) ->
  (forall j, j ∈ entries bg -> queued_at s j (fun m => isForegroundMode m = false)) ->
  (forall j, j ∈ entries d -> queued_at s j (fun _ => True) /\ j ∉ entries fg /\ j ∉ entries bg) ->
  (forall j, j <> i -> in_queue s j -> j ∈ entries fg \/ j ∈ entries bg \/ j ∈ entries d) ->
  inv (Some (i, q)) (set_queues fg bg d s).
Proof.
  intros H Hfg Hbg Hd Hfi Hbi Hdi Hin. destruct H. constructor; try assumption.
  intros j r Hj Hr. apply (live_record_ext s); [done|done|done| |by apply inv_live0].
  apply Hin. by rewrite not_hole_ne in Hj.
Qed.

Context `{!Comparator locale}.

#[export] Instance compareScheduled_laws s : Comparator (compareScheduledRecords locale s).
Proof.
  unfold compareScheduledRecords. split.
  - intros x y. pose proof (compare_flip (compare := locale) (ident s x) (ident s y)).
    repeat case_match; bools; lia.
  - intros x y z. pose proof (compare_trans (compare := locale) (ident s x) (ident s y) (ident s z)).
    repeat case_match; bools; lia.
Qed.

#[export] Instance compareReady_laws s : Comparator (compareReadyRecords locale s).
Proof.
  unfold compareReadyRecords. split.
  - intros x y. pose proof (compare_flip (compare := compareScheduledRecords locale s) x y).
    repeat case_match; bools; lia.
  - intros x y z. pose proof (compare_trans (compare := compareScheduledRecords locale s) x y z).
    repeat case_match; bools; lia.
Qed.

(** [removeReady] takes the record out of every queue, and no other one. *)
Lemma removeReady_equiv s i r b :
  store s !! i = Some r ->
  removeReady locale s i b ≡
    (if isForegroundMode (s_mode (r_snapshot r))
     then set_queues (snd (PriorityQueue.remove (ident s) (compareScheduledRecords locale s) (foregroundReady s) (ident s i)))
            (backgroundReady s)
            (snd (PriorityQueue.remove (ident s) (compareReadyRecords locale s) (delayedReady s) (ident s i))) s
     else set_queues (foregroundReady s)
            (snd (PriorityQueue.remove (ident s) (compareScheduledRecords locale s) (backgroundReady s) (ident s i)))
            (snd (PriorityQueue.remove (ident s) (compareReadyRecords locale s) (delayedReady s) (ident s i))) s).
Proof.
  intros Hr. unfold removeReady. rewrite Hr.
  destruct (isForegroundMode (s_mode (r_snapshot r))); simpl;
    destruct (PriorityQueue.remove _ _ (delayedReady s) _) as [rd d] eqn:E; simpl;
    (destruct (rd && b); [rewrite scheduleReadyTimer_equiv|]); unfold PriorityQueue.remove in *; by open_core.
Qed.

Lemma inv_removeReady s i q r b :
  inv (Some (i, q)) s -> store s !! i = Some r ->
  exists fg bg d, removeReady locale s i b ≡ set_queues fg bg d s /\ inv (Some (i, q)) (set_queues fg bg d s) /\
    i ∉ entries fg /\ i ∉ entries bg /\ i ∉ entries d.
Proof.
  intros H Hr. pose proof (removeReady_equiv s i r b Hr) as E.
  assert (Hother : forall j P, queued_at s j P -> j <> i -> ident s j <> ident s i).
  { intros j P (r' & Hr' & _) Hne Heq. apply Hne. by eapply same_ident. }
  destruct (remove_members (ident s) (compareReadyRecords locale s) (delayedReady s) (ident s i)
              (inv_delayed _ _ H)) as [Hwd Hmd].
  destruct (remove_members (ident s) (compareScheduledRecords locale s) (foregroundReady s) (ident s i)
              (inv_fg _ _ H)) as [Hwf Hmf].
  destruct (remove_members (ident s) (compareScheduledRecords locale s) (backgroundReady s) (ident s i)
              (inv_bg _ _ H)) as [Hwb Hmb].
  pose proof (inv_fg _ _ H) as Hfg. pose proof (inv_bg _ _ H) as Hbg.
  pose proof (inv_fg_in _ _ H) as Hfi. pose proof (inv_bg_in _ _ H) as Hbi. pose proof (inv_delayed_in _ _ H) as Hdi.
  assert (Hmode : forall fgm, i ∈ entries (if fgm : bool then foregroundReady s else backgroundReady s) ->
    isForegroundMode (s_mode (r_snapshot r)) = fgm).
  { intros [] Hi; [destruct (Hfi i Hi) as (x & Hx & _ & Hm)|destruct (Hbi i Hi) as (x & Hx & _ & Hm)]; by simplify_eq. }
  destruct (isForegroundMode (s_mode (r_snapshot r))) eqn:Em; eexists _, _, _;
    (split; [exact E|]); (split; [apply inv_queues; [done..| | | |]|]);
    first [intros j Hj | idtac]; rewrite ?Hmf, ?Hmb, ?Hmd in *.
  - apply Hfi. tauto.
  - by apply Hbi.
  - destruct Hj as [Hj _]. destruct (Hdi j Hj) as (? & ? & ?). tauto.
  - intros Hin. destruct Hin as [Hin|[Hin|Hin]].
    + left. split; [done|]. eauto.
    + by right; left.
    + right; right. split; [done|]. destruct (Hdi j Hin). eauto.
  - split_and!; [tauto| |tauto]. intros Hi. by specialize (Hmode false Hi).
  - by apply Hfi.
  - apply Hbi. tauto.
  - destruct Hj as [Hj _]. destruct (Hdi j Hj) as (? & ? & ?). tauto.
  - intros Hin. destruct Hin as [Hin|[Hin|Hin]].
    + by left.
    + right; left. split; [done|]. eauto.
    + right; right. split; [done|]. destruct (Hdi j Hin). eauto.
  - split_and!; [|tauto..]. intros Hi. by specialize (Hmode true Hi).
Qed.

Lemma fresh_push s i q r (Q : queue nat) :
  inv (Some (i, q)) s -> store s !! i = Some r ->
  (forall j, j ∈ entries Q -> in_queue s j) -> ~ in_queue s i ->
  forall x, x ∈ entries Q -> ident s x <> ident s i.
Proof.
  intros H Hr HQ Hi x Hx Heq. destruct (queued_of _ _ _ H (HQ x Hx)) as (r' & Hr' & _).
  apply Hi. rewrite <- (same_ident _ _ _ _ _ _ H Hr' Hr Heq). by apply HQ.
Qed.

(** Putting a queued record into its ready queue or into the delayed one. *)
Lemma inv_push s i q r (now_ready : bool) :
  inv (Some (i, q)) s -> store s !! i = Some r -> s_status (r_snapshot r) = Queued -> ~ in_queue s i ->
  exists fg bg d, (if now_ready then push_ready locale s i else push_delayed locale s i) = set_queues fg bg d s /\
    inv (Some (i, q)) (set_queues fg bg d s) /\ (i ∈ entries fg \/ i ∈ entries bg \/ i ∈ entries d).
Proof.
  intros H Hr Hst Hni.
  pose proof (fresh_push s i q r (foregroundReady s) H Hr ltac:(by left) Hni) as Hff.
  pose proof (fresh_push s i q r (backgroundReady s) H Hr ltac:(by right; left) Hni) as Hfb.
  pose proof (fresh_push s i q r (delayedReady s) H Hr ltac:(by right; right) Hni) as Hfd.
  destruct (push_members (ident s) (compareScheduledRecords locale s) _ i (inv_fg _ _ H) Hff) as [Hwf Hmf].
  destruct (push_members (ident s) (compareScheduledRecords locale s) _ i (inv_bg _ _ H) Hfb) as [Hwb Hmb].
  destruct (push_members (ident s) (compareReadyRecords locale s) _ i (inv_delayed _ _ H) Hfd) as [Hwd Hmd].
  pose proof (inv_fg _ _ H) as Hfg. pose proof (inv_bg _ _ H) as Hbg. pose proof (inv_delayed _ _ H) as Hdl.
  pose proof (inv_fg_in _ _ H) as Hfi. pose proof (inv_bg_in _ _ H) as Hbi. pose proof (inv_delayed_in _ _ H) as Hdi.
  assert (Hqi : forall P : mode -> Prop, P (s_mode (r_snapshot r)) -> queued_at s i P) by (intros; by exists r).
  unfold in_queue in Hni. destruct now_ready.
  - unfold push_ready. rewrite Hr. destruct (isForegroundMode (s_mode (r_snapshot r))) eqn:Em.
    + eexists _, (backgroundReady s), (delayedReady s). split; [by destruct s|]. split.
      * apply inv_queues; [done..|by intros j [->|?]%Hmf; auto|done| |].
        -- intros j Hj. rewrite Hmf. destruct (Hdi j Hj) as (? & ? & ?). naive_solver.
        -- intros j Hj. rewrite Hmf. unfold in_queue. tauto.
      * rewrite Hmf. auto.
    + exists (foregroundReady s), (PriorityQueue.push (ident s) (compareScheduledRecords locale s) (backgroundReady s) i),
        (delayedReady s). split; [by destruct s|]. split.
      * apply inv_queues; [done..|by intros j [->|?]%Hmb; auto| |].
        -- intros j Hj. rewrite Hmb. destruct (Hdi j Hj) as (? & ? & ?). naive_solver.
        -- intros j Hj. rewrite Hmb. unfold in_queue. tauto.
      * rewrite Hmb. auto.
  - exists (foregroundReady s), (backgroundReady s),
      (PriorityQueue.push (ident s) (compareReadyRecords locale s) (delayedReady s) i). split; [by destruct s|]. split.
    + apply inv_queues; [done..| |].
      * intros j [->|Hj]%Hmd; [|by apply Hdi]. split; [by apply Hqi|tauto].
      * intros j Hj. rewrite Hmd. unfold in_queue. tauto.
    + rewrite Hmd. auto.
Qed.

Lemma arm_spec s now i q r :
  inv (Some (i, q)) s -> store s !! i = Some r -> s_status (r_snapshot r) = Queued ->
  record_aborted s r = false ->
  exists fg bg d, arm locale s now i ≡ set_queues fg bg d s /\ inv (Some (i, q)) (set_queues fg bg d s) /\
    (i ∈ entries fg \/ i ∈ entries bg \/ i ∈ entries d).
Proof.
  intros H Hr Hst Hab. destruct (inv_removeReady s i q r false H Hr) as (fg & bg & d & E & H1 & Hn1 & Hn2 & Hn3).
  assert (Hni : ~ in_queue (set_queues fg bg d s) i) by (unfold in_queue; simpl; tauto).
  destruct (inv_push (set_queues fg bg d s) i q r (r_readyAt r <=? now)%Z H1 Hr Hst Hni)
    as (fg' & bg' & d' & E' & H2 & Hin).
  exists fg', bg', d'. split; [|done]. unfold arm. rewrite Hr.
  set (s1 := removeReady locale s i false) in *.
  assert (Hab1 : record_aborted s1 r = false).
  { revert Hab E. unfold record_aborted, aborted. destruct (r_controller r); [|done]. clear.
    intros. open_core. done. }
  rewrite Hst, Hab1, bool_decide_eq_true_2 by done. simpl.
  assert (Hp : (if (r_readyAt r <=? now)%Z then push_ready locale s1 i else push_delayed locale s1 i) ≡
               set_queues fg' bg' d' s).
  { transitivity (set_queues fg' bg' d' (set_queues fg bg d s)); [rewrite <- E'|by destruct s].
    clear -E. revert E. generalize s1 (set_queues fg bg d s). clear. intros s1 s2 E.
    unfold push_ready, push_delayed, ident, compareReadyRecords, compareScheduledRecords,
      priority_of, readyAt_of, ident.
    replace (store s1) with (store s2) by (by open_core).
    destruct (r_readyAt r <=? now)%Z; repeat case_match; by open_core. }
  destruct (r_readyAt r <=? now)%Z; rewrite ?pumpScheduled_equiv; unfold schedulePump;
    rewrite ?pumpScheduled_equiv, scheduleReadyTimer_equiv; exact Hp.
Qed.

(** Promises and controllers. *)

Lemma inv_settle_promise s i q v :
  inv (Some (i, q)) s -> v <> Pending -> inv (Some (i, None)) (settle_promise s q v).
Proof.
  intros H Hv. destruct q as [p|]; [|exact H]. simpl.
  set (settle := fun old => match old with Pending => v | _ => old end).
  assert (Hlen : length (alter settle p (promises s)) = length (promises s)) by apply length_alter.
  destruct H. constructor; try assumption.
  - intros j r Hj Hr. rewrite not_hole_ne in Hj.
    apply (live_record_ext s); [done|done| |done|apply inv_live0; [by rewrite not_hole_ne|done]].
    intros p' Hp'. apply list_lookup_alter_ne. intros <-. apply Hj.
    by apply (proj2 (inv_hole0 i p eq_refl) j r).
  - simpl. by rewrite Hlen.
  - done.
  - intros p' Hp'. right. simpl in Hp'. destruct (decide (p' = p)) as [->|Hne].
    + exfalso. destruct (promises s !! p) as [old|] eqn:E.
      * rewrite list_lookup_alter_eq, E in Hp'. subst settle. simpl in Hp'. by destruct old; simplify_eq.
      * apply lookup_lt_Some in Hp'. rewrite Hlen in Hp'. apply lookup_ge_None in E. lia.
    + rewrite list_lookup_alter_ne in Hp' by done.
      destruct (inv_pending0 p' Hp') as [[j [= <- ->]]|(j & r & Hj & ?)]; [done|].
      exists j, r. rewrite not_hole_ne in *. done.
Qed.

Lemma inv_abort s i q r :
  inv (Some (i, q)) s -> store s !! i = Some r -> inv (Some (i, q)) (abort s (r_controller r)).
Proof.
  intros H Hr. destruct (r_controller r) as [c|] eqn:Ec; [|exact H]. destruct H. constructor; try assumption.
  - intros j x Hj Hx. rewrite not_hole_ne in Hj.
    apply (live_record_ext s); [done| |done|done|apply inv_live0; [by rewrite not_hole_ne|done]].
    intros c' Hc'. unfold aborted. simpl. rewrite list_lookup_alter_ne; [done|].
    intros ->. apply Hj. by apply (inv_controllers_ne0 j i x r c').
  - simpl. by rewrite length_alter.
  - simpl. intros e x Hx. rewrite length_alter. by eauto.
Qed.

(** Slots. *)

Lemma slot_max h s : inv h s -> (0 <= runningForeground s)%Z /\ (0 <= runningBackground s)%Z.
Proof. intros H. rewrite (inv_slots_fg _ _ H), (inv_slots_bg _ _ H). split; apply slots_nonneg. Qed.

Lemma put_same s i r : store s !! i = Some r -> put s i r = s.
Proof. intros Hr. destruct s. unfold put, on_store. simpl in *. by rewrite list_insert_id. Qed.

Lemma modify_count_recount s i r (b : bool) (d : Z) :
  store s !! i = Some r ->
  modify (count_slot r d s) i (on_r_slotAcquired (fun _ => b)) =
    recount (put s i (on_r_slotAcquired (fun _ => b) r))
      (if isForegroundMode (s_mode (r_snapshot r)) then d else 0)
      (if isForegroundMode (s_mode (r_snapshot r)) then 0 else d).
Proof.
  intros Hr. rewrite (modify_put _ _ _ r) by (by rewrite store_count).
  unfold count_slot, recount. destruct (isForegroundMode _), s; simpl; unfold put, on_store,
    on_runningForeground, on_runningBackground; simpl; by rewrite Z.add_0_r.
Qed.

Lemma inv_releaseSlot s i q r :
  inv (Some (i, q)) s -> store s !! i = Some r ->
  exists df db, releaseSlot s i = recount (put s i (on_r_slotAcquired (fun _ => false) r)) df db /\
    inv (Some (i, q)) (recount (put s i (on_r_slotAcquired (fun _ => false) r)) df db).
Proof.
  intros H Hr. unfold releaseSlot. rewrite Hr. destruct (r_slotAcquired r) eqn:E; simpl.
  - pose proof (modify_count s i q r false (-1) H Hr) as Hm. rewrite E in Hm.
    pose proof (inv_max_fg _ _ H). pose proof (inv_max_bg _ _ H).
    rewrite (modify_count_recount s i r false (-1) Hr) in *. eexists _, _. split; [done|].
    apply Hm; [done|]. destruct (isForegroundMode _); lia.
  - exists 0%Z, 0%Z. rewrite recount_0. replace (on_r_slotAcquired (fun _ => false) r) with r by (destruct r; simpl in *; by subst).
    by rewrite put_same.
Qed.

Lemma inv_acquireSlot s i q r :
  inv (Some (i, q)) s -> store s !! i = Some r -> r_slotAcquired r = false ->
  (if isForegroundMode (s_mode (r_snapshot r)) then runningForeground s < maxForeground s
   else runningBackground s < maxBackground s)%Z ->
  exists df db, acquireSlot s i = recount (put s i (on_r_slotAcquired (fun _ => true) r)) df db /\
    inv (Some (i, q)) (recount (put s i (on_r_slotAcquired (fun _ => true) r)) df db).
Proof.
  intros H Hr E Hmax. unfold acquireSlot. rewrite Hr, E.
  pose proof (modify_count s i q r true 1 H Hr) as Hm. rewrite E in Hm.
  rewrite (modify_count_recount s i r true 1 Hr) in *. eexists _, _. split; [done|].
  apply Hm; [done|]. destruct (isForegroundMode _); lia.
Qed.

(** A new execution of the record in the hole. *)
Lemma inv_new_execution s i q r x :
  inv (Some (i, q)) s -> store s !! i = Some r -> x_record x = i -> x_generation x = r_generation r ->
  r_controller r = Some (x_controller x) ->
  (forall e y, executions s !! e = Some y -> x_record y = i -> x_settled y = false ->
     x_generation y <> r_generation r) ->
  inv (Some (i, q)) (on_executions (fun l => l ++ [x]) s).
Proof.
  intros H Hr Hxi Hxg Hxc Hold.
  assert (Hlk : forall e y, (executions s ++ [x]) !! e = Some y ->
    executions s !! e = Some y \/ (e = length (executions s) /\ y = x)).
  { intros e y [Hy|[Hle Hy]]%lookup_app_Some; [by left|right].
    apply list_lookup_singleton_Some in Hy as [Hy <-]. split; [lia|done]. }
  assert (Hnew : (executions s ++ [x]) !! length (executions s) = Some x) by apply list_lookup_middle, eq_refl.
  destruct H. constructor; try assumption.
  - intros j y Hj Hy. pose proof (inv_live0 j y Hj Hy) as (H1 & H2 & H3 & H4). rewrite not_hole_ne in Hj.
    split_and!; [done| |done|].
    + intros e z Hz Hzj. destruct (Hlk _ _ Hz) as [Hz'|[_ ->]]; [by eapply H2|congruence].
    + destruct (s_status (r_snapshot y)) eqn:Es; [| |exact H4..].
      * destruct H4 as (? & ? & ? & Hex). split_and!; [done..|].
        intros e z Hz Hzj. destruct (Hlk _ _ Hz) as [Hz'|[_ ->]]; [by eapply Hex|congruence].
      * destruct H4 as (? & e & z & Hz & ?). split; [done|]. exists e, z. split; [|done].
        simpl. by apply lookup_app_l_Some.
  - intros e y Hy. destruct (Hlk _ _ Hy) as [Hy'|[_ ->]]; [by apply (inv_exec0 e)|].
    exists r. rewrite Hxi, Hxg. split_and!; [done|lia|by eapply inv_controller0|].
    intros j r' Hr' Hc'. by eapply inv_controllers_ne0.
  - intros e e' y y' Hy Hy' Hrr Hgg Hs Hs'.
    destruct (Hlk _ _ Hy) as [Hz|[-> ->]], (Hlk _ _ Hy') as [Hz'|[-> ->]]; [by eauto| | |done].
    + exfalso. apply (Hold e y Hz); [congruence|done|congruence].
    + exfalso. apply (Hold e' y' Hz'); [congruence|done|congruence].
Qed.

(** * Dispatch *)

(** Taking a record out of the queues opens the hole at it. *)
Lemma inv_unqueue s i r fg bg d :
  inv None s -> store s !! i = Some r ->
  wf_queue (ident s) (compareScheduledRecords locale s) fg ->
  wf_queue (ident s) (compareScheduledRecords locale s) bg ->
  wf_queue (ident s) (compareReadyRecords locale s) d ->
  (forall j, j ∈ entries fg <-> j ∈ entries (foregroundReady s) /\ j <> i) ->
  (forall j, j ∈ entries bg <-> j ∈ entries (backgroundReady s) /\ j <> i) ->
  (forall j, j ∈ entries d <-> j ∈ entries (delayedReady s) /\ j <> i) ->
  inv (Some (i, r_promise r)) (set_queues fg bg d s) /\ ~ in_queue (set_queues fg bg d s) i.
Proof.
  intros H Hr Hwf Hwb Hwd Hf Hb Hd. split.
  - pose proof (inv_open s i r H Hr) as H1.
    apply inv_queues; [done..| | | |].
    + intros j [Hj _]%Hf. by apply (inv_fg_in _ _ H).
    + intros j [Hj _]%Hb. by apply (inv_bg_in _ _ H).
    + intros j [Hj _]%Hd. rewrite Hf, Hb. destruct (inv_delayed_in _ _ H j Hj). tauto.
    + intros j Hne Hj. rewrite Hf, Hb, Hd. unfold in_queue in Hj. tauto.
  - unfold in_queue. simpl. rewrite Hf, Hb, Hd. tauto.
Qed.

(** Dropping the ids equal to that of [i] drops [i] alone. *)
Lemma drop_id s h i r (Q Q' : queue nat) :
  inv h s -> store s !! i = Some r -> (forall j, j ∈ entries Q -> in_queue s j) ->
  (forall j, j ∈ entries Q' <-> j ∈ entries Q /\ ident s j <> ident s i) ->
  forall j, j ∈ entries Q' <-> j ∈ entries Q /\ j <> i.
Proof.
  intros H Hr HQ HQ' j. rewrite HQ'. split; intros [Hj Hne]; (split; [done|]).
  - by intros ->.
  - intros Heq. destruct (queued_of _ _ _ H (HQ j Hj)) as (x & Hx & _). apply Hne. by eapply same_ident.
Qed.

Lemma keep_id i (Q : queue nat) : i ∉ entries Q -> forall j, j ∈ entries Q <-> j ∈ entries Q /\ j <> i.
Proof. intros Hi j. split; [|tauto]. intros Hj. split; [done|]. by intros ->. Qed.

Lemma inv_pop_foreground s i :
  inv None s -> peek (foregroundReady s) = Some i ->
  exists r q', PriorityQueue.pop (ident s) (compareScheduledRecords locale s) (foregroundReady s) = (Some i, q') /\
    store s !! i = Some r /\ S (length (entries q')) = length (entries (foregroundReady s)) /\
    isForegroundMode (s_mode (r_snapshot r)) = true /\ s_status (r_snapshot r) = Queued /\
    inv (Some (i, r_promise r)) (on_foregroundReady (fun _ => q') s) /\
    ~ in_queue (on_foregroundReady (fun _ => q') s) i.
Proof.
  intros H Hp. pose proof (peek_in _ _ Hp) as Hi. destruct (inv_fg_in _ _ H i Hi) as (r & Hr & Hst & Hm).
  destruct (pop_members _ _ _ _ (inv_fg _ _ H) Hp) as (He & Hwf & Hlen & Hmem).
  destruct (PriorityQueue.pop _ _ _) as [o q'] eqn:E. simpl in *. subst o. exists r, q'.
  replace (on_foregroundReady (fun _ => q') s) with (set_queues q' (backgroundReady s) (delayedReady s) s)
    by (by destruct s).
  enough (Hu : inv (Some (i, r_promise r)) (set_queues q' (backgroundReady s) (delayedReady s) s) /\
    ~ in_queue (set_queues q' (backgroundReady s) (delayedReady s) s) i) by (destruct Hu; by split_and!).
  apply inv_unqueue; [done..|exact (inv_bg _ _ H)|exact (inv_delayed _ _ H)| | |].
  all: try (eapply drop_id; [done|done|by left|done]).
  all: apply keep_id; intros Hb.
  all: first [destruct (inv_bg_in _ _ H i Hb) as (r' & Hr' & _ & ?); congruence | by destruct (inv_delayed_in _ _ H i Hb) as (_ & ? & _)].
Qed.

Lemma inv_pop_background s i :
  inv None s -> peek (backgroundReady s) = Some i ->
  exists r q', PriorityQueue.pop (ident s) (compareScheduledRecords locale s) (backgroundReady s) = (Some i, q') /\
    store s !! i = Some r /\ S (length (entries q')) = length (entries (backgroundReady s)) /\
    isForegroundMode (s_mode (r_snapshot r)) = false /\ s_status (r_snapshot r) = Queued /\
    inv (Some (i, r_promise r)) (on_backgroundReady (fun _ => q') s) /\
    ~ in_queue (on_backgroundReady (fun _ => q') s) i.
Proof.
  intros H Hp. pose proof (peek_in _ _ Hp) as Hi. destruct (inv_bg_in _ _ H i Hi) as (r & Hr & Hst & Hm).
  destruct (pop_members _ _ _ _ (inv_bg _ _ H) Hp) as (He & Hwf & Hlen & Hmem).
  destruct (PriorityQueue.pop _ _ _) as [o q'] eqn:E. simpl in *. subst o. exists r, q'.
  replace (on_backgroundReady (fun _ => q') s) with (set_queues (foregroundReady s) q' (delayedReady s) s)
    by (by destruct s).
  enough (Hu : inv (Some (i, r_promise r)) (set_queues (foregroundReady s) q' (delayedReady s) s) /\
    ~ in_queue (set_queues (foregroundReady s) q' (delayedReady s) s) i) by (destruct Hu; by split_and!).
  apply inv_unqueue; [done|done|exact (inv_fg _ _ H)|done|exact (inv_delayed _ _ H)| | |].
  all: try (eapply drop_id; [done|done|by right; left|done]).
  all: apply keep_id; intros Hb.
  all: first [destruct (inv_fg_in _ _ H i Hb) as (r' & Hr' & _ & ?); congruence | by destruct (inv_delayed_in _ _ H i Hb) as (_ & _ & ?)].
Qed.

Lemma inv_pop_delayed s i :
  inv None s -> peek (delayedReady s) = Some i ->
  exists r q', PriorityQueue.pop (ident s) (compareReadyRecords locale s) (delayedReady s) = (Some i, q') /\
    store s !! i = Some r /\ S (length (entries q')) = length (entries (delayedReady s)) /\
    s_status (r_snapshot r) = Queued /\
    inv (Some (i, r_promise r)) (on_delayedReady (fun _ => q') s) /\ ~ in_queue (on_delayedReady (fun _ => q') s) i.
Proof.
  intros H Hp. pose proof (peek_in _ _ Hp) as Hi.
  destruct (inv_delayed_in _ _ H i Hi) as ((r & Hr & Hst & _) & Hnf & Hnb).
  destruct (pop_members _ _ _ _ (inv_delayed _ _ H) Hp) as (He & Hwf & Hlen & Hmem).
  destruct (PriorityQueue.pop _ _ _) as [o q'] eqn:E. simpl in *. subst o. exists r, q'.
  replace (on_delayedReady (fun _ => q') s) with (set_queues (foregroundReady s) (backgroundReady s) q' s)
    by (by destruct s).
  enough (Hu : inv (Some (i, r_promise r)) (set_queues (foregroundReady s) (backgroundReady s) q' s) /\
    ~ in_queue (set_queues (foregroundReady s) (backgroundReady s) q' s) i) by (destruct Hu; by split_and!).
  apply inv_unqueue; [done|done|exact (inv_fg _ _ H)|exact (inv_bg _ _ H)|done| | |].
  all: try (eapply drop_id; [done|done|by right; right|done]).
  all: by apply keep_id.
Qed.

Lemma inv_promote fuel s now : inv None s -> inv None (promote locale fuel s now).
Proof.
  revert s. induction fuel as [|fuel IH]; intros s H; simpl; [done|].
  destruct (peek (delayedReady s)) as [i|] eqn:Ep; [|done]. case_match; [done|].
  destruct (inv_pop_delayed s i H Ep) as (r & q' & E & Hr & _ & Hst & H1 & Hni).
  assert (Es : on_delayedReady (fun d => snd (PriorityQueue.pop (ident s) (compareReadyRecords locale s) d)) s =
               on_delayedReady (fun _ => q') s) by (unfold on_delayedReady; by rewrite E).
  rewrite Es. change (store (on_delayedReady (fun _ => q') s)) with (store s). rewrite Hr.
  pose proof (inv_live _ _ H i r ltac:(by intros [? ?]) Hr) as Hlive.
  assert (Hab : record_aborted s r = false) by (destruct Hlive as (_ & _ & _ & Hl); rewrite Hst in Hl; tauto).
  apply IH. rewrite Hst, bool_decide_eq_true_2 by done.
  change (record_aborted (on_delayedReady (fun _ => q') s) r) with (record_aborted s r). rewrite Hab. simpl.
  destruct (inv_push _ i _ r true H1 Hr Hst Hni) as (fg & bg & d & -> & H2 & Hin).
  apply (inv_close _ i _ r H2 Hr).
  - apply (live_record_ext s); done.
  - intros p Hp Hpp. by rewrite Hst.
Qed.

Lemma inv_promoteReady s now : inv None s -> inv None (promoteReady locale s now).
Proof. intros H. unfold promoteReady. rewrite scheduleReadyTimer_equiv. by apply inv_promote. Qed.

(** Starting a queued record that was popped. *)
Lemma inv_start s i r now :
  inv (Some (i, r_promise r)) s -> store s !! i = Some r -> s_status (r_snapshot r) = Queued ->
  r_slotAcquired r = false -> is_Some (r_work r) -> is_Some (r_controller r) ->
  (if isForegroundMode (s_mode (r_snapshot r)) then runningForeground s < maxForeground s
   else runningBackground s < maxBackground s)%Z ->
  record_aborted s r = false -> promise_is s r Pending -> ~ in_queue s i ->
  (forall e x, executions s !! e = Some x -> x_record x = i -> x_settled x = false ->
     x_generation x <> r_generation r) ->
  inv None (execute (acquireSlot s i) now i).
Proof.
  intros H Hr Hst Hsl [w Hw] [c Hc] Hroom Hab (p & Hp & Hpp) Hni Hex.
  destruct (inv_acquireSlot s i _ r H Hr Hsl Hroom) as (df & db & -> & H1).
  set (r1 := on_r_slotAcquired (fun _ => true) r) in *.
  set (s1 := recount (put s i r1) df db) in *.
  assert (Hr1 : store s1 !! i = Some r1) by (simpl; apply list_lookup_insert_eq; by eapply lookup_lt_Some).
  unfold execute. rewrite Hr1. simpl r_work. simpl r_controller. rewrite Hw, Hc. simpl r_snapshot.
  rewrite Hst, bool_decide_eq_true_2 by done. unfold record_aborted in Hab. rewrite Hc in Hab.
  change (aborted s1 c) with (aborted s c). rewrite Hab. cbn [negb orb].
  rewrite emit_equiv, persist_equiv, (modify_put _ _ _ r1 Hr1).
  set (r2 := on_r_attempts _ _). set (x := MkExecution i _ c w _ false).
  assert (H2 : inv (Some (i, r_promise r)) (put s1 i r2)).
  { apply (inv_put s1 i _ r1); [done..|by left|by left|done|]. intros Hq. by destruct Hni. }
  assert (Hr2 : store (put s1 i r2) !! i = Some r2).
  { simpl. apply list_lookup_insert_eq. apply lookup_lt_Some in Hr1. exact Hr1. }
  assert (H3 : inv (Some (i, r_promise r)) (on_executions (fun l => l ++ [x]) (put s1 i r2))).
  { apply (inv_new_execution _ i _ r2); [done..|]. apply Hex. }
  apply (inv_close _ i _ r2 H3 Hr2); [|done].
  split; [done|]. split; [done|]. split; [by eauto|]. simpl. split.
  - exists p. done.
  - exists (length (executions s)), x. split; [|done]. by apply list_lookup_middle.
Qed.

(** What the ready timer is computed from. *)
Definition timer_view s := (readyTimer s, delayedReady s, r_readyAt <$> store s).

(** No ready task could start: each pool is full or has nothing ready. *)
Definition saturated s : Prop :=
  ((maxForeground s <= runningForeground s)%Z \/ entries (foregroundReady s) = []) /\
  ((maxBackground s <= runningBackground s)%Z \/ entries (backgroundReady s) = []).

Definition ready_count s : nat := length (entries (foregroundReady s)) + length (entries (backgroundReady s)).

Lemma timer_view_modify s i f :
  (forall r, r_readyAt (f r) = r_readyAt r) -> timer_view (modify s i f) = timer_view s.
Proof.
  intros Hf. unfold timer_view, modify. simpl. f_equal. apply list_eq. intros j. rewrite !list_lookup_fmap.
  destruct (decide (j = i)) as [->|]; [|by rewrite list_lookup_alter_ne].
  rewrite list_lookup_alter_eq. destruct (store s !! i); simpl; [by rewrite Hf|done].
Qed.

Lemma timer_view_persist s i : timer_view (persist s i) = timer_view s.
Proof. unfold persist. by repeat case_match. Qed.
Lemma timer_view_emit s ty id : timer_view (emit s ty id) = timer_view s.
Proof. unfold emit. by repeat case_match. Qed.
Lemma timer_view_releaseSlot s i : timer_view (releaseSlot s i) = timer_view s.
Proof.
  unfold releaseSlot. repeat case_match; try done. rewrite timer_view_modify by done.
  unfold count_slot. by destruct (isForegroundMode _).
Qed.

(** [acquireSlot] and [execute] leave the queues, the timer and the lifecycle alone. *)
Lemma start_frame s now i :
  timer_view (execute (acquireSlot s i) now i) = timer_view s /\
  foregroundReady (execute (acquireSlot s i) now i) = foregroundReady s /\
  backgroundReady (execute (acquireSlot s i) now i) = backgroundReady s /\
  lifecycle (execute (acquireSlot s i) now i) = lifecycle s.
Proof.
  assert (Ha : timer_view (acquireSlot s i) = timer_view s /\ foregroundReady (acquireSlot s i) = foregroundReady s /\
    backgroundReady (acquireSlot s i) = backgroundReady s /\ lifecycle (acquireSlot s i) = lifecycle s).
  { unfold acquireSlot. repeat case_match; try done. rewrite timer_view_modify by done.
    unfold count_slot. by destruct (isForegroundMode _). }
  destruct Ha as (<- & <- & <- & <-). generalize (acquireSlot s i). clear s. intros s.
  unfold execute. destruct (store s !! i) as [r|]; [|done]. destruct (r_work r), (r_controller r); try done.
  destruct (_ || _); [done|].
  set (s1 := modify s i _). assert (Hs1 : timer_view s1 = timer_view s) by (by apply timer_view_modify).
  assert (He : timer_view (emit (persist s1 i) Started (ident (persist s1 i) i)) = timer_view s)
    by (by rewrite timer_view_emit, timer_view_persist).
  split; [exact He|]. unfold emit, persist. by repeat case_match.
Qed.

(** The ready tasks whose pool has room, and the first of them. *)
Definition startable s i : Prop :=
  (i ∈ entries (foregroundReady s) /\ (runningForeground s < maxForeground s)%Z) \/
  (i ∈ entries (backgroundReady s) /\ (runningBackground s < maxBackground s)%Z).

Definition first_startable s i : Prop :=
  startable s i /\ forall j, startable s j -> (compareScheduledRecords locale s i j <= 0)%Z.

Lemma execute_running s now i r w c :
  store s !! i = Some r -> s_status (r_snapshot r) = Queued -> r_work r = Some w -> r_controller r = Some c ->
  aborted s c = false -> status_of (execute s now i) i = Some Running.
Proof.
  intros Hr Hst Hw Hc Hab. unfold execute. rewrite Hr, Hw, Hc, Hst, Hab, bool_decide_eq_true_2 by done.
  cbn [negb orb]. unfold status_of. change (store (on_executions ?f ?t)) with (store t).
  rewrite emit_equiv, persist_equiv. simpl. by rewrite list_lookup_alter_eq, Hr.
Qed.

(** One round of the pump loop starts the first startable task, or there is none. *)
Lemma pump_round s now :
  inv None s ->
  (saturated s /\ forall fuel, pump_loop locale fuel s now = s) \/
  exists s1, (forall fuel, pump_loop locale (S fuel) s now = pump_loop locale fuel s1 now) /\ inv None s1 /\
    ready_count s = S (ready_count s1) /\ timer_view s1 = timer_view s /\ lifecycle s1 = lifecycle s /\
    exists i s0, s1 = execute (acquireSlot s0 i) now i /\ store s0 = store s /\ promises s0 = promises s /\ first_startable s i /\
      status_of s i = Some Queued /\ status_of s1 i = Some Running.
Proof.
  intros H.
  remember (if (runningForeground s <? maxForeground s)%Z then peek (foregroundReady s) else None)
    as foreground eqn:Hfg.
  remember (if (runningBackground s <? maxBackground s)%Z then peek (backgroundReady s) else None)
    as background eqn:Hbg.
  remember (match foreground, background with
    | _, None => true
    | Some f, Some b => (compareScheduledRecords locale s f b <=? 0)%Z
    | None, Some _ => false end) as use eqn:Huse.
  assert (Hstart : forall i r s1, store s !! i = Some r -> s_status (r_snapshot r) = Queued ->
    store s1 = store s -> executions s1 = executions s -> promises s1 = promises s -> controllers s1 = controllers s ->
    inv (Some (i, r_promise r)) s1 -> ~ in_queue s1 i ->
    (if isForegroundMode (s_mode (r_snapshot r)) then runningForeground s1 < maxForeground s1
     else runningBackground s1 < maxBackground s1)%Z ->
    (forall fuel, match store s1 !! i with
              | Some r => if negb (bool_decide (s_status (r_snapshot r) = Queued)) || record_aborted s1 r
                          then pump_loop locale fuel s1 now
                          else pump_loop locale fuel (execute (acquireSlot s1 i) now i) now
              | None => pump_loop locale fuel s1 now end =
                  pump_loop locale fuel (execute (acquireSlot s1 i) now i) now) /\
    inv None (execute (acquireSlot s1 i) now i) /\ status_of (execute (acquireSlot s1 i) now i) i = Some Running).
  { intros i r s1 Hr Hst Es Ee Epr Ec H1 Hni Hroom.
    destruct (inv_live _ _ H i r ltac:(by intros [? ?]) Hr) as (L1 & L2 & L3 & L4). rewrite Hst in *.
    destruct L4 as ((p & Hp & Hpp) & _ & Hab & _).
    assert (Hab1 : record_aborted s1 r = false) by (unfold record_aborted, aborted in *; by rewrite Ec).
    split; [intros fuel; by rewrite Es, Hr, Hst, bool_decide_eq_true_2, Hab1|].
    destruct (L3 ltac:(done) ltac:(done) ltac:(done)) as [[w Hw] [c Hc]]. split.
    2: { assert (Hsl : r_slotAcquired r = false) by (destruct (r_slotAcquired r); [by pose proof (proj1 L1 eq_refl)|done]).
      unfold acquireSlot. rewrite Es, Hr, Hsl. eapply (execute_running _ _ _ (on_r_slotAcquired (fun _ => true) r) w c);
        [|done..|]; [simpl; by rewrite store_count, list_lookup_alter_eq, Es, Hr|].
      unfold record_aborted in Hab1. rewrite Hc in Hab1. rewrite <- Hab1. unfold aborted, count_slot.
      by destruct (isForegroundMode _). }
    apply (inv_start s1 i r); try done; try (by eexists); [by rewrite Es| |exists p; by rewrite Epr|].
    - destruct (r_slotAcquired r); [by pose proof (proj1 L1 eq_refl)|done].
    - rewrite Ee. intros e x Hx Hxi Hxs Hxg. by pose proof (L2 e x Hx Hxi Hxs Hxg). }
  assert (Hcase : (foreground = None /\ background = None) \/
    (use = true /\ exists i, foreground = Some i) \/ (use = false /\ exists i, background = Some i)).
  { rewrite Huse. destruct foreground as [f|], background as [b|]; [destruct (compareScheduledRecords _ _ _ _ <=? 0)%Z| | |]; eauto. }
  destruct Hcase as [[Ef Eb]|[[Eu [i Ei]]|[Eu [i Ei]]]].
  - left. split.
    + rewrite Ef in Hfg. rewrite Eb in Hbg. split.
      * destruct (_ <? _)%Z eqn:Em; bools; [right; by apply peek_none|by left].
      * destruct (runningBackground s <? _)%Z eqn:Em; bools; [right; by apply peek_none|by left].
    + intros [|fuel]; [done|]. cbn [pump_loop]. by rewrite <- Hfg, <- Hbg, Ef, Eb.
  - right. pose proof Hfg as Hp. destruct (runningForeground s <? maxForeground s)%Z eqn:Em; [|congruence].
    rewrite Ei in Hp.
    destruct (inv_pop_foreground s i H (eq_sym Hp)) as (r & q' & E & Hr & Hlen & Hm & Hst & H1 & Hni).
    destruct (Hstart i r (on_foregroundReady (fun _ => q') s)) as (Hloop & Hinv & Hrun); try done; [rewrite Hm; simpl; bools; lia|].
    pose proof (start_frame (on_foregroundReady (fun _ => q') s) now i) as (Ft & Ff & Fb & Fl).
    eexists. split; [|split_and!; [exact Hinv| |exact Ft|exact Fl|]].
    + intros fuel. cbn [pump_loop]. rewrite Em, <- Hfg, <- Hbg, <- Huse, Eu, Ei, E. exact (Hloop fuel).
    + unfold ready_count. rewrite Ff, Fb. simpl. lia.
    + exists i, (on_foregroundReady (fun _ => q') s). split_and!; [done|done|done| |by unfold status_of; rewrite Hr; simpl; rewrite Hst|done].
      split; [left; split; [by apply peek_in|by bools]|]. intros j [[Hj _]|[Hj Hroom]].
      * by apply (peek_spec _ _ _ _ (inv_fg _ _ H) (eq_sym Hp)).
      * rewrite (proj2 (Z.ltb_lt _ _) Hroom) in Hbg. destruct background as [b|]; [|by rewrite (peek_none _ (eq_sym Hbg)) in Hj; inversion Hj].
        rewrite Ei, Eu in Huse. symmetry in Huse. apply Z.leb_le in Huse.
        apply (compare_trans (compare := compareScheduledRecords locale s) i b j); [done|].
        by apply (peek_spec _ _ _ _ (inv_bg _ _ H) (eq_sym Hbg)).
  - right. pose proof Hbg as Hp. destruct (runningBackground s <? maxBackground s)%Z eqn:Em; [|congruence].
    rewrite Ei in Hp.
    destruct (inv_pop_background s i H (eq_sym Hp)) as (r & q' & E & Hr & Hlen & Hm & Hst & H1 & Hni).
    destruct (Hstart i r (on_backgroundReady (fun _ => q') s)) as (Hloop & Hinv & Hrun); try done; [rewrite Hm; simpl; bools; lia|].
    pose proof (start_frame (on_backgroundReady (fun _ => q') s) now i) as (Ft & Ff & Fb & Fl).
    eexists. split; [|split_and!; [exact Hinv| |exact Ft|exact Fl|]].
    + intros fuel. cbn [pump_loop]. rewrite Em, <- Hfg, <- Hbg, <- Huse, Eu, Ei, E. destruct foreground; exact (Hloop fuel).
    + unfold ready_count. rewrite Ff, Fb. simpl. lia.
    + exists i, (on_backgroundReady (fun _ => q') s). split_and!; [done|done|done| |by unfold status_of; rewrite Hr; simpl; rewrite Hst|done].
      split; [right; split; [by apply peek_in|by bools]|]. intros j [[Hj Hroom]|[Hj _]].
      * rewrite (proj2 (Z.ltb_lt _ _) Hroom) in Hfg. destruct foreground as [f|]; [|by rewrite (peek_none _ (eq_sym Hfg)) in Hj; inversion Hj].
        rewrite Ei, Eu in Huse. symmetry in Huse. apply Z.leb_gt in Huse.
        apply (compare_trans (compare := compareScheduledRecords locale s) i f j).
        -- pose proof (compare_flip (compare := compareScheduledRecords locale s) i f). lia.
        -- by apply (peek_spec _ _ _ _ (inv_fg _ _ H) (eq_sym Hfg)).
      * by apply (peek_spec _ _ _ _ (inv_bg _ _ H) (eq_sym Hp)).
Qed.

Lemma pump_loop_spec fuel s now :
  inv None s -> ready_count s <= fuel ->
  inv None (pump_loop locale fuel s now) /\ saturated (pump_loop locale fuel s now) /\
  timer_view (pump_loop locale fuel s now) = timer_view s /\ lifecycle (pump_loop locale fuel s now) = lifecycle s.
Proof.
  revert s. induction fuel as [|fuel IH]; intros s H Hf.
  - unfold ready_count in Hf. simpl. split_and!; [done| |done|done].
    split; right; apply nil_length_inv; lia.
  - destruct (pump_round s now H) as [[Hs Hl]|(s1 & Hl & H1 & Hc & <- & <- & _)]; rewrite Hl; [done|].
    apply IH; [done|lia].
Qed.

Lemma inv_pump s now : inv None s -> inv None (pump locale s now).
Proof.
  intros H. unfold pump. destruct (stopping s); [done|]. by apply pump_loop_spec; [apply inv_promoteReady|].
Qed.

(** The outcome of an operation that ends in [this.pump()]. *)
Definition pumped now s' : Prop := exists s, s' = pump locale s now /\ inv None s.

Lemma inv_pumped now s : pumped now s -> inv None s.
Proof. intros (s0 & -> & H). by apply inv_pump. Qed.

(** * Operations *)

(** No operation of the record is still running under its current generation. *)
Definition quiet s i (g : Z) : Prop :=
  forall e x, executions s !! e = Some x -> x_record x = i -> x_settled x = false -> x_generation x <> g.

Lemma settle_promise_settled s (q : option nat) v r :
  v <> Pending -> r_promise r = q \/ r_promise r = None -> (forall p, q = Some p -> p < length (promises s)) ->
  promise_settled (settle_promise s q v) r = true.
Proof.
  intros Hv Hq Hl. unfold promise_settled. destruct (r_promise r) as [p|] eqn:E; [|done].
  destruct Hq as [<-|]; [|done]. simpl.
  destruct (lookup_lt_is_Some_2 (promises s) p (Hl p eq_refl)) as [old Ho].
  rewrite list_lookup_alter_eq, Ho. simpl. by destruct old, v.
Qed.

(** Parking: the record in the hole got a resting status, its promise is settled. *)
Lemma inv_park s i q r v :
  inv (Some (i, q)) s -> store s !! i = Some r -> v <> Pending ->
  r_promise r = q \/ r_promise r = None ->
  active (s_status (r_snapshot r)) = false -> r_slotAcquired r = false -> quiet s i (r_generation r) ->
  (s_status (r_snapshot r) = Interrupted \/ s_status (r_snapshot r) = WaitingUser ->
     is_Some (r_work r) /\ is_Some (r_controller r)) ->
  inv None (settle_promise s q v).
Proof.
  intros H Hr Hv Hq Ha Hs Hx Hw. pose proof (inv_settle_promise s i q v H Hv) as H1.
  assert (Hset : promise_settled (settle_promise s q v) r = true).
  { apply settle_promise_settled; [done|done|]. intros p ->. apply (inv_hole _ _ H i p eq_refl). }
  assert (Hr1 : store (settle_promise s q v) !! i = Some r) by (by destruct q).
  assert (Hex : executions (settle_promise s q v) = executions s) by (by destruct q).
  apply (inv_close _ i _ r H1 Hr1); [|done].
  split; [|split; [|split]].
  - rewrite Hs. split; [done|]. intros E. by rewrite E in Ha.
  - rewrite Hex. intros e x He Hxi Hxs Hg. by destruct (Hx e x He Hxi Hxs).
  - destruct (s_status (r_snapshot r)); simpl in Ha; naive_solver.
  - by destruct (s_status (r_snapshot r)).
Qed.

(** The common tail of the operations that end a run: the slot is released, then the fields
    of the record are updated by [f], possibly with a controller that was just allocated. *)
Lemma inv_detach_fresh s i q r f :
  inv (Some (i, q)) s -> store s !! i = Some r ->
  same_key r (f (on_r_slotAcquired (fun _ => false) r)) ->
  (r_generation r <= r_generation (f (on_r_slotAcquired (fun _ => false) r)))%Z ->
  (forall c, r_controller (f (on_r_slotAcquired (fun _ => false) r)) = Some c ->
     r_controller r = Some c \/ fresh_controller s c) ->
  (forall p, r_promise (f (on_r_slotAcquired (fun _ => false) r)) = Some p -> r_promise r = Some p) ->
  r_slotAcquired (f (on_r_slotAcquired (fun _ => false) r)) = false ->
  ~ in_queue s i ->
  exists s', modify (releaseSlot s i) i f = s' /\ inv (Some (i, q)) s' /\
    store s' !! i = Some (f (on_r_slotAcquired (fun _ => false) r)) /\ executions s' = executions s /\
    promises s' = promises s /\ controllers s' = controllers s /\ ~ in_queue s' i.
Proof.
  intros H Hr Hk Hg Hc Hp Hs Hni.
  destruct (inv_releaseSlot s i q r H Hr) as (df & db & -> & H1).
  set (r1 := on_r_slotAcquired (fun _ => false) r) in *. set (s1 := recount (put s i r1) df db) in *.
  assert (Hr1 : store s1 !! i = Some r1) by (simpl; apply list_lookup_insert_eq; by eapply lookup_lt_Some).
  exists (put s1 i (f r1)). rewrite (modify_put _ _ _ r1 Hr1). split; [done|]. split.
  - apply (inv_put s1 i q r1); [done|done|done|done|..].
    + intros c Hcc. destruct (Hc c Hcc) as [?|(Hl & Hf1 & Hf2)]; [by left|right]. split_and!; [done| |done].
      intros j x Hx. change (store s1) with (store (put s i r1)) in Hx. rewrite (put_lookup _ _ r) in Hx by done.
      case_decide; [|by eauto]. simplify_eq. exact (Hf1 i r Hr).
    + intros p Hpp. left. by apply Hp.
    + done.
    + intros Hq. by destruct Hni.
  - split; [|done]. simpl. apply list_lookup_insert_eq. apply lookup_lt_Some in Hr1. exact Hr1.
Qed.

Lemma inv_detach s i q r f :
  inv (Some (i, q)) s -> store s !! i = Some r ->
  same_key r (f (on_r_slotAcquired (fun _ => false) r)) ->
  r_generation (f (on_r_slotAcquired (fun _ => false) r)) = r_generation r ->
  (forall c, r_controller (f (on_r_slotAcquired (fun _ => false) r)) = Some c -> r_controller r = Some c) ->
  (forall p, r_promise (f (on_r_slotAcquired (fun _ => false) r)) = Some p -> r_promise r = Some p) ->
  r_slotAcquired (f (on_r_slotAcquired (fun _ => false) r)) = false ->
  ~ in_queue s i ->
  exists s', modify (releaseSlot s i) i f = s' /\ inv (Some (i, q)) s' /\
    store s' !! i = Some (f (on_r_slotAcquired (fun _ => false) r)) /\ executions s' = executions s /\
    promises s' = promises s /\ controllers s' = controllers s /\ ~ in_queue s' i.
Proof.
  intros H Hr Hk Hg Hc Hp Hs Hni. apply (inv_detach_fresh s i q r f); try done; [lia|]. intros c Hcc. left. by apply Hc.
Qed.

(** Allocation. *)

Lemma inv_new_controller h s : inv h s -> inv h (on_controllers (fun l => l ++ [false]) s).
Proof.
  intros H. destruct H. constructor; try assumption.
  - intros j r Hj Hr. apply (live_record_ext s); [done| |done|done|by apply inv_live0].
    intros c Hc. unfold aborted. simpl. rewrite lookup_app_l; [done|]. exact (inv_controller0 j r c Hr Hc).
  - intros j r c Hr Hc. simpl. rewrite length_app. pose proof (inv_controller0 j r c Hr Hc). lia.
  - intros e x Hx. destruct (inv_exec0 e x Hx) as (r & ? & ? & ? & ?). exists r. simpl. rewrite length_app.
    split_and!; [done..|lia|done].
Qed.

Lemma new_controller_fresh h s :
  inv h s -> fresh_controller (on_controllers (fun l => l ++ [false]) s) (length (controllers s)).
Proof.
  intros H. split_and!.
  - simpl. rewrite length_app. simpl. lia.
  - intros j r Hr Hc. pose proof (inv_controller _ _ H j r _ Hr Hc). lia.
  - intros e x Hx Hc. destruct (inv_exec _ _ H e x Hx) as (? & _ & _ & ? & _). lia.
Qed.

Lemma inv_new_promise s i :
  inv (Some (i, None)) s ->
  inv (Some (i, Some (length (promises s)))) (on_promises (fun l => l ++ [Pending]) s).
Proof.
  intros H. destruct H. constructor; try assumption.
  - intros j r Hj Hr. apply (live_record_ext s); [done|done| |done|apply inv_live0; [|done]].
    + intros p Hp. simpl. rewrite lookup_app_l; [done|]. exact (inv_promise0 j r p Hr Hp).
    + rewrite not_hole_ne in *. done.
  - intros j r p Hr Hp. simpl. rewrite length_app. pose proof (inv_promise0 j r p Hr Hp). lia.
  - intros j p [= <- <-]. simpl. rewrite length_app. simpl. split; [lia|].
    intros k r Hr Hp. pose proof (inv_promise0 k r _ Hr Hp). lia.
  - intros p Hp. simpl in Hp. apply lookup_app_Some in Hp as [Hp|[Hle Hp]].
    + destruct (inv_pending0 p Hp) as [[j ?]|(j & r & Hj & ?)]; [done|right].
      exists j, r. rewrite not_hole_ne in *. done.
    + left. exists i. apply list_lookup_singleton_Some in Hp as [Hp _]. do 3 f_equal. lia.
Qed.

Lemma new_promise_fresh h s :
  inv h s -> fresh_promise (on_promises (fun l => l ++ [Pending]) s) (length (promises s)).
Proof.
  intros H. split.
  - simpl. rewrite length_app. simpl. lia.
  - intros j r Hr Hp. pose proof (inv_promise _ _ H j r _ Hr Hp). lia.
Qed.

(** Requeueing: a queued record whose controller is fresh is armed and at rest again. *)
Lemma inv_arm s now i q r p c :
  inv (Some (i, q)) s -> store s !! i = Some r -> s_status (r_snapshot r) = Queued ->
  r_slotAcquired r = false -> is_Some (r_work r) -> r_controller r = Some c ->
  controllers s !! c = Some false ->
  (forall e x, executions s !! e = Some x -> x_record x = i -> x_controller x <> c) ->
  quiet s i (r_generation r) -> r_promise r = Some p -> promises s !! p = Some Pending ->
  (q = Some p \/ q = None \/ exists p', q = Some p' /\ promises s !! p' <> Some Pending) ->
  inv None (arm locale s now i).
Proof.
  intros H Hr Hst Hsl Hw Hc Hcf Hxc Hq Hp Hpp Hqp.
  assert (Hab : record_aborted s r = false) by (unfold record_aborted, aborted; by rewrite Hc, Hcf).
  destruct (arm_spec s now i q r H Hr Hst Hab) as (fg & bg & d & -> & H1 & Hin).
  apply (inv_close _ i q r H1 Hr).
  - split_and!; [by rewrite Hsl, Hst| |by eauto|].
    + intros e x He Hxi Hxs Hg. by destruct (Hq e x He Hxi Hxs).
    + rewrite Hst. split_and!; [by exists p|done|done|]. intros e x He Hxi Hcc.
      apply (Hxc e x He Hxi). congruence.
  - intros p' Hp' Hpp'. rewrite Hst. split; [|done].
    destruct Hqp as [?|[?|(p'' & ? & Hno)]]; simplify_eq; done.
Qed.

Lemma inv_arm_equiv s s0 now i q r p c :
  s ≡ s0 -> inv (Some (i, q)) s0 -> store s0 !! i = Some r -> s_status (r_snapshot r) = Queued ->
  r_slotAcquired r = false -> is_Some (r_work r) -> r_controller r = Some c ->
  controllers s0 !! c = Some false ->
  (forall e x, executions s0 !! e = Some x -> x_record x = i -> x_controller x <> c) ->
  quiet s0 i (r_generation r) -> r_promise r = Some p -> promises s0 !! p = Some Pending ->
  (q = Some p \/ q = None \/ exists p', q = Some p' /\ promises s0 !! p' <> Some Pending) ->
  inv None (arm locale s now i).
Proof.
  intros E H. rewrite <- E in H.
  assert (Ef : store s0 = store s /\ executions s0 = executions s /\ promises s0 = promises s /\
               controllers s0 = controllers s) by (revert E; clear; intros; by open_core).
  unfold quiet. destruct Ef as (-> & -> & -> & ->). intros. by eapply inv_arm.
Qed.

Lemma modify_modify s i f g : modify (modify s i f) i g = modify s i (fun r => g (f r)).
Proof.
  unfold modify, on_store. simpl. f_equal. apply list_eq. intros j.
  destruct (decide (j = i)) as [->|]; [|by rewrite !list_lookup_alter_ne].
  rewrite !list_lookup_alter_eq. by destruct (_ !! _).
Qed.

Lemma pumped_finishCancelled s now i r :
  inv (Some (i, r_promise r)) s -> store s !! i = Some r -> active (s_status (r_snapshot r)) = true ->
  quiet s i (r_generation r) -> pumped now (finishCancelled locale s now i).
Proof.
  intros H Hr Ha Hx. unfold finishCancelled. rewrite Hr.
  replace (isTerminal _ || _) with false by (by destruct (s_status (r_snapshot r))).
  eexists. split; [reflexivity|]. rewrite emit_equiv.
  destruct (inv_removeReady s i _ r true H Hr) as (fg & bg & d & E & H1 & Hn1 & Hn2 & Hn3).
  rewrite persist_equiv, releaseDedupe_equiv, E.
  assert (Hni : ~ in_queue (set_queues fg bg d s) i) by (unfold in_queue; simpl; tauto).
  set (f := on_r_snapshot _).
  destruct (inv_detach _ i _ r f H1 Hr) as (s' & -> & H2 & Hr2 & Hx2 & _); [done..|].
  set (r2 := f _) in *. rewrite (modify_put _ _ _ r2 Hr2).
  assert (H3 : inv (Some (i, r_promise r)) (put s' i (releaseSettledRuntime r2))).
  { apply (inv_put s' i _ r2); [done..|]. intros Hq. by destruct (queued_of _ _ _ H2 Hq) as (? & ? & ? & _); simplify_eq. }
  apply (inv_park _ i _ (releaseSettledRuntime r2) _ H3); [|done|by right|done|done| |by intros []].
  - simpl. apply list_lookup_insert_eq. by eapply lookup_lt_Some.
  - unfold quiet. simpl. by rewrite Hx2.
Qed.
End Invariant.
