(* ===== verification/SchedulerOps.v ===== *)
(** Every operation of the task scheduler preserves its invariant: the public methods, the
    callbacks and settlements of running work, the timers and the shutdown. *)

From S2P Require Import Prelude PriorityQueue Scheduler SchedulerProofs.

Section Operations.
Context (locale : string -> string -> Z) `{!Comparator locale}.
Implicit Types (s : scheduler) (i e p c : nat) (r : record).
Abbreviation inv := (inv locale).
Abbreviation pumped := (pumped locale).

(** * Records that only change in fields the invariant does not read *)

Lemma live_record_same s s' i r r' :
  live_record s i r ->
  executions s' = executions s -> controllers s' = controllers s -> promises s' = promises s ->
  (in_queue s i -> in_queue s' i) ->
  s_status (r_snapshot r') = s_status (r_snapshot r) -> r_slotAcquired r' = r_slotAcquired r ->
  r_generation r' = r_generation r -> r_work r' = r_work r -> r_controller r' = r_controller r ->
  r_promise r' = r_promise r -> live_record s' i r'.
Proof.
  intros (L1 & L2 & L3 & L4) He Hc Hp Hq Hs Hsl Hg Hw Hct Hpr.
  unfold live_record, promise_is, promise_settled, record_aborted, aborted in *.
  rewrite Hs, Hsl, Hg, Hw, Hct, Hpr, He, Hc, Hp. split_and!; [done..|].
  destruct (s_status (r_snapshot r)); try done. naive_solver.
Qed.

Lemma inv_touch s i r f :
  inv None s -> store s !! i = Some r ->
  (forall n, s_id (f n) = s_id n /\ s_mode (f n) = s_mode n /\ s_status (f n) = s_status n) ->
  inv None (modify s i (on_r_snapshot f)).
Proof.
  intros H Hr Hf. rewrite (modify_put _ _ _ r Hr). destruct (Hf (r_snapshot r)) as (Hid & Hm & Hst).
  set (r' := on_r_snapshot f r).
  assert (H1 : inv (Some (i, r_promise r)) (put s i r')).
  { apply (inv_put _ s i _ r); [by apply inv_open|done|done|done|by left|by left|done|].
    intros Hq. destruct (queued_of _ _ _ _ H Hq) as (x & Hx & ? & _). simplify_eq. simpl. by rewrite Hst. }
  pose proof (inv_live _ _ _ H i r ltac:(by intros [? ?]) Hr) as Hlive.
  apply (inv_close _ _ i _ r' H1).
  - simpl. apply list_lookup_insert_eq. by eapply lookup_lt_Some.
  - by apply (live_record_same s _ i r).
  - intros p Hp Hpp. split; [done|]. simpl. rewrite Hst.
    destruct Hlive as (_ & _ & _ & L4). unfold promise_settled in L4. rewrite Hp in L4. simpl in L4, Hpp.
    rewrite Hpp in L4. by destruct (s_status (r_snapshot r)).
Qed.

Lemma inv_recordCheckpoint s now i cp g : inv None s -> inv None (fst (recordCheckpoint s now i cp g)).
Proof.
  intros H. unfold recordCheckpoint. destruct (store s !! i) as [r|] eqn:Hr; [|done].
  destruct (_ || _); [done|]. destruct (normalizeCheckpoint cp now); [|done]. cbn [fst].
  rewrite emit_equiv, persist_equiv. by apply (inv_touch s i r).
Qed.

Lemma inv_checkpoint s now id cp : inv None s -> inv None (fst (checkpoint_op s now id cp)).
Proof.
  intros H. unfold checkpoint_op. destruct (find_record s id ≫= _) as [[i r]|]; [|done].
  destruct (negb _); [done|]. by apply inv_recordCheckpoint.
Qed.

Lemma inv_report_checkpoint s now e cp : inv None s -> inv None (report_checkpoint s now e cp).
Proof. intros H. unfold report_checkpoint. destruct (_ !! _); [by apply inv_recordCheckpoint|done]. Qed.

Lemma inv_report_progress s e (p : Z) : inv None s -> inv None (report_progress s e p).
Proof.
  intros H. unfold report_progress, get_execution.
  destruct (executions s !! e) as [x|]; [simpl|done].
  destruct (store s !! x_record x) as [r|] eqn:Hr; [simpl|done].
  destruct (_ || _); [done|]. rewrite emit_equiv. by apply (inv_touch s _ r).
Qed.

(** * Cancelling and interrupting *)

Lemma lookup_by_id s id i r :
  find_record s id ≫= (fun i => pair i <$> store s !! i) = Some (i, r) ->
  find_record s id = Some i /\ store s !! i = Some r.
Proof.
  destruct (find_record s id) as [j|]; simpl; [|done]. destruct (store s !! j) as [x|] eqn:E; simpl; [|done].
  intros [= -> ->]. done.
Qed.

(** The generation moves on and the controller is aborted: what ran is quiet. *)
Lemma inv_supersede s i r :
  inv None s -> store s !! i = Some r ->
  exists s1, abort (modify s i (on_r_generation (fun g => g + 1)%Z)) (r_controller r) = s1 /\
    inv (Some (i, r_promise r)) s1 /\ store s1 !! i = Some (on_r_generation (fun g => g + 1)%Z r) /\
    quiet s1 i (r_generation r + 1) /\ (in_queue s1 i <-> in_queue s i).
Proof.
  intros H Hr. rewrite (modify_put _ _ _ r Hr). set (r1 := on_r_generation _ r).
  assert (Hr1 : store (put s i r1) !! i = Some r1).
  { simpl. apply list_lookup_insert_eq. by eapply lookup_lt_Some. }
  assert (H1 : inv (Some (i, r_promise r)) (put s i r1)).
  { apply (inv_put _ s i _ r); [by apply inv_open|done|done|simpl; lia|by left|by left|done|].
    intros Hq. destruct (queued_of _ _ _ _ H Hq) as (x & Hx & ? & _). by simplify_eq. }
  eexists. split; [done|]. split; [exact (inv_abort _ _ _ _ r1 H1 Hr1)|].
  assert (Hs : forall t, store (abort (put s i r1) t) = store (put s i r1)) by (by destruct t).
  assert (He : forall t, executions (abort (put s i r1) t) = executions s) by (by destruct t).
  rewrite Hs. split; [done|]. split.
  - intros e x. rewrite He. intros Hx Hxi _ Hg. destruct (inv_exec _ _ _ H e x Hx) as (y & Hy & Hge & _).
    rewrite Hxi in Hy. simplify_eq. lia.
  - unfold in_queue. by destruct (r_controller r).
Qed.

Lemma active_of st : isTerminal st || bool_decide (st = Interrupted) = false -> active st = true.
Proof. by destruct st. Qed.

Lemma cancel_pumped s now id :
  inv None s -> fst (cancel locale s now id) = s \/ pumped now (fst (cancel locale s now id)).
Proof.
  intros H. unfold cancel. destruct (find_record s id ≫= _) as [[i r]|] eqn:E; [|by left].
  apply lookup_by_id in E as [_ Hr]. destruct (_ || _) eqn:Est; [by left|right]. apply active_of in Est.
  destruct (inv_supersede s i r H Hr) as (s1 & -> & H1 & Hr1 & Hq & _). cbn [fst].
  replace (bool_decide _ || bool_decide _) with true by (by destruct (s_status (r_snapshot r))).
  by apply (pumped_finishCancelled _ s1 now i (on_r_generation (fun g => g + 1)%Z r)).
Qed.

Lemma inv_cancel s now id : inv None s -> inv None (fst (cancel locale s now id)).
Proof. intros H. destruct (cancel_pumped s now id H) as [->|?]; [done|by eapply inv_pumped]. Qed.

Lemma interrupt_pumped s now id :
  inv None s -> fst (interrupt locale s now id) = s \/ pumped now (fst (interrupt locale s now id)).
Proof.
  intros H. unfold interrupt. destruct (find_record s id ≫= _) as [[i r]|] eqn:E; [|by left].
  apply lookup_by_id in E as [_ Hr]. destruct (_ || _) eqn:Est; [by left|right]. apply active_of in Est.
  destruct (inv_supersede s i r H Hr) as (s1 & -> & H1 & Hr1 & Hq & _). cbn [fst].
  eexists. split; [reflexivity|]. rewrite emit_equiv, persist_equiv.
  destruct (inv_removeReady _ s1 i _ _ true H1 Hr1) as (fg & bg & d & E & H2 & Hn1 & Hn2 & Hn3). rewrite E.
  assert (Hni : ~ in_queue (set_queues fg bg d s1) i) by (unfold in_queue; simpl; tauto).
  destruct (inv_live _ _ _ H i r ltac:(by intros [? ?]) Hr) as (_ & _ & L3 & _).
  destruct (inv_detach _ _ i _ _ (on_r_snapshot (fun n =>
              on_s_finishedAt (fun _ => Some now)
                (on_s_error (fun _ => Some (interruptedError interrupted_message))
                   (on_s_status (fun _ => Interrupted) n)))) H2 Hr1) as (s' & -> & H3 & Hr2 & Hx2 & _); [done..|].
  eapply inv_park; [exact H3|exact Hr2|done|by left|done|done| |].
  - intros e x. rewrite Hx2. apply Hq.
  - intros _. apply L3; by destruct (s_status (r_snapshot r)).
Qed.

Lemma inv_interrupt s now id : inv None s -> inv None (fst (interrupt locale s now id)).
Proof. intros H. destruct (interrupt_pumped s now id H) as [->|?]; [done|by eapply inv_pumped]. Qed.

Lemma waitForUser_pumped s now id cp :
  inv None s ->
  fst (waitForUser locale s now id cp) = s \/
  (exists i cp' g, fst (waitForUser locale s now id cp) = fst (recordCheckpoint s now i cp' g)) \/
  pumped now (fst (waitForUser locale s now id cp)).
Proof.
  intros H. unfold waitForUser. destruct (find_record s id ≫= _) as [[i r]|] eqn:E; [|by left].
  apply lookup_by_id in E as [_ Hr]. destruct (negb _) eqn:Est; [by left|].
  apply negb_false_iff, bool_decide_eq_true in Est.
  destruct (match cp with Some cp => recordCheckpoint s now i cp (r_generation r) | None => (s, true) end)
    as [s0 recorded] eqn:E0.
  assert (H0 : inv None s0 /\ exists r0, store s0 !! i = Some r0 /\ r_controller r0 = r_controller r /\
             r_promise r0 = r_promise r /\ s_status (r_snapshot r0) = Running).
  { destruct cp as [cp|]; [|simplify_eq; eauto 10].
    split; [by apply (f_equal fst) in E0; simpl in E0; subst; apply inv_recordCheckpoint|].
    unfold recordCheckpoint in E0. rewrite Hr in E0.
    destruct (_ || _); [simplify_eq; eauto 10|].
    destruct (normalizeCheckpoint cp now); simplify_eq; [|eauto 10].
    rewrite (store_proper _ _ (emit_equiv _ _ _)), (store_proper _ _ (persist_equiv _ _)).
    eexists. split; [simpl; by rewrite list_lookup_alter_eq, Hr|done]. }
  destruct H0 as (H0 & r0 & Hr0 & Hc0 & Hp0 & Hst0).
  assert (Hsame : s0 = s \/ exists i cp' g, s0 = fst (recordCheckpoint s now i cp' g)).
  { destruct cp as [cp|]; [right|by left; simplify_eq]. exists i, cp, (r_generation r). by rewrite E0. }
  destruct (negb recorded); [destruct Hsame; auto|].
  destruct (store s0 !! i ≫= _) eqn:Ecp; [|destruct Hsame; auto]. right. right. clear Hsame. cbn [fst].
  destruct (inv_supersede s0 i r0 H0 Hr0) as (s1 & E1 & H1 & Hr1 & Hq & Hiq).
  rewrite Hc0 in E1. rewrite E1. eexists. split; [reflexivity|].
  rewrite emit_equiv, persist_equiv, releaseDedupe_equiv. rewrite <- Hp0.
  assert (Hni : ~ in_queue s1 i).
  { rewrite Hiq. intros Hin. destruct (queued_of _ _ _ _ H0 Hin) as (x & Hx & ? & _). simplify_eq. congruence. }
  destruct (inv_live _ _ _ H0 i r0 ltac:(by intros [? ?]) Hr0) as (_ & _ & L3 & _).
  destruct (inv_detach _ _ i _ _ (on_r_snapshot (fun n =>
              on_s_finishedAt (fun _ => Some now)
                (on_s_error (fun _ => None) (on_s_status (fun _ => WaitingUser) n)))) H1 Hr1)
    as (s' & -> & H3 & Hr2 & Hx2 & _); [done..|].
  eapply inv_park; [exact H3|exact Hr2|done|by left|done|done| |].
  - intros e x. rewrite Hx2. apply Hq.
  - intros _. apply L3; congruence.
Qed.

Lemma inv_waitForUser s now id cp : inv None s -> inv None (fst (waitForUser locale s now id cp)).
Proof.
  intros H. destruct (waitForUser_pumped s now id cp H) as [->|[(i & cp' & g & ->)|?]];
    [done|by apply inv_recordCheckpoint|by eapply inv_pumped].
Qed.

(** * Settling an execution *)

Lemma settled_lookup s e x e' y :
  executions s !! e = Some x -> alter settle_execution e (executions s) !! e' = Some y ->
  (e' = e /\ y = settle_execution x) \/ (e' <> e /\ executions s !! e' = Some y).
Proof.
  intros He. destruct (decide (e' = e)) as [->|Hne].
  - rewrite list_lookup_alter_eq, He. naive_solver.
  - rewrite list_lookup_alter_ne by done. auto.
Qed.

(** A record other than the one of [e], or the same under another generation, stays as it is. *)
Lemma live_settled s e x j y :
  executions s !! e = Some x -> (x_record x = j -> x_generation x <> r_generation y) ->
  live_record s j y -> live_record (on_executions (alter settle_execution e) s) j y.
Proof.
  intros He Hx (L1 & L2 & L3 & L4). split_and!; [done| |done|].
  - intros e' z Hz Hzj Hzs. destruct (settled_lookup _ _ _ _ _ He Hz) as [[_ ->]|[_ Hz']]; [done|]. by eapply L2.
  - destruct (s_status (r_snapshot y)); [| |exact L4..].
    + destruct L4 as (? & ? & ? & L4). split_and!; [done..|].
      intros e' z Hz Hzj. destruct (settled_lookup _ _ _ _ _ He Hz) as [[_ ->]|[_ Hz']].
      * exact (L4 e x He Hzj).
      * exact (L4 e' z Hz' Hzj).
    + destruct L4 as (? & e' & z & Hz & Hzj & Hzs & Hg). split; [done|]. exists e', z. split; [|done].
      simpl. rewrite list_lookup_alter_ne; [done|]. intros <-. simplify_eq. by apply Hx.
Qed.

Lemma inv_settle_execution s e x r :
  inv None s -> executions s !! e = Some x -> store s !! x_record x = Some r ->
  inv (Some (x_record x, r_promise r)) (on_executions (alter settle_execution e) s).
Proof.
  intros H He Hr. pose proof (inv_open _ s _ r H Hr) as H1. destruct H1. constructor; try assumption.
  - intros j y Hj Hy. apply (live_settled _ _ x); [done| |exact (inv_live j y Hj Hy)].
    rewrite not_hole_ne in Hj. congruence.
  - intros e' y Hy. destruct (settled_lookup _ _ _ _ _ He Hy) as [[_ ->]|[_ Hz]];
      [exact (inv_exec e x He)|exact (inv_exec e' y Hz)].
  - intros e1 e2 x1 x2 H1 H2 Hrr Hgg Hs1 Hs2.
    destruct (settled_lookup _ _ _ _ _ He H1) as [[_ ->]|[_ Hz1]]; [done|].
    destruct (settled_lookup _ _ _ _ _ He H2) as [[_ ->]|[_ Hz2]]; [done|]. by eauto.
Qed.

(** An execution that is no longer current leaves its record alone. *)
Lemma inv_stale s e x r :
  inv None s -> executions s !! e = Some x -> store s !! x_record x = Some r -> is_current x r = false ->
  inv None (on_executions (alter settle_execution e) s).
Proof.
  intros H He Hr Hcur. unfold is_current in Hcur. bools.
  pose proof (inv_settle_execution s e x r H He Hr) as H1.
  pose proof (inv_live _ _ _ H _ r ltac:(by intros [? ?]) Hr) as Hl.
  apply (inv_close _ _ _ _ r H1 Hr).
  - apply (live_settled _ _ x); [done|congruence|done].
  - intros p Hp Hpp. split; [done|]. simpl in Hpp. destruct Hl as (_ & _ & _ & L4).
    unfold promise_settled in L4. rewrite Hp in L4. simpl in L4.
    rewrite Hpp in L4. by destruct (s_status (r_snapshot r)).
Qed.

(** What is known when the current execution of a record settles. *)
Lemma settling s e x r :
  inv None s -> executions s !! e = Some x -> store s !! x_record x = Some r -> x_settled x = false ->
  is_current x r = true ->
  s_status (r_snapshot r) = Running /\ promise_is s r Pending /\ is_Some (r_work r) /\
  quiet (on_executions (alter settle_execution e) s) (x_record x) (r_generation r) /\
  ~ in_queue s (x_record x).
Proof.
  intros H He Hr Hs Hcur. unfold is_current in Hcur. bools.
  pose proof (inv_live _ _ _ H _ r ltac:(by intros [? ?]) Hr) as (L1 & L2 & L3 & L4).
  assert (Hst : s_status (r_snapshot r) = Running) by (by eapply L2). rewrite Hst in *.
  split_and!; [done|by destruct L4|by apply L3| |].
  - intros e' y Hy Hyx Hys Hg. destruct (settled_lookup _ _ _ _ _ He Hy) as [[_ ->]|[Hne Hz]]; [done|].
    apply Hne. eapply (inv_unique _ _ _ H e' e y x); congruence.
  - intros Hq. destruct (queued_of _ _ _ _ H Hq) as (z & Hz & ? & _). simplify_eq. congruence.
Qed.

Lemma inv_settle_fulfilled s now e x r v :
  inv None s -> executions s !! e = Some x -> store s !! x_record x = Some r -> x_settled x = false ->
  inv None (settle_fulfilled locale (on_executions (alter settle_execution e) s) now x r v).
Proof.
  intros H He Hr Hs. unfold settle_fulfilled. destruct (is_current x r) eqn:Ec; simpl; [|by eapply inv_stale].
  destruct (settling s e x r H He Hr Hs Ec) as (Hst & _ & _ & Hq & Hni).
  pose proof (inv_settle_execution s e x r H He Hr) as H1.
  destruct (aborted _ _).
  - apply (inv_pumped _ now), (pumped_finishCancelled _ _ now _ r H1 Hr); [by rewrite Hst|done].
  - rewrite emit_equiv, persist_equiv, releaseDedupe_equiv, modify_modify.
    destruct (inv_detach _ _ _ _ r (fun r => releaseSettledRuntime (on_r_snapshot (fun n =>
        on_s_finishedAt (fun _ => Some now) (on_s_status (fun _ => Completed) n)) r)) H1 Hr)
      as (s' & -> & H2 & Hr2 & Hx2 & _); [done..|].
    eapply inv_park; [exact H2|exact Hr2|done|by right|done|done| |by intros []].
    intros e' y. rewrite Hx2. apply Hq.
Qed.

(** Allocating a controller commutes with releasing a slot. *)
Lemma controllers_release s i f g :
  on_controllers g (modify (releaseSlot s i) i f) = modify (releaseSlot (on_controllers g s) i) i f /\
  controllers (releaseSlot s i) = controllers s.
Proof.
  unfold releaseSlot. simpl. destruct (store s !! i) as [y|]; [|done].
  destruct (negb _); [done|]. unfold count_slot. by destruct (isForegroundMode _).
Qed.

Lemma inv_settle_rejected s now e x r error :
  inv None s -> executions s !! e = Some x -> store s !! x_record x = Some r -> x_settled x = false ->
  inv None (settle_rejected locale (on_executions (alter settle_execution e) s) now x r error).
Proof.
  intros H He Hr Hs. unfold settle_rejected. destruct (is_current x r) eqn:Ec; simpl; [|by eapply inv_stale].
  destruct (settling s e x r H He Hr Hs Ec) as (Hst & (p & Hp & Hpp) & Hw & Hq & Hni).
  pose proof (inv_settle_execution s e x r H He Hr) as H1. set (i := x_record x) in *.
  set (s1 := on_executions (alter settle_execution e) s) in *.
  destruct (isRetryable error && _).
  - set (s2 := on_controllers (fun l => l ++ [false]) s1).
    rewrite (proj2 (controllers_release s1 i id id)). set (F := fun _ : record => _).
    destruct (inv_detach_fresh locale s2 i (r_promise r) r F) as (s3 & E3 & H3 & Hr3 & Hx3 & Hp3 & Hc3 & _);
      [by apply inv_new_controller|done|done|simpl; lia| |done|done|done|].
    { intros c Hc. right. simpl in Hc. simplify_eq. exact (new_controller_fresh _ _ s1 H1). }
    eapply (inv_arm_equiv _ _ s3);
      [rewrite emit_equiv, persist_equiv, (proj1 (controllers_release _ _ _ _)); fold s2; by rewrite E3|exact H3|exact Hr3|
       done|done|done|done| | | |exact Hp| |by left].
    + rewrite Hc3. by apply list_lookup_middle.
    + rewrite Hx3. intros e' y Hy _. destruct (inv_exec _ _ _ H1 e' y Hy) as (? & _ & _ & ? & _).
      change (length (controllers s1)) with (length (controllers s)) in *. simpl. lia.
    + intros e' y. rewrite Hx3. intros Hy Hyi _ Hg. destruct (inv_exec _ _ _ H1 e' y Hy) as (z & Hz & Hge & _).
      rewrite Hyi in Hz. change (store s1) with (store s) in Hz. simplify_eq. simpl in Hg. lia.
    + rewrite Hp3. exact Hpp.
  - destruct (aborted _ _).
    + apply (inv_pumped _ now), (pumped_finishCancelled _ _ now _ r H1 Hr); [by rewrite Hst|done].
    + rewrite emit_equiv, persist_equiv, releaseDedupe_equiv, !modify_modify.
      destruct (inv_detach _ _ _ _ r (fun r => releaseSettledRuntime (on_r_snapshot (fun n =>
          on_s_finishedAt (fun _ => Some now) (on_s_error (fun _ => Some (as_error error)) n))
            (set_status Failed r))) H1 Hr)
        as (s' & -> & H2 & Hr2 & Hx2 & _); [done..|].
      eapply inv_park; [exact H2|exact Hr2|done|by right|done|done| |by intros []].
      intros e' y. rewrite Hx2. apply Hq.
Qed.

Lemma inv_settle s now e outcome : inv None s -> inv None (settle locale s now e outcome).
Proof.
  intros H. unfold settle, get_execution. destruct (executions s !! e) as [x|] eqn:He; [simpl|done].
  destruct (store s !! x_record x) as [r|] eqn:Hr; [simpl|done]. destruct (x_settled x) eqn:Hs; [done|].
  apply inv_pump; [done|]. destruct outcome; [by eapply inv_settle_fulfilled|by eapply inv_settle_rejected].
Qed.

Lemma inv_timeout s e : inv None s -> inv None (timeout_fires s e).
Proof.
  intros H. unfold timeout_fires. destruct (executions s !! e) as [x|] eqn:He; [|done].
  destruct (_ && _); [|done]. destruct (inv_exec _ _ _ H e x He) as (y & _ & _ & _ & Hown).
  destruct H. constructor; try assumption.
  - intros j r Hj Hr. pose proof (inv_live j r Hj Hr) as (L1 & L2 & L3 & L4). split_and!; [done..|].
    destruct (s_status (r_snapshot r)); try done. destruct L4 as (? & ? & Hab & L4). split_and!; [done..| |done].
    unfold record_aborted, aborted in *. destruct (r_controller r) as [c|] eqn:Hc; [|done]. simpl.
    rewrite list_lookup_alter_ne; [done|]. intros <-. by apply (L4 e x He (eq_sym (Hown j r Hr Hc))).
  - simpl. by rewrite length_alter.
  - simpl. intros e' z Hz. rewrite length_alter. by apply (inv_exec e').
Qed.

(** * New records *)

Lemma find_map_set l id id' i :
  List.find (fun '(k, _) => bool_decide (k = id')) (map_set l id i) =
    if bool_decide (id = id') then Some (id, i) else List.find (fun '(k, _) => bool_decide (k = id')) l.
Proof.
  induction l as [|[k j] l IH]; simpl; [done|].
  destruct (bool_decide_reflect (k = id)) as [->|Hk]; simpl.
  - by destruct (bool_decide (id = id')).
  - rewrite IH. destruct (bool_decide_reflect (k = id')) as [->|]; [|done].
    by rewrite bool_decide_eq_false_2.
Qed.

Definition new_record s (w : work) (n : snapshot) (attempts readyAt : Z) (resumeFrom : option checkpoint) : record :=
  MkRecord (Some w) (Some (length (controllers s))) n (Some (length (promises s))) attempts readyAt
    (normalizePriority (w_priority w)) (w_dedupeKey w) false 0 resumeFrom.

Lemma inv_register s w n attempts readyAt resumeFrom v :
  inv None s -> find_record s (w_id w) = None -> s_id n = w_id w ->
  let i := length (store s) in let r := new_record s w n attempts readyAt resumeFrom in
  exists s1, fst (register s w n attempts readyAt resumeFrom v) ≡ s1 /\
    snd (register s w n attempts readyAt resumeFrom v) = i /\
    inv (Some (i, Some (length (promises s)))) s1 /\ store s1 !! i = Some r /\
    controllers s1 = controllers s ++ [false] /\ promises s1 = promises s ++ [v] /\ executions s1 = executions s.
Proof.
  intros H Hf Hn i r. unfold register. cbv zeta. fold i. cbn [fst snd].
  set (s1 := on_records _ _). exists s1. split; [apply registerDedupe_equiv|]. split; [done|].
  assert (Hi : store s1 !! i = Some r) by (by apply list_lookup_middle).
  assert (Hold : forall j x, store s1 !! j = Some x -> (j <> i /\ store s !! j = Some x) \/ (j = i /\ x = r)).
  { intros j x [Hx|[Hle Hx]]%lookup_app_Some.
    - left. split; [|done]. apply lookup_lt_Some in Hx. subst i. lia.
    - right. apply list_lookup_singleton_Some in Hx as [Hx <-]. split; [subst i; lia|done]. }
  assert (Hnew : forall j x, store s !! j = Some x -> store s1 !! j = Some x).
  { intros j x Hx. by apply lookup_app_l_Some. }
  assert (Hid : forall j, j < length (store s) -> ident s1 j = ident s j).
  { intros j Hj. unfold ident. simpl. by rewrite lookup_app_l. }
  assert (Hqd : forall j P, queued_at s j P -> queued_at s1 j P).
  { intros j P (x & Hx & ?). exists x. split; [by apply Hnew|done]. }
  assert (Hlt : forall j, in_queue s j -> j < length (store s)).
  { intros j Hj. destruct (queued_of _ _ _ _ H Hj) as (x & Hx & _). by eapply lookup_lt_Some. }
  assert (Hcmp : forall a b, in_queue s a -> in_queue s b ->
    compareScheduledRecords locale s1 a b = compareScheduledRecords locale s a b).
  { intros a b Ha Hb. unfold compareScheduledRecords, priority_of. rewrite !Hid by auto. simpl.
    by rewrite !lookup_app_l by auto. }
  assert (Hfind : forall id, find_record s1 id = if bool_decide (w_id w = id) then Some i else find_record s id).
  { intros id. unfold find_record. simpl. rewrite find_map_set. by case_bool_decide. }
  split; [|done]. destruct H. constructor; try assumption.
  - intros j x Hj Hx. rewrite not_hole_ne in Hj. destruct (Hold _ _ Hx) as [[_ Hx']|[? _]]; [|done].
    apply (live_record_ext s); [done| | |done|apply inv_live; [by intros [? ?]|done]].
    + intros c Hc. unfold aborted. simpl. rewrite lookup_app_l; [done|]. exact (inv_controller j x c Hx' Hc).
    + intros p Hp. simpl. rewrite lookup_app_l; [done|]. exact (inv_promise j x p Hx' Hp).
  - intros j x Hx. rewrite Hfind. destruct (Hold _ _ Hx) as [[_ Hx']|[-> ->]].
    + rewrite bool_decide_eq_false_2; [by apply inv_id|]. intros Heq. pose proof (inv_id j x Hx'). congruence.
    + simpl. rewrite Hn. by rewrite bool_decide_eq_true_2.
  - intros id j. rewrite Hfind. case_bool_decide as Hw.
    + intros [= <-]. subst id. unfold ident. rewrite Hi. split; [done|]. simpl. rewrite length_app. simpl. subst i. lia.
    + intros Hj. destruct (inv_records id j Hj) as [<- Hl]. rewrite Hid by done. split; [done|].
      simpl. rewrite length_app. lia.
  - intros j x c Hx Hc. simpl. rewrite length_app. simpl. destruct (Hold _ _ Hx) as [[_ Hx']|[-> ->]].
    + pose proof (inv_controller j x c Hx' Hc). lia.
    + simpl in Hc. simplify_eq. lia.
  - intros j x p Hx Hp. simpl. rewrite length_app. simpl. destruct (Hold _ _ Hx) as [[_ Hx']|[-> ->]].
    + pose proof (inv_promise j x p Hx' Hp). lia.
    + simpl in Hp. simplify_eq. lia.
  - eapply wf_queue_ext; [| |exact inv_fg]; intros; [apply Hid, Hlt|apply Hcmp]; by left.
  - eapply wf_queue_ext; [| |exact inv_bg]; intros; [apply Hid, Hlt|apply Hcmp]; by right; left.
  - eapply wf_queue_ext; [| |exact inv_delayed]; intros; [apply Hid, Hlt; by right; right|].
    unfold compareReadyRecords. rewrite Hcmp by (by right; right). unfold readyAt_of. simpl.
    by rewrite !lookup_app_l by (apply Hlt; by right; right).
  - intros j Hj. by apply Hqd, inv_fg_in.
  - intros j Hj. by apply Hqd, inv_bg_in.
  - intros j Hj. destruct (inv_delayed_in j Hj) as (? & ? & ?). split; [by apply Hqd|done].
  - intros j k x y c Hx Hy Hcx Hcy.
    destruct (Hold _ _ Hx) as [[_ Hx']|[-> ->]], (Hold _ _ Hy) as [[_ Hy']|[-> ->]]; [by eauto| | |done].
    + pose proof (inv_controller j x c Hx' Hcx). simpl in Hcy. simplify_eq. lia.
    + pose proof (inv_controller k y c Hy' Hcy). simpl in Hcx. simplify_eq. lia.
  - intros j k x y p Hx Hy Hpx Hpy.
    destruct (Hold _ _ Hx) as [[_ Hx']|[-> ->]], (Hold _ _ Hy) as [[_ Hy']|[-> ->]]; [by eauto| | |done].
    + pose proof (inv_promise j x p Hx' Hpx). simpl in Hpy. simplify_eq. lia.
    + pose proof (inv_promise k y p Hy' Hpy). simpl in Hpx. simplify_eq. lia.
  - intros j p [= <- <-]. simpl. rewrite length_app. simpl. split; [lia|]. intros k x Hx Hp.
    destruct (Hold _ _ Hx) as [[_ Hx']|[-> ->]]; [|done]. pose proof (inv_promise k x _ Hx' Hp). lia.
  - intros e x Hx. destruct (inv_exec e x Hx) as (y & Hy & Hg & Hl & Hown). exists y.
    split_and!; [by apply Hnew|done|simpl; rewrite length_app; lia|]. intros j z Hz Hc.
    destruct (Hold _ _ Hz) as [[_ Hz']|[-> ->]]; [by eauto|]. simpl in Hc. simplify_eq. lia.
  - intros p Hp. simpl in Hp. apply lookup_app_Some in Hp as [Hp|[Hle Hp]].
    + destruct (inv_pending p Hp) as [[j [=]]|(j & x & _ & Hx & ?)]. right. exists j, x.
      rewrite not_hole_ne. split_and!; [|by apply Hnew|tauto..]. apply lookup_lt_Some in Hx. subst i. lia.
    + left. exists i. apply list_lookup_singleton_Some in Hp as [Hp _]. do 3 f_equal. lia.
  - simpl. rewrite slots_app, inv_slots_fg. simpl. unfold slot_of. simpl. lia.
  - simpl. rewrite slots_app, inv_slots_bg. simpl. unfold slot_of. simpl. lia.
Qed.

Lemma inv_schedule s now w : inv None s -> inv None (fst (schedule locale s now w)).
Proof.
  intros H. unfold schedule. destruct (stopping s); [done|]. destruct (blank _); [done|].
  destruct (findDuplicate s (w_dedupeKey w)) as [s0 dup] eqn:E0.
  assert (Heq : s0 ≡ s) by (pose proof (findDuplicate_equiv s (w_dedupeKey w)) as Hq; by rewrite E0 in Hq).
  assert (H0 : inv None s0) by (by rewrite Heq). destruct dup; [done|].
  destruct (find_record s0 (w_id w)) eqn:Ef; [done|].
  set (s1 := started_if_idle s0).
  assert (H1 : inv None s1) by (unfold s1, started_if_idle; by rewrite lifecycle_equiv).
  assert (Ef1 : find_record s1 (w_id w) = None) by exact Ef. clearbody s1.
  set (n := MkSnapshot _ _ Queued _ _ _ _ _ _). set (ra := (now + _)%Z).
  destruct (inv_register s1 w n 0 ra None Pending H1 Ef1 eq_refl) as (s2 & Es & Ei & H2 & Hr & Hc & Hp & Hx).
  destruct (register s1 w n 0 ra None Pending) as [s3 i]. simpl in Es, Ei. subst i. cbn [fst].
  eapply (inv_arm_equiv _ _ s2); [by rewrite !emit_equiv, persist_equiv|exact H2|exact Hr|done|done|by eexists|done| | | |done| |by left].
  - rewrite Hc. by apply list_lookup_middle.
  - rewrite Hx. intros e x He _. destruct (inv_exec _ _ _ H1 e x He) as (? & _ & _ & ? & _). simpl in *. lia.
  - intros e x. rewrite Hx. intros He Hi _ _. destruct (inv_exec _ _ _ H1 e x He) as (y & Hy & _).
    apply lookup_lt_Some in Hy. lia.
  - rewrite Hp. by apply list_lookup_middle.
Qed.

Lemma inv_rehydrate_load s now w loaded :
  inv None s -> find_record s (w_id w) = None -> inv None (fst (rehydrate_load locale s now w loaded)).
Proof.
  intros H Hf. unfold rehydrate_load. destruct loaded as [t|]; [|done].
  destruct (negb _ || _) eqn:E1; [done|]. destruct (negb (bool_decide (t_mode t = _)) || _); [done|].
  destruct (isTerminal (t_status t) && _) eqn:E2; [done|].
  apply orb_false_iff in E1 as [_ E1]. apply negb_false_iff, bool_decide_eq_true in E1. cbv zeta.
  set (n1 := if bool_decide (t_status t = Running) then _ else _). set (n := on_s_attempts _ n1).
  assert (Hid : s_id n = w_id w) by (subst n n1; destruct (bool_decide (t_status t = Running)); exact E1).
  assert (Hst : s_status n = Queued \/ s_status n = Interrupted \/ s_status n = WaitingUser).
  { subst n n1. case_bool_decide as Er; simpl; [auto|]. destruct (t_status t); simpl in *; auto; done. }
  set (rf := if bool_decide (s_status n1 = Queued) then s_checkpoint n1 else None).
  set (v := if bool_decide (s_status n = Interrupted) || _ then _ else _).
  destruct (inv_register s w n (Z.max 0 (t_attempts t)) (t_readyAt t) rf v H Hf Hid)
    as (s2 & Es & Ei & H2 & Hr & Hc & Hp & Hx).
  destruct (register s w n _ _ rf v) as [s3 i]. simpl in Es, Ei. subst i. cbn [fst].
  assert (Hquiet : quiet s2 (length (store s)) 0).
  { intros e x. rewrite Hx. intros He Hi _ _. destruct (inv_exec _ _ _ H e x He) as (y & Hy & _).
    apply lookup_lt_Some in Hy. lia. }
  destruct (bool_decide (s_status n = Queued)) eqn:Eq.
  - apply bool_decide_eq_true in Eq.
    eapply (inv_arm_equiv _ _ s2); [by rewrite emit_equiv, <- Es|exact H2|exact Hr|exact Eq|done|by eexists|done| | |exact Hquiet|done| |by left].
    + rewrite Hc. by apply list_lookup_middle.
    + rewrite Hx. intros e x He _. destruct (inv_exec _ _ _ H e x He) as (? & _ & _ & ? & _). simpl in *. lia.
    + rewrite Hp. subst v. rewrite Eq. by apply list_lookup_middle.
  - apply bool_decide_eq_false in Eq.
    assert (Hclose : inv None s2).
    { assert (Hv : v = Resolved None) by (subst v; by destruct Hst as [?|[-> | ->]]).
      apply (inv_close _ _ _ _ _ H2 Hr).
      - split_and!; [| |by intros; split; eexists|].
        + split; [done|]. intros Es'. change (s_status n = Running) in Es'. destruct Hst as [?|[?|?]]; congruence.
        + intros e x He Hi Hs Hg. by destruct (Hquiet e x He Hi Hs).
        + assert (Hset : promise_settled s2 (new_record s w n (Z.max 0 (t_attempts t)) (t_readyAt t) rf) = true).
          { unfold promise_settled. simpl. rewrite Hp, list_lookup_middle by done. by rewrite Hv. }
          change (r_snapshot _) with n. destruct Hst as [?|[-> | ->]]; done.
      - intros p [= <-]. rewrite Hp, list_lookup_middle by done. by rewrite Hv. }
    assert (E : started_if_idle s3 ≡ s2) by (by rewrite <- Es).
    destruct (bool_decide (t_status t = Running)); rewrite ?persist_equiv; by rewrite E.
Qed.

Lemma rehydrate_check_fresh s w : rehydrate_check s w = Ok tt -> find_record s (w_id w) = None.
Proof.
  unfold rehydrate_check. repeat (case_match; [done|]). intros _.
  destruct (find_record s (w_id w)); [|done]. rewrite bool_decide_eq_true_2 in *; [done|eauto].
Qed.

Lemma inv_rehydrate s now w loaded : inv None s -> inv None (fst (rehydrate locale s now w loaded)).
Proof.
  intros H. unfold rehydrate. destruct (rehydrate_check s w) as [[]|] eqn:E; [|done].
  apply inv_rehydrate_load; [done|]. by apply rehydrate_check_fresh.
Qed.

Lemma inv_resume s now id cp : inv None s -> inv None (fst (resume locale s now id cp)).
Proof.
  intros H. unfold resume. destruct (stopping s); [done|].
  destruct (find_record s id ≫= _) as [[i r]|] eqn:E; [|done]. apply lookup_by_id in E as [_ Hr].
  destruct (negb _ && negb _) eqn:Est; [done|]. destruct (bool_decide _ && _); [done|].
  destruct (match cp with Some cp => Some <$> normalizeCheckpoint cp now | None => _ end) as [cp'|]; [|done].
  cbn [fst]. rewrite (modify_put _ _ _ r Hr). set (r' := MkRecord _ _ _ _ _ _ _ _ _ _ _).
  assert (Hin : active (s_status (r_snapshot r)) = false) by (by destruct (s_status (r_snapshot r))).
  destruct (inv_live _ _ _ H i r ltac:(by intros [? ?]) Hr) as (L1 & L2 & L3 & L4).
  assert (Hset : promise_settled s r = true) by (by destruct (s_status (r_snapshot r))).
  assert (Hni : ~ in_queue s i).
  { intros Hq. destruct (queued_of _ _ _ _ H Hq) as (x & Hx & Hs & _). simplify_eq. by rewrite Hs in Hin. }
  assert (H1 : inv (Some (i, None)) s).
  { pose proof (inv_settle_promise _ s i _ (Resolved None) (inv_open _ _ _ _ H Hr) ltac:(done)) as Hs.
    replace (settle_promise s (r_promise r) (Resolved None)) with s in Hs; [done|].
    unfold promise_settled in Hset. destruct (r_promise r) as [p|]; [|done]. simpl in *. destruct s. simpl in *.
    unfold on_promises. simpl. f_equal. symmetry. apply list_eq. intros j.
    destruct (decide (j = p)) as [->|]; [|by rewrite list_lookup_alter_ne].
    rewrite list_lookup_alter_eq. destruct (promises !! p) as [[]|]; done. }
  set (s1 := on_promises (fun l => l ++ [Pending]) (on_controllers (fun l => l ++ [false]) s)).
  assert (H2 : inv (Some (i, Some (length (promises s)))) s1)
    by (apply (inv_new_promise _ (on_controllers (fun l => l ++ [false]) s)); by apply inv_new_controller).
  assert (H3 : inv (Some (i, Some (length (promises s)))) (put s1 i r')).
  { apply (inv_put _ s1 i _ r); [done|done|done|simpl; lia| | |done|by intros Hq].
    - intros c [= <-]. right. exact (new_controller_fresh _ _ _ H).
    - intros p [= <-]. right. exact (new_promise_fresh _ _ _ H). }
  apply (inv_arm_equiv _ _ (put s1 i r') now i (Some (length (promises s))) r' (length (promises s)) (length (controllers s)));
    [|exact H3| |done| | |done| | | |done| |by left].
  - rewrite emit_equiv, persist_equiv. unfold started_if_idle. by rewrite lifecycle_equiv, registerDedupe_equiv.
  - simpl. apply list_lookup_insert_eq. by eapply lookup_lt_Some.
  - simpl. destruct (r_slotAcquired r); [|done]. rewrite (proj1 L1 eq_refl) in Hin. done.
  - simpl. apply L3; by destruct (s_status (r_snapshot r)).
  - by apply list_lookup_middle.
  - intros e x He _. destruct (inv_exec _ _ _ H e x He) as (? & _ & _ & ? & _). simpl in *. lia.
  - intros e x He Hi _ Hg. destruct (inv_exec _ _ _ H e x He) as (y & Hy & Hge & _). rewrite Hi in Hy.
    simplify_eq. simpl in Hg. lia.
  - by apply list_lookup_middle.
Qed.

(** * The life of the scheduler *)

Lemma inv_start_op s now : inv None s -> inv None (fst (start locale s now)).
Proof. intros H. unfold start. case_bool_decide; [done|]. simpl. apply inv_pump; [done|].
  by rewrite lifecycle_equiv.
Qed.

Lemma inv_ready_timer s now : inv None s -> inv None (ready_timer_fires locale s now).
Proof.
  intros H. unfold ready_timer_fires. destruct (readyTimer s); [|done].
  unfold schedulePump. rewrite pumpScheduled_equiv. apply inv_promoteReady; [done|].
  by rewrite readyTimer_equiv.
Qed.

Lemma inv_pump_microtask s now : inv None s -> inv None (pump_microtask locale s now).
Proof. intros H. unfold pump_microtask. destruct (pumpScheduled s); [|done].
  apply inv_pump; [done|]. by rewrite pumpScheduled_equiv.
Qed.

Lemma inv_stop_begin s now : inv None s -> inv None (stop_begin locale s now).
Proof.
  intros H. unfold stop_begin. case_bool_decide; [done|].
  set (s1 := on_lifecycle _ s). assert (H1 : inv None s1) by (unfold s1; by rewrite lifecycle_equiv).
  generalize (records s1). clearbody s1. clear -H1 Comparator0. intros l. revert s1 H1.
  induction l as [|[id i] l IH]; intros s1 H1; [done|]. simpl. apply IH.
  destruct (status_of s1 i); [|done]. destruct (_ && _); [|done]. by apply inv_interrupt.
Qed.

Lemma inv_stop_end s l : inv None s -> inv None (stop_end s l).
Proof. intros H. unfold stop_end. destruct (forallb _ _); [|done]. by rewrite lifecycle_equiv. Qed.

(** A load may finish only while the checks made before it still hold; any other event may
    happen at any time. *)
Definition orderly s (ev : event) : Prop :=
  match ev with EvLoadFinished w _ => rehydrate_check s w = Ok tt | _ => True end.

Lemma inv_step s now ev : inv None s -> orderly s ev -> inv None (step locale s now ev).
Proof.
  intros H Ho. destruct ev; simpl.
  - by apply inv_start_op.
  - by apply inv_schedule.
  - by apply inv_cancel.
  - by apply inv_checkpoint.
  - by apply inv_waitForUser.
  - by apply inv_interrupt.
  - by apply inv_resume.
  - by apply inv_rehydrate.
  - apply inv_rehydrate_load; [done|]. by apply rehydrate_check_fresh.
  - by apply inv_report_progress.
  - by apply inv_report_checkpoint.
  - by apply inv_timeout.
  - by apply inv_settle.
  - by apply inv_ready_timer.
  - by apply inv_pump_microtask.
  - by apply inv_stop_begin.
  - by apply inv_stop_end.
Qed.

Lemma inv_new maxFg maxBg pers : inv None (new_scheduler maxFg maxBg pers).
Proof.
  constructor; try done; try (intros; by rewrite lookup_nil in * ); try (intros; set_solver).
  all: try apply empty_queue_wf. all: simpl; try lia. all: intros ? H; inversion H.
Qed.

(** The states a scheduler can be in. *)
Inductive reachable (maxFg maxBg : option Z) (pers : bool) : scheduler -> Prop :=
| reachable_new : reachable maxFg maxBg pers (new_scheduler maxFg maxBg pers)
| reachable_step s now ev :
    reachable maxFg maxBg pers s -> orderly s ev -> reachable maxFg maxBg pers (step locale s now ev).

Lemma reachable_inv maxFg maxBg pers s : reachable maxFg maxBg pers s -> inv None s.
Proof. induction 1; [apply inv_new|by apply inv_step]. Qed.

(** [rehydrateAll] is a sequence of [rehydrate] calls. *)
Lemma rehydrateAll_reachable maxFg maxBg pers s now resolveWork load states :
  reachable maxFg maxBg pers s ->
  reachable maxFg maxBg pers (fst (rehydrateAll locale s now resolveWork load states)).
Proof.
  intros H. unfold rehydrateAll. destruct (negb _); [done|]. destruct states as [l|]; [|done].
  destruct (stopping s); [done|]. generalize (@nil nat). revert s H.
  induction l as [|t l IH]; intros s H handles; [done|]. simpl.
  destruct (_ && _); [by apply IH|]. destruct (resolveWork t) as [w|]; [|by apply IH].
  destruct (negb _); [done|].
  pose proof (reachable_step maxFg maxBg pers s now (EvRehydrate w (load (w_id w))) H I) as Hs. simpl in Hs.
  destruct (rehydrate _ _ _ _ _) as [s1 [h|e]]; [by apply IH|done].
Qed.
End Operations.

(** * Concrete runs *)

(** A [localeCompare] under which all identifiers compare equal, as strings that differ only
    in ignorable characters do. *)
Definition flat_locale (_ _ : string) : Z := 0.

#[export] Instance flat_locale_laws : Comparator flat_locale.
Proof. split; unfold flat_locale; intros; lia. Qed.

(** The loads of a run finish only while the checks made before them hold. *)
Fixpoint orderly_run (locale : string -> string -> Z) (s : scheduler) (trace : list (Z * event)) : Prop :=
  match trace with
  | [] => True
  | (now, ev) :: trace => orderly s ev /\ orderly_run locale (step locale s now ev) trace
  end.

Lemma reachable_run locale maxFg maxBg pers s trace :
  reachable locale maxFg maxBg pers s -> orderly_run locale s trace ->
  reachable locale maxFg maxBg pers (run locale s trace).
Proof.
  revert s. induction trace as [|[now ev] trace IH]; intros s H Ho; [done|].
  destruct Ho as [Ho Hr]. apply IH; [by apply reachable_step|done].
Qed.

Definition demo_work (id : string) (m : mode) (priority timeout : Z) : work :=
  MkWork id m (Some priority) None None (Some timeout) None None.

Definition demo_start : scheduler := new_scheduler (Some 1%Z) (Some 1%Z) true.

(** One running task of each pool, two queued foreground tasks of different priority and a
    debounced one; the pump of the last [schedule] is still pending. *)
Definition demo_trace : list (Z * event) :=
  [(0%Z, EvStart);
   (0%Z, EvSchedule (demo_work "a" Interactive 0 0));
   (0%Z, EvSchedule (demo_work "b" BackgroundMode 0 0));
   (1%Z, EvPump);
   (2%Z, EvSchedule (demo_work "c" ForegroundMode 1 0));
   (3%Z, EvSchedule (demo_work "d" Interactive 5 0));
   (3%Z, EvSchedule (MkWork "e" Batch None None (Some 50%Z) None None None));
   (4%Z, EvCancel "b")].

Definition demo_state : scheduler := run flat_locale demo_start demo_trace.

Lemma demo_reachable : reachable flat_locale (Some 1%Z) (Some 1%Z) true demo_state.
Proof. apply reachable_run; [apply reachable_new|]. repeat split. Qed.

(** The same after the operation of ["a"] has returned, before anything else ran. *)
Definition demo_settled : scheduler := step flat_locale demo_state 5 (EvSettle 0 (Ok "done"%string)).

Lemma demo_settled_reachable : reachable flat_locale (Some 1%Z) (Some 1%Z) true demo_settled.
Proof. by apply reachable_step; [apply demo_reachable|]. Qed.

(** * A load that finishes late *)

Definition late_work : work := demo_work "t" Interactive 0 0.

(** What the persistence layer returns: the state of a queued task. *)
Definition late_state : task_state :=
  MkTaskState "t" Interactive Queued
    (MkSnapshot "t" Interactive Queued None None None None (Some 0%Z) None) 0 0.

(** [rehydrate] passes its checks and awaits its load; meanwhile the same identifier is
    scheduled; then the load finishes, the new record runs, and the scheduler stops. *)
Definition late_trace : list (Z * event) :=
  [(0%Z, EvSchedule late_work);
   (1%Z, EvLoadFinished late_work (Some late_state));
   (2%Z, EvPump);
   (3%Z, EvSettle 0 (Ok "done"%string));
   (4%Z, EvStop);
   (5%Z, EvStopEnd [1])].

(** A rehydration that races a schedule strands a task.  The checks of [rehydrate] are
    not made again after its [await]: the record of a task scheduled meanwhile is replaced,
    its operation never starts, and its promise is still pending after the scheduler has
    stopped. *)
Theorem late_rehydrate_strands_a_task :
  rehydrate_check demo_start late_work = Ok tt /\
  snd (schedule flat_locale demo_start 0 late_work) = Ok 0 /\
  let s := run flat_locale demo_start late_trace in
  lifecycle s = Stopped /\ promises s !! 0 = Some Pending /\ status_of s 0 = Some Queued /\
  find_record s "t" = Some 1 /\ (x_record <$> executions s) = [1].
Proof. by vm_compute. Qed.

(** * A timeout with no attempt left *)

Definition timeout_trace : list (Z * event) :=
  [(0%Z, EvSchedule (demo_work "t" Interactive 0 10));
   (0%Z, EvPump);
   (10%Z, EvTimeout 0);
   (10%Z, EvSettle 0 (Err timeout_error))].

(** A task that times out on its last attempt is reported as cancelled.  The timer aborts
    the controller before it rejects, so the branch for cancelled work is taken: the status is
    not [Failed], no error is recorded, and the promise resolves with no value instead of
    rejecting with the timeout. *)
Theorem exhausted_timeout_is_cancelled :
  let s := run flat_locale demo_start timeout_trace in
  status_of s 0 = Some Cancelled /\ promises s !! 0 = Some (Resolved None) /\
  (s_error <$> (r_snapshot <$> store s !! 0)) = Some None /\
  map fst (emitted s) = [Created; EQueued; Started; ECancelled].
Proof. by vm_compute. Qed.
