(* ===== verification/SchedulerWake.v ===== *)
(** No wake-up is lost: whenever a queued task could start, a pump is pending, and the ready
    timer is armed for the earliest delayed task. *)

From S2P Require Import Prelude PriorityQueue Scheduler SchedulerProofs SchedulerOps.

Section Wake.
Context (locale : string -> string -> Z) `{!Comparator locale}.
Implicit Types (s : scheduler) (i e p c : nat) (r : record).
Abbreviation inv := (inv locale).
Abbreviation pumped := (pumped locale).

(** * The ready timer *)

Definition timer_ok s : Prop := readyTimer s = readyAt_of s <$> peek (delayedReady s).

Lemma timer_ok_view s s' : timer_view s' = timer_view s -> timer_ok s -> timer_ok s'.
Proof.
  unfold timer_view, timer_ok, readyAt_of. intros [= Ht Hd Hr]. rewrite Ht, Hd. intros ->.
  destruct (peek (delayedReady s)) as [i|]; [simpl|done]. by rewrite <- !list_lookup_fmap, Hr.
Qed.

Lemma timer_schedule s : timer_ok (scheduleReadyTimer s).
Proof.
  unfold scheduleReadyTimer, timer_ok. destruct (peek (delayedReady s)) as [i|] eqn:E.
  - case_bool_decide as Ht; simpl; rewrite E; [exact Ht|done].
  - simpl. by rewrite E.
Qed.

Lemma pump_loop_timer fuel s now : timer_view (pump_loop locale fuel s now) = timer_view s.
Proof.
  revert s. induction fuel as [|fuel IH]; intros s; [done|]. cbn [pump_loop]. cbv zeta.
  assert (Hnext : forall o s1, timer_view s1 = timer_view s ->
    timer_view (match o with
      | Some i => match store s1 !! i with
                  | Some r => if negb (bool_decide (s_status (r_snapshot r) = Queued)) || record_aborted s1 r
                              then pump_loop locale fuel s1 now
                              else pump_loop locale fuel (execute (acquireSlot s1 i) now i) now
                  | None => pump_loop locale fuel s1 now
                  end
      | None => pump_loop locale fuel s1 now end) = timer_view s).
  { intros [i|] s1 <-; [|by rewrite IH]. destruct (store s1 !! i); [|by rewrite IH].
    destruct (_ || _); rewrite IH; [done|]. by apply start_frame. }
  repeat match goal with
  | |- context [if ?c then _ else _] => destruct c
  | |- context [match ?o with None => _ | Some _ => _ end] =>
      lazymatch o with peek _ => destruct o end
  end; try done; destruct (PriorityQueue.pop _ _ _) as [o q]; by apply (Hnext o).
Qed.

Lemma timer_pump s now : timer_ok s -> timer_ok (pump locale s now).
Proof.
  intros H. unfold pump. destruct (stopping s); [done|].
  apply (timer_ok_view (promoteReady locale s now)); [apply pump_loop_timer|]. apply timer_schedule.
Qed.

Lemma timer_removeReady s i : timer_ok s -> timer_ok (removeReady locale s i true).
Proof.
  intros H. unfold removeReady. destruct (store s !! i) as [r|]; [|done].
  set (s1 := if isForegroundMode _ then _ else _).
  assert (H1 : timer_ok s1) by (subst s1; by destruct (isForegroundMode _)).
  replace (delayedReady s) with (delayedReady s1) by (subst s1; by destruct (isForegroundMode _)).
  unfold PriorityQueue.remove. destruct (positions (delayedReady s1) !! _).
  - apply timer_schedule.
  - simpl. revert H1. clear. by destruct s1.
Qed.

Lemma timer_arm s now i : timer_ok s -> timer_ok (arm locale s now i).
Proof.
  intros H. unfold arm. destruct (store s !! i); [|done].
  destruct (r_readyAt _ <=? now)%Z; apply timer_schedule.
Qed.

Lemma timer_arm_in s now i r : store s !! i = Some r -> timer_ok (arm locale s now i).
Proof. intros Hr. unfold arm. rewrite Hr. destruct (r_readyAt _ <=? now)%Z; apply timer_schedule. Qed.

Lemma timer_persist s i : timer_ok s -> timer_ok (persist s i).
Proof. apply timer_ok_view, timer_view_persist. Qed.
Lemma timer_emit s ty id : timer_ok s -> timer_ok (emit s ty id).
Proof. apply timer_ok_view, timer_view_emit. Qed.
Lemma timer_releaseSlot s i : timer_ok s -> timer_ok (releaseSlot s i).
Proof. apply timer_ok_view, timer_view_releaseSlot. Qed.
Lemma timer_modify s i f : (forall r, r_readyAt (f r) = r_readyAt r) -> timer_ok s -> timer_ok (modify s i f).
Proof. intros Hf. by apply timer_ok_view, timer_view_modify. Qed.
Lemma timer_settle s (p : option nat) v : timer_ok s -> timer_ok (settle_promise s p v).
Proof. apply timer_ok_view. by destruct p. Qed.
Lemma timer_abort s (c : option nat) : timer_ok s -> timer_ok (abort s c).
Proof. apply timer_ok_view. by destruct c. Qed.
Lemma timer_releaseDedupe s i : timer_ok s -> timer_ok (releaseDedupe s i).
Proof. apply timer_ok_view. unfold releaseDedupe. by repeat case_match. Qed.
Lemma timer_findDuplicate s k : timer_ok s -> timer_ok (fst (findDuplicate s k)).
Proof. apply timer_ok_view. unfold findDuplicate. by repeat case_match. Qed.

Create HintDb timer.
#[local] Hint Resolve timer_pump timer_removeReady timer_arm timer_persist timer_emit timer_releaseSlot
  timer_modify timer_settle timer_abort timer_releaseDedupe : timer.

Lemma timer_finishCancelled s now i : timer_ok s -> timer_ok (finishCancelled locale s now i).
Proof.
  intros H. unfold finishCancelled. destruct (store s !! i); [|done]. destruct (_ || _); [done|].
  auto 20 with timer.
Qed.

Lemma timer_recordCheckpoint s now i cp g : timer_ok s -> timer_ok (fst (recordCheckpoint s now i cp g)).
Proof.
  intros H. unfold recordCheckpoint. destruct (store s !! i); [|done]. destruct (_ || _); [done|].
  destruct (normalizeCheckpoint cp now); [|done]. cbn [fst]. auto with timer.
Qed.
#[local] Hint Resolve timer_finishCancelled timer_recordCheckpoint : timer.

Lemma timer_cancel s now id : timer_ok s -> timer_ok (fst (cancel locale s now id)).
Proof.
  intros H. unfold cancel. destruct (_ ≫= _) as [[i r]|]; [|done]. destruct (_ || _); [done|]. cbn [fst].
  destruct (_ || _); auto 10 with timer.
Qed.

Lemma timer_interrupt s now id : timer_ok s -> timer_ok (fst (interrupt locale s now id)).
Proof.
  intros H. unfold interrupt. destruct (_ ≫= _) as [[i r]|]; [|done]. destruct (_ || _); [done|]. cbn [fst].
  auto 20 with timer.
Qed.

Lemma timer_waitForUser s now id cp : timer_ok s -> timer_ok (fst (waitForUser locale s now id cp)).
Proof.
  intros H. unfold waitForUser. destruct (_ ≫= _) as [[i r]|]; [|done]. destruct (negb _); [done|].
  destruct (match cp with Some _ => _ | None => _ end) as [s0 b] eqn:E.
  assert (H0 : timer_ok s0).
  { destruct cp as [cp|]; [|by simplify_eq]. apply (f_equal fst) in E. simpl in E. subst. auto with timer. }
  destruct (negb b); [done|]. destruct (_ ≫= _); [|done]. cbn [fst]. auto 20 with timer.
Qed.

Lemma releaseSlot_length s i : length (store (releaseSlot s i)) = length (store s).
Proof.
  unfold releaseSlot. repeat case_match; try done. simpl. by rewrite length_alter, store_count.
Qed.

Lemma timer_settle_exec s now e outcome : timer_ok s -> timer_ok (settle locale s now e outcome).
Proof.
  intros H. unfold settle, get_execution. destruct (executions s !! e) as [x|]; [simpl|done].
  destruct (store s !! x_record x) as [r|] eqn:Hr; [simpl|done]. destruct (x_settled x); [done|].
  apply timer_pump. set (s1 := on_executions _ s). assert (H1 : timer_ok s1) by done.
  destruct outcome as [v|error].
  - unfold settle_fulfilled. destruct (negb _); [done|]. destruct (aborted _ _); auto 20 with timer.
  - unfold settle_rejected. destruct (negb _); [done|].
    destruct (isRetryable error && _); [|destruct (aborted _ _); unfold set_status; auto 20 with timer].
    match goal with |- timer_ok (arm _ ?t _ ?i) => destruct (lookup_lt_is_Some_2 (store t) i) as [y Hy] end;
      [|by eapply timer_arm_in].
    rewrite (store_proper _ _ (emit_equiv _ _ _)), (store_proper _ _ (persist_equiv _ _)).
    simpl. rewrite length_alter, releaseSlot_length. by eapply lookup_lt_Some.
Qed.
#[local] Hint Resolve timer_cancel timer_interrupt timer_waitForUser timer_settle_exec : timer.

Lemma timer_schedule_op s now w : timer_ok s -> timer_ok (fst (schedule locale s now w)).
Proof.
  intros H. unfold schedule. destruct (stopping s); [done|]. destruct (blank _); [done|].
  pose proof (timer_findDuplicate s (w_dedupeKey w) H) as H0.
  destruct (findDuplicate s (w_dedupeKey w)) as [s0 [d|]]; [done|]. simpl in H0.
  destruct (find_record s0 (w_id w)); [done|].
  destruct (register _ _ _ _ _ _ _) as [s1 i] eqn:E. cbn [fst].
  assert (Hi : exists r, store s1 !! i = Some r).
  { unfold register in E. simplify_eq. rewrite (store_proper _ _ (registerDedupe_equiv _ _)).
    simpl. eexists. by apply list_lookup_middle. }
  destruct Hi as [r Hi]. eapply (timer_arm_in _ _ _ r).
  by rewrite !(store_proper _ _ (emit_equiv _ _ _)), (store_proper _ _ (persist_equiv _ _)).
Qed.

Lemma timer_register s w n a t rf v :
  (forall i, peek (delayedReady s) = Some i -> i < length (store s)) ->
  timer_ok s -> timer_ok (fst (register s w n a t rf v)).
Proof.
  intros Hlt H. unfold register. cbn [fst].
  set (s1 := on_records _ _). assert (H1 : timer_ok s1).
  { unfold timer_ok in *. simpl. rewrite H. destruct (peek (delayedReady s)) as [i|] eqn:E; [simpl|done].
    unfold readyAt_of. simpl. by rewrite lookup_app_l by auto. }
  revert H1. apply timer_ok_view. unfold registerDedupe. by repeat case_match.
Qed.

Lemma peek_delayed_bound s : inv None s -> forall i, peek (delayedReady s) = Some i -> i < length (store s).
Proof.
  intros H i Hi%peek_in. destruct (inv_delayed_in _ _ _ H i Hi) as ((r & Hr & _) & _). by eapply lookup_lt_Some.
Qed.

Lemma timer_rehydrate_load s now w loaded :
  inv None s -> timer_ok s -> timer_ok (fst (rehydrate_load locale s now w loaded)).
Proof.
  intros Hinv H. unfold rehydrate_load. destruct loaded as [t|]; [|done].
  destruct (negb _ || _); [done|]. destruct (negb (bool_decide (t_mode t = _)) || _); [done|].
  destruct (isTerminal (t_status t) && _); [done|]. cbv zeta.
  match goal with |- context [register ?s ?w ?n ?a ?t ?rf ?v] =>
    pose proof (timer_register s w n a t rf v (peek_delayed_bound s Hinv) H) as H1;
    destruct (register s w n a t rf v) as [s1 i] end.
  simpl in H1. cbn [fst]. assert (H2 : timer_ok (started_if_idle s1)) by done.
  repeat case_match; auto with timer.
Qed.

Lemma timer_resume s now id cp : timer_ok s -> timer_ok (fst (resume locale s now id cp)).
Proof.
  intros H. unfold resume. destruct (stopping s); [done|].
  destruct (find_record s id ≫= _) as [[i r]|] eqn:E; [|done]. apply lookup_by_id in E as [_ Hr].
  destruct (negb _ && negb _); [done|]. destruct (bool_decide _ && _); [done|].
  destruct (match cp with Some cp => Some <$> normalizeCheckpoint cp now | None => _ end) as [cp'|]; [|done].
  cbn [fst]. eapply timer_arm_in.
  rewrite (store_proper _ _ (emit_equiv _ _ _)), (store_proper _ _ (persist_equiv _ _)).
  unfold started_if_idle. rewrite (store_proper _ _ (lifecycle_equiv _ _)), (store_proper _ _ (registerDedupe_equiv _ _)).
  simpl. by rewrite list_lookup_alter_eq, Hr.
Qed.

Lemma timer_step s now ev : inv None s -> timer_ok s -> timer_ok (step locale s now ev).
Proof.
  intros Hinv H. destruct ev; simpl; auto with timer.
  - unfold start. case_bool_decide; [done|]. simpl. by apply timer_pump.
  - by apply timer_schedule_op.
  - unfold checkpoint_op. destruct (_ ≫= _) as [[i r]|]; [|done]. destruct (negb _); [done|]. auto with timer.
  - by apply timer_resume.
  - unfold rehydrate. destruct (rehydrate_check s w); [by apply timer_rehydrate_load|done].
  - by apply timer_rehydrate_load.
  - unfold report_progress. destruct (get_execution s e) as [[x r]|]; [|done]. destruct (_ || _); auto with timer.
  - unfold report_checkpoint. destruct (_ !! _); auto with timer.
  - unfold timeout_fires. repeat case_match; auto with timer.
  - unfold ready_timer_fires. destruct (readyTimer s); [|done]. apply timer_schedule.
  - unfold pump_microtask. destruct (pumpScheduled s); [|done]. by apply timer_pump.
  - unfold stop_begin. case_bool_decide; [done|]. set (s1 := on_lifecycle _ s).
    assert (H1 : timer_ok s1) by done. generalize (records s1). clearbody s1. clear -H1 Comparator0.
    intros l. revert s1 H1. induction l as [|[id i] l IH]; intros s1 H1; [done|]. simpl. apply IH.
    destruct (status_of s1 i); [|done]. destruct (_ && _); auto with timer.
  - unfold stop_end. by destruct (forallb _ _).
Qed.

(** * The pump *)

(** Either the scheduler is shutting down, or a pump is pending, or nothing could start. *)
Definition work_ok s : Prop := stopping s = true \/ pumpScheduled s = true \/ saturated s.

Definition work_view s :=
  (stopping s, pumpScheduled s, entries (foregroundReady s), entries (backgroundReady s),
   (maxForeground s, maxBackground s, runningForeground s, runningBackground s)).

Lemma work_ok_view s s' : work_view s' = work_view s -> work_ok s -> work_ok s'.
Proof.
  unfold work_view, work_ok, saturated. intros [= Hs Hp Hf Hb Hmf Hmb Hrf Hrb].
  by rewrite Hs, Hp, Hf, Hb, Hmf, Hmb, Hrf, Hrb.
Qed.

Lemma work_pump s now : inv None s -> work_ok (pump locale s now).
Proof.
  intros H. unfold pump. destruct (stopping s) eqn:E; [by left|]. right. right.
  apply pump_loop_spec; [done|by apply inv_promoteReady|done].
Qed.

Lemma work_pumped now s : pumped now s -> work_ok s.
Proof. intros (s0 & -> & H). by apply work_pump. Qed.

Lemma remove_empty (ident : nat -> string) (cmp : nat -> nat -> Z) (q : queue nat) id :
  entries q = [] -> entries (snd (PriorityQueue.remove ident cmp q id)) = [].
Proof.
  intros He. unfold PriorityQueue.remove. destruct (positions q !! id) as [i|]; [|done].
  unfold removeAt. rewrite He. by destruct i.
Qed.

Lemma work_removeReady s i b : work_ok s -> work_ok (removeReady locale s i b).
Proof.
  intros H. unfold removeReady. destruct (store s !! i) as [r|]; [|done].
  set (s1 := if isForegroundMode _ then _ else _).
  assert (H1 : work_ok s1).
  { subst s1. destruct H as [H|[H|[Hf Hb]]]; [left|right; left|right; right].
    - by destruct (isForegroundMode _).
    - by destruct (isForegroundMode _).
    - destruct (isForegroundMode _); (split; simpl; [destruct Hf as [Hf|Hf]|destruct Hb as [Hb|Hb]]); auto;
        right; by apply remove_empty. }
  clearbody s1. destruct (PriorityQueue.remove _ _ _ _) as [rd d].
  assert (H2 : work_ok (on_delayedReady (fun _ => d) s1)) by exact H1.
  destruct (rd && b); [|exact H2]. revert H2. apply work_ok_view.
  unfold scheduleReadyTimer. by repeat case_match.
Qed.

Lemma work_timer s : work_ok s -> work_ok (scheduleReadyTimer s).
Proof. apply work_ok_view. unfold scheduleReadyTimer. by repeat case_match. Qed.

Lemma work_arm s now i : work_ok s -> work_ok (arm locale s now i).
Proof.
  intros H. unfold arm. destruct (store s !! i) as [r|]; [|done].
  apply (work_removeReady s i false) in H. set (s1 := removeReady locale s i false) in *. clearbody s1.
  destruct (r_readyAt r <=? now)%Z; [by right; left|]. apply work_timer.
  destruct (_ && _); exact H.
Qed.

Lemma work_persist s i : work_ok s -> work_ok (persist s i).
Proof. apply work_ok_view. unfold persist. by repeat case_match. Qed.
Lemma work_emit s ty id : work_ok s -> work_ok (emit s ty id).
Proof. apply work_ok_view. unfold emit. by repeat case_match. Qed.
Lemma work_registerDedupe s i : work_ok s -> work_ok (registerDedupe s i).
Proof. apply work_ok_view. unfold registerDedupe. by repeat case_match. Qed.
Lemma work_findDuplicate s k : work_ok s -> work_ok (fst (findDuplicate s k)).
Proof. apply work_ok_view. unfold findDuplicate. by repeat case_match. Qed.
Lemma work_started s : work_ok s -> work_ok (started_if_idle s).
Proof.
  apply work_ok_view. unfold started_if_idle, work_view. simpl. do 4 f_equal.
  unfold stopping. simpl. by destruct (lifecycle s).
Qed.
Lemma work_register s w n a t rf v : work_ok s -> work_ok (fst (register s w n a t rf v)).
Proof. intros H. unfold register. cbn [fst]. apply work_registerDedupe. exact H. Qed.

#[local] Hint Resolve work_pumped work_arm work_persist work_emit work_registerDedupe work_findDuplicate
  work_started work_register work_timer : work.

Lemma work_recordCheckpoint s now i cp g : work_ok s -> work_ok (fst (recordCheckpoint s now i cp g)).
Proof.
  intros H. unfold recordCheckpoint. destruct (store s !! i); [|done]. destruct (_ || _); [done|].
  destruct (normalizeCheckpoint cp now); [|done]. cbn [fst]. by apply work_emit, work_persist.
Qed.

Lemma work_interrupt s now id : inv None s -> work_ok s -> work_ok (fst (interrupt locale s now id)).
Proof. intros Hi H. destruct (interrupt_pumped locale s now id Hi) as [->|?]; eauto with work. Qed.

Lemma work_schedule_op s now w : work_ok s -> work_ok (fst (schedule locale s now w)).
Proof.
  intros H. unfold schedule. destruct (stopping s); [done|]. destruct (blank _); [done|].
  pose proof (work_findDuplicate s (w_dedupeKey w) H) as H0.
  destruct (findDuplicate s (w_dedupeKey w)) as [s0 [d|]]; [done|]. simpl in H0.
  destruct (find_record s0 (w_id w)); [done|].
  match goal with |- context [register ?s ?w ?n ?a ?t ?rf ?v] =>
    pose proof (work_register s w n a t rf v (work_started _ H0)) as H1;
    destruct (register s w n a t rf v) as [s1 i] end.
  simpl in H1. cbn [fst]. auto with work.
Qed.

Lemma work_rehydrate_load s now w loaded : work_ok s -> work_ok (fst (rehydrate_load locale s now w loaded)).
Proof.
  intros H. unfold rehydrate_load. destruct loaded as [t|]; [|done].
  destruct (negb _ || _); [done|]. destruct (negb (bool_decide (t_mode t = _)) || _); [done|].
  destruct (isTerminal (t_status t) && _); [done|]. cbv zeta.
  match goal with |- context [register ?s ?w ?n ?a ?t ?rf ?v] =>
    pose proof (work_register s w n a t rf v H) as H1;
    destruct (register s w n a t rf v) as [s1 i] end.
  simpl in H1. cbn [fst]. repeat case_match; auto with work.
Qed.

Lemma work_resume s now id cp : work_ok s -> work_ok (fst (resume locale s now id cp)).
Proof.
  intros H. unfold resume. destruct (stopping s); [done|].
  destruct (find_record s id ≫= _) as [[i r]|]; [|done].
  destruct (negb _ && negb _); [done|]. destruct (bool_decide _ && _); [done|].
  destruct (match cp with Some cp => Some <$> normalizeCheckpoint cp now | None => _ end) as [cp'|]; [|done].
  cbn [fst]. apply work_arm, work_emit, work_persist, work_started, work_registerDedupe. exact H.
Qed.

Lemma work_step s now ev : inv None s -> work_ok s -> work_ok (step locale s now ev).
Proof.
  intros Hi H. destruct ev; simpl.
  - unfold start. case_bool_decide; [done|]. simpl. apply work_pump. by rewrite lifecycle_equiv.
  - by apply work_schedule_op.
  - destruct (cancel_pumped locale s now id Hi) as [->|?]; eauto with work.
  - unfold checkpoint_op. destruct (_ ≫= _) as [[i r]|]; [|done]. destruct (negb _); [done|].
    by apply work_recordCheckpoint.
  - destruct (waitForUser_pumped locale s now id cp Hi) as [->|[(i & cp' & g & ->)|?]];
      [done|by apply work_recordCheckpoint|by eapply work_pumped].
  - by apply work_interrupt.
  - by apply work_resume.
  - unfold rehydrate. destruct (rehydrate_check s w); [by apply work_rehydrate_load|done].
  - by apply work_rehydrate_load.
  - unfold report_progress. destruct (get_execution s e) as [[x r]|]; [|done]. destruct (_ || _); [done|].
    apply work_emit. exact H.
  - unfold report_checkpoint. destruct (_ !! _); [by apply work_recordCheckpoint|done].
  - unfold timeout_fires. destruct (_ !! _); [|done]. by destruct (_ && _).
  - unfold settle, get_execution. destruct (executions s !! e) as [x|] eqn:He; [simpl|done].
    destruct (store s !! x_record x) as [r|] eqn:Hr; [simpl|done]. destruct (x_settled x) eqn:Hs; [done|].
    apply work_pump. destruct outcome; [by eapply inv_settle_fulfilled|by eapply inv_settle_rejected].
  - unfold ready_timer_fires. destruct (readyTimer s); [by right; left|done].
  - unfold pump_microtask. destruct (pumpScheduled s); [|done]. apply work_pump. by rewrite pumpScheduled_equiv.
  - unfold stop_begin. case_bool_decide; [done|]. set (s1 := on_lifecycle _ s).
    assert (H1 : inv None s1 /\ work_ok s1).
    { split; [unfold s1; by rewrite lifecycle_equiv|]. left. done. }
    generalize (records s1). clearbody s1. clear -H1 Comparator0.
    intros l. revert s1 H1. induction l as [|[id i] l IH]; intros s1 [H1 H2]; [done|]. simpl. apply IH.
    destruct (status_of s1 i); [|done]. destruct (_ && _); [|done].
    split; [by apply inv_interrupt|by apply work_interrupt].
  - unfold stop_end. destruct (forallb _ _); [|done]. left. done.
Qed.
End Wake.
