(* ===== verification/SchedulerStop.v ===== *)
(** Shutdown of the task scheduler: after [stop] nothing runs and nothing will, unless the
    scheduler is started again before the stop has ended. *)

From S2P Require Import Prelude PriorityQueue Scheduler SchedulerProofs SchedulerOps.

Section Stop.
Context (locale : string -> string -> Z) `{!Comparator locale}.
Implicit Types (s : scheduler) (i e p c : nat) (r : record).
Abbreviation reachable := (reachable locale).
Abbreviation inv := (inv locale).

(** * What an operation does to the statuses and the lifecycle *)

Definition same_statuses s s' : Prop :=
  lifecycle s' = lifecycle s /\ records s' = records s /\ forall j, status_of s' j = status_of s j.

#[export] Instance same_statuses_refl : Reflexive same_statuses.
Proof. by intros s. Qed.
#[export] Instance same_statuses_trans : Transitive same_statuses.
Proof. intros s1 s2 s3 (L1 & R1 & H1) (L2 & R2 & H2). split_and!; [congruence..|]. intros j. by rewrite H2. Qed.

Lemma statuses_modify s i f :
  (forall r, s_status (r_snapshot (f r)) = s_status (r_snapshot r)) -> same_statuses s (modify s i f).
Proof.
  intros Hf. split_and!; [done..|]. intros j. unfold status_of. simpl.
  destruct (decide (i = j)) as [->|Hne]; [|by rewrite list_lookup_alter_ne].
  rewrite list_lookup_alter_eq. destruct (store s !! j) as [r|]; [|done]. simpl. by rewrite Hf.
Qed.

Lemma statuses_emit s ty id : same_statuses s (emit s ty id).
Proof. unfold emit. by repeat case_match. Qed.
Lemma statuses_persist s i : same_statuses s (persist s i).
Proof. unfold persist. by repeat case_match. Qed.
Lemma statuses_settle s (p : option nat) v : same_statuses s (settle_promise s p v).
Proof. by destruct p. Qed.
Lemma statuses_abort s (c : option nat) : same_statuses s (abort s c).
Proof. by destruct c. Qed.
Lemma statuses_timer s : same_statuses s (scheduleReadyTimer s).
Proof. unfold scheduleReadyTimer. by repeat case_match. Qed.

Lemma statuses_removeReady s i b : same_statuses s (removeReady locale s i b).
Proof.
  unfold removeReady. destruct (store s !! i); [|done]. cbv zeta.
  destruct (PriorityQueue.remove _ _ _ _) as [rd d].
  destruct (_ && b); [etrans; [|apply statuses_timer]|]; by destruct (isForegroundMode _).
Qed.

Lemma statuses_releaseSlot s i : same_statuses s (releaseSlot s i).
Proof.
  unfold releaseSlot. destruct (store s !! i) as [r|]; [|done]. destruct (negb _); [done|].
  etrans; [|by apply statuses_modify]. unfold count_slot. by destruct (isForegroundMode _).
Qed.

(** [interrupt] of a live record while stopping: that record becomes interrupted. *)
Lemma interrupt_stopping s now i r :
  inv None s -> lifecycle s = Stopping -> store s !! i = Some r -> active (s_status (r_snapshot r)) = true ->
  let s' := fst (interrupt locale s now (ident s i)) in
  lifecycle s' = Stopping /\ records s' = records s /\ status_of s' i = Some Interrupted /\
  forall j, j <> i -> status_of s' j = status_of s j.
Proof.
  intros H Hl Hr Ha. assert (Hid : ident s i = s_id (r_snapshot r)) by (unfold ident; by rewrite Hr).
  unfold interrupt. rewrite Hid, (inv_id _ _ _ H i r Hr). cbn [mbind option_bind]. rewrite Hr. simpl.
  replace (_ || _) with false by (by destruct (s_status (r_snapshot r))). cbn [fst].
  match goal with |- context [modify (releaseSlot ?t i) i ?f] =>
    assert (S1 : same_statuses s (releaseSlot t i)); [|set (s1 := releaseSlot t i) in *; set (g := f)] end.
  { etrans; [|apply statuses_releaseSlot]. etrans; [|apply statuses_removeReady].
    etrans; [|apply statuses_abort]. by apply statuses_modify. }
  match goal with |- context [pump locale ?t now] =>
    assert (S2 : same_statuses (modify s1 i g) t) end.
  { etrans; [|apply statuses_settle]. etrans; [|apply statuses_emit]. apply statuses_persist. }
  destruct S1 as (L1 & R1 & S1), S2 as (L2 & R2 & S2).
  unfold pump. unfold stopping. rewrite L2. cbn [modify lifecycle on_store]. rewrite L1, Hl.
  rewrite bool_decide_eq_true_2 by auto. split_and!.
  - rewrite L2. simpl. by rewrite L1.
  - rewrite R2. simpl. by rewrite R1.
  - rewrite S2. unfold status_of. simpl. rewrite list_lookup_alter_eq.
    specialize (S1 i). unfold status_of in S1. rewrite Hr in S1. by destruct (store s1 !! i).
  - intros j Hj. rewrite S2, <- S1. unfold status_of. simpl. by rewrite list_lookup_alter_ne.
Qed.

(** * The loop of [stop] *)

Definition inactive s i : Prop := forall st, status_of s i = Some st -> active st = false.

Definition stop_one now s i : scheduler :=
  match status_of s i with
  | Some st =>
      if negb (isTerminal st) && negb (bool_decide (st = Interrupted))
      then fst (interrupt locale s now (ident s i)) else s
  | None => s
  end.

Lemma stop_one_spec now s i :
  inv None s -> lifecycle s = Stopping ->
  inv None (stop_one now s i) /\ lifecycle (stop_one now s i) = Stopping /\ inactive (stop_one now s i) i /\
  forall j, inactive s j -> inactive (stop_one now s i) j.
Proof.
  intros H Hl. unfold stop_one. destruct (status_of s i) as [st|] eqn:Est.
  2: { split_and!; [done..| |done]. intros st' E. congruence. }
  destruct (store s !! i) as [r|] eqn:Hr; [|unfold status_of in Est; by rewrite Hr in Est].
  assert (Hst : s_status (r_snapshot r) = st) by (unfold status_of in Est; rewrite Hr in Est; by simplify_eq/=).
  destruct (negb _ && negb _) eqn:Ea.
  - destruct (interrupt_stopping s now i r H Hl Hr) as (H1 & _ & H2 & H3).
    { rewrite Hst. by destruct st. }
    split_and!; [by apply inv_interrupt|done|intros st' E; by simplify_eq/=|].
    intros j Hj st' E. destruct (decide (j = i)) as [->|Hne]; [by simplify_eq/=|]. apply Hj. by rewrite <- H3.
  - split_and!; [done..| |done]. intros st' E. assert (st' = st) as -> by congruence. by destruct st.
Qed.

Lemma stop_loop now (l : list (string * nat)) s :
  inv None s -> lifecycle s = Stopping ->
  let s' := foldl (fun s '(_, i) => stop_one now s i) s l in
  inv None s' /\ lifecycle s' = Stopping /\ (forall j, inactive s j -> inactive s' j) /\
  forall id i, (id, i) ∈ l -> inactive s' i.
Proof.
  revert s. induction l as [|[id i] l IH]; intros s H Hl; simpl.
  - split_and!; [done..|]. intros ? ? Hin. inversion Hin.
  - destruct (stop_one_spec now s i H Hl) as (H1 & H2 & H3 & H4).
    destruct (IH _ H1 H2) as (I1 & I2 & I3 & I4). split_and!; [done..| |].
    + auto.
    + intros id' j [[= -> ->]|Hin]%elem_of_cons; eauto.
Qed.

Lemma find_record_in s id i : find_record s id = Some i -> exists k, (k, i) ∈ records s.
Proof.
  unfold find_record. intros E. destruct (List.find _ _) as [[k j]|] eqn:F; [|done]. simplify_eq/=.
  apply List.find_some in F as [F _]. exists k. by apply list_elem_of_In.
Qed.


Lemma stop_begin_inactive s now : inv None s -> lifecycle s <> Stopped ->
  inv None (stop_begin locale s now) /\ lifecycle (stop_begin locale s now) = Stopping /\ forall i, inactive (stop_begin locale s now) i.
Proof.
  intros H Hl. unfold stop_begin. rewrite bool_decide_eq_false_2 by done.
  set (s0 := on_lifecycle _ s).
  assert (H0 : inv None s0) by (unfold s0; by rewrite lifecycle_equiv).
  change (foldl _ s0 _) with (foldl (fun s '(_, i) => stop_one now s i) s0 (records s0)).
  destruct (stop_loop now (records s0) s0 H0 eq_refl) as (H1 & L1 & K & A). set (s1 := foldl _ _ _) in *.
  split_and!; [done|done|]. intros i. destruct (store s0 !! i) as [r|] eqn:E.
  - destruct (find_record_in s0 _ i (inv_id _ _ _ H0 i r E)) as [k Hk]. by eapply A.
  - apply K. intros st Hst. unfold status_of in Hst. by rewrite E in Hst.
Qed.

(** * A scheduler that stops stays stopped *)

(** It is stopping, and nothing in it is queued or running. *)
Definition halted s : Prop := stopping s = true /\ forall i, inactive s i.



Lemma halted_same s s' : same_statuses s s' -> halted s -> halted s'.
Proof. intros (L & _ & E) [Hs Hi]. split; [unfold stopping in *; by rewrite L|]. intros i st Hst. apply (Hi i). by rewrite <- E. Qed.

Lemma halted_record s i r : halted s -> store s !! i = Some r -> active (s_status (r_snapshot r)) = false.
Proof. intros [_ Hi] Hr. apply (Hi i). unfold status_of. by rewrite Hr. Qed.

Lemma halted_pump s now : halted s -> pump locale s now = s.
Proof. intros [Hs _]. unfold pump. by rewrite Hs. Qed.

Lemma statuses_promote fuel s now : same_statuses s (promote locale fuel s now).
Proof.
  revert s. induction fuel as [|fuel IH]; intros s; [done|]. simpl. destruct (peek _) as [i|]; [|done]. destruct (_ >? _)%Z; [done|].
  set (s1 := on_delayedReady _ s). assert (H1 : same_statuses s s1) by done. destruct (store s !! i) as [r|]; [|by etrans; [|apply IH]].
  destruct (_ && _); [|by etrans; [|apply IH]]. etrans; [exact H1|]. etrans; [|apply IH]. unfold push_ready. destruct (store s1 !! i); [|done]. by destruct (isForegroundMode _).
Qed.

Lemma statuses_promoteReady s now : same_statuses s (promoteReady locale s now).
Proof. unfold promoteReady. etrans; [apply statuses_promote|apply statuses_timer]. Qed.

(** What may not happen: a load that finishes when what was checked before it no longer holds,
    a start while the scheduler stops, and the end of a stop that has not begun. *)
Definition calm s (ev : event) : Prop :=
  orderly s ev /\ match ev with EvStart => lifecycle s <> Stopping | EvStopEnd _ => stopping s = true | _ => True end.

Lemma halted_by_id s id i r : halted s -> find_record s id ≫= (fun i => pair i <$> store s !! i) = Some (i, r) -> active (s_status (r_snapshot r)) = false.
Proof. intros H E. apply lookup_by_id in E as [_ Hr]. by eapply halted_record. Qed.

Lemma halted_step s now ev : inv None s -> halted s -> calm s ev -> halted (step locale s now ev).
Proof.
  intros H Hh [Ho Hc]. pose proof Hh as [Hs Hi]. destruct ev; simpl.
  - unfold start. unfold stopping in Hs. apply bool_decide_eq_true in Hs. rewrite bool_decide_eq_true_2 by (by destruct Hs). done.
  - unfold schedule. by rewrite Hs.
  - unfold cancel. destruct (_ ≫= _) as [[i r]|] eqn:E; [|done]. pose proof (halted_by_id _ _ _ _ Hh E) as Ha. destruct (_ || _) eqn:Eg; [done|]. by destruct (s_status (r_snapshot r)).
  - unfold checkpoint_op. destruct (_ ≫= _) as [[i r]|] eqn:E; [|done]. pose proof (halted_by_id _ _ _ _ Hh E) as Ha. destruct (negb _) eqn:Eg; [done|]. by destruct (s_status (r_snapshot r)).
  - unfold waitForUser. destruct (_ ≫= _) as [[i r]|] eqn:E; [|done]. pose proof (halted_by_id _ _ _ _ Hh E) as Ha. destruct (negb _) eqn:Eg; [done|]. by destruct (s_status (r_snapshot r)).
  - unfold interrupt. destruct (_ ≫= _) as [[i r]|] eqn:E; [|done]. pose proof (halted_by_id _ _ _ _ Hh E) as Ha. destruct (_ || _) eqn:Eg; [done|]. by destruct (s_status (r_snapshot r)).
  - unfold resume. by rewrite Hs.
  - unfold rehydrate, rehydrate_check. rewrite Hs. by destruct (negb (persistent s)).
  - simpl in Ho. unfold rehydrate_check in Ho. rewrite Hs in Ho. by destruct (negb (persistent s)).
  - unfold report_progress, get_execution. destruct (executions s !! e) as [x|]; [simpl|done]. destruct (store s !! x_record x) as [r|] eqn:Hr; [simpl|done].
    pose proof (halted_record _ _ _ Hh Hr) as Ha. destruct (_ || _) eqn:Eg; [done|]. apply orb_false_iff in Eg as [_ Eg]. by destruct (s_status (r_snapshot r)).
  - unfold report_checkpoint. destruct (executions s !! e) as [x|]; [|done]. unfold recordCheckpoint. destruct (store s !! x_record x) as [r|] eqn:Hr; [|done].
    pose proof (halted_record _ _ _ Hh Hr) as Ha. destruct (_ || _) eqn:Eg; [done|]. apply orb_false_iff in Eg as [_ Eg]. by destruct (s_status (r_snapshot r)).
  - unfold timeout_fires. destruct (executions s !! e) as [x|]; [|done]. destruct (_ && _); [|done]. by eapply halted_same; [apply statuses_abort|].
  - unfold settle, get_execution. destruct (executions s !! e) as [x|] eqn:He; [simpl|done]. destruct (store s !! x_record x) as [r|] eqn:Hr; [simpl|done]. destruct (x_settled x) eqn:Hx; [done|].
    assert (Hcur : is_current x r = false).
    { unfold is_current. apply Z.eqb_neq. intros Hg. destruct (inv_live _ _ _ H _ r ltac:(by intros [? ?]) Hr) as (_ & L2 & _).
      pose proof (halted_record _ _ _ Hh Hr) as Ha. by rewrite (L2 e x He eq_refl Hx (eq_sym Hg)) in Ha. }
    set (s1 := on_executions _ s). assert (H1 : halted s1) by (by eapply halted_same; [|exact Hh]).
    destruct outcome; unfold settle_fulfilled, settle_rejected; rewrite Hcur; simpl; by rewrite halted_pump.
  - unfold ready_timer_fires. destruct (readyTimer s); [|done]. eapply halted_same; [|exact Hh]. unfold schedulePump.
    etrans; [|by repeat case_match]. etrans; [|apply statuses_promoteReady]. done.
  - unfold pump_microtask. destruct (pumpScheduled s); [|done]. rewrite halted_pump; by eapply halted_same; [|exact Hh].
  - destruct (decide (lifecycle s = Stopped)) as [Hl|Hl]; [unfold stop_begin; by rewrite bool_decide_eq_true_2|].
    destruct (stop_begin_inactive s now H Hl) as (_ & L & Hin). split; [|done]. unfold stopping. rewrite L. by apply bool_decide_eq_true_2; auto.
  - unfold stop_end. destruct (forallb _ _); [|done]. split; [|done]. unfold stopping. apply bool_decide_eq_true_2. auto.
Qed.

(** * A scheduler that runs keeps running until it is stopped *)

Lemma lifecycle_emit s ty id : lifecycle (emit s ty id) = lifecycle s.
Proof. apply statuses_emit. Qed.
Lemma lifecycle_persist s i : lifecycle (persist s i) = lifecycle s.
Proof. apply statuses_persist. Qed.
Lemma lifecycle_settle s (p : option nat) v : lifecycle (settle_promise s p v) = lifecycle s.
Proof. by destruct p. Qed.
Lemma lifecycle_abort s (c : option nat) : lifecycle (abort s c) = lifecycle s.
Proof. by destruct c. Qed.
Lemma lifecycle_timer s : lifecycle (scheduleReadyTimer s) = lifecycle s.
Proof. apply statuses_timer. Qed.
Lemma lifecycle_modify s i f : lifecycle (modify s i f) = lifecycle s.
Proof. done. Qed.
Lemma lifecycle_removeReady s i b : lifecycle (removeReady locale s i b) = lifecycle s.
Proof. apply statuses_removeReady. Qed.
Lemma lifecycle_releaseSlot s i : lifecycle (releaseSlot s i) = lifecycle s.
Proof. apply statuses_releaseSlot. Qed.
Lemma lifecycle_promoteReady s now : lifecycle (promoteReady locale s now) = lifecycle s.
Proof. apply statuses_promoteReady. Qed.
Lemma lifecycle_releaseDedupe s i : lifecycle (releaseDedupe s i) = lifecycle s.
Proof. unfold releaseDedupe. by repeat case_match. Qed.
Lemma lifecycle_registerDedupe s i : lifecycle (registerDedupe s i) = lifecycle s.
Proof. unfold registerDedupe. by repeat case_match. Qed.
Lemma lifecycle_findDuplicate s k : lifecycle (fst (findDuplicate s k)) = lifecycle s.
Proof. unfold findDuplicate. by repeat case_match. Qed.
Lemma lifecycle_push_ready s i : lifecycle (push_ready locale s i) = lifecycle s.
Proof. unfold push_ready. by repeat case_match. Qed.
Lemma lifecycle_acquireSlot s i : lifecycle (acquireSlot s i) = lifecycle s.
Proof. unfold acquireSlot, count_slot. by repeat case_match. Qed.
#[local] Hint Rewrite lifecycle_modify lifecycle_emit lifecycle_persist lifecycle_settle lifecycle_abort lifecycle_timer lifecycle_removeReady
  lifecycle_releaseSlot lifecycle_promoteReady lifecycle_releaseDedupe lifecycle_registerDedupe lifecycle_findDuplicate
  lifecycle_push_ready lifecycle_acquireSlot : sched_lifecycle.

Lemma lifecycle_arm s now i : lifecycle (arm locale s now i) = lifecycle s.
Proof.
  unfold arm. destruct (store s !! i); [|done]. cbv zeta. unfold schedulePump, push_delayed.
  repeat case_match; simpl; autorewrite with sched_lifecycle; simpl; autorewrite with sched_lifecycle; done.
Qed.
Lemma lifecycle_execute s now i : lifecycle (execute s now i) = lifecycle s.
Proof. unfold execute. repeat case_match; simpl; autorewrite with sched_lifecycle; done. Qed.
#[local] Hint Rewrite lifecycle_arm lifecycle_execute : sched_lifecycle.

Lemma lifecycle_pump_loop fuel s now : lifecycle (pump_loop locale fuel s now) = lifecycle s.
Proof.
  revert s. induction fuel as [|fuel IH]; intros s; [done|]. cbn [pump_loop]. cbv zeta.
  repeat case_match; simplify_eq/=; rewrite ?IH; autorewrite with sched_lifecycle; done.
Qed.
Lemma lifecycle_pump s now : lifecycle (pump locale s now) = lifecycle s.
Proof. unfold pump. destruct (stopping s); [done|]. by rewrite lifecycle_pump_loop, lifecycle_promoteReady. Qed.
#[local] Hint Rewrite lifecycle_pump : sched_lifecycle.

Lemma lifecycle_finishCancelled s now i : lifecycle (finishCancelled locale s now i) = lifecycle s.
Proof. unfold finishCancelled. destruct (store s !! i); [|done]. destruct (_ || _); [done|]. by autorewrite with sched_lifecycle. Qed.
Lemma lifecycle_recordCheckpoint s now i cp g : lifecycle (fst (recordCheckpoint s now i cp g)) = lifecycle s.
Proof. unfold recordCheckpoint. repeat case_match; simpl; autorewrite with sched_lifecycle; done. Qed.
#[local] Hint Rewrite lifecycle_finishCancelled lifecycle_recordCheckpoint : sched_lifecycle.

Lemma lifecycle_settled s now x r outcome :
  lifecycle (match outcome with Ok v => settle_fulfilled locale s now x r v | Err e => settle_rejected locale s now x r e end) = lifecycle s.
Proof.
  destruct outcome; unfold settle_fulfilled, settle_rejected; cbv zeta; repeat case_match; try done;
    repeat (progress (simpl; autorewrite with sched_lifecycle)); done.
Qed.

Lemma alive_started s s' : stopping s = false -> lifecycle s' = lifecycle s -> stopping (started_if_idle s') = false.
Proof. unfold stopping, started_if_idle. simpl. intros H ->. by destruct (lifecycle s). Qed.

Lemma alive_same s s' : stopping s = false -> lifecycle s' = lifecycle s -> stopping s' = false.
Proof. unfold stopping. by intros H ->. Qed.

Lemma alive_load s now w loaded : stopping s = false -> stopping (fst (rehydrate_load locale s now w loaded)) = false.
Proof.
  intros H. unfold rehydrate_load, register. destruct loaded; [|done]. cbv zeta. repeat (case_match; simplify_eq/=; try done).
  all: eapply alive_same; [|autorewrite with sched_lifecycle; reflexivity]; eapply alive_started; [exact H|]; by autorewrite with sched_lifecycle.
Qed.

Lemma alive_step s now ev : stopping s = false -> calm s ev -> ev <> EvStop -> stopping (step locale s now ev) = false.
Proof.
  intros H [_ Hc] Hne. destruct ev; simpl in *; try congruence.
  - unfold start. case_match; [done|]. eapply alive_same; [|apply lifecycle_pump]. done.
  - unfold schedule, register. rewrite H. destruct (blank _); [done|]. destruct (findDuplicate _ _) as [s1 d] eqn:E.
    assert (E1 : lifecycle s1 = lifecycle s) by (by rewrite <- (lifecycle_findDuplicate s (w_dedupeKey w)), E).
    destruct d; [by eapply alive_same|]. case_match; [by eapply alive_same|]. simpl.
    eapply alive_same; [eapply alive_started; [exact H|exact E1]|]. by autorewrite with sched_lifecycle.
  - eapply alive_same; [exact H|]. unfold cancel. repeat case_match; simpl; by autorewrite with sched_lifecycle.
  - eapply alive_same; [exact H|]. unfold checkpoint_op. repeat case_match; simpl; by autorewrite with sched_lifecycle.
  - eapply alive_same; [exact H|]. unfold waitForUser. destruct (_ ≫= _) as [[i r]|]; [|done]. destruct (negb _); [done|].
    destruct (match cp with Some _ => _ | None => _ end) as [s1 recorded] eqn:E.
    assert (E1 : lifecycle s1 = lifecycle s) by (destruct cp; simplify_eq/=; [|done]; by rewrite <- (lifecycle_recordCheckpoint s now i c (r_generation r)), E).
    destruct (negb recorded); [done|]. destruct (store s1 !! i ≫= _); [|done]. simpl. by autorewrite with sched_lifecycle.
  - eapply alive_same; [exact H|]. unfold interrupt. repeat case_match; simpl; by autorewrite with sched_lifecycle.
  - unfold resume. rewrite H. repeat (case_match; try done). all: simpl.
    all: eapply alive_same; [eapply alive_started; [exact H|]|by autorewrite with sched_lifecycle]; by autorewrite with sched_lifecycle.
  - unfold rehydrate. destruct (rehydrate_check s w); [by apply alive_load|done].
  - by apply alive_load.
  - eapply alive_same; [exact H|]. unfold report_progress. repeat case_match; simpl; by autorewrite with sched_lifecycle.
  - eapply alive_same; [exact H|]. unfold report_checkpoint. repeat case_match; simpl; by autorewrite with sched_lifecycle.
  - eapply alive_same; [exact H|]. unfold timeout_fires. repeat case_match; simpl; by autorewrite with sched_lifecycle.
  - eapply alive_same; [exact H|]. unfold settle. repeat case_match; try done; by rewrite lifecycle_pump, ?(lifecycle_settled _ _ _ _ (Ok _)), ?(lifecycle_settled _ _ _ _ (Err _)).
  - eapply alive_same; [exact H|]. unfold ready_timer_fires, schedulePump. repeat case_match; simpl; by autorewrite with sched_lifecycle.
  - eapply alive_same; [exact H|]. unfold pump_microtask. repeat case_match; simpl; by autorewrite with sched_lifecycle.
Qed.

(** The states of a scheduler whose events are all [calm]. *)
Inductive calm_reachable maxFg maxBg pers : scheduler -> Prop :=
| calm_new : calm_reachable maxFg maxBg pers (new_scheduler maxFg maxBg pers)
| calm_step s now ev : calm_reachable maxFg maxBg pers s -> calm s ev -> calm_reachable maxFg maxBg pers (step locale s now ev).

Lemma calm_reaches maxFg maxBg pers s : calm_reachable maxFg maxBg pers s -> reachable maxFg maxBg pers s.
Proof. induction 1 as [|s now ev _ IH [Ho _]]; [constructor|by constructor]. Qed.

Lemma calm_halts maxFg maxBg pers s : calm_reachable maxFg maxBg pers s -> stopping s = true -> halted s.
Proof.
  intros H. induction H as [|s now ev H IH Hc]; [done|]. apply calm_reaches, reachable_inv in H; [|done].
  destruct (stopping s) eqn:Es; [intros _; by apply halted_step; auto|].
  destruct ev; try (intros Hs; by rewrite alive_step in Hs).
  intros Hs. split; [done|]. apply stop_begin_inactive; [done|]. intros E. unfold stopping in Es. by rewrite E in Es.
Qed.




End Stop.


(** * A start while the scheduler stops *)

(** [stop] has interrupted everything and awaits; [start] makes the scheduler run again and a
    task is scheduled; then the wait of [stop] ends and the scheduler is stopped. *)
Definition restart_trace : list (Z * event) :=
  [(0%Z, EvStart); (1%Z, EvStop); (2%Z, EvStart); (3%Z, EvSchedule late_work); (4%Z, EvStopEnd []); (5%Z, EvPump)].

(** The task is queued for ever: the scheduler is stopped, cannot be started again, and the
    promise handed out for the task is pending. *)
Example restart_strands_a_task :
  let s := run flat_locale demo_start restart_trace in
  lifecycle s = Stopped /\ status_of s 0 = Some Queued /\ promises s = [Pending] /\ pumpScheduled s = false /\
  executions s = [] /\ snd (start flat_locale s 6) = Err CannotRestart.
Proof. vm_compute. by repeat split. Qed.


