(* ===== verification/SchedulerTheorems.v ===== *)
(** The properties of the task scheduler. *)

From S2P Require Import Prelude PriorityQueue Scheduler SchedulerProofs SchedulerOps SchedulerWake SchedulerStop.

Section Theorems.
Context (locale : string -> string -> Z) `{!Comparator locale}.
Implicit Types (s : scheduler) (i e p c : nat) (r : record).
Abbreviation reachable := (reachable locale).
Abbreviation inv := (inv locale).


(** * Slots *)

(** The records of a pool that are running. *)
Definition running_in (fg : bool) s : list record :=
  List.filter (fun r => bool_decide (s_status (r_snapshot r) = Running) &&
                   Bool.eqb (isForegroundMode (s_mode (r_snapshot r))) fg) (store s).

Lemma slots_running fg l :
  (forall r, r ∈ l -> r_slotAcquired r = true <-> s_status (r_snapshot r) = Running) ->
  slots fg l = Z.of_nat (length (List.filter (fun r => bool_decide (s_status (r_snapshot r) = Running) &&
                   Bool.eqb (isForegroundMode (s_mode (r_snapshot r))) fg) l)).
Proof.
  induction l as [|r l IH]; intros Hl; [done|]. simpl. rewrite IH by (intros; apply Hl; by right).
  unfold slot_of. pose proof (Hl r ltac:(left)) as Hr.
  destruct (r_slotAcquired r).
  - rewrite bool_decide_eq_true_2 by (by apply Hr). simpl. destruct (Bool.eqb _ _); simpl; lia.
  - rewrite bool_decide_eq_false_2; [simpl; lia|]. intros Hs. by apply Hr in Hs.
Qed.

(** C2: the pools are never oversubscribed.  In every reachable state the slot counters are
    the numbers of running tasks of each pool, and neither exceeds its maximum. *)
Theorem scheduler_never_oversubscribes maxFg maxBg pers s :
  reachable maxFg maxBg pers s ->
  runningForeground s = Z.of_nat (length (running_in true s)) /\
  runningBackground s = Z.of_nat (length (running_in false s)) /\
  (runningForeground s <= maxForeground s)%Z /\ (runningBackground s <= maxBackground s)%Z.
Proof.
  intros H. apply reachable_inv in H; [|done].
  assert (Hl : forall r, r ∈ store s -> r_slotAcquired r = true <-> s_status (r_snapshot r) = Running).
  { intros r [i Hi]%list_elem_of_lookup_1. apply (inv_live _ _ _ H i r ltac:(by intros [? ?]) Hi). }
  unfold running_in. rewrite <- !slots_running by done.
  rewrite <- (inv_slots_fg _ _ _ H), <- (inv_slots_bg _ _ _ H).
  split_and!; [done|done|apply (inv_max_fg _ _ _ H)|apply (inv_max_bg _ _ _ H)].
Qed.

(** * No task is lost *)




(** No handle hangs without cause.  In every reachable state a promise that is still
    pending is the promise of exactly one task, and that task is queued or running. *)
Theorem pending_promise_has_owner maxFg maxBg pers s p :
  reachable maxFg maxBg pers s -> promises s !! p = Some Pending ->
  exists i r, store s !! i = Some r /\ r_promise r = Some p /\
    (s_status (r_snapshot r) = Queued \/ s_status (r_snapshot r) = Running) /\
    forall j r', store s !! j = Some r' -> r_promise r' = Some p -> j = i.
Proof.
  intros H Hp. apply reachable_inv in H; [|done]. destruct (inv_pending _ _ _ H p Hp) as [[i Hno]|(i & r & _ & Hr & Hrp & Ha)]; [done|].
  exists i, r. split_and!; [done|done|destruct (s_status (r_snapshot r)); auto; done|].
  intros j r' Hj Hjp. by eapply (inv_promises_ne _ _ _ H).
Qed.

(** * What the pump leaves alone *)

Lemma store_emit s ty id : store (emit s ty id) = store s.
Proof. exact (store_proper _ _ (emit_equiv s ty id)). Qed.
Lemma store_persist s i : store (persist s i) = store s.
Proof. exact (store_proper _ _ (persist_equiv s i)). Qed.
Lemma store_scheduleReadyTimer s : store (scheduleReadyTimer s) = store s.
Proof. exact (store_proper _ _ (scheduleReadyTimer_equiv s)). Qed.

Lemma start_keeps s now i j :
  j <> i -> store (execute (acquireSlot s i) now i) !! j = store s !! j.
Proof.
  intros Hj. assert (Ha : store (acquireSlot s i) !! j = store s !! j).
  { unfold acquireSlot. destruct (store s !! i); [|done]. destruct (r_slotAcquired _); [done|].
    simpl. by rewrite list_lookup_alter_ne, store_count by done. }
  rewrite <- Ha. generalize (acquireSlot s i). clear Ha s. intros s.
  unfold execute. destruct (store s !! i) as [r|]; [|done]. destruct (r_work r), (r_controller r); try done.
  destruct (_ || _); [done|]. cbv zeta.
  change (store (on_executions ?f ?t)) with (store t). rewrite store_emit, store_persist. simpl.
  by rewrite list_lookup_alter_ne.
Qed.

Lemma start_promises s now i : promises (execute (acquireSlot s i) now i) = promises s.
Proof.
  assert (Ha : promises (acquireSlot s i) = promises s).
  { unfold acquireSlot, count_slot. by repeat case_match. }
  rewrite <- Ha. generalize (acquireSlot s i). clear Ha s. intros s.
  unfold execute, emit, persist. by repeat case_match.
Qed.

(** A record that is not queued, and every promise. *)
Lemma pump_loop_keeps fuel s now j :
  (forall r, store s !! j = Some r -> s_status (r_snapshot r) <> Queued) ->
  store (pump_loop locale fuel s now) !! j = store s !! j /\ promises (pump_loop locale fuel s now) = promises s.
Proof.
  revert s. induction fuel as [|fuel IH]; intros s Hj; [done|]. cbn [pump_loop]. cbv zeta.
  assert (Hnext : forall o s1, store s1 = store s -> promises s1 = promises s ->
    let s2 := match o with
      | Some i => match store s1 !! i with
                  | Some r => if negb (bool_decide (s_status (r_snapshot r) = Queued)) || record_aborted s1 r
                              then pump_loop locale fuel s1 now
                              else pump_loop locale fuel (execute (acquireSlot s1 i) now i) now
                  | None => pump_loop locale fuel s1 now
                  end
      | None => pump_loop locale fuel s1 now end in
    store s2 !! j = store s !! j /\ promises s2 = promises s).
  { intros o s1 Hs <-. rewrite <- Hs. assert (Hj1 : forall r, store s1 !! j = Some r -> s_status (r_snapshot r) <> Queued)
      by (by rewrite Hs).
    destruct o as [i|]; [|by apply IH]. destruct (store s1 !! i) as [r|] eqn:Hr; [|by apply IH].
    destruct (negb _ || _) eqn:E; [by apply IH|]. apply orb_false_iff in E as [E _].
    apply negb_false_iff, bool_decide_eq_true in E.
    assert (Hne : j <> i) by (intros ->; by apply (Hj1 r)). pose proof (start_keeps s1 now i j Hne) as Hk.
    rewrite <- (start_promises s1 now i), <- Hk. apply IH. by rewrite Hk. }
  repeat match goal with
  | |- context [if ?c then _ else _] => destruct c
  | |- context [match ?o with None => _ | Some _ => _ end] =>
      lazymatch o with peek _ => destruct o end
  end; try done; destruct (PriorityQueue.pop _ _ _) as [o q]; by apply (Hnext o).
Qed.

Lemma promote_keeps fuel s now :
  store (promote locale fuel s now) = store s /\ promises (promote locale fuel s now) = promises s.
Proof.
  revert s. induction fuel as [|fuel IH]; intros s; [done|]. simpl.
  destruct (peek _); [|done]. destruct (_ >? _)%Z; [done|]. destruct (store s !! n) as [r|] eqn:E; [|exact (IH (on_delayedReady _ s))].
  set (s1 := on_delayedReady _ s). destruct (_ && _); [|exact (IH s1)].
  destruct (IH (push_ready locale s1 n)) as [-> ->]. unfold push_ready. change (store s1) with (store s). rewrite E.
  by destruct (isForegroundMode _).
Qed.

Lemma pump_keeps s now j :
  (forall r, store s !! j = Some r -> s_status (r_snapshot r) <> Queued) ->
  store (pump locale s now) !! j = store s !! j /\ promises (pump locale s now) = promises s.
Proof.
  intros Hj. unfold pump. destruct (stopping s); [done|].
  destruct (promote_keeps (length (entries (delayedReady s))) s now) as [Hs Hp].
  assert (Hs' : store (promoteReady locale s now) = store s)
    by (unfold promoteReady; by rewrite store_scheduleReadyTimer).
  assert (Hp' : promises (promoteReady locale s now) = promises s).
  { unfold promoteReady. rewrite <- Hp. unfold scheduleReadyTimer. by repeat case_match. }
  rewrite <- Hs', <- Hp'. apply pump_loop_keeps. by rewrite Hs'.
Qed.

(** ** Dispatch order *)

(** The specification of the pump: while some ready task's pool has room, the one that comes
    first in the order of priority and identifier starts; nothing else changes. *)
Inductive dispatches : scheduler -> scheduler -> Prop :=
| dispatches_done s : saturated s -> dispatches s s
| dispatches_start s s1 s2 i :
    first_startable locale s i ->
    status_of s i = Some Queued -> status_of s1 i = Some Running ->
    (forall j, j <> i -> store s1 !! j = store s !! j) -> promises s1 = promises s ->
    ready_count s = S (ready_count s1) ->
    dispatches s1 s2 -> dispatches s s2.

Lemma execute_promises s s0 now i : promises s0 = promises s -> promises (execute (acquireSlot s0 i) now i) = promises s.
Proof. intros <-. apply start_promises. Qed.

Lemma pump_loop_dispatches fuel s now :
  inv None s -> ready_count s <= fuel -> dispatches s (pump_loop locale fuel s now).
Proof.
  revert s. induction fuel as [|fuel IH]; intros s H Hf.
  - unfold ready_count in Hf. simpl. apply dispatches_done. split; right; apply nil_length_inv; lia.
  - destruct (pump_round locale s now H) as
      [[Hs Hl]|(s1 & Hl & H1 & Hc & _ & _ & i & s0 & E & Es & Ep & Hfirst & Hq & Hrun)]; rewrite Hl.
    + by apply dispatches_done.
    + apply (dispatches_start s s1 _ i); [done..| | |done|apply IH; [done|lia]].
      * intros j Hj. rewrite E, <- Es. by apply start_keeps.
      * rewrite E. by apply execute_promises.
Qed.

(** C5: tasks start in priority order.  A pump of a scheduler that is not stopping first
    moves the tasks that are due to their ready queue, changing no record, and then does what
    [dispatches] specifies: each task it starts is the first of all ready tasks whose pool has
    room, and it ends only when each pool is full or has no ready task. *)
Theorem pump_refines_priority_dispatch maxFg maxBg pers s now :
  reachable maxFg maxBg pers s -> stopping s = false ->
  store (promoteReady locale s now) = store s /\
  dispatches (promoteReady locale s now) (pump locale s now) /\ saturated (pump locale s now).
Proof.
  intros H Hs. apply reachable_inv in H; [|done]. pose proof (inv_promoteReady locale s now H) as Hp.
  unfold pump. rewrite Hs. split_and!.
  - destruct (promote_keeps (length (entries (delayedReady s))) s now) as [E _].
    unfold promoteReady. by rewrite store_scheduleReadyTimer.
  - by apply pump_loop_dispatches.
  - by apply pump_loop_spec.
Qed.

(** Late results are ignored.  When the operation of a task settles after the task was
    cancelled, interrupted, parked for the user or finished, whatever it returns or throws, the
    record stays as it was and no promise changes. *)
Theorem late_result_is_ignored maxFg maxBg pers s now e x r outcome :
  reachable maxFg maxBg pers s -> executions s !! e = Some x -> store s !! x_record x = Some r ->
  s_status (r_snapshot r) <> Queued -> s_status (r_snapshot r) <> Running ->
  store (settle locale s now e outcome) !! x_record x = Some r /\
  promises (settle locale s now e outcome) = promises s.
Proof.
  intros H He Hr Hq Hrun. apply reachable_inv in H; [|done].
  unfold settle, get_execution. rewrite He. simpl. rewrite Hr. simpl.
  destruct (x_settled x) eqn:Hs; [done|].
  destruct (inv_live _ _ _ H _ r ltac:(by intros [? ?]) Hr) as (_ & L2 & _ & _).
  assert (Hcur : is_current x r = false).
  { unfold is_current. apply Z.eqb_neq. intros Hg. by apply Hrun, (L2 e x). }
  set (s1 := on_executions _ s).
  assert (Hpump : store (pump locale s1 now) !! x_record x = store s1 !! x_record x /\
                  promises (pump locale s1 now) = promises s1).
  { apply pump_keeps. intros r' Hr'. change (store s !! x_record x = Some r') in Hr'. by simplify_eq. }
  destruct outcome; unfold settle_fulfilled, settle_rejected; rewrite Hcur; simpl;
    (destruct Hpump as [-> ->]; done).
Qed.
End Theorems.

(** * The theorems at concrete runs *)

Lemma scheduler_never_oversubscribes_witness :
  runningForeground demo_state = Z.of_nat (length (running_in true demo_state)) /\
  runningBackground demo_state = Z.of_nat (length (running_in false demo_state)) /\
  (runningForeground demo_state <= maxForeground demo_state)%Z /\
  (runningBackground demo_state <= maxBackground demo_state)%Z.
Proof.
  exact (scheduler_never_oversubscribes flat_locale (Some 1%Z) (Some 1%Z) true demo_state demo_reachable).
Defined.


Lemma pending_promise_has_owner_witness :
  exists i r, store demo_state !! i = Some r /\ r_promise r = Some 3 /\
    (s_status (r_snapshot r) = Queued \/ s_status (r_snapshot r) = Running) /\
    forall j r', store demo_state !! j = Some r' -> r_promise r' = Some 3 -> j = i.
Proof.
  apply (pending_promise_has_owner flat_locale (Some 1%Z) (Some 1%Z) true demo_state 3 demo_reachable).
  vm_compute. reflexivity.
Defined.

Lemma late_result_is_ignored_witness :
  exists x r, executions demo_state !! 1 = Some x /\ store demo_state !! x_record x = Some r /\
    s_status (r_snapshot r) = Cancelled /\
    store (settle flat_locale demo_state 9 1 (Ok "late"%string)) !! x_record x = Some r /\
    promises (settle flat_locale demo_state 9 1 (Ok "late"%string)) = promises demo_state.
Proof.
  eexists _, _. split; [vm_compute; reflexivity|]. split; [vm_compute; reflexivity|]. split; [reflexivity|].
  match goal with |- store _ !! x_record ?x = Some ?r /\ _ =>
    apply (late_result_is_ignored flat_locale (Some 1%Z) (Some 1%Z) true demo_state 9 1 x r _ demo_reachable) end;
    vm_compute; first [reflexivity|discriminate].
Defined.

Lemma pump_refines_priority_dispatch_witness :
  store (promoteReady flat_locale demo_settled 60) = store demo_settled /\
  dispatches flat_locale (promoteReady flat_locale demo_settled 60) (pump flat_locale demo_settled 60) /\
  saturated (pump flat_locale demo_settled 60).
Proof.
  apply (pump_refines_priority_dispatch flat_locale (Some 1%Z) (Some 1%Z) true demo_settled 60 demo_settled_reachable).
  vm_compute. reflexivity.
Defined.
