(* ===== verification/Tree.v ===== *)
(** The session tree ([SessionTree] of agent-core/src/tree.ts): the branching conversation
    history.  The map [nodes] is the list of its values in insertion order, keyed by the
    identifier in the node; a node's parent is always inserted before it, so every climb to
    the root is bounded by the size of the tree, which is the fuel of the loops.

    Modelling choices: [idGenerator] is a parameter, called with the number of its call; the
    clock reading is an argument; message content other than a branch label is opaque. *)

From S2P Require Import Prelude.

(** * Data *)

Inductive content : Type :=
| OpaqueContent (text : string)
| BranchLabel (label : string) (hypothesis : option string).

Record message : Type := MkMessage {
  m_id : option string;
  m_role : string;
  m_customType : option string;
  m_firstKeptEntryId : option string;
  m_content : content
}.

Record node : Type := MkNode {
  n_id : string;
  n_parentId : option string;
  n_message : message;
  n_childrenIds : list string;
  n_createdAt : Z;
  n_metadata : option string
}.

Record history_delta : Type := MkDelta {
  d_headId : option string;
  d_messages : list message;
  d_reset : bool
}.

Record branch_info : Type := MkBranch { b_leafId : string; b_length : nat; b_lastMessage : message }.

Record tree : Type := MkTree {
  nodes : list node;
  rootId : option string;
  currentLeafId : option string;
  generatedId : nat;
  revision : Z
}.

Inductive tree_error : Type :=
| NodeExists (id : string)
| ParentNotFound (id : string)
| NodeNotFound (id : string)
| EmptyLabel.

Definition with_id (m : message) (id : string) : message :=
  MkMessage (Some id) (m_role m) (m_customType m) (m_firstKeptEntryId m) (m_content m).

Definition empty_tree : tree := MkTree [] None None 0 0.

Definition get (t : tree) (id : string) : option node :=
  List.find (fun n => bool_decide (n_id n = id)) (nodes t).
Definition has (t : tree) (id : string) : bool := bool_decide (is_Some (get t id)).

(** [curr.parentId ? this.nodes.get(curr.parentId) : undefined]. *)
Definition parent_node (t : tree) (n : node) : option node := truthy (n_parentId n) ≫= get t.

Definition push_child (child : string) (n : node) : node :=
  MkNode (n_id n) (n_parentId n) (n_message n) (n_childrenIds n ++ [child]) (n_createdAt n) (n_metadata n).

Section Tree.
Context (idGenerator : nat -> string).
Implicit Types (t : tree) (id : string) (n : node) (m : message) (now : Z).

(** * Changes *)

(** [parentId] is absent, [null] or an identifier.  A call that throws has still consumed a
    generated identifier. *)
Definition addMessage t now m (parentId : option (option string)) (metadata : option string)
  : tree * result tree_error string :=
  let '(id, count) := match truthy (m_id m) with
                      | Some id => (id, generatedId t)
                      | None => (idGenerator (S (generatedId t)), S (generatedId t))
                      end in
  let t := MkTree (nodes t) (rootId t) (currentLeafId t) count (revision t) in
  let effectiveParentId := match parentId with Some p => p | None => currentLeafId t end in
  if has t id then (t, Err (NodeExists id))
  else
    let missing := match effectiveParentId with Some p => negb (has t p) | None => false end in
    if missing then (t, Err (ParentNotFound (default EmptyString effectiveParentId)))
    else
      let node := MkNode id effectiveParentId (with_id m id) [] now metadata in
      let all := nodes t ++ [node] in
      let all := match truthy effectiveParentId with
                 | Some p => map (fun n => if bool_decide (n_id n = p) then push_child id n else n) all
                 | None => all
                 end in
      (MkTree all (match truthy (rootId t) with Some _ => rootId t | None => Some id end)
         (Some id) count (revision t + 1), Ok id).

(** The constructor: it throws when one of its messages does. *)
Fixpoint new_tree t (initialMessages : list (Z * message)) : result tree_error tree :=
  match initialMessages with
  | [] => Ok t
  | (now, m) :: rest =>
      match addMessage t now m None None with
      | (t, Ok _) => new_tree t rest
      | (_, Err e) => Err e
      end
  end.

(** The common body of [selectLeaf] and [navigate]. *)
Definition move_leaf t id : tree :=
  if bool_decide (currentLeafId t = Some id) then t
  else MkTree (nodes t) (rootId t) (Some id) (generatedId t) (revision t + 1).

Definition selectLeaf t id : tree * result tree_error string :=
  if has t id then (move_leaf t id, Ok id) else (t, Err (NodeNotFound id)).

Definition navigate t id : tree * bool :=
  if has t id then (move_leaf t id, true) else (t, false).

Definition switchBranch t id : tree * bool := navigate t id.

Definition addBranchMarker t now (name : string) (hypothesis : option string)
  : tree * result tree_error (option node) :=
  if blank name then (t, Err EmptyLabel)
  else
    match addMessage t now (MkMessage None "custom" (Some "branch"%string) None (BranchLabel name hypothesis))
            None None with
    | (t, Ok _) => (t, Ok (currentLeafId t ≫= get t))
    | (t, Err e) => (t, Err e)
    end.

Definition clear t : tree := MkTree [] None None (generatedId t) (revision t + 1).

Definition size t : nat := length (nodes t).

(** * Readers *)

Fixpoint history_loop t (fuel : nat) (curr : option node) (messages : list message) : list message :=
  match fuel, curr with
  | S fuel, Some n => history_loop t fuel (parent_node t n) (messages ++ [n_message n])
  | _, _ => messages
  end.

(** [leafId ?? this.currentLeafId], when it is a node. *)
Definition target t (leafId : option string) : option node :=
  truthy (match leafId with Some id => Some id | None => currentLeafId t end) ≫= get t.

Definition getHistory t (leafId : option string) : list message :=
  match target t leafId with
  | None => []
  | Some n => rev (history_loop t (size t) (Some n) [])
  end.

Fixpoint delta_loop t (fuel : nat) (previousHeadId : option string) (targetId : string) (current : option node)
    (messages : list message) : history_delta :=
  match fuel, current with
  | S fuel, Some n =>
      if bool_decide (Some (n_id n) = previousHeadId) then MkDelta (Some targetId) (rev messages) false
      else delta_loop t fuel previousHeadId targetId (parent_node t n) (messages ++ [n_message n])
  | _, _ => MkDelta (Some targetId) (rev messages) (bool_decide (is_Some previousHeadId))
  end.

Definition getHistoryDelta t (previousHeadId leafId : option string) : history_delta :=
  match target t leafId with
  | None => MkDelta None [] (bool_decide (is_Some previousHeadId))
  | Some n => delta_loop t (size t) previousHeadId (n_id n) (Some n) []
  end.

Definition getBranches t : list branch_info :=
  omap (fun n => if bool_decide (n_childrenIds n = [])
                 then Some (MkBranch (n_id n) (length (getHistory t (Some (n_id n)))) (n_message n))
                 else None) (nodes t).

Fixpoint path_loop t (fuel : nat) (curr : option node) (path : list string) : list string :=
  match fuel, curr with
  | S fuel, Some n => path_loop t fuel (parent_node t n) (path ++ [n_id n])
  | _, _ => path
  end.

Definition getPathToRoot t id : list string := path_loop t (size t) (get t id) [].

Fixpoint ancestor_loop t (fuel : nat) (pathA : gset string) (curr : option node) : option string :=
  match fuel, curr with
  | S fuel, Some n =>
      if decide (n_id n ∈ pathA) then Some (n_id n) else ancestor_loop t fuel pathA (parent_node t n)
  | _, _ => None
  end.

Definition findCommonAncestor t (a b : string) : option string :=
  if negb (has t a) || negb (has t b) then None
  else if bool_decide (a = b) then Some a
  else ancestor_loop t (size t) (list_to_set (getPathToRoot t a)) (get t b).

(** * The path without branch labels *)

Definition is_label m : bool :=
  bool_decide (m_role m = "custom"%string) && bool_decide (m_customType m = Some "branch"%string).

Definition set_boundary m (b : string) : message :=
  MkMessage (m_id m) (m_role m) (m_customType m) (Some b) (m_content m).

(** The loop of [getCleanHistoryPath]: the labels still waiting for the message that replaces
    them, the replacements found, and the result so far. *)
Fixpoint clean_loop (raw : list message) (pending : list string) (replacement : gmap string string)
    (cleaned : list message) : list message :=
  match raw with
  | [] => cleaned
  | m :: raw =>
      if is_label m
      then clean_loop raw (match truthy (m_id m) with Some id => pending ++ [id] | None => pending end)
             replacement cleaned
      else
        let '(pending, replacement) :=
          match truthy (m_id m) with
          | Some id => ([], foldl (fun r l => <[l := id]> r) replacement pending)
          | None => (pending, replacement)
          end in
        match truthy (m_firstKeptEntryId m) with
        | Some b => clean_loop raw pending replacement (cleaned ++ [set_boundary m (default b (replacement !! b))])
        | None => clean_loop raw pending replacement (cleaned ++ [m])
        end
  end.

Definition getCleanHistoryPath t (leafId : option string) : list message :=
  clean_loop (getHistory t leafId) [] ∅ [].

(** * Histories of a tree *)

Inductive tree_event : Type :=
| TAdd (m : message) (parentId : option (option string)) (metadata : option string)
| TSelect (id : string)
| TNavigate (id : string)
| TMarker (name : string) (hypothesis : option string)
| TClear.

Definition tree_step t now (ev : tree_event) : tree :=
  match ev with
  | TAdd m p metadata => fst (addMessage t now m p metadata)
  | TSelect id => fst (selectLeaf t id)
  | TNavigate id => fst (navigate t id)
  | TMarker name hypothesis => fst (addBranchMarker t now name hypothesis)
  | TClear => clear t
  end.

(** The trees that calls of the public methods can build. *)
Inductive built : tree -> Prop :=
| built_empty : built empty_tree
| built_step t now ev : built t -> built (tree_step t now ev).
End Tree.
