(* ===== verification/TreeProofs.v ===== *)
(** The properties of the session tree. *)

From S2P Require Import Prelude Tree.

(** * The invariant *)

Definition child_of (p : string) (n : node) : bool := bool_decide (n_parentId n = Some p).

Record wf_tree (t : tree) : Prop := MkWf {
  wf_ids : NoDup (n_id <$> nodes t);
  wf_parents : forall i n p, nodes t !! i = Some n -> n_parentId n = Some p ->
    exists j m, j < i /\ nodes t !! j = Some m /\ n_id m = p;
  wf_children : forall n, n ∈ nodes t -> n_childrenIds n = n_id <$> List.filter (child_of (n_id n)) (nodes t);
  wf_leaf : forall id, currentLeafId t = Some id -> has t id = true;
  wf_root : rootId t = n_id <$> head (nodes t);
  wf_names : forall n, n ∈ nodes t -> n_id n <> EmptyString;
  wf_messages : forall n, n ∈ nodes t -> m_id (n_message n) = Some (n_id n)
}.

Lemma get_some t id n : get t id = Some n -> n ∈ nodes t /\ n_id n = id.
Proof.
  intros H. apply List.find_some in H as [Hin Hid]. apply bool_decide_eq_true in Hid.
  split; [by apply list_elem_of_In|done].
Qed.

Lemma has_get t id : has t id = true <-> exists n, get t id = Some n.
Proof. unfold has. rewrite bool_decide_eq_true. done. Qed.

Lemma has_false t id : has t id = false <-> get t id = None.
Proof. unfold has. rewrite bool_decide_eq_false. by rewrite eq_None_not_Some. Qed.

Lemma get_none t id n : get t id = None -> n ∈ nodes t -> n_id n <> id.
Proof.
  intros H Hin. apply list_elem_of_In in Hin. pose proof (List.find_none _ _ H n Hin) as Hf.
  by apply bool_decide_eq_false in Hf.
Qed.

(** An identifier names at most one node. *)
Lemma ids_inj (l : list node) n n' : NoDup (n_id <$> l) -> n ∈ l -> n' ∈ l -> n_id n = n_id n' -> n = n'.
Proof.
  intros Hnd [i Hi]%list_elem_of_lookup_1 [j Hj]%list_elem_of_lookup_1 E.
  assert (i = j) as ->; [|congruence]. apply (NoDup_lookup _ i j (n_id n) Hnd); rewrite list_lookup_fmap.
  - by rewrite Hi.
  - rewrite Hj. simpl. by rewrite E.
Qed.

Lemma get_in t n : NoDup (n_id <$> nodes t) -> n ∈ nodes t -> get t (n_id n) = Some n.
Proof.
  intros Hnd Hin. destruct (get t (n_id n)) as [n'|] eqn:E.
  - apply get_some in E as [Hin' E]. f_equal. by eapply ids_inj.
  - by destruct (get_none _ _ n E Hin).
Qed.

(** * Chains of parents *)

(** [chain t n l]: [l] is the path from [n] up to its root. *)
Inductive chain (t : tree) : node -> list node -> Prop :=
| chain_root n : parent_node t n = None -> chain t n [n]
| chain_up n p l : parent_node t n = Some p -> chain t p l -> chain t n (n :: l).

Lemma parent_lookup t i n p :
  wf_tree t -> nodes t !! i = Some n -> parent_node t n = Some p ->
  n_parentId n = Some (n_id p) /\ exists j, j < i /\ nodes t !! j = Some p.
Proof.
  intros W Hi Hp. unfold parent_node in Hp. destruct (truthy (n_parentId n)) as [q|] eqn:E; [|done].
  apply truthy_some in E as [E _]. simpl in Hp. apply get_some in Hp as Hq. destruct Hq as [Hin <-].
  split; [done|]. destruct (wf_parents t W i n _ Hi E) as (j & m & Hj & Hm & Hid).
  exists j. split; [done|]. rewrite Hm. f_equal. eapply ids_inj; [apply W|by eapply list_elem_of_lookup_2|done|done].
Qed.

Lemma chain_exists t i n : wf_tree t -> nodes t !! i = Some n -> exists l, chain t n l /\ length l <= S i.
Proof.
  intros W. revert n. induction (lt_wf i) as [i _ IH]. intros n Hi.
  destruct (parent_node t n) as [p|] eqn:E.
  - destruct (parent_lookup t i n p W Hi E) as (_ & j & Hj & Hp). destruct (IH j Hj p Hp) as (l & Hc & Hl).
    exists (n :: l). split; [by eapply chain_up|]. simpl. lia.
  - exists [n]. split; [by apply chain_root|]. simpl. lia.
Qed.

Lemma chain_of t n : wf_tree t -> n ∈ nodes t -> exists l, chain t n l /\ length l <= size t.
Proof.
  intros W [i Hi]%list_elem_of_lookup_1. destruct (chain_exists t i n W Hi) as (l & Hc & Hl).
  exists l. split; [done|]. apply lookup_lt_Some in Hi. unfold size. lia.
Qed.

Lemma chain_fun t n l l' : chain t n l -> chain t n l' -> l = l'.
Proof.
  intros H. revert l'. induction H as [n E|n p l E H IH]; intros l' H'; inversion H'; subst; simplify_eq; [done|].
  f_equal. by apply IH.
Qed.

Lemma chain_head t n l : chain t n l -> exists k, l = n :: k.
Proof. destruct 1; eauto. Qed.

Lemma chain_incl t n l : wf_tree t -> n ∈ nodes t -> chain t n l -> forall x, x ∈ l -> x ∈ nodes t.
Proof.
  intros W Hn H. revert Hn. induction H as [n E|n p l E H IH]; intros Hn x Hx.
  - by apply list_elem_of_singleton in Hx as ->.
  - apply elem_of_cons in Hx as [->|Hx]; [done|]. apply IH; [|done].
    apply list_elem_of_lookup_1 in Hn as [i Hi]. destruct (parent_lookup t i n p W Hi E) as (_ & j & _ & Hj).
    by eapply list_elem_of_lookup_2.
Qed.

(** The upper part of a chain is the chain of its first node. *)
Lemma chain_suffix t n l x k1 k2 : chain t n l -> l = k1 ++ x :: k2 -> chain t x (x :: k2).
Proof.
  intros H. revert k1. induction H as [n E|n p l E H IH]; intros k1 El.
  - destruct k1 as [|y k1]; simplify_eq/=; [by apply chain_root|by destruct k1].
  - destruct k1 as [|y k1]; simplify_eq/=; [by eapply chain_up|by eapply IH].
Qed.

(** * The loops follow the chain *)

Lemma history_chain t n l fuel acc :
  chain t n l -> length l <= fuel -> history_loop t fuel (Some n) acc = acc ++ map n_message l.
Proof.
  intros H. revert fuel acc. induction H as [n E|n p l E H IH]; intros [|fuel] acc Hf; simpl in Hf; try lia; simpl; rewrite E.
  - by destruct fuel.
  - rewrite IH by lia. by rewrite <- app_assoc.
Qed.

Lemma path_chain t n l fuel acc :
  chain t n l -> length l <= fuel -> path_loop t fuel (Some n) acc = acc ++ map n_id l.
Proof.
  intros H. revert fuel acc. induction H as [n E|n p l E H IH]; intros [|fuel] acc Hf; simpl in Hf; try lia; simpl; rewrite E.
  - by destruct fuel.
  - rewrite IH by lia. by rewrite <- app_assoc.
Qed.

Lemma ancestor_chain t n l fuel path :
  chain t n l -> length l <= fuel ->
  ancestor_loop t fuel path (Some n) = List.find (fun x => bool_decide (x ∈ path)) (map n_id l).
Proof.
  intros H. revert fuel. induction H as [n E|n p l E H IH]; intros [|fuel] Hf; simpl in Hf; try lia; simpl; rewrite E.
  - destruct (decide _); [by rewrite bool_decide_eq_true_2|rewrite bool_decide_eq_false_2 by done]. by destruct fuel.
  - destruct (decide _); [by rewrite bool_decide_eq_true_2|rewrite bool_decide_eq_false_2 by done]. apply IH. lia.
Qed.

(** The part of a chain below a given node, if the node is on it. *)
Fixpoint below (prev : option string) (l : list node) : option (list node) :=
  match l with
  | [] => None
  | n :: l => if bool_decide (Some (n_id n) = prev) then Some [] else cons n <$> below prev l
  end.

Lemma delta_chain t n l fuel prev tid acc :
  chain t n l -> length l <= fuel ->
  delta_loop t fuel prev tid (Some n) acc =
    match below prev l with
    | Some k => MkDelta (Some tid) (rev (acc ++ map n_message k)) false
    | None => MkDelta (Some tid) (rev (acc ++ map n_message l)) (bool_decide (is_Some prev))
    end.
Proof.
  intros H. revert fuel acc. induction H as [n E|n p l E H IH]; intros [|fuel] acc Hf; simpl in Hf; try lia; simpl; rewrite E.
  - destruct (bool_decide (Some (n_id n) = prev)); simpl; [by rewrite app_nil_r|]. by destruct fuel.
  - destruct (bool_decide (Some (n_id n) = prev)); simpl; [by rewrite app_nil_r|]. rewrite IH by lia.
    destruct (below prev l); simpl; by rewrite <- app_assoc.
Qed.

Lemma below_spec prev l :
  match below prev l with
  | Some k => exists x k', l = k ++ x :: k' /\ prev = Some (n_id x)
  | None => forall x, x ∈ l -> prev <> Some (n_id x)
  end.
Proof.
  induction l as [|n l IH]; simpl; [by intros x Hx; inversion Hx|].
  case_bool_decide as E; [by exists n, l|]. destruct (below prev l) as [k|]; simpl.
  - destruct IH as (x & k' & -> & ->). by exists x, k'.
  - intros x [->|Hx]%elem_of_cons; [by intros ->|by apply IH].
Qed.

(** * Adding a message *)

(** How the existing nodes change when a child [id] is added under [parent]. *)
Definition adopt (parent : option string) (id : string) (n : node) : node :=
  if bool_decide (parent = Some (n_id n)) then push_child id n else n.

Lemma adopt_id parent id n : n_id (adopt parent id n) = n_id n.
Proof. unfold adopt. by case_bool_decide. Qed.
Lemma adopt_parent parent id n : n_parentId (adopt parent id n) = n_parentId n.
Proof. unfold adopt. by case_bool_decide. Qed.
Lemma adopt_message parent id n : n_message (adopt parent id n) = n_message n.
Proof. unfold adopt. by case_bool_decide. Qed.

Lemma adopt_none id l : map (adopt None id) l = l.
Proof. induction l as [|n l IH]; [done|]. simpl. by rewrite IH. Qed.

Section Gen.
Context (idGenerator : nat -> string) (generated : forall k, idGenerator k <> EmptyString).
Implicit Types (t : tree) (id : string) (n : node) (m : message).

Lemma has_nodes t id :
  wf_tree t -> has t id = true -> exists n, n ∈ nodes t /\ n_id n = id /\ id <> EmptyString.
Proof.
  intros W [n Hn]%has_get. apply get_some in Hn as [Hin <-]. exists n.
  split_and!; [done|done|by apply (wf_names t W)].
Qed.

(** What [addMessage] does, on success and on failure. *)
Lemma addMessage_cases t now m pid metadata :
  wf_tree t ->
  let parent := match pid with Some p => p | None => currentLeafId t end in
  match addMessage idGenerator t now m pid metadata with
  | (t', Ok id) =>
      id <> EmptyString /\ has t id = false /\ (forall p, parent = Some p -> has t p = true) /\
      nodes t' = map (adopt parent id) (nodes t) ++ [MkNode id parent (with_id m id) [] now metadata] /\
      currentLeafId t' = Some id /\ rootId t' = n_id <$> head (nodes t') /\ revision t' = (revision t + 1)%Z
  | (t', Err _) =>
      nodes t' = nodes t /\ currentLeafId t' = currentLeafId t /\ rootId t' = rootId t
  end.
Proof.
  intros W. unfold addMessage. cbv zeta.
  set (pair := match truthy (m_id m) with Some id => _ | None => _ end).
  assert (Hid : fst pair <> EmptyString).
  { unfold pair. destruct (truthy (m_id m)) as [x|] eqn:E; [|apply generated]. by apply truthy_some in E as [_ E]. }
  destruct pair as [id count]. simpl in Hid. set (parent := match pid with Some p => p | None => _ end).
  change (has (MkTree (nodes t) (rootId t) (currentLeafId t) count (revision t))) with (has t). cbn [currentLeafId].
  change (match pid with Some p => p | None => currentLeafId t end) with parent.
  destruct (has t id) eqn:Hh; [done|]. destruct (match parent with Some p => _ | None => _ end) eqn:Hm; [done|].
  assert (Hp : forall p, parent = Some p -> has t p = true) by (intros p E; rewrite E in Hm; by apply negb_false_iff in Hm).
  clear Hm.
  assert (Hnodes : forall all, all = nodes t ++ [MkNode id parent (with_id m id) [] now metadata] ->
    match truthy parent with
    | Some p => map (fun n => if bool_decide (n_id n = p) then push_child id n else n) all
    | None => all
    end = map (adopt parent id) (nodes t) ++ [MkNode id parent (with_id m id) [] now metadata]).
  { intros all ->. destruct parent as [p|] eqn:Epar; [|by rewrite adopt_none].
    destruct (has_nodes t p W (Hp p eq_refl)) as (_ & _ & _ & Hne). rewrite truthy_nonempty, map_app by done.
    f_equal.
    - apply map_ext. intros n. unfold adopt. repeat case_bool_decide; naive_solver.
    - simpl. rewrite bool_decide_eq_false_2; [done|]. intros ->. specialize (Hp p eq_refl). congruence. }
  cbn [nodes rootId currentLeafId revision]. rewrite (Hnodes _ eq_refl).
  split_and!; [done..| |done]. pose proof (wf_root t W) as Hroot.
  destruct (nodes t) as [|n l] eqn:E; [by rewrite Hroot|]. simpl in Hroot. rewrite Hroot, truthy_nonempty.
  - simpl. by rewrite adopt_id.
  - apply (wf_names t W). rewrite E. by left.
Qed.

Lemma adopted_ids parent id (l : list node) : n_id <$> map (adopt parent id) l = n_id <$> l.
Proof. change (map (adopt parent id) l) with (adopt parent id <$> l). rewrite <- list_fmap_compose. apply list_fmap_ext. intros. apply adopt_id. Qed.

Lemma lookup_adopt parent id (l : list node) i n :
  map (adopt parent id) l !! i = Some n <-> exists n0, l !! i = Some n0 /\ n = adopt parent id n0.
Proof.
  change (map (adopt parent id) l) with (adopt parent id <$> l). rewrite list_lookup_fmap.
  destruct (l !! i); simpl; naive_solver.
Qed.

Lemma filter_adopt q parent id (l : list node) :
  n_id <$> List.filter (child_of q) (map (adopt parent id) l) = n_id <$> List.filter (child_of q) l.
Proof.
  induction l as [|n l IH]; [done|]. simpl. unfold child_of in *. rewrite adopt_parent.
  destruct (bool_decide _); simpl; [|exact IH]. rewrite adopt_id. f_equal. exact IH.
Qed.

Lemma no_child t id : wf_tree t -> get t id = None -> List.filter (child_of id) (nodes t) = [].
Proof.
  intros W Hg. destruct (List.filter _ _) as [|n l] eqn:E; [done|]. exfalso.
  assert (Hin : In n (List.filter (child_of id) (nodes t))) by (rewrite E; by left).
  apply List.filter_In in Hin as [Hin Hp]. apply bool_decide_eq_true in Hp.
  apply list_elem_of_In, list_elem_of_lookup_1 in Hin as [i Hi].
  destruct (wf_parents t W i n id Hi Hp) as (j & q & _ & Hq & Hid).
  by apply (get_none t id q Hg); [eapply list_elem_of_lookup_2|].
Qed.

Lemma wf_addMessage t now m pid metadata :
  wf_tree t -> wf_tree (fst (addMessage idGenerator t now m pid metadata)).
Proof.
  intros W. pose proof (addMessage_cases t now m pid metadata W) as H.
  destruct (addMessage _ _ _ _ _ _) as [t' [id|e]]; simpl in *.
  2: { destruct H as (Hn & Hl & Hr). destruct W. constructor; rewrite ?Hn, ?Hl, ?Hr; try done.
       intros id Hid. unfold has, get. rewrite Hn. by apply wf_leaf. }
  set (parent := match pid with Some p => p | None => _ end) in H. set (new := MkNode _ _ _ _ _ _) in H.
  destruct H as (Hid & Hfresh & Hpar & Hn & Hleaf & Hroot & _). apply has_false in Hfresh.
  assert (Hnew : forall n, n ∈ nodes t' -> n = new \/ exists n0, n0 ∈ nodes t /\ n = adopt parent id n0).
  { intros n. rewrite Hn, elem_of_app, list_elem_of_singleton. intros [Hin|Hin]; [right|by left].
    apply list_elem_of_fmap_1 in Hin as (n0 & -> & Hin). eauto. }
  assert (Hnd : NoDup (n_id <$> nodes t')).
  { rewrite Hn, fmap_app, adopted_ids. apply NoDup_app. split_and!; [apply W| |apply NoDup_singleton].
    intros x (n & -> & Hin)%list_elem_of_fmap_1 Hx%list_elem_of_singleton. by eapply get_none. }
  assert (Hfar : child_of id new = false).
  { apply bool_decide_eq_false. intros E. apply Hpar, has_get in E as [? ?]. congruence. }
  constructor; [done|..].
  - intros i n p. rewrite Hn. intros [Hi|[Hi Hx]]%lookup_app_Some Hp.
    + apply lookup_adopt in Hi as (n0 & Hi & ->). rewrite adopt_parent in Hp.
      destruct (wf_parents t W i n0 p Hi Hp) as (j & q & Hj & Hq & Hqid).
      exists j, (adopt parent id q). split_and!; [done| |by rewrite adopt_id].
      apply lookup_app_l_Some, lookup_adopt. eauto.
    + destruct (i - _) as [|k] eqn:Ei; simpl in Hx; [|done]. injection Hx as <-. simpl in Hp.
      destruct (has_nodes t p W (Hpar p Hp)) as (q & [j Hj]%list_elem_of_lookup_1 & Hq & _).
      exists j, (adopt parent id q). rewrite length_map in *. pose proof (lookup_lt_Some _ _ _ Hj).
      split_and!; [lia| |by rewrite adopt_id].
      apply lookup_app_l_Some, lookup_adopt. eauto.
  - intros n Hin. rewrite Hn, List.filter_app, fmap_app. setoid_rewrite filter_adopt.
    destruct (Hnew n Hin) as [->|(n0 & Hin0 & ->)]; simpl.
    + change id with (n_id new) in Hfar. simpl in Hfar. rewrite Hfar, (no_child t id W Hfresh). done.
    + rewrite adopt_id. unfold adopt. change (child_of (n_id n0) new) with (bool_decide (parent = Some (n_id n0))).
      case_bool_decide as E; simpl; rewrite (wf_children t W n0 Hin0); [done|by rewrite app_nil_r].
  - intros x. rewrite Hleaf. intros [= <-]. apply has_get. exists new. apply (get_in t' new Hnd).
    rewrite Hn. apply elem_of_app. right. by apply list_elem_of_singleton.
  - done.
  - intros n Hin. destruct (Hnew n Hin) as [->|(n0 & Hin0 & ->)]; [done|]. rewrite adopt_id. by apply (wf_names t W).
  - intros n Hin. destruct (Hnew n Hin) as [->|(n0 & Hin0 & ->)]; [done|].
    rewrite adopt_id, adopt_message. by apply (wf_messages t W).
Qed.

Lemma wf_empty : wf_tree empty_tree.
Proof. constructor; simpl; try done; try (intros n Hin; inversion Hin). constructor. Qed.

Lemma wf_move_leaf t id : wf_tree t -> has t id = true -> wf_tree (move_leaf t id).
Proof.
  intros W H. unfold move_leaf. case_bool_decide; [done|]. destruct W. constructor; try done.
  simpl. by intros x [= <-].
Qed.

Lemma wf_step t now ev : wf_tree t -> wf_tree (tree_step idGenerator t now ev).
Proof.
  intros W. destruct ev as [m p md|id|id|name h|]; simpl.
  - by apply wf_addMessage.
  - unfold selectLeaf. destruct (has t id) eqn:E; [by apply wf_move_leaf|done].
  - unfold navigate. destruct (has t id) eqn:E; [by apply wf_move_leaf|done].
  - unfold addBranchMarker. destruct (blank name); [done|].
    match goal with |- context [addMessage idGenerator t now ?m None None] =>
      pose proof (wf_addMessage t now m None None W) as H end.
    by destruct (addMessage _ _ _ _ _ _) as [t' []].
  - constructor; simpl; try done; try apply NoDup_nil_2; intros n Hin; inversion Hin.
Qed.

Lemma built_wf t : built idGenerator t -> wf_tree t.
Proof. induction 1; [apply wf_empty|by apply wf_step]. Qed.

(** * Histories *)

Lemma target_spec t leaf n : target t leaf = Some n -> n ∈ nodes t.
Proof. unfold target. destruct (truthy _); simpl; [|done]. intros H. apply get_some in H as [H _]. exact H. Qed.

Lemma getHistory_chain t leaf n l :
  wf_tree t -> target t leaf = Some n -> chain t n l -> getHistory t leaf = rev (map n_message l).
Proof.
  intros W Hn Hc. unfold getHistory. rewrite Hn. f_equal. rewrite (history_chain t n l); [done|done|].
  destruct (chain_of t n W (target_spec t leaf n Hn)) as (l' & Hc' & Hl). by rewrite (chain_fun t n l l' Hc Hc').
Qed.

Lemma target_get t id n : wf_tree t -> get t id = Some n -> target t (Some id) = Some n.
Proof.
  intros W H. unfold target. apply get_some in H as Hn. destruct Hn as [Hin <-].
  by rewrite truthy_nonempty by (by apply (wf_names t W)).
Qed.

(** [ancestor t a b]: climbing from the node [b] passes through [a]. *)
Inductive ancestor t : string -> string -> Prop :=
| ancestor_self id : has t id = true -> ancestor t id id
| ancestor_parent a id n p : get t id = Some n -> n_parentId n = Some p -> ancestor t a p -> ancestor t a id.

Lemma parent_get t n p :
  wf_tree t -> n ∈ nodes t -> n_parentId n = Some p -> exists q, parent_node t n = Some q /\ n_id q = p /\ q ∈ nodes t.
Proof.
  intros W [i Hi]%list_elem_of_lookup_1 Hp. destruct (wf_parents t W i n p Hi Hp) as (j & q & _ & Hq & <-).
  apply list_elem_of_lookup_2 in Hq. exists q. split_and!; [|done|done]. unfold parent_node. rewrite Hp.
  rewrite truthy_nonempty by (by apply (wf_names t W)). simpl. by apply get_in; [apply W|].
Qed.

Lemma ancestor_chain_iff t n l a :
  wf_tree t -> n ∈ nodes t -> chain t n l -> ancestor t a (n_id n) <-> a ∈ map n_id l.
Proof.
  intros W Hin Hc. split.
  - intros Ha. remember (n_id n) as id eqn:E. revert n l Hin Hc E.
    induction Ha as [id Hh|a id m p Hm Hp Ha IH]; intros n l Hin Hc ->.
    + destruct (chain_head t n l Hc) as [k ->]. by left.
    + assert (m = n) as -> by (rewrite (get_in t n (wf_ids t W) Hin) in Hm; congruence).
      destruct (parent_get t n p W Hin Hp) as (q & Hq & <- & Hqin).
      inversion Hc as [? E|? q' l' E Hc']; subst; [congruence|]. right.
      assert (q' = q) as -> by congruence. by apply (IH q l').
  - induction Hc as [n E|n p l E Hc IH]; simpl.
    + intros ->%list_elem_of_singleton. apply ancestor_self, has_get. exists n. by apply get_in; [apply W|].
    + intros [->|Ha]%elem_of_cons.
      * apply ancestor_self, has_get. exists n. by apply get_in; [apply W|].
      * apply list_elem_of_lookup_1 in Hin as Hi. destruct Hi as [i Hi].
        destruct (parent_lookup t i n p W Hi E) as (Hp & j & _ & Hj). apply list_elem_of_lookup_2 in Hj.
        apply (ancestor_parent t a _ n (n_id p)); [by apply get_in; [apply W|]|done|by apply IH].
Qed.

(** What a caller that last saw the head [prev] holds. *)
Definition seen t (prev : option string) : list message :=
  match prev with Some p => getHistory t (Some p) | None => [] end.

(** History deltas are exact.  Whatever head a caller last saw, the entries of the delta,
    appended to the history of that head or, when the delta says so, to nothing, are the
    history of the leaf; and the delta asks for a rebuild just when the previous head is not
    on the branch. *)
Theorem history_delta_rebuilds t prev leaf :
  built idGenerator t ->
  let d := getHistoryDelta t prev leaf in
  (if d_reset d then [] else seen t prev) ++ d_messages d = getHistory t leaf /\
  (d_reset d = true <->
   exists p, prev = Some p /\ forall head, d_headId d = Some head -> ~ ancestor t p head).
Proof.
  intros W%built_wf. unfold getHistoryDelta. destruct (target t leaf) as [n|] eqn:Ht.
  2: { unfold getHistory. rewrite Ht. simpl. split; [by destruct prev|]. rewrite bool_decide_eq_true.
       split; [intros [p ->]; naive_solver|intros (p & -> & _); eauto]. }
  pose proof (target_spec t leaf n Ht) as Hin. destruct (chain_of t n W Hin) as (l & Hc & Hl).
  rewrite (delta_chain t n l) by done. rewrite (getHistory_chain t leaf n l) by done.
  pose proof (below_spec prev l) as Hb. pose proof (fun a => ancestor_chain_iff t n l a W Hin Hc) as Ha.
  destruct (below prev l) as [k|]; simpl.
  - destruct Hb as (x & k' & -> & ->). simpl. split.
    + pose proof (chain_suffix t n _ x k k' Hc eq_refl) as Hx.
      assert (Hxin : x ∈ nodes t) by (eapply chain_incl; [done..|]; apply elem_of_app; right; by left).
      rewrite (getHistory_chain t _ x _ W (target_get t _ x W (get_in t x (wf_ids t W) Hxin)) Hx).
      by rewrite <- rev_app_distr, map_app.
    + split; [done|]. intros (p & [= <-] & Hno). destruct (Hno _ eq_refl). apply Ha.
      rewrite map_app. apply elem_of_app. right. by left.
  - split.
    + by destruct prev.
    + rewrite bool_decide_eq_true. split; [intros [p ->]|intros (p & -> & _); eauto].
      exists p. split; [done|]. intros head [= <-] Hanc%Ha.
      apply list_elem_of_fmap_1 in Hanc as (x & -> & Hx). by destruct (Hb x Hx).
Qed.

(** * Common ancestors *)

Lemma path_ids t n l : wf_tree t -> n ∈ nodes t -> chain t n l -> getPathToRoot t (n_id n) = map n_id l.
Proof.
  intros W Hin Hc. unfold getPathToRoot. rewrite (get_in t n (wf_ids t W) Hin), (path_chain t n l); [done|done|].
  destruct (chain_of t n W Hin) as (l' & Hc' & Hl). by rewrite (chain_fun t n l l' Hc Hc').
Qed.

Lemma find_split {A : Type} (P : A -> bool) (l : list A) :
  match List.find P l with
  | Some x => exists k1 k2, l = k1 ++ x :: k2 /\ P x = true /\ forall y, y ∈ k1 -> P y = false
  | None => forall y, y ∈ l -> P y = false
  end.
Proof.
  induction l as [|x l IH]; simpl; [intros y Hy; inversion Hy|]. destruct (P x) eqn:E.
  - exists [], l. split_and!; [done|done|]. intros y Hy. inversion Hy.
  - destruct (List.find P l) as [z|].
    + destruct IH as (k1 & k2 & -> & Hz & Hk). exists (x :: k1), k2. split_and!; [done|done|].
      intros y [->|Hy]%elem_of_cons; auto.
    + intros y [->|Hy]%elem_of_cons; auto.
Qed.

(** [findCommonAncestor] finds the lowest common ancestor: a node that is an ancestor of
    both (each node being an ancestor of itself) and below every other common ancestor; it
    answers [null] only when the two nodes have no common ancestor. *)
Theorem findCommonAncestor_lowest t a b :
  built idGenerator t -> has t a = true -> has t b = true ->
  match findCommonAncestor t a b with
  | Some c => ancestor t c a /\ ancestor t c b /\ forall x, ancestor t x a -> ancestor t x b -> ancestor t x c
  | None => forall x, ancestor t x a -> ~ ancestor t x b
  end.
Proof.
  intros W%built_wf Ha Hb. unfold findCommonAncestor. rewrite Ha, Hb. simpl.
  case_bool_decide as E; [subst b; split_and!; [by apply ancestor_self..|done]|].
  destruct (proj1 (has_get t a) Ha) as [n Hn], (proj1 (has_get t b) Hb) as [n' Hn'].
  rewrite Hn'. apply get_some in Hn as [Hin <-], Hn' as [Hin' <-].
  destruct (chain_of t n W Hin) as (l & Hc & Hl), (chain_of t n' W Hin') as (l' & Hc' & Hl').
  rewrite (path_ids t n l), (ancestor_chain t n' l') by done.
  pose proof (fun x => ancestor_chain_iff t n l x W Hin Hc) as Hx.
  pose proof (fun x => ancestor_chain_iff t n' l' x W Hin' Hc') as Hx'.
  pose proof (find_split (fun x => bool_decide (x ∈@{gset string} list_to_set (map n_id l))) (map n_id l')) as Hf.
  destruct (List.find _ _) as [c|].
  - destruct Hf as (k1 & k2 & Ek & Hc1 & Hk). apply bool_decide_eq_true, elem_of_list_to_set in Hc1.
    split_and!; [by apply Hx|apply Hx'; rewrite Ek; apply elem_of_app; right; by left|].
    intros x Hxa%Hx Hxb%Hx'. rewrite Ek in Hxb. apply elem_of_app in Hxb as [Hxb|Hxb].
    { specialize (Hk x Hxb). apply bool_decide_eq_false in Hk. by destruct Hk; apply elem_of_list_to_set. }
    apply map_eq_app in Ek as (l1 & l2 & -> & <- & E2).
    apply map_eq_cons in E2 as (m & l3 & -> & <- & <-).
    assert (Hm : m ∈ nodes t) by (eapply (chain_incl t n'); [done..|]; apply elem_of_app; right; by left).
    by apply (ancestor_chain_iff t m (m :: l3) x W Hm (chain_suffix t n' _ m l1 l3 Hc' eq_refl)).
  - intros x Hxa%Hx Hxb%Hx'. specialize (Hf x Hxb). apply bool_decide_eq_false in Hf.
    by destruct Hf; apply elem_of_list_to_set.
Qed.

(** * Appending *)

Lemma get_adopted t t' parent id new x q :
  wf_tree t' -> nodes t' = map (adopt parent id) (nodes t) ++ [new] ->
  get t x = Some q -> get t' x = Some (adopt parent id q).
Proof.
  intros W Hn Hq. apply get_some in Hq as [Hin <-]. rewrite <- (adopt_id parent id q). apply get_in; [apply W|].
  rewrite Hn. apply elem_of_app. left. by apply list_elem_of_In, in_map, list_elem_of_In.
Qed.

Lemma chain_adopted t t' parent id new n l :
  wf_tree t -> wf_tree t' -> nodes t' = map (adopt parent id) (nodes t) ++ [new] ->
  n ∈ nodes t -> chain t n l -> chain t' (adopt parent id n) (map (adopt parent id) l).
Proof.
  intros W W' Hn Hin Hc. induction Hc as [n E|n p l E Hc IH]; simpl.
  - apply chain_root. unfold parent_node in *. rewrite adopt_parent.
    destruct (n_parentId n) as [p|] eqn:Ep; [|done].
    destruct (parent_get t n p W Hin Ep) as (q & Hq & _). unfold parent_node in Hq. by rewrite Ep, E in Hq.
  - apply list_elem_of_lookup_1 in Hin as [i Hi]. destruct (parent_lookup t i n p W Hi E) as (Hp & j & _ & Hj).
    apply list_elem_of_lookup_2 in Hj. apply (chain_up t' _ (adopt parent id p)); [|by apply IH].
    unfold parent_node in *. rewrite adopt_parent. destruct (truthy (n_parentId n)); [|done]. simpl in *.
    by eapply get_adopted.
Qed.

Lemma adopted_messages parent id l : map n_message (map (adopt parent id) l) = map n_message l.
Proof. rewrite map_map. apply map_ext. intros. apply adopt_message. Qed.

(** A new message extends one history and changes no other.  After [addMessage] the new
    node is the active leaf, its history is the history of its parent followed by the message,
    and every node that existed keeps its history. *)
Theorem addMessage_extends_history t t' now m pid metadata id :
  built idGenerator t -> addMessage idGenerator t now m pid metadata = (t', Ok id) ->
  currentLeafId t' = Some id /\
  getHistory t' (Some id) =
    seen t (match pid with Some p => p | None => currentLeafId t end) ++ [with_id m id] /\
  forall x, has t x = true -> getHistory t' (Some x) = getHistory t (Some x).
Proof.
  intros W%built_wf E. pose proof (addMessage_cases t now m pid metadata W) as H.
  pose proof (wf_addMessage t now m pid metadata W) as W'. rewrite E in H, W'. cbn [fst] in W'. cbv zeta in H.
  set (parent := match pid with Some p => p | None => _ end) in *. set (new := MkNode _ _ _ _ _ _) in H.
  destruct H as (Hid & Hfresh & Hpar & Hn & Hleaf & _ & _).
  assert (Hold : forall x n l, get t x = Some n -> chain t n l ->
    target t' (Some x) = Some (adopt parent id n) /\ chain t' (adopt parent id n) (map (adopt parent id) l)).
  { intros x n l Hx Hc. split; [exact (target_get t' x _ W' (get_adopted t t' parent id new x n W' Hn Hx))|].
    apply get_some in Hx as [Hin _]. exact (chain_adopted t t' parent id new n l W W' Hn Hin Hc). }
  assert (Hnew : target t' (Some id) = Some new).
  { apply target_get; [done|]. apply (get_in t' new); [apply W'|]. rewrite Hn. apply elem_of_app. right.
    by apply list_elem_of_singleton. }
  split_and!; [done| |].
  - destruct parent as [p|] eqn:Ep.
    + destruct (proj1 (has_get t p) (Hpar p eq_refl)) as [n Hnp]. apply get_some in Hnp as Hp. destruct Hp as [Hin Hpid].
      destruct (chain_of t n W Hin) as (l & Hc & _). destruct (Hold p n l Hnp Hc) as [Htp Hcp].
      simpl. rewrite (getHistory_chain t _ n l W (target_get t p n W Hnp) Hc).
      rewrite (getHistory_chain t' _ new (new :: map (adopt (Some p) id) l) W' Hnew).
      * simpl. by rewrite adopted_messages.
      * apply (chain_up t' new (adopt (Some p) id n)); [|done]. unfold parent_node, new. cbn [n_parentId].
        rewrite truthy_nonempty by (rewrite <- Hpid; by apply (wf_names t W)).
        exact (get_adopted t t' (Some p) id new p n W' Hn Hnp).
    + rewrite (getHistory_chain t' _ new [new] W' Hnew); [done|]. by apply chain_root.
  - intros x [n Hx]%has_get. apply get_some in Hx as Hp. destruct Hp as [Hin _].
    destruct (chain_of t n W Hin) as (l & Hc & _). destruct (Hold x n l Hx Hc) as [Htp Hcp].
    rewrite (getHistory_chain t' _ _ _ W' Htp Hcp), adopted_messages.
    by rewrite (getHistory_chain t _ n l W (target_get t x n W Hx) Hc).
Qed.

(** * The path without branch labels *)

(** The label [l] of the path [raw] is replaced by [k], the first message after it that is
    not a label. *)
Definition replaced_by (raw : list message) (l k : string) : Prop :=
  exists p1 e p2 m p3, raw = p1 ++ e :: p2 ++ m :: p3 /\ m_id e = Some l /\ is_label e = true /\
    (forall x, x ∈ p2 -> is_label x = true) /\ is_label m = false /\ m_id m = Some k.

Definition waiting (pre : list message) (l : string) : Prop :=
  exists p1 e p2, pre = p1 ++ e :: p2 /\ m_id e = Some l /\ is_label e = true /\
    forall x, x ∈ p2 -> is_label x = true.

Definition kept (m : message) : bool := negb (is_label m).

(** What the clean path does to the boundary [b] of a message, given the path up to it. *)
Definition boundary_fixed (pre : list message) (b b' : string) : Prop :=
  forall e, e ∈ pre -> m_id e = Some b -> if is_label e then replaced_by pre b b' else b' = b.

Record cleaning (pre : list message) (pending : list string) (replacement : gmap string string)
    (cleaned : list message) : Prop := MkCleaning {
  cl_ids : map m_id cleaned = map m_id (List.filter kept pre);
  cl_pending : forall l, l ∈ pending -> waiting pre l;
  cl_replaced : forall l k, replacement !! l = Some k -> replaced_by pre l k;
  cl_labels : forall e l, e ∈ pre -> is_label e = true -> m_id e = Some l -> l ∈ pending \/ is_Some (replacement !! l);
  cl_plain : forall m, m ∈ pre -> is_label m = false -> truthy (m_firstKeptEntryId m) = None -> m ∈ cleaned;
  cl_boundary : forall before m after b, pre = before ++ m :: after -> is_label m = false ->
    truthy (m_firstKeptEntryId m) = Some b ->
    exists b', set_boundary m b' ∈ cleaned /\ boundary_fixed (before ++ [m]) b b'
}.

Lemma replaced_mono pre k l x : replaced_by pre l x -> replaced_by (pre ++ k) l x.
Proof.
  intros (p1 & e & p2 & m & p3 & -> & H). exists p1, e, p2, m, (p3 ++ k). split; [|done].
  by rewrite <- app_assoc, <- app_comm_cons, <- app_assoc, <- app_comm_cons.
Qed.

Lemma foldl_replace (pending : list string) id (r : gmap string string) l :
  foldl (fun r l => <[l := id]> r) r pending !! l = if decide (l ∈ pending) then Some id else r !! l.
Proof.
  revert r. induction pending as [|x pending IH]; intros r; simpl; [done|]. rewrite IH.
  destruct (decide (l ∈ pending)) as [Hl|Hl].
  - rewrite decide_True; [done|]. by right.
  - destruct (decide (l = x)) as [->|Hne].
    + rewrite decide_True by (by left). by rewrite lookup_insert_eq.
    + rewrite decide_False; [by rewrite lookup_insert_ne|]. intros [?|?]%elem_of_cons; done.
Qed.

Lemma app_snoc_cases {A : Type} (pre before after : list A) (m x : A) :
  pre ++ [m] = before ++ x :: after ->
  (after = [] /\ before = pre /\ x = m) \/ exists after', after = after' ++ [m] /\ pre = before ++ x :: after'.
Proof.
  intros E. destruct (rev after) as [|y after'] eqn:Er.
  - left. apply (f_equal (@rev A)) in Er. rewrite rev_involutive in Er. simpl in Er. subst after.
    apply app_inj_tail in E. naive_solver.
  - right. apply (f_equal (@rev A)) in Er. rewrite rev_involutive in Er. simpl in Er. subst after.
    rewrite app_comm_cons, app_assoc in E. apply app_inj_tail in E as [-> ->]. by exists (rev after').
Qed.

Lemma cleaning_label pre pending replacement cleaned m id :
  cleaning pre pending replacement cleaned -> is_label m = true -> m_id m = Some id ->
  cleaning (pre ++ [m]) (pending ++ [id]) replacement cleaned.
Proof.
  intros [I1 I2 I3 I4 I5 I6] Hm Hid. constructor.
  - rewrite List.filter_app. replace (List.filter kept [m]) with (@nil message) by (simpl; unfold kept; by rewrite Hm).
    by rewrite app_nil_r.
  - intros l [Hl|Hl]%elem_of_app.
    + destruct (I2 l Hl) as (p1 & e & p2 & -> & He & Hlab & Hp2). exists p1, e, (p2 ++ [m]).
      split_and!; [by rewrite <- app_assoc|done..|]. intros x [Hx|Hx]%elem_of_app; [by apply Hp2|].
      by apply list_elem_of_singleton in Hx as ->.
    + apply list_elem_of_singleton in Hl as ->. exists pre, m, []. split_and!; [done..|]. intros x Hx. inversion Hx.
  - intros l k Hl. by apply replaced_mono, I3.
  - intros e l [He|He]%elem_of_app Hlab Hl.
    + destruct (I4 e l He Hlab Hl); [left; apply elem_of_app; by left|by right].
    + apply list_elem_of_singleton in He as ->. left. apply elem_of_app. right. apply list_elem_of_singleton. congruence.
  - intros x [Hx|Hx]%elem_of_app; [by apply I5|]. apply list_elem_of_singleton in Hx as ->. congruence.
  - intros before x after b [(-> & -> & ->)|(after' & -> & ->)]%app_snoc_cases Hx; [congruence|].
    by apply (I6 before x after').
Qed.

Lemma cleaning_kept pre pending replacement cleaned m id :
  let replacement' := foldl (fun r l => <[l := id]> r) replacement pending in
  let m' := match truthy (m_firstKeptEntryId m) with
            | Some b => set_boundary m (default b (replacement' !! b))
            | None => m
            end in
  cleaning pre pending replacement cleaned -> is_label m = false -> m_id m = Some id ->
  NoDup (map m_id (pre ++ [m])) ->
  cleaning (pre ++ [m]) [] replacement' (cleaned ++ [m']).
Proof.
  intros replacement' m' [I1 I2 I3 I4 I5 I6] Hm Hid Hnd.
  assert (Hrep : forall l k, replacement' !! l = Some k -> replaced_by (pre ++ [m]) l k).
  { intros l k. unfold replacement'. rewrite foldl_replace. destruct (decide (l ∈ pending)) as [Hl|Hl].
    - intros [= <-]. destruct (I2 l Hl) as (p1 & e & p2 & -> & He & Hlab & Hp2). exists p1, e, p2, m, [].
      split_and!; [by rewrite <- app_assoc|done..].
    - intros H. by apply replaced_mono, I3. }
  assert (Hall : forall e l, e ∈ pre ++ [m] -> is_label e = true -> m_id e = Some l -> is_Some (replacement' !! l)).
  { intros e l [He|He]%elem_of_app Hlab Hl; [|apply list_elem_of_singleton in He as ->; congruence].
    unfold replacement'. rewrite foldl_replace. destruct (decide (l ∈ pending)); [by eexists|].
    by destruct (I4 e l He Hlab Hl). }
  assert (Hm' : m_id m' = m_id m) by (unfold m'; by destruct (truthy (m_firstKeptEntryId m))).
  constructor.
  - rewrite map_app, I1, List.filter_app, map_app. f_equal. simpl. unfold kept. rewrite Hm. simpl. by rewrite Hm'.
  - intros l Hl. inversion Hl.
  - done.
  - intros e l He Hlab Hl. right. by eapply Hall.
  - intros x [Hx|Hx]%elem_of_app Hlab Hb; apply elem_of_app; [left; by apply I5|right].
    apply list_elem_of_singleton in Hx as ->. unfold m'. rewrite Hb. by left.
  - intros before x after b [(-> & -> & ->)|(after' & -> & ->)]%app_snoc_cases Hx Hb.
    2: { destruct (I6 before x after' b eq_refl Hx Hb) as (b' & Hin & Hfix). exists b'. split; [|done].
         apply elem_of_app. by left. }
    exists (default b (replacement' !! b)). split.
    { apply elem_of_app. right. unfold m'. rewrite Hb. by left. }
    intros e He Heb. destruct (is_label e) eqn:Hlab.
    + destruct (Hall e b He Hlab Heb) as [k Hk]. rewrite Hk. by apply Hrep.
    + destruct (replacement' !! b) as [k|] eqn:Hk; [exfalso|done].
      destruct (Hrep b k Hk) as (p1 & e' & p2 & x & p3 & Ep & He' & Hlab' & _).
      assert (e = e') as ->; [|congruence].
      assert (He'in : e' ∈ pre ++ [m]) by (rewrite Ep; apply elem_of_app; right; by left).
      apply list_elem_of_lookup_1 in He as [i Hi], He'in as [j Hj].
      assert (i = j) as ->; [|congruence]. apply (NoDup_lookup _ i j (Some b) Hnd).
      * change (map m_id (pre ++ [m])) with (m_id <$> (pre ++ [m])). rewrite list_lookup_fmap, Hi. simpl. by rewrite Heb.
      * change (map m_id (pre ++ [m])) with (m_id <$> (pre ++ [m])). rewrite list_lookup_fmap, Hj. simpl. by rewrite He'.
Qed.

Lemma clean_loop_cleaning raw pre pending replacement cleaned :
  cleaning pre pending replacement cleaned -> NoDup (map m_id (pre ++ raw)) ->
  (forall m, m ∈ raw -> exists id, m_id m = Some id /\ id <> EmptyString) ->
  exists pending' replacement', cleaning (pre ++ raw) pending' replacement' (clean_loop raw pending replacement cleaned).
Proof.
  revert pre pending replacement cleaned. induction raw as [|m raw IH]; intros pre pending replacement cleaned H Hnd Hid.
  - rewrite app_nil_r. by exists pending, replacement.
  - destruct (Hid m) as (id & Hm & Hne); [by left|].
    assert (Hid' : forall x, x ∈ raw -> exists id, m_id x = Some id /\ id <> EmptyString) by (intros; apply Hid; by right).
    replace (pre ++ m :: raw) with ((pre ++ [m]) ++ raw) in * by (by rewrite <- app_assoc).
    cbn [clean_loop]. rewrite Hm, truthy_nonempty by done. destruct (is_label m) eqn:Hlab.
    + apply IH; [by apply cleaning_label|done|done].
    + rewrite map_app in Hnd. apply NoDup_app in Hnd as Hnd'. destruct Hnd' as [Hnd' _].
      pose proof (cleaning_kept pre pending replacement cleaned m id H Hlab Hm Hnd') as H'. cbv zeta in H'.
      rewrite <- map_app in Hnd. destruct (truthy (m_firstKeptEntryId m)); apply IH; done.
Qed.

Lemma chain_nodup t i n l :
  wf_tree t -> nodes t !! i = Some n -> chain t n l ->
  NoDup l /\ forall x, x ∈ l -> exists j, j <= i /\ nodes t !! j = Some x.
Proof.
  intros W Hi Hc. revert i Hi. induction Hc as [n E|n p l E Hc IH]; intros i Hi.
  - split; [apply NoDup_singleton|]. intros x ->%list_elem_of_singleton. eauto.
  - destruct (parent_lookup t i n p W Hi E) as (_ & j & Hj & Hp). destruct (IH j Hp) as [Hnd Hl]. split.
    + apply NoDup_cons. split; [|done]. intros Hin. destruct (Hl n Hin) as (k & Hk & Hnk).
      assert (i = k); [|lia]. apply (NoDup_lookup _ i k (n_id n) (wf_ids t W)); rewrite list_lookup_fmap.
      * by rewrite Hi.
      * by rewrite Hnk.
    + intros x [->|Hx]%elem_of_cons; [eauto|]. destruct (Hl x Hx) as (k & Hk & Hxk). exists k. split; [lia|done].
Qed.

Lemma history_names t leaf :
  wf_tree t ->
  NoDup (map m_id (getHistory t leaf)) /\
  forall m, m ∈ getHistory t leaf -> exists id, m_id m = Some id /\ id <> EmptyString.
Proof.
  intros W. destruct (target t leaf) as [n|] eqn:Ht.
  2: { unfold getHistory. rewrite Ht. split; [constructor|]. intros m Hm. inversion Hm. }
  pose proof (target_spec t leaf n Ht) as Hin. destruct (chain_of t n W Hin) as (l & Hc & _).
  rewrite (getHistory_chain t leaf n l W Ht Hc). pose proof (chain_incl t n l W Hin Hc) as Hl.
  apply list_elem_of_lookup_1 in Hin as [i Hi]. destruct (chain_nodup t i n l W Hi Hc) as [Hnd _]. split.
  - rewrite map_rev, map_map. apply NoDup_ListNoDup, List.NoDup_rev, NoDup_ListNoDup. clear Hc Hi.
    induction l as [|x l IH]; simpl; [constructor|]. apply NoDup_cons in Hnd as [Hx Hnd]. apply NoDup_cons. split.
    + intros Hm. apply list_elem_of_In, in_map_iff in Hm as (y & Hy & Hyl%list_elem_of_In).
      apply Hx. rewrite (wf_messages t W x), (wf_messages t W y) in Hy by (apply Hl; first [by left|by right]).
      assert (x = y) as ->; [|done]. injection Hy as Hy. symmetry in Hy.
      apply (ids_inj (nodes t)); [apply W|apply Hl; by left|apply Hl; by right|done].
    + apply IH; [|done]. intros y Hy. apply Hl. by right.
  - intros m Hm. apply list_elem_of_In in Hm. apply List.in_rev in Hm.
    apply in_map_iff in Hm as (x & <- & Hx%list_elem_of_In). exists (n_id x).
    split; [by apply (wf_messages t W), Hl|by apply (wf_names t W), Hl].
Qed.

(** The clean path loses no message and leaves no boundary dangling.  It keeps, in order,
    exactly the messages of the path that are not branch labels; a message without a
    compaction boundary is unchanged; a boundary that names an entry of the path up to its
    message is kept when the entry is, and otherwise moved to the first message after the
    label. *)
Theorem clean_path_keeps_boundaries t leaf :
  built idGenerator t ->
  let raw := getHistory t leaf in
  let clean := getCleanHistoryPath t leaf in
  map m_id clean = map m_id (List.filter kept raw) /\
  (forall m, m ∈ raw -> is_label m = false -> truthy (m_firstKeptEntryId m) = None -> m ∈ clean) /\
  (forall before m after b, raw = before ++ m :: after -> is_label m = false ->
     truthy (m_firstKeptEntryId m) = Some b ->
     exists b', set_boundary m b' ∈ clean /\ boundary_fixed (before ++ [m]) b b').
Proof.
  intros W%built_wf raw clean. destruct (history_names t leaf W) as [Hnd Hid].
  destruct (clean_loop_cleaning raw [] [] ∅ []) as (pending & replacement & H); [|done|done|].
  - constructor; [done|intros l Hl; inversion Hl|done|intros e l He; inversion He|intros m Hm; inversion Hm|].
    intros [|? ?] ? ? ? E; discriminate E.
  - split; [apply H|]. split; [apply H|apply H].
Qed.
End Gen.

(** * The theorems at a concrete tree *)

Definition demo_gen (k : nat) : string := String (Ascii.ascii_of_nat (64 + k)) "node".

Lemma demo_gen_named k : demo_gen k <> EmptyString.
Proof. discriminate. Qed.

Definition demo_message (id : string) (boundary : option string) : message :=
  MkMessage (Some id) "user" None boundary (OpaqueContent "text").

Lemma built_calls gen t evs : built gen t -> built gen (foldl (fun t ev => tree_step gen t 0 ev) t evs).
Proof. revert t. induction evs as [|ev evs IH]; intros t H; [done|]. by apply IH, built_step. Qed.

(** Two branches below ["b"]: one with a label and a summary whose boundary is the label. *)
Definition demo_tree : tree :=
  foldl (fun t ev => tree_step demo_gen t 0 ev) empty_tree
    [TAdd (demo_message "a" None) None None;
     TAdd (demo_message "b" None) None None;
     TMarker "what if" None;
     TAdd (demo_message "c" None) None None;
     TAdd (demo_message "s" (Some "Anode"%string)) None None;
     TNavigate "b";
     TAdd (demo_message "d" None) None None].

Lemma demo_built : built demo_gen demo_tree.
Proof. apply built_calls, built_empty. Qed.

Lemma history_delta_rebuilds_witness :
  let d := getHistoryDelta demo_tree (Some "a"%string) (Some "s"%string) in
  (if d_reset d then [] else seen demo_tree (Some "a"%string)) ++ d_messages d =
    getHistory demo_tree (Some "s"%string) /\
  (d_reset d = true <->
   exists p, Some "a"%string = Some p /\ forall head, d_headId d = Some head -> ~ ancestor demo_tree p head).
Proof. exact (history_delta_rebuilds demo_gen demo_gen_named demo_tree (Some "a"%string) (Some "s"%string) demo_built). Defined.

Lemma findCommonAncestor_lowest_witness :
  findCommonAncestor demo_tree "s" "d" = Some "b"%string /\
  ancestor demo_tree "b" "s" /\ ancestor demo_tree "b" "d" /\
  forall x, ancestor demo_tree x "s" -> ancestor demo_tree x "d" -> ancestor demo_tree x "b".
Proof.
  split; [reflexivity|].
  exact (findCommonAncestor_lowest demo_gen demo_gen_named demo_tree "s" "d" demo_built eq_refl eq_refl).
Defined.

Lemma addMessage_extends_history_witness :
  exists t', addMessage demo_gen demo_tree 0 (demo_message "e" None) (Some (Some "c"%string)) None = (t', Ok "e"%string) /\
  currentLeafId t' = Some "e"%string /\
  getHistory t' (Some "e"%string) = seen demo_tree (Some "c"%string) ++ [demo_message "e" None] /\
  forall x, has demo_tree x = true -> getHistory t' (Some x) = getHistory demo_tree (Some x).
Proof.
  eexists. split; [reflexivity|].
  exact (addMessage_extends_history demo_gen demo_gen_named demo_tree _ 0 (demo_message "e" None)
           (Some (Some "c"%string)) None "e" demo_built eq_refl).
Defined.

Lemma clean_path_keeps_boundaries_witness :
  let raw := getHistory demo_tree (Some "s"%string) in
  let clean := getCleanHistoryPath demo_tree (Some "s"%string) in
  (m_firstKeptEntryId <$> last clean) = Some (Some "c"%string) /\
  map m_id clean = map m_id (List.filter kept raw) /\
  (forall m, m ∈ raw -> is_label m = false -> truthy (m_firstKeptEntryId m) = None -> m ∈ clean) /\
  (forall before m after b, raw = before ++ m :: after -> is_label m = false ->
     truthy (m_firstKeptEntryId m) = Some b ->
     exists b', set_boundary m b' ∈ clean /\ boundary_fixed (before ++ [m]) b b').
Proof.
  split; [reflexivity|].
  exact (clean_path_keeps_boundaries demo_gen demo_gen_named demo_tree (Some "s"%string) demo_built).
Defined.
