(* ===== verification/Json.v ===== *)
(** JSON values as the reducers see them: the payload of a journal entry is dynamically
    typed, so fields are read with the coercions of the source.  [None] is [undefined].

    Modelling choices: numbers are integers; an object is the association list of its own
    properties in insertion order. *)

From S2P Require Import Prelude.

Inductive json : Type :=
| JNull
| JBool (b : bool)
| JNum (n : Z)
| JStr (s : string)
| JArr (items : list json)
| JObj (fields : list (string * json)).

Definition fields : Type := list (string * json).

(** [value?.key], for a key that is no built-in property. *)
Definition field (v : option json) (key : string) : option json :=
  match v with Some (JObj fs) => assoc_get fs key | _ => None end.

(** A value used as a condition. *)
Definition is_true (v : option json) : bool :=
  match v with
  | None | Some JNull => false
  | Some (JBool b) => b
  | Some (JNum n) => negb (n =? 0)%Z
  | Some (JStr s) => negb (bool_decide (s = EmptyString))
  | Some (JArr _) | Some (JObj _) => true
  end.

(** [a || b] and [a ?? b]. *)
Definition js_or (a b : option json) : option json := if is_true a then a else b.
Definition coalesce (a b : option json) : option json :=
  match a with None | Some JNull => b | _ => a end.

Definition as_string (v : option json) : option string := match v with Some (JStr s) => Some s | _ => None end.
Definition as_number (v : option json) : option Z := match v with Some (JNum n) => Some n | _ => None end.

Definition is_str (v : option json) (s : string) : bool := bool_decide (as_string v = Some s).

(** [isRecord]. *)
Definition record_fields (v : option json) : option fields :=
  match v with Some (JObj fs) => Some fs | _ => None end.
Definition isRecord (v : json) : bool := match v with JObj _ => true | _ => false end.

(** [{ ...v }] of an object; other JSON values are not spread by the code. *)
Definition spread_fields (v : json) : fields := match v with JObj fs => fs | _ => [] end.

(** A property present only when its value is defined. *)
Definition opt_field (key : string) (v : option json) : fields :=
  match v with Some v => [(key, v)] | None => [] end.
