(* ===== verification/Frames.v ===== *)
(** Durable frames of a streaming assistant message (agent-core/src/turn/assistant-frames.ts):
    the encoder that turns stream events into frames, and the reduction that rebuilds the
    partial message from the frames found after a crash.

    [JSON_parse] is the engine's [JSON.parse], [None] for a syntax error; the theorems hold
    for any such function.  The length of the raw arguments, which only the encoder's own
    state records, is counted in bytes. *)

From S2P Require Import Prelude Json.

(** * Data *)

Record tool_call : Type := MkToolCall { tc_id : string; tc_name : string; tc_arguments : json }.

Inductive block : Type :=
| TextBlock (text : string)
| ThinkingBlock (thinking : string) (providerBlockIndex : option Z) (providerSignature : option string)
| ToolCallBlock (call : tool_call).

(** The stream events; [OtherEvent] stands for [usage], [error] and unknown types. *)
Inductive stream_event : Type :=
| AttemptReset
| TextDelta (textDelta : string)
| ThinkingDelta (thinkingDelta : string) (blockIndex : option Z)
| ThinkingSignature (blockIndex : Z) (providerSignature : string)
| ToolCallStart (toolCallId toolName : string)
| ToolCallDelta (toolCallId argsDelta : string)
| ToolCallEnd (toolCall : tool_call)
| OtherEvent.

Inductive frame : Type :=
| FReset
| FTextStart (index : nat) (text : string)
| FTextDelta (index : nat) (delta : string)
| FThinkingStart (index : nat) (thinking : string) (providerBlockIndex : option Z)
| FThinkingDelta (index : nat) (delta : string)
| FThinkingSignature (index : nat) (providerSignature : string)
| FToolCallStart (index : nat) (toolCallId toolName : string)
| FToolCallArgs (index : nat) (toolCallId delta : string)
| FToolCallEnd (index : nat) (toolCall : tool_call)
| FOther.

(** The keys of [thinkingIndexes]: ['default'] and [`provider:${n}`]. *)
Inductive thinking_key : Type := DefaultThinking | ProviderThinking (blockIndex : Z).

#[export] Instance thinking_key_eq_dec : EqDecision thinking_key.
Proof. solve_decision. Defined.

Record call_state : Type := MkCallState { cs_index : nat; cs_open : bool; cs_argsLength : nat }.

Record encoder : Type := MkEncoder {
  nextIndex : nat;
  textIndex : option nat;
  thinkingIndexes : list (thinking_key * nat);
  toolCallState : gmap string call_state
}.

Definition new_encoder : encoder := MkEncoder 0 None [] ∅.

Definition thinking_index (e : encoder) (key : thinking_key) : option nat :=
  snd <$> List.find (fun '(k, _) => bool_decide (k = key)) (thinkingIndexes e).

Definition key_of (blockIndex : option Z) : thinking_key :=
  match blockIndex with None => DefaultThinking | Some n => ProviderThinking n end.

(** * The encoder *)

Definition encode (e : encoder) (event : stream_event) : encoder * option frame :=
  match event with
  | TextDelta delta =>
      match textIndex e with
      | None =>
          (MkEncoder (S (nextIndex e)) (Some (nextIndex e)) (thinkingIndexes e) (toolCallState e),
           Some (FTextStart (nextIndex e) delta))
      | Some i => (e, Some (FTextDelta i delta))
      end
  | ThinkingDelta delta blockIndex =>
      match thinking_index e (key_of blockIndex) with
      | None =>
          (MkEncoder (S (nextIndex e)) (textIndex e) (thinkingIndexes e ++ [(key_of blockIndex, nextIndex e)])
             (toolCallState e),
           Some (FThinkingStart (nextIndex e) delta blockIndex))
      | Some i => (e, Some (FThinkingDelta i delta))
      end
  | ThinkingSignature blockIndex signature =>
      match thinking_index e (ProviderThinking blockIndex) with
      | None => (e, None)
      | Some i => (e, Some (FThinkingSignature i signature))
      end
  | ToolCallStart id name =>
      match toolCallState e !! id with
      | Some _ => (e, None)
      | None =>
          (MkEncoder (S (nextIndex e)) (textIndex e) (thinkingIndexes e)
             (<[id := MkCallState (nextIndex e) true 0]> (toolCallState e)),
           Some (FToolCallStart (nextIndex e) id name))
      end
  | ToolCallDelta id delta =>
      match toolCallState e !! id with
      | Some (MkCallState i true n) =>
          (MkEncoder (nextIndex e) (textIndex e) (thinkingIndexes e)
             (<[id := MkCallState i true (n + String.length delta)]> (toolCallState e)),
           Some (FToolCallArgs i id delta))
      | _ => (e, None)
      end
  | ToolCallEnd call =>
      match toolCallState e !! tc_id call with
      | Some (MkCallState i true n) =>
          (MkEncoder (nextIndex e) (textIndex e) (thinkingIndexes e)
             (<[tc_id call := MkCallState i false n]> (toolCallState e)),
           Some (FToolCallEnd i call))
      | _ => (e, None)
      end
  | OtherEvent => (e, None)
  | AttemptReset => (new_encoder, Some FReset)
  end.

Fixpoint encode_all (e : encoder) (events : list stream_event) : list frame :=
  match events with
  | [] => []
  | event :: events =>
      let '(e, f) := encode e event in
      match f with Some f => f :: encode_all e events | None => encode_all e events end
  end.

(** * The reduction *)

(** The array [content], with its holes, and [rawArgsByIndex]. *)
Record partial : Type := MkPartial { content : list (option block); rawArgs : list (nat * string) }.

(** [content[index] = block], extending the array with holes. *)
Definition set_block (c : list (option block)) (index : nat) (b : block) : list (option block) :=
  <[index := Some b]> (c ++ replicate (S index - length c) None).

Definition get_block (c : list (option block)) (index : nat) : option block := mjoin (c !! index).

(** Each [ensure...Block] followed by the assignment [f] its caller makes to the block. *)
Definition on_text (c : list (option block)) (index : nat) (f : string -> string) : list (option block) :=
  match get_block c index with
  | Some (TextBlock t) => set_block c index (TextBlock (f t))
  | _ => set_block c index (TextBlock (f EmptyString))
  end.

Definition on_thinking (c : list (option block)) (index : nat) (providerBlockIndex : option Z)
    (f : string -> string) (signature : option string) : list (option block) :=
  match get_block c index with
  | Some (ThinkingBlock t p s) =>
      set_block c index
        (ThinkingBlock (f t) (match providerBlockIndex with Some _ => providerBlockIndex | None => p end)
           (match signature with Some _ => signature | None => s end))
  | _ => set_block c index (ThinkingBlock (f EmptyString) providerBlockIndex signature)
  end.

Definition ensureToolCallBlock (c : list (option block)) (index : nat) (id name : string) : list (option block) :=
  match get_block c index with
  | Some (ToolCallBlock _) => c
  | _ => set_block c index (ToolCallBlock (MkToolCall id name (JObj [])))
  end.

Fixpoint raw_set (l : list (nat * string)) (i : nat) (f : string -> string) : list (nat * string) :=
  match l with
  | [] => [(i, f EmptyString)]
  | (j, s) :: l => if (j =? i)%nat then (j, f s) :: l else (j, s) :: raw_set l i f
  end.

Definition apply_frame (p : partial) (f : frame) : partial :=
  match f with
  | FReset => MkPartial [] []
  | FTextStart i text => MkPartial (on_text (content p) i (fun _ => text)) (rawArgs p)
  | FTextDelta i delta => MkPartial (on_text (content p) i (fun t => (t +:+ delta)%string)) (rawArgs p)
  | FThinkingStart i thinking pbi => MkPartial (on_thinking (content p) i pbi (fun _ => thinking) None) (rawArgs p)
  | FThinkingDelta i delta =>
      MkPartial (on_thinking (content p) i None (fun t => (t +:+ delta)%string) None) (rawArgs p)
  | FThinkingSignature i signature =>
      MkPartial (on_thinking (content p) i None (fun t => t) (Some signature)) (rawArgs p)
  | FToolCallStart i id name => MkPartial (ensureToolCallBlock (content p) i id name) (rawArgs p)
  | FToolCallArgs i id delta =>
      MkPartial (ensureToolCallBlock (content p) i id "unknown_tool")
        (raw_set (rawArgs p) i (fun raw => (raw +:+ delta)%string))
  | FToolCallEnd i call =>
      match get_block (content p) i with
      | Some (ToolCallBlock _) =>
          MkPartial (set_block (content p) i (ToolCallBlock call))
            (List.filter (fun '(j, _) => negb (j =? i)%nat) (rawArgs p))
      | _ => p
      end
  | FOther => p
  end.

Section Parse.
Context (JSON_parse : string -> option json).

(** The arguments recovered from a raw prefix. *)
Definition parse_arguments (raw : string) : json :=
  if blank raw then JObj [] else default (JObj []) (JSON_parse raw).

Definition finish_raw (c : list (option block)) (raw : list (nat * string)) : list (option block) :=
  foldl (fun c '(i, s) =>
    match get_block c i with
    | Some (ToolCallBlock call) => set_block c i (ToolCallBlock (MkToolCall (tc_id call) (tc_name call) (parse_arguments s)))
    | _ => c
    end) c raw.

(** The content of the rebuilt message; [None] is the [null] of an empty frame sequence. *)
Definition reduceAssistantFrames (frames : list frame) : option (list block) :=
  match frames with
  | [] => None
  | _ =>
      let p := foldl apply_frame (MkPartial [] []) frames in
      Some (omap (fun b => b) (finish_raw (content p) (rawArgs p)))
  end.
End Parse.
