(* ===== verification/FramesProofs.v ===== *)
(** The frames of a stream rebuild the message that was streamed. *)

From S2P Require Import Prelude Json Frames.

(** * What was streamed *)

(** A block of the message under way.  A tool call keeps its raw arguments until the
    authoritative call arrives, after which it accepts no more of them. *)
Inductive live_block : Type :=
| LText (text : string)
| LThinking (key : thinking_key) (text : string) (signature : option string)
| LCall (id name : string) (raw : option string) (final : option tool_call).

Definition is_text (b : live_block) : bool := match b with LText _ => true | _ => false end.
Definition is_thinking (k : thinking_key) (b : live_block) : bool :=
  match b with LThinking k' _ _ => bool_decide (k' = k) | _ => false end.
Definition is_call (id : string) (b : live_block) : bool :=
  match b with LCall id' _ _ _ => bool_decide (id' = id) | _ => false end.
Definition is_open_call (id : string) (b : live_block) : bool :=
  match b with LCall id' _ _ None => bool_decide (id' = id) | _ => false end.

Definition touch (P : live_block -> bool) (f : live_block -> live_block) (l : list live_block) : list live_block :=
  map (fun b => if P b then f b else b) l.

(** The first delta of a block creates it, in order of arrival; later ones extend it. *)
Definition touch_or_add (P : live_block -> bool) (f : live_block -> live_block) (new : live_block)
    (l : list live_block) : list live_block :=
  if existsb P l then touch P f l else l ++ [new].

Definition add_text (d : string) (b : live_block) : live_block :=
  match b with
  | LText t => LText (t +:+ d)
  | LThinking k t s => LThinking k (t +:+ d) s
  | LCall id name raw None => LCall id name (Some (default EmptyString raw +:+ d)) None
  | _ => b
  end%string.

Definition live_step (l : list live_block) (event : stream_event) : list live_block :=
  match event with
  | AttemptReset => []
  | TextDelta d => touch_or_add is_text (add_text d) (LText d) l
  | ThinkingDelta d i => touch_or_add (is_thinking (key_of i)) (add_text d) (LThinking (key_of i) d None) l
  | ThinkingSignature i s =>
      touch (is_thinking (ProviderThinking i)) (fun b => match b with LThinking k t _ => LThinking k t (Some s) | _ => b end) l
  | ToolCallStart id name => touch_or_add (is_call id) (fun b => b) (LCall id name None None) l
  | ToolCallDelta id d => touch (is_open_call id) (add_text d) l
  | ToolCallEnd call =>
      touch (is_open_call (tc_id call)) (fun b => match b with LCall id n r _ => LCall id n r (Some call) | _ => b end) l
  | OtherEvent => l
  end.

Definition provider_of (k : thinking_key) : option Z :=
  match k with DefaultThinking => None | ProviderThinking n => Some n end.

(** A block as the content of a message, its raw arguments parsed by [args]. *)
Definition shown (args : option string -> json) (b : live_block) : block :=
  match b with
  | LText t => TextBlock t
  | LThinking k t s => ThinkingBlock t (provider_of k) s
  | LCall id name raw None => ToolCallBlock (MkToolCall id name (args raw))
  | LCall _ _ _ (Some call) => ToolCallBlock call
  end.

(** * The encoder and the reduction agree with it *)

Definition no_args (_ : option string) : json := JObj [].

Definition raw_at (l : list live_block) (i : nat) (s : string) : Prop :=
  exists id name, l !! i = Some (LCall id name (Some s) None).

Record tracks (e : encoder) (p : partial) (l : list live_block) : Prop := MkTracks {
  tr_next : nextIndex e = length l;
  tr_content : content p = (fun b => Some (shown no_args b)) <$> l;
  tr_text : forall i, textIndex e = Some i <-> exists t, l !! i = Some (LText t);
  tr_thinking : forall k i, thinking_index e k = Some i <-> exists t s, l !! i = Some (LThinking k t s);
  tr_call : forall id i, (exists o n, toolCallState e !! id = Some (MkCallState i o n)) <->
    exists name raw final, l !! i = Some (LCall id name raw final);
  tr_open : forall id i o n name raw final, toolCallState e !! id = Some (MkCallState i o n) ->
    l !! i = Some (LCall id name raw final) -> o = true <-> final = None;
  tr_raw : forall i s, (i, s) ∈ rawArgs p <-> raw_at l i s;
  tr_raw_nodup : NoDup ((rawArgs p).*1)
}.

Lemma touch_insert P f l i b :
  l !! i = Some b -> P b = true -> (forall j c, l !! j = Some c -> P c = true -> j = i) ->
  touch P f l = <[i := f b]> l.
Proof.
  intros Hi Hb Hu. apply list_eq. intros j. unfold touch. change (map ?g l) with (g <$> l). rewrite list_lookup_fmap.
  destruct (decide (i = j)) as [<-|Hne].
  - rewrite list_lookup_insert_eq by (by eapply lookup_lt_Some). rewrite Hi. simpl. by rewrite Hb.
  - rewrite list_lookup_insert_ne by done. destruct (l !! j) as [c|] eqn:Hc; [|done]. simpl.
    destruct (P c) eqn:E; [|done]. by destruct Hne; rewrite (Hu j c).
Qed.

Lemma touch_none P f l : (forall j c, l !! j = Some c -> P c = false) -> touch P f l = l.
Proof.
  intros H. unfold touch. apply list_eq. intros j. change (map ?g l) with (g <$> l). rewrite list_lookup_fmap.
  destruct (l !! j) as [c|] eqn:E; [|done]. simpl. by rewrite (H j c).
Qed.

Lemma existsb_lookup P (l : list live_block) : existsb P l = true <-> exists i b, l !! i = Some b /\ P b = true.
Proof.
  rewrite existsb_exists. split.
  - intros (b & Hin & Hb). apply list_elem_of_In, list_elem_of_lookup_1 in Hin as [i Hi]. eauto.
  - intros (i & b & Hi & Hb). exists b. split; [|done]. apply list_elem_of_In. by eapply list_elem_of_lookup_2.
Qed.

Lemma set_block_at (c : list (option block)) i b : i < length c -> set_block c i b = <[i := Some b]> c.
Proof.
  intros H. unfold set_block. replace (S i - length c) with 0 by lia. by rewrite app_nil_r.
Qed.

Lemma set_block_end (c : list (option block)) b : set_block c (length c) b = c ++ [Some b].
Proof.
  unfold set_block. replace (S (length c) - length c) with 1 by lia. simpl.
  rewrite insert_app_r_alt by lia. by rewrite Nat.sub_diag.
Qed.

Section Tracking.
Context (e : encoder) (p : partial) (l : list live_block) (T : tracks e p l).

Lemma get_block_live i : get_block (content p) i = shown no_args <$> l !! i.
Proof.
  unfold get_block. rewrite (tr_content _ _ _ T), list_lookup_fmap. by destruct (l !! i).
Qed.

Lemma content_length : length (content p) = length l.
Proof. by rewrite (tr_content _ _ _ T), length_fmap. Qed.

(** A block is replaced in place. *)
Lemma set_block_live i b b' :
  l !! i = Some b -> set_block (content p) i (shown no_args b') = (fun b => Some (shown no_args b)) <$> <[i := b']> l.
Proof.
  intros Hi. rewrite set_block_at by (rewrite content_length; by eapply lookup_lt_Some).
  by rewrite list_fmap_insert, (tr_content _ _ _ T).
Qed.

(** A new block is appended. *)
Lemma set_block_new b :
  set_block (content p) (nextIndex e) (shown no_args b) = (fun b => Some (shown no_args b)) <$> (l ++ [b]).
Proof.
  rewrite (tr_next _ _ _ T), <- content_length, set_block_end. by rewrite fmap_app, (tr_content _ _ _ T).
Qed.

Lemma get_block_new : get_block (content p) (nextIndex e) = None.
Proof. rewrite get_block_live, (tr_next _ _ _ T). by rewrite lookup_ge_None_2. Qed.
End Tracking.

Lemma lookup_snoc_Some {A : Type} (l : list A) x i y :
  (l ++ [x]) !! i = Some y <-> l !! i = Some y \/ (i = length l /\ y = x).
Proof.
  rewrite lookup_app_Some. split.
  - intros [H|[H1 H2]]; [by left|right]. destruct (i - length l) eqn:E; simpl in H2; [|done]. split; [lia|congruence].
  - intros [H|[-> ->]]; [by left|right]. split; [lia|]. by rewrite Nat.sub_diag.
Qed.

(** Two blocks that differ only in their content. *)
Definition same_kind (b b' : live_block) : Prop :=
  match b, b' with
  | LText _, LText _ => True
  | LThinking k _ _, LThinking k' _ _ => k = k'
  | LCall id _ _ _, LCall id' _ _ _ => id = id'
  | _, _ => False
  end.

Lemma insert_kind (l : list live_block) i b b' j c :
  l !! i = Some b -> same_kind b b' -> <[i := b']> l !! j = Some c ->
  exists c0, l !! j = Some c0 /\ same_kind c0 c.
Proof.
  intros Hi Hk Hj. destruct (decide (i = j)) as [<-|Hne].
  - rewrite list_lookup_insert_eq in Hj by (by eapply lookup_lt_Some). simplify_eq. eauto.
  - rewrite list_lookup_insert_ne in Hj by done. exists c. split; [done|]. by destruct c.
Qed.

Lemma kind_insert (l : list live_block) i b b' j c0 :
  l !! i = Some b -> same_kind b b' -> l !! j = Some c0 ->
  exists c, <[i := b']> l !! j = Some c /\ same_kind c0 c.
Proof.
  intros Hi Hk Hj. destruct (decide (i = j)) as [<-|Hne].
  - rewrite list_lookup_insert_eq by (by eapply lookup_lt_Some). simplify_eq. eauto.
  - rewrite list_lookup_insert_ne by done. exists c0. split; [done|]. by destruct c0.
Qed.

Lemma tracks_replace e e' p p' l i b b' :
  tracks e p l -> l !! i = Some b -> same_kind b b' ->
  content p' = set_block (content p) i (shown no_args b') ->
  nextIndex e' = nextIndex e -> textIndex e' = textIndex e -> thinkingIndexes e' = thinkingIndexes e ->
  (forall id j, (exists o n, toolCallState e' !! id = Some (MkCallState j o n)) <->
                (exists o n, toolCallState e !! id = Some (MkCallState j o n))) ->
  (forall id j o n name raw final, toolCallState e' !! id = Some (MkCallState j o n) ->
     <[i := b']> l !! j = Some (LCall id name raw final) -> o = true <-> final = None) ->
  (forall j s, (j, s) ∈ rawArgs p' <-> raw_at (<[i := b']> l) j s) -> NoDup ((rawArgs p').*1) ->
  tracks e' p' (<[i := b']> l).
Proof.
  intros T Hi Hk Hc En Et Eth Hcall Hopen Hraw Hnd. constructor; try done.
  - rewrite En, length_insert. apply T.
  - rewrite Hc. by eapply set_block_live.
  - intros j. rewrite Et, (tr_text _ _ _ T). split.
    + intros [t Hj]. destruct (kind_insert l i b b' j _ Hi Hk Hj) as (c & Hc' & Hkc). destruct c; try done. eauto.
    + intros [t Hj]. destruct (insert_kind l i b b' j _ Hi Hk Hj) as (c & Hc' & Hkc). destruct c; try done. eauto.
  - intros k j. unfold thinking_index. rewrite Eth. fold (thinking_index e k). rewrite (tr_thinking _ _ _ T). split.
    + intros (t & s & Hj). destruct (kind_insert l i b b' j _ Hi Hk Hj) as (c & Hc' & Hkc).
      destruct c; simpl in Hkc; try done; subst. eauto.
    + intros (t & s & Hj). destruct (insert_kind l i b b' j _ Hi Hk Hj) as (c & Hc' & Hkc).
      destruct c; simpl in Hkc; try done; subst. eauto.
  - intros id j. rewrite Hcall, (tr_call _ _ _ T). split.
    + intros (name & raw & final & Hj). destruct (kind_insert l i b b' j _ Hi Hk Hj) as (c & Hc' & Hkc).
      destruct c; simpl in Hkc; try done; subst. eauto.
    + intros (name & raw & final & Hj). destruct (insert_kind l i b b' j _ Hi Hk Hj) as (c & Hc' & Hkc).
      destruct c; simpl in Hkc; try done; subst. eauto.
Qed.

Definition no_call (b : live_block) : Prop := match b with LCall _ _ _ _ => False | _ => True end.

(** Text and thinking blocks: neither the calls nor the raw arguments change. *)
Lemma tracks_replace_plain e p l i b b' :
  tracks e p l -> l !! i = Some b -> same_kind b b' -> no_call b' ->
  tracks e (MkPartial (set_block (content p) i (shown no_args b')) (rawArgs p)) (<[i := b']> l).
Proof.
  intros T Hi Hk Hno.
  assert (Hsame : forall j id name raw final, <[i := b']> l !! j = Some (LCall id name raw final) <->
                                              l !! j = Some (LCall id name raw final)).
  { intros j id name raw final. destruct (decide (i = j)) as [<-|Hne]; [|by rewrite list_lookup_insert_ne].
    rewrite list_lookup_insert_eq by (by eapply lookup_lt_Some). rewrite Hi. destruct b, b'; naive_solver. }
  eapply tracks_replace; try done.
  - intros id j o n name raw final Ht Hj. apply Hsame in Hj. by eapply (tr_open _ _ _ T).
  - intros j s. simpl. rewrite (tr_raw _ _ _ T). unfold raw_at. by setoid_rewrite Hsame.
  - apply T.
Qed.

Lemma tracks_extend e e' p p' l b :
  tracks e p l -> content p' = set_block (content p) (nextIndex e) (shown no_args b) ->
  rawArgs p' = rawArgs p -> nextIndex e' = S (nextIndex e) ->
  (forall i, textIndex e' = Some i <-> textIndex e = Some i \/ (i = length l /\ exists t, b = LText t)) ->
  (forall k i, thinking_index e' k = Some i <->
     thinking_index e k = Some i \/ (i = length l /\ exists t s, b = LThinking k t s)) ->
  (forall id i o n, toolCallState e' !! id = Some (MkCallState i o n) <->
     toolCallState e !! id = Some (MkCallState i o n) \/
     (i = length l /\ o = true /\ n = 0 /\ exists name, b = LCall id name None None)) ->
  (forall id name raw final, b = LCall id name raw final -> raw = None /\ final = None) ->
  tracks e' p' (l ++ [b]).
Proof.
  intros T Hc Hr En Ht Hth Hcall Hb. constructor.
  - rewrite En, (tr_next _ _ _ T), length_app. simpl. lia.
  - rewrite Hc. by eapply set_block_new.
  - intros i. rewrite Ht, (tr_text _ _ _ T). setoid_rewrite lookup_snoc_Some. naive_solver.
  - intros k i. rewrite Hth, (tr_thinking _ _ _ T). setoid_rewrite lookup_snoc_Some. naive_solver.
  - intros id i. setoid_rewrite Hcall. setoid_rewrite lookup_snoc_Some. split.
    + intros (o & n & [H|(-> & -> & -> & name & ->)]).
      * destruct (proj1 (tr_call _ _ _ T id i)) as (name & raw & final & Hi); eauto 10.
      * exists name, None, None. by right.
    + intros (name & raw & final & [H|[-> <-]]).
      * destruct (proj2 (tr_call _ _ _ T id i)) as (o & n & Hi); eauto 10.
      * exists true, 0. right. destruct (Hb id name raw final eq_refl) as [-> ->]. eauto.
  - intros id i o n name raw final H. rewrite lookup_snoc_Some. apply Hcall in H as [H|(-> & -> & _ & name' & ->)].
    + intros [Hi|[-> <-]]; [by eapply (tr_open _ _ _ T)|].
      destruct (proj1 (tr_call _ _ _ T id (length l))) as (? & ? & ? & Hlt); [eauto|].
      apply lookup_lt_Some in Hlt. lia.
    + intros [Hi|[_ [= -> -> ->]]]; [apply lookup_lt_Some in Hi; lia|done].
  - intros i s. rewrite Hr, (tr_raw _ _ _ T). unfold raw_at. setoid_rewrite lookup_snoc_Some. split.
    + intros (id & name & H). eauto.
    + intros (id & name & [H|[-> <-]]); [eauto|]. by destruct (Hb id name (Some s) None eq_refl).
  - rewrite Hr. apply T.
Qed.

Lemma touch_or_add_new P f new l :
  (forall j c, l !! j = Some c -> P c = false) -> touch_or_add P f new l = l ++ [new].
Proof.
  intros H. unfold touch_or_add. destruct (existsb P l) eqn:E; [|done].
  apply existsb_lookup in E as (i & b & Hi & Hb). by rewrite (H i b Hi) in Hb.
Qed.

Lemma touch_or_add_old P f new l i b :
  l !! i = Some b -> P b = true -> (forall j c, l !! j = Some c -> P c = true -> j = i) ->
  touch_or_add P f new l = <[i := f b]> l.
Proof.
  intros Hi Hb Hu. unfold touch_or_add. replace (existsb P l) with true.
  - by apply touch_insert.
  - symmetry. apply existsb_lookup. eauto.
Qed.

Lemma tracks_new : tracks new_encoder (MkPartial [] []) [].
Proof.
  constructor; simpl; try done.
  - intros i. split; [done|]. intros [t H]. by rewrite lookup_nil in H.
  - intros k i. split; [done|]. intros (t & s & H). by rewrite lookup_nil in H.
  - intros id i. split; [intros (o & n & H); by rewrite lookup_empty in H|].
    intros (name & raw & final & H). by rewrite lookup_nil in H.
  - intros i s. split; [intros H; inversion H|]. intros (id & name & H). by rewrite lookup_nil in H.
  - apply NoDup_nil_2.
Qed.

Section Step.
Context (e : encoder) (p : partial) (l : list live_block) (T : tracks e p l).

Definition follows (ev : stream_event) : Prop :=
  tracks (fst (encode e ev)) (match snd (encode e ev) with Some f => apply_frame p f | None => p end) (live_step l ev).

Lemma text_unique j : (exists t, l !! j = Some (LText t)) -> textIndex e = Some j.
Proof. apply (tr_text _ _ _ T). Qed.

Lemma follows_text d : follows (TextDelta d).
Proof.
  unfold follows. simpl. destruct (textIndex e) as [i|] eqn:E; simpl.
  - destruct (proj1 (tr_text _ _ _ T i) E) as [t Hi].
    rewrite (touch_or_add_old _ _ _ _ i (LText t) Hi eq_refl).
    2: { intros j c Hj Hc. destruct c; try done. assert (textIndex e = Some j) by (apply text_unique; eauto). congruence. }
    unfold on_text. rewrite (get_block_live e p l T), Hi. simpl.
    by apply (tracks_replace_plain e p l i (LText t) (LText (t +:+ d)%string)).
  - rewrite touch_or_add_new.
    2: { intros j c Hj. destruct c; try done. assert (textIndex e = Some j) by (apply text_unique; eauto). congruence. }
    unfold on_text. rewrite (get_block_new e p l T). eapply (tracks_extend e); try done; simpl.
    + intros i. rewrite (tr_next _ _ _ T), E. naive_solver.
    + intros k i. naive_solver.
    + intros. naive_solver.
Qed.

Lemma thinking_unique k j : (exists t s, l !! j = Some (LThinking k t s)) -> thinking_index e k = Some j.
Proof. apply (tr_thinking _ _ _ T). Qed.

Lemma is_thinking_true k b : is_thinking k b = true -> exists t s, b = LThinking k t s.
Proof. destruct b; simpl; try done. intros ->%bool_decide_eq_true. eauto. Qed.

Lemma provider_key o : provider_of (key_of o) = o.
Proof. by destruct o. Qed.

Lemma thinking_index_snoc k k' i j :
  snd <$> List.find (fun '(k0, _) => bool_decide (k0 = k)) (thinkingIndexes e ++ [(k', i)]) = Some j <->
  thinking_index e k = Some j \/ (thinking_index e k = None /\ k = k' /\ j = i).
Proof.
  unfold thinking_index. induction (thinkingIndexes e) as [|[k0 i0] m IH]; simpl.
  - case_bool_decide; simpl; naive_solver.
  - case_bool_decide; simpl; [naive_solver|done].
Qed.

Lemma follows_thinking d o : follows (ThinkingDelta d o).
Proof.
  unfold follows. simpl. destruct (thinking_index e (key_of o)) as [i|] eqn:E; simpl.
  - destruct (proj1 (tr_thinking _ _ _ T _ i) E) as (t & s & Hi).
    rewrite (touch_or_add_old _ _ _ _ i (LThinking (key_of o) t s) Hi); [|by apply bool_decide_eq_true|].
    2: { intros j c Hj (t' & s' & ->)%is_thinking_true.
         assert (thinking_index e (key_of o) = Some j) by (apply thinking_unique; eauto). congruence. }
    unfold on_thinking. rewrite (get_block_live e p l T), Hi. simpl.
    by apply (tracks_replace_plain e p l i (LThinking (key_of o) t s) (LThinking (key_of o) (t +:+ d)%string s)).
  - rewrite touch_or_add_new.
    2: { intros j c Hj. destruct (is_thinking _ c) eqn:Ec; [|done]. apply is_thinking_true in Ec as (t & s & ->).
         assert (thinking_index e (key_of o) = Some j) by (apply thinking_unique; eauto). congruence. }
    unfold on_thinking. rewrite (get_block_new e p l T). eapply (tracks_extend e); try done; simpl.
    + by rewrite provider_key.
    + intros i. naive_solver.
    + intros k i. unfold thinking_index at 1. simpl. rewrite thinking_index_snoc, (tr_next _ _ _ T).
      split; [naive_solver|]. intros [?|[Hil (t & s & Hk)]]; [by left|right]. injection Hk as <- _ _. done.
    + intros. naive_solver.
Qed.

Lemma follows_signature i0 sg : follows (ThinkingSignature i0 sg).
Proof.
  unfold follows. simpl. destruct (thinking_index e (ProviderThinking i0)) as [i|] eqn:E; simpl.
  - destruct (proj1 (tr_thinking _ _ _ T _ i) E) as (t & s & Hi).
    rewrite (touch_insert _ _ _ i (LThinking (ProviderThinking i0) t s) Hi); [|by apply bool_decide_eq_true|].
    2: { intros j c Hj (t' & s' & ->)%is_thinking_true.
         assert (thinking_index e (ProviderThinking i0) = Some j) by (apply thinking_unique; eauto). congruence. }
    unfold on_thinking. rewrite (get_block_live e p l T), Hi. simpl.
    by apply (tracks_replace_plain e p l i (LThinking (ProviderThinking i0) t s) (LThinking (ProviderThinking i0) t (Some sg))).
  - rewrite touch_none; [done|]. intros j c Hj. destruct (is_thinking _ c) eqn:Ec; [|done].
    apply is_thinking_true in Ec as (t & s & ->).
    assert (thinking_index e (ProviderThinking i0) = Some j) by (apply thinking_unique; eauto). congruence.
Qed.

Lemma is_call_true id b : is_call id b = true -> exists name raw final, b = LCall id name raw final.
Proof. destruct b; simpl; try done. intros ->%bool_decide_eq_true. eauto. Qed.

Lemma is_open_true id b : is_open_call id b = true <-> exists name raw, b = LCall id name raw None.
Proof.
  destruct b as [| |id' name raw [call|]]; simpl; try naive_solver. rewrite bool_decide_eq_true. naive_solver.
Qed.

Lemma call_at id j name raw final :
  l !! j = Some (LCall id name raw final) -> exists o n, toolCallState e !! id = Some (MkCallState j o n).
Proof. intros H. apply (tr_call _ _ _ T). eauto. Qed.

Lemma follows_start id name : follows (ToolCallStart id name).
Proof.
  unfold follows. simpl. destruct (toolCallState e !! id) as [[i o n]|] eqn:E; simpl.
  - destruct (proj1 (tr_call _ _ _ T id i)) as (name' & raw & final & Hi); [eauto|].
    rewrite (touch_or_add_old _ _ _ _ i _ Hi); [|by apply bool_decide_eq_true|].
    2: { intros j c Hj (? & ? & ? & ->)%is_call_true. destruct (call_at _ _ _ _ _ Hj) as (? & ? & ?). congruence. }
    by rewrite list_insert_id.
  - rewrite touch_or_add_new.
    2: { intros j c Hj. destruct (is_call id c) eqn:Ec; [|done]. apply is_call_true in Ec as (? & ? & ? & ->).
         destruct (call_at _ _ _ _ _ Hj) as (? & ? & ?). congruence. }
    unfold ensureToolCallBlock. rewrite (get_block_new e p l T). eapply (tracks_extend e); try done; simpl.
    + intros. naive_solver.
    + intros. naive_solver.
    + intros id' i o n. rewrite (tr_next _ _ _ T). destruct (decide (id = id')) as [<-|Hne].
      * rewrite lookup_insert_eq, E. naive_solver.
      * rewrite lookup_insert_ne by done. naive_solver.
    + intros ? ? ? ? [= -> -> <- <-]. done.
Qed.

Lemma raw_set_in (m : list (nat * string)) i f j s :
  NoDup (m.*1) ->
  (j, s) ∈ raw_set m i f <->
  if decide (j = i) then (exists s0, (i, s0) ∈ m /\ s = f s0) \/ (i ∉ m.*1 /\ s = f EmptyString) else (j, s) ∈ m.
Proof.
  intros Hnd. induction m as [|[k s1] m IH]; cbn [raw_set].
  - rewrite list_elem_of_singleton. destruct (decide (j = i)) as [->|].
    + split; [intros [= ->]; right; split; [apply not_elem_of_nil|done]|].
      intros [(s0 & H & _)|[_ ->]]; [by inversion H|done].
    + split; [by intros [= -> _]|intros H; inversion H].
  - rewrite fmap_cons in *. cbn [fst] in *. apply NoDup_cons in Hnd as [Hk Hnd]. specialize (IH Hnd).
    assert (Hin : forall s0, (k, s0) ∈ m -> k ∈ m.*1)
      by (intros s0 H; apply list_elem_of_In, in_map_iff; exists (k, s0); split; [done|by apply list_elem_of_In]).
    destruct (Nat.eqb_spec k i) as [->|Hne]; simpl.
    + rewrite elem_of_cons. destruct (decide (j = i)) as [->|Hji].
      * split.
        -- intros [[= ->]|H]; [left; exists s1; split; [by left|done]|]. destruct Hk. by eapply Hin.
        -- intros [(s0 & [[= ->]|H]%elem_of_cons & ->)|[H _]]; [by left|destruct Hk; by eapply Hin|].
           destruct H. by left.
      * rewrite elem_of_cons. naive_solver.
    + rewrite !elem_of_cons, IH. destruct (decide (j = i)) as [->|Hji]; [|by rewrite elem_of_cons].
      setoid_rewrite elem_of_cons. split.
      * intros [[= <- _]|[(s0 & H & ->)|[H ->]]]; [done|left; eauto|right; split; [|done]].
        intros [->|?]; done.
      * intros [(s0 & [[= <- _]|H] & ->)|[H ->]]; [done|right; left; eauto|right; right; split; [|done]].
        intros ?. apply H. by right.
Qed.

Lemma raw_set_keys (m : list (nat * string)) i f : NoDup (m.*1) -> NoDup ((raw_set m i f).*1).
Proof.
  intros Hnd. induction m as [|[k s1] m IH]; cbn [raw_set]; [apply NoDup_singleton|].
  rewrite fmap_cons in Hnd. apply NoDup_cons in Hnd as [Hk Hnd].
  destruct (Nat.eqb_spec k i) as [->|Hne]; rewrite fmap_cons; cbn [fst] in *.
  - by apply NoDup_cons.
  - apply NoDup_cons. split; [|by apply IH]. intros H. apply list_elem_of_In, in_map_iff in H as ([k' s] & Hk' & H).
    simpl in Hk'. subst k'. apply list_elem_of_In, raw_set_in in H; [|done]. rewrite decide_False in H by done.
    apply Hk. apply list_elem_of_In, in_map_iff. exists (k, s). split; [done|by apply list_elem_of_In].
Qed.

Lemma raw_keys i : i ∈ (rawArgs p).*1 <-> exists s, raw_at l i s.
Proof.
  setoid_rewrite <- (tr_raw _ _ _ T). split.
  - intros ([k s] & -> & H)%list_elem_of_fmap_1. eauto.
  - intros (s & H). apply list_elem_of_In, in_map_iff. exists (i, s). split; [done|by apply list_elem_of_In].
Qed.

Lemma open_call id i n :
  toolCallState e !! id = Some (MkCallState i true n) -> exists name raw, l !! i = Some (LCall id name raw None).
Proof.
  intros E. destruct (proj1 (tr_call _ _ _ T id i)) as (name & raw & final & Hi); [eauto|].
  pose proof (proj1 (tr_open _ _ _ T _ _ _ _ _ _ _ E Hi) eq_refl) as ->. eauto.
Qed.

Lemma closed_call id :
  (forall i n, toolCallState e !! id <> Some (MkCallState i true n)) ->
  forall j c, l !! j = Some c -> is_open_call id c = false.
Proof.
  intros H j c Hj. destruct (is_open_call id c) eqn:Ec; [|done]. apply is_open_true in Ec as (name & raw & ->).
  destruct (call_at _ _ _ _ _ Hj) as (o & n & E). destruct o; [by destruct (H j n)|].
  by pose proof (proj2 (tr_open _ _ _ T _ _ _ _ _ _ _ E Hj) eq_refl).
Qed.

Lemma open_unique id i n :
  toolCallState e !! id = Some (MkCallState i true n) ->
  forall j c, l !! j = Some c -> is_open_call id c = true -> j = i.
Proof.
  intros E j c Hj (name & raw & ->)%is_open_true. destruct (call_at _ _ _ _ _ Hj) as (o & n' & E'). congruence.
Qed.

Lemma set_block_same i b b' :
  l !! i = Some b -> shown no_args b' = shown no_args b -> content p = set_block (content p) i (shown no_args b').
Proof.
  intros Hi ->. rewrite (set_block_live e p l T i b b Hi), list_insert_id by done. apply T.
Qed.

Lemma follows_delta id d : follows (ToolCallDelta id d).
Proof.
  unfold follows. simpl. destruct (toolCallState e !! id) as [[i [|] n]|] eqn:E; simpl.
  2, 3: rewrite touch_none; [done|]; apply closed_call; intros i' n'; rewrite E; congruence.
  destruct (open_call id i n E) as (name & raw & Hi).
  set (b' := LCall id name (Some (default EmptyString raw +:+ d)%string) None).
  rewrite (touch_insert _ _ _ i _ Hi); [|apply is_open_true; eauto|by eapply open_unique].
  change (add_text d (LCall id name raw None)) with b'. unfold ensureToolCallBlock.
  rewrite (get_block_live e p l T), Hi. cbn [fmap option_fmap option_map shown].
  eapply (tracks_replace e _ p); [done|exact Hi|done|by eapply set_block_same|done..| | | |]; simpl.
  - intros id' j. destruct (decide (id = id')) as [<-|Hne]; [|by rewrite lookup_insert_ne].
    rewrite lookup_insert_eq, E. naive_solver.
  - intros id' j o n' name' raw' final Ht Hj. destruct (decide (i = j)) as [<-|Hne].
    + rewrite list_lookup_insert_eq in Hj by (by eapply lookup_lt_Some). injection Hj as Hid _ _ <-. rewrite <- Hid in Ht.
      rewrite lookup_insert_eq in Ht. by injection Ht as <- <-.
    + rewrite list_lookup_insert_ne in Hj by done. destruct (decide (id = id')) as [<-|Hid].
      * rewrite lookup_insert_eq in Ht. congruence.
      * rewrite lookup_insert_ne in Ht by done. by eapply (tr_open _ _ _ T).
  - intros j s. rewrite raw_set_in by apply T. destruct (decide (j = i)) as [->|Hne].
    + unfold raw_at. rewrite list_lookup_insert_eq by (by eapply lookup_lt_Some). unfold b'. split.
      * intros [(s0 & (id0 & name0 & H0)%(tr_raw _ _ _ T) & ->)|[Hni ->]].
        -- rewrite Hi in H0. injection H0 as -> -> ->. eauto.
        -- exists id, name. do 3 f_equal. destruct raw as [s0|]; [|done]. destruct Hni. apply raw_keys. exists s0. by exists id, name.
      * intros (id0 & name0 & [= -> -> <-]). destruct raw as [s0|]; [left|right].
        -- exists s0. split; [|done]. apply (tr_raw _ _ _ T). by exists id0, name0.
        -- split; [|done]. intros (s0 & id1 & name1 & H1)%raw_keys. congruence.
    + rewrite (tr_raw _ _ _ T). unfold raw_at. by rewrite list_lookup_insert_ne.
  - apply raw_set_keys, T.
Qed.

Lemma filter_keys_nodup (P : nat * string -> bool) (m : list (nat * string)) : NoDup (m.*1) -> NoDup ((List.filter P m).*1).
Proof.
  induction m as [|x m IH]; intros H; [done|]. rewrite fmap_cons in H. apply NoDup_cons in H as [Hx H].
  simpl. destruct (P x); [|by apply IH]. rewrite fmap_cons. apply NoDup_cons. split; [|by apply IH].
  intros Hin. apply Hx. apply list_elem_of_In, in_map_iff in Hin as (y & Hy & Hin).
  apply List.filter_In in Hin as [Hin _]. apply list_elem_of_In, in_map_iff. by exists y.
Qed.

Lemma follows_end call : follows (ToolCallEnd call).
Proof.
  unfold follows. simpl. set (id := tc_id call). destruct (toolCallState e !! id) as [[i [|] n]|] eqn:E; simpl.
  2, 3: rewrite touch_none; [done|]; apply closed_call; intros i' n'; rewrite E; congruence.
  destruct (open_call id i n E) as (name & raw & Hi).
  rewrite (touch_insert _ _ _ i _ Hi); [|apply is_open_true; eauto|by eapply open_unique].
  rewrite (get_block_live e p l T), Hi. cbn [fmap option_fmap option_map shown].
  eapply (tracks_replace e _ p); [done|exact Hi|done|done|done..| | | |]; simpl.
  - intros id' j. destruct (decide (id = id')) as [<-|Hne]; [|by rewrite lookup_insert_ne].
    rewrite lookup_insert_eq, E. naive_solver.
  - intros id' j o n' name' raw' final Ht Hj. destruct (decide (i = j)) as [<-|Hne].
    + rewrite list_lookup_insert_eq in Hj by (by eapply lookup_lt_Some). injection Hj as Hid _ _ <-. rewrite <- Hid in Ht.
      rewrite lookup_insert_eq in Ht. by injection Ht as <- <-.
    + rewrite list_lookup_insert_ne in Hj by done. destruct (decide (id = id')) as [<-|Hid].
      * rewrite lookup_insert_eq in Ht. congruence.
      * rewrite lookup_insert_ne in Ht by done. by eapply (tr_open _ _ _ T).
  - intros j s. rewrite list_elem_of_In, List.filter_In, <- list_elem_of_In, (tr_raw _ _ _ T). unfold raw_at.
    destruct (Nat.eqb_spec j i) as [->|Hne].
    + rewrite list_lookup_insert_eq by (by eapply lookup_lt_Some). naive_solver.
    + rewrite list_lookup_insert_ne by done. naive_solver.
  - apply filter_keys_nodup, T.
Qed.

Lemma tracks_step ev : follows ev.
Proof.
  destruct ev as [|d|d o|i s|id name|id d|call|].
  - apply tracks_new.
  - apply follows_text.
  - apply follows_thinking.
  - apply follows_signature.
  - apply follows_start.
  - apply follows_delta.
  - apply follows_end.
  - exact T.
Qed.
End Step.

Lemma tracks_all events e p l :
  tracks e p l ->
  exists e', tracks e' (foldl apply_frame p (encode_all e events)) (foldl live_step l events).
Proof.
  revert e p l. induction events as [|ev events IH]; intros e p l T; [by exists e|].
  pose proof (tracks_step e p l T ev) as T'. unfold follows in T'. simpl.
  destruct (encode e ev) as [e' [f|]]; simpl in *; by apply (IH e' _ _ T').
Qed.

(** * The end of the reduction *)

Section Parse.
Context (JSON_parse : string -> option json).

Definition parsed (raw : option string) : json :=
  match raw with Some s => parse_arguments JSON_parse s | None => JObj [] end.

Lemma finish_raw_other c raw j : j ∉ raw.*1 -> finish_raw JSON_parse c raw !! j = c !! j.
Proof.
  unfold finish_raw. revert c. induction raw as [|[i s] raw IH]; intros c Hj; [done|].
  rewrite fmap_cons in Hj. apply not_elem_of_cons in Hj as [Hne Hj]. simpl. rewrite IH by done.
  destruct (get_block c i) as [[| |call]|] eqn:E; try done. cbn [fst] in Hne.
  rewrite set_block_at; [by rewrite list_lookup_insert_ne|].
  unfold get_block in E. destruct (c !! i) eqn:Ei; [by eapply lookup_lt_Some|done].
Qed.

Lemma finish_raw_call c raw j s call :
  NoDup (raw.*1) -> (j, s) ∈ raw -> get_block c j = Some (ToolCallBlock call) ->
  finish_raw JSON_parse c raw !! j =
    Some (Some (ToolCallBlock (MkToolCall (tc_id call) (tc_name call) (parse_arguments JSON_parse s)))).
Proof.
  revert c. induction raw as [|[i s0] raw IH]; intros c Hnd Hin Hc; [by inversion Hin|].
  rewrite fmap_cons in Hnd. apply NoDup_cons in Hnd as [Hi Hnd]. cbn [fst] in Hi. unfold finish_raw. simpl.
  fold (finish_raw JSON_parse).
  assert (Hlen : forall j b, get_block c j = Some b -> j < length c).
  { intros k b Hk. unfold get_block in Hk. destruct (c !! k) eqn:Ek; [by eapply lookup_lt_Some|done]. }
  apply elem_of_cons in Hin as [[= -> ->]|Hin].
  - rewrite Hc. change (foldl _ ?c0 raw) with (finish_raw JSON_parse c0 raw). rewrite finish_raw_other by done.
    rewrite set_block_at by (by eapply Hlen). by rewrite list_lookup_insert_eq by (by eapply Hlen).
  - change (foldl _ ?c0 raw) with (finish_raw JSON_parse c0 raw). apply IH; [done|done|].
    assert (Hne : i <> j).
    { intros ->. apply Hi. apply list_elem_of_In, in_map_iff. exists (j, s). split; [done|by apply list_elem_of_In]. }
    destruct (get_block c i) as [[| |call']|] eqn:E; try done. rewrite set_block_at by (by eapply Hlen).
    unfold get_block in *. by rewrite list_lookup_insert_ne.
Qed.

Lemma finish_tracked e p l :
  tracks e p l -> finish_raw JSON_parse (content p) (rawArgs p) = (fun b => Some (shown parsed b)) <$> l.
Proof.
  intros T. apply list_eq. intros j. rewrite list_lookup_fmap.
  assert (Hcj : content p !! j = (fun b => Some (shown no_args b)) <$> l !! j) by (by rewrite (tr_content _ _ _ T), list_lookup_fmap).
  destruct (decide (j ∈ (rawArgs p).*1)) as [Hj|Hj].
  - apply (raw_keys e p l T) in Hj as (s & id & name & Hl). rewrite Hl. simpl.
    apply (finish_raw_call (content p) (rawArgs p) j s (MkToolCall id name (JObj []))).
    + apply T.
    + apply (tr_raw _ _ _ T). by exists id, name.
    + by rewrite (get_block_live e p l T), Hl.
  - rewrite finish_raw_other, Hcj by done. destruct (l !! j) as [b|] eqn:Hl; [|done]. simpl. do 2 f_equal.
    destruct b as [| |id name [s|] [call|]]; try done. destruct Hj. apply (raw_keys e p l T). exists s. by exists id, name.
Qed.

(** C31: durable frames rebuild the message that was streamed.  Reducing the frames of any
    sequence of stream events gives the blocks of that stream in the order they began: text
    and thinking with all their deltas, a finished tool call as the provider sent it, an
    unfinished one with the arguments its raw prefix parses to, nothing of a discarded
    attempt, and none of the deltas that came after a call was final. *)
Theorem frames_rebuild_the_stream events :
  match reduceAssistantFrames JSON_parse (encode_all new_encoder events) with
  | Some content => content = shown parsed <$> foldl live_step [] events
  | None => foldl live_step [] events = []
  end.
Proof.
  destruct (tracks_all events new_encoder (MkPartial [] []) [] tracks_new) as [e T].
  assert (Hsome : forall bs : list live_block, omap (fun b : option block => b) ((fun b => Some (shown parsed b)) <$> bs) = shown parsed <$> bs).
  { induction bs as [|b bs IH]; [done|]. simpl. by f_equal. }
  unfold reduceAssistantFrames. destruct (encode_all new_encoder events) as [|f frames] eqn:E.
  - pose proof (tr_next _ _ _ T) as _. pose proof (tr_content _ _ _ T) as Hc. simpl in Hc.
    symmetry in Hc. by apply fmap_nil_inv in Hc.
  - rewrite (finish_tracked e _ _ T). apply Hsome.
Qed.
End Parse.
