(* ===== verification/Reducer.v ===== *)
(** The session reducer (agent-core/src/reducer/session-reducer.ts) with the state merge it
    uses (pipeline/ledger-merge.ts), the replay contracts of tools (tool-replay-contract.ts)
    and [mergeOperationIntent] (protocol/src/storage.ts): a session's state is a pure function
    of its journal.

    [JSON_stringify] and [JSON_parse] are the engine's; the theorems hold for any functions.
    Modelling choices: JSON values share nothing, so [structuredClone] is the identity; usage
    counters are numbers; keys are sorted by code unit. *)

From S2P Require Import Prelude Json Frames.

(** * Data *)

Inductive entry_type : Type :=
| SessionStart | ProviderSession | ModelLoadout | ContextEdit | UserMessageEntry | AgentTurn | DraftRevision
| LedgerMutation | CompactionEntry | ToolExecution | OperationIntent | OperationSettlement | PipelineStage
| AssistantFrame | ToolProgress | CustomEntry.

#[export] Instance entry_type_eq_dec : EqDecision entry_type.
Proof. solve_decision. Defined.

(** [SessionEntry]: the fields the reducer reads. *)
Record entry : Type := MkEntry {
  e_id : string;
  e_sessionId : string;
  e_laneId : option string;
  e_type : entry_type;
  e_timestamp : Z;
  e_payload : option json
}.

Inductive assistant_content : Type :=
| SettledContent (blocks : json)
| PartialContent (blocks : list block).

Record assistant_message : Type := MkAssistant {
  am_id : option string;
  am_timestamp : option Z;
  am_content : assistant_content;
  am_stopReason : json;
  am_errorMessage : option json;
  am_providerError : option json;
  am_providerSource : option json;
  am_providerThinkingLevel : option json;
  am_usage : option json;
  am_durationMs : option Z
}.

Record tool_result : Type := MkToolResult {
  tr_id : string;
  tr_timestamp : Z;
  tr_toolCallId : json;
  tr_toolName : json;
  tr_content : json;
  tr_details : option json;
  tr_isError : bool;
  tr_durationMs : option Z
}.

Inductive message : Type :=
| UserMessage (id : string) (timestamp : Z) (content : json)
| AssistantMessage (m : assistant_message)
| ToolResultMessage (m : tool_result)
| CustomMessage (m : fields).

Record operation : Type := MkOperation {
  op_id : string;
  op_sessionId : string;
  op_type : json;
  op_state : json;
  op_intent : option json;
  op_settlement : option json;
  op_error : option json;
  op_createdAt : Z;
  op_updatedAt : Z
}.

Record usage_totals : Type := MkUsage { inputTokens : Z; outputTokens : Z; totalTokens : Z }.

Record pending_result : Type := MkPending { pr_message : tool_result; pr_sourceIndex : option Z }.

Record session_state : Type := MkState {
  sessionId : string;
  currentLeafId : option string;
  activeLaneId : json;
  messages : list message;
  operations : list (string * operation);
  usageTotals : usage_totals;
  runtimeState : option json;
  factsLedger : option json;
  revisions : list (string * Z);
  pendingToolResults : list pending_result;
  pendingAssistantFrames : list frame
}.

(** [WorkflowStateAdapter]. *)
Record adapter : Type := MkAdapter { createInitialState : json; merge : json -> json -> json }.

(** * The generic state merge *)

Section Merge.
Context (JSON_stringify : json -> string).

Definition emptyRuntimeState : json := JObj [].

Definition nonempty_string (v : option json) : option string := truthy (as_string v).

Fixpoint string_of_pos (fuel : nat) (n : N) (acc : string) : string :=
  match fuel with
  | O => acc
  | S fuel =>
      let acc := String (Ascii.ascii_of_N (48 + n mod 10)) acc in
      if (n / 10 =? 0)%N then acc else string_of_pos fuel (n / 10) acc
  end.

(** [`${index}`] of an array index. *)
Definition string_of_index (i : nat) : string := string_of_pos (S i) (N.of_nat i) EmptyString.

Definition recordIdentity (record : fields) (index : nat) : string :=
  let named key rest :=
    match nonempty_string (assoc_get record key) with
    | Some v => (key +:+ ":" +:+ v)%string
    | None => rest
    end in
  named "id"%string (named "key"%string (named "name"%string
    ("index:" +:+ string_of_index index +:+ ":" +:+ JSON_stringify (JObj record))%string)).

(** [SameValueZero] of two values that are not the same object. *)
Definition same_value (a b : json) : bool :=
  match a, b with
  | JNull, JNull => true
  | JBool a, JBool b => Bool.eqb a b
  | JNum a, JNum b => (a =? b)%Z
  | JStr a, JStr b => bool_decide (a = b)
  | _, _ => false
  end.

(** [[...new Set(items)]]. *)
Definition distinct (items : list json) : list json :=
  foldl (fun acc v => if existsb (same_value v) acc then acc else acc ++ [v]) [] items.

Section Records.
Context (keyOf : fields -> nat -> string).

Fixpoint merge_records (records : list (string * fields)) (index : nat) (items : list fields) : list (string * fields) :=
  match items with
  | [] => records
  | record :: items =>
      let key := keyOf record index in
      let merged := match assoc_get records key with
                    | Some previous => assoc_spread previous record
                    | None => assoc_spread [] record
                    end in
      merge_records (assoc_set records key merged) (S index) items
  end.

Definition mergeRecords (base addition : list fields) : list fields := (merge_records [] 0 (base ++ addition)).*2.
End Records.

Definition mergeRuntimeCollection (base addition : list json) : list json :=
  if negb (forallb isRecord base) || negb (forallb isRecord addition) then distinct (base ++ addition)
  else JObj <$> (merge_records recordIdentity [] 0 (spread_fields <$> (base ++ addition))).*2.

Definition mergeRuntimeState (base addition : json) : json :=
  let patch := match addition with JObj fs => fs | _ => [] end in
  let base := spread_fields base in
  JObj (foldl (fun result '(key, value) =>
    match assoc_get base key, value with
    | Some (JArr previous), JArr value => assoc_set result key (JArr (mergeRuntimeCollection previous value))
    | _, _ => result
    end) (assoc_spread base patch) patch).

Definition genericRuntimeStateAdapter : adapter := MkAdapter emptyRuntimeState mergeRuntimeState.

(** * Replay contracts *)

Definition compare_strings (a b : string) : Z :=
  match String.compare a b with Lt => -1 | Eq => 0 | Gt => 1 end.

Definition joined (sep : string) (l : list string) : string :=
  match l with
  | [] => EmptyString
  | s :: l => foldl (fun acc x => acc +:+ sep +:+ x)%string s l
  end.

Fixpoint canonicalJson (v : json) : string :=
  match v with
  | JArr items => ("[" +:+ joined "," (map canonicalJson items) +:+ "]")%string
  | JObj fs =>
      let parts := (fix go (fs : list (string * json)) : list (string * string) :=
                      match fs with [] => [] | (k, v) :: fs => (k, canonicalJson v) :: go fs end) fs in
      ("{" +:+ joined "," (map (fun '(k, c) => JSON_stringify (JStr k) +:+ ":" +:+ c)
                             (js_sort (fun a b => compare_strings (fst a) (fst b)) parts)) +:+ "}")%string
  | v => JSON_stringify v
  end.

Record agent_tool : Type := MkAgentTool { implementationVersion : option string; parameters : option json }.

Record registration : Type := MkRegistration {
  skillId : option string;
  skillVersion : option string;
  registered_source : option string;
  capabilities : option (list string)
}.

(** [captureToolReplayContract]; a schema of the model is always a JSON value. *)
Definition captureToolReplayContract (tool : agent_tool) (r : option registration) : option json :=
  let version := match implementationVersion tool with Some v => Some v | None => r ≫= skillVersion end in
  match version with
  | None => None
  | Some version =>
      if blank version then None
      else
        let schema := default (JObj [("type"%string, JStr "object")]) (parameters tool) in
        Some (JObj ([("version"%string, JNum 1); ("implementationVersion"%string, JStr version);
                     ("schema"%string, JStr (canonicalJson schema));
                     ("source"%string, JStr (default "runtime"%string (r ≫= registered_source)))] ++
                    opt_field "skillId" (JStr <$> truthy (r ≫= skillId)) ++
                    opt_field "skillVersion" (JStr <$> truthy (r ≫= skillVersion)) ++
                    [("capabilities"%string,
                      JArr (map JStr (js_sort compare_strings (default [] (r ≫= capabilities)))))]))
  end.

Definition toolReplayContractsMatch (historical current : option json) : bool :=
  match historical, current with
  | Some h, Some c =>
      bool_decide (as_number (field (Some h) "version") = Some 1%Z) && bool_decide (canonicalJson h = canonicalJson c)
  | _, _ => false
  end.
End Merge.

Section Reducer.
Context (JSON_stringify : json -> string) (JSON_parse : string -> option json).

(** * Messages *)

Definition text_block (text : json) : json := JArr [JObj [("type"%string, JStr "text"); ("text"%string, text)]].

Definition or_else (a : option json) (b : json) : json := default b (if is_true a then a else None).

Definition array_or (v : option json) (other : json) : json := match v with Some (JArr l) => JArr l | _ => other end.

(** [messageFromSessionEntry]. *)
Definition user_message (e : entry) : message :=
  UserMessage (e_id e) (e_timestamp e)
    (match e_payload e with
     | Some (JStr s) => JStr s
     | p => default (JStr "") (coalesce (field p "content") (coalesce (field p "text") (Some (JStr ""))))
     end).

Definition assistant_turn (e : entry) : message :=
  let p := e_payload e in
  AssistantMessage (MkAssistant (Some (e_id e)) (Some (e_timestamp e))
    (SettledContent (array_or (field p "content")
       (text_block (or_else (js_or (field p "content") (field p "text")) (JStr "")))))
    (or_else (field p "stopReason") (JStr "stop"))
    (field p "errorMessage") (field p "providerError") (field p "providerSource")
    (field p "providerThinkingLevel") (field p "usage") (as_number (field p "durationMs"))).

Definition tool_result_of (e : entry) : tool_result :=
  let p := e_payload e in
  MkToolResult (e_id e) (e_timestamp e)
    (or_else (js_or (field p "toolCallId") (field p "id")) (JStr (e_id e)))
    (or_else (js_or (field p "toolName") (field p "name")) (JStr "unknown_tool"))
    (array_or (field p "content")
       (text_block (match field p "result" with
                    | Some (JStr s) => JStr s
                    | r => JStr (JSON_stringify (or_else r (JStr "")))
                    end)))
    (field p "details")
    (is_true (field p "isError") || is_true (field p "error"))
    (as_number (field p "durationMs")).

Definition custom_message (e : entry) : option message :=
  let p := e_payload e in
  if is_str (field p "role") "custom" || is_str (field p "role") "system"
  then Some (CustomMessage (assoc_set (assoc_set (default [] (record_fields p)) "id" (JStr (e_id e)))
                              "timestamp" (JNum (e_timestamp e))))
  else None.

Definition messageFromSessionEntry (e : entry) : option message :=
  match e_type e with
  | UserMessageEntry => Some (user_message e)
  | AgentTurn => Some (assistant_turn e)
  | ToolExecution => Some (ToolResultMessage (tool_result_of e))
  | CustomEntry => custom_message e
  | _ => None
  end.

(** * Reducing one entry *)

Definition createInitialSessionState (id : string) (a : adapter) : session_state :=
  MkState id None (JStr "main") [] [] (MkUsage 0 0 0) (Some (createInitialState a)) (Some (createInitialState a))
    [] [] [].

Definition MAX_SAFE_INTEGER : Z := 9007199254740991.

Definition compare_results (a b : pending_result * nat) : Z :=
  let ai := default MAX_SAFE_INTEGER (pr_sourceIndex (fst a)) in
  let bi := default MAX_SAFE_INTEGER (pr_sourceIndex (fst b)) in
  if (ai =? bi)%Z then (Z.of_nat (snd a) - Z.of_nat (snd b))%Z else (ai - bi)%Z.

Definition flushPendingToolResults (s : session_state) : session_state :=
  match pendingToolResults s with
  | [] => s
  | pending =>
      let ordered := js_sort compare_results (imap (fun order item => (item, order)) pending) in
      MkState (sessionId s) (currentLeafId s) (activeLaneId s)
        (messages s ++ map (fun '(item, _) => ToolResultMessage (pr_message item)) ordered)
        (operations s) (usageTotals s) (runtimeState s) (factsLedger s) (revisions s) [] (pendingAssistantFrames s)
  end.

(** Field updates of the copied state. *)
Definition push_message (s : session_state) (m : message) : session_state :=
  MkState (sessionId s) (currentLeafId s) (activeLaneId s) (messages s ++ [m]) (operations s) (usageTotals s)
    (runtimeState s) (factsLedger s) (revisions s) (pendingToolResults s) (pendingAssistantFrames s).
Definition with_lane (s : session_state) (lane : json) : session_state :=
  MkState (sessionId s) (currentLeafId s) lane (messages s) (operations s) (usageTotals s)
    (runtimeState s) (factsLedger s) (revisions s) (pendingToolResults s) (pendingAssistantFrames s).
Definition with_operation (s : session_state) (id : string) (op : operation) : session_state :=
  MkState (sessionId s) (currentLeafId s) (activeLaneId s) (messages s) (assoc_set (operations s) id op) (usageTotals s)
    (runtimeState s) (factsLedger s) (revisions s) (pendingToolResults s) (pendingAssistantFrames s).
Definition with_operations (s : session_state) (ops : list (string * operation)) : session_state :=
  MkState (sessionId s) (currentLeafId s) (activeLaneId s) (messages s) ops (usageTotals s)
    (runtimeState s) (factsLedger s) (revisions s) (pendingToolResults s) (pendingAssistantFrames s).
Definition with_runtime (s : session_state) (r : json) : session_state :=
  MkState (sessionId s) (currentLeafId s) (activeLaneId s) (messages s) (operations s) (usageTotals s)
    (Some r) (Some r) (revisions s) (pendingToolResults s) (pendingAssistantFrames s).
Definition with_revision (s : session_state) (doc : string) (version : Z) : session_state :=
  MkState (sessionId s) (currentLeafId s) (activeLaneId s) (messages s) (operations s) (usageTotals s)
    (runtimeState s) (factsLedger s) (assoc_set (revisions s) doc version) (pendingToolResults s)
    (pendingAssistantFrames s).
Definition push_pending (s : session_state) (r : pending_result) : session_state :=
  MkState (sessionId s) (currentLeafId s) (activeLaneId s) (messages s) (operations s) (usageTotals s)
    (runtimeState s) (factsLedger s) (revisions s) (pendingToolResults s ++ [r]) (pendingAssistantFrames s).
Definition with_frames (s : session_state) (frames : list frame) : session_state :=
  MkState (sessionId s) (currentLeafId s) (activeLaneId s) (messages s) (operations s) (usageTotals s)
    (runtimeState s) (factsLedger s) (revisions s) (pendingToolResults s) frames.

Definition counter (v : option json) : Z := default 0%Z (as_number v).

(** [next.usageTotals.* += u.* || 0]. *)
Definition add_usage (s : session_state) (u : option json) : session_state :=
  if is_true u then
    MkState (sessionId s) (currentLeafId s) (activeLaneId s) (messages s) (operations s)
      (MkUsage (inputTokens (usageTotals s) + counter (field u "inputTokens"))
         (outputTokens (usageTotals s) + counter (field u "outputTokens"))
         (totalTokens (usageTotals s) + counter (field u "totalTokens")))
      (runtimeState s) (factsLedger s) (revisions s) (pendingToolResults s) (pendingAssistantFrames s)
  else s.

(** The frame of a payload, when it is an object with a type; fields have their declared
    types. *)
Definition nat_field (fs : fields) (key : string) : nat := Z.to_nat (default 0%Z (as_number (assoc_get fs key))).
Definition str_field (fs : fields) (key : string) : string := default EmptyString (as_string (assoc_get fs key)).

Definition frame_of (v : option json) : option frame :=
  match v with
  | Some (JObj fs) =>
      match as_string (assoc_get fs "type") with
      | None => None
      | Some t =>
          let i := nat_field fs "index" in
          Some (if bool_decide (t = "attempt_reset"%string) then FReset
          else if bool_decide (t = "text_start"%string) then FTextStart i (str_field fs "text")
          else if bool_decide (t = "text_delta"%string) then FTextDelta i (str_field fs "delta")
          else if bool_decide (t = "thinking_start"%string)
          then FThinkingStart i (str_field fs "thinking") (as_number (assoc_get fs "providerBlockIndex"))
          else if bool_decide (t = "thinking_delta"%string) then FThinkingDelta i (str_field fs "delta")
          else if bool_decide (t = "thinking_signature"%string)
          then FThinkingSignature i (str_field fs "providerSignature")
          else if bool_decide (t = "tool_call_start"%string)
          then FToolCallStart i (str_field fs "toolCallId") (str_field fs "toolName")
          else if bool_decide (t = "tool_call_args"%string)
          then FToolCallArgs i (str_field fs "toolCallId") (str_field fs "delta")
          else if bool_decide (t = "tool_call_end"%string)
          then let call := spread_fields (default JNull (assoc_get fs "toolCall")) in
               FToolCallEnd i (MkToolCall (str_field call "id") (str_field call "name")
                                 (default JNull (assoc_get call "arguments")))
          else FOther)
      end
  | _ => None
  end.

(** [mergeOperationIntent] of an object. *)
Definition mergeOperationIntent (op : fields) : json :=
  let extras := opt_field "replay" (assoc_get op "replay") ++ opt_field "invocationId" (assoc_get op "invocationId") in
  match default (JObj op) (assoc_get op "intent") with
  | JObj base => JObj (assoc_spread base extras)
  | base => base
  end.

(** [existing?.createdAt || entry.timestamp]. *)
Definition created_at (existing : option operation) (timestamp : Z) : Z :=
  match existing with
  | Some o => if (op_createdAt o =? 0)%Z then timestamp else op_createdAt o
  | None => timestamp
  end.

Definition mergeOwnedState (a : adapter) (state : option json) (patch : json) : json :=
  merge a (default JNull state) patch.

Definition flushes (t : entry_type) : bool :=
  match t with UserMessageEntry | AgentTurn | CompactionEntry | CustomEntry => true | _ => false end.

Definition reduceSessionEntry (a : adapter) (s : session_state) (e : entry) : session_state :=
  let runtime := coalesce (runtimeState s) (coalesce (factsLedger s) (Some (createInitialState a))) in
  let next :=
    MkState (if bool_decide (sessionId s = EmptyString) then e_sessionId e else sessionId s)
      (Some (e_id e))
      (match truthy (e_laneId e) with Some lane => JStr lane | None => activeLaneId s end)
      (messages s) (operations s) (usageTotals s) runtime runtime (revisions s)
      (pendingToolResults s) (pendingAssistantFrames s) in
  let next := if flushes (e_type e) then flushPendingToolResults next else next in
  let p := e_payload e in
  match e_type e with
  | SessionStart =>
      match field p "laneId" with
      | Some lane => if is_true (Some lane) then with_lane next lane else next
      | None => next
      end
  | UserMessageEntry => push_message next (user_message e)
  | AgentTurn => with_frames (add_usage (push_message next (assistant_turn e)) (field p "usage")) []
  | ToolExecution => push_pending next (MkPending (tool_result_of e) (as_number (field p "sourceIndex")))
  | AssistantFrame =>
      match frame_of (field p "frame") with
      | Some f => with_frames next (pendingAssistantFrames next ++ [f])
      | None => next
      end
  | OperationIntent =>
      match record_fields p, as_string (field p "id") with
      | Some op, Some id =>
          let existing := assoc_get (operations next) id in
          with_operation next id
            (MkOperation id (sessionId next) (or_else (field p "type") (JStr "custom"))
               (or_else (field p "state") (JStr "running")) (Some (mergeOperationIntent op)) None (field p "error")
               (created_at existing (e_timestamp e)) (e_timestamp e))
      | _, _ => next
      end
  | OperationSettlement =>
      match as_string (field p "id") with
      | Some id =>
          let existing := assoc_get (operations next) id in
          with_operation next id
            (MkOperation id (sessionId next) (or_else (js_or (field p "type") (op_type <$> existing)) (JStr "custom"))
               (if is_true (field p "error") then JStr "failed" else JStr "settled")
               (coalesce (existing ≫= op_intent) (field p "intent"))
               (match field p "settlement" with Some v => Some v | None => field p "result" end)
               (if is_true (field p "error") then field p "error" else None)
               (created_at existing (e_timestamp e)) (e_timestamp e))
      | None => next
      end
  | LedgerMutation =>
      let statePatch :=
        match record_fields p with
        | Some fs =>
            match assoc_get fs "statePatch" with
            | Some v => Some v
            | None => match assoc_get fs "ledger" with Some v => Some v | None => p end
            end
        | None => p
        end in
      match statePatch with
      | Some (JObj patch) => with_runtime next (mergeOwnedState a (runtimeState next) (JObj patch))
      | _ => next
      end
  | DraftRevision =>
      match as_string (field p "documentId"), as_number (field p "version") with
      | Some doc, Some version => with_revision next doc version
      | _, _ => next
      end
  | CompactionEntry =>
      let next :=
        match field p "summary" with
        | Some summary =>
            if is_true (Some summary)
            then with_runtime next (mergeOwnedState a (runtimeState next) (JObj [("_lastCompactionSummary"%string, summary)]))
            else next
        | None => next
        end in
      add_usage next (field (field (field p "modelView") "summaryMessage") "usage")
  | CustomEntry => match custom_message e with Some m => push_message next m | None => next end
  | ProviderSession | ModelLoadout | ContextEdit | PipelineStage | ToolProgress => next
  end.

(** * Reducing a journal *)

Definition normalizeInitialState (s : session_state) (a : adapter) : session_state :=
  let runtime := coalesce (runtimeState s) (coalesce (factsLedger s) (Some (createInitialState a))) in
  MkState (sessionId s) (currentLeafId s) (activeLaneId s) (messages s) (operations s) (usageTotals s)
    runtime runtime (revisions s) (pendingToolResults s) (pendingAssistantFrames s).

Definition partial_message (content : list block) : message :=
  AssistantMessage (MkAssistant None None (PartialContent content) (JStr "aborted")
    (Some (JStr "Partially recovered from persisted stream frames (no terminal settlement).")) None None None None None).

(** What [reduceSession] does once every entry is reduced. *)
Definition finish_session (s : session_state) : session_state :=
  let settled := flushPendingToolResults s in
  match reduceAssistantFrames JSON_parse (pendingAssistantFrames settled) with
  | Some content => with_frames (push_message settled (partial_message content)) []
  | None => settled
  end.

Definition reduceSession (entries : list entry) (initialState : option session_state) (a : adapter) : session_state :=
  let base :=
    match initialState with
    | Some s => normalizeInitialState s a
    | None =>
        createInitialSessionState
          (default "default"%string (truthy (e_sessionId <$> head entries))) a
    end in
  finish_session (foldl (reduceSessionEntry a) base entries).

(** * Crash recovery *)

Definition tool_results (l : list message) : list tool_result :=
  omap (fun m => match m with ToolResultMessage r => Some r | _ => None end) l.

(** [durableToolResults]: a later result replaces an earlier one of the same identifier. *)
Definition durableToolResults (l : list message) : list (string * tool_result) :=
  foldl (fun m r => if bool_decide (tr_id r = EmptyString) then m else assoc_set m (tr_id r) r) [] (tool_results l).

Definition invocation_of (op : operation) : option string :=
  as_string (assoc_get (default [] (record_fields (op_intent op))) "invocationId").

Definition state_is (op : operation) (s : string) : bool := is_str (Some (op_state op)) s.

Definition with_state (op : operation) (state : string) (settlement error : option json) (updatedAt : Z) : operation :=
  MkOperation (op_id op) (op_sessionId op) (op_type op) (JStr state) (op_intent op) settlement error
    (op_createdAt op) updatedAt.

(** The settlement copied from a durable result. *)
Definition settlement_of (r : tool_result) : json :=
  JObj (("content"%string, tr_content r) :: opt_field "details" (tr_details r)).

Definition interrupted_error : json := JStr "Operation interrupted by system shutdown/crash.".

(** The loop of [detectAndMarkInterruptedOperations]: the operations and the interrupted
    identifiers so far; [clock] is read once for each of these. *)
Fixpoint mark_loop (clock : nat -> Z) (durable : list (string * tool_result)) (ops : list (string * operation))
    (done : list (string * operation)) (interruptedIds : list string)
  : list (string * operation) * list string :=
  match ops with
  | [] => (done, interruptedIds)
  | (id, op) :: ops =>
      match (if is_str (Some (op_type op)) "tool_call" && (state_is op "running" || state_is op "pending" || state_is op "interrupted")
             then invocation_of op ≫= assoc_get durable else None) with
      | Some r =>
          mark_loop clock durable ops
            (assoc_set done id
               (with_state op (if tr_isError r then "failed" else "settled") (Some (settlement_of r)) (op_error op) (tr_timestamp r)))
            interruptedIds
      | None =>
          if state_is op "running" || state_is op "pending"
          then mark_loop clock durable ops
                 (assoc_set done id
                    (with_state op "interrupted" (op_settlement op) (Some interrupted_error) (clock (length interruptedIds))))
                 (interruptedIds ++ [id])
          else mark_loop clock durable ops (assoc_set done id op) interruptedIds
      end
  end.

Record recovery : Type := MkRecovery { rc_state : session_state; rc_count : nat; rc_interrupted : list string }.

Definition detectAndMarkInterruptedOperations (s : session_state) (clock : nat -> Z) : recovery :=
  let '(ops, ids) := mark_loop clock (durableToolResults (messages s)) (operations s) [] [] in
  MkRecovery (with_operations s ops) (length ids) ids.

(** The part of [ToolRegistry] the plan reads. *)
Record registry : Type := MkRegistry {
  registered_replay : string -> option (option json);
  getReplayContract : string -> option json;
  validateParameters : string -> json -> bool
}.

Record plan : Type := MkPlan {
  pl_invocationId : string;
  pl_operationId : string;
  pl_toolCallId : option string;
  pl_sourceIndex : option Z;
  pl_toolName : string;
  pl_arguments : option json;
  pl_replay_safe : bool;
  pl_reason : option string;
  pl_contract : option json
}.

(** [action: reason ? 'synthesize' : 'replay']. *)
Definition pl_replays (p : plan) : bool := negb (bool_decide (is_Some (pl_reason p))).

Definition refusal (tools : option registry) (safe : bool) (name : string) (arguments contract : option json) : option string :=
  if negb safe then Some "historical-policy"%string
  else
    match tools ≫= (fun t => pair t <$> registered_replay t name) with
    | None => Some "tool-missing"%string
    | Some (t, replay) =>
        if negb (is_str replay "safe") then Some "current-policy"%string
        else if negb (toolReplayContractsMatch JSON_stringify contract (getReplayContract t name))
        then Some "contract-changed"%string
        else if negb (validateParameters t name (default (JObj []) (coalesce arguments (Some (JObj [])))))
        then Some "invalid-arguments"%string
        else None
    end.

Definition plan_one (tools : option registry) (op : operation) (invocationId : string) : plan :=
  let intent k := assoc_get (default [] (record_fields (op_intent op))) k in
  let safe := is_str (intent "replay"%string) "safe" in
  let name := default "unknown_tool"%string (as_string (intent "name"%string)) in
  MkPlan invocationId (op_id op) (as_string (intent "toolCallId"%string)) (as_number (intent "sourceIndex"%string)) name
    (intent "arguments"%string) safe
    (refusal tools safe name (intent "arguments"%string) (intent "contract"%string)) (intent "contract"%string).

(** The loop of [planInterruptedRecovery]; [None] is its throw. *)
Fixpoint plan_loop (tools : option registry) (ops : list operation) (invocationIds : gset string) (plans : list plan)
  : option (list plan) :=
  match ops with
  | [] => Some plans
  | op :: ops =>
      if negb (state_is op "interrupted") || negb (is_str (Some (op_type op)) "tool_call")
      then plan_loop tools ops invocationIds plans
      else
        let invocationId := default (op_id op) (invocation_of op) in
        if bool_decide (invocationId = EmptyString) || bool_decide (invocationId ∈ invocationIds) then None
        else plan_loop tools ops ({[invocationId]} ∪ invocationIds) (plans ++ [plan_one tools op invocationId])
  end.

Definition planInterruptedRecovery (s : session_state) (tools : option registry) : option (list plan) :=
  plan_loop tools (snd <$> operations s) ∅ [].

(** [synthesizeInterruptedToolResult]. *)
Definition strip_prefix (p s : string) : string :=
  if String.prefix p s then String.substring (String.length p) (String.length s - String.length p) s else s.

Definition synthesizeInterruptedToolResult (p : plan) (now : Z) : tool_result :=
  MkToolResult (pl_invocationId p) now
    (JStr (default (strip_prefix "op_tool_" (pl_operationId p)) (pl_toolCallId p)))
    (JStr (pl_toolName p))
    (text_block (JStr ("Tool '" +:+ pl_toolName p +:+ "' was interrupted by a crash and " +:+
       (if pl_replay_safe p
        then "replay was refused (" +:+ default "incompatible contract"%string (pl_reason p) +:+ ")"
        else "its replay policy is 'never'") +:+
       ". The external effect was NOT re-executed; the result is unknown and requires manual verification.")%string))
    None true None.
End Reducer.
