(* ===== verification/ReducerProofs.v ===== *)
(** The properties of the session reducer. *)

From Stdlib Require Import Sorted.
From S2P Require Import Prelude Json Frames Reducer.

(** * Placement of tool results *)

Definition source_key (r : pending_result) : Z := default MAX_SAFE_INTEGER (pr_sourceIndex r).

(** Stable insertion by source index. *)
Fixpoint place (r : pending_result) (l : list pending_result) : list pending_result :=
  match l with
  | [] => [r]
  | x :: l => if (source_key r <=? source_key x)%Z then r :: x :: l else x :: place r l
  end.

Definition placed (l : list pending_result) : list pending_result := foldr place [] l.

Lemma sort_insert_place r n (l : list (pending_result * nat)) :
  (forall x, x ∈ l -> n < snd x) -> map fst (sort_insert compare_results (r, n) l) = place r (map fst l).
Proof.
  induction l as [|[x m] l IH]; intros Hl; [done|]. simpl.
  assert (Hm : n < m) by (apply (Hl (x, m)); by left).
  replace (compare_results (r, n) (x, m) <=? 0)%Z with (source_key r <=? source_key x)%Z.
  - destruct (_ <=? _)%Z; [done|]. simpl. f_equal. apply IH. intros y Hy. apply Hl. by right.
  - unfold compare_results, source_key. simpl. destruct (_ =? _)%Z eqn:E; bools.
    + rewrite E, Z.leb_refl. symmetry. apply Z.leb_le. lia.
    + destruct (_ <=? _)%Z eqn:E'; bools; symmetry; [apply Z.leb_le|apply Z.leb_gt]; lia.
Qed.

Lemma js_sort_placed (l : list pending_result) n :
  map fst (js_sort compare_results (imap (fun i x => (x, n + i)) l)) = placed l.
Proof.
  revert n. induction l as [|r l IH]; intros n; [done|]. simpl.
  rewrite sort_insert_place.
  - f_equal. rewrite <- (IH (S n)). do 2 f_equal. apply imap_ext. intros i x _. simpl. f_equal. lia.
  - intros [x m] Hx. rewrite js_sort_perm in Hx. apply elem_of_lookup_imap in Hx as (i & y & [= -> ->] & _). simpl. lia.
Qed.

Lemma place_perm r l : place r l ≡ₚ r :: l.
Proof. induction l as [|x l IH]; simpl; [done|]. destruct (_ <=? _)%Z; [done|]. rewrite IH. apply Permutation_swap. Qed.

Lemma placed_perm l : placed l ≡ₚ l.
Proof. induction l as [|r l IH]; simpl; [done|]. by rewrite place_perm, IH. Qed.

Definition source_le (a b : pending_result) : Prop := (source_key a <= source_key b)%Z.

Lemma placed_sorted l : StronglySorted source_le (placed l).
Proof.
  induction l as [|r l IH]; simpl; [constructor|]. revert IH. generalize (placed l). clear l. intros l.
  induction l as [|x l IHl]; intros Hs; simpl; [repeat constructor|].
  apply StronglySorted_inv in Hs as [Hs Hx]. destruct (_ <=? _)%Z eqn:E; bools.
  - constructor; [by constructor|]. constructor; [done|].
    eapply Forall_impl; [exact Hx|]. intros y Hy. unfold source_le in *. lia.
  - constructor; [by apply IHl|]. rewrite place_perm. constructor; [unfold source_le; lia|done].
Qed.

Lemma place_filter r l k :
  filter (fun x => source_key x = k) (place r l) = filter (fun x => source_key x = k) (r :: l).
Proof.
  induction l as [|x l IH]; [done|]. simpl place. destruct (_ <=? _)%Z eqn:E; [done|]. bools.
  rewrite !filter_cons, IH, filter_cons. repeat case_decide; try done. lia.
Qed.

Lemma placed_stable l k : filter (fun x => source_key x = k) (placed l) = filter (fun x => source_key x = k) l.
Proof. induction l as [|r l IH]; [done|]. simpl. by rewrite place_filter, !filter_cons, IH. Qed.

(** Insertions of results with different source indexes commute. *)
Lemma place_comm r r' l : source_key r <> source_key r' -> place r (place r' l) = place r' (place r l).
Proof.
  intros Hne. induction l as [|x l IH]; simpl.
  - destruct (_ <=? _)%Z eqn:E, (source_key r' <=? source_key r)%Z eqn:E'; bools; try lia; done.
  - destruct (source_key r' <=? source_key x)%Z eqn:E1, (source_key r <=? source_key x)%Z eqn:E2; simpl;
      repeat (match goal with |- context [if ?c then _ else _] => destruct c eqn:? end; simpl);
      bools; try lia; try done. by rewrite IH.
Qed.

Definition result_message (r : pending_result) : message := ToolResultMessage (pr_message r).

Lemma flush_messages s : messages (flushPendingToolResults s) = messages s ++ map result_message (placed (pendingToolResults s)).
Proof.
  unfold flushPendingToolResults. destruct (pendingToolResults s) as [|r l] eqn:E; [by rewrite app_nil_r|].
  cbn [messages]. f_equal. rewrite <- (js_sort_placed (r :: l) 0), map_map. apply map_ext. by intros [x n].
Qed.

Lemma flush_pending s : pendingToolResults (flushPendingToolResults s) = [].
Proof. unfold flushPendingToolResults. by destruct (pendingToolResults s) eqn:E. Qed.

Lemma flush_frames s : pendingAssistantFrames (flushPendingToolResults s) = pendingAssistantFrames s.
Proof. unfold flushPendingToolResults. by destruct (pendingToolResults s). Qed.

(** Buffered tool results are placed in source order.  A flush appends exactly the
    buffered results, ordered by source index with the unindexed ones last, those of equal
    index in the order they completed, and empties the buffer. *)
Theorem tool_results_in_source_order s :
  exists l,
    messages (flushPendingToolResults s) = messages s ++ map result_message l /\
    pendingToolResults (flushPendingToolResults s) = [] /\
    l ≡ₚ pendingToolResults s /\ StronglySorted source_le l /\
    forall k, filter (fun x => source_key x = k) l = filter (fun x => source_key x = k) (pendingToolResults s).
Proof.
  exists (placed (pendingToolResults s)). split_and!.
  - apply flush_messages.
  - apply flush_pending.
  - apply placed_perm.
  - apply placed_sorted.
  - apply placed_stable.
Qed.

(** * The transcript *)

Section Transcript.
Context (JSON_stringify : json -> string) (JSON_parse : string -> option json) (a : adapter).
Implicit Types (s : session_state) (e : entry).
Abbreviation reduce_entry := (reduceSessionEntry JSON_stringify a).
Abbreviation entry_message := (messageFromSessionEntry JSON_stringify).

Definition pending_of e : pending_result :=
  MkPending (tool_result_of JSON_stringify e) (as_number (field (e_payload e) "sourceIndex")).

Definition is_tool e : bool := bool_decide (e_type e = ToolExecution).

(** The transcript part of a state: the messages and the buffered results. *)
Definition transcript s : list message * list pending_result := (messages s, pendingToolResults s).

Definition transcript_step (v : list message * list pending_result) e : list message * list pending_result :=
  if is_tool e then (fst v, snd v ++ [pending_of e])
  else if flushes (e_type e)
  then (fst v ++ map result_message (placed (snd v)) ++ option_list (entry_message e), [])
  else v.

Lemma transcript_entry s e : transcript (reduce_entry s e) = transcript_step (transcript s) e.
Proof.
  unfold reduceSessionEntry. set (next := MkState _ _ _ _ _ _ _ _ _ _ _).
  assert (Hn : transcript next = transcript s) by done.
  pose proof (flush_messages next) as Hf. pose proof (flush_pending next) as Hp. revert Hf Hp.
  unfold transcript_step, is_tool, messageFromSessionEntry. rewrite <- Hn. clearbody next. clear Hn. intros Hf Hp.
  destruct (e_type e); cbn [flushes]; rewrite ?bool_decide_eq_true_2, ?bool_decide_eq_false_2 by done; unfold transcript; cbn [fst snd].
  all: repeat match goal with
    | |- context [add_usage ?x ?u] => unfold add_usage at 1; destruct (is_true u)
    | |- context [match ?x with _ => _ end] => destruct x
    end; simpl; rewrite ?Hf, ?Hp, <- ?app_assoc, ?app_nil_r; try done.
Qed.

Lemma transcript_all entries s :
  transcript (foldl reduce_entry s entries) = foldl transcript_step (transcript s) entries.
Proof.
  revert s. induction entries as [|e entries IH]; intros s; [done|]. simpl. by rewrite IH, transcript_entry.
Qed.

(** The frames no settled turn has discarded. *)
Definition open_frames (frames : list frame) e : list frame :=
  match e_type e with
  | AgentTurn => []
  | AssistantFrame => frames ++ option_list (frame_of (field (e_payload e) "frame"))
  | _ => frames
  end.

Lemma frames_entry s e : pendingAssistantFrames (reduce_entry s e) = open_frames (pendingAssistantFrames s) e.
Proof.
  unfold reduceSessionEntry. set (next := MkState _ _ _ _ _ _ _ _ _ _ _).
  assert (Hn : pendingAssistantFrames next = pendingAssistantFrames s) by done.
  pose proof (flush_frames next) as Hf. revert Hf. unfold open_frames. rewrite <- Hn. clearbody next. clear Hn.
  intros Hf. destruct (e_type e); cbn [flushes].
  all: repeat match goal with
    | |- context [add_usage ?x ?u] => unfold add_usage at 1; destruct (is_true u)
    | |- context [match ?x with _ => _ end] => destruct x
    end; simpl; rewrite ?Hf, ?app_nil_r; try done.
Qed.

Lemma frames_all entries s :
  pendingAssistantFrames (foldl reduce_entry s entries) = foldl open_frames (pendingAssistantFrames s) entries.
Proof.
  revert s. induction entries as [|e entries IH]; intros s; [done|]. simpl. by rewrite IH, frames_entry.
Qed.

(** The message rebuilt from the frames left at the end, if any. *)
Definition recovered (frames : list frame) : list message :=
  option_list (partial_message <$> reduceAssistantFrames JSON_parse frames).

Definition finished (v : list message * list pending_result) : list message :=
  fst v ++ map result_message (placed (snd v)).

Lemma finish_messages s :
  messages (finish_session JSON_parse s) = finished (transcript s) ++ recovered (pendingAssistantFrames s).
Proof.
  unfold finish_session, finished, recovered. rewrite flush_frames. pose proof (flush_messages s) as Hf.
  destruct (reduceAssistantFrames _ _); simpl; rewrite Hf; [done|by rewrite app_nil_r].
Qed.

Definition initial entries (initialState : option session_state) : session_state :=
  match initialState with
  | Some s => normalizeInitialState s a
  | None => createInitialSessionState (default "default"%string (truthy (e_sessionId <$> head entries))) a
  end.

Lemma reduceSession_messages entries initialState :
  messages (reduceSession JSON_stringify JSON_parse entries initialState a) =
    finished (foldl transcript_step (transcript (initial entries initialState)) entries) ++
    recovered (foldl open_frames (pendingAssistantFrames (initial entries initialState)) entries).
Proof. unfold reduceSession. by rewrite finish_messages, transcript_all, frames_all. Qed.

Definition is_result (m : message) : bool := match m with ToolResultMessage _ => true | _ => false end.

Lemma filter_results (l : list pending_result) : List.filter (fun m => negb (is_result m)) (map result_message l) = [].
Proof. by induction l. Qed.

Lemma step_conserves v e : finished (transcript_step v e) ≡ₚ finished v ++ option_list (entry_message e).
Proof.
  unfold transcript_step, finished, is_tool, messageFromSessionEntry. destruct (e_type e); cbn [flushes];
    rewrite ?bool_decide_eq_true_2, ?bool_decide_eq_false_2 by done; simpl; rewrite ?app_nil_r; try done.
  - by rewrite <- app_assoc.
  - by rewrite <- app_assoc.
  - rewrite <- app_assoc. apply Permutation_app_head. rewrite !placed_perm, map_app. done.
  - by rewrite <- app_assoc.
Qed.

Lemma step_order v e :
  List.filter (fun m => negb (is_result m)) (fst (transcript_step v e)) =
    List.filter (fun m => negb (is_result m)) (fst v) ++
    List.filter (fun m => negb (is_result m)) (option_list (entry_message e)).
Proof.
  unfold transcript_step, is_tool, messageFromSessionEntry. destruct (e_type e); cbn [flushes];
    rewrite ?bool_decide_eq_true_2, ?bool_decide_eq_false_2 by done; simpl;
    rewrite ?List.filter_app, ?filter_results, ?app_nil_r; done.
Qed.

Lemma omap_cons_option {A B : Type} (f : A -> option B) x l : omap f (x :: l) = option_list (f x) ++ omap f l.
Proof. simpl. by destruct (f x). Qed.

Lemma transcript_folded entries v :
  finished (foldl transcript_step v entries) ≡ₚ finished v ++ omap entry_message entries /\
  List.filter (fun m => negb (is_result m)) (fst (foldl transcript_step v entries)) =
    List.filter (fun m => negb (is_result m)) (fst v) ++ List.filter (fun m => negb (is_result m)) (omap entry_message entries).
Proof.
  revert v. induction entries as [|e entries IH]; intros v; simpl foldl.
  - simpl. by rewrite !app_nil_r.
  - destruct (IH (transcript_step v e)) as [H1 H2]. rewrite H1, H2, step_conserves, step_order, omap_cons_option.
    by rewrite List.filter_app, !app_assoc.
Qed.

Lemma reduced_transcript_perm entries :
  messages (reduceSession JSON_stringify JSON_parse entries None a) ≡ₚ
    omap entry_message entries ++ recovered (foldl open_frames [] entries).
Proof.
  rewrite reduceSession_messages. apply Permutation_app_tail.
  change (transcript (initial entries None)) with (@nil message, @nil pending_result).
  by destruct (transcript_folded entries ([], [])) as [H _].
Qed.

(** The transcript loses and invents nothing.  The messages of a reduced journal are, up
    to order, the messages of its entries, each once, plus the message rebuilt from frames no
    turn has settled; and those that are not tool results stand in journal order. *)
Theorem transcript_keeps_every_message entries :
  let result := reduceSession JSON_stringify JSON_parse entries None a in
  let partial := recovered (foldl open_frames [] entries) in
  messages result ≡ₚ omap entry_message entries ++ partial /\
  List.filter (fun m => negb (is_result m)) (messages result) =
    List.filter (fun m => negb (is_result m)) (omap entry_message entries) ++ partial.
Proof.
  cbv zeta. split; [apply reduced_transcript_perm|]. rewrite reduceSession_messages.
  change (transcript (initial entries None)) with (@nil message, @nil pending_result).
  change (pendingAssistantFrames (initial entries None)) with (@nil frame).
  destruct (transcript_folded entries ([], [])) as [_ H].
  rewrite List.filter_app. unfold finished. rewrite List.filter_app, filter_results, app_nil_r, H. simpl. f_equal.
  unfold recovered. by destruct (reduceAssistantFrames _ _).
Qed.

(** * Completion order *)

(** Two buffers that will be placed alike whatever follows them. *)
Definition alike (v w : list message * list pending_result) : Prop :=
  fst v = fst w /\ forall later, placed (snd v ++ later) = placed (snd w ++ later).

#[export] Instance alike_refl : Reflexive alike.
Proof. by intros v. Qed.

Lemma alike_placed v w : alike v w -> placed (snd v) = placed (snd w).
Proof. intros [_ H]. specialize (H []). by rewrite !app_nil_r in H. Qed.

Lemma alike_step v w e : alike v w -> alike (transcript_step v e) (transcript_step w e).
Proof.
  intros H. pose proof (alike_placed v w H) as Hp. destruct H as [Hf Hs]. unfold transcript_step.
  destruct (is_tool e); [|destruct (flushes (e_type e))]; split; simpl; try done.
  - intros later. by rewrite <- !app_assoc.
  - by rewrite Hf, Hp.
Qed.

Lemma alike_all v w entries : alike v w -> alike (foldl transcript_step v entries) (foldl transcript_step w entries).
Proof. revert v w. induction entries as [|e entries IH]; intros v w H; [done|]. by apply IH, alike_step. Qed.

Lemma run_of_tools v run :
  Forall (fun e => is_tool e = true) run -> foldl transcript_step v run = (fst v, snd v ++ map pending_of run).
Proof.
  intros H. revert v. induction H as [|e run He _ IH]; intros [ms pd]; simpl; [by rewrite app_nil_r|].
  rewrite IH. unfold transcript_step. rewrite He. simpl. by rewrite <- app_assoc.
Qed.

Lemma frames_of_tools frames run : Forall (fun e => is_tool e = true) run -> foldl open_frames frames run = frames.
Proof.
  intros H. induction H as [|e run He _ IH]; [done|]. simpl. unfold open_frames at 2.
  apply bool_decide_eq_true in He. by rewrite He.
Qed.

Lemma placed_permuted (l1 l2 before later : list pending_result) :
  l1 ≡ₚ l2 -> NoDup (map source_key l1) -> placed (before ++ l1 ++ later) = placed (before ++ l2 ++ later).
Proof.
  intros Hp Hnd. unfold placed. rewrite !foldr_app. f_equal. generalize (foldr place [] later). clear later. intros l.
  apply (foldr_permutation eq place l l1 l2); [|done].
  intros i x j y z Hij Hi Hj. apply place_comm. intros E. apply Hij.
  apply (NoDup_lookup (map source_key l1) i j (source_key x) Hnd);
    change (map source_key l1) with (source_key <$> l1); rewrite list_lookup_fmap.
  - by rewrite Hi.
  - rewrite Hj. simpl. by rewrite E.
Qed.

(** The transcript does not depend on the order in which tools completed.  When a run of
    tool results with distinct source indexes is journaled in another order, between the same
    entries, the messages of the reduced session are the same. *)
Theorem transcript_ignores_completion_order before run1 run2 after initialState :
  run1 ≡ₚ run2 -> Forall (fun e => is_tool e = true) run1 ->
  NoDup (map (fun e => source_key (pending_of e)) run1) ->
  messages (reduceSession JSON_stringify JSON_parse (before ++ run1 ++ after) initialState a) =
  messages (reduceSession JSON_stringify JSON_parse (before ++ run2 ++ after) initialState a).
Proof.
  intros Hp H1 Hnd. assert (H2 : Forall (fun e => is_tool e = true) run2) by (by rewrite <- Hp).
  rewrite !reduceSession_messages, !foldl_app.
  replace (transcript (initial (before ++ run2 ++ after) initialState))
    with (transcript (initial (before ++ run1 ++ after) initialState)) by (by destruct initialState).
  replace (pendingAssistantFrames (initial (before ++ run2 ++ after) initialState))
    with (pendingAssistantFrames (initial (before ++ run1 ++ after) initialState)) by (by destruct initialState).
  rewrite (frames_of_tools _ run1), (frames_of_tools _ run2) by done. f_equal.
  rewrite (run_of_tools _ run1), (run_of_tools _ run2) by done. set (v := foldl _ _ before).
  assert (Ha : alike (fst v, snd v ++ map pending_of run1) (fst v, snd v ++ map pending_of run2)).
  { split; [done|]. intros later. cbn [snd]. rewrite <- !app_assoc. apply placed_permuted.
    - by apply Permutation_map.
    - by rewrite map_map. }
  apply (alike_all _ _ after) in Ha. unfold finished. rewrite (alike_placed _ _ Ha). by destruct Ha as [-> _].
Qed.
End Transcript.

(** * A concrete journal *)

Definition demo_stringify (_ : json) : string := "json".
Definition demo_parse (_ : string) : option json := None.
Definition demo_adapter : adapter := genericRuntimeStateAdapter demo_stringify.

Definition demo_tool (id : string) (index : Z) : entry :=
  MkEntry id "session" None ToolExecution 7
    (Some (JObj [("toolName"%string, JStr "read"); ("result"%string, JStr id); ("sourceIndex"%string, JNum index)])).

Definition demo_user (id : string) : entry := MkEntry id "session" None UserMessageEntry 5 (Some (JStr "hello")).

Lemma transcript_ignores_completion_order_witness :
  messages (reduceSession demo_stringify demo_parse ([demo_user "u"] ++ [demo_tool "x" 1; demo_tool "y" 0] ++ [demo_user "v"]) None demo_adapter) =
  messages (reduceSession demo_stringify demo_parse ([demo_user "u"] ++ [demo_tool "y" 0; demo_tool "x" 1] ++ [demo_user "v"]) None demo_adapter).
Proof.
  apply (transcript_ignores_completion_order demo_stringify demo_parse demo_adapter).
  - apply Permutation_swap.
  - repeat constructor.
  - apply NoDup_ListNoDup. repeat constructor; simpl; intuition discriminate.
Defined.
