(* ===== verification/RecoveryProofs.v ===== *)
(** Crash recovery of a reduced session: what is marked interrupted, and what may be
    replayed. *)

From S2P Require Import Prelude Json Frames Reducer ReducerProofs.

(** * Durable results *)

Lemma durable_snoc (m : list (string * tool_result)) (rs : list tool_result) id :
  (is_Some (assoc_get m id) \/ exists r, r ∈ rs /\ tr_id r = id) -> id <> EmptyString ->
  is_Some (assoc_get (foldl (fun m r => if bool_decide (tr_id r = EmptyString) then m else assoc_set m (tr_id r) r) m rs) id).
Proof.
  revert m. induction rs as [|r rs IH]; intros m H Hid; simpl.
  - destruct H as [H|(r & Hr & _)]; [done|by inversion Hr].
  - apply IH; [|done]. destruct H as [H|(r' & [->|Hr']%elem_of_cons & Hid')].
    + left. case_bool_decide; [done|]. destruct (decide (tr_id r = id)) as [->|Hne].
      * rewrite assoc_get_set_eq. by eexists.
      * by rewrite assoc_get_set_ne.
    + left. rewrite bool_decide_eq_false_2 by congruence. rewrite <- Hid', assoc_get_set_eq. by eexists.
    + right. eauto.
Qed.

Lemma durable_some l r :
  ToolResultMessage r ∈ l -> tr_id r <> EmptyString -> is_Some (assoc_get (durableToolResults l) (tr_id r)).
Proof.
  intros Hin Hid. apply durable_snoc; [|done]. right. exists r. split; [|done].
  unfold tool_results. apply list_elem_of_omap. by exists (ToolResultMessage r).
Qed.

(** * Marking *)

Definition live (op : operation) : bool :=
  state_is op "running" || state_is op "pending" || state_is op "interrupted".

(** The durable result that settles an operation. *)
Definition settling_result (durable : list (string * tool_result)) (op : operation) : option tool_result :=
  if is_str (Some (op_type op)) "tool_call" && live op then invocation_of op ≫= assoc_get durable else None.

(** What marking makes of one operation, and whether it is reported. *)
Inductive marked (durable : list (string * tool_result)) (op : operation) : operation -> bool -> Prop :=
| marked_settled r :
    settling_result durable op = Some r ->
    marked durable op
      (with_state op (if tr_isError r then "failed" else "settled") (Some (settlement_of r)) (op_error op) (tr_timestamp r)) false
| marked_interrupted now :
    settling_result durable op = None -> state_is op "running" || state_is op "pending" = true ->
    marked durable op (with_state op "interrupted" (op_settlement op) (Some interrupted_error) now) true
| marked_kept :
    settling_result durable op = None -> state_is op "running" || state_is op "pending" = false ->
    marked durable op op false.

Inductive marked_all (durable : list (string * tool_result)) :
  list (string * operation) -> list (string * operation) -> list string -> Prop :=
| marked_nil : marked_all durable [] [] []
| marked_cons id op op' b ops ops' ids :
    marked durable op op' b -> marked_all durable ops ops' ids ->
    marked_all durable ((id, op) :: ops) ((id, op') :: ops') ((if b then [id] else []) ++ ids).

Lemma mark_loop_marked clock durable ops done ids :
  NoDup (done.*1 ++ ops.*1) ->
  exists ops' ids', mark_loop clock durable ops done ids = (done ++ ops', ids ++ ids') /\ marked_all durable ops ops' ids'.
Proof.
  revert done ids. induction ops as [|[id op] ops IH]; intros done ids Hnd.
  - exists [], []. rewrite !app_nil_r. split; [by simpl|constructor].
  - rewrite fmap_cons in Hnd. cbn [fst] in Hnd.
    assert (Hfresh : id ∉ done.*1).
    { intros Hin. apply NoDup_app in Hnd as (_ & Hd & _). apply (Hd id Hin). by left. }
    assert (Hgo : forall op' b, marked durable op op' b -> exists ops' ids',
      mark_loop clock durable ops (assoc_set done id op') (ids ++ if b then [id] else []) =
        (done ++ ops', ids ++ ids') /\ marked_all durable ((id, op) :: ops) ops' ids').
    { intros op' b Hm. rewrite assoc_set_fresh by done.
      destruct (IH (done ++ [(id, op')]) (ids ++ if b then [id] else [])) as (ops' & ids' & E & Ha).
      { rewrite fmap_app. simpl. by rewrite <- app_assoc. }
      exists ((id, op') :: ops'), ((if b then [id] else []) ++ ids'). split.
      - by rewrite E, <- !app_assoc.
      - by constructor. }
    cbn [mark_loop]. fold (live op). fold (settling_result durable op).
    destruct (settling_result durable op) as [r|] eqn:Hr.
    + destruct (Hgo _ false (marked_settled durable op r Hr)) as (ops' & ids' & E & Ha).
      rewrite app_nil_r in E. eauto.
    + destruct (_ || _) eqn:Hs.
      * by destruct (Hgo _ true (marked_interrupted durable op (clock (length ids)) Hr Hs)) as (ops' & ids' & E & Ha); eauto.
      * destruct (Hgo _ false (marked_kept durable op Hr Hs)) as (ops' & ids' & E & Ha). rewrite app_nil_r in E. eauto.
Qed.

Lemma state_is_with op st se er t s : state_is (with_state op st se er t) s = bool_decide (st = s).
Proof. unfold state_is, is_str. simpl. apply bool_decide_ext. naive_solver. Qed.

Lemma marked_quiet durable op op' b :
  marked durable op op' b -> state_is op' "running" || state_is op' "pending" = false.
Proof.
  destruct 1 as [r H|now H Hs|H Hs]; [|by rewrite !state_is_with|done].
  rewrite !state_is_with. by destruct (tr_isError r).
Qed.

(** No operation that is still open has a durable result. *)
Lemma marked_open durable op op' b :
  marked durable op op' b -> settling_result durable op' = None.
Proof.
  destruct 1 as [r H|now H Hs|H Hs]; [| |done]; unfold settling_result in *; unfold live in *; rewrite !state_is_with.
  - destruct (tr_isError r); by rewrite andb_false_r.
  - change (op_type (with_state _ _ _ _ _)) with (op_type op) in *.
    change (invocation_of (with_state _ _ _ _ _)) with (invocation_of op) in *.
    destruct (is_str _ "tool_call"); [|done]. rewrite Hs in H. simpl in H. by simpl.
Qed.

Lemma marked_again durable op op' b : marked durable op op' b -> forall op'' b', marked durable op' op'' b' -> op'' = op' /\ b' = false.
Proof.
  intros H op'' b' H'. pose proof (marked_quiet _ _ _ _ H) as Hq. pose proof (marked_open _ _ _ _ H) as Ho.
  destruct H' as [r Hr|now Hr Hs|Hr Hs]; [congruence|congruence|done].
Qed.

Lemma marked_all_spec durable ops ops' ids :
  marked_all durable ops ops' ids ->
  ops'.*1 = ops.*1 /\
  (forall id op', (id, op') ∈ ops' -> exists op b, (id, op) ∈ ops /\ marked durable op op' b) /\
  (forall id, id ∈ ids -> exists op', (id, op') ∈ ops' /\ state_is op' "interrupted" = true).
Proof.
  induction 1 as [|id op op' b ops ops' ids Hm H (I1 & I2 & I3)].
  - split_and!; [done|intros ? ? Hin; inversion Hin|intros ? Hin; inversion Hin].
  - split_and!; [by rewrite !fmap_cons, I1| |].
    + intros id0 op0 [[= -> ->]|Hin]%elem_of_cons; [exists op, b; split; [by left|done]|].
      destruct (I2 _ _ Hin) as (op1 & b1 & Hin1 & Hm1). exists op1, b1. split; [by right|done].
    + intros id0 [Hin|Hin]%elem_of_app.
      * destruct Hm; try (by inversion Hin). apply list_elem_of_singleton in Hin as ->. eexists. split; [by left|].
        by rewrite state_is_with, bool_decide_eq_true_2.
      * destruct (I3 id0 Hin) as (op0 & Hin0 & Hs). exists op0. split; [by right|done].
Qed.

Lemma marked_all_again durable ops ops' ids :
  marked_all durable ops ops' ids -> forall ops'' ids', marked_all durable ops' ops'' ids' -> ops'' = ops' /\ ids' = [].
Proof.
  induction 1 as [|id op op' b ops ops' ids Hm H IH]; intros ops'' ids' H'; inversion H'; subst; [done|].
  destruct (IH _ _ ltac:(eassumption)) as [-> ->].
  by destruct (marked_again _ _ _ _ Hm _ _ ltac:(eassumption)) as [-> ->].
Qed.

(** * Operations of a reduced session *)

Section Recovery.
Context (JSON_stringify : json -> string) (JSON_parse : string -> option json) (a : adapter).
Implicit Types (s : session_state) (e : entry) (clock : nat -> Z).
Abbreviation reduce_entry := (reduceSessionEntry JSON_stringify a).
Abbreviation reduce entries := (reduceSession JSON_stringify JSON_parse entries None a).

Lemma flush_operations s : operations (flushPendingToolResults s) = operations s.
Proof. unfold flushPendingToolResults. by destruct (pendingToolResults s). Qed.

Lemma entry_operations s e :
  operations (reduce_entry s e) = operations s \/ exists id op, operations (reduce_entry s e) = assoc_set (operations s) id op.
Proof.
  unfold reduceSessionEntry. set (next := MkState _ _ _ _ _ _ _ _ _ _ _).
  assert (Hn : operations next = operations s) by done. pose proof (flush_operations next) as Hf. revert Hf.
  rewrite <- Hn. clearbody next. clear Hn. intros Hf. destruct (e_type e); cbn [flushes].
  all: repeat match goal with
    | |- context [add_usage ?x ?u] => unfold add_usage; destruct (is_true u)
    | |- context [match ?x with _ => _ end] => destruct x
    end; simpl; rewrite ?Hf; eauto.
Qed.

Lemma reduced_operations_nodup entries s :
  NoDup ((operations s).*1) -> NoDup ((operations (foldl reduce_entry s entries)).*1).
Proof.
  revert s. induction entries as [|e entries IH]; intros s Hs; [done|]. simpl. apply IH.
  destruct (entry_operations s e) as [->|(id & op & ->)]; [done|by apply assoc_set_nodup].
Qed.

Lemma reduce_operations_nodup entries : NoDup ((operations (reduce entries)).*1).
Proof.
  unfold reduceSession, finish_session. destruct (reduceAssistantFrames _ _); simpl; rewrite flush_operations;
    apply reduced_operations_nodup; constructor.
Qed.

Lemma detect_marked s clock :
  NoDup ((operations s).*1) ->
  exists ops' ids', detectAndMarkInterruptedOperations s clock = MkRecovery (with_operations s ops') (length ids') ids' /\
    marked_all (durableToolResults (messages s)) (operations s) ops' ids'.
Proof.
  intros Hnd. unfold detectAndMarkInterruptedOperations.
  destruct (mark_loop_marked clock (durableToolResults (messages s)) (operations s) [] []) as (ops' & ids' & -> & H); [done|].
  eauto.
Qed.

(** Recovery leaves nothing running and runs once.  After the marking of a reduced
    session the same operations exist in the same order and none of them is pending or
    running; every reported identifier is one of an interrupted operation; and marking the
    result again reports nothing and changes nothing. *)
Theorem recovery_is_complete_and_idempotent entries clock clock' :
  let s := reduce entries in
  let r := detectAndMarkInterruptedOperations s clock in
  (operations (rc_state r)).*1 = (operations s).*1 /\
  (forall id op, (id, op) ∈ operations (rc_state r) -> state_is op "running" || state_is op "pending" = false) /\
  rc_count r = length (rc_interrupted r) /\
  (forall id, id ∈ rc_interrupted r -> exists op, (id, op) ∈ operations (rc_state r) /\ state_is op "interrupted" = true) /\
  detectAndMarkInterruptedOperations (rc_state r) clock' = MkRecovery (rc_state r) 0 [].
Proof.
  intros s r. pose proof (reduce_operations_nodup entries) as Hnd. fold s in Hnd.
  destruct (detect_marked s clock Hnd) as (ops' & ids' & E & Hm).
  assert (Er : r = MkRecovery (with_operations s ops') (length ids') ids') by exact E. clearbody r. subst r.
  destruct (marked_all_spec _ _ _ _ Hm) as (I1 & I2 & I3). split_and!; [done| |done|done|].
  - intros id op Hin. destruct (I2 id op Hin) as (op0 & b & _ & Hop). by eapply marked_quiet.
  - cbn [rc_state]. destruct (detect_marked (with_operations s ops') clock') as (ops'' & ids'' & -> & Hm').
    { cbn [operations with_operations]. by rewrite I1. }
    destruct (marked_all_again _ _ _ _ Hm _ _ Hm') as [-> ->]. done.
Qed.

(** * Replay plans *)

(** When a plan may run the tool again. *)
Definition may_replay (tools : option registry) (p : plan) : Prop :=
  pl_replay_safe p = true /\
  exists t, tools = Some t /\ registered_replay t (pl_toolName p) = Some (Some (JStr "safe")) /\
    toolReplayContractsMatch JSON_stringify (pl_contract p) (getReplayContract t (pl_toolName p)) = true /\
    validateParameters t (pl_toolName p) (default (JObj []) (coalesce (pl_arguments p) (Some (JObj [])))) = true.

Lemma is_str_some v (x : string) : is_str v x = true -> v = Some (JStr x).
Proof. unfold is_str. intros H%bool_decide_eq_true. destruct v as [[]|]; simpl in H; simplify_eq. done. Qed.

Lemma plan_one_replays tools op i : pl_replays (plan_one JSON_stringify tools op i) = true -> may_replay tools (plan_one JSON_stringify tools op i).
Proof.
  unfold pl_replays, may_replay, plan_one. cbn [pl_reason pl_replay_safe pl_toolName pl_contract pl_arguments].
  unfold refusal. destruct (negb (is_str _ "safe")) eqn:E1; [done|]. apply negb_false_iff in E1.
  intros H. split; [done|]. destruct tools as [t|]; [|done]. exists t. split; [done|].
  cbn [mbind option_bind] in H. destruct (registered_replay t _) as [r|]; [|done]. cbn [fmap option_fmap option_map] in H.
  destruct (negb (is_str r "safe")) eqn:E2; [done|]. apply negb_false_iff, is_str_some in E2 as ->.
  destruct (negb (toolReplayContractsMatch _ _ _)) eqn:E3; [done|]. apply negb_false_iff in E3.
  destruct (negb (validateParameters _ _ _)) eqn:E4; [done|]. apply negb_false_iff in E4. done.
Qed.

Lemma plan_loop_spec tools ops seen plans result :
  plan_loop JSON_stringify tools ops seen plans = Some result ->
  exists new, result = plans ++ new /\ NoDup (map pl_invocationId new) /\
    (forall p, p ∈ new -> pl_invocationId p ∉ seen) /\
    forall p, p ∈ new -> exists op, op ∈ ops /\ state_is op "interrupted" = true /\
      is_str (Some (op_type op)) "tool_call" = true /\
      p = plan_one JSON_stringify tools op (default (op_id op) (invocation_of op)).
Proof.
  revert seen plans. induction ops as [|op ops IH]; intros seen plans H; simpl in H.
  - simplify_eq. exists []. rewrite app_nil_r. split_and!; [done|constructor|intros ? Hp; inversion Hp..].
  - destruct (_ || _) eqn:Es.
    + destruct (IH _ _ H) as (new & -> & H1 & H2 & H3). exists new. split_and!; [done..|].
      intros p Hp. destruct (H3 p Hp) as (op' & Hin & ?). exists op'. split; [by right|done].
    + apply orb_false_iff in Es as [Es1%negb_false_iff Es2%negb_false_iff].
      set (i := default (op_id op) (invocation_of op)) in *.
      destruct (_ || _) eqn:Ei; [done|]. apply orb_false_iff in Ei as [_ Ei%bool_decide_eq_false].
      destruct (IH _ _ H) as (new & -> & H1 & H2 & H3). exists (plan_one JSON_stringify tools op i :: new). split_and!.
      * by rewrite <- app_assoc.
      * simpl. apply NoDup_cons. split; [|done]. intros Hin. apply list_elem_of_In, in_map_iff in Hin as (p & Hp & Hin).
        apply list_elem_of_In in Hin. apply (H2 p Hin). rewrite Hp. set_solver.
      * intros p [->|Hp]%elem_of_cons; [done|]. specialize (H2 p Hp). set_solver.
      * intros p [->|Hp]%elem_of_cons; [exists op; split_and!; [by left|done..]|].
        destruct (H3 p Hp) as (op' & Hin & ?). exists op'. split; [by right|done].
Qed.

(** The transcript holds the result of every tool entry of the journal. *)
Lemma tool_entry_durable entries e :
  e ∈ entries -> e_type e = ToolExecution -> e_id e <> EmptyString ->
  is_Some (assoc_get (durableToolResults (messages (reduce entries))) (e_id e)).
Proof.
  intros Hin Ht Hid. apply (durable_some _ (tool_result_of JSON_stringify e)); [|done].
  rewrite reduced_transcript_perm. apply elem_of_app. left. apply list_elem_of_omap. exists e. split; [done|].
  unfold messageFromSessionEntry. by rewrite Ht.
Qed.

(** C30: a settled tool call is never run again.  The recovery plan of a reduced and marked
    journal has one item per invocation, each for an interrupted tool call whose own
    invocation has no result in the journal; and an item may replay only when the policy
    recorded with the call and the registered tool's both allow it, their contracts match and
    the arguments are valid. *)
Theorem recovery_replays_no_settled_tool entries clock tools plans :
  planInterruptedRecovery JSON_stringify (rc_state (detectAndMarkInterruptedOperations (reduce entries) clock)) tools = Some plans ->
  NoDup (map pl_invocationId plans) /\
  forall p, p ∈ plans ->
    (pl_replays p = true -> may_replay tools p) /\
    exists id op, (id, op) ∈ operations (reduce entries) /\
      pl_invocationId p = default (op_id op) (invocation_of op) /\
      forall e, e ∈ entries -> e_type e = ToolExecution -> e_id e <> EmptyString -> invocation_of op <> Some (e_id e).
Proof.
  intros H. destruct (detect_marked (reduce entries) clock (reduce_operations_nodup entries)) as (ops' & ids' & E & Hm).
  rewrite E in H. cbn [rc_state] in H. apply plan_loop_spec in H as (new & -> & Hnd & _ & Hnew). simpl. split; [done|].
  intros p Hp. destruct (Hnew p Hp) as (op' & Hin & Hs & Ht & ->). split; [apply plan_one_replays|].
  apply list_elem_of_fmap_1 in Hin as ([id op0] & -> & Hin). cbn [snd] in *.
  destruct (marked_all_spec _ _ _ _ Hm) as (_ & I2 & _). destruct (I2 id op0 Hin) as (op & b & Hop & Hmk).
  pose proof (marked_open _ _ _ _ Hmk) as Ho.
  assert (Hsame : op_id op0 = op_id op /\ invocation_of op0 = invocation_of op) by (by destruct Hmk).
  destruct Hsame as [Hid Hinv]. exists id, op. split_and!; [done|by rewrite <- Hid, <- Hinv|].
  intros e He Het Heid Hi. unfold settling_result, live in Ho. rewrite Ht, Hs, !orb_true_r, Hinv, Hi in Ho. simpl in Ho.
  destruct (tool_entry_durable entries e He Het Heid) as [r Hr]. congruence.
Qed.
End Recovery.

(** * A concrete recovery *)

Definition demo_contract : json := JObj [("version"%string, JNum 1)].

Definition demo_registry : registry :=
  MkRegistry (fun _ => Some (Some (JStr "safe"))) (fun _ => Some demo_contract) (fun _ _ => true).

Definition demo_call (op inv : string) : entry :=
  MkEntry (op +:+ "i") "session" None OperationIntent 3
    (Some (JObj [("id"%string, JStr op); ("type"%string, JStr "tool_call");
                 ("intent"%string, JObj [("name"%string, JStr "read"); ("contract"%string, demo_contract)]);
                 ("replay"%string, JStr "safe"); ("invocationId"%string, JStr inv)])).

(** Two calls were under way at the crash; the result of the first one is in the journal. *)
Definition demo_journal : list entry := [demo_user "u"; demo_call "op1" "x"; demo_call "op2" "y"; demo_tool "x" 0].

Definition demo_plan : plan :=
  MkPlan "y" "op2" None None "read" None true None (Some demo_contract).

Lemma recovery_replays_no_settled_tool_witness :
  let s := reduceSession demo_stringify demo_parse demo_journal None demo_adapter in
  NoDup (map pl_invocationId [demo_plan]) /\
  forall p, p ∈ [demo_plan] ->
    (pl_replays p = true -> may_replay demo_stringify (Some demo_registry) p) /\
    exists id op, (id, op) ∈ operations s /\
      pl_invocationId p = default (op_id op) (invocation_of op) /\
      forall e, e ∈ demo_journal -> e_type e = ToolExecution -> e_id e <> EmptyString -> invocation_of op <> Some (e_id e).
Proof.
  apply (recovery_replays_no_settled_tool demo_stringify demo_parse demo_adapter demo_journal (fun _ => 9%Z)
           (Some demo_registry) [demo_plan]).
  vm_compute. reflexivity.
Defined.
