(* ===== verification/JsonStrict.v ===== *)
(** The strict JSON boundary ([findJsonValueError] and its wrappers in protocol/src/json.ts).
    The values it inspects are a graph: objects have an identity and may be shared or cyclic,
    arrays may have holes, anything may hold what JSON cannot express.

    Modelling choices: the heap is a finite map from locations to objects, an array is its slots
    and its other own properties, the [try]/[finally] on the set of ancestors is the scope of
    an argument; finite numbers are integers; getters and proxies are not modelled. *)

From stdpp Require Import pretty.
From S2P Require Import Prelude Json.

(** * Values *)

Inductive jval : Type :=
| PUndef
| PNull
| PBool (b : bool)
| PNum (n : Z)
| PNonFinite
| PStr (s : string)
| POther (* a function, a symbol or a big integer *)
| PRef (l : nat).

Inductive shape : Type :=
| OArray (slots : list (option jval)) (extra : list (string * jval))
| OPlain (props : list (string * jval))
| OExotic.

Record object : Type := MkObject { o_shape : shape; o_symbols : bool }.

Abbreviation heap := (gmap nat object).

Inductive issue : Type :=
| NotFinite (path : string)
| IsUndefined (path : string)
| Unsupported (path : string)
| Cyclic (path : string)
| NotPlain (path : string)
| SymbolKeys (path : string)
| Sparse (path : string)
| ArrayProperty (path : string)
| NotObject (path : string).

(** * The search for an issue *)

Section Loops.
Variable find : string -> jval -> option (option issue).

Fixpoint find_slots (path : string) (index : nat) (slots : list (option jval)) : option (option issue) :=
  match slots with
  | [] => Some None
  | None :: _ => Some (Some (Sparse (path +:+ "[" +:+ pretty (N.of_nat index) +:+ "]")))
  | Some v :: slots =>
      match find (path +:+ "[" +:+ pretty (N.of_nat index) +:+ "]") v with
      | Some None => find_slots path (S index) slots
      | r => r
      end
  end.

Fixpoint find_props (path : string) (props : list (string * jval)) : option (option issue) :=
  match props with
  | [] => Some None
  | (k, v) :: props =>
      match find (path +:+ "." +:+ k) v with
      | Some None => find_props path props
      | r => r
      end
  end.
End Loops.

(** [findJsonValueErrorInternal]; [None] is out of fuel. *)
Fixpoint find_error (h : heap) (fuel : nat) (ancestors : gset nat) (path : string) (v : jval) : option (option issue) :=
  match v with
  | PNull | PStr _ | PBool _ | PNum _ => Some None
  | PNonFinite => Some (Some (NotFinite path))
  | PUndef => Some (Some (IsUndefined path))
  | POther => Some (Some (Unsupported path))
  | PRef l =>
      if bool_decide (l ∈ ancestors) then Some (Some (Cyclic path))
      else
        match fuel, h !! l with
        | O, _ => None
        | S _, None => Some (Some (NotPlain path))
        | S fuel, Some o =>
            match o_shape o with
            | OExotic => Some (Some (NotPlain path))
            | OArray slots extra =>
                if o_symbols o then Some (Some (SymbolKeys path))
                else
                  match find_slots (find_error h fuel ({[l]} ∪ ancestors)) path 0 slots with
                  | Some None =>
                      match extra with
                      | [] => Some None
                      | (k, _) :: _ => Some (Some (ArrayProperty (path +:+ "." +:+ k)))
                      end
                  | r => r
                  end
            | OPlain props =>
                if o_symbols o then Some (Some (SymbolKeys path))
                else find_props (find_error h fuel ({[l]} ∪ ancestors)) path props
            end
        end
  end.

(** One more than the number of objects is enough fuel. *)
Definition findJsonValueError (h : heap) (v : jval) : option (option issue) := find_error h (S (size h)) ∅ "$" v.

Definition isJsonValue (h : heap) (v : jval) : bool := match findJsonValueError h v with Some None => true | _ => false end.

Definition isPlainObject (h : heap) (v : jval) : bool :=
  match v with
  | PRef l => match h !! l with Some o => match o_shape o with OPlain _ => true | _ => false end | None => false end
  | _ => false
  end.

Definition findJsonObjectError (h : heap) (v : jval) : option (option issue) :=
  if isPlainObject h v then findJsonValueError h v else Some (Some (NotObject "$")).

Definition isJsonObject (h : heap) (v : jval) : bool := match findJsonObjectError h v with Some None => true | _ => false end.

(** * What a value denotes *)

(** A value that unfolds to a finite JSON tree; an object that is shared, but not inside
    itself, is fine. *)
Inductive denotes (h : heap) : jval -> json -> Prop :=
| d_null : denotes h PNull JNull
| d_bool b : denotes h (PBool b) (JBool b)
| d_num n : denotes h (PNum n) (JNum n)
| d_str s : denotes h (PStr s) (JStr s)
| d_array l slots items :
    h !! l = Some (MkObject (OArray slots []) false) -> denotes_slots h slots items -> denotes h (PRef l) (JArr items)
| d_object l props fields :
    h !! l = Some (MkObject (OPlain props) false) -> denotes_props h props fields -> denotes h (PRef l) (JObj fields)
with denotes_slots (h : heap) : list (option jval) -> list json -> Prop :=
| ds_nil : denotes_slots h [] []
| ds_cons v t slots items : denotes h v t -> denotes_slots h slots items -> denotes_slots h (Some v :: slots) (t :: items)
with denotes_props (h : heap) : list (string * jval) -> list (string * json) -> Prop :=
| dp_nil : denotes_props h [] []
| dp_cons k v t props fields : denotes h v t -> denotes_props h props fields -> denotes_props h ((k, v) :: props) ((k, t) :: fields).

Scheme denotes_mut := Minimality for denotes Sort Prop
  with denotes_slots_mut := Minimality for denotes_slots Sort Prop
  with denotes_props_mut := Minimality for denotes_props Sort Prop.

(** * Size of a tree, and determinism *)

Fixpoint json_size (t : json) : nat :=
  match t with
  | JArr items => S (sum_list (map json_size items))
  | JObj fields => S (sum_list (map (fun kv => json_size (snd kv)) fields))
  | _ => 1
  end.

Section Strict.
Variable h : heap.

Lemma denotes_det v t : denotes h v t -> forall t', denotes h v t' -> t = t'.
Proof.
  revert v t. apply (denotes_mut h (fun v t => forall t', denotes h v t' -> t = t')
    (fun slots items => forall items', denotes_slots h slots items' -> items = items')
    (fun props fields => forall fields', denotes_props h props fields' -> fields = fields')).
  all: try (intros; match goal with H : denotes _ _ _ |- _ => by inversion H end).
  - intros l slots items Hl _ IH t' H. inversion H; subst; simplify_eq. f_equal. by apply IH.
  - intros l props fields Hl _ IH t' H. inversion H; subst; simplify_eq. f_equal. by apply IH.
  - intros items' H. by inversion H.
  - intros v t slots items _ IH1 _ IH2 items' H. inversion H; subst. f_equal; auto.
  - intros fields' H. by inversion H.
  - intros k v t props fields _ IH1 _ IH2 fields' H. inversion H; subst. f_equal; [f_equal|]; auto.
Qed.

(** * An accepted value is a tree *)

Lemma accepted_slots find path slots : forall i,
  (forall p v, find p v = Some None -> exists t, denotes h v t) ->
  find_slots find path i slots = Some None -> exists items, denotes_slots h slots items.
Proof.
  induction slots as [|[v|] slots IH]; intros i Hfind H; cbn [find_slots] in H; [eexists; constructor| |done].
  destruct (find _ v) as [[e|]|] eqn:E; [done| |done]. destruct (Hfind _ _ E) as [t Ht]. destruct (IH _ Hfind H) as [items Hi].
  eexists. by constructor.
Qed.

Lemma accepted_props find path props :
  (forall p v, find p v = Some None -> exists t, denotes h v t) ->
  find_props find path props = Some None -> exists fields, denotes_props h props fields.
Proof.
  intros Hfind. induction props as [|[k v] props IH]; intros H; cbn [find_props] in H; [eexists; constructor|].
  destruct (find _ v) as [[e|]|] eqn:E; [done| |done]. destruct (Hfind _ _ E) as [t Ht]. destruct (IH H) as [fields Hf].
  eexists. by constructor.
Qed.

Lemma accepted_denotes fuel : forall A path v, find_error h fuel A path v = Some None -> exists t, denotes h v t.
Proof.
  induction fuel as [|fuel IH]; intros A path [| |b|n| |s| |l] H; cbn [find_error] in H; try done; try (eexists; by constructor).
  - by destruct (bool_decide _).
  - destruct (bool_decide _); [done|]. destruct (h !! l) as [[[slots extra|props|] sym]|] eqn:El; cbn in H; try done; destruct sym; try done.
    + destruct (find_slots _ _ _ _) as [[e|]|] eqn:E; try done. destruct extra as [|[k v] extra]; [|done].
      apply accepted_slots in E as [items Hi]; [|intros p v; apply IH]. eexists. by eapply d_array.
    + apply accepted_props in H as [fields Hf]; [|intros p v; apply IH]. eexists. by eapply d_object.
Qed.

(** * A tree is accepted *)

(** Every ancestor unfolds to a tree larger than the one at hand, so none is met again. *)
Definition above (A : gset nat) (n : nat) : Prop := forall a, a ∈ A -> exists t, denotes h (PRef a) t /\ n < json_size t.

Lemma above_le A n m : above A n -> m <= n -> above A m.
Proof. intros H Hle a Ha. destruct (H a Ha) as (t & Ht & Hn). exists t. split; [done|lia]. Qed.

Lemma above_add A l t n : above A (json_size t) -> denotes h (PRef l) t -> n < json_size t -> above ({[l]} ∪ A) n.
Proof.
  intros H Ht Hn a [->%elem_of_singleton|Ha]%elem_of_union; [by exists t|].
  destruct (H a Ha) as (t' & Ht' & Hlt). exists t'. split; [done|lia].
Qed.

Lemma not_above A l t : above A (json_size t) -> denotes h (PRef l) t -> l ∉ A.
Proof. intros H Ht Hl. destruct (H l Hl) as (t' & Ht' & Hlt). rewrite (denotes_det _ _ Ht _ Ht') in Hlt. lia. Qed.

(** Enough fuel for the objects that are not ancestors. *)
Definition fuelled (fuel : nat) (A : gset nat) : Prop := A ⊆ dom h /\ size (dom h) < fuel + size A.

Lemma fuelled_add fuel A l : fuelled (S fuel) A -> is_Some (h !! l) -> l ∉ A -> fuelled fuel ({[l]} ∪ A).
Proof.
  intros [Hs Hf] Hl Hn. split.
  - apply union_subseteq. split; [|done]. apply singleton_subseteq_l. by apply elem_of_dom.
  - rewrite size_union, size_singleton; [lia|]. set_solver.
Qed.

Lemma fuelled_pos fuel A : fuelled fuel A -> fuel <> 0.
Proof. intros [Hs Hf] ->. apply subseteq_size in Hs. lia. Qed.

Lemma denotes_accepted v t :
  denotes h v t -> forall fuel A path, fuelled fuel A -> above A (json_size t) -> find_error h fuel A path v = Some None.
Proof.
  revert v t. apply (denotes_mut h
    (fun v t => forall fuel A path, fuelled fuel A -> above A (json_size t) -> find_error h fuel A path v = Some None)
    (fun slots items => forall fuel A path i, fuelled fuel A -> above A (sum_list (map json_size items)) ->
       find_slots (find_error h fuel A) path i slots = Some None)
    (fun props fields => forall fuel A path, fuelled fuel A -> above A (sum_list (map (fun kv => json_size (snd kv)) fields)) ->
       find_props (find_error h fuel A) path props = Some None)).
  - by intros [|fuel].
  - by intros b [|fuel].
  - by intros n [|fuel].
  - by intros s [|fuel].
  - intros l slots items Hl Hd IH [|fuel] A path Hf HA; [by apply fuelled_pos in Hf|].
    assert (Hden : denotes h (PRef l) (JArr items)) by (by eapply d_array). pose proof (not_above _ _ _ HA Hden) as Hn.
    cbn [find_error]. rewrite bool_decide_false, Hl by done. cbn. rewrite IH; [done| |].
    + apply fuelled_add; [done|by eexists|done].
    + apply (above_add A l (JArr items)); [done|done|]. cbn. lia.
  - intros l props fields Hl Hd IH [|fuel] A path Hf HA; [by apply fuelled_pos in Hf|].
    assert (Hden : denotes h (PRef l) (JObj fields)) by (by eapply d_object). pose proof (not_above _ _ _ HA Hden) as Hn.
    cbn [find_error]. rewrite bool_decide_false, Hl by done. cbn. rewrite IH; [done| |].
    + apply fuelled_add; [done|by eexists|done].
    + apply (above_add A l (JObj fields)); [done|done|]. cbn. lia.
  - done.
  - intros v t slots items _ IH1 _ IH2 fuel A path i Hf HA. cbn [find_slots]. rewrite IH1; [apply IH2|done|].
    + done.
    + eapply above_le; [exact HA|]. cbn. lia.
    + eapply above_le; [exact HA|]. cbn. lia.
  - done.
  - intros k v t props fields _ IH1 _ IH2 fuel A path Hf HA. cbn [find_props]. rewrite IH1; [apply IH2|done|].
    + done.
    + eapply above_le; [exact HA|]. cbn. lia.
    + eapply above_le; [exact HA|]. cbn. lia.
Qed.

(** * Termination *)

Lemma terminates fuel : forall A path v, fuelled fuel A -> find_error h fuel A path v <> None.
Proof.
  induction fuel as [|fuel IH]; intros A path v Hf; [by apply fuelled_pos in Hf|].
  destruct v; cbn [find_error]; try done. destruct (decide (l ∈ A)) as [Hl|Hl]; [by rewrite bool_decide_true|].
  rewrite bool_decide_false by done. destruct (h !! l) as [o|] eqn:El; [|done].
  assert (Hfind : forall p v, find_error h fuel ({[l]} ∪ A) p v <> None).
  { intros p v. apply IH. apply fuelled_add; [done|by eexists|done]. }
  revert Hfind. generalize (find_error h fuel ({[l]} ∪ A)). intros find Hfind.
  destruct (o_shape o) as [slots extra|props|]; [| |done]; destruct (o_symbols o); try done.
  - assert (Hs : forall i, find_slots find path i slots <> None).
    { induction slots as [|[v|] slots IHs]; intros i; cbn [find_slots]; [done| |done].
      destruct (find _ v) as [[e|]|] eqn:E; [done|apply IHs|by apply Hfind in E]. }
    destruct (find_slots find path 0 slots) as [[e|]|] eqn:E; [done|by destruct extra as [|[]]|by apply Hs in E].
  - induction props as [|[k v] props IHs]; cbn [find_props]; [done|].
    destruct (find _ v) as [[e|]|] eqn:E; [done|apply IHs|by apply Hfind in E].
Qed.

Lemma fuelled_start : fuelled (S (size h)) ∅.
Proof. split; [apply empty_subseteq|]. rewrite size_empty, size_dom. lia. Qed.

(** C40: the strict JSON check accepts exactly the values that are finite JSON trees.  Whatever
    the graph of objects, with sharing, cycles, holes, symbol keys, exotic prototypes and
    values JSON does not know, the search ends; it finds no issue if and only if the value
    unfolds to a JSON tree, which is then unique. *)
Theorem isJsonValue_decides_json_trees v :
  findJsonValueError h v <> None /\
  (isJsonValue h v = true <-> exists t, denotes h v t /\ forall t', denotes h v t' -> t' = t).
Proof.
  split; [apply terminates, fuelled_start|]. unfold isJsonValue, findJsonValueError. split.
  - destruct (find_error _ _ _ _ _) as [[e|]|] eqn:E; try done. intros _. apply accepted_denotes in E as [t Ht].
    exists t. split; [done|]. intros t' Ht'. symmetry. by apply (denotes_det v).
  - intros (t & Ht & _). rewrite (denotes_accepted v t Ht); [done|apply fuelled_start|]. intros a Ha. by apply elem_of_empty in Ha.
Qed.
End Strict.

(** A shared object is accepted, an object inside itself is not, and the paths of the issues
    are those of the source. *)
Example shared_is_fine_cyclic_is_not :
  let h : heap := {[0 := MkObject (OPlain [("a", PRef 1); ("b", PRef 1)]) false; 1 := MkObject (OArray [Some (PNum 1)] []) false;
                    2 := MkObject (OPlain [("xs", PRef 3)]) false; 3 := MkObject (OArray [Some PNull; Some (PRef 2)] []) false;
                    4 := MkObject (OArray [Some PNull; None] []) false]} in
  isJsonValue h (PRef 0) = true /\ findJsonValueError h (PRef 2) = Some (Some (Cyclic "$.xs[1]")) /\
  findJsonValueError h (PRef 4) = Some (Some (Sparse "$[1]")).
Proof. vm_compute. auto. Qed.
