(* ===== verification/ToolDispatch.v ===== *)
(** The execution of the tool calls of an assistant message (turn/tool-dispatcher.ts,
    turn/extract-tool-calls.ts), in a session that has a journal: each call writes its intent,
    runs its tool, writes its settlement with its result, and then only is part of the
    conversation.

    Modelling choices: an asynchronous method is cut at its [await]s, and what it waited for is
    an event; the calls of a batch interleave, since each event names its call; a continuation
    runs as its promise settles.  The registry of the turn is frozen; what the checks before a
    call find, the hooks, the listeners and the tools answer is in the events.  Values that
    are not JSON are an error text in the event that brings them.  The reads of code mode,
    which have operations of another type, are left out. *)

From S2P Require Import Prelude Json Frames Reducer.

(** * The writer of the journal

    (journal-commit.ts): commits are taken one at a time in the order of the calls, and none is
    written once the fate of one is unknown.  [queue.tail] with the commits chained to it is the
    list of the commits that are not settled, the head being written; what the journal answers
    is an event. *)

(** How a write ends: [Rejected] is a [SessionCommitError] whose certainty is not ['unknown']
    with nothing appended; after any other error some beginning of the entries may be in the
    journal. *)
Inductive write_outcome : Type := Written | Rejected | Unknown (appended : nat).

Section Writer.
Context {Owner E : Type}.

(** [owner] is who awaits the promise. *)
Record commit : Type := MkCommit { c_owner : Owner; c_appends : list E }.

Record writer : Type := MkWriter { w_queue : list commit; w_fault : bool }.

Definition new_writer : writer := MkWriter [] false.

Definition commitJournal (w : writer) (owner : Owner) (appends : list E) : writer := MkWriter (w_queue w ++ [MkCommit owner appends]) (w_fault w).

(** The entries a write leaves in the journal, the new fault and whether the promise is
    fulfilled; [batched] when the journal has [appendBatch]. *)
Definition write_entries (batched fault : bool) (appends : list E) (o : write_outcome) : list E * bool * bool :=
  if fault then ([], true, false)
  else
    match o with
    | Written => (appends, false, true)
    | Rejected => ([], false, false)
    | Unknown k => (if batched then match k with O => [] | _ => appends end else take k appends, true, false)
    end.

(** The head commit settles. *)
Definition write_head (batched : bool) (w : writer) (o : write_outcome) : option (writer * commit * list E * bool) :=
  match w_queue w with
  | [] => None
  | c :: rest => let '(written, fault, fulfilled) := write_entries batched (w_fault w) (c_appends c) o in Some (MkWriter rest fault, c, written, fulfilled)
  end.

Lemma write_entries_prefix batched fault appends o : exists k, (write_entries batched fault appends o).1.1 = take k appends.
Proof.
  unfold write_entries. destruct fault; [by exists 0%nat|]. destruct o as [| |k]; simpl; [exists (length appends); by rewrite take_ge|by exists 0%nat|].
  destruct batched; [|by exists k]. destruct k; [by exists 0%nat|]. exists (length appends). by rewrite take_ge.
Qed.

Lemma write_entries_batched fault appends o : let '(written, _, fulfilled) := write_entries true fault appends o in
  (written = [] /\ fulfilled = false) \/ written = appends.
Proof. unfold write_entries. destruct fault; [by left|]. destruct o as [| |[|k]]; auto. Qed.

Lemma write_entries_fulfilled batched fault appends o : let '(written, fault', fulfilled) := write_entries batched fault appends o in
  (fulfilled = true -> written = appends /\ fault' = false) /\ (fault = true -> written = [] /\ fault' = true /\ fulfilled = false).
Proof. unfold write_entries. destruct fault; [done|]. by destruct o. Qed.

End Writer.
Arguments commit : clear implicits.
Arguments writer : clear implicits.

Open Scope Z_scope.

(** * Calls *)

Record tool_call : Type := MkToolCall { tc_id : string; tc_name : string; tc_arguments : json }.

(** A block of an assistant message. *)
Inductive content_block : Type := BOther | BToolCall (call : tool_call).

Definition extractToolCalls (content : list content_block) : list tool_call :=
  omap (fun b => match b with BToolCall c => Some c | BOther => None end) content.

(** [dispatch] throws when an identity is empty or used twice. *)
Fixpoint distinct_ids (seen : list string) (calls : list tool_call) : bool :=
  match calls with
  | [] => true
  | c :: calls => negb (bool_decide (tc_id c = "")) && negb (bool_decide (tc_id c ∈ seen)) && distinct_ids (tc_id c :: seen) calls
  end.

(** [sourceIndexByCallId]: a later block of the same call wins. *)
Fixpoint sourceIndex_from (i : Z) (content : list content_block) (id : string) : option Z :=
  match content with
  | [] => None
  | b :: content =>
      match sourceIndex_from (i + 1) content id with
      | Some j => Some j
      | None => match b with BToolCall c => if bool_decide (tc_id c = id) then Some i else None | BOther => None end
      end
  end.

Definition sourceIndexByCallId : list content_block -> string -> option Z := sourceIndex_from 0.

Record PreparedCall : Type := MkPrepared {
  p_call : tool_call; p_argumentsError : option string; p_blockReason : option string; p_error : option string; p_terminate : bool }.

(** How [beforeToolCall] ends. *)
Inductive before_outcome : Type := BNone | BBlock (reason : string) (terminate : bool) | BThrew (message : string).

Section Prepare.
Variable tools : registry.

(** [modelAllowed] is the answer of [modelToolAllowed], [argumentsError] that of
    [assertJsonObject], [validationError] the text of a failed validation. *)
Definition prepareCall (call : tool_call) (modelAllowed : bool) (argumentsError : option string) (aborted : bool)
    (validationError : string) (before : before_outcome) : PreparedCall :=
  let blocked reason := MkPrepared call None (Some reason) None false in
  if negb modelAllowed then blocked ("Tool '" +:+ tc_name call +:+ "' is not available in the current model context.")
  else
    match argumentsError with
    | Some e => MkPrepared call (Some e) None None false
    | None =>
        if aborted then blocked "Tool execution aborted by signal"
        else
          match registered_replay tools (tc_name call) with
          | None => blocked ("Tool '" +:+ tc_name call +:+ "' not found in registry")
          | Some _ =>
              if negb (validateParameters tools (tc_name call) (tc_arguments call)) then blocked ("Parameter Validation Error: " +:+ validationError)
              else
                match before with
                | BNone => MkPrepared call None None None false
                | BBlock reason terminate => MkPrepared call None (Some (if bool_decide (reason = "") then "Tool execution blocked by gate" else reason)) None terminate
                | BThrew message => MkPrepared call None None (Some message) true
                end
          end
    end.

End Prepare.

(** A tool result; the call adds its identity. *)
Record tool_res : Type := MkRes {
  rs_id : option string; rs_content : json; rs_details : option json; rs_isError : option bool; rs_terminate : bool;
  rs_durationMs : option Z; rs_timestamp : Z }.

Definition text_content (t : string) : json := JArr [JObj [("type"%string, JStr "text"); ("text"%string, JStr t)]].

Definition error_result (t : string) (now : Z) : tool_res := MkRes None (text_content t) None (Some true) false None now.

(** * The state of a batch *)

(** [KRun] is a call of the message, [KReplay] and [KSynthesize] calls of a recovery with the
    identity and the operation of their plan, [KTruncated] a call of a message that hit the
    output limit, with the result that says so; a call of such a message whose arguments are
    not JSON is rejected as in any other, and is a [KRun]. *)
Inductive kind : Type :=
| KRun
| KReplay (invocationId operationId : string)
| KSynthesize (invocationId operationId : string) (r : tool_res)
| KTruncated (r : tool_res).

Inductive phase : Type :=
| Waiting
| IntentWrite
| StartEvent
| Running
| AfterHook (r : tool_res) (executedDuration : option Z)
| Draining (r : tool_res)
| SettleWrite (r : tool_res) (announced : bool)
| EndEvent (r : tool_res)
| Finished (r : tool_res)
| Failed.

(** [c_reserved] is what [reserveInvocationId] returns for the call.  The head of
    [c_updates] is being written until [c_emitting]. *)
Record call_state : Type := MkCall {
  c_prep : PreparedCall; c_kind : kind; c_reserved : string; c_sourceIndex : option Z; c_phase : phase;
  c_updates : list (option json); c_emitting : bool; c_updateError : bool }.

Inductive purpose : Type := PIntent | PSettle | PUpdate.

(** What is appended to the journal: type, identifier and payload. *)
Record append : Type := MkAppend { a_type : entry_type; a_id : option string; a_payload : json }.

(** What happened, in order: entries written, tools run, results taken into the conversation. *)
Inductive log_entry : Type :=
| LEntry (e : entry)
| LExecute (invocationId : string)
| LAdopt (callId : string) (r : tool_res).

Inductive mode : Type := Parallel | Sequential | Truncated.

Record state : Type := MkBatch {
  s_calls : list call_state; s_writer : writer (nat * purpose) append; s_log : list log_entry;
  s_aborted : bool; s_pending : list string; s_termination : bool }.

Section Dispatch.
Variable tools : registry.
Variable batched : bool. (* the journal has [appendBatch] *)
Variable session : string.
Variable batch_mode : mode.
Variable entry_id : nat -> string. (* the identifiers the journal generates *)

(** ** Identities and payloads *)

Definition prepared_id (c : call_state) : string := tc_id (p_call (c_prep c)).

(** A call with invalid arguments is rejected under a new identity. *)
Definition invocation (c : call_state) : string :=
  match c_kind c, p_argumentsError (c_prep c) with
  | KReplay i _, None => i
  | KSynthesize i _ _, _ => i
  | _, _ => c_reserved c
  end.

Definition operation_id (c : call_state) : string :=
  match c_kind c, p_argumentsError (c_prep c) with
  | KReplay _ o, None => o
  | KSynthesize _ o _, _ => o
  | _, _ => "op_tool_" +:+ c_reserved c
  end.

(** The policy recorded with the intent. *)
Definition replay_policy (aborted : bool) (c : call_state) : json :=
  match c_kind c, p_argumentsError (c_prep c) with
  | KTruncated _, _ | _, Some _ => JStr "never"
  | _, None =>
      if bool_decide (is_Some (truthy (p_blockReason (c_prep c)))) || bool_decide (is_Some (truthy (p_error (c_prep c)))) || aborted then JStr "never"
      else match registered_replay tools (tc_name (p_call (c_prep c))) with Some (Some r) => r | _ => JStr "never" end
  end.

Definition index_field (c : call_state) : fields := opt_field "sourceIndex" (JNum <$> c_sourceIndex c).

Definition intent_fields (c : call_state) : fields :=
  let call := p_call (c_prep c) in
  let named := [("name"%string, JStr (tc_name call)); ("toolCallId"%string, JStr (tc_id call))] in
  match c_kind c, p_argumentsError (c_prep c) with
  | KTruncated _, _ => named ++ index_field c ++ [("arguments"%string, tc_arguments call); ("intercepted"%string, JStr "output_length")]
  | _, Some _ => named ++ index_field c ++ [("invalidArguments"%string, JBool true)]
  | _, None => named ++ [("arguments"%string, tc_arguments call)] ++ index_field c ++ opt_field "contract" (getReplayContract tools (tc_name call))
  end.

Definition intent_append (aborted : bool) (c : call_state) : append :=
  MkAppend OperationIntent None
    (JObj [("id"%string, JStr (operation_id c)); ("type"%string, JStr "tool_call"); ("invocationId"%string, JStr (invocation c));
           ("replay"%string, replay_policy aborted c); ("intent"%string, JObj (intent_fields c))]).

(** [settleTool]: the settlement and the result, in one commit. *)
Definition settle_appends (c : call_state) (r : tool_res) (error : option string) : list append :=
  [MkAppend OperationSettlement None
     (JObj ([("id"%string, JStr (operation_id c)); ("type"%string, JStr "tool_call"); ("invocationId"%string, JStr (invocation c))] ++
            opt_field "error" (JStr <$> error) ++
            [("settlement"%string, JObj (("content"%string, rs_content r) :: opt_field "details" (rs_details r)))]));
   MkAppend ToolExecution (Some (invocation c))
     (JObj ([("role"%string, JStr "toolResult"); ("toolCallId"%string, JStr (prepared_id c)); ("toolName"%string, JStr (tc_name (p_call (c_prep c))))] ++
            opt_field "isError" (JBool <$> rs_isError r) ++
            [("content"%string, rs_content r); ("timestamp"%string, JNum (rs_timestamp r))] ++
            (if rs_terminate r then [("terminate"%string, JBool true)] else []) ++
            opt_field "durationMs" (JNum <$> rs_durationMs r) ++ opt_field "details" (rs_details r) ++
            [("invocationId"%string, JStr (invocation c))] ++ index_field c))].

Definition progress_append (c : call_state) (snapshot : json) (now : Z) : append :=
  MkAppend ToolProgress None
    (JObj [("invocationId"%string, JStr (invocation c)); ("toolCallId"%string, JStr (prepared_id c));
           ("toolName"%string, JStr (tc_name (p_call (c_prep c)))); ("snapshot"%string, snapshot); ("timestamp"%string, JNum now)]).

(** The text of a result that is an error. *)
Definition error_text (r : tool_res) : option string :=
  match rs_isError r with
  | Some true =>
      Some (match rs_content r with
            | JArr (b :: _) => match field (Some b) "text" with Some (JStr t) => if bool_decide (t = "") then "Tool execution error" else t | _ => "Tool execution error" end
            | _ => "Tool execution error"
            end)
  | _ => None
  end.

(** ** Small updates *)

Definition with_phase (c : call_state) (p : phase) : call_state :=
  MkCall (c_prep c) (c_kind c) (c_reserved c) (c_sourceIndex c) p (c_updates c) (c_emitting c) (c_updateError c).

Definition with_updates (c : call_state) (us : list (option json)) (emitting error : bool) : call_state :=
  MkCall (c_prep c) (c_kind c) (c_reserved c) (c_sourceIndex c) (c_phase c) us emitting error.

Definition put (s : state) (i : nat) (c : call_state) : state :=
  MkBatch (<[i := c]> (s_calls s)) (s_writer s) (s_log s) (s_aborted s) (s_pending s) (s_termination s).

Definition request (s : state) (i : nat) (p : purpose) (appends : list append) : state :=
  MkBatch (s_calls s) (commitJournal (s_writer s) (i, p) appends) (s_log s) (s_aborted s) (s_pending s) (s_termination s).

Definition logged (s : state) (l : list log_entry) : state :=
  MkBatch (s_calls s) (s_writer s) (s_log s ++ l) (s_aborted s) (s_pending s) (s_termination s).

Definition pending_add (s : state) (id : string) : state :=
  MkBatch (s_calls s) (s_writer s) (s_log s) (s_aborted s) (if bool_decide (id ∈ s_pending s) then s_pending s else s_pending s ++ [id]) (s_termination s).

Definition pending_delete (s : state) (id : string) : state :=
  MkBatch (s_calls s) (s_writer s) (s_log s) (s_aborted s) (List.filter (fun x => negb (bool_decide (x = id))) (s_pending s)) (s_termination s).

Definition terminate_if (s : state) (b : bool) : state :=
  MkBatch (s_calls s) (s_writer s) (s_log s) (s_aborted s) (s_pending s) (s_termination s || b).

(** ** One call *)

(** The settlement of a call whose end is announced to the listeners or not. *)
Definition settle (s : state) (i : nat) (c : call_state) (r : tool_res) (announced : bool) (error : option string) : state :=
  request (put s i (with_phase c (SettleWrite r announced))) i PSettle (settle_appends c r error).

(** [executeOne] after the intent is in the journal, and the intercepted call. *)
Definition after_intent (s : state) (i : nat) (c : call_state) (now : Z) : state :=
  match c_kind c with
  | KTruncated r => settle s i c r false (Some "Intercepted: assistant response hit output limit before tool arguments completed.")
  | _ =>
      if negb (bool_decide (is_Some (p_argumentsError (c_prep c)))) && s_aborted s
      then settle s i c (error_result "Tool execution aborted by signal" now) false (Some "Tool execution aborted by signal")
      else put (pending_add s (prepared_id c)) i (with_phase c StartEvent)
  end.

(** The call starts, once, up to its first [await]. *)
Definition start_call (s : state) (i : nat) (now : Z) : state :=
  match s_calls s !! i with
  | None => s
  | Some c =>
      match c_phase c, c_kind c, p_argumentsError (c_prep c) with
      | Waiting, KSynthesize _ _ r, _ => settle s i c r false (Some "Interrupted tool effect is unknown")
      | Waiting, KReplay _ _, None => after_intent s i c now
      | Waiting, _, _ => request (put s i (with_phase c IntentWrite)) i PIntent [intent_append (s_aborted s) c]
      | _, _, _ => s
      end
  end.

(** A call has ended: the next one of a sequential batch starts. *)
Definition finished (s : state) (i : nat) (c : call_state) (r : tool_res) (now : Z) : state :=
  let s := put s i (with_phase c (Finished r)) in
  match batch_mode with
  | Parallel => s
  | Sequential => start_call s (S i) now
  | Truncated => start_call (logged s [LAdopt (prepared_id c) r]) (S i) now
  end.

(** The end of the [finally] block. *)
Definition drained (s : state) (i : nat) (c : call_state) (r : tool_res) : state :=
  let s := pending_delete s (prepared_id c) in
  if c_updateError c then put s i (with_phase c Failed) else settle s i c r true (error_text r).

(** The result of the body; updates that are under way are awaited. *)
Definition body_ended (s : state) (i : nat) (c : call_state) (r : tool_res) : state :=
  match c_updates c with
  | [] => drained s i c r
  | _ => put s i (with_phase c (Draining r))
  end.

(** The [catch] block. *)
Definition body_threw (s : state) (i : nat) (c : call_state) (message : string) (executedDuration : option Z) (now : Z) : state :=
  body_ended (terminate_if s true) i c
    (MkRes None (text_content ("Tool lifecycle error: " +:+ message)) None (Some true) true executedDuration now).

(** The reasons found again when the call starts. *)
Definition block_reason (c : call_state) (modelAllowed sameTool : bool) : option string :=
  match truthy (p_blockReason (c_prep c)) with
  | Some b => Some b
  | None =>
      if negb modelAllowed then Some ("Tool '" +:+ tc_name (p_call (c_prep c)) +:+ "' is not available in the current model context.")
      else if negb sameTool then Some "Tool registration changed during preflight"
      else None
  end.

(** After [tool_execution_start] was announced. *)
Definition started (s : state) (i : nat) (c : call_state) (modelAllowed sameTool : bool) (now : Z) : state :=
  match p_argumentsError (c_prep c) with
  | Some e =>
      let text := "Tool arguments rejected before execution: " +:+ e in
      settle s i c (error_result text now) true (Some text)
  | None =>
      let s := terminate_if s (p_terminate (c_prep c)) in
      match truthy (p_error (c_prep c)) with
      | Some message => body_threw s i c message None now
      | None =>
          match block_reason c modelAllowed sameTool with
          | Some reason => put s i (with_phase c (AfterHook (error_result reason now) None))
          | None => put (logged s [LExecute (invocation c)]) i (with_phase c Running)
          end
      end
  end.

(** How the tool ends. *)
Inductive tool_outcome : Type := TReturned (r : tool_res) | TThrew (message : string).

Definition tool_ended (s : state) (i : nat) (c : call_state) (o : tool_outcome) (now : Z) : state :=
  match o with
  | TReturned r => put s i (with_phase c (AfterHook r (rs_durationMs r)))
  | TThrew message => body_threw s i c message None now
  end.

(** How [afterToolCall] ends; [HNone] also when there is none. *)
Inductive after_outcome : Type :=
| HNone
| HOverride (content details : option json) (isError : option bool) (terminate : bool)
| HThrew (message : string).

Definition overridden (r : tool_res) (content details : option json) (isError : option bool) : tool_res :=
  MkRes (rs_id r) (if is_true content then default (rs_content r) content else rs_content r) (match details with Some d => Some d | None => rs_details r end)
    (match isError with Some b => Some b | None => rs_isError r end) (rs_terminate r) (rs_durationMs r) (rs_timestamp r).

(** [invalid] is the error of a result that is not JSON. *)
Definition hook_ended (s : state) (i : nat) (c : call_state) (r : tool_res) (executedDuration : option Z) (o : after_outcome) (invalid : option string) (now : Z) : state :=
  match o with
  | HThrew message => body_threw s i c message executedDuration now
  | _ =>
      let '(s, r) := match o with
                     | HOverride content details isError terminate => (terminate_if s terminate, overridden r content details isError)
                     | _ => (s, r)
                     end in
      match invalid with
      | Some message => body_threw s i c message executedDuration now
      | None => body_ended s i c r
      end
  end.

(** The head of the updates is written or announced. *)
Definition next_update (s : state) (i : nat) (c : call_state) (error : bool) (now : Z) : state :=
  match tail (c_updates c) with
  | [] =>
      let c := with_updates c [] false (c_updateError c || error) in
      match c_phase c with
      | Draining r => drained (put s i c) i c r
      | _ => put s i c
      end
  | Some snapshot :: us => request (put s i (with_updates c (Some snapshot :: us) false (c_updateError c || error))) i PUpdate [progress_append c snapshot now]
  | None :: us => put s i (with_updates c (None :: us) true (c_updateError c || error))
  end.

(** [fencedUpdate]; [checkpoint] is the snapshot to be kept. *)
Definition accepts_updates (p : phase) : bool := match p with Running | AfterHook _ _ => true | _ => false end.

Definition updated (s : state) (i : nat) (c : call_state) (checkpoint : option json) (now : Z) : state :=
  if negb (accepts_updates (c_phase c)) then s
  else
    match c_updates c with
    | [] =>
        match checkpoint with
        | Some snapshot => request (put s i (with_updates c [Some snapshot] false (c_updateError c))) i PUpdate [progress_append c snapshot now]
        | None => put s i (with_updates c [None] true (c_updateError c))
        end
    | us => put s i (with_updates c (us ++ [checkpoint]) (c_emitting c) (c_updateError c))
    end.

(** The promise of a commit settles. *)
Definition resumed (s : state) (i : nat) (p : purpose) (fulfilled : bool) (now : Z) : state :=
  match s_calls s !! i with
  | None => s
  | Some c =>
      match p, fulfilled with
      | PIntent, true => after_intent s i c now
      | PIntent, false => put s i (with_phase c Failed)
      | PUpdate, true => put s i (with_updates c (c_updates c) true (c_updateError c))
      | PUpdate, false => next_update s i c true now
      | PSettle, true =>
          match c_phase c with
          | SettleWrite r announced =>
              let r := MkRes (Some (invocation c)) (rs_content r) (rs_details r) (rs_isError r) (rs_terminate r) (rs_durationMs r) (rs_timestamp r) in
              if announced then put (terminate_if s (rs_terminate r)) i (with_phase c (EndEvent r)) else finished s i c r now
          | _ => s
          end
      | PSettle, false =>
          put (match p_argumentsError (c_prep c) with Some _ => pending_delete s (prepared_id c) | None => s end) i (with_phase c Failed)
      end
  end.

(** ** The batch *)

Inductive event : Type :=
| EWrite (o : write_outcome) (now : Z)
| EStarted (i : nat) (thrown modelAllowed sameTool : bool) (now : Z)
| EUpdate (i : nat) (checkpoint : option json) (now : Z)
| EUpdateAnnounced (i : nat) (thrown : bool) (now : Z)
| ETool (i : nat) (o : tool_outcome) (now : Z)
| EAfter (i : nat) (o : after_outcome) (invalid : option string) (now : Z)
| EEnded (i : nat) (thrown : bool) (now : Z)
| EAbort
| EAdopt (thrown : option nat).

Definition entry_of (now : Z) (n : nat) (a : append) : entry :=
  MkEntry (default (entry_id n) (a_id a)) session None (a_type a) now (Some (a_payload a)).

Definition is_finished (c : call_state) : option tool_res := match c_phase c with Finished r => Some r | _ => None end.

(** The results in the order of the calls, when all have one. *)
Definition results (s : state) : option (list (string * tool_res)) :=
  mapM (fun c => pair (prepared_id c) <$> is_finished c) (s_calls s).

Definition adopted (l : list log_entry) : bool := existsb (fun x => match x with LAdopt _ _ => true | _ => false end) l.

Definition step (s : state) (e : event) : state :=
  match e with
  | EWrite o now =>
      match write_head batched (s_writer s) o with
      | None => s
      | Some (w, c, written, fulfilled) =>
          let s := MkBatch (s_calls s) w (s_log s ++ map LEntry (imap (fun k a => entry_of now (length (s_log s) + k) a) written)) (s_aborted s) (s_pending s) (s_termination s) in
          resumed s (fst (c_owner c)) (snd (c_owner c)) fulfilled now
      end
  | EStarted i thrown modelAllowed sameTool now =>
      match s_calls s !! i with
      | Some c =>
          match c_phase c with
          | StartEvent =>
              if thrown
              then put (match p_argumentsError (c_prep c) with Some _ => pending_delete s (prepared_id c) | None => s end) i (with_phase c Failed)
              else started s i c modelAllowed sameTool now
          | _ => s
          end
      | None => s
      end
  | EUpdate i checkpoint now => match s_calls s !! i with Some c => updated s i c checkpoint now | None => s end
  | EUpdateAnnounced i thrown now =>
      match s_calls s !! i with
      | Some c => if c_emitting c then next_update s i c thrown now else s
      | None => s
      end
  | ETool i o now =>
      match s_calls s !! i with
      | Some c => match c_phase c with Running => tool_ended s i c o now | _ => s end
      | None => s
      end
  | EAfter i o invalid now =>
      match s_calls s !! i with
      | Some c => match c_phase c with AfterHook r d => hook_ended s i c r d o invalid now | _ => s end
      | None => s
      end
  | EEnded i thrown now =>
      match s_calls s !! i with
      | Some c =>
          match c_phase c with
          | EndEvent r =>
              let s := match p_argumentsError (c_prep c) with Some _ => pending_delete s (prepared_id c) | None => s end in
              if thrown then put s i (with_phase c Failed) else finished s i c r now
          | _ => s
          end
      | None => s
      end
  | EAbort => MkBatch (s_calls s) (s_writer s) (s_log s) true (s_pending s) (s_termination s)
  | EAdopt thrown =>
      match batch_mode, results s with
      | Truncated, _ | _, None => s
      | _, Some rs => if adopted (s_log s) then s else logged s (map (fun '(id, r) => LAdopt id r) (match thrown with Some n => take (S n) rs | None => rs end))
      end
  end.

Definition fresh_call (p : PreparedCall) (k : kind) (reserved : string) (sourceIndex : option Z) : call_state :=
  MkCall p k reserved sourceIndex Waiting [] false false.

(** The batch starts: all calls in a parallel one, the first otherwise. *)
Definition start_batch (fault aborted : bool) (calls : list call_state) (now : Z) : state :=
  let s := MkBatch calls (MkWriter [] fault) [] aborted [] false in
  match batch_mode with
  | Parallel => foldl (fun s i => start_call s i now) s (seq 0 (length calls))
  | _ => start_call s 0 now
  end.

Definition run_batch (fault aborted : bool) (calls : list call_state) (now : Z) (events : list event) : state :=
  foldl step (start_batch fault aborted calls now) events.

End Dispatch.

(** * The calls of a recovery *)

Section Recover.
Variable JSON_stringify : json -> string.
Variable tools : registry. (* of the turn; [currentTools] is the same *)

(** The conditions of the plan are checked again. *)
Definition refused (p : plan) : bool :=
  pl_replays p &&
  (negb (pl_replay_safe p) || negb (is_str (registered_replay tools (pl_toolName p) ≫= id) "safe") ||
   negb (toolReplayContractsMatch JSON_stringify (pl_contract p) (getReplayContract tools (pl_toolName p))) ||
   negb (validateParameters tools (pl_toolName p) (default (JObj []) (coalesce (pl_arguments p) (Some (JObj [])))))).

Definition current_plan (p : plan) : plan :=
  if refused p
  then MkPlan (pl_invocationId p) (pl_operationId p) (pl_toolCallId p) (pl_sourceIndex p) (pl_toolName p) (pl_arguments p) (pl_replay_safe p)
         (Some "current-contract-refused") (pl_contract p)
  else p.

Definition recovery_result (r : tool_result) : tool_res :=
  MkRes (Some (tr_id r)) (tr_content r) (tr_details r) (Some (tr_isError r)) false (tr_durationMs r) (tr_timestamp r).

(** [prepare] is [prepareCall] with its answers for the call; [reserved] is read when the call
    has invalid arguments. *)
Definition recovery_call (prepare : tool_call -> PreparedCall) (original : plan) (reserved : string) (now : Z) : call_state :=
  let p := current_plan original in
  let call := MkToolCall (default (strip_prefix "op_tool_" (pl_operationId p)) (pl_toolCallId p)) (pl_toolName p) (default (JObj []) (coalesce (pl_arguments p) (Some (JObj [])))) in
  if pl_replays p then fresh_call (prepare call) (KReplay (pl_invocationId p) (pl_operationId p)) reserved (pl_sourceIndex p)
  else fresh_call (MkPrepared call None None None false) (KSynthesize (pl_invocationId p) (pl_operationId p) (recovery_result (synthesizeInterruptedToolResult p now)))
         reserved (pl_sourceIndex p).

End Recover.
