(* ===== verification/ToolDispatchProofs.v ===== *)
(** What the execution of tool calls promises, whatever the interleaving of the calls of a
    batch and wherever it stops: what the journal says of a call is an intent, the run, its
    progress and a settlement with the result, in this order, and a result is part of the
    conversation only after that. *)

From S2P Require Import Prelude Json Frames Reducer ToolDispatch.

Open Scope Z_scope.

(** * What a log says about one invocation *)

Inductive sym : Type :=
| SIntent (policy : option json)
| SRun
| SProgress
| SSettled
| SResult (content : option json).

Definition names (inv : string) (payload : option json) : bool := is_str (field payload "invocationId") inv.

Definition append_symbol (inv : string) (t : entry_type) (payload : option json) : option sym :=
  if names inv payload then
    match t with
    | OperationIntent => Some (SIntent (field payload "replay"))
    | ToolProgress => Some SProgress
    | OperationSettlement => Some SSettled
    | ToolExecution => Some (SResult (field payload "content"))
    | _ => None
    end
  else None.

Definition symbol_of (inv : string) (x : log_entry) : option sym :=
  match x with
  | LEntry e => append_symbol inv (e_type e) (e_payload e)
  | LExecute i => if bool_decide (i = inv) then Some SRun else None
  | LAdopt _ _ => None
  end.

Definition view (inv : string) (log : list log_entry) : list sym := omap (symbol_of inv) log.

Lemma view_app inv l1 l2 : view inv (l1 ++ l2) = view inv l1 ++ view inv l2.
Proof. apply omap_app. Qed.

Section Proofs.
Variable tools : registry.
Variable batched : bool.
Variable session : string.
Variable batch_mode : mode.
Variable entry_id : nat -> string.

Abbreviation step := (step tools batched session batch_mode entry_id).
Abbreviation start_call := (start_call tools).
Abbreviation finished := (finished tools batch_mode).

(** The calls of a recovery have their intent in the journal already. *)
Definition needs_intent (c : call_state) : bool :=
  match c_kind c, p_argumentsError (c_prep c) with KReplay _ _, None => false | KSynthesize _ _ _, _ => false | _, _ => true end.

(** The policy the tool is registered with. *)
Definition declared (c : call_state) : json :=
  match registered_replay tools (tc_name (p_call (c_prep c))) with Some (Some r) => r | _ => JStr "never" end.

(** The beginning of a trace: an intent, a run, progress. *)
Definition intent_part (c : call_state) (policy : json) : list sym := if needs_intent c then [SIntent (Some policy)] else [].

Definition body (c : call_state) (ran : bool) (l : list sym) : Prop :=
  exists policy n, l = intent_part c policy ++ (if ran then [SRun] else []) ++ replicate n SProgress /\ (ran = true -> needs_intent c = true -> policy = declared c).

Definition trace_ok (c : call_state) (l : list sym) : Prop :=
  match c_phase c with
  | Waiting | IntentWrite => l = []
  | StartEvent => exists policy, l = intent_part c policy /\ (needs_intent c = true -> truthy (p_blockReason (c_prep c)) = None -> truthy (p_error (c_prep c)) = None -> p_argumentsError (c_prep c) = None -> policy = declared c)
  | Running => body c true l
  | AfterHook _ _ | Draining _ | SettleWrite _ _ => exists ran, body c ran l
  | EndEvent r | Finished r => exists ran b, body c ran b /\ l = b ++ [SSettled; SResult (Some (rs_content r))]
  | Failed => exists ran b, (b = [] \/ body c ran b) /\ (l = b \/ (batched = false /\ l = b ++ [SSettled]) \/ exists content, l = b ++ [SSettled; SResult content])
  end.

(** The commits a call awaits. *)
Definition own (i : nat) (q : list (commit (nat * purpose) append)) : list (commit (nat * purpose) append) :=
  List.filter (fun c => bool_decide (fst (c_owner c) = i)) q.

Definition requests_ok (aborted : bool) (i : nat) (c : call_state) (q : list (commit (nat * purpose) append)) : Prop :=
  match c_phase c with
  | IntentWrite => c_updates c = [] /\ c_emitting c = false /\ needs_intent c = true /\ exists ab, own i q = [MkCommit (i, PIntent) [intent_append tools ab c]] /\ (ab = true -> aborted = true)
  | SettleWrite r _ => c_updates c = [] /\ c_emitting c = false /\ exists error, own i q = [MkCommit (i, PSettle) (settle_appends c r error)]
  | Running | AfterHook _ _ | Draining _ =>
      match c_updates c with
      | [] => c_emitting c = false /\ own i q = []
      | u :: _ =>
          if c_emitting c then own i q = []
          else exists snapshot now, u = Some snapshot /\ own i q = [MkCommit (i, PUpdate) [progress_append c snapshot now]]
      end
  | _ => c_updates c = [] /\ c_emitting c = false /\ own i q = []
  end.

Definition call_ok (s : state) (i : nat) (c : call_state) : Prop :=
  trace_ok c (view (invocation c) (s_log s)) /\ requests_ok (s_aborted s) i c (w_queue (s_writer s)).

(** A result in the conversation has its settlement in the log before it. *)
Definition adoptions_ok (s : state) : Prop :=
  forall l1 id r l2, s_log s = l1 ++ LAdopt id r :: l2 ->
    exists i c ran b, s_calls s !! i = Some c /\ prepared_id c = id /\ body c ran b /\ view (invocation c) l1 = b ++ [SSettled; SResult (Some (rs_content r))].

Record sound (s : state) : Prop := MkSound {
  so_calls : forall i c, s_calls s !! i = Some c -> call_ok s i c;
  so_distinct : NoDup (map invocation (s_calls s));
  so_owners : forall c, c ∈ w_queue (s_writer s) -> (fst (c_owner c) < length (s_calls s))%nat;
  so_adoptions : adoptions_ok s;
}.

(** * Parts of the invariant *)

Definition static (c : call_state) := (c_prep c, c_kind c, c_reserved c, c_sourceIndex c).

Lemma static_facts c d : static c = static d -> invocation c = invocation d /\ needs_intent c = needs_intent d /\ declared c = declared d /\ prepared_id c = prepared_id d.
Proof. unfold static, invocation, needs_intent, declared, prepared_id. by intros [= -> -> -> _]. Qed.

Lemma body_static c d ran l : static c = static d -> body c ran l -> body d ran l.
Proof. intros (_ & Hn & Hd & _)%static_facts. unfold body, intent_part. by rewrite Hn, Hd. Qed.

(** All but the call [i]. *)
Record rest_ok (i : nat) (c : call_state) (s : state) : Prop := MkRest {
  ro_others : forall j d, j <> i -> s_calls s !! j = Some d -> call_ok s j d;
  ro_this : exists d, s_calls s !! i = Some d /\ static d = static c;
  ro_distinct : NoDup (map invocation (s_calls s));
  ro_owners : forall c, c ∈ w_queue (s_writer s) -> (fst (c_owner c) < length (s_calls s))%nat;
  ro_adoptions : adoptions_ok s;
}.

Lemma invocations_insert (l : list call_state) i c d : l !! i = Some d -> static d = static c -> map invocation (<[i := c]> l) = map invocation l.
Proof.
  revert i. induction l as [|x l IH]; intros [|i] Hi Hs; simpl in *; [done|done| |].
  - injection Hi as ->. by destruct (static_facts _ _ Hs) as (-> & _).
  - by rewrite IH.
Qed.

Lemma adoptions_insert s i c d s' : s_calls s !! i = Some d -> static d = static c -> s_calls s' = <[i := c]> (s_calls s) -> s_log s' = s_log s -> adoptions_ok s -> adoptions_ok s'.
Proof.
  intros Hi Hs Hc Hl Ha l1 id r l2 Hlog. rewrite Hl in Hlog. destruct (Ha _ _ _ _ Hlog) as (j & e & ran & b & Hj & Hid & Hb & Hv). rewrite Hc. destruct (decide (i = j)) as [<-|Hn].
  - exists i, c, ran, b. rewrite list_lookup_insert_eq by (by eapply lookup_lt_Some). assert (e = d) as -> by congruence. destruct (static_facts _ _ Hs) as (Hinv & _ & _ & Hp).
    split_and!; [done|congruence|by eapply body_static|congruence].
  - exists j, e, ran, b. by rewrite list_lookup_insert_ne.
Qed.

Lemma put_sound s i c : rest_ok i c s -> call_ok s i c -> sound (put s i c).
Proof.
  intros [H1 (d & Hd & Hs) H4 H5 H6] Hok. split; simpl.
  - intros j e. destruct (decide (i = j)) as [<-|Hn]; [rewrite list_lookup_insert_eq by (by eapply lookup_lt_Some); by intros [= <-]|].
    rewrite list_lookup_insert_ne by done. intros He. by apply H1.
  - by rewrite (invocations_insert _ _ _ _ Hd Hs).
  - by rewrite length_insert.
  - by eapply (adoptions_insert s).
Qed.

Lemma own_snoc i j p a q : own i (q ++ [MkCommit (j, p) a]) = own i q ++ (if decide (j = i) then [MkCommit (j, p) a] else []).
Proof. unfold own. rewrite List.filter_app. simpl. case_bool_decide; by destruct (decide (j = i)). Qed.

(** A request changes what its own call awaits. *)
Lemma request_sound s i c p a : rest_ok i c s -> trace_ok c (view (invocation c) (s_log s)) -> requests_ok (s_aborted s) i c (w_queue (s_writer s) ++ [MkCommit (i, p) a]) -> sound (request (put s i c) i p a).
Proof.
  intros [H1 (d & Hd & Hs) H4 H5 H6] Ht Hr. split; simpl.
  - intros j e. destruct (decide (i = j)) as [<-|Hn]; [rewrite list_lookup_insert_eq by (by eapply lookup_lt_Some); by intros [= <-]|].
    rewrite list_lookup_insert_ne by done. intros He. destruct (H1 j e ltac:(done) He) as [Ht' Hr']. split; [done|]. unfold requests_ok in *. simpl. rewrite own_snoc, decide_False, app_nil_r by done. done.
  - by rewrite (invocations_insert _ _ _ _ Hd Hs).
  - intros x [Hx|Hx%list_elem_of_singleton]%elem_of_app; rewrite length_insert; [by apply H5|subst x; simpl]. by eapply lookup_lt_Some.
  - by eapply (adoptions_insert s).
Qed.

Lemma settle_sound s i c r announced error : rest_ok i c s -> own i (w_queue (s_writer s)) = [] -> c_updates c = [] -> c_emitting c = false -> (exists ran, body c ran (view (invocation c) (s_log s))) -> sound (settle s i c r announced error).
Proof.
  intros Hrest Hown Hu He Hb. apply request_sound; [by destruct Hrest; split|done|]. unfold requests_ok. simpl. split; [done|]. split; [done|]. exists error.
  rewrite own_snoc, Hown, decide_True by done. done.
Qed.

(** * Functions of one call *)

Lemma sound_rest s i c : sound s -> s_calls s !! i = Some c -> rest_ok i c s.
Proof. intros [H1 H2 H3 H4] Hi. split; [intros j d _; apply H1|by exists c|done|done|done]. Qed.

(** The fields the invariant reads. *)
Definition same (s s' : state) : Prop := s_calls s' = s_calls s /\ s_writer s' = s_writer s /\ s_log s' = s_log s /\ s_aborted s' = s_aborted s.

Lemma rest_same i c s s' : same s s' -> rest_ok i c s -> rest_ok i c s'.
Proof.
  intros (Hc & Hw & Hl & Ha) [H1 H2 H3 H4 H5]. unfold adoptions_ok in *. split; unfold adoptions_ok; rewrite ?Hc, ?Hw, ?Hl; try done.
  intros j d Hj Hd. destruct (H1 j d Hj Hd) as [Ht Hr]. split; by rewrite ?Hl, ?Hw, ?Ha.
Qed.

Lemma rest_phase i c s p : rest_ok i c s -> rest_ok i (with_phase c p) s.
Proof. by intros []. Qed.

Lemma rest_updates i c s us e er : rest_ok i c s -> rest_ok i (with_updates c us e er) s.
Proof. by intros []. Qed.

Lemma rest_put i c s : rest_ok i c s -> rest_ok i c (put s i c).
Proof.
  intros [H1 (d & Hd & Hs) H3 H4 H5]. assert (Hl : (i < length (s_calls s))%nat) by (by eapply lookup_lt_Some). split; simpl.
  - intros j e Hj. rewrite list_lookup_insert_ne by done. apply H1. done.
  - exists c. by rewrite list_lookup_insert_eq.
  - by rewrite (invocations_insert _ _ _ _ Hd Hs).
  - by rewrite length_insert.
  - by eapply (adoptions_insert s).
Qed.

Lemma body_start c policy : (needs_intent c = true -> policy = declared c) -> body c false (intent_part c policy).
Proof. intros Hp. exists policy, 0%nat. split; [by rewrite app_nil_r|done]. Qed.

Lemma body_progress c ran l : body c ran l -> body c ran (l ++ [SProgress]).
Proof. intros (policy & n & -> & Hp). exists policy, (S n). split; [|done]. rewrite <- !app_assoc, replicate_S_end. done. Qed.

(** The intent of a call is in the journal, or needs not be; [ab] was the state of the signal
    when it was written. *)
Definition intent_written (s : state) (c : call_state) : Prop :=
  exists policy ab, view (invocation c) (s_log s) = intent_part c policy /\ (ab = true -> s_aborted s = true) /\ (needs_intent c = true -> policy = replay_policy tools ab c).

Lemma after_intent_sound s i c now : rest_ok i c s -> own i (w_queue (s_writer s)) = [] -> c_updates c = [] -> c_emitting c = false -> intent_written s c ->
  sound (after_intent s i c now).
Proof.
  intros Hrest Hown Hu He (policy & ab & Hv & Hab & Hpol).
  assert (Hset : forall r error, sound (settle s i c r false error)).
  { intros r error. apply settle_sound; try done. exists false. rewrite Hv. exists policy, 0%nat. split; [by rewrite app_nil_r|done]. }
  unfold after_intent.
  assert (Hgo : (forall r, c_kind c <> KTruncated r) ->
    sound (if negb (bool_decide (is_Some (p_argumentsError (c_prep c)))) && s_aborted s
           then settle s i c (error_result "Tool execution aborted by signal" now) false (Some "Tool execution aborted by signal")
           else put (pending_add s (prepared_id c)) i (with_phase c StartEvent))); [|destruct (c_kind c); by first [apply Hset|apply Hgo]].
  intros Hk. destruct (negb _ && s_aborted s) eqn:Eab; [done|]. apply put_sound; [apply rest_phase; by apply (rest_same _ _ s)|]. split; [|done]. exists policy. split; [done|].
  intros Hn Hb Hpe Hargs. rewrite (Hpol Hn). unfold replay_policy, declared. change (c_prep (with_phase c StartEvent)) with (c_prep c) in *. rewrite Hargs, Hb, Hpe in *. simpl in *.
  destruct ab; [rewrite Hab in Eab by done; done|]. destruct (c_kind c); try done. by destruct (Hk r).
Qed.

Lemma start_call_sound s i now : sound s -> sound (start_call s i now).
Proof.
  intros Hs. unfold start_call, ToolDispatch.start_call. destruct (s_calls s !! i) as [c|] eqn:Hi; [|done]. destruct (c_phase c) eqn:Hp; try done.
  pose proof (so_calls _ Hs _ _ Hi) as [Ht Hr]. unfold trace_ok in Ht. unfold requests_ok in Hr. rewrite Hp in Ht, Hr. destruct Hr as (Hu & He & Hown).
  pose proof (sound_rest _ _ _ Hs Hi) as Hrest.
  assert (Hreq : needs_intent c = true -> sound (request (put s i (with_phase c IntentWrite)) i PIntent [intent_append tools (s_aborted s) c])).
  { intros Hn. apply request_sound; [by apply rest_phase|done|]. unfold requests_ok. simpl. split_and!; try done. exists (s_aborted s). split; [|done].
    rewrite own_snoc, Hown, decide_True by done. done. }
  unfold needs_intent in Hreq. destruct (c_kind c) eqn:Hk; [by apply Hreq| | |by apply Hreq].
  - destruct (p_argumentsError (c_prep c)) eqn:Ha; [by apply Hreq|]. apply after_intent_sound; try done. exists JNull, (s_aborted s). rewrite Ht.
    unfold intent_part, needs_intent. rewrite Hk, Ha. done.
  - apply settle_sound; try done. exists false. rewrite Ht. exists JNull, 0%nat. unfold intent_part, needs_intent. rewrite Hk. done.
Qed.

Lemma logged_adopt s i c ran b r : sound s -> s_calls s !! i = Some c -> body c ran b -> view (invocation c) (s_log s) = b ++ [SSettled; SResult (Some (rs_content r))] ->
  sound (logged s [LAdopt (prepared_id c) r]).
Proof.
  intros [H1 H2 H3 H4] Hi Hb Hv. split; simpl; try done.
  - intros j d Hj. destruct (H1 j d Hj) as [Ht Hr]. split; [|done]. simpl. by rewrite view_app, app_nil_r.
  - intros l1 id r' l2 Hlog. simpl in Hlog. destruct l2 as [|x l2 _] using rev_ind.
    + apply app_inj_tail in Hlog as [<- [= <- <-]]. by exists i, c, ran, b.
    + rewrite app_comm_cons, app_assoc in Hlog. apply app_inj_tail in Hlog as [Hlog _]. by apply (H4 _ _ _ l2).
Qed.

Lemma finished_sound s i c r now : rest_ok i c s -> own i (w_queue (s_writer s)) = [] -> c_updates c = [] -> c_emitting c = false ->
  (exists ran b, body c ran b /\ view (invocation c) (s_log s) = b ++ [SSettled; SResult (Some (rs_content r))]) -> sound (finished s i c r now).
Proof.
  intros Hrest Hown Hu He (ran & b & Hb & Hv). assert (Hput : sound (put s i (with_phase c (Finished r)))).
  { apply put_sound; [by apply rest_phase|]. split; [|done]. by exists ran, b. }
  unfold finished, ToolDispatch.finished. destruct batch_mode; [done|by apply start_call_sound|]. apply start_call_sound.
  destruct (ro_this _ _ _ Hrest) as (d & Hd & _). apply (logged_adopt _ i (with_phase c (Finished r)) ran b); [done| |done|done].
  simpl. rewrite list_lookup_insert_eq; [done|by eapply lookup_lt_Some].
Qed.

(** The phases in which a call runs its body. *)
Definition in_body (p : phase) : Prop := match p with Running | AfterHook _ _ | Draining _ => True | _ => False end.

Lemma trace_body c l : in_body (c_phase c) -> trace_ok c l -> exists ran, body c ran l /\ (c_phase c = Running -> ran = true).
Proof. unfold trace_ok. destruct (c_phase c) eqn:E; try done; intros _ H; [by exists true|by destruct H as [ran H]; exists ran..]. Qed.

Lemma body_trace c l ran : in_body (c_phase c) -> body c ran l -> (c_phase c = Running -> ran = true) -> trace_ok c l.
Proof. unfold trace_ok. destruct (c_phase c) eqn:E; try done; intros _ H Hr; [by rewrite Hr in H|by exists ran..]. Qed.

Lemma drained_sound s i c r : rest_ok i c s -> own i (w_queue (s_writer s)) = [] -> c_updates c = [] -> c_emitting c = false ->
  (exists ran, body c ran (view (invocation c) (s_log s))) -> sound (drained s i c r).
Proof.
  intros Hrest Hown Hu He [ran Hb]. unfold drained. assert (Hrest' : rest_ok i c (pending_delete s (prepared_id c))) by (by apply (rest_same _ _ s)).
  destruct (c_updateError c).
  - apply put_sound; [by apply rest_phase|]. split; [|done]. exists ran, (view (invocation c) (s_log s)). split; [by right|by left].
  - apply settle_sound; try done. by exists ran.
Qed.

(** What the updates of a call await, in any phase of its body. *)
Definition updates_ok (i : nat) (c : call_state) (q : list (commit (nat * purpose) append)) : Prop :=
  match c_updates c with
  | [] => c_emitting c = false /\ own i q = []
  | u :: _ =>
      if c_emitting c then own i q = []
      else exists snapshot now, u = Some snapshot /\ own i q = [MkCommit (i, PUpdate) [progress_append c snapshot now]]
  end.

Lemma requests_body aborted i c q : in_body (c_phase c) -> requests_ok aborted i c q <-> updates_ok i c q.
Proof. unfold requests_ok, updates_ok. by destruct (c_phase c). Qed.

Lemma body_ended_sound s i c r : rest_ok i c s -> updates_ok i c (w_queue (s_writer s)) -> (exists ran, body c ran (view (invocation c) (s_log s))) -> sound (body_ended s i c r).
Proof.
  intros Hrest Hup Hb. unfold body_ended. destruct (c_updates c) as [|u us] eqn:Eu.
  - unfold updates_ok in Hup. rewrite Eu in Hup. destruct Hup. by apply drained_sound.
  - apply put_sound; [by apply rest_phase|]. split; [done|]. apply requests_body; [done|]. exact Hup.
Qed.

Lemma body_threw_sound s i c message d now : rest_ok i c s -> updates_ok i c (w_queue (s_writer s)) -> (exists ran, body c ran (view (invocation c) (s_log s))) ->
  sound (body_threw s i c message d now).
Proof. intros Hrest Hup Hb. apply body_ended_sound; [by apply (rest_same _ _ s)|done|done]. Qed.

Lemma hook_ended_sound s i c r d o invalid now : rest_ok i c s -> updates_ok i c (w_queue (s_writer s)) -> (exists ran, body c ran (view (invocation c) (s_log s))) ->
  sound (hook_ended s i c r d o invalid now).
Proof.
  intros Hrest Hup Hb. unfold hook_ended. destruct o as [|content details isError terminate|message]; [|..|by apply body_threw_sound].
  - destruct invalid; [by apply body_threw_sound|by apply body_ended_sound].
  - assert (Hrest' : rest_ok i c (terminate_if s terminate)) by (by apply (rest_same _ _ s)). destruct invalid; [by apply body_threw_sound|by apply body_ended_sound].
Qed.

(** An entry or a run of one call says nothing of the others. *)
Lemma rest_logged s i c l : rest_ok i c s -> (forall j d, j <> i -> s_calls s !! j = Some d -> view (invocation d) l = []) -> (forall id r, LAdopt id r ∉ l) -> rest_ok i c (logged s l).
Proof.
  intros [H1 H2 H3 H4 H5] Hl Hna. split; try done.
  - intros j d Hj Hd. destruct (H1 j d Hj Hd) as [Ht Hr]. split; [|done]. simpl. rewrite view_app, (Hl j d Hj Hd). by rewrite app_nil_r.
  - intros l1 id r l2 Hlog. simpl in Hlog. apply app_eq_app in Hlog as [k [[Hk1 Hk2]|[-> ->]]].
    + destruct k as [|x k]; [rewrite app_nil_r in Hk1; subst l1|injection Hk2 as <- Hk2; by apply (H5 _ _ _ k)].
      simpl in Hk2. destruct (Hna id r). rewrite <- Hk2. by left.
    + destruct (Hna id r). apply elem_of_app. right. by left.
Qed.

Lemma distinct_invocation s i c j d : rest_ok i c s -> j <> i -> s_calls s !! j = Some d -> invocation d <> invocation c.
Proof.
  intros Hrest Hj Hd Heq. destruct (ro_this _ _ _ Hrest) as (e & He & Hst). destruct (static_facts _ _ Hst) as (Hinv & _). apply Hj.
  apply (NoDup_lookup (map invocation (s_calls s)) j i (invocation d)); [apply (ro_distinct _ _ _ Hrest)| |]; rewrite list_lookup_fmap; [by rewrite Hd|]. rewrite He. simpl. congruence.
Qed.

Lemma started_sound s i c modelAllowed sameTool now : rest_ok i c s -> own i (w_queue (s_writer s)) = [] -> c_updates c = [] -> c_emitting c = false ->
  (exists policy, view (invocation c) (s_log s) = intent_part c policy /\
     (needs_intent c = true -> truthy (p_blockReason (c_prep c)) = None -> truthy (p_error (c_prep c)) = None -> p_argumentsError (c_prep c) = None -> policy = declared c)) ->
  sound (started s i c modelAllowed sameTool now).
Proof.
  intros Hrest Hown Hu He (policy & Hv & Hpol). assert (Hb : body c false (view (invocation c) (s_log s))) by (rewrite Hv; exists policy, 0%nat; split; [by rewrite app_nil_r|done]).
  assert (Hup : updates_ok i c (w_queue (s_writer s))) by (unfold updates_ok; by rewrite Hu).
  unfold started. destruct (p_argumentsError (c_prep c)) eqn:Ea; [apply settle_sound; try done; by exists false|].
  assert (Hrest' : rest_ok i c (terminate_if s (p_terminate (c_prep c)))) by (by apply (rest_same _ _ s)).
  destruct (truthy (p_error (c_prep c))) eqn:Ee; [by apply body_threw_sound; [| |exists false]|].
  destruct (block_reason c modelAllowed sameTool) eqn:Eb.
  - apply put_sound; [by apply rest_phase|]. split; [by exists false|]. by apply requests_body.
  - apply put_sound.
    + apply rest_phase, rest_logged; [done| |by intros id r ?%list_elem_of_singleton]. intros j d Hj Hd. unfold view. simpl. rewrite bool_decide_eq_false_2; [done|].
      intros Heq. by apply (distinct_invocation _ _ _ _ _ Hrest' Hj Hd).
    + split; [|by apply requests_body]. unfold trace_ok. simpl. change (invocation (with_phase c Running)) with (invocation c). rewrite view_app, Hv. unfold view. simpl. rewrite bool_decide_eq_true_2 by done.
      exists policy, 0%nat. split; [done|]. intros _ Hn. apply Hpol; try done. unfold block_reason in Eb. by destruct (truthy (p_blockReason (c_prep c))).
Qed.

Lemma next_update_sound s i c error now : rest_ok i c s -> own i (w_queue (s_writer s)) = [] -> in_body (c_phase c) -> trace_ok c (view (invocation c) (s_log s)) -> sound (next_update s i c error now).
Proof.
  intros Hrest Hown Hin Ht. unfold next_update. destruct (tail (c_updates c)) as [|[snapshot|] us].
  - set (c' := with_updates c [] false (c_updateError c || error)). assert (Hrest' : rest_ok i c' s) by (by apply rest_updates).
    assert (Hput : sound (put s i c')). { apply put_sound; [done|]. split; [done|]. by apply requests_body. }
    change (c_phase c') with (c_phase c). destruct (c_phase c) eqn:Ep; try done. apply drained_sound; [by apply rest_put|done|done|done|].
    destruct (trace_body c (view (invocation c) (s_log s))) as (ran & Hb & _); [by rewrite Ep|done|]. by exists ran.
  - apply request_sound; [by apply rest_updates|done|]. apply requests_body; [done|]. unfold updates_ok. simpl. exists snapshot, now. split; [done|]. by rewrite own_snoc, Hown, decide_True.
  - apply put_sound; [by apply rest_updates|]. split; [done|]. by apply requests_body.
Qed.

Lemma updated_sound s i c checkpoint now : sound s -> s_calls s !! i = Some c -> sound (updated s i c checkpoint now).
Proof.
  intros Hs Hi. unfold updated. destruct (negb (accepts_updates (c_phase c))) eqn:Ea; [done|]. assert (Hin : in_body (c_phase c)) by (by destruct (c_phase c)).
  pose proof (so_calls _ Hs _ _ Hi) as [Ht Hr]. apply requests_body in Hr; [|done]. pose proof (sound_rest _ _ _ Hs Hi) as Hrest. unfold updates_ok in Hr.
  destruct (c_updates c) as [|u us] eqn:Eu.
  - destruct Hr as [He Hown]. destruct checkpoint as [snapshot|].
    + apply request_sound; [by apply rest_updates|done|]. apply requests_body; [done|]. unfold updates_ok. simpl. exists snapshot, now. split; [done|]. by rewrite own_snoc, Hown, decide_True.
    + apply put_sound; [by apply rest_updates|]. split; [done|]. by apply requests_body.
  - apply put_sound; [by apply rest_updates|]. split; [done|]. by apply requests_body.
Qed.

(** ** A commit settles *)

Definition append_sym (inv : string) (a : append) : option sym := append_symbol inv (a_type a) (Some (a_payload a)).

Lemma view_entries inv now n l : view inv (map LEntry (imap (fun k a => entry_of session entry_id now (n + k) a) l)) = omap (append_sym inv) l.
Proof.
  revert n. induction l as [|a l IH]; intros n; [done|]. rewrite imap_cons. rewrite (imap_ext _ (fun k a => entry_of session entry_id now (S n + k) a)).
  - specialize (IH (S n)). unfold view in *. simpl. simpl in IH. unfold append_sym at 1. destruct (append_symbol _ _ _); [f_equal|]; exact IH.
  - intros k x _. simpl. f_equal. lia.
Qed.

Lemma names_other inv inv' l : inv <> inv' -> field (Some (JObj l)) "invocationId" = Some (JStr inv') -> names inv (Some (JObj l)) = false.
Proof. intros Hn Hf. unfold names. rewrite Hf. apply bool_decide_eq_false_2. simpl. congruence. Qed.

(** The symbols of the commits of a call. *)
Definition commit_ok (c : call_state) (a : list append) : Prop :=
  (exists ab, a = [intent_append tools ab c]) \/ (exists r error, a = settle_appends c r error) \/ exists snapshot now, a = [progress_append c snapshot now].

Lemma commit_other c a inv n : inv <> invocation c -> commit_ok c a -> omap (append_sym inv) (take n a) = [].
Proof.
  intros Hn Ha. assert (Hall : forall x, x ∈ a -> append_sym inv x = None).
  { destruct Ha as [[ab ->]|[(r & error & ->)|(snapshot & now & ->)]]; unfold settle_appends; intros x Hx; repeat (apply elem_of_cons in Hx as [-> |Hx]); try by apply not_elem_of_nil in Hx.
    all: unfold append_sym, append_symbol; cbn [a_type a_payload intent_append progress_append]; rewrite (names_other _ (invocation c)); try done.
    unfold index_field. destruct (rs_isError r), (rs_terminate r), (rs_durationMs r), (rs_details r), (c_sourceIndex c); done. }
  clear Ha. revert n. induction a as [|x a IH]; intros [|n]; [done..|]. simpl. rewrite (Hall x) by by left. apply IH. intros y Hy. apply Hall. by right.
Qed.

Lemma intent_symbol ab c : append_sym (invocation c) (intent_append tools ab c) = Some (SIntent (Some (replay_policy tools ab c))).
Proof. unfold append_sym, append_symbol, names, is_str. simpl. by rewrite bool_decide_eq_true_2. Qed.

Lemma names_self inv l : field (Some (JObj l)) "invocationId" = Some (JStr inv) -> names inv (Some (JObj l)) = true.
Proof. intros Hf. unfold names. rewrite Hf. by apply bool_decide_eq_true_2. Qed.

Lemma settle_symbols c r error : omap (append_sym (invocation c)) (settle_appends c r error) = [SSettled; SResult (Some (rs_content r))].
Proof.
  assert (H : forall x y sx sy, append_sym (invocation c) x = Some sx -> append_sym (invocation c) y = Some sy -> omap (append_sym (invocation c)) [x; y] = [sx; sy]).
  { intros x y sx sy Hx Hy. simpl. by rewrite Hx, Hy. }
  apply H; unfold append_sym, append_symbol; cbn [a_type a_payload]; (rewrite names_self; [|unfold index_field]).
  - done.
  - by destruct error.
  - by destruct (rs_isError r).
  - destruct (rs_isError r), (rs_terminate r), (rs_durationMs r), (rs_details r), (c_sourceIndex c); done.
Qed.

Lemma progress_symbol c snapshot now : append_sym (invocation c) (progress_append c snapshot now) = Some SProgress.
Proof. unfold append_sym, append_symbol, names, is_str. simpl. by rewrite bool_decide_eq_true_2. Qed.

Lemma own_cons i k q : own i (k :: q) = (if decide (fst (c_owner k) = i) then [k] else []) ++ own i q.
Proof. unfold own. simpl. case_bool_decide; by destruct (decide (fst (c_owner k) = i)). Qed.

(** What the commit at the head of the queue is. *)
Inductive head_of (aborted : bool) (c : call_state) (k : commit (nat * purpose) append) : Prop :=
| HIntent ab : c_phase c = IntentWrite -> c_updates c = [] -> c_emitting c = false -> needs_intent c = true -> (ab = true -> aborted = true) ->
    snd (c_owner k) = PIntent -> c_appends k = [intent_append tools ab c] -> head_of aborted c k
| HSettle r announced error : c_phase c = SettleWrite r announced -> c_updates c = [] -> c_emitting c = false ->
    snd (c_owner k) = PSettle -> c_appends k = settle_appends c r error -> head_of aborted c k
| HUpdate snapshot us now : in_body (c_phase c) -> c_updates c = snapshot :: us -> (exists x, c_appends k = [progress_append c x now]) ->
    snd (c_owner k) = PUpdate -> head_of aborted c k.

Lemma sound_head s k rest c : sound s -> w_queue (s_writer s) = k :: rest -> s_calls s !! fst (c_owner k) = Some c ->
  own (fst (c_owner k)) rest = [] /\ head_of (s_aborted s) c k.
Proof.
  intros Hs Hq Hc. destruct (so_calls _ Hs _ _ Hc) as [_ Hr]. rewrite Hq in Hr. unfold requests_ok in Hr. rewrite own_cons, decide_True in Hr by done. simpl in Hr.
  destruct (c_phase c) eqn:Ep; try (by destruct Hr as (_ & _ & Hr)).
  2-4: destruct (c_updates c) as [|u us] eqn:Eu; [by destruct Hr|]; destruct (c_emitting c); [done|]; destruct Hr as (x & now & -> & Ho); apply cons_eq_inj in Ho as [-> Ho]; split; [done|];
    apply (HUpdate _ _ _ (Some x) us now); [by rewrite Ep|done|by exists x|done].
  - destruct Hr as (Hu & He & Hn & ab & Ho & Hab). apply cons_eq_inj in Ho as [-> Ho]. split; [done|]. by apply (HIntent _ _ _ ab).
  - destruct Hr as (Hu & He & error & Ho). apply cons_eq_inj in Ho as [-> Ho]. split; [done|]. by apply (HSettle _ _ _ r announced error).
Qed.

(** The state in which the continuation of the head commit runs. *)
Definition written (s : state) (rest : list (commit (nat * purpose) append)) (fault : bool) (now : Z) (l : list append) : state :=
  MkBatch (s_calls s) (MkWriter rest fault) (s_log s ++ map LEntry (imap (fun k a => entry_of session entry_id now (length (s_log s) + k) a) l)) (s_aborted s) (s_pending s) (s_termination s).

Lemma head_commit_ok s c k : head_of (s_aborted s) c k -> commit_ok c (c_appends k).
Proof. intros [ab ? ? ? ? ? ? ->|r an er ? ? ? ? ->|? ? now ? ? (x & ->) ?]; [left; by exists ab|right; left; by exists r, er|right; right; by exists x, now]. Qed.

Lemma rest_written s k rest fault c now n : sound s -> w_queue (s_writer s) = k :: rest -> s_calls s !! fst (c_owner k) = Some c -> commit_ok c (c_appends k) ->
  rest_ok (fst (c_owner k)) c (written s rest fault now (take n (c_appends k))).
Proof.
  intros Hs Hq Hc Hk. pose proof (sound_rest _ _ _ Hs Hc) as Hrest.
  assert (Hl : rest_ok (fst (c_owner k)) c (logged s (map LEntry (imap (fun k a => entry_of session entry_id now (length (s_log s) + k) a) (take n (c_appends k)))))).
  { apply rest_logged; [done| |by intros id r (x & Heq & _)%list_elem_of_fmap]. intros j d Hj Hd. rewrite view_entries. apply (commit_other c); [|done]. by apply (distinct_invocation _ _ _ _ _ Hrest Hj). }
  destruct Hl as [H1 H2 H3 H4 H5]. split; simpl in *; try done.
  - intros j d Hj Hd. destruct (H1 j d Hj Hd) as [Ht Hr]. split; [done|]. simpl in *. unfold requests_ok in *. rewrite Hq, own_cons, decide_False in Hr by done. done.
  - intros x Hx. apply H4. rewrite Hq. by right.
Qed.

Lemma view_written s rest fault now l inv : view inv (s_log (written s rest fault now l)) = view inv (s_log s) ++ omap (append_sym inv) l.
Proof. simpl. by rewrite view_app, view_entries. Qed.

Lemma take_two {A} (x y : A) n : take n [x; y] = [] \/ take n [x; y] = [x] \/ take n [x; y] = [x; y].
Proof. destruct n as [|[|[|n]]]; auto. Qed.

Lemma take_one {A} (x : A) n : take n [x] = [] \/ take n [x] = [x].
Proof. destruct n as [|[|n]]; auto. Qed.

Lemma resumed_intent s k rest c ab fault n fulfilled now : sound s -> w_queue (s_writer s) = k :: rest -> s_calls s !! fst (c_owner k) = Some c ->
  rest_ok (fst (c_owner k)) c (written s rest fault now (take n (c_appends k))) -> own (fst (c_owner k)) rest = [] ->
  c_phase c = IntentWrite -> c_updates c = [] -> c_emitting c = false -> needs_intent c = true -> (ab = true -> s_aborted s = true) -> c_appends k = [intent_append tools ab c] ->
  (fulfilled = true -> take n (c_appends k) = c_appends k) ->
  sound (resumed tools batch_mode (written s rest fault now (take n (c_appends k))) (fst (c_owner k)) PIntent fulfilled now).
Proof.
  intros Hs Hq Hc Hrest Hown Hp Hu He Hn Hab Ha Hful. destruct (so_calls _ Hs _ _ Hc) as [Ht _]. unfold trace_ok in Ht. rewrite Hp in Ht.
  unfold resumed. change (s_calls (written s rest fault now (take n (c_appends k)))) with (s_calls s). rewrite Hc. destruct fulfilled.
  - apply after_intent_sound; try done. exists (replay_policy tools ab c), ab. split_and!; [|done|done]. rewrite view_written, Ht, (Hful eq_refl), Ha. cbn [omap list_omap app]. rewrite intent_symbol. unfold intent_part. by rewrite Hn.
  - apply put_sound; [by apply rest_phase|]. split; [|done]. change (invocation (with_phase c Failed)) with (invocation c). rewrite view_written, Ht, Ha.
    exists false, (view (invocation c) (s_log (written s rest fault now (take n (c_appends k))))). rewrite view_written, Ht, Ha. split; [|by left].
    destruct (take_one (intent_append tools ab c) n) as [-> | ->]; [by left|right]. cbn [omap list_omap app]. rewrite intent_symbol.
    exists (replay_policy tools ab c), 0%nat. unfold intent_part. change (needs_intent (with_phase c Failed)) with (needs_intent c). by rewrite Hn.
Qed.

Lemma resumed_settle s k rest c r announced error fault n fulfilled now : sound s -> w_queue (s_writer s) = k :: rest -> s_calls s !! fst (c_owner k) = Some c ->
  rest_ok (fst (c_owner k)) c (written s rest fault now (take n (c_appends k))) -> own (fst (c_owner k)) rest = [] ->
  c_phase c = SettleWrite r announced -> c_updates c = [] -> c_emitting c = false -> c_appends k = settle_appends c r error ->
  (fulfilled = true -> take n (c_appends k) = c_appends k) -> (batched = true -> take n (c_appends k) = [] \/ take n (c_appends k) = c_appends k) ->
  sound (resumed tools batch_mode (written s rest fault now (take n (c_appends k))) (fst (c_owner k)) PSettle fulfilled now).
Proof.
  intros Hs Hq Hc Hrest Hown Hp Hu He Ha Hful Hbat. destruct (so_calls _ Hs _ _ Hc) as [Ht _]. unfold trace_ok in Ht. rewrite Hp in Ht. destruct Ht as [ran Hb].
  unfold resumed. change (s_calls (written s rest fault now (take n (c_appends k)))) with (s_calls s). rewrite Hc. destruct fulfilled.
  - rewrite Hp. set (r' := MkRes _ _ _ _ _ _ _).
    assert (Hv : view (invocation c) (s_log (written s rest fault now (take n (c_appends k)))) = view (invocation c) (s_log s) ++ [SSettled; SResult (Some (rs_content r'))]).
    { rewrite view_written, (Hful eq_refl), Ha, settle_symbols. done. }
    destruct announced; [|apply finished_sound; try done; by exists ran, (view (invocation c) (s_log s))].
    apply put_sound; [apply rest_phase; by apply (rest_same _ _ (written s rest fault now (take n (c_appends k))))|]. split; [|done]. by exists ran, (view (invocation c) (s_log s)).
  - apply put_sound; [apply rest_phase; destruct (p_argumentsError _); by first [done|apply (rest_same _ _ (written s rest fault now (take n (c_appends k))))]|].
    split; [|by destruct (p_argumentsError _)]. change (invocation (with_phase c Failed)) with (invocation c).
    replace (s_log (match p_argumentsError (c_prep c) with Some _ => pending_delete (written s rest fault now (take n (c_appends k))) (prepared_id c) | None => _ end))
      with (s_log (written s rest fault now (take n (c_appends k)))) by (by destruct (p_argumentsError _)).
    rewrite view_written, Ha. exists ran, (view (invocation c) (s_log s)). split; [by right|]. rewrite Ha in Hbat. unfold settle_appends in *.
    pose proof (settle_symbols c r error) as Hsym. unfold settle_appends in Hsym.
    match goal with |- context [take n [?x; ?y]] => destruct (take_two x y n) as [Hk|[Hk|Hk]] end; rewrite Hk in *; [left; by rewrite app_nil_r| |right; right; eexists; by rewrite Hsym].
    right. left. split; [destruct batched; [by destruct Hbat|done]|]. f_equal. cbn [omap list_omap] in *.
    destruct (append_sym _ _); [|destruct (append_sym _ _); discriminate]. by injection Hsym as ->.
Qed.

Lemma resumed_update s k rest c snapshot us x fault n fulfilled now now' : sound s -> w_queue (s_writer s) = k :: rest -> s_calls s !! fst (c_owner k) = Some c ->
  rest_ok (fst (c_owner k)) c (written s rest fault now (take n (c_appends k))) -> own (fst (c_owner k)) rest = [] ->
  in_body (c_phase c) -> c_updates c = snapshot :: us -> c_appends k = [progress_append c x now'] ->
  sound (resumed tools batch_mode (written s rest fault now (take n (c_appends k))) (fst (c_owner k)) PUpdate fulfilled now).
Proof.
  intros Hs Hq Hc Hrest Hown Hin Hu Ha. destruct (so_calls _ Hs _ _ Hc) as [Ht _].
  assert (Ht' : trace_ok c (view (invocation c) (s_log (written s rest fault now (take n (c_appends k)))))).
  { destruct (trace_body _ _ Hin Ht) as (ran & Hb & Hr). rewrite view_written, Ha. apply (body_trace _ _ ran); [done| |done].
    destruct (take_one (progress_append c x now') n) as [-> | ->]; cbn [omap list_omap]; [by rewrite app_nil_r|]. rewrite progress_symbol. by apply body_progress. }
  unfold resumed. change (s_calls (written s rest fault now (take n (c_appends k)))) with (s_calls s). rewrite Hc. destruct fulfilled; [|by apply next_update_sound].
  apply put_sound; [by apply rest_updates|]. split; [done|]. apply requests_body; [done|]. unfold updates_ok. simpl. by rewrite Hu.
Qed.

Lemma write_sound s o now : sound s -> sound (step s (EWrite o now)).
Proof.
  intros Hs. cbn [ToolDispatch.step]. unfold write_head. destruct (w_queue (s_writer s)) as [|k rest] eqn:Hq; [done|].
  destruct (write_entries batched (w_fault (s_writer s)) (c_appends k) o) as [[l fault] fulfilled] eqn:Hw.
  destruct (write_entries_prefix batched (w_fault (s_writer s)) (c_appends k) o) as [n Hn]. rewrite Hw in Hn. simpl in Hn. subst l.
  pose proof (write_entries_fulfilled batched (w_fault (s_writer s)) (c_appends k) o) as Hful. rewrite Hw in Hful. destruct Hful as [Hful _].
  assert (Hbat : batched = true -> take n (c_appends k) = [] \/ take n (c_appends k) = c_appends k).
  { intros Hb. rewrite Hb in Hw. pose proof (write_entries_batched (w_fault (s_writer s)) (c_appends k) o) as H. rewrite Hw in H. destruct H as [[H _]|H]; auto. }
  destruct (s_calls s !! fst (c_owner k)) as [c|] eqn:Hc; [|apply lookup_ge_None in Hc; pose proof (so_owners _ Hs k); rewrite Hq in *; assert (k ∈ k :: rest) by (by left); naive_solver lia].
  destruct (sound_head _ _ _ _ Hs Hq Hc) as [Hown Hk]. pose proof (rest_written s k rest fault c now n Hs Hq Hc (head_commit_ok _ _ _ Hk)) as Hrest.
  destruct Hk as [ab ? ? ? ? ? Ho Ha|r announced error ? ? ? Ho Ha|snapshot us now' ? ? [x Ha] Ho]; rewrite Ho.
  - apply (resumed_intent s k rest c ab); try done. intros Hf. by apply Hful.
  - apply (resumed_settle s k rest c r announced error); try done. intros Hf. by apply Hful.
  - by apply (resumed_update s k rest c snapshot us x _ _ _ _ now').
Qed.

Lemma failed_sound s i c : rest_ok i c s -> own i (w_queue (s_writer s)) = [] -> c_updates c = [] -> c_emitting c = false ->
  (exists ran b, (b = [] \/ body c ran b) /\ (view (invocation c) (s_log s) = b \/ exists content, view (invocation c) (s_log s) = b ++ [SSettled; SResult content])) ->
  forall s', same s s' -> sound (put s' i (with_phase c Failed)).
Proof.
  intros Hrest Hown Hu He (ran & b & Hb & Hv) s' Hsame. apply put_sound; [apply rest_phase; by apply (rest_same _ _ s)|]. destruct Hsame as (_ & Hw & Hl & _). split.
  - exists ran, b. split; [done|]. simpl. rewrite Hl. destruct Hv as [Hv|Hv]; [by left|by right; right].
  - unfold requests_ok. simpl. by rewrite Hw.
Qed.

Definition finished_call (s : state) (x : string * tool_res) : Prop := exists i c, s_calls s !! i = Some c /\ prepared_id c = fst x /\ c_phase c = Finished (snd x).

Lemma adopt_all s rs : sound s -> Forall (finished_call s) rs -> sound (logged s (map (fun '(id, r) => LAdopt id r) rs)).
Proof.
  revert s. induction rs as [|[id r] rs IH]; intros s Hs Hall; [destruct s; unfold logged; simpl; by rewrite app_nil_r|].
  inversion_clear Hall as [|? ? (i & c & Hc & Hid & Hp) Hrs]. simpl in *. subst id. destruct (so_calls _ Hs _ _ Hc) as [Ht _]. unfold trace_ok in Ht. rewrite Hp in Ht. destruct Ht as (ran & b & Hb & Hv).
  replace (logged s _) with (logged (logged s [LAdopt (prepared_id c) r]) (map (fun '(id, r) => LAdopt id r) rs)) by (unfold logged; simpl; by rewrite <- app_assoc).
  apply IH; [by apply (logged_adopt _ i c ran b)|done].
Qed.

Lemma results_finished s rs : results s = Some rs -> Forall (finished_call s) rs.
Proof.
  unfold results. intros H%mapM_Some. apply Forall_lookup. intros n x Hx. destruct (Forall2_lookup_r _ _ _ _ _ H Hx) as (c & Hc & Heq). exists n, c.
  unfold is_finished in Heq. destruct (c_phase c); try done. by injection Heq as <-.
Qed.

Lemma step_sound s e : sound s -> sound (step s e).
Proof.
  intros Hs. destruct e as [o now|i thrown ma st now|i checkpoint now|i thrown now|i o now|i o invalid now|i thrown now| |thrown]; [by apply write_sound|..]; cbn [ToolDispatch.step].
  1-6: destruct (s_calls s !! i) as [c|] eqn:Hc; [|done]; destruct (so_calls _ Hs _ _ Hc) as [Ht Hr]; pose proof (sound_rest _ _ _ Hs Hc) as Hrest.
  - destruct (c_phase c) eqn:Hp; try done. unfold trace_ok, requests_ok in Ht, Hr. rewrite Hp in Ht, Hr. destruct Ht as (policy & Hv & Hpol), Hr as (Hu & He & Hown). destruct thrown.
    + apply (failed_sound s); try done; [|by destruct (p_argumentsError _)]. exists false, (view (invocation c) (s_log s)). split; [|by left]. right. rewrite Hv. exists policy, 0%nat. split; [by rewrite app_nil_r|done].
    + apply started_sound; try done. by exists policy.
  - by apply updated_sound.
  - destruct (c_emitting c) eqn:He; [|done]. assert (Hin : in_body (c_phase c)).
    { unfold requests_ok in Hr. rewrite He in Hr. destruct (c_phase c); naive_solver. }
    apply next_update_sound; try done. apply requests_body in Hr; [|done]. unfold updates_ok in Hr. rewrite He in Hr. by destruct (c_updates c) as [|u us]; [destruct Hr|].
  - destruct (c_phase c) eqn:Hp; try done. apply requests_body in Hr; [|by rewrite Hp]. destruct (trace_body _ _ ltac:(by rewrite Hp) Ht) as (ran & Hb & _).
    destruct o as [r|m]; [|apply body_threw_sound; [done|done|by exists ran]]. apply put_sound; [by apply rest_phase|]. split; [by exists ran|by apply requests_body].
  - destruct (c_phase c) eqn:Hp; try done. apply requests_body in Hr; [|by rewrite Hp]. destruct (trace_body _ _ ltac:(by rewrite Hp) Ht) as (ran & Hb & _).
    apply hook_ended_sound; [done|done|by exists ran].
  - destruct (c_phase c) eqn:Hp; try done. unfold trace_ok, requests_ok in Ht, Hr. rewrite Hp in Ht, Hr. destruct Ht as (ran & b & Hb & Hv), Hr as (Hu & He & Hown). destruct thrown.
    + apply (failed_sound s); try done; [|by destruct (p_argumentsError _)]. exists ran, b. split; [by right|]. right. by eexists.
    + destruct (p_argumentsError _); apply finished_sound; try done; first [by apply (rest_same _ _ s)|by exists ran, b].
  - destruct Hs as [H1 H2 H3 H4]. split; [|done..]. intros i c Hc. destruct (H1 i c Hc) as [Ht Hr]. split; [done|]. unfold requests_ok in *. simpl. destruct (c_phase c); try done. naive_solver.
  - destruct (results s) as [rs|] eqn:Hr; [|by destruct batch_mode]. apply results_finished in Hr.
    assert (Hgo : sound (if adopted (s_log s) then s else logged s (map (fun '(id, r) => LAdopt id r) (match thrown with Some n => take (S n) rs | None => rs end)))); [|by destruct batch_mode].
    destruct (adopted _); [done|]. apply adopt_all; [done|]. destruct thrown; [by apply Forall_take|done].
Qed.

(** * Batches *)

Definition fresh (c : call_state) : Prop := c_phase c = Waiting /\ c_updates c = [] /\ c_emitting c = false.

Lemma start_batch_sound fault aborted calls now : Forall fresh calls -> NoDup (map invocation calls) -> sound (start_batch tools batch_mode fault aborted calls now).
Proof.
  intros Hf Hn. unfold start_batch. set (s := MkBatch calls (MkWriter [] fault) [] aborted [] false).
  assert (Hs : sound s).
  { split; [|done|by intros c ?%not_elem_of_nil|by intros [|] ? ? ?]. intros i c Hc. pose proof (Forall_lookup_1 _ _ _ _ Hf Hc) as (Hp & Hu & He).
    split; [by unfold trace_ok; rewrite Hp|by unfold requests_ok; rewrite Hp]. }
  assert (Hgo : forall l s, sound s -> sound (foldl (fun s i => start_call s i now) s l)).
  { induction l as [|i l IH]; intros s' Hs'; [done|]. apply IH. by apply start_call_sound. }
  destruct batch_mode; [by apply Hgo|by apply start_call_sound..].
Qed.

Lemma run_batch_sound fault aborted calls now events : Forall fresh calls -> NoDup (map invocation calls) ->
  sound (run_batch tools batched session batch_mode entry_id fault aborted calls now events).
Proof.
  intros Hf Hn. unfold run_batch. assert (Hs := start_batch_sound fault aborted calls now Hf Hn). revert Hs. generalize (start_batch tools batch_mode fault aborted calls now).
  induction events as [|e events IH]; intros s Hs; [done|]. apply IH. by apply step_sound.
Qed.

(** Every trace is a body, or nothing, and an end. *)
Definition trace_end (l : list sym) : Prop := l = [] \/ (batched = false /\ l = [SSettled]) \/ exists content, l = [SSettled; SResult content].

Lemma trace_shape c l : trace_ok c l -> exists ran b tl, (b = [] \/ body c ran b) /\ l = b ++ tl /\ trace_end tl.
Proof.
  assert (Hn : trace_end []) by (by left).
  assert (Hb : forall ran, body c ran l -> exists ran b tl, (b = [] \/ body c ran b) /\ l = b ++ tl /\ trace_end tl).
  { intros ran Hb. exists ran, l, []. rewrite app_nil_r. split_and!; [by right|done|done]. }
  unfold trace_ok. destruct (c_phase c).
  1,2: intros ->; exists false, [], []; split_and!; [by left|done|done].
  - intros (policy & -> & _). apply (Hb false). exists policy, 0%nat. split; [by rewrite app_nil_r|done].
  - apply Hb.
  - intros [ran H]. by apply (Hb ran).
  - intros [ran H]. by apply (Hb ran).
  - intros [ran H]. by apply (Hb ran).
  - intros (ran & b & H & ->). exists ran, b, [SSettled; SResult (Some (rs_content r))]. split_and!; [by right|done|]. right. right. by eexists.
  - intros (ran & b & H & ->). exists ran, b, [SSettled; SResult (Some (rs_content r))]. split_and!; [by right|done|]. right. right. by eexists.
  - intros (ran & b & Hor & [-> |[[Hf ->]|[content ->]]]).
    + exists ran, b, []. by rewrite app_nil_r.
    + exists ran, b, [SSettled]. split_and!; [done|done|]. right. by left.
    + exists ran, b, [SSettled; SResult content]. split_and!; [done|done|]. right. right. by eexists.
Qed.

Lemma split_once {A} (x : A) l1 l2 m1 m2 : l1 ++ x :: l2 = m1 ++ x :: m2 -> x ∉ m1 -> x ∉ m2 -> l1 = m1 /\ l2 = m2.
Proof.
  revert m1. induction l1 as [|a l1 IH]; intros [|b m1] Heq H1 H2; simpl in *.
  - by injection Heq as ->.
  - injection Heq as -> _. destruct H1. by left.
  - injection Heq as -> <-. destruct H2. apply elem_of_app. right. by left.
  - injection Heq as -> Heq. apply not_elem_of_cons in H1 as [_ H1]. by destruct (IH m1 Heq H1 H2) as [-> ->].
Qed.

Lemma end_no_run tl : trace_end tl -> SRun ∉ tl.
Proof. intros [-> |[[_ ->]|[content ->]]] H; repeat (apply elem_of_cons in H as [|H]; [done|]); by apply not_elem_of_nil in H. Qed.

Lemma trace_run c l l1 l2 : trace_ok c l -> l = l1 ++ SRun :: l2 -> l1 = (if needs_intent c then [SIntent (Some (declared c))] else []) /\ SRun ∉ l2.
Proof.
  intros (ran & b & tl & Hb & -> & Htl)%trace_shape Hl. pose proof (end_no_run _ Htl) as Htl'.
  assert (Hin : SRun ∈ b ++ tl) by (rewrite Hl; apply elem_of_app; right; by left). apply elem_of_app in Hin as [Hin|Hin]; [|done].
  destruct Hb as [-> |(policy & n & -> & Hp)]; [by apply not_elem_of_nil in Hin|].
  assert (Hrep : SRun ∉ replicate n SProgress ++ tl) by (intros [[H _]%elem_of_replicate|H]%elem_of_app; done).
  assert (Hint : SRun ∉ intent_part c policy) by (unfold intent_part; destruct (needs_intent c); [by intros ?%list_elem_of_singleton|apply not_elem_of_nil]).
  destruct ran; [|exfalso; apply elem_of_app in Hin as [?|Hin]; [done|]; apply Hrep, elem_of_app; by left].
  rewrite <- !app_assoc in Hl. simpl in Hl. symmetry in Hl. apply split_once in Hl as [-> ->]; [|done|done]. split; [|done].
  unfold intent_part. destruct (needs_intent c); [by rewrite Hp|done].
Qed.

(** C10: the journal is ahead of the tools.  Whatever the interleaving of the calls of a batch
    and wherever it stops, failed writes included: the entries and runs of each call have the
    order of its phase; a tool runs once at most, and only when the one thing the journal says of the
    call is an intent with the policy the tool is registered with (nothing, in a recovery,
    where the intent is of the interrupted turn); and a result that is in the conversation
    has its settlement and its content in the log before. *)
Theorem tool_calls_are_durable fault aborted calls now events (Hfresh : Forall fresh calls) (Hids : NoDup (map invocation calls)) :
  let s := run_batch tools batched session batch_mode entry_id fault aborted calls now events in
  (forall i c, s_calls s !! i = Some c -> trace_ok c (view (invocation c) (s_log s))) /\
  (forall i c l1 l2, s_calls s !! i = Some c -> s_log s = l1 ++ LExecute (invocation c) :: l2 ->
     view (invocation c) l1 = (if needs_intent c then [SIntent (Some (declared c))] else []) /\ LExecute (invocation c) ∉ l2) /\
  adoptions_ok s.
Proof.
  intros s. pose proof (run_batch_sound fault aborted calls now events Hfresh Hids) as Hs. fold s in Hs.
  split_and!; [intros i c Hc; by apply (so_calls _ Hs i c)| |apply (so_adoptions _ Hs)].
  intros i c l1 l2 Hc Hl. destruct (so_calls _ Hs i c Hc) as [Ht _].
  assert (Hv : view (invocation c) (LExecute (invocation c) :: l2) = SRun :: view (invocation c) l2) by (unfold view; simpl; by rewrite bool_decide_eq_true_2).
  destruct (trace_run c _ (view (invocation c) l1) (view (invocation c) l2) Ht) as [H1 H2]; [by rewrite Hl, view_app, Hv|]. split; [done|].
  intros Hin. apply H2. apply list_elem_of_omap. exists (LExecute (invocation c)). split; [done|]. simpl. by rewrite bool_decide_eq_true_2.
Qed.

End Proofs.

(** * A concrete batch *)

Definition demo_tools : registry := MkRegistry (fun _ => Some (Some (JStr "never"))) (fun _ => None) (fun _ _ => true).

Definition demo_prepared (id : string) : PreparedCall := MkPrepared (MkToolCall id "write" (JObj [])) None None None false.

Definition demo_calls : list call_state := [fresh_call (demo_prepared "a") KRun "i1" (Some 0); fresh_call (demo_prepared "b") KRun "i2" (Some 1)].

Definition demo_res (t : string) : tool_res := MkRes None (text_content t) None None false None 5.

(** The second call ends first; the session is closed before the first one has settled. *)
Definition demo_events : list event :=
  [EWrite Written 1; EWrite Written 1; EStarted 1 false true true 2; EStarted 0 false true true 2; EUpdate 0 (Some (JStr "half")) 3; EWrite Written 3;
   ETool 1 (TReturned (demo_res "done")) 4; EAfter 1 HNone None 4; EWrite Written 4; EEnded 1 false 4; EUpdateAnnounced 0 false 4].

Definition demo_batch (events : list event) : state :=
  run_batch demo_tools true "session" Parallel (fun n => "e" +:+ string_of_index n) false false demo_calls 0 events.

Lemma tool_calls_are_durable_witness :
  let s := demo_batch demo_events in
  (map (fun c => view (invocation c) (s_log s)) (s_calls s) =
     [[SIntent (Some (JStr "never")); SRun; SProgress]; [SIntent (Some (JStr "never")); SRun; SSettled; SResult (Some (text_content "done"))]] /\
   s_pending s = ["a"%string]) /\
  (forall i c, s_calls s !! i = Some c -> trace_ok demo_tools true c (view (invocation c) (s_log s))) /\
  (forall i c l1 l2, s_calls s !! i = Some c -> s_log s = l1 ++ LExecute (invocation c) :: l2 ->
     view (invocation c) l1 = (if needs_intent c then [SIntent (Some (declared demo_tools c))] else []) /\ LExecute (invocation c) ∉ l2) /\
  adoptions_ok demo_tools s.
Proof.
  intros s. split; [by vm_compute|]. apply (tool_calls_are_durable demo_tools true "session" Parallel (fun n => "e" +:+ string_of_index n) false false demo_calls 0 demo_events).
  - repeat constructor.
  - apply NoDup_cons. split; [by intros ?%list_elem_of_singleton|apply NoDup_singleton].
Defined.

(** A gate that throws an error without a message lets the tool run (tool-dispatcher.ts:501,
    where the text of the error stands for the error). *)
Lemma gate_that_throws_an_empty_message_opens :
  let prepared := prepareCall demo_tools (MkToolCall "a" "write" (JObj [])) true None false EmptyString (BThrew EmptyString) in
  let s := run_batch demo_tools true "session" Parallel (fun n => "e" +:+ string_of_index n) false false [fresh_call prepared KRun "i1" (Some 0)] 0 [EWrite Written 1; EStarted 0 false true true 2] in
  LExecute "i1" ∈ s_log s.
Proof. vm_compute. right. left. Qed.
