(* ===== verification/ToolRecovery.v ===== *)
(** The journal of a batch of tool calls and the recovery plan made of it: what was run is
    neither lost nor run again. *)

From S2P Require Import Prelude Json Frames Reducer ReducerProofs RecoveryProofs ToolDispatch ToolDispatchProofs.

Open Scope Z_scope.

(** * What a batch writes *)

Section Form.
Variable tools : registry.
Variable batched : bool.
Variable session : string.
Variable batch_mode : mode.
Variable entry_id : nat -> string.
Variable calls : list call_state. (* of the batch *)

Abbreviation step := (step tools batched session batch_mode entry_id).
Abbreviation start_call := (start_call tools).
Abbreviation finished := (finished tools batch_mode).

Definition member (c : call_state) : Prop := exists d, d ∈ calls /\ static d = static c.

Definition synthesized (c : call_state) : bool := match c_kind c with KSynthesize _ _ _ => true | _ => false end.

(** A synthesized call settles at once. *)
Definition settles_only (c : call_state) : Prop :=
  synthesized c = true -> match c_phase c with Waiting | SettleWrite _ _ | EndEvent _ | Finished _ | Failed => True | _ => False end.

Definition entry_form (x : log_entry) : Prop :=
  match x with
  | LEntry e => exists c l a n now, member c /\ commit_ok tools c l /\ a ∈ l /\ e = entry_of session entry_id now n a
  | LExecute inv => exists c, member c /\ synthesized c = false /\ p_argumentsError (c_prep c) = None /\ invocation c = inv
  | LAdopt _ _ => True
  end.

Record formed (s : state) : Prop := MkFormed {
  fo_calls : forall i c, s_calls s !! i = Some c -> member c /\ settles_only c;
  fo_queue : forall k, k ∈ w_queue (s_writer s) -> exists c, member c /\ commit_ok tools c (c_appends k) /\ (forall d, s_calls s !! fst (c_owner k) = Some d -> static d = static c /\ (snd (c_owner k) <> PSettle -> synthesized c = false));
  fo_log : Forall entry_form (s_log s);
  fo_static : map static (s_calls s) = map static calls;
}.

Definition mine (s : state) (i : nat) (c : call_state) : Prop := exists d, s_calls s !! i = Some d /\ static d = static c.

Lemma member_static c d : static c = static d -> member c -> member d.
Proof. intros H (x & Hx & Hs). exists x. split; [done|congruence]. Qed.

Lemma static_insert (l : list call_state) i c d : l !! i = Some d -> static d = static c -> map static (<[i := c]> l) = map static l.
Proof. intros Hi Hs. rewrite list_fmap_insert. apply list_insert_id. rewrite list_lookup_fmap, Hi. simpl. by rewrite Hs. Qed.

Lemma formed_put s i c : formed s -> mine s i c -> settles_only c -> formed (put s i c).
Proof.
  intros [H1 H2 H3 H4] (d & Hd & Hs) Hc. assert (Hl : (i < length (s_calls s))%nat) by (by eapply lookup_lt_Some).
  split; simpl; [| |done|by rewrite (static_insert _ _ _ d)].
  - intros j e. destruct (decide (i = j)) as [<-|Hn]; [rewrite list_lookup_insert_eq by done; intros [= <-]|rewrite list_lookup_insert_ne by done; apply H1].
    split; [|done]. apply (member_static d); [done|]. by apply (H1 i).
  - intros k Hk. destruct (H2 k Hk) as (x & Hx & Hok & Ho). exists x. split_and!; [done..|]. intros e. destruct (decide (i = fst (c_owner k))) as [->|Hn].
    + rewrite list_lookup_insert_eq by done. intros [= <-]. destruct (Ho d Hd). split; [congruence|done].
    + rewrite list_lookup_insert_ne by done. apply Ho.
Qed.

Lemma formed_request s i c p l : formed s -> mine s i c -> commit_ok tools c l -> (p <> PSettle -> synthesized c = false) -> formed (request s i p l).
Proof.
  intros [H1 H2 H3 H4] (d & Hd & Hs) Hok Hp. split; simpl; [done| |done|done]. intros k [Hk|Hk%list_elem_of_singleton]%elem_of_app; [by apply H2|subst k]. simpl.
  exists c. split_and!; [apply (member_static d); [done|]; by apply (H1 i)|done|]. intros e He. assert (e = d) as -> by congruence. done.
Qed.

Lemma formed_logged s l : formed s -> Forall entry_form l -> formed (logged s l).
Proof. intros [H1 H2 H3 H4] Hl. split; simpl; [done|done| |done]. by apply Forall_app. Qed.

Lemma formed_same s s' : same s s' -> formed s -> formed s'.
Proof. intros (Hc & Hw & Hl & _) [H1 H2 H3 H4]. split; by rewrite ?Hc, ?Hw, ?Hl. Qed.

Lemma running_other c : settles_only c -> match c_phase c with Waiting | SettleWrite _ _ | EndEvent _ | Finished _ | Failed => False | _ => True end -> synthesized c = false.
Proof. intros Hs Hp. destruct (synthesized c) eqn:E; [|done]. specialize (Hs E). by destruct (c_phase c). Qed.

Lemma mine_same s s' i c : same s s' -> mine s i c -> mine s' i c.
Proof. intros (Hc & _) Hm. unfold mine. by rewrite Hc. Qed.

Lemma mine_put s i c d : mine s i c -> static c = static d -> mine (put s i c) i d.
Proof. intros (x & Hx & _) Hs. exists c. split; [|done]. simpl. rewrite list_lookup_insert_eq; [done|by eapply lookup_lt_Some]. Qed.

Lemma formed_settle s i c r announced error : formed s -> mine s i c -> formed (settle s i c r announced error).
Proof.
  intros Hf Hm. apply (formed_request _ _ c); [by apply formed_put|by apply (mine_put _ _ (with_phase c _))| |done]. right. left. by exists r, error.
Qed.

Lemma formed_after_intent s i c now : formed s -> mine s i c -> synthesized c = false -> formed (after_intent s i c now).
Proof.
  intros Hf Hm Hc. unfold after_intent.
  assert (H : formed (if negb (bool_decide (is_Some (p_argumentsError (c_prep c)))) && s_aborted s
                      then settle s i c (error_result "Tool execution aborted by signal" now) false (Some "Tool execution aborted by signal")
                      else put (pending_add s (prepared_id c)) i (with_phase c StartEvent))).
  { destruct (_ && _); [by apply formed_settle|]. apply formed_put; [by apply (formed_same s)|by apply (mine_same s)|]. intros Hsy. change (synthesized c = true) in Hsy. congruence. }
  destruct (c_kind c); try done. by apply formed_settle.
Qed.

Lemma lookup_mine s i c : s_calls s !! i = Some c -> mine s i c.
Proof. by exists c. Qed.

Lemma formed_start_call s i now : formed s -> formed (start_call s i now).
Proof.
  intros Hf. unfold start_call, ToolDispatch.start_call. destruct (s_calls s !! i) as [c|] eqn:Hc; [|done]. destruct (c_phase c); try done.
  pose proof (lookup_mine _ _ _ Hc) as Hm.
  assert (Hreq : synthesized c = false -> formed (request (put s i (with_phase c IntentWrite)) i PIntent [intent_append tools (s_aborted s) c])).
  { intros Hsy. apply (formed_request _ _ c); [|by apply (mine_put _ _ (with_phase c _))|left; by eexists|done]. apply formed_put; [done|done|]. intros H. change (synthesized c = true) in H. congruence. }
  unfold synthesized in Hreq. destruct (c_kind c) eqn:Hk; [by apply Hreq| |by apply formed_settle|by apply Hreq].
  destruct (p_argumentsError (c_prep c)); [by apply Hreq|]. apply formed_after_intent; [done|done|]. unfold synthesized. by rewrite Hk.
Qed.

Lemma formed_finished s i c r now : formed s -> mine s i c -> formed (finished s i c r now).
Proof.
  intros Hf Hm. assert (Hp : formed (put s i (with_phase c (Finished r)))) by (by apply formed_put). unfold finished, ToolDispatch.finished.
  destruct batch_mode; [done|by apply formed_start_call|]. apply formed_start_call, formed_logged; [done|]. by constructor.
Qed.

Lemma formed_drained s i c r : formed s -> mine s i c -> formed (drained s i c r).
Proof.
  intros Hf Hm. unfold drained. assert (Hf' : formed (pending_delete s (prepared_id c))) by (by apply (formed_same s)).
  destruct (c_updateError c); [by apply formed_put|by apply formed_settle].
Qed.

Lemma settles_other c p : synthesized c = false -> settles_only (with_phase c p).
Proof. intros Hc H. change (synthesized c = true) in H. congruence. Qed.

Lemma formed_body_ended s i c r : formed s -> mine s i c -> synthesized c = false -> formed (body_ended s i c r).
Proof.
  intros Hf Hm Hc. unfold body_ended. destruct (c_updates c); [by apply formed_drained|]. apply formed_put; [done|done|]. by apply settles_other.
Qed.

Lemma formed_body_threw s i c message d now : formed s -> mine s i c -> synthesized c = false -> formed (body_threw s i c message d now).
Proof. intros Hf Hm Hc. apply formed_body_ended; [by apply (formed_same s)|by apply (mine_same s)|done]. Qed.

Lemma formed_hook_ended s i c r d o invalid now : formed s -> mine s i c -> synthesized c = false -> formed (hook_ended s i c r d o invalid now).
Proof.
  intros Hf Hm Hc. unfold hook_ended. destruct o as [|content details isError terminate|message]; [|..|by apply formed_body_threw].
  - destruct invalid; [by apply formed_body_threw|by apply formed_body_ended].
  - assert (Hf' : formed (terminate_if s terminate)) by (by apply (formed_same s)). destruct invalid; [by apply formed_body_threw|by apply formed_body_ended].
Qed.

Lemma mine_member s i c : formed s -> mine s i c -> member c.
Proof. intros Hf (d & Hd & Hs). apply (member_static d); [done|]. by apply (fo_calls _ Hf i). Qed.

Lemma formed_started s i c modelAllowed sameTool now : formed s -> mine s i c -> synthesized c = false -> formed (started s i c modelAllowed sameTool now).
Proof.
  intros Hf Hm Hc. unfold started. destruct (p_argumentsError (c_prep c)) eqn:Ha; [by apply formed_settle|].
  assert (Hf' : formed (terminate_if s (p_terminate (c_prep c)))) by (by apply (formed_same s)).
  destruct (truthy (p_error (c_prep c))); [by apply formed_body_threw|]. destruct (block_reason c modelAllowed sameTool); (apply formed_put; [|done|by apply settles_other]); [done|].
  apply formed_logged; [done|]. constructor; [|done]. exists c. split_and!; [by apply (mine_member s i)|done..].
Qed.

Lemma progress_commit c snapshot now : commit_ok tools c [progress_append c snapshot now].
Proof. right. right. by eexists _, _. Qed.

Lemma formed_updates s i c us e er : formed s -> mine s i c -> settles_only c -> formed (put s i (with_updates c us e er)).
Proof. intros Hf Hm Hc. by apply formed_put. Qed.

Lemma formed_next_update s i c error now : formed s -> mine s i c -> settles_only c -> synthesized c = false -> formed (next_update s i c error now).
Proof.
  intros Hf Hm Hso Hc. unfold next_update. destruct (tail (c_updates c)) as [|[snapshot|] us].
  - set (c' := with_updates c [] false (c_updateError c || error)). assert (Hp : formed (put s i c')) by (by apply formed_put).
    destruct (c_phase c'); try done. apply formed_drained; [done|]. by apply mine_put.
  - apply (formed_request _ _ c); [by apply formed_updates|by apply (mine_put _ _ (with_updates c _ _ _))|apply progress_commit|done].
  - by apply formed_updates.
Qed.

Lemma formed_updated s i c checkpoint now : formed s -> mine s i c -> settles_only c -> formed (updated s i c checkpoint now).
Proof.
  intros Hf Hm Hc. unfold updated. destruct (accepts_updates (c_phase c)) eqn:Ha; [simpl|done].
  assert (Hsy : synthesized c = false) by (apply running_other; [done|by destruct (c_phase c)]).
  destruct (c_updates c) as [|u us]; [|by apply formed_updates]. destruct checkpoint as [snapshot|]; [|by apply formed_updates].
  apply (formed_request _ _ c); [by apply formed_updates|by apply (mine_put _ _ (with_updates c _ _ _))|apply progress_commit|done].
Qed.

Lemma formed_resumed s i p fulfilled now : formed s -> (forall c, s_calls s !! i = Some c -> p <> PSettle -> synthesized c = false) -> formed (resumed tools batch_mode s i p fulfilled now).
Proof.
  intros Hf Hp. unfold resumed. destruct (s_calls s !! i) as [c|] eqn:Hc; [|done]. specialize (Hp c eq_refl). pose proof (lookup_mine _ _ _ Hc) as Hm.
  destruct (fo_calls _ Hf i c Hc) as [_ Hso]. destruct p, fulfilled.
  - apply formed_after_intent; [done|done|by apply Hp].
  - by apply formed_put.
  - destruct (c_phase c) eqn:Hph; try done. destruct announced; [|by apply formed_finished]. apply formed_put; [by apply (formed_same s)|by apply (mine_same s)|done].
  - destruct (p_argumentsError (c_prep c)); (apply formed_put; [|by apply (mine_same s)|done]); [by apply (formed_same s)|done].
  - by apply formed_updates.
  - apply formed_next_update; [done|done|done|by apply Hp].
Qed.

Lemma formed_write s o now : formed s -> formed (step s (EWrite o now)).
Proof.
  intros Hf. cbn [ToolDispatch.step]. unfold write_head. destruct (w_queue (s_writer s)) as [|k rest] eqn:Hq; [done|].
  destruct (write_entries batched (w_fault (s_writer s)) (c_appends k) o) as [[l fault] fulfilled] eqn:Hw.
  destruct (write_entries_prefix batched (w_fault (s_writer s)) (c_appends k) o) as [n Hn]. rewrite Hw in Hn. simpl in Hn. subst l.
  destruct Hf as [H1 H2 H3 H4]. destruct (H2 k) as (c & Hc & Hok & Ho); [rewrite Hq; by left|]. apply formed_resumed.
  - split; simpl; [done|intros x Hx; apply H2; rewrite Hq; by right| |done]. apply Forall_app. split; [done|]. apply Forall_forall. intros x (e & -> & He)%list_elem_of_fmap.
    apply elem_of_lookup_imap in He as (m & a & -> & Ha). exists c, (c_appends k), a, (length (s_log s) + m)%nat, now. split_and!; [done|done| |done].
    apply list_elem_of_lookup_2, elem_of_take in Ha as (m' & Ha & _). by eapply list_elem_of_lookup_2.
  - intros d Hd Hp. destruct (Ho d Hd) as [Hs Hsy]. specialize (Hsy Hp). unfold synthesized in *. unfold static in Hs. by injection Hs as _ -> _ _.
Qed.

Lemma formed_step s e : sound tools batched s -> formed s -> formed (step s e).
Proof.
  intros Hs Hf. destruct e as [o now|i thrown ma st now|i checkpoint now|i thrown now|i o now|i o invalid now|i thrown now| |thrown]; [by apply formed_write|..]; cbn [ToolDispatch.step].
  1-6: destruct (s_calls s !! i) as [c|] eqn:Hc; [|done]; pose proof (lookup_mine _ _ _ Hc) as Hm; destruct (fo_calls _ Hf i c Hc) as [_ Hso].
  - destruct (c_phase c) eqn:Hp; try done. assert (Hsy : synthesized c = false) by (apply running_other; [done|by rewrite Hp]).
    destruct thrown; [|by apply formed_started]. destruct (p_argumentsError (c_prep c)); (apply formed_put; [|by apply (mine_same s)|done]); [by apply (formed_same s)|done].
  - by apply formed_updated.
  - destruct (c_emitting c) eqn:He; [|done]. destruct (so_calls _ _ _ Hs _ _ Hc) as [_ Hr]. apply formed_next_update; [done|done|done|].
    apply running_other; [done|]. unfold requests_ok in Hr. rewrite He in Hr. destruct (c_phase c); naive_solver.
  - destruct (c_phase c) eqn:Hp; try done. assert (Hsy : synthesized c = false) by (apply running_other; [done|by rewrite Hp]).
    destruct o; [apply formed_put; [done|done|by apply settles_other]|by apply formed_body_threw].
  - destruct (c_phase c) eqn:Hp; try done. assert (Hsy : synthesized c = false) by (apply running_other; [done|by rewrite Hp]). by apply formed_hook_ended.
  - destruct (c_phase c) eqn:Hp; try done. destruct thrown; [|destruct (p_argumentsError (c_prep c)); (apply formed_finished; [|by apply (mine_same s)]); [by apply (formed_same s)|done]].
    destruct (p_argumentsError (c_prep c)); (apply formed_put; [|by apply (mine_same s)|done]); [by apply (formed_same s)|done].
  - by destruct Hf.
  - assert (Hgo : forall rs : list (string * tool_res), formed (logged s (map (fun '(id, r) => LAdopt id r) rs))).
    { intros rs. apply formed_logged; [done|]. apply Forall_forall. by intros x ([id r] & -> & _)%list_elem_of_fmap. }
    destruct batch_mode, (results s); try done; destruct (adopted (s_log s)); try done; apply Hgo.
Qed.

Lemma run_batch_formed fault aborted now events : Forall fresh calls -> NoDup (map invocation calls) ->
  formed (run_batch tools batched session batch_mode entry_id fault aborted calls now events).
Proof.
  intros Hf Hn. unfold run_batch. set (s := MkBatch calls (MkWriter [] fault) [] aborted [] false).
  assert (Hs : formed s).
  { split; [|by intros k ?%not_elem_of_nil|done|done]. intros i c Hc. pose proof (Forall_lookup_1 _ _ _ _ Hf Hc) as (Hp & _).
    split; [exists c; split; [by eapply list_elem_of_lookup_2|done]|]. unfold settles_only. by rewrite Hp. }
  assert (Hstart : formed (start_batch tools batch_mode fault aborted calls now)).
  { unfold start_batch. fold s. assert (Hgo : forall l s, formed s -> formed (foldl (fun s i => start_call s i now) s l)).
    { induction l as [|i l IH]; intros s' Hs'; [done|]. apply IH. by apply formed_start_call. }
    destruct batch_mode; [by apply Hgo|by apply formed_start_call..]. }
  pose proof (start_batch_sound tools batched batch_mode fault aborted calls now Hf Hn) as Hso. revert Hstart Hso.
  generalize (start_batch tools batch_mode fault aborted calls now). induction events as [|e events IH]; intros s' H1 H2; [done|].
  apply IH; [by apply formed_step|by apply step_sound].
Qed.

End Form.

(** * What a plan is made of *)

Section Plans.
Context (JSON_stringify : json -> string) (JSON_parse : string -> option json) (a : adapter).
Abbreviation reduce_entry := (reduceSessionEntry JSON_stringify a).
Abbreviation reduce entries := (reduceSession JSON_stringify JSON_parse entries None a).

Lemma entry_operations_cases s e :
  operations (reduce_entry s e) = operations s \/
  (e_type e = OperationIntent /\ exists fs id err t1 t2 sid, e_payload e = Some (JObj fs) /\ assoc_get fs "id" = Some (JStr id) /\
     operations (reduce_entry s e) = assoc_set (operations s) id
       (MkOperation id sid (or_else (assoc_get fs "type") (JStr "custom")) (or_else (assoc_get fs "state") (JStr "running")) (Some (mergeOperationIntent fs)) None err t1 t2)) \/
  (e_type e = OperationSettlement /\ exists id op, field (e_payload e) "id" = Some (JStr id) /\ live op = false /\ operations (reduce_entry s e) = assoc_set (operations s) id op).
Proof.
  unfold reduceSessionEntry. set (next := MkState _ _ _ _ _ _ _ _ _ _ _).
  assert (Hn : operations next = operations s) by done. pose proof (flush_operations next) as Hf. revert Hf.
  rewrite <- Hn. clearbody next. clear Hn. intros Hf. destruct (e_type e); cbn [flushes].
  all: try solve [left; repeat match goal with
    | |- context [add_usage ?x ?u] => unfold add_usage; destruct (is_true u)
    | |- context [match ?x with _ => _ end] => destruct x
    end; simpl; rewrite ?Hf; auto].
  - destruct (e_payload e) as [[| | | | |fs]|]; [left; done..| |by left]. cbn [record_fields field]. destruct (as_string (assoc_get fs "id")) as [id|] eqn:Hid; [|by left].
    right. left. split; [done|]. exists fs, id. destruct (assoc_get fs "id") as [[]|]; simplify_eq/=. by eexists _, _, _, _.
  - destruct (as_string (field (e_payload e) "id")) as [id|] eqn:Hid; [|by left]. right. right. split; [done|]. eexists id, _. split_and!; [|..|done].
    + destruct (field (e_payload e) "id") as [[]|]; by simplify_eq/=.
    + unfold live, state_is. simpl. by destruct (is_true _).
Qed.

(** An operation that is open is the last of its intents. *)
Definition intent_of (e : entry) (op : operation) : Prop :=
  e_type e = OperationIntent /\ exists fs, e_payload e = Some (JObj fs) /\ assoc_get fs "id" = Some (JStr (op_id op)) /\ op_intent op = Some (mergeOperationIntent fs).

Lemma live_origin entries s id op : (forall id op, (id, op) ∈ operations s -> live op = false) ->
  (id, op) ∈ operations (foldl reduce_entry s entries) -> live op = true -> exists e, e ∈ entries /\ intent_of e op.
Proof.
  intros Hs. assert (Hgo : forall es s', (forall id op, (id, op) ∈ operations s' -> live op = true -> exists e, e ∈ entries /\ intent_of e op) -> (forall e, e ∈ es -> e ∈ entries) ->
    (id, op) ∈ operations (foldl reduce_entry s' es) -> live op = true -> exists e, e ∈ entries /\ intent_of e op).
  { induction es as [|e es IH]; intros s' Hs' Hsub; [apply Hs'|]. simpl. apply IH; [|intros x Hx; apply Hsub; by right].
    intros id' op' Hin Hl. destruct (entry_operations_cases s' e) as [Heq|[(Ht & fs & i & err & t1 & t2 & sid & Hp & Hid & Heq)|(Ht & i & op0 & Hid & Hl0 & Heq)]]; rewrite Heq in Hin.
    - by apply (Hs' id').
    - apply assoc_set_in in Hin as [[= -> ->]|Hin]; [|by apply (Hs' id')]. exists e. split; [apply Hsub; by left|]. split; [done|]. by exists fs.
    - apply assoc_set_in in Hin as [[= -> ->]|Hin]; [congruence|by apply (Hs' id')]. }
  apply Hgo; [|done]. intros id' op' Hin Hl. rewrite (Hs id' op' Hin) in Hl. done.
Qed.

Lemma reduced_operations entries : exists s, operations s = [] /\ operations (reduce entries) = operations (foldl reduce_entry s entries).
Proof.
  exists (createInitialSessionState (default "default"%string (truthy (e_sessionId <$> head entries))) a). split; [done|].
  unfold reduceSession, finish_session. destruct (reduceAssistantFrames _ _); simpl; by rewrite flush_operations.
Qed.

Lemma marked_interrupted_live durable op op' b : marked durable op op' b -> state_is op' "interrupted" = true -> live op = true /\ op_id op' = op_id op /\ op_intent op' = op_intent op.
Proof.
  unfold live. destruct 1 as [r H|now H Hs|H Hs]; [rewrite state_is_with; by destruct (tr_isError r)| |].
  - intros _. by rewrite Hs.
  - intros ->. by rewrite orb_true_r.
Qed.

(** A plan comes from an intent of the journal. *)
Lemma plan_origin entries clock tools plans p :
  planInterruptedRecovery JSON_stringify (rc_state (detectAndMarkInterruptedOperations (reduce entries) clock)) tools = Some plans -> p ∈ plans ->
  exists e op, e ∈ entries /\ intent_of e op /\ p = plan_one JSON_stringify tools op (default (op_id op) (invocation_of op)) /\
    forall r, r ∈ entries -> e_type r = ToolExecution -> e_id r <> EmptyString -> invocation_of op <> Some (e_id r).
Proof.
  intros H Hp. destruct (detect_marked (reduce entries) clock (reduce_operations_nodup _ _ _ entries)) as (ops' & ids' & E & Hm).
  rewrite E in H. cbn [rc_state] in H. apply (plan_loop_spec JSON_stringify JSON_parse) in H as (new & -> & _ & _ & Hnew). destruct (Hnew p Hp) as (op' & Hin & Hs & Hty & ->).
  apply list_elem_of_fmap_1 in Hin as ([id op0] & -> & Hin). cbn [snd] in *. destruct (marked_all_spec _ _ _ _ Hm) as (_ & I2 & _). destruct (I2 id op0 Hin) as (op & b & Hop & Hmk).
  destruct (marked_interrupted_live _ _ _ _ Hmk Hs) as (Hl & Hid & Hint). destruct (reduced_operations entries) as (s & Hs0 & Heq). rewrite Heq in Hop.
  destruct (live_origin entries s id op) as (e & He & Ho); [intros ? ? Hx; rewrite Hs0 in Hx; by apply not_elem_of_nil in Hx|done|done|]. exists e, op. split_and!; [done|done| |].
  - unfold plan_one, invocation_of. by rewrite Hid, Hint.
  - intros r Hr Hrt Hrid Hi. pose proof (marked_open _ _ _ _ Hmk) as Hopen. unfold settling_result, live in Hopen.
    assert (Hi' : invocation_of op0 = Some (e_id r)) by (unfold invocation_of in *; by rewrite Hint). rewrite Hty, Hs, !orb_true_r, Hi' in Hopen. simpl in Hopen.
    destruct (tool_entry_durable JSON_stringify JSON_parse a entries r Hr Hrt Hrid) as [x Hx]. congruence.
Qed.
(** Entries of other operations leave one alone. *)
Lemma keep_operation entries s id : (forall e, e ∈ entries -> e_type e = OperationIntent \/ e_type e = OperationSettlement -> field (e_payload e) "id" <> Some (JStr id)) ->
  assoc_get (operations (foldl reduce_entry s entries)) id = assoc_get (operations s) id.
Proof.
  revert s. induction entries as [|e entries IH]; intros s He; [done|]. simpl. rewrite IH by (intros x Hx; apply He; by right).
  assert (Hn : forall i, (e_type e = OperationIntent \/ e_type e = OperationSettlement) -> field (e_payload e) "id" = Some (JStr i) -> i <> id).
  { intros i Ht Hi ->. apply (He e); [by left|done|done]. }
  destruct (entry_operations_cases s e) as [->|[(Ht & fs & i & err & t1 & t2 & sid & Hp & Hid & ->)|(Ht & i & op0 & Hid & _ & ->)]]; [done| |].
  - apply assoc_get_set_ne. apply Hn; [by left|]. by rewrite Hp.
  - apply assoc_get_set_ne. apply Hn; [by right|done].
Qed.

Lemma durable_origin l id r : assoc_get (durableToolResults l) id = Some r -> exists r', ToolResultMessage r' ∈ l /\ tr_id r' = id.
Proof.
  unfold durableToolResults. assert (Hgo : forall rs m, assoc_get (foldl (fun m r => if bool_decide (tr_id r = EmptyString) then m else assoc_set m (tr_id r) r) m rs) id = Some r ->
    is_Some (assoc_get m id) \/ exists r', r' ∈ rs /\ tr_id r' = id).
  { induction rs as [|x rs IH]; intros m H; simpl in H; [left; by rewrite H|]. destruct (IH _ H) as [Hm|(r' & Hr & Hid)]; [|right; exists r'; split; [by right|done]].
    case_bool_decide; [by left|]. destruct (decide (tr_id x = id)) as [Heq|Hne]; [right; exists x; split; [by left|done]|left]. by rewrite assoc_get_set_ne in Hm. }
  intros H. destruct (Hgo _ _ H) as [[x Hx]|(r' & Hr & Hid)]; [done|]. exists r'. split; [|done]. unfold tool_results in Hr. apply list_elem_of_omap in Hr as (m & Hm & Heq). by destruct m; simplify_eq.
Qed.

(** A result that is durable is an entry of the journal. *)
Lemma durable_entry entries id r : assoc_get (durableToolResults (messages (reduce entries))) id = Some r -> exists e, e ∈ entries /\ e_type e = ToolExecution /\ e_id e = id.
Proof.
  intros (r' & Hin & <-)%durable_origin. rewrite reduced_transcript_perm in Hin. apply elem_of_app in Hin as [Hin|Hin].
  - apply list_elem_of_omap in Hin as (e & He & Hm). exists e. split; [done|]. unfold messageFromSessionEntry in Hm. destruct (e_type e); try done; simplify_eq; [done|].
    unfold custom_message in Hm. by destruct (_ || _).
  - unfold recovered in Hin. destruct (reduceAssistantFrames _ _); [by apply list_elem_of_singleton in Hin|by apply not_elem_of_nil in Hin].
Qed.

Lemma marked_all_forward durable ops ops' ids id op : marked_all durable ops ops' ids -> (id, op) ∈ ops -> exists op' b, (id, op') ∈ ops' /\ marked durable op op' b.
Proof.
  induction 1 as [|id' op1 op2 b ops ops' ids Hm H IH]; intros Hin; [by apply not_elem_of_nil in Hin|]. apply elem_of_cons in Hin as [[= -> ->]|Hin].
  - exists op2, b. split; [by left|done].
  - destruct (IH Hin) as (op' & b' & Hin' & Hm'). exists op', b'. split; [by right|done].
Qed.

Lemma plan_loop_complete tools ops seen plans result op : plan_loop JSON_stringify tools ops seen plans = Some result -> op ∈ ops -> state_is op "interrupted" = true ->
  is_str (Some (op_type op)) "tool_call" = true -> plan_one JSON_stringify tools op (default (op_id op) (invocation_of op)) ∈ result.
Proof.
  revert seen plans. induction ops as [|x ops IH]; intros seen plans H Hin Hs Ht; [by apply not_elem_of_nil in Hin|]. simpl in H. apply elem_of_cons in Hin as [<-|Hin].
  - rewrite Hs, Ht in H. simpl in H. destruct (_ || _); [done|]. destruct (plan_loop_spec JSON_stringify JSON_parse _ _ _ _ _ H) as (new & -> & _). apply elem_of_app. left. apply elem_of_app. right. by left.
  - destruct (negb _ || negb _); [by apply (IH _ _ H)|]. destruct (_ || _); [done|]. by apply (IH _ _ H).
Qed.

(** An operation that runs and has no result is in the plan. *)
Lemma running_operation_planned entries clock tools plans op inv :
  planInterruptedRecovery JSON_stringify (rc_state (detectAndMarkInterruptedOperations (reduce entries) clock)) tools = Some plans ->
  assoc_get (operations (reduce entries)) (op_id op) = Some op -> state_is op "running" = true -> is_str (Some (op_type op)) "tool_call" = true -> invocation_of op = Some inv ->
  (forall e, e ∈ entries -> e_type e = ToolExecution -> e_id e <> inv) -> plan_one JSON_stringify tools op inv ∈ plans.
Proof.
  intros H Hop Hs Ht Hinv Hno. destruct (detect_marked (reduce entries) clock (reduce_operations_nodup _ _ _ entries)) as (ops' & ids' & E & Hm).
  rewrite E in H. cbn [rc_state] in H. apply assoc_get_in in Hop. destruct (marked_all_forward _ _ _ _ _ _ Hm Hop) as (op' & b & Hin & Hmk).
  assert (Hr : settling_result (durableToolResults (messages (reduce entries))) op = None).
  { unfold settling_result. rewrite Ht, Hinv. unfold live. rewrite Hs. simpl. destruct (assoc_get _ inv) as [r|] eqn:Hd; [|done]. apply durable_entry in Hd as (e & He & Het & Hid). by destruct (Hno e He Het). }
  destruct Hmk as [r H'|now _ _|_ Hq]; [congruence| |by rewrite Hs in Hq].
  assert (Hin' : with_state op "interrupted" (op_settlement op) (Some interrupted_error) now ∈ (snd <$> ops')) by (apply list_elem_of_fmap; by exists (op_id op, with_state op "interrupted" (op_settlement op) (Some interrupted_error) now)).
  pose proof (plan_loop_complete _ _ _ _ _ _ H Hin') as Hp. rewrite state_is_with, bool_decide_eq_true_2 in Hp by done. specialize (Hp eq_refl Ht).
  change (invocation_of (with_state _ _ _ _ _)) with (invocation_of op) in Hp. by rewrite Hinv in Hp.
Qed.

End Plans.

(** * Plans of the calls of a batch *)

Definition entries_of (log : list log_entry) : list entry := omap (fun x => match x with LEntry e => Some e | _ => None end) log.

(** An entry that has nothing to do with an invocation. *)
Definition quiet (inv : string) (e : entry) : Prop :=
  (e_type e = OperationIntent -> names inv (e_payload e) = false /\ names inv (field (e_payload e) "intent") = false /\ is_str (field (e_payload e) "id") inv = false) /\
  (e_type e = ToolExecution -> e_id e <> inv).

Lemma merge_field fs k i : as_string (field (Some (mergeOperationIntent fs)) k) = Some i -> as_string (assoc_get fs k) = Some i \/ as_string (field (assoc_get fs "intent") k) = Some i.
Proof.
  unfold mergeOperationIntent.
  assert (H : forall base, as_string (assoc_get (assoc_spread base (opt_field "replay" (assoc_get fs "replay") ++ opt_field "invocationId" (assoc_get fs "invocationId"))) k) = Some i ->
    as_string (assoc_get fs k) = Some i \/ as_string (assoc_get base k) = Some i).
  { intros base. unfold assoc_spread, opt_field. destruct (assoc_get fs "replay") eqn:E1, (assoc_get fs "invocationId") eqn:E2; simpl.
    - destruct (decide ("invocationId"%string = k)) as [<-|H2]; [rewrite assoc_get_set_eq, E2; auto|rewrite assoc_get_set_ne by done].
      destruct (decide ("replay"%string = k)) as [<-|H1]; [rewrite assoc_get_set_eq, E1; auto|rewrite assoc_get_set_ne by done; auto].
    - destruct (decide ("replay"%string = k)) as [<-|H1]; [rewrite assoc_get_set_eq, E1; auto|rewrite assoc_get_set_ne by done; auto].
    - destruct (decide ("invocationId"%string = k)) as [<-|H2]; [rewrite assoc_get_set_eq, E2; auto|rewrite assoc_get_set_ne by done; auto].
    - auto. }
  destruct (assoc_get fs "intent") as [[| | | | |base]|]; simpl; try done; [apply H|]. intros Hk. apply H in Hk. naive_solver.
Qed.

Lemma quiet_intent inv e op : quiet inv e -> intent_of e op -> default (op_id op) (invocation_of op) <> inv.
Proof.
  intros [Hq _] (Ht & fs & Hp & Hid & Hint) Heq. destruct (Hq Ht) as (H1 & H2 & H3). unfold names, is_str in *. rewrite Hp in *. simpl in *. rewrite Hid in H3.
  unfold invocation_of in Heq. rewrite Hint in Heq.
  assert (Hf : as_string (assoc_get (default [] (record_fields (Some (mergeOperationIntent fs)))) "invocationId") = as_string (field (Some (mergeOperationIntent fs)) "invocationId")).
  { by destruct (mergeOperationIntent fs). }
  rewrite Hf in Heq. destruct (as_string (field (Some (mergeOperationIntent fs)) "invocationId")) as [i|] eqn:Ei; simpl in Heq.
  - apply merge_field in Ei. subst i. destruct Ei as [Ei|Ei]; [by rewrite Ei, bool_decide_eq_true_2 in H1|by rewrite Ei, bool_decide_eq_true_2 in H2].
  - rewrite Heq in H3. simpl in H3. by rewrite bool_decide_eq_true_2 in H3.
Qed.

Section OwnIntent.
Variable tools : registry.

(** The operation made of the intent of a call. *)
Lemma own_intent session entry_id now n ab c op : intent_of (entry_of session entry_id now n (intent_append tools ab c)) op ->
  op_id op = operation_id c /\ invocation_of op = Some (invocation c) /\
  assoc_get (default [] (record_fields (op_intent op))) "replay" = Some (replay_policy tools ab c).
Proof.
  intros (_ & fs & [= <-] & Hid & Hint). simpl in Hid. injection Hid as Hid. split; [done|]. unfold invocation_of. rewrite Hint. unfold mergeOperationIntent. simpl.
  split; [by rewrite assoc_get_set_eq|]. rewrite assoc_get_set_ne by done. by rewrite assoc_get_set_eq.
Qed.

Lemma own_intent_plan JSON_stringify registry' session entry_id now n ab c op : intent_of (entry_of session entry_id now n (intent_append tools ab c)) op ->
  let p := plan_one JSON_stringify registry' op (default (op_id op) (invocation_of op)) in
  pl_invocationId p = invocation c /\ pl_operationId p = operation_id c /\ pl_replay_safe p = is_str (Some (replay_policy tools ab c)) "safe".
Proof. intros (Hid & Hinv & Hr)%own_intent. simpl. by rewrite Hid, Hinv, Hr. Qed.
End OwnIntent.

Section Batch.
Variable tools : registry.
Variable batched : bool.
Variable session : string.
Variable batch_mode : mode.
Variable entry_id : nat -> string.
Variable calls : list call_state.
Implicit Types s : state.

Abbreviation formed := (formed tools session entry_id calls).
Abbreviation sound := (sound tools batched).

Lemma in_entries_of e log : e ∈ entries_of log <-> LEntry e ∈ log.
Proof. unfold entries_of. rewrite list_elem_of_omap. split; [intros ([] & Hx & Heq); by simplify_eq|intros Hx; by exists (LEntry e)]. Qed.

(** The shape of an entry of each type. *)
Lemma log_entry_shape s e : formed s -> LEntry e ∈ s_log s -> exists c n now, member calls c /\
  match e_type e with
  | OperationIntent => exists ab, e = entry_of session entry_id now n (intent_append tools ab c)
  | OperationSettlement => field (e_payload e) "id" = Some (JStr (operation_id c)) /\ names (invocation c) (e_payload e) = true
  | ToolExecution => e_id e = invocation c /\ names (invocation c) (e_payload e) = true
  | _ => True
  end.
Proof.
  intros Hf He. pose proof (fo_log _ _ _ _ _ Hf) as Hl. rewrite Forall_forall in Hl. destruct (Hl _ He) as (c & l & x & n & now & Hc & Hok & Hx & ->). exists c, n, now. split; [done|].
  destruct Hok as [[ab ->]|[(r & error & ->)|(snapshot & t & ->)]]; unfold settle_appends in *; repeat (apply elem_of_cons in Hx as [-> |Hx]); try by apply not_elem_of_nil in Hx.
  - by exists ab.
  - split; [done|]. apply names_self. by destruct error.
  - split; [done|]. apply names_self. unfold index_field. by destruct (rs_isError r), (rs_terminate r), (rs_durationMs r), (rs_details r), (c_sourceIndex c).
  - done.
Qed.

Lemma trace_intent c l x : trace_ok tools batched c l -> SRun ∈ l -> needs_intent c = true -> SIntent x ∈ l -> x = Some (declared tools c).
Proof.
  intros (ran & b & tl & Hb & -> & Htl)%trace_shape Hrun Hn Hx. pose proof (end_no_run _ _ Htl) as Htl'. apply elem_of_app in Hrun as [Hrun|?]; [|done].
  destruct Hb as [-> |(policy & n & -> & Hp)]; [by apply not_elem_of_nil in Hrun|]. unfold intent_part in *. rewrite Hn in *.
  assert (ran = true) as -> by (destruct ran; [done|]; apply elem_of_app in Hrun as [?%list_elem_of_singleton|[? _]%elem_of_replicate]; done).
  rewrite <- Hp by done. assert (H1 : SIntent x ∉ tl).
  { destruct Htl as [-> |[[_ ->]|[content ->]]]; intros H; repeat (apply elem_of_cons in H as [|H]; [done|]); by apply not_elem_of_nil in H. }
  apply elem_of_app in Hx as [Hx|?]; [|done]. apply elem_of_app in Hx as [Hx%list_elem_of_singleton|Hx]; [by injection Hx as ->|].
  apply elem_of_app in Hx as [?%list_elem_of_singleton|[? _]%elem_of_replicate]; done.
Qed.

Lemma in_view inv log x y : x ∈ log -> symbol_of inv x = Some y -> y ∈ view inv log.
Proof. intros Hx Hy. apply list_elem_of_omap. by exists x. Qed.

Lemma run_in_view inv log : LExecute inv ∈ log -> SRun ∈ view inv log.
Proof. intros H. apply (in_view _ _ _ _ H). simpl. by rewrite bool_decide_eq_true_2. Qed.

(** What the journal says of the policy of a call that has run. *)
Lemma executed_policy s i c ab c' n now : sound s -> s_calls s !! i = Some c -> needs_intent c = true -> LExecute (invocation c) ∈ s_log s ->
  LEntry (entry_of session entry_id now n (intent_append tools ab c')) ∈ s_log s -> invocation c' = invocation c -> replay_policy tools ab c' = declared tools c.
Proof.
  intros Hs Hc Hn Hrun He Heq. destruct (so_calls _ _ _ Hs i c Hc) as [Ht _].
  assert (Hin : SIntent (Some (replay_policy tools ab c')) ∈ view (invocation c) (s_log s)).
  { apply (in_view _ _ _ _ He). rewrite <- Heq. apply intent_symbol. }
  apply run_in_view in Hrun. pose proof (trace_intent c _ _ Ht Hrun Hn Hin) as H. by injection H as ->.
Qed.

(** ** A call that ran and has no result *)

Lemma plain_operation c : needs_intent c = true -> operation_id c = "op_tool_" +:+ invocation c.
Proof. unfold needs_intent, operation_id, invocation. by destruct (c_kind c), (p_argumentsError (c_prep c)). Qed.

Lemma operation_invocation c c' : needs_intent c = true -> needs_intent c' = true -> operation_id c' = operation_id c -> invocation c' = invocation c.
Proof. intros H1 H2. rewrite !plain_operation by done. intros [= H]. exact H. Qed.

Lemma member_intent c : Forall (fun c => needs_intent c = true) calls -> member calls c -> needs_intent c = true.
Proof. intros Ha (d & Hd & Hs). rewrite Forall_forall in Ha. destruct (static_facts tools _ _ Hs) as (_ & <- & _). by apply Ha. Qed.

Lemma names_unique inv inv' p : names inv p = true -> names inv' p = true -> inv = inv'.
Proof. unfold names, is_str. intros H1%bool_decide_eq_true H2%bool_decide_eq_true. congruence. Qed.

(** The trace of a call that ran and has no result. *)
Lemma trace_unsettled c l : batched = true -> trace_ok tools batched c l -> SRun ∈ l -> needs_intent c = true -> (forall x, SResult x ∉ l) ->
  exists x n, l = SIntent x :: SRun :: replicate n SProgress.
Proof.
  intros Hbat (ran & b & tl & Hb & -> & Htl)%trace_shape Hrun Hn Hno. pose proof (end_no_run _ _ Htl) as Htl'. apply elem_of_app in Hrun as [Hrun|?]; [|done].
  assert (tl = []) as ->. { destruct Htl as [?|[[? _]|[x ->]]]; [done|congruence|]. destruct (Hno x). apply elem_of_app. right. right. by left. }
  destruct Hb as [-> |(policy & n & -> & Hp)]; [by apply not_elem_of_nil in Hrun|]. unfold intent_part in *. rewrite Hn in *. destruct ran; [exists (Some policy), n; by rewrite app_nil_r|].
  apply elem_of_app in Hrun as [?%list_elem_of_singleton|[? _]%elem_of_replicate]; done.
Qed.

Lemma view_split inv log y : y ∈ view inv log -> exists l1 x l2, log = l1 ++ x :: l2 /\ symbol_of inv x = Some y /\ view inv log = view inv l1 ++ y :: view inv l2.
Proof.
  intros (x & Hx & Hy)%list_elem_of_omap. apply list_elem_of_split in Hx as (l1 & l2 & ->). exists l1, x, l2. split_and!; [done|done|]. rewrite view_app. unfold view. simpl. by rewrite Hy.
Qed.

Lemma entries_of_split l1 e l2 : entries_of (l1 ++ LEntry e :: l2) = entries_of l1 ++ e :: entries_of l2.
Proof. unfold entries_of. by rewrite omap_app. Qed.

(** The last entry of the operation of the call is its intent. *)
Lemma unsettled_split s i c : batched = true -> Forall (fun c => needs_intent c = true) calls -> sound s -> formed s -> s_calls s !! i = Some c -> LExecute (invocation c) ∈ s_log s ->
  (forall e, e ∈ entries_of (s_log s) -> e_type e = ToolExecution -> e_id e <> invocation c) ->
  exists l1 n now ab c' l2, entries_of (s_log s) = l1 ++ entry_of session entry_id now n (intent_append tools ab c') :: l2 /\ member calls c' /\ invocation c' = invocation c /\
    forall e, e ∈ l2 -> e_type e = OperationIntent \/ e_type e = OperationSettlement -> field (e_payload e) "id" <> Some (JStr (operation_id c')).
Proof.
  intros Hbat Hall Hs Hf Hc Hrun Hno. destruct (so_calls _ _ _ Hs i c Hc) as [Ht _]. destruct (fo_calls _ _ _ _ _ Hf i c Hc) as [Hmem _]. pose proof (member_intent _ Hall Hmem) as Hn.
  assert (Hno' : forall x, SResult x ∉ view (invocation c) (s_log s)).
  { intros x (y & Hy & Hsy)%list_elem_of_omap. destruct y as [e| |]; simpl in Hsy; [|by case_bool_decide|done]. destruct (log_entry_shape _ _ Hf Hy) as (d & n & now & _ & Hsh).
    unfold append_symbol in Hsy. destruct (names _ _) eqn:Hnm; [|done]. destruct (e_type e) eqn:Het; try done. destruct Hsh as [Hid Hnm']. apply in_entries_of in Hy. apply (Hno e Hy Het).
    rewrite Hid. by apply (names_unique _ _ (e_payload e)). }
  destruct (trace_unsettled c _ Hbat Ht (run_in_view _ _ Hrun) Hn Hno') as (x & n & Hv).
  destruct (view_split (invocation c) (s_log s) (SIntent x)) as (l1 & y & l2 & Hlog & Hy & Hv'); [rewrite Hv; by left|]. rewrite Hv in Hv'. symmetry in Hv'.
  apply (split_once _ _ _ []) in Hv' as [Hv1 Hv2]; [|apply not_elem_of_nil|intros [?|[? _]%elem_of_replicate]%elem_of_cons; done].
  destruct y as [e| |]; simpl in Hy; [|by case_bool_decide|done]. assert (He : LEntry e ∈ s_log s) by (rewrite Hlog; apply elem_of_app; right; by left).
  destruct (log_entry_shape _ _ Hf He) as (c' & m & now & Hc' & Hsh). unfold append_symbol in Hy. destruct (names _ _) eqn:Hnm; [|done]. destruct (e_type e) eqn:Het; try done. destruct Hsh as [ab ->].
  assert (Hinv : invocation c' = invocation c).
  { apply (names_unique _ _ (Some (a_payload (intent_append tools ab c')))); [|done]. by apply names_self. }
  exists (entries_of l1), m, now, ab, c', (entries_of l2). split_and!; [by rewrite Hlog, entries_of_split|done|done|].
  intros e He2 Hor Hid. apply in_entries_of in He2. assert (He2' : LEntry e ∈ s_log s) by (rewrite Hlog; apply elem_of_app; right; by right).
  destruct (log_entry_shape _ _ Hf He2') as (d & m' & now' & Hd & Hsh).
  assert (Hsame : operation_id d = operation_id c' -> invocation d = invocation c) by (intros Ho; rewrite <- Hinv; apply operation_invocation; [by apply member_intent|by apply member_intent|done]).
  assert (Hbad : forall z, symbol_of (invocation c) (LEntry e) = Some z -> z = SIntent (match z with SIntent y => y | _ => None end) \/ z = SSettled -> False).
  { intros z Hz Hor'. pose proof (in_view _ _ _ _ He2 Hz) as Hin. rewrite Hv2 in Hin. apply elem_of_cons in Hin as [->|[-> _]%elem_of_replicate]; naive_solver. }
  unfold symbol_of, append_symbol in Hbad. destruct Hor as [Het2|Het2]; rewrite Het2 in *.
  - destruct Hsh as [ab2 ->]. simpl in Hid. injection Hid as Hid. rewrite <- (Hsame Hid) in Hbad. unfold names, is_str in Hbad. simpl in Hbad. rewrite bool_decide_eq_true_2 in Hbad by done.
    apply (Hbad _ eq_refl). by left.
  - destruct Hsh as [Hid' Hnm']. rewrite Hid in Hid'. injection Hid' as Hid'. rewrite <- (Hsame (eq_sym Hid')), Hnm' in Hbad. apply (Hbad _ eq_refl). by right.
Qed.

(** ** The plan of the crashed batch *)

Section Crash.
Context (JSON_stringify : json -> string) (JSON_parse : string -> option json) (a : adapter).
Variable before : list entry.
Variables (clock : nat -> Z) (registry' : option registry) (plans : list plan).
Abbreviation reduce_entry := (reduceSessionEntry JSON_stringify a).
Abbreviation reduce entries := (reduceSession JSON_stringify JSON_parse entries None a).

(** The journal before the batch has nothing of its calls. *)
Definition new_calls : Prop := forall c e, c ∈ calls -> e ∈ before -> quiet (invocation c) e.

Definition planned s : Prop :=
  planInterruptedRecovery JSON_stringify (rc_state (detectAndMarkInterruptedOperations (reduce (before ++ entries_of (s_log s))) clock)) registry' = Some plans.

Lemma member_quiet c e : new_calls -> member calls c -> e ∈ before -> quiet (invocation c) e.
Proof. intros Hq (d & Hd & Hs) He. destruct (static_facts tools _ _ Hs) as (<- & _). by apply Hq. Qed.

(** The intent a plan comes from. *)
Lemma plan_intent s c p : formed s -> new_calls -> planned s -> member calls c -> p ∈ plans -> pl_invocationId p = invocation c ->
  exists c' n now ab op, member calls c' /\ LEntry (entry_of session entry_id now n (intent_append tools ab c')) ∈ s_log s /\ invocation c' = invocation c /\ invocation_of op = Some (invocation c) /\
    pl_replay_safe p = is_str (Some (replay_policy tools ab c')) "safe" /\
    forall r, r ∈ before ++ entries_of (s_log s) -> e_type r = ToolExecution -> e_id r <> EmptyString -> invocation_of op <> Some (e_id r).
Proof.
  intros Hf Hq Hpl Hc Hp Hinv. destruct (plan_origin _ _ _ _ _ _ _ _ Hpl Hp) as (e & op & He & Ho & -> & Hno). apply elem_of_app in He as [He|He].
  - by destruct (quiet_intent _ _ _ (member_quiet c e Hq Hc He) Ho).
  - apply in_entries_of in He. destruct (log_entry_shape _ _ Hf He) as (c' & n & now & Hc' & Hsh). rewrite (proj1 Ho) in Hsh. destruct Hsh as [ab ->].
    pose proof (own_intent _ _ _ _ _ _ _ _ Ho) as (_ & Hi & _). destruct (own_intent_plan _ JSON_stringify registry' _ _ _ _ _ _ _ Ho) as (Hpi & _ & Hsafe).
    rewrite Hpi in Hinv. exists c', n, now, ab, op. split_and!; [done|done|done|by rewrite Hi, Hinv|done|done].
Qed.

Lemma planned_policy s i c p : sound s -> formed s -> new_calls -> planned s -> s_calls s !! i = Some c -> needs_intent c = true -> LExecute (invocation c) ∈ s_log s -> p ∈ plans ->
  pl_invocationId p = invocation c -> pl_replay_safe p = is_str (Some (declared tools c)) "safe".
Proof.
  intros Hs Hf Hq Hpl Hc Hn Hrun Hp Hinv. destruct (fo_calls _ _ _ _ _ Hf i c Hc) as [Hmem _].
  destruct (plan_intent s c p Hf Hq Hpl Hmem Hp Hinv) as (c' & n & now & ab & op & _ & He & Hi & _ & -> & _). by rewrite (executed_policy s i c ab c' n now).
Qed.

Lemma settled_not_planned s i c p e : formed s -> new_calls -> planned s -> s_calls s !! i = Some c -> invocation c <> EmptyString -> p ∈ plans ->
  e ∈ entries_of (s_log s) -> e_type e = ToolExecution -> e_id e = invocation c -> pl_invocationId p <> invocation c.
Proof.
  intros Hf Hq Hpl Hc Hne Hp He Het Hid Hinv. destruct (fo_calls _ _ _ _ _ Hf i c Hc) as [Hmem _].
  destruct (plan_intent s c p Hf Hq Hpl Hmem Hp Hinv) as (c' & n & now & ab & op & _ & _ & _ & Hop & _ & Hno). apply (Hno e); [apply elem_of_app; by right|done|congruence|congruence].
Qed.

Lemma own_operation (s0 : session_state) now n ab c : exists op, assoc_get (operations (reduce_entry s0 (entry_of session entry_id now n (intent_append tools ab c)))) (operation_id c) = Some op /\
  op_id op = operation_id c /\ state_is op "running" = true /\ is_str (Some (op_type op)) "tool_call" = true /\ intent_of (entry_of session entry_id now n (intent_append tools ab c)) op.
Proof. unfold reduceSessionEntry. simpl. rewrite assoc_get_set_eq. eexists. split; [done|]. split_and!; try done. split; [done|]. by eexists. Qed.

Lemma unsettled_planned s i c : batched = true -> Forall (fun c => needs_intent c = true) calls -> sound s -> formed s -> new_calls -> planned s -> s_calls s !! i = Some c ->
  LExecute (invocation c) ∈ s_log s -> (forall e, e ∈ entries_of (s_log s) -> e_type e = ToolExecution -> e_id e <> invocation c) ->
  exists p, p ∈ plans /\ pl_invocationId p = invocation c /\ pl_operationId p = operation_id c.
Proof.
  intros Hbat Hall Hs Hf Hq Hpl Hc Hrun Hno. destruct (unsettled_split s i c Hbat Hall Hs Hf Hc Hrun Hno) as (l1 & n & now & ab & c' & l2 & Hlog & Hc' & Hinv & Hl2).
  destruct (reduced_operations JSON_stringify JSON_parse a (before ++ entries_of (s_log s))) as (s0 & _ & Hops).
  destruct (own_operation (foldl reduce_entry (foldl reduce_entry s0 before) l1) now n ab c') as (op & Hop & Hid & Hst & Hty & Hint).
  destruct (own_intent _ _ _ _ _ _ _ _ Hint) as (_ & Hinvo & _). destruct (fo_calls _ _ _ _ _ Hf i c Hc) as [Hmem _].
  exists (plan_one JSON_stringify registry' op (invocation c)). split_and!; [|done|].
  - apply (running_operation_planned JSON_stringify JSON_parse a _ _ _ _ _ _ Hpl); [|done|done|by rewrite Hinvo, Hinv|].
    + rewrite Hops, Hlog, !foldl_app. cbn [foldl]. rewrite Hid, (keep_operation JSON_stringify a l2); [done|]. apply Hl2.
    + intros e [He|He]%elem_of_app Het; [|by apply Hno]. by apply (member_quiet c e).
  - simpl. rewrite Hid, !plain_operation by (by apply member_intent). by rewrite Hinv.
Qed.
(** A call of a recovery that runs its tool was planned as a replay. *)
Lemma recovered_runs tools2 batched2 mode2 entry_id2 fault2 aborted2 calls2 now2 events2 inv :
  Forall fresh calls2 -> NoDup (map invocation calls2) ->
  Forall (fun c => exists prepare p reserved now, p ∈ plans /\ c = recovery_call JSON_stringify tools2 prepare p reserved now) calls2 ->
  LExecute inv ∈ s_log (run_batch tools2 batched2 session mode2 entry_id2 fault2 aborted2 calls2 now2 events2) ->
  exists p, p ∈ plans /\ pl_invocationId p = inv /\ pl_replay_safe p = true.
Proof.
  intros Hf Hn Hall Hrun. pose proof (run_batch_formed tools2 batched2 session mode2 entry_id2 calls2 fault2 aborted2 now2 events2 Hf Hn) as Hform.
  pose proof (fo_log _ _ _ _ _ Hform) as Hl. rewrite Forall_forall in Hl. destruct (Hl _ Hrun) as (c & (d & Hd & Hs) & Hsy & Ha & Hi).
  rewrite Forall_forall in Hall. destruct (Hall d Hd) as (prepare & p & reserved & now & Hp & ->). destruct (static_facts tools2 _ _ Hs) as (Hinv & _).
  exists p. unfold recovery_call, current_plan in *. unfold static in Hs. destruct (refused JSON_stringify tools2 p) eqn:Hr; cbn [pl_replays] in Hs, Hinv.
  - unfold pl_replays in Hs. simpl in Hs. injection Hs as _ Hk _ _. unfold synthesized in Hsy. by rewrite <- Hk in Hsy.
  - destruct (pl_replays p) eqn:Hrep; [|injection Hs as _ Hk _ _; unfold synthesized in Hsy; by rewrite <- Hk in Hsy].
    unfold refused in Hr. rewrite Hrep in Hr. injection Hs as Hprep _ _ _. rewrite <- Hprep in Ha. split_and!; [done| |by destruct (pl_replay_safe p)].
    rewrite <- Hi, <- Hinv. unfold invocation. simpl. by rewrite Ha.
Qed.

(** C9: a tool that has run is neither lost nor run again by accident.  A batch is cut off at any
    point, the session is read back and the recovery is planned: a call that has run and whose
    result is in the journal has no plan; one that has run without a result has one, of the
    same operation, when the journal writes commits whole; and a batch made of the plans
    runs the tool of a call that has run only if the tool was registered as safe to replay. *)
Theorem executed_tools_survive_a_crash fault aborted now events
    (Hfresh : Forall fresh calls) (Hids : NoDup (map invocation calls)) (Hintents : Forall (fun c => needs_intent c = true) calls) (Hnew : new_calls) :
  let s := run_batch tools batched session batch_mode entry_id fault aborted calls now events in
  planned s ->
  forall i c, s_calls s !! i = Some c -> invocation c <> EmptyString -> LExecute (invocation c) ∈ s_log s ->
  (forall e p, e ∈ entries_of (s_log s) -> e_type e = ToolExecution -> e_id e = invocation c -> p ∈ plans -> pl_invocationId p <> invocation c) /\
  (batched = true -> (forall e, e ∈ entries_of (s_log s) -> e_type e = ToolExecution -> e_id e <> invocation c) ->
     exists p, p ∈ plans /\ pl_invocationId p = invocation c /\ pl_operationId p = operation_id c) /\
  (forall tools2 batched2 mode2 entry_id2 fault2 aborted2 calls2 now2 events2,
     Forall fresh calls2 -> NoDup (map invocation calls2) ->
     Forall (fun c => exists prepare p reserved now, p ∈ plans /\ c = recovery_call JSON_stringify tools2 prepare p reserved now) calls2 ->
     LExecute (invocation c) ∈ s_log (run_batch tools2 batched2 session mode2 entry_id2 fault2 aborted2 calls2 now2 events2) ->
     declared tools c = JStr "safe").
Proof.
  intros s Hpl i c Hc Hne Hrun. pose proof (run_batch_sound tools batched session batch_mode entry_id fault aborted calls now events Hfresh Hids) as Hs.
  pose proof (run_batch_formed tools batched session batch_mode entry_id calls fault aborted now events Hfresh Hids) as Hf. fold s in Hs, Hf. split_and!.
  - intros e p He Het Hid Hp. by apply (settled_not_planned s i c p e).
  - intros Hbat Hno. by apply (unsettled_planned s i c).
  - intros tools2 batched2 mode2 entry_id2 fault2 aborted2 calls2 now2 events2 Hf2 Hn2 Hall2 Hrun2.
    destruct (recovered_runs _ _ _ _ _ _ _ _ _ _ Hf2 Hn2 Hall2 Hrun2) as (p & Hp & Hinv & Hsafe). destruct (fo_calls _ _ _ _ _ Hf i c Hc) as [Hmem _].
    rewrite (planned_policy s i c p) in Hsafe; try done; [|by apply member_intent]. apply is_str_some in Hsafe. by injection Hsafe.
Qed.
End Crash.

End Batch.

(** * A concrete crash *)

(** The second call has its result in the journal; the first one was running. *)
Definition crash_plans : list plan :=
  default [] (planInterruptedRecovery demo_stringify
    (rc_state (detectAndMarkInterruptedOperations (reduceSession demo_stringify demo_parse (entries_of (s_log (demo_batch demo_events))) None demo_adapter) (fun _ => 9%Z))) (Some demo_registry)).

Lemma executed_tools_survive_a_crash_witness :
  (map pl_invocationId crash_plans = ["i1"%string] /\ map pl_reason crash_plans = [Some "historical-policy"%string]) /\
  exists c, s_calls (demo_batch demo_events) !! 0%nat = Some c /\
  (forall e p, e ∈ entries_of (s_log (demo_batch demo_events)) -> e_type e = ToolExecution -> e_id e = invocation c -> p ∈ crash_plans -> pl_invocationId p <> invocation c) /\
  (true = true -> (forall e, e ∈ entries_of (s_log (demo_batch demo_events)) -> e_type e = ToolExecution -> e_id e <> invocation c) ->
     exists p, p ∈ crash_plans /\ pl_invocationId p = invocation c /\ pl_operationId p = operation_id c) /\
  (forall tools2 batched2 mode2 entry_id2 fault2 aborted2 calls2 now2 events2,
     Forall fresh calls2 -> NoDup (map invocation calls2) ->
     Forall (fun c => exists prepare p reserved now, p ∈ crash_plans /\ c = recovery_call demo_stringify tools2 prepare p reserved now) calls2 ->
     LExecute (invocation c) ∈ s_log (run_batch tools2 batched2 "session" mode2 entry_id2 fault2 aborted2 calls2 now2 events2) ->
     declared demo_tools c = JStr "safe").
Proof.
  split; [by vm_compute|]. eexists. split; [by vm_compute|].
  apply (executed_tools_survive_a_crash demo_tools true "session" Parallel (fun n => "e" +:+ string_of_index n) demo_calls demo_stringify demo_parse demo_adapter []
    (fun _ => 9%Z) (Some demo_registry) crash_plans false false 0 demo_events) with (i := 0%nat).
  - repeat constructor.
  - apply NoDup_cons. split; [by intros ?%list_elem_of_singleton|apply NoDup_singleton].
  - by repeat constructor.
  - by intros c e _ ?%not_elem_of_nil.
  - vm_compute. reflexivity.
  - vm_compute. reflexivity.
  - done.
  - vm_compute. right. right. right. left.
Defined.
