(* ===== verification/Conversation.v ===== *)
(** The conversation of an agent as a path in its journal (agent-core/src/conversation-context.ts):
    branch placement of new entries, the messages a model is shown after edits and compactions,
    and the caches behind the reads.

    [validMessage] and [validSchema] are the schema checks of the protocol for messages and for
    the parameters of tools, [JSON_stringify] and [JSON_parse] the engine's.  Modelling choices:
    payloads are JSON values and share nothing, so [structuredClone] is the identity; a message
    given as JSON, and the system message that announces tools, are a [CustomMessage] with the
    fields of the object; a batch is staged, written and adopted in one step, as its callers
    queue their commits and claim the agent; a source index is a number or absent. *)

From S2P Require Import Prelude Json Frames Reducer.

Open Scope Z_scope.

(** A [JournalEntry]: the entry the reducer reads, its parent and its sequence number. *)
Record node : Type := MkNode { n_entry : entry; n_parent : option string; n_seq : Z }.

Definition n_id (n : node) : string := e_id (n_entry n).

Inductive error : Type :=
| Cycle (id : string)
| HeadNotFound (id : string)
| InvalidLoadout
| InvalidEdit
| EditTarget (id : string)
| CutPoint
| InvalidView
| EntryExists (id : string)
| NoPayload
| ContextChanged
| NoSummary
| KeptWithoutIdentity
| RejectedCommit (cause : error)
| RejectedWrite
| UnknownCommit.

(** * Messages *)

Definition message_id (m : message) : option string :=
  match m with
  | UserMessage id _ _ => Some id
  | AssistantMessage m => am_id m
  | ToolResultMessage m => Some (tr_id m)
  | CustomMessage fs => as_string (assoc_get fs "id")
  end.

Definition message_role (m : message) : option string :=
  match m with
  | UserMessage _ _ _ => Some "user"
  | AssistantMessage _ => Some "assistant"
  | ToolResultMessage _ => Some "toolResult"
  | CustomMessage fs => as_string (assoc_get fs "role")
  end%string.

Definition has_role (r : string) (m : message) : bool := bool_decide (message_role m = Some r).

Definition message_usage (m : message) : option json :=
  match m with
  | AssistantMessage m => am_usage m
  | CustomMessage fs => assoc_get fs "usage"
  | _ => None
  end.

Definition count_usage (t : usage_totals) (u : option json) : usage_totals :=
  MkUsage (inputTokens t + counter (field u "inputTokens")) (outputTokens t + counter (field u "outputTokens")) (totalTokens t + counter (field u "totalTokens")).

(** [m.id === v] for a value that is there. *)
Definition same_id (m : message) (v : option json) : bool :=
  match message_id m, as_string v with Some a, Some b => bool_decide (a = b) | _, _ => false end.

(** [new Map(messages.map((m) => [m.id, m])).get(id)]. *)
Definition last_with_id (messages : list message) (id : json) : option message := last (List.filter (fun m => same_id m (Some id)) messages).

Definition projectEdits (messages : list message) (edits : list (string * option message)) : list message :=
  omap (fun m =>
    match truthy (message_id m) with
    | None => Some m
    | Some id => match assoc_get edits id with None => Some m | Some replacement => replacement end
    end) messages.

(** [slice(-n)] for a positive [n]. *)
Definition last_n (n : nat) (l : list message) : list message := drop (length l - n) l.

(** The identity of a head as JSON. *)
Definition head_json (h : option string) : json := match h with Some s => JStr s | None => JNull end.

(** [v === head]. *)
Definition same_head (v : option json) (h : option string) : bool :=
  match v, h with Some JNull, None => true | Some (JStr a), Some b => bool_decide (a = b) | _, _ => false end.

Section Conversation.
Context (JSON_stringify : json -> string) (JSON_parse : string -> option json).
Variable validMessage : option json -> bool.
Variable validSchema : option json -> bool.

(** * Validation *)

Fixpoint loadout_tools (names : list string) (tools : list json) : bool :=
  match tools with
  | [] => true
  | tool :: tools =>
      match as_string (field (Some tool) "name"), as_string (field (Some tool) "description") with
      | Some name, Some _ =>
          negb (blank name) && negb (bool_decide (name ∈ names)) && bool_decide (is_Some (field (Some tool) "parameters")) &&
          validSchema (field (Some tool) "parameters") && loadout_tools (name :: names) tools
      | _, _ => false
      end
  end.

Definition validateLoadout (value : option json) : result error unit :=
  match field value "systemPrompt", field value "tools" with
  | Some (JStr _), Some (JArr tools) => throw_if negb (bool_decide (as_number (field value "version") = Some 1)) || negb (loadout_tools [] tools) with InvalidLoadout in Ok tt
  | _, _ => Err InvalidLoadout
  end.

Fixpoint validate_edits (messages : list message) (edits : list json) : result error unit :=
  match edits with
  | [] => Ok tt
  | operation :: edits =>
      match as_string (field (Some operation) "messageId") with
      | None => Err InvalidEdit
      | Some id =>
          throw_if blank id with InvalidEdit in
          match last_with_id messages (JStr id) with
          | None => Err (EditTarget id)
          | Some original =>
              if is_str (field (Some operation) "action") "replace" then
                throw_if negb (validMessage (field (Some operation) "message")) with InvalidEdit in
                throw_if negb (bool_decide (as_string (field (field (Some operation) "message") "role") = message_role original)) with InvalidEdit in
                validate_edits messages edits
              else if is_str (field (Some operation) "action") "exclude" then validate_edits messages edits
              else Err InvalidEdit
          end
      end
  end.

Definition validateEdit (value : option json) (messages : list message) : result error unit :=
  match field value "edits" with
  | Some (JArr edits) => throw_if negb (bool_decide (as_number (field value "version") = Some 1)) || (length edits =? 0)%nat with InvalidEdit in validate_edits messages edits
  | _ => Err InvalidEdit
  end.

Fixpoint same_ids (messages : list message) (ids : list json) : bool :=
  match messages, ids with
  | [], _ => true
  | m :: messages, id :: ids => same_id m (Some id) && same_ids messages ids
  | _ :: _, [] => false
  end.

Definition validateCompactionView (view : option json) (messages : list message) : result error unit :=
  match field view "keptIds" with
  | Some (JArr keptIds) =>
      throw_if negb (bool_decide (as_number (field view "version") = Some 1)) || (length keptIds =? 0)%nat with InvalidView in
      let summary := field view "summaryMessage" in
      throw_if negb (validMessage summary) with InvalidView in
      throw_if negb (is_str (field summary "role") "assistant") || negb (is_true (field summary "id")) with InvalidView in
      let history := List.filter (fun m => negb (has_role "system" m)) messages in
      let suffix := last_n (length keptIds) history in
      throw_if (length history <=? length keptIds)%nat || negb (length (distinct keptIds) =? length keptIds)%nat || negb (same_ids suffix keptIds) ||
               match head suffix with Some m => has_role "toolResult" m | None => false end ||
               existsb (fun m => same_id m (field summary "id")) messages
      with InvalidView in Ok tt
  | _ => Err InvalidView
  end.

(** * The projection of a path *)

Definition tool_order (a b : node) : Z :=
  default MAX_SAFE_INTEGER (as_number (field (e_payload (n_entry a)) "sourceIndex")) - default MAX_SAFE_INTEGER (as_number (field (e_payload (n_entry b)) "sourceIndex")).

Definition orderedTools (tools : list node) : list node := js_sort tool_order tools.

Definition result_message (n : node) : message := ToolResultMessage (tool_result_of JSON_stringify (n_entry n)).

(** The message that announces a loadout. *)
Definition tools_of (loadout : option json) : list json := match field loadout "tools" with Some (JArr l) => l | _ => [] end.

Definition tool_name (tool : json) : string := default EmptyString (as_string (field (Some tool) "name")).

Definition tools_by_name (tools : list json) : list (string * json) := foldl (fun m tool => assoc_set m (tool_name tool) tool) [] tools.

Definition loadoutMessage (id : string) (timestamp : Z) (next : option json) (previous : option json) : message :=
  let prior := tools_by_name (tools_of previous) in
  let current := tools_by_name (tools_of next) in
  CustomMessage ([("id"%string, JStr id); ("timestamp"%string, JNum timestamp); ("role"%string, JStr "system"); ("content"%string, JStr EmptyString)] ++
    (if bool_decide (as_string (field next "systemPrompt") = as_string (field previous "systemPrompt")) then []
     else [("sections"%string, JObj [("instructions"%string, match truthy (as_string (field next "systemPrompt")) with Some s => JStr s | None => JNull end)])]) ++
    [("toolsAdded"%string, JArr (List.filter (fun tool => negb (bool_decide (Some (JSON_stringify tool) = JSON_stringify <$> assoc_get prior (tool_name tool)))) (tools_of next)));
     ("toolsRemoved"%string, JArr (map (fun name => JObj [("name"%string, JStr name)]) (List.filter (fun name => negb (bool_decide (is_Some (assoc_get current name)))) prior.*1)))]).

Record projection : Type := MkProjection {
  p_head : option string; p_count : Z; p_raw : list message; p_timeline : list message; p_editable : list (string * message);
  p_edits : list (string * option message); p_tools : list node; p_frames : list frame; p_loadout : option json; p_usage : usage_totals }.

Definition empty_projection : projection := MkProjection None 0 [] [] [] [] [] [] None (MkUsage 0 0 0).

Definition flushProjectionTools (p : projection) : projection :=
  let tools := orderedTools (p_tools p) in
  MkProjection (p_head p) (p_count p) (p_raw p ++ map result_message tools) (p_timeline p ++ map result_message tools)
    (foldl (fun m n => assoc_set m (n_id n) (result_message n)) (p_editable p) tools) (p_edits p) [] (p_frames p) (p_loadout p) (p_usage p).

(** [if (entry.payload?.frame) frames.push(entry.payload.frame)]. *)
Definition frame_in (v : option json) : list frame := if is_true v then [default FOther (frame_of v)] else [].

Definition set_edits (edits : list (string * option message)) (operations : list json) : list (string * option message) :=
  foldl (fun m operation =>
    let id := default EmptyString (as_string (field (Some operation) "messageId")) in
    assoc_set m id
      (if is_str (field (Some operation) "action") "exclude" then None
       else Some (CustomMessage (assoc_set (default [] (record_fields (field (Some operation) "message"))) "id" (JStr id))))) edits operations.

(** A message joins the conversation, after the tool results that wait. *)
Definition place_message (p : projection) (id : string) (m : message) : projection :=
  let p := flushProjectionTools p in
  let assistant := has_role "assistant" m in
  MkProjection (p_head p) (p_count p) (p_raw p ++ [m]) (p_timeline p ++ [m]) (assoc_set (p_editable p) id m) (p_edits p) (p_tools p)
    (if assistant then [] else p_frames p) (p_loadout p) (if assistant then count_usage (p_usage p) (message_usage m) else p_usage p).

Definition applyProjectionEntry (p : projection) (n : node) : result error projection :=
  let e := n_entry n in
  let view := field (e_payload e) "modelView" in
  match e_type e with
  | ToolExecution => Ok (MkProjection (p_head p) (p_count p) (p_raw p) (p_timeline p) (p_editable p) (p_edits p) (p_tools p ++ [n]) (p_frames p) (p_loadout p) (p_usage p))
  | AssistantFrame => Ok (MkProjection (p_head p) (p_count p) (p_raw p) (p_timeline p) (p_editable p) (p_edits p) (p_tools p) (p_frames p ++ frame_in (field (e_payload e) "frame")) (p_loadout p) (p_usage p))
  | ModelLoadout =>
      let p := flushProjectionTools p in
      let* _ := validateLoadout (e_payload e) in
      Ok (MkProjection (p_head p) (p_count p) (p_raw p) (p_timeline p ++ [loadoutMessage (e_id e) (e_timestamp e) (e_payload e) (p_loadout p)]) (p_editable p) (p_edits p)
            (p_tools p) (p_frames p) (e_payload e) (p_usage p))
  | ContextEdit =>
      let p := flushProjectionTools p in
      let* _ := validateEdit (e_payload e) (p_editable p).*2 in
      Ok (MkProjection (p_head p) (p_count p) (p_raw p) (p_timeline p) (p_editable p)
            (set_edits (p_edits p) (match field (e_payload e) "edits" with Some (JArr l) => l | _ => [] end)) (p_tools p) (p_frames p) (p_loadout p) (p_usage p))
  | _ =>
      if bool_decide (e_type e = CompactionEntry) && is_true view then
        let p := flushProjectionTools p in
        let visible := projectEdits (p_timeline p) (p_edits p) in
        throw_if negb (same_head (field view "baseHeadId") (n_parent n)) with CutPoint in
        let* _ := validateCompactionView view visible in
        let summary := CustomMessage (default [] (record_fields (field view "summaryMessage"))) in
        let keptIds := match field view "keptIds" with Some (JArr l) => l | _ => [] end in
        Ok (MkProjection (p_head p) (p_count p) (p_raw p)
              (List.filter (has_role "system") visible ++ [summary] ++ omap (last_with_id visible) keptIds)
              (assoc_set (p_editable p) (default EmptyString (message_id summary)) summary) (p_edits p) (p_tools p) (p_frames p) (p_loadout p)
              (if is_true (message_usage summary) then count_usage (p_usage p) (message_usage summary) else p_usage p))
      else
        match messageFromSessionEntry JSON_stringify e with
        | None => Ok p
        | Some m => Ok (place_message p (e_id e) m)
        end
  end.

Definition visited (p : projection) (n : node) : projection :=
  MkProjection (Some (n_id n)) (p_count p + 1) (p_raw p) (p_timeline p) (p_editable p) (p_edits p) (p_tools p) (p_frames p) (p_loadout p) (p_usage p).

(** The loop over the entries of a path, with the number of entries that were applied. *)
Fixpoint apply_path (p : projection) (path : list node) : Z * result error projection :=
  match path with
  | [] => (0, Ok p)
  | n :: path =>
      match applyProjectionEntry p n with
      | Err e => (0, Err e)
      | Ok p => let '(k, r) := apply_path (visited p n) path in (k + 1, r)
      end
  end.

Record context : Type := MkContext { x_headId : option string; x_raw : list message; x_messages : list message; x_loadout : option json; x_usage : usage_totals }.

(** The context of a projection. *)
Definition context_of (headId : option string) (p : projection) : context :=
  let pending := map result_message (orderedTools (p_tools p)) in
  let tail := pending ++ option_list (partial_message <$> reduceAssistantFrames JSON_parse (p_frames p)) in
  MkContext headId (p_raw p ++ tail) (projectEdits (p_timeline p ++ tail) (p_edits p)) (p_loadout p) (p_usage p).

(** * The conversation *)

Record conversation : Type := MkConversation {
  c_sessionId : string; c_entries : list node; c_head : option string; c_cached : option context; c_projection : option projection; c_scanned : Z; c_rebuilds : Z }.

(** The constructor, over the entries of the writer. *)
Definition new_conversation (sessionId : string) (entries : list node) : conversation :=
  MkConversation sessionId entries (n_id <$> last entries) None None 0 0.

(** [this.index.get(id)]. *)
Definition index_get (entries : list node) (id : string) : option node := last (List.filter (fun n => bool_decide (n_id n = id)) entries).

(** The loop of [pathAfter], [path] in the order of the journal; a walk that outruns the fuel
    has a cycle. *)
Fixpoint climb (fuel : nat) (entries : list node) (ancestor current : option string) (seen : list string) (path : list node) : result error (option (list node)) :=
  if bool_decide (current = ancestor) then Ok (Some path)
  else
    match current with
    | None => Ok None
    | Some id =>
        throw_if bool_decide (id ∈ seen) with Cycle id in
        match index_get entries id, fuel with
        | None, _ => Err (HeadNotFound id)
        | Some _, O => Err (Cycle id)
        | Some n, S fuel => climb fuel entries ancestor (n_parent n) (id :: seen) (n :: path)
        end
    end.

Definition pathAfter (entries : list node) (ancestor headId : option string) : result error (option (list node)) :=
  climb (S (length entries)) entries ancestor headId [] [].

Definition getPath (c : conversation) (headId : option string) : result error (list node) :=
  let* p := pathAfter (c_entries c) None headId in Ok (default [] p).

Definition with_caches (c : conversation) (cached : option context) (p : option projection) (scanned rebuilds : Z) : conversation :=
  MkConversation (c_sessionId c) (c_entries c) (c_head c) cached p scanned rebuilds.

Definition clearCache (c : conversation) : conversation := with_caches c None None (c_scanned c) (c_rebuilds c).

(** The entries of [suffix] are applied to [p]; [current] when the head is the one in use. *)
Definition extend (c : conversation) (current : bool) (p : projection) (suffix : list node) : conversation * result error projection :=
  let '(k, r) := apply_path p suffix in
  let c := with_caches c (c_cached c) (c_projection c) (c_scanned c + k) (c_rebuilds c) in
  match r with
  | Ok p => (if current then with_caches c (c_cached c) (Some p) (c_scanned c) (c_rebuilds c) else c, Ok p)
  | Err e => (if current then clearCache c else c, Err e)
  end.

Definition rebuild (c : conversation) (current : bool) (headId : option string) : conversation * result error projection :=
  match getPath c headId with
  | Err e => (c, Err e)
  | Ok path => extend (with_caches c (c_cached c) (c_projection c) (c_scanned c) (c_rebuilds c + 1)) current empty_projection path
  end.

Definition readProjection (c : conversation) (headId : option string) : conversation * result error projection :=
  let current := bool_decide (headId = c_head c) in
  match (if current then c_projection c else None) with
  | None => rebuild c current headId
  | Some p =>
      match pathAfter (c_entries c) (p_head p) headId with
      | Err e => (c, Err e)
      | Ok None => rebuild c current headId
      | Ok (Some suffix) => extend c current p suffix
      end
  end.

Definition materialize (c : conversation) (headId : option string) : conversation * result error context :=
  let current := bool_decide (headId = c_head c) in
  match (if current then c_cached c else None) with
  | Some x => (c, Ok x)
  | None =>
      match readProjection c headId with
      | (c, Err e) => (c, Err e)
      | (c, Ok p) =>
          let x := context_of headId p in
          (if current then with_caches c (Some x) (c_projection c) (c_scanned c) (c_rebuilds c) else c, Ok x)
      end
  end.

Definition getLoadout (c : conversation) : conversation * result error (option json) :=
  match readProjection c (c_head c) with (c, r) => (c, let* p := r in Ok (p_loadout p)) end.

Record update : Type := MkUpdate { u_headId : option string; u_messages : list message; u_reset : bool; u_revision : Z; u_total : Z }.

(** An entry after which the messages of a model do not just grow. *)
Definition resets (entries : list node) (previousHeadId : option string) (n : node) : bool :=
  let e := n_entry n in
  match e_type e with
  | ContextEdit | CompactionEntry => true
  | CustomEntry => is_str (field (e_payload e) "kind") "context_head"
  | ToolExecution => match truthy previousHeadId ≫= index_get entries with Some prev => bool_decide (e_type (n_entry prev) = ToolExecution) | None => false end
  | _ => false
  end.

(** [previousHeadId] may be absent. *)
Definition getModelUpdate (c : conversation) (previousHeadId : option (option string)) (previousLength : nat) : conversation * result error update :=
  match (match previousHeadId with None => Ok None | Some h => pathAfter (c_entries c) h (c_head c) end) with
  | Err e => (c, Err e)
  | Ok delta =>
      let reset := match delta, previousHeadId with Some l, Some h => existsb (resets (c_entries c) h) l | _, _ => true end in
      match materialize c (c_head c) with
      | (c, Err e) => (c, Err e)
      | (c, Ok x) =>
          (c, Ok (MkUpdate (c_head c) (if reset then x_messages x else drop previousLength (x_messages x)) reset
                    (match truthy (c_head c) ≫= index_get (c_entries c) with Some n => n_seq n | None => 0 end) (zlen (x_messages x))))
      end
  end.

Definition selectHead (c : conversation) (headId : option string) : conversation * result error unit :=
  match headId with
  | Some id => if bool_decide (is_Some (index_get (c_entries c) id)) then (MkConversation (c_sessionId c) (c_entries c) headId None (c_projection c) (c_scanned c) (c_rebuilds c), Ok tt) else (c, Err (HeadNotFound id))
  | None => (MkConversation (c_sessionId c) (c_entries c) headId None (c_projection c) (c_scanned c) (c_rebuilds c), Ok tt)
  end.

(** ** Appending *)

Record append : Type := MkAppend { a_type : entry_type; a_payload : json; a_id : option string; a_parentId : option (option string) }.

(** The checks of one entry against the conversation as it is. *)
Definition check_entry (c : conversation) (n : node) : conversation * result error unit :=
  let e := n_entry n in
  match e_type e with
  | ModelLoadout => (c, validateLoadout (e_payload e))
  | ContextEdit =>
      match readProjection c (c_head c) with
      | (c, Err x) => (c, Err x)
      | (c, Ok p) => (c, validateEdit (e_payload e) ((p_editable p).*2 ++ map result_message (orderedTools (p_tools p))))
      end
  | CompactionEntry =>
      match e_payload e with
      | Some JNull => (c, Err NoPayload)
      | _ =>
          let view := field (e_payload e) "modelView" in
          if is_true view then
            if negb (same_head (field view "baseHeadId") (c_head c)) || negb (bool_decide (n_parent n = c_head c)) then (c, Err ContextChanged)
            else
              match materialize c (c_head c) with
              | (c, Err x) => (c, Err x)
              | (c, Ok x) => (c, validateCompactionView view (x_messages x))
              end
          else (c, Ok tt)
      end
  | _ => (c, Ok tt)
  end.

(** The staging loop; [uuid] and [clock] are read for each entry. *)
Fixpoint stage (c : conversation) (uuid : nat -> string) (clock : nat -> Z) (staged : list node) (parentId : option string) (appends : list append)
  : conversation * result error (list node * option string) :=
  match appends with
  | [] => (c, Ok (staged, parentId))
  | a :: appends =>
      let k := length staged in
      let id := default (uuid k) (a_id a) in
      if bool_decide (is_Some (index_get (c_entries c) id)) || bool_decide (id ∈ map n_id staged) then (c, Err (EntryExists id))
      else
        let n := MkNode (MkEntry id (c_sessionId c) None (a_type a) (clock k) (Some (a_payload a))) (default parentId (a_parentId a)) (zlen (c_entries c) + zlen staged + 1) in
        match check_entry c n with
        | (c, Err e) => (c, Err e)
        | (c, Ok _) => stage c uuid clock (staged ++ [n]) (Some id) appends
        end
  end.

(** What the writer does: it answers with entries, or throws. *)
Inductive write_outcome : Type := Committed (entries : list node) | Threw (e : error).

Definition placed_as (n staged : node) : bool :=
  bool_decide (n_id n = n_id staged) && bool_decide (n_parent n = n_parent staged) && bool_decide (e_type (n_entry n) = e_type (n_entry staged)) &&
  bool_decide (JSON_stringify <$> e_payload (n_entry n) = JSON_stringify <$> e_payload (n_entry staged)).

(** The entries that are adopted before one that is out of place. *)
Fixpoint adopt (entries committed staged : list node) : list node * bool :=
  match committed, staged with
  | n :: committed, s :: staged => if placed_as n s then adopt (entries ++ [n]) committed staged else (entries, false)
  | [], [] => (entries, true)
  | _, _ => (entries, false)
  end.

Definition appendBatch (c : conversation) (uuid : nat -> string) (clock : nat -> Z) (appends : list append) (o : write_outcome) : conversation * result error (list node) :=
  match stage c uuid clock [] (c_head c) appends with
  | (c, Err e) => (c, Err (RejectedCommit e))
  | (c, Ok (staged, parentId)) =>
      match o with
      | Threw e => (c, Err e)
      | Committed committed =>
          if negb (length committed =? length staged)%nat then (c, Err UnknownCommit)
          else
            let '(entries, ok) := adopt (c_entries c) committed staged in
            if ok then (MkConversation (c_sessionId c) entries parentId None (c_projection c) (c_scanned c) (c_rebuilds c), Ok committed)
            else (MkConversation (c_sessionId c) entries (c_head c) (c_cached c) (c_projection c) (c_scanned c) (c_rebuilds c), Err UnknownCommit)
      end
  end.

(** [commitCompaction]: the entry to commit, unless the conversation has moved. *)
Definition compaction_append (c : conversation) (aborted : bool) (entry_fields : fields) (compacted : option (fields * list message)) (baseHeadId : option string) (uuid : string)
  : result error (option append) :=
  if aborted || negb (bool_decide (baseHeadId = c_head c)) then Ok None
  else
    match compacted with
    | None => Err NoSummary
    | Some (summary, kept) =>
        match mapM (fun m => truthy (message_id m)) kept with
        | None => Err KeptWithoutIdentity
        | Some ids =>
            let view := JObj [("version"%string, JNum 1); ("baseHeadId"%string, head_json baseHeadId); ("summaryMessage"%string, JObj (assoc_set summary "id" (JStr uuid))); ("keptIds"%string, JArr (map JStr ids))] in
            Ok (Some (MkAppend CompactionEntry (JObj (assoc_set entry_fields "modelView" view)) None None))
        end
    end.

(** [recordLoadout]: the entry to commit, unless the loadout is the one in force. *)
Definition loadout_append (c : conversation) (systemPrompt : string) (tools : list json) : conversation * result error (option append) :=
  match getLoadout c with
  | (c, Err e) => (c, Err e)
  | (c, Ok previous) =>
      let next := JObj [("version"%string, JNum 1); ("systemPrompt"%string, JStr systemPrompt); ("tools"%string, JArr tools)] in
      (c, Ok (if bool_decide (JSON_stringify <$> previous = Some (JSON_stringify next)) then None else Some (MkAppend ModelLoadout next None None)))
  end.

(** ** The calls *)

Inductive call : Type :=
| GetContext (headId : option string)
| GetModelMessages
| GetLoadout
| GetModelUpdate (previousHeadId : option (option string)) (previousLength : nat)
| GetPath (headId : option string)
| SelectHead (headId : option string)
| ClearCache
| AppendBatch (uuid : nat -> string) (clock : nat -> Z) (appends : list append) (o : write_outcome).

Inductive answer : Type :=
| AContext (x : context)
| AMessages (messages : list message)
| ALoadout (loadout : option json)
| AUpdate (u : update)
| AnEntries (entries : list node)
| ADone.

Definition answer_with {A : Type} (f : A -> answer) (r : conversation * result error A) : conversation * result error answer :=
  match r with (c, r) => (c, let* x := r in Ok (f x)) end.

Definition perform (c : conversation) (q : call) : conversation * result error answer :=
  match q with
  | GetContext h => answer_with AContext (materialize c h)
  | GetModelMessages => answer_with (fun x => AMessages (x_messages x)) (materialize c (c_head c))
  | GetLoadout => answer_with ALoadout (getLoadout c)
  | GetModelUpdate h n => answer_with AUpdate (getModelUpdate c h n)
  | GetPath h => (c, let* l := getPath c h in Ok (AnEntries l))
  | SelectHead h => answer_with (fun _ => ADone) (selectHead c h)
  | ClearCache => (clearCache c, Ok ADone)
  | AppendBatch uuid clock appends o => answer_with AnEntries (appendBatch c uuid clock appends o)
  end.

End Conversation.
