(* ===== verification/ConversationProofs.v ===== *)
(** What the reads of a conversation promise: the walk from a head to an ancestor finds exactly
    the chain of parents, the caches behind change nothing, and a model may be sent only what is
    new. *)

From S2P Require Import Prelude Json Frames Reducer Conversation.

(** * The index *)

Lemma index_get_some entries id n : index_get entries id = Some n -> n ∈ entries /\ n_id n = id.
Proof.
  unfold index_get. intros H%last_Some_elem_of%list_elem_of_In. apply filter_In in H as [H1 H2]. apply list_elem_of_In in H1. by apply bool_decide_eq_true in H2.
Qed.

Lemma index_get_app entries new id : (forall n, n ∈ new -> n_id n <> id) -> index_get (entries ++ new) id = index_get entries id.
Proof.
  intros H. unfold index_get. rewrite List.filter_app, (filter_none _ new); [by rewrite app_nil_r|].
  apply Forall_forall. intros n Hn. apply bool_decide_eq_false_2. by apply H.
Qed.

Lemma index_get_snoc entries n : index_get (entries ++ [n]) (n_id n) = Some n.
Proof. unfold index_get. rewrite List.filter_app. simpl. rewrite bool_decide_eq_true_2 by done. apply last_snoc. Qed.

Lemma index_get_in entries n : n ∈ entries -> is_Some (index_get entries (n_id n)).
Proof.
  intros Hn. unfold index_get. apply last_is_Some. intros H. assert (Hin : n ∈ List.filter (fun m => bool_decide (n_id m = n_id n)) entries).
  { apply list_elem_of_In, filter_In. split; [by apply list_elem_of_In|]. by apply bool_decide_eq_true_2. }
  rewrite H in Hin. by apply not_elem_of_nil in Hin.
Qed.

(** * Chains of parents *)

Section Paths.
Variable entries : list node.

(** [up current ancestor path]: the entries from below [ancestor] down to [current]. *)
Inductive up : option string -> option string -> list node -> Prop :=
| up_here a : up a a []
| up_step a id n path : Some id <> a -> index_get entries id = Some n -> up (n_parent n) a path -> up (Some id) a (path ++ [n]).

Lemma up_unique c a p q : up c a p -> up c a q -> p = q.
Proof.
  intros H. revert q. induction H as [a|a id n path Hne Hn H IH]; intros q Hq; inversion Hq as [|? ? m p' Hne' Hm H']; subst; [done|done|done|].
  assert (m = n) as -> by congruence. by rewrite (IH p').
Qed.

Lemma up_trans h b a s p : up h b s -> up b a p -> a = None -> up h a (p ++ s).
Proof.
  intros H Hp ->. induction H as [b|b id n path Hne Hn H IH]; [by rewrite app_nil_r|]. rewrite app_assoc. by apply up_step; [|done|apply IH].
Qed.

(** An entry of a path is where the path to its end starts. *)
Lemma up_prefix c a p n : up c a p -> n ∈ p -> exists q r, p = q ++ n :: r /\ up (Some (n_id n)) a (q ++ [n]).
Proof.
  intros H. induction H as [a|a id m path Hne Hm H IH]; intros Hn; [by apply not_elem_of_nil in Hn|]. apply elem_of_app in Hn as [Hn|Hn%list_elem_of_singleton].
  - destruct (IH Hn) as (q & r & -> & Hq). exists q, (r ++ [m]). by rewrite <- app_assoc.
  - subst n. exists path, []. split; [done|]. destruct (index_get_some _ _ _ Hm) as [_ <-]. by apply up_step.
Qed.

Lemma up_nodup c a p : up c a p -> NoDup (map n_id p).
Proof.
  intros H. induction H as [a|a id n path Hne Hn H IH]; [constructor|]. rewrite map_app. apply NoDup_app. split_and!; [done| |apply NoDup_singleton].
  intros x Hx Hx'%list_elem_of_singleton. apply list_elem_of_fmap in Hx as (m & -> & Hm). destruct (up_prefix _ _ _ _ H Hm) as (q & r & -> & Hq).
  rewrite Hx' in Hq. destruct (index_get_some _ _ _ Hn) as [_ Hid]. rewrite Hid in Hq.
  pose proof (up_unique _ _ _ _ Hq (up_step _ _ _ _ Hne Hn H)) as Heq. apply (f_equal length) in Heq. rewrite !length_app in Heq. simpl in Heq. lia.
Qed.

Lemma up_entries c a p n : up c a p -> n ∈ p -> n ∈ entries.
Proof.
  intros H. induction H as [a|a id m path Hne Hm H IH]; intros Hn; [by apply not_elem_of_nil in Hn|]. apply elem_of_app in Hn as [Hn|Hn%list_elem_of_singleton]; [by apply IH|].
  subst n. by apply (index_get_some _ id).
Qed.

Lemma up_head c a p : up c a p -> c <> a -> exists n q, p = q ++ [n] /\ c = Some (n_id n).
Proof. intros H Hne. destruct H as [|a id n path Ha Hn H]; [done|]. exists n, path. split; [done|]. by destruct (index_get_some _ _ _ Hn) as [_ ->]. Qed.

(** * The walk *)

Lemma climb_sound fuel a c seen path q : climb fuel entries a c seen path = Ok (Some q) -> exists p, q = p ++ path /\ up c a p.
Proof.
  revert c seen path. induction fuel as [|fuel IH]; intros c seen path; cbn [climb]; (case_bool_decide as E; [intros [= <-]; subst c; exists []; split; [done|constructor]|]).
  - destruct c as [id|]; [|done]. case_bool_decide; [done|]. by destruct (index_get entries id).
  - destruct c as [id|]; [|done]. case_bool_decide; [done|]. destruct (index_get entries id) as [n|] eqn:Hn; [|done].
    intros (p & -> & Hp)%IH. exists (p ++ [n]). rewrite <- app_assoc. split; [done|]. by apply up_step.
Qed.

Lemma climb_complete fuel a c seen path p : up c a p -> (length p <= fuel)%nat -> (forall n, n ∈ p -> n_id n ∉ seen) -> climb fuel entries a c seen path = Ok (Some (p ++ path)).
Proof.
  intros H. revert fuel seen path. pose proof (up_nodup _ _ _ H) as Hnd. revert Hnd. induction H as [a|a id n q Hne Hn H IH]; intros Hnd fuel seen path Hl Hs.
  - destruct fuel; cbn [climb]; by rewrite bool_decide_eq_true_2.
  - rewrite length_app in Hl. simpl in Hl. destruct fuel as [|fuel]; [lia|]. cbn [climb]. rewrite bool_decide_eq_false_2 by done. destruct (index_get_some _ _ _ Hn) as [_ Hid].
    rewrite bool_decide_eq_false_2 by (rewrite <- Hid; apply Hs, elem_of_app; right; by left). rewrite Hn, <- app_assoc. rewrite map_app in Hnd. apply NoDup_app in Hnd as (Hnd & Hd & _).
    apply IH; [done|lia|]. intros m Hm [Heq|Hin]%elem_of_cons; [|by apply (Hs m); [apply elem_of_app; left|]].
    apply (Hd (n_id m)); [apply list_elem_of_fmap; by exists m|]. rewrite Heq, <- Hid. by left.
Qed.

Lemma path_short c a p : up c a p -> (length p <= length entries)%nat.
Proof.
  intros H. pose proof (up_nodup _ _ _ H) as Hnd. rewrite <- (length_map n_id p), <- (length_map n_id entries). apply submseteq_length, NoDup_submseteq; [done|].
  intros x (n & -> & Hn)%list_elem_of_fmap. apply list_elem_of_fmap. exists n. split; [done|]. by apply (up_entries c a p).
Qed.

(** The fuel of [pathAfter] is enough. *)
Lemma pathAfter_up a h p : pathAfter entries a h = Ok (Some p) <-> up h a p.
Proof.
  unfold pathAfter. split.
  - intros (q & -> & Hq)%climb_sound. by rewrite app_nil_r.
  - intros H. rewrite (climb_complete _ _ _ _ _ p); [by rewrite app_nil_r|done|pose proof (path_short _ _ _ H); lia|intros n _; apply not_elem_of_nil].
Qed.

(** A walk that fails before it meets an ancestor fails without one. *)
Lemma climb_error fuel a c seen path e : climb fuel entries a c seen path = Err e -> climb fuel entries None c seen path = Err e.
Proof.
  revert c seen path. induction fuel as [|fuel IH]; intros c seen path; cbn [climb]; (case_bool_decide; [done|]); (destruct c as [id|]; [|done]); rewrite (bool_decide_eq_false_2 (Some id = None)) by done.
  - case_bool_decide; [done|]. by destruct (index_get entries id).
  - case_bool_decide; [done|]. destruct (index_get entries id); [|done]. apply IH.
Qed.

Lemma climb_none fuel c seen path : climb fuel entries None c seen path <> Ok None.
Proof.
  revert c seen path. induction fuel as [|fuel IH]; intros c seen path; cbn [climb]; (case_bool_decide; [done|]); (destruct c as [id|]; [|done]); (case_bool_decide; [done|]); (destruct (index_get entries id); [|done]); [done|apply IH].
Qed.
End Paths.

(** * Appended entries *)

Lemma up_app entries new c a p : (forall n, n ∈ new -> index_get entries (n_id n) = None) -> up entries c a p -> up (entries ++ new) c a p.
Proof.
  intros Hnew H. induction H as [a|a id n path Hne Hn H IH]; [constructor|]. apply up_step; [done| |done]. rewrite index_get_app; [done|].
  intros m Hm Hid. specialize (Hnew m Hm). congruence.
Qed.

Open Scope Z_scope.

Section Proofs.
Context (JSON_stringify : json -> string) (JSON_parse : string -> option json).
Variable validMessage : option json -> bool.
Variable validSchema : option json -> bool.

Abbreviation apply_entry := (applyProjectionEntry JSON_stringify validMessage validSchema).
Abbreviation apply_path := (apply_path JSON_stringify validMessage validSchema).
Abbreviation context_of := (context_of JSON_stringify JSON_parse).
Abbreviation readProjection := (readProjection JSON_stringify validMessage validSchema).
Abbreviation materialize := (materialize JSON_stringify JSON_parse validMessage validSchema).
Abbreviation getModelUpdate := (getModelUpdate JSON_stringify JSON_parse validMessage validSchema).
Abbreviation stage := (stage JSON_stringify JSON_parse validMessage validSchema).
Abbreviation appendBatch := (appendBatch JSON_stringify JSON_parse validMessage validSchema).

(** * The reads without caches *)

Definition projection_at (entries : list node) (h : option string) : result error projection :=
  let* path := pathAfter entries None h in snd (apply_path empty_projection (default [] path)).

Definition context_at (entries : list node) (h : option string) : result error context :=
  let* p := projection_at entries h in Ok (context_of h p).

Lemma apply_path_app p l1 l2 : snd (apply_path p (l1 ++ l2)) = match snd (apply_path p l1) with Ok q => snd (apply_path q l2) | Err e => Err e end.
Proof.
  revert p. induction l1 as [|n l1 IH]; intros p; [done|]. cbn [app Conversation.apply_path]. destruct (apply_entry p n) as [q|e]; [|done].
  specialize (IH (visited q n)). destruct (apply_path (visited q n) (l1 ++ l2)), (apply_path (visited q n) l1). simpl in *. done.
Qed.

Lemma apply_path_head p l q : snd (apply_path p l) = Ok q -> p_head q = match last l with Some n => Some (n_id n) | None => p_head p end.
Proof.
  destruct l as [|n l _] using rev_ind; [by intros [= ->]|]. rewrite apply_path_app, last_snoc. destruct (snd (apply_path p l)) as [r|]; [|done]. cbn [Conversation.apply_path snd].
  destruct (apply_entry r n); simpl; [|done]. by intros [= <-].
Qed.

Lemma projection_at_up entries h q : projection_at entries h = Ok q <-> exists path, up entries h None path /\ snd (apply_path empty_projection path) = Ok q.
Proof.
  unfold projection_at. split.
  - destruct (pathAfter entries None h) as [[path|]|] eqn:E; [|by apply climb_none in E|done]. apply pathAfter_up in E. simpl. intros H. by exists path.
  - intros (path & H%pathAfter_up & Hq). by rewrite H.
Qed.

Lemma projection_at_head entries h q : projection_at entries h = Ok q -> p_head q = h.
Proof.
  intros (path & H & Hq%apply_path_head)%projection_at_up. rewrite Hq. destruct (decide (h = None)) as [->|Hne].
  - inversion H; by subst.
  - destruct (up_head _ _ _ _ H Hne) as (n & l & -> & ->). by rewrite last_snoc.
Qed.

(** From a projection of an ancestor to the one of a descendant. *)
Lemma projection_at_suffix entries h0 h p suffix : projection_at entries h0 = Ok p -> up entries h h0 suffix -> projection_at entries h = snd (apply_path p suffix).
Proof.
  intros (path & H & Hp)%projection_at_up Hs. unfold projection_at. rewrite (proj2 (pathAfter_up _ _ _ _) (up_trans _ _ _ _ _ _ Hs H eq_refl)). simpl. by rewrite apply_path_app, Hp.
Qed.

(** * The caches *)

Record coherent (c : conversation) : Prop := MkCoherent {
  co_cached : forall x, c_cached c = Some x -> context_at (c_entries c) (c_head c) = Ok x;
  co_projection : forall p, c_projection c = Some p -> projection_at (c_entries c) (p_head p) = Ok p;
}.

Definition alike (c c' : conversation) : Prop := c_sessionId c' = c_sessionId c /\ c_entries c' = c_entries c /\ c_head c' = c_head c.

(** What a read may change. *)
Record read_ok (c c' : conversation) : Prop := MkRead { ro_coherent : coherent c'; ro_alike : alike c c' }.

Lemma extend_spec c c0 h p suffix : coherent c0 -> alike c c0 -> snd (apply_path p suffix) = projection_at (c_entries c) h ->
  let '(c', r) := extend JSON_stringify validMessage validSchema c0 (bool_decide (h = c_head c)) p suffix in r = projection_at (c_entries c) h /\ read_ok c c'.
Proof.
  intros [Hx0 Hp0] (A1 & A2 & A3) Hr. unfold extend. destruct (apply_path p suffix) as [k r]. simpl in Hr. subst r.
  destruct (projection_at (c_entries c) h) as [q|e] eqn:Eq; case_bool_decide as Eh; (split; [done|]); split; try done; split; try done; simpl.
  intros q' [= <-]. rewrite A2. by rewrite (projection_at_head _ _ _ Eq).
Qed.

Lemma rebuild_spec c h : coherent c -> let '(c', r) := rebuild JSON_stringify validMessage validSchema c (bool_decide (h = c_head c)) h in r = projection_at (c_entries c) h /\ read_ok c c'.
Proof.
  intros [Hx Hp]. unfold rebuild, getPath. destruct (pathAfter (c_entries c) None h) as [path|e] eqn:E; simpl.
  - apply extend_spec; [by split|done|]. unfold projection_at. by rewrite E.
  - unfold projection_at. rewrite E. split; [done|]. by split; [split|].
Qed.

Lemma readProjection_spec c h : coherent c -> let '(c', r) := readProjection c h in r = projection_at (c_entries c) h /\ read_ok c c'.
Proof.
  intros Hc. pose proof (rebuild_spec c h Hc) as Hrebuild. destruct Hc as [Hx Hp]. unfold Conversation.readProjection. destruct (bool_decide (h = c_head c)) eqn:Eb; [|exact Hrebuild].
  destruct (c_projection c) as [p|] eqn:Ec; [|exact Hrebuild]. pose proof (Hp p eq_refl) as Hp'.
  destruct (pathAfter (c_entries c) (p_head p) h) as [[suffix|]|e] eqn:E; [|exact Hrebuild|].
  - rewrite <- Eb. apply extend_spec; [split; [done|by rewrite Ec]|done|]. apply pathAfter_up in E. by rewrite (projection_at_suffix _ _ _ _ _ Hp' E).
  - apply climb_error in E. unfold projection_at, pathAfter. rewrite E. split; [done|]. split; [split; [done|by rewrite Ec]|done].
Qed.

Lemma materialize_spec c h : coherent c -> let '(c', r) := materialize c h in r = context_at (c_entries c) h /\ read_ok c c'.
Proof.
  intros Hc. pose proof (readProjection_spec c h Hc) as H. unfold Conversation.materialize.
  assert (Hgo : let '(c', r) := match readProjection c h with
      | (c0, Err e) => (c0, Err e)
      | (c0, Ok p) => (if bool_decide (h = c_head c) then with_caches c0 (Some (context_of h p)) (c_projection c0) (c_scanned c0) (c_rebuilds c0) else c0, Ok (context_of h p))
      end in r = context_at (c_entries c) h /\ read_ok c c').
  { destruct (readProjection c h) as [c' r]. destruct H as (-> & [[Hx Hp] (A1 & A2 & A3)]). unfold context_at.
    destruct (projection_at (c_entries c) h) as [p|e] eqn:E; (split; [done|]); [|by split].
    case_bool_decide as Eh; [|by split]. split; [split; simpl; [|done]|done]. intros x [= <-]. rewrite A2, A3, <- Eh. unfold context_at. by rewrite E. }
  destruct (bool_decide (h = c_head c)) eqn:Eb; [|exact Hgo]. destruct (c_cached c) as [x|] eqn:Ex; [|exact Hgo].
  apply bool_decide_eq_true in Eb. rewrite Eb. split; [by rewrite (co_cached _ Hc x Ex)|]. by split.
Qed.

Lemma read_trans c c' c'' : read_ok c c' -> read_ok c' c'' -> read_ok c c''.
Proof. intros [_ (A1 & A2 & A3)] [H (B1 & B2 & B3)]. split; [done|]. split_and!; congruence. Qed.

(** * Appended entries *)

Lemma projection_at_app entries new h p : (forall n, n ∈ new -> index_get entries (n_id n) = None) -> projection_at entries h = Ok p -> projection_at (entries ++ new) h = Ok p.
Proof. intros Hnew (path & H & Hp)%projection_at_up. apply projection_at_up. exists path. split; [by apply up_app|done]. Qed.

Lemma adopt_prefix entries committed staged entries' ok : adopt JSON_stringify entries committed staged = (entries', ok) ->
  exists new, entries' = entries ++ new /\ (forall n, n ∈ new -> n_id n ∈ map n_id staged) /\ (ok = true -> new = committed /\ Forall2 (fun n s => placed_as JSON_stringify n s = true) committed staged).
Proof.
  revert entries staged. induction committed as [|n committed IH]; intros entries [|s staged]; simpl; try (intros [= <- <-]; exists []; rewrite app_nil_r; split_and!; [done|intros ? H; by apply not_elem_of_nil in H|by auto]).
  destruct (placed_as JSON_stringify n s) eqn:E; [|intros [= <- <-]; exists []; rewrite app_nil_r; split_and!; [done|intros ? H; by apply not_elem_of_nil in H|done]].
  intros (new & -> & Hnew & Hok)%IH. exists (n :: new). rewrite <- app_assoc. split_and!; [done| |].
  - intros m [-> |Hm]%elem_of_cons; [|right; by apply Hnew]. unfold placed_as in E. apply andb_true_iff in E as [E _]. apply andb_true_iff in E as [E _]. apply andb_true_iff in E as [E _].
    apply bool_decide_eq_true in E. rewrite E. by left.
  - intros H. destruct (Hok H) as [-> ?]. split; [done|by constructor].
Qed.

(** ** Two runs of a call, with and without caches *)

Definition twins (c d : conversation) : Prop := coherent c /\ coherent d /\ alike c d.

Lemma read_twins c d c' d' : twins c d -> read_ok c c' -> read_ok d d' -> twins c' d'.
Proof. intros (_ & _ & A1 & A2 & A3) [H1 (B1 & B2 & B3)] [H2 (C1 & C2 & C3)]. split_and!; try done. split_and!; congruence. Qed.

(** A call that answers alike on both. *)
Definition same_answers {A} (f : conversation -> conversation * A) : Prop :=
  forall c d, twins c d -> snd (f c) = snd (f d) /\ twins (fst (f c)) (fst (f d)).

Lemma same_read {A} (f : conversation -> conversation * A) (g : list node -> option string -> string -> A) :
  (forall c, coherent c -> let '(c', r) := f c in r = g (c_entries c) (c_head c) (c_sessionId c) /\ read_ok c c') -> same_answers f.
Proof.
  intros H c d Hcd. pose proof Hcd as (Hc & Hd & A1 & A2 & A3). pose proof (H c Hc) as H1. pose proof (H d Hd) as H2.
  destruct (f c) as [c' r], (f d) as [d' r']. destruct H1 as [-> R1], H2 as [-> R2]. simpl. split; [by rewrite A1, A2, A3|by apply (read_twins c d)].
Qed.

Lemma same_answers_with {A} (k : A -> answer) (f : conversation -> conversation * result error A) : same_answers f -> same_answers (fun c => answer_with k (f c)).
Proof. intros H c d Hcd. destruct (H c d Hcd) as [H1 H2]. unfold answer_with. destruct (f c), (f d). simpl in *. by subst. Qed.

Lemma same_materialize (h : option string -> option string) : same_answers (fun c => materialize c (h (c_head c))).
Proof. apply (same_read _ (fun entries head _ => context_at entries (h head))). intros c Hc. by apply materialize_spec. Qed.

Lemma same_projection : same_answers (fun c => readProjection c (c_head c)).
Proof. apply (same_read _ (fun entries head _ => projection_at entries head)). intros c Hc. by apply readProjection_spec. Qed.

Lemma same_loadout : same_answers (getLoadout JSON_stringify validMessage validSchema).
Proof.
  intros c d Hcd. destruct (same_projection c d Hcd) as [H1 H2]. unfold getLoadout. destruct (readProjection c (c_head c)), (readProjection d (c_head d)). simpl in *. by subst.
Qed.

Lemma same_update h n : same_answers (fun c => getModelUpdate c h n).
Proof.
  intros c d Hcd. pose proof Hcd as (_ & _ & A1 & A2 & A3). destruct (same_materialize (fun x => x) c d Hcd) as [H1 H2]. cbn beta in H1, H2. unfold Conversation.getModelUpdate. rewrite A2, A3 in *.
  destruct (match h with None => Ok None | Some h => pathAfter (c_entries c) h (c_head c) end) as [delta|e]; [|done].
  destruct (materialize c (c_head c)) as [c' [x|e]], (materialize d (c_head c)) as [d' [x'|e']]; simpl in *; simplify_eq; [|done].
  destruct H2 as (Hc & Hd & B1 & B2 & B3). rewrite B2, B3. done.
Qed.

Lemma same_check n : same_answers (fun c => check_entry JSON_stringify JSON_parse validMessage validSchema c n).
Proof.
  intros c d Hcd. pose proof Hcd as (_ & _ & A1 & A2 & A3). unfold check_entry. destruct (e_type (n_entry n)); try done.
  - destruct (same_projection c d Hcd) as [H1 H2]. destruct (readProjection c (c_head c)) as [c' [p|e]], (readProjection d (c_head d)) as [d' [p'|e']]; simpl in *; by simplify_eq.
  - rewrite A3. destruct (e_payload (n_entry n)) as [[]|]; try done; destruct (is_true _); try done; destruct (_ || _); try done.
    all: destruct (same_materialize (fun x => x) c d Hcd) as [H1 H2]; cbn beta in H1, H2; rewrite A3 in *.
    all: destruct (materialize c (c_head c)) as [c' [x|e]], (materialize d (c_head c)) as [d' [x'|e']]; simpl in *; by simplify_eq.
Qed.

Lemma same_stage uuid clock staged parentId appends : same_answers (fun c => stage c uuid clock staged parentId appends).
Proof.
  revert staged parentId. induction appends as [|a appends IH]; intros staged parentId c d Hcd; [done|]. pose proof Hcd as (_ & _ & A1 & A2 & A3). cbn [Conversation.stage]. rewrite A1, A2.
  destruct (_ || _); [done|]. set (n := MkNode _ _ _). destruct (same_check n c d Hcd) as [H1 H2].
  destruct (check_entry _ _ _ _ c n) as [c' [r|e]], (check_entry _ _ _ _ d n) as [d' [r'|e']]; simpl in *; simplify_eq; [by apply IH|done].
Qed.

Abbreviation check := (check_entry JSON_stringify JSON_parse validMessage validSchema).

Lemma check_read c n : coherent c -> read_ok c (fst (check c n)).
Proof.
  intros Hc. assert (Hsame : read_ok c c) by (by split). unfold check_entry. destruct (e_type (n_entry n)); try done.
  - pose proof (readProjection_spec c (c_head c) Hc) as H. destruct (readProjection c (c_head c)) as [c' [p|e]]; by destruct H.
  - destruct (e_payload (n_entry n)) as [[]|]; try done; destruct (is_true _); try done; destruct (_ || _); try done.
    all: pose proof (materialize_spec c (c_head c) Hc) as H; destruct (materialize c (c_head c)) as [c' [x|e]]; by destruct H.
Qed.

Lemma stage_read c uuid clock staged parentId appends : coherent c -> read_ok c (fst (stage c uuid clock staged parentId appends)).
Proof.
  revert c staged parentId. induction appends as [|a appends IH]; intros c staged parentId Hc; [by split|]. cbn [Conversation.stage]. destruct (_ || _); [by split|].
  set (n := MkNode _ _ _). pose proof (check_read c n Hc) as Hr. destruct (check c n) as [c' [r|e]]; [|done]. apply (read_trans c c'); [done|]. apply IH. apply (ro_coherent _ _ Hr).
Qed.

(** The entries that are staged have identifiers of their own. *)
Lemma stage_fresh c uuid clock staged parentId appends c' staged' parentId' : coherent c -> stage c uuid clock staged parentId appends = (c', Ok (staged', parentId')) ->
  (forall n, n ∈ staged -> index_get (c_entries c) (n_id n) = None) -> forall n, n ∈ staged' -> index_get (c_entries c) (n_id n) = None.
Proof.
  revert c staged parentId. induction appends as [|a appends IH]; intros c staged parentId Hc; cbn [Conversation.stage]; [by intros [= <- <- <-]|].
  destruct (_ || _) eqn:Eid; [done|]. apply orb_false_iff in Eid as [Eid%bool_decide_eq_false _]. set (n := MkNode _ _ _). pose proof (check_read c n Hc) as Hr.
  destruct (check c n) as [c1 [r|e]]; [|done]. destruct Hr as [Hc1 (A1 & A2 & A3)]. intros Hs Hst. simpl in A2. rewrite <- A2. apply (IH c1 _ _ Hc1 Hs). rewrite A2.
  intros m [Hm|Hm%list_elem_of_singleton]%elem_of_app; [by apply Hst|]. subst m. simpl. by apply eq_None_not_Some.
Qed.

Lemma coherent_app c new head cached : coherent c -> (forall n, n ∈ new -> index_get (c_entries c) (n_id n) = None) ->
  (forall x, cached = Some x -> c_cached c = Some x /\ head = c_head c) ->
  coherent (MkConversation (c_sessionId c) (c_entries c ++ new) head cached (c_projection c) (c_scanned c) (c_rebuilds c)).
Proof.
  intros [Hx Hp] Hnew Hca. split; simpl; [|by intros p Hc; apply projection_at_app, Hp].
  intros x Hc. destruct (Hca x Hc) as [Hc' ->]. specialize (Hx x Hc'). unfold context_at in *. destruct (projection_at (c_entries c) (c_head c)) as [p|e] eqn:E; [|done]. by rewrite (projection_at_app _ _ _ _ Hnew E).
Qed.

Lemma same_appended uuid clock appends o : same_answers (fun c => appendBatch c uuid clock appends o).
Proof.
  intros c d Hcd. pose proof Hcd as (Hc & Hd & A1 & A2 & A3). unfold Conversation.appendBatch. rewrite A3. destruct (same_stage uuid clock [] (c_head c) appends c d Hcd) as [H1 H2]. cbn beta in H1, H2.
  destruct (stage c uuid clock [] (c_head c) appends) as [c' [[staged p]|e]] eqn:Es, (stage d uuid clock [] (c_head c) appends) as [d' [[staged' p']|e']]; simpl in *; simplify_eq; [|done].
  destruct o as [committed|e]; [|done]. destruct (negb _); [done|]. pose proof H2 as (Hc' & Hd' & B1 & B2 & B3). rewrite B2.
  destruct (adopt JSON_stringify (c_entries c') committed staged') as [entries ok] eqn:Ea. destruct (adopt_prefix _ _ _ _ _ Ea) as (new & -> & Hnew & _).
  assert (Hfresh : forall n, n ∈ new -> index_get (c_entries c') (n_id n) = None).
  { intros n Hn. pose proof (stage_read c uuid clock [] (c_head c) appends Hc) as Hr. rewrite Es in Hr. destruct Hr as [_ (_ & C2 & _)]. simpl in C2. rewrite C2.
    apply Hnew, list_elem_of_fmap in Hn as (m & -> & Hm). apply (stage_fresh _ _ _ _ _ _ _ _ _ Hc Es); [intros ? H; by apply not_elem_of_nil in H|done]. }
  pose proof (coherent_app c' new) as F1. pose proof (coherent_app d' new) as F2. rewrite B2 in F2. destruct ok; simpl; (split; [done|]); split_and!.
  - by apply F1.
  - by apply F2.
  - done.
  - apply F1; [done|done|]. by intros x ->.
  - apply F2; [done|done|]. by intros x ->.
  - done.
Qed.

Lemma same_select h : same_answers (fun c => selectHead c h).
Proof.
  intros c d (Hc & Hd & A1 & A2 & A3). unfold selectHead. rewrite A1, A2.
  assert (Hco : forall c, coherent c -> coherent (MkConversation (c_sessionId c) (c_entries c) h None (c_projection c) (c_scanned c) (c_rebuilds c))) by (intros x [Hx Hp]; by split).
  assert (Hgo : twins (MkConversation (c_sessionId c) (c_entries c) h None (c_projection c) (c_scanned c) (c_rebuilds c)) (MkConversation (c_sessionId c) (c_entries c) h None (c_projection d) (c_scanned d) (c_rebuilds d))).
  { split_and!; [by apply Hco| |done]. pose proof (Hco d Hd) as H. by rewrite A1, A2 in H. }
  destruct h as [id|]; [|done]. case_bool_decide; [done|]. by simpl.
Qed.

Lemma same_perform q : same_answers (fun c => perform JSON_stringify JSON_parse validMessage validSchema c q).
Proof.
  destruct q as [h| | |h n|h|h| |uuid clock appends o]; unfold perform.
  - apply same_answers_with. apply (same_materialize (fun _ => h)).
  - apply same_answers_with. apply (same_materialize (fun h => h)).
  - apply same_answers_with, same_loadout.
  - apply same_answers_with, same_update.
  - intros c d Hcd. pose proof Hcd as (_ & _ & A1 & A2 & A3). simpl. unfold getPath. by rewrite A2.
  - apply same_answers_with, same_select.
  - intros c d (Hc & Hd & A). simpl. split; [done|]. by split_and!.
  - apply same_answers_with, same_appended.
Qed.

Definition forget (c : conversation) : conversation := with_caches c None None 0 0.

Lemma coherent_empty sessionId entries head scanned rebuilds : coherent (MkConversation sessionId entries head None None scanned rebuilds).
Proof. by split. Qed.

Lemma reachable_coherent sessionId entries calls : coherent (foldl (fun c q => fst (perform JSON_stringify JSON_parse validMessage validSchema c q)) (new_conversation sessionId entries) calls).
Proof.
  assert (H0 : coherent (new_conversation sessionId entries)) by apply coherent_empty. revert H0. generalize (new_conversation sessionId entries).
  induction calls as [|q calls IH]; intros c Hc; [done|]. apply IH. assert (Ht : twins c c) by (by split_and!). by destruct (same_perform q c c Ht) as [_ (H & _)].
Qed.

(** C22: the caches of a conversation change nothing.  After any calls, failed ones included, a
    call answers as it would if the conversation had just forgotten its projection and its
    context, and it leaves the same entries and the same head. *)
Theorem caches_are_transparent sessionId entries calls q :
  let run := perform JSON_stringify JSON_parse validMessage validSchema in
  let c := foldl (fun c q => fst (run c q)) (new_conversation sessionId entries) calls in
  snd (run c q) = snd (run (forget c) q) /\ c_entries (fst (run c q)) = c_entries (fst (run (forget c) q)) /\ c_head (fst (run c q)) = c_head (fst (run (forget c) q)).
Proof.
  intros run c. assert (Hc : coherent c) by apply reachable_coherent.
  assert (Ht : twins c (forget c)) by (split_and!; [done|apply coherent_empty|done]). destruct (same_perform q c (forget c) Ht) as [H1 (_ & _ & _ & H2 & H3)]. split_and!; [done|by symmetry..].
Qed.

(** * Sending a model only what is new *)

Definition shown (p : projection) : list message := p_timeline p ++ map (result_message JSON_stringify) (orderedTools (p_tools p)).

(** The entries since [p0] have only added messages. *)
Definition grown (p0 p : projection) : Prop :=
  p_edits p = p_edits p0 /\ ((exists added, p_timeline p = shown p0 ++ added) \/ (p_timeline p = p_timeline p0 /\ p_tools p = p_tools p0)).

Lemma grown_flushed p0 p : grown p0 p -> p_edits (flushProjectionTools JSON_stringify p) = p_edits p0 /\ exists added, p_timeline (flushProjectionTools JSON_stringify p) = shown p0 ++ added.
Proof.
  intros [He [[added Ht]|[Ht Hto]]]; (split; [done|]); simpl; rewrite Ht; [eexists; by rewrite <- app_assoc|]. exists []. rewrite app_nil_r, Hto. done.
Qed.

Lemma grown_pushed p0 p q m : grown p0 p -> p_edits q = p_edits (flushProjectionTools JSON_stringify p) -> p_timeline q = p_timeline (flushProjectionTools JSON_stringify p) ++ m -> grown p0 q.
Proof.
  intros [He [added Ht]]%grown_flushed Hq Hqt. split; [by rewrite Hq|]. left. rewrite Hqt, Ht. exists (added ++ m). by rewrite app_assoc.
Qed.

Lemma grown_step entries h p0 p n q : (p_tools p0 = [] \/ exists m, truthy h ≫= index_get entries = Some m /\ e_type (n_entry m) = ToolExecution) ->
  grown p0 p -> resets entries h n = false -> apply_entry p n = Ok q -> grown p0 q.
Proof.
  intros Htools Hg Hr. unfold resets in Hr. unfold applyProjectionEntry.
  assert (Hm : forall id m q, Ok (E := error) (place_message JSON_stringify p id m) = Ok q -> grown p0 q) by (intros id m q' [= <-]; by apply (grown_pushed p0 p _ [m])).
  destruct (e_type (n_entry n)) eqn:Et; try done; unfold messageFromSessionEntry; rewrite ?Et.
  all: try by intros [= <-].
  - destruct (validateLoadout _ _); [|done]. simpl. intros [= <-]. by eapply (grown_pushed p0 p).
  - apply Hm.
  - apply Hm.
  - intros [= <-]. destruct Hg as [He Hg]. split; [done|]. simpl. destruct Hg as [Hg|[Ht Hto]]; [by left|left]. exists [].
    destruct Htools as [Hnil|(m & Hm' & Hmt)]; [|rewrite Hm' in Hr; by rewrite bool_decide_eq_true_2 in Hr]. unfold shown. rewrite Hnil, Ht. simpl. by rewrite !app_nil_r.
  - destruct (custom_message (n_entry n)) as [m|]; [apply Hm|]. by intros [= <-].
Qed.

Lemma grown_path entries h p0 p l q : (p_tools p0 = [] \/ exists m, truthy h ≫= index_get entries = Some m /\ e_type (n_entry m) = ToolExecution) ->
  grown p0 p -> existsb (resets entries h) l = false -> snd (apply_path p l) = Ok q -> grown p0 q.
Proof.
  intros Htools. revert p. induction l as [|n l IH]; intros p Hg Hr; [by intros [= <-]|]. simpl in Hr. apply orb_false_iff in Hr as [Hn Hr]. cbn [Conversation.apply_path].
  destruct (apply_entry p n) as [p1|] eqn:E; [|done]. pose proof (grown_step _ _ _ _ _ _ Htools Hg Hn E) as Hg1. specialize (IH (visited p1 n) Hg1 Hr).
  destruct (apply_path (visited p1 n) l) as [k r]. done.
Qed.

Lemma projectEdits_app l1 l2 edits : projectEdits (l1 ++ l2) edits = projectEdits l1 edits ++ projectEdits l2 edits.
Proof. apply omap_app. Qed.

(** C28: what a model is sent adds up to what it should see. A reader holds the messages of an
    earlier head; no stream was open there, and buffered tool results were the last thing it had
    seen, if there were any. When an update says that it starts over, its messages are all of
    them; otherwise they follow those the reader holds. [open_frames_hide_a_turn] is a reader
    whose head has an open stream. *)
Theorem updates_rebuild_the_context sessionId entries calls h0 p0 u :
  let c := foldl (fun c q => fst (perform JSON_stringify JSON_parse validMessage validSchema c q)) (new_conversation sessionId entries) calls in
  projection_at (c_entries c) h0 = Ok p0 -> p_frames p0 = [] ->
  (p_tools p0 = [] \/ exists n, truthy h0 ≫= index_get (c_entries c) = Some n /\ e_type (n_entry n) = ToolExecution) ->
  let seen := x_messages (context_of h0 p0) in
  snd (getModelUpdate c (Some h0) (length seen)) = Ok u ->
  exists x, snd (materialize c (c_head c)) = Ok x /\ x_messages x = (if u_reset u then u_messages u else seen ++ u_messages u) /\ u_total u = zlen (x_messages x) /\ u_headId u = c_head c.
Proof.
  intros c Hp0 Hfr Htools seen Hu. assert (Hc : coherent c) by apply reachable_coherent.
  pose proof (materialize_spec c (c_head c) Hc) as Hm. unfold Conversation.getModelUpdate in Hu. destruct (pathAfter (c_entries c) h0 (c_head c)) as [delta|e] eqn:Ed; [|done].
  destruct (materialize c (c_head c)) as [c' [x|e]]; [|done]. destruct Hm as [Hx [_ (_ & A2 & A3)]]. cbn [snd] in *. injection Hu as <-. exists x. simpl. rewrite A3. split_and!; try done.
  destruct delta as [delta|]; [|done]. destruct (existsb _ delta) eqn:Er; [done|].
  apply pathAfter_up in Ed. pose proof (projection_at_suffix _ _ _ _ _ Hp0 Ed) as Hs. unfold context_at in Hx. rewrite Hs in Hx. destruct (snd (apply_path p0 delta)) as [q|] eqn:Eq; [|done]. injection Hx as ->.
  assert (Hg : grown p0 p0) by (split; [done|by right]). pose proof (grown_path (c_entries c) h0 p0 p0 delta q Htools Hg Er Eq) as [He Hq].
  assert (Hpre : exists rest, p_timeline q ++ map (result_message JSON_stringify) (orderedTools (p_tools q)) ++ option_list (partial_message <$> reduceAssistantFrames JSON_parse (p_frames q)) = shown p0 ++ rest).
  { destruct Hq as [[added ->]|[-> ->]]; [eexists; by rewrite <- app_assoc|]. unfold shown. eexists. by rewrite <- app_assoc. }
  destruct Hpre as [rest Hrest]. unfold seen, Conversation.context_of. cbn [x_messages]. rewrite He, Hrest, Hfr. simpl. rewrite !app_nil_r. fold (shown p0).
  rewrite projectEdits_app, drop_app_length. done.
Qed.

End Proofs.
