(* ===== verification/ConversationCommits.v ===== *)
(** What a conversation accepts, it can read back: an accepted batch continues the path, and
    edits and compactions that were checked when they were appended pass the same checks when
    the path is read. *)

From S2P Require Import Prelude Json Frames Reducer Conversation ConversationProofs.

Open Scope Z_scope.

Section Commits.
Context (JSON_stringify : json -> string) (JSON_parse : string -> option json).
Variable validMessage : option json -> bool.
Variable validSchema : option json -> bool.

Abbreviation apply_entry := (applyProjectionEntry JSON_stringify validMessage validSchema).
Abbreviation apply_path := (apply_path JSON_stringify validMessage validSchema).
Abbreviation context_of := (context_of JSON_stringify JSON_parse).
Abbreviation check := (check_entry JSON_stringify JSON_parse validMessage validSchema).
Abbreviation stage := (stage JSON_stringify JSON_parse validMessage validSchema).
Abbreviation appendBatch := (appendBatch JSON_stringify JSON_parse validMessage validSchema).
Abbreviation projection_at := (projection_at JSON_stringify validMessage validSchema).
Abbreviation flush := (flushProjectionTools JSON_stringify).
Abbreviation result_message := (result_message JSON_stringify).

Abbreviation coherent := (coherent JSON_stringify JSON_parse validMessage validSchema).

(** * The placement of a batch *)

(** Each entry follows the one before it. *)
Fixpoint chain (parent : option string) (l : list node) : Prop :=
  match l with [] => True | n :: l => n_parent n = parent /\ chain (Some (n_id n)) l end.

Definition end_of (parent : option string) (l : list node) : option string := match last l with Some n => Some (n_id n) | None => parent end.

Lemma end_of_cons parent n l : end_of (Some (n_id n)) l = end_of parent (n :: l).
Proof. unfold end_of. destruct l as [|m l _] using rev_ind; [done|]. by rewrite app_comm_cons, !last_snoc. Qed.

Lemma up_chain entries h path l : up entries h None path -> chain h l -> NoDup (map n_id l) -> (forall n, n ∈ l -> index_get entries (n_id n) = None) -> up (entries ++ l) (end_of h l) None (path ++ l).
Proof.
  revert entries h path. induction l as [|n l IH]; intros entries h path Hup Hch Hnd Hnew; [by rewrite !app_nil_r|]. destruct Hch as [Hp Hch]. simpl in Hnd. apply NoDup_cons in Hnd as [Hn Hnd].
  rewrite <- (end_of_cons h n l). replace (entries ++ n :: l) with ((entries ++ [n]) ++ l) by (by rewrite <- app_assoc). replace (path ++ n :: l) with ((path ++ [n]) ++ l) by (by rewrite <- app_assoc).
  apply IH; [|done|done|].
  - apply up_step; [done|apply index_get_snoc|]. rewrite Hp. apply up_app; [|done]. intros m ->%list_elem_of_singleton. apply Hnew. by left.
  - intros m Hm. rewrite index_get_app; [apply Hnew; by right|]. intros x ->%list_elem_of_singleton Heq. apply Hn. rewrite Heq. apply list_elem_of_fmap. by exists m.
Qed.

(** What staging says of the entries it lets through. *)
Record staged_ok (c : conversation) (parent : option string) (appends : list append) (new : list node) : Prop := MkStaged {
  so_forms : Forall2 (fun a n => e_type (n_entry n) = a_type a /\ e_payload (n_entry n) = Some (a_payload a)) appends new;
  so_chain : Forall (fun a => a_parentId a = None) appends -> chain parent new;
  so_loadouts : Forall (fun n => e_type (n_entry n) = ModelLoadout -> validateLoadout validSchema (e_payload (n_entry n)) = Ok tt) new;
  so_first : match new with n :: _ => snd (check c n) = Ok tt | [] => True end;
}.

Lemma staged_spec c uuid clock staged parent appends c' staged' parent' : stage c uuid clock staged parent appends = (c', Ok (staged', parent')) ->
  exists new, staged' = staged ++ new /\ staged_ok c parent appends new /\ NoDup (map n_id new) /\ (forall n, n ∈ new -> n_id n ∉ map n_id staged) /\ parent' = end_of parent new.
Proof.
  revert c staged parent. induction appends as [|a appends IH]; intros c staged parent; cbn [Conversation.stage].
  - intros [= <- <- <-]. exists []. rewrite app_nil_r. split_and!; [done|by split|constructor|intros ? H; by apply not_elem_of_nil in H|done].
  - destruct (_ || _) eqn:Eid; [done|]. apply orb_false_iff in Eid as [_ Eid%bool_decide_eq_false]. set (n := MkNode _ _ _). destruct (check c n) as [c1 [[]|e]] eqn:Ec; [|done].
    intros (new & -> & [F1 F2 F3 F4] & Hnd & Hdis & ->)%IH. exists (n :: new). rewrite <- app_assoc. split_and!; [done| | | |apply (end_of_cons parent n)].
    + split; [by constructor| |constructor; [|done]|by rewrite Ec].
      * intros Hall. inversion_clear Hall as [|? ? Ha Hall']. split; [simpl; by rewrite Ha|by apply F2].
      * intros Ht. unfold check_entry in Ec. rewrite Ht in Ec. injection Ec as _ Ec. exact Ec.
    + simpl. apply NoDup_cons. split; [|done]. intros (m & Hid & Hm)%list_elem_of_fmap. apply (Hdis m Hm). rewrite <- Hid. rewrite map_app. apply elem_of_app. right. by left.
    + intros m [-> |Hm]%elem_of_cons; [done|]. intros H. apply (Hdis m Hm). rewrite map_app. apply elem_of_app. by left.
Qed.

(** * Identifiers of a path *)

(** The identifier of the summary of a compaction. *)
Definition summary_key (n : node) : string := default EmptyString (as_string (field (field (field (e_payload (n_entry n)) "modelView") "summaryMessage") "id")).

Definition apart (entries : list node) : Prop := forall n m, n ∈ entries -> m ∈ entries -> e_type (n_entry m) = CompactionEntry -> n_id n <> summary_key m.

Record keys_ok (path : list node) (p : projection) : Prop := MkKeys {
  ky_tools : forall n, n ∈ p_tools p -> n ∈ path;
  ky_nodup : NoDup (map n_id (p_tools p));
  ky_keys : forall k, k ∈ (p_editable p).*1 -> (exists n, n ∈ path /\ n_id n = k /\ n_id n ∉ map n_id (p_tools p)) \/ exists n, n ∈ path /\ e_type (n_entry n) = CompactionEntry /\ k = summary_key n;
}.

Lemma flush_keys tools (editable : list (string * message)) x : x ∈ (foldl (fun m n => assoc_set m (n_id n) (result_message n)) editable tools).*1 -> x ∈ editable.*1 \/ x ∈ map n_id tools.
Proof.
  revert editable. induction tools as [|n tools IH]; intros editable; [by left|]. simpl. intros [H|H]%IH; [|right; by right].
  apply assoc_set_key in H as [-> |H]; [right; by left|by left].
Qed.

Lemma keys_flushed path p : keys_ok path p -> keys_ok path (flush p).
Proof.
  intros [H1 H2 H3]. split; simpl; [by intros n ?%not_elem_of_nil|constructor|]. intros k [Hk|Hk]%flush_keys.
  - destruct (H3 k Hk) as [(n & Hn & Hid & _)|H]; [left|by right]. exists n. split_and!; [done|done|apply not_elem_of_nil].
  - apply list_elem_of_fmap in Hk as (n & -> & Hn). left. exists n. split_and!; [|done|apply not_elem_of_nil]. apply H1. unfold orderedTools in Hn. by rewrite js_sort_perm in Hn.
Qed.

Lemma keys_weaken path n p : keys_ok path p -> keys_ok (path ++ [n]) p.
Proof.
  intros [H1 H2 H3]. split; [|done|].
  - intros m Hm. apply elem_of_app. left. by apply H1.
  - intros k Hk. destruct (H3 k Hk) as [(m & Hm & ?)|(m & Hm & ?)]; [left|right]; exists m; (split; [apply elem_of_app; by left|done]).
Qed.

Lemma keys_same path p q : keys_ok path p -> p_tools q = p_tools p -> p_editable q = p_editable p -> keys_ok path q.
Proof. intros [H1 H2 H3] Ht He. split; rewrite ?Ht, ?He; done. Qed.

Lemma keys_set path p q n k m : keys_ok path p -> p_tools p = [] -> p_tools q = [] -> p_editable q = assoc_set (p_editable p) k m -> n ∈ path -> (n_id n = k \/ (e_type (n_entry n) = CompactionEntry /\ k = summary_key n)) -> keys_ok path q.
Proof.
  intros [H1 H2 H3] Ht Htq He Hn Hk. split; rewrite ?Htq; [by intros ? ?%not_elem_of_nil|constructor|]. intros x Hx. rewrite He in Hx. apply assoc_set_key in Hx as [-> |Hx].
  - destruct Hk as [Hk|[Hc Hk]]; [left|right]; exists n; [split_and!; [done|done|apply not_elem_of_nil]|done].
  - rewrite Ht in H3. by apply H3.
Qed.

Lemma record_get v k : assoc_get (default [] (record_fields v)) k = field v k.
Proof. by destruct v as [[]|]. Qed.

Lemma keys_step path p n q : keys_ok path p -> n_id n ∉ map n_id path -> apply_entry p n = Ok q -> keys_ok (path ++ [n]) q.
Proof.
  intros Hk Hn. pose proof (keys_weaken _ n _ Hk) as Hw. pose proof (keys_flushed _ _ Hw) as Hf. assert (Hin : n ∈ path ++ [n]) by (apply elem_of_app; right; by left).
  assert (Hm : forall m q, Ok (E := error) (place_message JSON_stringify p (e_id (n_entry n)) m) = Ok q -> keys_ok (path ++ [n]) q).
  { intros m q' [= <-]. eapply (keys_set _ (flush p)); [done|done|done|done|done|by left]. }
  unfold applyProjectionEntry. destruct (e_type (n_entry n)) eqn:Et; cbn [bool_decide]; unfold messageFromSessionEntry; rewrite ?Et; try (by intros [= <-]); try apply Hm.
  - destruct (validateLoadout _ _); [|done]. intros [= <-]. by apply (keys_same _ (flush p)).
  - destruct (validateEdit _ _ _); [|done]. intros [= <-]. by apply (keys_same _ (flush p)).
  - rewrite bool_decide_eq_true_2 by done. simpl. destruct (is_true _); [|by intros [= <-]]. destruct (negb _); [done|]. destruct (validateCompactionView _ _ _); [|done]. intros [= <-].
    eapply (keys_set _ (flush p)); [done|done|done|done|done|right]. split; [done|]. unfold summary_key. simpl. by rewrite record_get.
  - intros [= <-]. destruct Hk as [H1 H2 H3]. split; simpl.
    + intros m [Hm'|Hm']%elem_of_app; apply elem_of_app; [left; by apply H1|by right].
    + rewrite map_app. apply NoDup_app. split_and!; [done| |apply NoDup_singleton]. intros x (m & -> & Hm')%list_elem_of_fmap Hx%list_elem_of_singleton. apply Hn. rewrite <- Hx.
      apply list_elem_of_fmap. exists m. split; [done|by apply H1].
    + intros k Hkey. destruct (H3 k Hkey) as [(m & Hm' & Hid & Hnew)|(m & Hm' & Hc)]; [left|right]; exists m; (split; [apply elem_of_app; by left|]); [|done]. split; [done|].
      rewrite map_app. intros [H|H%list_elem_of_singleton]%elem_of_app; [done|]. apply Hn. rewrite <- H. apply list_elem_of_fmap. by exists m.
  - intros [= <-]. by apply (keys_same _ p).
  - destruct (custom_message (n_entry n)); [apply Hm|by intros [= <-]].
Qed.

(** Along the path to an entry, the results that wait have keys of their own. *)
Lemma keys_path path q : NoDup (map n_id path) -> snd (apply_path empty_projection path) = Ok q -> keys_ok path q.
Proof.
  revert q. induction path as [|n path IH] using rev_ind; intros q Hnd; [intros [= <-]; split; simpl; [by intros ? ?%not_elem_of_nil|constructor|by intros ? ?%not_elem_of_nil]|].
  rewrite map_app in Hnd. apply NoDup_app in Hnd as (Hnd & Hd & _). rewrite apply_path_app. destruct (snd (apply_path empty_projection path)) as [p|]; [|done]. cbn [Conversation.apply_path snd].
  destruct (apply_entry p n) as [r|] eqn:E; [|done]. intros [= <-]. apply (keys_same _ r); [|done|done]. apply (keys_step path p); [by apply IH| |done]. intros H. apply (Hd _ H). by left.
Qed.

Lemma keys_fresh path p : keys_ok path p -> apart path -> forall n, n ∈ p_tools p -> n_id n ∉ (p_editable p).*1.
Proof.
  intros [H1 H2 H3] Ha n Hn Hin. destruct (H3 _ Hin) as [(m & _ & Hid & Hnew)|(m & Hm & Hc & Hid)].
  - apply Hnew. rewrite Hid. apply list_elem_of_fmap. by exists n.
  - apply (Ha n m); [by apply H1|done..].
Qed.

(** The results that wait join the messages that an edit can name, at the end. *)
Lemma flush_editable path p : keys_ok path p -> apart path -> (p_editable (flush p)).*2 = (p_editable p).*2 ++ map result_message (orderedTools (p_tools p)).
Proof.
  intros Hk Ha. pose proof (keys_fresh _ _ Hk Ha) as Hf. destruct Hk as [_ Hnd _]. simpl. unfold orderedTools. pose proof (js_sort_perm tool_order (p_tools p)) as Hp.
  assert (Hnd' : NoDup (map n_id (js_sort tool_order (p_tools p)))) by (by rewrite Hp). assert (Hf' : forall n, n ∈ js_sort tool_order (p_tools p) -> n_id n ∉ (p_editable p).*1) by (intros n Hn; apply Hf; by rewrite <- Hp).
  revert Hnd' Hf'. generalize (js_sort tool_order (p_tools p)), (p_editable p). clear. intros l. induction l as [|n l IH]; intros e Hnd Hf; [by rewrite app_nil_r|].
  simpl in *. apply NoDup_cons in Hnd as [Hn Hnd]. rewrite (assoc_set_fresh e) by (apply Hf; by left). rewrite IH; [by rewrite fmap_app, <- app_assoc|done|].
  intros m Hm. rewrite fmap_app. intros [H|H%list_elem_of_singleton]%elem_of_app; [apply (Hf m); [by right|done]|]. apply Hn. simpl in H. rewrite <- H. apply list_elem_of_fmap. by exists m.
Qed.

(** * What is accepted applies *)

(** Two entries that say the same. *)
Definition says (n m : node) : Prop := e_type (n_entry n) = e_type (n_entry m) /\ e_payload (n_entry n) = e_payload (n_entry m) /\ n_parent n = n_parent m.

(** Most entries apply to any conversation. *)
Lemma plain_applies p n : e_type (n_entry n) <> ContextEdit -> e_type (n_entry n) <> CompactionEntry ->
  (e_type (n_entry n) = ModelLoadout -> validateLoadout validSchema (e_payload (n_entry n)) = Ok tt) -> exists q, apply_entry p n = Ok q.
Proof.
  intros He Hc Hl. unfold applyProjectionEntry, messageFromSessionEntry. destruct (e_type (n_entry n)); try done; try by eexists.
  - rewrite Hl by done. by eexists.
  - destruct (custom_message (n_entry n)); by eexists.
Qed.

Lemma plain_apply l p : Forall (fun n => e_type (n_entry n) <> ContextEdit /\ e_type (n_entry n) <> CompactionEntry /\
  (e_type (n_entry n) = ModelLoadout -> validateLoadout validSchema (e_payload (n_entry n)) = Ok tt)) l -> exists q, snd (apply_path p l) = Ok q.
Proof.
  revert p. induction l as [|n l IH]; intros p H; [by eexists|]. inversion_clear H as [|? ? (He & Hc & Hl) Hr]. destruct (plain_applies p n He Hc Hl) as [q Hq].
  destruct (IH (visited q n) Hr) as [r Hr']. exists r. cbn [Conversation.apply_path]. rewrite Hq. by destruct (apply_path (visited q n) l).
Qed.

Lemma same_ids_in l ids m : same_ids l ids = true -> m ∈ l -> exists v, message_id m = Some v.
Proof.
  revert ids. induction l as [|x l IH]; intros ids H Hm; [by apply not_elem_of_nil in Hm|]. destruct ids as [|id ids]; [done|]. simpl in H. apply andb_true_iff in H as [H1 H2].
  apply elem_of_cons in Hm as [-> |Hm]; [|by apply (IH ids)]. unfold same_id in H1. destruct (message_id x); [by eexists|done].
Qed.

Lemma last_n_snoc n l m : (0 < n)%nat -> m ∈ last_n n (l ++ [m]).
Proof. intros Hn. unfold last_n. rewrite length_app. simpl. rewrite drop_app_le by lia. apply elem_of_app. right. by left. Qed.

(** A compaction is refused while a partial message is the last one. *)
Lemma partial_blocks_compaction view l content : validateCompactionView validMessage view (l ++ [partial_message content]) <> Ok tt.
Proof.
  unfold validateCompactionView. destruct (field view "keptIds") as [[| | | |ids|]|]; try done. destruct (negb (bool_decide _) || _) eqn:E; [done|]. destruct (negb (validMessage _)); [done|].
  destruct (_ || negb (is_true _)); [done|]. rewrite List.filter_app. simpl. set (history := List.filter _ l). apply orb_false_iff in E as [_ E%Nat.eqb_neq].
  destruct (same_ids (last_n (length ids) (history ++ [partial_message content])) ids) eqn:Es.
  - destruct (same_ids_in _ _ (partial_message content) Es) as [v Hv]; [apply last_n_snoc; lia|done].
  - simpl. by rewrite !orb_true_r.
Qed.

Lemma first_applies c path p n m : coherent c -> up (c_entries c) (c_head c) None path -> snd (apply_path empty_projection path) = Ok p -> apart path ->
  n_parent m = c_head c -> says n m -> snd (check c m) = Ok tt -> exists q, apply_entry p n = Ok q.
Proof.
  intros Hc Hup Hp Ha Hpar (Et & Ep & En) Hch. assert (Hat : projection_at (c_entries c) (c_head c) = Ok p) by (apply projection_at_up; by exists path).
  pose proof (keys_path _ _ (up_nodup _ _ _ _ Hup) Hp) as Hk. unfold check_entry in Hch. destruct (decide (e_type (n_entry m) = ContextEdit)) as [He|He]; [|destruct (decide (e_type (n_entry m) = CompactionEntry)) as [Hco|Hco]].
  - rewrite He in Hch. pose proof (readProjection_spec JSON_stringify JSON_parse validMessage validSchema c (c_head c) Hc) as Hr. destruct (readProjection _ _ _ c (c_head c)) as [c' r]. destruct Hr as [-> _]. rewrite Hat in Hch. cbn [snd] in Hch.
    unfold applyProjectionEntry. rewrite Et, He, Ep, (flush_editable path p Hk Ha). destruct (validateEdit _ _ _); [by eexists|done].
  - rewrite Hco in Hch. unfold applyProjectionEntry. rewrite Et, Hco, Ep, En, Hpar, bool_decide_eq_true_2 by done. unfold messageFromSessionEntry. rewrite Et, Hco. simpl.
    assert (Hview : is_true (field (e_payload (n_entry m)) "modelView") = true -> (same_head (field (field (e_payload (n_entry m)) "modelView") "baseHeadId") (c_head c) = true /\
      validateCompactionView validMessage (field (e_payload (n_entry m)) "modelView") (x_messages (context_of (c_head c) p)) = Ok tt)).
    { intros Hv. destruct (e_payload (n_entry m)) as [j|]; [|done]. destruct j as [| | | | |fs]; try done. rewrite Hv in Hch. destruct (same_head _ _); [|done]. destruct (bool_decide _); [|done]. simpl in Hch.
      pose proof (materialize_spec JSON_stringify JSON_parse validMessage validSchema c (c_head c) Hc) as Hm. destruct (materialize _ _ _ _ c (c_head c)) as [c' r]. destruct Hm as [-> _]. unfold context_at in Hch. rewrite Hat in Hch. done. }
    destruct (is_true _); [|by eexists]. destruct (Hview eq_refl) as [-> Hv]. simpl. unfold Conversation.context_of in Hv. cbn [x_messages] in Hv. rewrite app_assoc in Hv.
    destruct (reduceAssistantFrames JSON_parse (p_frames p)) as [content|]; [|simpl in Hv; rewrite app_nil_r in Hv; rewrite Hv; by eexists].
    exfalso. rewrite projectEdits_app in Hv. by apply partial_blocks_compaction in Hv.
  - apply plain_applies; rewrite Et, ?Ep; try done. intros Hl. by rewrite Hl in Hch.
Qed.

(** * Batches *)

Abbreviation run := (perform JSON_stringify JSON_parse validMessage validSchema).
Abbreviation context_at := (context_at JSON_stringify JSON_parse validMessage validSchema).

(** An entry that was committed says what was staged and sits where it was placed. *)
Definition settles (n m : node) : Prop := says n m /\ n_id n = n_id m.

Lemma committed_settle appends staged committed : Forall2 (fun a n => e_type (n_entry n) = a_type a /\ e_payload (n_entry n) = Some (a_payload a)) appends staged ->
  Forall2 (fun a n => e_payload (n_entry n) = Some (a_payload a)) appends committed -> Forall2 (fun n s => placed_as JSON_stringify n s = true) committed staged -> Forall2 settles committed staged.
Proof.
  intros Hf. revert committed. induction Hf as [|a m appends staged [Ht Hp] Hf IH]; intros committed Hpay Hpl; [by inversion Hpl|]. inversion Hpl as [|n ? committed' ? Hn Hrest]; subst. inversion_clear Hpay as [|? ? ? ? Hpn Hprest].
  constructor; [|by apply IH]. unfold placed_as in Hn. rewrite !andb_true_iff, !bool_decide_eq_true in Hn. destruct Hn as [[[Hid Hpar] Htype] _]. split; [|done]. split_and!; [done|by rewrite Hpn, Hp|done].
Qed.

Lemma settle_chain h committed staged : Forall2 settles committed staged -> chain h staged -> chain h committed /\ map n_id committed = map n_id staged /\ end_of h committed = end_of h staged.
Proof.
  intros Hf. revert h. induction Hf as [|n m committed staged [(_ & _ & Hpar) Hid] Hf IH]; intros h; [done|]. intros [Hp Hch]. rewrite <- !end_of_cons, !Hid. destruct (IH _ Hch) as (H1 & H2 & H3). simpl. rewrite Hid, H2, Hpar. by split_and!.
Qed.

Lemma settle_plain appends committed staged : Forall2 settles committed staged -> Forall2 (fun a n => e_type (n_entry n) = a_type a /\ e_payload (n_entry n) = Some (a_payload a)) appends staged ->
  Forall (fun n => e_type (n_entry n) = ModelLoadout -> validateLoadout validSchema (e_payload (n_entry n)) = Ok tt) staged -> Forall (fun a => a_type a <> ContextEdit /\ a_type a <> CompactionEntry) appends ->
  Forall (fun n => e_type (n_entry n) <> ContextEdit /\ e_type (n_entry n) <> CompactionEntry /\ (e_type (n_entry n) = ModelLoadout -> validateLoadout validSchema (e_payload (n_entry n)) = Ok tt)) committed.
Proof.
  intros Hs. revert appends. induction Hs as [|n m committed staged [(Ht & Hp & _) _] Hs IH]; intros appends Hf Hl Ha; [constructor|].
  inversion Hf as [|a ? appends' ? [Hta _] Hf']; subst. inversion_clear Ha as [|? ? [Ha1 Ha2] Ha']. inversion_clear Hl as [|? ? Hl1 Hl']. constructor; [|by apply (IH appends')].
  rewrite Ht, Hp, Hta. split_and!; [done|done|]. intros H. apply Hl1. by rewrite Hta.
Qed.

Lemma batch_applies c path p committed staged appends : coherent c -> up (c_entries c) (c_head c) None path -> snd (apply_path empty_projection path) = Ok p -> apart path ->
  Forall2 settles committed staged -> staged_ok c (c_head c) appends staged -> Forall (fun a => a_parentId a = None) appends ->
  Forall (fun a => a_type a <> ContextEdit /\ a_type a <> CompactionEntry) (tail appends) -> exists q, snd (apply_path p committed) = Ok q.
Proof.
  intros Hc Hup Hp Ha Hs [Hf Hch Hl Hfirst] Hpar Hplain. destruct Hs as [|n m committed staged Hn Hs]; [by exists p|]. inversion Hf as [|a ? appends' ? Hfa Hf']; subst. inversion_clear Hl as [|? ? Hl1 Hl']. destruct (Hch Hpar) as [Hparm _].
  destruct (first_applies c path p n m Hc Hup Hp Ha Hparm (proj1 Hn) Hfirst) as [q Hq]. destruct (plain_apply committed (visited q n)) as [r Hr].
  { by apply (settle_plain appends' committed staged). }
  exists r. cbn [Conversation.apply_path]. rewrite Hq. by destruct (apply_path (visited q n) committed).
Qed.

Lemma appendBatch_ok c uuid clock appends committed c' : coherent c -> appendBatch c uuid clock appends (Committed committed) = (c', Ok committed) ->
  exists staged, staged_ok c (c_head c) appends staged /\ NoDup (map n_id staged) /\ (forall n, n ∈ staged -> index_get (c_entries c) (n_id n) = None) /\
    Forall2 (fun n s => placed_as JSON_stringify n s = true) committed staged /\ c_entries c' = c_entries c ++ committed /\ c_head c' = end_of (c_head c) staged.
Proof.
  intros Hc. unfold Conversation.appendBatch. destruct (stage c uuid clock [] (c_head c) appends) as [c1 [[staged h]|e]] eqn:Es; [|done]. destruct (negb _); [done|].
  pose proof (stage_read JSON_stringify JSON_parse validMessage validSchema c uuid clock [] (c_head c) appends Hc) as Hr. rewrite Es in Hr. destruct Hr as [_ (_ & A2 & A3)]. simpl in A2, A3.
  assert (Hfresh : forall n, n ∈ staged -> index_get (c_entries c) (n_id n) = None) by (eapply stage_fresh; [done|done|intros ? H; by apply not_elem_of_nil in H]).
  destruct (staged_spec _ _ _ _ _ _ _ _ _ Es) as (new & -> & Hok & Hnd & _ & ->).
  change ([] ++ new) with new in *. destruct (adopt JSON_stringify (c_entries c1) committed new) as [entries ok] eqn:Ea. destruct (adopt_prefix _ _ _ _ _ _ Ea) as (adopted & -> & _ & Hall). destruct ok; [|done]. destruct (Hall eq_refl) as [-> Hplaced].
  intros [= <-]. exists new. simpl. rewrite A2. by split_and!.
Qed.

Lemma context_at_path entries h x : context_at entries h = Ok x <-> exists path p, up entries h None path /\ snd (apply_path empty_projection path) = Ok p /\ x = context_of h p.
Proof.
  unfold ConversationProofs.context_at. split.
  - destruct (projection_at entries h) as [p|] eqn:E; [|done]. apply projection_at_up in E as (path & Hup & Hp). intros [= <-]. by exists path, p.
  - intros (path & p & Hup & Hp & ->). by rewrite (proj2 (projection_at_up _ _ _ _ _ _) (ex_intro _ path (conj Hup Hp))).
Qed.

Lemma context_answer c h x : coherent c -> snd (run c (GetContext h)) = Ok (AContext x) <-> context_at (c_entries c) h = Ok x.
Proof.
  intros Hc. simpl. pose proof (materialize_spec JSON_stringify JSON_parse validMessage validSchema c h Hc) as H. destruct (materialize _ _ _ _ c h) as [c' r]. destruct H as [-> _]. simpl.
  destruct (context_at (c_entries c) h); simpl; [|done]. split; [by intros [= ->]|by intros [= ->]].
Qed.

(** C8: what a conversation accepts it can read back. The conversation can be read at its head;
    a batch is appended there whose entries name no parent of their own and of which only the
    first may be an edit or a compaction; the journal committed the payloads as they were
    staged; and no entry, old or new, bears the identifier of the summary of a compaction
    ([apart]). Then the path to the new head is the old path and the batch, and the conversation
    can be read there: an edit or a compaction that passed its checks when it was appended
    passes them whenever it is read, over the tool results that were waiting.
    [an_edit_on_another_branch_is_unreadable] is an edit that names a parent. *)
Theorem accepted_entries_stay_readable sessionId entries calls uuid clock appends committed c' x :
  let c := foldl (fun c q => fst (run c q)) (new_conversation sessionId entries) calls in
  snd (run c (GetContext (c_head c))) = Ok (AContext x) ->
  Forall (fun a => a_parentId a = None) appends -> Forall (fun a => a_type a <> ContextEdit /\ a_type a <> CompactionEntry) (tail appends) ->
  Forall2 (fun a n => e_payload (n_entry n) = Some (a_payload a)) appends committed -> apart (c_entries c ++ committed) ->
  run c (AppendBatch uuid clock appends (Committed committed)) = (c', Ok (AnEntries committed)) ->
  exists path, getPath c (c_head c) = Ok path /\ getPath c' (c_head c') = Ok (path ++ committed) /\ c_entries c' = c_entries c ++ committed /\
    exists y, snd (run c' (GetContext (c_head c'))) = Ok (AContext y).
Proof.
  intros c Hx Hpar Hplain Hpay Hap Hrun. assert (Hc : coherent c) by apply reachable_coherent. apply (context_answer _ _ _ Hc), context_at_path in Hx as (path & p & Hup & Hp & _).
  assert (Hc' : coherent c') by (pose proof (reachable_coherent JSON_stringify JSON_parse validMessage validSchema sessionId entries (calls ++ [AppendBatch uuid clock appends (Committed committed)])) as H; rewrite foldl_app in H; simpl in H; fold c in H; simpl in Hrun; by rewrite Hrun in H).
  simpl in Hrun. destruct (appendBatch c uuid clock appends (Committed committed)) as [d [r|e]] eqn:Ha; [|done]. injection Hrun as <- ->.
  destruct (appendBatch_ok _ _ _ _ _ _ Hc Ha) as (staged & Hok & Hnd & Hfresh & Hplaced & He & Hh). pose proof (committed_settle _ _ _ (so_forms _ _ _ _ Hok) Hpay Hplaced) as Hs.
  destruct (settle_chain _ _ _ Hs (so_chain _ _ _ _ Hok Hpar)) as (Hch & Hids & Hend). assert (Hup' : up (c_entries d) (c_head d) None (path ++ committed)).
  { rewrite He, Hh, <- Hend. apply up_chain; [done|done|by rewrite Hids|]. intros n Hn. assert (Hin : n_id n ∈ map n_id staged) by (rewrite <- Hids; apply list_elem_of_fmap; by exists n). apply list_elem_of_fmap in Hin as (m & -> & Hm). by apply Hfresh. }
  exists path. unfold getPath. rewrite (proj2 (pathAfter_up _ _ _ _) Hup), (proj2 (pathAfter_up _ _ _ _) Hup'). split_and!; [done|done|done|].
  assert (Hap' : apart path) by (intros n m Hn Hm; apply Hap; apply elem_of_app; left; by apply (up_entries (c_entries c) (c_head c) None path)).
  destruct (batch_applies c path p committed staged appends Hc Hup Hp Hap' Hs Hok Hpar Hplain) as [q Hq]. exists (context_of (c_head d) q). apply context_answer; [done|]. apply context_at_path. exists (path ++ committed), q. split_and!; [done| |done]. by rewrite apply_path_app, Hp.
Qed.

End Commits.

(** * Concrete runs *)

Definition sample_stringify (v : json) : string := match v with JStr s => s | _ => "value"%string end.
Definition sample_parse (s : string) : option json := None.
Definition sample_message (v : option json) : bool := is_true (field v "role").
Definition sample_schema (v : option json) : bool := is_true v.

Definition sample_node (id : string) (parent : option string) (type : entry_type) (payload : json) (seq : Z) : node :=
  MkNode (MkEntry id "session" None type seq (Some payload)) parent seq.

Abbreviation sample_run := (perform sample_stringify sample_parse sample_message sample_schema).
Abbreviation from entries calls := (foldl (fun c q => fst (sample_run c q)) (new_conversation "session" entries) calls).

Definition no_uuid (k : nat) : string := EmptyString.
Definition sample_clock (k : nat) : Z := 7.
Definition text_payload (s : string) : json := JObj [("text"%string, JStr s)].

(** A question, two tool results that wait, and an answer. *)
Definition sample_entries : list node :=
  [sample_node "u1" None UserMessageEntry (text_payload "hello") 1;
   sample_node "t1" (Some "u1"%string) ToolExecution (JObj [("sourceIndex"%string, JNum 1)]) 2;
   sample_node "t0" (Some "t1"%string) ToolExecution (JObj [("sourceIndex"%string, JNum 0)]) 3].

Definition sample_batch : call :=
  AppendBatch no_uuid sample_clock [MkAppend AgentTurn (text_payload "done") (Some "a1"%string) None]
    (Committed [sample_node "a1" (Some "t0"%string) AgentTurn (text_payload "done") 4]).

Definition at_head : projection := match projection_at sample_stringify sample_message sample_schema sample_entries (Some "t0"%string) with Ok p => p | Err _ => empty_projection end.

Lemma updates_rebuild_the_context_witness :
  exists u, u_reset u = false /\ map message_id (u_messages u) = [Some "a1"%string] /\
  exists x, snd (materialize sample_stringify sample_parse sample_message sample_schema (from sample_entries [sample_batch]) (Some "a1"%string)) = Ok x /\
    x_messages x = (if u_reset u then u_messages u else x_messages (context_of sample_stringify sample_parse (Some "t0"%string) at_head) ++ u_messages u) /\
    u_total u = zlen (x_messages x) /\ u_headId u = Some "a1"%string.
Proof.
  eexists. split; [|split]; cycle 2.
  - eapply (updates_rebuild_the_context sample_stringify sample_parse sample_message sample_schema "session" sample_entries [sample_batch] (Some "t0"%string) at_head).
    + by vm_compute.
    + by vm_compute.
    + right. eexists. split; by vm_compute.
    + by vm_compute.
  - by vm_compute.
  - by vm_compute.
Defined.

(** An edit of a result that still waits. *)
Definition sample_edit : json :=
  JObj [("version"%string, JNum 1); ("edits"%string, JArr [JObj [("messageId"%string, JStr "t1"); ("action"%string, JStr "exclude")]])].

Definition edit_appends : list append := [MkAppend ContextEdit sample_edit (Some "e1"%string) None; MkAppend AgentTurn (text_payload "done") (Some "a1"%string) None].
Definition edit_committed : list node := [sample_node "e1" (Some "t0"%string) ContextEdit sample_edit 4; sample_node "a1" (Some "e1"%string) AgentTurn (text_payload "done") 5].

Definition edited : conversation := fst (sample_run (from sample_entries []) (AppendBatch no_uuid sample_clock edit_appends (Committed edit_committed))).

Lemma sample_apart : apart (sample_entries ++ edit_committed).
Proof. intros n m _ Hm. by repeat (apply elem_of_cons in Hm as [-> |Hm]; [done|]); apply not_elem_of_nil in Hm. Defined.

Lemma accepted_entries_stay_readable_witness :
  exists path, getPath (from sample_entries []) (Some "t0"%string) = Ok path /\ getPath edited (Some "a1"%string) = Ok (path ++ edit_committed) /\
    c_entries edited = sample_entries ++ edit_committed /\ exists y, snd (sample_run edited (GetContext (Some "a1"%string))) = Ok (AContext y).
Proof.
  eapply (accepted_entries_stay_readable sample_stringify sample_parse sample_message sample_schema "session" sample_entries [] no_uuid sample_clock edit_appends edit_committed).
  - by vm_compute.
  - by repeat constructor.
  - by repeat constructor.
  - by repeat constructor.
  - exact sample_apart.
  - by vm_compute.
Defined.

(** * Edits away from the head *)

(** The exclusion of a result that only the head has seen, under an earlier parent. *)
Definition branched_edit : call :=
  AppendBatch no_uuid sample_clock [MkAppend ContextEdit sample_edit (Some "e1"%string) (Some (Some "u1"%string))]
    (Committed [sample_node "e1" (Some "u1"%string) ContextEdit sample_edit 4]).

(** An edit is checked against what is shown at the head, wherever it is appended.  This one is
    accepted, and from then on the conversation cannot be read at its head. *)
Example an_edit_on_another_branch_is_unreadable :
  (is_ok (snd (sample_run (from sample_entries []) branched_edit)), c_head (from sample_entries [branched_edit]),
   is_ok (snd (sample_run (from sample_entries [branched_edit]) (GetContext (Some "e1"%string))))) = (true, Some "e1"%string, false).
Proof. by vm_compute. Qed.

(** * An interrupted stream *)

(** A stream was cut off after a first frame, and the next question was asked. *)
Definition frame_payload : json := JObj [("frame"%string, JObj [("type"%string, JStr "text_start"); ("index"%string, JNum 0); ("text"%string, JStr "I th")])].

Definition cut_entries : list node :=
  [sample_node "u1" None UserMessageEntry (text_payload "first") 1;
   sample_node "f1" (Some "u1"%string) AssistantFrame frame_payload 2;
   sample_node "u2" (Some "f1"%string) UserMessageEntry (text_payload "second") 3].

Definition cut_answer : call :=
  AppendBatch no_uuid sample_clock [MkAppend AgentTurn (text_payload "answer") (Some "a2"%string) None]
    (Committed [sample_node "a2" (Some "u2"%string) AgentTurn (text_payload "answer") 4]).

Abbreviation sample_update := (getModelUpdate sample_stringify sample_parse sample_message sample_schema).
Abbreviation ids_of := (map message_id).

(** While frames are open their message is counted, and it comes after later questions.  The
    answer then takes its place, so an update that counts messages leaves the answer out: it
    neither starts over nor brings anything. *)
Example open_frames_hide_a_turn :
  ((fun u => (u_reset u, ids_of (u_messages u), u_total u)) <$> match snd (sample_update (from cut_entries []) None 0) with Ok u => Some u | Err _ => None end) =
    Some (true, [Some "u1"%string; Some "u2"%string; None], 3) /\
  ((fun u => (u_reset u, ids_of (u_messages u), u_total u)) <$> match snd (sample_update (from cut_entries [cut_answer]) (Some (Some "u2"%string)) 3) with Ok u => Some u | Err _ => None end) =
    Some (false, [], 3) /\
  ((fun x => ids_of (x_messages x)) <$> match snd (materialize sample_stringify sample_parse sample_message sample_schema (from cut_entries [cut_answer]) (Some "a2"%string)) with Ok x => Some x | Err _ => None end) =
    Some [Some "u1"%string; Some "u2"%string; Some "a2"%string].
Proof. by vm_compute. Qed.

(** A compaction that keeps such a message throws, and the tail has to be kept: none succeeds
    until an answer settles. *)
Lemma open_frames_stop_compaction c entry_fields summary kept content more uuid :
  compaction_append c false entry_fields (Some (summary, kept ++ partial_message content :: more)) (c_head c) uuid = Err KeptWithoutIdentity.
Proof.
  unfold compaction_append. rewrite bool_decide_eq_true_2 by done. simpl. destruct (mapM _ _) as [ids|] eqn:E; [|done].
  apply mapM_Some, Forall2_app_inv_l in E as (l1 & l2 & _ & H & _). inversion_clear H. done.
Qed.
