(* ===== verification/AsyncProg.v ===== *)
(** Asynchronous functions as programs that stop at their [await]s, many of which may be under
    way at once, and a rely-guarantee logic for them.

    A program reads and writes the shared state, asks the host for a value ([Ask], a synchronous
    call of code outside the model) and awaits one ([Await]): between the question of an [Await]
    and its answer other programs run.  [advance] runs a program up to its next [Await]. *)

From S2P Require Import Prelude.

Section Prog.
Context {S : Type} {R : Type -> Type} {E : Type}.

Inductive prog (A : Type) : Type :=
| Ret (a : A)
| Throw (e : E)
| Read (k : S -> prog A)
| Write (f : S -> S) (k : prog A)
| Ask {T : Type} (r : R T) (k : T -> prog A)
| Await {T : Type} (r : R T) (k : T -> prog A).

#[global] Arguments Ret {A} a.
#[global] Arguments Throw {A} e.
#[global] Arguments Read {A} k.
#[global] Arguments Write {A} f k.
#[global] Arguments Ask {A T} r k.
#[global] Arguments Await {A T} r k.

Fixpoint bind_prog {A B : Type} (p : prog A) (f : A -> prog B) : prog B :=
  match p with
  | Ret a => f a
  | Throw e => Throw e
  | Read k => Read (fun s => bind_prog (k s) f)
  | Write g k => Write g (bind_prog k f)
  | Ask r k => Ask r (fun t => bind_prog (k t) f)
  | Await r k => Await r (fun t => bind_prog (k t) f)
  end.

(** What a program returns or throws, as a value. *)
Fixpoint attempt {A : Type} (p : prog A) : prog (result E A) :=
  match p with
  | Ret a => Ret (Ok a)
  | Throw e => Ret (Err e)
  | Read k => Read (fun s => attempt (k s))
  | Write g k => Write g (attempt k)
  | Ask r k => Ask r (fun t => attempt (k t))
  | Await r k => Await r (fun t => attempt (k t))
  end.

Definition of_result {A : Type} (r : result E A) : prog A := match r with Ok a => Ret a | Err e => Throw e end.

(** [try { p } catch (e) { h }] and [try { p } finally { q }]. *)
Definition catch {A : Type} (p : prog A) (h : E -> prog A) : prog A :=
  bind_prog (attempt p) (fun r => match r with Ok a => Ret a | Err e => h e end).

Definition finally {A : Type} (p : prog A) (q : prog unit) : prog A :=
  bind_prog (attempt p) (fun r => bind_prog q (fun _ => of_result r)).

Definition write (f : S -> S) : prog unit := Write f (Ret tt).
Definition gets {A : Type} (f : S -> A) : prog A := Read (fun s => Ret (f s)).

(** A call of the host that may throw. *)
Definition ask {A : Type} (r : R (result E A)) : prog A := Ask r of_result.
Definition await {A : Type} (r : R (result E A)) : prog A := Await r of_result.

(** The answers of the host. *)
Definition oracle : Type := forall T : Type, R T -> T.

Fixpoint advance {A : Type} (o : oracle) (p : prog A) (s : S) : prog A * S :=
  match p with
  | Read k => advance o (k s) s
  | Write f k => advance o k (f s)
  | Ask r k => advance o (k (o _ r)) s
  | _ => (p, s)
  end.

Definition finished {A : Type} (p : prog A) : bool := match p with Ret _ | Throw _ => true | _ => false end.

(** * Rely and guarantee *)

Section Logic.
(** The answers that are possible, what others may do to the state while a program waits, and
    what a program does from one wait to the next. *)
Variable allowed : forall T : Type, R T -> T -> Prop.
Variable rely : S -> S -> Prop.
Variable stop : S -> S -> Prop.

(** [wp p Q s0 s]: from [s], reached from the state [s0] in which the program was resumed, every
    wait meets [stop] and the end meets [Q]. *)
Fixpoint wp {A : Type} (p : prog A) (Q : result E A -> S -> S -> Prop) (s0 s : S) : Prop :=
  match p with
  | Ret a => Q (Ok a) s0 s
  | Throw e => Q (Err e) s0 s
  | Read k => wp (k s) Q s0 s
  | Write f k => wp k Q s0 (f s)
  | Ask r k => forall t, allowed _ r t -> wp (k t) Q s0 s
  | Await r k => stop s0 s /\ forall s' t, rely s s' -> allowed _ r t -> wp (k t) Q s' s'
  end.

Lemma wp_mono {A} (p : prog A) (Q Q' : result E A -> S -> S -> Prop) s0 s : (forall r s0 s, Q r s0 s -> Q' r s0 s) -> wp p Q s0 s -> wp p Q' s0 s.
Proof.
  intros HQ. revert s0 s. induction p as [a|e|k IH|f k IH|T r k IH|T r k IH]; intros s0 s; simpl; auto.
  intros [Hs Hk]. split; auto.
Qed.

Lemma wp_bind {A B} (p : prog A) (f : A -> prog B) Q s0 s :
  wp p (fun r s0 s => match r with Ok a => wp (f a) Q s0 s | Err e => Q (Err e) s0 s end) s0 s -> wp (bind_prog p f) Q s0 s.
Proof. revert s0 s. induction p as [a|e|k IH|g k IH|T r k IH|T r k IH]; intros s0 s; simpl; auto. intros [Hs Hk]. split; auto. Qed.

Lemma wp_attempt {A} (p : prog A) Q s0 s : wp p (fun r s0 s => Q (Ok r) s0 s) s0 s -> wp (attempt p) Q s0 s.
Proof. revert s0 s. induction p as [a|e|k IH|g k IH|T r k IH|T r k IH]; intros s0 s; simpl; auto. intros [Hs Hk]. split; auto. Qed.

Lemma wp_catch {A} (p : prog A) h Q s0 s :
  wp p (fun r s0 s => match r with Ok a => Q (Ok a) s0 s | Err e => wp (h e) Q s0 s end) s0 s -> wp (catch p h) Q s0 s.
Proof. intros H. apply wp_bind, wp_attempt. eapply wp_mono; [|exact H]. by intros [a|e]. Qed.

Lemma wp_finally {A} (p : prog A) q Q s0 s :
  wp p (fun r s0 s => wp q (fun u s0 s => match u with Ok _ => Q r s0 s | Err e => Q (Err e) s0 s end) s0 s) s0 s -> wp (finally p q) Q s0 s.
Proof.
  intros H. apply wp_bind, wp_attempt. eapply wp_mono; [|exact H]. intros r s0' s' Hq. apply wp_bind. eapply wp_mono; [|exact Hq].
  intros [[]|e] s1 s2; [|done]. by destruct r.
Qed.

(** What a program that waits is owed when it is resumed. *)
Definition waits {A : Type} (p : prog A) (Q : result E A -> S -> S -> Prop) (s : S) : Prop :=
  match p with Await r k => forall s' t, rely s s' -> allowed _ r t -> wp (k t) Q s' s' | Ret _ | Throw _ => True | _ => False end.

Definition good (o : oracle) : Prop := forall T (r : R T), allowed T r (o T r).

Lemma wp_advance {A} o (p : prog A) Q s0 s : good o -> wp p Q s0 s ->
  let '(p', s') := advance o p s in
  waits p' Q s' /\ match p' with Ret a => Q (Ok a) s0 s' | Throw e => Q (Err e) s0 s' | _ => stop s0 s' end.
Proof.
  intros Ho. revert s. induction p as [a|e|k IH|f k IH|T r k IH|T r k IH]; intros s H; simpl in *; [done|done|by apply IH|by apply IH|by apply IH, H, Ho|].
  destruct H as [H1 H2]. by split.
Qed.

Lemma waits_rely {A} (p : prog A) Q s s' : Transitive rely -> rely s s' -> waits p Q s -> waits p Q s'.
Proof. intros Ht Hr. destruct p; simpl; try done. intros H s'' u Hs Hu. apply H; [by transitivity s'|done]. Qed.
End Logic.

(** * Programs that agree for a number of waits *)

Fixpoint agree {A : Type} (n : nat) (p q : prog A) {struct p} : Prop :=
  match p with
  | Ret a => q = Ret a
  | Throw e => q = Throw e
  | Read k => exists k', q = Read k' /\ forall s, agree n (k s) (k' s)
  | Write f k => exists k', q = Write f k' /\ agree n k k'
  | Ask r k => exists k', q = Ask r k' /\ forall t, agree n (k t) (k' t)
  | Await r k => exists k', q = Await r k' /\ match n with O => True | Datatypes.S n => forall t, agree n (k t) (k' t) end
  end.

Lemma agree_refl {A} n (p : prog A) : agree n p p.
Proof. revert n. induction p as [a|e|k IH|f k IH|T r k IH|T r k IH]; intros n; simpl; try done; eexists; (split; [done|]); auto. destruct n; auto. Qed.

Lemma agree_mono {A} n m (p q : prog A) : m <= n -> agree n p q -> agree m p q.
Proof.
  revert n m q. induction p as [a|e|k IH|f k IH|T r k IH|T r k IH]; intros n m q Hm; simpl; try done; intros (k' & -> & H); exists k'; (split; [done|]); [intros s; by apply (IH s n)|by apply (IH n)|intros t; by apply (IH t n)|].
  destruct m as [|m]; [done|]. destruct n as [|n]; [lia|]. intros t. apply (IH t n); [lia|done].
Qed.

Lemma agree_bind {A B} n (p q : prog A) (f g : A -> prog B) : agree n p q -> (forall m a, m <= n -> agree m (f a) (g a)) -> agree n (bind_prog p f) (bind_prog q g).
Proof.
  revert n q. induction p as [a|e|k IH|h k IH|T r k IH|T r k IH]; intros n q; simpl; [intros -> H; by apply H|by intros ->|..]; intros (k' & -> & H) Hf; eexists; (split; [done|]); cbn beta; auto.
  destruct n as [|n]; [done|]. intros t. apply IH; [done|]. intros m a Hm. apply Hf. lia.
Qed.

Lemma agree_attempt {A} n (p q : prog A) : agree n p q -> agree n (attempt p) (attempt q).
Proof.
  revert n q. induction p as [a|e|k IH|h k IH|T r k IH|T r k IH]; intros n q; simpl; [by intros ->|by intros ->|..]; intros (k' & -> & H); eexists; (split; [done|]); cbn beta; auto.
  destruct n as [|n]; [done|]. intros t. by apply IH.
Qed.

Lemma agree_catch {A} n (p q : prog A) h : agree n p q -> agree n (catch p h) (catch q h).
Proof. intros H. apply agree_bind; [by apply agree_attempt|]. intros m r _. apply agree_refl. Qed.

Lemma agree_finally {A} n (p q : prog A) h : agree n p q -> agree n (finally p h) (finally q h).
Proof. intros H. apply agree_bind; [by apply agree_attempt|]. intros m r _. apply agree_refl. Qed.

Lemma agree_advance {A} o n (p q : prog A) s : agree n p q -> exists p' q' s', advance o p s = (p', s') /\ advance o q s = (q', s') /\ agree n p' q'.
Proof.
  revert n q s. induction p as [a|e|k IH|h k IH|T r k IH|T r k IH]; intros n q s; simpl; [by intros ->; eexists _, _, _|by intros ->; eexists _, _, _|..]; intros (k' & -> & H); simpl; [by apply IH|by apply IH|by apply IH|].
  eexists _, _, _. split; [done|]. split; [done|]. simpl. by eexists.
Qed.
End Prog.

Arguments prog S R E A : clear implicits.
Arguments oracle R : clear implicits.

Declare Scope prog_scope.
Delimit Scope prog_scope with prog.
Notation "'do' x <- p ; q" := (bind_prog p (fun x => q)) (at level 200, x pattern, p at level 99, q at level 200, right associativity) : prog_scope.
Notation "p ;;; q" := (bind_prog p (fun _ => q)) (at level 100, q at level 200, right associativity) : prog_scope.
