(* ===== verification/Agent.v ===== *)
(** The agent and its turn loop (agent-core/src/agent.ts, turn/agent-loop-runner.ts,
    turn/context-transformer.ts, turn/stream-invoker.ts, turn/turn-finalizer.ts, queues.ts,
    journal-commit.ts).

    Each public method is a program of [AsyncProg]; the calls of an application and the answers
    of the host interleave at every [await].  The host answers for what is modelled elsewhere or
    belongs to the application: the journal ([ToolDispatch], [Conversation]), the dispatcher
    of tools ([ToolDispatch]), streams of models, hooks, compactors, the registry of tools.
    A message is the list of its fields.  The frames that a stream commits while it is collected
    are part of the answer to [Collect]; listeners of events run before the answer to [Emit]. *)

From S2P Require Import Prelude Json Reducer AsyncProg.

Open Scope prog_scope.

Notation chat := fields (only parsing).

(** A [SessionCommitError] with its certainty, and any other error. *)
Inductive failure : Type := CommitFailure (unknown : bool) (text : string) | Failure (text : string).

Definition failure_text (e : failure) : string := match e with CommitFailure _ t | Failure t => t end.

Record write_append : Type := MkWrite { w_type : entry_type; w_payload : json }.

Inductive agent_event : Type :=
| AgentStart
| AgentEnd (messages : list chat)
| TurnStart
| TurnEnd (message : chat) (toolResults : list chat)
| MessageStart (message : chat)
| MessageEnd (message : chat).

(** What the dispatcher leaves: the results it committed, with their identifiers, in the order of
    the calls, which is also the order of a reader; whether it adopted them (in one step),
    which it does not when another call of the batch throws; the calls still pending; and whether it asks to
    stop, if it does not throw. *)
Record tool_outcome : Type := MkOutcome { t_message : chat; t_id : string; t_adopted : bool }.
Record dispatched : Type := MkDispatched { d_results : list tool_outcome; d_pending : list string; d_terminate : result failure bool }.

Record prepared : Type := MkPrepared { r_model : option json; r_messages : option (list chat) }.

Inductive request : Type -> Type :=
| Tick : request unit
| Emit (e : agent_event) : request unit
| CommitBatch (l : list write_append) : request (result failure (list string))
| MergeTools (running : bool) : request (result failure unit)
| VisibleTools : request (result failure unit)
| PlanRecovery : request (result failure bool)
| RecoverTools : request dispatched
| KnownIds (messages : list chat) : request (result failure (list string))
| LoadoutChanged : request (result failure (option json))
| HeadContext (headId : option string) : request (result failure (list chat))
| CurrentHead : request (option string)
| SelectHead (headId : option string) : request (result failure unit)
| AdoptTools : request (result failure unit)
| NewId : request string
| Now : request Z
| PrepareRequest (messages : list chat) : request (result failure (option prepared))
| Sanitize : request (result failure unit)
| OpenStream : request (result failure unit)
| StreamSource : request fields
| Collect : request (result failure chat)
| FlushStream : request (result failure unit)
| ShouldCompact (messages : list chat) : request (result failure bool)
| CanCompact (history : list chat) : request (result failure bool)
| Compact (history : list chat) : request (result failure (list chat))
| SameConfiguration : request (result failure bool)
| SameHistory : request bool
| PlanCompaction (compacted : list chat) (headId : option string) : request (result failure (option json))
| ModelMessages : request (result failure (list chat))
| Transform (messages : list chat) : request (result failure (list chat))
| Convert (messages : list chat) : request (result failure (list chat))
| DispatchTools (m : chat) : request dispatched
| FinishTurn (m : chat) (results : list chat) : request (result failure (option bool))
| ShouldStop (m : chat) (results : list chat) : request (result failure bool)
| TaskStart : request (result failure unit)
| TaskDone : request (result failure unit)
| WaitIdle (w : nat) : request unit.

(** * State *)

Record life : Type := MkLife {
  runActive : bool; controller : option nat; controllers : nat; aborted : list nat; currentRun : bool;
  compacting : bool; compactionController : option nat; idleWait : option nat; idleWaits : nat; expiry : bool }.

(** Why a history starts over: the agent was opened with these messages, the messages it was
    opened with were captured, the conversation answered these at a selected head, a compaction
    in memory left these, an answer that overflowed was dropped, the agent was reset. *)
Inductive origin : Type :=
| Opened (l : list chat)
| Captured
| Selected (l : list chat)
| Compacted (l : list chat)
| Dropped
| Cleared.

(** What an observer of the journal, of the events and of the points where the history starts
    over sees, in order. *)
Inductive note : Type :=
| Wrote (l : list write_append) (ids : list string)
| Unseen (w : write_append) (id : string)
| Rebased (why : origin)
| Emitted (e : agent_event).

Record session : Type := MkSession {
  messages : list chat; isStreaming : bool; streamingMessage : option chat; pendingToolCalls : list string; errorMessage : option string; isFaulted : bool;
  providerSessionPersisted : bool; recoveryChecked : bool; initialMessagesRecorded : bool; trace : list note }.

Record queues : Type := MkQueues { steeringQueue : list chat; followUpQueue : list chat }.

Record agent : Type := MkAgent { a_life : life; a_session : session; a_queues : queues }.

Definition new_agent (initial : list chat) (persisted : bool) : agent :=
  MkAgent (MkLife false None 0 [] false false None None 0 false)
    (MkSession initial false None [] None false persisted false false [Rebased (Opened initial)]) (MkQueues [] []).

(** ** Updates *)

Definition on_life (f : life -> life) (s : agent) : agent := MkAgent (f (a_life s)) (a_session s) (a_queues s).
Definition on_session (f : session -> session) (s : agent) : agent := MkAgent (a_life s) (f (a_session s)) (a_queues s).
Definition on_queues (f : queues -> queues) (s : agent) : agent := MkAgent (a_life s) (a_session s) (f (a_queues s)).

Definition noted (n : note) (s : session) : session :=
  MkSession (messages s) (isStreaming s) (streamingMessage s) (pendingToolCalls s) (errorMessage s) (isFaulted s) (providerSessionPersisted s) (recoveryChecked s)
    (initialMessagesRecorded s) (trace s ++ [n]).

(** [messages.push(message)]. *)
Definition pushed (m : chat) (s : session) : session :=
  MkSession (messages s ++ [m]) (isStreaming s) (streamingMessage s) (pendingToolCalls s) (errorMessage s) (isFaulted s) (providerSessionPersisted s) (recoveryChecked s)
    (initialMessagesRecorded s) (trace s).

(** [state.messages = l]. *)
Definition rebased (why : origin) (l : list chat) (s : session) : session :=
  MkSession l (isStreaming s) (streamingMessage s) (pendingToolCalls s) (errorMessage s) (isFaulted s) (providerSessionPersisted s) (recoveryChecked s)
    (initialMessagesRecorded s) (trace s ++ [Rebased why]).

Definition with_stream (b : bool) (m : option chat) (s : session) : session :=
  MkSession (messages s) b m (pendingToolCalls s) (errorMessage s) (isFaulted s) (providerSessionPersisted s) (recoveryChecked s) (initialMessagesRecorded s) (trace s).

Definition with_pending (l : list string) (s : session) : session :=
  MkSession (messages s) (isStreaming s) (streamingMessage s) l (errorMessage s) (isFaulted s) (providerSessionPersisted s) (recoveryChecked s) (initialMessagesRecorded s) (trace s).

Definition with_errorMessage (e : option string) (s : session) : session :=
  MkSession (messages s) (isStreaming s) (streamingMessage s) (pendingToolCalls s) e (isFaulted s) (providerSessionPersisted s) (recoveryChecked s) (initialMessagesRecorded s) (trace s).

Definition with_fault (s : session) : session :=
  MkSession (messages s) (isStreaming s) (streamingMessage s) (pendingToolCalls s) (errorMessage s) true (providerSessionPersisted s) (recoveryChecked s) (initialMessagesRecorded s) (trace s).

Definition with_flags (persisted checked recorded : bool) (s : session) : session :=
  MkSession (messages s) (isStreaming s) (streamingMessage s) (pendingToolCalls s) (errorMessage s) (isFaulted s) persisted checked recorded (trace s).

Abbreviation prog := (prog agent request failure).
Abbreviation ask := (@ask agent request failure _).
Abbreviation await := (@await agent request failure _).

Definition lives (f : life -> life) : prog unit := write (on_life f).
Definition sessions (f : session -> session) : prog unit := write (on_session f).

(** An asynchronous function that is awaited: its caller goes on in a later microtask. *)
Definition called {A : Type} (p : prog A) : prog A := do r <- attempt p; Await Tick (fun _ => of_result r).

(** [await emitEvent(e)]. *)
Definition emit_event (e : agent_event) : prog unit := sessions (noted (Emitted e)) ;;; Await (Emit e) (fun _ => Ret tt).

(** * Idleness *)

Definition isIdle (l : life) : bool := negb (runActive l) && negb (compacting l).

Definition resolveIdleWaitIfIdle (l : life) : life :=
  if negb (isIdle l) || negb (bool_decide (is_Some (idleWait l))) then l
  else MkLife (runActive l) (controller l) (controllers l) (aborted l) (currentRun l) (compacting l) (compactionController l) None (idleWaits l) (expiry l).

Section Agent.
(** Which of the options are present, and the modes of the queues. *)
Inductive queue_mode : Type := All | OneAtATime.
Record options : Type := MkOptions {
  o_journal : bool; o_conversation : bool; o_toolDiscovery : bool; o_compactor : bool; o_incremental : bool; o_convert : bool; 
  o_finishTurn : bool; o_shouldStop : bool; o_steeringMode : option queue_mode; o_followUpMode : option queue_mode; o_providerSessionId : string; o_model : json }.
Variable o : options.

Definition scheduleContextViewExpiry (l : life) : life :=
  MkLife (runActive l) (controller l) (controllers l) (aborted l) (currentRun l) (compacting l) (compactionController l) (idleWait l) (idleWaits l) (o_incremental o || o_conversation o).

Definition claimed (l : life) : life :=
  MkLife true (Some (controllers l)) (S (controllers l)) (aborted l) (currentRun l) (compacting l) (compactionController l) (idleWait l) (idleWaits l) false.

Definition claimRun : prog unit :=
  do s <- gets (fun s => s);
  if isFaulted (a_session s) then Throw (Failure "Session persistence outcome is unknown.")
  else if runActive (a_life s) then Throw (Failure "Agent already has a run in progress.")
  else lives claimed.

(** The end of a run: [finishContextMutation], and the [finally] of [run]. *)
Definition released (l : life) : life :=
  scheduleContextViewExpiry (resolveIdleWaitIfIdle (MkLife false None (controllers l) (aborted l) (currentRun l) (compacting l) (compactionController l) (idleWait l) (idleWaits l) (expiry l))).

Definition finishContextMutation : prog unit := lives released.

Definition with_currentRun (b : bool) (l : life) : life :=
  MkLife (runActive l) (controller l) (controllers l) (aborted l) b (compacting l) (compactionController l) (idleWait l) (idleWaits l) (expiry l).

Definition latchJournalFault (e : failure) : prog unit := match e with CommitFailure true _ => sessions with_fault | _ => Ret tt end.

(** [signal?.aborted] of a controller. *)
Definition is_aborted (signal : option nat) (s : agent) : bool := match signal with Some c => bool_decide (c ∈ aborted (a_life s)) | None => false end.

Definition throwIfAborted (signal : option nat) : prog unit := do b <- gets (is_aborted signal); if b then Throw (Failure "aborted") else Ret tt.

(** * Committing *)

Definition commitJournal (l : list write_append) : prog (list string) :=
  if o_journal o then
    do ids <- await (CommitBatch l);
    sessions (noted (Wrote l ids)) ;;;
    Ret ids
  else Ret [].

Definition role (m : chat) : option string := as_string (assoc_get m "role").
Definition chat_id (m : chat) : option string := as_string (assoc_get m "id").
Definition message_with_id (m : chat) (id : string) : chat := assoc_set m "id" (JStr id).

Definition message_type (m : chat) : entry_type :=
  if bool_decide (role m = Some "user"%string) then UserMessageEntry
  else if bool_decide (role m = Some "assistant"%string) then AgentTurn
  else if bool_decide (role m = Some "toolResult"%string) then ToolExecution
  else CustomEntry.

(** The identifier under which a message was committed. *)
Definition commit_id (m : chat) : prog (option string) :=
  do ids <- called (commitJournal [MkWrite (message_type m) (JObj m)]);
  Ret (head ids).

Definition identified (m : chat) (id : option string) : chat := match id with Some id => message_with_id m id | None => m end.

Definition commitMessage (m : chat) : prog chat := do id <- commit_id m; Ret (identified m id).

Definition adoptMessage (m : chat) : prog unit := sessions (pushed m).

Definition announce (m : chat) : prog unit := emit_event (MessageStart m) ;;; emit_event (MessageEnd m).

(** A result of the dispatcher. *)
Definition result_of (t : tool_outcome) : chat := if o_journal o then message_with_id (t_message t) (t_id t) else t_message t.

Definition adopt_result (s : session) (t : tool_outcome) : session :=
  let w := MkWrite ToolExecution (JObj (t_message t)) in
  if t_adopted t then pushed (result_of t) (if o_journal o then noted (Wrote [w] [t_id t]) s else s)
  else if o_journal o then noted (Unseen w (t_id t)) s else s.

Definition adopt_results (d : dispatched) (s : session) : session := with_pending (d_pending d) (foldl adopt_result s (d_results d)).

(** * Before a run *)

Definition persistProviderSession : prog unit :=
  do s <- gets a_session;
  if providerSessionPersisted s || negb (o_journal o) then Ret tt
  else
    called (commitJournal [MkWrite ProviderSession (JObj [("version"%string, JNum 1); ("id"%string, JStr (o_providerSessionId o))])]) ;;;
    sessions (fun s => with_flags true (recoveryChecked s) (initialMessagesRecorded s) s).

Definition restoreInterruptedTools : prog unit :=
  do s <- gets a_session;
  if recoveryChecked s || negb (o_conversation o) then Ret tt
  else
    do plans <- ask PlanRecovery;
    (if plans then Await RecoverTools (fun d => sessions (adopt_results d) ;;; do _ <- of_result (d_terminate d); Ret tt) else Ret tt) ;;;
    sessions (fun s => with_flags (providerSessionPersisted s) true (initialMessagesRecorded s) s).

(** The loop that captures the messages the agent was opened with; whether one has changed. *)
Fixpoint capture (existing : list string) (l : list chat) : prog (bool * list chat) :=
  match l with
  | [] => Ret (false, [])
  | m :: l =>
      do r <- (if match chat_id m with Some id => bool_decide (id <> EmptyString) && bool_decide (id ∈ existing) | None => false end then Ret (false, m)
               else do id <- called (commit_id m); Ret (bool_decide (is_Some id), identified m id));
      do rest <- capture existing l;
      Ret (fst r || fst rest, snd r :: snd rest)
  end.

Definition recordLoadout : prog bool :=
  do next <- ask LoadoutChanged;
  match next with
  | None => Ret false
  | Some payload => called (commitJournal [MkWrite ModelLoadout payload]) ;;; Ret true
  end.

Definition initializeConversation : prog unit :=
  if negb (o_conversation o) then Ret tt
  else
    do s <- gets a_session;
    (if initialMessagesRecorded s then Ret tt
     else
       do existing <- ask (KnownIds (messages s));
       do captured <- capture existing (messages s);
       (if fst captured then sessions (rebased Captured (snd captured)) else Ret tt) ;;;
       sessions (fun s => with_flags (providerSessionPersisted s) (recoveryChecked s) true s)) ;;;
    ask (MergeTools false) ;;;
    ask VisibleTools ;;;
    called recordLoadout ;;;
    (if o_toolDiscovery o then ask VisibleTools else Ret tt).

(** * A turn *)

(** [queue.drain(mode)]: what it returns and what it leaves. *)
Definition drain (mode : queue_mode) (q : list chat) : list chat * list chat :=
  match q, mode with
  | [], _ => ([], [])
  | m :: q, OneAtATime => ([m], q)
  | q, All => (q, [])
  end.

Fixpoint deliver (l : list chat) : prog unit :=
  match l with
  | [] => Ret tt
  | m :: l => do m' <- called (commitMessage m); adoptMessage m' ;;; announce m' ;;; deliver l
  end.

Definition drainSteering : prog unit :=
  do q <- gets (fun s => steeringQueue (a_queues s));
  let '(l, rest) := drain (default All (o_steeringMode o)) q in
  write (on_queues (fun q => MkQueues rest (followUpQueue q))) ;;; deliver l.

Definition is_system (m : chat) : bool := bool_decide (role m = Some "system"%string).

Definition compact (signal : option nat) (force : bool) : prog bool :=
  do stopped <- gets (is_aborted signal);
  if negb (o_compactor o) || stopped then Ret false
  else
    do head <- (if o_conversation o then Ask CurrentHead Ret else Ret None);
    do input <- (if o_conversation o then ask ModelMessages else gets (fun s => messages (a_session s)));
    do due <- (if force then Ret true else ask (ShouldCompact input));
    if negb due then Ret false
    else
      let history := List.filter (fun m => negb (is_system m)) input in
      do able <- ask (CanCompact history);
      if negb able then Ret false
      else
        do compacted <- await (Compact history);
        do stopped <- gets (is_aborted signal);
        do same <- ask SameConfiguration;
        if stopped || negb same then Ret false
        else
          if o_conversation o then
            called (do entry <- ask (PlanCompaction compacted head);
                    match entry with
                    | None => Ret false
                    | Some payload => called (commitJournal [MkWrite CompactionEntry payload]) ;;; Ret true
                    end)
          else
            do unchanged <- Ask SameHistory Ret;
            if negb unchanged then Ret false
            else sessions (rebased (Compacted (List.filter is_system input ++ compacted)) (List.filter is_system input ++ compacted)) ;;; Ret true.

Definition prepare (signal : option nat) : prog (list chat) :=
  called drainSteering ;;;
  called (compact signal false) ;;;
  do l <- (if o_incremental o then await ModelMessages
           else if o_conversation o then ask ModelMessages
           else gets (fun s => messages (a_session s)));
  do l <- await (Transform l);
  if o_convert o then await (Convert l) else Ret l.

Definition is_error (m : chat) : bool := is_str (assoc_get m "stopReason") "error".
Definition is_stopped (m : chat) : bool := is_str (assoc_get m "stopReason") "aborted".

Definition intent_payload (op : string) (model : json) (count : Z) : json :=
  JObj [("id"%string, JStr op); ("type"%string, JStr "provider_stream");
        ("intent"%string, JObj [("model"%string, default JNull (field (Some model) "id")); ("messageCount"%string, JNum count)])].

Definition settlement_payload (op : string) (m : chat) : json :=
  JObj ([("id"%string, JStr op); ("type"%string, JStr "provider_stream");
         ("settlement"%string, JObj (opt_field "usage" (assoc_get m "usage") ++ opt_field "stopReason" (assoc_get m "stopReason")))] ++
        (if is_error m then opt_field "error" (assoc_get m "errorMessage") else [])).

Definition invoke (signal : option nat) (llmMessages : list chat) : prog chat :=
  do op <- Ask NewId Ret;
  Await Tick (fun _ =>
  ask VisibleTools ;;;
  do hook <- await (PrepareRequest llmMessages);
  throwIfAborted signal ;;;
  let model := default (o_model o) (hook ≫= r_model) in
  let requestMessages := default llmMessages (hook ≫= r_messages) in
  do update <- (if o_conversation o then called recordLoadout else Ret false);
  ask Sanitize ;;;
  (if o_journal o then called (commitJournal [MkWrite OperationIntent (intent_payload op model (zlen requestMessages + (if update then 1 else 0)))]) ;;; Ret tt else Ret tt) ;;;
  ask OpenStream ;;;
  do source <- Ask StreamSource Ret;
  do now <- Ask Now Ret;
  let initial := [("role"%string, JStr "assistant"); ("content"%string, JArr [])] ++ source ++ [("timestamp"%string, JNum now)] in
  sessions (with_stream true (Some initial)) ;;;
  emit_event (MessageStart initial) ;;;
  do m <- await Collect;
  await FlushStream ;;;
  sessions (with_stream false None) ;;;
  do m' <- (if o_journal o then
              do ids <- called (commitJournal [MkWrite OperationSettlement (settlement_payload op m); MkWrite AgentTurn (JObj m)]);
              Ret (identified m (last ids))
            else Ret m);
  adoptMessage m' ;;;
  (if is_error m' then sessions (with_errorMessage (Some (default "Model stream ended with an error."%string (truthy (as_string (assoc_get m' "errorMessage")))))) else Ret tt) ;;;
  emit_event (MessageEnd m') ;;;
  Ret m').

Definition dispatch (m : chat) : prog (list chat * bool) :=
  Await (DispatchTools m) (fun d => sessions (adopt_results d) ;;; do stop <- of_result (d_terminate d); Ret (map result_of (d_results d), stop)).

Definition drainFollowUp : prog bool :=
  do q <- gets (fun s => followUpQueue (a_queues s));
  match q with
  | [] => Ret false
  | _ =>
      let '(l, rest) := drain (default OneAtATime (o_followUpMode o)) q in
      write (on_queues (fun q => MkQueues (steeringQueue q) rest)) ;;; deliver l ;;; Ret true
  end.

(** Whether the loop goes on; [Some true] is the decision to continue, [Some false] to end. *)
Definition finalize (signal : option nat) (m : chat) (results : list chat) (terminate : bool) : prog bool :=
  do decision <- finally (if o_finishTurn o then await (FinishTurn m results) else Await Tick (fun _ => Ret None)) (emit_event (TurnEnd m results));
  do stopped <- gets (is_aborted signal);
  if terminate || stopped || is_error m || is_stopped m || bool_decide (decision = Some false) then Ret false
  else
    do stop <- (if o_shouldStop o then await (ShouldStop m results) else Ret false);
    if stop then Ret false
    else if (0 <? length results)%nat then Ret true
    else
      do waiting <- gets (fun s => length (steeringQueue (a_queues s)));
      if (0 <? waiting)%nat then Ret true
      else do drained <- called drainFollowUp; Ret (drained || bool_decide (decision = Some true)).

Definition overflowed (m : chat) : bool := is_str (field (assoc_get m "providerError") "code") "context_overflow".

Definition exclude_payload (id : string) : json :=
  JObj [("version"%string, JNum 1); ("edits"%string, JArr [JObj [("action"%string, JStr "exclude"); ("messageId"%string, JStr id)]])].

(** The turn of the loop: the answer, which is the last of the messages when it is taken out, after a compaction when the first one overflowed, and
    whether that has been used. *)
Definition answer_turn (signal : option nat) (used : bool) : prog (chat * bool) :=
  do llm <- called (prepare signal);
  do m <- called (invoke signal llm);
  if overflowed m && o_compactor o && negb used then
    (match (if o_conversation o then truthy (chat_id m) else None) with
     | Some id => called (commitJournal [MkWrite ContextEdit (exclude_payload id)]) ;;; Ret tt
     | None => sessions (fun s => rebased Dropped (removelast (messages s)) s)
     end) ;;;
    do ok <- called (compact signal true);
    if ok then do llm <- called (prepare signal); do m <- called (invoke signal llm); Ret (m, true) else Ret (m, true)
  else Ret (m, used).

(** The loop.  Every turn waits, so that a run of [n] answers makes at most [n] turns. *)
Fixpoint turns (fuel : nat) (signal : option nat) (used : bool) : prog unit :=
  do stopped <- gets (is_aborted signal);
  if stopped then Ret tt
  else
    match fuel with
    | O => Throw (Failure "fuel")
    | S fuel =>
        emit_event TurnStart ;;;
        do r <- answer_turn signal used;
        do d <- called (dispatch (fst r));
        do go <- called (finalize signal (fst r) (fst d) (snd d));
        if go then turns fuel signal (snd r) else Ret tt
    end.

Definition quiet (s : session) : session := with_pending [] (with_stream false None s).

Definition run_loop (fuel : nat) (signal : option nat) : prog unit :=
  sessions (with_errorMessage None) ;;;
  emit_event AgentStart ;;;
  finally (catch (turns fuel signal false) (fun e => sessions (with_errorMessage (Some (failure_text e))) ;;; Throw e))
    (sessions quiet ;;; do s <- gets a_session; emit_event (AgentEnd (messages s))).

Definition run (fuel : nat) : prog unit :=
  do signal <- gets (fun s => controller (a_life s));
  match signal with
  | None => Throw (Failure "Agent run was not claimed before starting.")
  | Some _ =>
      ask (MergeTools true) ;;;
      lives (with_currentRun true) ;;;
      finally (catch (called (run_loop fuel signal)) (fun e => latchJournalFault e ;;; Throw e))
        (lives (fun l => released (with_currentRun false l)))
  end.

(** * The methods *)

(** The [catch] of [prompt] and [continue]. *)
Definition surrender (e : failure) : prog unit :=
  latchJournalFault e ;;;
  do current <- gets (fun s => currentRun (a_life s));
  (if current then Ret tt else finishContextMutation) ;;;
  Throw e.

Definition before_run : prog unit :=
  called persistProviderSession ;;;
  called restoreInterruptedTools ;;;
  do signal <- gets (fun s => controller (a_life s));
  throwIfAborted signal ;;;
  called initializeConversation.

(** A prompt: a text, or a message. *)
Inductive prompt_input : Type := PromptText (content : json) | PromptMessage (m : chat).

Definition prompt (fuel : nat) (input : prompt_input) : prog unit :=
  claimRun ;;;
  catch (do m <- (match input with
                  | PromptText content => do now <- Ask Now Ret; Ret [("role"%string, JStr "user"); ("content"%string, content); ("timestamp"%string, JNum now)]
                  | PromptMessage m => Ret m
                  end);
         before_run ;;;
         do m' <- called (commitMessage m);
         adoptMessage m' ;;;
         announce m') surrender ;;;
  run fuel.

Definition continue (fuel : nat) : prog unit := claimRun ;;; catch before_run surrender ;;; run fuel.

(** The [catch] and the [finally] of the other exclusive methods. *)
Definition exclusively (p : prog unit) : prog unit := finally (catch p (fun e => latchJournalFault e ;;; Throw e)) finishContextMutation.

Definition recoverInterruptedTools : prog unit :=
  claimRun ;;;
  sessions (fun s => with_flags (providerSessionPersisted s) false (initialMessagesRecorded s) s) ;;;
  exclusively (called restoreInterruptedTools).

Definition editContext (edit : json) : prog unit :=
  if negb (o_conversation o) then Throw (Failure "Context edits require a readable session journal.")
  else
    claimRun ;;;
    exclusively (
      called initializeConversation ;;;
      called (commitJournal [MkWrite ContextEdit edit]) ;;;
      (if o_toolDiscovery o then ask VisibleTools else Ret tt)).

Definition head_payload (h : option string) : json :=
  JObj [("kind"%string, JStr "context_head"); ("version"%string, JNum 1); ("headId"%string, match h with Some h => JStr h | None => JNull end)].

(** [conversation.selectHead(h)]. *)
Definition select_head (h : option string) : prog unit := ask (SelectHead h).

Definition selectContextHead (h : option string) : prog unit :=
  if negb (o_conversation o) then Throw (Failure "Context selection requires a readable session journal.")
  else
    claimRun ;;;
    do previous <- Ask CurrentHead Ret;
    finally (catch (
      do raw <- ask (HeadContext h);
      select_head h ;;;
      called (commitJournal [MkWrite CustomEntry (head_payload h)]) ;;;
      sessions (rebased (Selected raw) raw) ;;;
      catch (ask AdoptTools) (fun e => Throw (CommitFailure true "Context head committed but adoption failed.")) ;;;
      sessions (fun s => with_flags (providerSessionPersisted s) false true s))
      (fun e =>
         latchJournalFault e ;;;
         do faulted <- gets (fun s => isFaulted (a_session s));
         (if faulted then Ret tt else select_head previous) ;;;
         Throw e)) finishContextMutation.

(** [waitForIdle]. *)
Definition waitForIdle : prog unit :=
  do l <- gets a_life;
  if isIdle l then Ret tt
  else
    match idleWait l with
    | Some w => Await (WaitIdle w) (fun _ => Ret tt)
    | None =>
        lives (fun l => MkLife (runActive l) (controller l) (controllers l) (aborted l) (currentRun l) (compacting l) (compactionController l) (Some (idleWaits l)) (S (idleWaits l)) (expiry l)) ;;;
        Await (WaitIdle (idleWaits l)) (fun _ => Ret tt)
    end.

Definition abort_controller (c : option nat) (l : life) : life :=
  match c with
  | None => l
  | Some c => MkLife (runActive l) (controller l) (controllers l) (c :: aborted l) (currentRun l) (compacting l) (compactionController l) (idleWait l) (idleWaits l) (expiry l)
  end.

Definition abortCompaction : prog unit := lives (fun l => abort_controller (compactionController l) l).

Definition abort : prog unit := lives (fun l => abort_controller (controller l) l) ;;; abortCompaction ;;; waitForIdle.

Definition with_compaction (c : bool) (k : option nat) (l : life) : life :=
  MkLife (runActive l) (controller l) (controllers l) (aborted l) (currentRun l) c k (idleWait l) (idleWaits l) (expiry l).

(** The [finally] of a compaction. *)
Definition compaction_done : prog unit := lives (fun l => resolveIdleWaitIfIdle (with_compaction false None l)).

(** The task runs up to its first [await] before the promise is stored: a task that throws
    there is through with its [finally] by then. *)
Definition runCompaction : prog unit :=
  do l <- gets a_life;
  if compacting l then Throw (Failure "A compaction is already in progress.")
  else
    lives (fun l => MkLife (runActive l) (controller l) (S (controllers l)) (aborted l) (currentRun l) (compacting l) (Some (controllers l)) (idleWait l) (idleWaits l) (expiry l)) ;;;
    do started <- Ask TaskStart Ret;
    (match started with Ok _ => Ret tt | Err _ => compaction_done end) ;;;
    lives (fun l => with_compaction true (compactionController l) l) ;;;
    match started with
    | Err e => Throw e
    | Ok _ => finally (await TaskDone) compaction_done
    end.

Definition clear_queues : prog unit := write (on_queues (fun _ => MkQueues [] [])).

Definition reset : prog unit :=
  do l <- gets a_life;
  if runActive l || currentRun l then Throw (Failure "Agent is already processing.")
  else if compacting l then Throw (Failure "A compaction is in progress.")
  else
    lives (fun l => abort_controller (compactionController l) (abort_controller (controller l) l)) ;;;
    sessions (rebased Cleared []) ;;;
    (if o_conversation o then Ask (SelectHead None) (fun _ => Ret tt) else Ret tt) ;;;
    sessions quiet ;;;
    sessions (with_errorMessage None) ;;;
    clear_queues.

Definition steer (m : chat) : prog unit := write (on_queues (fun q => MkQueues (steeringQueue q ++ [m]) (followUpQueue q))).
Definition follow_up (m : chat) : prog unit := write (on_queues (fun q => MkQueues (steeringQueue q) (followUpQueue q ++ [m]))).

Definition with_expiry (b : bool) (l : life) : life :=
  MkLife (runActive l) (controller l) (controllers l) (aborted l) (currentRun l) (compacting l) (compactionController l) (idleWait l) (idleWaits l) b.

Definition clearQueues : prog unit := clear_queues ;;; lives (with_expiry false).

(** The timer: it only forgets caches. *)
Definition view_expired : prog unit := lives (with_expiry false).

(** * Agents at work *)

Inductive method : Type :=
| MPrompt (input : prompt_input)
| MContinue
| MRecover
| MEdit (edit : json)
| MSelect (h : option string)
| MWaitForIdle
| MAbort
| MAbortCompaction
| MRunCompaction
| MReset
| MSteer (m : chat)
| MFollowUp (m : chat)
| MClearQueues
| MExpired.

Definition body (fuel : nat) (m : method) : prog unit :=
  match m with
  | MPrompt input => prompt fuel input
  | MContinue => continue fuel
  | MRecover => recoverInterruptedTools
  | MEdit edit => editContext edit
  | MSelect h => selectContextHead h
  | MWaitForIdle => waitForIdle
  | MAbort => abort
  | MAbortCompaction => abortCompaction
  | MRunCompaction => runCompaction
  | MReset => reset
  | MSteer m => steer m
  | MFollowUp m => follow_up m
  | MClearQueues => clearQueues
  | MExpired => view_expired
  end.

(** The promise of [waitForIdle] settles when it is no longer the one that is kept. *)
Definition ready {T : Type} (s : agent) (r : request T) : bool :=
  match r with WaitIdle w => negb (bool_decide (idleWait (a_life s) = Some w)) | _ => true end.

(** An agent with the calls that were made of it. *)
Record office : Type := MkOffice { f_agent : agent; f_calls : list (method * prog unit) }.

Inductive happening : Type :=
| Invoke (m : method) (answers : oracle request)
| Resume (i : nat) (answers : oracle request).

Definition proceed (fuel : nat) (f : office) (h : happening) : office :=
  match h with
  | Invoke m answers =>
      let '(p, s) := advance answers (body fuel m) (f_agent f) in MkOffice s (f_calls f ++ [(m, p)])
  | Resume i answers =>
      match @lookup nat (method * prog unit) _ _ i (f_calls f) with
      | Some (m, Await r k) =>
          if ready (f_agent f) r then let '(p, s) := advance answers (k (answers _ r)) (f_agent f) in MkOffice s (<[i := (m, p)]> (f_calls f))
          else f
      | _ => f
      end
  end.

Definition work_through (fuel : nat) (f : office) (hs : list happening) : office := foldl (proceed fuel) f hs.

End Agent.
