(* ===== verification/AgentProofs.v ===== *)
(** Agents at work: at most one run at a time, which gives the agent back when it ends, waiters
    that are woken, and messages that are in the journal before they are shown. *)

From S2P Require Import Prelude Json Reducer AsyncProg Agent.

(** The messages among the entries of a batch. *)
Definition carries_message (t : entry_type) : bool :=
  match t with UserMessageEntry | AgentTurn | ToolExecution | CustomEntry => true | _ => false end.

Definition shown (l : list write_append) (ids : list string) : list chat :=
  omap (fun '(w, id) => if carries_message (w_type w) then Some (message_with_id (default [] (record_fields (Some (w_payload w)))) id) else None) (zip l ids).

(** What a reader knows when the history starts over, of what it knew before: only an opening, a
    selected head and a compaction in memory tell it messages. *)
Definition told (why : origin) (ms : list chat) : list chat :=
  match why with Opened l | Selected l | Compacted l => l | Captured => ms | Dropped => removelast ms | Cleared => [] end.

(** The messages a reader of the journal knows, who also sees where the history starts over. *)
Definition replay (t : list note) : list chat :=
  foldl (fun ms n => match n with Rebased why => told why ms | Wrote l ids => ms ++ shown l ids | Unseen w id => ms ++ shown [w] [id] | Emitted _ => ms end) [] t.

Lemma replay_snoc t n : replay (t ++ [n]) = match n with Rebased why => told why (replay t) | Wrote l ids => replay t ++ shown l ids | Unseen w id => replay t ++ shown [w] [id] | Emitted _ => replay t end.
Proof. unfold replay. by rewrite foldl_app. Qed.

(** Every result that was committed has been adopted. *)
Definition all_seen (t : list note) : bool := forallb (fun n => match n with Unseen _ _ => false | _ => true end) t.

Lemma all_seen_snoc t n : all_seen (t ++ [n]) = all_seen t && match n with Unseen _ _ => false | _ => true end.
Proof. unfold all_seen. rewrite forallb_app. simpl. by rewrite andb_true_r. Qed.

(** What the host answers: a journal returns an identifier for every entry it commits, and the
    conversation knows the messages the agent was opened with; the registry of tools can be
    merged when a run starts, and the task of a compaction does not throw before it waits. *)
Definition allowed (T : Type) (r : request T) : T -> Prop :=
  match r in request T return T -> Prop with
  | CommitBatch l => fun t => match t with Ok ids => length ids = length l | Err _ => True end
  | KnownIds ms => fun t => match t with Ok ids => Forall (fun m => exists id, chat_id m = Some id /\ id <> EmptyString /\ id ∈ ids) ms | Err _ => True end
  | MergeTools running => fun t => running = true -> t = Ok tt
  | TaskStart => fun t => t = Ok tt
  | SelectHead _ => fun t => match t with Err (CommitFailure _ _) => False | _ => True end
  | _ => fun _ => True
  end.

Section Runs.
Variable o : options.

(** * What a run owns *)

Definition others (s0 s : agent) : Prop :=
  compacting (a_life s) = compacting (a_life s0) /\ compactionController (a_life s) = compactionController (a_life s0) /\
  idleWait (a_life s) = idleWait (a_life s0) /\ idleWaits (a_life s) = idleWaits (a_life s0) /\ isFaulted (a_session s0) = isFaulted (a_session s).

(** The journal is ahead of the messages by [debt]. *)
Definition owes (debt : list chat) (s : agent) : Prop :=
  o_journal o = true -> exists known, replay (trace (a_session s)) = known ++ debt /\ messages (a_session s) `sublist_of` known /\ (all_seen (trace (a_session s)) = true -> messages (a_session s) = known).

Record inv (current : bool) (debt : list chat) (s0 s : agent) : Prop := MkInv {
  in_active : runActive (a_life s) = true;
  in_controller : is_Some (controller (a_life s));
  in_current : currentRun (a_life s) = current;
  in_owes : owes debt s;
  in_others : others s0 s;
}.

Definition stop (s0 s : agent) : Prop := exists current debt, inv current debt s0 s.

Definition rely (s s' : agent) : Prop :=
  runActive (a_life s) = true -> a_session s' = a_session s /\ runActive (a_life s') = true /\ controller (a_life s') = controller (a_life s) /\ currentRun (a_life s') = currentRun (a_life s).

#[global] Instance rely_transitive : Transitive rely.
Proof. intros s1 s2 s3 H1 H2 Ha. destruct (H1 Ha) as (E1 & A1 & C1 & R1). destruct (H2 A1) as (E2 & A2 & C2 & R2). split_and!; congruence. Qed.

Abbreviation wp := (wp allowed rely stop).

Lemma inv_rely current debt s0 s s' : inv current debt s0 s -> rely s s' -> inv current debt s' s'.
Proof.
  intros [Ha Hc Hr Ho _] Hre. destruct (Hre Ha) as (E & A & C & R). split; [done|by rewrite C|by rewrite R|unfold owes in *; by rewrite E|by split_and!].
Qed.

(** * Programs that keep what they own *)

(** The debt that a program leaves, by what it returns. *)
Definition leaves {A} (current : bool) (p : prog A) (before : list chat) (after : result failure A -> list chat) : Prop :=
  forall s0 s, inv current before s0 s -> wp p (fun r s0 s => inv current (after r) s0 s) s0 s.

Definition keeps {A} (current : bool) (p : prog A) : Prop := forall debt, leaves current p debt (fun _ => debt).

Context {current : bool}.
Abbreviation leaves_ := (leaves current).
Abbreviation keeps_ := (keeps current).

Lemma leaves_bind {A B} (p : prog A) (f : A -> prog B) d1 d2 d3 : leaves_ p d1 d2 -> (forall e, d3 (Err e) = d2 (Err e)) -> (forall a, leaves_ (f a) (d2 (Ok a)) d3) -> leaves_ (bind_prog p f) d1 d3.
Proof.
  intros Hp He Hf s0 s Hi. apply wp_bind. eapply wp_mono; [|by apply Hp]. intros [a|e] s1 s2; [by apply Hf|]. by rewrite He.
Qed.

Lemma leaves_called {A} (p : prog A) d1 d2 : leaves_ p d1 d2 -> leaves_ (called p) d1 d2.
Proof.
  intros Hp s0 s Hi. apply wp_bind, wp_attempt. eapply wp_mono; [|by apply Hp]. intros r s1 s2 H. simpl. split; [by exists current, (d2 r)|].
  intros s' _ Hr _. pose proof (inv_rely _ _ _ _ _ H Hr) as H'. by destruct r.
Qed.

Lemma keeps_leaves {A} (p : prog A) d : keeps_ p -> leaves_ p d (fun _ => d).
Proof. intros H. apply H. Qed.

Lemma keeps_ret {A} (a : A) : keeps_ (Ret a).
Proof. by intros d s0 s H. Qed.

Lemma keeps_throw {A} e : keeps_ (Throw (A := A) e).
Proof. by intros d s0 s H. Qed.

Lemma keeps_bind {A B} (p : prog A) (f : A -> prog B) : keeps_ p -> (forall a, keeps_ (f a)) -> keeps_ (bind_prog p f).
Proof. intros Hp Hf d. eapply leaves_bind; [apply Hp|done|]. intros a. apply Hf. Qed.

Lemma keeps_called {A} (p : prog A) : keeps_ p -> keeps_ (called p).
Proof. intros H d. apply leaves_called, H. Qed.

Lemma keeps_catch {A} (p : prog A) h : keeps_ p -> (forall e, keeps_ (h e)) -> keeps_ (catch p h).
Proof. intros Hp Hh d s0 s Hi. apply wp_catch. eapply wp_mono; [|by apply (Hp d)]. intros [a|e] s1 s2; [done|]. apply Hh. Qed.

Lemma keeps_finally {A} (p : prog A) q : keeps_ p -> keeps_ q -> keeps_ (finally p q).
Proof. intros Hp Hq d s0 s Hi. apply wp_finally. eapply wp_mono; [|by apply (Hp d)]. intros r s1 s2 H. eapply wp_mono; [|by apply (Hq d)]. by intros [u|e] s3 s4. Qed.

Lemma keeps_gets {A} (f : agent -> A) : keeps_ (gets f).
Proof. by intros d s0 s H. Qed.

Lemma keeps_ask {A} (r : request (result failure A)) : keeps_ (ask r).
Proof. intros d s0 s H [a|e] _; exact H. Qed.

Lemma keeps_Ask {A} (r : request A) : keeps_ (Ask r Ret).
Proof. intros d s0 s H a _. exact H. Qed.

Lemma keeps_Await {T A} (r : request T) (k : T -> prog A) : (forall t, allowed T r t -> keeps_ (k t)) -> keeps_ (Await r k).
Proof. intros Hk d s0 s H. split; [by exists current, d|]. intros s' t Hr Ht. apply (Hk t Ht). by apply (inv_rely _ _ _ _ _ H). Qed.

Lemma keeps_of_result {A} (r : result failure A) : keeps_ (of_result r).
Proof. destruct r; [apply keeps_ret|apply keeps_throw]. Qed.

Lemma keeps_await {A} (r : request (result failure A)) : keeps_ (await r).
Proof. apply keeps_Await. intros t _. apply keeps_of_result. Qed.

Lemma keeps_if {A} (b : bool) (p q : prog A) : keeps_ p -> keeps_ q -> keeps_ (if b then p else q).
Proof. by destruct b. Qed.

Lemma keeps_write f : (forall d s0 s, inv current d s0 s -> inv current d s0 (f s)) -> keeps_ (write f).
Proof. intros H d s0 s Hi. by apply H. Qed.

(** A change of the session that neither shows nor writes a message. *)
Lemma keeps_sessions f : (forall s, messages (f s) = messages s /\ replay (trace (f s)) = replay (trace s) /\ all_seen (trace (f s)) = all_seen (trace s) /\ isFaulted (f s) = isFaulted s) -> keeps_ (sessions f).
Proof.
  intros H. apply keeps_write. intros d s0 s [Ha Hc Hr Ho (O1 & O2 & O3 & O4 & O5)]. destruct (H (a_session s)) as (E1 & E2 & E3 & E4). split; [done|done|done| |].
  - intros Hj. simpl. rewrite E1, E2, E3. by apply Ho.
  - split_and!; try done. simpl. by rewrite E4.
Qed.

(** ** Debts *)

(** A batch adds its messages to what is owed. *)
Lemma owes_wrote debt l ids s : owes debt s -> owes (debt ++ shown l ids) (on_session (noted (Wrote l ids)) s).
Proof.
  intros Ho Hj. destruct (Ho Hj) as (known & E & Hsub & Hseen). exists known. simpl. rewrite replay_snoc, all_seen_snoc, E, app_assoc, andb_true_r. done.
Qed.

Lemma owes_pushed m s : owes [m] s -> owes [] (on_session (pushed m) s).
Proof.
  intros Ho Hj. destruct (Ho Hj) as (known & E & Hsub & Hseen). exists (known ++ [m]). simpl. rewrite E, app_nil_r. split_and!; [done|by apply sublist_app|]. intros H. by rewrite (Hseen H).
Qed.

Lemma owes_rebased why l s : told why (replay (trace (a_session s))) = l -> owes [] (on_session (rebased why l) s).
Proof. intros E Hj. exists l. simpl. rewrite replay_snoc, app_nil_r. done. Qed.

Lemma sublist_removelast {A} (l k : list A) : l `sublist_of` k -> removelast l `sublist_of` removelast k.
Proof.
  intros H. destruct k as [|x k _] using rev_ind; [by apply sublist_nil_r in H as ->|]. rewrite removelast_last.
  apply sublist_app_r in H as (l1 & l2 & -> & H1 & H2). apply sublist_cons_r in H2 as [H2|(l3 & -> & H2)].
  - apply sublist_nil_r in H2 as ->. rewrite app_nil_r. etrans; [|exact H1]. destruct l1 as [|y l1 _] using rev_ind; [done|]. rewrite removelast_last. by apply sublist_inserts_r.
  - apply sublist_nil_r in H2 as ->. by rewrite removelast_last.
Qed.

Lemma owes_dropped s : owes [] s -> owes [] (on_session (fun s => rebased Dropped (removelast (messages s)) s) s).
Proof.
  intros Ho Hj. destruct (Ho Hj) as (known & E & Hsub & Hseen). exists (removelast known). simpl. rewrite replay_snoc, all_seen_snoc, E, !app_nil_r, andb_true_r. simpl.
  split_and!; [done|by apply sublist_removelast|]. intros H. by rewrite (Hseen H).
Qed.

Lemma owes_unseen w id s : owes [] s -> owes [] (on_session (noted (Unseen w id)) s).
Proof.
  intros Ho Hj. destruct (Ho Hj) as (known & E & Hsub & Hseen). exists (known ++ shown [w] [id]). simpl. rewrite replay_snoc, all_seen_snoc, E, !app_nil_r, andb_false_r. split_and!; [done|by apply sublist_inserts_r|done].
Qed.

Lemma keeps_queues f : keeps_ (write (on_queues f)).
Proof. apply keeps_write. by intros d s0 s [Ha Hc Hr Ho Hoth]. Qed.

(** ** Committing and adopting *)

Lemma keeps_emit e : keeps_ (emit_event e).
Proof. apply keeps_bind; [apply keeps_sessions; intros s; simpl; rewrite replay_snoc, all_seen_snoc, andb_true_r; done|]. intros _. apply keeps_Await. intros t _. apply keeps_ret. Qed.

Lemma commit_leaves l d : leaves_ (commitJournal o l) d (fun r => match r with Ok ids => d ++ shown l ids | Err _ => d end).
Proof.
  unfold commitJournal. destruct (o_journal o) eqn:Ej.
  - eapply (leaves_bind _ _ _ (fun _ => d)); [apply keeps_await|done|]. intros ids s0 s [Ha Hc Hr Ho Hoth]. simpl. split; [done|done|done| |done].
    by apply owes_wrote.
  - intros s0 s [Ha Hc Hr Ho Hoth]. simpl. split; [done|done|done| |done]. intros H. congruence.
Qed.

Lemma keeps_commit l : Forall (fun w => carries_message (w_type w) = false) l -> keeps_ (called (commitJournal o l)).
Proof.
  intros Hl. apply keeps_called. intros d s0 s Hi. eapply wp_mono; [|by apply commit_leaves]. intros [ids|e] s1 s2; [|done].
  assert (shown l ids = []) as ->; [|by rewrite app_nil_r]. unfold shown. clear Hi. revert ids. induction Hl as [|w l Hw Hl IH]; intros [|id ids]; [done|done|done|]. simpl. by rewrite Hw.
Qed.

Definition due {A} (f : A -> list chat) (r : result failure A) : list chat := match r with Ok a => f a | Err _ => [] end.

Lemma commit_id_leaves m : leaves_ (commit_id o m) [] (due (fun id => if o_journal o then [identified m id] else [])).
Proof.
  unfold commit_id. intros s0 s Hi. apply wp_bind, wp_bind, wp_attempt. unfold commitJournal. destruct (o_journal o) eqn:Ej.
  - apply wp_bind. split; [by exists current, []|]. intros s' t Hr Ht. pose proof (inv_rely _ _ _ _ _ Hi Hr) as Hi'. destruct t as [ids|e]; simpl in *.
    + destruct ids as [|id ids]; [done|]. assert (Hd : inv current [message_with_id m id] s' (on_session (noted (Wrote [MkWrite (message_type m) (JObj m)] (id :: ids))) s')).
      { destruct Hi' as [Ha Hc Hcr Ho Hoth]. split; [done|done|done| |done]. apply (owes_wrote _ [MkWrite (message_type m) (JObj m)] (id :: ids)) in Ho.
        assert (Hs : shown [MkWrite (message_type m) (JObj m)] (id :: ids) = [message_with_id m id]); [|by rewrite Hs in Ho]. unfold shown. simpl.
        assert (carries_message (message_type m) = true) as -> by (unfold message_type; by repeat case_bool_decide). by destruct ids. }
      split; [by eexists _, _|]. intros s'' _ Hr' _. by apply (inv_rely _ _ _ _ _ Hd).
    + split; [by eexists _, _|]. intros s'' _ Hr' _. by apply (inv_rely _ _ _ _ _ Hi').
  - simpl. split; [by exists current, []|]. intros s' _ Hr _. by apply (inv_rely _ _ _ _ _ Hi).
Qed.

Lemma commitMessage_leaves m : leaves_ (commitMessage o m) [] (due (fun m' => if o_journal o then [m'] else [])).
Proof. eapply leaves_bind; [apply commit_id_leaves|done|]. intros id s0 s Hi. exact Hi. Qed.

Lemma adopt_leaves m : leaves_ (adoptMessage m) (if o_journal o then [m] else []) (fun _ => []).
Proof.
  intros s0 s [Ha Hc Hr Ho Hoth]. simpl. split; [done|done|done| |done]. destruct (o_journal o) eqn:Ej; [by apply owes_pushed|]. intros H. congruence.
Qed.

(** A message that is committed and then adopted. *)
Lemma commit_adopt {A} m (p : chat -> prog A) : (forall m', leaves_ (p m') [] (fun _ => [])) -> leaves_ (do m' <- called (commitMessage o m); adoptMessage m' ;;; p m') [] (fun _ => []).
Proof.
  intros Hp. eapply leaves_bind; [apply leaves_called, commitMessage_leaves|done|]. intros m'. eapply (leaves_bind _ _ _ (fun _ => [])); [apply adopt_leaves|done|]. intros _. apply Hp.
Qed.

Lemma adopt_result_owes t s : owes [] s -> owes [] (on_session (fun x => adopt_result o x t) s).
Proof.
  intros Ho. destruct (o_journal o) eqn:Ej; [|intros H; congruence]. unfold adopt_result, result_of. rewrite Ej. destruct (t_adopted t); [|by apply owes_unseen].
  apply (owes_pushed (message_with_id (t_message t) (t_id t)) (on_session (noted (Wrote [MkWrite ToolExecution (JObj (t_message t))] [t_id t])) s)). by apply (owes_wrote [] [MkWrite ToolExecution (JObj (t_message t))] [t_id t]).
Qed.

Lemma adopt_results_inv d s0 s : inv current [] s0 s -> inv current [] s0 (on_session (adopt_results o d) s).
Proof.
  intros Hi. assert (Hf : forall l s, inv current [] s0 s -> inv current [] s0 (on_session (fun t => foldl (adopt_result o) t l) s)).
  { clear. intros l. induction l as [|t l IH]; intros s Hi; [by destruct s|]. apply (IH (on_session (fun x => adopt_result o x t) s)). destruct Hi as [Ha Hc Hr Ho Hoth].
    split; [done|done|done|by apply adopt_result_owes|]. simpl. unfold adopt_result. by destruct (t_adopted t), (o_journal o). }
  destruct (Hf (d_results d) s Hi) as [Ha Hc Hr Ho Hoth]. by split.
Qed.

Lemma results_leave {A} d (p : prog A) : leaves_ p [] (fun _ => []) -> leaves_ (sessions (adopt_results o d) ;;; p) [] (fun _ => []).
Proof. intros Hp s0 s Hi. apply Hp. by apply adopt_results_inv. Qed.

(** From here on, programs that owe nothing. *)
Definition settles {A} (p : prog A) : Prop := leaves_ p [] (fun _ => []).

Lemma settles_keeps {A} (p : prog A) : keeps_ p -> settles p.
Proof. intros H. apply H. Qed.

Lemma settles_bind {A B} (p : prog A) (f : A -> prog B) : settles p -> (forall a, settles (f a)) -> settles (bind_prog p f).
Proof. intros Hp Hf. by eapply leaves_bind. Qed.

Lemma settles_called {A} (p : prog A) : settles p -> settles (called p).
Proof. apply leaves_called. Qed.

Lemma settles_catch {A} (p : prog A) h : settles p -> (forall e, settles (h e)) -> settles (catch p h).
Proof. intros Hp Hh s0 s Hi. apply wp_catch. eapply wp_mono; [|by apply Hp]. intros [a|e] s1 s2; [done|]. apply Hh. Qed.

Lemma settles_finally {A} (p : prog A) q : settles p -> settles q -> settles (finally p q).
Proof. intros Hp Hq s0 s Hi. apply wp_finally. eapply wp_mono; [|by apply Hp]. intros r s1 s2 H. eapply wp_mono; [|by apply Hq]. by intros [u|e] s3 s4. Qed.

Lemma settles_Await {T A} (r : request T) (k : T -> prog A) : (forall t, allowed T r t -> settles (k t)) -> settles (Await r k).
Proof. intros Hk s0 s H. split; [by exists current, []|]. intros s' t Hr Ht. apply (Hk t Ht). by apply (inv_rely _ _ _ _ _ H). Qed.

Lemma settles_rebased why l : (forall ms, told why ms = l) -> settles (sessions (rebased why l)).
Proof. intros E s0 s [Ha Hc Hr Ho Hoth]. simpl. split; [done|done|done|by apply owes_rebased|done]. Qed.

Lemma settles_dropped : settles (sessions (fun s => rebased Dropped (removelast (messages s)) s)).
Proof. intros s0 s [Ha Hc Hr Ho Hoth]. simpl. split; [done|done|done|by apply owes_dropped|done]. Qed.

(** ** The parts of a run *)

Ltac settle_step :=
  first
    [ match goal with H : context [settles] |- _ => apply H  end
    | lazymatch goal with |- forall _, _ => intro end
    | apply settles_keeps, keeps_ret | apply settles_keeps, keeps_throw | apply settles_keeps, keeps_gets | apply settles_keeps, keeps_ask
    | apply settles_keeps, keeps_Ask | apply settles_keeps, keeps_await | apply settles_keeps, keeps_of_result | apply settles_keeps, keeps_emit
    | apply settles_keeps, keeps_queues | apply settles_keeps, keeps_commit; by repeat constructor
    | apply settles_rebased; by intros | apply settles_dropped
    | apply settles_keeps, keeps_sessions; by intros
    | lazymatch goal with
      | |- settles (if ?b then _ else _) => destruct b
      | |- settles (match ?x with _ => _ end) => destruct x
      end
    | apply settles_called | apply settles_finally | apply settles_catch | apply settles_bind | apply settles_Await ].
Ltac settle := repeat settle_step.

Lemma persist_settles : settles (persistProviderSession o).
Proof. unfold persistProviderSession. settle. Qed.

Lemma restore_settles : settles (restoreInterruptedTools o).
Proof. unfold restoreInterruptedTools. settle; apply results_leave; settle. Qed.

Lemma capture_known existing l : Forall (fun m => exists id, chat_id m = Some id /\ id <> EmptyString /\ id ∈ existing) l -> capture o existing l = Ret (false, l).
Proof. induction 1 as [|m l (id & Hid & Hne & Hin) _ IH]; [done|]. simpl. rewrite Hid, !bool_decide_eq_true_2 by done. simpl. by rewrite IH. Qed.

Lemma loadout_settles : settles (recordLoadout o).
Proof. unfold recordLoadout. settle. Qed.

Lemma known_settles ms (p : list string -> prog unit) : (forall ids, Forall (fun m => exists id, chat_id m = Some id /\ id <> EmptyString /\ id ∈ ids) ms -> settles (p ids)) -> settles (do ids <- ask (KnownIds ms); p ids).
Proof. intros Hp s0 s Hi [ids|e] Ha; [by apply Hp|exact Hi]. Qed.

Lemma initialize_settles : settles (initializeConversation o).
Proof.
  pose proof loadout_settles. unfold initializeConversation. destruct (negb _); [settle|]. apply settles_bind; [settle|]. intros se. apply settles_bind; [|settle].
  destruct (initialMessagesRecorded se); [settle|]. apply known_settles. intros ids Hk. rewrite (capture_known _ _ Hk). simpl. settle.
Qed.

Lemma announce_settles m : settles (announce m).
Proof. unfold announce. settle. Qed.

Lemma deliver_settles l : settles (deliver o l).
Proof. induction l as [|m l IH]; [apply settles_keeps, keeps_ret|]. apply commit_adopt. intros m'. pose proof (announce_settles m'). settle. Qed.

Lemma drainSteering_settles : settles (drainSteering o).
Proof. unfold drainSteering. apply settles_bind; [settle|]. intros q. destruct (drain _ q) as [l rest]. pose proof (deliver_settles l). settle. Qed.

Lemma compact_settles signal force : settles (compact o signal force).
Proof. unfold compact. settle. Qed.

Lemma prepare_settles signal : settles (prepare o signal).
Proof. pose proof drainSteering_settles. pose proof (compact_settles signal false). unfold prepare. settle. Qed.

Lemma answer_adopt m op (p : chat -> prog chat) : (forall m', settles (p m')) ->
  settles (do m' <- (if o_journal o then
              do ids <- called (commitJournal o [MkWrite OperationSettlement (settlement_payload op m); MkWrite AgentTurn (JObj m)]);
              Ret (identified m (last ids))
            else Ret m);
    adoptMessage m' ;;; p m').
Proof.
  intros Hp. destruct (o_journal o) eqn:Ej.
  - eapply (leaves_bind _ _ _ (due (fun m' => [m']))); [|done|]; cycle 1.
    { intros m'. eapply (leaves_bind _ _ _ (fun _ => [])); [|done|intros _; apply Hp]. pose proof (adopt_leaves m') as Ha. by rewrite Ej in Ha. }
    intros s0 s Hi. apply wp_bind, wp_bind, wp_attempt. unfold commitJournal. rewrite Ej. apply wp_bind. split; [by exists current, []|].
    intros s' t Hr Ht. pose proof (inv_rely _ _ _ _ _ Hi Hr) as Hi'. destruct t as [ids|e]; simpl in *; [|split; [by eexists _, _|]; intros s'' _ Hr' _; by apply (inv_rely _ _ _ _ _ Hi')].
    destruct ids as [|i1 [|i2 [|]]]; try done. set (s2 := on_session _ s'). assert (Hd : inv current [message_with_id m i2] s' s2).
    { destruct Hi' as [Ha Hc Hcr Ho Hoth]. split; [done|done|done| |done]. exact (owes_wrote [] [MkWrite OperationSettlement (settlement_payload op m); MkWrite AgentTurn (JObj m)] [i1; i2] s' Ho). }
    split; [by eexists _, _|]. intros s'' _ Hr' _. by apply (inv_rely _ _ _ _ _ Hd).
  - change (leaves_ (adoptMessage m ;;; p m) [] (fun _ => [])). eapply (leaves_bind _ _ _ (fun _ => [])); [|done|intros _; apply Hp]. pose proof (adopt_leaves m) as Ha. by rewrite Ej in Ha.
Qed.

Lemma invoke_settles signal l : settles (invoke o signal l).
Proof.
  pose proof loadout_settles. unfold invoke, throwIfAborted. repeat (lazymatch goal with |- settles (bind_prog (if o_journal o then bind_prog (called (commitJournal o [_; _])) _ else _) _) => fail | _ => idtac end; settle_step).
  all: apply answer_adopt; settle.
Qed.

Lemma dispatch_settles m : settles (dispatch o m).
Proof. unfold dispatch. settle; apply results_leave; settle. Qed.

Lemma drainFollowUp_settles : settles (drainFollowUp o).
Proof. unfold drainFollowUp. apply settles_bind; [settle|]. intros [|m q]; [settle|]. destruct (drain _ _) as [l rest]. pose proof (deliver_settles l). settle. Qed.

Lemma finalize_settles signal m results terminate : settles (finalize o signal m results terminate).
Proof. pose proof drainFollowUp_settles. unfold finalize. settle. Qed.

Lemma answer_turn_settles signal used : settles (answer_turn o signal used).
Proof.
  pose proof (prepare_settles signal). pose proof (invoke_settles signal). pose proof (compact_settles signal true). unfold answer_turn. settle.
Qed.

Lemma turns_settles fuel signal used : settles (turns o fuel signal used).
Proof.
  revert used. induction fuel as [|fuel IH]; intros used; cbn [turns]; [settle|]. pose proof (answer_turn_settles signal used). pose proof dispatch_settles. pose proof (finalize_settles signal). settle.
Qed.

Lemma run_loop_settles fuel signal : settles (run_loop o fuel signal).
Proof. pose proof (turns_settles fuel signal false). unfold run_loop. settle. Qed.

Lemma before_run_settles : settles (before_run o).
Proof. pose proof persist_settles. pose proof restore_settles. pose proof initialize_settles. unfold before_run, throwIfAborted. settle. Qed.
End Runs.

(** * The exclusive methods *)

Definition is_run (m : method) : bool := match m with MPrompt _ | MContinue | MRecover | MEdit _ | MSelect _ => true | _ => false end.

Section Methods.
Variable o : options.

Abbreviation wp := (wp allowed rely (stop o)).

(** The agent as a run gives it back: the waiters are woken unless a compaction is under way. *)
Record given_back (s0 s : agent) : Prop := MkGiven {
  gb_active : runActive (a_life s) = false;
  gb_current : currentRun (a_life s) = false;
  gb_owes : owes o [] s;
  gb_compacting : compacting (a_life s) = compacting (a_life s0);
  gb_compaction : compactionController (a_life s) = compactionController (a_life s0);
  gb_waits : idleWaits (a_life s) = idleWaits (a_life s0);
  gb_wait : idleWait (a_life s) = if compacting (a_life s0) then idleWait (a_life s0) else None;
  gb_fault : isFaulted (a_session s0) = true -> isFaulted (a_session s) = true;
}.

(** An unknown outcome of a commit is remembered. *)
Definition remembers {A} (r : result failure A) (s : agent) : Prop := forall t, r = Err (CommitFailure true t) -> isFaulted (a_session s) = true.

Definition ends (r : result failure unit) (s0 s : agent) : Prop := given_back s0 s /\ remembers r s.

Definition latched (e : failure) (s : session) : session := match e with CommitFailure true _ => with_fault s | _ => s end.

Lemma give_back f c e s0 s : inv o c [] s0 s -> (forall l, f l = released o l \/ f l = released o (with_currentRun false l)) -> (c = true -> forall l, f l = released o (with_currentRun false l)) ->
  given_back s0 (on_life f (on_session (latched e) s)).
Proof.
  intros [Ha Hc Hr Ho (O1 & O2 & O3 & O4 & O5)] Hf Hcur. assert (Hs : messages (latched e (a_session s)) = messages (a_session s) /\ trace (latched e (a_session s)) = trace (a_session s)) by (by destruct e as [[]|]).
  assert (Hl : currentRun (f (a_life s)) = false).
  { destruct c; [rewrite (Hcur eq_refl)|destruct (Hf (a_life s)) as [-> | ->]]; unfold released, scheduleContextViewExpiry, resolveIdleWaitIfIdle; simpl; by destruct (_ || _). }
  destruct Hs as [E1 E2]. assert (Hk : forall l, runActive (f l) = false /\ compacting (f l) = compacting l /\ compactionController (f l) = compactionController l /\ idleWaits (f l) = idleWaits l /\
    idleWait (f l) = if compacting l then idleWait l else None).
  { intros l. destruct (Hf l) as [-> | ->]; unfold released, scheduleContextViewExpiry, resolveIdleWaitIfIdle, isIdle, with_currentRun; simpl; destruct (compacting l), (idleWait l); by simpl. }
  destruct (Hk (a_life s)) as (K1 & K2 & K3 & K4 & K5). split; simpl; [done|done| |by rewrite K2|by rewrite K3|by rewrite K4|by rewrite K5, O1, O3|].
  - unfold owes in *. simpl. by rewrite E1, E2.
  - intros H. rewrite O5 in H. by destruct e as [[]|].
Qed.

Lemma latch_then {A} e (q : prog A) Q s0 s : wp q Q s0 (on_session (latched e) s) -> wp (latchJournalFault e ;;; q) Q s0 s.
Proof. by destruct s, e as [[]|]. Qed.

Lemma remembers_latched e s : remembers (A := unit) (Err e) (on_session (latched e) s).
Proof. intros t [= ->]. done. Qed.

Lemma unlatched s : s = on_session (latched (Failure EmptyString)) s.
Proof. by destruct s. Qed.

Lemma exclusively_ends p s0 s : settles o (current := false) p -> inv o false [] s0 s -> wp (exclusively o p) ends s0 s.
Proof.
  intros Hp Hi. apply wp_finally, wp_catch. eapply wp_mono; [|by apply Hp]. intros [a|e] s1 s2 H.
  - simpl. split; [|by intros t]. rewrite (unlatched s2). by apply (give_back _ false); [|left|].
  - apply latch_then. simpl. split; [by apply (give_back _ false); [|left|]|by apply remembers_latched].
Qed.

Lemma run_ends fuel s0 s : inv o false [] s0 s -> wp (run o fuel) ends s0 s.
Proof.
  intros Hi. destruct (in_controller _ _ _ _ _ Hi) as [c Hc]. unfold run. apply wp_bind. cbn [gets AsyncProg.wp]. rewrite Hc. apply wp_bind. cbn [AsyncProg.ask AsyncProg.wp].
  intros t Ht. rewrite (Ht eq_refl). cbn [of_result AsyncProg.wp]. apply wp_bind. cbn [lives write AsyncProg.wp].
  assert (Hi' : inv o true [] s0 (on_life (with_currentRun true) s)) by (destruct Hi as [Ha Hcc Hr Ho Hoth]; by split).
  apply wp_finally, wp_catch. eapply wp_mono; [|exact (settles_called o (current := true) _ (run_loop_settles o fuel (Some c)) _ _ Hi')]. intros [a|e] s1 s2 H.
  - simpl. split; [|by intros t']. rewrite (unlatched s2). by apply (give_back _ true); [|right|].
  - apply latch_then. simpl. split; [by apply (give_back _ true); [|right|]|by apply remembers_latched].
Qed.

Lemma guarded_ends fuel p s0 s : settles o (current := false) p -> inv o false [] s0 s -> wp (catch p (surrender o) ;;; run o fuel) ends s0 s.
Proof.
  intros Hp Hi. apply wp_bind, wp_catch. eapply wp_mono; [|by apply Hp]. intros [a|e] s1 s2 H; [by apply run_ends|].
  apply latch_then. simpl. rewrite (in_current _ _ _ _ _ H). simpl. split; [by apply (give_back _ false); [|left|]|by apply remembers_latched].
Qed.

Lemma rebase_after_commit {A} w raw (p : prog A) : settles o (current := false) p -> settles o (current := false) (called (commitJournal o [w]) ;;; sessions (rebased (Selected raw) raw) ;;; p).
Proof.
  intros Hp. eapply (leaves_bind o _ _ _ (fun r => match r with Ok ids => shown [w] ids | Err _ => [] end)); [apply leaves_called; apply (commit_leaves o [w] [])|done|].
  intros ids s0 s [Ha Hc Hr Ho Hoth]. apply Hp. split; [done|done|done|by apply owes_rebased|done].
Qed.

Lemma claimed_inv s : runActive (a_life s) = false -> currentRun (a_life s) = false -> owes o [] s -> inv o false [] s (on_life claimed s).
Proof. intros Ha Hr Ho. split; [done|by eexists|done|done|done]. Qed.

(** Edits and the choice of a head need a conversation. *)
Definition supported (m : method) : bool := match m with MEdit _ | MSelect _ => o_conversation o | _ => true end.

(** A method that was not refused runs to an end at which it gives the agent back. *)
Lemma run_method_ends fuel m s : is_run m = true -> supported m = true -> runActive (a_life s) = false -> isFaulted (a_session s) = false -> currentRun (a_life s) = false -> owes o [] s ->
  wp (body o fuel m) ends s s.
Proof.
  intros Hm Hsup Ha Hf Hr Ho. pose proof (claimed_inv s Ha Hr Ho) as Hi.
  assert (Hclaim : forall (q : prog unit), wp q ends s (on_life claimed s) -> wp (claimRun ;;; q) ends s s).
  { intros q Hq. simpl. rewrite Hf, Ha. exact Hq. }
  destruct m; try done; simpl body.
  - apply Hclaim, guarded_ends; [|done]. apply settles_bind; [destruct input; [apply settles_bind|]; first [apply settles_keeps, keeps_Ask|intros; apply settles_keeps, keeps_ret]|]. intros a.
    apply settles_bind; [apply before_run_settles|]. intros _. apply commit_adopt. intros m'. apply announce_settles.
  - apply Hclaim, guarded_ends; [apply before_run_settles|done].
  - apply Hclaim, wp_bind. cbn [sessions write AsyncProg.wp]. apply exclusively_ends; [apply settles_called, restore_settles|]. destruct Hi as [H1 H2 H3 H4 H5]. by split.
  - unfold editContext. simpl in Hsup. rewrite Hsup. apply Hclaim, exclusively_ends; [|done].
    apply settles_bind; [apply settles_called, initialize_settles|]. intros _. apply settles_bind; [apply settles_keeps, keeps_commit; by repeat constructor|]. intros _.
    destruct (o_toolDiscovery o); [apply settles_keeps, keeps_ask|apply settles_keeps, keeps_ret].
  - unfold selectContextHead. simpl in Hsup. rewrite Hsup. apply Hclaim, wp_bind. cbn [AsyncProg.wp]. intros previous _. apply wp_finally, wp_catch.
    set (p := bind_prog _ _). assert (Hp : settles o (current := false) p).
    { apply settles_bind; [apply settles_keeps, keeps_ask|]. intros raw. apply settles_bind; [apply settles_keeps, keeps_ask|]. intros _. apply rebase_after_commit.
      apply settles_bind; [apply settles_catch; [apply settles_keeps, keeps_ask|intros e; apply settles_keeps, keeps_throw]|]. intros _. by apply settles_keeps, keeps_sessions. }
    eapply wp_mono; [|by apply Hp]. intros [a|e] s1 s2 H.
    + simpl. split; [|by intros t]. rewrite (unlatched s2). by apply (give_back _ false); [|left|].
    + apply latch_then. pose proof (give_back (released o) false e s1 s2 H ltac:(by left) ltac:(done)) as Hg. simpl. destruct (isFaulted (latched e (a_session s2))) eqn:Ef; simpl; [by split; [|apply remembers_latched]|].
      intros [u|e'] He'; simpl; (split; [exact Hg|]); [apply remembers_latched|]. intros t [= ->]. done.
Qed.

(** A method that is refused changes nothing. *)
Lemma run_method_refused fuel m s answers : is_run m = true -> supported m && negb (runActive (a_life s)) && negb (isFaulted (a_session s)) = false ->
  exists t, advance answers (body o fuel m) s = (Throw (Failure t), s).
Proof.
  intros Hm Hs. assert (Hc : negb (runActive (a_life s)) && negb (isFaulted (a_session s)) = false -> forall (q : prog unit), exists t, advance answers (claimRun ;;; q) s = (Throw (Failure t), s)).
  { intros H q. simpl. destruct (isFaulted (a_session s)); [by eexists|]. destruct (runActive (a_life s)); [by eexists|done]. }
  destruct m; try done; simpl body; unfold editContext, selectContextHead; simpl in Hs; try (apply Hc; exact Hs); destruct (o_conversation o); simpl; try by eexists.
  all: apply Hc; exact Hs.
Qed.
End Methods.
