(* ===== verification/AgentWork.v ===== *)
(** Agents with many calls under way: what each call leaves to the others, and the invariant of
    the whole. *)

From S2P Require Import Prelude Json Reducer AsyncProg Agent AgentProofs.

(** * Counting calls *)

Definition busy (cls : method -> bool) (c : method * prog unit) : nat := if cls (fst c) && negb (finished (snd c)) then 1 else 0.

Definition count_busy (cls : method -> bool) (calls : list (method * prog unit)) : nat := sum_list_with (busy cls) calls.

Lemma busy_done cls : busy cls (MReset, Ret tt) = 0.
Proof. unfold busy. by rewrite andb_false_r. Qed.

Lemma count_busy_insert cls calls i c c' : calls !! i = Some c -> count_busy cls (<[i := c']> calls) + busy cls c = count_busy cls calls + busy cls c'.
Proof.
  revert i. induction calls as [|x calls IH]; intros [|i] Hi; simpl in *; try done.
  - injection Hi as ->. lia.
  - specialize (IH i Hi). lia.
Qed.

Lemma count_busy_snoc cls calls c : count_busy cls (calls ++ [c]) = count_busy cls calls + busy cls c.
Proof. unfold count_busy. rewrite sum_list_with_app. simpl. lia. Qed.

Lemma count_busy_in cls calls i c : calls !! i = Some c -> busy cls c <= count_busy cls calls.
Proof. intros Hi. pose proof (count_busy_insert cls calls i c (MReset, Ret tt) Hi) as H. rewrite busy_done in H. lia. Qed.

Lemma count_busy_two cls calls i j c d : i <> j -> calls !! i = Some c -> calls !! j = Some d -> busy cls c + busy cls d <= count_busy cls calls.
Proof.
  intros Hij Hi Hj. pose proof (count_busy_insert cls calls i c (MReset, Ret tt) Hi) as H. rewrite busy_done in H.
  assert (Hj' : <[i:=(MReset, Ret tt)]> calls !! j = Some d) by (by rewrite list_lookup_insert_ne). pose proof (count_busy_in cls _ j d Hj'). lia.
Qed.

Section Work.
Variable o : options.

Definition is_compaction (m : method) : bool := match m with MRunCompaction => true | _ => false end.

(** * The state between the steps of calls *)

Record state_ok (s : agent) : Prop := MkStateOk {
  sk_idle : runActive (a_life s) = false -> currentRun (a_life s) = false /\ owes o [] s;
  sk_wait : is_Some (idleWait (a_life s)) -> isIdle (a_life s) = false;
  sk_owes : exists debt, owes o debt s;
}.

(** A compaction that waits for its task. *)
Definition compaction_thread (p : prog unit) : Prop :=
  match p with
  | Await r k =>
      match r in request T return (T -> prog unit) -> Prop with
      | TaskDone => fun k => forall answers t s, exists p', advance answers (k t) s = (p', on_life (fun l => resolveIdleWaitIfIdle (with_compaction false None l)) s) /\ finished p' = true
      | _ => fun _ => False
      end k
  | _ => False
  end.

Definition waiter (p : prog unit) : Prop :=
  match p with
  | Await r k => match r in request T return (T -> prog unit) -> Prop with WaitIdle _ => fun k => k tt = Ret tt | _ => fun _ => False end k
  | _ => False
  end.

Definition thread_ok (s : agent) (c : method * prog unit) : Prop :=
  let '(m, p) := c in
  if is_run m then waits allowed rely (stop o) p (ends o) s /\ forall t, p = Throw (CommitFailure true t) -> isFaulted (a_session s) = true
  else if is_compaction m then finished p = true \/ compaction_thread p
  else finished p = true \/ waiter p.

Lemma thread_ok_rely s s' c : rely s s' -> (isFaulted (a_session s) = true -> isFaulted (a_session s') = true) -> thread_ok s c -> thread_ok s' c.
Proof.
  intros Hr Hf. destruct c as [m p]. unfold thread_ok. destruct (is_run m); [|done]. intros [Hw Hp]. split; [by apply (waits_rely allowed rely (stop o) p (ends o) s s' _ Hr)|]. intros t Ht. by apply Hf, (Hp t).
Qed.

Lemma thread_ok_finished s s' c : busy is_run c = 0 -> (isFaulted (a_session s) = true -> isFaulted (a_session s') = true) -> thread_ok s c -> thread_ok s' c.
Proof.
  intros Hb Hf. destruct c as [m p]. unfold thread_ok, busy in *. simpl in Hb. destruct (is_run m); [|done]. intros [Hw Hp]. split; [|intros t Ht; by apply Hf, (Hp t)].
  by destruct p.
Qed.

(** * Steps *)

(** What a step of the call [(m, p)] that leaves [p'] does. *)
Record step_ok (s : agent) (m : method) (before : bool) (p' : prog unit) (s' : agent) : Prop := MkStep {
  st_state : state_ok s';
  st_run : Nat.b2n (runActive (a_life s')) + Nat.b2n (is_run m && before) = Nat.b2n (runActive (a_life s)) + busy is_run (m, p');
  st_compaction : Nat.b2n (compacting (a_life s')) + Nat.b2n (is_compaction m && before) = Nat.b2n (compacting (a_life s)) + busy is_compaction (m, p');
  st_thread : thread_ok s' (m, p');
  st_rely : is_run m && before = true \/ rely s s';
  st_fault : isFaulted (a_session s) = true -> isFaulted (a_session s') = true;
}.

Record sound (f : office) : Prop := MkSound {
  so_state : state_ok (f_agent f);
  so_run : count_busy is_run (f_calls f) = Nat.b2n (runActive (a_life (f_agent f)));
  so_compaction : count_busy is_compaction (f_calls f) = Nat.b2n (compacting (a_life (f_agent f)));
  so_threads : Forall (thread_ok (f_agent f)) (f_calls f);
}.

Lemma busy_b2n cls m (p : prog unit) : busy cls (m, p) = Nat.b2n (cls m && negb (finished p)).
Proof. unfold busy. simpl. by destruct (_ && _). Qed.

Lemma invoked_sound f m p' s' : sound f -> step_ok (f_agent f) m false p' s' -> sound (MkOffice s' (f_calls f ++ [(m, p')])).
Proof.
  intros [Hs Hr Hc Ht] [H1 H2 H3 H4 H5 H6]. rewrite !andb_false_r in H2, H3; change (Nat.b2n false) with 0 in *. split; simpl; [done|rewrite count_busy_snoc; lia|rewrite count_busy_snoc; lia|].
  apply Forall_app. split; [|by constructor]. eapply Forall_impl; [exact Ht|]. intros c Hc'. destruct H5 as [H5|H5]; [by rewrite andb_false_r in H5|]. by apply (thread_ok_rely (f_agent f)).
Qed.

Lemma resumed_sound f i m p p' s' : f_calls f !! i = Some (m, p) -> finished p = false -> sound f -> step_ok (f_agent f) m true p' s' -> sound (MkOffice s' (<[i := (m, p')]> (f_calls f))).
Proof.
  intros Hi Hp [Hs Hr Hc Ht] [H1 H2 H3 H4 H5 H6]. rewrite !andb_true_r in H2, H3, H5. split; simpl; [done| | |].
  - pose proof (count_busy_insert is_run _ _ _ (m, p') Hi) as H. rewrite (busy_b2n is_run m p), Hp, andb_true_r in H. lia.
  - pose proof (count_busy_insert is_compaction _ _ _ (m, p') Hi) as H. rewrite (busy_b2n is_compaction m p), Hp, andb_true_r in H. lia.
  - apply Forall_lookup. intros j c Hj. destruct (decide (i = j)) as [<-|Hij].
    + rewrite list_lookup_insert_eq in Hj by (by eapply lookup_lt_Some). by injection Hj as <-.
    + rewrite list_lookup_insert_ne in Hj by done. pose proof (proj1 (Forall_lookup _ _) Ht j c Hj) as Hok. destruct H5 as [H5|H5]; [|by apply (thread_ok_rely (f_agent f))].
      apply (thread_ok_finished (f_agent f)); [|done|done]. pose proof (count_busy_two is_run _ _ _ _ _ Hij Hi Hj) as H. rewrite (busy_b2n is_run m p), Hp, andb_true_r, H5 in H. simpl in H.
      destruct (runActive (a_life (f_agent f))); simpl in Hr; lia.
Qed.

(** * Runs *)

Lemma given_back_ok s s' : given_back o s s' -> state_ok s'.
Proof.
  intros [H1 H2 H3 H4 H5 H6 H7 H8]. split; [done| |by exists []]. rewrite H7. unfold isIdle. rewrite H1, H4. destruct (compacting (a_life s)); [done|]. by intros [? ?].
Qed.

Lemma stop_ok s s' : state_ok s -> stop o s s' -> state_ok s'.
Proof.
  intros Hs (c & d & [Ha Hc Hr Ho (O1 & O2 & O3 & O4 & O5)]). split; [by rewrite Ha| |by exists d]. intros _. unfold isIdle. by rewrite Ha.
Qed.

Lemma run_step m before (p : prog unit) s answers : is_run m = true -> good allowed answers -> state_ok s -> (before = true <-> runActive (a_life s) = true) -> AsyncProg.wp allowed rely (stop o) p (ends o) s s ->
  let '(p', s') := advance answers p s in step_ok s m before p' s'.
Proof.
  intros Hm Hg Hs Hb Hw. pose proof (wp_advance allowed rely (stop o) answers p _ s s Hg Hw) as H. destruct (advance answers p s) as [p' s']. destruct H as [Hwait Hend].
  assert (Hbefore : before = runActive (a_life s)) by (by apply Bool.eq_true_iff_eq). assert (Hcomp : is_compaction m = false) by (by destruct m).
  assert (Hfin : forall r, ends o r s s' -> finished p' = true -> (forall t, p' = Throw (CommitFailure true t) -> r = Err (CommitFailure true t)) -> step_ok s m before p' s').
  { intros r [Hgb Hrem] Hfin Hthrow. pose proof (given_back_ok _ _ Hgb) as Hok. destruct Hgb as [H1 H2 H3 H4 H5 H6 H7 H8]. split; [done| | | | |done].
    - rewrite (busy_b2n is_run), Hfin, Hm, H1, Hbefore. simpl. lia.
    - by rewrite (busy_b2n is_compaction), Hcomp, H4.
    - unfold thread_ok. rewrite Hm. split; [done|]. intros t Ht. by apply (Hrem t), Hthrow.
    - rewrite Hm, Hbefore. simpl. destruct (runActive (a_life s)) eqn:E; [by left|right]. intros H; congruence. }
  destruct p' as [a|e|k|f k|T r k|T r k]; try done; [by apply (Hfin _ Hend)|apply (Hfin _ Hend); [done|by intros t [= ->]]|].
  pose proof (stop_ok _ _ Hs Hend) as Hok. destruct Hend as (c & d & [Ha Hc Hr Ho (O1 & O2 & O3 & O4 & O5)]). split; [done| | | | |by rewrite O5].
  - rewrite (busy_b2n is_run), Hm, Ha, Hbefore. simpl. lia.
  - by rewrite (busy_b2n is_compaction), Hcomp, O1.
  - unfold thread_ok. rewrite Hm. by split.
  - rewrite Hm, Hbefore. simpl. destruct (runActive (a_life s)) eqn:E; [by left|right]. intros H; congruence.
Qed.

Lemma run_invoked fuel m s answers : is_run m = true -> good allowed answers -> state_ok s -> let '(p', s') := advance answers (body o fuel m) s in step_ok s m false p' s'.
Proof.
  intros Hm Hg Hs. destruct (supported o m && negb (runActive (a_life s)) && negb (isFaulted (a_session s))) eqn:E.
  - rewrite !andb_true_iff, !negb_true_iff in E. destruct E as [[Hsup Ha] Hf]. destruct (sk_idle _ Hs Ha) as [Hr Ho]. apply run_step; [done|done|done|by rewrite Ha|]. by apply run_method_ends.
  - destruct (run_method_refused o fuel m s answers Hm E) as [t ->]. assert (Hcomp : is_compaction m = false) by (by destruct m).
    split; [done|by rewrite andb_false_r, (busy_b2n is_run), andb_false_r|by rewrite andb_false_r, (busy_b2n is_compaction), andb_false_r| |by right|done]. unfold thread_ok. rewrite Hm. by split.
Qed.

(** * The other calls *)

(** A call that leaves the run and the compaction alone. *)
Lemma light_step s m before p' s' : is_run m = false -> is_compaction m = false -> finished p' = true \/ waiter p' -> rely s s' -> state_ok s' ->
  runActive (a_life s') = runActive (a_life s) -> compacting (a_life s') = compacting (a_life s) -> isFaulted (a_session s') = isFaulted (a_session s) -> step_ok s m before p' s'.
Proof.
  intros Hm Hc Hp Hr Hs Ha Hco Hf. split; [done|by rewrite (busy_b2n is_run), Hm, Ha|by rewrite (busy_b2n is_compaction), Hc, Hco| |by right|by rewrite Hf]. unfold thread_ok. by rewrite Hm, Hc.
Qed.

(** A change of what a run does not own. *)
Lemma life_ok s f : state_ok s -> (forall l, runActive (f l) = runActive l /\ currentRun (f l) = currentRun l /\ controller (f l) = controller l /\ compacting (f l) = compacting l) ->
  (idleWait (f (a_life s)) = idleWait (a_life s) \/ isIdle (a_life s) = false) -> state_ok (on_life f s) /\ rely s (on_life f s).
Proof.
  intros [H1 H2 H3] Hf Hw. destruct (Hf (a_life s)) as (F1 & F2 & F3 & F4). split; [|intros Ha; split_and!; [done|by rewrite <- Ha|done|done]]. split; simpl; [by rewrite F1, F2| |done].
  unfold isIdle in *. rewrite F1, F4. destruct Hw as [-> |Hw]; [done|by intros _].
Qed.

Lemma queues_ok s f : state_ok s -> state_ok (on_queues f s) /\ rely s (on_queues f s).
Proof. intros [H1 H2 H3]. by split. Qed.

Lemma rely_refl s : rely s s.
Proof. by intros Ha. Qed.

Lemma abort_life c l : let l' := abort_controller c l in runActive l' = runActive l /\ currentRun l' = currentRun l /\ controller l' = controller l /\ compacting l' = compacting l /\ idleWait l' = idleWait l.
Proof. by destruct c. Qed.

Lemma abort_ok s (c : life -> option nat) : state_ok s -> state_ok (on_life (fun l => abort_controller (c l) l) s) /\ rely s (on_life (fun l => abort_controller (c l) l) s).
Proof. intros Hs. apply life_ok; [done| |left; apply abort_life]. intros l. destruct (abort_life (c l) l) as (? & ? & ? & ? & _). by split_and!. Qed.

Lemma wait_advance answers s : state_ok s -> let '(p', s') := advance answers waitForIdle s in
  (finished p' = true \/ waiter p') /\ rely s s' /\ state_ok s' /\ runActive (a_life s') = runActive (a_life s) /\ compacting (a_life s') = compacting (a_life s) /\ isFaulted (a_session s') = isFaulted (a_session s).
Proof.
  intros Hs. simpl. destruct (isIdle (a_life s)) eqn:Ei; simpl; [split_and!; try done; by left|]. destruct (idleWait (a_life s)) as [w|]; simpl.
  - split_and!; try done. by right.
  - destruct (life_ok s (fun l => MkLife (runActive l) (controller l) (controllers l) (aborted l) (currentRun l) (compacting l) (compactionController l) (Some (idleWaits l)) (S (idleWaits l)) (expiry l)) Hs) as [H1 H2]; [done|by right|].
    split_and!; try done. by right.
Qed.

Lemma light_invoked fuel m s answers : is_run m = false -> is_compaction m = false -> state_ok s -> let '(p', s') := advance answers (body o fuel m) s in step_ok s m false p' s'.
Proof.
  intros Hm Hc Hs. destruct m; try done; simpl body.
  - pose proof (wait_advance answers s Hs) as H. destruct (advance answers waitForIdle s) as [p' s']. destruct H as (? & ? & ? & ? & ? & ?). by apply light_step.
  - change (advance answers abort s) with (advance answers waitForIdle (on_life (fun l => abort_controller (compactionController l) l) (on_life (fun l => abort_controller (controller l) l) s))).
    destruct (abort_ok s controller Hs) as [A1 A2]. destruct (abort_ok _ compactionController A1) as [B1 B2]. set (s1 := on_life _ (on_life _ s)) in *.
    assert (E : runActive (a_life s1) = runActive (a_life s) /\ compacting (a_life s1) = compacting (a_life s)).
    { unfold s1. simpl. destruct (abort_life (controller (a_life s)) (a_life s)) as (E1 & _ & _ & E2 & _). destruct (abort_life (compactionController (abort_controller (controller (a_life s)) (a_life s))) (abort_controller (controller (a_life s)) (a_life s))) as (E3 & _ & _ & E4 & _). by rewrite E3, E4. }
    pose proof (wait_advance answers s1 B1) as H. destruct (advance answers waitForIdle s1) as [p' s']. destruct H as (H1 & H2 & H3 & H4 & H5 & H6). destruct E as [E1 E2].
    apply light_step; [done|done|done| |done|by rewrite H4|by rewrite H5|by rewrite H6]. transitivity s1; [by transitivity (on_life (fun l => abort_controller (controller l) l) s)|done].
  - destruct (abort_ok s compactionController Hs) as [A1 A2]. destruct (abort_life (compactionController (a_life s)) (a_life s)) as (E1 & _ & _ & E2 & _). apply light_step; try done. by left.
  - simpl. destruct (runActive (a_life s)) eqn:Ha; simpl; [apply light_step; try done; by left|]. destruct (sk_idle _ Hs Ha) as [Hr _]. rewrite Hr. simpl.
    destruct (compacting (a_life s)) eqn:Hco; simpl; [apply light_step; try done; by left|].
    assert (Hgo : step_ok s MReset false (Ret tt) (on_queues (fun _ => MkQueues [] []) (on_session (with_errorMessage None) (on_session quiet (on_session (rebased Cleared []) (on_life (fun l => abort_controller (compactionController l) (abort_controller (controller l) l)) s)))))).
    { destruct (abort_ok s controller Hs) as [A1 _]. destruct (abort_ok _ compactionController A1) as [B1 _]. destruct (abort_life (controller (a_life s)) (a_life s)) as (E1 & E2 & _ & E3 & E4).
      destruct (abort_life (compactionController (a_life s)) (abort_controller (controller (a_life s)) (a_life s))) as (F1 & F2 & _ & F3 & F4).
      assert (Ho : forall q, owes o [] (MkAgent q (with_errorMessage None (quiet (rebased Cleared [] (a_session s)))) (MkQueues [] []))) by (intros q _; exists []; simpl; by rewrite replay_snoc).
      apply light_step; try done; [by left|by intros H; rewrite Ha in H| |by simpl; rewrite F1, E1|by simpl; rewrite F3, E3]. split; simpl.
      - intros _. rewrite F2, E2. by split; [|apply Ho].
      - rewrite F4, E4. unfold isIdle. rewrite F1, F3, E1, E3. apply Hs.
      - exists []. apply Ho. }
    by destruct (o_conversation o).
  - destruct (queues_ok s (fun q => MkQueues (steeringQueue q ++ [m]) (followUpQueue q)) Hs). apply light_step; try done. by left.
  - destruct (queues_ok s (fun q => MkQueues (steeringQueue q) (followUpQueue q ++ [m])) Hs). apply light_step; try done. by left.
  - destruct (queues_ok s (fun _ => MkQueues [] []) Hs) as [B1 B2]. destruct (life_ok _ (with_expiry false) B1) as [A1 A2]; [done|by left|]. apply light_step; try done; by left.
  - simpl. destruct (life_ok s (with_expiry false) Hs) as [A1 A2]; [done|by left|]. apply light_step; try done. by left.
Qed.

(** * Compactions *)

Lemma compaction_invoked fuel s answers : good allowed answers -> state_ok s -> let '(p', s') := advance answers (body o fuel MRunCompaction) s in step_ok s MRunCompaction false p' s'.
Proof.
  intros Hg Hs. simpl. destruct (compacting (a_life s)) eqn:Hc; simpl.
  - split; [done|done|done|by left|by right; apply rely_refl|done].
  - pose proof (Hg _ TaskStart) as Ht. simpl in Ht. rewrite Ht. simpl. split; simpl; [|done|by rewrite Hc| |by right; intros Ha|done].
    + destruct Hs as [H1 H2 H3]. split; simpl; [done| |done]. intros _. unfold isIdle. simpl. apply andb_false_r.
    + right. intros a [u|e] s1; by eexists.
Qed.

Lemma compaction_resumed s answers k (t : result failure unit) : compaction_thread (Await TaskDone k) -> compacting (a_life s) = true -> state_ok s ->
  let '(p', s') := advance answers (k t) s in step_ok s MRunCompaction true p' s'.
Proof.
  intros Hk Hc Hs. destruct (Hk answers t s) as (p' & -> & Hp). set (f := fun l => resolveIdleWaitIfIdle (with_compaction false None l)).
  assert (Hf : forall l, runActive (f l) = runActive l /\ currentRun (f l) = currentRun l /\ controller (f l) = controller l /\ compacting (f l) = false /\ (is_Some (idleWait (f l)) -> runActive l = true)).
  { intros l. unfold f, resolveIdleWaitIfIdle, isIdle. simpl. destruct (runActive l) eqn:Ea; simpl; [by split_and!|]. case_bool_decide as Hw; simpl; split_and!; try done. }
  destruct (Hf (a_life s)) as (F1 & F2 & F3 & F4 & F5). destruct Hs as [H1 H2 H3]. split; simpl.
  - split; simpl; [by rewrite F1, F2| |done]. intros Hw. unfold isIdle. by rewrite F1, (F5 Hw).
  - by rewrite F1.
  - rewrite F4, (busy_b2n is_compaction), Hp, Hc. done.
  - by left.
  - right. intros Ha. split_and!; [done|by rewrite <- Ha|done|done].
  - done.
Qed.

(** * The whole *)

Definition fair (h : happening) : Prop := match h with Invoke _ answers | Resume _ answers => good allowed answers end.

Lemma proceed_sound fuel f h : fair h -> sound f -> sound (proceed o fuel f h).
Proof.
  intros Hg Hf. destruct h as [m answers|i answers]; simpl in *.
  - assert (H : let '(p', s') := advance answers (body o fuel m) (f_agent f) in step_ok (f_agent f) m false p' s').
    { destruct (is_run m) eqn:Hm; [apply run_invoked; [done|done|apply Hf]|]. destruct (is_compaction m) eqn:Hc; [destruct m; try done; apply compaction_invoked; [done|apply Hf]|]. apply light_invoked; [done|done|apply Hf]. }
    destruct (advance answers (body o fuel m) (f_agent f)) as [p' s']. by apply invoked_sound.
  - destruct (f_calls f !! i) as [[m p]|] eqn:Hi; [|done]. destruct p as [| | | | |T r k]; try done. destruct (ready (f_agent f) r) eqn:Hrd; [|done].
    pose proof (proj1 (Forall_lookup _ _) (so_threads _ Hf) i _ Hi) as Ht. assert (H : let '(p', s') := advance answers (k (answers T r)) (f_agent f) in step_ok (f_agent f) m true p' s').
    { unfold thread_ok in Ht. destruct (is_run m) eqn:Hm; [|destruct (is_compaction m) eqn:Hc].
      - destruct Ht as [Hw _]. assert (Ha : runActive (a_life (f_agent f)) = true).
        { pose proof (count_busy_in is_run _ _ _ Hi) as Hb. rewrite (so_run _ Hf), (busy_b2n is_run), Hm in Hb. by destruct (runActive (a_life (f_agent f))); [|simpl in Hb; lia]. }
        apply run_step; [done|done|apply Hf|done|]. apply Hw; [apply rely_refl|apply Hg].
      - destruct Ht as [Ht|Ht]; [done|]. assert (Hco : compacting (a_life (f_agent f)) = true).
        { pose proof (count_busy_in is_compaction _ _ _ Hi) as Hb. rewrite (so_compaction _ Hf), (busy_b2n is_compaction), Hc in Hb. by destruct (compacting (a_life (f_agent f))); [|simpl in Hb; lia]. }
        destruct m; try done. destruct r; try done. apply compaction_resumed; [done|done|apply Hf].
      - destruct Ht as [Ht|Ht]; [done|]. destruct r; try done. simpl in Ht. destruct (answers unit (WaitIdle w)). rewrite Ht. simpl. apply light_step; try done; [by left|apply Hf]. }
    destruct (advance answers (k (answers T r)) (f_agent f)) as [p' s']. by eapply resumed_sound.
Qed.

Lemma work_sound fuel f hs : Forall fair hs -> sound f -> sound (work_through o fuel f hs).
Proof. intros H. revert f. induction H as [|h hs Hh _ IH]; intros f Hf; [done|]. apply IH. by apply proceed_sound. Qed.

Lemma new_office_sound initial persisted : sound (MkOffice (new_agent initial persisted) []).
Proof. assert (Ho : owes o [] (new_agent initial persisted)) by (intros _; exists initial; simpl; by rewrite app_nil_r). split; [|done|done|done]. split; simpl; [done|by intros [? ?]|by exists []]. Qed.
End Work.
