(* ===== verification/AgentTheorems.v ===== *)
(** What an agent promises, however the calls of an application and the answers of the host
    interleave; runs in which it is used, and runs in which it falls short. *)

From S2P Require Import Prelude Json Reducer AsyncProg Agent AgentProofs AgentWork.

Section Theorems.
Variable o : options.

(** The unfinished calls of a kind. *)
Definition under_way (cls : method -> bool) (f : office) : nat := count_busy cls (f_calls f).

Definition can_resume (f : office) (i : nat) : Prop := exists m (T : Type) (r : request T) k, f_calls f !! i = Some (m, Await r k) /\ ready (f_agent f) r = true.

Definition unfinished (f : office) (i : nat) : Prop := exists m p, f_calls f !! i = Some (m, p) /\ finished p = false.

(** C7: runs are exclusive and always given back.  Whatever is called when, on a host that is
    [fair] - the journal returns one identifier for each entry, the conversation knows the
    messages the agent was opened with, the registry of tools can be merged when a run starts,
    the task of a compaction does not throw before it waits, and the selection of a head does
    not fail with an error of the journal - but answers as it likes and when it likes
    otherwise: a run is under way exactly while the agent is marked active, and one at most; a
    compaction is under way exactly while it is marked, and one at most; when the agent is idle,
    every call that still waits can go on; and when the outcome of a commit was unknown to a
    run, the agent says so and refuses every run from then on.  On hosts that are not fair,
    [a_throw_before_the_loop_strands_the_agent] and [a_throwing_task_strands_the_compaction]. *)
Theorem runs_are_exclusive_and_given_back fuel initial persisted hs : Forall fair hs ->
  let f := work_through o fuel (MkOffice (new_agent initial persisted) []) hs in
  under_way is_run f = Nat.b2n (runActive (a_life (f_agent f))) /\
  under_way is_compaction f = Nat.b2n (compacting (a_life (f_agent f))) /\
  (isIdle (a_life (f_agent f)) = true -> forall i, unfinished f i -> can_resume f i) /\
  (forall i m t, f_calls f !! i = Some (m, Throw (CommitFailure true t)) -> is_run m = true -> isFaulted (a_session (f_agent f)) = true) /\
  (isFaulted (a_session (f_agent f)) = true -> forall m answers, is_run m = true -> f_agent (proceed o fuel f (Invoke m answers)) = f_agent f).
Proof.
  intros Hh f. pose proof (work_sound o fuel _ hs Hh (new_office_sound o initial persisted)) as [Hs Hr Hc Ht]. fold f in Hs, Hr, Hc, Ht. split_and!; [done|done| | |].
  - intros Hi i (m & p & Hp & Hfin). pose proof (proj1 (Forall_lookup _ _) Ht i _ Hp) as Hok. pose proof Hi as Hi'. unfold isIdle in Hi'. apply andb_true_iff in Hi' as [Ha Hco]. apply negb_true_iff in Ha, Hco.
    pose proof (count_busy_in is_run _ _ _ Hp) as H1. pose proof (count_busy_in is_compaction _ _ _ Hp) as H2. rewrite Hr, Ha, busy_b2n, Hfin in H1. rewrite Hc, Hco, busy_b2n, Hfin in H2.
    unfold thread_ok in Hok. destruct (is_run m); [simpl in H1; lia|]. destruct (is_compaction m); [simpl in H2; lia|]. destruct Hok as [Hok|Hok]; [by rewrite Hok in Hfin|].
    destruct p as [| | | | |T r k]; try done. exists m, T, r, k. split; [done|]. destruct r; try done. simpl. destruct (idleWait (a_life (f_agent f))) eqn:Ew; [|done].
    pose proof (sk_wait _ _ Hs) as Hw. rewrite Ew in Hw. rewrite Hw in Hi; [done|by eexists].
  - intros i m t Hp Hm. pose proof (proj1 (Forall_lookup _ _) Ht i _ Hp) as Hok. unfold thread_ok in Hok. rewrite Hm in Hok. by apply (proj2 Hok t).
  - intros Hf m answers Hm. simpl. destruct (run_method_refused o fuel m (f_agent f) answers Hm) as [t ->]; [rewrite Hf; apply andb_false_r|done].
Qed.

(** C6: a message is in the journal before it is shown.  The agent writes a journal and the host
    is [fair]: the journal returns one identifier for each entry, the conversation knows the
    messages the agent was opened with, the registry of tools can be merged when a run starts,
    the task of a compaction does not throw before it waits, and the selection of a head does
    not fail with an error of the journal.  A reader of the journal starts from the messages the
    agent was opened with, starts over when a head is selected, the agent is reset or its
    history is compacted in memory, and sees the last message go when an answer that overflowed
    is dropped.  Then at any time the messages of the agent are among those that the reader
    knows, in the same order; as long as no batch of tools was broken off after some of its
    results were committed, they are the first of them; and then, when no run is under way,
    they are all of them. *)
Theorem messages_are_durable_before_they_are_shown fuel initial persisted hs : o_journal o = true -> Forall fair hs ->
  let s := f_agent (work_through o fuel (MkOffice (new_agent initial persisted) []) hs) in
  messages (a_session s) `sublist_of` replay (trace (a_session s)) /\
  (all_seen (trace (a_session s)) = true -> messages (a_session s) `prefix_of` replay (trace (a_session s))) /\
  (runActive (a_life s) = false -> all_seen (trace (a_session s)) = true -> messages (a_session s) = replay (trace (a_session s))).
Proof.
  intros Hj Hh s. pose proof (so_state _ _ (work_sound o fuel _ hs Hh (new_office_sound o initial persisted))) as [H1 H2 [debt H3]]. fold s in H1, H3.
  destruct (H3 Hj) as (known & E & Hsub & Hk). rewrite E. split_and!; [by apply sublist_inserts_r|intros Hseen; rewrite (Hk Hseen); by apply prefix_app_r|].
  intros Ha Hseen. rewrite <- E. destruct (H1 Ha) as [_ Ho]. destruct (Ho Hj) as (known' & E' & _ & Hk'). rewrite app_nil_r in E'. by rewrite E', (Hk' Hseen).
Qed.

(** * Fuel *)

Lemma turns_agree fuel fuel' n signal used : n < fuel -> n < fuel' -> agree n (turns o fuel signal used) (turns o fuel' signal used).
Proof.
  revert fuel' n used. induction fuel as [|fuel IH]; intros [|fuel'] n used Hn Hn'; [lia..|]. cbn [turns]. apply agree_bind; [apply agree_refl|]. intros m stopped Hm. destruct stopped; [apply agree_refl|].
  eexists. split; [done|]. eexists. split; [done|]. destruct m as [|m]; [done|]. intros [].
  cbn [bind_prog]. apply agree_bind; [apply agree_refl|]. intros m1 r Hm1. apply agree_bind; [apply agree_refl|]. intros m2 d Hm2. apply agree_bind; [apply agree_refl|]. intros m3 go Hm3.
  destruct go; [|apply agree_refl]. apply IH; lia.
Qed.

Lemma run_agree fuel fuel' n : n < fuel -> n < fuel' -> agree n (run o fuel) (run o fuel').
Proof.
  intros Hn Hn'. apply agree_bind; [apply agree_refl|]. intros m1 [c|] Hm1; [|apply agree_refl]. apply agree_bind; [apply agree_refl|]. intros m2 _ Hm2. apply agree_bind; [apply agree_refl|]. intros m3 _ Hm3.
  apply agree_finally, agree_catch, agree_bind; [|intros m r _; apply agree_refl]. apply agree_attempt, agree_bind; [apply agree_refl|]. intros m4 _ Hm4. apply agree_bind; [apply agree_refl|]. intros m5 _ Hm5.
  apply agree_finally, agree_catch, turns_agree; lia.
Qed.

Lemma body_agree fuel fuel' n m : n < fuel -> n < fuel' -> agree n (body o fuel m) (body o fuel' m).
Proof.
  intros Hn Hn'. destruct m; try apply agree_refl.
  - apply agree_bind; [apply agree_refl|]. intros m1 _ Hm1. apply agree_bind; [apply agree_refl|]. intros m2 _ Hm2. apply run_agree; lia.
  - apply agree_bind; [apply agree_refl|]. intros m1 _ Hm1. apply agree_bind; [apply agree_refl|]. intros m2 _ Hm2. apply run_agree; lia.
Qed.

Definition same_office (n : nat) (f g : office) : Prop := f_agent f = f_agent g /\ Forall2 (fun c d => fst c = fst d /\ agree n (snd c) (snd d)) (f_calls f) (f_calls g).

Lemma same_office_mono n m f g : m <= n -> same_office n f g -> same_office m f g.
Proof. intros Hm [Ha Hc]. split; [done|]. eapply Forall2_impl; [exact Hc|]. intros c d [H1 H2]. split; [done|]. by apply (agree_mono n). Qed.

Lemma proceed_same fuel fuel' n f g h : n < fuel -> n < fuel' -> same_office (S n) f g -> same_office n (proceed o fuel f h) (proceed o fuel' g h).
Proof.
  intros Hn Hn' Hs. pose proof (same_office_mono (S n) n f g ltac:(lia) Hs) as [Ha Hc]. destruct Hs as [_ Hc']. destruct h as [m answers|i answers]; simpl.
  - destruct (agree_advance answers n _ _ (f_agent f) (body_agree fuel fuel' n m Hn Hn')) as (p' & q' & s' & E1 & E2 & Hag). rewrite <- Ha, E1, E2. split; [done|]. apply Forall2_app; [done|]. by repeat constructor.
  - destruct (f_calls f !! i) as [[m p]|] eqn:E1; cycle 1.
    { destruct (f_calls g !! i) as [d|] eqn:E2; [|done]. destruct (Forall2_lookup_r _ _ _ _ _ Hc E2) as (c & Hc1 & _). by pose proof (eq_trans (eq_sym E1) Hc1). }
    destruct (Forall2_lookup_l _ _ _ _ _ Hc' E1) as ([m' q] & E2 & Hm & Hag). simpl in Hm, Hag. subst m'. rewrite E2.
    destruct p as [a|e|k|w k|T r k|T r k]; simpl in Hag; [by subst q|by subst q|by destruct Hag as (k' & -> & _)..|].
    destruct Hag as (k' & -> & Hk). rewrite <- Ha. destruct (ready (f_agent f) r); [|done].
    destruct (agree_advance answers n _ _ (f_agent f) (Hk (answers T r))) as (p' & q' & s' & F1 & F2 & Hag'). rewrite F1, F2. split; [done|]. by apply Forall2_insert.
Qed.

(** The fuel of a run bounds its turns, and each turn waits: fuel beyond the number of things
    that happen changes nothing. *)
Theorem fuel_is_enough fuel fuel' initial persisted hs : length hs < fuel -> length hs < fuel' ->
  f_agent (work_through o fuel (MkOffice (new_agent initial persisted) []) hs) = f_agent (work_through o fuel' (MkOffice (new_agent initial persisted) []) hs).
Proof.
  intros Hn Hn'. assert (H : forall n f g, length hs <= n -> n < fuel -> n < fuel' -> same_office n f g -> same_office (n - length hs) (work_through o fuel f hs) (work_through o fuel' g hs)).
  { clear Hn Hn'. induction hs as [|h l IH]; intros n f g Hl Hn Hn' Hs; simpl in *; [by rewrite Nat.sub_0_r|]. destruct n as [|n]; [lia|]. simpl. apply IH; [lia..|]. apply proceed_same; [lia|lia|done]. }
  apply (H (length hs)); [lia|done|done|]. by split.
Qed.
End Theorems.

(** * Concrete runs *)

Definition sample_options : options := MkOptions true true false false false false false false None None "provider" (JObj [("id"%string, JStr "m")]).

Definition text_message (who : string) (t : string) : fields := [("role"%string, JStr who); ("content"%string, JStr t)].
Definition empty_dispatched : dispatched := MkDispatched [] [] (Ok false).

(** The identifiers of messages that all have one. *)
Definition known (ms : list fields) : result failure (list string) :=
  if forallb (fun m => negb (bool_decide (default EmptyString (chat_id m) = EmptyString))) ms then Ok (omap chat_id ms) else Err (Failure "unknown messages").

(** A host at which everything succeeds; what it says of the journal, of the start of a run and
    of the start of a compaction can be given. *)
Definition host (commits : list write_append -> result failure (list string)) (ids : list fields -> result failure (list string)) (tools task : result failure unit) : oracle request :=
  fun T r =>
    match r in request T return T with
    | Tick => tt
    | Emit _ => tt
    | CommitBatch l => commits l
    | MergeTools running => if running then tools else Ok tt
    | VisibleTools => Ok tt
    | PlanRecovery => Ok false
    | RecoverTools => empty_dispatched
    | KnownIds ms => ids ms
    | LoadoutChanged => Ok None
    | HeadContext _ => Ok []
    | CurrentHead => None
    | SelectHead _ => Ok tt
    | AdoptTools => Ok tt
    | NewId => "op"%string
    | Now => 7%Z
    | PrepareRequest _ => Ok None
    | Sanitize => Ok tt
    | OpenStream => Ok tt
    | StreamSource => []
    | Collect => Ok (text_message "assistant" "done")
    | FlushStream => Ok tt
    | ShouldCompact _ => Ok false
    | CanCompact _ => Ok false
    | Compact _ => Ok []
    | SameConfiguration => Ok true
    | SameHistory => true
    | PlanCompaction _ _ => Ok None
    | ModelMessages => Ok []
    | Transform l => Ok l
    | Convert l => Ok l
    | DispatchTools _ => empty_dispatched
    | FinishTurn _ _ => Ok None
    | ShouldStop _ _ => Ok false
    | TaskStart => task
    | TaskDone => Ok tt
    | WaitIdle _ => tt
    end.

Definition written (l : list write_append) : result failure (list string) := Ok (map (fun _ => "e"%string) l).
Definition willing : oracle request := host written known (Ok tt) (Ok tt).

Lemma host_good commits ids : (forall l, match commits l with Ok ids => length ids = length l | Err _ => True end) ->
  (forall ms, match ids ms with Ok l => Forall (fun m => exists id, chat_id m = Some id /\ id <> EmptyString /\ id ∈ l) ms | Err _ => True end) -> good allowed (host commits ids (Ok tt) (Ok tt)).
Proof. intros H1 H2 T r. destruct r as [| | | running | | | | | | | | | | | | | | | | | | | | | | | | | | | | | | | |]; simpl; try done; [apply H1|by destruct running|apply H2]. Defined.

Lemma known_ok ms : match known ms with Ok l => Forall (fun m => exists id, chat_id m = Some id /\ id <> EmptyString /\ id ∈ l) ms | Err _ => True end.
Proof.
  unfold known. destruct (forallb _ ms) eqn:E; [|done]. rewrite forallb_forall in E. apply Forall_forall. intros m Hm. specialize (E m (proj1 (list_elem_of_In _ _) Hm)).
  apply negb_true_iff, bool_decide_eq_false in E. destruct (chat_id m) as [id|] eqn:Eid; [|done]. exists id. split_and!; [done|done|]. apply list_elem_of_omap. by exists m.
Defined.

Lemma willing_good : good allowed willing.
Proof. apply host_good; [intros l; simpl; apply length_map|exact known_ok]. Defined.

Definition resumes (i n : nat) (answers : oracle request) : list happening := replicate n (Resume i answers).

(** A prompt, a message that is steered into the run, an application that waits for the agent. *)
Definition sample_day : list happening :=
  [Invoke (MPrompt (PromptText (JStr "hello"))) willing] ++ resumes 0 9 willing ++ [Invoke (MSteer (text_message "user" "also this")) willing; Invoke MWaitForIdle willing] ++ resumes 0 80 willing ++ [Resume 2 willing].

Definition sample_office (hs : list happening) : office := work_through sample_options 200 (MkOffice (new_agent [] false) []) hs.

Lemma sample_fair : Forall fair sample_day.
Proof. repeat constructor; exact willing_good. Defined.

Lemma runs_are_exclusive_and_given_back_witness :
  Forall fair sample_day /\ let f := sample_office sample_day in
  (map (fun c => finished (snd c)) (f_calls f) = [true; true; true] /\ map role (messages (a_session (f_agent f))) = [Some "user"%string; Some "user"%string; Some "assistant"%string]) /\
  under_way is_run f = Nat.b2n (runActive (a_life (f_agent f))) /\
  under_way is_compaction f = Nat.b2n (compacting (a_life (f_agent f))) /\
  (isIdle (a_life (f_agent f)) = true -> forall i, unfinished f i -> can_resume f i) /\
  (forall i m t, f_calls f !! i = Some (m, Throw (CommitFailure true t)) -> is_run m = true -> isFaulted (a_session (f_agent f)) = true) /\
  (isFaulted (a_session (f_agent f)) = true -> forall m answers, is_run m = true -> f_agent (proceed sample_options 200 f (Invoke m answers)) = f_agent f).
Proof.
  split; [exact sample_fair|]. cbv zeta. split; [split; by vm_compute|]. exact (runs_are_exclusive_and_given_back sample_options 200 [] false sample_day sample_fair).
Defined.

Lemma messages_are_durable_before_they_are_shown_witness :
  Forall fair (take 30 sample_day) /\ let s := f_agent (sample_office (take 30 sample_day)) in
  (length (messages (a_session s)) = 2 /\ runActive (a_life s) = true) /\ messages (a_session s) `sublist_of` replay (trace (a_session s)) /\
  (all_seen (trace (a_session s)) = true -> messages (a_session s) `prefix_of` replay (trace (a_session s))) /\
  (runActive (a_life s) = false -> all_seen (trace (a_session s)) = true -> messages (a_session s) = replay (trace (a_session s))).
Proof.
  assert (Hfair : Forall fair (take 30 sample_day)) by apply Forall_take, sample_fair. split; [exact Hfair|]. cbv zeta. split; [split; by vm_compute|].
  exact (messages_are_durable_before_they_are_shown sample_options 200 [] false (take 30 sample_day) eq_refl Hfair).
Defined.

(** * Where an agent falls short *)

(** The registry of tools cannot be merged when a run starts, as when an extension has taken a
    reserved name in the meantime.  [run] throws before its [try], and nobody catches: the call
    is through, and the agent is never given back. *)
Definition no_registry : oracle request := host written known (Err (Failure "Tool name 'tool_search' is reserved.")) (Ok tt).

Example a_throw_before_the_loop_strands_the_agent :
  let f := sample_office ([Invoke (MPrompt (PromptText (JStr "hello"))) willing] ++ resumes 0 30 no_registry ++ [Invoke MContinue willing; Invoke MWaitForIdle willing] ++ resumes 2 9 willing) in
  map (fun c => match snd c with Throw (Failure t) => Some t | _ => None end) (f_calls f) = [Some "Tool name 'tool_search' is reserved."%string; Some "Agent already has a run in progress."%string; None] /\
  map (fun c => finished (snd c)) (f_calls f) = [true; true; false] /\ runActive (a_life (f_agent f)) = true.
Proof. by vm_compute. Qed.

(** The task of a compaction throws before its first [await]: its [finally] runs before the
    promise is stored, which stays. *)
Definition task_throws : oracle request := host written known (Ok tt) (Err (Failure "task")).

Example a_throwing_task_strands_the_compaction :
  let f := sample_office [Invoke MRunCompaction task_throws; Invoke MWaitForIdle willing; Resume 1 willing; Invoke MReset willing] in
  map (fun c => finished (snd c)) (f_calls f) = [true; false; true] /\ compacting (a_life (f_agent f)) = true /\
  match f_calls f with [_; _; (_, Throw (Failure t))] => t = "A compaction is in progress."%string | _ => False end.
Proof. by vm_compute. Qed.

(** Two messages are steered into a run and the journal rejects the first: both have left the
    queue, and neither is in the conversation. *)
Definition rejects : oracle request := host (fun _ => Err (CommitFailure false "rejected")) known (Ok tt) (Ok tt).

Example a_rejected_message_takes_the_queue_along :
  let f := sample_office ([Invoke (MSteer (text_message "user" "first")) willing; Invoke (MSteer (text_message "user" "second")) willing;
                           Invoke (MPrompt (PromptText (JStr "hello"))) willing] ++ resumes 2 12 willing ++ resumes 2 30 rejects) in
  steeringQueue (a_queues (f_agent f)) = [] /\ length (messages (a_session (f_agent f))) = 1 /\ runActive (a_life (f_agent f)) = false /\ isFaulted (a_session (f_agent f)) = false.
Proof. by vm_compute. Qed.

(** An agent is opened with two messages that its conversation does not have, and the journal
    rejects the second.  The agent is sound, but a prompt commits the first one again. *)
Definition knows_none : oracle request := host written (fun _ => Ok []) (Ok tt) (Ok tt).

Definition opened_with_two (hs : list happening) : office :=
  work_through sample_options 200 (MkOffice (new_agent [text_message "user" "first"; text_message "user" "second"] false) []) hs.

Definition commits_of (m : fields) (t : list note) : nat :=
  length (List.filter (fun n => match n with Wrote [w] _ => match w_payload w with JObj fs => bool_decide (as_string (assoc_get fs "content") = as_string (assoc_get m "content")) | _ => false end | _ => false end) t).

Example a_failed_start_commits_messages_twice :
  let f := opened_with_two ([Invoke (MPrompt (PromptText (JStr "hello"))) knows_none] ++ resumes 0 6 knows_none ++ resumes 0 9 (host (fun _ => Err (CommitFailure false "rejected")) (fun _ => Ok []) (Ok tt) (Ok tt)) ++
                            [Invoke (MPrompt (PromptText (JStr "again"))) knows_none] ++ resumes 1 30 knows_none) in
  commits_of (text_message "user" "first") (trace (a_session (f_agent f))) = 2 /\ commits_of (text_message "user" "second") (trace (a_session (f_agent f))) = 1.
Proof. by vm_compute. Qed.
