(* ===== verification/Leases.v ===== *)
(** Writer leases with fencing tokens ([WriterLeaseManager] of storage/src/leases.ts).  The
    table [writer_leases] is a finite map from the lease identifier, its primary key, to the
    row.  Every method is one transaction, run at a reading of the clock; the processes that
    share the table are interleavings of such steps.

    Modelling choices: times and durations are integers (the check that a duration is finite
    is then the type); tokens are unbounded, with the bound under which they are safe integers
    proved. *)

From Stdlib Require Import Sorted.
From S2P Require Import Prelude.

Local Open Scope Z_scope.

(** * Data *)

Record lease_row : Type := MkLease {
  l_holder : string;
  l_acquiredAt : Z;
  l_expiresAt : Z;
  l_fencingToken : Z;
  l_metadata : option string
}.

Record grant : Type := MkGrant {
  g_leaseId : string;
  g_holderId : string;
  g_acquiredAt : Z;
  g_expiresAt : Z;
  g_fencingToken : Z;
  g_metadata : option string
}.

Abbreviation leases := (gmap string lease_row).

Inductive lease_error : Type := EmptyLeaseId | EmptyHolderId | BadTtl | BadFencingToken.

Definition MAX_SAFE : Z := 2 ^ 53 - 1.

Definition validateLeaseArguments (leaseId holderId : string) (ttlMs : Z) : result lease_error unit :=
  throw_if blank leaseId with EmptyLeaseId in
  throw_if blank holderId with EmptyHolderId in
  throw_if ttlMs <=? 0 with BadTtl in
  Ok tt.

Definition validateFencingToken (token : Z) : result lease_error unit :=
  throw_if (token <? 1) || (MAX_SAFE <? token) with BadFencingToken in Ok tt.

Definition validate_token (token : option Z) : result lease_error unit :=
  match token with Some token => validateFencingToken token | None => Ok tt end.

(** * Operations *)

Definition next_token (existing : option lease_row) : Z := Z.max 0 (default 0 (l_fencingToken <$> existing)) + 1.

Definition acquireLease (t : leases) (now : Z) (leaseId holderId : string) (ttlMs : Z) (metadata : option string)
  : result lease_error (leases * option grant) :=
  let* _ := validateLeaseArguments leaseId holderId ttlMs in
  let expiresAt := now + ttlMs in
  let existing := t !! leaseId in
  let taken := match existing with
               | Some r => (now <? l_expiresAt r) && negb (bool_decide (l_holder r = holderId))
               | None => false
               end in
  if taken then Ok (t, None)
  else
    let token := next_token existing in
    Ok (<[leaseId := MkLease holderId now expiresAt token metadata]> t,
        Some (MkGrant leaseId holderId now expiresAt token metadata)).

Definition acquire (t : leases) (now : Z) (leaseId holderId : string) (ttlMs : Z) (metadata : option string)
  : result lease_error (leases * bool) :=
  match acquireLease t now leaseId holderId ttlMs metadata with
  | Ok (t, g) => Ok (t, bool_decide (is_Some g))
  | Err e => Err e
  end.

(** The row a conditional [UPDATE] of one lease matches. *)
Definition matching (t : leases) (leaseId holderId : string) (token : option Z) : option lease_row :=
  match t !! leaseId with
  | Some r =>
      if bool_decide (l_holder r = holderId) && match token with Some k => l_fencingToken r =? k | None => true end
      then Some r else None
  | None => None
  end.

Definition renew (t : leases) (now : Z) (leaseId holderId : string) (ttlMs : Z) (token : option Z)
  : result lease_error (leases * bool) :=
  let* _ := validateLeaseArguments leaseId holderId ttlMs in
  let* _ := validate_token token in
  match matching t leaseId holderId token with
  | Some r =>
      if now <? l_expiresAt r
      then Ok (<[leaseId := MkLease (l_holder r) (l_acquiredAt r) (now + ttlMs) (l_fencingToken r) (l_metadata r)]> t, true)
      else Ok (t, false)
  | None => Ok (t, false)
  end.

Definition release (t : leases) (now : Z) (leaseId holderId : string) (token : option Z)
  : result lease_error (leases * bool) :=
  let* _ := validateLeaseArguments leaseId holderId 1 in
  let* _ := validate_token token in
  match matching t leaseId holderId token with
  | Some r => Ok (<[leaseId := MkLease (l_holder r) (l_acquiredAt r) (now - 1) (l_fencingToken r) None]> t, true)
  | None => Ok (t, false)
  end.

Definition getLease (t : leases) (leaseId : string) : option lease_row := t !! leaseId.

Definition isLeaseActive (t : leases) (now : Z) (leaseId holderId : string) (token : Z) : result lease_error bool :=
  let* _ := validateFencingToken token in
  Ok (match getLease t leaseId with
      | Some r => bool_decide (l_holder r = holderId) && (l_fencingToken r =? token) && (now <? l_expiresAt r)
      | None => false
      end).

Definition isLockedByOther (t : leases) (now : Z) (leaseId holderId : string) : bool :=
  match getLease t leaseId with
  | Some r => (now <? l_expiresAt r) && negb (bool_decide (l_holder r = holderId))
  | None => false
  end.

(** * Histories *)

Inductive lease_call : Type :=
| CAcquire (leaseId holderId : string) (ttlMs : Z) (metadata : option string)
| CRenew (leaseId holderId : string) (ttlMs : Z) (token : option Z)
| CRelease (leaseId holderId : string) (token : option Z).

(** One call: the table after it (a throw changes nothing) and the grant it made. *)
Definition lease_step (t : leases) (now : Z) (c : lease_call) : leases * option grant :=
  match c with
  | CAcquire id h ttl m => match acquireLease t now id h ttl m with Ok (t, g) => (t, g) | Err _ => (t, None) end
  | CRenew id h ttl k => match renew t now id h ttl k with Ok (t, _) => (t, None) | Err _ => (t, None) end
  | CRelease id h k => match release t now id h k with Ok (t, _) => (t, None) | Err _ => (t, None) end
  end.

(** A history of calls, each at its clock reading: the final table and the grants in order. *)
Fixpoint lease_run (t : leases) (calls : list (Z * lease_call)) : leases * list grant :=
  match calls with
  | [] => (t, [])
  | (now, c) :: calls =>
      let '(t, g) := lease_step t now c in
      let '(t, gs) := lease_run t calls in
      (t, option_list g ++ gs)
  end.

(** * Tokens *)

Definition token_of (t : leases) (id : string) : Z := Z.max 0 (default 0 (l_fencingToken <$> t !! id)).

Definition grants_of (id : string) (gs : list grant) : list grant :=
  List.filter (fun g => bool_decide (g_leaseId g = id)) gs.

(** What a call does to the row of a lease. *)
Lemma lease_step_row t now c id :
  let '(t', g) := lease_step t now c in
  match g with
  | Some g =>
      (g_leaseId g = id -> g_fencingToken g = token_of t id + 1 /\
         t' !! id = Some (MkLease (g_holderId g) now (g_expiresAt g) (g_fencingToken g) (g_metadata g))) /\
      (g_leaseId g <> id -> t' !! id = t !! id)
  | None =>
      match t !! id, t' !! id with
      | Some r, Some r' => l_fencingToken r' = l_fencingToken r /\ l_holder r' = l_holder r
      | None, None => True
      | _, _ => False
      end
  end.
Proof.
  assert (Hsame : match t !! id, t !! id with
    | Some r, Some r' => l_fencingToken r' = l_fencingToken r /\ l_holder r' = l_holder r
    | None, None => True | _, _ => False end) by (by destruct (t !! id)).
  assert (Hupd : forall i h k r f, matching t i h k = Some r ->
    (l_fencingToken (f r) = l_fencingToken r) -> (l_holder (f r) = l_holder r) ->
    match t !! id, <[i := f r]> t !! id with
    | Some r, Some r' => l_fencingToken r' = l_fencingToken r /\ l_holder r' = l_holder r
    | None, None => True | _, _ => False end).
  { intros i h k r f Hm Hk Hh. unfold matching in Hm. destruct (t !! i) as [r0|] eqn:E; [|done].
    destruct (_ && _); [|done]. injection Hm as ->. destruct (decide (i = id)) as [->|Hne].
    - by rewrite E, lookup_insert_eq.
    - by rewrite lookup_insert_ne by done. }
  destruct c as [i h ttl m|i h ttl k|i h k]; simpl.
  - unfold acquireLease. destruct (validateLeaseArguments _ _ _); simpl; [|exact Hsame].
    destruct (match t !! i with Some _ => _ | None => _ end); [exact Hsame|]. simpl. split.
    + intros ->. rewrite lookup_insert_eq. done.
    + intros Hne. by rewrite lookup_insert_ne.
  - unfold renew. destruct (validateLeaseArguments _ _ _); simpl; [|exact Hsame].
    destruct (validate_token k); simpl; [|exact Hsame]. destruct (matching t i h k) as [r|] eqn:E; [|exact Hsame].
    destruct (now <? l_expiresAt r); [|exact Hsame].
    by apply (Hupd i h k r (fun r => MkLease (l_holder r) (l_acquiredAt r) (now + ttl) (l_fencingToken r) (l_metadata r))).
  - unfold release. destruct (validateLeaseArguments _ _ _); simpl; [|exact Hsame].
    destruct (validate_token k); simpl; [|exact Hsame]. destruct (matching t i h k) as [r|] eqn:E; [|exact Hsame].
    by apply (Hupd i h k r (fun r => MkLease (l_holder r) (l_acquiredAt r) (now - 1) (l_fencingToken r) None)).
Qed.

Lemma lease_step_token t now c id :
  let '(t', g) := lease_step t now c in
  match g with
  | Some g => if bool_decide (g_leaseId g = id) then g_fencingToken g = token_of t id + 1 /\ token_of t' id = token_of t id + 1
              else token_of t' id = token_of t id
  | None => token_of t' id = token_of t id
  end.
Proof.
  pose proof (lease_step_row t now c id) as H. destruct (lease_step t now c) as [t' [g|]]; unfold token_of in *.
  - destruct H as [H1 H2]. case_bool_decide as E.
    + destruct (H1 E) as [-> ->]. split; [done|]. simpl. destruct (t !! id); simpl; lia.
    + by rewrite H2.
  - destruct (t !! id), (t' !! id); try done. simpl. by destruct H as [-> _].
Qed.

Lemma lease_run_tokens calls t id :
  let '(t', gs) := lease_run t calls in
  token_of t' id = token_of t id + Z.of_nat (length (grants_of id gs)) /\
  g_fencingToken <$> grants_of id gs = (fun i => token_of t id + 1 + Z.of_nat i) <$> seq 0 (length (grants_of id gs)).
Proof.
  revert t. induction calls as [|[now c] calls IH]; intros t; simpl; [split; [lia|done]|].
  pose proof (lease_step_token t now c id) as Hs. destruct (lease_step t now c) as [t1 g].
  specialize (IH t1). destruct (lease_run t1 calls) as [t2 gs]. destruct IH as [H1 H2].
  unfold grants_of. rewrite List.filter_app. fold (grants_of id gs). destruct g as [g|]; simpl.
  2: { by rewrite <- Hs. }
  case_bool_decide as E; simpl; [|by rewrite <- Hs].
  destruct Hs as [Hk Ht]. split; [lia|]. rewrite Hk. f_equal; [lia|].
  etransitivity; [exact H2|]. rewrite <- fmap_S_seq. rewrite <- list_fmap_compose. apply list_fmap_ext. intros i x _. simpl. lia.
Qed.

(** Fencing tokens are never reused and stay exact.  Whatever calls are made on the
    table and in whatever order, the tokens granted for a lease are consecutive integers that
    start after the last one ever granted; so as long as fewer than [2^53 - 1] grants were
    made they are all safe integers that the checks accept. *)
Theorem fencing_tokens_are_consecutive t calls id :
  let '(t', gs) := lease_run t calls in
  let tokens := g_fencingToken <$> grants_of id gs in
  tokens = (fun i => token_of t id + 1 + Z.of_nat i) <$> seq 0 (length tokens) /\
  token_of t' id = token_of t id + Z.of_nat (length tokens) /\
  (token_of t id + Z.of_nat (length tokens) <= MAX_SAFE ->
   forall k, k ∈ tokens -> validateFencingToken k = Ok tt).
Proof.
  pose proof (lease_run_tokens calls t id) as H. destruct (lease_run t calls) as [t' gs]. cbv zeta.
  rewrite length_fmap. destruct H as [H1 H2]. split; [done|]. split; [done|].
  intros Hmax k Hk. setoid_rewrite H2 in Hk. apply list_elem_of_fmap_1 in Hk as (i & -> & Hi). apply elem_of_seq in Hi.
  unfold validateFencingToken. assert (0 <= token_of t id) by (unfold token_of; lia).
  destruct (_ || _) eqn:E; [|done]. apply orb_true_iff in E as [E|E]; bools; lia.
Qed.

(** * Fencing *)

(** A token that is not the one of the row acts on nothing. *)
Lemma other_token_is_dead t now id h k :
  token_of t id <> k -> 0 < k ->
  isLeaseActive t now id h k <> Ok true /\
  (forall ttl r, renew t now id h ttl (Some k) = Ok r -> r = (t, false)) /\
  (forall r, release t now id h (Some k) = Ok r -> r = (t, false)).
Proof.
  intros Hk Hpos.
  assert (Hm : matching t id h (Some k) = None).
  { unfold matching, token_of in *. destruct (t !! id) as [r|]; [|done]. simpl in Hk.
    destruct (bool_decide _); [|done]. simpl. destruct (l_fencingToken r =? k) eqn:E; [|done]. bools. lia. }
  split; [|split].
  - unfold isLeaseActive, getLease. destruct (validateFencingToken k); simpl; [|done].
    unfold token_of in Hk. destruct (t !! id) as [r|]; [|done]. simpl in Hk.
    destruct (l_fencingToken r =? k) eqn:E; [bools; lia|]. by rewrite andb_false_r.
  - intros ttl r. unfold renew. destruct (validateLeaseArguments _ _ _), (validate_token _); simpl; try done.
    rewrite Hm. congruence.
  - intros r. unfold release. destruct (validateLeaseArguments _ _ _), (validate_token _); simpl; try done.
    rewrite Hm. congruence.
Qed.

Lemma lease_run_grant t calls g :
  g ∈ snd (lease_run t calls) ->
  token_of t (g_leaseId g) < g_fencingToken g <= token_of (fst (lease_run t calls)) (g_leaseId g).
Proof.
  intros Hg. pose proof (lease_run_tokens calls t (g_leaseId g)) as H. destruct (lease_run t calls) as [t' gs].
  cbn [fst snd] in *. destruct H as [H1 H2].
  assert (Hin : g_fencingToken g ∈ g_fencingToken <$> grants_of (g_leaseId g) gs).
  { apply list_elem_of_fmap_2, list_elem_of_In, List.filter_In. split; [by apply list_elem_of_In|].
    by apply bool_decide_eq_true. }
  rewrite H2 in Hin. apply list_elem_of_fmap_1 in Hin as (i & -> & Hi). apply elem_of_seq in Hi. lia.
Qed.

(** A stale writer is fenced off.  Once a lease has been granted again, to anyone, the
    holder of an earlier grant can no longer act on it: at any later time and after any calls
    its token is not active, does not renew and does not release, and the table is left as it
    is. *)
Theorem stale_writer_is_fenced t calls1 calls2 now g g' :
  let t1 := fst (lease_run t calls1) in
  let t2 := fst (lease_run t1 calls2) in
  g ∈ snd (lease_run t calls1) -> g' ∈ snd (lease_run t1 calls2) -> g_leaseId g' = g_leaseId g ->
  isLeaseActive t2 now (g_leaseId g) (g_holderId g) (g_fencingToken g) <> Ok true /\
  (forall ttl r, renew t2 now (g_leaseId g) (g_holderId g) ttl (Some (g_fencingToken g)) = Ok r -> r = (t2, false)) /\
  (forall r, release t2 now (g_leaseId g) (g_holderId g) (Some (g_fencingToken g)) = Ok r -> r = (t2, false)).
Proof.
  intros t1 t2 Hg Hg' Hid. apply lease_run_grant in Hg, Hg'. rewrite Hid in Hg'. fold t1 in Hg. fold t1 t2 in Hg'.
  assert (0 <= token_of t (g_leaseId g)) by (unfold token_of; lia).
  apply other_token_is_dead; lia.
Qed.

Lemma stale_writer_is_fenced_witness :
  let g := MkGrant "lease_d" "a" 0 10 1 None in
  let g' := MkGrant "lease_d" "b" 20 30 2 None in
  let t := fst (lease_run (fst (lease_run ∅ [(0, CAcquire "lease_d" "a" 10 None)])) [(20, CAcquire "lease_d" "b" 10 None)]) in
  isLeaseActive t 21 "lease_d" "a" 1 <> Ok true /\ isLeaseActive t 21 "lease_d" "b" 2 = Ok true.
Proof.
  intros g g' t. split; [|by vm_compute].
  pose proof (stale_writer_is_fenced ∅ [(0, CAcquire "lease_d" "a" 10 None)] [(20, CAcquire "lease_d" "b" 10 None)] 21 g g') as H.
  apply H; [by left..|done].
Defined.

(** * Exclusion *)

(** A call that, made on lease [id], is made by someone other than [h]. *)
Definition by_others (id h : string) (c : lease_call) : bool :=
  match c with
  | CAcquire i h' _ _ | CRenew i h' _ _ | CRelease i h' _ => negb (bool_decide (i = id)) || negb (bool_decide (h' = h))
  end.

Lemma by_others_step t now c id r :
  t !! id = Some r -> now < l_expiresAt r -> by_others id (l_holder r) c = true ->
  fst (lease_step t now c) !! id = Some r /\
  (forall g, snd (lease_step t now c) = Some g -> g_leaseId g <> id).
Proof.
  intros Hr Hnow Hc.
  assert (Hm : forall i h k r', matching t i h k = Some r' ->
    negb (bool_decide (i = id)) || negb (bool_decide (h = l_holder r)) = true -> i <> id).
  { intros i h k r' Hm Ho ->. unfold matching in Hm. rewrite Hr in Hm. destruct (bool_decide (l_holder r = h)) eqn:E; [|done].
    apply bool_decide_eq_true in E. subst h. by rewrite !bool_decide_true in Ho. }
  destruct c as [i h ttl m|i h ttl k|i h k]; simpl in *.
  - unfold acquireLease. destruct (validateLeaseArguments _ _ _); simpl; [|by split].
    destruct (decide (i = id)) as [->|Hne].
    + rewrite bool_decide_true in Hc by done. simpl in Hc. apply negb_true_iff, bool_decide_eq_false in Hc.
      rewrite Hr, bool_decide_false by congruence. rewrite (proj2 (Z.ltb_lt _ _) Hnow). by split.
    + destruct (match t !! i with Some _ => _ | None => _ end); [by split|]. simpl. split.
      * by rewrite lookup_insert_ne.
      * intros g [= <-]. done.
  - unfold renew. destruct (validateLeaseArguments _ _ _); simpl; [|by split].
    destruct (validate_token k); simpl; [|by split]. destruct (matching t i h k) as [r'|] eqn:E; [|by split].
    destruct (now <? l_expiresAt r'); [|by split]. split; [|done]. apply Hm in E; [|done]. simpl. by rewrite lookup_insert_ne.
  - unfold release. destruct (validateLeaseArguments _ _ _); simpl; [|by split].
    destruct (validate_token k); simpl; [|by split]. destruct (matching t i h k) as [r'|] eqn:E; [|by split].
    split; [|done]. apply Hm in E; [|done]. simpl. by rewrite lookup_insert_ne.
Qed.

(** A lease excludes every other writer until it expires.  While the clock is before the
    expiry of a lease, nothing that other holders call (acquire, renew with any token or none,
    release with any token or none, on this or on other leases) changes its row, and none of
    their calls is granted it; the holder's token stays active. *)
Theorem lease_is_exclusive t calls id r :
  t !! id = Some r -> validateFencingToken (l_fencingToken r) = Ok tt ->
  Forall (fun '(now, c) => now < l_expiresAt r /\ by_others id (l_holder r) c = true) calls ->
  let '(t', gs) := lease_run t calls in
  t' !! id = Some r /\ grants_of id gs = [] /\
  (forall now, now < l_expiresAt r -> isLeaseActive t' now id (l_holder r) (l_fencingToken r) = Ok true).
Proof.
  intros Hr Hk Hcalls. revert t Hr. induction Hcalls as [|[now c] calls [Hnow Hc] _ IH]; intros t Hr; simpl.
  - split; [done|]. split; [done|]. intros now Hnow. unfold isLeaseActive, getLease. rewrite Hk, Hr. simpl.
    by rewrite bool_decide_true, Z.eqb_refl, (proj2 (Z.ltb_lt _ _) Hnow).
  - destruct (by_others_step t now c id r Hr Hnow Hc) as [H1 H2]. destruct (lease_step t now c) as [t1 g].
    specialize (IH t1 H1). destruct (lease_run t1 calls) as [t2 gs]. destruct IH as (HA & HB & HC).
    split; [done|]. split; [|done]. unfold grants_of. rewrite List.filter_app. fold (grants_of id gs). rewrite HB, app_nil_r.
    destruct g as [g|]; [|done]. simpl. by rewrite bool_decide_false by (by apply H2).
Qed.

Lemma lease_is_exclusive_witness :
  let t := fst (lease_run ∅ [(0, CAcquire "lease_d" "a" 10 None)]) in
  grants_of "lease_d" (snd (lease_run t [(5, CAcquire "lease_d" "b" 10 None); (9, CRelease "lease_d" "b" None)])) = [].
Proof.
  intros t.
  pose proof (lease_is_exclusive t [(5, CAcquire "lease_d" "b" 10 None); (9, CRelease "lease_d" "b" None)] "lease_d"
    (MkLease "a" 0 10 1 None) eq_refl eq_refl) as H.
  assert (Hc : Forall (fun '(now, c) => now < l_expiresAt (MkLease "a" 0 10 1 None) /\ by_others "lease_d" "a" c = true)
    [(5, CAcquire "lease_d" "b" 10 None); (9, CRelease "lease_d" "b" None)]).
  { repeat constructor. }
  specialize (H Hc). destruct (lease_run t _) as [t' gs]. apply H.
Defined.
