(* ===== verification/MutationQueue.v ===== *)
(** The serial queue of document mutations ([DocumentMutationQueue] of
    storage/src/mutation-queue.ts).  Each document has a queue of tasks; one asynchronous call
    of [processQueue] per document takes the tasks in order, acquires the document's writer
    lease for each, runs its body and settles its promise.

    The queue is a client of the lease manager: it is modelled over the class [LeaseService],
    whose laws [LeaseLaws] are all its theorems use; [Leases] discharges them below.

    What other processes do with the same leases is a relation, and the class names the history
    of the grants of a lease, which is no state of the code: with it the laws can say that the
    queue is told of a loss.

    Modelling choices: the suspended call of [processQueue] is a frame, waiting for the body of
    a task or returning from [executeWithLease]; what the outside does (a body settles, the
    heartbeat timer fires, another process uses the lease table) is an event.  The log records
    what happens to the promises; it is not state of the code. *)

From Stdlib Require Import Sorted.
From S2P Require Import Prelude Leases.

Local Open Scope Z_scope.

(** * What the queue needs of a lease manager *)

Class LeaseService (S E : Type) : Type := {
  ls_acquireLease : S -> string -> string -> Z -> option string -> S * result E (option grant);
  ls_renew : S -> string -> string -> Z -> Z -> S * result E bool;
  ls_release : S -> string -> string -> Z -> S * result E bool;
  ls_isLeaseActive : S -> string -> string -> Z -> S * result E bool;
  ls_isLockedByOther : S -> string -> string -> S * result E bool;
  (** what other users of the same leases may do between two calls *)
  ls_env : S -> S -> Prop;
  (** the states the leases can be in *)
  ls_ok : S -> Prop;
  (** every grant of a lease so far, whoever got it, the last one first *)
  ls_grants : S -> string -> list grant
}.

(** What happens between two states only adds grants. *)
Definition ls_le {S E : Type} `{LeaseService S E} (s s' : S) : Prop :=
  (ls_ok s -> ls_ok s') /\ forall id, ls_grants s id `suffix_of` ls_grants s' id.

Definition newer (g g' : grant) : Prop := g_fencingToken g' < g_fencingToken g.

Class LeaseLaws (S E : Type) `{LeaseService S E} : Prop := {
  acquire_le s id h ttl m : ls_le s (fst (ls_acquireLease s id h ttl m));
  renew_le s id h ttl k : ls_le s (fst (ls_renew s id h ttl k));
  release_le s id h k : ls_le s (fst (ls_release s id h k));
  active_le s id h k : ls_le s (fst (ls_isLeaseActive s id h k));
  locked_le s id h : ls_le s (fst (ls_isLockedByOther s id h));
  env_le s s' : ls_env s s' -> ls_le s s';
  (** a grant has a greater token than all before it *)
  grants_newer s id : ls_ok s -> StronglySorted newer (ls_grants s id);
  acquire_grants s id h ttl m s' g : ls_ok s ->
    ls_acquireLease s id h ttl m = (s', Ok (Some g)) -> g_leaseId g = id /\ ls_grants s' id = g :: ls_grants s id;
  (** only the last grant can be active *)
  active_last s id h k s' : ls_ok s -> ls_isLeaseActive s id h k = (s', Ok true) ->
    exists g gs, ls_grants s id = g :: gs /\ g_fencingToken g = k
}.

(** A manager whose calls on valid arguments do not throw. *)
Class LeaseTotal (S E : Type) `{LeaseService S E} : Prop := {
  acquire_total s id h ttl m :
    blank id = false -> blank h = false -> 0 < ttl -> is_ok (snd (ls_acquireLease s id h ttl m)) = true;
  locked_total s id h : is_ok (snd (ls_isLockedByOther s id h)) = true
}.

(** * Data *)

Record task : Type := MkTask { t_id : string; t_documentId : string; t_holderId : string }.

#[export] Instance task_eq_dec : EqDecision task.
Proof. solve_decision. Defined.

Inductive mutation_error : Type := EmptyDocument | EmptyHolder.

Section Queue.
Context {S E V X : Type} `{LeaseService S E}.
Variable ttlMs : Z.

(** Why a task's promise is rejected. *)
Inductive reason : Type :=
| LockedByOther
| NotAcquired
| LeaseLost (token : Z)
| ServiceFailed (e : E)
| BodyThrew (x : X).

Inductive frame : Type :=
| Executing (t : task) (g : grant) (leaseLost : bool)
| Returning.

Inductive mq_log : Type :=
| MEnqueued (t : task)
| MBegun (t : task) (g : grant)
| MSettled (t : task) (r : result reason V)
| MDropped (t : task).

Record mq : Type := MkMq {
  queues : gmap string (list task);
  activeProcessing : gset string;
  frames : gmap string frame;
  service : S;
  mlog : list mq_log
}.

Definition new_queue (s : S) : mq := MkMq ∅ ∅ ∅ s [].

(** * Operations *)

Definition lease_id (documentId : string) : string := "lease_" +:+ documentId.

Definition assertActive (s : S) (leaseLost : bool) (g : grant) : S * (bool * result reason unit) :=
  if leaseLost then (s, (true, Err (LeaseLost (g_fencingToken g))))
  else
    match ls_isLeaseActive s (g_leaseId g) (g_holderId g) (g_fencingToken g) with
    | (s, Ok true) => (s, (false, Ok tt))
    | (s, Ok false) => (s, (true, Err (LeaseLost (g_fencingToken g))))
    | (s, Err e) => (s, (false, Err (ServiceFailed e)))
    end.

Definition release_grant (s : S) (g : grant) : S :=
  fst (ls_release s (g_leaseId g) (g_holderId g) (g_fencingToken g)).

(** [executeWithLease] up to the call of the body. *)
Definition executeWithLease_start (s : S) (t : task) (g : grant) : S * list mq_log * frame :=
  match assertActive s false g with
  | (s, (leaseLost, Ok _)) => (s, [MBegun t g], Executing t g leaseLost)
  | (s, (_, Err r)) => (release_grant s g, [MSettled t (Err r)], Returning)
  end.

(** [executeWithLease] once the body has settled. *)
Definition executeWithLease_finish (s : S) (t : task) (g : grant) (leaseLost : bool) (body : result X V)
  : S * list mq_log :=
  match body with
  | Ok v =>
      match assertActive s leaseLost g with
      | (s, (_, Ok _)) => (release_grant s g, [MSettled t (Ok v)])
      | (s, (_, Err r)) => (release_grant s g, [MSettled t (Err r)])
      end
  | Err x => (release_grant s g, [MSettled t (Err (BodyThrew x))])
  end.

(** The loop of [processQueue] up to the next suspension or the end of the queue.  A lease
    manager that throws leaves the loop with the shifted task neither resolved nor rejected;
    the [finally] block then starts over on what is left of the queue. *)
Fixpoint processQueue_loop (s : S) (queue : list task) : S * list mq_log * list task * option frame :=
  match queue with
  | [] => (s, [], [], None)
  | t :: queue =>
      let id := lease_id (t_documentId t) in
      match ls_acquireLease s id (t_holderId t) ttlMs (Some ("mutation:" +:+ t_id t)) with
      | (s, Ok (Some g)) =>
          let '(s, l, f) := executeWithLease_start s t g in (s, l, queue, Some f)
      | (s, Ok None) =>
          let '(s, r) := ls_isLockedByOther s id (t_holderId t) in
          let l := match r with
                   | Ok true => [MSettled t (Err LockedByOther)]
                   | Ok false => [MSettled t (Err NotAcquired)]
                   | Err _ => [MDropped t]
                   end in
          let '(s, l', rest, f) := processQueue_loop s queue in (s, l ++ l', rest, f)
      | (s, Err _) =>
          let '(s, l', rest, f) := processQueue_loop s queue in (s, MDropped t :: l', rest, f)
      end
  end.

(** Run the loop on the queue of a document; it suspends on a frame, or its [finally] block
    ends the processing. *)
Definition continue_queue (m : mq) (documentId : string) (queue : list task) : mq :=
  let '(s, l, rest, f) := processQueue_loop (service m) queue in
  match f with
  | Some f => MkMq (<[documentId := rest]> (queues m)) ({[documentId]} ∪ activeProcessing m)
                   (<[documentId := f]> (frames m)) s (mlog m ++ l)
  | None => MkMq (delete documentId (queues m)) (activeProcessing m ∖ {[documentId]})
                 (delete documentId (frames m)) s (mlog m ++ l)
  end.

Definition processQueue (m : mq) (documentId : string) : mq :=
  if bool_decide (documentId ∈ activeProcessing m) then m
  else
    match queues m !! documentId with
    | None | Some [] => MkMq (delete documentId (queues m)) (activeProcessing m) (frames m) (service m) (mlog m)
    | Some queue => continue_queue m documentId queue
    end.

Definition enqueue (m : mq) (id documentId holderId : string) : result mutation_error mq :=
  throw_if blank documentId with EmptyDocument in
  throw_if blank holderId with EmptyHolder in
  let t := MkTask id documentId holderId in
  let queue := default [] (queues m !! documentId) in
  Ok (processQueue (MkMq (<[documentId := queue ++ [t]]> (queues m)) (activeProcessing m) (frames m) (service m)
                         (mlog m ++ [MEnqueued t])) documentId).

Definition isDocumentBusy (m : mq) (documentId : string) : bool :=
  bool_decide (documentId ∈ activeProcessing m) || (0 <? zlen (default [] (queues m !! documentId))).

Definition getPendingCount (m : mq) (documentId : option string) : Z :=
  match truthy documentId with
  | Some d => zlen (default [] (queues m !! d))
  | None => foldr (fun kq n => zlen (snd kq) + n) 0 (map_to_list (queues m))
  end.

(** One firing of the heartbeat timer; a throw of [renew] escapes from the timer. *)
Definition heartbeat (m : mq) (documentId : string) : mq :=
  match frames m !! documentId with
  | Some (Executing t g leaseLost) =>
      let '(s, r) := ls_renew (service m) (g_leaseId g) (g_holderId g) ttlMs (g_fencingToken g) in
      let lost := match r with Ok false => true | _ => leaseLost end in
      MkMq (queues m) (activeProcessing m) (<[documentId := Executing t g lost]> (frames m)) s (mlog m)
  | _ => m
  end.

(** * Events *)

Inductive mq_event : Type :=
| QEnqueue (id documentId holderId : string)
| QHeartbeat (documentId : string)
| QAssert (documentId : string)
| QSettle (documentId : string) (body : result X V)
| QResume (documentId : string).

Definition mq_step (m : mq) (e : mq_event) : mq :=
  match e with
  | QEnqueue id d h => match enqueue m id d h with Ok m => m | Err _ => m end
  | QHeartbeat d => heartbeat m d
  | QAssert d =>
      match frames m !! d with
      | Some (Executing t g leaseLost) =>
          let '(s, (lost, _)) := assertActive (service m) leaseLost g in
          MkMq (queues m) (activeProcessing m) (<[d := Executing t g lost]> (frames m)) s (mlog m)
      | _ => m
      end
  | QSettle d body =>
      match frames m !! d with
      | Some (Executing t g leaseLost) =>
          let '(s, l) := executeWithLease_finish (service m) t g leaseLost body in
          MkMq (queues m) (activeProcessing m) (<[d := Returning]> (frames m)) s (mlog m ++ l)
      | _ => m
      end
  | QResume d =>
      match frames m !! d with
      | Some Returning => continue_queue m d (default [] (queues m !! d))
      | _ => m
      end
  end.

(** Everything that can happen: events of this process, and other users of the leases. *)
Inductive mq_reach : mq -> Prop :=
| reach_new s : ls_ok s -> mq_reach (new_queue s)
| reach_step m e : mq_reach m -> mq_reach (mq_step m e)
| reach_env m s : mq_reach m -> ls_env (service m) s ->
    mq_reach (MkMq (queues m) (activeProcessing m) (frames m) s (mlog m)).
End Queue.

Arguments reason : clear implicits.
Arguments mq_log : clear implicits.
Arguments mq : clear implicits.
Arguments mq_event : clear implicits.
Arguments mq_reach {S E V X _}.
