(* ===== verification/MutationQueueProofs.v ===== *)
(** What [MutationQueue] promises: the mutations of a document run one at a time, in the order
    they were enqueued, every promise is settled once unless the lease manager threw, and a
    result is delivered only if nobody was granted the document since the grant it runs under.  The lemmas are about any lease manager; the last part discharges the
    interface with [Leases]. *)

From Stdlib Require Import Sorted.
From S2P Require Import Prelude Leases MutationQueue.

Local Open Scope Z_scope.

(** * Reading a log *)

Section Logs.
Context {E V X : Type}.
Implicit Types (d : string) (l : list (mq_log E V X)) (t : task).

Definition of_doc d t : option task := if bool_decide (t_documentId t = d) then Some t else None.

Definition enqueued d l : list task := omap (fun e => match e with MEnqueued t => of_doc d t | _ => None end) l.

Definition settled d l : list task := omap (fun e => match e with MSettled t _ => of_doc d t | _ => None end) l.

(** Settled, or left behind when the lease manager threw. *)
Definition departed d l : list task := omap (fun e => match e with MSettled t _ | MDropped t => of_doc d t | _ => None end) l.

(** Whose body is running: a body begins only when none runs, and only the running task or,
    when none runs, a refused one is settled. *)
Definition replay_step d (st : option (option task)) (e : mq_log E V X) : option (option task) :=
  match e, st with
  | MBegun t _, Some None => match of_doc d t with Some t => Some (Some t) | None => st end
  | MBegun t _, _ => match of_doc d t with Some t => None | None => st end
  | MSettled t _, Some (Some t') =>
      match of_doc d t with Some t => if bool_decide (t = t') then Some None else None | None => st end
  | _, _ => st
  end.

Definition replay d (st : option (option task)) l : option (option task) := foldl (replay_step d) st l.

Lemma of_doc_eq d t : t_documentId t = d -> of_doc d t = Some t.
Proof. intros. unfold of_doc. by rewrite bool_decide_true. Qed.

Lemma of_doc_ne d t : t_documentId t <> d -> of_doc d t = None.
Proof. intros. unfold of_doc. by rewrite bool_decide_false. Qed.

(** A piece of log about document [d]: [ts] depart, in order, and takes the running task
    from [r] to [r']. *)
Record segment d l (ts : list task) (r r' : option task) : Prop := {
  seg_enq d' : enqueued d' l = [];
  seg_departed : departed d l = ts;
  seg_replay : replay d (Some r) l = Some r';
  seg_other d' : d' <> d -> departed d' l = [] /\ forall st, replay d' st l = st
}.

Lemma segment_nil d r : segment d [] [] r r.
Proof. by split. Qed.

Lemma segment_app d l1 l2 ts1 ts2 r1 r2 r3 :
  segment d l1 ts1 r1 r2 -> segment d l2 ts2 r2 r3 -> segment d (l1 ++ l2) (ts1 ++ ts2) r1 r3.
Proof.
  intros [E1 S1 R1 O1] [E2 S2 R2 O2]. split.
  - intros d'. unfold enqueued in *. rewrite omap_app. by rewrite E1, E2.
  - unfold departed in *. rewrite omap_app. by rewrite S1, S2.
  - unfold replay in *. rewrite foldl_app. by rewrite R1, R2.
  - intros d' Hd. destruct (O1 d' Hd) as [A1 B1], (O2 d' Hd) as [A2 B2]. split.
    + unfold departed in *. rewrite omap_app. by rewrite A1, A2.
    + intros st. unfold replay in *. rewrite foldl_app. by rewrite B1, B2.
Qed.

Lemma segment_begin d t g : t_documentId t = d -> segment d [MBegun t g] [] None (Some t).
Proof.
  intros Hd. split; [done|done|..].
  - unfold replay. simpl. by rewrite of_doc_eq.
  - intros d' Hne. split; [done|]. intros [[t'|]|]; unfold replay; simpl; rewrite of_doc_ne by congruence; done.
Qed.

Lemma segment_settle d t r o : t_documentId t = d -> o = None \/ o = Some t -> segment d [MSettled t r] [t] o None.
Proof.
  intros Hd Ho. split.
  - done.
  - unfold departed. simpl. by rewrite of_doc_eq.
  - unfold replay. destruct Ho as [->| ->]; simpl; [done|]. rewrite of_doc_eq by done. by rewrite bool_decide_true.
  - intros d' Hne. split.
    + unfold departed. simpl. by rewrite of_doc_ne by congruence.
    + intros [[t'|]|]; unfold replay; simpl; [|done..]. by rewrite of_doc_ne by congruence.
Qed.
Lemma segment_drop d t : t_documentId t = d -> segment d [MDropped t] [t] None None.
Proof.
  intros Hd. split; [done| |done|].
  - unfold departed. simpl. by rewrite of_doc_eq.
  - intros d' Hne. split; [unfold departed; simpl; by rewrite of_doc_ne by congruence|]. by intros [[t'|]|].
Qed.
End Logs.

(** * The invariant *)

Section Invariant.
Context {S E V X : Type} `{Hsvc : LeaseService S E} `{!LeaseLaws S E}.
Variable ttlMs : Z.
Implicit Types (m : mq S E V X) (s : S) (t : task) (d : string).

Lemma ls_le_refl s : ls_le s s.
Proof. by split. Qed.

Lemma ls_le_trans s1 s2 s3 : ls_le s1 s2 -> ls_le s2 s3 -> ls_le s1 s3.
Proof. intros [A1 B1] [A2 B2]. split; [auto|]. intros id. transitivity (ls_grants s2 id); [apply B1|apply B2]. Qed.

Definition frame_task (f : option frame) : option task :=
  match f with Some (Executing t _ _) => Some t | _ => None end.

Definition task_ok d t : Prop := t_documentId t = d /\ blank (t_holderId t) = false.

Definition frame_ok s d (f : option frame) : Prop :=
  ls_ok s /\
  match f with
  | Some (Executing t g _) => t_documentId t = d /\ g_leaseId g = lease_id d /\ g ∈ ls_grants s (lease_id d)
  | _ => True
  end.

(** The lease manager threw when the lease of a task was asked for. *)
Definition threw t : Prop := blank (t_holderId t) = false /\ exists s,
  is_ok (snd (ls_acquireLease s (lease_id (t_documentId t)) (t_holderId t) ttlMs (Some ("mutation:" +:+ t_id t)))) = false \/
  is_ok (snd (ls_isLockedByOther s (lease_id (t_documentId t)) (t_holderId t))) = false.

Definition drops_ok (l : list (mq_log E V X)) : Prop := Forall (fun e => match e with MDropped t => threw t | _ => True end) l.

Record doc_ok m d : Prop := {
  ok_active : d ∈ activeProcessing m <-> is_Some (frames m !! d);
  ok_idle : frames m !! d = None -> queues m !! d = None;
  ok_tasks : Forall (task_ok d) (default [] (queues m !! d));
  ok_frame : frame_ok (service m) d (frames m !! d);
  ok_fifo : enqueued d (mlog m) = departed d (mlog m) ++ option_list (frame_task (frames m !! d)) ++ default [] (queues m !! d);
  ok_replay : replay d (Some None) (mlog m) = Some (frame_task (frames m !! d));
  ok_drops : drops_ok (mlog m)
}.

Definition inv m : Prop := forall d, doc_ok m d.

Lemma frame_ok_mono s s' d f : ls_le s s' -> frame_ok s d f -> frame_ok s' d f.
Proof.
  intros [Ho Hle] [Hs Hf]. split; [auto|]. destruct f as [[t g lost|]|]; [|done..]. destruct Hf as (?&?&?). split_and!; [done..|].
  by eapply elem_of_suffix; [|apply Hle].
Qed.

(** What a step about document [d] leaves of the others. *)
Lemma doc_ok_other m m' d d' l ts r r' :
  d' <> d -> doc_ok m d' -> ls_le (service m) (service m') -> segment d l ts r r' -> mlog m' = mlog m ++ l ->
  queues m' !! d' = queues m !! d' -> frames m' !! d' = frames m !! d' ->
  (d' ∈ activeProcessing m' <-> d' ∈ activeProcessing m) -> drops_ok l -> doc_ok m' d'.
Proof.
  intros Hne [Ha Hi Ht Hf Hq Hr Hdr] Hle [Se Ss Sr So] Hl Eq Ef Ea Hdr'. destruct (So d' Hne) as [So1 So2].
  split; rewrite ?Ef, ?Eq, ?Hl; [tauto|done|done|by eapply frame_ok_mono|..|by apply Forall_app].
  - unfold enqueued, departed in *. rewrite !omap_app, So1, Se, !app_nil_r. exact Hq.
  - unfold replay in *. rewrite foldl_app, So2. exact Hr.
Qed.

(** * The loop *)

Lemma assertActive_le s lost g : ls_le s (fst (assertActive (X:=X) s lost g)).
Proof.
  unfold assertActive. destruct lost; [apply ls_le_refl|].
  pose proof (active_le s (g_leaseId g) (g_holderId g) (g_fencingToken g)) as Hle.
  by destruct (ls_isLeaseActive _ _ _ _) as [s' [[]|]].
Qed.

Lemma release_grant_le s g : ls_le s (release_grant s g).
Proof. apply release_le. Qed.

Lemma start_ok s t g d :
  ls_ok s -> t_documentId t = d -> g_leaseId g = lease_id d -> g ∈ ls_grants s (lease_id d) ->
  let '(s', l, f) := executeWithLease_start (V:=V) (X:=X) s t g in
  exists ts, segment d l ts None (frame_task (Some f)) /\ ts ++ option_list (frame_task (Some f)) = [t] /\
    frame_ok s' d (Some f) /\ ls_le s s' /\ drops_ok l.
Proof.
  intros Hs Ht Hid Hk. unfold executeWithLease_start. pose proof (assertActive_le s false g) as Hle.
  destruct (assertActive (X:=X) s false g) as [s1 [lost [u|r]]]; cbn [fst] in Hle.
  - exists []. split_and!; [by apply segment_begin|done| |done|by repeat constructor].
    by apply (frame_ok_mono s s1 d (Some (Executing t g lost))).
  - exists [t]. assert (Hle' : ls_le s (release_grant s1 g)) by (eapply ls_le_trans; [exact Hle|apply release_grant_le]).
    split_and!; [apply segment_settle; [done|by left]|done| |done|by repeat constructor]. split; [by apply Hle'|done].
Qed.

(** The part of the log of a task whose lease was refused. *)
Lemma refused_ok d t s (r : result E bool) : t_documentId t = d -> blank (t_holderId t) = false -> snd (ls_isLockedByOther s (lease_id d) (t_holderId t)) = r ->
  let l := match r with Ok true => [MSettled t (Err LockedByOther)] | Ok false => [MSettled t (Err NotAcquired)] | Err _ => [MDropped t] end in
  segment (E:=E) (V:=V) (X:=X) d l [t] None None /\ drops_ok l.
Proof.
  intros Hd Hh Hr. destruct r as [[]|e]; simpl; (split; [first [by apply segment_drop|apply segment_settle; [done|by left]]|]); repeat constructor; try done.
  exists s. right. by rewrite Hd, Hr.
Qed.

Lemma loop_ok d q : Forall (task_ok d) q -> forall s, ls_ok s ->
  let '(s', l, rest, f) := processQueue_loop (V:=V) (X:=X) ttlMs s q in
  exists ts, segment d l ts None (frame_task f) /\ q = ts ++ option_list (frame_task f) ++ rest /\
    frame_ok s' d f /\ ls_le s s' /\ drops_ok l /\ (f = None -> rest = []).
Proof.
  induction 1 as [|t q [Hd Hh] _ IH]; intros s Hs.
  - simpl. exists []. split_and!; [apply segment_nil|done|done|apply ls_le_refl|by constructor|done].
  - cbn [processQueue_loop]. rewrite Hd.
    set (meta := Some ("mutation:" +:+ t_id t)).
    pose proof (acquire_le s (lease_id d) (t_holderId t) ttlMs meta) as Hle.
    pose proof (acquire_grants s (lease_id d) (t_holderId t) ttlMs meta) as Hlast.
    assert (Hthrew : is_ok (snd (ls_acquireLease s (lease_id d) (t_holderId t) ttlMs meta)) = false -> threw t) by (intros H; split; [done|]; exists s; left; by rewrite Hd).
    destruct (ls_acquireLease s (lease_id d) (t_holderId t) ttlMs meta) as [s1 [[g|]|e]]; cbn [fst snd] in *.
    + destruct (Hlast s1 g Hs eq_refl) as [Hg1 Hg2].
      pose proof (start_ok s1 t g d (proj1 Hle Hs) Hd Hg1) as Hst. destruct (executeWithLease_start s1 t g) as [[s2 l] f].
      destruct Hst as (ts & Hseg & Hts & Hf & Hle2 & Hdr); [rewrite Hg2; by left|].
      exists ts. split_and!; [done| |done|by eapply ls_le_trans|done|done]. rewrite app_assoc. cbn [frame_task] in *. by rewrite Hts.
    + pose proof (locked_le s1 (lease_id d) (t_holderId t)) as Hle2.
      pose proof (refused_ok d t s1 _ Hd Hh eq_refl) as Hr.
      destruct (ls_isLockedByOther s1 (lease_id d) (t_holderId t)) as [s2 r]; cbn [fst snd] in *. destruct Hr as [Hseg0 Hdr0].
      specialize (IH s2 (proj1 Hle2 (proj1 Hle Hs))). destruct (processQueue_loop ttlMs s2 q) as [[[s3 l] rest] f].
      destruct IH as (ts & Hseg & Hts & Hf & Hle3 & Hdr & Hrest).
      exists (t :: ts). split_and!; [by apply (segment_app d _ l [t] ts None None)|by rewrite Hts|done| |by apply Forall_app|done].
      eapply ls_le_trans; [exact Hle|]. by eapply ls_le_trans.
    + specialize (IH s1 (proj1 Hle Hs)). destruct (processQueue_loop ttlMs s1 q) as [[[s3 l] rest] f].
      destruct IH as (ts & Hseg & Hts & Hf & Hle3 & Hdr & Hrest).
      exists (t :: ts). split_and!; [|by rewrite Hts|done|by eapply ls_le_trans|constructor; [by apply Hthrew|done]|done].
      apply (segment_app d [MDropped t] l [t] ts None None); [by apply segment_drop|done].
Qed.

Lemma continue_ok m d q :
  (forall d', d' <> d -> doc_ok m d') -> ls_ok (service m) -> Forall (task_ok d) q ->
  enqueued d (mlog m) = departed d (mlog m) ++ q -> replay d (Some None) (mlog m) = Some None -> drops_ok (mlog m) ->
  inv (continue_queue ttlMs m d q).
Proof.
  intros Hothers Hs Hq Hfifo Hreplay Hdrops. unfold continue_queue. pose proof (loop_ok d q Hq (service m) Hs) as Hl.
  destruct (processQueue_loop ttlMs (service m) q) as [[[s l] rest] f].
  destruct Hl as (ts & Hseg & Hts & Hf & Hle & Hdr & Hrest). intros d'.
  destruct (decide (d' = d)) as [->|Hne].
  - destruct Hseg as [Se Ss Sr _].
    assert (Hrest' : Forall (task_ok d) rest) by (subst q; by apply Forall_app in Hq as [_ [_ ?]%Forall_app]).
    assert (HF : enqueued d (mlog m ++ l) = departed d (mlog m ++ l) ++ option_list (frame_task f) ++ rest).
    { unfold enqueued, departed in *. rewrite !omap_app, Se, Ss, app_nil_r, Hfifo, <- app_assoc. by f_equal. }
    assert (HR : replay d (Some None) (mlog m ++ l) = Some (frame_task f)).
    { unfold replay in *. by rewrite foldl_app, Hreplay. }
    assert (HD : drops_ok (mlog m ++ l)) by (by apply Forall_app).
    destruct f as [f|]; split; cbn [queues activeProcessing frames service mlog];
      rewrite ?lookup_insert_eq, ?lookup_delete_eq; try done.
    + set_solver.
    + split; [set_solver|]. by intros [? ?].
    + by rewrite (Hrest eq_refl) in HF.
  - destruct f as [f|]; (eapply doc_ok_other; [exact Hne|by apply Hothers|exact Hle|exact Hseg|done|..]);
      cbn [queues activeProcessing frames]; rewrite ?lookup_insert_ne, ?lookup_delete_ne by done; try done; set_solver.
Qed.

(** * Every step *)

Lemma mq_inv_new s : ls_ok s -> inv (new_queue s).
Proof. intros Hs d. split; cbn; rewrite ?lookup_empty; try done. by constructor. Qed.

Lemma inv_processQueue m d q :
  (forall d', d' <> d -> doc_ok m d') -> ls_ok (service m) -> drops_ok (mlog m) -> queues m !! d = Some q -> Forall (task_ok d) q -> q <> [] ->
  d ∉ activeProcessing m -> enqueued d (mlog m) = departed d (mlog m) ++ q -> replay d (Some None) (mlog m) = Some None ->
  inv (processQueue ttlMs m d).
Proof.
  intros Ho Hs Hdr Hq Ht Hne Ha Hf Hr. unfold processQueue. rewrite bool_decide_false, Hq by done. destruct q; [done|].
  by apply continue_ok.
Qed.

Lemma log_enqueue d' l t :
  enqueued (E:=E) (V:=V) (X:=X) d' (l ++ [MEnqueued t]) = enqueued d' l ++ option_list (of_doc d' t) /\
  departed d' (l ++ [MEnqueued t]) = departed d' l /\ forall st, replay d' st (l ++ [MEnqueued t]) = replay d' st l.
Proof.
  unfold enqueued, departed, replay. rewrite !omap_app. split; [|split].
  - f_equal.
  - simpl. by rewrite app_nil_r.
  - intros st. rewrite foldl_app. destruct (foldl _ st l) as [[?|]|]; reflexivity.
Qed.

Lemma inv_enqueue m id d h m' : inv m -> enqueue ttlMs m id d h = Ok m' -> inv m'.
Proof.
  intros Hinv. unfold enqueue. destruct (blank d); [done|]. destruct (blank h) eqn:Hh; [done|].
  set (t := MkTask id d h). set (q := default [] (queues m !! d)).
  set (m0 := MkMq _ _ _ _ _). intros [= <-].
  assert (Hdrops : drops_ok (mlog m0)) by (apply Forall_app; split; [apply (Hinv d)|by repeat constructor]).
  assert (Hothers : forall d', d' <> d -> doc_ok m0 d').
  { intros d' Hne. destruct (Hinv d') as [Ha Hi Ht Hf Hq Hr Hdr]. destruct (log_enqueue d' (mlog m) t) as (E1 & E2 & E3).
    split; cbn [m0 queues activeProcessing frames service mlog]; rewrite ?lookup_insert_ne by done; try done.
    - rewrite E1, E2, of_doc_ne by (simpl; congruence). simpl. by rewrite app_nil_r.
    - by rewrite E3. }
  destruct (Hinv d) as [Ha Hi Ht Hf Hq Hr Hdr]. destruct (log_enqueue d (mlog m) t) as (E1 & E2 & E3).
  rewrite of_doc_eq in E1 by done.
  assert (Hqt : Forall (task_ok d) (q ++ [t])) by (apply Forall_app; split; [exact Ht|by repeat constructor]).
  destruct (decide (d ∈ activeProcessing m)) as [Hact|Hact].
  - unfold processQueue. rewrite bool_decide_true by done. intros d'. destruct (decide (d' = d)) as [->|Hne]; [|by apply Hothers].
    split; cbn [m0 queues activeProcessing frames service mlog]; rewrite ?lookup_insert_eq; try done.
    + intros Hn. apply Ha in Hact as [? ?]. congruence.
    + rewrite E1, E2, Hq. cbn [default from_option]. rewrite <- !app_assoc. done.
    + by rewrite E3.
  - assert (Hn : frames m !! d = None) by (apply eq_None_not_Some; by rewrite <- Ha).
    assert (Hq0 : q = []) by (unfold q; by rewrite Hi).
    rewrite Hn, (Hi Hn) in Hq. cbn in Hq. rewrite app_nil_r in Hq. rewrite Hn in Hr.
    apply (inv_processQueue m0 d (q ++ [t])); cbn [m0 queues activeProcessing frames service mlog]; try done.
    + apply Hf.
    + by rewrite lookup_insert_eq.
    + by destruct q.
    + rewrite E1, E2, Hq, Hq0. done.
    + by rewrite E3.
Qed.

(** A step that only touches the frame of one document and the log. *)
Lemma inv_frame m d f s l ts r :
  inv m -> frames m !! d = Some r -> frame_ok s d (Some f) -> ls_le (service m) s ->
  segment d l ts (frame_task (Some r)) (frame_task (Some f)) ->
  option_list (frame_task (Some r)) = ts ++ option_list (frame_task (Some f)) -> drops_ok l ->
  inv (MkMq (queues m) (activeProcessing m) (<[d := f]> (frames m)) s (mlog m ++ l)).
Proof.
  intros Hinv Hd Hok Hle Hseg Hts Hdl d'. destruct (decide (d' = d)) as [->|Hne].
  - destruct (Hinv d) as [Ha Hi Ht Hf Hq Hr Hdr], Hseg as [Se Ss Sr _]. rewrite Hd in *.
    split; cbn [queues activeProcessing frames service mlog]; rewrite ?lookup_insert_eq; try done.
    + rewrite Ha. split; intros _; by eexists.
    + unfold enqueued, departed in *. rewrite !omap_app, Se, Ss, app_nil_r, Hq, <- app_assoc. f_equal. rewrite app_assoc. by rewrite Hts.
    + unfold replay in *. by rewrite foldl_app, Hr.
    + by apply Forall_app.
  - eapply doc_ok_other; [exact Hne|apply Hinv|exact Hle|exact Hseg|..]; cbn [queues activeProcessing frames service mlog];
      rewrite ?lookup_insert_ne by done; done.
Qed.

Lemma mq_inv_step m e : inv m -> inv (mq_step ttlMs m e).
Proof.
  intros Hinv. destruct e as [id d h|d|d|d body|d]; cbn [mq_step].
  - destruct (enqueue ttlMs m id d h) eqn:Ee; [|done]. by eapply inv_enqueue.
  - unfold heartbeat. pose proof (ok_frame m d (Hinv d)) as Hf. destruct (frames m !! d) as [[t g lost|]|] eqn:Ed; [|done..].
    pose proof (renew_le (service m) (g_leaseId g) (g_holderId g) ttlMs (g_fencingToken g)) as Hle.
    destruct (ls_renew _ _ _ _ _) as [s r]. rewrite <- (app_nil_r (mlog m)).
    eapply inv_frame; [done|exact Ed| |exact Hle|apply segment_nil|done|by constructor]. by eapply (frame_ok_mono _ _ _ (Some (Executing t g lost))).
  - pose proof (ok_frame m d (Hinv d)) as Hf. destruct (frames m !! d) as [[t g lost|]|] eqn:Ed; [|done..].
    pose proof (assertActive_le (service m) lost g) as Hle. destruct (assertActive _ _ _) as [s [lost' r]].
    rewrite <- (app_nil_r (mlog m)).
    eapply inv_frame; [done|exact Ed| |exact Hle|apply segment_nil|done|by constructor]. by eapply (frame_ok_mono _ _ _ (Some (Executing t g lost))).
  - pose proof (ok_frame m d (Hinv d)) as Hf. destruct (frames m !! d) as [[t g lost|]|] eqn:Ed; [|done..].
    assert (exists r, executeWithLease_finish (service m) t g lost body = (fst (executeWithLease_finish (service m) t g lost body), [MSettled t r])
      /\ ls_le (service m) (fst (executeWithLease_finish (service m) t g lost body))) as (r & -> & Hle).
    { unfold executeWithLease_finish. destruct body as [v|x]; [|eexists; split; [done|apply release_grant_le]].
      pose proof (assertActive_le (service m) lost g) as Hle. destruct (assertActive _ _ _) as [s [lost' [u|r]]];
        (eexists; split; [done|eapply ls_le_trans; [exact Hle|apply release_grant_le]]). }
    eapply (inv_frame m d Returning _ _ [t]); [done|exact Ed| |exact Hle| |reflexivity|by repeat constructor].
    + split; [apply Hle, Hf|done].
    + apply segment_settle; [apply Hf|by right].
  - destruct (frames m !! d) as [[t g lost|]|] eqn:Ed; [done| |done].
    destruct (Hinv d) as [Ha Hi Ht Hf Hq Hr Hdr]. rewrite Ed in *. apply continue_ok; try done. apply Hf.
Qed.

Lemma mq_inv_reach m : mq_reach ttlMs m -> inv m.
Proof.
  induction 1 as [s Hs|m e _ IH|m s _ IH Henv]; [by apply mq_inv_new|by apply mq_inv_step|].
  intros d. destruct (IH d) as [Ha Hi Ht Hf Hq Hr Hdr]. split; try done. eapply frame_ok_mono; [|exact Hf]. by apply env_le.
Qed.
End Invariant.

(** * The queue, for any lease manager *)

Section Promises.
Context {S E V X : Type} `{Hsvc : LeaseService S E}.
Implicit Types (m : mq S E V X) (s : S) (t : task) (d : string).

(** A manager that does not throw on valid arguments settles every promise. *)
Lemma nothing_dropped `{!LeaseTotal S E} ttlMs d (l : list (mq_log E V X)) : 0 < ttlMs -> drops_ok ttlMs l -> settled d l = departed d l.
Proof.
  intros Httl. induction 1 as [|e l He _ IH]; [done|]. unfold settled, departed in *. cbn [omap list_omap]. rewrite IH. destruct e as [t|t g|t r|t]; try done.
  exfalso. destruct He as [Hh [s [H|H]]].
  - pose proof (acquire_total s (lease_id (t_documentId t)) (t_holderId t) ttlMs (Some ("mutation:" +:+ t_id t)) eq_refl Hh Httl). congruence.
  - pose proof (locked_total s (lease_id (t_documentId t)) (t_holderId t)). congruence.
Qed.

(** C35: the mutations of a document are serialised, and a promise is settled once unless the
    lease manager threw.  In every reachable state, whatever documents are enqueued, bodies
    settle, timers fire and other processes do with the leases: the tasks of a document that
    were enqueued are, in this order, those that have departed, the one whose body runs and
    those that wait; a body begins only when no other body of the document runs; a document
    that is not being processed has nothing waiting.  A departed task has had its promise
    settled, or the lease manager threw when its lease was asked for; so with a manager that
    does not throw on valid arguments, as that of [Leases], every departed promise is settled. *)
Theorem mutations_are_serialised `{!LeaseLaws S E} ttlMs m d :
  mq_reach ttlMs m ->
  let running := frame_task (frames m !! d) in
  let waiting := default [] (queues m !! d) in
  enqueued d (mlog m) = departed d (mlog m) ++ option_list running ++ waiting /\
  replay d (Some None) (mlog m) = Some running /\
  (d ∉ activeProcessing m -> enqueued d (mlog m) = departed d (mlog m)) /\
  (forall t, MDropped t ∈ mlog m -> threw ttlMs t) /\
  (LeaseTotal S E -> 0 < ttlMs -> settled d (mlog m) = departed d (mlog m)).
Proof.
  intros Hm running waiting. destruct (mq_inv_reach ttlMs m Hm d) as [Ha Hi Ht Hf Hq Hr Hdr].
  split; [done|]. split; [done|]. split_and!.
  - intros Hd. rewrite Hq. assert (Hn : frames m !! d = None) by (apply eq_None_not_Some; by rewrite <- Ha).
    rewrite Hn, (Hi Hn). by rewrite app_nil_r.
  - intros t Hin. by apply (proj1 (Forall_forall _ _) Hdr _ Hin).
  - intros Htot Httl. by apply (nothing_dropped ttlMs).
Qed.

(** The values delivered by a piece of log. *)
Definition results (l : list (mq_log E V X)) : list (task * V) :=
  omap (fun e => match e with MSettled t (Ok v) => Some (t, v) | _ => None end) l.

Lemma results_app l l' : results (l ++ l') = results l ++ results l'.
Proof. apply omap_app. Qed.

Lemma loop_delivers_nothing ttlMs q : forall s,
  results (snd (fst (fst (processQueue_loop ttlMs s q)))) = [].
Proof.
  induction q as [|t q IH]; intros s; cbn [processQueue_loop]; [done|].
  destruct (ls_acquireLease _ _ _ _ _) as [s1 [[g|]|e]].
  - unfold executeWithLease_start. by destruct (assertActive _ _ _) as [s2 [lost [u|r]]].
  - destruct (ls_isLockedByOther _ _ _) as [s2 r]. specialize (IH s2).
    destruct (processQueue_loop ttlMs s2 q) as [[[s3 l] rest] f]. cbn [fst snd] in *. rewrite results_app, IH.
    by destruct r as [[]|].
  - specialize (IH s1). destruct (processQueue_loop ttlMs s1 q) as [[[s3 l] rest] f]. exact IH.
Qed.

Lemma continue_delivers_nothing ttlMs m d q : results (mlog (continue_queue ttlMs m d q)) = results (mlog m).
Proof.
  unfold continue_queue. pose proof (loop_delivers_nothing ttlMs q (service m)) as Hl.
  destruct (processQueue_loop _ _ _) as [[[s l'] rest] f]. cbn [fst snd] in Hl.
  destruct f; cbn; rewrite results_app, Hl; apply app_nil_r.
Qed.

Lemma enqueue_delivers_nothing ttlMs m id d h m' : enqueue ttlMs m id d h = Ok m' -> results (mlog m') = results (mlog m).
Proof.
  unfold enqueue. destruct (blank d); [done|]. destruct (blank h); [done|]. intros [= <-].
  set (m0 := MkMq _ _ _ _ _). assert (H0 : results (mlog m0) = results (mlog m)) by (cbn; rewrite results_app; apply app_nil_r).
  unfold processQueue. destruct (bool_decide _); [done|].
  destruct (queues m0 !! d) as [[|t0 q]|]; [done| |done]. by rewrite continue_delivers_nothing.
Qed.

(** The grants of a lease are ordered, so one that carries the token of the last is the last. *)
Lemma last_grant gs g g' l : StronglySorted newer gs -> gs = g :: l -> g' ∈ gs -> g_fencingToken g' = g_fencingToken g -> g' = g.
Proof.
  intros Hs -> [->|Hin]%elem_of_cons Hk; [done|]. apply StronglySorted_inv in Hs as [_ Hs]. rewrite Forall_forall in Hs. specialize (Hs g' Hin). unfold newer in Hs. lia.
Qed.

(** C36: a result is delivered only while its grant is the last one.  If a step resolves a
    promise with a value, then it is the settlement of that task's body with that value, its
    lease was never seen lost, and of all grants ever made of the document's lease, to writers
    of any process, the one that the body runs under is the last: from the start of the body
    to the delivery nobody was granted the document. *)
Theorem delivered_result_is_fenced `{!LeaseLaws S E} ttlMs m e t v l :
  mq_reach ttlMs m -> mlog (mq_step ttlMs m e) = mlog m ++ l -> (t, v) ∈ results l ->
  exists d g before, e = QSettle d (Ok v) /\ frames m !! d = Some (Executing t g false) /\ t_documentId t = d /\
    g_leaseId g = lease_id d /\ ls_grants (service m) (lease_id d) = g :: before.
Proof.
  intros Hm Hl Hin.
  assert (Hno : results (mlog (mq_step ttlMs m e)) = results (mlog m) -> False).
  { rewrite Hl, results_app. rewrite <- (app_nil_r (results (mlog m))) at 2. intros Hl0%app_inv_head.
    rewrite Hl0 in Hin. by apply elem_of_nil in Hin. }
  destruct e as [id d h|d|d|d body|d]; cbn [mq_step] in *.
  - exfalso. apply Hno. destruct (enqueue ttlMs m id d h) eqn:Ee; [|done]. by eapply enqueue_delivers_nothing.
  - exfalso. apply Hno. unfold heartbeat. destruct (frames m !! d) as [[t0 g lost|]|]; [|done..]. by destruct (ls_renew _ _ _ _ _).
  - exfalso. apply Hno. destruct (frames m !! d) as [[t0 g lost|]|]; [|done..]. by destruct (assertActive _ _ _) as [s [lost' r]].
  - pose proof (ok_frame ttlMs m d (mq_inv_reach ttlMs m Hm d)) as Hf.
    destruct (frames m !! d) as [[t0 g lost|]|] eqn:Ed; [|by exfalso; apply Hno..].
    unfold executeWithLease_finish in Hl. destruct body as [v0|x].
    + destruct lost; cbn in Hl.
      * apply app_inv_head in Hl as <-. by apply elem_of_nil in Hin.
      * unfold assertActive in Hl. destruct (ls_isLeaseActive _ _ _ _) as [s1 [[]|e]] eqn:Ea; cbn in Hl;
          apply app_inv_head in Hl as <-; cbn in Hin; [|by apply elem_of_nil in Hin..].
        apply list_elem_of_singleton in Hin. simplify_eq.
        destruct Hf as (Hs & Hd & Hg & Hgs). destruct (active_last _ _ _ _ _ Hs Ea) as (g' & gs & Hlast & Hk). rewrite Hg in Hlast.
        pose proof (last_grant _ g' g gs (grants_newer _ (lease_id d) Hs) Hlast Hgs (eq_sym Hk)) as ->. by exists d, g', gs.
    + cbn in Hl. apply app_inv_head in Hl as <-. by apply elem_of_nil in Hin.
  - exfalso. apply Hno. destruct (frames m !! d) as [[t0 g lost|]|]; [done| |done]. apply continue_delivers_nothing.
Qed.

(** A lease manager that throws strands a mutation.  The lease is acquired outside the
    [try] that settles the promise: when the acquisition throws (a busy database), the task
    has left the queue, its promise is neither resolved nor rejected, and the document is
    idle, so nothing will ever settle it. *)
Theorem failed_acquisition_strands_a_mutation ttlMs s s' e id d h :
  blank d = false -> blank h = false ->
  ls_acquireLease s (lease_id d) h ttlMs (Some ("mutation:" +:+ id)) = (s', Err e) ->
  exists m, enqueue ttlMs (new_queue (V:=V) (X:=X) s) id d h = Ok m /\
    isDocumentBusy m d = false /\ frames m !! d = None /\
    enqueued d (mlog m) = [MkTask id d h] /\ settled d (mlog m) = [].
Proof.
  intros Hd Hh Hacq. unfold enqueue. rewrite Hd, Hh. eexists. split; [reflexivity|].
  unfold processQueue, new_queue. cbn [activeProcessing queues]. rewrite bool_decide_false by set_solver.
  rewrite lookup_insert_eq. cbn [app default from_option]. rewrite lookup_empty. cbn [default from_option app].
  unfold continue_queue. cbn [service processQueue_loop t_documentId t_holderId t_id]. rewrite Hacq. cbn.
  unfold isDocumentBusy. cbn. rewrite !lookup_delete_eq. rewrite bool_decide_false by set_solver.
  split_and!; try done. unfold enqueued. simpl. by rewrite of_doc_eq.
Qed.
End Promises.

(** * The lease manager implements the interface *)

(** The shared table, the grants made on it so far, and the readings of the clock; every call
    reads the clock once. *)
Record clocked : Type := MkClocked { ck_table : leases; ck_granted : string -> list grant; ck_clock : nat -> Z; ck_tick : nat }.

Definition ck_now (c : clocked) : Z := ck_clock c (ck_tick c).

(** One more grant. *)
Definition remember (g : option grant) (granted : string -> list grant) (id : string) : list grant :=
  match g with Some g => if bool_decide (g_leaseId g = id) then g :: granted id else granted id | None => granted id end.

Definition ck_set (c : clocked) (t : leases) (g : option grant) : clocked :=
  MkClocked t (remember g (ck_granted c)) (ck_clock c) (Datatypes.S (ck_tick c)).

Definition ck_acquire (c : clocked) (r : result lease_error (leases * option grant)) : clocked * result lease_error (option grant) :=
  match r with
  | Ok (t, g) => (ck_set c t g, Ok g)
  | Err e => (ck_set c (ck_table c) None, Err e)
  end.

Definition ck_run (c : clocked) (r : result lease_error (leases * bool)) : clocked * result lease_error bool :=
  match r with
  | Ok (t, b) => (ck_set c t None, Ok b)
  | Err e => (ck_set c (ck_table c) None, Err e)
  end.

Definition ck_read (c : clocked) (r : result lease_error bool) : clocked * result lease_error bool :=
  (ck_set c (ck_table c) None, r).

(** The row of a lease has the token of its last grant, and tokens grow. *)
Record ck_ok (c : clocked) : Prop := {
  co_newer id : StronglySorted newer (ck_granted c id);
  co_token id : Forall (fun g => g_fencingToken g <= token_of (ck_table c) id) (ck_granted c id);
  co_last id r : ck_table c !! id = Some r -> exists g gs, ck_granted c id = g :: gs /\ g_fencingToken g = l_fencingToken r
}.

#[export] Instance lease_service : LeaseService clocked lease_error := {
  ls_acquireLease c id h ttl m := ck_acquire c (acquireLease (ck_table c) (ck_now c) id h ttl m);
  ls_renew c id h ttl k := ck_run c (renew (ck_table c) (ck_now c) id h ttl (Some k));
  ls_release c id h k := ck_run c (release (ck_table c) (ck_now c) id h (Some k));
  ls_isLeaseActive c id h k := ck_read c (isLeaseActive (ck_table c) (ck_now c) id h k);
  ls_isLockedByOther c id h := ck_read c (Ok (isLockedByOther (ck_table c) (ck_now c) id h));
  ls_env c c' := exists now call n, let '(t, g) := lease_step (ck_table c) now call in c' = MkClocked t (remember g (ck_granted c)) (ck_clock c) n;
  ls_ok := ck_ok;
  ls_grants := ck_granted
}.

(** What one call by anyone does to the grants. *)
Lemma ck_step c now call t g clock n : lease_step (ck_table c) now call = (t, g) -> ls_le c (MkClocked t (remember g (ck_granted c)) clock n).
Proof.
  intros Hstep. split.
  - intros [Hn Ht Hl]. split; cbn [ck_table ck_granted].
    + intros id. pose proof (lease_step_token (ck_table c) now call id) as H. rewrite Hstep in H. destruct g as [g|]; [|apply Hn]. simpl. case_bool_decide as E; [|apply Hn].
      destruct H as [Hk _]. constructor; [apply Hn|]. eapply Forall_impl; [apply Ht|]. intros g' Hg'. simpl in Hg'. unfold newer. lia.
    + intros id. pose proof (lease_step_token (ck_table c) now call id) as H. rewrite Hstep in H. destruct g as [g|]; simpl; [|rewrite H; apply Ht].
      case_bool_decide as E; [|rewrite H; apply Ht]. destruct H as [Hk ->]. constructor; [lia|]. eapply Forall_impl; [apply Ht|]. intros g' Hg'. simpl in *. lia.
    + intros id r Hr. pose proof (lease_step_row (ck_table c) now call id) as H. rewrite Hstep in H. destruct g as [g|]; simpl.
      * destruct H as [H1 H2]. case_bool_decide as E; [|apply Hl; by rewrite <- H2]. destruct (H1 E) as [_ Hrow]. rewrite Hrow in Hr. injection Hr as <-. by eexists _, _.
      * rewrite Hr in H. destruct (ck_table c !! id) as [r0|] eqn:E; [|done]. destruct H as [-> _]. by apply Hl.
  - intros id. destruct g as [g|]; simpl; [|done]. case_bool_decide; [by apply suffix_cons_r|done].
Qed.

Lemma ck_read_le c r : ls_le c (fst (ck_read c r)).
Proof. by split; [intros [H1 H2 H3]; split|]. Qed.

#[export] Instance lease_laws : LeaseLaws clocked lease_error.
Proof.
  split.
  - intros c i h ttl m. pose proof (ck_step c (ck_now c) (CAcquire i h ttl m)) as H. revert H. cbn.
    destruct (acquireLease _ _ _ _ _ _) as [[t g]|e]; intros H; by apply (H _ _).
  - intros c i h ttl k. pose proof (ck_step c (ck_now c) (CRenew i h ttl (Some k))) as H. revert H. cbn.
    destruct (renew _ _ _ _ _ _) as [[t g]|e]; intros H; by apply (H _ _).
  - intros c i h k. pose proof (ck_step c (ck_now c) (CRelease i h (Some k))) as H. revert H. cbn.
    destruct (release _ _ _ _ _) as [[t g]|e]; intros H; by apply (H _ _).
  - intros c i h k. apply ck_read_le.
  - intros c i h. apply ck_read_le.
  - intros c c' (now & call & n & H). destruct (lease_step (ck_table c) now call) as [t g] eqn:E. subst c'. by eapply ck_step.
  - intros c id Hc. apply Hc.
  - intros c i h ttl m c' g Hc Hrun. cbn in Hrun. destruct (acquireLease (ck_table c) (ck_now c) i h ttl m) as [[t [g'|]]|e] eqn:Ea; cbn in Hrun; simplify_eq.
    assert (Hid : g_leaseId g = i).
    { unfold acquireLease in Ea. destruct (validateLeaseArguments _ _ _); [|done]. cbn in Ea.
      destruct (match ck_table c !! i with Some _ => _ | None => _ end); [done|]. by simplify_eq. }
    split; [done|]. cbn. by rewrite bool_decide_true.
  - intros c i h k c' Hc Hact. cbn in Hact. unfold ck_read in Hact. injection Hact as _ Hact.
    unfold isLeaseActive, validateFencingToken, getLease in Hact.
    destruct ((k <? 1) || (MAX_SAFE <? k)) eqn:Ek; [done|]. cbn in Hact. injection Hact as Hact.
    destruct (ck_table c !! i) as [r|] eqn:Er; [|done]. destruct (co_last c Hc i r Er) as (g & gs & Hg & Hk). exists g, gs. split; [done|]. bools. lia.
Qed.

#[export] Instance lease_total : LeaseTotal clocked lease_error.
Proof.
  split; [|done]. intros c id h ttl m Hid Hh Httl. cbn. unfold acquireLease, validateLeaseArguments. rewrite Hid, Hh.
  destruct (ttl <=? 0) eqn:Et; [bools; lia|]. cbn. by destruct (match ck_table c !! id with Some _ => _ | None => _ end).
Qed.

(** * Runs of the queue over the lease manager *)

Definition run_queue (m : mq clocked lease_error Z Z) (es : list (mq_event Z Z)) : mq clocked lease_error Z Z :=
  foldl (mq_step 15000) m es.

Lemma run_queue_reach m es : mq_reach 15000 m -> mq_reach 15000 (run_queue m es).
Proof. revert m. induction es as [|e es IH]; intros m Hm; [done|]. apply IH. by constructor. Qed.

Definition quiet : clocked := MkClocked ∅ (fun _ => []) (fun n => Z.of_nat n) 0.

Lemma quiet_ok : ck_ok quiet.
Proof. by split; [constructor|constructor|]. Defined.

(** Two mutations of a document and one of another. *)
Definition three_mutations : mq clocked lease_error Z Z :=
  run_queue (new_queue quiet) [QEnqueue "1" "d" "a"; QEnqueue "2" "d" "b"; QEnqueue "3" "e" "b"].

Lemma mutations_are_serialised_witness :
  enqueued "d" (mlog three_mutations) = [MkTask "1" "d" "a"; MkTask "2" "d" "b"] /\
  enqueued "d" (mlog three_mutations) = departed "d" (mlog three_mutations) ++
    option_list (frame_task (frames three_mutations !! "d")) ++ default [] (queues three_mutations !! "d").
Proof.
  split; [by vm_compute|].
  apply (mutations_are_serialised 15000 three_mutations "d"). apply run_queue_reach. constructor. exact quiet_ok.
Defined.

Lemma delivered_result_is_fenced_witness :
  exists d g before, QSettle "d" (Ok 7) = QSettle (X:=Z) d (Ok 7) /\
    frames three_mutations !! d = Some (Executing (MkTask "1" "d" "a") g false) /\ t_documentId (MkTask "1" "d" "a") = d /\
    g_leaseId g = lease_id d /\ ls_grants (service three_mutations) (lease_id d) = g :: before.
Proof.
  apply (delivered_result_is_fenced 15000 three_mutations (QSettle "d" (Ok 7)) (MkTask "1" "d" "a") 7
    [MSettled (MkTask "1" "d" "a") (Ok 7)]).
  - apply run_queue_reach. constructor. exact quiet_ok.
  - by vm_compute.
  - by left.
Defined.

(** When another process took the lease over, the result of the first mutation is refused and
    the next one runs. *)
Example takeover_rejects_the_result :
  let m := three_mutations in
  let late := fst (lease_step (ck_table (service m)) 20000 (CAcquire "lease_d" "other" 10 None)) in
  let m' := MkMq (queues m) (activeProcessing m) (frames m) (MkClocked late (ck_granted (service m)) (fun n => Z.of_nat n + 20000) 0) (mlog m) in
  settled "d" (mlog (run_queue m' [QSettle "d" (Ok 7)])) = [MkTask "1" "d" "a"] /\
  results (mlog (run_queue m' [QSettle "d" (Ok 7)])) = [] /\
  results (mlog (run_queue m [QSettle "d" (Ok 7)])) = [(MkTask "1" "d" "a", 7)].
Proof. by vm_compute. Qed.

(** A lease manager over a busy database: every acquisition throws. *)
Definition busy_service : LeaseService unit string := {|
  ls_acquireLease s _ _ _ _ := (s, Err "SQLITE_BUSY");
  ls_renew s _ _ _ _ := (s, Err "SQLITE_BUSY");
  ls_release s _ _ _ := (s, Err "SQLITE_BUSY");
  ls_isLeaseActive s _ _ _ := (s, Err "SQLITE_BUSY");
  ls_isLockedByOther s _ _ := (s, Err "SQLITE_BUSY");
  ls_env s s' := s = s';
  ls_ok _ := True;
  ls_grants _ _ := []
|}.

Lemma failed_acquisition_strands_a_mutation_witness :
  exists m : mq unit string Z Z, enqueue (H:=busy_service) 15000 (new_queue (V:=Z) (X:=Z) tt) "1" "d" "a" = Ok m /\
    isDocumentBusy m "d" = false /\ frames m !! "d" = None /\
    enqueued "d" (mlog m) = [MkTask "1" "d" "a"] /\ settled "d" (mlog m) = [].
Proof. apply (failed_acquisition_strands_a_mutation (Hsvc:=busy_service) 15000 tt tt "SQLITE_BUSY" "1" "d" "a"); reflexivity. Defined.
