(* ===== verification/Lanes.v ===== *)
(** Parallel lanes of a workspace and their branch tips ([LaneManager] of
    storage/src/lanes.ts).  The tables are finite maps by primary key.  A method of one
    statement returns the new database or the error.  A fork and a merge write statement by
    statement inside [InkDb.transaction], which takes back what was written when they throw:
    they return the database they leave, with what they return or throw.

    Modelling choices: an id list read without [ORDER BY] comes in the unspecified order of the
    map; [foreign_keys] says whether the driver enforces foreign keys (node:sqlite does,
    bun:sqlite does not unless asked). *)

From S2P Require Import Prelude.

Local Open Scope Z_scope.

(** * Data *)

Record lane : Type := MkLane {
  ln_id : string;
  ln_workspaceId : string;
  ln_name : string;
  ln_description : option string;
  ln_parentLaneId : option string;
  ln_isDefault : bool;
  ln_createdAt : Z;
  ln_updatedAt : Z
}.

(** A row of [branch_tips]; its key is the lane and the document. *)
Record tip_row : Type := MkTip {
  tp_headSnapshotVersion : Z;
  tp_lastDeltaId : Z;
  tp_baseSnapshotVersion : Z;
  tp_baseDeltaId : Z;
  tp_updatedAt : Z
}.

(** The argument of [setBranchTip]. *)
Record branch_tip : Type := MkBranchTip {
  bt_laneId : string;
  bt_documentId : string;
  bt_headSnapshotVersion : Z;
  bt_lastDeltaId : Z;
  bt_baseSnapshotVersion : option Z;
  bt_baseDeltaId : option Z;
  bt_updatedAt : Z
}.

Record lane_db : Type := MkLaneDb {
  d_workspaces : gset string;
  d_documents : gmap string string;
  d_lanes : gmap string lane;
  d_tips : gmap (string * string) tip_row
}.

Inductive lane_error : Type :=
| LaneExists (id : string)
| ForeignKey
| LaneNotFound (id : string)
| DocumentNotFound (id : string)
| WrongWorkspace
| SameLane
| NotParent
| NoBaseline (documentId : string)
| TargetChanged (documentId : string).

Section Lanes.
Variable foreign_keys : bool.

(** * Lanes *)

Definition getLane (db : lane_db) (id : string) : option lane := d_lanes db !! id.

Definition set_lanes (db : lane_db) (lanes : gmap string lane) : lane_db :=
  MkLaneDb (d_workspaces db) (d_documents db) lanes (d_tips db).

Definition set_tips (db : lane_db) (tips : gmap (string * string) tip_row) : lane_db :=
  MkLaneDb (d_workspaces db) (d_documents db) (d_lanes db) tips.

Definition with_default (b : bool) (l : lane) : lane :=
  MkLane (ln_id l) (ln_workspaceId l) (ln_name l) (ln_description l) (ln_parentLaneId l) b (ln_createdAt l) (ln_updatedAt l).

(** [UPDATE lanes SET is_default = 0 WHERE workspace_id = ?]. *)
Definition clear_default (workspaceId : string) (lanes : gmap string lane) : gmap string lane :=
  (fun l => if bool_decide (ln_workspaceId l = workspaceId) then with_default false l else l) <$> lanes.

Definition insert_lane (db : lane_db) (l : lane) : result lane_error lane_db :=
  let parent := truthy (ln_parentLaneId l) in
  throw_if bool_decide (is_Some (d_lanes db !! ln_id l)) with LaneExists (ln_id l) in
  throw_if foreign_keys && negb (bool_decide (ln_workspaceId l ∈ d_workspaces db)) with ForeignKey in
  throw_if foreign_keys && match parent with
                           | Some p => negb (bool_decide (p = ln_id l)) && negb (bool_decide (is_Some (d_lanes db !! p)))
                           | None => false
                           end with ForeignKey in
  Ok (set_lanes db (<[ln_id l := MkLane (ln_id l) (ln_workspaceId l) (ln_name l) (truthy (ln_description l)) parent
                                    (ln_isDefault l) (ln_createdAt l) (ln_updatedAt l)]> (d_lanes db))).

Definition createLane (db : lane_db) (l : lane) : result lane_error lane_db :=
  let db := if ln_isDefault l then set_lanes db (clear_default (ln_workspaceId l) (d_lanes db)) else db in
  insert_lane db l.

(** [ORDER BY is_default DESC, created_at ASC]. *)
Definition compare_lanes (a b : lane) : Z :=
  let d := (if ln_isDefault b then 1 else 0) - (if ln_isDefault a then 1 else 0) in
  if d =? 0 then ln_createdAt a - ln_createdAt b else d.

Definition getLanes (db : lane_db) (workspaceId : string) : list lane :=
  js_sort compare_lanes
    (List.filter (fun l => bool_decide (ln_workspaceId l = workspaceId)) ((map_to_list (d_lanes db)).*2)).

Definition setDefaultLane (db : lane_db) (workspaceId laneId : string) : result lane_error lane_db :=
  match getLane db laneId with
  | Some l =>
      if bool_decide (ln_workspaceId l = workspaceId)
      then Ok (set_lanes db (alter (with_default true) laneId (clear_default workspaceId (d_lanes db))))
      else Err (LaneNotFound laneId)
  | None => Err (LaneNotFound laneId)
  end.

(** * Branch tips *)

Definition setBranchTip (db : lane_db) (t : branch_tip) : result lane_error lane_db :=
  match getLane db (bt_laneId t) with
  | None => Err (LaneNotFound (bt_laneId t))
  | Some l =>
      match d_documents db !! bt_documentId t with
      | None => Err (DocumentNotFound (bt_documentId t))
      | Some workspaceId =>
          throw_if negb (bool_decide (workspaceId = ln_workspaceId l)) with WrongWorkspace in
          let key := (bt_laneId t, bt_documentId t) in
          let row := match d_tips db !! key with
                     | Some old => MkTip (bt_headSnapshotVersion t) (bt_lastDeltaId t)
                                         (tp_baseSnapshotVersion old) (tp_baseDeltaId old) (bt_updatedAt t)
                     | None => MkTip (bt_headSnapshotVersion t) (bt_lastDeltaId t)
                                     (default (bt_headSnapshotVersion t) (bt_baseSnapshotVersion t))
                                     (default (bt_lastDeltaId t) (bt_baseDeltaId t)) (bt_updatedAt t)
                     end in
          Ok (set_tips db (<[key := row]> (d_tips db)))
      end
  end.

Definition getBranchTip (db : lane_db) (laneId documentId : string) : option tip_row := d_tips db !! (laneId, documentId).

Definition getBranchTips (db : lane_db) (laneId : string) : list (string * tip_row) :=
  omap (fun '(k, t) => if bool_decide (fst k = laneId) then Some (snd k, t) else None) (map_to_list (d_tips db)).

(** * Forks and merges *)

(** [this.db.transaction(fn)] of a connection that is in no transaction: what [fn] leaves is
    committed when it returns and rolled back when it throws. *)
Definition transaction {A} (fn : lane_db -> lane_db * result lane_error A) (db : lane_db) : lane_db * result lane_error A :=
  match fn db with
  | (db', Ok a) => (db', Ok a)
  | (_, Err e) => (db, Err e)
  end.

(** A statement, and what follows it. *)
Definition then_ {A} (db : lane_db) (r : result lane_error lane_db) (f : lane_db -> lane_db * result lane_error A) : lane_db * result lane_error A :=
  match r with Ok db' => f db' | Err e => (db, Err e) end.

Fixpoint fork_tips (target : string) (now : Z) (tips : list (string * tip_row)) (db : lane_db) : lane_db * result lane_error unit :=
  match tips with
  | [] => (db, Ok tt)
  | (d, t) :: tips =>
      then_ db (setBranchTip db (MkBranchTip target d (tp_headSnapshotVersion t) (tp_lastDeltaId t)
                                   (Some (tp_headSnapshotVersion t)) (Some (tp_lastDeltaId t)) now))
        (fork_tips target now tips)
  end.

Definition forkLane (db : lane_db) (now : Z) (source target name : string) (description : option string)
  : lane_db * result lane_error lane :=
  match getLane db source with
  | None => (db, Err (LaneNotFound source))
  | Some l =>
      if bool_decide (source = target) then (db, Err SameLane)
      else if bool_decide (is_Some (getLane db target)) then (db, Err (LaneExists target))
      else
        let new := MkLane target (ln_workspaceId l) name
                     (Some (default ("Forked from " +:+ ln_name l) (truthy description))) (Some source) false now now in
        match transaction (fun db => then_ db (createLane db new) (fun db => fork_tips target now (getBranchTips db source) db)) db with
        | (db', Ok _) => (db', Ok new)
        | (db', Err e) => (db', Err e)
        end
  end.

(** The loop over the tips of the source, which counts them. *)
Fixpoint merge_tips (target : string) (now : Z) (tips : list (string * tip_row)) (mergedCount : Z) (db : lane_db) : lane_db * result lane_error Z :=
  match tips with
  | [] => (db, Ok mergedCount)
  | (d, t) :: tips =>
      match getBranchTip db target d with
      | None => (db, Err (NoBaseline d))
      | Some tgt =>
          if negb (tp_headSnapshotVersion tgt =? tp_baseSnapshotVersion tgt) || negb (tp_lastDeltaId tgt =? tp_baseDeltaId tgt)
          then (db, Err (TargetChanged d))
          else
            then_ db (setBranchTip db (MkBranchTip target d (tp_headSnapshotVersion t) (tp_lastDeltaId t)
                                         (Some (tp_baseSnapshotVersion tgt)) (Some (tp_baseDeltaId tgt)) now))
              (merge_tips target now tips (mergedCount + 1))
      end
  end.

Definition mergeLane (db : lane_db) (now : Z) (source target : string) : lane_db * result lane_error Z :=
  match getLane db source, getLane db target with
  | None, _ => (db, Err (LaneNotFound source))
  | _, None => (db, Err (LaneNotFound target))
  | Some s, Some t =>
      if bool_decide (source = target) then (db, Err SameLane)
      else if negb (bool_decide (ln_workspaceId s = ln_workspaceId t)) then (db, Err WrongWorkspace)
      else if negb (bool_decide (ln_parentLaneId s = Some target)) then (db, Err NotParent)
      else transaction (merge_tips target now (getBranchTips db source) 0) db
  end.

(** Deleting a lane detaches its children where foreign keys are enforced. *)
Definition purgeWorkspace (db : lane_db) (workspaceId : string) : lane_db * Z :=
  let gone (id : string) : bool :=
    match d_lanes db !! id with Some l => bool_decide (ln_workspaceId l = workspaceId) | None => false end in
  let detach (l : lane) : lane :=
    if foreign_keys && match ln_parentLaneId l with Some p => gone p | None => false end
    then MkLane (ln_id l) (ln_workspaceId l) (ln_name l) (ln_description l) None (ln_isDefault l) (ln_createdAt l) (ln_updatedAt l)
    else l in
  (MkLaneDb (d_workspaces db) (d_documents db)
     (detach <$> filter (fun p => gone (fst p) = false) (d_lanes db))
     (filter (fun p => gone (fst (fst p)) = false) (d_tips db)),
   zlen (List.filter (fun p => gone (fst p)) (map_to_list (d_lanes db)))).
End Lanes.
