(* ===== verification/LanesProofs.v ===== *)
(** What [Lanes] promises: one default lane per workspace, a merge that fast-forwards every
    document or changes nothing, and when a merge is refused. *)

From S2P Require Import Prelude Lanes.

Local Open Scope Z_scope.

Section LaneProofs.
Variable foreign_keys : bool.

(** * Default lanes *)

Definition one_default (db : lane_db) : Prop :=
  forall i j a b, d_lanes db !! i = Some a -> d_lanes db !! j = Some b ->
  ln_workspaceId a = ln_workspaceId b -> ln_isDefault a = true -> ln_isDefault b = true -> i = j.

Inductive lane_call : Type :=
| LCreate (l : lane)
| LSetDefault (workspaceId laneId : string)
| LSetTip (t : branch_tip)
| LFork (now : Z) (source target name : string) (description : option string)
| LMerge (now : Z) (source target : string)
| LPurge (workspaceId : string).

Definition lane_step (db : lane_db) (c : lane_call) : lane_db :=
  let keep {A} (r : result lane_error A) (f : A -> lane_db) := match r with Ok a => f a | Err _ => db end in
  match c with
  | LCreate l => keep (createLane foreign_keys db l) id
  | LSetDefault w l => keep (setDefaultLane db w l) id
  | LSetTip t => keep (setBranchTip db t) id
  | LFork now s t n d => fst (forkLane foreign_keys db now s t n d)
  | LMerge now s t => fst (mergeLane db now s t)
  | LPurge w => fst (purgeWorkspace foreign_keys db w)
  end.

Lemma setBranchTip_lanes db t db' :
  setBranchTip db t = Ok db' -> d_lanes db' = d_lanes db /\ d_documents db' = d_documents db /\ d_workspaces db' = d_workspaces db.
Proof.
  unfold setBranchTip. destruct (getLane _ _); [|done]. destruct (d_documents db !! _); [|done].
  destruct (negb _); [done|]. intros [= <-]. done.
Qed.

Lemma fork_tips_lanes target now tips db : d_lanes (fst (fork_tips target now tips db)) = d_lanes db.
Proof.
  revert db. induction tips as [|[d t] tips IH]; intros db; [done|]. simpl. destruct (setBranchTip db _) as [db'|e] eqn:E; [|done].
  simpl. rewrite IH. by apply setBranchTip_lanes in E as [-> _].
Qed.

Lemma merge_tips_lanes target now tips n db : d_lanes (fst (merge_tips target now tips n db)) = d_lanes db.
Proof.
  revert n db. induction tips as [|[d t] tips IH]; intros n db; [done|]. simpl. destruct (getBranchTip db target d); [|done].
  destruct (_ || _); [done|]. destruct (setBranchTip db _) as [db'|e] eqn:E; [|done]. simpl. rewrite IH. by apply setBranchTip_lanes in E as [-> _].
Qed.

(** What a transaction leaves is what its body left, or what it found. *)
Lemma transaction_cases {A} (fn : lane_db -> lane_db * result lane_error A) db :
  match transaction fn db with (db', Ok a) => fn db = (db', Ok a) | (db', Err e) => db' = db /\ snd (fn db) = Err e end.
Proof. unfold transaction. by destruct (fn db) as [db' [a|e]]. Qed.

Lemma clear_default_lookup w lanes i a :
  clear_default w lanes !! i = Some a ->
  exists b, lanes !! i = Some b /\ ln_workspaceId b = ln_workspaceId a /\ ln_id b = ln_id a /\
    (ln_isDefault a = true -> ln_workspaceId a <> w /\ ln_isDefault b = true).
Proof.
  unfold clear_default. rewrite lookup_fmap. destruct (lanes !! i) as [b|]; [|done]. simpl. intros [= <-]. exists b.
  case_bool_decide; simpl; done.
Qed.

Lemma one_default_create db l db' :
  one_default db -> createLane foreign_keys db l = Ok db' -> one_default db'.
Proof.
  intros Hone. unfold createLane, insert_lane. set (db0 := if ln_isDefault l then _ else _).
  destruct (bool_decide (is_Some _)); [done|]. destruct (_ && _); [done|]. destruct (_ && _); [done|].
  intros [= <-]. set (new := MkLane _ _ _ _ _ _ _ _).
  assert (Hold : forall i a, d_lanes db0 !! i = Some a -> exists b, d_lanes db !! i = Some b /\ ln_workspaceId b = ln_workspaceId a /\
    (ln_isDefault a = true -> ln_isDefault b = true /\ (ln_isDefault l = true -> ln_workspaceId a <> ln_workspaceId l))).
  { intros i a. unfold db0. destruct (ln_isDefault l); [|by eauto 10].
    intros (b & Hb & Hw & _ & Hd)%clear_default_lookup. exists b. naive_solver. }
  intros i j a b. simpl. rewrite !lookup_insert_Some. intros [[<- <-]|[Hi Ha]] [[<- <-]|[Hj Hb]]; [done|..].
  - intros Hw Hd1 Hd2. destruct (Hold _ _ Hb) as (b' & _ & _ & Hd). destruct (Hd Hd2) as [_ Hne]. simpl in *. destruct (Hne Hd1). done.
  - intros Hw Hd1 Hd2. destruct (Hold _ _ Ha) as (a' & _ & _ & Hd). destruct (Hd Hd1) as [_ Hne]. simpl in *. destruct (Hne Hd2). done.
  - intros Hw Hd1 Hd2. destruct (Hold _ _ Ha) as (a' & Ha' & Hwa & Hda), (Hold _ _ Hb) as (b' & Hb' & Hwb & Hdb).
    apply (Hone i j a' b'); try done; [congruence|by apply Hda|by apply Hdb].
Qed.

Lemma one_default_set db w id db' :
  one_default db -> setDefaultLane db w id = Ok db' -> one_default db'.
Proof.
  intros Hone. unfold setDefaultLane, getLane. destruct (d_lanes db !! id) as [l|] eqn:El; [|done].
  case_bool_decide as Hw; [|done]. intros [= <-].
  assert (Hold : forall i a, alter (with_default true) id (clear_default w (d_lanes db)) !! i = Some a ->
    ln_isDefault a = true -> (i = id /\ ln_workspaceId a = w) \/ (i <> id /\ ln_workspaceId a <> w /\
       exists b, d_lanes db !! i = Some b /\ ln_workspaceId b = ln_workspaceId a /\ ln_isDefault b = true)).
  { intros i a Ha Hd. destruct (decide (i = id)) as [->|Hne].
    - left. split; [done|]. rewrite lookup_alter_eq in Ha. unfold clear_default in Ha. rewrite lookup_fmap, El in Ha. simpl in Ha.
      rewrite bool_decide_true in Ha by done. by injection Ha as <-.
    - right. split; [done|]. rewrite lookup_alter_ne in Ha by done. apply clear_default_lookup in Ha as (b & Hb & Hwb & _ & Hdb).
      destruct (Hdb Hd). naive_solver. }
  intros i j a b Ha Hb Hwab Hda Hdb.
  destruct (Hold _ _ Ha Hda) as [[-> Hwa]|(Hi & Hwa & a' & Ha' & Hwa' & Hda')];
    destruct (Hold _ _ Hb Hdb) as [[-> Hwb]|(Hj & Hwb & b' & Hb' & Hwb' & Hdb')]; try done; [congruence..|].
  apply (Hone i j a' b'); congruence.
Qed.

Lemma one_default_lanes db db' : d_lanes db' = d_lanes db -> one_default db -> one_default db'.
Proof. unfold one_default. by intros ->. Qed.

Lemma one_default_purge db w : one_default db -> one_default (fst (purgeWorkspace foreign_keys db w)).
Proof.
  intros Hone i j a b. simpl. rewrite !lookup_fmap, !fmap_Some. intros (a' & Ha & ->) (b' & Hb & ->).
  apply map_lookup_filter_Some in Ha as [Ha _], Hb as [Hb _].
  intros Hw Hd1 Hd2. apply (Hone i j a' b'); try done; repeat case_match; simpl in *; done.
Qed.

Lemma one_default_step db c : one_default db -> one_default (lane_step db c).
Proof.
  intros Hone. destruct c as [l|w l|t|now s t n d|now s t|w]; simpl.
  - destruct (createLane _ _ _) eqn:Ee; [|done]. by eapply one_default_create.
  - destruct (setDefaultLane _ _ _) eqn:Ee; [|done]. by eapply one_default_set.
  - destruct (setBranchTip _ _) eqn:Ee; [|done]. apply setBranchTip_lanes in Ee as [Hl _]. by apply (one_default_lanes db).
  - unfold forkLane. destruct (getLane db s); [|done]. destruct (bool_decide _); [done|]. destruct (bool_decide _); [done|]. cbv zeta.
    match goal with |- context [transaction ?f db] => pose proof (transaction_cases f db) as H; destruct (transaction f db) as [db' [u|e]] end; simpl; [|by destruct H as [-> _]].
    destruct (createLane _ _ _) as [db1|e] eqn:Ec; [|done]. simpl in H. apply (one_default_lanes db1); [|by eapply one_default_create].
    by rewrite <- (fork_tips_lanes t now (getBranchTips db1 s) db1), H.
  - unfold mergeLane. destruct (getLane db s), (getLane db t); try done. destruct (bool_decide _); [done|].
    destruct (negb _); [done|]. destruct (negb _); [done|].
    match goal with |- context [transaction ?f db] => pose proof (transaction_cases f db) as H; destruct (transaction f db) as [db' [u|e]] end; simpl; [|by destruct H as [-> _]].
    apply (one_default_lanes db); [|done]. by rewrite <- (merge_tips_lanes t now (getBranchTips db s) 0 db), H.
  - by apply one_default_purge.
Qed.

(** A workspace has at most one default lane.  Whatever calls are made from an empty
    table of lanes, two default lanes of one workspace are the same lane. *)
Theorem default_lane_is_unique db calls i j a b :
  d_lanes db = ∅ ->
  let db' := foldl lane_step db calls in
  d_lanes db' !! i = Some a -> d_lanes db' !! j = Some b -> ln_workspaceId a = ln_workspaceId b ->
  ln_isDefault a = true -> ln_isDefault b = true -> i = j.
Proof.
  intros Hempty. assert (Hone : one_default db) by (intros i' j' a' b'; by rewrite Hempty).
  clear Hempty. revert db Hone i j a b. induction calls as [|c calls IH]; intros db Hone; [exact Hone|].
  apply IH. by apply one_default_step.
Qed.

(** * Reading the tips of a lane *)

Lemma getBranchTips_in db l d t : (d, t) ∈ getBranchTips db l <-> d_tips db !! (l, d) = Some t.
Proof.
  unfold getBranchTips. rewrite list_elem_of_omap. split.
  - intros ([[l' d'] t'] & Hin & Hf). apply elem_of_map_to_list in Hin. cbn in Hf. case_bool_decide; [|done]. by simplify_eq.
  - intros H. exists ((l, d), t). split; [by apply elem_of_map_to_list|]. cbn. by rewrite bool_decide_true.
Qed.

Lemma getBranchTips_nodup db l : NoDup (getBranchTips db l).*1.
Proof.
  unfold getBranchTips. pose proof (NoDup_fst_map_to_list (d_tips db)) as Hnd.
  induction (map_to_list (d_tips db)) as [|[[l' d'] t'] L IH]; [constructor|].
  rewrite fmap_cons in Hnd. apply NoDup_cons in Hnd as [Hx Hnd]. cbn [omap list_omap fst snd]. case_bool_decide; [|by apply IH].
  rewrite fmap_cons. constructor; [|by apply IH].
  intros Hin. apply Hx. apply list_elem_of_fmap_1 in Hin as ([d0 t0] & Hd & Hin). cbn in Hd. subst d0.
  apply list_elem_of_omap in Hin as ([[l1 d1] t1] & Hin & Hf). cbn in Hf. case_bool_decide; [|done]. simplify_eq. cbn.
  by apply (list_elem_of_fmap_2 fst _ _ Hin).
Qed.

(** * Merges *)

(** The target accepts a document: its tip stands where it was first recorded, and the
    document belongs to the lane's workspace. *)
Definition doc_ready (db : lane_db) (target d : string) : Prop :=
  exists tgt l, d_tips db !! (target, d) = Some tgt /\
    tp_headSnapshotVersion tgt = tp_baseSnapshotVersion tgt /\ tp_lastDeltaId tgt = tp_baseDeltaId tgt /\
    d_lanes db !! target = Some l /\ d_documents db !! d = Some (ln_workspaceId l).

Definition merged (tgt t : tip_row) (now : Z) : tip_row :=
  MkTip (tp_headSnapshotVersion t) (tp_lastDeltaId t) (tp_baseSnapshotVersion tgt) (tp_baseDeltaId tgt) now.

Lemma setBranchTip_update db l d h k ob od now tgt :
  d_tips db !! (l, d) = Some tgt ->
  match setBranchTip db (MkBranchTip l d h k ob od now) with
  | Ok db' => db' = set_tips db (<[(l, d) := MkTip h k (tp_baseSnapshotVersion tgt) (tp_baseDeltaId tgt) now]> (d_tips db)) /\
      exists ln, d_lanes db !! l = Some ln /\ d_documents db !! d = Some (ln_workspaceId ln)
  | Err _ => ~ exists ln, d_lanes db !! l = Some ln /\ d_documents db !! d = Some (ln_workspaceId ln)
  end.
Proof.
  intros Ht. unfold setBranchTip, getLane. cbn. destruct (d_lanes db !! l) as [ln|] eqn:El; [|by intros (? & ? & _)].
  destruct (d_documents db !! d) as [w|] eqn:Ed; [|by intros (? & _ & ?)].
  case_bool_decide as Hw; cbn; [|intros (? & ? & ?); by simplify_eq]. rewrite Ht. split; [done|]. exists ln. by subst.
Qed.

Lemma doc_ready_frame db target d d' row :
  d <> d' -> doc_ready (set_tips db (<[(target, d) := row]> (d_tips db))) target d' <-> doc_ready db target d'.
Proof. intros Hne. unfold doc_ready. cbn. by rewrite lookup_insert_ne by congruence. Qed.

(** What a document needs does not depend on the tip of another. *)
Lemma ready_after db target d row (tips : list (string * tip_row)) :
  d ∉ tips.*1 ->
  Forall (fun '(d', _) => doc_ready (set_tips db (<[(target, d) := row]> (d_tips db))) target d') tips <-> Forall (fun '(d', _) => doc_ready db target d') tips.
Proof.
  intros Hd. rewrite !Forall_forall. split; intros Hall [d' t'] Hin; specialize (Hall _ Hin); cbn in *;
    (assert (Hne : d <> d') by (intros ->; apply Hd; by apply (list_elem_of_fmap_2 fst _ _ Hin)));
    destruct (doc_ready_frame db target d d' row Hne) as [H1 H2]; first [exact (H1 Hall)|exact (H2 Hall)].
Qed.

Lemma merge_tips_exact target now tips n db :
  NoDup tips.*1 ->
  match merge_tips target now tips n db with
  | (db', Ok n') =>
      Forall (fun '(d, _) => doc_ready db target d) tips /\
      (forall d t, (d, t) ∈ tips -> exists tgt, d_tips db !! (target, d) = Some tgt /\
         d_tips db' !! (target, d) = Some (merged tgt t now)) /\
      (forall l d, l <> target \/ d ∉ tips.*1 -> d_tips db' !! (l, d) = d_tips db !! (l, d)) /\ n' = n + zlen tips
  | (_, Err _) => ~ Forall (fun '(d, _) => doc_ready db target d) tips
  end.
Proof.
  revert n db. induction tips as [|[d t] tips IH]; intros n db Hnd.
  - simpl. split; [done|]. split; [|split; [done|by rewrite Z.add_0_r]]. intros d t Hin. by apply elem_of_nil in Hin.
  - rewrite fmap_cons in Hnd. apply NoDup_cons in Hnd as [Hd Hnd]. cbn [merge_tips]. unfold getBranchTip.
    destruct (d_tips db !! (target, d)) as [tgt|] eqn:Et.
    2: { intros Hall. apply Forall_cons in Hall as [(tgt & l & H & _) _]. congruence. }
    destruct (_ || _) eqn:Eb.
    { intros Hall. apply Forall_cons in Hall as [(tgt' & l & H & H1 & H2 & _) _].
      assert (tgt' = tgt) as -> by congruence.
      rewrite H1, H2, !Z.eqb_refl in Eb. done. }
    apply orb_false_iff in Eb as [Eb1 Eb2]. apply negb_false_iff, Z.eqb_eq in Eb1, Eb2.
    pose proof (setBranchTip_update db target d (tp_headSnapshotVersion t) (tp_lastDeltaId t) (Some (tp_baseSnapshotVersion tgt))
      (Some (tp_baseDeltaId tgt)) now tgt Et) as Hs.
    destruct (setBranchTip _ _) as [db1|e]; cbn [then_].
    2: { intros Hall. apply Forall_cons in Hall as [(tgt' & l & _ & _ & _ & H) _]. apply Hs. by exists l. }
    destruct Hs as [-> (ln & Hln & Hdoc)]. specialize (IH (n + 1) (set_tips db (<[(target, d):=merged tgt t now]> (d_tips db))) Hnd).
    fold (merged tgt t now). pose proof (ready_after db target d (merged tgt t now) tips Hd) as Hfr.
    destruct (merge_tips target now tips _ _) as [db' [n'|e]].
    + destruct IH as (H1 & H2 & H3 & H4). split; [|split; [|split]].
      * constructor; [|by apply Hfr]. by exists tgt, ln.
      * intros d' t' [[= -> ->]|Hin]%elem_of_cons.
        -- exists tgt. split; [done|]. rewrite H3 by (by right). cbn. by rewrite lookup_insert_eq.
        -- destruct (H2 _ _ Hin) as (tgt' & Ht' & Hm). exists tgt'. split; [|done]. cbn in Ht'.
           rewrite lookup_insert_ne in Ht'; [done|]. intros [= ->]. apply Hd. by apply (list_elem_of_fmap_2 fst _ _ Hin).
      * intros l d' Hor. rewrite H3.
        -- cbn. rewrite lookup_insert_ne; [done|]. intros [= -> ->]. destruct Hor as [?|Hn]; [done|]. apply Hn. by left.
        -- destruct Hor as [?|Hn]; [by left|right]. intros Hin. apply Hn. by right.
      * rewrite H4. unfold zlen. simpl. lia.
    + intros Hall. apply Forall_cons in Hall as [_ Hall]. apply IH. by apply Hfr.
Qed.

(** When a merge goes through. *)
Definition mergeable (db : lane_db) (source target : string) : Prop :=
  (exists s t, d_lanes db !! source = Some s /\ d_lanes db !! target = Some t /\
     ln_workspaceId s = ln_workspaceId t /\ ln_parentLaneId s = Some target) /\
  source <> target /\
  forall d t, d_tips db !! (source, d) = Some t -> doc_ready db target d.

Lemma ready_all db source target :
  Forall (fun '(d, _) => doc_ready db target d) (getBranchTips db source) <->
  forall d t, d_tips db !! (source, d) = Some t -> doc_ready db target d.
Proof.
  rewrite Forall_forall. split.
  - intros H d t Hin%getBranchTips_in. apply (H _ Hin).
  - intros H [d t] Hin%getBranchTips_in. by eapply H.
Qed.

Lemma tip_in_source db source d : d ∈ (getBranchTips db source).*1 <-> is_Some (d_tips db !! (source, d)).
Proof.
  split.
  - intros ([d' t] & -> & Hin)%list_elem_of_fmap_1. apply getBranchTips_in in Hin. by eexists.
  - intros [t Ht]. apply (list_elem_of_fmap_2 fst _ (d, t)). by apply getBranchTips_in.
Qed.

(** A merge fast-forwards every document or leaves the database as it was.  It goes through
    exactly when both lanes are in the same workspace, the target is the recorded parent and the
    tip of every document of the source stands, in the target, where the target's own tip was
    first recorded (which is not the tip at fork time, see below).  Then each of those documents
    has the head of the source in the target, with the target's baseline kept, no other tip and
    no lane changes, and the count returned is the number of documents merged. *)
Lemma mergeLane_exact db now source target :
  match mergeLane db now source target with
  | (db', Ok n) =>
      mergeable db source target /\
      (forall d t, d_tips db !! (source, d) = Some t -> exists tgt, d_tips db !! (target, d) = Some tgt /\
         d_tips db' !! (target, d) = Some (merged tgt t now)) /\
      (forall l d, l <> target \/ d_tips db !! (source, d) = None -> d_tips db' !! (l, d) = d_tips db !! (l, d)) /\
      d_lanes db' = d_lanes db /\ n = zlen (getBranchTips db source)
  | (db', Err _) => db' = db /\ ~ mergeable db source target
  end.
Proof.
  unfold mergeLane, getLane. destruct (d_lanes db !! source) as [s|] eqn:Es.
  2: { split; [done|]. intros [(s & t & H & _) _]. congruence. }
  destruct (d_lanes db !! target) as [t|] eqn:Et.
  2: { split; [done|]. intros [(s' & t & _ & H & _) _]. congruence. }
  case_bool_decide as Hne; [by split; [|intros (_ & ? & _)]|].
  case_bool_decide as Hw; cbn [negb]; [|split; [done|]; intros [(s' & t' & ? & ? & ? & _) _]; congruence].
  case_bool_decide as Hp; cbn [negb]; [|split; [done|]; intros [(s' & t' & ? & ? & ? & ?) _]; congruence].
  pose proof (merge_tips_exact target now (getBranchTips db source) 0 db (getBranchTips_nodup db source)) as Hm.
  pose proof (merge_tips_lanes target now (getBranchTips db source) 0 db) as Hl.
  pose proof (transaction_cases (merge_tips target now (getBranchTips db source) 0) db) as Ht.
  destruct (transaction _ db) as [db' [n|e]]; [rewrite Ht in Hm, Hl|destruct Ht as [-> Ht]].
  - destruct Hm as (H1 & H2 & H3 & H4). split; [|split; [|split; [|split]]]; [..|exact H4].
    + split; [by exists s, t|]. split; [done|]. by apply ready_all.
    + intros d tp Hd%getBranchTips_in. by apply H2.
    + intros l d Hor. apply H3. destruct Hor as [?|Hd]; [by left|right]. rewrite tip_in_source, Hd. by intros [? ?].
    + done.
  - split; [done|]. intros (_ & _ & H). destruct (merge_tips target now _ 0 db) as [db1 [n|e1]]; [done|]. apply Hm. by apply ready_all.
Qed.

(** * A fork followed by a merge *)

Definition doc_in (db : lane_db) (l d : string) : Prop :=
  exists ln, d_lanes db !! l = Some ln /\ d_documents db !! d = Some (ln_workspaceId ln).

Lemma setBranchTip_ok db t db' :
  setBranchTip db t = Ok db' ->
  (exists row, d_tips db' = <[(bt_laneId t, bt_documentId t) := row]> (d_tips db)) /\ doc_in db (bt_laneId t) (bt_documentId t).
Proof.
  unfold setBranchTip, getLane. destruct (d_lanes db !! _) as [ln|] eqn:El; [|done].
  destruct (d_documents db !! _) as [w|] eqn:Ed; [|done]. case_bool_decide as Hw; [|done]. intros [= <-].
  split; [by eexists|]. exists ln. by subst.
Qed.

Lemma fork_tips_spec target now tips db db' u :
  fork_tips target now tips db = (db', Ok u) ->
  (forall d t, (d, t) ∈ tips -> is_Some (d_tips db' !! (target, d)) /\ doc_in db target d) /\
  (forall l d, l <> target \/ d ∉ tips.*1 -> d_tips db' !! (l, d) = d_tips db !! (l, d)) /\
  d_documents db' = d_documents db.
Proof.
  revert db. induction tips as [|[d t] tips IH]; intros db; cbn [fork_tips].
  - intros [= -> _]. split; [|done]. intros d t Hin. by apply elem_of_nil in Hin.
  - destruct (setBranchTip db _) as [db1|e] eqn:Hset; [|done]. simpl. intros H. destruct (setBranchTip_lanes _ _ _ Hset) as (Hl & Hdocs & _).
    destruct (setBranchTip_ok _ _ _ Hset) as [[row Hrow] Hin]. cbn in Hrow, Hin. destruct (IH _ H) as (H1 & H2 & H3).
    split; [|split].
    + intros d' t' [[= -> ->]|Hin']%elem_of_cons.
      * split; [|done]. destruct (decide (d ∈ tips.*1)) as [Hd|Hd].
        -- apply list_elem_of_fmap_1 in Hd as ([d0 t0] & -> & Hd). by destruct (H1 _ _ Hd).
        -- rewrite H2 by (by right). rewrite Hrow, lookup_insert_eq. by eexists.
      * destruct (H1 _ _ Hin') as [? (ln & ? & ?)]. split; [done|]. exists ln. by rewrite <- Hl, <- Hdocs.
    + intros l d' Hor. rewrite H2.
      * rewrite Hrow, lookup_insert_ne; [done|]. intros [= -> ->]. destruct Hor as [?|Hn]; [done|]. apply Hn. by left.
      * destruct Hor as [?|Hn]; [by left|right]. intros Hin'. apply Hn. by right.
    + congruence.
Qed.

Lemma createLane_fork db l db' :
  ln_isDefault l = false -> createLane foreign_keys db l = Ok db' ->
  d_tips db' = d_tips db /\ d_documents db' = d_documents db /\
  exists l', d_lanes db' = <[ln_id l := l']> (d_lanes db) /\ ln_workspaceId l' = ln_workspaceId l /\
    ln_parentLaneId l' = truthy (ln_parentLaneId l).
Proof.
  intros Hd. unfold createLane, insert_lane. rewrite Hd. destruct (bool_decide (is_Some _)); [done|].
  destruct (_ && _); [done|]. destruct (_ && _); [done|]. intros [= <-]. split; [done|]. split; [done|]. by eexists.
Qed.

(** A merge straight after the fork is refused when the parent had moved before the fork.
    The comment of [mergeLane] promises that the target must still equal the tip recorded at
    fork time; the code compares the target's tip with the target's own first recorded tip.
    So with nothing changed in either lane since the fork, the merge goes through exactly when
    no tip of the parent had ever been updated. *)
Theorem untouched_parent_may_refuse_the_merge db now now' parent child name description db' new :
  forkLane foreign_keys db now parent child name description = (db', Ok new) ->
  parent <> "" -> (forall d, d_tips db !! (child, d) = None) ->
  is_ok (snd (mergeLane db' now' child parent)) = true <->
  forall d t, d_tips db !! (parent, d) = Some t ->
    tp_headSnapshotVersion t = tp_baseSnapshotVersion t /\ tp_lastDeltaId t = tp_baseDeltaId t.
Proof.
  intros Hf Hp Hno. unfold forkLane, getLane in Hf. destruct (d_lanes db !! parent) as [lp|] eqn:Elp; [|done].
  case_bool_decide as Hne; [done|]. case_bool_decide as Hnew; [done|]. cbv zeta in Hf.
  match type of Hf with context [transaction ?f db] => pose proof (transaction_cases f db) as Hc; destruct (transaction f db) as [v0 [u|e]] end; [|done].
  injection Hf as <- <-. destruct (createLane _ _ _) as [v|e] eqn:Hv; [|done]. simpl in Hc.
  apply createLane_fork in Hv; [|done]. destruct Hv as (Ht & Hdoc & lc & Hl & Hw & Hpar). cbn in Hl, Hw, Hpar.
  assert (Hpar' : ln_parentLaneId lc = Some parent) by (rewrite Hpar; by destruct parent).
  pose proof (fork_tips_lanes child now (getBranchTips v parent) v) as Hl0. rewrite Hc in Hl0. simpl in Hl0. destruct (fork_tips_spec _ _ _ _ _ _ Hc) as (H1 & H2 & H3).
  assert (Hlc : d_lanes v0 !! child = Some lc) by (by rewrite Hl0, Hl, lookup_insert_eq).
  assert (Hlp : d_lanes v0 !! parent = Some lp) by (by rewrite Hl0, Hl, lookup_insert_ne).
  assert (Htp : forall d, d_tips v0 !! (parent, d) = d_tips db !! (parent, d)).
  { intros d. rewrite H2 by (left; congruence). by rewrite Ht. }
  assert (Hin : forall d, is_Some (d_tips v0 !! (child, d)) <-> is_Some (d_tips db !! (parent, d))).
  { intros d. rewrite <- Ht, <- (tip_in_source v parent). split.
    - intros Hs. destruct (decide (d ∈ (getBranchTips v parent).*1)) as [|Hd]; [done|].
      rewrite H2, Ht, Hno in Hs by (by right). by destruct Hs as [? ?].
    - intros ([d0 t0] & -> & Hd)%list_elem_of_fmap_1. by destruct (H1 _ _ Hd). }
  pose proof (mergeLane_exact v0 now' child parent) as Hm. transitivity (mergeable v0 child parent).
  { destruct (mergeLane v0 now' child parent) as [db2 [n|e]]; cbn; [by destruct Hm as [? _]|by destruct Hm as [_ ?]]. }
  split.
  - intros (_ & _ & Hr) d t Hd. destruct (proj2 (Hin d)) as [t' Ht']; [by eexists|].
    destruct (Hr d t' Ht') as (tgt & _ & Htgt & ? & ? & _). rewrite Htp, Hd in Htgt. by simplify_eq.
  - intros Hall. split; [|split].
    + exists lc, lp. split_and!; try done; congruence.
    + congruence.
    + intros d t Hd. destruct (proj1 (Hin d)) as [t' Ht']; [by eexists|]. destruct (Hall d t' Ht') as [Hh Hk].
      exists t', lp. split_and!; try done; [by rewrite Htp|].
      assert (Hmem : (d, t') ∈ getBranchTips v parent) by (apply getBranchTips_in; by rewrite Ht).
      destruct (H1 _ _ Hmem) as [_ (ln & Hln & Hdn)]. rewrite Hl, lookup_insert_eq in Hln. injection Hln as <-.
      rewrite H3, Hdn. f_equal. congruence.
Qed.
End LaneProofs.

(** * Concrete runs *)

Definition one_document : lane_db := MkLaneDb {["w"]} {["doc" := "w"]} ∅ ∅.

Definition set_tip (lane : string) (version : Z) : lane_call := LSetTip (MkBranchTip lane "doc" version version None None 0).

Definition run_lanes (calls : list lane_call) : lane_db := foldl (lane_step true) one_document calls.

Definition main_lane : lane_call := LCreate (MkLane "main" "w" "Main" None None true 0 0).

Definition advanced : lane_db := run_lanes [main_lane; set_tip "main" 1; set_tip "main" 2].

Lemma untouched_parent_may_refuse_the_merge_witness :
  exists db' new, forkLane true advanced 5 "main" "child" "Child" None = (db', Ok new) /\
    (is_ok (snd (mergeLane db' 6 "child" "main")) = true <->
     forall d t, d_tips advanced !! ("main", d) = Some t ->
       tp_headSnapshotVersion t = tp_baseSnapshotVersion t /\ tp_lastDeltaId t = tp_baseDeltaId t) /\
    is_ok (snd (mergeLane db' 6 "child" "main")) = false.
Proof.
  eexists _, _. split; [by vm_compute|]. split; [|by vm_compute].
  eapply (untouched_parent_may_refuse_the_merge true advanced 5 6 "main" "child" "Child" None).
  - by vm_compute.
  - done.
  - intros d. apply eq_None_not_Some. intros [t Ht]. apply elem_of_map_to_list in Ht. vm_compute in Ht.
    apply list_elem_of_In in Ht. destruct Ht as [Ht|[]]. discriminate.
Defined.

Lemma default_lane_is_unique_witness :
  let db' := run_lanes [main_lane; LCreate (MkLane "b" "w" "B" None None true 0 0)] in
  exists b, d_lanes db' !! "b" = Some b /\ ln_isDefault b = true /\ "b" = "b".
Proof.
  intros db'. eexists. split; [by vm_compute|]. split; [done|].
  eapply (default_lane_is_unique true one_document [main_lane; LCreate (MkLane "b" "w" "B" None None true 0 0)] "b" "b");
    by vm_compute.
Defined.

(** A merge that throws at its second document has written its first, and the transaction takes
    it back. *)
Example a_refused_merge_is_rolled_back :
  let db := foldl (lane_step true) (MkLaneDb {["w"]} {["a" := "w"; "b" := "w"]} ∅ ∅)
    [main_lane; LSetTip (MkBranchTip "main" "a" 1 1 None None 0); LSetTip (MkBranchTip "main" "b" 1 1 None None 0);
     LFork 5 "main" "child" "Child" None; LSetTip (MkBranchTip "child" "a" 3 3 None None 0); LSetTip (MkBranchTip "main" "b" 2 2 None None 0)] in
  let tips := getBranchTips db "child" in
  (exists db', merge_tips "main" 6 tips 0 db = (db', Err (TargetChanged "b")) /\ (tp_headSnapshotVersion <$> getBranchTip db' "main" "a") = Some 3) /\
  snd (mergeLane db 6 "child" "main") = Err (TargetChanged "b") /\ (tp_headSnapshotVersion <$> getBranchTip (fst (mergeLane db 6 "child" "main")) "main" "a") = Some 1.
Proof. vm_compute. split; [by eexists|by split]. Qed.

(** The lost update the comparison lets through: the parent is moved back to its first tip
    after the fork, and the merge overwrites that change. *)
Example merge_overwrites_a_changed_parent :
  let db := run_lanes [main_lane; set_tip "main" 1; set_tip "main" 2; LFork 5 "main" "child" "Child" None;
                       set_tip "child" 3; set_tip "main" 1] in
  let merged := run_lanes [main_lane; set_tip "main" 1; set_tip "main" 2; LFork 5 "main" "child" "Child" None;
                           set_tip "child" 3; set_tip "main" 1; LMerge 6 "child" "main"] in
  (tp_headSnapshotVersion <$> getBranchTip db "main" "doc") = Some 1 /\
  (tp_baseSnapshotVersion <$> getBranchTip db "child" "doc") = Some 2 /\
  (tp_headSnapshotVersion <$> getBranchTip merged "main" "doc") = Some 3.
Proof. by vm_compute. Qed.
