(* ===== verification/JsValue.v ===== *)
(** JavaScript values as they cross the storage and synchronisation boundaries: JSON values in
    which a property may also be [undefined].  Also the texts made of them: [JSON.stringify],
    the key-sorted serialization of protocol/src/domain-sync.ts and its 32-bit hash.

    Modelling choices: numbers are integers; characters are the code units below 256; an
    object is the association list of its own properties in insertion order. *)

From Stdlib Require Import Sorting.Sorted.
From stdpp Require Import sorting pretty.
From S2P Require Import Prelude.

Inductive jsv : Type :=
| VUndef
| VNull
| VBool (b : bool)
| VNum (n : Z)
| VStr (s : string)
| VArr (items : list jsv)
| VObj (fields : list (string * jsv)).

(** [value[key]], for a key that is no built-in property. *)
Definition prop (v : jsv) (key : string) : jsv :=
  match v with VObj fs => default VUndef (assoc_get fs key) | _ => VUndef end.

(** [Boolean(value)]. *)
Definition js_truthy (v : jsv) : bool :=
  match v with
  | VUndef | VNull => false
  | VBool b => b
  | VNum n => negb (n =? 0)%Z
  | VStr s => negb (bool_decide (s = EmptyString))
  | VArr _ | VObj _ => true
  end.

(** A value [assertJsonValue] accepts: no [undefined] at any depth. *)
Fixpoint json_safe (v : jsv) : bool :=
  match v with
  | VUndef => false
  | VNull | VBool _ | VNum _ | VStr _ => true
  | VArr items => forallb json_safe items
  | VObj fs => forallb (fun kv => json_safe (snd kv)) fs
  end.

(** * JSON texts *)

Definition hex_digit (n : N) : Ascii.ascii := Ascii.ascii_of_N (if (n <? 10)%N then 48 + n else 87 + n)%N.

(** The text of one code unit inside a JSON string. *)
Definition quote_char (c : Ascii.ascii) : string :=
  let n := Ascii.N_of_ascii c in
  let esc (d : N) := String (Ascii.ascii_of_N 92) (String (Ascii.ascii_of_N d) EmptyString) in
  if (n =? 34)%N || (n =? 92)%N then esc n
  else if (n =? 8)%N then esc 98%N
  else if (n =? 9)%N then esc 116%N
  else if (n =? 10)%N then esc 110%N
  else if (n =? 12)%N then esc 102%N
  else if (n =? 13)%N then esc 114%N
  else if (n <? 32)%N then "\u00" +:+ String (hex_digit (n / 16)) (String (hex_digit (n mod 16)) EmptyString)
  else String c EmptyString.

Definition dquote : string := String (Ascii.ascii_of_N 34) EmptyString.

Definition quote (s : string) : string :=
  dquote +:+ String.concat EmptyString (map quote_char (String.list_ascii_of_string s)) +:+ dquote.

(** [JSON.stringify], without [undefined] at the top. *)
Fixpoint stringify (v : jsv) : string :=
  match v with
  | VUndef | VNull => "null"
  | VBool b => if b then "true" else "false"
  | VNum n => pretty n
  | VStr s => quote s
  | VArr items => "[" +:+ String.concat "," (map stringify items) +:+ "]"
  | VObj fs =>
      let texts := map (fun kv => let text := stringify (snd kv) in
                                match snd kv with VUndef => [] | _ => [quote (fst kv) +:+ ":" +:+ text] end) fs in
      "{" +:+ String.concat "," (List.concat texts) +:+ "}"
  end.

(** Length of a text in UTF-8 bytes. *)
Definition utf8_length (s : string) : Z :=
  foldr (fun c n => (if (Ascii.N_of_ascii c <? 128)%N then 1 else 2) + n)%Z 0%Z (String.list_ascii_of_string s).

(** * The key-sorted serialization and its hash *)

Definition compare_keys (a b : string * string) : Z :=
  match String.compare (fst a) (fst b) with Lt => (-1)%Z | Eq => 0%Z | Gt => 1%Z end.

(** [Object.keys(record).sort().map(...)] from the texts of the properties. *)
Definition stable_record (texts : list (string * string)) : string :=
  "{" +:+ String.concat "," (map (fun kt => quote (fst kt) +:+ ":" +:+ snd kt) (js_sort compare_keys texts)) +:+ "}".

Fixpoint stableSerialize (v : jsv) : string :=
  match v with
  | VUndef => "undefined"
  | VNull => "null"
  | VBool b => if b then "true" else "false"
  | VNum n => pretty n
  | VStr s => quote s
  | VArr items => "[" +:+ String.concat "," (map (fun v => let text := stableSerialize v in match v with VUndef => EmptyString | _ => text end) items) +:+ "]"
  | VObj fs => stable_record (map (fun kv => (fst kv, stableSerialize (snd kv))) fs)
  end.

Definition to_int32 (z : Z) : Z := ((z + 2 ^ 31) mod 2 ^ 32 - 2 ^ 31)%Z.

(** One round of the FNV-1a hash, on 32-bit signed integers as the operators make them. *)
Definition fnv_round (hash : Z) (c : Ascii.ascii) : Z :=
  to_int32 (to_int32 (Z.lxor (to_int32 hash) (Z.of_N (Ascii.N_of_ascii c))) * 16777619).

(** [(hash >>> 0).toString(16).padStart(8, '0')]. *)
Definition hex8 (hash : Z) : string :=
  let u := Z.to_N (hash mod 2 ^ 32) in
  String.string_of_list_ascii (map (fun i => hex_digit ((u / 16 ^ i) mod 16)) [7; 6; 5; 4; 3; 2; 1; 0])%N.

Definition fnv_text (s : string) : string := hex8 (foldl fnv_round 2166136261%Z (String.list_ascii_of_string s)).

(** * Sorting *)

(** A strictly sorted list is what [sort] makes of any permutation of it. *)
Section SortUnique.
Context {A : Type} (key : A -> Z).
Local Abbreviation cmp := (fun a b => (key a - key b)%Z).

Lemma sort_insert_sorted x l :
  StronglySorted (fun a b => (key a <= key b)%Z) l -> StronglySorted (fun a b => (key a <= key b)%Z) (sort_insert cmp x l).
Proof.
  induction 1 as [|y l Hs IH Hall]; simpl; [by repeat constructor|]. destruct (_ <=? _)%Z eqn:E; bools.
  - constructor; [by constructor|]. constructor; [lia|]. eapply Forall_impl; [exact Hall|]. simpl. lia.
  - constructor; [done|]. rewrite sort_insert_perm. constructor; [lia|done].
Qed.

Lemma js_sort_sorted l : StronglySorted (fun a b => (key a <= key b)%Z) (js_sort cmp l).
Proof. induction l as [|x l IH]; simpl; [constructor|]. by apply sort_insert_sorted. Qed.

Lemma js_sort_unique l k :
  StronglySorted (fun a b => (key a < key b)%Z) l -> k ≡ₚ l -> js_sort cmp k = l.
Proof.
  intros Hl Hp. assert (Hk : js_sort cmp k ≡ₚ l) by (by rewrite js_sort_perm).
  pose proof (js_sort_sorted k) as Hs. revert Hs Hk. generalize (js_sort cmp k). clear k Hp.
  induction Hl as [|x l Hsl IH Hall]; intros k Hs Hk; [by apply Permutation_nil_r in Hk|].
  destruct k as [|y k]; [by apply Permutation_nil_cons in Hk|]. inversion Hs as [|? ? Hs' Hall']; subst.
  assert (x = y) as ->.
  { assert (Hx : x ∈ y :: k) by (rewrite Hk; by left). assert (Hy : y ∈ x :: l) by (rewrite <- Hk; by left).
    apply elem_of_cons in Hx as [?|Hx]; [done|]. apply elem_of_cons in Hy as [?|Hy]; [done|].
    rewrite Forall_forall in Hall, Hall'. specialize (Hall _ Hy). specialize (Hall' _ Hx). simpl in *. lia. }
  f_equal. apply IH; [done|]. by apply Permutation_cons_inv in Hk.
Qed.
End SortUnique.
