(* ===== verification/JsonText.v ===== *)
(** [JSON.parse], and its relation to [JSON.stringify] (of [JsValue]): the files of the storage
    layer hold JSON texts, one per line.

    Modelling choices: a string stands for its UTF-8 encoding, so a text is the bytes of a file
    (both functions leave the bytes of a character above 127 as they are; a lone surrogate,
    which no encoding has, is decoded to the replacement character); numbers are integers: a
    number with a fraction or an exponent is not read. *)

From Stdlib Require Import Ascii.
From stdpp Require Import pretty.
From S2P Require Import Prelude JsValue.

Abbreviation text := (list ascii).

Definition chars (s : string) : text := String.list_ascii_of_string s.
Definition of_chars (t : text) : string := String.string_of_list_ascii t.

Definition code (c : ascii) : N := N_of_ascii c.
Definition chr (n : N) : ascii := ascii_of_N n.

Declare Scope code_scope.
Delimit Scope code_scope with ch.
Infix "=c" := Ascii.eqb (at level 70) : code_scope.

(** * Tokens *)

Definition is_ws (c : ascii) : bool := ((code c =? 32) || (code c =? 9) || (code c =? 10) || (code c =? 13))%N.

Fixpoint skip_ws (t : text) : text :=
  match t with c :: t' => if is_ws c then skip_ws t' else t | [] => [] end.

Definition is_digit (c : ascii) : bool := ((48 <=? code c) && (code c <=? 57))%N.

Fixpoint take_digits (acc : N) (t : text) : N * text :=
  match t with
  | c :: t' => if is_digit c then take_digits (10 * acc + (code c - 48))%N t' else (acc, t)
  | [] => (acc, [])
  end.

(** What may not follow an integer: a fraction or an exponent. *)
Definition after_integer (t : text) : bool :=
  match t with c :: _ => negb ((c =c ".") || (c =c "e") || (c =c "E"))%ch%char | [] => true end.

(** Digits without a leading zero. *)
Definition parse_nat (t : text) : option (N * text) :=
  match t with
  | c :: t' =>
      if negb (is_digit c) then None
      else
        let '(n, rest) := if (code c =? 48)%N then (0%N, t') else take_digits 0 t in
        if match rest with d :: _ => is_digit d | [] => false end then None
        else if after_integer rest then Some (n, rest) else None
  | [] => None
  end.

Definition parse_number (t : text) : option (Z * text) :=
  match t with
  | c :: t' =>
      if (c =c "-")%ch%char then (match parse_nat t' with Some (n, rest) => Some ((- Z.of_N n)%Z, rest) | None => None end)
      else match parse_nat t with Some (n, rest) => Some (Z.of_N n, rest) | None => None end
  | [] => None
  end.

Definition hex_value (c : ascii) : option N :=
  let n := code c in
  if ((48 <=? n) && (n <=? 57))%N then Some (n - 48)%N
  else if ((97 <=? n) && (n <=? 102))%N then Some (n - 87)%N
  else if ((65 <=? n) && (n <=? 70))%N then Some (n - 55)%N
  else None.

Definition parse_hex4 (t : text) : option (N * text) :=
  match t with
  | a :: b :: c :: d :: rest =>
      match hex_value a, hex_value b, hex_value c, hex_value d with
      | Some a, Some b, Some c, Some d => Some (((a * 16 + b) * 16 + c) * 16 + d, rest)%N
      | _, _, _, _ => None
      end
  | _ => None
  end.

Definition utf8 (n : N) : text :=
  (if n <? 128 then [chr n]
   else if n <? 2048 then [chr (192 + n / 64); chr (128 + n mod 64)]
   else if n <? 65536 then [chr (224 + n / 4096); chr (128 + n / 64 mod 64); chr (128 + n mod 64)]
   else [chr (240 + n / 262144); chr (128 + n / 4096 mod 64); chr (128 + n / 64 mod 64); chr (128 + n mod 64)])%N.

(** The character of one code unit that is not the second half of a pair; a surrogate alone
    is encoded as the replacement character. *)
Definition unit_text (n : N) : text := utf8 (if (55296 <=? n) && (n <? 57344) then 65533 else n)%N.

(** The second half of a surrogate pair, if one is escaped next. *)
Definition low_surrogate (t : text) : option (N * text) :=
  match t with
  | a :: b :: t' =>
      if ((a =c "\") && (b =c "u"))%ch%char then
        match parse_hex4 t' with
        | Some (n, rest) => if ((56320 <=? n) && (n <? 57344))%N then Some (n, rest) else None
        | None => None
        end
      else None
  | _ => None
  end.

Definition simple_escape (e : ascii) : option N :=
  let n := code e in
  if ((n =? 34) || (n =? 92) || (n =? 47))%N then Some n
  else if (n =? 98)%N then Some 8%N
  else if (n =? 102)%N then Some 12%N
  else if (n =? 110)%N then Some 10%N
  else if (n =? 114)%N then Some 13%N
  else if (n =? 116)%N then Some 9%N
  else None.

(** The next character of a string, [None] at its closing quote, and what follows. *)
Definition read_char (t : text) : option (option text * text) :=
  match t with
  | [] => None
  | c :: t =>
      if (code c =? 34)%N then Some (None, t)
      else if (code c <? 32)%N then None
      else if (code c =? 92)%N then
        match t with
        | [] => None
        | e :: t =>
            if (code e =? 117)%N then
              match parse_hex4 t with
              | None => None
              | Some (n, rest) =>
                  match (if ((55296 <=? n) && (n <? 56320))%N then low_surrogate rest else None) with
                  | Some (m, rest) => Some (Some (utf8 (65536 + (n - 55296) * 1024 + (m - 56320))%N), rest)
                  | None => Some (Some (unit_text n), rest)
                  end
              end
            else match simple_escape e with Some n => Some (Some [chr n], t) | None => None end
        end
      else Some (Some [c], t)
  end.

(** The text of a string after its opening quote, and what follows the closing one. *)
Fixpoint parse_chars (fuel : nat) (t : text) : option (text * text) :=
  match fuel with
  | O => None
  | S fuel =>
      match read_char t with
      | None => None
      | Some (None, rest) => Some ([], rest)
      | Some (Some s, rest) => match parse_chars fuel rest with Some (s', rest) => Some (s ++ s', rest) | None => None end
      end
  end.

Fixpoint expect (word t : text) : option text :=
  match word, t with
  | [], _ => Some t
  | w :: word, c :: t => if (w =c c)%ch then expect word t else None
  | _ :: _, [] => None
  end.

(** * Values *)

Definition head_is (n : N) (t : text) : bool := match t with c :: _ => (code c =? n)%N | [] => false end.

Fixpoint parse_value (fuel : nat) (t : text) : option (jsv * text) :=
  match fuel, skip_ws t with
  | S fuel, c :: t =>
      if (code c =? 34)%N then match parse_chars fuel t with Some (s, rest) => Some (VStr (of_chars s), rest) | None => None end
      else if (code c =? 91)%N then
        if head_is 93 (skip_ws t) then Some (VArr [], tail (skip_ws t))
        else match parse_items fuel t with Some (items, rest) => Some (VArr items, rest) | None => None end
      else if (code c =? 123)%N then
        if head_is 125 (skip_ws t) then Some (VObj [], tail (skip_ws t))
        else match parse_fields fuel [] t with Some (fs, rest) => Some (VObj fs, rest) | None => None end
      else if (code c =? 116)%N then match expect (chars "rue") t with Some rest => Some (VBool true, rest) | None => None end
      else if (code c =? 102)%N then match expect (chars "alse") t with Some rest => Some (VBool false, rest) | None => None end
      else if (code c =? 110)%N then match expect (chars "ull") t with Some rest => Some (VNull, rest) | None => None end
      else match parse_number (c :: t) with Some (n, rest) => Some (VNum n, rest) | None => None end
  | _, _ => None
  end
(** At least one item, up to the closing bracket. *)
with parse_items (fuel : nat) (t : text) : option (list jsv * text) :=
  match fuel with
  | O => None
  | S fuel =>
      match parse_value fuel t with
      | None => None
      | Some (v, rest) =>
          match skip_ws rest with
          | c :: rest =>
              if (code c =? 44)%N then match parse_items fuel rest with Some (vs, rest) => Some (v :: vs, rest) | None => None end
              else if (code c =? 93)%N then Some ([v], rest)
              else None
          | [] => None
          end
      end
  end
(** At least one property, up to the closing brace; a repeated name keeps its place and
    takes the last value. *)
with parse_fields (fuel : nat) (fs : list (string * jsv)) (t : text) : option (list (string * jsv) * text) :=
  match fuel, skip_ws t with
  | S fuel, q :: t =>
      if negb (code q =? 34)%N then None
      else
        match parse_chars fuel t with
        | None => None
        | Some (key, rest) =>
            if negb (head_is 58 (skip_ws rest)) then None
            else
              match parse_value fuel (tail (skip_ws rest)) with
              | None => None
              | Some (v, rest) =>
                  match skip_ws rest with
                  | c :: rest =>
                      if (code c =? 44)%N then parse_fields fuel (assoc_set fs (of_chars key) v) rest
                      else if (code c =? 125)%N then Some (assoc_set fs (of_chars key) v, rest)
                      else None
                  | [] => None
                  end
              end
        end
  | _, _ => None
  end.

(** [JSON.parse]; [None] is a [SyntaxError].  A level of nesting is two calls deep and has two
    brackets, an item of a list one call and a separator: the length of the text bounds the
    depth of the recursion. *)
Definition JSON_parse (t : text) : option jsv :=
  match parse_value (S (length t)) t with
  | Some (v, rest) => match skip_ws rest with [] => Some v | _ :: _ => None end
  | None => None
  end.

(** [JSON.stringify] as a text. *)
Definition JSON_text (v : jsv) : text := chars (stringify v).

(** Values that JSON expresses exactly: an object has each name once, numbers are written
    without an exponent, nothing is undefined. *)
Fixpoint plain (v : jsv) : Prop :=
  match v with
  | VUndef => False
  | VNull | VBool _ | VStr _ => True
  | VNum n => (Z.abs n < 10 ^ 21)%Z
  | VArr items => foldr (fun v P => plain v /\ P) True items
  | VObj fs => NoDup (fs.*1) /\ foldr (fun kv P => plain (snd kv) /\ P) True fs
  end.

(** Concrete texts, written with single quotes. *)
Definition quoted (s : string) : text := map (fun c => if (code c =? 39)%N then chr 34 else c) (chars s).

Example parse_examples :
  JSON_parse (quoted " { 'a' : [1, -20,null ,true], 'b\n\u00e9':{}, 'a':0 } ") =
    Some (VObj [("a", VNum 0); (of_chars [chr 98; chr 10; chr 195; chr 169], VObj [])]) /\
  JSON_parse (quoted "'\ud83d\ude00\ud83d'") = Some (VStr (of_chars (map chr [240; 159; 152; 128; 239; 191; 189]%N))) /\
  map (fun s => JSON_parse (quoted s)) ["[1,]"; "01"; "{'a':1"; "'a"; "[1] 2"; "{a:1}"; "tru"; "-"] = replicate 8 None.
Proof. vm_compute. auto. Qed.
