(* ===== verification/JsonTextProofs.v ===== *)
(** [JSON.parse] and [JSON.stringify] on the texts of [JsonText]: the parser is local (what it
    read of a text it reads of every extension), it inverts [JSON.stringify], and it refuses
    every proper prefix of the text of an object, which is what a torn write leaves. *)

From Stdlib Require Import Ascii.
From stdpp Require Import pretty.
From S2P Require Import Prelude JsValue JsonText.

(** * The parser is local *)

Lemma skip_ws_app t u : skip_ws t <> [] -> skip_ws (t ++ u) = skip_ws t ++ u.
Proof. induction t as [|c t IH]; simpl; [done|]. destruct (is_ws c); auto. Qed.

Lemma head_is_app n t u : t <> [] -> head_is n (t ++ u) = head_is n t.
Proof. by destruct t. Qed.

Lemma tail_app (t u : text) : t <> [] -> tail (t ++ u) = tail t ++ u.
Proof. by destruct t. Qed.

Lemma take_digits_app acc t u n r : take_digits acc t = (n, r) -> r <> [] -> take_digits acc (t ++ u) = (n, r ++ u).
Proof.
  revert acc. induction t as [|c t IH]; intros acc; simpl; [by intros [= <- <-]|].
  destruct (is_digit c); [apply IH|by intros [= <- <-]].
Qed.

Lemma parse_nat_app t n r u : parse_nat t = Some (n, r) -> r <> [] -> parse_nat (t ++ u) = Some (n, r ++ u).
Proof.
  destruct t as [|c t]; [done|]. unfold parse_nat. cbn [app]. destruct (is_digit c) eqn:Hd; cbn [negb]; [|done].
  destruct (code c =? 48)%N eqn:H0.
  - intros H Hr. destruct t as [|d t]; simpl in *; [by simplify_eq|]. repeat case_res; done.
  - destruct (take_digits 0 (c :: t)) as [m r'] eqn:Ht. intros H Hr.
    assert (r' = r) as -> by (repeat case_res; done).
    change (c :: t ++ u) with ((c :: t) ++ u). rewrite (take_digits_app 0 (c :: t) u m r Ht Hr). destruct r as [|d r]; [done|]. simpl in *. repeat case_res; done.
Qed.

Lemma parse_number_app t n r u : parse_number t = Some (n, r) -> r <> [] -> parse_number (t ++ u) = Some (n, r ++ u).
Proof.
  destruct t as [|c t]; [done|]. unfold parse_number. cbn [app]. intros H Hr. destruct (c =c "-")%ch%char.
  - destruct (parse_nat t) as [[m r']|] eqn:E; simplify_eq. by rewrite (parse_nat_app t m r u E Hr).
  - destruct (parse_nat (c :: t)) as [[m r']|] eqn:E; simplify_eq. change (c :: t ++ u) with ((c :: t) ++ u).
    by rewrite (parse_nat_app _ m r u E Hr).
Qed.

Lemma parse_hex4_app t n r u : parse_hex4 t = Some (n, r) -> parse_hex4 (t ++ u) = Some (n, r ++ u).
Proof.
  destruct t as [|a [|b [|c [|d t]]]]; try done. cbn. repeat (destruct (hex_value _); [|done]). by intros [= <- <-].
Qed.

Lemma expect_app word t r u : expect word t = Some r -> expect word (t ++ u) = Some (r ++ u).
Proof.
  revert t. induction word as [|w word IH]; intros t; [by intros [= <-]|]. destruct t as [|c t]; [done|]. simpl.
  destruct (w =c c)%ch; [apply IH|done].
Qed.

Lemma low_surrogate_some_app t n r u : low_surrogate t = Some (n, r) -> low_surrogate (t ++ u) = Some (n, r ++ u).
Proof.
  destruct t as [|a [|b t]]; try done. simpl. destruct (_ && _); [|done]. destruct (parse_hex4 t) as [[m k]|] eqn:E; [|done].
  rewrite (parse_hex4_app t m k u E). destruct (_ && _); [|done]. by intros [= <- <-].
Qed.

(** A pair can only be completed by an extension where the string is not finished yet. *)
Lemma low_surrogate_app t u :
  low_surrogate t = None -> low_surrogate (t ++ u) = None \/ read_char t = None.
Proof.
  destruct t as [|a [|b t]]; [by right| |].
  - simpl. destruct u as [|x u]; [by left|]. simpl. destruct (a =c "\")%ch%char eqn:Ha; [|by left]. apply Ascii.eqb_eq in Ha as ->. by right.
  - simpl. destruct (a =c "\")%ch%char eqn:Ha; [|by left]. destruct (b =c "u")%ch%char eqn:Hb; [|by left]. simpl.
    apply Ascii.eqb_eq in Ha as ->. apply Ascii.eqb_eq in Hb as ->.
    destruct (parse_hex4 t) as [[n rest]|] eqn:E; [|by right]. rewrite (parse_hex4_app t n rest u E).
    destruct (_ && _); [done|by left].
Qed.

Lemma read_char_app t o r u :
  read_char t = Some (o, r) -> (o <> None -> read_char r <> None) -> read_char (t ++ u) = Some (o, r ++ u).
Proof.
  destruct t as [|c t]; [done|]. simpl. destruct (code c =? 34)%N; [by intros [= <- <-]|]. destruct (code c <? 32)%N; [done|].
  destruct (code c =? 92)%N; [|by intros [= <- <-]]. destruct t as [|e t]; [done|]. cbn [app]. destruct (code e =? 117)%N.
  - destruct (parse_hex4 t) as [[n rest]|] eqn:E; [|done]. rewrite (parse_hex4_app t n rest u E).
    destruct (_ && _)%N; [|by intros [= <- <-]]. destruct (low_surrogate rest) as [[m rest']|] eqn:El.
    + rewrite (low_surrogate_some_app rest m rest' u El). by intros [= <- <-].
    + intros [= <- <-] Hr. destruct (low_surrogate_app rest u El) as [->|H]; [done|]. by destruct (Hr ltac:(done)).
  - destruct (simple_escape e) as [n|]; [by intros [= <- <-]|done].
Qed.

Lemma parse_chars_app fuel : forall fuel' t s r u,
  fuel <= fuel' -> parse_chars fuel t = Some (s, r) -> parse_chars fuel' (t ++ u) = Some (s, r ++ u).
Proof.
  induction fuel as [|fuel IH]; intros [|fuel'] t s r u Hf; try done; [lia|]. simpl.
  destruct (read_char t) as [[[p|] rest]|] eqn:E; [|intros [= <- <-]; by rewrite (read_char_app t None rest u E)|done].
  intros H. destruct (parse_chars fuel rest) as [[s' r']|] eqn:Ep; simplify_eq.
  rewrite (read_char_app t (Some p) rest u E).
  - by rewrite (IH fuel' rest s' r u ltac:(lia) Ep).
  - intros _ Hn. destruct fuel; [done|]. simpl in Ep. by rewrite Hn in Ep.
Qed.

(** A number may go on in an extension; every other value is finished where the parser
    stopped. *)
Definition finished (v : jsv) (r : text) : Prop := match v with VNum _ => r <> [] | _ => True end.

Definition value_local (f f' : nat) : Prop :=
  forall t v r u, parse_value f t = Some (v, r) -> finished v r -> parse_value f' (t ++ u) = Some (v, r ++ u).
Definition items_local (f f' : nat) : Prop :=
  forall t vs r u, parse_items f t = Some (vs, r) -> parse_items f' (t ++ u) = Some (vs, r ++ u).
Definition fields_local (f f' : nat) : Prop :=
  forall fs t fs' r u, parse_fields f fs t = Some (fs', r) -> parse_fields f' fs (t ++ u) = Some (fs', r ++ u).

#[local] Arguments expect : simpl never.
#[local] Arguments parse_number : simpl never.

Section Local.
Variables (f f' : nat).
Hypothesis Hf : f <= f'.
Hypothesis Hv : value_local f f'.
Hypothesis Hi : items_local f f'.
Hypothesis Hfs : fields_local f f'.

Lemma array_local t vs r u :
  (if head_is 93 (skip_ws t) then Some (VArr [], tail (skip_ws t))
   else match parse_items f t with Some (items, rest) => Some (VArr items, rest) | None => None end) = Some (vs, r) ->
  (if head_is 93 (skip_ws (t ++ u)) then Some (VArr [], tail (skip_ws (t ++ u)))
   else match parse_items f' (t ++ u) with Some (items, rest) => Some (VArr items, rest) | None => None end) = Some (vs, r ++ u).
Proof.
  destruct (skip_ws t) as [|d t'] eqn:E.
  - simpl. destruct f as [|[|g]]; simpl; try done. by rewrite E.
  - rewrite skip_ws_app, E by (by rewrite E). simpl. destruct (code d =? 93)%N; [by intros [= <- <-]|].
    destruct (parse_items f t) as [[items rest]|] eqn:Ei; [|done]. intros [= <- <-]. by rewrite (Hi t items rest u Ei).
Qed.

Lemma object_local t vs r u :
  (if head_is 125 (skip_ws t) then Some (VObj [], tail (skip_ws t))
   else match parse_fields f [] t with Some (fs, rest) => Some (VObj fs, rest) | None => None end) = Some (vs, r) ->
  (if head_is 125 (skip_ws (t ++ u)) then Some (VObj [], tail (skip_ws (t ++ u)))
   else match parse_fields f' [] (t ++ u) with Some (fs, rest) => Some (VObj fs, rest) | None => None end) = Some (vs, r ++ u).
Proof.
  destruct (skip_ws t) as [|d t'] eqn:E.
  - simpl. destruct f as [|g]; simpl; try done. by rewrite E.
  - rewrite skip_ws_app, E by (by rewrite E). simpl. destruct (code d =? 125)%N; [by intros [= <- <-]|].
    destruct (parse_fields f [] t) as [[fs rest]|] eqn:Ei; [|done]. intros [= <- <-]. by rewrite (Hfs [] t fs rest u Ei).
Qed.

Lemma value_step : value_local (S f) (S f').
Proof.
  intros t v r u. simpl. destruct (skip_ws t) as [|c t'] eqn:Et; [done|].
  rewrite skip_ws_app, Et by (by rewrite Et). cbn [app]. intros H Hr.
  destruct (code c =? 34)%N.
  { destruct (parse_chars f t') as [[s r']|] eqn:E; simplify_eq. by rewrite (parse_chars_app f f' t' s r u Hf E). }
  destruct (code c =? 91)%N; [by apply array_local|]. destruct (code c =? 123)%N; [by apply object_local|].
  destruct (code c =? 116)%N; [destruct (expect _ t') eqn:E; simplify_eq/=; by rewrite (expect_app _ _ _ u E)|].
  destruct (code c =? 102)%N; [destruct (expect _ t') eqn:E; simplify_eq/=; by rewrite (expect_app _ _ _ u E)|].
  destruct (code c =? 110)%N; [destruct (expect _ t') eqn:E; simplify_eq/=; by rewrite (expect_app _ _ _ u E)|].
  destruct (parse_number (c :: t')) as [[n r']|] eqn:E; simplify_eq. change (c :: t' ++ u) with ((c :: t') ++ u).
  by rewrite (parse_number_app _ _ _ u E Hr).
Qed.

(** A value that is followed by more. *)
Lemma followed t v r u :
  parse_value f t = Some (v, r) -> skip_ws r <> [] ->
  parse_value f' (t ++ u) = Some (v, r ++ u) /\ skip_ws (r ++ u) = skip_ws r ++ u.
Proof. intros H Hr. split; [|by apply skip_ws_app]. apply Hv; [done|]. destruct v; try done. by intros ->. Qed.

Lemma items_step : items_local (S f) (S f').
Proof.
  intros t vs r u. simpl. destruct (parse_value f t) as [[v r']|] eqn:E; [|done].
  destruct (skip_ws r') as [|c rest] eqn:Er; [done|]. intros H.
  destruct (followed t v r' u E ltac:(by rewrite Er)) as [-> ->]. rewrite Er. cbn [app]. destruct (code c =? 44)%N.
  - destruct (parse_items f rest) as [[vs' r'']|] eqn:Ei; simplify_eq. by rewrite (Hi rest vs' r u Ei).
  - destruct (code c =? 93)%N; by simplify_eq.
Qed.

Lemma fields_step : fields_local (S f) (S f').
Proof.
  intros fs t fs' r u. simpl. destruct (skip_ws t) as [|q t'] eqn:Et; [done|].
  rewrite skip_ws_app, Et by (by rewrite Et). cbn [app]. destruct (code q =? 34)%N; [|done]. cbn [negb].
  destruct (parse_chars f t') as [[key rest]|] eqn:Ek; [|done]. rewrite (parse_chars_app f f' t' key rest u Hf Ek).
  destruct (skip_ws rest) as [|d rest'] eqn:Er; [done|]. rewrite skip_ws_app, Er by (by rewrite Er). cbn.
  destruct (code d =? 58)%N; [|done]. cbn. destruct (parse_value f rest') as [[v r']|] eqn:E; [|done].
  destruct (skip_ws r') as [|c rest''] eqn:Er'; [done|]. intros H.
  destruct (followed rest' v r' u E ltac:(by rewrite Er')) as [-> ->]. rewrite Er'. cbn [app].
  destruct (code c =? 44)%N; [by apply Hfs|]. destruct (code c =? 125)%N; by simplify_eq.
Qed.
End Local.

Lemma parse_local f : forall f', f <= f' -> value_local f f' /\ items_local f f' /\ fields_local f f'.
Proof.
  induction f as [|f IH]; intros f' Hf; [by split_and!|]. destruct f' as [|f']; [lia|].
  destruct (IH f' ltac:(lia)) as (Hv & Hi & Hfs).
  split_and!; [apply value_step|apply items_step|apply fields_step]; auto with lia.
Qed.

(** * Numbers *)

(** What does not go on with an integer. *)
Definition ends (t : text) : bool := match t with c :: _ => negb (is_digit c) && after_integer t | [] => true end.

Lemma code_pretty m : (m < 10)%N -> code (pretty_N_char m) = (48 + m)%N.
Proof. intros H. assert (m = 0 \/ m = 1 \/ m = 2 \/ m = 3 \/ m = 4 \/ m = 5 \/ m = 6 \/ m = 7 \/ m = 8 \/ m = 9)%N by lia. naive_solver. Qed.

Lemma is_digit_iff c : is_digit c = true <-> (48 <= code c <= 57)%N.
Proof. unfold is_digit. rewrite andb_true_iff, !N.leb_le. done. Qed.

Lemma digits_of_pretty x : forall s rest, take_digits 0 (chars (pretty_N_go x s) ++ rest) = take_digits x (chars s ++ rest).
Proof.
  induction (N.lt_wf_0 x) as [x _ IH]; intros s rest. assert (x = 0 \/ 0 < x)%N as [->|Hx] by lia; [by rewrite pretty_N_go_0|].
  rewrite pretty_N_go_step, IH by (done || by apply N.div_lt). pose proof (N.mod_lt x 10 ltac:(lia)) as Hm. cbn. fold (chars s).
  pose proof (N.div_mod x 10 ltac:(done)) as Hx'. generalize dependent (x mod 10)%N. intros m Hm Hx'.
  rewrite (proj2 (is_digit_iff _)); rewrite code_pretty by done; [f_equal|]; lia.
Qed.

Lemma pretty_head x : forall s, (0 < x)%N -> exists c t, chars (pretty_N_go x s) = c :: t /\ (49 <= code c <= 57)%N.
Proof.
  induction (N.lt_wf_0 x) as [x _ IH]; intros s Hx. rewrite pretty_N_go_step by done.
  assert (x < 10 \/ 10 <= x)%N as [Hs|Hl] by lia.
  - rewrite N.div_small, pretty_N_go_0, N.mod_small by done. eexists _, _. split; [done|]. rewrite code_pretty; lia.
  - apply IH; [by apply N.div_lt|]. apply N.div_str_pos. lia.
Qed.

Lemma parse_nat_pretty n rest : ends rest = true -> parse_nat (chars (pretty n) ++ rest) = Some (n, rest).
Proof.
  intros He. assert (Hend : (match rest with d :: _ => is_digit d | [] => false end) = false /\ after_integer rest = true).
  { destruct rest as [|c rest]; [done|]. simpl in He. apply andb_true_iff in He as [H1 H2]. apply negb_true_iff in H1. done. }
  destruct Hend as [H1 H2]. unfold pretty, pretty_N. destruct (decide (n = 0%N)) as [->|Hn].
  - simpl. by rewrite H1, H2.
  - destruct (pretty_head n EmptyString ltac:(lia)) as (c & t & E & Hc). pose proof (digits_of_pretty n EmptyString rest) as Hd.
    rewrite E in *. unfold parse_nat. cbn [app] in *. rewrite (proj2 (is_digit_iff c)) by lia. cbn [negb].
    destruct (N.eqb_spec (code c) 48); [lia|]. rewrite Hd.
    assert (Hr : take_digits n (chars EmptyString ++ rest) = (n, rest)) by (destruct rest; simpl in *; [done|by rewrite H1]).
    by rewrite Hr, H1, H2.
Qed.

Lemma pos_head p : exists c t, chars (pretty (N.pos p)) = c :: t /\ (49 <= code c <= 57)%N.
Proof. unfold pretty, pretty_N. rewrite decide_False by lia. by apply pretty_head. Qed.

Lemma number_head (n : Z) : exists c t, chars (pretty n) = c :: t /\ (48 <= code c <= 57 \/ code c = 45)%N.
Proof.
  destruct n as [|p|p]; [by eexists _, _; split; [done|left]| |by eexists _, _; split; [done|right]].
  destruct (pos_head p) as (c & t & E & Hc). exists c, t. split; [done|lia].
Qed.

Lemma parse_number_pretty (n : Z) rest : ends rest = true -> parse_number (chars (pretty n) ++ rest) = Some (n, rest).
Proof.
  intros He. unfold parse_number. destruct n as [|p|p].
  - simpl. pose proof (parse_nat_pretty 0 rest He) as H. simpl in H. by rewrite H.
  - change (pretty (Z.pos p)) with (pretty (N.pos p)). destruct (pos_head p) as (c & t & E & Hc). rewrite E. cbn [app].
    destruct (Ascii.eqb_spec c "-"%char) as [->|_]; [by destruct Hc as [[] _]|].
    change (c :: t ++ rest) with ((c :: t) ++ rest). by rewrite <- E, parse_nat_pretty.
  - change (chars (pretty (Z.neg p))) with ("-"%char :: chars (pretty (N.pos p))). cbn [app]. simpl.
    by rewrite (parse_nat_pretty (N.pos p) rest He).
Qed.

(** * Strings *)

Lemma chars_app a b : chars (a +:+ b) = chars a ++ chars b.
Proof. induction a as [|c a IH]; [done|]. by apply (f_equal (cons c)). Qed.

Lemma of_chars_chars s : of_chars (chars s) = s.
Proof. apply String.string_of_list_ascii_of_string. Qed.

(** A string between its quotes. *)
Definition escaped (s : text) : text := List.concat (map (fun c => chars (quote_char c)) s).

Lemma chars_concat l : chars (String.concat EmptyString l) = List.concat (map chars l).
Proof.
  induction l as [|a [|b l] IH]; [done| |].
  - simpl. by rewrite app_nil_r.
  - change (chars (String.concat EmptyString (a :: b :: l))) with (chars (a +:+ String.concat EmptyString (b :: l))).
    rewrite chars_app, IH. done.
Qed.

Lemma chars_quote s : chars (quote s) = "034"%char :: escaped (chars s) ++ ["034"%char].
Proof.
  unfold quote, dquote. rewrite !chars_app, chars_concat, map_map. done.
Qed.

(** A character is escaped in one of these ways, or stands for itself. *)
Lemma code_inj c n : code c = n -> c = chr n.
Proof. intros <-. symmetry. apply Ascii.ascii_N_embedding. Qed.

Lemma control_char c : (code c < 32)%N -> c ∈ map chr (map N.of_nat (seq 0 32)).
Proof.
  intros H. rewrite (code_inj c _ eq_refl). apply list_elem_of_fmap_2. rewrite <- (N2Nat.id (code c)). apply list_elem_of_fmap_2, elem_of_seq. lia.
Qed.

Lemma quote_char_plain c : (32 <= code c)%N -> code c <> 34%N -> code c <> 92%N -> chars (quote_char c) = [c].
Proof.
  unfold quote_char. fold (code c). intros H H1 H2. rewrite !(proj2 (N.eqb_neq _ _)) by lia.
  by rewrite (proj2 (N.ltb_ge _ _)).
Qed.

Lemma quote_char_cases (P : ascii -> Prop) :
  Forall P (map chr ([34; 92]%N ++ map N.of_nat (seq 0 32))) ->
  (forall c, (32 <= code c)%N -> code c <> 34%N -> code c <> 92%N -> P c) -> forall c, P c.
Proof.
  intros Hs Hp c. rewrite Forall_forall in Hs. destruct (N.lt_ge_cases (code c) 32) as [H|H].
  - apply Hs. rewrite map_app. apply elem_of_app. right. by apply control_char.
  - destruct (decide (code c = 34%N)) as [E|]; [apply Hs; rewrite (code_inj c _ E); by left|].
    destruct (decide (code c = 92%N)) as [E|]; [apply Hs; rewrite (code_inj c _ E); right; by left|auto].
Qed.

Lemma read_quote_char t c : read_char (chars (quote_char c) ++ t) = Some (Some [c], t).
Proof.
  revert c. apply quote_char_cases; [repeat constructor|]. intros c H H1 H2. rewrite quote_char_plain by done. simpl.
  destruct (N.eqb_spec (code c) 34); [done|]. destruct (N.ltb_spec (code c) 32); [lia|]. by destruct (N.eqb_spec (code c) 92).
Qed.

Lemma quote_char_visible c : chars (quote_char c) <> [] /\ Forall (fun c => (32 <= code c)%N) (chars (quote_char c)).
Proof.
  revert c. apply quote_char_cases; [repeat constructor; done|]. intros c H H1 H2. rewrite quote_char_plain by done.
  split; [done|]. by repeat constructor.
Qed.

Lemma parse_escaped s : forall fuel rest,
  length (escaped s) < fuel -> parse_chars fuel (escaped s ++ "034"%char :: rest) = Some (s, rest).
Proof.
  induction s as [|c s IH]; intros [|fuel] rest; try (simpl; lia); [done|]. change (escaped (c :: s)) with (chars (quote_char c) ++ escaped s).
  rewrite length_app. intros Hf.
  pose proof (proj1 (quote_char_visible c)) as Hc. assert (length (chars (quote_char c)) <> 0) by (by intros ?%nil_length_inv). cbn [parse_chars]. rewrite <- app_assoc, read_quote_char, IH by lia. done.
Qed.

(** * Texts of values *)

Section JsvInd.
Variable P : jsv -> Prop.
Hypotheses (Hu : P VUndef) (Hn : P VNull) (Hb : forall b, P (VBool b)) (Hz : forall n, P (VNum n)) (Hs : forall s, P (VStr s)).
Hypothesis Ha : forall items, Forall P items -> P (VArr items).
Hypothesis Ho : forall fs, Forall (fun kv => P (snd kv)) fs -> P (VObj fs).

Fixpoint jsv_deep_ind (v : jsv) : P v :=
  match v with
  | VUndef => Hu | VNull => Hn | VBool b => Hb b | VNum n => Hz n | VStr s => Hs s
  | VArr items => Ha items ((fix go l : Forall P l := match l with [] => Forall_nil_2 P | v :: l => Forall_cons_2 P v l (jsv_deep_ind v) (go l) end) items)
  | VObj fs => Ho fs ((fix go l : Forall (fun kv => P (snd kv)) l :=
                         match l with [] => Forall_nil_2 _ | kv :: l => Forall_cons_2 (fun kv => P (snd kv)) kv l (jsv_deep_ind (snd kv)) (go l) end) fs)
  end.
End JsvInd.

Fixpoint commas (l : list text) : text :=
  match l with
  | [] => []
  | [t] => t
  | t :: l => t ++ ","%char :: commas l
  end.

Lemma chars_commas l : chars (String.concat "," l) = commas (map chars l).
Proof.
  induction l as [|a [|b l] IH]; [done|done|].
  change (String.concat "," (a :: b :: l)) with (a +:+ "," +:+ String.concat "," (b :: l)). rewrite !chars_app, IH. done.
Qed.

Definition property_text (kv : string * jsv) : text := chars (quote (fst kv)) ++ ":"%char :: JSON_text (snd kv).

Lemma array_text items : JSON_text (VArr items) = "["%char :: commas (map JSON_text items) ++ ["]"%char].
Proof. unfold JSON_text. simpl. rewrite !chars_app, chars_commas, map_map. done. Qed.

Lemma plain_items items : foldr (fun v P => plain v /\ P) True items <-> Forall plain items.
Proof. induction items as [|v items IH]; simpl; [by split|]. by rewrite IH, Forall_cons. Qed.

Lemma plain_fields (fs : list (string * jsv)) : foldr (fun kv P => plain (snd kv) /\ P) True fs <-> Forall (fun kv : string * jsv => plain (snd kv)) fs.
Proof. induction fs as [|kv fs IH]; simpl; [by split|]. by rewrite IH, Forall_cons. Qed.

Lemma object_text fs : Forall (fun kv : string * jsv => plain (snd kv)) fs -> JSON_text (VObj fs) = "{"%char :: commas (map property_text fs) ++ ["}"%char].
Proof.
  intros H. unfold JSON_text. cbn [stringify]. rewrite !chars_app, chars_commas.
  match goal with |- _ ++ commas ?l ++ _ = _ => assert (l = map property_text fs) as -> end; [|done].
  induction H as [|[k v] fs Hv _ IH]; [done|]. cbn [map List.concat fst snd] in *. rewrite map_app, IH.
  assert (Hp : chars (quote k +:+ ":" +:+ stringify v) = property_text (k, v)) by (by rewrite !chars_app).
  destruct v; [done|..]; cbn [map app]; by rewrite Hp.
Qed.

(** * The parser inverts [JSON.stringify] *)

Definition reads_back (v : jsv) : Prop :=
  forall fuel rest, length (JSON_text v) < fuel -> ends rest = true -> parse_value fuel (JSON_text v ++ rest) = Some (v, rest).

(** A text that starts with a visible character other than the openings of [parse_value]. *)
Lemma parse_value_number n fuel rest : ends rest = true -> parse_value (S fuel) (chars (pretty n) ++ rest) = Some (VNum n, rest).
Proof.
  intros He. destruct (number_head n) as (c & t & E & Hc). pose proof (parse_number_pretty n rest He) as Hp. rewrite E in *. cbn [app] in *.
  simpl. unfold is_ws. rewrite !(proj2 (N.eqb_neq (code c) _)) by lia. cbn. by rewrite !(proj2 (N.eqb_neq (code c) _)), Hp by lia.
Qed.

#[local] Arguments commas : simpl never.

Lemma commas_one t : commas [t] = t.
Proof. done. Qed.

Lemma commas_cons t t' l : commas (t :: t' :: l) = t ++ ","%char :: commas (t' :: l).
Proof. done. Qed.

Lemma skip_char c t : is_ws c = false -> skip_ws (c :: t) = c :: t.
Proof. simpl. by intros ->. Qed.

(** Read the literal characters in front of the parser. *)
Ltac at_token :=
  rewrite ?skip_char by reflexivity; cbn [head_is tail];
  repeat match goal with
  | |- context [(code ?c =? ?n)%N] =>
      let b := eval vm_compute in (code c =? n)%N in
      match b with true => change (code c =? n)%N with true | false => change (code c =? n)%N with false end
  end; cbn [negb].

Lemma text_head v : exists c t, JSON_text v = c :: t /\ is_ws c = false /\ code c <> 93%N.
Proof.
  unfold JSON_text. destruct v as [| |[]|n|s|items|fs]; cbn [stringify]; rewrite ?chars_quote, ?chars_app; try by eexists _, _.
  destruct (number_head n) as (c & t & -> & Hc). exists c, t. split; [done|]. unfold is_ws. rewrite !(proj2 (N.eqb_neq (code c) _)) by lia. lia.
Qed.

Lemma text_length v : 1 <= length (JSON_text v).
Proof. destruct (text_head v) as (c & t & -> & _). simpl. lia. Qed.

Lemma items_read_back items : items <> [] -> Forall reads_back items -> forall fuel rest,
  length (commas (map JSON_text items)) + 1 < fuel -> parse_items fuel (commas (map JSON_text items) ++ "]"%char :: rest) = Some (items, rest).
Proof.
  intros Hne. induction 1 as [|v items Hv _ IH]; [done|]. intros [|fuel] rest Hf; [lia|]. cbn [map] in *. destruct items as [|w items].
  - rewrite commas_one in *. cbn [parse_items]. rewrite Hv by (lia || done). done.
  - cbn [map] in *. rewrite commas_cons in *. rewrite length_app in Hf. cbn [length] in Hf. pose proof (text_length v) as Hl.
    rewrite <- app_assoc. cbn [app parse_items]. rewrite Hv by (lia || done). at_token.
    rewrite (IH ltac:(done) fuel rest) by lia. done.
Qed.

Lemma parse_property fuel fs key v rest c more :
  length (property_text (key, v)) < fuel -> reads_back v -> ends rest = true -> skip_ws rest = c :: more ->
  parse_fields (S fuel) fs (property_text (key, v) ++ rest) =
    if (code c =? 44)%N then parse_fields fuel (assoc_set fs key v) more
    else if (code c =? 125)%N then Some (assoc_set fs key v, more) else None.
Proof.
  unfold property_text. cbn [fst snd]. rewrite chars_quote. cbn [app]. rewrite <- !app_assoc. cbn [app length]. rewrite length_app. cbn [length].
  intros Hf Hv He Hr. cbn [parse_fields]. at_token.
  rewrite parse_escaped by lia. at_token. rewrite Hv, Hr by (lia || done). by rewrite of_chars_chars.
Qed.

Lemma assoc_set_new {A} (l : list (string * A)) k v : k ∉ l.*1 -> assoc_set l k v = l ++ [(k, v)].
Proof.
  induction l as [|[k' v'] l IH]; [done|]. cbn. intros [Hk Hl]%not_elem_of_cons. rewrite bool_decide_eq_false_2 by done. by rewrite IH.
Qed.

Lemma fields_read_back fs : fs <> [] -> Forall (fun kv => reads_back (snd kv)) fs -> forall fuel rest acc,
  NoDup ((acc ++ fs).*1) -> length (commas (map property_text fs)) + 1 < fuel ->
  parse_fields fuel acc (commas (map property_text fs) ++ "}"%char :: rest) = Some (acc ++ fs, rest).
Proof.
  intros Hne. induction 1 as [|[k v] fs Hv _ IH]; [done|]. intros [|fuel] rest acc Hnd Hf; [lia|].
  assert (Hk : k ∉ acc.*1).
  { rewrite fmap_app in Hnd. apply NoDup_app in Hnd as (_ & Hd & _). intros H. apply (Hd k H). by left. }
  destruct fs as [|kv fs]; cbn [map] in *.
  - rewrite commas_one in *. rewrite (parse_property fuel acc k v _ "}"%char rest) by (lia || done). at_token. by rewrite assoc_set_new.
  - rewrite commas_cons in *. rewrite length_app in Hf. cbn [length] in Hf.
    assert (1 <= length (property_text (k, v))) by (unfold property_text; rewrite length_app; simpl; lia).
    rewrite <- app_assoc. cbn [app]. erewrite (parse_property fuel acc k v _ ","%char _ ltac:(lia) Hv); [|done|done]. at_token.
    rewrite assoc_set_new by done. rewrite (IH ltac:(done)); rewrite <- ?app_assoc; [done|done|lia].
Qed.

Lemma string_reads_back s : reads_back (VStr s).
Proof.
  intros [|fuel] rest; [lia|]. unfold JSON_text. cbn [stringify]. rewrite chars_quote. cbn [length]. rewrite length_app. cbn [length].
  intros Hf _. cbn [app parse_value]. at_token. rewrite <- app_assoc. cbn [app].
  rewrite parse_escaped by lia. by rewrite of_chars_chars.
Qed.

Lemma array_reads_back items : Forall reads_back items -> reads_back (VArr items).
Proof.
  intros Hall [|fuel] rest; [lia|]. rewrite array_text. cbn [length]. rewrite length_app. cbn [length]. intros Hf _.
  destruct items as [|v items]; [done|]. cbn [app parse_value]. at_token. rewrite <- app_assoc. cbn [app].
  assert (exists c t, skip_ws (commas (JSON_text v :: map JSON_text items) ++ "]"%char :: rest) = c :: t /\ code c <> 93%N) as (c & t & E & Hc).
  { destruct (text_head v) as (c & t & E & Hw & Hc). exists c.
    destruct items; cbn [map]; rewrite ?commas_cons, ?commas_one, E; cbn [app]; rewrite skip_char by done; eauto. }
  cbn [map]. rewrite E. cbn [head_is]. rewrite (proj2 (N.eqb_neq (code c) 93) Hc). change (JSON_text v :: map JSON_text items) with (map JSON_text (v :: items)).
  rewrite items_read_back by (done || lia). done.
Qed.

Lemma object_reads_back fs : NoDup (fs.*1) -> Forall (fun kv => plain (snd kv) /\ reads_back (snd kv)) fs -> reads_back (VObj fs).
Proof.
  intros Hnd Hall [|fuel] rest; [lia|]. apply Forall_and in Hall as [Hp Hall]. rewrite object_text by done. cbn [length]. rewrite length_app. cbn [length]. intros Hf _.
  destruct fs as [|kv fs]; [done|]. cbn [app parse_value]. at_token. rewrite <- app_assoc. cbn [app].
  assert (exists t, skip_ws (commas (property_text kv :: map property_text fs) ++ "}"%char :: rest) = "034"%char :: t) as (t & E).
  { destruct fs; cbn [map]; rewrite ?commas_cons, ?commas_one; unfold property_text; rewrite chars_quote; cbn [app]; rewrite skip_char by done; eauto. }
  cbn [map]. rewrite E. at_token. change (property_text kv :: map property_text fs) with (map property_text (kv :: fs)).
  rewrite fields_read_back by (done || lia). done.
Qed.

Lemma plain_reads_back v : plain v -> reads_back v.
Proof.
  induction v as [| |[]|n|s|items IH|fs IH] using jsv_deep_ind; intros Hp.
  all: try (by intros [|fuel] rest Hf He; [lia|]).
  - intros [|fuel] rest Hf He; [lia|]. by apply parse_value_number.
  - apply string_reads_back.
  - apply plain_items in Hp. apply array_reads_back. rewrite Forall_forall in *. auto.
  - destruct Hp as [Hnd Hp]. apply plain_fields in Hp. apply object_reads_back; [done|]. rewrite Forall_forall in *. auto.
Qed.

Lemma parse_stringify v : plain v -> JSON_parse (JSON_text v) = Some v.
Proof.
  intros Hp. unfold JSON_parse. pose proof (plain_reads_back v Hp (S (length (JSON_text v))) [] ltac:(lia) eq_refl) as H.
  rewrite app_nil_r in H. by rewrite H.
Qed.

(** * Torn texts *)

(** A proper prefix of the text of an object is a syntax error. *)
Lemma torn_object fs p q : plain (VObj fs) -> JSON_text (VObj fs) = p ++ q -> q <> [] -> JSON_parse p = None.
Proof.
  intros Hp E Hq. unfold JSON_parse. destruct (parse_value (S (length p)) p) as [[v r]|] eqn:Ev; [|done].
  destruct (skip_ws r) as [|? ?] eqn:Er; [|done]. exfalso. destruct p as [|c p]; [done|].
  rewrite object_text in E by (by destruct Hp as [_ Hp%plain_fields]). cbn [app] in E.
  assert (finished v r) as Hfin.
  { injection E as <- _. cbn [length parse_value skip_ws] in Ev. change (is_ws "{"%char) with false in Ev. cbn in Ev. repeat case_res; done. }
  set (f := S (length (JSON_text (VObj fs)))).
  assert (Hf : S (length (c :: p)) <= f).
  { unfold f. rewrite object_text by (by destruct Hp as [_ Hp%plain_fields]). rewrite E. change (c :: p ++ q) with ((c :: p) ++ q). rewrite length_app. lia. }
  destruct (parse_local (S (length (c :: p))) f Hf) as [Hl _]. pose proof (Hl (c :: p) v r q Ev Hfin) as H1.
  pose proof (plain_reads_back (VObj fs) Hp f [] ltac:(unfold f; lia) eq_refl) as H2. rewrite app_nil_r in H2.
  rewrite object_text in H2 by (by destruct Hp as [_ Hp%plain_fields]). rewrite E in H2. cbn [app] in H1. rewrite H1 in H2. injection H2 as _ H2.
  apply app_eq_nil in H2 as [_ H2]. done.
Qed.

(** * A text is one line *)

Lemma visible_commas l : Forall (Forall (fun c => 32 <= code c)%N) l -> Forall (fun c => (32 <= code c)%N) (commas l).
Proof.
  induction 1 as [|t l Ht Hl IH]; [done|]. destruct l as [|t' l]; [done|]. rewrite commas_cons. apply Forall_app. split; [done|]. by constructor.
Qed.

Lemma visible_quote s : Forall (fun c => (32 <= code c)%N) (chars (quote s)).
Proof.
  rewrite chars_quote. constructor; [done|]. apply Forall_app. split; [|by repeat constructor].
  induction (chars s) as [|c t IH]; [constructor|]. apply Forall_app. split; [apply quote_char_visible|done].
Qed.

Lemma visible_digits x : forall s, Forall (fun c => (32 <= code c)%N) (chars s) -> Forall (fun c => (32 <= code c)%N) (chars (pretty_N_go x s)).
Proof.
  induction (N.lt_wf_0 x) as [x _ IH]; intros s Hs. assert (x = 0 \/ 0 < x)%N as [->|Hx] by lia; [by rewrite pretty_N_go_0|].
  rewrite pretty_N_go_step by done. apply IH; [by apply N.div_lt|]. constructor; [|done]. rewrite code_pretty by (by apply N.mod_lt). generalize (x mod 10)%N. lia.
Qed.

Lemma visible_number (n : Z) : Forall (fun c => (32 <= code c)%N) (chars (pretty n)).
Proof.
  assert (Hp : forall p, Forall (fun c => (32 <= code c)%N) (chars (pretty (N.pos p)))).
  { intros p. unfold pretty, pretty_N. rewrite decide_False by lia. by apply visible_digits. }
  destruct n as [|p|p]; [by repeat constructor|apply Hp|]. constructor; [done|apply Hp].
Qed.

Lemma visible_text v : plain v -> Forall (fun c => (32 <= code c)%N) (JSON_text v).
Proof.
  induction v as [| |[]|n|s|items IH|fs IH] using jsv_deep_ind; intros Hp; try by repeat constructor.
  - apply visible_number.
  - apply visible_quote.
  - apply plain_items in Hp. rewrite array_text. constructor; [done|]. apply Forall_app. split; [|by repeat constructor].
    apply visible_commas, Forall_map. rewrite Forall_forall in *. auto.
  - destruct Hp as [_ Hp%plain_fields]. rewrite object_text by done. constructor; [done|]. apply Forall_app. split; [|by repeat constructor].
    apply visible_commas, Forall_map. rewrite Forall_forall in *. intros kv Hkv. apply Forall_app. split; [apply visible_quote|].
    constructor; [done|]. by apply IH; [|apply Hp].
Qed.
