(* ===== verification/SessionEntries.v ===== *)
(** The contract of session journals that every storage backend shares
    (session-backends/src/entry-contract.ts): which identifiers may name files, which batches
    may be appended to a journal, how a journal is read in pages, and what a fork copies.

    Modelling choices: entries are dynamic values, as they arrive; [structuredClone] is the
    identity on values without mutation; [trim] removes the white space of ASCII; the message
    of an error is its constructor. *)

From Stdlib Require Import Ascii.
From S2P Require Import Prelude JsValue JsonText.

(** * Errors *)

(** Why [prepareEntryBatch] refuses a batch. *)
Inductive entry_error : Type :=
| BadSessionId
| NotJson
| NotAnEntry
| WrongSession
| BadEntryId
| BadSeq
| BadParent
| BadType
| BadVersion.

Inductive backend_error : Type :=
| Closed
| InvalidStorageId
| Rejected (cause : entry_error) (* [SessionCommitError] *)
| RejectedTail
| UnknownOutcome
| PageLimit
| PageDirection
| PageCursor
| ForkTarget
| ForkHead
| CorruptRecord (line : nat)
| UnsupportedBatch
| NotARecord
| InvalidJson (* [parseStoredJson] *)
| DriverError. (* of the database: a value it cannot bind, a constraint, a write that fails *)

(** * Identifiers *)

Definition is_space (c : ascii) : bool := ((9 <=? code c) && (code c <=? 13) || (code c =? 32))%N.

(** [!s.trim()]. *)
Definition blank (t : text) : bool := forallb is_space t.

(** The characters that separate, quote or match paths, and the control characters. *)
Definition forbidden (c : ascii) : bool :=
  (code c <? 32)%N || existsb (fun n => code c =? n)%N [92; 47; 58; 42; 63; 34; 60; 62; 124]%N.

Definition validateStorageId (id : string) : bool :=
  negb (blank (chars id)) && negb (existsb forbidden (chars id)) && negb (bool_decide (id = ".")) && negb (bool_decide (id = "..")).

(** * Entries *)

Definition as_str (v : jsv) : string := match v with VStr s => s | _ => EmptyString end.
Definition as_num (v : jsv) : Z := match v with VNum n => n | _ => 0%Z end.

Definition entry_id (e : jsv) : string := as_str (prop e "id").
Definition entry_seq (e : jsv) : Z := as_num (prop e "seq").
Definition entry_timestamp (e : jsv) : Z := as_num (prop e "timestamp").
(** [None] is [null]. *)
Definition entry_parent (e : jsv) : option string := match prop e "parentId" with VStr s => Some s | _ => None end.

Definition is_safe_integer (v : jsv) : bool := match v with VNum n => (Z.abs n <=? 2 ^ 53 - 1)%Z | _ => false end.
Definition is_number (v : jsv) : bool := match v with VNum _ => true | _ => false end.
Definition is_string (v : jsv) (s : string) : bool := match v with VStr s' => bool_decide (s' = s) | _ => false end.

(** [{ ...entry, key: v }]. *)
Definition with_field (e : jsv) (key : string) (v : jsv) : jsv :=
  match e with VObj fs => VObj (assoc_set fs key v) | _ => VObj [(key, v)] end.

(** One turn of the loop of [prepareEntryBatch]. *)
Definition prepare_entry (sessionId : string) (ids : gset string) (lastSeq : Z) (entry : jsv) : result entry_error jsv :=
  throw_if negb (json_safe entry) with NotJson in
  throw_if (match entry with VNull => true | _ => false end) with NotAnEntry in
  throw_if negb (is_string (prop entry "sessionId") sessionId) with WrongSession in
  throw_if negb (match prop entry "id" with VStr id => negb (blank (chars id)) && negb (bool_decide (id ∈ ids)) | _ => false end) with BadEntryId in
  throw_if negb (is_safe_integer (prop entry "seq")) || (as_num (prop entry "seq") <=? lastSeq)%Z with BadSeq in
  throw_if negb (match prop entry "parentId" with VNull => true | VStr p => bool_decide (p ∈ ids) | _ => false end) with BadParent in
  throw_if negb (is_number (prop entry "timestamp")) || negb (match prop entry "type" with VStr t => negb (bool_decide (t = EmptyString)) | _ => false end) with BadType in
  throw_if negb (match prop entry "version" with VUndef => true | VNum n => (n =? 1)%Z | _ => false end) with BadVersion in
  Ok (with_field entry "version" (match prop entry "version" with VUndef | VNull => VNum 1 | v => v end)).

Fixpoint prepare_loop (sessionId : string) (ids : gset string) (lastSeq : Z) (entries : list jsv) : result entry_error (list jsv) :=
  match entries with
  | [] => Ok []
  | entry :: entries =>
      let* e := prepare_entry sessionId ids lastSeq entry in
      let* prepared := prepare_loop sessionId ({[entry_id e]} ∪ ids) (entry_seq e) entries in
      Ok (e :: prepared)
  end.

Definition ids_of (entries : list jsv) : gset string := list_to_set (map entry_id entries).
Definition last_seq (entries : list jsv) : Z := match last entries with Some e => entry_seq e | None => 0%Z end.

Definition prepareEntryBatch (sessionId : string) (current entries : list jsv) : result backend_error (list jsv) :=
  match (throw_if negb (validateStorageId sessionId) with BadSessionId in
         prepare_loop sessionId (ids_of current) (last_seq current) entries) with
  | Ok prepared => Ok prepared
  | Err cause => Err (Rejected cause)
  end.

(** * Pages *)

Record cursor : Type := MkCursor {
  c_version : Z; c_sessionId : string; c_direction : string; c_upperSeq : Z; c_lastSeq : Z; c_lastId : string }.

Record page_options : Type := MkOptions { o_limit : option Z; o_direction : option string; o_cursor : option cursor }.

Record page : Type := MkPage { p_entries : list jsv; p_nextCursor : option cursor }.

(** Neither end of a traversal is outside of the journal. *)
Definition valid_cursor (sessionId direction : string) (upperSeq : Z) (entries : list jsv) (c : cursor) : bool :=
  (c_version c =? 1)%Z && bool_decide (c_sessionId c = sessionId) && bool_decide (c_direction c = direction) &&
  (Z.abs upperSeq <=? 2 ^ 53 - 1)%Z && (c_lastSeq c <=? upperSeq)%Z &&
  existsb (fun e => entry_seq e =? upperSeq)%Z entries &&
  existsb (fun e => (entry_seq e =? c_lastSeq c)%Z && bool_decide (entry_id e = c_lastId c)) entries.

Definition pageEntries (sessionId : string) (entries : list jsv) (options : page_options) : result backend_error page :=
  throw_if negb (validateStorageId sessionId) with InvalidStorageId in
  let limit := default 100%Z (o_limit options) in
  throw_if (limit <? 1)%Z || (1000 <? limit)%Z with PageLimit in
  let direction := default (default "forward" (option_map c_direction (o_cursor options))) (o_direction options) in
  throw_if negb (bool_decide (direction = "forward")) && negb (bool_decide (direction = "backward")) with PageDirection in
  let upperSeq := default (last_seq entries) (option_map c_upperSeq (o_cursor options)) in
  throw_if (match o_cursor options with Some c => negb (valid_cursor sessionId direction upperSeq entries c) | None => false end) with PageCursor in
  let beyond e := match o_cursor options with
                  | None => true
                  | Some c => if bool_decide (direction = "forward") then (c_lastSeq c <? entry_seq e)%Z else (entry_seq e <? c_lastSeq c)%Z
                  end in
  let eligible := List.filter (fun e => (entry_seq e <=? upperSeq)%Z && beyond e) entries in
  let eligible := if bool_decide (direction = "backward") then rev eligible else eligible in
  let items := ztake limit eligible in
  Ok (MkPage items
        (match last items with
         | Some e => if (limit <? zlen eligible)%Z then Some (MkCursor 1 sessionId direction upperSeq (entry_seq e) (entry_id e)) else None
         | None => None
         end)).

(** * Forks *)

(** The climb of [forkEntries] from a head to its root, deepest first; the fuel is the number
    of entries, since no identifier is seen twice.  A [Map] made of the entries finds the last
    one of an identifier. *)
Fixpoint climb (entries : list jsv) (fuel : nat) (seen : gset string) (id : option string) : result backend_error (list jsv) :=
  match id with
  | None => Ok []
  | Some id =>
      match List.find (fun e => bool_decide (entry_id e = id)) (rev entries), fuel with
      | Some e, S fuel =>
          throw_if bool_decide (id ∈ seen) with ForkHead in
          let* path := climb entries fuel ({[id]} ∪ seen) (entry_parent e) in
          Ok (e :: path)
      | _, _ => Err ForkHead
      end
  end.

(** [headId]: [None] is [undefined], the whole journal; [Some None] is [null]. *)
Definition forkEntries (sourceSessionId targetSessionId : string) (entries target : list jsv) (headId : option (option string)) : result backend_error (list jsv) :=
  throw_if negb (validateStorageId sourceSessionId) with InvalidStorageId in
  throw_if negb (validateStorageId targetSessionId) with InvalidStorageId in
  throw_if bool_decide (sourceSessionId = targetSessionId) || negb (bool_decide (length target = 0)) with ForkTarget in
  let* selected := match headId with
                   | None => Ok entries
                   | Some id => let* path := climb entries (length entries) ∅ id in Ok (rev path)
                   end in
  Ok (map (fun e => with_field e "sessionId" (VStr targetSessionId)) selected).
