(* ===== verification/SessionEntriesProofs.v ===== *)
(** Lemmas about the contract of session journals: what a prepared batch looks like, that
    preparing stored entries changes nothing, and what pages and forks select. *)

From Stdlib Require Import Sorting.Sorted.
From S2P Require Import Prelude JsValue JsonText SessionEntries.

(** * Prepared entries *)

(** An entry of a journal that has the identifiers [ids] and ends at [last]. *)
Record placed (sessionId : string) (ids : gset string) (last : Z) (e : jsv) : Prop := MkPlaced {
  pl_object : exists fs, e = VObj fs;
  pl_safe : json_safe e = true;
  pl_session : prop e "sessionId" = VStr sessionId;
  pl_id : exists id, prop e "id" = VStr id /\ blank (chars id) = false /\ id ∉ ids;
  pl_seq : exists n, prop e "seq" = VNum n /\ (Z.abs n <= 2 ^ 53 - 1)%Z /\ (last < n)%Z;
  pl_parent : prop e "parentId" = VNull \/ exists p, prop e "parentId" = VStr p /\ p ∈ ids;
  pl_timestamp : exists t, prop e "timestamp" = VNum t;
  pl_type : exists t, prop e "type" = VStr t /\ t <> EmptyString;
  pl_version : prop e "version" = VNum 1;
}.

Lemma prop_set fs key v k : prop (VObj (assoc_set fs key v)) k = if bool_decide (k = key) then v else prop (VObj fs) k.
Proof.
  simpl. case_bool_decide as E; [subst k; by rewrite assoc_get_set_eq|]. by rewrite assoc_get_set_ne.
Qed.

Lemma with_field_same (fs : list (string * jsv)) key v : assoc_get fs key = Some v -> assoc_set fs key v = fs.
Proof.
  induction fs as [|[k w] fs IH]; [done|]. simpl. case_bool_decide as E; [by intros [= ->]|]. intros H. by rewrite IH.
Qed.

Lemma json_safe_set fs key v : json_safe (VObj fs) = true -> json_safe v = true -> json_safe (VObj (assoc_set fs key v)) = true.
Proof.
  simpl. intros Hfs Hv. induction fs as [|[k w] fs IH]; simpl in *; [by rewrite Hv|]. apply andb_true_iff in Hfs as [H1 H2].
  case_bool_decide; simpl; [by rewrite Hv, H2|]. by rewrite H1, IH.
Qed.

Lemma prepare_entry_placed sessionId ids last entry e :
  prepare_entry sessionId ids last entry = Ok e ->
  placed sessionId ids last e /\ (exists fs, entry = VObj fs /\ e = with_field entry "version" (VNum 1)).
Proof.
  unfold prepare_entry. destruct (json_safe entry) eqn:Hsafe; [|done]. cbn [negb].
  destruct entry as [| | | | | |fs]; try done.
  destruct (prop (VObj fs) "sessionId") as [| | | |s| |] eqn:Es; try done. cbn [is_string]. case_bool_decide as Hs; [subst s|done]. cbn [negb].
  destruct (prop (VObj fs) "id") as [| | | |id| |] eqn:Ei; try done. destruct (blank (chars id)) eqn:Eb; [done|]. case_bool_decide as Hi; [done|]. cbn [negb andb].
  destruct (prop (VObj fs) "seq") as [| | |n| | |] eqn:En; try done. cbn [is_safe_integer as_num].
  destruct (Z.leb_spec (Z.abs n) (2 ^ 53 - 1)); [|done]. destruct (Z.leb_spec n last); [done|]. cbn [negb orb].
  destruct (match prop (VObj fs) "parentId" with VNull => true | VStr p => bool_decide (p ∈ ids) | _ => false end) eqn:Ep; [|done]. cbn [negb].
  destruct (prop (VObj fs) "timestamp") as [| | |t| | |] eqn:Et; try done. cbn [is_number negb orb].
  destruct (prop (VObj fs) "type") as [| | | |ty| |] eqn:Ety; try done. case_bool_decide as Hty; [done|]. cbn [negb].
  destruct (match prop (VObj fs) "version" with VUndef => true | VNum n => (n =? 1)%Z | _ => false end) eqn:Ev; [|done]. cbn [negb].
  assert (Hv : (match prop (VObj fs) "version" with VUndef | VNull => VNum 1 | v => v end) = VNum 1).
  { destruct (prop (VObj fs) "version") as [| | |m| | |]; try done. simpl in Ev. apply Z.eqb_eq in Ev. by subst m. }
  rewrite Hv. intros [= <-]. split; [|eauto].
  constructor; rewrite ?prop_set; eauto.
  - by apply json_safe_set.
  - destruct (prop (VObj fs) "parentId") as [| | | |p| |] eqn:Epp; try done; [by left|]. right. exists p. split; [done|]. by apply bool_decide_eq_true in Ep.
Qed.

Lemma placed_prepare sessionId ids last e : placed sessionId ids last e -> prepare_entry sessionId ids last e = Ok e.
Proof.
  intros [(fs & ->) Hsafe Hs (id & Hi & Hb & Hids) (n & Hn & Hsn & Hl) Hp (t & Ht) (ty & Hty & Hne) Hv].
  unfold prepare_entry. rewrite Hsafe, Hs, Hi, Hn, Ht, Hty, Hv. cbn [negb is_string is_safe_integer as_num is_number].
  rewrite !bool_decide_eq_true_2, !bool_decide_eq_false_2, Hb by done.
  rewrite (proj2 (Z.leb_le _ _) Hsn), (proj2 (Z.leb_gt _ _) Hl). cbn [negb andb orb].
  assert ((match prop (VObj fs) "parentId" with VNull => true | VStr p => bool_decide (p ∈ ids) | _ => false end) = true) as ->.
  { destruct Hp as [->|(p & -> & Hin)]; [done|]. by apply bool_decide_eq_true. }
  simpl in Hv |- *. destruct (assoc_get fs "version") as [v|] eqn:Ev; [|done]. simpl in Hv. subst v. by rewrite with_field_same.
Qed.

(** * Journals *)

Fixpoint valid_from (sessionId : string) (ids : gset string) (last : Z) (es : list jsv) : Prop :=
  match es with
  | [] => True
  | e :: es => placed sessionId ids last e /\ valid_from sessionId ({[entry_id e]} ∪ ids) (entry_seq e) es
  end.

(** What [prepareEntryBatch] lets a journal become. *)
Definition valid_log (sessionId : string) (es : list jsv) : Prop := valid_from sessionId ∅ 0 es.

(** The entry as it arrived, with its version. *)
Definition versioned (entry e : jsv) : Prop := exists fs, entry = VObj fs /\ e = with_field entry "version" (VNum 1).

Lemma prepare_loop_valid sessionId entries : forall ids last batch,
  prepare_loop sessionId ids last entries = Ok batch -> valid_from sessionId ids last batch /\ Forall2 versioned entries batch.
Proof.
  induction entries as [|entry entries IH]; intros ids last batch; simpl; [intros [= <-]; by split|].
  intros H. inv_bind. simplify_eq. apply prepare_entry_placed in Hv as [Hp Hver]. apply IH in Hv0 as [Hval Hall]. simpl. auto.
Qed.

Lemma valid_prepare_loop sessionId es : forall ids last,
  valid_from sessionId ids last es -> prepare_loop sessionId ids last es = Ok es.
Proof.
  induction es as [|e es IH]; intros ids last; simpl; [done|]. intros [Hp Hval]. by rewrite (placed_prepare _ _ _ _ Hp); simpl; rewrite IH.
Qed.

Lemma ids_of_cons e es : ids_of (e :: es) = {[entry_id e]} ∪ ids_of es.
Proof. done. Qed.

Lemma ids_of_app a b : ids_of (a ++ b) = ids_of a ∪ ids_of b.
Proof. unfold ids_of. rewrite map_app. apply list_to_set_app_L. Qed.

Lemma elem_of_ids id es : id ∈ ids_of es <-> exists e, e ∈ es /\ entry_id e = id.
Proof.
  unfold ids_of. rewrite elem_of_list_to_set, list_elem_of_fmap. split; intros (e & H1 & H2); exists e; auto.
Qed.

Definition last_from (last : Z) (es : list jsv) : Z := match list.last es with Some e => entry_seq e | None => last end.

Lemma last_from_cons x e es : last_from x (e :: es) = last_from (entry_seq e) es.
Proof. unfold last_from. destruct es as [|e' es]; [done|]. by destruct (list.last (e' :: es)) eqn:E; rewrite last_cons, E. Qed.

Lemma valid_from_app sessionId a b : forall ids x,
  valid_from sessionId ids x (a ++ b) <-> valid_from sessionId ids x a /\ valid_from sessionId (ids_of a ∪ ids) (last_from x a) b.
Proof.
  induction a as [|e a IH]; intros ids x.
  - simpl. unfold ids_of. simpl. by rewrite union_empty_l_L, (left_id True and).
  - simpl. rewrite IH, ids_of_cons, last_from_cons.
    replace (ids_of a ∪ ({[entry_id e]} ∪ ids)) with ({[entry_id e]} ∪ ids_of a ∪ ids) by set_solver. naive_solver.
Qed.

Lemma valid_log_app sessionId a b :
  valid_log sessionId (a ++ b) <-> valid_log sessionId a /\ valid_from sessionId (ids_of a) (last_seq a) b.
Proof. unfold valid_log. rewrite valid_from_app, union_empty_r_L. done. Qed.

Lemma prepareEntryBatch_valid sessionId current entries batch :
  valid_log sessionId current -> prepareEntryBatch sessionId current entries = Ok batch ->
  validateStorageId sessionId = true /\ valid_log sessionId (current ++ batch) /\ Forall2 versioned entries batch.
Proof.
  intros Hc. unfold prepareEntryBatch. destruct (validateStorageId sessionId); [|done]. cbn [negb].
  destruct (prepare_loop _ _ _ entries) as [b|e] eqn:E; [|done]. intros [= <-]. apply prepare_loop_valid in E as [Hb Hall].
  split_and!; [done|by apply valid_log_app|done].
Qed.

(** Preparing what is stored, in any pieces, changes nothing. *)
Lemma prepareEntryBatch_stored sessionId current batch :
  validateStorageId sessionId = true -> valid_log sessionId (current ++ batch) -> prepareEntryBatch sessionId current batch = Ok batch.
Proof.
  intros Hid [_ Hb]%valid_log_app. unfold prepareEntryBatch. rewrite Hid. cbn [negb]. by rewrite valid_prepare_loop.
Qed.

Lemma placed_seq sessionId ids x e : placed sessionId ids x e -> (x < entry_seq e)%Z /\ (Z.abs (entry_seq e) <= 2 ^ 53 - 1)%Z.
Proof. intros H. destruct (pl_seq _ _ _ _ H) as (n & Hn & ? & ?). unfold entry_seq. by rewrite Hn. Qed.

Lemma placed_fresh sessionId ids x e : placed sessionId ids x e -> entry_id e ∉ ids.
Proof. intros H. destruct (pl_id _ _ _ _ H) as (id & Hi & _ & ?). unfold entry_id. by rewrite Hi. Qed.

Lemma placed_parent sessionId ids x e : placed sessionId ids x e -> entry_parent e = None \/ exists p, entry_parent e = Some p /\ p ∈ ids.
Proof.
  intros H. unfold entry_parent. destruct (pl_parent _ _ _ _ H) as [->|(p & -> & ?)]; [by left|right; eauto].
Qed.

Definition seq_lt (a b : jsv) : Prop := (entry_seq a < entry_seq b)%Z.

Lemma valid_sorted sessionId es : forall ids x, valid_from sessionId ids x es ->
  StronglySorted seq_lt es /\ Forall (fun e => x < entry_seq e)%Z es.
Proof.
  induction es as [|e es IH]; intros ids x; simpl; [by repeat constructor|]. intros [Hp Hval].
  destruct (IH _ _ Hval) as [Hs Hall]. apply placed_seq in Hp as [Hx _]. split; constructor; try done.
  eapply Forall_impl; [exact Hall|]. simpl. lia.
Qed.

Lemma valid_log_sorted sessionId es : valid_log sessionId es -> StronglySorted seq_lt es.
Proof. intros H. exact (proj1 (valid_sorted _ _ _ _ H)). Qed.

Lemma valid_log_safe sessionId es e : valid_log sessionId es -> e ∈ es -> (Z.abs (entry_seq e) <= 2 ^ 53 - 1)%Z.
Proof.
  intros H (a & b & ->)%list_elem_of_split. apply valid_log_app in H as [_ [Hp _]]. by apply placed_seq in Hp as [_ ?].
Qed.

(** * Pages *)

Lemma filter_all {A} (p : A -> bool) l : Forall (fun x => p x = true) l -> List.filter p l = l.
Proof. induction 1 as [|x l Hx _ IH]; simpl; [done|]. by rewrite Hx, IH. Qed.

Lemma sorted_split a b : StronglySorted seq_lt (a ++ b) -> forall x y, x ∈ a -> y ∈ b -> seq_lt x y.
Proof.
  induction a as [|z a IH]; intros Hs x y Hx Hy; [by inversion Hx|]. simpl in Hs. inversion Hs as [|? ? Hs' Hall]; subst.
  rewrite Forall_forall in Hall. apply elem_of_cons in Hx as [->|Hx]; [|by eapply IH].
  apply Hall, elem_of_app. by right.
Qed.

Lemma last_seq_last l e : last_seq (l ++ [e]) = entry_seq e.
Proof. unfold last_seq. by rewrite last_snoc. Qed.

Lemma last_in (l : list jsv) e : list.last l = Some e -> e ∈ l.
Proof. intros (k & ->)%last_Some. apply elem_of_app. right. by left. Qed.

(** [upperSeq] separates a journal from what was appended to it. *)
Lemma below_upper J more : StronglySorted seq_lt (J ++ more) -> J <> [] ->
  Forall (fun e => entry_seq e <= last_seq J)%Z J /\ Forall (fun e => last_seq J < entry_seq e)%Z more.
Proof.
  intros Hs Hne. destruct (exists_last Hne) as (l & e & ->). rewrite last_seq_last. rewrite !Forall_forall. split.
  - intros x [Hx| ->%list_elem_of_singleton]%elem_of_app; [|lia]. rewrite <- app_assoc in Hs.
    pose proof (sorted_split l ([e] ++ more) Hs x e Hx ltac:(by left)). unfold seq_lt in *. lia.
  - intros y Hy. apply (sorted_split (l ++ [e]) more Hs e y); [|done]. apply elem_of_app. right. by left.
Qed.

Definition in_direction (direction : string) (l : list jsv) : list jsv := if bool_decide (direction = "backward") then rev l else l.

Definition cursor_at (sessionId direction : string) (upper : Z) (e : jsv) : cursor :=
  MkCursor 1 sessionId direction upper (entry_seq e) (entry_id e).

(** The cursor of a traversal of [J] that has seen [seen]. *)
Definition cursor_after (sessionId direction : string) (J seen : list jsv) : option cursor :=
  option_map (cursor_at sessionId direction (last_seq J)) (list.last seen).

(** What [pageEntries] selects, before it puts it in order. *)
Definition eligible (direction : string) (upper : Z) (c : option cursor) (entries : list jsv) : list jsv :=
  List.filter (fun e => (entry_seq e <=? upper)%Z &&
    match c with
    | None => true
    | Some c => if bool_decide (direction = "forward") then (c_lastSeq c <? entry_seq e)%Z else (entry_seq e <? c_lastSeq c)%Z
    end) entries.

Lemma sorted_prefix a b : StronglySorted seq_lt (a ++ b) -> StronglySorted seq_lt a.
Proof.
  induction a as [|y a IH]; [constructor|]. simpl. intros Hs. inversion Hs as [|? ? H1 H2]; subst.
  constructor; [by apply IH|]. by apply Forall_app in H2 as [? _].
Qed.

(** A sorted journal around one of its entries. *)
Lemma around a x b : StronglySorted seq_lt (a ++ x :: b) ->
  Forall (fun y => entry_seq y < entry_seq x)%Z a /\ Forall (fun y => entry_seq x < entry_seq y)%Z b.
Proof.
  intros Hs. rewrite !Forall_forall. split; intros y Hy.
  - apply (sorted_split _ _ Hs y x Hy). by left.
  - apply (sorted_split (a ++ [x]) b); [by rewrite <- app_assoc| |done]. apply elem_of_app. right. by left.
Qed.

(** Keeping what is after, or before, an entry of a sorted journal below [upper]. *)
Lemma filter_after upper a x b :
  StronglySorted seq_lt (a ++ x :: b) -> Forall (fun e => entry_seq e <= upper)%Z (a ++ x :: b) ->
  List.filter (fun e => (entry_seq e <=? upper) && (entry_seq x <? entry_seq e))%Z (a ++ x :: b) = b.
Proof.
  intros Hs Hup. apply around in Hs as [Ha Hb]. apply Forall_app in Hup as [_ Hup]. apply Forall_cons in Hup as [_ Hup].
  change (x :: b) with ([x] ++ b). rewrite !List.filter_app, (filter_none _ a), (filter_none _ [x]), filter_all; [done| | |].
  - rewrite Forall_forall in *. intros y Hy. apply andb_true_iff. rewrite Z.leb_le, Z.ltb_lt. auto.
  - constructor; [by rewrite Z.ltb_irrefl, andb_false_r|done].
  - eapply Forall_impl; [exact Ha|]. simpl. intros y Hy. apply andb_false_iff. right. apply Z.ltb_ge. lia.
Qed.

Lemma filter_before upper a x b :
  StronglySorted seq_lt (a ++ x :: b) -> Forall (fun e => entry_seq e <= upper)%Z (a ++ x :: b) ->
  List.filter (fun e => (entry_seq e <=? upper) && (entry_seq e <? entry_seq x))%Z (a ++ x :: b) = a.
Proof.
  intros Hs Hup. apply around in Hs as [Ha Hb]. apply Forall_app in Hup as [Hup _].
  rewrite List.filter_app, filter_all, filter_none, app_nil_r; [done| |].
  - constructor; [by rewrite Z.ltb_irrefl, andb_false_r|]. eapply Forall_impl; [exact Hb|]. simpl. intros y Hy.
    apply andb_false_iff. right. apply Z.ltb_ge. lia.
  - rewrite Forall_forall in *. intros y Hy. apply andb_true_iff. rewrite Z.leb_le, Z.ltb_lt. auto.
Qed.

Lemma eligible_rest sessionId direction J more seen rest :
  StronglySorted seq_lt (J ++ more) -> direction = "forward" \/ direction = "backward" ->
  in_direction direction J = seen ++ rest -> J <> [] ->
  in_direction direction (eligible direction (last_seq J) (cursor_after sessionId direction J seen) (J ++ more)) = rest.
Proof.
  intros Hs Hd Hj Hne. destruct (below_upper J more Hs Hne) as [Hlow Hup]. unfold eligible. rewrite List.filter_app.
  rewrite (filter_none _ more) by (eapply Forall_impl; [exact Hup|]; simpl; intros e He; by rewrite (proj2 (Z.leb_gt _ _) He)).
  rewrite app_nil_r. apply sorted_prefix in Hs. unfold cursor_after. destruct (list.last seen) as [x|] eqn:El; simpl.
  - apply last_Some in El as (l & ->). rewrite <- app_assoc in Hj. destruct Hd as [->| ->]; unfold in_direction in *; simpl in *.
    + subst J. by apply filter_after.
    + assert (J = rev rest ++ x :: rev l) as HJ by (rewrite <- (rev_involutive J), Hj, rev_app_distr; simpl; by rewrite <- app_assoc).
      generalize dependent (last_seq J). intros upper Hlow _. rewrite HJ in *. rewrite filter_before by done. apply rev_involutive.
  - apply last_None in El as ->. simpl in Hj. rewrite filter_all; [done|].
    eapply Forall_impl; [exact Hlow|]. simpl. intros e He. by rewrite (proj2 (Z.leb_le _ _) He).
Qed.

Lemma in_direction_in direction J e : e ∈ in_direction direction J <-> e ∈ J.
Proof. unfold in_direction. case_bool_decide; [|done]. rewrite !list_elem_of_In. symmetry. apply in_rev. Qed.

(** The cursors of a traversal are accepted, whatever was appended since. *)
Lemma cursor_after_valid sessionId direction J more seen rest c :
  valid_log sessionId (J ++ more) -> in_direction direction J = seen ++ rest -> cursor_after sessionId direction J seen = Some c ->
  valid_cursor sessionId direction (last_seq J) (J ++ more) c = true /\ J <> [] /\ c_direction c = direction /\ c_upperSeq c = last_seq J.
Proof.
  intros Hval Hj. unfold cursor_after. destruct (list.last seen) as [x|] eqn:El; [|done]. intros [= <-].
  assert (Hx : x ∈ J) by (apply (in_direction_in direction); rewrite Hj; apply elem_of_app; left; by apply last_in).
  assert (Hne : J <> []) by (intros ->; inversion Hx). destruct (exists_last Hne) as (l & e & HJ).
  split_and!; try done. unfold valid_cursor. simpl.
  destruct (below_upper J more (valid_log_sorted _ _ Hval) Hne) as [Hlow _]. rewrite Forall_forall in Hlow.
  assert (Hl : last_seq J = entry_seq e) by (rewrite HJ; apply last_seq_last).
  assert (HeJ : e ∈ J ++ more) by (rewrite HJ; do 2 (apply elem_of_app; (by right; left) || left); apply elem_of_app; right; by left).
  rewrite !bool_decide_eq_true_2 by done. rewrite !andb_true_iff, !Z.leb_le, !existsb_exists. split_and!; try done.
  - rewrite Hl. by eapply valid_log_safe.
  - by apply Hlow.
  - exists e. split; [by apply list_elem_of_In|]. apply Z.eqb_eq. done.
  - exists x. split; [apply list_elem_of_In, elem_of_app; by left|]. by rewrite Z.eqb_refl, bool_decide_eq_true_2.
Qed.

Lemma pageEntries_rest sessionId direction J more seen rest limit dir :
  validateStorageId sessionId = true -> valid_log sessionId (J ++ more) -> (1 <= limit <= 1000)%Z ->
  direction = "forward" \/ direction = "backward" -> in_direction direction J = seen ++ rest -> (seen = [] -> more = []) ->
  default (default "forward" (option_map c_direction (cursor_after sessionId direction J seen))) dir = direction ->
  pageEntries sessionId (J ++ more) (MkOptions (Some limit) dir (cursor_after sessionId direction J seen)) =
    Ok (MkPage (ztake limit rest) (if (limit <? zlen rest)%Z then cursor_after sessionId direction J (seen ++ ztake limit rest) else None)).
Proof.
  intros Hid Hval Hl Hd Hj Hfirst Hdir. unfold pageEntries. rewrite Hid. cbn [negb o_limit o_direction o_cursor default]. change (id limit) with limit.
  rewrite (proj2 (Z.ltb_ge _ _) (proj1 Hl)), (proj2 (Z.ltb_ge _ _) (proj2 Hl)). cbn [orb]. cbn zeta. rewrite Hdir.
  assert (negb (bool_decide (direction = "forward")) && negb (bool_decide (direction = "backward")) = false) as ->.
  { by destruct Hd as [->| ->]. }
  assert (default (last_seq (J ++ more)) (option_map c_upperSeq (cursor_after sessionId direction J seen)) = last_seq J) as ->.
  { destruct (cursor_after sessionId direction J seen) as [c|] eqn:Ec.
    - by destruct (cursor_after_valid _ _ _ _ _ _ _ Hval Hj Ec) as (_ & _ & _ & Hu).
    - unfold cursor_after in Ec. destruct (list.last seen) eqn:El; [done|]. apply last_None in El. rewrite Hfirst, app_nil_r by done. done. }
  assert ((match cursor_after sessionId direction J seen with
           | Some c => negb (valid_cursor sessionId direction (last_seq J) (J ++ more) c) | None => false end) = false) as ->.
  { destruct (cursor_after sessionId direction J seen) as [c|] eqn:Ec; [|done].
    by rewrite (proj1 (cursor_after_valid _ _ _ _ _ _ _ Hval Hj Ec)). }
  fold (eligible direction (last_seq J) (cursor_after sessionId direction J seen) (J ++ more)).
  fold (in_direction direction (eligible direction (last_seq J) (cursor_after sessionId direction J seen) (J ++ more))).
  assert (in_direction direction (eligible direction (last_seq J) (cursor_after sessionId direction J seen) (J ++ more)) = rest) as ->.
  { destruct (decide (J = [])) as [->|Hne]; [|apply eligible_rest; try done; by apply valid_log_sorted in Hval].
    assert (seen = [] /\ rest = []) as [-> ->].
    { unfold in_direction in Hj. apply app_eq_nil. rewrite <- Hj. by case_bool_decide. }
    rewrite Hfirst by done. unfold eligible, in_direction. by case_bool_decide. }
  f_equal. f_equal. destruct (Z.ltb_spec limit (zlen rest)) as [Hlt|Hge]; [|by destruct (list.last (ztake limit rest))].
  unfold cursor_after. rewrite list.last_app. destruct (list.last (ztake limit rest)) as [e|] eqn:El; [done|].
  apply last_None in El. pose proof (zlen_ztake limit rest ltac:(lia)) as Hz. rewrite El, zlen_nil in Hz. lia.
Qed.

(** * Forks *)

Lemma valid_fresh sessionId a e b : valid_log sessionId (a ++ e :: b) ->
  placed sessionId (ids_of a) (last_seq a) e /\ entry_id e ∉ ids_of b.
Proof.
  intros [_ [Hp Hb]]%valid_log_app. split; [done|]. intros (e' & He' & Hid)%elem_of_ids.
  apply list_elem_of_split in He' as (b1 & b2 & ->). apply valid_from_app in Hb as [_ [Hp' _]]. apply placed_fresh in Hp'. set_solver.
Qed.

Lemma valid_id_unique sessionId J e e' : valid_log sessionId J -> e ∈ J -> e' ∈ J -> entry_id e = entry_id e' -> e = e'.
Proof.
  intros H (a & b & ->)%list_elem_of_split He' Hid. apply valid_fresh in H as [Hp Hb]. apply placed_fresh in Hp.
  apply elem_of_app in He' as [He'|[->|He']%elem_of_cons]; [|done|].
  - destruct Hp. apply elem_of_ids. eauto.
  - destruct Hb. apply elem_of_ids. eauto.
Qed.

Lemma find_entry sessionId J e : valid_log sessionId J -> e ∈ J ->
  List.find (fun x => bool_decide (entry_id x = entry_id e)) (rev J) = Some e.
Proof.
  intros H He. destruct (List.find _ (rev J)) as [x|] eqn:E.
  - apply find_some in E as [Hx Hid]. apply bool_decide_eq_true in Hid. f_equal. eapply valid_id_unique; [done| |done|done].
    apply list_elem_of_In. by apply in_rev.
  - assert (Hin : In e (rev J)) by (apply in_rev; rewrite rev_involutive; by apply list_elem_of_In).
    pose proof (find_none _ _ E e Hin) as Hf. cbn beta in Hf. by rewrite bool_decide_eq_true_2 in Hf.
Qed.

(** The entries from one to its root, as the parents say. *)
Inductive ancestry (J : list jsv) : option string -> list jsv -> Prop :=
| anc_root : ancestry J None []
| anc_step e path : e ∈ J -> ancestry J (entry_parent e) path -> ancestry J (Some (entry_id e)) (e :: path).

Lemma ancestry_det sessionId J id p : valid_log sessionId J -> ancestry J id p -> forall p', ancestry J id p' -> p = p'.
Proof.
  intros H. induction 1 as [|e p He _ IH]; intros p' Hp'; inversion Hp' as [|e' q He' Hq]; subst; [done|].
  assert (e' = e) as -> by (by eapply valid_id_unique). f_equal. by apply IH.
Qed.

(** The climb from an entry finds its ancestry: parents come first in a valid journal, so it
    meets no identifier twice. *)
Lemma climb_ancestry sessionId J (n : nat) : valid_log sessionId J -> forall a e b fuel seen,
  J = a ++ e :: b -> length a < n -> length a < fuel -> (forall id, id ∈ ids_of a -> id ∉ seen) -> entry_id e ∉ seen ->
  exists path, climb J fuel seen (Some (entry_id e)) = Ok (e :: path) /\ ancestry J (Some (entry_id e)) (e :: path) /\ Forall (fun x => x ∈ a) path.
Proof.
  intros Hval. induction n as [|n IH]; intros a e b fuel seen HJ Hn Hfuel Hseen He; [lia|]. destruct fuel as [|fuel]; [lia|].
  assert (HeJ : e ∈ J) by (rewrite HJ; apply elem_of_app; right; by left). cbn [climb].
  rewrite (find_entry sessionId J e Hval HeJ). rewrite (bool_decide_eq_false_2 _ He).
  pose proof Hval as Hval'. rewrite HJ in Hval'. destruct (valid_fresh _ _ _ _ Hval') as [Hp _].
  destruct (placed_parent _ _ _ _ Hp) as [Hpar|(p & Hpar & Hin)]; rewrite Hpar.
  - exists []. split_and!; [by destruct fuel| |done]. constructor; [done|]. rewrite Hpar. constructor.
  - apply elem_of_ids in Hin as (e' & He' & <-). apply list_elem_of_split in He' as (a1 & a2 & ->). rewrite length_app in *. simpl in *.
    assert (Hfr : entry_id e' ∉ ids_of a1 /\ entry_id e ∉ ids_of (a1 ++ e' :: a2)).
    { split; [|by apply placed_fresh in Hp]. apply valid_log_app in Hval' as [Hv _]. apply valid_fresh in Hv as [Hv _]. by apply placed_fresh in Hv. }
    destruct Hfr as [Hf1 Hf2]. rewrite ids_of_app, ids_of_cons in *.
    destruct (IH a1 e' (a2 ++ e :: b) fuel ({[entry_id e]} ∪ seen)) as (path & Hc & Han & Hall); [by rewrite HJ, <- app_assoc|lia|lia| | |].
    + intros id Hid. specialize (Hseen id). set_solver.
    + specialize (Hseen (entry_id e')). set_solver.
    + rewrite Hc. exists (e' :: path). split_and!; [done|constructor; [done|by rewrite Hpar]|]. constructor; [set_solver|].
      eapply Forall_impl; [exact Hall|]. simpl. intros x Hx. apply elem_of_app. by left.
Qed.

Lemma with_session sessionId target ids x e : placed sessionId ids x e -> forall ids' x',
  entry_id e ∉ ids' -> (x' < entry_seq e)%Z -> (forall p, entry_parent e = Some p -> p ∈ ids') ->
  placed target ids' x' (with_field e "sessionId" (VStr target)).
Proof.
  intros [(fs & ->) Hsafe Hs (id & Hi & Hb & Hids) (n & Hn & Hsn & Hl) Hp (t & Ht) (ty & Hty & Hne) Hv] ids' x' Hid Hx Hpar.
  unfold entry_id, entry_seq, entry_parent in *. rewrite Hi, Hn in *. cbn [as_str as_num with_field] in *.
  constructor; rewrite ?prop_set; eauto.
  - by apply json_safe_set.
  - destruct Hp as [->|(p & Hp & _)]; [by left|]. rewrite Hp in *. right. eauto.
Qed.

Lemma entry_with_session e fs target : e = VObj fs -> 
  entry_id (with_field e "sessionId" (VStr target)) = entry_id e /\ entry_seq (with_field e "sessionId" (VStr target)) = entry_seq e.
Proof. intros ->. unfold entry_id, entry_seq. cbn [with_field]. by rewrite !prop_set. Qed.

Definition moved (target : string) (e : jsv) : jsv := with_field e "sessionId" (VStr target).

Lemma moved_same sessionId J target e : valid_log sessionId J -> e ∈ J ->
  entry_id (moved target e) = entry_id e /\ entry_seq (moved target e) = entry_seq e.
Proof.
  intros H (a & b & ->)%list_elem_of_split. apply valid_fresh in H as [Hp _]. destruct (pl_object _ _ _ _ Hp) as (fs & Hfs).
  by apply (entry_with_session e fs).
Qed.

Lemma ids_of_moved sessionId J target l : valid_log sessionId J -> Forall (fun x => x ∈ J) l -> ids_of (map (moved target) l) = ids_of l.
Proof.
  intros H. induction 1 as [|x l Hx _ IH]; [done|]. cbn [map]. rewrite !ids_of_cons, IH. by rewrite (proj1 (moved_same _ _ target _ H Hx)).
Qed.

Lemma last_seq_moved sessionId J target l : valid_log sessionId J -> Forall (fun x => x ∈ J) l -> last_seq (map (moved target) l) = last_seq l.
Proof.
  intros H Hl. destruct (decide (l = [])) as [->|Hne]; [done|]. destruct (exists_last Hne) as (k & x & ->).
  rewrite map_app. simpl. rewrite !last_seq_last. apply (moved_same sessionId J); [done|]. apply Forall_app in Hl as [_ Hx]. by inversion Hx.
Qed.

Lemma ancestry_in J id path : ancestry J id path -> Forall (fun x => x ∈ J) path.
Proof. induction 1; by constructor. Qed.

(** An ancestry lies before the entry it starts from. *)
Lemma ancestry_before sessionId a e b path :
  valid_log sessionId (a ++ e :: b) -> ancestry (a ++ e :: b) (Some (entry_id e)) (e :: path) -> Forall (fun x => x ∈ a) path.
Proof.
  intros H Han. destruct (climb_ancestry sessionId _ (S (length a)) H a e b (S (length a)) ∅ eq_refl) as (p & _ & Hp & Hall); [lia|lia|set_solver|set_solver|].
  pose proof (ancestry_det _ _ _ _ H Han _ Hp) as E. by simplify_eq.
Qed.

Lemma seq_positive sessionId J e : valid_log sessionId J -> e ∈ J -> (0 < entry_seq e)%Z.
Proof. intros H He. destruct (valid_sorted _ _ _ _ H) as [_ Hall]. rewrite Forall_forall in Hall. by apply Hall. Qed.

(** The ancestry of an entry, root first, is a valid journal of another session. *)
Lemma ancestry_valid sessionId target J id path : valid_log sessionId J -> ancestry J id path -> valid_log target (map (moved target) (rev path)).
Proof.
  intros H. induction 1 as [|e path He Han IH]; [done|]. simpl. rewrite map_app. apply valid_log_app. split; [done|]. simpl. split; [|done].
  assert (Hfull : ancestry J (Some (entry_id e)) (e :: path)) by by constructor.
  pose proof (ancestry_in _ _ _ Han) as Hin. assert (Hrev : Forall (fun x => x ∈ J) (rev path)) by (by apply Forall_rev).
  rewrite (ids_of_moved sessionId J), (last_seq_moved sessionId J) by done.
  apply list_elem_of_split in He as He'. destruct He' as (a & b & HJ). rewrite HJ in Hfull. pose proof H as H'. rewrite HJ in H'.
  pose proof (ancestry_before _ _ _ _ _ H' Hfull) as Hbefore. destruct (valid_fresh _ _ _ _ H') as [Hp _].
  destruct (around _ _ _ (valid_log_sorted _ _ H')) as [Hlow _]. rewrite Forall_forall in Hbefore, Hlow.
  apply (with_session _ _ _ _ _ Hp).
  - intros (x & Hx & Hid)%elem_of_ids. apply (placed_fresh _ _ _ _ Hp). apply elem_of_ids. exists x. split; [|done].
    apply Hbefore. apply list_elem_of_In. apply in_rev. by apply list_elem_of_In.
  - destruct path as [|p path]; [by apply (seq_positive sessionId J)|]. simpl. rewrite last_seq_last. apply Hlow, Hbefore. by left.
  - intros q Hq. rewrite Hq in Han. inversion Han; subst. apply elem_of_ids. eexists. split; [|done]. simpl. apply elem_of_app. right. by left.
Qed.

(** A whole journal moves too. *)
Lemma moved_valid sessionId target J : forall J', valid_log sessionId (J' ++ J) -> valid_log target (map (moved target) J') ->
  valid_log target (map (moved target) (J' ++ J)).
Proof.
  induction J as [|e J IH]; intros J' H H'; [by rewrite app_nil_r|].
  replace (J' ++ e :: J) with ((J' ++ [e]) ++ J) in * by (by rewrite <- app_assoc). apply IH; [done|].
  rewrite map_app. apply valid_log_app. split; [done|]. simpl. split; [|done]. rewrite <- app_assoc in H. simpl in H.
  assert (Hin : Forall (fun x => x ∈ J' ++ e :: J) J') by (apply Forall_forall; intros x Hx; apply elem_of_app; by left).
  rewrite (ids_of_moved sessionId (J' ++ e :: J)), (last_seq_moved sessionId (J' ++ e :: J)) by done.
  destruct (valid_fresh _ _ _ _ H) as [Hp _]. apply (with_session _ _ _ _ _ Hp); [by apply placed_fresh in Hp|by apply placed_seq in Hp as [? _]|].
  intros p Hpar. destruct (placed_parent _ _ _ _ Hp) as [?|(q & ? & ?)]; congruence.
Qed.

Lemma climb_total source J id : valid_log source J -> (forall i, id = Some i -> i ∈ ids_of J) ->
  exists path, climb J (length J) ∅ id = Ok path /\ ancestry J id path.
Proof.
  intros H Hid. destruct id as [id|]; [|exists []; split; [by destruct (length J)|constructor]].
  destruct (proj1 (elem_of_ids _ _) (Hid id eq_refl)) as (e & He & <-). apply list_elem_of_split in He as (a & b & HJ).
  destruct (climb_ancestry source J (S (length a)) H a e b (length J) ∅ HJ) as (path & -> & Han & _); [lia| |set_solver|set_solver|eauto].
  rewrite HJ, length_app. simpl. lia.
Qed.

Lemma climb_unknown J id fuel seen : id ∉ ids_of J -> climb J fuel seen (Some id) = Err ForkHead.
Proof.
  intros Hout. assert (List.find (fun e => bool_decide (entry_id e = id)) (rev J) = None) as E.
  { destruct (List.find _ (rev J)) as [x|] eqn:E; [|done]. apply find_some in E as [Hx Hid]. apply bool_decide_eq_true in Hid.
    destruct Hout. apply elem_of_ids. exists x. split; [|done]. apply list_elem_of_In. by apply in_rev. }
  destruct fuel; simpl; by rewrite E.
Qed.

(** Forking a valid journal: the whole of it, or the ancestry of a head; it is refused for
    these reasons only. *)
Definition fork_selects (target : string) (J : list jsv) (headId : option (option string)) (selected : list jsv) : Prop :=
  match headId with
  | None => selected = map (moved target) J
  | Some id => exists path, ancestry J id path /\ selected = map (moved target) (rev path)
  end.

Lemma forkEntries_cases source target J T headId :
  valid_log source J -> validateStorageId source = true -> validateStorageId target = true ->
  (exists selected, forkEntries source target J T headId = Ok selected /\ source <> target /\ T = [] /\
     valid_log target selected /\ fork_selects target J headId selected) \/
  (exists e, forkEntries source target J T headId = Err e /\
     (source = target \/ T <> [] \/ exists id, headId = Some (Some id) /\ id ∉ ids_of J)).
Proof.
  intros H Hs Ht. unfold forkEntries. rewrite Hs, Ht. cbn [negb]. case_bool_decide as Hst; [right; eauto|]. cbn [orb].
  case_bool_decide as HT; [apply nil_length_inv in HT as ->|]; cbn [negb].
  2:{ right. eexists. split; [done|]. right. left. by intros ->. }
  destruct headId as [id|]; cbn [bind_res].
  - destruct id as [id|]; [destruct (decide (id ∈ ids_of J)) as [Hin|Hout]|].
    + destruct (climb_total source J (Some id) H) as (path & -> & Han); [by intros i [= <-]|]. left. cbn [bind_res]. eexists. split_and!; try done.
      * by eapply ancestry_valid.
      * by exists path.
    + rewrite climb_unknown by done. right. eexists. split; [done|]. eauto.
    + destruct (climb_total source J None H) as (path & -> & Han); [done|]. left. cbn [bind_res]. eexists. split_and!; try done.
      * by eapply ancestry_valid.
      * by exists path.
  - left. eexists. split_and!; try done. by apply (moved_valid source target J []).
Qed.
