(* ===== verification/JsonLines.v ===== *)
(** Files of JSON records, one per line ([parseJsonl] and [appendJsonl] of
    session-backends/src/jsonl.ts), and what a write that does not finish leaves of them.

    Modelling choices: a directory is a finite map from names to contents; an append runs with
    an outcome, [None] when every byte is written and flushed, [Some n] when the process dies
    or the call fails after [n] bytes reached the file. *)

From Stdlib Require Import Ascii.
From S2P Require Import Prelude JsValue JsonText JsonTextProofs SessionEntries.

Abbreviation dir := (gmap string text).

Definition newline : ascii := chr 10.
Definition is_newline (c : ascii) : bool := (code c =? 10)%N.

(** [content.split('\n')]. *)
Fixpoint split_lines (t : text) : list text :=
  match t with
  | [] => [[]]
  | c :: t =>
      if is_newline c then [] :: split_lines t
      else match split_lines t with l :: ls => (c :: l) :: ls | [] => [[c]] end
  end.

Definition ends_with_newline (t : text) : bool := match last t with Some c => is_newline c | None => false end.

(** * Reading *)

(** The loop of [parseJsonl] from the line [index] on. *)
Fixpoint parse_lines (ended : bool) (index : nat) (lines : list text) : result backend_error (list jsv) :=
  match lines with
  | [] => Ok []
  | line :: lines =>
      if blank line then parse_lines ended (S index) lines
      else
        match JSON_parse line with
        | Some record => let* records := parse_lines ended (S index) lines in Ok (record :: records)
        | None => if negb ended && bool_decide (length lines = 0) then Ok [] else Err (CorruptRecord (S index))
        end
  end.

Definition parseJsonl (content : text) : result backend_error (list jsv) :=
  match content with
  | [] => Ok []
  | _ =>
      let ended := ends_with_newline content in
      let lines := split_lines content in
      parse_lines ended 0 (if ended then removelast lines else lines)
  end.

(** * Appending *)

(** [chunk.lastIndexOf(0x0a)]. *)
Fixpoint last_newline (t : text) : option nat :=
  match t with
  | [] => None
  | c :: t => match last_newline t with Some i => Some (S i) | None => if is_newline c then Some 0 else None end
  end.

(** The search of [appendJsonl] for the start of the last line, in chunks from the end of the
    file; the fuel is the size of the file. *)
Fixpoint line_start (fuel : nat) (content : text) (cursor : nat) : nat :=
  match fuel with
  | O => 0
  | S fuel =>
      if (cursor =? 0)%nat then 0
      else
        let len := Nat.min cursor 4096 in
        let cursor := cursor - len in
        match last_newline (take len (drop cursor content)) with
        | Some i => cursor + i + 1
        | None => line_start fuel content cursor
        end
  end.

(** What is written between the content of a file and a new record. *)
Definition separator (content : text) : result backend_error text :=
  if bool_decide (content = []) || ends_with_newline content then Ok []
  else match JSON_parse (drop (line_start (length content) content (length content)) content) with
       | Some _ => Ok [newline]
       | None => Err RejectedTail
       end.

Definition appendJsonl (io : option nat) (files : dir) (path : string) (content : text) : dir * result backend_error unit :=
  let old := default [] (files !! path) in
  match separator old with
  | Err e => (files, Err e)
  | Ok sep =>
      match io with
      | None => (<[path := old ++ sep ++ content]> files, Ok tt)
      | Some n => (<[path := old ++ take n (sep ++ content)]> files, Err UnknownOutcome)
      end
  end.

(** * Lines *)

Definition one_line (t : text) : Prop := Forall (fun c => is_newline c = false) t.

Lemma split_line l t : one_line l -> split_lines (l ++ newline :: t) = l :: split_lines t.
Proof. induction 1 as [|c l Hc _ IH]; [done|]. simpl. rewrite Hc. simpl in IH. by rewrite IH. Qed.

Lemma split_one_line l : one_line l -> split_lines l = [l].
Proof. induction 1 as [|c l Hc _ IH]; [done|]. simpl. by rewrite Hc, IH. Qed.

Lemma one_line_prefix l k : one_line (l ++ k) -> one_line l.
Proof. by intros [? _]%Forall_app. Qed.

Lemma ends_with_newline_snoc l : ends_with_newline (l ++ [newline]) = true.
Proof. unfold ends_with_newline. by rewrite last_snoc. Qed.

Lemma ends_one_line l k : one_line k -> k <> [] -> ends_with_newline (l ++ k) = false.
Proof.
  intros Hk Hn. destruct (exists_last Hn) as (k' & c & ->). unfold ends_with_newline. rewrite app_assoc, last_snoc.
  apply Forall_app in Hk as [_ Hk]. by inversion Hk.
Qed.

(** A file of records: a line for each, and an unfinished line. *)
Definition lines_of (records : list jsv) : text := List.concat (map (fun r => JSON_text r ++ [newline]) records).

Lemma lines_of_app r1 r2 : lines_of (r1 ++ r2) = lines_of r1 ++ lines_of r2.
Proof. unfold lines_of. by rewrite map_app, concat_app. Qed.

Lemma text_one_line v : plain v -> one_line (JSON_text v).
Proof. intros H. eapply Forall_impl; [by apply visible_text|]. simpl. intros c Hc. unfold is_newline. apply N.eqb_neq. lia. Qed.

Lemma split_records records tail :
  Forall plain records -> one_line tail -> split_lines (lines_of records ++ tail) = map JSON_text records ++ [tail].
Proof.
  intros H Ht. induction H as [|r records Hr _ IH]; [by apply split_one_line|].
  change (lines_of (r :: records)) with ((JSON_text r ++ [newline]) ++ lines_of records). rewrite <- !app_assoc. simpl.
  rewrite split_line by (by apply text_one_line). by rewrite IH.
Qed.

Lemma text_not_blank v : blank (JSON_text v) = false.
Proof.
  unfold JSON_text. destruct v as [| |[]|n|s|items|fs]; cbn [stringify]; rewrite ?chars_quote, ?chars_app; try done.
  destruct (number_head n) as (c & t & -> & Hc). simpl. unfold is_space.
  rewrite (proj2 (N.eqb_neq (code c) 32)), (proj2 (N.leb_gt (code c) 13)), andb_false_r by lia. done.
Qed.

(** The lines of the records are read, then the last one. *)
Lemma parse_record_lines ended records tl : Forall plain records -> forall index,
  parse_lines ended index (map JSON_text records ++ tl) =
    let* more := parse_lines ended (index + length records) tl in Ok (records ++ more).
Proof.
  induction 1 as [|r records Hr _ IH]; intros index; simpl.
  - rewrite Nat.add_0_r. by destruct (parse_lines ended index tl).
  - rewrite text_not_blank, parse_stringify, IH by done. rewrite <- Nat.add_succ_comm. by destruct (parse_lines _ _ tl).
Qed.

(** What is read of the line after the last newline. *)
Definition tail_records (tail : text) : list jsv :=
  match JSON_parse tail with Some r => if blank tail then [] else [r] | None => [] end.

Lemma parseJsonl_records records tail :
  Forall plain records -> one_line tail -> parseJsonl (lines_of records ++ tail) = Ok (records ++ tail_records tail).
Proof.
  intros Hr Ht. unfold parseJsonl. destruct (lines_of records ++ tail) as [|c content] eqn:E.
  - apply app_eq_nil in E as [E ->]. destruct records as [|r records]; [done|]. unfold lines_of in E. simpl in E.
    rewrite <- app_assoc in E. by destruct (JSON_text r).
  - rewrite <- E. rewrite split_records by done. destruct tail as [|d tail'] eqn:Et.
    + rewrite app_nil_r in *. destruct (exists_last (l := records)) as (rs & r & ->); [by intros ->|].
      assert (ends_with_newline (lines_of (rs ++ [r])) = true) as ->.
      { rewrite lines_of_app. unfold lines_of at 2. simpl. by rewrite app_nil_r, app_assoc, ends_with_newline_snoc. }
      rewrite removelast_last. pose proof (parse_record_lines true (rs ++ [r]) [] Hr 0) as H. rewrite app_nil_r in H. by rewrite H.
    + rewrite ends_one_line by done. rewrite parse_record_lines by done. rewrite <- Et in *. unfold tail_records. simpl.
      destruct (blank tail) eqn:Eb; simpl; [by destruct (JSON_parse tail)|]. by destruct (JSON_parse tail).
Qed.

(** * The search for the last line *)

Lemma last_newline_none t : one_line t -> last_newline t = None.
Proof. induction 1 as [|c t Hc _ IH]; [done|]. simpl. by rewrite IH, Hc. Qed.

Lemma last_newline_app l k : one_line k -> last_newline (l ++ newline :: k) = Some (length l).
Proof. intros Hk. induction l as [|c l IH]; simpl; [by rewrite last_newline_none|by rewrite IH]. Qed.

(** A text that is empty or ends with a newline. *)
Definition whole_lines (t : text) : Prop := t = [] \/ exists l, t = l ++ [newline].

Lemma lines_whole records : whole_lines (lines_of records).
Proof.
  induction records as [|r rs _] using rev_ind; [by left|]. right. rewrite lines_of_app. unfold lines_of at 2. simpl.
  rewrite app_nil_r, app_assoc. by eexists.
Qed.

Lemma line_start_spec fuel : forall pre tail cursor,
  whole_lines pre -> one_line tail -> length pre <= cursor <= length (pre ++ tail) -> cursor <= fuel ->
  line_start fuel (pre ++ tail) cursor = length pre.
Proof.
  induction fuel as [|fuel IH]; intros pre tail cursor Hp Ht Hc Hf; [simpl; lia|]. simpl. destruct (Nat.eqb_spec cursor 0); [lia|].
  set (len := Nat.min cursor 4096). set (cur := cursor - len).
  assert (cur + len = cursor /\ 1 <= len) as [Hcl Hl] by (subst cur len; lia). clearbody cur len.
  destruct (decide (length pre <= cur)) as [Hle|Hgt].
  - rewrite last_newline_none; [apply IH; (done || lia)|]. rewrite drop_app_ge by done. by apply Forall_take, Forall_drop.
  - destruct Hp as [->|(l & ->)]; [simpl in *; lia|]. rewrite length_app in *. simpl in *.
    rewrite <- app_assoc. rewrite drop_app_le by lia. rewrite take_app_ge by (rewrite length_drop; lia).
    rewrite length_drop. destruct (len - (length l - cur)) as [|k] eqn:E; [lia|]. simpl.
    rewrite last_newline_app by (by apply Forall_take). rewrite length_drop. lia.
Qed.

Lemma separator_records records tail :
  one_line tail ->
  separator (lines_of records ++ tail) =
    if bool_decide (tail = []) then Ok [] else match JSON_parse tail with Some _ => Ok [newline] | None => Err RejectedTail end.
Proof.
  intros Ht. unfold separator. destruct (decide (tail = [])) as [->|Et].
  - rewrite app_nil_r, (bool_decide_eq_true_2 ([] = [])) by done.
    destruct (lines_whole records) as [->|(l & ->)]; [done|]. by rewrite ends_with_newline_snoc, orb_true_r.
  - rewrite !bool_decide_eq_false_2 by (done || by intros [_ ?]%app_eq_nil). rewrite ends_one_line by done. simpl.
    rewrite line_start_spec; [|apply lines_whole|done|rewrite length_app; lia|done]. by rewrite drop_app_length.
Qed.
