(* ===== verification/SessionBackends.v ===== *)
(** The session backends of packages/session-backends: [MemorySessionBackend] (memory.ts) and
    [JsonlSessionBackend] (jsonl.ts), behind the part of the port [ISessionBackend] (types.ts)
    that journals and deltas need.

    Modelling choices: a call runs to its end before the next one, as the bodies of both
    classes have no [await] on anything that is not finished; the directory of a JSONL backend
    exists and is written by one process, as its contract asks.  The snapshot files of the
    JSONL backend and the keyword searches are not modelled. *)

From S2P Require Import Prelude JsValue JsonText SessionEntries JsonLines.

(** * The port *)

Inductive call : Type :=
| Initialize
| Close
| AppendEntries (sessionId : string) (entries : list jsv)
| LoadEntries (sessionId : string) (entries : list jsv)
| GetEntries (sessionId : string) (fromTimestamp : option Z)
| GetEntryPage (sessionId : string) (options : page_options)
| ForkSession (source target : string) (headId : option (option string))
| AppendDelta (delta : jsv)
| GetDeltas (documentId : string) (fromId : option Z).

Inductive answer : Type :=
| Done
| Entries (entries : list jsv)
| APage (p : page).

Abbreviation outcome := (result backend_error answer).

(** A backend answers calls; the second argument of a call is the fate of its writes. *)
Class SessionBackend (B : Type) := run_call : B -> option nat -> call -> B * outcome.

Definition from_timestamp (from : option Z) (entries : list jsv) : list jsv :=
  match from with None => entries | Some t => List.filter (fun e => t <=? entry_timestamp e)%Z entries end.

(** [(delta.id || 0) >= fromId]. *)
Definition from_id (from : option Z) (deltas : list jsv) : list jsv :=
  match from with None => deltas | Some n => List.filter (fun d => n <=? as_num (prop d "id"))%Z deltas end.

Definition delta_document (delta : jsv) : string := as_str (prop delta "documentId").

(** [{ ...delta, id: nextId }]. *)
Definition numbered (delta : jsv) (existing : list jsv) : jsv :=
  with_field delta "id" (match prop delta "id" with VUndef => VNum (zlen existing + 1) | id => id end).

(** * In memory *)

Module Memory.

Record backend : Type := MkBackend {
  journals : gmap string (list jsv); snapshots : list (string * jsv); deltas : gmap string (list jsv); closed : bool }.

Definition new : backend := MkBackend ∅ [] ∅ false.

Definition journal (b : backend) (sessionId : string) : list jsv := default [] (journals b !! sessionId).

Definition close (b : backend) : backend := if closed b then b else MkBackend ∅ [] ∅ true.

Definition appendEntries (b : backend) (sessionId : string) (entries : list jsv) : backend * result backend_error unit :=
  match prepareEntryBatch sessionId (journal b sessionId) entries with
  | Err e => (b, Err e)
  | Ok batch =>
      (MkBackend (<[sessionId := journal b sessionId ++ batch]> (journals b)) (snapshots b) (deltas b) (closed b), Ok tt)
  end.

Definition saveSnapshot (b : backend) (snapshot : jsv) : backend * result backend_error unit :=
  if closed b then (b, Err Closed)
  else (MkBackend (journals b) (assoc_set (snapshots b) (delta_document snapshot) snapshot) (deltas b) (closed b), Ok tt).

Definition getSnapshot (b : backend) (documentId : string) : result backend_error jsv :=
  if closed b then Err Closed else Ok (default VNull (assoc_get (snapshots b) documentId)).

Definition done_if {B : Type} (r : B * result backend_error unit) : B * outcome :=
  (fst r, match snd r with Ok _ => Ok Done | Err e => Err e end).

#[local] Instance run : SessionBackend backend := fun b _ c =>
  match c with
  | Close => (close b, Ok Done)
  | _ =>
      if closed b then (b, Err Closed)
      else
        match c with
        | Initialize | Close => (b, Ok Done)
        | AppendEntries sessionId entries | LoadEntries sessionId entries => done_if (appendEntries b sessionId entries)
        | GetEntries sessionId from =>
            (b, throw_if negb (validateStorageId sessionId) with InvalidStorageId in Ok (Entries (from_timestamp from (journal b sessionId))))
        | GetEntryPage sessionId options => (b, let* p := pageEntries sessionId (journal b sessionId) options in Ok (APage p))
        | ForkSession source target headId =>
            match forkEntries source target (journal b source) (journal b target) headId with
            | Err e => (b, Err e)
            | Ok entries => done_if (appendEntries b target entries)
            end
        | AppendDelta delta =>
            let existing := default [] (deltas b !! delta_document delta) in
            (MkBackend (journals b) (snapshots b) (<[delta_document delta := existing ++ [numbered delta existing]]> (deltas b)) (closed b), Ok Done)
        | GetDeltas documentId from => (b, Ok (Entries (from_id from (default [] (deltas b !! documentId)))))
        end
  end.

End Memory.

(** * In files *)

Module Jsonl.

Record backend : Type := MkBackend { files : dir; faultedJournals : gset string; closed : bool }.

(** A new backend over what a directory holds. *)
Definition open (files : dir) : backend := MkBackend files ∅ false.

Definition close (b : backend) : backend := MkBackend (files b) (faultedJournals b) true.

Definition journal_path (sessionId : string) : string := "session_" +:+ sessionId +:+ ".jsonl".
Definition deltas_path (documentId : string) : string := "deltas_" +:+ documentId +:+ ".jsonl".

(** The entries of one record of a journal. *)
Definition record_batch (record : jsv) : result backend_error (list jsv) :=
  match record with
  | VObj fs =>
      match assoc_get fs "journalBatch" with
      | None => Ok [record]
      | Some (VNum 1) => match prop record "entries" with VArr entries => Ok entries | _ => Err UnsupportedBatch end
      | Some _ => Err UnsupportedBatch
      end
  | VArr _ => Ok [record]
  | _ => if js_truthy record then Err NotARecord else Ok [record]
  end.

Definition read_record (sessionId : string) (entries : list jsv) (record : jsv) : result backend_error (list jsv) :=
  let* batch := record_batch record in
  let* prepared := prepareEntryBatch sessionId entries batch in
  Ok (entries ++ prepared).

Definition read_content (sessionId : string) (content : option text) : result backend_error (list jsv) :=
  match content with
  | None => Ok []
  | Some content => let* records := parseJsonl content in fold_res (read_record sessionId) [] records
  end.

Definition readEntries (b : backend) (sessionId : string) : result backend_error (list jsv) :=
  throw_if negb (validateStorageId sessionId) with InvalidStorageId in
  read_content sessionId (files b !! journal_path sessionId).

(** The record a batch is written as. *)
Definition batch_record (batch : list jsv) : jsv :=
  match batch with [e] => e | _ => VObj [("journalBatch", VNum 1); ("entries", VArr batch)] end.

(** [prepareEntryBatch] is called on the entries read, so its refusal of an identifier comes
    after that of [getSessionJournalPath]. *)
Definition appendEntries (b : backend) (io : option nat) (sessionId : string) (entries : list jsv) : backend * result backend_error unit :=
  if bool_decide (sessionId ∈ faultedJournals b) then (b, Err UnknownOutcome)
  else
    match (let* current := readEntries b sessionId in prepareEntryBatch sessionId current entries) with
    | Err e => (b, Err e)
    | Ok [] => (b, Ok tt)
    | Ok batch =>
        let '(fs, r) := appendJsonl io (files b) (journal_path sessionId) (JSON_text (batch_record batch) ++ [newline]) in
        (MkBackend fs (match r with Err UnknownOutcome => {[sessionId]} ∪ faultedJournals b | _ => faultedJournals b end) (closed b), r)
    end.

Definition getDeltas (b : backend) (documentId : string) : result backend_error (list jsv) :=
  throw_if negb (validateStorageId documentId) with InvalidStorageId in
  match files b !! deltas_path documentId with None => Ok [] | Some content => parseJsonl content end.

Definition appendDelta (b : backend) (io : option nat) (delta : jsv) : backend * result backend_error unit :=
  match getDeltas b (delta_document delta) with
  | Err e => (b, Err e)
  | Ok existing =>
      let '(fs, r) := appendJsonl io (files b) (deltas_path (delta_document delta)) (JSON_text (numbered delta existing) ++ [newline]) in
      (MkBackend fs (faultedJournals b) (closed b), r)
  end.

#[local] Instance run : SessionBackend backend := fun b io c =>
  match c with
  | Close => (close b, Ok Done)
  | _ =>
      if closed b then (b, Err Closed)
      else
        match c with
        | Initialize | Close => (b, Ok Done)
        | AppendEntries sessionId entries | LoadEntries sessionId entries => Memory.done_if (appendEntries b io sessionId entries)
        | GetEntries sessionId from => (b, let* es := readEntries b sessionId in Ok (Entries (from_timestamp from es)))
        | GetEntryPage sessionId options =>
            (b, let* es := readEntries b sessionId in let* p := pageEntries sessionId es options in Ok (APage p))
        | ForkSession source target headId =>
            match (let* es := readEntries b source in let* target_es := readEntries b target in
                   forkEntries source target es target_es headId) with
            | Err e => (b, Err e)
            | Ok entries => Memory.done_if (appendEntries b io target entries)
            end
        | AppendDelta delta => Memory.done_if (appendDelta b io delta)
        | GetDeltas documentId from => (b, let* ds := getDeltas b documentId in Ok (Entries (from_id from ds)))
        end
  end.

End Jsonl.

#[export] Existing Instances Memory.run Jsonl.run.
