(* ===== verification/SessionBackendsProofs.v ===== *)
(** Lemmas about the session backends: what the files of the JSONL backend hold, also after a
    write that did not finish, and the laws of the port that both backends satisfy. *)

From S2P Require Import Prelude JsValue JsonText JsonTextProofs SessionEntries SessionEntriesProofs JsonLines SessionBackends.

(** * Entries that a file gives back *)

(** What a caller may append: a value JSON expresses exactly, without the property that marks
    the record of a batch. *)
Definition storable (e : jsv) : Prop := plain e /\ prop e "journalBatch" = VUndef.

Lemma plain_set fs key v : plain (VObj fs) -> plain v -> plain (VObj (assoc_set fs key v)).
Proof.
  intros [Hnd Hfs%plain_fields] Hv. split; [by apply assoc_set_nodup|]. apply plain_fields. rewrite Forall_forall in *.
  intros [k w] Hin. apply assoc_set_in in Hin as [[= -> ->]|Hin]; [done|]. exact (Hfs (k, w) Hin).
Qed.

Lemma storable_versioned entry e : storable entry -> versioned entry e -> storable e.
Proof.
  intros [Hp Hj] (fs & -> & ->). cbn [with_field]. split; [by apply plain_set|]. by rewrite prop_set.
Qed.

Lemma storable_moved target fs : storable (VObj fs) -> storable (moved target (VObj fs)).
Proof. intros [Hp Hj]. unfold moved. cbn [with_field]. split; [by apply plain_set|]. by rewrite prop_set. Qed.

(** A batch as it is written. *)
Definition good_batch (b : list jsv) : Prop := b <> [] /\ Forall (fun e => storable e /\ exists fs, e = VObj fs) b.

Lemma plain_prop fs key : plain (VObj fs) -> prop (VObj fs) key = VUndef -> assoc_get fs key = None.
Proof.
  intros [_ Hp%plain_fields]. simpl. destruct (assoc_get fs key) as [v|] eqn:E; [|done]. simpl. intros ->. apply assoc_get_in in E.
  rewrite Forall_forall in Hp. by apply Hp in E.
Qed.

Lemma batch_record_object b : good_batch b -> exists fs, Jsonl.batch_record b = VObj fs.
Proof. intros [Hn Hb]. destruct b as [|e [|e' b]]; [done| |by eexists]. inversion Hb as [|? ? [_ (fs & ->)] _]. by eexists. Qed.

Lemma plain_batch_record b : good_batch b -> plain (Jsonl.batch_record b).
Proof.
  intros [Hn Hb]. destruct b as [|e [|e' b]]; [done| |]; [by inversion Hb as [|? ? [[? _] _] _]|].
  split; [repeat constructor; set_solver|]. split; [done|]. split; [|done]. apply (plain_items (e :: e' :: b)).
  eapply Forall_impl; [exact Hb|]. by intros x [[? _] _].
Qed.

Lemma record_batch_record b : good_batch b -> Jsonl.record_batch (Jsonl.batch_record b) = Ok b.
Proof.
  intros [Hn Hb]. destruct b as [|e [|e' b]]; [done| |done]. inversion Hb as [|? ? [[Hp Hj] (fs & ->)] _]; subst. simpl.
  by rewrite (plain_prop fs "journalBatch" Hp Hj).
Qed.

Lemma good_batch_prepared sessionId entries batch ids last :
  Forall storable entries -> Forall2 versioned entries batch -> valid_from sessionId ids last batch -> batch <> [] -> good_batch batch.
Proof.
  intros Hs Hv _ Hne. split; [done|]. clear Hne. induction Hv as [|entry e entries batch Hver _ IH]; [constructor|].
  inversion Hs; subst. constructor; [|by apply IH]. split; [by eapply storable_versioned|]. destruct Hver as (fs & -> & ->). by eexists.
Qed.

(** * The file of a journal *)

(** What the line after the last newline is: nothing, a torn record, or a whole record. *)
Inductive tail_of : text -> list jsv -> Prop :=
| tail_none : tail_of [] []
| tail_torn t : one_line t -> blank t = false -> JSON_parse t = None -> tail_of t []
| tail_whole b : good_batch b -> tail_of (JSON_text (Jsonl.batch_record b)) b.

(** A content that holds the entries [es]: records of whole batches, and a tail. *)
Definition file_entries (content : text) (es : list jsv) : Prop :=
  exists batches tail extra, content = lines_of (map Jsonl.batch_record batches) ++ tail /\ Forall good_batch batches /\
    tail_of tail extra /\ es = List.concat batches ++ extra.

(** A content that holds the journal [es] of a session. *)
Definition journal_file (sessionId : string) (content : text) (es : list jsv) : Prop := file_entries content es /\ valid_log sessionId es.

Lemma tail_one_line t b : tail_of t b -> one_line t.
Proof. destruct 1; [constructor|done|]. by apply text_one_line, plain_batch_record. Qed.

Lemma tail_read t b : tail_of t b -> tail_records t = match b with [] => [] | _ => [Jsonl.batch_record b] end.
Proof.
  unfold tail_records. destruct 1 as [|t _ _ ->|b Hb]; [done|done|]. rewrite parse_stringify, text_not_blank by (by apply plain_batch_record).
  by destruct b; destruct Hb.
Qed.

Lemma read_batches sessionId batches : validateStorageId sessionId = true -> Forall good_batch batches -> forall es,
  valid_log sessionId (es ++ List.concat batches) ->
  fold_res (Jsonl.read_record sessionId) es (map Jsonl.batch_record batches) = Ok (es ++ List.concat batches).
Proof.
  intros Hid. induction 1 as [|b batches Hb _ IH]; intros es Hval; simpl; [by rewrite app_nil_r|].
  simpl in Hval. rewrite app_assoc in Hval. unfold Jsonl.read_record at 1. rewrite record_batch_record by done. simpl.
  rewrite prepareEntryBatch_stored; [|done|by apply valid_log_app in Hval as [? _]]. simpl. rewrite IH by done. by rewrite app_assoc.
Qed.

Lemma journal_file_read sessionId content es :
  validateStorageId sessionId = true -> journal_file sessionId content es -> Jsonl.read_content sessionId (Some content) = Ok es.
Proof.
  intros Hid [(batches & tail & extra & -> & Hb & Ht & ->) Hval]. simpl. rewrite parseJsonl_records.
  - simpl. rewrite (tail_read _ _ Ht), fold_res_app. rewrite read_batches; [|done|done|by apply valid_log_app in Hval as [? _]].
    destruct Ht as [| |b Hgb]; simpl; [by rewrite app_nil_r|by rewrite app_nil_r|]. destruct b as [|e b]; [by destruct Hgb|].
    pose proof (read_batches sessionId [e :: b] Hid ltac:(by constructor) (List.concat batches)) as H. simpl List.concat in H.
    rewrite app_nil_r in H. simpl in H |- *. by apply H.
  - apply Forall_map. eapply Forall_impl; [exact Hb|]. apply plain_batch_record.
  - by eapply tail_one_line.
Qed.

Lemma journal_file_valid sessionId content es : journal_file sessionId content es -> valid_log sessionId es.
Proof. by intros [_ ?]. Qed.

Lemma journal_file_empty sessionId : journal_file sessionId [] [].
Proof. split; [|done]. exists [], [], []. split_and!; try done. constructor. Qed.

(** A journal with every batch that was acknowledged, in order, and any of the others. *)
Inductive admitted : list (bool * list jsv) -> list jsv -> Prop :=
| adm_none : admitted [] []
| adm_kept h es ok batch : admitted h es -> admitted (h ++ [(ok, batch)]) (es ++ batch)
| adm_lost h es batch : admitted h es -> admitted (h ++ [(false, batch)]) es.

(** * Appending to the file of a journal *)

Lemma lines_of_snoc batches b :
  lines_of (map Jsonl.batch_record (batches ++ [b])) = lines_of (map Jsonl.batch_record batches) ++ JSON_text (Jsonl.batch_record b) ++ [newline].
Proof. rewrite map_app, lines_of_app. unfold lines_of at 2. simpl. by rewrite app_nil_r. Qed.

(** A write that stopped anywhere leaves the batch out, until all of its record is there. *)
Lemma written_prefix batches b n :
  Forall good_batch batches -> good_batch b ->
  file_entries (lines_of (map Jsonl.batch_record batches) ++ take n (JSON_text (Jsonl.batch_record b) ++ [newline]))
    (if (n <? length (JSON_text (Jsonl.batch_record b)))%nat then List.concat batches else List.concat batches ++ b).
Proof.
  intros Hbs Hb. set (t := JSON_text (Jsonl.batch_record b)). destruct (Nat.ltb_spec n (length t)) as [Hlt|Hge].
  - rewrite take_app_le by lia. exists batches, (take n t), []. rewrite app_nil_r. split_and!; try done.
    destruct (decide (take n t = [])) as [->|Hne]; [constructor|]. destruct (batch_record_object b Hb) as (fs & Hfs). apply tail_torn.
    + apply (one_line_prefix _ (drop n t)). rewrite take_drop. by apply text_one_line, plain_batch_record.
    + unfold t in *. rewrite Hfs in *. destruct n; [done|]. unfold JSON_text. cbn [stringify]. by rewrite !chars_app.
    + apply (torn_object fs _ (drop n t)).
      * rewrite <- Hfs. by apply plain_batch_record.
      * rewrite take_drop. unfold t. by rewrite Hfs.
      * intros E%(f_equal length). rewrite length_drop in E. simpl in E. lia.
  - destruct (decide (n = length t)) as [->|].
    + rewrite take_app_length. exists batches, t, b. split_and!; try done. by apply tail_whole.
    + rewrite take_ge by (rewrite length_app; simpl; lia). exists (batches ++ [b]), [], []. rewrite lines_of_snoc, !app_nil_r.
      split_and!; try done; [by apply Forall_app_2, Forall_singleton|constructor|].
      rewrite concat_app. simpl. by rewrite app_nil_r.
Qed.

(** A separator completes the last record of a file, or the file is refused. *)
Lemma separator_completes batches t extra : Forall good_batch batches -> tail_of t extra ->
  let content := lines_of (map Jsonl.batch_record batches) ++ t in
  separator content = Err RejectedTail \/
  exists sep bs, separator content = Ok sep /\ length sep <= 1 /\ List.concat batches ++ extra = List.concat bs /\
    Forall good_batch bs /\ content ++ sep = lines_of (map Jsonl.batch_record bs).
Proof.
  intros Hbs Ht content. unfold content. rewrite separator_records by (by eapply tail_one_line). destruct Ht as [|t Hl Hne Hp|b Hgb].
  - right. rewrite bool_decide_eq_true_2 by done. exists [], batches. rewrite !app_nil_r. split_and!; auto with arith.
  - left. rewrite bool_decide_eq_false_2, Hp; [done|]. by intros ->.
  - right. rewrite bool_decide_eq_false_2, parse_stringify; [|by apply plain_batch_record|by destruct (text_head (Jsonl.batch_record b)) as (c & u & -> & _)].
    exists [newline], (batches ++ [b]). rewrite lines_of_snoc, <- app_assoc, concat_app. simpl. rewrite app_nil_r.
    split_and!; auto. by apply Forall_app_2, Forall_singleton.
Qed.

(** What any number of bytes of a separator and a record leave. *)
Lemma written_after content sep bs batch n :
  length sep <= 1 -> Forall good_batch bs -> content ++ sep = lines_of (map Jsonl.batch_record bs) ->
  good_batch batch -> file_entries content (List.concat bs) ->
  let text := JSON_text (Jsonl.batch_record batch) in
  let left := content ++ take n (sep ++ text ++ [newline]) in
  (n < length (sep ++ text) /\ file_entries left (List.concat bs)) \/
  (length (sep ++ text) <= n /\ file_entries left (List.concat bs ++ batch)).
Proof.
  intros Hlen Hbs Hl Hb Hold text left. unfold left. destruct (decide (n < length sep)) as [Hn|Hn].
  - left. rewrite length_app. split; [lia|]. assert (n = 0) as -> by lia. by rewrite app_nil_r.
  - rewrite take_app_ge, app_assoc, Hl by lia. pose proof (written_prefix bs batch (n - length sep) Hbs Hb) as H.
    rewrite length_app. fold text in H. destruct (Nat.ltb_spec (n - length sep) (length text)); [left|right]; split; (done || lia).
Qed.

(** What [appendJsonl] leaves of the file of a journal. *)
Lemma append_journal io files path sessionId es batch fs r :
  journal_file sessionId (default [] (files !! path)) es -> good_batch batch -> valid_log sessionId (es ++ batch) ->
  appendJsonl io files path (JSON_text (Jsonl.batch_record batch) ++ [newline]) = (fs, r) ->
  (forall other, other <> path -> fs !! other = files !! other) /\
  (r = Ok tt /\ journal_file sessionId (default [] (fs !! path)) (es ++ batch) \/
   is_ok r = false /\ (io <> None \/ is_ok (separator (default [] (files !! path))) = false) /\
     (journal_file sessionId (default [] (fs !! path)) es \/ journal_file sessionId (default [] (fs !! path)) (es ++ batch))).
Proof.
  intros [Hold Hval] Hb Hnew. pose proof Hold as (batches & tail & extra & Hc & Hbs & Ht & He). unfold appendJsonl. cbn zeta.
  destruct (separator_completes batches tail extra Hbs Ht) as [E|(sep & bs & E & Hlen & Heq & Hbs' & Hl)]; rewrite <- Hc in *; rewrite E.
  { intros [= <- <-]. split; [done|]. right. split_and!; [done|by right|by left]. }
  rewrite Heq in He. subst es.
  destruct io as [n|]; intros [= <- <-]; split; try (intros other Ho; by rewrite lookup_insert_ne); rewrite lookup_insert_eq; simpl.
  - right. split_and!; [done|by left|]. destruct (written_after _ sep bs batch n Hlen Hbs' Hl Hb Hold) as [[_ H]|[_ H]]; [left|right]; by split.
  - left. split; [done|]. split; [|done]. set (text := JSON_text (Jsonl.batch_record batch) ++ [newline]).
    destruct (written_after _ sep bs batch (length (sep ++ text)) Hlen Hbs' Hl Hb Hold) as [[H _]|[_ H]].
    + unfold text in H. rewrite !length_app in H. simpl in H. lia.
    + unfold text in H. by rewrite take_ge in H.
Qed.
