(* ===== verification/SessionStores.v ===== *)
(** What a session backend promises about its journals, as an interface: the backends
    implement it, and the paging of a client is proved against it. *)

From S2P Require Import Prelude JsValue JsonText JsonTextProofs SessionEntries SessionEntriesProofs JsonLines SessionBackends SessionBackendsProofs.

(** * The interface *)

(** A journal of entries that were appended. *)
Definition sound_journal (sessionId : string) (es : list jsv) : Prop := valid_log sessionId es /\ Forall storable es.

Definition journals_of : Type := string -> list jsv.

(** What becomes of an append that ended with [r], when the entries of a batch are stored as
    [stored] makes them. *)
Definition append_outcome {B : Type} (holds : B -> journals_of -> Prop) (ready : B -> string -> Prop) (stored : list jsv -> list jsv)
    (b : B) (J : journals_of) (io : option nat) (s : string) (es : list jsv) (b' : B) (r : outcome) : Prop :=
  exists J', holds b' J' /\ (forall other, other <> s -> J' other = J other) /\ (forall other, other <> s -> ready b other -> ready b' other) /\
    match prepareEntryBatch s (J s) es with
    | Err e => is_ok r = false /\ J' s = J s /\ (ready b s -> r = Err e /\ ready b' s)
    | Ok batch =>
        (r = Ok Done /\ J' s = J s ++ stored batch /\ (ready b s -> ready b' s)) \/
        (is_ok r = false /\ (io <> None \/ ~ ready b s) /\ (J' s = J s \/ J' s = J s ++ stored batch))
    end.

(** [holds b J]: the open backend [b] has the journals [J]; [ready b s]: its journal of [s] can
    be written.  An append that is refused changes nothing; one that fails while it writes
    leaves the batch out or puts it in, whole.  [fits e]: the backend can store the entry [e];
    [stored e] is what it then has. *)
Class JournalStore (B : Type) `{SessionBackend B} : Type := {
  holds : B -> journals_of -> Prop;
  ready : B -> string -> Prop;
  fits : jsv -> Prop;
  stored : jsv -> jsv;
  store_sound : forall b J s, holds b J -> validateStorageId s = true -> sound_journal s (J s);
  store_stored : forall b J s, holds b J -> validateStorageId s = true -> Forall fits (J s) /\ map stored (J s) = J s;
  fits_moved : forall target fs, fits (VObj fs) -> fits (moved target (VObj fs)) /\ stored (moved target (VObj fs)) = moved target (stored (VObj fs));
  store_page : forall b J io s options, holds b J -> validateStorageId s = true ->
    run_call b io (GetEntryPage s options) = (b, let* p := pageEntries s (J s) options in Ok (APage p));
  store_get : forall b J io s from, holds b J -> validateStorageId s = true ->
    run_call b io (GetEntries s from) = (b, Ok (Entries (from_timestamp from (J s))));
  store_fork : forall b J io source target headId, holds b J -> validateStorageId source = true -> validateStorageId target = true ->
    run_call b io (ForkSession source target headId) =
      match forkEntries source target (J source) (J target) headId with
      | Err e => (b, Err e)
      | Ok es => run_call b io (AppendEntries target es)
      end;
  store_append : forall b J io s es b' r, holds b J -> validateStorageId s = true -> Forall fits es ->
    run_call b io (AppendEntries s es) = (b', r) -> append_outcome holds ready (map stored) b J io s es b' r;
}.

Lemma sound_append s es entries batch :
  sound_journal s es -> Forall storable entries -> prepareEntryBatch s es entries = Ok batch -> sound_journal s (es ++ batch).
Proof.
  intros [Hv Hs] He Hp. apply prepareEntryBatch_valid in Hp as (_ & Hval & Hver); [|done]. split; [done|]. apply Forall_app. split; [done|].
  clear - He Hver. induction Hver as [|x y xs ys Hxy _ IH]; [constructor|]. inversion He; subst. constructor; [by eapply storable_versioned|by apply IH].
Qed.

(** A backend that stores entries as they are. *)
Lemma as_it_is {B : Type} holds ready (b : B) J io s es b' r :
  append_outcome holds ready (fun l => l) b J io s es b' r -> append_outcome holds ready (map (fun e => e)) b J io s es b' r.
Proof.
  unfold append_outcome. intros (J' & ? & ? & ? & Hcase). exists J'. split_and!; try done. destruct (prepareEntryBatch _ _ _); [by rewrite map_id|done].
Qed.

Lemma storable_stays target fs : storable (VObj fs) -> storable (moved target (VObj fs)) /\ moved target (VObj fs) = moved target (VObj fs).
Proof. split; [by apply storable_moved|done]. Qed.

(** * The memory backend *)

Definition memory_holds (b : Memory.backend) (J : journals_of) : Prop :=
  Memory.closed b = false /\ (forall s, J s = Memory.journal b s) /\ forall s, validateStorageId s = true -> sound_journal s (J s).

Lemma memory_append b J io s es b' r :
  memory_holds b J -> validateStorageId s = true -> Forall storable es -> run_call b io (AppendEntries s es) = (b', r) ->
  append_outcome memory_holds (fun _ _ => True) (fun l => l) b J io s es b' r.
Proof.
  intros (Hc & HJ & Hs) Hid Hes. unfold append_outcome, run_call, Memory.run. rewrite Hc. unfold Memory.done_if, Memory.appendEntries. rewrite <- HJ.
  destruct (prepareEntryBatch s (J s) es) as [batch|e] eqn:E; simpl; intros [= <- <-].
  - set (b' := Memory.MkBackend _ _ _ _). assert (HJ' : forall other, Memory.journal b' other = if decide (other = s) then J s ++ batch else J other).
    { intros other. unfold b', Memory.journal. simpl. destruct (decide (other = s)) as [->|Hne]; [by rewrite lookup_insert_eq|].
      rewrite lookup_insert_ne by done. by rewrite HJ. }
    exists (Memory.journal b'). split_and!; [| | |left; split_and!]; try done.
    + split_and!; [done|done|]. intros other Ho. rewrite HJ'. destruct (decide (other = s)) as [->|]; [|by apply Hs]. eapply sound_append; eauto.
    + intros other Ho. rewrite HJ'. by rewrite decide_False.
    + rewrite HJ'. by rewrite decide_True.
  - exists J. split_and!; try done.
Qed.

Lemma memory_sound b J s : memory_holds b J -> validateStorageId s = true -> sound_journal s (J s).
Proof. intros (_ & _ & H) Hid. by apply H. Qed.

Lemma memory_page b J io s options : memory_holds b J -> validateStorageId s = true ->
  run_call b io (GetEntryPage s options) = (b, let* p := pageEntries s (J s) options in Ok (APage p)).
Proof. intros (Hc & HJ & _) Hid. unfold run_call, Memory.run. by rewrite Hc, HJ. Qed.

Lemma memory_get b J io s from : memory_holds b J -> validateStorageId s = true ->
  run_call b io (GetEntries s from) = (b, Ok (Entries (from_timestamp from (J s)))).
Proof. intros (Hc & HJ & _) Hid. unfold run_call, Memory.run. by rewrite Hc, HJ, Hid. Qed.

Lemma memory_fork b J io source target headId : memory_holds b J -> validateStorageId source = true -> validateStorageId target = true ->
  run_call b io (ForkSession source target headId) =
    match forkEntries source target (J source) (J target) headId with
    | Err e => (b, Err e)
    | Ok es => run_call b io (AppendEntries target es)
    end.
Proof.
  intros (Hc & HJ & _) _ _. unfold run_call, Memory.run. rewrite Hc, !HJ. by destruct (forkEntries _ _ _ _ _).
Qed.

#[export] Instance memory_store : JournalStore Memory.backend := {|
  holds := memory_holds; ready := fun _ _ => True;
  fits := storable; stored := fun e => e;
  store_sound := memory_sound; store_stored b J s Hb Hs := conj (proj2 (memory_sound b J s Hb Hs)) (map_id (J s)); fits_moved := storable_stays; store_page := memory_page; store_get := memory_get;
  store_fork := memory_fork; store_append b J io s es b' r Hb Hs Hes Hr := as_it_is _ _ _ _ _ _ _ _ _ (memory_append b J io s es b' r Hb Hs Hes Hr) |}.

(** * The JSONL backend *)

Lemma journal_path_inj s s' : Jsonl.journal_path s = Jsonl.journal_path s' -> s = s'.
Proof.
  intros E%(f_equal chars). unfold Jsonl.journal_path in E. rewrite !chars_app in E. apply app_inv_head, app_inv_tail in E.
  rewrite <- (of_chars_chars s), E. apply of_chars_chars.
Qed.

Lemma deltas_path_inj s s' : Jsonl.deltas_path s = Jsonl.deltas_path s' -> s = s'.
Proof.
  intros E%(f_equal chars). unfold Jsonl.deltas_path in E. rewrite !chars_app in E. apply app_inv_head, app_inv_tail in E.
  rewrite <- (of_chars_chars s), E. apply of_chars_chars.
Qed.

Definition file_of (fs : dir) (path : string) : text := default [] (fs !! path).

Definition jsonl_holds (b : Jsonl.backend) (J : journals_of) : Prop :=
  Jsonl.closed b = false /\
  forall s, validateStorageId s = true -> journal_file s (file_of (Jsonl.files b) (Jsonl.journal_path s)) (J s).

Definition jsonl_ready (b : Jsonl.backend) (s : string) : Prop :=
  s ∉ Jsonl.faultedJournals b /\ is_ok (separator (file_of (Jsonl.files b) (Jsonl.journal_path s))) = true.

Lemma journal_file_storable s content es : journal_file s content es -> Forall storable es.
Proof.
  intros [(batches & tail & extra & _ & Hb & Ht & ->) _]. apply Forall_app.
  assert (Hgood : forall b, good_batch b -> Forall storable b) by (intros b [_ H]; eapply Forall_impl; [exact H|]; by intros x [? _]).
  split; [|destruct Ht; [constructor|constructor|by apply Hgood]].
  induction Hb as [|b batches Hb _ IH]; [constructor|]. simpl. apply Forall_app. split; [by apply Hgood|done].
Qed.

Lemma jsonl_read b J s : jsonl_holds b J -> validateStorageId s = true -> Jsonl.readEntries b s = Ok (J s).
Proof.
  intros [_ H] Hid. specialize (H s Hid). unfold Jsonl.readEntries. rewrite Hid. cbn [negb]. unfold file_of in H.
  destruct (Jsonl.files b !! Jsonl.journal_path s) as [content|]; simpl in H; [by apply journal_file_read|].
  apply journal_file_read in H; [|done]. exact H.
Qed.

Lemma separator_written io fs path text fs' r :
  appendJsonl io fs path (text ++ [newline]) = (fs', r) -> r = Ok tt -> separator (file_of fs' path) = Ok [].
Proof.
  unfold appendJsonl. destruct (separator _) as [sep|e]; [|by intros [= <- <-]]. destruct io as [n|]; intros [= <- <-]; [done|]. intros _.
  unfold file_of. rewrite lookup_insert_eq. simpl. unfold separator. rewrite !app_assoc, ends_with_newline_snoc. by rewrite orb_true_r.
Qed.

(** One append of a batch that is accepted. *)
Lemma jsonl_append_batch b J io s batch b' r :
  jsonl_holds b J -> validateStorageId s = true -> good_batch batch -> sound_journal s (J s ++ batch) -> s ∉ Jsonl.faultedJournals b ->
  (let '(fs, r) := appendJsonl io (Jsonl.files b) (Jsonl.journal_path s) (JSON_text (Jsonl.batch_record batch) ++ [newline]) in
   (Jsonl.MkBackend fs (match r with Err UnknownOutcome => {[s]} ∪ Jsonl.faultedJournals b | _ => Jsonl.faultedJournals b end) (Jsonl.closed b), r)) = (b', r) ->
  exists J', jsonl_holds b' J' /\ (forall other, other <> s -> J' other = J other) /\ (forall other, other <> s -> jsonl_ready b other -> jsonl_ready b' other) /\
    ((r = Ok tt /\ J' s = J s ++ batch /\ (jsonl_ready b s -> jsonl_ready b' s)) \/
     (is_ok r = false /\ (io <> None \/ ~ jsonl_ready b s) /\ (J' s = J s \/ J' s = J s ++ batch))).
Proof.
  intros [Hc HJ] Hid Hgb Hsound Hf. destruct (appendJsonl _ _ _ _) as [fs r'] eqn:E. intros [= <- <-].
  destruct (append_journal _ _ _ _ _ _ _ _ (HJ s Hid) Hgb (proj1 Hsound) E) as [Hother Hcase].
  assert (Hres : exists es, journal_file s (file_of fs (Jsonl.journal_path s)) es /\
    ((r' = Ok tt /\ es = J s ++ batch) \/ (is_ok r' = false /\ (io <> None \/ ~ jsonl_ready b s) /\ (es = J s \/ es = J s ++ batch)))).
  { destruct Hcase as [[-> H]|(Hr & Hwhy & [H|H])]; eexists; (split; [exact H|]); [by left|right|right]; split_and!; try done; auto.
    all: destruct Hwhy as [?|Hsep]; [by left|right]; intros [_ Hok]; unfold file_of in Hok; by rewrite Hsep in Hok. }
  destruct Hres as (es & Hes & Hout). exists (fun o => if decide (o = s) then es else J o).
  assert (Hsame : forall other, other <> s -> file_of fs (Jsonl.journal_path other) = file_of (Jsonl.files b) (Jsonl.journal_path other)).
  { intros other Ho. unfold file_of. rewrite Hother; [done|]. by intros ?%journal_path_inj. }
  split_and!.
  - split; [done|]. intros o Ho. simpl. destruct (decide (o = s)) as [->|Hne]; [done|]. rewrite Hsame by done. by apply HJ.
  - intros o Ho. by rewrite decide_False.
  - intros o Ho [H1 H2]. split; simpl; [|by rewrite Hsame]. destruct r' as [|[]]; set_solver.
  - rewrite decide_True by done. destruct Hout as [[-> ->]|H]; [left|by right]. split_and!; try done. intros [_ _]. split; [done|].
    simpl. by rewrite (separator_written _ _ _ _ _ _ E).
Qed.

Lemma jsonl_append b J io s es b' r :
  jsonl_holds b J -> validateStorageId s = true -> Forall storable es -> run_call b io (AppendEntries s es) = (b', r) ->
  append_outcome jsonl_holds jsonl_ready (fun l => l) b J io s es b' r.
Proof.
  intros H Hid Hes. pose proof H as [Hc HJ]. unfold append_outcome, run_call, Jsonl.run. rewrite Hc. unfold Jsonl.appendEntries. rewrite (jsonl_read b J) by done.
  assert (Hsound : sound_journal s (J s)) by (split; [by eapply journal_file_valid, HJ|by eapply journal_file_storable, HJ]).
  case_bool_decide as Hf.
  { intros [= <- <-]. exists J. assert (~ jsonl_ready b s) by (by intros [? _]).
    split_and!; try done. destruct (prepareEntryBatch _ _ _); [right; auto|]. split_and!; done. }
  cbn [bind_res]. destruct (prepareEntryBatch s (J s) es) as [batch|e] eqn:E; [|intros [= <- <-]; by exists J].
  pose proof (sound_append _ _ _ _ Hsound Hes E) as Hnew. destruct batch as [|x batch].
  { intros [= <- <-]. exists J. rewrite app_nil_r. split_and!; try done. by left. }
  assert (Hgb : good_batch (x :: batch)).
  { apply prepareEntryBatch_valid in E as (_ & Hv & Hver); [|by apply Hsound]. apply valid_log_app in Hv as [_ Hv]. by eapply good_batch_prepared. }
  intros Hrun. destruct (appendJsonl io (Jsonl.files b) (Jsonl.journal_path s) (JSON_text (Jsonl.batch_record (x :: batch)) ++ [newline])) as [fs r0] eqn:Ea.
  pose proof (jsonl_append_batch b J io s (x :: batch) _ r0 H Hid Hgb Hnew Hf ltac:(by rewrite Ea)) as (J' & H1 & H2 & H3 & H4).
  unfold Memory.done_if in Hrun. simpl in Hrun. injection Hrun as <- <-. exists J'. split_and!; try done.
  destruct H4 as [(-> & ? & ?)|(Hr & ? & ?)]; [left|right]; [done|]. split_and!; try done. by destruct r0.
Qed.

Lemma jsonl_sound b J s : jsonl_holds b J -> validateStorageId s = true -> sound_journal s (J s).
Proof. intros [_ H] Hid. split; [by eapply journal_file_valid, H|by eapply journal_file_storable, H]. Qed.

Lemma jsonl_page b J io s options : jsonl_holds b J -> validateStorageId s = true ->
  run_call b io (GetEntryPage s options) = (b, let* p := pageEntries s (J s) options in Ok (APage p)).
Proof. intros H Hid. unfold run_call, Jsonl.run. by rewrite (proj1 H), (jsonl_read b J). Qed.

Lemma jsonl_get b J io s from : jsonl_holds b J -> validateStorageId s = true ->
  run_call b io (GetEntries s from) = (b, Ok (Entries (from_timestamp from (J s)))).
Proof. intros H Hid. unfold run_call, Jsonl.run. by rewrite (proj1 H), (jsonl_read b J). Qed.

Lemma jsonl_fork b J io source target headId : jsonl_holds b J -> validateStorageId source = true -> validateStorageId target = true ->
  run_call b io (ForkSession source target headId) =
    match forkEntries source target (J source) (J target) headId with
    | Err e => (b, Err e)
    | Ok es => run_call b io (AppendEntries target es)
    end.
Proof.
  intros H Hs Ht. unfold run_call, Jsonl.run. rewrite (proj1 H), !(jsonl_read b J) by done. simpl. by destruct (forkEntries _ _ _ _ _).
Qed.

#[export] Instance jsonl_store : JournalStore Jsonl.backend := {|
  holds := jsonl_holds; ready := jsonl_ready;
  fits := storable; stored := fun e => e;
  store_sound := jsonl_sound; store_stored b J s Hb Hs := conj (proj2 (jsonl_sound b J s Hb Hs)) (map_id (J s)); fits_moved := storable_stays; store_page := jsonl_page; store_get := jsonl_get;
  store_fork := jsonl_fork; store_append b J io s es b' r Hb Hs Hes Hr := as_it_is _ _ _ _ _ _ _ _ _ (jsonl_append b J io s es b' r Hb Hs Hes Hr) |}.
