(* ===== verification/SessionTheorems.v ===== *)
(** What the session backends promise: pages that follow each other read exactly the journal
    the first page saw; a fork is the ancestry of its head; the JSONL backend answers as the
    memory backend does; and it loses no acknowledged batch and splits none when writes are
    cut short. *)

From S2P Require Import Prelude JsValue JsonText JsonTextProofs SessionEntries SessionEntriesProofs JsonLines SessionBackends SessionBackendsProofs SessionStores.

(** * Paging *)

Section Paging.
Context {B : Type} `{JournalStore B}.

(** Appends of other users of the backend, with the fates of their writes. *)
Definition write : Type := option nat * string * list jsv.
Definition apply_writes (b : B) (writes : list write) : B :=
  foldl (fun b '(io, s, es) => fst (run_call b io (AppendEntries s es))) b writes.

Definition allowed (w : write) : Prop := validateStorageId (snd (fst w)) = true /\ Forall fits (snd w).

(** A client that follows the cursors; the writes of one item of [schedule] come after each
    page.  [None]: a call failed, or the schedule was too short. *)
Fixpoint traverse (b : B) (s : string) (limit : Z) (direction : option string) (c : option cursor) (schedule : list (list write)) : option (list jsv) :=
  match schedule with
  | [] => None
  | writes :: schedule =>
      match snd (run_call b None (GetEntryPage s (MkOptions (Some limit) direction c))) with
      | Ok (APage p) =>
          match p_nextCursor p with
          | None => Some (p_entries p)
          | Some c =>
              match traverse (apply_writes b writes) s limit None (Some c) schedule with
              | Some more => Some (p_entries p ++ more)
              | None => None
              end
          end
      | _ => None
      end
  end.

Lemma append_extends b J io s es sid : holds b J -> validateStorageId s = true -> Forall fits es ->
  exists J' more, holds (fst (run_call b io (AppendEntries s es))) J' /\ J' sid = J sid ++ more.
Proof.
  intros Hb Hs Hes. destruct (run_call b io (AppendEntries s es)) as [b' r] eqn:E.
  destruct (store_append b J io s es b' r Hb Hs Hes E) as (J' & Hb' & Hother & _ & Hcase). simpl.
  destruct (decide (sid = s)) as [->|Hne]; [|exists J', []; rewrite app_nil_r; auto].
  destruct (prepareEntryBatch s (J s) es) as [batch|e].
  - destruct Hcase as [(_ & E' & _)|(_ & _ & [E'|E'])]; [exists J', (map stored batch)|exists J', []|exists J', (map stored batch)]; rewrite ?app_nil_r; auto.
  - exists J', []. rewrite app_nil_r. naive_solver.
Qed.

Lemma writes_extend writes : Forall allowed writes -> forall b J sid, holds b J ->
  exists J' more, holds (apply_writes b writes) J' /\ J' sid = J sid ++ more.
Proof.
  induction 1 as [|[[io s] es] writes [Hs Hes] _ IH]; intros b J sid Hb; [exists J, []; rewrite app_nil_r; auto|].
  destruct (append_extends b J io s es sid Hb Hs Hes) as (J1 & m1 & H1 & E1).
  destruct (IH _ J1 sid H1) as (J2 & m2 & H2 & E2). exists J2, (m1 ++ m2). split; [done|]. by rewrite E2, E1, app_assoc.
Qed.

Lemma traverse_rest s limit direction J0 : validateStorageId s = true -> (1 <= limit <= 1000)%Z ->
  direction = "forward" \/ direction = "backward" ->
  forall schedule b J more seen rest dir, Forall (Forall allowed) schedule -> holds b J -> J s = J0 ++ more ->
  in_direction direction J0 = seen ++ rest -> (seen = [] -> more = []) ->
  default (default "forward" (option_map c_direction (cursor_after s direction J0 seen))) dir = direction ->
  schedule <> [] -> (zlen rest <= limit * zlen schedule)%Z ->
  traverse b s limit dir (cursor_after s direction J0 seen) schedule = Some rest.
Proof.
  intros Hs Hl Hd. induction schedule as [|writes schedule IH]; intros b J more seen rest dir Hw Hb HJ Hrest Hfirst Hdir Hne Hlen; [done|].
  cbn [traverse]. rewrite (store_page b J None s _ Hb Hs). destruct (store_sound b J s Hb Hs) as [Hval _]. rewrite HJ in *.
  rewrite (pageEntries_rest s direction J0 more seen rest limit dir) by done. cbn [bind_res snd p_nextCursor p_entries].
  destruct (Z.ltb_spec limit (zlen rest)) as [Hlt|Hge]; [|by rewrite ztake_all].
  assert (Htake : zlen (ztake limit rest) = limit) by (apply zlen_ztake; lia).
  destruct (cursor_after s direction J0 (seen ++ ztake limit rest)) as [c|] eqn:Ec.
  2:{ unfold cursor_after in Ec. rewrite list.last_app in Ec. destruct (list.last (ztake limit rest)) eqn:El; [done|].
      apply last_None in El. rewrite El, zlen_nil in Htake. lia. }
  inversion Hw as [|? ? Hw1 Hw2]; subst. destruct (writes_extend writes Hw1 b J s Hb) as (J' & m & Hb' & HJ').
  rewrite <- Ec. rewrite (IH _ J' (more ++ m) (seen ++ ztake limit rest) (zdrop limit rest) None); try done.
  - by rewrite ztake_zdrop.
  - by rewrite HJ', HJ, app_assoc.
  - by rewrite <- app_assoc, ztake_zdrop.
  - intros E. apply app_eq_nil in E as [_ E]. rewrite E, zlen_nil in Htake. lia.
  - rewrite Ec. simpl. unfold cursor_after in Ec. destruct (list.last _); [|done]. by injection Ec as <-.
  - intros ->. rewrite zlen_cons, zlen_nil in Hlen. lia.
  - rewrite zlen_zdrop by lia. rewrite zlen_cons in Hlen. lia.
Qed.

(** C34: pages are a snapshot. On any backend that keeps the promise of the interface, a client
    that follows the cursors gets exactly the journal as it was at its first page, in the
    direction it asked for, in as many pages as the limit needs, whatever entries the backend
    can hold ([fits]: for the files, values JSON expresses exactly without a property
    [journalBatch] of their own) are appended to whatever sessions, accepted, refused or cut
    short, between its requests. *)
Theorem pages_traverse_a_snapshot b J s limit direction schedule :
  holds b J -> validateStorageId s = true -> (1 <= limit <= 1000)%Z -> direction = "forward" \/ direction = "backward" ->
  Forall (Forall allowed) schedule -> schedule <> [] -> (zlen (J s) <= limit * zlen schedule)%Z ->
  traverse b s limit (Some direction) None schedule = Some (in_direction direction (J s)).
Proof.
  intros Hb Hs Hl Hd Hw Hne Hlen. change None with (cursor_after s direction (J s) []).
  apply (traverse_rest s limit direction (J s)) with (J := J) (more := []); try done; [by rewrite app_nil_r|].
  unfold in_direction. case_bool_decide; [|done]. unfold zlen. by rewrite length_rev.
Qed.

Lemma selected_from s target J headId selected : valid_log s J -> fork_selects target J headId selected ->
  exists l, selected = map (moved target) l /\ Forall (fun e => e ∈ J /\ exists fs, e = VObj fs) l.
Proof.
  intros Hval Hsel. assert (Hin : forall l, Forall (fun x => x ∈ J) l -> Forall (fun e => e ∈ J /\ exists fs, e = VObj fs) l).
  { intros l Hl. eapply Forall_impl; [exact Hl|]. intros x Hx. split; [done|]. apply list_elem_of_split in Hx as (a & b & ->).
    apply valid_fresh in Hval as [Hp _]. exact (pl_object _ _ _ _ Hp). }
  destruct headId as [id|]; simpl in Hsel.
  - destruct Hsel as (path & Han & ->). eexists. split; [done|]. apply Hin, Forall_rev. by eapply ancestry_in.
  - subst selected. eexists. split; [done|]. apply Hin. by apply Forall_forall.
Qed.

(** What a fork selects can be stored, and is stored as it is. *)
Lemma selected_fits s target J headId selected : valid_log s J -> Forall fits J -> map stored J = J ->
  fork_selects target J headId selected -> Forall fits selected /\ map stored selected = selected.
Proof.
  intros Hval Hf Hst (l & -> & Hl)%(selected_from s); [|done]. assert (Hsame : forall x, x ∈ J -> stored x = x).
  { intros x Hx. apply list_elem_of_lookup in Hx as [i Hi]. assert (Hm : map stored J !! i = Some (stored x)) by (change (map stored J) with (stored <$> J); by rewrite list_lookup_fmap, Hi).
    rewrite Hst, Hi in Hm. by injection Hm. }
  rewrite Forall_forall in Hf. induction Hl as [|x l [Hx (fs & ->)] _ [IH1 IH2]]; [done|]. cbn [map].
  destruct (fits_moved target fs (Hf _ Hx)) as [H1 H2]. split; [by constructor|]. by rewrite IH2, H2, Hsame.
Qed.

(** A fork copies the ancestry of its head.  On a backend that can write the target, a
    fork is accepted exactly when the target is another session, empty, and the head is in the
    source.  The target then has the whole journal of the source, or the entries from the root
    to the head along their parents, each with its identifier and the session of the target;
    the source keeps its journal.  A fork that is refused changes nothing. *)
Theorem fork_copies_the_ancestry b J source target headId b' r :
  holds b J -> validateStorageId source = true -> validateStorageId target = true -> ready b target ->
  run_call b None (ForkSession source target headId) = (b', r) ->
  (r = Ok Done /\ source <> target /\ J target = [] /\
     exists J', holds b' J' /\ J' source = J source /\ fork_selects target (J source) headId (J' target)) \/
  (is_ok r = false /\ b' = b /\
     (source = target \/ J target <> [] \/ exists id, headId = Some (Some id) /\ id ∉ ids_of (J source))).
Proof.
  intros Hb Hs Ht Hr. rewrite (store_fork b J None source target headId Hb Hs Ht).
  destruct (store_sound b J source Hb Hs) as [Hval _]. destruct (store_stored b J source Hb Hs) as [Hfit Hst].
  destruct (forkEntries_cases source target (J source) (J target) headId Hval Hs Ht)
    as [(selected & -> & Hne & HT & Hsel & Hspec)|(e & -> & Hwhy)]; [|intros [= <- <-]; by right].
  intros Hrun. left. destruct (selected_fits _ _ _ _ _ Hval Hfit Hst Hspec) as [Hstor Hsame].
  destruct (store_append b J None target selected b' r Hb Ht Hstor Hrun) as (J' & Hb' & Hother & _ & Hcase).
  rewrite HT, (prepareEntryBatch_stored target [] selected Ht Hsel), Hsame in Hcase.
  destruct Hcase as [(-> & HJ' & _)|(_ & [?|?] & _)]; [|done|done]. split_and!; try done.
  exists J'. rewrite HJ', Hother by done. done.
Qed.
End Paging.

Lemma storable_selected s target J headId selected : valid_log s J -> Forall storable J -> fork_selects target J headId selected -> Forall storable selected.
Proof. intros Hval Hst Hsel. exact (proj1 (selected_fits (H0 := memory_store) s target J headId selected Hval Hst (map_id J) Hsel)). Qed.

(** * The two backends answer alike *)

(** A call with valid identifiers and values that JSON expresses. *)
Definition call_ok (c : call) : Prop :=
  match c with
  | Initialize | Close => True
  | AppendEntries s es | LoadEntries s es => validateStorageId s = true /\ Forall storable es
  | GetEntries s _ | GetEntryPage s _ => validateStorageId s = true
  | ForkSession source target _ => validateStorageId source = true /\ validateStorageId target = true
  | AppendDelta d => (exists fs, d = VObj fs) /\ plain d /\ validateStorageId (delta_document d) = true
  | GetDeltas doc _ => validateStorageId doc = true
  end.

Fixpoint answers {B : Type} `{SessionBackend B} (b : B) (calls : list call) : list outcome :=
  match calls with
  | [] => []
  | c :: calls => let '(b, r) := run_call b None c in r :: answers b calls
  end.




Lemma append_files io files path text other : other <> path -> fst (appendJsonl io files path text) !! other = files !! other.
Proof.
  intros Hne. unfold appendJsonl. destruct (separator _); [|done]. destruct io; simpl; by rewrite lookup_insert_ne.
Qed.


Lemma paths_differ s doc : Jsonl.deltas_path doc <> Jsonl.journal_path s.
Proof. by intros E%(f_equal (String.get 0)). Qed.












(** * Crashes *)

(** The entries a call asks to append, and to which session. *)
Definition appended_by (b : Jsonl.backend) (c : call) : option (string * list jsv) :=
  match c with
  | AppendEntries s es | LoadEntries s es => Some (s, es)
  | ForkSession source target headId =>
      match (let* es := Jsonl.readEntries b source in let* target_es := Jsonl.readEntries b target in forkEntries source target es target_es headId) with
      | Ok es => Some (target, es)
      | Err _ => None
      end
  | _ => None
  end.

Definition as_stored (e : jsv) : jsv := with_field e "version" (VNum 1).

Definition attempted (s : string) (b : Jsonl.backend) (c : call) (r : outcome) : list (bool * list jsv) :=
  match appended_by b c with
  | Some (s', es) => if decide (s' = s) then [(is_ok r, map as_stored es)] else []
  | None => []
  end.

(** A backend after any calls, writes cut short and restarts, with the batches that were to be
    appended to the session [s] and whether each was acknowledged. *)
Inductive history (s : string) : Jsonl.backend -> list (bool * list jsv) -> Prop :=
| h_new : history s (Jsonl.open ∅) []
| h_restart b h : history s b h -> history s (Jsonl.open (Jsonl.files b)) h
| h_call b h io c b' r : history s b h -> call_ok c -> run_call b io c = (b', r) -> history s b' (h ++ attempted s b c r).

(** The journals in the files, whether the backend is open or not. *)
Definition on_disk (fs : dir) (J : journals_of) : Prop :=
  forall s, validateStorageId s = true -> journal_file s (file_of fs (Jsonl.journal_path s)) (J s).

Lemma versioned_as_stored entries batch : Forall2 versioned entries batch -> batch = map as_stored entries.
Proof. induction 1 as [|x y xs ys (fs & -> & ->) _ IH]; [done|]. by rewrite IH. Qed.

Lemma append_admits s b J io s' es b' r h : validateStorageId s = true ->
  jsonl_holds b J -> validateStorageId s' = true -> Forall storable es -> run_call b io (AppendEntries s' es) = (b', r) ->
  admitted h (J s) ->
  exists J', jsonl_holds b' J' /\ admitted (h ++ (if decide (s' = s) then [(is_ok r, map as_stored es)] else [])) (J' s).
Proof.
  intros Hs Hb Hs' Hes Hrun Hadm. destruct (jsonl_append b J io s' es b' r Hb Hs' Hes Hrun) as (J' & Hb' & Hother & _ & Hcase).
  exists J'. split; [done|]. destruct (decide (s' = s)) as [->|Hne]; [|by rewrite app_nil_r, Hother].
  destruct (prepareEntryBatch s (J s) es) as [batch|e] eqn:E.
  - apply prepareEntryBatch_valid in E as (_ & _ & ->%versioned_as_stored); [|by eapply journal_file_valid, Hb].
    destruct Hcase as [(-> & -> & _)|(-> & _ & [->| ->])]; by constructor.
  - destruct Hcase as (-> & -> & _). by constructor.
Qed.

Lemma delta_on_disk b J io d : on_disk (Jsonl.files b) J -> on_disk (Jsonl.files (fst (run_call b io (AppendDelta d)))) J.
Proof.
  intros H s Hs. specialize (H s Hs). unfold run_call, Jsonl.run. destruct (Jsonl.closed b); [done|]. unfold Jsonl.appendDelta.
  destruct (Jsonl.getDeltas _ _) as [ds|e]; [|done]. destruct (appendJsonl _ _ _ _) as [fs r] eqn:E. simpl. unfold file_of.
  change fs with (fst (fs, r)). rewrite <- E, append_files; [done|]. by intros Hp%eq_sym%paths_differ.
Qed.

(** One call, whatever becomes of its writes. *)
Lemma call_admits s b J io c b' r h : validateStorageId s = true -> on_disk (Jsonl.files b) J -> call_ok c ->
  run_call b io c = (b', r) -> admitted h (J s) ->
  exists J', on_disk (Jsonl.files b') J' /\ admitted (h ++ attempted s b c r) (J' s).
Proof.
  intros Hs Hdisk Hok Hrun Hadm. destruct (Jsonl.closed b) eqn:Hc.
  { assert (Jsonl.files b' = Jsonl.files b /\ (c = Close \/ is_ok r = false)) as [-> Hr].
    { unfold run_call, Jsonl.run in Hrun. rewrite Hc in Hrun. destruct c; injection Hrun as <- <-; auto. }
    exists J. split; [done|]. unfold attempted. destruct (appended_by b c) as [[s' es]|] eqn:Ea; [|by rewrite app_nil_r].
    destruct (decide (s' = s)); [|by rewrite app_nil_r]. destruct Hr as [->| ->]; [done|by constructor]. }
  assert (Hb : jsonl_holds b J) by by split.
  assert (Hsame : forall c', attempted s b c' r = [] -> b' = b -> exists J', on_disk (Jsonl.files b') J' /\ admitted (h ++ attempted s b c' r) (J' s)).
  { intros c' -> ->. exists J. by rewrite app_nil_r. }
  assert (Happ : forall s' es, validateStorageId s' = true -> Forall storable es -> run_call b io (AppendEntries s' es) = (b', r) ->
    exists J', on_disk (Jsonl.files b') J' /\ admitted (h ++ (if decide (s' = s) then [(is_ok r, map as_stored es)] else [])) (J' s)).
  { intros s' es Hs' Hes Hr. destruct (append_admits s b J io s' es b' r h Hs Hb Hs' Hes Hr Hadm) as (J' & [_ H1] & H2). by exists J'. }
  destruct c as [| |s' es|s' es|s' from|s' options|src tgt hd|d|doc from]; simpl in Hok.
  - apply Hsame; [done|]. unfold run_call, Jsonl.run in Hrun. rewrite Hc in Hrun. by injection Hrun.
  - exists J. rewrite app_nil_r. split; [|done]. by injection Hrun as <- _.
  - by apply Happ; [apply Hok|apply Hok|].
  - exact (Happ s' es (proj1 Hok) (proj2 Hok) Hrun).
  - apply Hsame; [done|]. rewrite (jsonl_get b J io s' from Hb Hok) in Hrun. by injection Hrun.
  - apply Hsame; [done|]. rewrite (jsonl_page b J io s' options Hb Hok) in Hrun. by injection Hrun.
  - destruct Hok as [Hsrc Htgt]. rewrite (jsonl_fork b J io src tgt hd Hb Hsrc Htgt) in Hrun.
    unfold attempted, appended_by. rewrite !(jsonl_read b J) by done. cbn [bind_res].
    destruct (jsonl_sound b J src Hb Hsrc) as [Hval Hst].
    destruct (forkEntries_cases src tgt (J src) (J tgt) hd Hval Hsrc Htgt) as [(sel & E & _ & _ & _ & Hspec)|(e & E & _)]; rewrite E in *.
    + apply Happ; [done| |done]. exact (storable_selected _ _ _ _ _ Hval Hst Hspec).
    + injection Hrun as <- <-. exists J. by rewrite app_nil_r.
  - exists J. split; [|by rewrite app_nil_r]. pose proof (delta_on_disk b J io d Hdisk) as H. by rewrite Hrun in H.
  - apply Hsame; [done|]. unfold run_call, Jsonl.run in Hrun. rewrite Hc in Hrun. by injection Hrun.
Qed.

(** C15: no acknowledged batch is lost and none is split. The calls have valid identifiers, and
    their entries and deltas are values JSON expresses exactly, no entry with a property
    [journalBatch] of its own. Then whatever calls were made, at whatever byte the writes of
    each were cut short, and however often the backend was restarted over its directory, a new
    backend reads from every session a valid journal that consists of whole batches in order:
    all that were acknowledged, and of the others each wholly or not at all.
    [marked_entry_corrupts_the_journal] shows the excluded entries. *)
Theorem acknowledged_batches_survive s b h :
  validateStorageId s = true -> history s b h ->
  exists es, Jsonl.readEntries (Jsonl.open (Jsonl.files b)) s = Ok es /\ valid_log s es /\ admitted h es.
Proof.
  intros Hs Hh. assert (exists J, on_disk (Jsonl.files b) J /\ admitted h (J s)) as (J & Hdisk & Hadm).
  { induction Hh as [|b h _ IH|b h io c b' r _ (J & Hdisk & Hadm) Hok Hrun]; [|done|by eapply call_admits].
    exists (fun _ => []). split; [|constructor]. intros s' _. apply journal_file_empty. }
  exists (J s). split_and!; [|by eapply journal_file_valid, Hdisk|done]. apply jsonl_read; [by split|done].
Qed.

(** * A property that marks a record *)

Definition sample_entry (session id : string) (seq : Z) (parent : jsv) (extra : list (string * jsv)) : jsv :=
  VObj ([("id", VStr id); ("sessionId", VStr session); ("seq", VNum seq); ("parentId", parent); ("type", VStr "user_message");
         ("timestamp", VNum (10 * seq)); ("payload", VObj [("content", VStr "Once upon a time")])] ++ extra).

(** An entry is a valid one of its session for both backends even with a property that no
    entry needs; but [JsonlSessionBackend] tells the record of a batch from that of an entry by
    the name of such a property.  The append of this one is acknowledged, and from then on the
    journal can neither be read nor written. *)
Lemma marked_entry_corrupts_the_journal :
  let append := AppendEntries "s" [sample_entry "s" "e1" 1 VNull [("journalBatch", VNum 2)]] in
  let later := [GetEntries "s" None; AppendEntries "s" [sample_entry "s" "e2" 2 (VStr "e1") []]; GetEntryPage "s" (MkOptions None None None)] in
  map is_ok (answers Memory.new (append :: later)) = [true; true; true; true] /\
  answers (Jsonl.open ∅) (append :: later) = [Ok Done; Err UnsupportedBatch; Err UnsupportedBatch; Err UnsupportedBatch].
Proof. vm_compute. auto. Qed.

(** * Witnesses *)

Definition e1 : jsv := sample_entry "s" "e1" 1 VNull [].
Definition e2 : jsv := sample_entry "s" "e2" 2 (VStr "e1") [].
Definition e3 : jsv := sample_entry "s" "e3" 5 (VStr "e1") [].
Definition e4 : jsv := sample_entry "s" "e4" 6 (VStr "e3") [].

Lemma sample_storable session id seq parent : (0 <= seq <= 100)%Z -> plain parent -> storable (sample_entry session id seq parent []).
Proof.
  intros Hn Hp. split; [|reflexivity]. split; [apply (bool_decide_unpack _); reflexivity|]. cbn -[Z.pow]. split_and!; try lia; try done.
  apply (bool_decide_unpack _). reflexivity.
Defined.

Lemma samples_storable : Forall storable [e1; e2; e3; e4].
Proof. rewrite !Forall_cons; split_and!; [by apply sample_storable..|constructor]. Defined.

(** A memory backend with three entries. *)
Definition sample_memory : Memory.backend := fst (run_call Memory.new None (AppendEntries "s" [e1; e2; e3])).

Lemma sample_memory_holds : memory_holds sample_memory (Memory.journal sample_memory).
Proof.
  destruct (memory_append Memory.new (fun _ => []) None "s" [e1; e2; e3] sample_memory (Ok Done)) as (J & (H1 & H2 & H3) & _).
  - split_and!; [done|done|]. intros s Hs. by split; [|constructor].
  - reflexivity.
  - pose proof samples_storable as H. rewrite !Forall_cons in *. naive_solver.
  - reflexivity.
  - split_and!; [done|done|]. intros s Hs. rewrite <- H2. by apply H3.
Defined.

Lemma pages_traverse_a_snapshot_witness :
  traverse sample_memory "s" 2 (Some "backward") None [[(None, "s", [e4])]; []] = Some (in_direction "backward" (Memory.journal sample_memory "s")) /\
  map entry_id (in_direction "backward" (Memory.journal sample_memory "s")) = ["e3"; "e2"; "e1"].
Proof.
  split; [|reflexivity]. apply (pages_traverse_a_snapshot (H0 := memory_store) sample_memory (Memory.journal sample_memory)).
  - exact sample_memory_holds.
  - reflexivity.
  - lia.
  - by right.
  - rewrite !Forall_cons. split_and!; try by constructor. split; [reflexivity|]. apply Forall_singleton. by apply sample_storable.
  - done.
  - vm_compute. discriminate.
Defined.

Lemma fork_copies_the_ancestry_witness :
  let p := run_call sample_memory None (ForkSession "s" "t" (Some (Some "e3"))) in
  map entry_id (Memory.journal (fst p) "t") = ["e1"; "e3"] /\
  ((snd p = Ok Done /\ "s" <> "t" /\ Memory.journal sample_memory "t" = [] /\
     exists J', memory_holds (fst p) J' /\ J' "s" = Memory.journal sample_memory "s" /\
       fork_selects "t" (Memory.journal sample_memory "s") (Some (Some "e3")) (J' "t")) \/
   (is_ok (snd p) = false /\ fst p = sample_memory /\
     ("s" = "t" \/ Memory.journal sample_memory "t" <> [] \/ exists id, Some (Some "e3") = Some (Some id) /\ id ∉ ids_of (Memory.journal sample_memory "s")))).
Proof.
  split; [reflexivity|].
  apply (fork_copies_the_ancestry (H0 := memory_store) sample_memory (Memory.journal sample_memory)).
  - exact sample_memory_holds.
  - reflexivity.
  - reflexivity.
  - exact I.
  - reflexivity.
Defined.



(** An append is cut short after its record but before the newline, another one, after a
    restart, after 40 bytes. *)
Definition torn_once : Jsonl.backend := fst (run_call (Jsonl.open ∅) (Some 314%nat) (AppendEntries "s" [e1; e2])).
Definition sample_crash : Jsonl.backend := fst (run_call (Jsonl.open (Jsonl.files torn_once)) (Some 40%nat) (AppendEntries "s" [e3])).

Lemma acknowledged_batches_survive_witness :
  (exists es, Jsonl.readEntries (Jsonl.open (Jsonl.files sample_crash)) "s" = Ok es /\ valid_log "s" es /\
     admitted ([] ++ [(false, map as_stored [e1; e2])] ++ [(false, map as_stored [e3])]) es) /\
  (let* es := Jsonl.readEntries (Jsonl.open (Jsonl.files sample_crash)) "s" in Ok (map entry_id es)) = Ok ["e1"; "e2"] /\
  snd (run_call (Jsonl.open (Jsonl.files sample_crash)) None (AppendEntries "s" [e3])) = Err RejectedTail.
Proof.
  pose proof samples_storable as H. rewrite !Forall_cons in H. destruct H as (H1 & H2 & H3 & _).
  split; [|split; vm_compute; reflexivity]. apply acknowledged_batches_survive; [reflexivity|].
  apply (h_call "s" (Jsonl.open (Jsonl.files torn_once)) [(false, map as_stored [e1; e2])] (Some 40) (AppendEntries "s" [e3]) sample_crash (Err UnknownOutcome)).
  - apply h_restart. apply (h_call "s" (Jsonl.open ∅) [] (Some 314) (AppendEntries "s" [e1; e2]) torn_once (Err UnknownOutcome)).
    + constructor.
    + split; [reflexivity|]. by apply Forall_cons_2, Forall_singleton.
    + reflexivity.
  - split; [reflexivity|]. by apply Forall_singleton.
  - reflexivity.
Defined.
