(* ===== verification/Journal.v ===== *)
(** The session journal of the storage package ([AppendOnlySessionJournal] of
    storage/src/journal.ts): transactions appended to a JSONL file, one record each, its
    recovery when the process starts, and the exchange of journals as text.

    Modelling choices: the file of a journal is part of its state, as one process writes it;
    a write has an outcome as in [JsonLines]; the generated identifiers and the readings of the
    clock are arguments; the index of the entries is a search in the list of them.  The
    projection to the relational database ([replayToDb]) is not modelled. *)

From Stdlib Require Import Ascii.
From S2P Require Import Prelude JsValue JsonText SessionEntries JsonLines.

(** * Errors *)

Inductive entry_reason : Type :=
| NoObject
| BadId
| OtherSession
| BadSeqNumber
| BadParentId
| UnknownType
| BadTimestamp
| NoPayload
| BadBatch
| ExistingId
| Misplaced.

Inductive journal_error : Type :=
| CommitRejected (why : entry_reason)
| CommitUnknown
| InvalidLine (line : nat) (* of the file or of an import *)
| AlreadyExists
| WrongPlace
| BadEntry (why : entry_reason).

(** * Entries *)

Definition JOURNAL_ENTRY_TYPES : list string :=
  ["session_start"; "provider_session"; "model_loadout"; "context_edit"; "user_message"; "agent_turn"; "draft_revision"; "ledger_mutation";
   "compaction"; "tool_execution"; "operation_intent"; "operation_settlement"; "pipeline_stage"; "assistant_frame"; "tool_progress"; "custom"].

Definition non_blank (v : jsv) : bool := match v with VStr s => negb (blank (chars s)) | _ => false end.

Definition parseJournalEntry (sessionId : string) (value : jsv) : result entry_reason jsv :=
  match value with
  | VObj fs =>
      throw_if negb (non_blank (prop value "id")) with BadId in
      throw_if negb (is_string (prop value "sessionId") sessionId) with OtherSession in
      throw_if negb (is_safe_integer (prop value "seq")) || (as_num (prop value "seq") <? 1)%Z with BadSeqNumber in
      throw_if negb (match prop value "parentId" with VNull => true | v => non_blank v end) with BadParentId in
      throw_if negb (match prop value "type" with VStr t => bool_decide (t ∈ JOURNAL_ENTRY_TYPES) | _ => false end) with UnknownType in
      throw_if negb (is_number (prop value "timestamp")) || (as_num (prop value "timestamp") <? 0)%Z with BadTimestamp in
      throw_if negb (bool_decide (is_Some (assoc_get fs "payload"))) with NoPayload in
      Ok value
  | _ => Err NoObject
  end.

Fixpoint parse_all (sessionId : string) (values : list jsv) : result entry_reason (list jsv) :=
  match values with
  | [] => Ok []
  | v :: values => let* e := parseJournalEntry sessionId v in let* es := parse_all sessionId values in Ok (e :: es)
  end.

Definition parseJournalRecord (sessionId : string) (value : jsv) : result entry_reason (list jsv) :=
  match value with
  | VObj fs =>
      match assoc_get fs "journalBatch" with
      | Some mark =>
          match mark, prop value "entries" with
          | VNum 1, VArr (e :: entries) => parse_all sessionId (e :: entries)
          | _, _ => Err BadBatch
          end
      | None => let* e := parseJournalEntry sessionId value in Ok [e]
      end
  | _ => let* e := parseJournalEntry sessionId value in Ok [e]
  end.

Definition find_id (entries : list jsv) (id : string) : option jsv := List.find (fun e => bool_decide (entry_id e = id)) entries.

(** [validateEntryPlacement]: after [entries], with the parents of [index], at [nextSeq]. *)
Definition well_placed (entry : jsv) (entries index : list jsv) (nextSeq : Z) : bool :=
  match last entries with
  | Some previous => (entry_seq previous <? entry_seq entry)%Z
  | None => (1 <=? entry_seq entry)%Z
  end &&
  (entry_seq entry =? nextSeq)%Z &&
  match entry_parent entry with
  | None => true
  | Some p => match find_id index p with Some parent => (entry_seq parent <? entry_seq entry)%Z | None => false end
  end.

(** * The journal *)

(** [j_file] is [None] for a journal in memory. *)
Record journal : Type := MkJournal { j_session : string; j_entries : list jsv; j_nextSeq : Z; j_file : option text }.

Definition empty_journal (sessionId : string) (file : option text) : journal := MkJournal sessionId [] 1 file.

(** [storeEntry] without its persistence. *)
Definition store_entry (j : journal) (entry : jsv) : result journal_error journal :=
  throw_if bool_decide (is_Some (find_id (j_entries j) (entry_id entry))) with AlreadyExists in
  throw_if negb (well_placed entry (j_entries j) (j_entries j) (j_nextSeq j)) with WrongPlace in
  Ok (MkJournal (j_session j) (j_entries j ++ [entry]) (entry_seq entry + 1) (j_file j)).

(** [persistRecord]. *)
Definition persist (io : option nat) (j : journal) (record : jsv) : journal * result journal_error unit :=
  match j_file j with
  | None => (j, Ok tt)
  | Some content =>
      let line := JSON_text record ++ [newline] in
      match io with
      | None => (MkJournal (j_session j) (j_entries j) (j_nextSeq j) (Some (content ++ line)), Ok tt)
      | Some n => (MkJournal (j_session j) (j_entries j) (j_nextSeq j) (Some (content ++ take n line)), Err CommitUnknown)
      end
  end.

(** [storeEntry] with its persistence. *)
Definition store_persisted (io : option nat) (j : journal) (entry : jsv) : journal * result journal_error unit :=
  match store_entry j entry with
  | Err e => (j, Err e)
  | Ok _ =>
      match persist io j entry with
      | (j, Err e) => (j, Err e)
      | (j, Ok _) => match store_entry j entry with Ok j => (j, Ok tt) | Err e => (j, Err e) end
      end
  end.

(** * Transactions *)

(** [JournalAppend], with what the generator and the clock give for it. *)
Record append_request : Type := MkAppend {
  a_type : string; a_payload : jsv; a_id : option string; a_parentId : option (option string); a_generated : string; a_time : Z }.

Definition journal_entry (sessionId id : string) (seq : Z) (parentId : option string) (a : append_request) : jsv :=
  VObj [("id", VStr id); ("sessionId", VStr sessionId); ("seq", VNum seq);
        ("parentId", match parentId with Some p => VStr p | None => VNull end);
        ("type", VStr (a_type a)); ("timestamp", VNum (a_time a)); ("payload", a_payload a)].

Definition last_id (entries : list jsv) : option string := option_map entry_id (last entries).

(** The loop of [appendBatch]: the entries staged so far, and the parent of the next one. *)
Fixpoint stage (j : journal) (staged : list jsv) (parentId : option string) (appends : list append_request) : result entry_reason (list jsv) :=
  match appends with
  | [] => Ok staged
  | a :: appends =>
      let id := default (a_generated a) (a_id a) in
      throw_if blank (chars id) with BadId in
      throw_if bool_decide (is_Some (find_id (j_entries j) id)) || bool_decide (is_Some (find_id staged id)) with ExistingId in
      let seq := (j_nextSeq j + zlen staged)%Z in
      let* entry := parseJournalEntry (j_session j) (journal_entry (j_session j) id seq (default parentId (a_parentId a)) a) in
      throw_if negb (well_placed entry (if bool_decide (length staged = 0) then j_entries j else staged) (staged ++ j_entries j) seq) with Misplaced in
      stage j (staged ++ [entry]) (Some id) appends
  end.

(** The record of a transaction. *)
Definition transaction_record (staged : list jsv) : jsv :=
  match staged with [e] => e | _ => VObj [("journalBatch", VNum 1); ("entries", VArr staged)] end.

Definition adopt (j : journal) (staged : list jsv) : result journal_error journal := fold_res store_entry j staged.

Definition appendBatch (io : option nat) (j : journal) (appends : list append_request) : journal * result journal_error (list jsv) :=
  match appends with
  | [] => (j, Ok [])
  | _ =>
      match stage j [] (last_id (j_entries j)) appends with
      | Err why => (j, Err (CommitRejected why))
      | Ok staged =>
          match persist io j (transaction_record staged) with
          | (j, Err e) => (j, Err e)
          | (j, Ok _) => match adopt j staged with Ok j => (j, Ok staged) | Err _ => (j, Err CommitUnknown) end
          end
      end
  end.

(** [append]: one request, whose parent is the last entry unless it is given. *)
Definition append (io : option nat) (j : journal) (a : append_request) : journal * result journal_error (list jsv) :=
  appendBatch io j [MkAppend (a_type a) (a_payload a) (a_id a) (Some (default (last_id (j_entries j)) (a_parentId a))) (a_generated a) (a_time a)].

(** * Recovery *)

(** The entries of a line that is not blank; [None] is a [SyntaxError]. *)
Definition parse_line (sessionId : string) (line : text) : option (result entry_reason (list jsv)) :=
  option_map (parseJournalRecord sessionId) (JSON_parse line).

Definition store_line (j : journal) (entries : result entry_reason (list jsv)) : result journal_error journal :=
  match entries with Ok es => fold_res store_entry j es | Err why => Err (BadEntry why) end.

(** [validPrefix] and its size with a newline. *)
Fixpoint join_lines (lines : list text) : text :=
  match lines with
  | [] => []
  | [l] => l
  | l :: lines => l ++ newline :: join_lines lines
  end.

Definition prefix_size (lines : list text) : nat :=
  match join_lines (List.filter (fun l => negb (blank l)) lines) with [] => 0 | t => S (length t) end.

Definition set_file (j : journal) (content : text) : journal := MkJournal (j_session j) (j_entries j) (j_nextSeq j) (Some content).

(** The loop of [loadFromFile] over the lines that are left; [seen] are those before them.  The
    result is the journal and the content it leaves when the last line is torn. *)
Fixpoint load_lines (terminated : bool) (content : text) (seen lines : list text) (j : journal) : result journal_error (journal * option text) :=
  match lines with
  | [] => Ok (j, None)
  | line :: lines =>
      if blank line then load_lines terminated content (seen ++ [line]) lines j
      else
        match parse_line (j_session j) line with
        | None => if negb terminated && bool_decide (length lines = 0) then Ok (j, Some (take (prefix_size seen) content)) else Err (InvalidLine (S (length seen)))
        | Some entries =>
            match store_line j entries with
            | Ok j => load_lines terminated content (seen ++ [line]) lines j
            | Err _ => Err (InvalidLine (S (length seen)))
            end
        end
  end.

(** The constructor over an existing file.  The missing newline is added by writing the file
    anew; [io] is the fate of that write. *)
Definition open_journal (io : option nat) (sessionId : string) (content : text) : text * result journal_error journal :=
  match content with
  | [] => ([], Ok (empty_journal sessionId (Some [])))
  | _ =>
      let terminated := ends_with_newline content in
      let lines := split_lines content in
      match load_lines terminated content [] (if terminated then removelast lines else lines) (empty_journal sessionId (Some content)) with
      | Err e => (content, Err e)
      | Ok (j, Some truncated) => (truncated, Ok (set_file j truncated))
      | Ok (j, None) =>
          if terminated then (content, Ok j)
          else match io with
               | None => (content ++ [newline], Ok (set_file j (content ++ [newline])))
               | Some n => (take n (content ++ [newline]), Err CommitUnknown)
               end
      end
  end.

(** * Exchange *)

(** [s.trim()]. *)
Definition trim_start (t : text) : text := (fix go t := match t with c :: t' => if is_space c then go t' else t | [] => [] end) t.
Definition trim (t : text) : text := rev (trim_start (rev (trim_start t))).

Definition exportToJsonl (j : journal) : text := join_lines (map JSON_text (j_entries j)).

(** The entries of one line that the journal does not have; one that is refused ends the line. *)
Fixpoint import_entries (j : journal) (imported : nat) (entries : list jsv) : journal * nat * result journal_error unit :=
  match entries with
  | [] => (j, imported, Ok tt)
  | e :: entries =>
      if bool_decide (is_Some (find_id (j_entries j) (entry_id e))) then import_entries j imported entries
      else match store_persisted None j e with
           | (j, Ok _) => import_entries j (S imported) entries
           | (j, Err err) => (j, imported, Err err)
           end
  end.

Definition import_line (j : journal) (imported : nat) (line : text) : journal * nat * result journal_error unit :=
  match parse_line (j_session j) (trim line) with
  | None => (j, imported, Err (BadEntry NoObject))
  | Some (Err why) => (j, imported, Err (BadEntry why))
  | Some (Ok entries) => import_entries j imported entries
  end.

Fixpoint import_lines (strict : bool) (index : nat) (j : journal) (imported : nat) (lines : list text) : journal * result journal_error nat :=
  match lines with
  | [] => (j, Ok imported)
  | line :: lines =>
      match trim line with
      | [] => import_lines strict (S index) j imported lines
      | _ =>
          match import_line j imported line with
          | (j, imported, Ok _) => import_lines strict (S index) j imported lines
          | (j, imported, Err _) => if strict then (j, Err (InvalidLine (S index))) else import_lines strict (S index) j imported lines
          end
      end
  end.

Definition importFromJsonl (strict : bool) (j : journal) (content : text) : journal * result journal_error nat :=
  import_lines strict 0 j 0 (split_lines content).

(** * Reading *)

Definition getEntries (j : journal) : list jsv := j_entries j.
Definition getEntry (j : journal) (id : string) : option jsv := find_id (j_entries j) id.
Definition getEntriesByType (j : journal) (type : string) : list jsv := List.filter (fun e => is_string (prop e "type") type) (j_entries j).
Definition count (j : journal) : Z := zlen (j_entries j).
