(* ===== verification/JournalProofs.v ===== *)
(** What [Journal] promises: a transaction that was staged is adopted, the file of a journal
    gives back its entries, a transaction that a crash cut short is there wholly or not at all,
    and an export imports as itself. *)

From S2P Require Import Prelude JsValue JsonText JsonTextProofs SessionEntries SessionEntriesProofs JsonLines SessionBackends SessionBackendsProofs Journal.

(** * Storing entries *)

(** The file plays no part in what is stored. *)
Lemma store_entry_file j content e :
  store_entry (set_file j content) e = let* j' := store_entry j e in Ok (set_file j' content).
Proof. unfold store_entry. simpl. case_bool_decide; [done|]. by destruct (well_placed _ _ _ _). Qed.

Lemma store_all_file content es : forall j,
  fold_res store_entry (set_file j content) es = let* j' := fold_res store_entry j es in Ok (set_file j' content).
Proof.
  induction es as [|e es IH]; intros j; simpl; [done|]. rewrite store_entry_file. destruct (store_entry j e) as [j'|]; simpl; [apply IH|done].
Qed.

Lemma store_entry_spec j e j' : store_entry j e = Ok j' ->
  j_session j' = j_session j /\ j_entries j' = j_entries j ++ [e] /\ j_nextSeq j' = (entry_seq e + 1)%Z /\ j_file j' = j_file j /\
  find_id (j_entries j) (entry_id e) = None /\ entry_seq e = j_nextSeq j.
Proof.
  unfold store_entry. case_bool_decide as Hf; [done|]. destruct (well_placed _ _ _ _) eqn:Hw; [|done]. intros [= <-]. simpl. split_and!; try done.
  - destruct (find_id _ _); [|done]. destruct Hf. eauto.
  - unfold well_placed in Hw. apply andb_true_iff in Hw as [[_ Hw]%andb_true_iff _]. by apply Z.eqb_eq.
Qed.

Lemma store_entries_spec es : forall j j', fold_res store_entry j es = Ok j' ->
  j_session j' = j_session j /\ j_entries j' = j_entries j ++ es /\ j_file j' = j_file j.
Proof.
  induction es as [|e es IH]; intros j j'; simpl; [intros [= <-]; by rewrite app_nil_r|]. intros H. inv_bind.
  apply store_entry_spec in Hv as (H1 & H2 & _ & H4 & _). apply IH in H as (H1' & H2' & H4'). rewrite H1', H2', H4', H1, H2, H4. by rewrite <- app_assoc.
Qed.

(** Journals that were built by storing their entries. *)
Record journal_ok (j : journal) : Prop := MkOk {
  ok_stored : fold_res store_entry (empty_journal (j_session j) (j_file j)) (j_entries j) = Ok j;
  ok_parsed : Forall (fun e => parseJournalEntry (j_session j) e = Ok e) (j_entries j);
}.

Lemma find_id_app a b id : find_id (a ++ b) id = match find_id a id with Some e => Some e | None => find_id b id end.
Proof. unfold find_id. induction a as [|e a IH]; [done|]. simpl. by case_bool_decide. Qed.

Lemma find_id_in l id e : find_id l id = Some e -> e ∈ l /\ entry_id e = id.
Proof. intros [H1 H2]%find_some. apply bool_decide_eq_true in H2. by rewrite list_elem_of_In. Qed.

Lemma find_id_none l id : find_id l id = None <-> forall e, e ∈ l -> entry_id e <> id.
Proof.
  split.
  - intros H e He E. apply list_elem_of_In in He. pose proof (find_none _ _ H e He) as Hf. cbn beta in Hf. by rewrite bool_decide_eq_true_2 in Hf.
  - intros H. destruct (find_id l id) as [e|] eqn:E; [|done]. apply find_id_in in E as [He Hid]. by destruct (H e He).
Qed.

(** No identifier is in both lists. *)
Definition disjoint_ids (a b : list jsv) : Prop := forall e, e ∈ a -> find_id b (entry_id e) = None.

Lemma find_id_swap a b id : disjoint_ids a b -> find_id (a ++ b) id = find_id (b ++ a) id.
Proof.
  intros Hd. rewrite !find_id_app. destruct (find_id a id) as [e|] eqn:Ea; [|by destruct (find_id b id)].
  apply find_id_in in Ea as [He <-]. by rewrite (Hd e He).
Qed.

Lemma parseJournalEntry_same sid v e : parseJournalEntry sid v = Ok e -> e = v.
Proof. unfold parseJournalEntry. destruct v; try done. repeat match goal with |- (if ?b then _ else _) = _ -> _ => destruct b; [done|] end. congruence. Qed.

(** What the loop of [appendBatch] has staged can be stored after the journal. *)
Definition staged_ok (j : journal) (staged : list jsv) : Prop :=
  disjoint_ids staged (j_entries j) /\ Forall (fun e => parseJournalEntry (j_session j) e = Ok e) staged /\
  exists j', fold_res store_entry j staged = Ok j' /\ j_nextSeq j' = (j_nextSeq j + zlen staged)%Z.

Lemma stage_step j staged parent a entry :
  let id := default (a_generated a) (a_id a) in
  let seq := (j_nextSeq j + zlen staged)%Z in
  staged_ok j staged -> find_id (j_entries j) id = None -> find_id staged id = None ->
  parseJournalEntry (j_session j) (journal_entry (j_session j) id seq parent a) = Ok entry ->
  well_placed entry (if bool_decide (length staged = 0) then j_entries j else staged) (staged ++ j_entries j) seq = true ->
  staged_ok j (staged ++ [entry]).
Proof.
  intros id seq (Hd & Hp & j' & Hst & Hn) He Hs Hparse Hw. pose proof (parseJournalEntry_same _ _ _ Hparse) as ->.
  set (entry := journal_entry _ _ _ _ _) in *. assert (Hid : entry_id entry = id) by done.
  destruct (store_entries_spec _ _ _ Hst) as (H1 & H2 & _). split_and!.
  - intros x [Hx| ->%list_elem_of_singleton]%elem_of_app; [by apply Hd|by rewrite Hid].
  - by apply Forall_app_2, Forall_singleton.
  - assert (Hstore : store_entry j' entry = Ok (MkJournal (j_session j') (j_entries j' ++ [entry]) (seq + 1) (j_file j'))).
    { unfold store_entry. rewrite H2, Hid, find_id_app, He, Hs. rewrite bool_decide_eq_false_2 by (by intros [? ?]).
      assert (well_placed entry (j_entries j ++ staged) (j_entries j ++ staged) (j_nextSeq j') = true) as ->; [|by rewrite <- H2].
      rewrite Hn. fold seq. unfold well_placed in *. apply andb_true_iff in Hw as [[Hw1 Hw2]%andb_true_iff Hw3]. apply andb_true_iff. split; [apply andb_true_iff; split; [|done]|].
      - destruct (decide (staged = [])) as [->|Hne]; [by rewrite app_nil_r|]. rewrite bool_decide_eq_false_2 in Hw1 by (by intros ?%nil_length_inv).
        destruct (exists_last Hne) as (k & x & ->). by rewrite app_assoc, !last_snoc in *.
      - destruct (entry_parent entry) as [p|]; [|done]. rewrite <- (find_id_swap staged (j_entries j)) by done. done. }
    eexists. rewrite fold_res_app, Hst. simpl. rewrite Hstore. split; [done|]. simpl. rewrite zlen_app, zlen_cons, zlen_nil. unfold seq. lia.
Qed.

Lemma stage_spec j appends : forall staged parent all, staged_ok j staged -> stage j staged parent appends = Ok all ->
  staged_ok j all /\ exists more, all = staged ++ more /\ length more = length appends.
Proof.
  induction appends as [|a appends IH]; intros staged parent all Hst; cbn [stage].
  - intros [= <-]. split; [done|]. exists []. by rewrite app_nil_r.
  - cbn zeta. destruct (blank _); [done|]. destruct (bool_decide (is_Some (find_id (j_entries j) _)) || _) eqn:Hf; [done|].
    apply orb_false_iff in Hf as [Hf1%bool_decide_eq_false Hf2%bool_decide_eq_false]. intros H. inv_bind.
    destruct (well_placed _ _ _ _) eqn:Hw; [|done]. cbn [negb] in H.
    assert (Hs : staged_ok j (staged ++ [v])).
    { eapply stage_step; [done| | |exact Hv|exact Hw].
      - destruct (find_id (j_entries j) _); [|done]. destruct Hf1. eauto.
      - destruct (find_id staged _); [|done]. destruct Hf2. eauto. }
    destruct (IH _ _ _ Hs H) as (Hall & more & -> & Hlen). split; [done|]. exists (v :: more). rewrite <- app_assoc. simpl. by rewrite Hlen.
Qed.

Lemma staged_nothing j : staged_ok j [].
Proof. split_and!; [by intros e He%elem_of_nil|done|]. exists j. split; [done|]. rewrite zlen_nil. lia. Qed.

Lemma adopt_ok j staged j' : journal_ok j -> Forall (fun e => parseJournalEntry (j_session j) e = Ok e) staged ->
  fold_res store_entry j staged = Ok j' -> journal_ok j'.
Proof.
  intros [Hst Hp] Hps H. destruct (store_entries_spec _ _ _ H) as (H1 & H2 & H3). constructor; rewrite H1, H2.
  - by rewrite H3, fold_res_app, Hst.
  - by apply Forall_app.
Qed.

Lemma set_file_ok j content : journal_ok j -> journal_ok (set_file j content).
Proof.
  intros [Hst Hp]. constructor; simpl; [|done]. change (empty_journal (j_session j) (Some content)) with (set_file (empty_journal (j_session j) (j_file j)) content).
  by rewrite store_all_file, Hst.
Qed.

(** * Reading the file *)

Lemma parse_all_ok sid es : Forall (fun e => parseJournalEntry sid e = Ok e) es -> parse_all sid es = Ok es.
Proof. induction 1 as [|e es He _ IH]; simpl; [done|]. by rewrite He, IH. Qed.

Lemma parse_record sid b : good_batch b -> Forall (fun e => parseJournalEntry sid e = Ok e) b ->
  parse_line sid (JSON_text (transaction_record b)) = Some (Ok b).
Proof.
  intros Hb Hp. unfold parse_line. rewrite parse_stringify by (by apply plain_batch_record). simpl. f_equal.
  destruct Hb as [Hn Hb]. destruct b as [|e [|e' b]]; [done| |by apply parse_all_ok]. inversion Hb as [|? ? [[Hpl Hj] (fs & ->)] _]; subst.
  inversion Hp as [|? ? He _]; subst. unfold transaction_record, parseJournalRecord. rewrite (plain_prop fs "journalBatch" Hpl Hj). by rewrite He.
Qed.

Abbreviation record_lines batches := (map JSON_text (map transaction_record batches)).

Lemma load_records sid terminated content rest batches : Forall good_batch batches -> forall seen j j',
  j_session j = sid -> Forall (fun e => parseJournalEntry sid e = Ok e) (List.concat batches) -> fold_res store_entry j (List.concat batches) = Ok j' ->
  load_lines terminated content seen (record_lines batches ++ rest) j = load_lines terminated content (seen ++ record_lines batches) rest j'.
Proof.
  induction 1 as [|b batches Hb _ IH]; intros seen j j' Hsid Hp Hst; simpl in *; [by injection Hst as <-; rewrite app_nil_r|].
  apply Forall_app in Hp as [Hpb Hp]. rewrite fold_res_app in Hst. inv_bind. rewrite text_not_blank, Hsid, parse_record by done.
  unfold store_line. rewrite Hv. rewrite (IH _ v j'); [by rewrite <- app_assoc| |done|done]. by rewrite (proj1 (store_entries_spec _ _ _ Hv)).
Qed.

Lemma join_length records : records <> [] -> S (length (join_lines (map JSON_text records))) = length (lines_of records).
Proof.
  induction records as [|r [|r' records] IH]; intros H; [done| |].
  - unfold lines_of. simpl. rewrite !length_app. simpl. lia.
  - change (lines_of (r :: r' :: records)) with ((JSON_text r ++ [newline]) ++ lines_of (r' :: records)).
    change (join_lines (map JSON_text (r :: r' :: records))) with (JSON_text r ++ newline :: join_lines (map JSON_text (r' :: records))).
    rewrite !length_app. rewrite <- (IH ltac:(done)). simpl. lia.
Qed.

(** The torn line is cut off exactly where it starts. *)
Lemma prefix_size_records records : prefix_size (map JSON_text records) = length (lines_of records).
Proof.
  unfold prefix_size. rewrite filter_all by (apply Forall_map, Forall_forall; intros r _; by rewrite text_not_blank).
  destruct records as [|r records]; [done|]. pose proof (join_length (r :: records) ltac:(done)) as H.
  destruct (join_lines (map JSON_text (r :: records))) as [|c t] eqn:E; [|done]. exfalso. pose proof (text_length r). destruct records; simpl in E.
  - rewrite E in *. simpl in *. lia.
  - apply app_eq_nil in E as [E _]. rewrite E in *. simpl in *. lia.
Qed.

Lemma lines_terminated batches : batches <> [] -> exists l, lines_of (map transaction_record batches) = l ++ [newline].
Proof. intros Hne. destruct (exists_last Hne) as (bs & b & ->). rewrite lines_of_snoc, app_assoc. eauto. Qed.

(** [open_journal] on a content that is not empty, once its lines are known. *)
Lemma open_lines sid batches t : Forall good_batch batches -> one_line t -> lines_of (map transaction_record batches) ++ t <> [] ->
  let content := lines_of (map transaction_record batches) ++ t in
  let terminated := bool_decide (t = []) in
  open_journal None sid content =
    match load_lines terminated content [] (record_lines batches ++ (if terminated then [] else [t])) (empty_journal sid (Some content)) with
    | Err e => (content, Err e)
    | Ok (j, Some truncated) => (truncated, Ok (set_file j truncated))
    | Ok (j, None) => if terminated then (content, Ok j) else (content ++ [newline], Ok (set_file j (content ++ [newline])))
    end.
Proof.
  intros Hbs Ht Hne content terminated.
  assert (Hrec : Forall plain (map transaction_record batches)) by (apply Forall_map; eapply Forall_impl; [exact Hbs|]; apply plain_batch_record).
  assert (Hterm : ends_with_newline content = terminated).
  { unfold terminated, content. case_bool_decide as E; [subst t|by apply ends_one_line]. rewrite app_nil_r in *.
    destruct (lines_terminated batches) as (l & ->); [by intros ->|]. apply ends_with_newline_snoc. }
  unfold open_journal. destruct content as [|c0 content0] eqn:Econtent; [done|]. rewrite <- Econtent in *. cbn zeta. rewrite Hterm.
  assert (split_lines content = record_lines batches ++ [t]) as -> by (by apply split_records).
  assert ((if terminated then removelast (record_lines batches ++ [t]) else record_lines batches ++ [t]) = record_lines batches ++ (if terminated then [] else [t])) as ->.
  { destruct terminated; [by rewrite removelast_last, app_nil_r|done]. }
  destruct (load_lines _ _ _ _ _) as [[j [tr|]]|e]; done.
Qed.

(** Opening a journal over its file, when its repair is not cut short. *)
Lemma open_journal_spec sid content es j : file_entries content es -> Forall (fun e => parseJournalEntry sid e = Ok e) es ->
  fold_res store_entry (empty_journal sid (Some content)) es = Ok j ->
  exists batches, Forall good_batch batches /\ List.concat batches = es /\
    open_journal None sid content = (lines_of (map transaction_record batches), Ok (set_file j (lines_of (map transaction_record batches)))).
Proof.
  intros (batches & t & extra & -> & Hbs & Ht & ->) Hp Hst. apply Forall_app in Hp as [Hp Hpe]. rewrite fold_res_app in Hst. inv_bind. rename v into j0, Hv into Hst0.
  change (map Jsonl.batch_record batches) with (map transaction_record batches) in *. set (content := lines_of _ ++ t) in *.
  destruct (decide (content = [])) as [E|Hne].
  { apply app_eq_nil in E as E'. destruct E' as [El ->]. assert (batches = []) as ->.
    { destruct (decide (batches = [])) as [|Hb]; [done|]. destruct (lines_terminated batches Hb) as (l & Hl). rewrite Hl in El. by apply app_eq_nil in El as [_ ?]. }
    exists []. simpl in Hst0. injection Hst0 as <-. rewrite E in *. clear E content El.
    inversion Ht as [E1 E2|u _ Hu _ E1 E2|b Hb E1 E2]; subst; [|done|].
    - simpl in *. by injection Hst as <-.
    - pose proof (text_length (Jsonl.batch_record extra)) as Hn. rewrite E1 in Hn. simpl in Hn. lia. }
  pose proof (open_lines sid batches t Hbs ltac:(by eapply tail_one_line) Hne) as Hopen. cbn zeta in Hopen. fold content in Hopen.
  rewrite (load_records sid _ content _ batches Hbs [] (empty_journal sid (Some content)) j0 eq_refl Hp Hst0) in Hopen. simpl app in Hopen.
  destruct (store_entries_spec _ _ _ Hst0) as (Hsid & _ & Hfile). simpl in Hsid, Hfile.
  destruct Ht as [|t Hl Hb Hparse|b Hgb].
  - rewrite bool_decide_eq_true_2 in Hopen by done. simpl in Hopen, Hst. injection Hst as <-. unfold content in *. rewrite !app_nil_r in *.
    exists batches. split_and!; [done|done|]. rewrite Hopen. f_equal. f_equal. destruct j0; simpl in *. by subst.
  - rewrite bool_decide_eq_false_2 in Hopen by (by intros ->). simpl in Hopen, Hst. injection Hst as <-. rewrite app_nil_r.
    rewrite Hb in Hopen. unfold parse_line in Hopen. rewrite Hparse in Hopen. simpl in Hopen. exists batches. split_and!; [done|done|].
    rewrite Hopen, prefix_size_records. unfold content. by rewrite take_app_length.
  - rewrite bool_decide_eq_false_2 in Hopen by (intros E; pose proof (text_length (Jsonl.batch_record b)) as Hn; rewrite E in Hn; simpl in Hn; lia).
    simpl in Hopen. rewrite text_not_blank, Hsid in Hopen. change (Jsonl.batch_record b) with (transaction_record b) in *.
    rewrite (parse_record sid b Hgb Hpe) in Hopen. unfold store_line in Hopen. rewrite Hst in Hopen. exists (batches ++ [b]).
    split_and!; [by apply Forall_app_2, Forall_singleton|by rewrite concat_app; simpl; rewrite app_nil_r|].
    change (map transaction_record (batches ++ [b])) with (map Jsonl.batch_record (batches ++ [b])). rewrite lines_of_snoc, Hopen. unfold content. by rewrite <- app_assoc.
Qed.
