(* ===== verification/JournalTheorems.v ===== *)
(** The properties of the session journal: it recovers every transaction that was acknowledged
    after any crash, and an export is a faithful copy. *)

From Stdlib Require Import Ascii.
From S2P Require Import Prelude JsValue JsonText JsonTextProofs SessionEntries SessionEntriesProofs JsonLines SessionBackends SessionBackendsProofs Journal JournalProofs.

(** * Transactions and the file *)

(** A request whose payload JSON expresses. *)
Definition request_ok (a : append_request) : Prop := plain (a_payload a) /\ (Z.abs (a_time a) < 10 ^ 21)%Z.

Lemma parse_seq_safe sid v e : parseJournalEntry sid v = Ok e -> (Z.abs (as_num (prop v "seq")) <= 2 ^ 53 - 1)%Z.
Proof.
  unfold parseJournalEntry. destruct v as [| | | | | |fs]; try done. destruct (negb (non_blank _)); [done|]. destruct (negb (is_string _ _)); [done|].
  destruct (is_safe_integer (prop (VObj fs) "seq")) eqn:E; [|done]. intros _. unfold is_safe_integer in E.
  destruct (prop (VObj fs) "seq"); try done. by apply Z.leb_le.
Qed.

Lemma entry_storable sid id seq parent a e : request_ok a -> parseJournalEntry sid (journal_entry sid id seq parent a) = Ok e ->
  storable e /\ exists fs, e = VObj fs.
Proof.
  intros [Hp Ht] H. pose proof (parseJournalEntry_same _ _ _ H) as ->. split; [|by eexists]. split; [|done].
  assert (Hseq : (Z.abs seq < 10 ^ 21)%Z).
  { apply parse_seq_safe in H. change (as_num (prop (journal_entry sid id seq parent a) "seq")) with seq in H. lia. }
  split; [apply (bool_decide_unpack _); reflexivity|]. cbn -[Z.pow]. split_and!; try done. by destruct parent.
Qed.

Lemma stage_storable j appends : Forall request_ok appends -> forall staged parent all, stage j staged parent appends = Ok all ->
  Forall (fun e => storable e /\ exists fs, e = VObj fs) staged -> Forall (fun e => storable e /\ exists fs, e = VObj fs) all.
Proof.
  induction 1 as [|a appends Ha _ IH]; intros staged parent all; cbn [stage]; [by intros [= <-]|]. cbn zeta.
  destruct (blank _); [done|]. destruct (_ || _); [done|]. intros H Hs. inv_bind. destruct (negb _); [done|].
  eapply IH; [exact H|]. apply Forall_app_2, Forall_singleton; [done|]. by eapply entry_storable.
Qed.

(** A file of whole records. *)
Definition clean (content : text) (es : list jsv) : Prop :=
  exists batches, Forall good_batch batches /\ List.concat batches = es /\ content = lines_of (map transaction_record batches).

Lemma clean_entries content es : clean content es -> file_entries content es.
Proof. intros (batches & Hb & <- & ->). exists batches, [], []. rewrite !app_nil_r. split_and!; try done. constructor. Qed.

(** The batch a call asks to commit, if it is staged. *)
Definition attempted (j : journal) (appends : list append_request) (r : result journal_error (list jsv)) : list (bool * list jsv) :=
  match appends with
  | [] => []
  | _ => match stage j [] (last_id (j_entries j)) appends with Ok staged => [(is_ok r, staged)] | Err _ => [] end
  end.

(** One transaction on a journal whose file is clean. *)
Lemma append_transaction io j content appends j' r :
  journal_ok j -> j_file j = Some content -> clean content (j_entries j) -> Forall request_ok appends -> appendBatch io j appends = (j', r) ->
  journal_ok j' /\ j_session j' = j_session j /\
  ((r <> Err CommitUnknown /\ exists content', j_file j' = Some content' /\ clean content' (j_entries j') /\
      (attempted j appends r = [] /\ j_entries j' = j_entries j \/
       exists staged, attempted j appends r = [(true, staged)] /\ j_entries j' = j_entries j ++ staged)) \/
   (r = Err CommitUnknown /\ j_entries j' = j_entries j /\ exists content' staged, j_file j' = Some content' /\ attempted j appends r = [(false, staged)] /\
      (file_entries content' (j_entries j) \/ file_entries content' (j_entries j ++ staged) /\ journal_ok (MkJournal (j_session j) (j_entries j ++ staged) (j_nextSeq j + zlen staged) (Some content'))))).
Proof.
  intros Hok Hf Hc Hreq. unfold appendBatch, attempted. destruct appends as [|a appends].
  { intros [= <- <-]. split_and!; try done. left. split; [done|]. exists content. auto. }
  destruct (stage j [] (last_id (j_entries j)) (a :: appends)) as [staged|why] eqn:Est.
  2:{ intros [= <- <-]. split_and!; try done. left. split; [done|]. exists content. auto. }
  destruct (stage_spec j _ [] _ _ (staged_nothing j) Est) as ((_ & Hparsed & js & Hst & Hnext) & more & Hmore & Hlen).
  assert (Hgb : good_batch staged).
  { split; [subst staged; by destruct more|]. by eapply (stage_storable j); [exact Hreq|exact Est|]. }
  pose proof (adopt_ok j staged js Hok Hparsed Hst) as Hjs. destruct (store_entries_spec _ _ _ Hst) as (H1 & H2 & H3).
  unfold persist. rewrite Hf. destruct Hc as (batches & Hbs & Hes & Hcont). destruct io as [n|].
  - intros [= <- <-]. split_and!; [by apply set_file_ok|done|]. right. split_and!; [done|done|].
    pose proof (written_prefix batches staged n Hbs Hgb) as Hw. rewrite Hes in Hw.
    change (map Jsonl.batch_record batches) with (map transaction_record batches) in Hw. rewrite <- Hcont in Hw.
    change (Jsonl.batch_record staged) with (transaction_record staged) in Hw. eexists _, staged. split_and!; [done|done|].
    destruct (_ <? _)%nat; [by left|right]. split; [exact Hw|].
    pose proof (set_file_ok js (content ++ take n (JSON_text (transaction_record staged) ++ [newline])) Hjs) as Hset.
    unfold set_file in Hset. by rewrite H1, H2, Hnext in Hset.
  - change (MkJournal (j_session j) (j_entries j) (j_nextSeq j) (Some ?c)) with (set_file j c).
    unfold adopt. rewrite store_all_file, Hst. cbn [bind_res]. intros [= <- <-]. split_and!; [by apply set_file_ok|done|].
    left. split; [done|]. eexists. split_and!; [done| |right; by exists staged]. simpl. rewrite H2. exists (batches ++ [staged]).
    split_and!; [by apply Forall_app_2, Forall_singleton|by rewrite concat_app, Hes; simpl; rewrite app_nil_r|].
    change (map transaction_record (batches ++ [staged])) with (map Jsonl.batch_record (batches ++ [staged])). rewrite lines_of_snoc. by rewrite Hcont.
Qed.

(** * Numbers *)

(** The sequence numbers count the entries from one. *)
Definition counted (j : journal) : Prop :=
  j_nextSeq j = (zlen (j_entries j) + 1)%Z /\ forall i e, j_entries j !! i = Some e -> entry_seq e = (Z.of_nat i + 1)%Z.

Lemma counted_store es : forall j j', counted j -> fold_res store_entry j es = Ok j' -> counted j'.
Proof.
  induction es as [|e es IH]; intros j j' Hc; simpl; [by intros [= <-]|]. intros H. inv_bind.
  apply (IH v); [|done]. destruct Hc as [Hn Hi]. apply store_entry_spec in Hv as (_ & H2 & H3 & _ & _ & H6).
  split; [rewrite H2, H3, zlen_app, zlen_cons, zlen_nil; lia|]. intros i x. rewrite H2. intros [Hx|[Hle Hx]]%lookup_app_Some; [by apply Hi|].
  apply list_lookup_singleton_Some in Hx as [Hi' <-]. rewrite H6, Hn. unfold zlen. lia.
Qed.

Lemma journal_counted j : journal_ok j -> counted j.
Proof. intros [Hst _]. eapply counted_store; [|exact Hst]. by split. Qed.

(** * Crashes *)

Definition in_doubt (r : result journal_error (list jsv)) : bool := match r with Err CommitUnknown => true | _ => false end.

(** A journal after any transactions, writes cut short, and restarts that are not cut short
    themselves, with the transactions it was asked to commit and whether it acknowledged them.
    After an unknown outcome the session is constructed again before it is written, as the
    error asks. *)
Inductive run (sid : string) : bool -> journal -> list (bool * list jsv) -> Prop :=
| r_new : run sid true (empty_journal sid (Some [])) []
| r_append j h io appends j' r : run sid true j h -> Forall request_ok appends -> appendBatch io j appends = (j', r) ->
    run sid (negb (in_doubt r)) j' (h ++ attempted j appends r)
| r_restart live j h content j' : run sid live j h -> open_journal None sid (default [] (j_file j)) = (content, Ok j') -> run sid true j' h.

(** What the file of a journal holds. *)
Definition recoverable (sid : string) (live : bool) (j : journal) (h : list (bool * list jsv)) : Prop :=
  j_session j = sid /\ exists content es jd, j_file j = Some content /\ file_entries content es /\ admitted h es /\
    journal_ok jd /\ j_session jd = sid /\ j_entries jd = es /\
    (live = true -> journal_ok j /\ clean content (j_entries j) /\ es = j_entries j).

(** Opening a file that holds the entries of a journal. *)
Lemma reopen sid content jd : file_entries content (j_entries jd) -> journal_ok jd -> j_session jd = sid ->
  exists content' j', open_journal None sid content = (content', Ok j') /\ journal_ok j' /\ j_session j' = sid /\
    j_entries j' = j_entries jd /\ j_file j' = Some content' /\ clean content' (j_entries j').
Proof.
  intros Hfile [Hst Hp] Hsid. rewrite Hsid in *.
  assert (Hst' : fold_res store_entry (empty_journal sid (Some content)) (j_entries jd) = Ok (set_file jd content)).
  { change (empty_journal sid (Some content)) with (set_file (empty_journal sid (j_file jd)) content). by rewrite store_all_file, Hst. }
  destruct (open_journal_spec sid content _ _ Hfile Hp Hst') as (batches & Hb & Hes & Hopen).
  eexists _, _. split; [exact Hopen|]. split_and!; try done; [|by exists batches].
  apply set_file_ok, set_file_ok. by constructor; rewrite ?Hsid.
Qed.

Lemma run_recoverable sid live j h : run sid live j h -> recoverable sid live j h.
Proof.
  induction 1 as [|j h io appends j' r _ (Hsid & content & es & jd & Hf & Hfile & Hadm & Hjd & Hjds & Hes & Hlive) Hreq Happ
                  |live j h content' j' _ (Hsid & content & es & jd & Hf & Hfile & Hadm & Hjd & Hjds & Hes & _) Hopen].
  - assert (Hok : journal_ok (empty_journal sid (Some []))) by by constructor.
    assert (Hclean : clean [] []) by by exists []. split; [done|]. exists [], [], (empty_journal sid (Some [])).
    split_and!; try done; [by apply clean_entries|constructor].
  - destruct (Hlive eq_refl) as (Hok & Hclean & Hej). subst es.
    destruct (append_transaction io j content appends j' r Hok Hf Hclean Hreq Happ) as (Hok' & Hs' & Hcase). rewrite Hsid in *. split; [done|].
    destruct Hcase as [(Hr & content' & Hf' & Hc' & Hatt)|(Hr & He' & content' & staged & Hf' & Hatt & Hfile')].
    + assert (in_doubt r = false) as -> by (by destruct r as [|[]]). exists content', (j_entries j'), j'. split_and!; try done; [by apply clean_entries|].
      rewrite Hej in Hadm. destruct Hatt as [[-> ->]|(staged & -> & ->)]; [by rewrite app_nil_r|by constructor].
    + rewrite Hr, Hatt in *. simpl. rewrite Hej in Hadm. destruct Hfile' as [Hfile'|[Hfile' Hjd']].
      * exists content', (j_entries j), j. split_and!; try done. by constructor.
      * eexists content', _, _. split_and!; [done|exact Hfile'|by constructor|exact Hjd'|done|done|done].
  - rewrite Hf in Hopen. simpl in Hopen. rewrite <- Hes in Hfile. destruct (reopen sid content jd Hfile Hjd Hjds) as (c & j1 & Ho & H1 & H2 & H3 & H4 & H5).
    rewrite Ho in Hopen. injection Hopen as <- <-. split; [done|]. exists c, (j_entries j1), j1. split_and!; try done; [by apply clean_entries|].
    by rewrite H3, Hes.
Qed.

(** C16: the journal survives crashes. The payloads of the requests are values JSON expresses
    exactly, so none is undefined. Then whatever transactions were appended, at whatever byte
    their writes were cut short, and however often the session was constructed again, each
    construction coming to the end of the repair it writes, the file can be opened; the entries
    are numbered from one without a gap; they are those of every transaction that was
    acknowledged, in order, and of the others each wholly or not at all; and a session that is
    not in doubt has in memory exactly what a restart finds.
    [cut_repair_loses_acknowledged_entries] and [undefined_payload_blocks_the_journal] show the
    excluded runs. *)
Theorem journal_survives_crashes sid live j h :
  run sid live j h ->
  exists content j', open_journal None sid (default [] (j_file j)) = (content, Ok j') /\ admitted h (j_entries j') /\ counted j' /\
    (live = true -> j_entries j' = j_entries j).
Proof.
  intros (Hsid & content & es & jd & Hf & Hfile & Hadm & Hjd & Hjds & Hes & Hlive)%run_recoverable. rewrite Hf. simpl. rewrite <- Hes in *.
  destruct (reopen sid content jd Hfile Hjd Hjds) as (c & j1 & Ho & H1 & H2 & H3 & _ & _). exists c, j1.
  split_and!; [done|by rewrite H3|by apply journal_counted|]. intros Hl. rewrite H3. by destruct (Hlive Hl) as (_ & _ & ?).
Qed.

(** * Exchange *)

Lemma trim_text fs : plain (VObj fs) -> trim (JSON_text (VObj fs)) = JSON_text (VObj fs).
Proof.
  intros [_ Hp%plain_fields]. rewrite object_text by done. set (m := commas (map property_text fs)). unfold trim.
  change (trim_start ("{"%char :: m ++ ["}"%char])) with ("{"%char :: m ++ ["}"%char]). rewrite app_comm_cons, rev_unit.
  change (trim_start ("}"%char :: rev ("{"%char :: m))) with ("}"%char :: rev ("{"%char :: m)). rewrite <- rev_unit. apply rev_involutive.
Qed.

Lemma split_join lines : Forall one_line lines -> lines <> [] -> split_lines (join_lines lines) = lines.
Proof.
  induction 1 as [|l lines Hl Hlines IH]; intros Hne; [done|]. destruct lines as [|l' lines]; [by apply split_one_line|].
  change (join_lines (l :: l' :: lines)) with (l ++ newline :: join_lines (l' :: lines)). rewrite split_line by done. by rewrite IH.
Qed.

Definition exchangeable (sid : string) (e : jsv) : Prop :=
  (storable e /\ exists fs, e = VObj fs) /\ parseJournalEntry sid e = Ok e.

Lemma exchange_line sid e : exchangeable sid e -> parse_line sid (trim (JSON_text e)) = Some (Ok [e]).
Proof.
  intros [[Hs (fs & ->)] Hp]. rewrite trim_text by apply Hs. apply (parse_record sid [VObj fs]); [|by constructor].
  split; [done|]. constructor; [|constructor]. split; [done|]. by eexists.
Qed.

Lemma exchange_trim sid e : exchangeable sid e -> trim (JSON_text e) <> [].
Proof. intros [[Hs (fs & ->)] _]. rewrite trim_text by apply Hs. intros E. pose proof (text_length (VObj fs)) as H. rewrite E in H. simpl in H. lia. Qed.

Lemma store_persisted_spec j e j' : store_entry j e = Ok j' ->
  exists j'', store_persisted None j e = (j'', Ok tt) /\ j_entries j'' = j_entries j' /\ j_session j'' = j_session j' /\ j_nextSeq j'' = j_nextSeq j'.
Proof.
  intros H. unfold store_persisted. rewrite H. unfold persist. destruct (j_file j) as [content|] eqn:Ef.
  - change (MkJournal _ _ _ (Some (content ++ ?l))) with (set_file j (content ++ l)). rewrite store_entry_file, H. simpl. by eexists.
  - rewrite H. by eexists.
Qed.

(** A step of [store_entry] depends on the entries and the next number only. *)
Lemma store_entry_alike j k e j' : j_entries k = j_entries j -> j_nextSeq k = j_nextSeq j -> store_entry j e = Ok j' ->
  exists k', store_entry k e = Ok k' /\ j_entries k' = j_entries j' /\ j_nextSeq k' = j_nextSeq j' /\ j_session k' = j_session k.
Proof.
  intros He Hn H. unfold store_entry in *. rewrite He, Hn. destruct (bool_decide _); [done|]. destruct (negb _); [done|].
  injection H as <-. by eexists.
Qed.

(** Lines of entries the journal can store. *)
Lemma import_new sid strict es : Forall (exchangeable sid) es -> forall index k j j' imported,
  j_session k = sid -> j_entries k = j_entries j -> j_nextSeq k = j_nextSeq j -> fold_res store_entry j es = Ok j' ->
  exists k', import_lines strict index k imported (map JSON_text es) = (k', Ok (imported + length es)) /\ j_entries k' = j_entries j'.
Proof.
  induction 1 as [|e es Hx _ IH]; intros index k j j' imported Hsid He Hn Hst; simpl in *.
  - injection Hst as <-. exists k. by rewrite Nat.add_0_r.
  - inv_bind. destruct (trim (JSON_text e)) as [|c t] eqn:Et; [by destruct (exchange_trim sid e Hx)|]. unfold import_line.
    rewrite Hsid, (exchange_line sid e Hx). pose proof (store_entry_spec _ _ _ Hv) as (_ & _ & _ & _ & Hfresh & _). cbn [import_entries].
    rewrite He, Hfresh, bool_decide_eq_false_2 by (by intros [? ?]).
    destruct (store_entry_alike j k e v He Hn Hv) as (k1 & Hk1 & H1 & H2 & H3). destruct (store_persisted_spec k e k1 Hk1) as (k2 & -> & H1' & H3' & H2').
    destruct (IH (S index) k2 v j' (S imported)) as (k' & -> & Hk'); [congruence|congruence|congruence|done|]. exists k'. split; [|done]. f_equal. f_equal. lia.
Qed.

(** Lines of entries the journal has. *)
Lemma import_known sid strict es : Forall (exchangeable sid) es -> forall index k,
  j_session k = sid -> Forall (fun e => is_Some (find_id (j_entries k) (entry_id e))) es ->
  import_lines strict index k 0 (map JSON_text es) = (k, Ok 0).
Proof.
  induction 1 as [|e es Hx _ IH]; intros index k Hsid Hk; simpl in *; [done|]. inversion Hk; subst.
  destruct (trim (JSON_text e)) as [|c t] eqn:Et; [by destruct (exchange_trim (j_session k) e Hx)|]. unfold import_line.
  rewrite (exchange_line (j_session k) e Hx). cbn [import_entries]. rewrite bool_decide_eq_true_2 by done. by apply IH.
Qed.

Lemma run_exchangeable sid j h : run sid true j h -> journal_ok j /\ j_session j = sid /\ Forall (exchangeable sid) (j_entries j).
Proof.
  intros (Hsid & content & es & jd & _ & _ & _ & _ & _ & _ & Hlive)%run_recoverable. destruct (Hlive eq_refl) as (Hok & (batches & Hb & Hes & _) & _).
  split_and!; [done|done|]. apply Forall_forall. intros e He. split.
  - rewrite <- Hes in He. apply list_elem_of_In, in_concat in He as (b & Hbin & He). rewrite Forall_forall in Hb. apply list_elem_of_In in Hbin, He.
    destruct (Hb b Hbin) as [_ Hall]. rewrite Forall_forall in Hall. by apply Hall.
  - destruct Hok as [_ Hp]. rewrite Forall_forall, Hsid in Hp. by apply Hp.
Qed.

(** An export is a faithful copy.  The text a journal exports, imported into an empty
    journal of the session, in a file or in memory, gives exactly its entries and their number;
    imported into the journal itself it adds nothing. *)
Theorem export_imports_as_itself sid j h strict file :
  run sid true j h ->
  (exists j', importFromJsonl strict (empty_journal sid file) (exportToJsonl j) = (j', Ok (length (j_entries j))) /\ getEntries j' = getEntries j) /\
  importFromJsonl strict j (exportToJsonl j) = (j, Ok 0).
Proof.
  intros Hrun. destruct (run_exchangeable sid j h Hrun) as (Hok & Hsid & Hx). unfold importFromJsonl, exportToJsonl, getEntries.
  destruct (decide (j_entries j = [])) as [E|Hne]; [rewrite E; simpl; split; [by eexists|done]|].
  rewrite split_join; [|apply Forall_map; eapply Forall_impl; [exact Hx|]; intros e [[[Hp _] _] _]; by apply text_one_line|by destruct (j_entries j)].
  split.
  - destruct Hok as [Hst _]. destruct (import_new sid strict _ Hx 0 (empty_journal sid file) (empty_journal (j_session j) (j_file j)) _ 0 eq_refl eq_refl eq_refl Hst) as (k & -> & Hk). by exists k.
  - apply (import_known sid); [done|done|]. apply Forall_forall. intros e He. destruct (find_id (j_entries j) (entry_id e)) eqn:E; [eauto|].
    pose proof (proj1 (find_id_none _ _) E e He). done.
Qed.

(** * Where recovery falls short *)

Definition request (payload : jsv) (id : string) (time : Z) : append_request := MkAppend "user_message" payload None None id time.

(** A transaction is accepted with a payload that is [undefined], which its record does not
    keep: the file can then not be opened any more, and the entries before it are out of
    reach. *)
Lemma undefined_payload_blocks_the_journal :
  let '(j1, r1) := appendBatch None (empty_journal "s" (Some [])) [request (VObj []) "a" 1] in
  let '(j2, r2) := appendBatch None j1 [request VUndef "b" 2] in
  is_ok r1 = true /\ is_ok r2 = true /\ snd (open_journal None "s" (default [] (j_file j2))) = Err (InvalidLine 2).
Proof. vm_compute. auto. Qed.

(** The missing newline of the last record is added by writing the whole file again, which
    empties it first: when that write is cut short, transactions that were acknowledged are
    lost. *)
Lemma cut_repair_loses_acknowledged_entries :
  let '(j1, r1) := appendBatch None (empty_journal "s" (Some [])) [request (VObj []) "a" 1] in
  let written j := length (default [] (j_file j)) in
  let line := written (fst (appendBatch None j1 [request (VObj []) "b" 2])) - written j1 - 1 in
  let '(j2, r2) := appendBatch (Some line) j1 [request (VObj []) "b" 2] in
  let '(remains, _) := open_journal (Some 0) "s" (default [] (j_file j2)) in
  is_ok r1 = true /\ r2 = Err CommitUnknown /\ option_map j_entries (match open_journal None "s" remains with (_, Ok j) => Some j | _ => None end) = Some [].
Proof. vm_compute. auto. Qed.

(** The size of the file before a torn record leaves out the blank lines: when there is one,
    the cut is too early, the next record joins the line before, and the file cannot be
    opened any more. *)
Lemma blank_line_misplaces_the_cut :
  let '(j1, _) := appendBatch None (empty_journal "s" (Some [])) [request (VObj []) "a" 1] in
  let '(_, opened) := open_journal None "s" ([newline] ++ default [] (j_file j1) ++ take 10 (default [] (j_file j1))) in
  match opened with
  | Ok j =>
      map entry_id (j_entries j) = ["a"] /\
      (let '(j', r) := appendBatch None j [request (VObj []) "b" 2] in
       is_ok r = true /\ snd (open_journal None "s" (default [] (j_file j'))) = Err (InvalidLine 2))
  | Err _ => False
  end.
Proof. vm_compute. auto. Qed.

(** * Witnesses *)

Definition sample_journal : journal := fst (appendBatch None (empty_journal "s" (Some [])) [request (VObj []) "a" 1; request (VStr "x") "b" 2]).
Definition torn_journal : journal := fst (appendBatch (Some 30) sample_journal [request VNull "c" 3]).

Lemma sample_run : run "s" true sample_journal [(true, j_entries sample_journal)].
Proof.
  apply (r_append "s" (empty_journal "s" (Some [])) [] None [request (VObj []) "a" 1; request (VStr "x") "b" 2] sample_journal (Ok (j_entries sample_journal))).
  - constructor.
  - repeat apply Forall_cons_2; try constructor; try done. split; [constructor|done].
  - reflexivity.
Defined.

Lemma journal_survives_crashes_witness :
  (exists content j', open_journal None "s" (default [] (j_file torn_journal)) = (content, Ok j') /\
     admitted ([(true, j_entries sample_journal)] ++ attempted sample_journal [request VNull "c" 3] (Err CommitUnknown)) (j_entries j') /\
     counted j' /\ (false = true -> j_entries j' = j_entries torn_journal)) /\
  map entry_id (j_entries (match snd (open_journal None "s" (default [] (j_file torn_journal))) with Ok j => j | Err _ => sample_journal end)) = ["a"; "b"].
Proof.
  split; [|reflexivity]. apply (journal_survives_crashes "s" false torn_journal).
  apply (r_append "s" sample_journal _ (Some 30) [request VNull "c" 3] torn_journal (Err CommitUnknown) sample_run).
  - apply Forall_singleton. by split.
  - reflexivity.
Defined.

Lemma export_imports_as_itself_witness :
  ((exists j', importFromJsonl true (empty_journal "s" None) (exportToJsonl sample_journal) = (j', Ok (length (j_entries sample_journal))) /\
     getEntries j' = getEntries sample_journal) /\
   importFromJsonl true sample_journal (exportToJsonl sample_journal) = (sample_journal, Ok 0)) /\
  length (j_entries sample_journal) = 2.
Proof. split; [|reflexivity]. apply (export_imports_as_itself "s" sample_journal [(true, j_entries sample_journal)] true None). exact sample_run. Defined.
