(* ===== verification/RpcLines.v ===== *)
(** The bounds of RPC connections (protocol/src/rpc-limits.ts): the limits, the buffer that
    cuts a stream of text into messages, and the window of bytes waiting to be sent.

    Modelling choices: a string is the list of its UTF-16 code units; the function that
    releases a reservation is a handle with the state of its variable [released]. *)

From S2P Require Import Prelude Bytes Text.

Local Open Scope Z_scope.

(** * Limits *)

Record rpc_limits : Type := MkLimits { maxFrameBytes : Z; maxQueuedBytes : Z; maxPendingRequests : Z; requestTimeoutMs : Z }.

Definition DEFAULT_RPC_LIMITS : rpc_limits := MkLimits (8 * 1024 * 1024) (16 * 1024 * 1024) 256 30000.

Inductive rpc_error : Type :=
| InvalidLimits
| FrameTooLong (* RPC frame exceeds byte limit *)
| QueueFull (* RPC send queue exceeds byte limit *).

(** [Partial<RpcLimits>]. *)
Record partial_limits : Type := MkPartial { p_maxFrameBytes : option Z; p_maxQueuedBytes : option Z; p_maxPendingRequests : option Z; p_requestTimeoutMs : option Z }.

Definition is_safe_positive (n : Z) : bool := (Z.abs n <=? 2 ^ 53 - 1) && (1 <=? n).

Definition resolveRpcLimits (input : partial_limits) : result rpc_error rpc_limits :=
  let d := DEFAULT_RPC_LIMITS in
  let limits := MkLimits (default (maxFrameBytes d) (p_maxFrameBytes input)) (default (maxQueuedBytes d) (p_maxQueuedBytes input))
                         (default (maxPendingRequests d) (p_maxPendingRequests input)) (default (requestTimeoutMs d) (p_requestTimeoutMs input)) in
  throw_if existsb (fun value => negb (is_safe_positive value)) [maxFrameBytes limits; maxQueuedBytes limits; maxPendingRequests limits; requestTimeoutMs limits]
           || (requestTimeoutMs limits >? 2147483647) || (maxQueuedBytes limits <? maxFrameBytes limits) with InvalidLimits in
  Ok limits.

(** The size of a frame whose text has [size] bytes. *)
Definition frame_bytes (size : Z) (limits : rpc_limits) : result rpc_error Z := throw_if size >? maxFrameBytes limits with FrameTooLong in Ok size.

Definition rpcFrameBytes (message : ustring) (limits : rpc_limits) : result rpc_error Z := frame_bytes (zlen (utf8_encode message)) limits.

(** * Lines *)

(** The code units [trim] removes. *)
Definition is_white (u : Z) : bool :=
  ((9 <=? u) && (u <=? 13)) || ((0x2000 <=? u) && (u <=? 0x200a)) || existsb (Z.eqb u) [32; 160; 0x1680; 0x2028; 0x2029; 0x202f; 0x205f; 0x3000; 0xfeff].

Fixpoint trim_left (s : ustring) : ustring := match s with u :: s' => if is_white u then trim_left s' else s | [] => [] end.
Definition trim (s : ustring) : ustring := rev (trim_left (rev (trim_left s))).

(** [chunk.slice(0, end)] and [chunk.slice(end + 1)] where [end] is the index of the first
    newline; [None] when there is none. *)
Fixpoint cut_line (chunk : ustring) : ustring * option ustring :=
  match chunk with
  | [] => ([], None)
  | u :: chunk =>
      if u =? 10 then ([], Some chunk)
      else let '(line, rest) := cut_line chunk in (u :: line, rest)
  end.

Record line_buffer : Type := MkBuffer { fragments : list ustring; tail : ustring; bytes : Z }.

Definition clear : line_buffer := MkBuffer [] [] 0.

(** The strings of a fragment are kept when they are long, and joined until they are. *)
Definition add_fragment (b : line_buffer) (fragment : ustring) (bytes : Z) : line_buffer :=
  if 1024 <=? zlen fragment
  then MkBuffer (fragments b ++ (if bool_decide (tail b = []) then [] else [tail b]) ++ [fragment]) [] bytes
  else
    let joined := tail b ++ fragment in
    if 1024 <=? zlen joined then MkBuffer (fragments b ++ [joined]) [] bytes else MkBuffer (fragments b) joined bytes.

(** [this.fragments.join('') + this.tail]. *)
Definition content (b : line_buffer) : ustring := concat (fragments b) ++ tail b.

Section Buffer.
Variable limits : rpc_limits.

(** The loop of [push]; every turn but the last one removes a newline, so the fuel is the
    length of the chunk. *)
Fixpoint push_loop (fuel : nat) (b : line_buffer) (chunk : ustring) (messages : list ustring) : line_buffer * result rpc_error (list ustring) :=
  match fuel with
  | O => (b, Ok messages)
  | S fuel =>
      match chunk with
      | [] => (b, Ok messages)
      | _ =>
          let '(fragment, rest) := cut_line chunk in
          let size := bytes b + zlen (utf8_encode fragment) in
          if size >? maxFrameBytes limits then (clear, Err FrameTooLong)
          else
            let b := add_fragment b fragment size in
            match rest with
            | None => (b, Ok messages)
            | Some rest =>
                let message := trim (content b) in
                push_loop fuel clear rest (if bool_decide (message = []) then messages else messages ++ [message])
            end
      end
  end.

Definition push (b : line_buffer) (chunk : ustring) : line_buffer * result rpc_error (list ustring) := push_loop (length chunk) b chunk [].

(** * The send window *)

(** [queuedBytes], and the reservations made so far. *)
Record reservation : Type := MkReservation { rs_bytes : Z; rs_released : bool }.

Record send_window : Type := MkWindow { queuedBytes : Z; reservations : list reservation }.

Definition new_window : send_window := MkWindow 0 [].

(** [Number.isFinite(n) ? Math.max(0, n) : 0]; [None] is not finite. *)
Definition native_bytes (nativeQueuedBytes : option Z) : Z := match nativeQueuedBytes with Some n => Z.max 0 n | None => 0 end.

(** The handle is the index of the reservation. *)
Definition reserve (w : send_window) (message : ustring) (nativeQueuedBytes : option Z) : result rpc_error (send_window * nat) :=
  let* size := rpcFrameBytes message limits in
  throw_if Z.max (queuedBytes w) (native_bytes nativeQueuedBytes) + size >? maxQueuedBytes limits with QueueFull in
  Ok (MkWindow (queuedBytes w + size) (reservations w ++ [MkReservation size false]), length (reservations w)).

Definition release (w : send_window) (handle : nat) : send_window :=
  match reservations w !! handle with
  | Some (MkReservation size false) => MkWindow (queuedBytes w - size) (<[handle := MkReservation size true]> (reservations w))
  | _ => w
  end.

End Buffer.
