(* ===== verification/RpcLinesProofs.v ===== *)
(** What the line buffer of [RpcLines] promises: the messages are the lines of the stream of
    text, however it was cut into chunks, while they fit the limit, and the first chunk with
    which a line does not fit is refused. *)

From S2P Require Import Prelude Bytes Text RpcLines.

Local Open Scope Z_scope.

(** * Lines of a stream *)

(** The complete lines of a stream and what follows its last newline. *)
Fixpoint complete (s : ustring) : list ustring * ustring :=
  match s with
  | [] => ([], [])
  | u :: s =>
      let '(lines, rest) := complete s in
      if u =? 10 then ([] :: lines, rest)
      else match lines with [] => ([], u :: rest) | l :: lines => ((u :: l) :: lines, rest) end
  end.

(** The messages of complete lines: trimmed, without the blank ones. *)
Definition messages_in (lines : list ustring) : list ustring := List.filter (fun m => negb (bool_decide (m = []))) (map trim lines).

Definition no_newline (s : ustring) : Prop := Forall (fun u => u <> 10) s.

Lemma complete_app a c : complete (a ++ c) = (fst (complete a) ++ fst (complete (snd (complete a) ++ c)), snd (complete (snd (complete a) ++ c))).
Proof.
  induction a as [|u a IH]; simpl; [by destruct (complete c)|]. rewrite IH. destruct (complete a) as [ls r]. simpl.
  destruct (u =? 10) eqn:Eu; [done|]. destruct ls as [|l ls]; simpl; [|done]. rewrite Eu. by destruct (complete (r ++ c)) as [[|l2 l3] r2].
Qed.

Lemma complete_partial p : no_newline p -> complete p = ([], p).
Proof. induction 1 as [|u p Hu _ IH]; simpl; [done|]. by rewrite IH, (proj2 (Z.eqb_neq u 10)). Qed.

Lemma complete_rest s : no_newline (snd (complete s)).
Proof.
  induction s as [|u s IH]; simpl; [constructor|]. destruct (complete s) as [ls r]. destruct (Z.eqb_spec u 10); [done|]. destruct ls; [by constructor|done].
Qed.

Lemma cut_none chunk line : cut_line chunk = (line, None) -> line = chunk /\ no_newline chunk.
Proof.
  revert line. induction chunk as [|u chunk IH]; simpl; intros line; [intros [= <-]; by split; [|constructor]|]. destruct (Z.eqb_spec u 10); [done|].
  destruct (cut_line chunk) as [l r]. intros [= <- ->]. destruct (IH l eq_refl) as [-> ?]. split; [done|by constructor].
Qed.

Lemma cut_some chunk line rest : cut_line chunk = (line, Some rest) -> chunk = line ++ 10 :: rest /\ no_newline line.
Proof.
  revert line. induction chunk as [|u chunk IH]; simpl; intros line; [done|]. destruct (Z.eqb_spec u 10) as [->|?]; [intros [= <- <-]; by split; [|constructor]|].
  destruct (cut_line chunk) as [l r]. intros [= <- ->]. destruct (IH l eq_refl) as [-> ?]. split; [done|by constructor].
Qed.

Lemma complete_line p rest : no_newline p -> complete (p ++ 10 :: rest) = (p :: fst (complete rest), snd (complete rest)).
Proof. intros Hp. rewrite complete_app, (complete_partial p Hp). simpl. induction Hp as [|u p Hu Hp IH]; simpl; [by destruct (complete rest)|].
  simpl in IH. destruct (complete (p ++ 10 :: rest)) as [ls r]. simpl in IH. injection IH as -> ->. by rewrite (proj2 (Z.eqb_neq u 10)).
Qed.

(** * Sizes *)

Definition size (s : ustring) : Z := zlen (utf8_encode s).

(** What one unit, or the surrogate pair at the head of a string, contributes. *)
Lemma size_cons u s :
  size (u :: s) =
    if is_high u then
      match s with
      | v :: s' => if is_low v then 4 + size s' else 3 + size s
      | [] => 3
      end
    else if is_low u then 3 + size s else zlen (utf8_of_scalar u) + size s.
Proof.
  unfold size, utf8_encode. simpl. destruct (is_high u) eqn:Eh.
  - destruct s as [|v s']; [done|]. destruct (is_low v) eqn:El; simpl; [rewrite zlen_app|by rewrite !zlen_cons; lia]. f_equal.
    unfold is_high, is_low in *. bools. unfold utf8_of_scalar.
    destruct (Z.ltb_spec (0x10000 + (u - 0xd800) * 0x400 + (v - 0xdc00)) 0x80); [lia|].
    destruct (Z.ltb_spec (0x10000 + (u - 0xd800) * 0x400 + (v - 0xdc00)) 0x800); [lia|].
    destruct (Z.ltb_spec (0x10000 + (u - 0xd800) * 0x400 + (v - 0xdc00)) 0x10000); [lia|done].
  - destruct (is_low u); simpl; [by rewrite !zlen_cons; lia|by rewrite zlen_app].
Qed.

Lemma size_app a b : size (a ++ b) <= size a + size b.
Proof.
  assert (size [] = 0) as H0 by done. induction a as [|u s IH IH2] using ustring_ind; [simpl; lia|]. simpl. rewrite !(size_cons u).
  destruct (is_high u); [|destruct (is_low u); lia]. destruct s as [|v s']; simpl.
  - destruct b as [|v b]; [lia|]. destruct (is_low v) eqn:El; [|lia]. rewrite (size_cons v).
    assert (is_high v = false) as -> by (unfold is_high, is_low in *; bools; apply andb_false_iff; right; apply Z.leb_gt; lia). rewrite El. lia.
  - simpl in IH. destruct (is_low v); [|lia]. specialize (IH2 v s' eq_refl). lia.
Qed.

(** A string that does not end in the middle of a surrogate pair. *)
Definition whole (s : ustring) : Prop := match last s with Some u => is_high u = false | None => True end.

Lemma whole_cons u s : whole (u :: s) -> s <> [] -> whole s.
Proof. unfold whole. by destruct s. Qed.

Lemma size_app_whole a b : whole a -> size (a ++ b) = size a + size b.
Proof.
  induction a as [|u s IH IH2] using ustring_ind; intros Hw; [done|]. simpl. rewrite !(size_cons u). destruct s as [|v s'].
  - unfold whole in Hw. simpl in *. rewrite Hw. assert (size [] = 0) as -> by done. destruct (is_low u); lia.
  - specialize (IH (whole_cons u _ Hw ltac:(done))). simpl in *. destruct (is_high u); [|destruct (is_low u); lia]. destruct (is_low v); [|lia].
    destruct s' as [|w s'']; [|rewrite (IH2 v _ eq_refl); [lia|by apply (whole_cons v _ (whole_cons u _ Hw ltac:(done)))]].
    simpl. assert (size [] = 0) as -> by done. lia.
Qed.

(** * The lines of a stream of chunks *)

(** The complete lines, each in the pieces in which it came, and the pieces of the open one. *)
Definition cut (open : list ustring) (chunk : ustring) : list (list ustring) * list ustring :=
  match complete chunk with
  | ([], rest) => ([], open ++ [rest])
  | (l :: lines, rest) => ((open ++ [l]) :: map (fun l => [l]) lines, [rest])
  end.

Fixpoint pieces (open : list ustring) (chunks : list ustring) : list (list ustring) * list ustring :=
  match chunks with
  | [] => ([], open)
  | chunk :: chunks => let '(done, open) := cut open chunk in let '(more, open) := pieces open chunks in (done ++ more, open)
  end.

(** The bytes of a line, as its pieces are encoded one by one. *)
Definition counted (line : list ustring) : Z := foldr (fun piece n => size piece + n) 0 line.

Lemma counted_app a b : counted (a ++ b) = counted a + counted b.
Proof. induction a as [|p a IH]; simpl; lia. Qed.

Lemma counted_snoc a p : counted (a ++ [p]) = counted a + size p.
Proof. rewrite counted_app. simpl. lia. Qed.

Lemma cut_nil chunk : cut [] chunk = (map (fun l => [l]) (fst (complete chunk)), [snd (complete chunk)]).
Proof. unfold cut. by destruct (complete chunk) as [[|l ls] r]. Qed.

Lemma cut_at_line open f rest : no_newline f -> cut open (f ++ 10 :: rest) = ((open ++ [f]) :: fst (cut [] rest), snd (cut [] rest)).
Proof. intros Hf. rewrite cut_nil. unfold cut. by rewrite complete_line. Qed.

Lemma cut_within open chunk : no_newline chunk -> cut open chunk = ([], open ++ [chunk]).
Proof. intros Hc. unfold cut. by rewrite complete_partial. Qed.

Lemma complete_prefix p c : no_newline p ->
  complete (p ++ c) = match complete c with ([], r) => ([], p ++ r) | (l :: ls, r) => ((p ++ l) :: ls, r) end.
Proof.
  induction 1 as [|u p Hu _ IH]; simpl; [by destruct (complete c) as [[|l ls] r]|]. rewrite IH, (proj2 (Z.eqb_neq u 10)) by done.
  by destruct (complete c) as [[|l ls] r].
Qed.

Abbreviation joined := (@concat Z).

(** Joined, the pieces are the lines of the text. *)
Lemma cut_joined open chunk : no_newline (concat open) ->
  map joined (fst (cut open chunk)) = fst (complete (concat open ++ chunk)) /\ concat (snd (cut open chunk)) = snd (complete (concat open ++ chunk)).
Proof.
  intros Ho. rewrite complete_prefix by done. unfold cut. destruct (complete chunk) as [[|l ls] r]; simpl; rewrite ?concat_app; simpl; rewrite ?app_nil_r; [done|].
  split; [|done]. f_equal. induction ls as [|x ls IH]; [done|]. simpl. by rewrite app_nil_r, IH.
Qed.

Lemma pieces_joined chunks : forall open, no_newline (concat open) ->
  map joined (fst (pieces open chunks)) = fst (complete (concat open ++ concat chunks)) /\ concat (snd (pieces open chunks)) = snd (complete (concat open ++ concat chunks)).
Proof.
  induction chunks as [|chunk chunks IH]; intros open Ho; simpl; [by rewrite app_nil_r, complete_partial|].
  destruct (cut_joined open chunk Ho) as [H1 H2]. destruct (cut open chunk) as [d o] eqn:Ec. cbn [fst snd] in H1, H2.
  destruct (IH o ltac:(rewrite H2; apply complete_rest)) as [I1 I2]. destruct (pieces o chunks) as [m o']. cbn [fst snd] in *.
  rewrite app_assoc, complete_app. cbn [fst snd]. by rewrite map_app, H1, I1, I2, H2.
Qed.

Lemma pieces_snoc chunks chunk : forall open, pieces open (chunks ++ [chunk]) =
  (fst (pieces open chunks) ++ fst (cut (snd (pieces open chunks)) chunk), snd (cut (snd (pieces open chunks)) chunk)).
Proof.
  induction chunks as [|c chunks IH]; intros open; simpl; [destruct (cut open chunk) as [d o]; simpl; by rewrite app_nil_r|].
  destruct (cut open c) as [d o]. rewrite IH. destruct (pieces o chunks) as [m o']. simpl. by rewrite app_assoc.
Qed.

(** All lines, the open one last. *)
Definition lines_of (chunks : list ustring) : list (list ustring) := fst (pieces [] chunks) ++ [snd (pieces [] chunks)].

Lemma size_counted line : size (concat line) <= counted line.
Proof. induction line as [|p line IH]; [done|]. simpl. pose proof (size_app p (concat line)). lia. Qed.

(** A chunk that ends with a whole character leaves lines whose pieces are whole, but the last. *)
Definition seamless (line : list ustring) : Prop := Forall whole (removelast line).

Lemma seamless_counted line : seamless line -> counted line = size (concat line).
Proof.
  unfold seamless. induction line as [|p line IH]; [done|]. destruct line as [|q line]; [intros _; simpl; rewrite app_nil_r; lia|].
  change (removelast (p :: q :: line)) with (p :: removelast (q :: line)). intros [Hp Hl]%Forall_cons.
  change (counted (p :: q :: line)) with (size p + counted (q :: line)). rewrite IH by done.
  change (joined (p :: q :: line)) with (p ++ joined (q :: line)). by rewrite size_app_whole.
Qed.

Lemma seamless_snoc line p : Forall whole line -> seamless (line ++ [p]).
Proof. intros H. unfold seamless. by rewrite removelast_last. Qed.

Lemma complete_open s r : complete s = ([], r) -> r = s.
Proof.
  revert r. induction s as [|u s IH]; intros r; simpl; [by intros [= <-]|]. destruct (complete s) as [ls r'] eqn:E.
  destruct (u =? 10); [done|]. destruct ls; [|done]. intros [= <-]. by rewrite (IH r' eq_refl).
Qed.

Lemma whole_rest chunk : whole chunk -> whole (snd (complete chunk)).
Proof.
  induction chunk as [|u chunk IH]; intros Hw; [done|]. simpl. destruct chunk as [|v chunk].
  - simpl. destruct (u =? 10); [done|exact Hw].
  - specialize (IH (whole_cons u _ Hw ltac:(done))). destruct (complete (v :: chunk)) as [ls r] eqn:E.
    destruct (Z.eqb_spec u 10) as [->|Hu]; [done|]. destruct ls as [|l ls]; [|done]. simpl in *.
    change (complete (v :: chunk) = ([], r)) in E. by rewrite (complete_open _ _ E).
Qed.

Lemma pieces_seamless chunks : Forall whole chunks -> forall open, Forall whole open ->
  Forall seamless (fst (pieces open chunks)) /\ Forall whole (snd (pieces open chunks)).
Proof.
  induction 1 as [|chunk chunks Hc _ IH]; intros open Ho; [by split; [constructor|]|]. simpl.
  assert (Hcut : Forall seamless (fst (cut open chunk)) /\ Forall whole (snd (cut open chunk))).
  { pose proof (whole_rest chunk Hc) as Hr. unfold cut. destruct (complete chunk) as [[|l ls] r]; simpl in *.
    - split; [constructor|]. apply Forall_app. by repeat constructor.
    - split; [|by repeat constructor]. constructor; [by apply seamless_snoc|]. apply Forall_map, Forall_true. intros x. apply Forall_nil_2. }
  destruct (cut open chunk) as [d o], Hcut as [H1 H2]. destruct (IH o H2) as [I1 I2]. destruct (pieces o chunks) as [m o']. split; [by apply Forall_app|done].
Qed.

Lemma seamless_lines chunks : Forall whole chunks -> Forall (fun line => counted line = size (concat line)) (lines_of chunks).
Proof.
  intros Hc. destruct (pieces_seamless chunks Hc [] (Forall_nil_2 _)) as [H1 H2]. apply Forall_app. split.
  - eapply Forall_impl; [exact H1|]. intros line. apply seamless_counted.
  - repeat constructor. apply seamless_counted. unfold seamless. destruct (snd (pieces [] chunks)) as [|p l] using rev_ind; [constructor|].
    rewrite removelast_last. by apply Forall_app in H2 as [? _].
Qed.

(** * The buffer *)

Section Buffer.
Variable limits : rpc_limits.
Hypothesis Hmax : 1 <= maxFrameBytes limits.

(** A line within the limit. *)
Definition fits (line : list ustring) : Prop := counted line <= maxFrameBytes limits.

(** A buffer with the pieces of a line. *)
Record holds (b : line_buffer) (open : list ustring) : Prop := {
  ho_content : content b = concat open;
  ho_bytes : bytes b = counted open;
  ho_fits : fits open;
}.

Lemma holds_clear : holds clear [].
Proof. split; [done|done|]. unfold fits. simpl. lia. Qed.

Lemma add_content b f n : content (add_fragment b f n) = content b ++ f /\ bytes (add_fragment b f n) = n.
Proof.
  unfold add_fragment, content. destruct (1024 <=? zlen f); simpl.
  - rewrite !concat_app. simpl. rewrite !app_nil_r, app_assoc. destruct (bool_decide _) eqn:Et; simpl; [|by rewrite app_nil_r].
    apply bool_decide_eq_true in Et as ->. by rewrite !app_nil_r.
  - destruct (1024 <=? zlen (tail b ++ f)); simpl; [|by rewrite app_assoc]. rewrite concat_app. simpl. by rewrite !app_nil_r, app_assoc.
Qed.

Lemma holds_add b open f : holds b open -> fits (open ++ [f]) -> holds (add_fragment b f (bytes b + size f)) (open ++ [f]).
Proof.
  intros [Hc Hb Hf] Hfit. destruct (add_content b f (bytes b + size f)) as [Hc' Hb']. split; [|by rewrite Hb', Hb, counted_snoc|done].
  rewrite Hc', Hc, concat_app. simpl. by rewrite app_nil_r.
Qed.

(** One push: all lines it completes or leaves open fit, or it is refused. *)
Definition pushes (open : list ustring) (chunk : ustring) (before : list ustring) (o : line_buffer * result rpc_error (list ustring)) : Prop :=
  let '(done, open') := cut open chunk in
  match o with
  | (b', Ok messages) => Forall fits done /\ messages = before ++ messages_in (map joined done) /\ holds b' open'
  | (b', Err e) => b' = clear /\ e = FrameTooLong /\ ~ Forall fits (done ++ [open'])
  end.

Lemma messages_cons l lines : messages_in (l :: lines) = (if bool_decide (trim l = []) then [] else [trim l]) ++ messages_in lines.
Proof. unfold messages_in. simpl. by destruct (bool_decide _). Qed.

Lemma push_empty b open before : holds b open -> pushes open [] before (b, Ok before).
Proof.
  intros [Hc Hb Hf]. unfold pushes, cut. simpl. rewrite app_nil_r. split_and!; [constructor|done|]. split.
  - by rewrite Hc, concat_app, app_nil_r.
  - rewrite Hb, counted_snoc. assert (size [] = 0) as -> by done. lia.
  - unfold fits in *. rewrite counted_snoc. assert (size [] = 0) as -> by done. lia.
Qed.

Lemma push_loop_pushes fuel : forall b open chunk messages, (length chunk <= fuel)%nat -> holds b open ->
  pushes open chunk messages (push_loop limits fuel b chunk messages).
Proof.
  induction fuel as [|fuel IH]; intros b open chunk messages Hf Hb.
  { destruct chunk; [|simpl in Hf; lia]. by apply push_empty. }
  simpl. destruct chunk as [|u0 chunk0] eqn:Ec; [by apply push_empty|].
  rewrite <- Ec in *. clear Ec u0 chunk0. destruct (cut_line chunk) as [f rest] eqn:Ecut. fold (size f).
  assert (Hsize : bytes b + size f = counted (open ++ [f])) by (by rewrite counted_snoc, (ho_bytes _ _ Hb)).
  destruct rest as [rest|].
  - apply cut_some in Ecut as [-> Hl]. unfold pushes. rewrite cut_at_line by done.
    destruct (bytes b + size f >? _) eqn:Es; rewrite Z.gtb_ltb in Es; bools.
    + split_and!; [done|done|]. simpl. intros [Hfit _]%Forall_cons. unfold fits in Hfit. lia.
    + assert (Hfit : fits (open ++ [f])) by (unfold fits; lia). destruct (holds_add b open f Hb Hfit) as [-> _ _]. rewrite length_app in Hf. simpl in Hf.
      set (m := trim (concat (open ++ [f]))). specialize (IH clear [] rest (if bool_decide (m = []) then messages else messages ++ [m]) ltac:(lia) holds_clear).
      unfold pushes in IH. destruct (cut [] rest) as [d o]. cbn [fst snd]. destruct (push_loop _ _ _ _ _) as [b' [ms|e]].
      * destruct IH as (Hd & -> & Ho). split_and!; [by constructor| |done]. cbn [map]. rewrite messages_cons. fold m. destruct (bool_decide _); simpl; [done|]. by rewrite <- app_assoc.
      * destruct IH as (-> & -> & Hn). split_and!; [done|done|]. intros [_ H]%Forall_cons. by apply Hn.
  - apply cut_none in Ecut as [-> Hl]. unfold pushes. rewrite cut_within by done.
    destruct (bytes b + size chunk >? _) eqn:Es; rewrite Z.gtb_ltb in Es; bools.
    + split_and!; [done|done|]. simpl. intros [Hfit _]%Forall_cons. unfold fits in Hfit. lia.
    + split_and!; [constructor|by rewrite app_nil_r|]. apply holds_add; [done|]. unfold fits. lia.
Qed.

(** * Streams *)

(** The chunks of a connection, pushed in order until one of them is refused: the buffer, the
    messages delivered, the error. *)
Fixpoint feed (b : line_buffer) (chunks : list ustring) : line_buffer * list ustring * option rpc_error :=
  match chunks with
  | [] => (b, [], None)
  | chunk :: chunks =>
      match push limits b chunk with
      | (b, Err e) => (b, [], Some e)
      | (b, Ok messages) => let '(b, more, e) := feed b chunks in (b, messages ++ more, e)
      end
  end.

Lemma messages_app l k : messages_in (l ++ k) = messages_in l ++ messages_in k.
Proof. unfold messages_in. by rewrite map_app, List.filter_app. Qed.

Lemma feed_pieces chunks : forall b open, holds b open ->
  match feed b chunks with
  | (b', messages, None) =>
      Forall fits (fst (pieces open chunks)) /\ holds b' (snd (pieces open chunks)) /\ messages = messages_in (map joined (fst (pieces open chunks)))
  | (b', messages, Some e) => e = FrameTooLong /\ b' = clear /\ exists before chunk after, chunks = before ++ chunk :: after /\
      Forall fits (fst (pieces open before) ++ [snd (pieces open before)]) /\
      ~ Forall fits (fst (pieces open (before ++ [chunk])) ++ [snd (pieces open (before ++ [chunk]))]) /\
      messages = messages_in (map joined (fst (pieces open before)))
  end.
Proof.
  induction chunks as [|chunk chunks IH]; intros b open Hb; [simpl; by split_and!|].
  simpl. pose proof (push_loop_pushes (length chunk) b open chunk [] ltac:(lia) Hb) as Hp. fold (push limits b chunk) in Hp. unfold pushes in Hp.
  destruct (cut open chunk) as [d o] eqn:Ec. destruct (push limits b chunk) as [b1 [ms|e]].
  - destruct Hp as (Hd & -> & Ho). specialize (IH b1 o Ho). destruct (feed b1 chunks) as [[b2 more] [e|]].
    + destruct IH as (-> & -> & before & c & after & -> & Hfit & Hnot & ->). split_and!; [done|done|]. exists (chunk :: before), c, after. split; [done|]. simpl. rewrite Ec.
      destruct (pieces o before) as [m1 o1], (pieces o (before ++ [c])) as [m2 o2]. cbn [fst snd] in *. rewrite <- !app_assoc. split_and!.
      * by apply Forall_app.
      * intros [_ H]%Forall_app. by apply Hnot.
      * by rewrite map_app, messages_app.
    + destruct IH as (Hm & Ho2 & ->). destruct (pieces o chunks) as [m o2]. cbn [fst snd] in *. split_and!; [by apply Forall_app|done|by rewrite map_app, messages_app].
  - destruct Hp as (-> & -> & Hnot). split_and!; [done|done|]. exists [], chunk, chunks. simpl. rewrite Ec. cbn [fst snd]. rewrite app_nil_r. split_and!; [done| |done|done].
    repeat constructor. apply Hb.
Qed.

Definition all_fit (chunks : list ustring) : Prop := Forall fits (lines_of chunks).

(** C25: the line buffer reads the stream.  However the text of a connection is cut into
    chunks: while every line fits the limit, the messages are the trimmed lines of the whole
    text without the blank ones, and the buffer holds the rest after the last newline; the
    first chunk with which a line exceeds the limit, complete or not, is refused, with the
    buffer cleared, after the messages of the chunks before it.  The bytes of a line are those
    of its pieces, which are at least its own bytes, and exactly those when no chunk ends in
    the middle of a surrogate pair. *)
Theorem line_buffer_reads_the_stream chunks :
  match feed clear chunks with
  | (b, messages, None) =>
      all_fit chunks /\ messages = messages_in (fst (complete (concat chunks))) /\ content b = snd (complete (concat chunks))
  | (b, messages, Some e) => e = FrameTooLong /\ b = clear /\ exists before chunk after, chunks = before ++ chunk :: after /\
      all_fit before /\ ~ all_fit (before ++ [chunk]) /\ messages = messages_in (fst (complete (concat before)))
  end /\
  let lines := fst (complete (concat chunks)) ++ [snd (complete (concat chunks))] in
  let within := Forall (fun l => zlen (utf8_encode l) <= maxFrameBytes limits) lines in
  (all_fit chunks -> within) /\ (Forall whole chunks -> within -> all_fit chunks).
Proof.
  assert (Hj : forall cs, map joined (fst (pieces [] cs)) = fst (complete (concat cs)) /\ concat (snd (pieces [] cs)) = snd (complete (concat cs)))
    by (intros cs; by apply (pieces_joined cs [] (Forall_nil_2 _))).
  split.
  - pose proof (feed_pieces chunks clear [] holds_clear) as H. destruct (feed clear chunks) as [[b ms] [e|]].
    + destruct H as (-> & -> & before & chunk & after & -> & H1 & H2 & ->). split_and!; [done|done|]. exists before, chunk, after. by rewrite (proj1 (Hj before)).
    + destruct H as (H1 & H2 & ->). rewrite (proj1 (Hj chunks)). split_and!; [|done|rewrite (ho_content _ _ H2); apply Hj].
      apply Forall_app. split; [done|]. repeat constructor. apply H2.
  - assert (Hl : fst (complete (concat chunks)) ++ [snd (complete (concat chunks))] = map joined (lines_of chunks)).
    { unfold lines_of. rewrite map_app. simpl. by rewrite (proj1 (Hj chunks)), (proj2 (Hj chunks)). }
    cbv zeta. rewrite Hl, Forall_map. unfold all_fit, fits. split.
    + intros H. eapply Forall_impl; [exact H|]. intros line Hfit. cbn in *. pose proof (size_counted line). unfold size in *. lia.
    + intros Hw H. pose proof (seamless_lines chunks Hw) as Hs. rewrite Forall_forall in *. intros line Hin. rewrite (Hs line Hin). by apply H.
Qed.

End Buffer.

Definition small_limits : rpc_limits := MkLimits 12 24 2 1000.

(** A surrogate pair and the space before a newline, each cut between two chunks. *)
Definition sample_chunks : list ustring := [[123; 0xd83d]; [0xde00; 125; 32]; [10; 32; 10; 52]; []].

(** The same, and a line of thirteen bytes. *)
Definition long_chunks : list ustring := sample_chunks ++ [repeat 52 12; [10]].

Lemma line_buffer_reads_the_stream_witness :
  1 <= maxFrameBytes small_limits /\ feed small_limits clear sample_chunks = (MkBuffer [] [52] 1, [[123; 0xd83d; 0xde00; 125]], None) /\ all_fit small_limits sample_chunks /\
  snd (feed small_limits clear long_chunks) = Some FrameTooLong.
Proof.
  split; [done|]. split; [reflexivity|]. split; [|by vm_compute].
  exact (proj1 (proj1 (line_buffer_reads_the_stream small_limits ltac:(done) sample_chunks))).
Defined.
