(* ===== verification/RpcSender.v ===== *)
(** The sender of a WebSocket connection ([RpcBufferedSender] of
    protocol/src/rpc-buffered-send.ts): a message is sent at once, and its promise settles when
    the host's buffer was seen empty, with a deadline; and what it promises.

    Modelling choices: each reading of the host's buffer, of the clock, and the way
    [sendMessage] returns are arguments; the callback [fail] is an output, to which the
    transports react by closing the sender. *)

From S2P Require Import Prelude Bytes Text RpcLines.

Local Open Scope Z_scope.

Inductive promise : Type :=
| PPending
| PResolved
| PRejected (error : string).

Definition error_message (e : rpc_error) : string :=
  match e with
  | InvalidLimits => "Invalid RPC limits"
  | FrameTooLong => "RPC frame exceeds byte limit"
  | QueueFull => "RPC send queue exceeds byte limit"
  end.

(** A pending send is the handle of its reservation and its promise. *)
Record sender : Type := MkSender {
  window : send_window; pending : list (nat * nat); timer : bool; deadline : option Z; closedError : option string; promises : list promise }.

Definition new_sender : sender := MkSender new_window [] false None None [].

Section Sender.
Variable limits : rpc_limits.

(** What a method does besides: the call of [fail]. *)
Abbreviation failing := (option string).

(** A promise that is returned settled. *)
Definition returns (s : sender) (w : send_window) (p : promise) : sender :=
  MkSender w (pending s) (timer s) (deadline s) (closedError s) (promises s ++ [p]).

(** [bufferedBefore] and [bufferedAfter] are the readings of the host's buffer, [None] for one
    that is not finite; [thrown] is the error of [sendMessage]. *)
Definition send (s : sender) (message : ustring) (bufferedBefore : option Z) (thrown : option string) (bufferedAfter : option Z) (now : Z) : sender * failing :=
  match closedError s with
  | Some e => (returns s (window s) (PRejected e), None)
  | None =>
      match reserve limits (window s) message bufferedBefore with
      | Err e => (returns s (window s) (PRejected (error_message e)), Some (error_message e))
      | Ok (w, handle) =>
          match thrown with
          | Some e => (returns s (release w handle) (PRejected e), None)
          | None =>
              if bool_decide (bufferedAfter = Some 0) then (returns s (release w handle) PResolved, None)
              else
                (MkSender w (pending s ++ [(handle, length (promises s))]) true
                   (Some (default (now + requestTimeoutMs limits) (deadline s))) (closedError s) (promises s ++ [PPending]), None)
          end
      end
  end.

(** Release and settle every pending send; a promise that is settled stays so. *)
Definition settle (p : promise) (promises : list promise) (i : nat) : list promise :=
  match promises !! i with Some PPending => <[i := p]> promises | _ => promises end.

Definition settle_all (s : sender) (p : promise) : send_window * list promise :=
  foldl (fun '(w, ps) '(handle, i) => (release w handle, settle p ps i)) (window s, promises s) (pending s).

Definition close (s : sender) (error : string) : sender :=
  let '(w, ps) := settle_all s (PRejected error) in
  MkSender w [] false None (Some (default error (closedError s))) ps.

Definition timeout_error : string := "RPC WebSocket send timed out".

(** The timer fires. *)
Definition poll (s : sender) (buffered : option Z) (now : Z) : sender * failing :=
  let s := MkSender (window s) (pending s) false (deadline s) (closedError s) (promises s) in
  match closedError s with
  | Some _ => (s, None)
  | None =>
      if bool_decide (buffered = Some 0) then
        let '(w, ps) := settle_all s PResolved in (MkSender w [] false None None ps, None)
      else if default 0 (deadline s) <=? now then (s, Some timeout_error)
      else (MkSender (window s) (pending s) true (deadline s) None (promises s), None)
  end.

(** * The sender of a transport *)

Inductive event : Type :=
| ESend (message : ustring) (bufferedBefore : option Z) (thrown : option string) (bufferedAfter : option Z) (now : Z)
| EPoll (buffered : option Z) (now : Z)
| EClose (error : string).

(** A transport closes the sender that reports a failure; the timer only fires when it is
    set. *)
Definition perform (s : sender) (e : event) : sender :=
  let react r := match r with (s, Some e) => close s e | (s, None) => s end in
  match e with
  | ESend message before thrown after now => react (send s message before thrown after now)
  | EPoll buffered now => if timer s then react (poll s buffered now) else s
  | EClose error => close s error
  end.

Definition perform_all (events : list event) : sender := foldl perform new_sender events.

(** * Invariant *)

Definition live (w : send_window) (h : nat) : Prop := exists n, reservations w !! h = Some (MkReservation n false).

Definition reserved (w : send_window) (h : nat) : Z := match reservations w !! h with Some r => rs_bytes r | None => 0 end.

(** The bytes of the pending sends. *)
Definition total (w : send_window) (l : list (nat * nat)) : Z := foldr (fun p n => reserved w (fst p) + n) 0 l.

Record sound (s : sender) : Prop := MkSound {
  so_sum : queuedBytes (window s) = total (window s) (pending s);
  so_sizes : Forall (fun r => 0 <= rs_bytes r) (reservations (window s));
  so_handles : NoDup (map fst (pending s));
  so_promises : NoDup (map snd (pending s));
  so_live : Forall (fun p => live (window s) (fst p) /\ promises s !! snd p = Some PPending) (pending s);
  so_pending : forall i, promises s !! i = Some PPending -> i ∈ map snd (pending s);
  so_bound : queuedBytes (window s) <= Z.max 0 (maxQueuedBytes limits);
  so_timer : pending s <> [] -> timer s = true /\ is_Some (deadline s) /\ closedError s = None;
  so_idle : pending s = [] -> deadline s = None;
}.

Lemma total_release w h l : live w h -> h ∉ map fst l -> total (release w h) l = total w l.
Proof.
  intros [n Hn] Hh. unfold release. rewrite Hn. induction l as [|[h' i] l IH]; simpl in *; [done|]. apply not_elem_of_cons in Hh as [Hne Hh].
  rewrite IH by done. unfold reserved. simpl. by rewrite list_lookup_insert_ne.
Qed.

Lemma live_release w h h' : live w h -> h <> h' -> live w h' -> live (release w h) h'.
Proof. intros [n Hn] Hne [n' Hn']. unfold release. rewrite Hn. exists n'. simpl. by rewrite list_lookup_insert_ne. Qed.

Lemma release_facts w h : live w h ->
  queuedBytes (release w h) = queuedBytes w - reserved w h /\
  (Forall (fun r => 0 <= rs_bytes r) (reservations w) -> Forall (fun r => 0 <= rs_bytes r) (reservations (release w h))).
Proof.
  intros [n Hn]. unfold release, reserved. rewrite Hn. split; [done|]. intros Hs. simpl. apply Forall_insert; [done|].
  by apply (Forall_lookup_1 _ _ _ _ Hs) in Hn.
Qed.

Lemma total_nonneg w l : Forall (fun r => 0 <= rs_bytes r) (reservations w) -> 0 <= total w l.
Proof.
  intros Hs. induction l as [|[h i] l IH]; simpl; [done|]. unfold reserved. destruct (reservations w !! h) as [r|] eqn:E; [|lia].
  apply (Forall_lookup_1 _ _ _ _ Hs) in E. simpl in E. lia.
Qed.

Lemma settle_list (p : promise) l : p <> PPending -> forall w ps,
  NoDup (map fst l) -> NoDup (map snd l) -> Forall (fun q => live w (fst q) /\ ps !! snd q = Some PPending) l -> Forall (fun r => 0 <= rs_bytes r) (reservations w) ->
  let '(w', ps') := foldl (fun '(w, ps) '(h, i) => (release w h, settle p ps i)) (w, ps) l in
  queuedBytes w' = queuedBytes w - total w l /\ Forall (fun r => 0 <= rs_bytes r) (reservations w') /\
  (forall i, ps' !! i = if decide (i ∈ map snd l) then Some p else ps !! i).
Proof.
  intros Hp. induction l as [|[h i] l IH]; intros w ps Hh Hi Hl Hs; [simpl; by split_and!; [lia|..]|].
  cbn [foldl]. inversion Hh as [|? ? Hh1 Hh2]; subst. inversion Hi as [|? ? Hi1 Hi2]; subst. apply Forall_cons in Hl as [[Hlive Hpi] Hl]. simpl in *.
  destruct (release_facts w h Hlive) as [Hq Hs'].
  assert (Hset : settle p ps i = <[i := p]> ps) by (unfold settle; by rewrite Hpi).
  specialize (IH (release w h) (settle p ps i) Hh2 Hi2). destruct (foldl _ _ l) as [w' ps'].
  destruct IH as (H1 & H2 & H3); [|by apply Hs'|].
  - rewrite Forall_forall in *. intros [h' i'] Hin. destruct (Hl _ Hin) as [Hl1 Hl2]. simpl in *.
    assert (h' ∈ map fst l /\ i' ∈ map snd l) as [Hh' Hi'] by (split; apply list_elem_of_fmap; eexists; by split; [|exact Hin]).
    split; [apply live_release; [done|by intros ->|done]|]. rewrite Hset, list_lookup_insert_ne; [done|by intros ->].
  - split_and!; [|done|].
    + rewrite H1, Hq, total_release by done. lia.
    + intros j. rewrite H3, Hset. destruct (decide (i = j)) as [<-|Hne].
      * rewrite decide_False by done. rewrite decide_True by (by left). apply list_lookup_insert_eq. by eapply lookup_lt_Some.
      * rewrite list_lookup_insert_ne by done. destruct (decide (j ∈ map snd l)); [by rewrite decide_True by (by right)|].
        rewrite decide_False; [done|]. by intros [?|?]%elem_of_cons.
Qed.

Lemma settle_all_sound s p : sound s -> p <> PPending ->
  let '(w, ps) := settle_all s p in
  queuedBytes w = 0 /\ Forall (fun r => 0 <= rs_bytes r) (reservations w) /\ forall i, ps !! i <> Some PPending.
Proof.
  intros Hs Hp. unfold settle_all. pose proof (settle_list p (pending s) Hp _ (promises s) (so_handles _ Hs) (so_promises _ Hs) (so_live _ Hs) (so_sizes _ Hs)) as H.
  destruct (foldl _ _ _) as [w ps]. destruct H as (H1 & H2 & H3). rewrite (so_sum _ Hs) in H1. split_and!; [lia|done|].
  intros i. rewrite H3. destruct (decide _) as [|Hn]; [congruence|]. intros Hi. by apply Hn, (so_pending _ Hs).
Qed.

(** A sender without a pending send. *)
Lemma sound_quiet w t c ps : queuedBytes w = 0 -> Forall (fun r => 0 <= rs_bytes r) (reservations w) -> (forall i, ps !! i <> Some PPending) ->
  sound (MkSender w [] t None c ps).
Proof.
  intros H1 H2 H3. split; simpl; [done|done|by apply NoDup_nil|by apply NoDup_nil|by apply Forall_nil|intros i Hi; by apply H3 in Hi|lia|done|done].
Qed.

Lemma close_sound s e : sound s -> sound (close s e).
Proof. intros Hs. unfold close. pose proof (settle_all_sound s (PRejected e) Hs ltac:(done)) as H. destruct (settle_all _ _) as [w ps]. destruct H as (? & ? & ?). by apply sound_quiet. Qed.

(** The reservations grow. *)
Lemma live_grow w w' r h : reservations w' = reservations w ++ [r] -> live w h -> live w' h /\ reserved w' h = reserved w h.
Proof. unfold live, reserved. intros -> [n Hn]. rewrite lookup_app_l by (by eapply lookup_lt_Some). split; [by exists n|done]. Qed.

Lemma total_grow w w' r l : reservations w' = reservations w ++ [r] -> Forall (fun p => live w (fst p)) l -> total w' l = total w l.
Proof. intros Hr. induction 1 as [|[h i] l Hl _ IH]; simpl; [done|]. rewrite IH. f_equal. by eapply live_grow. Qed.

Lemma returns_sound s w r p : sound s -> p <> PPending -> w = window s \/
  (queuedBytes w = queuedBytes (window s) /\ reservations w = reservations (window s) ++ [r] /\ 0 <= rs_bytes r) -> sound (returns s w p).
Proof.
  intros [H1 H2 H3 H4 H5 H6 H7 H8 H9] Hp Hw.
  assert (Hpend : forall i, (promises s ++ [p]) !! i = Some PPending -> promises s !! i = Some PPending).
  { intros i [?|[_ Hi]]%lookup_app_Some; [done|]. by destruct (i - length (promises s))%nat; [injection Hi|]. }
  assert (Hl : Forall (fun q => live (window s) (fst q)) (pending s)) by (eapply Forall_impl; [exact H5|]; by intros ? [? _]).
  split; simpl; try done; try (intros i Hi; by apply H6, Hpend).
  - destruct Hw as [->|(Hq & Hr & _)]; [done|]. by rewrite Hq, (total_grow _ _ r _ Hr).
  - destruct Hw as [->|(_ & -> & Hn)]; [done|]. apply Forall_app. split; [done|by apply Forall_singleton].
  - eapply Forall_impl; [exact H5|]. intros q [Hlq Hq]. split; [|rewrite lookup_app_l; [done|by eapply lookup_lt_Some]].
    destruct Hw as [->|(_ & Hr & _)]; [done|by eapply live_grow].
  - destruct Hw as [->|(-> & _)]; done.
Qed.

Lemma reserve_facts w message before w' h : reserve limits w message before = Ok (w', h) ->
  let n := zlen (utf8_encode message) in
  w' = MkWindow (queuedBytes w + n) (reservations w ++ [MkReservation n false]) /\ h = length (reservations w) /\ queuedBytes w + n <= maxQueuedBytes limits.
Proof.
  unfold reserve, rpcFrameBytes, frame_bytes. destruct (_ >? _); simpl; [done|]. destruct (_ >? _) eqn:E; simpl; [done|]. intros [= <- <-].
  rewrite Z.gtb_ltb in E. bools. split_and!; [done|done|lia].
Qed.

Lemma reserve_release w message before w' h : reserve limits w message before = Ok (w', h) ->
  queuedBytes (release w' h) = queuedBytes w /\ reservations (release w' h) = reservations w ++ [MkReservation (zlen (utf8_encode message)) true].
Proof.
  intros (-> & -> & _)%reserve_facts. unfold release. simpl. rewrite list_lookup_middle by done. simpl. split; [lia|]. by rewrite insert_app_r_alt, Nat.sub_diag.
Qed.

Lemma send_sound s message before thrown after now : sound s -> sound (fst (send s message before thrown after now)).
Proof.
  intros Hs. unfold send. destruct (closedError s) eqn:Ec; [by eapply (returns_sound s _ (MkReservation 0 true)); [done|done|left]|].
  destruct (reserve limits (window s) message before) as [[w h]|e] eqn:Er; [|by eapply (returns_sound s _ (MkReservation 0 true)); [done|done|left]].
  pose proof (reserve_release _ _ _ _ _ Er) as [Hq Hr].
  assert (Hback : forall p, p <> PPending -> sound (returns s (release w h) p)).
  { intros p Hp. eapply returns_sound; [done|done|]. right. split_and!; [done|exact Hr|apply zlen_nonneg]. }
  destruct thrown; [by apply Hback|]. destruct (bool_decide _); [by apply Hback|]. apply reserve_facts in Er as (-> & -> & Hb). simpl.
  destruct Hs as [H1 H2 H3 H4 H5 H6 H7 H8 H9]. set (n := zlen (utf8_encode message)) in *. set (w' := MkWindow _ _).
  assert (Hl : Forall (fun q => live (window s) (fst q)) (pending s)) by (eapply Forall_impl; [exact H5|]; by intros ? [? _]).
  assert (Hnew : reservations w' !! length (reservations (window s)) = Some (MkReservation n false)) by (simpl; by rewrite list_lookup_middle).
  assert (Hlt : forall q, q ∈ pending s -> (fst q < length (reservations (window s)) /\ snd q < length (promises s))%nat).
  { intros q Hq'. rewrite Forall_forall in H5. destruct (H5 q Hq') as [[m Hm] Hp]. split; by eapply lookup_lt_Some. }
  split; simpl; try done.
  - unfold total. rewrite foldr_app. simpl. assert (reserved w' (length (reservations (window s))) = n) as -> by (unfold reserved; by rewrite Hnew).
    rewrite H1, <- (total_grow (window s) w' _ _ eq_refl Hl). clear. induction (pending s) as [|q l IH]; simpl; [lia|]. rewrite <- IH. unfold total. lia.
  - apply Forall_app. split; [done|]. apply Forall_singleton. apply zlen_nonneg.
  - rewrite map_app. apply NoDup_app. split_and!; [done| |apply NoDup_singleton]. intros x (q & -> & Hq')%list_elem_of_fmap Hx%list_elem_of_singleton. apply Hlt in Hq'. simpl in Hx. lia.
  - rewrite map_app. apply NoDup_app. split_and!; [done| |apply NoDup_singleton]. intros x (q & -> & Hq')%list_elem_of_fmap Hx%list_elem_of_singleton. apply Hlt in Hq'. simpl in Hx. lia.
  - apply Forall_app. split; [|apply Forall_singleton; simpl; split; [by exists n|by rewrite list_lookup_middle]].
    eapply Forall_impl; [exact H5|]. intros q [Hlq Hp]. split; [by eapply (live_grow (window s) w')|]. rewrite lookup_app_l; [done|by eapply lookup_lt_Some].
  - intros i [Hi|[Hge Hi]]%lookup_app_Some; rewrite map_app, elem_of_app; [left; by apply H6|]. right.
    destruct (i - length (promises s))%nat eqn:Ei; [|done]. simpl. apply list_elem_of_singleton. lia.
  - lia.
  - intros E. by apply app_eq_nil in E as [_ E].
Qed.

Lemma poll_sound s buffered now : sound s -> (pending s = [] \/ timer s = true) ->
  match poll s buffered now with
  | (s', None) => sound s'
  | (s', Some e) => sound (close s' e)
  end.
Proof.
  intros Hs Ht. pose proof Hs as [H1 H2 H3 H4 H5 H6 H7 H8 H9]. unfold poll. cbn [closedError deadline pending window promises].
  destruct (closedError s) as [e|] eqn:Ec.
  { assert (pending s = []) as Hp by (destruct (pending s) as [|q l]; [done|]; destruct H8 as (_ & _ & ?); [done|congruence]).
    by split. }
  destruct (bool_decide (buffered = Some 0)) eqn:Eb.
  { pose proof (settle_all_sound s PResolved Hs ltac:(done)) as H. unfold settle_all in *. cbn [window pending promises] in *.
    destruct (foldl _ _ _) as [w ps]. destruct H as (? & ? & ?). by apply sound_quiet. }
  destruct (_ <=? now).
  - unfold close. pose proof (settle_all_sound s (PRejected timeout_error) Hs ltac:(done)) as H. unfold settle_all in *. cbn [window pending promises closedError] in *.
    destruct (foldl _ _ _) as [w ps]. destruct H as (? & ? & ?). by apply sound_quiet.
  - split; simpl; try done. intros Hne. destruct (H8 Hne) as (_ & ? & _). done.
Qed.

Lemma perform_sound s e : sound s -> sound (perform s e).
Proof.
  intros Hs. destruct e as [message before thrown after now|buffered now|error]; simpl; [|destruct (timer s) eqn:Et; [|done]|by apply close_sound].
  - pose proof (send_sound s message before thrown after now Hs) as H. destruct (send _ _ _ _ _ _) as [s' [e|]]; simpl in *; [by apply close_sound|done].
  - pose proof (poll_sound s buffered now Hs (or_intror Et)) as H. by destruct (poll s buffered now) as [s' [e|]].
Qed.

Lemma perform_all_sound events : sound (perform_all events).
Proof.
  unfold perform_all. assert (sound new_sender) as Hs by (by apply sound_quiet). revert Hs. generalize new_sender.
  induction events as [|e events IH]; simpl; intros s Hs; [done|]. by apply IH, perform_sound.
Qed.

(** C38: sends are bounded in bytes and in time.  Whatever is sent, however the host's buffer
    drains, throws and closes: the bytes counted are those of the sends whose promise is
    pending, and stay within the limit; while one is pending the timer is set and has a
    deadline, and when it fires at the deadline or later, or finds the buffer empty, or when
    the connection is closed, no promise is pending afterwards. *)
Theorem sends_are_bounded events :
  let s := perform_all events in
  queuedBytes (window s) = total (window s) (pending s) /\ 0 <= queuedBytes (window s) <= Z.max 0 (maxQueuedBytes limits) /\
  (forall i, promises s !! i = Some PPending <-> i ∈ map snd (pending s)) /\
  (pending s <> [] -> timer s = true /\ exists d, deadline s = Some d /\
     forall buffered now, d <= now \/ buffered = Some 0 -> forall i, promises (perform s (EPoll buffered now)) !! i <> Some PPending) /\
  (forall error i, promises (perform s (EClose error)) !! i <> Some PPending).
Proof.
  set (s := perform_all events). assert (Hs : sound s) by apply perform_all_sound. clearbody s. simpl.
  assert (Hclose : forall error i, promises (close s error) !! i <> Some PPending).
  { intros error. unfold close. pose proof (settle_all_sound s (PRejected error) Hs ltac:(done)) as H. destruct (settle_all _ _) as [w ps]. apply H. }
  split_and!; [apply (so_sum _ Hs)|rewrite (so_sum _ Hs); apply total_nonneg, (so_sizes _ Hs)|apply (so_bound _ Hs)| | |done].
  - intros i. split; [apply (so_pending _ Hs)|]. intros ([h j] & -> & Hin)%list_elem_of_fmap. pose proof (so_live _ Hs) as Hl. rewrite Forall_forall in Hl. by apply (Hl _ Hin).
  - intros Hne. destruct (so_timer _ Hs Hne) as (Ht & [d Hd] & Hc). split; [done|]. exists d. split; [done|]. intros buffered now Hor. rewrite Ht.
    unfold poll. cbn [closedError deadline]. rewrite Hc, Hd. simpl. destruct (bool_decide (buffered = Some 0)) eqn:Eb.
    + pose proof (settle_all_sound s PResolved Hs ltac:(done)) as H. unfold settle_all in *. cbn [window pending promises] in *. destruct (foldl _ _ _) as [w ps]. apply H.
    + apply bool_decide_eq_false in Eb. rewrite (proj2 (Z.leb_le d now)) by naive_solver. intros i. specialize (Hclose timeout_error i).
      unfold close, settle_all in *. cbn [window pending promises closedError] in *. by destruct (foldl _ _ _) as [w ps].
Qed.

End Sender.

(** * Steady traffic *)

Definition steady_limits : rpc_limits := MkLimits 100 1000 10 50.

(** The deadline is that of the first send since the buffer was last seen empty, and the
    reading is compared with zero alone: a connection over which a message is always on its
    way fails after the timeout, although every message before the last was delivered. *)
Lemma steady_traffic_times_out :
  let busy now := [ESend [65] (Some 0) None (Some 1) now; EPoll (Some 1) (now + 10)] in
  let s := perform_all steady_limits (concat (map busy [0; 10; 20; 30; 40])) in
  closedError s = Some timeout_error /\ promises s = replicate 5 (PRejected timeout_error).
Proof. by vm_compute. Qed.
