(* ===== verification/RpcRequests.v ===== *)
(** The request side of an RPC connection ([RpcStreamRequests] of protocol/src/rpc-stream.ts):
    requests wait for responses under wire identifiers of their own, until a response, a
    timeout, a cancellation or the end of the connection settles them.

    Modelling choices: a message is the text of its bytes; a promise is an index in the table
    of promises, a listener a number; timers, signals and the outcome of [transport.send] are
    events; [structuredClone] is the identity on parsed values. *)

From stdpp Require Import pretty.
From S2P Require Import Prelude JsValue JsonText SessionEntries RpcLines.

Local Open Scope Z_scope.

Inductive rpc_id : Type := IdStr (s : string) | IdNum (n : Z).

#[export] Instance rpc_id_eq_dec : EqDecision rpc_id.
Proof. solve_decision. Defined.

Definition id_value (i : rpc_id) : jsv := match i with IdStr s => VStr s | IdNum n => VNum n end.

Inductive request_error : Type :=
| TransportClosed
| InvalidRequest
| Aborted (reason : string)
| DuplicateId
| TooManyPending
| InvalidTimeout
| FrameLimit
| SendFailed (reason : string)
| TimedOut
| InvalidMessage
| ConnectionFailed (reason : string).

Inductive promise : Type :=
| PPending
| PFulfilled (response : jsv)
| PFailed (error : request_error).

Record pending_rpc : Type := MkPending { pr_request : jsv; pr_id : rpc_id; pr_promise : nat }.

Record requests : Type := MkRequests {
  connectionId : string; nextAttempt : Z; pending : list (string * pending_rpc); activeIds : list rpc_id;
  notifications : list nat; closeListeners : list nat; closedError : option request_error; promises : list promise }.

Definition new_requests (connectionId : string) : requests := MkRequests connectionId 0 [] [] [] [] None [].

(** What a method does besides. *)
Inductive output : Type :=
| OSend (message : text)
| ONotify (listener : nat) (value : jsv)
| OClosed (listener : nat) (error : request_error)
| OCloseTransport.

Section Requests.
Variable limits : rpc_limits.

Definition reject_new (r : requests) (e : request_error) : requests :=
  MkRequests (connectionId r) (nextAttempt r) (pending r) (activeIds r) (notifications r) (closeListeners r) (closedError r) (promises r ++ [PFailed e]).

(** A promise that is settled stays so. *)
Definition settle (ps : list promise) (i : nat) (p : promise) : list promise := match ps !! i with Some PPending => <[i := p]> ps | _ => ps end.

Definition without {A : Type} (l : list (string * A)) (key : string) : list (string * A) := List.filter (fun kv => negb (bool_decide (fst kv = key))) l.

(** [remove], and the promise settled. *)
Definition finish (r : requests) (id : string) (p : pending_rpc) (outcome : promise) : requests :=
  MkRequests (connectionId r) (nextAttempt r) (without (pending r) id) (List.filter (fun i => negb (bool_decide (i = pr_id p))) (activeIds r))
    (notifications r) (closeListeners r) (closedError r) (settle (promises r) (pr_promise p) outcome).

Definition failRequest (r : requests) (id : string) (error : request_error) : requests :=
  match assoc_get (pending r) id with None => r | Some p => finish r id p (PFailed error) end.

Definition failPending (r : requests) (error : request_error) : requests * list output :=
  match closedError r with
  | Some _ => (r, [])
  | None =>
      let r := MkRequests (connectionId r) (nextAttempt r) (pending r) (activeIds r) (notifications r) (closeListeners r) (Some error) (promises r) in
      let r := foldl (fun r '(id, p) => finish r id p (PFailed error)) r (pending r) in
      (MkRequests (connectionId r) (nextAttempt r) (pending r) (activeIds r) [] [] (closedError r) (promises r), map (fun l => OClosed l error) (closeListeners r))
  end.

Definition request_id (request : jsv) : option rpc_id := match prop request "id" with VStr s => Some (IdStr s) | VNum n => Some (IdNum n) | _ => None end.

Definition valid_request (request : jsv) : bool :=
  is_string (prop request "jsonrpc") "2.0" && match prop request "method" with VStr m => negb (blank (chars m)) | _ => false end.

Definition wire_id (r : requests) (attempt : Z) : string := connectionId r +:+ ":" +:+ pretty attempt.

Definition next_attempt (r : requests) : requests :=
  MkRequests (connectionId r) (nextAttempt r + 1) (pending r) (activeIds r) (notifications r) (closeListeners r) (closedError r) (promises r).

(** [isOpen] is the answer of the transport, [aborted] the reason of a signal that is aborted
    already, [thrown] the error [transport.send] throws.  The promise is the last one. *)
Definition sendRequest (r : requests) (isOpen : bool) (request : jsv) (aborted : option string) (timeoutMs : option Z) (thrown : option string) : requests * list output :=
  if negb isOpen || bool_decide (is_Some (closedError r)) then (reject_new r TransportClosed, [])
  else
    match request_id request with
    | None => (reject_new r InvalidRequest, [])
    | Some id =>
        if negb (valid_request request) then (reject_new r InvalidRequest, [])
        else
          match aborted with
          | Some reason => (reject_new r (Aborted reason), [])
          | None =>
              if bool_decide (id ∈ activeIds r) then (reject_new r DuplicateId, [])
              else if maxPendingRequests limits <=? zlen (pending r) then (reject_new r TooManyPending, [])
              else
                let timeout := default (requestTimeoutMs limits) timeoutMs in
                if negb (is_safe_positive timeout) || (timeout >? 2147483647) then (reject_new r InvalidTimeout, [])
                else
                  let r := next_attempt r in
                  let wire := wire_id r (nextAttempt r) in
                  let message := JSON_text (with_field request "id" (VStr wire)) in
                  match frame_bytes (zlen message) limits with
                  | Err _ => (reject_new r FrameLimit, [])
                  | Ok _ =>
                      let p := MkPending request id (length (promises r)) in
                      let r := MkRequests (connectionId r) (nextAttempt r) (assoc_set (pending r) wire p) (activeIds r ++ [id])
                                          (notifications r) (closeListeners r) (closedError r) (promises r ++ [PPending]) in
                      match thrown with
                      | None => (r, [OSend message])
                      | Some reason => (failRequest r wire (SendFailed reason), [OSend message])
                      end
                  end
          end
    end.

(** [onNotification] and [onClose] with the functions they return. *)
Definition onNotification (r : requests) (listener : nat) : requests :=
  MkRequests (connectionId r) (nextAttempt r) (pending r) (activeIds r)
    (if bool_decide (listener ∈ notifications r) then notifications r else notifications r ++ [listener]) (closeListeners r) (closedError r) (promises r).

Definition offNotification (r : requests) (listener : nat) : requests :=
  MkRequests (connectionId r) (nextAttempt r) (pending r) (activeIds r)
    (List.filter (fun l => negb (bool_decide (l = listener))) (notifications r)) (closeListeners r) (closedError r) (promises r).

Definition onClose (r : requests) (listener : nat) : requests * list output :=
  match closedError r with
  | Some e => (r, [OClosed listener e])
  | None =>
      (MkRequests (connectionId r) (nextAttempt r) (pending r) (activeIds r) (notifications r)
         (if bool_decide (listener ∈ closeListeners r) then closeListeners r else closeListeners r ++ [listener]) (closedError r) (promises r), [])
  end.

Definition offClose (r : requests) (listener : nat) : requests :=
  MkRequests (connectionId r) (nextAttempt r) (pending r) (activeIds r) (notifications r)
    (List.filter (fun l => negb (bool_decide (l = listener))) (closeListeners r)) (closedError r) (promises r).

Definition close (r : requests) : requests * list output :=
  let '(r, out) := failPending r (ConnectionFailed "RPC transport closed while awaiting a response") in (r, out ++ [OCloseTransport]).

(** * Messages *)

Definition has_own (value : jsv) (key : string) : bool := match value with VObj fs => bool_decide (is_Some (assoc_get fs key)) | _ => false end.

Inductive message : Type :=
| MResponse (id : string) (value : jsv)
| MNotification (value : jsv).

(** The error of a response is an object with an integer code and a text. *)
Definition valid_error (error : jsv) : bool :=
  match error with
  | VUndef => true
  | _ => match prop error "code", prop error "message" with VNum _, VStr _ => true | _, _ => false end
  end.

(** The checks of [consume]; [None] where it throws. *)
Definition read_message (content : text) : option message :=
  match frame_bytes (zlen content) limits with
  | Err _ => None
  | Ok _ =>
      match JSON_parse content with
      | Some (VObj fs as value) =>
          if negb (is_string (prop value "jsonrpc") "2.0") then None
          else if has_own value "id" then
            match prop value "id" with
            | VStr id => if eqb (has_own value "result") (has_own value "error") || negb (valid_error (prop value "error")) then None else Some (MResponse id value)
            | _ => None
            end
          else match prop value "method" with VStr _ => Some (MNotification value) | _ => None end
      | _ => None
      end
  end.

Definition consume (r : requests) (content : text) : requests * list output :=
  match closedError r with
  | Some _ => (r, [])
  | None =>
      match read_message content with
      | Some (MResponse id value) =>
          match assoc_get (pending r) id with
          | None => (r, [])
          | Some p => (finish r id p (PFulfilled (with_field value "id" (id_value (pr_id p)))), [])
          end
      | Some (MNotification value) => (r, map (fun l => ONotify l value) (notifications r))
      | None => let '(r, out) := failPending r InvalidMessage in (r, out ++ [OCloseTransport])
      end
  end.

(** * Connections *)

Inductive event : Type :=
| ERequest (isOpen : bool) (request : jsv) (aborted : option string) (timeoutMs : option Z) (thrown : option string)
| EMessage (content : text)
| ETimeout (wire : string)
| EAbort (wire : string) (reason : string)
| ESendRejected (wire : string) (reason : string)
| ETransportClosed (reason : string)
| EClose
| EOnNotification (listener : nat)
| EOffNotification (listener : nat)
| EOnClose (listener : nat)
| EOffClose (listener : nat).

Definition handle (r : requests) (e : event) : requests * list output :=
  match e with
  | ERequest isOpen request aborted timeoutMs thrown => sendRequest r isOpen request aborted timeoutMs thrown
  | EMessage content => consume r content
  | ETimeout wire => (failRequest r wire TimedOut, [])
  | EAbort wire reason => (failRequest r wire (Aborted reason), [])
  | ESendRejected wire reason => (failRequest r wire (SendFailed reason), [])
  | ETransportClosed reason => failPending r (ConnectionFailed reason)
  | EClose => close r
  | EOnNotification l => (onNotification r l, [])
  | EOffNotification l => (offNotification r l, [])
  | EOnClose l => onClose r l
  | EOffClose l => (offClose r l, [])
  end.

End Requests.
