(* ===== verification/RpcRequestsProofs.v ===== *)
(** What [RpcRequests] promises: a response settles the request it was sent for and no other,
    whatever identifiers the clients reuse, and no request outlives its connection. *)

From stdpp Require Import pretty.
From S2P Require Import Prelude JsValue JsonText JsonTextProofs SessionEntries RpcLines RpcRequests.

Local Open Scope Z_scope.

(** * Runs *)

(** What went over the wire: a request with its promise, a message while the connection was
    open. *)
Inductive log_entry : Type :=
| LSent (promise : nat) (wire : string) (request : jsv)
| LReceived (content : text).

Definition is_send (o : output) : bool := match o with OSend _ => true | _ => false end.

Definition entries (r : requests) (e : event) (out : list output) : list log_entry :=
  match e with
  | ERequest _ request _ _ _ => if existsb is_send out then [LSent (length (promises r)) (wire_id r (nextAttempt r + 1)) request] else []
  | EMessage content => match closedError r with None => [LReceived content] | Some _ => [] end
  | _ => []
  end.

Section Runs.
Variable limits : rpc_limits.

Inductive run (connection : string) : list log_entry -> requests -> Prop :=
| run_start : run connection [] (new_requests connection)
| run_step log r e r' out : run connection log r -> handle limits r e = (r', out) -> run connection (log ++ entries r e out) r'.

(** A response that was received for the request of a promise, after it was sent. *)
Definition answered_by (log : list log_entry) (i : nat) (v : jsv) : Prop :=
  exists l1 l2 l3 wire request id content value,
    log = l1 ++ LSent i wire request :: l2 ++ LReceived content :: l3 /\
    request_id request = Some id /\ read_message limits content = Some (MResponse wire value) /\ v = with_field value "id" (id_value id).

Lemma answered_grow log log' i v : answered_by log i v -> answered_by (log ++ log') i v.
Proof.
  intros (l1 & l2 & l3 & w & q & id & c & value & -> & ?). exists l1, l2, (l3 ++ log'), w, q, id, c, value. split; [|done].
  by rewrite <- !app_assoc, <- !app_comm_cons, <- app_assoc, <- app_comm_cons.
Qed.

Record sound (log : list log_entry) (r : requests) : Prop := MkSound {
  so_keys : NoDup (map fst (pending r));
  so_slots : NoDup (map (fun kp => pr_promise (snd kp)) (pending r));
  so_active : activeIds r = map (fun kp => pr_id (snd kp)) (pending r);
  so_ids : NoDup (activeIds r);
  so_live : forall wire p, (wire, p) ∈ pending r ->
    promises r !! pr_promise p = Some PPending /\ LSent (pr_promise p) wire (pr_request p) ∈ log /\ request_id (pr_request p) = Some (pr_id p);
  so_pending : forall i, promises r !! i = Some PPending -> exists wire p, (wire, p) ∈ pending r /\ pr_promise p = i;
  so_limit : zlen (pending r) <= Z.max 0 (maxPendingRequests limits);
  so_sent : forall i wire request, LSent i wire request ∈ log -> (i < length (promises r))%nat /\ exists n, 0 < n <= nextAttempt r /\ wire = wire_id r n;
  so_wires : forall i j wire q q', LSent i wire q ∈ log -> LSent j wire q' ∈ log -> i = j;
  so_answers : forall i v, promises r !! i = Some (PFulfilled v) -> answered_by log i v;
  so_closed : is_Some (closedError r) -> pending r = [];
  so_attempt : 0 <= nextAttempt r;
}.

(** The state without the clause about closing, which a failing connection breaks for a
    while. *)
Definition reopened (r : requests) : requests :=
  MkRequests (connectionId r) (nextAttempt r) (pending r) (activeIds r) (notifications r) (closeListeners r) None (promises r).

Lemma wire_injective r n m : 0 < n -> 0 < m -> wire_id r n = wire_id r m -> n = m.
Proof. intros _ _ H. unfold wire_id in H. apply (inj (String.append _)) in H. apply (inj (String.append _)) in H. by apply (inj pretty) in H. Qed.

Lemma without_in {A} (l : list (string * A)) key kv : kv ∈ without l key <-> kv ∈ l /\ fst kv <> key.
Proof. unfold without. rewrite !list_elem_of_In, filter_In, negb_true_iff, bool_decide_eq_false. done. Qed.

Lemma nodup_filter {A B} (f : A -> B) (P : A -> bool) l : NoDup (map f l) -> NoDup (map f (List.filter P l)).
Proof.
  induction l as [|x l IH]; simpl; [done|]. intros Hnd. inversion Hnd as [|? ? Hx Hl]; subst. destruct (P x); simpl; [|by apply IH]. constructor; [|by apply IH].
  intros (y & Hy & Hin)%list_elem_of_In%in_map_iff. apply filter_In in Hin as [Hin _]. apply Hx. rewrite <- Hy. by apply list_elem_of_In, in_map.
Qed.

Lemma settle_lookup ps i p j : ps !! i = Some PPending -> settle ps i p !! j = if decide (i = j) then Some p else ps !! j.
Proof.
  intros Hi. unfold settle. rewrite Hi. destruct (decide _) as [<-|Hn]; [apply list_lookup_insert_eq; by eapply lookup_lt_Some|by apply list_lookup_insert_ne].
Qed.

Lemma finish_sound log r id p outcome : sound log r -> (id, p) ∈ pending r -> outcome <> PPending ->
  (forall v, outcome = PFulfilled v -> answered_by log (pr_promise p) v) -> sound log (finish r id p outcome).
Proof.
  intros [H1 H2 H3 H4 H5 H6 H7 H8 H9 H10 H11 H12] Hin Hout Hans. destruct (H5 _ _ Hin) as (Hp & _ & _).
  assert (Hsame : forall w q, (w, q) ∈ pending r -> w = id -> q = p).
  { intros w q Hq ->. pose proof (assoc_in_get _ _ _ H1 Hq). pose proof (assoc_in_get _ _ _ H1 Hin). congruence. }
  assert (Hinj : forall {B} (f : pending_rpc -> B) w q, NoDup (map (fun kp => f (snd kp)) (pending r)) -> (w, q) ∈ pending r -> f q = f p -> w = id).
  { intros B f w q Hnd Hq Hf. apply list_elem_of_lookup in Hq as [a Ha]. apply list_elem_of_lookup in Hin as [b Hb].
    assert (a = b) as ->; [|congruence]. eapply (NoDup_lookup (map (fun kp => f (snd kp)) (pending r))); [done| |]; rewrite list_lookup_fmap; [by rewrite Ha|].
    rewrite Hb. simpl. by rewrite Hf. }
  assert (Hlen : zlen (without (pending r) id) <= zlen (pending r)).
  { unfold without, zlen. clear. induction (pending r) as [|x l IH]; simpl; [lia|]. destruct (negb _); simpl; lia. }
  unfold finish. split; simpl.
  - by apply nodup_filter.
  - by apply nodup_filter.
  - rewrite H3 in *. clear -H1 H4 Hin Hinj Hsame. unfold without.
    assert (Hall : forall w q, (w, q) ∈ pending r -> bool_decide (pr_id q = pr_id p) = bool_decide (w = id)).
    { intros w q Hq. apply bool_decide_ext. split; [by apply (Hinj _ pr_id)|]. intros Hw. by rewrite (Hsame _ _ Hq Hw). }
    clear -Hall. induction (pending r) as [|[w q] l IH]; simpl; [done|]. rewrite (Hall w q) by (by left).
    destruct (bool_decide (w = id)); simpl; [|f_equal]; apply IH; intros ? ? ?; apply Hall; by right.
  - rewrite H3 in *. rewrite <- (map_id (List.filter _ _)). apply nodup_filter. by rewrite map_id.
  - intros w q [Hq Hne]%without_in. destruct (H5 _ _ Hq) as (Hpq & ? & ?). split_and!; [|done|done]. rewrite settle_lookup by done.
    rewrite decide_False; [done|]. intros Heq. by apply Hne, (Hinj _ pr_promise w q H2).
  - intros i. rewrite settle_lookup by done. destruct (decide _) as [?|Hn]; [congruence|]. intros Hi. destruct (H6 i Hi) as (w & q & Hq & <-). exists w, q. split; [|done].
    apply without_in. split; [done|]. simpl. intros ->. apply Hn. by rewrite (Hsame _ _ Hq eq_refl).
  - lia.
  - intros i w q Hs. destruct (H8 _ _ _ Hs) as [Hi Hw]. split; [|done]. unfold settle. rewrite Hp. by rewrite length_insert.
  - done.
  - intros i v. rewrite settle_lookup by done. destruct (decide _) as [<-|Hn]; [|apply H10]. intros [= ->]. by apply Hans.
  - intros Hc. by rewrite H11 in Hin by done; inversion Hin.
  - done.
Qed.

Lemma get_pending r id p : assoc_get (pending r) id = Some p -> (id, p) ∈ pending r.
Proof. apply assoc_get_in. Qed.

Lemma failRequest_sound log r id e : sound log r -> sound log (failRequest r id e).
Proof. intros Hs. unfold failRequest. destruct (assoc_get _ _) eqn:E; [|done]. by apply finish_sound; [|apply get_pending| |]. Qed.

Lemma without_head {A} (l : list (string * A)) key v : NoDup (map fst ((key, v) :: l)) -> without ((key, v) :: l) key = l.
Proof.
  intros Hnd. inversion Hnd as [|? ? Hx _]; subst. unfold without. simpl. rewrite bool_decide_eq_true_2 by done. simpl. clear Hnd.
  induction l as [|[k w] l IH]; simpl in *; [done|]. apply not_elem_of_cons in Hx as [Hk Hx]. rewrite bool_decide_eq_false_2 by done. simpl. by rewrite IH.
Qed.

Lemma fail_all log e l : forall r, pending r = l -> sound log r ->
  let r' := foldl (fun r '(id, p) => finish r id p (PFailed e)) r l in sound log r' /\ pending r' = [] /\ closedError r' = closedError r.
Proof.
  induction l as [|[id p] l IH]; intros r Hp Hs; simpl; [done|].
  assert (Hf : sound log (finish r id p (PFailed e))) by (apply finish_sound; [done|rewrite Hp; by left|done|done]).
  apply (IH (finish r id p (PFailed e))); [|done]. simpl. rewrite Hp. apply without_head. rewrite <- Hp. apply (so_keys _ _ Hs).
Qed.

(** Listeners and the mark of a closed connection are no part of the books. *)
Lemma sound_same log r n c e : sound log r -> (is_Some e -> pending r = []) ->
  sound log (MkRequests (connectionId r) (nextAttempt r) (pending r) (activeIds r) n c e (promises r)).
Proof. intros [H1 H2 H3 H4 H5 H6 H7 H8 H9 H10 H11 H12] He. by split. Qed.

Lemma closedError_fold e l : forall r, closedError (foldl (fun r '(id, p) => finish r id p (PFailed e)) r l) = closedError r.
Proof. induction l as [|[id p] l IH]; intros r; simpl; [done|]. by rewrite IH. Qed.

Lemma fold_reopened e l : forall r, foldl (fun r '(id, p) => finish r id p (PFailed e)) (reopened r) l = reopened (foldl (fun r '(id, p) => finish r id p (PFailed e)) r l).
Proof. induction l as [|[id p] l IH]; intros r; simpl; [done|]. by rewrite <- IH. Qed.

Lemma failPending_sound log r e : sound log r -> sound log (fst (failPending r e)).
Proof.
  intros Hs. unfold failPending. destruct (closedError r) eqn:Ec; [done|]. simpl.
  set (r0 := MkRequests _ _ _ _ _ _ (Some e) _). pose proof (fold_reopened e (pending r) r0) as Hfold.
  assert (Hr : sound log (reopened r0)) by (apply (sound_same log r _ _ None Hs); by intros []). destruct (fail_all log e (pending r) (reopened r0) eq_refl Hr) as (H1 & H2 & _).
  rewrite Hfold in H1, H2. change (pending r0) with (pending r). set (r1 := foldl _ r0 _) in *.
  apply (sound_same log (reopened r1) [] [] (closedError r1) H1). by intros _.
Qed.

(** * Events *)

Lemma sound_received log r content : sound log r -> sound (log ++ [LReceived content]) r.
Proof.
  intros [H1 H2 H3 H4 H5 H6 H7 H8 H9 H10 H11 H12].
  assert (Hin : forall i w q, LSent i w q ∈ log ++ [LReceived content] -> LSent i w q ∈ log) by (by intros i w q [?|?%list_elem_of_singleton]%elem_of_app).
  split; try done.
  - intros w p Hp. destruct (H5 w p Hp) as (? & ? & ?). split_and!; [done| |done]. apply elem_of_app. by left.
  - intros i w q Hs. by eapply H8, Hin.
  - intros i j w q q' Hq Hq'. eapply H9; by apply Hin.
  - intros i v Hv. by apply answered_grow, H10.
Qed.

Lemma reject_sound log r e n : sound log r -> nextAttempt r <= n ->
  sound log (MkRequests (connectionId r) n (pending r) (activeIds r) (notifications r) (closeListeners r) (closedError r) (promises r ++ [PFailed e])).
Proof.
  intros [H1 H2 H3 H4 H5 H6 H7 H8 H9 H10 H11 H12] Hn.
  assert (Hpr : forall i x, (promises r ++ [PFailed e]) !! i = Some x -> x <> PFailed e -> promises r !! i = Some x).
  { intros i x [?|[_ Hi]]%lookup_app_Some; [done|]. destruct (i - length (promises r))%nat; [by injection Hi as <-|done]. }
  split; simpl; try done.
  - intros w p Hp. destruct (H5 w p Hp) as (Hi & ? & ?). split_and!; [|done|done]. rewrite lookup_app_l; [done|by eapply lookup_lt_Some].
  - intros i Hi. by apply H6, Hpr.
  - intros i w q Hs. destruct (H8 _ _ _ Hs) as (? & m & Hm & ->). rewrite length_app. simpl. split; [lia|]. exists m. split; [lia|done].
  - intros i v Hi. apply H10. by apply Hpr.
  - lia.
Qed.

Lemma wire_fresh log r : sound log r -> wire_id r (nextAttempt r + 1) ∉ map fst (pending r) /\ forall i q, LSent i (wire_id r (nextAttempt r + 1)) q ∉ log.
Proof.
  intros Hs. assert (Hlog : forall i q, LSent i (wire_id r (nextAttempt r + 1)) q ∉ log).
  { intros i q (_ & n & Hn & Hw)%(so_sent _ _ Hs). apply wire_injective in Hw; lia. }
  split; [|done]. intros ([w p] & Hw & Hin)%list_elem_of_fmap. simpl in Hw. subst w. destruct (so_live _ _ Hs _ _ Hin) as (_ & Hl & _). by eapply Hlog.
Qed.

(** The books after a request went out. *)
Lemma sent_sound log r request id : sound log r -> request_id request = Some id -> id ∉ activeIds r -> zlen (pending r) < maxPendingRequests limits -> closedError r = None ->
  let wire := wire_id r (nextAttempt r + 1) in
  sound (log ++ [LSent (length (promises r)) wire request])
    (MkRequests (connectionId r) (nextAttempt r + 1) (assoc_set (pending r) wire (MkPending request id (length (promises r)))) (activeIds r ++ [id])
       (notifications r) (closeListeners r) (closedError r) (promises r ++ [PPending])).
Proof.
  intros Hs Hid Hact Hlim Hopen wire. destruct (wire_fresh log r Hs) as [Hkey Hfresh]. fold wire in Hkey, Hfresh. rewrite assoc_set_new by done.
  destruct Hs as [H1 H2 H3 H4 H5 H6 H7 H8 H9 H10 H11 H12]. set (new := MkPending request id (length (promises r))).
  assert (Hsend : LSent (length (promises r)) wire request ∈ log ++ [LSent (length (promises r)) wire request]) by (apply elem_of_app; right; by left).
  assert (Hin : forall i w q, LSent i w q ∈ log ++ [LSent (length (promises r)) wire request] -> LSent i w q ∈ log \/ (i = length (promises r) /\ w = wire)).
  { intros i w q [?|[= -> -> _]%list_elem_of_singleton]%elem_of_app; auto. }
  assert (Hpr : forall i x, (promises r ++ [PPending]) !! i = Some x -> promises r !! i = Some x \/ (i = length (promises r) /\ x = PPending)).
  { intros i x [?|[Hge Hi]]%lookup_app_Some; [by left|]. destruct (i - length (promises r))%nat eqn:E; [|done]. injection Hi as <-. right. split; [lia|done]. }
  split; simpl.
  - rewrite map_app. apply NoDup_app. split_and!; [done| |apply NoDup_singleton]. by intros k Hk ->%list_elem_of_singleton.
  - rewrite map_app. apply NoDup_app. split_and!; [done| |apply NoDup_singleton].
    intros k ([w p] & -> & Hp)%list_elem_of_fmap Hk%list_elem_of_singleton. destruct (H5 _ _ Hp) as (Hl & _ & _). apply lookup_lt_Some in Hl. simpl in *. lia.
  - by rewrite map_app, H3.
  - apply NoDup_app. split_and!; [done| |apply NoDup_singleton]. by intros k Hk ->%list_elem_of_singleton.
  - intros w p [Hp|[= -> ->]%list_elem_of_singleton]%elem_of_app.
    + destruct (H5 w p Hp) as (Hi & ? & ?). split_and!; [|apply elem_of_app; by left|done]. rewrite lookup_app_l; [done|by eapply lookup_lt_Some].
    + simpl. split_and!; [by rewrite list_lookup_middle|done|done].
  - intros i [Hi|[-> _]]%Hpr; [destruct (H6 i Hi) as (w & p & Hp & <-); exists w, p|exists wire, new]; (split; [|done]); apply elem_of_app; [by left|right; by left].
  - rewrite zlen_app. unfold zlen at 2. simpl. lia.
  - intros i w q [Hq|[-> ->]]%Hin; rewrite length_app; simpl.
    + destruct (H8 _ _ _ Hq) as (? & m & Hm & ->). split; [lia|]. exists m. split; [lia|done].
    + split; [lia|]. exists (nextAttempt r + 1). split; [lia|done].
  - intros i j w q q' [Hq|[-> ->]]%Hin [Hq'|[-> Hw]]%Hin; [by eapply H9|subst w; by apply Hfresh in Hq|by apply Hfresh in Hq'|done].
  - intros i v [Hi|[_ ?]]%Hpr; [|done]. by apply answered_grow, H10.
  - rewrite Hopen. by intros [? ?].
  - lia.
Qed.

Lemma sendRequest_sound log r isOpen request aborted timeoutMs thrown r' out : sound log r ->
  sendRequest limits r isOpen request aborted timeoutMs thrown = (r', out) -> sound (log ++ entries r (ERequest isOpen request aborted timeoutMs thrown) out) r'.
Proof.
  intros Hs. assert (Hrej : forall e, sound (log ++ []) (reject_new r e)) by (intros e; rewrite app_nil_r; by apply reject_sound).
  unfold sendRequest. destruct (_ || _) eqn:Eo; [by intros [= <- <-]; apply Hrej|]. apply orb_false_iff in Eo as [_ Eo%bool_decide_eq_false].
  destruct (request_id request) as [id|] eqn:Eid; [|by intros [= <- <-]; apply Hrej]. destruct (negb (valid_request _)); [by intros [= <- <-]; apply Hrej|].
  destruct aborted; [by intros [= <- <-]; apply Hrej|]. case_bool_decide as Eact; [by intros [= <- <-]; apply Hrej|].
  destruct (Z.leb_spec (maxPendingRequests limits) (zlen (pending r))) as [|Elim]; [by intros [= <- <-]; apply Hrej|].
  destruct (_ || _); [by intros [= <- <-]; apply Hrej|]. cbv zeta. destruct (frame_bytes _ _); cycle 1.
  { intros [= <- <-]. cbn [entries existsb]. rewrite app_nil_r. apply (reject_sound log r FrameLimit (nextAttempt r + 1)); [done|lia]. }
  assert (Hopen : closedError r = None) by (destruct (closedError r); [by destruct Eo|done]).
  pose proof (sent_sound log r request id Hs Eid Eact Elim Hopen) as Hsent. destruct thrown; intros [= <- <-]; [apply failRequest_sound|]; exact Hsent.
Qed.

Lemma answered_at log r wire p content value : sound log r -> (wire, p) ∈ pending r -> read_message limits content = Some (MResponse wire value) ->
  answered_by (log ++ [LReceived content]) (pr_promise p) (with_field value "id" (id_value (pr_id p))).
Proof.
  intros Hs Hin Hm. destruct (so_live _ _ Hs _ _ Hin) as (_ & Hsent & Hid). apply list_elem_of_split in Hsent as (l1 & l2 & ->).
  exists l1, l2, [], wire, (pr_request p), (pr_id p), content, value. split_and!; [|done|done|done]. by rewrite <- app_assoc, <- app_comm_cons.
Qed.

Lemma consume_sound log r content r' out : sound log r -> consume limits r content = (r', out) -> sound (log ++ entries r (EMessage content) out) r'.
Proof.
  intros Hs. unfold consume. cbn [entries]. destruct (closedError r) eqn:Ec; [intros [= <- <-]; by rewrite app_nil_r|].
  pose proof (sound_received _ _ content Hs) as Hs'. destruct (read_message limits content) as [[id value|value]|] eqn:Em.
  - destruct (assoc_get (pending r) id) as [p|] eqn:Ep; intros [= <- <-]; [|done]. apply get_pending in Ep. apply finish_sound; [done|done|done|].
    intros v [= <-]. by eapply answered_at.
  - by intros [= <- <-].
  - destruct (failPending r InvalidMessage) as [r1 o] eqn:Ef. intros [= <- <-]. pose proof (failPending_sound _ _ InvalidMessage Hs') as H. by rewrite Ef in H.
Qed.

Lemma handle_sound log r e r' out : sound log r -> handle limits r e = (r', out) -> sound (log ++ entries r e out) r'.
Proof.
  intros Hs. destruct e; cbn [handle]; [apply sendRequest_sound; done|apply consume_sound; done|..]; cbn [entries]; rewrite app_nil_r.
  1-3: by intros [= <- <-]; apply failRequest_sound.
  - intros H. replace r' with (fst (failPending r (ConnectionFailed reason))) by by rewrite H. by apply failPending_sound.
  - unfold close. destruct (failPending _ _) as [r1 o] eqn:Ef. intros [= <- <-]. replace r1 with (fst (r1, o)) by done. rewrite <- Ef. by apply failPending_sound.
  - intros [= <- <-]. apply sound_same; [done|apply (so_closed _ _ Hs)].
  - intros [= <- <-]. apply sound_same; [done|apply (so_closed _ _ Hs)].
  - unfold onClose. destruct (closedError r) eqn:Ec; intros [= <- <-]; [done|]. rewrite <- Ec. apply sound_same; [done|apply (so_closed _ _ Hs)].
  - intros [= <- <-]. apply sound_same; [done|apply (so_closed _ _ Hs)].
Qed.

Lemma new_sound connection : sound [] (new_requests connection).
Proof.
  split; simpl; try (by constructor); try done.
  - by intros ? ? ?%not_elem_of_nil.
  - unfold zlen. simpl. lia.
  - by intros ? ? ? ?%not_elem_of_nil.
  - by intros ? ? ? ? ? ?%not_elem_of_nil.
Qed.

Lemma run_sound connection log r : run connection log r -> sound log r.
Proof. induction 1; [apply new_sound|by eapply handle_sound]. Qed.

(** * What is settled stays settled *)

Definition keeps (ps qs : list promise) : Prop := forall i p, ps !! i = Some p -> p <> PPending -> qs !! i = Some p.

#[export] Instance keeps_preorder : PreOrder keeps.
Proof. split; [by intros ps i p|]. intros ps qs rs H1 H2 i p Hi Hp. apply H2; [by apply H1|done]. Qed.

Lemma keeps_settle ps i p : keeps ps (settle ps i p).
Proof.
  intros j q Hj Hq. unfold settle. destruct (ps !! i) as [[| |]|] eqn:Ei; try done. rewrite list_lookup_insert_ne; [done|]. intros ->. congruence.
Qed.

Lemma keeps_app ps qs : keeps ps (ps ++ qs).
Proof. intros i p Hi _. by apply lookup_app_l_Some. Qed.

Lemma keeps_failRequest r id e : keeps (promises r) (promises (failRequest r id e)).
Proof. unfold failRequest. destruct (assoc_get _ _); [apply keeps_settle|done]. Qed.

Lemma keeps_failPending r e : keeps (promises r) (promises (fst (failPending r e))).
Proof.
  unfold failPending. destruct (closedError r); [done|]. simpl. set (r0 := MkRequests _ _ _ _ _ _ _ _). change (promises r) with (promises r0).
  generalize (pending r) r0. clear. intros l. induction l as [|[id p] l IH]; intros r; simpl; [done|]. etrans; [|apply IH]. apply keeps_settle.
Qed.

Lemma keeps_handle r e : keeps (promises r) (promises (fst (handle limits r e))).
Proof.
  destruct e; cbn [handle]; [|..|done|done| |done]; try apply keeps_failRequest; try apply keeps_failPending.
  - unfold sendRequest. cbv zeta. repeat case_match; try apply keeps_app. etrans; [apply keeps_app|]. apply (keeps_failRequest (MkRequests _ _ _ _ _ _ _ (promises r ++ [PPending]))).
  - unfold consume. destruct (closedError r); [done|]. destruct (read_message _ _) as [[]|]; [destruct (assoc_get _ _); [apply keeps_settle|done]|done|].
    pose proof (keeps_failPending r InvalidMessage) as H. by destruct (failPending r InvalidMessage).
  - unfold close. pose proof (keeps_failPending r (ConnectionFailed "RPC transport closed while awaiting a response")) as H. by destruct (failPending _ _).
  - unfold onClose. by destruct (closedError r).
Qed.

Lemma response_settles log r wire p content value : sound log r -> (wire, p) ∈ pending r -> read_message limits content = Some (MResponse wire value) ->
  promises (fst (handle limits r (EMessage content))) !! pr_promise p = Some (PFulfilled (with_field value "id" (id_value (pr_id p)))).
Proof.
  intros Hs Hin Hm. simpl. unfold consume. destruct (closedError r) eqn:Ec; [by rewrite (so_closed _ _ Hs) in Hin by (by rewrite Ec); inversion Hin|].
  rewrite Hm, (assoc_in_get _ _ _ (so_keys _ _ Hs) Hin). simpl. destruct (so_live _ _ Hs _ _ Hin) as (Hp & _ & _). rewrite settle_lookup by done. by rewrite decide_True.
Qed.

(** C19: whatever identifiers the clients choose, and however sends, responses, stray or malformed
    messages, timeouts, cancellations, send failures and the end of the connection follow each
    other: a promise is fulfilled only with a response that arrived for the wire identifier of
    its own request after that request was sent, under the identifier the client had given
    it, and no wire identifier is ever used for a second request; the requests that wait are
    exactly the promises that are open, with distinct client identifiers, never more than the
    limit, and none once the connection has ended; a response for a request that waits
    settles it; what is settled stays as it is under every event. *)
Theorem responses_reach_their_request connection log r : run connection log r ->
  (forall i v, promises r !! i = Some (PFulfilled v) -> answered_by log i v) /\
  (forall i j wire q q', LSent i wire q ∈ log -> LSent j wire q' ∈ log -> i = j) /\
  (forall i, promises r !! i = Some PPending <-> exists wire p, (wire, p) ∈ pending r /\ pr_promise p = i) /\
  NoDup (activeIds r) /\ zlen (pending r) <= Z.max 0 (maxPendingRequests limits) /\
  (is_Some (closedError r) -> forall i, promises r !! i <> Some PPending) /\
  (forall wire p content value, (wire, p) ∈ pending r -> read_message limits content = Some (MResponse wire value) ->
     promises (fst (handle limits r (EMessage content))) !! pr_promise p = Some (PFulfilled (with_field value "id" (id_value (pr_id p))))) /\
  (forall e i p, promises r !! i = Some p -> p <> PPending -> promises (fst (handle limits r e)) !! i = Some p).
Proof.
  intros Hrun%run_sound. assert (Hpending : forall i, promises r !! i = Some PPending <-> exists wire p, (wire, p) ∈ pending r /\ pr_promise p = i).
  { intros i. split; [apply (so_pending _ _ Hrun)|]. intros (w & p & Hp & <-). by apply (so_live _ _ Hrun w). }
  split_and!; [apply (so_answers _ _ Hrun)|apply (so_wires _ _ Hrun)|exact Hpending|apply (so_ids _ _ Hrun)|apply (so_limit _ _ Hrun)| | |].
  - intros Hc i (w & p & Hp & _)%Hpending. rewrite (so_closed _ _ Hrun Hc) in Hp. inversion Hp.
  - intros wire p content value. by apply (response_settles log).
  - intros e i p Hi Hp. by apply keeps_handle.
Qed.

End Runs.

(** Two clients use the identifier 7 one after the other; the answer to the first request comes
    after its timeout, and reaches nobody. *)
Module Example.

Definition request : jsv := VObj [("jsonrpc", VStr "2.0"); ("id", VNum 7); ("method", VStr "ping")].

Definition response (wire : string) (n : Z) : text := JSON_text (VObj [("jsonrpc", VStr "2.0"); ("id", VStr wire); ("result", VNum n)]).

Definition events : list event :=
  [ERequest true request None None None; ETimeout "c:1"; ERequest true request None None None; EMessage (response "c:1" 1); EMessage (response "c:2" 2)].

Fixpoint run_events (log : list log_entry) (r : requests) (es : list event) : list log_entry * requests :=
  match es with
  | [] => (log, r)
  | e :: es => let '(r', out) := handle DEFAULT_RPC_LIMITS r e in run_events (log ++ entries r e out) r' es
  end.

Lemma run_events_run connection es : forall log r, run DEFAULT_RPC_LIMITS connection log r ->
  run DEFAULT_RPC_LIMITS connection (fst (run_events log r es)) (snd (run_events log r es)).
Proof.
  induction es as [|e es IH]; intros log r Hr; cbn [run_events]; [done|]. destruct (handle _ r e) as [r' out] eqn:E. apply IH. by econstructor.
Qed.

Definition final : requests := snd (run_events [] (new_requests "c") events).

Lemma responses_reach_their_request_witness :
  promises final = [PFailed TimedOut; PFulfilled (VObj [("jsonrpc", VStr "2.0"); ("id", VNum 7); ("result", VNum 2)])] /\
  answered_by DEFAULT_RPC_LIMITS (fst (run_events [] (new_requests "c") events)) 1 (VObj [("jsonrpc", VStr "2.0"); ("id", VNum 7); ("result", VNum 2)]).
Proof.
  split; [by vm_compute|].
  refine (proj1 (responses_reach_their_request DEFAULT_RPC_LIMITS "c" (fst (run_events [] (new_requests "c") events)) final _) 1%nat _ _).
  - apply run_events_run. constructor.
  - by vm_compute.
Defined.

End Example.
