(* ===== verification/Admission.v ===== *)
(** The admission of code-mode workers (agent-core/src/codemode-admission.ts): a bounded queue
    of permits, and the reservation that hands an admitted permit to a worker.

    Modelling choices: a promise is an index in a table, a release function an index in the
    table of permits; an abort of a signal and the end of a timer are events, and a waiter
    that was settled has no listeners left; the clock is an argument, in whole milliseconds. *)

From S2P Require Import Prelude.

Open Scope Z_scope.

Record options : Type := MkOptions { capacity : Z; maxQueued : Z; subject : string }.

(** A wait in milliseconds, or a number that is not finite. *)
Inductive delay : Type := Millis (n : Z) | NotFinite.

Inductive admission_error : Type :=
| BadCapacity
| BadQueueCapacity
| EmptySubject
| Aborted (reason : string)
| TimedOut (timeoutMs : delay)
| QueueFull.

Inductive outcome : Type :=
| Waiting
| Granted (permit : nat)
| Refused (error : admission_error).

Record waiter : Type := MkWaiter { w_promise : nat; w_queuedAt : Z; w_signal : bool; w_timeoutMs : option delay }.

(** [permits] has the flag [released] of each release function that was created. *)
Record queue : Type := MkQueue {
  activeSlots : Z; queueWaitCount : Z; queueWaitTotalMs : Z; queueWaitMaxMs : Z; cancelledRequests : Z; timedOutRequests : Z;
  waiters : list waiter; promises : list outcome; permits : list bool }.

Definition empty_queue : queue := MkQueue 0 0 0 0 0 0 [] [] [].

Definition new_queue (o : options) : result admission_error queue :=
  throw_if capacity o <? 1 with BadCapacity in
  throw_if maxQueued o <? 0 with BadQueueCapacity in
  throw_if forallb is_space (String.list_ascii_of_string (subject o)) with EmptySubject in
  Ok empty_queue.

Section Queue.
Variable o : options.

(** A promise that is settled from the start. *)
Definition settled (q : queue) (p : outcome) : queue :=
  MkQueue (activeSlots q) (queueWaitCount q) (queueWaitTotalMs q) (queueWaitMaxMs q) (cancelledRequests q) (timedOutRequests q)
    (waiters q) (promises q ++ [p]) (permits q).

Definition count_cancelled (q : queue) : queue :=
  MkQueue (activeSlots q) (queueWaitCount q) (queueWaitTotalMs q) (queueWaitMaxMs q) (cancelledRequests q + 1) (timedOutRequests q)
    (waiters q) (promises q) (permits q).

Definition count_timed_out (q : queue) : queue :=
  MkQueue (activeSlots q) (queueWaitCount q) (queueWaitTotalMs q) (queueWaitMaxMs q) (cancelledRequests q) (timedOutRequests q + 1)
    (waiters q) (promises q) (permits q).

Definition with_waiters (q : queue) (ws : list waiter) : queue :=
  MkQueue (activeSlots q) (queueWaitCount q) (queueWaitTotalMs q) (queueWaitMaxMs q) (cancelledRequests q) (timedOutRequests q)
    ws (promises q) (permits q).

Definition with_slots (q : queue) (n : Z) : queue :=
  MkQueue n (queueWaitCount q) (queueWaitTotalMs q) (queueWaitMaxMs q) (cancelledRequests q) (timedOutRequests q)
    (waiters q) (promises q) (permits q).

Definition recordWait (q : queue) (w : waiter) (now : Z) : queue :=
  let waitMs := Z.max 0 (now - w_queuedAt w) in
  MkQueue (activeSlots q) (queueWaitCount q + 1) (queueWaitTotalMs q + waitMs) (Z.max (queueWaitMaxMs q) waitMs)
    (cancelledRequests q) (timedOutRequests q) (waiters q) (promises q) (permits q).

Definition resolve (q : queue) (i : nat) (p : outcome) : queue :=
  MkQueue (activeSlots q) (queueWaitCount q) (queueWaitTotalMs q) (queueWaitMaxMs q) (cancelledRequests q) (timedOutRequests q)
    (waiters q) (<[i := p]> (promises q)) (permits q).

(** [createRelease]: the permit, whose function was not called. *)
Definition createRelease (q : queue) : queue * nat :=
  (MkQueue (activeSlots q) (queueWaitCount q) (queueWaitTotalMs q) (queueWaitMaxMs q) (cancelledRequests q) (timedOutRequests q)
     (waiters q) (promises q) (permits q ++ [false]), length (permits q)).

Definition no_time (timeoutMs : delay) : bool := match timeoutMs with Millis n => n <=? 0 | NotFinite => true end.

(** The promise is the last one.  [aborted] is the reason of a signal that is aborted already,
    [signal] whether one is given. *)
Definition acquire (q : queue) (signal : bool) (aborted : option string) (timeoutMs : option delay) (now : Z) : queue :=
  match aborted with
  | Some reason => settled (count_cancelled q) (Refused (Aborted reason))
  | None =>
      if match timeoutMs with Some t => no_time t | None => false end
      then settled (count_timed_out q) (Refused (TimedOut (default NotFinite timeoutMs)))
      else if (activeSlots q <? capacity o) && bool_decide (waiters q = []) then
        let '(q, permit) := createRelease (with_slots q (activeSlots q + 1)) in settled q (Granted permit)
      else if maxQueued o <=? zlen (waiters q) then settled q (Refused QueueFull)
      else with_waiters (settled q Waiting) (waiters q ++ [MkWaiter (length (promises q)) now signal timeoutMs])
  end.

Definition releaseSlot (q : queue) (now : Z) : queue :=
  match waiters q with
  | next :: rest =>
      let '(q, permit) := createRelease (recordWait (with_waiters q rest) next now) in
      resolve q (w_promise next) (Granted permit)
  | [] => with_slots q (activeSlots q - 1)
  end.

(** A call of the release function of a permit. *)
Definition release (q : queue) (permit : nat) (now : Z) : queue :=
  match permits q !! permit with
  | Some false =>
      releaseSlot (MkQueue (activeSlots q) (queueWaitCount q) (queueWaitTotalMs q) (queueWaitMaxMs q) (cancelledRequests q) (timedOutRequests q)
                     (waiters q) (promises q) (<[permit := true]> (permits q))) now
  | _ => q
  end.

Definition find_waiter (q : queue) (i : nat) : option waiter := List.find (fun w => bool_decide (w_promise w = i)) (waiters q).

(** [cancel] of a waiter that is in the queue. *)
Definition cancel (q : queue) (w : waiter) (error : admission_error) (count : queue -> queue) (now : Z) : queue :=
  let q := recordWait (with_waiters q (List.filter (fun v => negb (bool_decide (w_promise v = w_promise w))) (waiters q))) w now in
  resolve (count q) (w_promise w) (Refused error).

Definition abort (q : queue) (i : nat) (reason : string) (now : Z) : queue :=
  match find_waiter q i with
  | Some w => if w_signal w then cancel q w (Aborted reason) count_cancelled now else q
  | None => q
  end.

Definition timeout (q : queue) (i : nat) (now : Z) : queue :=
  match find_waiter q i with
  | Some w => match w_timeoutMs w with Some ms => cancel q w (TimedOut ms) count_timed_out now | None => q end
  | None => q
  end.

End Queue.

(** * Reservations *)

Inductive reservation_error : Type := SettledBeforeStart | StartAborted (reason : string) | DeadlineExpired | TransferredTwice.

Record reservation : Type := MkReservation { transferred : bool; finalized : bool }.

Definition createCodemodeWorkerReservation : reservation := MkReservation false false.

(** Whether the release function is handed to the worker. *)
Definition acquireWorker (r : reservation) (executionSettled : bool) (aborted : option string) (remainingMs : Z) : reservation * result reservation_error unit :=
  if finalized r || executionSettled then (r, Err SettledBeforeStart)
  else
    match aborted with
    | Some reason => (r, Err (StartAborted reason))
    | None =>
        if remainingMs <=? 0 then (r, Err DeadlineExpired)
        else if transferred r then (r, Err TransferredTwice)
        else (MkReservation true (finalized r), Ok tt)
    end.

(** Whether the release function is called. *)
Definition releaseIfUntransferred (r : reservation) : reservation * bool :=
  if finalized r then (r, false) else (MkReservation (transferred r) true, negb (transferred r)).
