(* ===== verification/AdmissionProofs.v ===== *)
(** What the admission of workers promises: permits are exclusive and bounded, the queue is
    fair and loses nobody, and a reservation gives a permit back or away, once. *)

From Stdlib Require Import Sorting.Sorted.
From S2P Require Import Prelude Admission.

Open Scope Z_scope.

Inductive event : Type :=
| EAcquire (signal : bool) (aborted : option string) (timeoutMs : option delay) (now : Z)
| ERelease (permit : nat) (now : Z)
| EAbort (promise : nat) (reason : string) (now : Z)
| ETimeout (promise : nat) (now : Z).

Section Proofs.
Variable o : options.

Definition perform (q : queue) (e : event) : queue :=
  match e with
  | EAcquire signal aborted timeoutMs now => acquire o q signal aborted timeoutMs now
  | ERelease permit now => release q permit now
  | EAbort i reason now => abort q i reason now
  | ETimeout i now => timeout q i now
  end.

(** The permits whose release function was not called. *)
Definition live (ps : list bool) : Z := zlen (List.filter negb ps).

Definition refusals (P : admission_error -> bool) (ps : list outcome) : Z :=
  zlen (List.filter (fun p => match p with Refused e => P e | _ => false end) ps).

Definition is_abort (e : admission_error) : bool := match e with Aborted _ => true | _ => false end.
Definition is_timeout (e : admission_error) : bool := match e with TimedOut _ => true | _ => false end.

(** The books of the queue: the promises that wait, in order of arrival, and the owners of the
    [n] permits. *)
Record book (ps : list outcome) (ws : list nat) (n : nat) : Prop := MkBook {
  bk_sorted : StronglySorted lt ws;
  bk_waiting : forall i, ps !! i = Some Waiting <-> i ∈ ws;
  bk_permits : forall i h, ps !! i = Some (Granted h) -> (h < n)%nat;
  bk_owner : forall h, (h < n)%nat -> exists i, ps !! i = Some (Granted h);
  bk_exclusive : forall i j h, ps !! i = Some (Granted h) -> ps !! j = Some (Granted h) -> i = j;
  bk_fair : forall i h w, ps !! i = Some (Granted h) -> w ∈ ws -> (i < w)%nat;
}.

Record sound (q : queue) : Prop := MkSound {
  so_slots : activeSlots q = live (permits q);
  so_bound : activeSlots q <= capacity o;
  so_busy : waiters q <> [] -> activeSlots q = capacity o;
  so_queue : zlen (waiters q) <= maxQueued o;
  so_book : book (promises q) (map w_promise (waiters q)) (length (permits q));
  so_cancelled : cancelledRequests q = refusals is_abort (promises q);
  so_timedOut : timedOutRequests q = refusals is_timeout (promises q);
}.

(** * Counting *)

Lemma filter_insert {A : Type} (P : A -> bool) (l : list A) (i : nat) x y : l !! i = Some x ->
  zlen (List.filter P (<[i := y]> l)) = zlen (List.filter P l) - (if P x then 1 else 0) + (if P y then 1 else 0).
Proof.
  revert i. induction l as [|z l IH]; intros [|i] Hi; simpl in *; [done|done| |].
  - injection Hi as ->. destruct (P x), (P y); rewrite ?zlen_cons; lia.
  - specialize (IH i Hi). destruct (P z); rewrite ?zlen_cons; lia.
Qed.

Lemma filter_snoc {A : Type} (P : A -> bool) (l : list A) x : zlen (List.filter P (l ++ [x])) = zlen (List.filter P l) + (if P x then 1 else 0).
Proof. rewrite List.filter_app, zlen_app. simpl. by destruct (P x). Qed.

Lemma live_snoc ps : live (ps ++ [false]) = live ps + 1.
Proof. apply (filter_snoc negb ps false). Qed.

Lemma live_permit_release ps h : ps !! h = Some false -> live (<[h := true]> ps) = live ps - 1.
Proof. intros Hh. unfold live. rewrite (filter_insert negb ps h false true Hh). simpl. lia. Qed.

Lemma refusals_snoc P ps p : refusals P (ps ++ [p]) = refusals P ps + (match p with Refused e => if P e then 1 else 0 | _ => 0 end).
Proof. unfold refusals. rewrite filter_snoc. by destruct p. Qed.

Lemma refusals_resolve P ps i p : ps !! i = Some Waiting -> refusals P (<[i := p]> ps) = refusals P ps + (match p with Refused e => if P e then 1 else 0 | _ => 0 end).
Proof. intros Hi. unfold refusals. rewrite (filter_insert _ ps i Waiting p Hi). destruct p; simpl; lia. Qed.

(** * Books *)

Lemma snoc_lookup {A : Type} (l : list A) x i y : (l ++ [x]) !! i = Some y -> l !! i = Some y \/ (i = length l /\ y = x).
Proof.
  intros [?|[Hge Hi]]%lookup_app_Some; [by left|]. destruct (i - length l)%nat eqn:E; [|done]. injection Hi as <-. right. split; [lia|done].
Qed.

Lemma waiting_lt ps ws n i : book ps ws n -> i ∈ ws -> (i < length ps)%nat.
Proof. intros Hb Hi. apply (bk_waiting _ _ _ Hb) in Hi. by eapply lookup_lt_Some. Qed.

Lemma book_refuse ps ws n e : book ps ws n -> book (ps ++ [Refused e]) ws n.
Proof.
  intros [H1 H2 H3 H4 H5 H6]. split; [done|..].
  - intros i. rewrite <- H2. split; [by intros [?|[_ ?]]%snoc_lookup|apply lookup_app_l_Some].
  - intros i h [Hi|[_ ?]]%snoc_lookup; [by apply (H3 i)|done].
  - intros h Hh. destruct (H4 h Hh) as [i Hi]. exists i. by apply lookup_app_l_Some.
  - intros i j h [Hi|[_ ?]]%snoc_lookup [Hj|[_ ?]]%snoc_lookup; try done. by apply (H5 i j h).
  - intros i h w [Hi|[_ ?]]%snoc_lookup Hw; [by apply (H6 i h w)|done].
Qed.

Lemma book_wait ps ws n : book ps ws n -> book (ps ++ [Waiting]) (ws ++ [length ps]) n.
Proof.
  intros Hb. pose proof Hb as [H1 H2 H3 H4 H5 H6]. split.
  - assert (Hlt : forall i, i ∈ ws -> (i < length ps)%nat) by (intros i; by apply (waiting_lt ps ws n)). clear -H1 Hlt. induction H1 as [|w ws Hs IH Hw]; simpl; [by repeat constructor|].
    constructor; [apply IH; intros i Hi; apply Hlt; by right|]. apply Forall_app. split; [done|]. repeat constructor. apply Hlt. by left.
  - intros i. rewrite elem_of_app, <- H2, list_elem_of_singleton. split; [intros [?|[? _]]%snoc_lookup; auto|]. intros [?| ->]; [by apply lookup_app_l_Some|by rewrite list_lookup_middle].
  - intros i h [Hi|[_ ?]]%snoc_lookup; [by apply (H3 i)|done].
  - intros h Hh. destruct (H4 h Hh) as [i Hi]. exists i. by apply lookup_app_l_Some.
  - intros i j h [Hi|[_ ?]]%snoc_lookup [Hj|[_ ?]]%snoc_lookup; try done. by apply (H5 i j h).
  - intros i h w [Hi|[_ ?]]%snoc_lookup; [|done]. intros [Hw|Hw%list_elem_of_singleton]%elem_of_app; [by apply (H6 i h w)|]. subst w. by eapply lookup_lt_Some.
Qed.

Lemma book_grant ps n : book ps [] n -> book (ps ++ [Granted n]) [] (S n).
Proof.
  intros [H1 H2 H3 H4 H5 H6]. split; [done|..].
  - intros i. rewrite <- H2. split; [by intros [?|[_ ?]]%snoc_lookup|apply lookup_app_l_Some].
  - intros i h [Hi|[_ [= ->]]]%snoc_lookup; [|lia]. pose proof (H3 i h Hi). lia.
  - intros h Hh. destruct (decide (h = n)) as [->|]; [exists (length ps); by rewrite list_lookup_middle|]. destruct (H4 h) as [i Hi]; [lia|]. exists i. by apply lookup_app_l_Some.
  - intros i j h [Hi|[-> [= ->]]]%snoc_lookup [Hj|[-> Heq]]%snoc_lookup; [by apply (H5 i j h)| | |done]; [injection Heq as ->; pose proof (H3 i _ Hi)|pose proof (H3 j _ Hj)]; lia.
  - intros i h w _ []%not_elem_of_nil.
Qed.

Lemma insert_lookup (ps : list outcome) i p j y : ps !! i = Some Waiting -> <[i := p]> ps !! j = Some y -> (i <> j /\ ps !! j = Some y) \/ (i = j /\ y = p).
Proof.
  intros Hi Hj. destruct (decide (i = j)) as [<-|Hne]; [rewrite list_lookup_insert_eq in Hj by (by eapply lookup_lt_Some); injection Hj as <-; by right|].
  rewrite list_lookup_insert_ne in Hj by done. by left.
Qed.

Lemma insert_lookup_ne (ps : list outcome) i p j y : ps !! i = Some Waiting -> y <> Waiting -> ps !! j = Some y -> <[i := p]> ps !! j = Some y.
Proof. intros Hi Hy Hj. rewrite list_lookup_insert_ne; [done|]. intros ->. congruence. Qed.

Lemma book_cancel ps ws n i e : book ps ws n -> i ∈ ws -> book (<[i := Refused e]> ps) (List.filter (fun j => negb (bool_decide (j = i))) ws) n.
Proof.
  intros [H1 H2 H3 H4 H5 H6] Hw. apply H2 in Hw as Hi.
  assert (Hin : forall j, j ∈ List.filter (fun j => negb (bool_decide (j = i))) ws <-> j ∈ ws /\ j <> i).
  { intros j. rewrite !list_elem_of_In, filter_In, negb_true_iff, bool_decide_eq_false. done. }
  split.
  - clear -H1. induction H1 as [|w ws Hs IH Hw]; simpl; [constructor|]. destruct (negb _); [|done]. constructor; [done|].
    rewrite Forall_forall in Hw |- *. intros j [Hj _]%list_elem_of_In%filter_In. apply Hw. by apply list_elem_of_In.
  - intros j. rewrite Hin, <- H2. split; [intros [[? ?]|[_ ?]]%(insert_lookup _ _ _ _ _ Hi); [by split; [|congruence]|done]|]. intros [? ?]. by rewrite list_lookup_insert_ne.
  - intros j h [[_ Hj]|[_ ?]]%(insert_lookup _ _ _ _ _ Hi); [by apply (H3 j)|done].
  - intros h Hh. destruct (H4 h Hh) as [j Hj]. exists j. by apply insert_lookup_ne.
  - intros j k h [[_ Hj]|[_ ?]]%(insert_lookup _ _ _ _ _ Hi) [[_ Hk]|[_ ?]]%(insert_lookup _ _ _ _ _ Hi); try done. by apply (H5 j k h).
  - intros j h w [[_ Hj]|[_ ?]]%(insert_lookup _ _ _ _ _ Hi) [Hk _]%Hin; [by apply (H6 j h w)|done].
Qed.

Lemma book_next ps i ws n : book ps (i :: ws) n -> book (<[i := Granted n]> ps) ws (S n).
Proof.
  intros [H1 H2 H3 H4 H5 H6]. apply StronglySorted_inv in H1 as [H1 Hlt]. rewrite Forall_forall in Hlt. assert (Hi : ps !! i = Some Waiting) by (apply H2; by left).
  split; [done|..].
  - intros j. split.
    + intros [[? Hj]|[_ ?]]%(insert_lookup _ _ _ _ _ Hi); [|done]. apply H2 in Hj. by apply elem_of_cons in Hj as [->|].
    + intros Hj. specialize (Hlt j Hj). rewrite list_lookup_insert_ne by lia. apply H2. by right.
  - intros j h [[_ Hj]|[_ [= ->]]]%(insert_lookup _ _ _ _ _ Hi); [|lia]. pose proof (H3 j h Hj). lia.
  - intros h Hh. destruct (decide (h = n)) as [->|]; [exists i; by rewrite list_lookup_insert_eq by (by eapply lookup_lt_Some)|].
    destruct (H4 h) as [j Hj]; [lia|]. exists j. by apply insert_lookup_ne.
  - intros j k h [[_ Hj]|[<- [= ->]]]%(insert_lookup _ _ _ _ _ Hi) [[_ Hk]|[<- Heq]]%(insert_lookup _ _ _ _ _ Hi); [by apply (H5 j k h)| | |done];
      [injection Heq as ->; pose proof (H3 j _ Hj)|pose proof (H3 k _ Hk)]; lia.
  - intros j h w [[_ Hj]|[<- _]]%(insert_lookup _ _ _ _ _ Hi) Hw; [by apply (H6 j h w); [|right]|by apply Hlt].
Qed.

(** * The queue *)

Lemma acquire_sound q signal aborted timeoutMs now : sound q -> sound (acquire o q signal aborted timeoutMs now).
Proof.
  intros Hs. pose proof Hs as [H1 H2 H3 H4 H5 H6 H7]. unfold acquire. destruct aborted; [|destruct (match timeoutMs with Some _ => _ | _ => _ end) eqn:Et].
  - split; simpl; try done; [by apply book_refuse|rewrite refusals_snoc; simpl; lia|rewrite refusals_snoc; simpl; lia].
  - split; simpl; try done; [by apply book_refuse|rewrite refusals_snoc; simpl; lia|rewrite refusals_snoc; simpl; lia].
  - destruct ((activeSlots q <? capacity o) && bool_decide (waiters q = [])) eqn:Eg.
    + apply andb_true_iff in Eg as [Hlt%Z.ltb_lt Hw%bool_decide_eq_true]. rewrite Hw in H4, H5. split; simpl; rewrite ?refusals_snoc, ?live_snoc, ?Hw; simpl; try done; try lia.
      rewrite length_app, Nat.add_1_r. by apply book_grant.
    + destruct (Z.leb_spec (maxQueued o) (zlen (waiters q))).
      * split; simpl; try done; [by apply book_refuse|rewrite refusals_snoc; simpl; lia|rewrite refusals_snoc; simpl; lia].
      * assert (activeSlots q = capacity o).
        { apply andb_false_iff in Eg as [Hge%Z.ltb_ge|Hw%bool_decide_eq_false]; [lia|by apply H3]. }
        split; simpl; rewrite ?refusals_snoc; simpl; try done; try lia; [rewrite zlen_app; unfold zlen at 2; simpl; lia|rewrite map_app; by apply book_wait].
Qed.

Lemma release_sound q h now : sound q -> sound (release q h now).
Proof.
  intros Hs. pose proof Hs as [H1 H2 H3 H4 H5 H6 H7]. unfold release. destruct (permits q !! h) as [[|]|] eqn:Eh; [done| |done].
  pose proof (live_permit_release _ _ Eh) as Hl. unfold releaseSlot. simpl. destruct (waiters q) as [|w ws] eqn:Ew; simpl.
  - split; simpl; rewrite ?length_insert; simpl; try done; lia.
  - simpl in H5. assert (Hwait : promises q !! w_promise w = Some Waiting) by (apply (bk_waiting _ _ _ H5); by left).
    specialize (H3 ltac:(done)). rewrite zlen_cons in H4. split; simpl; rewrite ?(refusals_resolve _ _ _ _ Hwait), ?live_snoc, ?length_app, ?length_insert, ?Nat.add_1_r; simpl; try done; try lia.
    by apply book_next.
Qed.

Lemma find_waiter_in q i w : find_waiter q i = Some w -> w ∈ waiters q /\ w_promise w = i.
Proof. unfold find_waiter. intros [Hin Hb%bool_decide_eq_true]%find_some. split; [by apply list_elem_of_In|done]. Qed.

Lemma cancel_waiters w ws : map w_promise (List.filter (fun v => negb (bool_decide (w_promise v = w_promise w))) ws) =
  List.filter (fun j => negb (bool_decide (j = w_promise w))) (map w_promise ws).
Proof. induction ws as [|v ws IH]; simpl; [done|]. destruct (negb _); simpl; by rewrite IH. Qed.

Lemma zlen_filter_le {A : Type} (P : A -> bool) l : zlen (List.filter P l) <= zlen l.
Proof. induction l as [|x l IH]; simpl; [done|]. destruct (P x); rewrite ?zlen_cons; lia. Qed.

Lemma cancel_sound q i w e count now : sound q -> find_waiter q i = Some w ->
  (is_abort e = true /\ is_timeout e = false /\ count = count_cancelled \/ is_abort e = false /\ is_timeout e = true /\ count = count_timed_out) ->
  sound (cancel q w e count now).
Proof.
  intros [H1 H2 H3 H4 H5 H6 H7] [Hin _]%find_waiter_in Hcount.
  assert (Hb : w_promise w ∈ map w_promise (waiters q)) by (apply list_elem_of_In, in_map; by apply list_elem_of_In). apply (bk_waiting _ _ _ H5) in Hb as Hwait.
  pose proof (zlen_filter_le (fun v => negb (bool_decide (w_promise v = w_promise w))) (waiters q)).
  assert (Hne : List.filter (fun v => negb (bool_decide (w_promise v = w_promise w))) (waiters q) <> [] -> activeSlots q = capacity o).
  { intros Hf. apply H3. intros Hnil. by rewrite Hnil in Hf. }
  pose proof (book_cancel _ _ _ _ e H5 Hb) as Hbook. rewrite <- cancel_waiters in Hbook.
  destruct Hcount as [(Ea & Et & ->)|(Ea & Et & ->)]; split; simpl; rewrite ?(refusals_resolve _ _ _ _ Hwait), ?Ea, ?Et; try done; simpl; lia.
Qed.

Lemma perform_fair q e : sound q -> sound (perform q e).
Proof.
  intros Hs. destruct e; simpl; [by apply acquire_sound|by apply release_sound| |].
  - unfold abort. destruct (find_waiter _ _) as [w|] eqn:E; [|done]. destruct (w_signal w); [|done]. eapply cancel_sound; [done|done|]. by left.
  - unfold timeout. destruct (find_waiter _ _) as [w|] eqn:E; [|done]. destruct (w_timeoutMs w); [|done]. eapply cancel_sound; [done|done|]. by right.
Qed.

Lemma empty_sound q : new_queue o = Ok q -> sound q.
Proof.
  unfold new_queue. destruct (Z.ltb_spec (capacity o) 1); [done|]. destruct (Z.ltb_spec (maxQueued o) 0); [done|]. destruct (forallb _ _); [done|]. intros [= <-].
  split; simpl; try done; try lia; try (unfold zlen; simpl; lia). split; try done; [constructor|intros i; by split; [|intros ?%not_elem_of_nil]|intros h Hh; lia].
Qed.

Lemma performed_sound q events : new_queue o = Ok q -> sound (foldl perform q events).
Proof.
  intros Hq%empty_sound. revert q Hq. induction events as [|e es IH]; intros q Hq; simpl; [done|]. apply IH. by apply perform_fair.
Qed.

(** * What a release does *)

Lemma release_next q h w ws now : permits q !! h = Some false -> waiters q = w :: ws ->
  promises (release q h now) = <[w_promise w := Granted (length (permits q))]> (promises q) /\ activeSlots (release q h now) = activeSlots q /\ waiters (release q h now) = ws.
Proof. intros Hh Hw. unfold release. rewrite Hh. unfold releaseSlot. simpl. rewrite Hw. simpl. by rewrite length_insert. Qed.

Lemma release_again q h now now' : release (release q h now) h now' = release q h now.
Proof.
  unfold release at 2 3. destruct (permits q !! h) as [[|]|] eqn:Eh; [by unfold release; rewrite Eh| |by unfold release; rewrite Eh].
  assert (Hl : (h < length (permits q))%nat) by (by eapply lookup_lt_Some). unfold release, releaseSlot. simpl. destruct (waiters q); simpl.
  - by rewrite list_lookup_insert_eq.
  - rewrite lookup_app_l by (by rewrite length_insert). by rewrite list_lookup_insert_eq.
Qed.

(** A promise that is settled is never settled again. *)
Lemma perform_keeps q e i p : sound q -> promises q !! i = Some p -> p <> Waiting -> promises (perform q e) !! i = Some p.
Proof.
  intros Hs Hi Hp. assert (Hw : forall w, w ∈ waiters q -> w_promise w <> i).
  { intros w Hin <-. apply Hp. assert (promises q !! w_promise w = Some Waiting); [|congruence].
    apply (bk_waiting _ _ _ (so_book _ Hs)), list_elem_of_In, in_map. by apply list_elem_of_In. }
  assert (Hc : forall w e' count now, w ∈ waiters q -> (forall q, promises (count q) = promises q) -> promises (cancel q w e' count now) !! i = Some p).
  { intros w e' count now Hin Hcount. unfold cancel. simpl. rewrite Hcount. simpl. rewrite list_lookup_insert_ne; [done|by apply Hw]. }
  destruct e; simpl.
  - unfold acquire, createRelease. simpl. repeat case_match; simpl; by apply lookup_app_l_Some.
  - unfold release, releaseSlot. destruct (permits q !! permit) as [[|]|]; [done| |done]. simpl. destruct (waiters q) as [|w ws] eqn:Ew; simpl; [done|].
    rewrite list_lookup_insert_ne; [done|]. apply Hw. by left.
  - unfold abort. destruct (find_waiter _ _) as [w|] eqn:E; [|done]. apply find_waiter_in in E as [Hin _]. destruct (w_signal w); [|done]. by apply Hc.
  - unfold timeout. destruct (find_waiter _ _) as [w|] eqn:E; [|done]. apply find_waiter_in in E as [Hin _]. destruct (w_timeoutMs w); [|done]. by apply Hc.
Qed.

(** C27: after any acquisitions, releases, repeated releases, aborts and timeouts: the slots in
    use are the permits not yet released, never more than the capacity, and every permit has
    exactly one owner; a request waits only while every slot is in use, and at most
    [maxQueued] do; the promises that wait are those of the queue, in order of arrival, and no
    later request has a permit; releasing a permit passes it to the oldest waiter, or frees
    the slot, and releasing it again does nothing; a settled promise is never settled again;
    the two counters are the numbers of refusals by abort and by timeout. *)
Theorem permits_are_exclusive_and_fair q0 events : new_queue o = Ok q0 ->
  let q := foldl perform q0 events in
  (activeSlots q = live (permits q) /\ 0 <= activeSlots q <= capacity o) /\
  (forall h, (h < length (permits q))%nat <-> exists! i, promises q !! i = Some (Granted h)) /\
  (waiters q <> [] -> activeSlots q = capacity o) /\ zlen (waiters q) <= maxQueued o /\
  (StronglySorted lt (map w_promise (waiters q)) /\ forall i, promises q !! i = Some Waiting <-> i ∈ map w_promise (waiters q)) /\
  (forall i j h, promises q !! i = Some (Granted h) -> promises q !! j = Some Waiting -> (i < j)%nat) /\
  (forall h now, permits q !! h = Some false -> forall w ws, waiters q = w :: ws ->
     promises (release q h now) !! w_promise w = Some (Granted (length (permits q))) /\ activeSlots (release q h now) = activeSlots q /\ waiters (release q h now) = ws) /\
  (forall h now now', release (release q h now) h now' = release q h now) /\
  (forall e i p, promises q !! i = Some p -> p <> Waiting -> promises (perform q e) !! i = Some p) /\
  cancelledRequests q = refusals is_abort (promises q) /\ timedOutRequests q = refusals is_timeout (promises q).
Proof.
  intros Hnew q. assert (Hs : sound q) by (by apply performed_sound). pose proof Hs as [H1 H2 H3 H4 [B1 B2 B3 B4 B5 B6] H6 H7].
  split_and!; try done; [rewrite H1; apply zlen_nonneg| | | | |].
  - intros h. split; [|by intros (i & Hi & _); apply (B3 i)]. intros (i & Hi)%B4. exists i. split; [done|]. intros j Hj. by apply (B5 i j h).
  - intros i j h Hi Hj%B2. apply list_elem_of_In, in_map_iff in Hj as (w & <- & Hw). apply (B6 i h); [done|]. by apply list_elem_of_In, in_map.
  - intros h now Hh w ws Hw. destruct (release_next q h w ws now Hh Hw) as (-> & ? & ?). split; [|done]. rewrite list_lookup_insert_eq; [done|].
    eapply lookup_lt_Some, B2. rewrite Hw. by left.
  - intros h now now'. apply release_again.
  - intros e i p. by apply perform_keeps.
Qed.

End Proofs.

(** One slot: the second request waits, the third is refused by its timer, and the release of
    the first permit serves the second. *)
Lemma permits_are_exclusive_and_fair_witness :
  let o := MkOptions 1 2 "Codemode worker" in
  let q := foldl (perform o) empty_queue [EAcquire false None None 0; EAcquire true None None 1; EAcquire false None (Some (Millis 5)) 2; ETimeout 2 7; ERelease 0 9] in
  promises q = [Granted 0; Granted 1; Refused (TimedOut (Millis 5))] /\ activeSlots q = live (permits q).
Proof.
  intros o q. split; [by vm_compute|].
  exact (proj1 (proj1 (permits_are_exclusive_and_fair o empty_queue [EAcquire false None None 0; EAcquire true None None 1; EAcquire false None (Some (Millis 5)) 2; ETimeout 2 7; ERelease 0 9] eq_refl))).
Defined.

(** * Reservations *)

(** The uses of a reservation, and whether each takes the release function: the worker that
    gets it, or the call that runs it. *)
Inductive use : Type :=
| UAcquire (executionSettled : bool) (aborted : option string) (remainingMs : Z)
| URelease.

Definition apply_use (r : reservation) (u : use) : reservation * bool :=
  match u with
  | UAcquire settled aborted remaining => let '(r, a) := acquireWorker r settled aborted remaining in (r, is_ok a)
  | URelease => releaseIfUntransferred r
  end.

Fixpoint takers (r : reservation) (us : list use) : list use :=
  match us with
  | [] => []
  | u :: us => let '(r, taken) := apply_use r u in if taken then u :: takers r us else takers r us
  end.

Lemma takers_done r us : transferred r || finalized r = true -> takers r us = [].
Proof.
  revert r. induction us as [|u us IH]; intros r Hr; simpl; [done|]. destruct u as [settled aborted remaining|]; simpl.
  - unfold acquireWorker. destruct (finalized r) eqn:Ef; simpl; [apply IH; by rewrite Ef, orb_true_r|]. rewrite orb_false_r in Hr.
    destruct settled; simpl; [apply IH; by rewrite Hr|]. destruct aborted; [apply IH; by rewrite Hr|]. destruct (remaining <=? 0); [apply IH; by rewrite Hr|].
    rewrite Hr. apply IH. by rewrite Hr.
  - unfold releaseIfUntransferred. destruct (finalized r) eqn:Ef; [apply IH; by rewrite Ef, orb_true_r|]. rewrite orb_false_r in Hr. rewrite Hr. simpl. by apply IH.
Qed.

(** An admitted permit is handed to one worker or given back by the reservation, never both
    and never twice, and a reservation that is finalised has done one of the two. *)
Lemma reservation_is_linear us : (length (takers createCodemodeWorkerReservation us) <= 1)%nat /\
  (URelease ∈ us -> length (takers createCodemodeWorkerReservation us) = 1%nat).
Proof.
  assert (Hall : forall r, transferred r = false -> finalized r = false -> (length (takers r us) <= 1)%nat /\ (URelease ∈ us -> length (takers r us) = 1%nat)); [|by apply Hall].
  induction us as [|u us IH]; intros r Ht Hf; simpl; [split; [lia|by intros ?%not_elem_of_nil]|]. destruct u as [settled aborted remaining|]; simpl.
  - unfold acquireWorker. rewrite Hf, Ht. simpl.
    assert (Hskip : (length (takers r us) <= 1)%nat /\ (URelease ∈ UAcquire settled aborted remaining :: us -> length (takers r us) = 1%nat)).
    { destruct (IH r Ht Hf) as [H1 H2]. split; [done|]. intros [?|?]%elem_of_cons; [done|by apply H2]. }
    destruct settled; [done|]. destruct aborted; [done|]. destruct (remaining <=? 0); [done|]. simpl. rewrite takers_done by done. split; [simpl; lia|done].
  - unfold releaseIfUntransferred. rewrite Hf, Ht. simpl. rewrite takers_done by done. split; [simpl; lia|done].
Qed.
