(* ===== verification/Proposals.v ===== *)
(** Reviewable proposals: their validation (protocol/src/domain-proposal.ts) and the ledger in
    which they are accepted, committed and undone ([DomainProposalLedger] of
    agent-core/src/proposals/domain-proposal-ledger.ts).

    Modelling choices: patches are values without sharing, on which [cloneValue] is the
    identity; revisions and readings of the clock are integers; the asynchronous methods
    [commit] and [undo] are cut at their [await]: the first part returns the arguments of the
    callback, the second one takes its outcome.  A proposal object is never replaced in the
    map, so a suspended call finds it by its identifier.  Some checks fail after a part of the
    object was written, so every method returns the ledger also with an error. *)

From S2P Require Import Prelude JsValue.

Local Open Scope Z_scope.

(** * Proposals *)

Inductive proposal_error : Type :=
| EmptyIdentifier
| BadBaseRevision
| BadTarget
| PatchRequired
| BadEvidence
| NotAString. (* a [TypeError] of the engine *)

(** [!value.trim()]. *)
Definition trims_empty (v : jsv) : result proposal_error bool :=
  match v with VStr s => Ok (blank s) | _ => Err NotAString end.

(** [!value?.trim()]. *)
Definition trims_empty_opt (v : jsv) : result proposal_error bool :=
  match v with VUndef | VNull => Ok true | _ => trims_empty v end.

Definition is_undefined (v : jsv) : bool := match v with VUndef => true | _ => false end.

Definition non_negative_integer (v : jsv) : bool := match v with VNum n => 0 <=? n | _ => false end.

Definition validateDomainProposal (proposal : jsv) : result proposal_error unit :=
  let* no_id := trims_empty (prop proposal "id") in
  let* no_task := (if no_id then Ok true else trims_empty (prop proposal "taskId")) in
  throw_if no_task with EmptyIdentifier in
  throw_if negb (non_negative_integer (prop proposal "baseRevision")) with BadBaseRevision in
  let* no_type := trims_empty_opt (prop (prop proposal "target") "type") in
  let* no_target := (if no_type then Ok true else trims_empty_opt (prop (prop proposal "target") "id")) in
  throw_if no_target with BadTarget in
  throw_if negb (match prop proposal "operation" with VStr o => bool_decide (o = "delete") | _ => false end) && is_undefined (prop proposal "patch") with PatchRequired in
  throw_if js_truthy (prop proposal "evidence") && negb (match prop proposal "evidence" with VArr _ => true | _ => false end) with BadEvidence in
  Ok tt.

Inductive operation : Type := Create | Update | Delete.

Inductive status : Type := Pending | Accepted | Rejected | Stale | Committed | Undone.

#[export] Instance operation_eq_dec : EqDecision operation.
Proof. solve_decision. Defined.
#[export] Instance status_eq_dec : EqDecision status.
Proof. solve_decision. Defined.

Record domain_proposal : Type := MkProposal {
  d_id : string; d_taskId : string; d_baseRevision : Z; d_sourceHash : option string; d_target : string * string;
  d_operation : operation; d_patch : jsv; d_evidence : jsv; d_reason : option string }.

Record proposal_record : Type := MkRecord {
  r_proposal : domain_proposal; r_status : status; r_createdAt : Z; r_updatedAt : Z;
  r_committedRevision : option Z; r_inversePatch : jsv }.

(** * Proposals as values *)

Definition operation_name (o : operation) : string := match o with Create => "create" | Update => "update" | Delete => "delete" end.

Definition status_name (s : status) : string :=
  match s with
  | Pending => "pending" | Accepted => "accepted" | Rejected => "rejected" | Stale => "stale" | Committed => "committed" | Undone => "undone"
  end.

(** A property that is [undefined] is left out, as in the JSON text of the object. *)
Definition field (key : string) (v : jsv) : list (string * jsv) := match v with VUndef => [] | _ => [(key, v)] end.

Definition opt_str (s : option string) : jsv := match s with Some s => VStr s | None => VUndef end.
Definition opt_num (n : option Z) : jsv := match n with Some n => VNum n | None => VUndef end.

Definition proposal_fields (d : domain_proposal) : list (string * jsv) :=
  [("id", VStr (d_id d)); ("taskId", VStr (d_taskId d)); ("baseRevision", VNum (d_baseRevision d))] ++
  field "sourceHash" (opt_str (d_sourceHash d)) ++
  [("target", VObj [("type", VStr (fst (d_target d))); ("id", VStr (snd (d_target d)))]); ("operation", VStr (operation_name (d_operation d)))] ++
  field "patch" (d_patch d) ++ field "evidence" (d_evidence d) ++ field "reason" (opt_str (d_reason d)).

Definition proposal_value (d : domain_proposal) : jsv := VObj (proposal_fields d).

Definition record_value (r : proposal_record) : jsv :=
  VObj (proposal_fields (r_proposal r) ++
        [("status", VStr (status_name (r_status r))); ("createdAt", VNum (r_createdAt r)); ("updatedAt", VNum (r_updatedAt r))] ++
        field "committedRevision" (opt_num (r_committedRevision r)) ++ field "inversePatch" (r_inversePatch r)).

(** * The ledger *)

Inductive ledger_error : Type :=
| Invalid (why : proposal_error)
| AlreadyExists
| UnknownProposal
| NotPending
| CannotModify
| BadRevision
| CannotRebase
| NotAccepted
| Conflict (expected actual : Z) (* [ProposalConflictError] *)
| HashMismatch
| AlreadyCommitting
| NotCommitted
| NoInversePatch
| CallbackFailed.

(** How a callback fails: with a conflict of revisions, or otherwise. *)
Inductive failure : Type :=
| FConflict (expected actual : Z)
| FOther.

Record ledger : Type := MkLedger { proposals : list (string * proposal_record); committing : gset string }.

Definition new_ledger : ledger := MkLedger [] ∅.

Definition require (l : ledger) (proposalId : string) : option proposal_record := assoc_get (proposals l) proposalId.

Definition update (l : ledger) (proposalId : string) (r : proposal_record) : ledger := MkLedger (assoc_set (proposals l) proposalId r) (committing l).

Definition with_status (r : proposal_record) (s : status) (now : Z) : proposal_record :=
  MkRecord (r_proposal r) s (r_createdAt r) now (r_committedRevision r) (r_inversePatch r).

Definition touch (r : proposal_record) (now : Z) : proposal_record := with_status r (r_status r) now.

Definition with_proposal (r : proposal_record) (d : domain_proposal) : proposal_record :=
  MkRecord d (r_status r) (r_createdAt r) (r_updatedAt r) (r_committedRevision r) (r_inversePatch r).

Definition create (l : ledger) (proposal : domain_proposal) (createdAt : Z) : ledger * result ledger_error proposal_record :=
  match validateDomainProposal (proposal_value proposal) with
  | Err why => (l, Err (Invalid why))
  | Ok _ =>
      if bool_decide (is_Some (require l (d_id proposal))) then (l, Err AlreadyExists)
      else
        let stored := MkRecord proposal Pending createdAt createdAt None VUndef in
        (update l (d_id proposal) stored, Ok stored)
  end.

Definition get (l : ledger) (proposalId : string) : option proposal_record := require l proposalId.

Definition list_proposals (l : ledger) (target : option (string * string)) : list proposal_record :=
  List.filter (fun r => match target with Some t => bool_decide (d_target (r_proposal r) = t) | None => true end) (map snd (proposals l)).

(** [accept] and [reject]. *)
Definition decide_pending (s : status) (l : ledger) (now : Z) (proposalId : string) : ledger * result ledger_error proposal_record :=
  match require l proposalId with
  | None => (l, Err UnknownProposal)
  | Some r =>
      if negb (bool_decide (r_status r = Pending)) then (l, Err NotPending)
      else let r := with_status r s now in (update l proposalId r, Ok r)
  end.

Definition accept : ledger -> Z -> string -> ledger * result ledger_error proposal_record := decide_pending Accepted.
Definition reject : ledger -> Z -> string -> ledger * result ledger_error proposal_record := decide_pending Rejected.

Record change : Type := MkChange { ch_patch : jsv; ch_reason : option string; ch_baseRevision : option Z; ch_sourceHash : option string }.

(** The assignments of [modify] before the revision. *)
Definition changed (d : domain_proposal) (c : change) : domain_proposal :=
  MkProposal (d_id d) (d_taskId d) (d_baseRevision d)
    (match ch_sourceHash c with Some h => Some h | None => d_sourceHash d end) (d_target d) (d_operation d)
    (match ch_patch c with VUndef => d_patch d | p => p end) (d_evidence d)
    (match ch_reason c with Some s => Some s | None => d_reason d end).

Definition with_base (d : domain_proposal) (revision : Z) : domain_proposal :=
  MkProposal (d_id d) (d_taskId d) revision (d_sourceHash d) (d_target d) (d_operation d) (d_patch d) (d_evidence d) (d_reason d).

(** The last lines of [modify] and [rebase], on the object as it was written so far. *)
Definition validate_and_reopen (l : ledger) (now : Z) (proposalId : string) (r : proposal_record) : ledger * result ledger_error proposal_record :=
  match validateDomainProposal (proposal_value (r_proposal r)) with
  | Err why => (update l proposalId r, Err (Invalid why))
  | Ok _ => let r := with_status r Pending now in (update l proposalId r, Ok r)
  end.

Definition modify (l : ledger) (now : Z) (proposalId : string) (c : change) : ledger * result ledger_error proposal_record :=
  match require l proposalId with
  | None => (l, Err UnknownProposal)
  | Some r =>
      if bool_decide (r_status r = Committed) || bool_decide (r_status r = Undone) then (l, Err CannotModify)
      else
        let d := changed (r_proposal r) c in
        match ch_baseRevision c with
        | Some n =>
            if n <? 0 then (update l proposalId (with_proposal r d), Err BadRevision)
            else validate_and_reopen l now proposalId (with_proposal r (with_base d n))
        | None => validate_and_reopen l now proposalId (with_proposal r d)
        end
  end.

Definition rebased (d : domain_proposal) (patch : jsv) (revision : Z) (sourceHash : option string) : domain_proposal :=
  MkProposal (d_id d) (d_taskId d) revision sourceHash (d_target d) (d_operation d) patch (d_evidence d) (d_reason d).

(** [transform] is [None] when the callback throws. *)
Definition rebase (l : ledger) (now : Z) (proposalId : string) (currentRevision : Z) (transform : jsv -> option jsv) (currentSourceHash : option string) : ledger * result ledger_error proposal_record :=
  match require l proposalId with
  | None => (l, Err UnknownProposal)
  | Some r =>
      if negb (bool_decide (r_status r = Pending) || bool_decide (r_status r = Accepted) || bool_decide (r_status r = Stale)) then (l, Err CannotRebase)
      else if currentRevision <? 0 then (l, Err BadRevision)
      else
        match transform (d_patch (r_proposal r)) with
        | None => (l, Err CallbackFailed)
        | Some patch => validate_and_reopen l now proposalId (with_proposal r (rebased (r_proposal r) patch currentRevision currentSourceHash))
        end
  end.

(** * Committing *)

(** [assertCurrent]: [None] when the proposal is current. *)
Definition assertCurrent (r : proposal_record) (revision : Z) (sourceHash : option string) : option (bool * ledger_error) :=
  if revision <? 0 then Some (false, BadRevision)
  else if negb (revision =? d_baseRevision (r_proposal r)) then Some (true, Conflict (d_baseRevision (r_proposal r)) revision)
  else
    match sourceHash, d_sourceHash (r_proposal r) with
    | Some h, Some h' => if bool_decide (h = h') then None else Some (true, HashMismatch)
    | _, _ => None
    end.

Record receipt : Type := MkReceipt {
  re_proposalId : string; re_target : string * string; re_operation : operation; re_patch : jsv; re_inversePatch : jsv; re_revision : Z }.

Definition make_receipt (r : proposal_record) (revision : Z) (patch inversePatch : jsv) : receipt :=
  MkReceipt (d_id (r_proposal r)) (d_target (r_proposal r)) (d_operation (r_proposal r)) patch inversePatch revision.

(** [commit] up to its [await]: the patch and the next revision given to the callback. *)
Definition commit_start (l : ledger) (now : Z) (proposalId : string) (currentRevision : Z) (currentSourceHash : option string) : ledger * result ledger_error (jsv * Z) :=
  match require l proposalId with
  | None => (l, Err UnknownProposal)
  | Some r =>
      if negb (bool_decide (r_status r = Accepted)) then (l, Err NotAccepted)
      else
        match assertCurrent r currentRevision currentSourceHash with
        | Some (true, e) => (update l proposalId (with_status r Stale now), Err e)
        | Some (false, e) => (l, Err e)
        | None =>
            if bool_decide (proposalId ∈ committing l) then (l, Err AlreadyCommitting)
            else (MkLedger (proposals l) ({[proposalId]} ∪ committing l), Ok (d_patch (r_proposal r), currentRevision + 1))
        end
  end.

Definition failed_status (f : failure) (s : status) : status := match f with FConflict _ _ => Stale | FOther => s end.
Definition failure_error (f : failure) : ledger_error := match f with FConflict e a => Conflict e a | FOther => CallbackFailed end.

(** [commit] from its [await]; the outcome of the callback is its inverse patch. *)
Definition commit_finish (l : ledger) (now : Z) (proposalId : string) (nextRevision : Z) (outcome : result failure jsv) : ledger * result ledger_error receipt :=
  let l := MkLedger (proposals l) (committing l ∖ {[proposalId]}) in
  match require l proposalId with
  | None => (l, Err UnknownProposal)
  | Some r =>
      match outcome with
      | Err f => (update l proposalId (with_status r (failed_status f (r_status r)) now), Err (failure_error f))
      | Ok inversePatch =>
          let r := MkRecord (r_proposal r) Committed (r_createdAt r) now (Some nextRevision) inversePatch in
          (update l proposalId r, Ok (make_receipt r nextRevision (d_patch (r_proposal r)) inversePatch))
      end
  end.

(** The input of the adapter's [commit]. *)
Record commit_input : Type := MkCommitInput { ci_proposal : proposal_record; ci_expectedRevision : Z; ci_expectedSourceHash : option string; ci_nextRevision : Z }.

Definition commitWithAdapter_start (l : ledger) (now : Z) (proposalId : string) (currentRevision : Z) (currentSourceHash : option string) : ledger * result ledger_error commit_input :=
  match commit_start l now proposalId currentRevision currentSourceHash with
  | (l, Err e) => (l, Err e)
  | (l, Ok (_, next)) =>
      match require l proposalId with
      | Some r => (l, Ok (MkCommitInput r currentRevision currentSourceHash next))
      | None => (l, Err UnknownProposal)
      end
  end.

(** * Undoing *)

(** [undo] up to its [await]. *)
Definition undo_start (l : ledger) (now : Z) (proposalId : string) (currentRevision : Z) : ledger * result ledger_error (jsv * Z) :=
  match require l proposalId with
  | None => (l, Err UnknownProposal)
  | Some r =>
      if negb (bool_decide (r_status r = Committed)) then (l, Err NotCommitted)
      else if is_undefined (r_inversePatch r) then (l, Err NoInversePatch)
      else
        let committedRevision := default currentRevision (r_committedRevision r) in
        if negb (currentRevision =? committedRevision)
        then (update l proposalId (with_status r Stale now), Err (Conflict committedRevision currentRevision))
        else (l, Ok (r_inversePatch r, currentRevision + 1))
  end.

(** [undo] from its [await]. *)
Definition undo_finish (l : ledger) (now : Z) (proposalId : string) (nextRevision : Z) (outcome : result failure unit) : ledger * result ledger_error receipt :=
  match require l proposalId with
  | None => (l, Err UnknownProposal)
  | Some r =>
      match outcome with
      | Err f => (update l proposalId (with_status r (failed_status f (r_status r)) now), Err (failure_error f))
      | Ok _ => let r := with_status r Undone now in (update l proposalId r, Ok (make_receipt r nextRevision (r_inversePatch r) VUndef))
      end
  end.

(** The input of the adapter's [undo]. *)
Record undo_input : Type := MkUndoInput { ui_proposal : proposal_record; ui_patch : jsv; ui_expectedRevision : Z; ui_nextRevision : Z }.

Definition undoWithAdapter_start (l : ledger) (now : Z) (proposalId : string) (currentRevision : Z) : ledger * result ledger_error undo_input :=
  match undo_start l now proposalId currentRevision with
  | (l, Err e) => (l, Err e)
  | (l, Ok (patch, next)) =>
      match require l proposalId with
      | Some r => (l, Ok (MkUndoInput r patch currentRevision next))
      | None => (l, Err UnknownProposal)
      end
  end.
