(* ===== verification/ProposalRuns.v ===== *)
(** A desktop that reviews proposals: the ledger of [Proposals], an authoritative store behind
    its adapter, and the calls of [commit] and [undo] that wait for the adapter, interleaved in
    any order with decisions, modifications and the store's own writes. *)

From S2P Require Import Prelude JsValue Proposals.

Local Open Scope Z_scope.

(** * The authoritative store *)

(** What [DomainProposalCommitAdapter] gives the ledger: writes that check the expected
    revision. *)
Class DomainStore (S C : Type) : Type := {
  revision : S -> Z;
  content : S -> C;
  commit_on : S -> Z -> Z -> jsv -> S * result failure jsv;
  undo_on : S -> Z -> Z -> jsv -> S * result failure unit;
}.

(** The contract of the adapter: the revision is compared and advanced atomically, a failure
    writes nothing, and the inverse of a patch, applied to what the patch made, restores what
    it was applied to. *)
Class DomainStoreLaws (S C : Type) `{DomainStore S C} : Prop := {
  commit_cas s e n p s' inv : commit_on s e n p = (s', Ok inv) -> revision s = e /\ revision s' = n;
  commit_failed s e n p s' f : commit_on s e n p = (s', Err f) -> s' = s;
  undo_cas s e n p s' u : undo_on s e n p = (s', Ok u) -> revision s = e /\ revision s' = n;
  undo_failed s e n p s' f : undo_on s e n p = (s', Err f) -> s' = s;
  undo_inverts s e n p s1 inv s2 e2 n2 s3 u :
    commit_on s e n p = (s1, Ok inv) -> content s2 = content s1 -> undo_on s2 e2 n2 inv = (s3, Ok u) -> content s3 = content s;
}.

(** * Worlds *)

(** A call of [commitWithAdapter] or [undoWithAdapter] at its [await]. *)
Record suspended : Type := MkCall {
  k_undo : bool; k_id : string; k_patch : jsv; k_expected : Z; k_next : Z; k_outcome : option (result failure jsv) }.

Definition answered (k : suspended) (o : result failure jsv) : suspended :=
  MkCall (k_undo k) (k_id k) (k_patch k) (k_expected k) (k_next k) (Some o).

Inductive log_entry : Type :=
| LAccepted (id : string) (d : domain_proposal) (* as the reviewer accepted it *)
| LApplied (id : string) (patch : jsv) (next : Z). (* a commit gave it to the adapter *)

Section Worlds.
Context {S C : Type} `{DomainStore S C}.

Record world : Type := MkWorld { w_ledger : ledger; w_store : S; w_calls : list suspended }.

Inductive event : Type :=
| ECreate (d : domain_proposal) (now : Z)
| EAccept (id : string) (now : Z)
| EReject (id : string) (now : Z)
| EModify (id : string) (c : change) (now : Z)
| ERebase (id : string) (currentRevision : Z) (transform : jsv -> option jsv) (hash : option string) (now : Z)
| ECommit (id : string) (currentRevision : Z) (hash : option string) (now : Z)
| EUndo (id : string) (currentRevision : Z) (now : Z)
| EPerform (i : nat) (* the adapter works on the store *)
| EGiveUp (i : nat) (* the adapter fails before it reaches the store *)
| EResume (i : nat) (now : Z) (* the suspended call continues *)
| EWrite (s : S). (* the store is written by others *)

Definition log_of {A : Type} (r : result ledger_error A) (f : A -> log_entry) : list log_entry := match r with Ok a => [f a] | Err _ => [] end.

Definition handle (w : world) (e : event) : world * list log_entry :=
  let l := w_ledger w in
  let set l' := MkWorld l' (w_store w) (w_calls w) in
  match e with
  | ECreate d now => (set (fst (create l d now)), [])
  | EAccept id now => let '(l', r) := accept l now id in (set l', log_of r (fun r => LAccepted id (r_proposal r)))
  | EReject id now => (set (fst (reject l now id)), [])
  | EModify id c now => (set (fst (modify l now id c)), [])
  | ERebase id rev transform hash now => (set (fst (rebase l now id rev transform hash)), [])
  | ECommit id rev hash now =>
      match commitWithAdapter_start l now id rev hash with
      | (l', Err _) => (set l', [])
      | (l', Ok ci) =>
          let patch := d_patch (r_proposal (ci_proposal ci)) in
          (MkWorld l' (w_store w) (w_calls w ++ [MkCall false id patch (ci_expectedRevision ci) (ci_nextRevision ci) None]), [LApplied id patch (ci_nextRevision ci)])
      end
  | EUndo id rev now =>
      match undoWithAdapter_start l now id rev with
      | (l', Err _) => (set l', [])
      | (l', Ok ui) => (MkWorld l' (w_store w) (w_calls w ++ [MkCall true id (ui_patch ui) (ui_expectedRevision ui) (ui_nextRevision ui) None]), [])
      end
  | EPerform i =>
      match w_calls w !! i with
      | Some (MkCall true _ patch e n None as k) =>
          let '(s, o) := undo_on (w_store w) e n patch in
          (MkWorld l s (<[i := answered k (match o with Ok _ => Ok VUndef | Err f => Err f end)]> (w_calls w)), [])
      | Some (MkCall false _ patch e n None as k) =>
          let '(s, o) := commit_on (w_store w) e n patch in (MkWorld l s (<[i := answered k o]> (w_calls w)), [])
      | _ => (w, [])
      end
  | EGiveUp i =>
      match w_calls w !! i with
      | Some k => match k_outcome k with None => (MkWorld l (w_store w) (<[i := answered k (Err FOther)]> (w_calls w)), []) | Some _ => (w, []) end
      | None => (w, [])
      end
  | EResume i now =>
      match w_calls w !! i with
      | Some (MkCall true id _ _ n (Some o)) =>
          (MkWorld (fst (undo_finish l now id n (match o with Ok _ => Ok tt | Err f => Err f end))) (w_store w) (delete i (w_calls w)), [])
      | Some (MkCall false id _ _ n (Some o)) => (MkWorld (fst (commit_finish l now id n o)) (w_store w) (delete i (w_calls w)), [])
      | _ => (w, [])
      end
  | EWrite s => (MkWorld l s (w_calls w), [])
  end.

(** A write of others advances the revision. *)
Definition admissible (w : world) (e : event) : Prop := match e with EWrite s => revision (w_store w) < revision s | _ => True end.

(** Runs whose events satisfy [ok], with the stores there have been and the log. *)
Inductive run (ok : event -> Prop) : list S -> list log_entry -> world -> Prop :=
| run_start s : run ok [s] [] (MkWorld new_ledger s [])
| run_step h log w e w' entries : run ok h log w -> ok e -> admissible w e -> handle w e = (w', entries) -> run ok (w_store w' :: h) (log ++ entries) w'.

(** Events that give a proposal only contents that pass its validation: a modification names
    no negative revision, and a rebase makes a patch. *)
Definition orderly (e : event) : Prop :=
  match e with
  | EModify _ c _ => match ch_baseRevision c with Some n => 0 <= n | None => True end
  | ERebase _ _ transform _ _ => forall p, transform p <> Some VUndef
  | _ => True
  end.

End Worlds.
Arguments world S : clear implicits.
Arguments event S : clear implicits.

(** What the reviewer accepted last under an identifier. *)
Definition last_accepted (log : list log_entry) (id : string) : option domain_proposal :=
  foldl (fun a e => match e with LAccepted id' d => if bool_decide (id' = id) then Some d else a | LApplied _ _ _ => a end) None log.
