(* ===== verification/ProposalProofs.v ===== *)
(** What the ledger of proposals promises: only what a reviewer accepted is applied, and an
    undo restores the document; with the ways around the first promise that are left. *)

From S2P Require Import Prelude JsValue Proposals ProposalRuns.

Local Open Scope Z_scope.

(** * The records of a ledger *)

Definition all_records (P : string -> proposal_record -> Prop) (l : ledger) : Prop := forall id r, require l id = Some r -> P id r.

Lemma require_update l id r id' : require (update l id r) id' = if decide (id = id') then Some r else require l id'.
Proof. unfold require, update. simpl. destruct (decide _) as [->|?]; [apply assoc_get_set_eq|by apply assoc_get_set_ne]. Qed.

Lemma all_update P l id r : all_records P l -> P id r -> all_records P (update l id r).
Proof. intros Hl Hr id' r'. rewrite require_update. destruct (decide _) as [->|?]; [by intros [= <-]|apply Hl]. Qed.

Lemma all_new P : all_records P new_ledger.
Proof. by intros ? ?. Qed.

Lemma all_committing P l c : all_records P l -> all_records P (MkLedger (proposals l) c).
Proof. done. Qed.

#[export] Hint Resolve all_update all_committing : inkpi.

(** Open a method of the ledger up to the records it writes. *)
Ltac ledger_cases := repeat (case_match; simplify_eq/=); eauto with inkpi.

(** * Validation *)





(** * What is applied was accepted *)













Lemma assertCurrent_base p rev hash : assertCurrent p rev hash = None -> rev = d_baseRevision (r_proposal p).
Proof.
  unfold assertCurrent. destruct (rev <? 0); [done|]. destruct (rev =? _) eqn:E; simpl; [|done]. by apply Z.eqb_eq in E.
Qed.

(** The adapter is called with the accepted proposal, at its base revision. *)
Lemma commit_start_cases l now id rev hash l' r : commit_start l now id rev hash = (l', r) ->
  (exists p, require l id = Some p /\ r_status p = Accepted /\ rev = d_baseRevision (r_proposal p) /\ proposals l' = proposals l /\
     r = Ok (d_patch (r_proposal p), rev + 1)) \/
  ((exists e, r = Err e) /\ (l' = l \/ exists p, require l id = Some p /\ l' = update l id (with_status p Stale now))).
Proof.
  unfold commit_start. destruct (require l id) as [p|] eqn:E; [|intros [= <- <-]; eauto].
  destruct (bool_decide (r_status p = Accepted)) eqn:Ea; simpl; [|intros [= <- <-]; eauto]. apply bool_decide_eq_true in Ea.
  destruct (assertCurrent p rev hash) as [[[] e]|] eqn:Ec; [intros [= <- <-]; right; split; eauto|intros [= <- <-]; eauto|].
  apply assertCurrent_base in Ec. destruct (bool_decide _); intros [= <- <-]; [eauto|]. left. exists p. by split_and!.
Qed.

Lemma commit_adapter_cases l now id rev hash l' r : commitWithAdapter_start l now id rev hash = (l', r) ->
  (exists p, require l id = Some p /\ r_status p = Accepted /\ rev = d_baseRevision (r_proposal p) /\ proposals l' = proposals l /\
     r = Ok (MkCommitInput p rev hash (rev + 1))) \/
  ((exists e, r = Err e) /\ (l' = l \/ exists p, require l id = Some p /\ l' = update l id (with_status p Stale now))).
Proof.
  unfold commitWithAdapter_start. destruct (commit_start l now id rev hash) as [l1 r1] eqn:E.
  apply commit_start_cases in E as [(p & Hp & Ha & Hrev & Hl & ->)|[[e ->] Hl]]; [|intros [= <- <-]; eauto].
  unfold require in *. rewrite Hl, Hp. intros [= <- <-]. left. exists p. by split_and!.
Qed.

Section Runs.
Context {S C : Type} `{DomainStore S C}.
Implicit Types (w : world S) (e : event S).








(** * An undo restores the document *)

Context {Hlaws : DomainStoreLaws S C}.

(** In some run, a commit of [id] wrote revision [n] and returned [inv] as its inverse. *)
Definition committed_at (h : list S) (log : list log_entry) (id : string) (n : Z) (inv : jsv) : Prop :=
  exists patch s0 s1, s0 ∈ h /\ s1 ∈ h /\ commit_on s0 (n - 1) n patch = (s1, Ok inv) /\ LApplied id patch n ∈ log.

Lemma committed_grow h h' log log' id n inv : h ⊆ h' -> log ⊆ log' -> committed_at h log id n inv -> committed_at h' log' id n inv.
Proof. intros Hh Hl (p & s0 & s1 & ? & ? & ? & ?). exists p, s0, s1. split_and!; auto. Qed.

Definition record_history h log (id : string) (r : proposal_record) : Prop :=
  r_inversePatch r = VUndef \/ exists n, r_committedRevision r = Some n /\ committed_at h log id n (r_inversePatch r).

Definition call_history h log (k : suspended) : Prop :=
  k_next k = k_expected k + 1 /\
  if k_undo k then committed_at h log (k_id k) (k_expected k) (k_patch k)
  else LApplied (k_id k) (k_patch k) (k_next k) ∈ log /\ forall inv, k_outcome k = Some (Ok inv) -> committed_at h log (k_id k) (k_next k) inv.

Record historic h log w : Prop := MkHistoric {
  hi_store : w_store w ∈ h;
  hi_records : all_records (record_history h log) (w_ledger w);
  hi_calls : Forall (call_history h log) (w_calls w);
  hi_past : forall s, s ∈ h -> revision s <= revision (w_store w);
  hi_content : forall s s', s ∈ h -> s' ∈ h -> revision s = revision s' -> content s = content s';
}.

Lemma record_grow h h' log log' l : h ⊆ h' -> log ⊆ log' -> all_records (record_history h log) l -> all_records (record_history h' log') l.
Proof. intros Hh Hlog Hl id r Hr. destruct (Hl id r Hr) as [?|(n & ? & ?)]; [by left|]. right. exists n. split; [done|]. by eapply committed_grow. Qed.

Lemma calls_grow h h' log log' ks : h ⊆ h' -> log ⊆ log' -> Forall (call_history h log) ks -> Forall (call_history h' log') ks.
Proof.
  intros Hh Hlog Hks. eapply Forall_impl; [exact Hks|]. intros k [Hn Hk]. split; [done|]. destruct (k_undo k); [by eapply committed_grow|].
  destruct Hk as [? Ho]. split; [auto|]. intros inv Hi. by eapply committed_grow, Ho.
Qed.

(** A method that changes neither what was committed nor the inverse keeps the history. *)
Lemma history_kept h log l id r r' : all_records (record_history h log) l -> require l id = Some r ->
  r_committedRevision r' = r_committedRevision r -> r_inversePatch r' = r_inversePatch r -> all_records (record_history h log) (update l id r').
Proof. intros Hl Hr H1 H2. apply all_update; [done|]. unfold record_history. rewrite H1, H2. by apply Hl. Qed.

Lemma history_decision h log l e : all_records (record_history h log) l ->
  match e : event S with
  | ECreate d now => all_records (record_history h log) (fst (create l d now))
  | EAccept id now => all_records (record_history h log) (fst (accept l now id))
  | EReject id now => all_records (record_history h log) (fst (reject l now id))
  | EModify id c now => all_records (record_history h log) (fst (modify l now id c))
  | ERebase id rev tr hash now => all_records (record_history h log) (fst (rebase l now id rev tr hash))
  | _ => True
  end.
Proof.
  intros Hl. assert (Hre : forall now id r r', require l id = Some r -> r_committedRevision r' = r_committedRevision r -> r_inversePatch r' = r_inversePatch r ->
    all_records (record_history h log) (fst (validate_and_reopen l now id r'))).
  { intros now id r r' Hr H1 H2. unfold validate_and_reopen. destruct (validateDomainProposal _); by eapply history_kept. }
  destruct e; try done; simpl.
  - unfold create. destruct (validateDomainProposal _); [|done]. destruct (bool_decide _); [done|]. apply all_update; [done|by left].
  - unfold accept, decide_pending. destruct (require l id) eqn:E; [|done]. destruct (negb _); [done|]. by eapply history_kept.
  - unfold reject, decide_pending. destruct (require l id) eqn:E; [|done]. destruct (negb _); [done|]. by eapply history_kept.
  - unfold modify. destruct (require l id) eqn:E; [|done]. destruct (_ || _); [done|]. destruct (ch_baseRevision c); [destruct (_ <? _)|]; by first [eapply history_kept|eapply Hre].
  - unfold rebase. destruct (require l id) eqn:E; [|done]. destruct (negb _); [done|]. destruct (_ <? _); [done|]. destruct (transform _); [|done]. by eapply Hre.
Qed.

Lemma undo_start_cases h log l now id rev l' r : all_records (record_history h log) l -> undo_start l now id rev = (l', r) ->
  all_records (record_history h log) l' /\
  forall patch next, r = Ok (patch, next) -> l' = l /\ next = rev + 1 /\ committed_at h log id rev patch /\ is_Some (require l id).
Proof.
  intros Hl. unfold undo_start. destruct (require l id) as [p|] eqn:E; [|by intros [= <- <-]]. destruct (negb _); [by intros [= <- <-]|].
  destruct (is_undefined _) eqn:Eu; [by intros [= <- <-]|]. destruct (Hl id p E) as [Hi|(n & Hn & Hc)]; [by rewrite Hi in Eu|]. rewrite Hn. simpl.
  destruct (Z.eqb_spec rev n) as [->|]; simpl; intros [= <- <-]; [|split; [by eapply history_kept|done]].
  split; [done|]. intros patch next [= <- <-]. split_and!; eauto.
Qed.

Lemma commit_finish_history h log l now id n o : all_records (record_history h log) l -> (forall inv, o = Ok inv -> committed_at h log id n inv) ->
  all_records (record_history h log) (fst (commit_finish l now id n o)).
Proof.
  intros Hl Ho. unfold commit_finish. destruct (require _ id) as [r|] eqn:E; [|done]. destruct o as [inv|f]; [|by eapply history_kept].
  apply all_update; [done|]. right. exists n. split; [done|]. by apply Ho.
Qed.

Lemma undo_finish_history h log l now id n o : all_records (record_history h log) l -> all_records (record_history h log) (fst (undo_finish l now id n o)).
Proof. intros Hl. unfold undo_finish. destruct (require _ id) as [r|] eqn:E; [|done]. destruct o; by eapply history_kept. Qed.

Lemma historic_intro h log w w' entries : historic h log w ->
  w_store w' = w_store w \/ revision (w_store w) < revision (w_store w') ->
  all_records (record_history (w_store w' :: h) (log ++ entries)) (w_ledger w') ->
  Forall (call_history (w_store w' :: h) (log ++ entries)) (w_calls w') ->
  historic (w_store w' :: h) (log ++ entries) w'.
Proof.
  intros [H1 _ _ H4 H5] Hs Hl Hc. split; [by left|done|done| |].
  - intros s [->|Hin]%elem_of_cons; [done|]. specialize (H4 s Hin). destruct Hs as [->|]; lia.
  - intros s s' [->|Hin]%elem_of_cons [->|Hin']%elem_of_cons Hr; [done| | |by apply H5].
    + destruct Hs as [E|]; [rewrite E in *; by apply H5|]. specialize (H4 _ Hin'). lia.
    + destruct Hs as [E|]; [rewrite E in *; by apply H5|]. specialize (H4 _ Hin). lia.
Qed.

Lemma answer_history h log k o : call_history h log k -> (forall inv, o = Ok inv -> k_undo k = false -> committed_at h log (k_id k) (k_next k) inv) ->
  call_history h log (answered k o).
Proof.
  intros [Hn Hk] Ho. split; [done|]. simpl. destruct (k_undo k); [done|]. destruct Hk as [? _]. split; [done|]. intros inv [= ->]. by apply Ho.
Qed.

(** The adapter at work: the store moves on exactly when it succeeds. *)
Lemma perform_historic h log w i k s o : historic h log w -> w_calls w !! i = Some k -> k_outcome k = None ->
  (if k_undo k then (exists r, undo_on (w_store w) (k_expected k) (k_next k) (k_patch k) = (s, r) /\ o = match r with Ok _ => Ok VUndef | Err f => Err f end)
   else commit_on (w_store w) (k_expected k) (k_next k) (k_patch k) = (s, o)) ->
  historic (s :: h) (log ++ []) (MkWorld (w_ledger w) s (<[i := answered k o]> (w_calls w))).
Proof.
  intros Hw Hi Ho Hs. pose proof (hi_calls _ _ _ Hw) as Hcs. assert (Hk : call_history h log k) by (by eapply Forall_lookup_1 in Hcs).
  assert (h ⊆ s :: h) by set_solver. assert (log ⊆ log ++ []) by (by rewrite app_nil_r).
  apply (historic_intro h log w (MkWorld _ s _) []); [done| | |]; simpl.
  - destruct Hk as [Hn _]. destruct (k_undo k).
    + destruct Hs as ([u|f] & Hs & _); [apply undo_cas in Hs; lia|]. left. by eapply undo_failed.
    + destruct o as [inv|f]; [apply commit_cas in Hs; lia|]. left. by eapply commit_failed.
  - eapply record_grow, hi_records; done.
  - apply Forall_insert; [by eapply calls_grow|]. apply answer_history; [by eapply Forall_singleton, calls_grow, Forall_singleton|].
    intros inv -> Hu. destruct Hk as [Hn Hk]. rewrite Hu in *. destruct Hk as [Hk _].
    exists (k_patch k), (w_store w), s. split_and!; [right; by apply (hi_store _ _ _ Hw)|by left| |by rewrite app_nil_r].
    by replace (k_next k - 1) with (k_expected k) by lia.
Qed.

Lemma same_ledger_historic h log w l' ks : historic h log w -> all_records (record_history h log) l' -> Forall (call_history h log) ks ->
  historic (w_store w :: h) (log ++ []) (MkWorld l' (w_store w) ks).
Proof.
  intros Hw Hl Hk. assert (h ⊆ w_store w :: h) by set_solver. assert (log ⊆ log ++ []) by (by rewrite app_nil_r).
  apply (historic_intro h log w (MkWorld _ (w_store w) _) []); [done|by left|by eapply record_grow|by eapply calls_grow].
Qed.

Lemma handle_historic h log w e w' entries : historic h log w -> admissible w e -> handle w e = (w', entries) ->
  historic (w_store w' :: h) (log ++ entries) w'.
Proof.
  intros Hw Hadm Hh. pose proof (hi_records _ _ _ Hw) as Hl. pose proof (hi_calls _ _ _ Hw) as Hk. pose proof (history_decision h log _ e Hl) as Hd.
  destruct e as [d now|id now|id now|id c now|id rev tr hash now|id rev hash now|id rev now|i|i|i now|s]; simpl in *;
    try (injection Hh as <- <-; by eapply (same_ledger_historic h log w)).
  - destruct (accept _ _ _) as [l' r]. injection Hh as <- <-. simpl in *.
    apply (historic_intro h log w (MkWorld l' (w_store w) (w_calls w))); [done|by left| |]; [eapply record_grow; [..|exact Hd]|eapply calls_grow; [..|exact Hk]]; set_solver.
  - destruct (commitWithAdapter_start _ _ _ _ _) as [l' r] eqn:E.
    apply commit_adapter_cases in E as [(p & Hp & Ha & -> & Hps & ->)|[[e ->] Hc]]; injection Hh as <- <-.
    + apply (historic_intro h log w (MkWorld l' (w_store w) _)); [done|by left| |]; simpl.
      * intros id' r' Hr'. unfold require in *. rewrite Hps in Hr'. eapply record_grow; [..|exact Hl|exact Hr']; set_solver.
      * apply Forall_app. split; [eapply calls_grow; [..|exact Hk]; set_solver|]. apply Forall_singleton. split; [done|]. simpl. split; [set_solver|done].
    + apply (same_ledger_historic h log w); [done| |done]. destruct Hc as [->|(p & Hp & ->)]; [done|by eapply history_kept].
  - unfold undoWithAdapter_start in Hh. destruct (undo_start _ _ _ _) as [l' r] eqn:E. apply (undo_start_cases h log) in E as [Hl' Hu]; [|done].
    destruct r as [[patch next]|e]; [|injection Hh as <- <-; by eapply (same_ledger_historic h log w)]. destruct (Hu patch next eq_refl) as (-> & -> & Hc & [r Hr]).
    rewrite Hr in Hh. injection Hh as <- <-. apply (same_ledger_historic h log w); [done|done|]. apply Forall_app. split; [done|]. by apply Forall_singleton.
  - destruct (w_calls w !! i) as [[u id patch ex nx [o|]]|] eqn:Ei; [destruct u; injection Hh as <- <-; by destruct w; apply same_ledger_historic| |injection Hh as <- <-; by destruct w; apply same_ledger_historic].
    pose proof (fun s o => perform_historic h log w i _ s o Hw Ei eq_refl) as Hp. destruct u; simpl in Hp.
    + destruct (undo_on _ _ _ _) as [s o]. injection Hh as <- <-. apply Hp. by exists o.
    + destruct (commit_on _ _ _ _) as [s o]. injection Hh as <- <-. by apply Hp.
  - destruct (w_calls w !! i) as [k|] eqn:Ei; [destruct (k_outcome k)|]; injection Hh as <- <-; try (by destruct w; apply same_ledger_historic).
    apply (same_ledger_historic h log w); [done|done|]. apply Forall_insert; [done|]. apply answer_history; [by eapply Forall_lookup_1 in Hk|done].
  - destruct (w_calls w !! i) as [[u id patch ex nx [o|]]|] eqn:Ei; [|destruct u; injection Hh as <- <-; by destruct w; apply same_ledger_historic|injection Hh as <- <-; by destruct w; apply same_ledger_historic].
    assert (Hki : call_history h log (MkCall u id patch ex nx (Some o))) by (by eapply Forall_lookup_1 in Hk). destruct Hki as [_ Hki].
    destruct u; injection Hh as <- <-; (apply (same_ledger_historic h log w); [done| |by apply Forall_delete]).
    + by apply undo_finish_history.
    + apply commit_finish_history; [done|]. intros inv ->. by apply Hki.
  - injection Hh as <- <-. apply (historic_intro h log w (MkWorld _ s _)); [done|by right| |]; [eapply record_grow; [..|exact Hl]|eapply calls_grow; [..|exact Hk]]; set_solver.
Qed.

Lemma run_historic ok h log w : run ok h log w -> historic h log w.
Proof.
  induction 1 as [s|h log w e w' entries _ IH _ Hadm Hh]; [|by eapply handle_historic].
  split; simpl; [by left|apply all_new|by apply Forall_nil| |].
  - intros s0 ->%list_elem_of_singleton. done.
  - by intros s0 s1 ->%list_elem_of_singleton ->%list_elem_of_singleton.
Qed.

(** C24: an undo restores the document.  Whatever is committed, undone, modified and written by
    others, in any interleaving: when the adapter carries out an undo, the document is then
    exactly what it was before the commit of that proposal, which wrote the revision the undo
    finds. *)
Theorem undo_restores_the_document ok h log w i k s' u :
  run ok h log w -> w_calls w !! i = Some k -> k_undo k = true -> undo_on (w_store w) (k_expected k) (k_next k) (k_patch k) = (s', Ok u) ->
  exists patch before after, before ∈ h /\ after ∈ h /\ LApplied (k_id k) patch (k_expected k) ∈ log /\
    commit_on before (k_expected k - 1) (k_expected k) patch = (after, Ok (k_patch k)) /\
    content (w_store w) = content after /\ content s' = content before.
Proof.
  intros Hrun%run_historic Hi Hu Hundo. pose proof (hi_calls _ _ _ Hrun) as Hk. eapply Forall_lookup_1 in Hk as [_ Hk]; [|exact Hi]. rewrite Hu in Hk.
  destruct Hk as (patch & s0 & s1 & H0 & H1 & Hc & Hl). exists patch, s0, s1.
  assert (content (w_store w) = content s1) as Hcs.
  { apply (hi_content _ _ _ Hrun); [by apply (hi_store _ _ _ Hrun)|done|]. apply undo_cas in Hundo as [-> _]. by apply commit_cas in Hc as [_ ->]. }
  split_and!; try done. by eapply undo_inverts.
Qed.

End Runs.

(** * Runs by events *)

Section Play.
Context {S C : Type} `{DomainStore S C}.

Fixpoint play (h : list S) (log : list log_entry) (w : world S) (events : list (event S)) : list S * list log_entry * world S :=
  match events with
  | [] => (h, log, w)
  | e :: events => let '(w', entries) := handle w e in play (w_store w' :: h) (log ++ entries) w' events
  end.

Definition is_write (e : event S) : bool := match e with EWrite _ => true | _ => false end.

Lemma play_run ok events : forall h log w, run ok h log w -> Forall (fun e => ok e /\ is_write e = false) events ->
  run ok (fst (fst (play h log w events))) (snd (fst (play h log w events))) (snd (play h log w events)).
Proof.
  induction events as [|e events IH]; intros h log w Hrun Hok; [done|]. inversion Hok as [|? ? [He Hw] Hok']; subst. simpl.
  destruct (handle w e) as [w' entries] eqn:Eh. apply IH; [|done]. eapply run_step; [done|done| |done]. by destruct e.
Qed.
End Play.

(** A store that holds one value: a patch replaces it, and its inverse is what was there. *)
Record cell : Type := MkCell { cell_revision : Z; cell_value : jsv }.

#[local] Instance cell_store : DomainStore cell jsv := {
  revision := cell_revision;
  content := cell_value;
  commit_on s e n p := if cell_revision s =? e then (MkCell n p, Ok (cell_value s)) else (s, Err (FConflict e (cell_revision s)));
  undo_on s e n p := if cell_revision s =? e then (MkCell n p, Ok tt) else (s, Err (FConflict e (cell_revision s)));
}.

#[local] Instance cell_laws : DomainStoreLaws cell jsv.
Proof.
  split; simpl; intros *; try (destruct (Z.eqb_spec (cell_revision s) e); intros [= <-]; naive_solver).
  destruct (_ =? e); [|done]. intros [= <- <-] Hc. destruct (_ =? e2); [|done]. by intros [= <- <-].
Qed.

Definition a_proposal (patch : jsv) : domain_proposal := MkProposal "p" "task" 4 None ("document", "chapter-1") Update patch VUndef None.

Definition desk : world cell := MkWorld new_ledger (MkCell 4 (VStr "draft")) [].

Definition play_from (w : world cell) (events : list (event cell)) : list cell * list log_entry * world cell := play [w_store w] [] w events.

Definition record_of (w : world cell) : option (status * jsv) := option_map (fun r => (r_status r, d_patch (r_proposal r))) (require (w_ledger w) "p").

(** * Ways around the review *)

(** A modification that is refused for its revision has already replaced the patch of a
    proposal that stays accepted: the commit applies a patch nobody accepted. *)
Lemma refused_modification_is_applied :
  let '(_, log, w) := play_from desk [ECreate (a_proposal (VStr "reviewed")) 1; EAccept "p" 2;
    EModify "p" (MkChange (VStr "unreviewed") None (Some (-1)) None) 3; ECommit "p" 4 None 4; EPerform 0; EResume 0 5] in
  log = [LAccepted "p" (a_proposal (VStr "reviewed")); LApplied "p" (VStr "unreviewed") 5] /\
  record_of w = Some (Committed, VStr "unreviewed") /\ w_store w = MkCell 5 (VStr "unreviewed").
Proof. by vm_compute. Qed.

(** A rebase whose transformation takes the patch away is refused too, and also after it wrote
    the patch and the revision. *)
Lemma refused_rebase_is_applied :
  let '(_, log, w) := play_from desk [ECreate (a_proposal (VStr "reviewed")) 1; EAccept "p" 2;
    ERebase "p" 4 (fun _ => Some VUndef) None 3; ECommit "p" 4 None 4] in
  log = [LAccepted "p" (a_proposal (VStr "reviewed")); LApplied "p" VUndef 5] /\ record_of w = Some (Accepted, VUndef).
Proof. by vm_compute. Qed.

(** A proposal that is modified while its commit waits for the adapter ends as committed with
    the new patch, although the store has the old one: what the reviewer wrote is neither
    applied nor pending. *)
Lemma modification_during_a_commit_is_lost :
  let '(_, _, w) := play_from desk [ECreate (a_proposal (VStr "first")) 1; EAccept "p" 2; ECommit "p" 4 None 3; EPerform 0;
    EModify "p" (MkChange (VStr "second") None None None) 4; EResume 0 5] in
  record_of w = Some (Committed, VStr "second") /\ w_store w = MkCell 5 (VStr "first").
Proof. by vm_compute. Qed.

(** Nothing keeps a second undo from starting while one waits: the one that comes late meets a
    conflict, and the proposal, which is undone, is marked stale. *)
Lemma second_undo_makes_an_undone_proposal_stale :
  let '(_, _, w) := play_from desk [ECreate (a_proposal (VStr "new")) 1; EAccept "p" 2; ECommit "p" 4 None 3; EPerform 0; EResume 0 4;
    EUndo "p" 5 5; EUndo "p" 5 6; EPerform 0; EPerform 1; EResume 0 7; EResume 0 8] in
  record_of w = Some (Stale, VStr "new") /\ w_store w = MkCell 6 (VStr "draft").
Proof. by vm_compute. Qed.

(** * Witnesses *)

Definition reviewed_events : list (event cell) :=
  [ECreate (a_proposal (VStr "first")) 1; EAccept "p" 2; EModify "p" (MkChange (VStr "second") None None None) 3; ECommit "p" 4 None 4; EAccept "p" 5;
   ECommit "p" 4 None 6; EPerform 0; EResume 0 7; EUndo "p" 5 8].

Lemma reviewed_run (ok : event cell -> Prop) : Forall ok reviewed_events ->
  run ok (fst (fst (play_from desk reviewed_events))) (snd (fst (play_from desk reviewed_events))) (snd (play_from desk reviewed_events)).
Proof.
  intros Hok. apply play_run; [constructor|]. apply Forall_and. split; [done|]. by repeat constructor.
Qed.


Lemma undo_restores_the_document_witness :
  exists patch before after, before ∈ fst (fst (play_from desk reviewed_events)) /\ after ∈ fst (fst (play_from desk reviewed_events)) /\
    LApplied "p" patch 5 ∈ snd (fst (play_from desk reviewed_events)) /\
    commit_on before (5 - 1) 5 patch = (after, Ok (VStr "draft")) /\
    content (w_store (snd (play_from desk reviewed_events))) = content after /\ content (MkCell 6 (VStr "draft")) = content before.
Proof.
  apply (undo_restores_the_document (Hlaws:=cell_laws) (fun _ => True) _ _ _ 0 (MkCall true "p" (VStr "draft") 5 6 None) (MkCell 6 (VStr "draft")) tt);
    [|reflexivity..]. apply reviewed_run. repeat constructor.
Defined.
