(* ===== verification/ProposalProjection.v ===== *)
(** The daemon's read model of proposals ([ProposalProjectionStore] of
    storage/src/proposal-projection.ts, with the checks and hashes of
    protocol/src/proposal-sync.ts): complete states pushed by the desktop, each checked against
    its hash and against the revision of the workspace.

    Modelling choices: a transaction returns the new store or the error, which leaves the store
    as it was; a pushed state is a JSON value, kept as its text; [localeCompare], with which
    the hash of a snapshot orders proposals, is the parameter [locale]. *)

From Stdlib Require Import Sorting.Sorted.
From stdpp Require Import pretty sorting.
From S2P Require Import Prelude PriorityQueue JsValue JsonText Proposals.

(** * The order of strings

    By code unit, which [Array.prototype.sort] without a comparator and the [ORDER BY] of the
    database use; sorting by distinct keys gives a result that depends on the set of the
    elements alone. *)

Definition compare_strings (a b : string) : Z := match String.compare a b with Lt => (-1)%Z | Eq => 0%Z | Gt => 1%Z end.

Lemma compare_chars a b : Ascii.compare a b = N.compare (Ascii.N_of_ascii a) (Ascii.N_of_ascii b).
Proof. done. Qed.

Lemma string_compare_trans a : forall b c, String.compare a b <> Gt -> String.compare b c <> Gt -> String.compare a c <> Gt.
Proof.
  induction a as [|x a IH]; intros [|y b] [|z c]; simpl; try done. rewrite !compare_chars.
  destruct (N.compare_spec (Ascii.N_of_ascii x) (Ascii.N_of_ascii y)), (N.compare_spec (Ascii.N_of_ascii y) (Ascii.N_of_ascii z)),
    (N.compare_spec (Ascii.N_of_ascii x) (Ascii.N_of_ascii z)); try done; try lia. apply IH.
Qed.

Lemma compare_strings_le a b : (compare_strings a b <= 0)%Z <-> String.compare a b <> Gt.
Proof. unfold compare_strings. destruct (String.compare a b); split; (done || lia). Qed.

#[export] Instance compare_strings_laws : Comparator compare_strings.
Proof.
  split.
  - intros a b. unfold compare_strings. rewrite (String.compare_antisym a b). destruct (String.compare b a); simpl; lia.
  - intros a b c. rewrite !compare_strings_le. apply string_compare_trans.
Qed.

Lemma compare_strings_antisym a b : (compare_strings a b <= 0)%Z -> (compare_strings b a <= 0)%Z -> a = b.
Proof.
  rewrite !compare_strings_le, (String.compare_antisym b a). intros H1 H2. apply String.compare_eq_iff. by destruct (String.compare a b).
Qed.

(** * Sorting by a key *)

Section ByKey.
Context {A : Type} (key : A -> string).

Definition by_key (x y : A) : Z := compare_strings (key x) (key y).
Definition key_le (x y : A) : Prop := (by_key x y <= 0)%Z.

Lemma sort_insert_by_key x l : StronglySorted key_le l -> StronglySorted key_le (sort_insert by_key x l).
Proof.
  induction 1 as [|y l Hs IH Hall]; simpl; [by repeat constructor|]. destruct (Z.leb_spec (by_key x y) 0) as [Hxy|Hxy].
  - constructor; [by constructor|]. constructor; [done|]. eapply Forall_impl; [exact Hall|]. intros z Hz. unfold key_le, by_key in *. by eapply (compare_trans (compare:=compare_strings)).
  - constructor; [done|]. rewrite sort_insert_perm. constructor; [|done]. destruct (compare_total compare_strings (key x) (key y)); unfold key_le, by_key in *; lia.
Qed.

Lemma js_sort_by_key l : StronglySorted key_le (js_sort by_key l).
Proof. induction l as [|x l IH]; simpl; [constructor|]. by apply sort_insert_by_key. Qed.

Lemma js_sort_permutation l k : NoDup (map key l) -> l ≡ₚ k -> js_sort by_key l = js_sort by_key k.
Proof.
  intros Hnd Hp. eapply StronglySorted_unique_strong; [|apply js_sort_by_key..|by rewrite !js_sort_perm].
  intros x y Hx Hy Hxy Hyx. rewrite js_sort_perm in Hx, Hy. rewrite <- Hp in Hy. pose proof (compare_strings_antisym _ _ Hxy Hyx) as Hk.
  apply list_elem_of_lookup in Hx as [i Hx], Hy as [j Hy]. assert (i = j) as ->; [|congruence].
  eapply (NoDup_lookup (map key l)); [done| |]; rewrite list_lookup_fmap; [by rewrite Hx|]. rewrite Hy. simpl. by rewrite Hk.
Qed.
End ByKey.

Local Open Scope Z_scope.

(** * Checks and hashes *)

Definition MAX_SAFE_INTEGER : Z := 2 ^ 53 - 1.

Definition isProposalStatus (value : jsv) : bool :=
  match value with VStr s => bool_decide (s ∈ ["pending"; "accepted"; "rejected"; "stale"; "committed"; "undone"]) | _ => false end.

Definition isNonNegativeInteger (value : jsv) : bool := match value with VNum n => (Z.abs n <=? MAX_SAFE_INTEGER) && (0 <=? n) | _ => false end.

Inductive push_error : Type :=
| BadWorkspace
| BadExpectedRevision
| BadStateHash
| BadProposal (why : proposal_error)
| BadStatus
| BadTimestamps
| BadCommittedRevision
| CorruptRow (* a stored row that does not pass its checks *)
| SnapshotMismatch.

Definition validateProposalProjectionState (state : jsv) : result push_error unit :=
  match validateDomainProposal state with
  | Err why => Err (BadProposal why)
  | Ok _ =>
      throw_if negb (isProposalStatus (prop state "status")) with BadStatus in
      throw_if negb (isNonNegativeInteger (prop state "createdAt")) || negb (isNonNegativeInteger (prop state "updatedAt")) with BadTimestamps in
      throw_if negb (is_undefined (prop state "committedRevision")) && negb (isNonNegativeInteger (prop state "committedRevision")) with BadCommittedRevision in
      Ok tt
  end.

Fixpoint stableSerialize (value : jsv) : string :=
  match value with
  | VUndef | VNull => "null"
  | VBool b => if b then "true" else "false"
  | VNum n => pretty n
  | VStr s => quote s
  | VArr items => "[" +:+ String.concat "," (map stableSerialize items) +:+ "]"
  | VObj fs =>
      let texts := map (fun kv => let text := stableSerialize (snd kv) in
                                match snd kv with VUndef => [] | _ => [(fst kv, text)] end) fs in
      stable_record (List.concat texts)
  end.

Definition fnv1a (value : string) : string := hex8 (foldl fnv_round 2166136261 (String.list_ascii_of_string value)).

Definition calculateProposalProjectionStateHash (state : jsv) : string := fnv1a (stableSerialize state).

Definition state_id (state : jsv) : string := match prop state "id" with VStr s => s | _ => EmptyString end.

Section Projection.
Variable locale : string -> string -> Z.

Definition calculateProposalProjectionSnapshotHash (workspaceId : string) (revision : Z) (proposals : list jsv) : string :=
  fnv1a (stableSerialize (VObj [("workspaceId", VStr workspaceId); ("revision", VNum revision);
                                ("proposals", VArr (js_sort (fun l r => locale (state_id l) (state_id r)) proposals))])).

(** * The store *)

Record row : Type := MkRow { ro_revision : Z; ro_state_hash : string; ro_state_json : text; ro_updated_at : Z }.

Record cursor : Type := MkCursor { cu_revision : Z; cu_snapshotHash : string; cu_updatedAt : Z }.

(** The tables [proposal_projections], keyed by workspace and proposal, and
    [proposal_projection_cursors]. *)
Record store : Type := MkStore { rows : gmap (string * string) row; cursors : gmap string cursor }.

Definition empty_store : store := MkStore ∅ ∅.

Record push_params : Type := MkPush { pu_workspaceId : string; pu_expectedRevision : Z; pu_proposal : jsv; pu_stateHash : string }.

Inductive reason : Type := RevisionConflict | HashMismatchReason.

Record push_result : Type := MkResult {
  pr_accepted : bool; pr_duplicate : bool; pr_workspaceId : string; pr_proposalId : string; pr_revision : Z; pr_stateHash : string;
  pr_refused : option (reason * string) (* [reason] and [currentHash] *) }.

Definition assertWorkspaceId (workspaceId : string) : result push_error unit := throw_if blank workspaceId with BadWorkspace in Ok tt.

Definition validatePushParams (p : push_params) : result push_error unit :=
  let* _ := assertWorkspaceId (pu_workspaceId p) in
  throw_if negb (Z.abs (pu_expectedRevision p) <=? MAX_SAFE_INTEGER) || (pu_expectedRevision p <? 0) with BadExpectedRevision in
  throw_if blank (pu_stateHash p) with BadStateHash in
  Ok tt.

Definition parseRow (proposal_id : string) (r : row) : result push_error jsv :=
  match JSON_parse (ro_state_json r) with
  | None => Err CorruptRow
  | Some proposal =>
      let* _ := validateProposalProjectionState proposal in
      throw_if negb (bool_decide (calculateProposalProjectionStateHash proposal = ro_state_hash r)) with CorruptRow in
      throw_if negb (bool_decide (state_id proposal = proposal_id)) with CorruptRow in
      Ok proposal
  end.

(** [ORDER BY proposal_id ASC]. *)
Definition workspace_rows (st : store) (workspaceId : string) : list (string * row) :=
  js_sort (by_key fst) (omap (fun kr => if bool_decide (fst (fst kr) = workspaceId) then Some (snd (fst kr), snd kr) else None) (map_to_list (rows st))).

Fixpoint parse_rows (l : list (string * row)) : result push_error (list jsv) :=
  match l with
  | [] => Ok []
  | (id, r) :: l => let* proposal := parseRow id r in let* proposals := parse_rows l in Ok (proposal :: proposals)
  end.

Definition readProposals (st : store) (workspaceId : string) : result push_error (list jsv) := parse_rows (workspace_rows st workspaceId).

Definition getCursor (st : store) (workspaceId : string) : result push_error cursor :=
  let* _ := assertWorkspaceId workspaceId in
  Ok (default (MkCursor 0 (calculateProposalProjectionSnapshotHash workspaceId 0 []) 0) (cursors st !! workspaceId)).

(** The two statements that write an accepted state. *)
Definition write_state (st : store) (now : Z) (p : push_params) (revision : Z) (stateHash : string) : result push_error store :=
  let rows' := <[(pu_workspaceId p, state_id (pu_proposal p)) := MkRow revision stateHash (JSON_text (pu_proposal p)) now]> (rows st) in
  let* proposals := readProposals (MkStore rows' (cursors st)) (pu_workspaceId p) in
  let snapshotHash := calculateProposalProjectionSnapshotHash (pu_workspaceId p) revision proposals in
  Ok (MkStore rows' (<[pu_workspaceId p := MkCursor revision snapshotHash now]> (cursors st))).

Definition apply (st : store) (now : Z) (p : push_params) : result push_error (store * push_result) :=
  let* _ := validatePushParams p in
  let* _ := validateProposalProjectionState (pu_proposal p) in
  let calculatedHash := calculateProposalProjectionStateHash (pu_proposal p) in
  let id := state_id (pu_proposal p) in
  let* current := getCursor st (pu_workspaceId p) in
  (* a stored row with the hash of the pushed state is a retry *)
  let existing := match rows st !! (pu_workspaceId p, id) with
                  | Some r => if bool_decide (ro_state_hash r = calculatedHash) then Some r else None
                  | None => None
                  end in
  let answer accepted duplicate revision refused := MkResult accepted duplicate (pu_workspaceId p) id revision calculatedHash refused in
  if negb (bool_decide (pu_stateHash p = calculatedHash)) then
    Ok (st, answer false false (cu_revision current) (Some (HashMismatchReason, cu_snapshotHash current)))
  else
    match existing with
    | Some r =>
        let* _ := parseRow id r in
        Ok (st, answer true true (ro_revision r) None)
    | None =>
        if negb (pu_expectedRevision p =? cu_revision current) then
          Ok (st, answer false false (cu_revision current) (Some (RevisionConflict, cu_snapshotHash current)))
        else
          let* st' := write_state st now p (cu_revision current + 1) calculatedHash in
          Ok (st', answer true false (cu_revision current + 1) None)
    end.

Record projection_snapshot : Type := MkSnapshot { sn_workspaceId : string; sn_revision : Z; sn_proposals : list jsv; sn_hash : string; sn_updatedAt : Z }.

Definition snapshot (st : store) (workspaceId : string) : result push_error projection_snapshot :=
  let* cursor := getCursor st workspaceId in
  let* proposals := readProposals st workspaceId in
  let hash := calculateProposalProjectionSnapshotHash workspaceId (cu_revision cursor) proposals in
  throw_if negb (bool_decide (hash = cu_snapshotHash cursor)) with SnapshotMismatch in
  Ok (MkSnapshot workspaceId (cu_revision cursor) proposals hash (cu_updatedAt cursor)).

(** The number of the rows deleted, and the store without them. *)
Definition purgeWorkspace (st : store) (workspaceId : string) : store * Z :=
  (MkStore (filter (fun kr => fst (fst kr) <> workspaceId) (rows st)) (delete workspaceId (cursors st)), zlen (workspace_rows st workspaceId)).

End Projection.
