(* ===== verification/ProjectionProofs.v ===== *)
(** What [ProposalProjection] promises: to its clients it is, per workspace, a log of the states
    it accepted, read as the latest state of every proposal; and what its 32-bit hashes cannot
    tell apart. *)

From stdpp Require Import pretty.
From S2P Require Import Prelude PriorityQueue JsValue JsonText JsonTextProofs Proposals ProposalProjection.

Local Open Scope Z_scope.

(** * The log of a workspace *)

(** An accepted state with its revision and the time of its push. *)
Record stamped : Type := MkStamped { st_revision : Z; st_state : jsv; st_time : Z }.

Definition stamped_id (e : stamped) : string := state_id (st_state e).

(** The log, newest first; the latest state of every proposal in it. *)
Abbreviation plog := (list stamped).

Fixpoint survivors (log : plog) : plog :=
  match log with
  | [] => []
  | e :: older => e :: List.filter (fun e' => negb (bool_decide (stamped_id e' = stamped_id e))) (survivors older)
  end.

Definition latest (log : plog) (id : string) : option stamped := List.find (fun e => bool_decide (stamped_id e = id)) (survivors log).

(** The proposals of a workspace, by identifier. *)
Definition current (log : plog) : list jsv := map st_state (js_sort (by_key stamped_id) (survivors log)).

Section Spec.
Variable locale : string -> string -> Z.
Abbreviation snapshot_hash := (calculateProposalProjectionSnapshotHash locale).
Abbreviation state_hash := calculateProposalProjectionStateHash.

(** What a push does to the log. *)
Definition spec_push (log : plog) (now : Z) (p : push_params) : result push_error (plog * push_result) :=
  let* _ := validatePushParams p in
  let* _ := validateProposalProjectionState (pu_proposal p) in
  let w := pu_workspaceId p in
  let hash := state_hash (pu_proposal p) in
  let id := state_id (pu_proposal p) in
  let revision := zlen log in
  let refuse why := MkResult false false w id revision hash (Some (why, snapshot_hash w revision (current log))) in
  if negb (bool_decide (pu_stateHash p = hash)) then Ok (log, refuse HashMismatchReason)
  else
    match latest log id with
    | Some e =>
        if bool_decide (state_hash (st_state e) = hash) then Ok (log, MkResult true true w id (st_revision e) hash None)
        else if negb (pu_expectedRevision p =? revision) then Ok (log, refuse RevisionConflict)
        else Ok (MkStamped (revision + 1) (pu_proposal p) now :: log, MkResult true false w id (revision + 1) hash None)
    | None =>
        if negb (pu_expectedRevision p =? revision) then Ok (log, refuse RevisionConflict)
        else Ok (MkStamped (revision + 1) (pu_proposal p) now :: log, MkResult true false w id (revision + 1) hash None)
    end.

Definition last_time (log : plog) : Z := match log with e :: _ => st_time e | [] => 0 end.

Definition spec_snapshot (log : plog) (w : string) : projection_snapshot :=
  MkSnapshot w (zlen log) (current log) (snapshot_hash w (zlen log) (current log)) (last_time log).

(** * Calls *)

Inductive call : Type :=
| Push (now : Z) (p : push_params)
| Cursor (workspaceId : string)
| Snapshot (workspaceId : string)
| Purge (workspaceId : string).

Inductive answer : Type :=
| APush (r : result push_error push_result)
| ACursor (r : result push_error cursor)
| ASnapshot (r : result push_error projection_snapshot)
| APurge (count : Z).

Definition perform (st : store) (c : call) : store * answer :=
  match c with
  | Push now p => match apply locale st now p with Ok (st', r) => (st', APush (Ok r)) | Err e => (st, APush (Err e)) end
  | Cursor w => (st, ACursor (getCursor locale st w))
  | Snapshot w => (st, ASnapshot (snapshot locale st w))
  | Purge w => let '(st', n) := purgeWorkspace st w in (st', APurge n)
  end.

Abbreviation logs := (gmap string plog).
Definition log_of (L : logs) (w : string) : plog := default [] (L !! w).

Definition spec_perform (L : logs) (c : call) : logs * answer :=
  match c with
  | Push now p =>
      let w := pu_workspaceId p in
      match spec_push (log_of L w) now p with Ok (log, r) => (<[w := log]> L, APush (Ok r)) | Err e => (L, APush (Err e)) end
  | Cursor w =>
      (L, ACursor (let* _ := assertWorkspaceId w in Ok (let log := log_of L w in MkCursor (zlen log) (snapshot_hash w (zlen log) (current log)) (last_time log))))
  | Snapshot w => (L, ASnapshot (let* _ := assertWorkspaceId w in Ok (spec_snapshot (log_of L w) w)))
  | Purge w => (delete w L, APurge (zlen (survivors (log_of L w))))
  end.

Fixpoint answers (st : store) (calls : list call) : list answer :=
  match calls with [] => [] | c :: calls => let '(st', a) := perform st c in a :: answers st' calls end.

Fixpoint spec_answers (L : logs) (calls : list call) : list answer :=
  match calls with [] => [] | c :: calls => let '(L', a) := spec_perform L c in a :: spec_answers L' calls end.

(** * The store is the logs *)

Definition row_of (e : stamped) : row := MkRow (st_revision e) (state_hash (st_state e)) (JSON_text (st_state e)) (st_time e).

Definition sound_state (s : jsv) : Prop := plain s /\ validateProposalProjectionState s = Ok tt.

Record models (st : store) (L : logs) : Prop := MkModels {
  mo_rows w id r : rows st !! (w, id) = Some r <-> exists e, e ∈ survivors (log_of L w) /\ stamped_id e = id /\ r = row_of e;
  mo_cursors w : cursors st !! w = match log_of L w with
                                   | [] => None
                                   | e :: _ => Some (MkCursor (zlen (log_of L w)) (snapshot_hash w (zlen (log_of L w)) (current (log_of L w))) (st_time e))
                                   end;
  mo_sound w : Forall (fun e => sound_state (st_state e)) (log_of L w);
}.

Lemma survivors_in log e : e ∈ survivors log -> e ∈ log.
Proof.
  induction log as [|x log IH]; simpl; [done|]. intros [->|H]%elem_of_cons; [by left|]. right. apply IH.
  apply list_elem_of_In, filter_In in H as [H _]. by apply list_elem_of_In.
Qed.

Lemma survivors_cons e log x : x ∈ survivors (e :: log) <-> x = e \/ (stamped_id x <> stamped_id e /\ x ∈ survivors log).
Proof.
  simpl. rewrite elem_of_cons, list_elem_of_In, filter_In, <- list_elem_of_In, negb_true_iff, bool_decide_eq_false. naive_solver.
Qed.

Lemma survivors_nodup log : NoDup (map stamped_id (survivors log)).
Proof.
  induction log as [|e log IH]; simpl; [constructor|]. constructor.
  - intros (x & Hx & Hin)%list_elem_of_In%in_map_iff. apply filter_In in Hin as [_ Hb]. rewrite negb_true_iff, bool_decide_eq_false in Hb. done.
  - clear -IH. induction (survivors log) as [|x l IHl]; simpl in *; [constructor|]. inversion IH as [|? ? Hx Hl]; subst.
    case_bool_decide; simpl; [by apply IHl|]. constructor; [|by apply IHl]. intros (y & Hy & Hin)%list_elem_of_In%in_map_iff.
    apply filter_In in Hin as [Hin _]. apply Hx. rewrite <- Hy. apply list_elem_of_In, in_map, Hin.
Qed.

Lemma survivors_unique log e e' : e ∈ survivors log -> e' ∈ survivors log -> stamped_id e = stamped_id e' -> e = e'.
Proof.
  intros He He' Hid. apply list_elem_of_lookup in He as [i Hi], He' as [j Hj]. assert (i = j) as ->; [|congruence].
  eapply (NoDup_lookup (map stamped_id (survivors log))); [apply survivors_nodup| |]; rewrite list_lookup_fmap; [by rewrite Hi|]. rewrite Hj. simpl. by rewrite Hid.
Qed.

Lemma latest_spec log id e : latest log id = Some e <-> e ∈ survivors log /\ stamped_id e = id.
Proof.
  unfold latest. split.
  - intros [Hin Hid]%find_some. apply bool_decide_eq_true in Hid. split; [by apply list_elem_of_In|done].
  - intros [Hin Hid]. destruct (List.find _ _) as [e'|] eqn:E.
    + apply find_some in E as [Hin' Hid']. apply bool_decide_eq_true in Hid'. f_equal.
      apply (survivors_unique log); [by apply list_elem_of_In|done|congruence].
    + apply list_elem_of_In in Hin. pose proof (find_none _ _ E e Hin) as Hn. simpl in Hn. by rewrite bool_decide_eq_true_2 in Hn.
Qed.

Lemma sound_survivors log : Forall (fun e => sound_state (st_state e)) log -> Forall (fun e => sound_state (st_state e)) (survivors log).
Proof. rewrite !Forall_forall. intros H e He. by apply H, survivors_in. Qed.

(** * Reading *)

Lemma parseRow_stored e : sound_state (st_state e) -> parseRow (stamped_id e) (row_of e) = Ok (st_state e).
Proof.
  intros [Hp Hv]. unfold parseRow. simpl. rewrite parse_stringify by done. rewrite Hv. simpl. by rewrite !bool_decide_eq_true_2.
Qed.

Lemma parse_rows_stored l : Forall (fun e => sound_state (st_state e)) l ->
  parse_rows (map (fun e => (stamped_id e, row_of e)) l) = Ok (map st_state l).
Proof. induction 1 as [|e l He _ IH]; simpl; [done|]. by rewrite parseRow_stored, IH. Qed.

Lemma sort_insert_map {A B} (f : A -> B) (key : A -> string) (key' : B -> string) x l : (forall a, key' (f a) = key a) ->
  sort_insert (by_key key') (f x) (map f l) = map f (sort_insert (by_key key) x l).
Proof. intros Hf. induction l as [|y l IH]; simpl; [done|]. assert (by_key key' (f x) (f y) = by_key key x y) as -> by (unfold by_key; by rewrite !Hf).
  destruct (_ <=? _); [done|]. simpl. by rewrite IH. Qed.

Lemma js_sort_map {A B} (f : A -> B) (key : A -> string) (key' : B -> string) l : (forall a, key' (f a) = key a) ->
  js_sort (by_key key') (map f l) = map f (js_sort (by_key key) l).
Proof. intros Hf. unfold js_sort. induction l as [|x l IH]; simpl; [done|]. rewrite IH. by apply sort_insert_map. Qed.

Definition rows_of (st : store) (w : string) : list (string * row) :=
  omap (fun kr => if bool_decide (fst (fst kr) = w) then Some (snd (fst kr), snd kr) else None) (map_to_list (rows st)).

Lemma rows_of_spec st w id r : (id, r) ∈ rows_of st w <-> rows st !! (w, id) = Some r.
Proof.
  unfold rows_of. rewrite list_elem_of_omap. split.
  - intros ([[w' id'] r'] & Hin & Hb). simpl in Hb. case_bool_decide; [|done]. simplify_eq. by apply elem_of_map_to_list in Hin.
  - intros Hr. exists (w, id, r). split; [by apply elem_of_map_to_list|]. simpl. by rewrite bool_decide_eq_true_2.
Qed.

Lemma rows_of_nodup st w : NoDup (map fst (rows_of st w)).
Proof.
  unfold rows_of. pose proof (NoDup_fst_map_to_list (rows st)) as Hnd. revert Hnd. generalize (map_to_list (rows st)). intros l Hnd.
  induction l as [|[[w' id] r] l IH]; simpl in *; [constructor|]. inversion Hnd as [|? ? Hx Hl]; subst. case_bool_decide; [|by apply IH]. simpl.
  constructor; [|by apply IH]. intros ([id' r'] & Heq & Hin)%list_elem_of_In%in_map_iff. simpl in Heq. subst. apply Hx.
  apply list_elem_of_In in Hin. apply list_elem_of_omap in Hin as ([[w1 id1] r1] & Hin & Hb). simpl in Hb. case_bool_decide; [|done]. simplify_eq.
  apply list_elem_of_In, in_map_iff. eexists. split; [|by apply list_elem_of_In]. done.
Qed.

Lemma rows_of_log st L w : models st L -> rows_of st w ≡ₚ map (fun e => (stamped_id e, row_of e)) (survivors (log_of L w)).
Proof.
  intros Hm. apply NoDup_Permutation.
  - apply (NoDup_fmap_1 fst). apply rows_of_nodup.
  - apply (NoDup_fmap_1 fst). rewrite <- list_fmap_compose. apply survivors_nodup.
  - intros [id r]. rewrite rows_of_spec, (mo_rows _ _ Hm), list_elem_of_In, in_map_iff. split.
    + intros (e & He & <- & ->). exists e. split; [done|]. by apply list_elem_of_In.
    + intros (e & [= <- <-] & He). exists e. split; [by apply list_elem_of_In|done].
Qed.

Lemma workspace_rows_log st L w : models st L ->
  workspace_rows st w = map (fun e => (stamped_id e, row_of e)) (js_sort (by_key stamped_id) (survivors (log_of L w))).
Proof.
  intros Hm. unfold workspace_rows. fold (rows_of st w). rewrite <- (js_sort_map _ stamped_id fst) by done.
  apply js_sort_permutation; [apply rows_of_nodup|by apply rows_of_log].
Qed.

Lemma readProposals_log st L w : models st L -> readProposals st w = Ok (current (log_of L w)).
Proof.
  intros Hm. unfold readProposals. rewrite (workspace_rows_log st L w Hm). apply parse_rows_stored. rewrite js_sort_perm.
  apply sound_survivors, (mo_sound _ _ Hm).
Qed.

Lemma getCursor_log st L w : models st L ->
  getCursor locale st w = (let* _ := assertWorkspaceId w in Ok (let log := log_of L w in MkCursor (zlen log) (snapshot_hash w (zlen log) (current log)) (last_time log))).
Proof. intros Hm. unfold getCursor. rewrite (mo_cursors _ _ Hm). by destruct (assertWorkspaceId w), (log_of L w). Qed.

Lemma row_log st L w id : models st L -> rows st !! (w, id) = row_of <$> latest (log_of L w) id.
Proof.
  intros Hm. destruct (latest (log_of L w) id) as [e|] eqn:E; simpl.
  - apply latest_spec in E as [? ?]. apply (mo_rows _ _ Hm). eauto.
  - destruct (rows st !! (w, id)) as [r|] eqn:Er; [|done]. apply (mo_rows _ _ Hm) in Er as (e & He & Hid & _).
    by rewrite (proj2 (latest_spec _ _ e)) in E.
Qed.

(** * Writing *)

Lemma log_of_insert L w log w' : log_of (<[w := log]> L) w' = if decide (w = w') then log else log_of L w'.
Proof. unfold log_of. destruct (decide _) as [->|?]; [by rewrite lookup_insert_eq|by rewrite lookup_insert_ne]. Qed.

Lemma log_of_delete L w w' : log_of (delete w L) w' = if decide (w = w') then [] else log_of L w'.
Proof. unfold log_of. destruct (decide _) as [->|?]; [by rewrite lookup_delete_eq|by rewrite lookup_delete_ne]. Qed.

(** The rows after a state was written; the cursor follows. *)
Lemma rows_pushed st L w e : models st L -> forall w' id r,
  <[(w, stamped_id e) := row_of e]> (rows st) !! (w', id) = Some r <->
  exists e', e' ∈ survivors (log_of (<[w := e :: log_of L w]> L) w') /\ stamped_id e' = id /\ r = row_of e'.
Proof.
  intros Hm w' id r. rewrite log_of_insert. destruct (decide (w = w')) as [<-|Hne].
  - destruct (decide (id = stamped_id e)) as [->|Hid].
    + rewrite lookup_insert_eq. split; [intros [= <-]; exists e; split_and!; [apply survivors_cons; by left|done|done]|].
      intros (e' & [->|[? ?]]%survivors_cons & ? & ->); done.
    + rewrite lookup_insert_ne by congruence. rewrite (mo_rows _ _ Hm). split; intros (e' & He & Hi & ->); exists e'; (split; [|done]).
      * apply survivors_cons. right. split; [congruence|done].
      * apply survivors_cons in He as [->|[_ ?]]; done.
  - rewrite lookup_insert_ne by congruence. apply (mo_rows _ _ Hm).
Qed.

(** A store with the rows of the logs reads them, whatever its cursors. *)
Lemma write_state_log st L now p : models st L -> sound_state (pu_proposal p) ->
  let log := log_of L (pu_workspaceId p) in let e := MkStamped (zlen log + 1) (pu_proposal p) now in
  exists st', write_state locale st now p (zlen log + 1) (state_hash (pu_proposal p)) = Ok st' /\ models st' (<[pu_workspaceId p := e :: log]> L).
Proof.
  intros Hm Hs log e. set (w := pu_workspaceId p) in *. unfold write_state. fold w.
  change (state_id (pu_proposal p)) with (stamped_id e). change (MkRow _ _ _ _) with (row_of e).
  set (L' := <[w := e :: log]> L). set (rows' := <[(w, stamped_id e) := row_of e]> (rows st)).
  set (cursors' := <[w := MkCursor (zlen log + 1) (snapshot_hash w (zlen log + 1) (current (e :: log))) now]> (cursors st)).
  assert (Hm' : models (MkStore rows' cursors') L').
  { split; simpl.
    - apply (rows_pushed st L w e Hm).
    - intros w'. unfold cursors', L'. rewrite log_of_insert. destruct (decide (w = w')) as [<-|?].
      + rewrite lookup_insert_eq, zlen_cons. by rewrite (Z.add_comm 1).
      + rewrite lookup_insert_ne by done. apply (mo_cursors _ _ Hm).
    - intros w'. unfold L'. rewrite log_of_insert. destruct (decide _); [constructor; [done|]|]; apply (mo_sound _ _ Hm). }
  pose proof (readProposals_log _ _ w Hm') as Hr. unfold L' in Hr. rewrite log_of_insert, decide_True in Hr by done.
  unfold readProposals, workspace_rows in *. simpl in *. rewrite Hr. simpl. by eexists.
Qed.

Lemma models_same st L L' : models st L -> (forall w, log_of L' w = log_of L w) -> models st L'.
Proof.
  intros Hm HL. split; [intros w id r|intros w|intros w]; rewrite HL; [apply (mo_rows _ _ Hm)|apply (mo_cursors _ _ Hm)|apply (mo_sound _ _ Hm)].
Qed.

Lemma same_log st L w : models st L -> models st (<[w := log_of L w]> L).
Proof. intros Hm. apply (models_same st L); [done|]. intros w'. rewrite log_of_insert. by destruct (decide _) as [->|]. Qed.

Lemma validated_workspace p : validatePushParams p = Ok tt -> assertWorkspaceId (pu_workspaceId p) = Ok tt.
Proof. unfold validatePushParams. destruct (assertWorkspaceId (pu_workspaceId p)) as [[]|]; [done|intros [=]]. Qed.

Lemma perform_push st L now p : models st L -> plain (pu_proposal p) ->
  snd (perform st (Push now p)) = snd (spec_perform L (Push now p)) /\ models (fst (perform st (Push now p))) (fst (spec_perform L (Push now p))).
Proof.
  intros Hm Hc. simpl. unfold apply, spec_push. destruct (validatePushParams p) as [[]|] eqn:Ep; [|done]. simpl.
  destruct (validateProposalProjectionState (pu_proposal p)) as [[]|] eqn:Ev; [|done]. simpl.
  assert (Hw : assertWorkspaceId (pu_workspaceId p) = Ok tt) by (by apply validated_workspace).
  rewrite (getCursor_log st L), Hw, (row_log st L) by done. simpl. pose proof (same_log st L (pu_workspaceId p) Hm) as Hsame.
  pose proof (write_state_log st L now p Hm (conj Hc Ev)) as (st' & Hwr & Hm').
  destruct (bool_decide (pu_stateHash p = _)); simpl; [|done].
  destruct (latest (log_of L (pu_workspaceId p)) (state_id (pu_proposal p))) as [e|] eqn:El; simpl;
    [destruct (bool_decide (state_hash (st_state e) = _)); simpl|].
  - apply latest_spec in El as [He Hid]. rewrite <- Hid, parseRow_stored; [done|].
    pose proof (sound_survivors _ (mo_sound _ _ Hm (pu_workspaceId p))) as Hf. rewrite Forall_forall in Hf. by apply Hf.
  - destruct (pu_expectedRevision p =? _); simpl; [|done]. by rewrite Hwr.
  - destruct (pu_expectedRevision p =? _); simpl; [|done]. by rewrite Hwr.
Qed.

Lemma perform_log st L c : models st L -> (match c with Push _ p => plain (pu_proposal p) | _ => True end) ->
  snd (perform st c) = snd (spec_perform L c) /\ models (fst (perform st c)) (fst (spec_perform L c)).
Proof.
  intros Hm Hc. destruct c as [now p|w|w|w]; [by apply perform_push|simpl..].
  - by rewrite (getCursor_log st L).
  - split; [|exact Hm]. f_equal. unfold snapshot. rewrite (getCursor_log st L), (readProposals_log st L) by done. destruct (assertWorkspaceId w) as [[]|]; [|reflexivity].
    cbn [bind_res cu_revision cu_snapshotHash cu_updatedAt]. by rewrite bool_decide_eq_true_2.
  - split.
    + f_equal. unfold workspace_rows. fold (rows_of st w). unfold zlen. by rewrite js_sort_perm, (rows_of_log st L w Hm), length_map.
    + split; simpl.
      * intros w' id r. rewrite log_of_delete, map_lookup_filter_Some. simpl. destruct (decide (w = w')) as [->|Hne].
        -- split; [by intros [_ ?]|]. intros (e & He & _). inversion He.
        -- rewrite (mo_rows _ _ Hm). split; [by intros [? _]|]. by split.
      * intros w'. rewrite log_of_delete. destruct (decide (w = w')) as [->|Hne]; [by rewrite lookup_delete_eq|].
        rewrite lookup_delete_ne by done. apply (mo_cursors _ _ Hm).
      * intros w'. rewrite log_of_delete. destruct (decide _); [constructor|apply (mo_sound _ _ Hm)].
Qed.

Lemma answers_log calls : Forall (fun c => match c with Push _ p => plain (pu_proposal p) | _ => True end) calls ->
  forall st L, models st L -> answers st calls = spec_answers L calls.
Proof.
  induction 1 as [|c calls Hc _ IH]; intros st L Hm; simpl; [done|]. destruct (perform_log st L c Hm Hc) as [Ha Hm'].
  destruct (perform st c), (spec_perform L c). simpl in *. subst. f_equal. by apply IH.
Qed.

(** C21: the projection is a log of accepted states.  Whatever JSON states are pushed, read and
    purged, every answer of the store is the one of a log per workspace: a push is appended
    exactly when its hash is right, its revision is the length of the log and its proposal has
    not this hash already; a snapshot has the latest state of every proposal in the order of
    their identifiers; no stored row is ever found corrupt. *)
Theorem projection_refines_the_log calls :
  Forall (fun c => match c with Push _ p => plain (pu_proposal p) | _ => True end) calls ->
  answers empty_store calls = spec_answers ∅ calls.
Proof.
  intros Hc. apply answers_log; [done|]. split.
  - intros w id r. unfold log_of. rewrite !lookup_empty. simpl. split; [done|]. intros (e & He & _). inversion He.
  - done.
  - intros w. constructor.
Qed.

End Spec.

(** * Where the hashes fall short *)

Definition a_state (patch : string) : jsv :=
  record_value (MkRecord (MkProposal "p" "t" 0 None ("document", "c") Update (VStr patch) VUndef None) Pending 1 1 None VUndef).

Definition push_of (expected : Z) (patch : string) : push_params :=
  MkPush "w" expected (a_state patch) (calculateProposalProjectionStateHash (a_state patch)).

(** Two states of a proposal with the same 32-bit hash: the second push is acknowledged as a
    retry of the first, and the daemon keeps the text that was replaced. *)
Definition dora : jsv := a_state "Dora leaves the dark horse.".
Definition tilda : jsv := a_state "Tilda leaves the red clock.".

(** What an answer says of the proposals: the flags of a push, the contents of a snapshot. *)
Definition summary (a : answer) : list bool * list jsv :=
  match a with
  | APush (Ok r) => ([pr_accepted r; pr_duplicate r], [])
  | ASnapshot (Ok s) => ([], sn_proposals s)
  | _ => ([], [])
  end.

Lemma colliding_state_is_lost :
  dora <> tilda /\
  map summary (answers compare_strings empty_store [Push 5 (push_of 0 "Dora leaves the dark horse."); Push 6 (push_of 1 "Tilda leaves the red clock."); Snapshot "w"]) =
    [([true; false], []); ([true; true], []); ([], [dora])].
Proof. split; [done|]. by vm_compute. Qed.

(** * Witness *)

Lemma a_state_plain patch : plain (a_state patch).
Proof.
  split; [apply (bool_decide_unpack _); reflexivity|]. cbn -[Z.pow]. split_and!; try lia; try done. apply (bool_decide_unpack _). reflexivity.
Qed.

Definition sample_pushes : list call :=
  [Push 5 (push_of 0 "draft"); Push 6 (push_of 0 "draft"); Push 7 (push_of 0 "late"); Push 8 (push_of 1 "final"); Snapshot "w"; Purge "w"; Snapshot "w"].

Lemma projection_refines_the_log_witness :
  answers compare_strings empty_store sample_pushes = spec_answers compare_strings ∅ sample_pushes /\
  map (fun a => match a with APush (Ok r) => pr_revision r | ASnapshot (Ok s) => sn_revision s | APurge n => n | _ => -1 end)
    (answers compare_strings empty_store sample_pushes) = [1; 1; 1; 2; 2; 1; 0].
Proof.
  split; [|by vm_compute]. apply (projection_refines_the_log compare_strings). unfold sample_pushes.
  repeat (apply Forall_cons_2; [first [exact I|by apply a_state_plain]|]). apply Forall_nil_2.
Defined.
