(* ===== verification/Editor.v ===== *)
(** The headless editor (package editor-core: state.ts, ghost-text.ts, ime.ts): a document of
    paragraphs with its selection, version, word count cache and undo and redo stacks; the
    suggestion shown as ghost text, accepted as a whole, by words or by lines; the protection
    of a composition of an input method.

    Modelling choices: texts are lists of UTF-16 code units; positions are integers; the
    clock and the identifiers of suggestions are arguments; the deep copy through JSON is the
    identity; a method that changes the object returns the new one. *)

From S2P Require Import Prelude Text RpcLines.

Open Scope Z_scope.

(** * Strings *)

(** The index a relative position of [slice] stands for. *)
Definition js_index (len i : Z) : Z := if i <? 0 then Z.max 0 (len + i) else Z.min i len.

(** [s.slice(a, b)] and [s.slice(a)]. *)
Definition slice {A : Type} (s : list A) (a b : Z) : list A := subarray s (js_index (zlen s) a) (js_index (zlen s) b).
Definition slice_from {A : Type} (s : list A) (a : Z) : list A := zdrop (js_index (zlen s) a) s.

(** [s.split('\n')] and [lines.join('\n')]. *)
Fixpoint split_lines (s : ustring) : list ustring :=
  match s with
  | [] => [[]]
  | u :: s =>
      if u =? 10 then [] :: split_lines s
      else match split_lines s with line :: lines => (u :: line) :: lines | [] => [[u]] end
  end.

Fixpoint join_lines (lines : list ustring) : ustring :=
  match lines with
  | [] => []
  | [line] => line
  | line :: lines => line ++ 10 :: join_lines lines
  end.

Definition is_chinese (u : Z) : bool := in_range 0x4e00 0x9fa5 u.

(** [[a-zA-Z0-9_-]]. *)
Definition is_word (u : Z) : bool := in_range 97 122 u || in_range 65 90 u || in_range 48 57 u || (u =? 95) || (u =? 45).

(** The matches of a class with [+], found from left to right, each as long as can be. *)
Fixpoint runs (p : Z -> bool) (current : ustring) (s : ustring) : list ustring :=
  match s with
  | [] => match current with [] => [] | _ => [current] end
  | u :: s =>
      if p u then runs p (current ++ [u]) s
      else match current with [] => runs p [] s | _ => current :: runs p [] s end
  end.

(** * Documents *)

Inductive node_type : Type := NDoc | NParagraph | NHeading | NText | NBlockquote.

Inductive DocumentNode : Type := MkNode (type : node_type) (text : option ustring) (content : option (list DocumentNode)).

Definition node_text (n : DocumentNode) : option ustring := let 'MkNode _ text _ := n in text.
Definition node_content (n : DocumentNode) : option (list DocumentNode) := let 'MkNode _ _ content := n in content.

Definition paragraph_of (line : ustring) : DocumentNode :=
  MkNode NParagraph None (Some (match line with [] => [] | _ => [MkNode NText (Some line) None] end)).

Definition doc_of (text : ustring) : DocumentNode := MkNode NDoc None (Some (map paragraph_of (split_lines text))).

Definition line_of (p : DocumentNode) : ustring :=
  match node_content p with
  | Some ts => concat (map (fun t => default [] (node_text t)) ts)
  | None => []
  end.

Definition text_of (doc : DocumentNode) : ustring :=
  join_lines (match node_content doc with Some ps => map line_of ps | None => [] end).

Record SelectionRange : Type := MkRange { from : Z; to : Z }.

Inductive step_type : Type := SReplace | SInsert | SDelete.

Record EditorStep : Type := MkStep { st_type : step_type; st_from : Z; st_to : Z; st_text : option ustring }.

Record EditorTransaction : Type := MkTransaction { steps : list EditorStep; docBefore : DocumentNode; docAfter : DocumentNode; time : Z }.

(** The stacks have their top last. *)
Record editor : Type := MkEditor {
  doc : DocumentNode; selection : SelectionRange; version : Z; cachedWordCountVersion : Z; cachedWordCount : Z;
  undoStack : list EditorTransaction; redoStack : list EditorTransaction }.

Definition new_editor (initialText : ustring) : editor :=
  MkEditor (match initialText with [] => MkNode NDoc None (Some [MkNode NParagraph None (Some [])]) | _ => doc_of initialText end) (MkRange 0 0) 1 0 0 [] [].

Definition setSelection (e : editor) (from to : Z) : editor :=
  MkEditor (doc e) (MkRange from to) (version e) (cachedWordCountVersion e) (cachedWordCount e) (undoStack e) (redoStack e).

Definition getText (e : editor) : ustring := text_of (doc e).

(** The count of a text, as [getWordCount] finds it. *)
Definition count_words (text : ustring) : Z :=
  match trim text with
  | [] => 0
  | _ =>
      let chineseChars := zlen (List.filter is_chinese text) in
      let englishWords := zlen (runs is_word [] (map (fun u => if is_chinese u then 32 else u) text)) in
      chineseChars + englishWords
  end.

Definition getWordCount (e : editor) : editor * Z :=
  if cachedWordCountVersion e =? version e then (e, cachedWordCount e)
  else
    let count := count_words (getText e) in
    (MkEditor (doc e) (selection e) (version e) (version e) count (undoStack e) (redoStack e), count).

(** A transaction that replaces the document. *)
Definition transact (e : editor) (newText : ustring) (sel : SelectionRange) (step : EditorStep) (now : Z) : editor * EditorTransaction :=
  let after := doc_of newText in
  let tr := MkTransaction [step] (doc e) after now in
  (MkEditor after sel (version e + 1) (cachedWordCountVersion e) (cachedWordCount e) (undoStack e ++ [tr]) [], tr).

Definition insertText (e : editor) (pos : Z) (text : ustring) (now : Z) : editor * EditorTransaction :=
  let currentText := getText e in
  let newText := slice currentText 0 pos ++ text ++ slice_from currentText pos in
  transact e newText (MkRange (pos + zlen text) (pos + zlen text)) (MkStep SInsert pos pos (Some text)) now.

Definition insert (e : editor) (text : ustring) (now : Z) : editor * EditorTransaction := insertText e (to (selection e)) text now.

Definition deleteRange (e : editor) (from to : Z) (now : Z) : editor * EditorTransaction :=
  let currentText := getText e in
  let deletedText := slice currentText from to in
  let newText := slice currentText 0 from ++ slice_from currentText to in
  transact e newText (MkRange from from) (MkStep SDelete from to (Some deletedText)) now.

Definition replaceRange (e : editor) (start stop : Z) (text : ustring) (now : Z) : editor * EditorTransaction :=
  let '(e, _) := deleteRange e start stop now in insertText e start text now.

Definition undo (e : editor) : editor * bool :=
  match last (undoStack e) with
  | None => (e, false)
  | Some tr =>
      (MkEditor (docBefore tr) (selection e) (version e + 1) (cachedWordCountVersion e) (cachedWordCount e)
                (removelast (undoStack e)) (redoStack e ++ [tr]), true)
  end.

Definition redo (e : editor) : editor * bool :=
  match last (redoStack e) with
  | None => (e, false)
  | Some tr =>
      (MkEditor (docAfter tr) (selection e) (version e + 1) (cachedWordCountVersion e) (cachedWordCount e)
                (undoStack e ++ [tr]) (removelast (redoStack e)), true)
  end.

Definition getUndoStackDepth (e : editor) : Z := zlen (undoStack e).
Definition getRedoStackDepth (e : editor) : Z := zlen (redoStack e).

Definition clearHistory (e : editor) : editor :=
  MkEditor (doc e) (selection e) (version e) (cachedWordCountVersion e) (cachedWordCount e) [] [].

Definition setContent (e : editor) (text : ustring) : editor :=
  clearHistory (MkEditor (doc_of text) (selection e) (version e + 1) (cachedWordCountVersion e) (cachedWordCount e) (undoStack e) (redoStack e)).

(** * Ghost text *)

Module Ghost.

Record GhostTextSuggestion : Type := MkSuggestion { id : string; pos : Z; text : ustring; source : string; createdAt : Z }.

(** [this.state] and [this.editor]. *)
Record manager : Type := MkManager { active : bool; current : option GhostTextSuggestion; edited : editor }.

Definition new_manager (e : editor) : manager := MkManager false None e.

Definition setGhostText (g : manager) (pos : Z) (text : ustring) (source id : string) (now : Z) : manager :=
  MkManager true (Some (MkSuggestion id pos text source now)) (edited g).

Definition suggest (g : manager) (text : ustring) (pos : option Z) (id : string) (now : Z) : manager :=
  setGhostText g (default (zlen (getText (edited g))) pos) text "ai-stream" id now.

Definition dismissGhostText (g : manager) : manager := MkManager false None (edited g).

Definition hasGhostText (g : manager) : bool :=
  active g && match current g with Some s => negb (bool_decide (text s = [])) | None => false end.

Definition acceptGhostText (g : manager) (now : Z) : manager * bool :=
  if negb (hasGhostText g) then (g, false)
  else
    match current g with
    | None => (g, false)
    | Some s => (dismissGhostText (MkManager (active g) (current g) (fst (insertText (edited g) (pos s) (text s) now))), true)
    end.

(** The suggestion after its first units were inserted. *)
Definition accept_part (g : manager) (s : GhostTextSuggestion) (part : ustring) (now : Z) : manager :=
  let e := fst (insertText (edited g) (pos s) part now) in
  let remaining := slice_from (text s) (zlen part) in
  if zlen remaining >? 0
  then MkManager (active g) (Some (MkSuggestion (id s) (pos s + zlen part) remaining (source s) (createdAt s))) e
  else dismissGhostText (MkManager (active g) (current g) e).

Fixpoint take_while (p : Z -> bool) (s : ustring) : ustring :=
  match s with u :: s => if p u then u :: take_while p s else [] | [] => [] end.

(** [[^\s\w\u4e00-\u9fa5]]; [\w] has no hyphen. *)
Definition is_mark (u : Z) : bool := negb (is_white u || is_chinese u || (is_word u && negb (u =? 45))).

(** The match of the alternatives at the start of the text. *)
Definition match_word (s : ustring) : option ustring :=
  match take_while is_chinese s, take_while is_word s, take_while is_white s, take_while is_mark s with
  | (_ :: _) as w, _, _, _ | _, (_ :: _) as w, _, _ | _, _, (_ :: _) as w, _ | _, _, _, (_ :: _) as w => Some w
  | _, _, _, _ => None
  end.

Definition acceptWord (g : manager) (now : Z) : manager * bool :=
  if negb (hasGhostText g) then (g, false)
  else
    match current g with
    | None => (g, false)
    | Some s => (accept_part g s (match match_word (text s) with Some w => w | None => take 1 (text s) end) now, true)
    end.

(** [text.indexOf('\n')]; [None] for -1. *)
Fixpoint index_newline (s : ustring) : option Z :=
  match s with
  | [] => None
  | u :: s => if u =? 10 then Some 0 else Z.succ <$> index_newline s
  end.

Definition acceptLine (g : manager) (now : Z) : manager * bool :=
  if negb (hasGhostText g) then (g, false)
  else
    match current g with
    | None => (g, false)
    | Some s => (accept_part g s (match index_newline (text s) with Some i => slice (text s) 0 (i + 1) | None => text s end) now, true)
    end.

End Ghost.

(** * Compositions of an input method *)

Module Ime.

Record manager : Type := MkIme { isComposing : bool; compositionText : ustring }.

Definition new_manager : manager := MkIme false [].

Definition onCompositionStart (m : manager) : manager := MkIme true [].
Definition onCompositionUpdate (m : manager) (text : ustring) : manager := if isComposing m then MkIme (isComposing m) text else m.
Definition onCompositionEnd (m : manager) (finalText : ustring) : manager * ustring := (MkIme false [], finalText).

End Ime.
