(* ===== verification/EditorProofs.v ===== *)
(** What the editor promises: behind its documents, versions and caches it is a history of
    texts with a past and a future, its word count is the count of the text it shows, and ghost
    text arrives in the document once, however it is accepted. *)

From S2P Require Import Prelude Text RpcLines Editor.

Open Scope Z_scope.

(** * Texts and documents *)

Lemma split_lines_nonempty s : split_lines s <> [].
Proof. destruct s as [|u s]; simpl; [done|]. repeat case_match; done. Qed.

Lemma join_cons line lines : lines <> [] -> join_lines (line :: lines) = line ++ 10 :: join_lines lines.
Proof. by destruct lines. Qed.

Lemma join_split s : join_lines (split_lines s) = s.
Proof.
  induction s as [|u s IH]; simpl; [done|]. destruct (Z.eqb_spec u 10) as [->|].
  - rewrite join_cons by apply split_lines_nonempty. by rewrite IH.
  - destruct (split_lines s) as [|line [|l lines]]; simpl in *; [by subst|by subst|by rewrite IH].
Qed.

Lemma line_of_paragraph line : line_of (paragraph_of line) = line.
Proof. destruct line; [done|]. unfold line_of. simpl. by rewrite app_nil_r. Qed.

Lemma text_of_doc s : text_of (doc_of s) = s.
Proof. unfold text_of, doc_of. simpl. rewrite map_map. rewrite (map_ext _ id), map_id by apply line_of_paragraph. apply join_split. Qed.

Lemma getText_new s : getText (new_editor s) = s.
Proof. destruct s; [done|]. apply text_of_doc. Qed.

Lemma js_index_range len i : 0 <= len -> 0 <= js_index len i <= len.
Proof. unfold js_index. intros. destruct (Z.ltb_spec i 0); lia. Qed.

Lemma slice_prefix {A : Type} (s : list A) n : slice s 0 n = ztake (js_index (zlen s) n) s.
Proof.
  unfold slice, subarray. replace (js_index (zlen s) 0) with 0 by (unfold js_index; simpl; pose proof (zlen_nonneg s); lia). by rewrite Z.sub_0_r.
Qed.

(** * Counting words *)

(** The Chinese characters, and the word characters that follow no word character. *)
Definition word_count (s : ustring) : Z :=
  zlen (List.filter is_chinese s) + zlen (List.filter (fun '(before, u) => is_word u && negb (is_word before)) (zip (32 :: s) s)).

Fixpoint starts (inside : bool) (s : ustring) : Z :=
  match s with
  | [] => 0
  | u :: s => (if is_word u && negb inside then 1 else 0) + starts (is_word u) s
  end.

Lemma runs_starts s : forall current, zlen (runs is_word current s) = (match current with [] => 0 | _ => 1 end) + starts (match current with [] => false | _ => true end) s.
Proof.
  induction s as [|u s IH]; intros current; simpl; [by destruct current|]. destruct (is_word u) eqn:Eu.
  - rewrite IH. destruct current; simpl; lia.
  - destruct current as [|v c]; [by rewrite IH|]. rewrite zlen_cons, IH. simpl. lia.
Qed.

Lemma zip_starts s : forall before, zlen (List.filter (fun '(before, u) => is_word u && negb (is_word before)) (zip (before :: s) s)) = starts (is_word before) s.
Proof. induction s as [|u s IH]; intros before; simpl; [done|]. specialize (IH u). destruct (is_word u && _); [rewrite zlen_cons|]; simpl in *; lia. Qed.

Lemma chinese_no_word u : is_chinese u = true -> is_word u = false.
Proof. unfold is_chinese, is_word, in_range. lia. Qed.

Lemma starts_spaced s : forall inside, starts inside (map (fun u => if is_chinese u then 32 else u) s) = starts inside s.
Proof.
  induction s as [|u s IH]; intros inside; simpl; [done|]. assert (is_word (if is_chinese u then 32 else u) = is_word u) as ->; [|by rewrite IH].
  destruct (is_chinese u) eqn:E; [|done]. by rewrite (chinese_no_word u).
Qed.

Lemma white_counts_nothing u : is_white u = true -> is_chinese u = false /\ is_word u = false.
Proof. unfold is_white, is_chinese, is_word, in_range. simpl. lia. Qed.

Lemma trim_left_white s : trim_left s = [] <-> forallb is_white s = true.
Proof. induction s as [|u s IH]; simpl; [done|]. by destruct (is_white u). Qed.

Lemma trim_left_head s : match trim_left s with u :: _ => is_white u = false | [] => True end.
Proof. induction s as [|u s IH]; simpl; [done|]. destruct (is_white u) eqn:E; [done|exact E]. Qed.

Lemma trim_blank s : trim s = [] -> forallb is_white s = true.
Proof.
  unfold trim. intros H. apply (f_equal (@rev Z)) in H. rewrite rev_involutive in H. simpl in H. apply trim_left_white in H. pose proof (trim_left_head s) as Hh.
  destruct (trim_left s) as [|u s'] eqn:E; [by apply trim_left_white|]. rewrite forallb_forall in H. specialize (H u). rewrite <- in_rev in H. rewrite H in Hh; [done|by left].
Qed.

Lemma blank_counts s : forallb is_white s = true -> zlen (List.filter is_chinese s) = 0 /\ starts false s = 0.
Proof.
  induction s as [|u s IH]; simpl; [done|]. intros [Hu Hs]%andb_true_iff. destruct (white_counts_nothing u Hu) as [-> ->]. by apply IH.
Qed.

Lemma count_words_spec s : count_words s = word_count s.
Proof.
  unfold count_words, word_count. rewrite (zip_starts s 32). change (is_word 32) with false. destruct (trim s) eqn:E.
  - apply trim_blank, blank_counts in E as [-> ->]. done.
  - rewrite runs_starts. simpl. by rewrite starts_spaced.
Qed.

(** * Histories *)

(** The past and the future have the nearest text first. *)
Record history : Type := MkHistory { past : list ustring; present : ustring; future : list ustring; selected : SelectionRange }.

Definition splice (s : ustring) (i j : Z) (inserted : ustring) : ustring := ztake (js_index (zlen s) i) s ++ inserted ++ zdrop (js_index (zlen s) j) s.

Definition edit (h : history) (t : ustring) (sel : SelectionRange) : history := MkHistory (present h :: past h) t [] sel.

Definition h_insert (h : history) (pos : Z) (t : ustring) : history := edit h (splice (present h) pos pos t) (MkRange (pos + zlen t) (pos + zlen t)).
Definition h_delete (h : history) (a b : Z) : history := edit h (splice (present h) a b []) (MkRange a a).

(** The calls a client makes, and what they answer. *)
Inductive call : Type :=
| CInsert (text : ustring) (now : Z)
| CInsertText (pos : Z) (text : ustring) (now : Z)
| CDeleteRange (a b now : Z)
| CReplaceRange (a b : Z) (text : ustring) (now : Z)
| CUndo | CRedo | CClearHistory
| CSetContent (text : ustring)
| CSetSelection (a b : Z)
| CGetText | CGetWordCount | CGetSelection | CGetDepths.

Inductive answer : Type :=
| ADone
| AStep (step : EditorStep)
| ABool (b : bool)
| AText (t : ustring)
| ACount (n : Z)
| ASelection (sel : SelectionRange)
| ADepths (undo redo : Z).

Definition answer_step (r : editor * EditorTransaction) : editor * answer := (fst r, match steps (snd r) with [s] => AStep s | _ => ADone end).

Definition serve (e : editor) (c : call) : editor * answer :=
  match c with
  | CInsert t now => answer_step (insert e t now)
  | CInsertText pos t now => answer_step (insertText e pos t now)
  | CDeleteRange a b now => answer_step (deleteRange e a b now)
  | CReplaceRange a b t now => answer_step (replaceRange e a b t now)
  | CUndo => let '(e, b) := undo e in (e, ABool b)
  | CRedo => let '(e, b) := redo e in (e, ABool b)
  | CClearHistory => (clearHistory e, ADone)
  | CSetContent t => (setContent e t, ADone)
  | CSetSelection a b => (setSelection e a b, ADone)
  | CGetText => (e, AText (getText e))
  | CGetWordCount => let '(e, n) := getWordCount e in (e, ACount n)
  | CGetSelection => (e, ASelection (selection e))
  | CGetDepths => (e, ADepths (getUndoStackDepth e) (getRedoStackDepth e))
  end.

Definition h_serve (h : history) (c : call) : history * answer :=
  match c with
  | CInsert t now => let pos := to (selected h) in (h_insert h pos t, AStep (MkStep SInsert pos pos (Some t)))
  | CInsertText pos t now => (h_insert h pos t, AStep (MkStep SInsert pos pos (Some t)))
  | CDeleteRange a b now => (h_delete h a b, AStep (MkStep SDelete a b (Some (slice (present h) a b))))
  | CReplaceRange a b t now => (h_insert (h_delete h a b) a t, AStep (MkStep SInsert a a (Some t)))
  | CUndo => match past h with t :: ts => (MkHistory ts t (present h :: future h) (selected h), ABool true) | [] => (h, ABool false) end
  | CRedo => match future h with t :: ts => (MkHistory (present h :: past h) t ts (selected h), ABool true) | [] => (h, ABool false) end
  | CClearHistory => (MkHistory [] (present h) [] (selected h), ADone)
  | CSetContent t => (MkHistory [] t [] (selected h), ADone)
  | CSetSelection a b => (MkHistory (past h) (present h) (future h) (MkRange a b), ADone)
  | CGetText => (h, AText (present h))
  | CGetWordCount => (h, ACount (word_count (present h)))
  | CGetSelection => (h, ASelection (selected h))
  | CGetDepths => (h, ADepths (zlen (past h)) (zlen (future h)))
  end.

Fixpoint serve_all {S : Type} (step : S -> call -> S * answer) (s : S) (cs : list call) : list answer :=
  match cs with
  | [] => []
  | c :: cs => let '(s, a) := step s c in a :: serve_all step s cs
  end.

(** The transactions of a stack, top first, lead from the text [t] through [ts]. *)
Fixpoint chained (here there : EditorTransaction -> DocumentNode) (t : ustring) (trs : list EditorTransaction) (ts : list ustring) : Prop :=
  match trs, ts with
  | [], [] => True
  | tr :: trs, t' :: ts => text_of (here tr) = t /\ text_of (there tr) = t' /\ chained here there t' trs ts
  | _, _ => False
  end.

Record shows (e : editor) (h : history) : Prop := MkShows {
  sh_text : getText e = present h;
  sh_selection : selection e = selected h;
  sh_undo : chained docAfter docBefore (present h) (rev (undoStack e)) (past h);
  sh_redo : chained docBefore docAfter (present h) (rev (redoStack e)) (future h);
  sh_version : cachedWordCountVersion e <= version e;
  sh_count : cachedWordCountVersion e = version e -> cachedWordCount e = word_count (present h);
}.

Lemma chained_length here there trs : forall t ts, chained here there t trs ts -> length trs = length ts.
Proof. induction trs as [|tr trs IH]; intros t [|t' ts]; simpl; try done. intros (_ & _ & H). by rewrite (IH _ _ H). Qed.

Lemma transact_shows e h text sel step now : shows e h -> shows (fst (transact e text sel step now)) (edit h text sel).
Proof.
  intros [H1 H2 H3 H4 H5 H6]. split; simpl; [apply text_of_doc|done| |done|lia|lia]. rewrite rev_unit. simpl. by rewrite text_of_doc.
Qed.

Lemma insertText_shows e h pos text now : shows e h -> shows (fst (insertText e pos text now)) (h_insert h pos text).
Proof. intros Hs. unfold insertText, h_insert, splice, slice_from. rewrite slice_prefix. rewrite (sh_text _ _ Hs). by apply transact_shows. Qed.

Lemma deleteRange_shows e h a b now : shows e h -> shows (fst (deleteRange e a b now)) (h_delete h a b).
Proof. intros Hs. unfold deleteRange, h_delete, splice, slice_from. rewrite slice_prefix. rewrite (sh_text _ _ Hs). by apply transact_shows. Qed.

Lemma undo_shows e h : shows e h -> let '(e', a) := serve e CUndo in let '(h', b) := h_serve h CUndo in shows e' h' /\ a = b.
Proof.
  intros Hs. pose proof Hs as [H1 H2 H3 H4 H5 H6]. simpl. unfold undo. destruct (last (undoStack e)) as [tr|] eqn:El.
  - apply last_Some in El as [us Hus]. rewrite Hus, rev_unit in H3. rewrite Hus, removelast_last. destruct (past h) as [|t ts]; [done|]. destruct H3 as (Ha & Hb & H3).
    split; [|done]. split; simpl; try done; try lia. by rewrite rev_unit.
  - apply last_None in El. rewrite El in H3. simpl in H3. by destruct (past h).
Qed.

Lemma redo_shows e h : shows e h -> let '(e', a) := serve e CRedo in let '(h', b) := h_serve h CRedo in shows e' h' /\ a = b.
Proof.
  intros Hs. pose proof Hs as [H1 H2 H3 H4 H5 H6]. simpl. unfold redo. destruct (last (redoStack e)) as [tr|] eqn:El.
  - apply last_Some in El as [us Hus]. rewrite Hus, rev_unit in H4. rewrite Hus, removelast_last. destruct (future h) as [|t ts]; [done|]. destruct H4 as (Ha & Hb & H4).
    split; [|done]. split; simpl; try done; try lia. by rewrite rev_unit.
  - apply last_None in El. rewrite El in H4. simpl in H4. by destruct (future h).
Qed.

Lemma count_shows e h : shows e h -> shows (fst (getWordCount e)) h /\ snd (getWordCount e) = word_count (present h).
Proof.
  intros Hs. pose proof Hs as [H1 H2 H3 H4 H5 H6]. unfold getWordCount. destruct (Z.eqb_spec (cachedWordCountVersion e) (version e)); [by split; [|apply H6]|].
  rewrite count_words_spec, H1. split; [|done]. by split.
Qed.

Lemma serve_shows e h c : shows e h -> shows (fst (serve e c)) (fst (h_serve h c)) /\ snd (serve e c) = snd (h_serve h c).
Proof.
  intros Hs. destruct c; try (split; [|done]; destruct Hs; split; simpl; first [done|lia]).
  - unfold serve, h_serve, insert. rewrite (sh_selection _ _ Hs). split; [by apply insertText_shows|done].
  - split; [by apply insertText_shows|done].
  - split; [by apply deleteRange_shows|]. simpl. by rewrite (sh_text _ _ Hs).
  - unfold serve, h_serve, replaceRange. rewrite (surjective_pairing (deleteRange e a b now)). split; [by apply insertText_shows, deleteRange_shows|done].
  - pose proof (undo_shows e h Hs) as H. destruct (serve e CUndo), (h_serve h CUndo). done.
  - pose proof (redo_shows e h Hs) as H. destruct (serve e CRedo), (h_serve h CRedo). done.
  - split; [|done]. destruct Hs. split; simpl; try done; [apply text_of_doc|lia|lia].
  - split; [done|]. simpl. by rewrite (sh_text _ _ Hs).
  - pose proof (count_shows e h Hs) as [H1 H2]. simpl. destruct (getWordCount e) as [e' n]. simpl in *. by subst.
  - split; [done|]. simpl. by rewrite (sh_selection _ _ Hs).
  - split; [done|]. simpl. unfold getUndoStackDepth, getRedoStackDepth, zlen. rewrite <- (length_rev (undoStack e)), <- (length_rev (redoStack e)).
    by rewrite (chained_length _ _ _ _ _ (sh_undo _ _ Hs)), (chained_length _ _ _ _ _ (sh_redo _ _ Hs)).
Qed.

Lemma new_shows text : shows (new_editor text) (MkHistory [] text [] (MkRange 0 0)).
Proof. split; simpl; try done; apply getText_new. Qed.

(** C26: to its clients the editor is a history: whatever the sequence of insertions, deletions,
    replacements, undos, redos, selections, resets and queries, with positions in or out of
    range, every answer is that of the abstract history of texts, where an edit splices the
    present text and forgets the future, undo and redo move one text into the past or the
    future, a replacement is two edits, and the word count, cached by version, is the number
    of Chinese characters and of starts of words of the present text. *)
Theorem editor_is_a_history (initialText : ustring) (calls : list call) :
  serve_all serve (new_editor initialText) calls = serve_all h_serve (MkHistory [] initialText [] (MkRange 0 0)) calls.
Proof.
  assert (Hall : forall cs e h, shows e h -> serve_all serve e cs = serve_all h_serve h cs); [|apply Hall, new_shows].
  induction cs as [|c cs IH]; intros e h Hs; simpl; [done|]. pose proof (serve_shows e h c Hs) as [H1 H2].
  destruct (serve e c) as [e' a], (h_serve h c) as [h' b]. simpl in *. subst b. f_equal. by apply IH.
Qed.

(** In a history [k] undos are inverted by [k] redos. *)
Lemma history_inverse k : forall h, (k <= length (past h))%nat ->
  Nat.iter k (fun h => fst (h_serve h CRedo)) (Nat.iter k (fun h => fst (h_serve h CUndo)) h) = h.
Proof.
  induction k as [|k IH]; intros h Hk; [done|]. rewrite (Nat.iter_succ_r _ _ h), (Nat.iter_succ k).
  destruct h as [[|t ts] p f sel]; simpl in Hk; [lia|]. rewrite IH by (simpl; lia). done.
Qed.

(** A selection that runs backwards duplicates text instead of deleting it. *)
Lemma backward_deletion_duplicates : getText (fst (deleteRange (new_editor [97; 98; 99]) 2 1 0)) = [97; 98; 98; 99].
Proof. by vm_compute. Qed.

(** * Ghost text *)

Import Ghost.
(** * Parts of a suggestion *)

Lemma take_while_prefix p s : exists rest, s = take_while p s ++ rest.
Proof.
  induction s as [|u s [rest IH]]; simpl; [by exists []|]. destruct (p u); [|by exists (u :: s)]. exists rest. simpl. by rewrite <- IH.
Qed.

Lemma is_mark_otherwise u : is_chinese u = false -> is_word u = false -> is_white u = false -> is_mark u = true.
Proof. unfold is_mark. by intros -> -> ->. Qed.

Lemma match_word_prefix u s : exists w rest, match_word (u :: s) = Some (u :: w) /\ u :: s = (u :: w) ++ rest.
Proof.
  assert (Htw : forall p, p u = true -> exists w rest, take_while p (u :: s) = u :: w /\ u :: s = (u :: w) ++ rest).
  { intros p Hp. destruct (take_while_prefix p (u :: s)) as [rest Hr]. simpl in *. rewrite Hp in *. by eexists _, rest. }
  assert (Hno : forall p, p u = false -> take_while p (u :: s) = []) by (intros p Hp; simpl; by rewrite Hp).
  unfold match_word. destruct (is_chinese u) eqn:E1; [destruct (Htw _ E1) as (w & rest & -> & ?); by exists w, rest|rewrite (Hno _ E1)].
  destruct (is_word u) eqn:E2; [destruct (Htw _ E2) as (w & rest & -> & ?); by exists w, rest|rewrite (Hno _ E2)].
  destruct (is_white u) eqn:E3; [destruct (Htw _ E3) as (w & rest & -> & ?); by exists w, rest|rewrite (Hno _ E3)].
  destruct (Htw _ (is_mark_otherwise _ E1 E2 E3)) as (w & rest & -> & ?). by exists w, rest.
Qed.

Lemma index_newline_range s : match index_newline s with Some i => 0 <= i < zlen s | None => True end.
Proof.
  induction s as [|u s IH]; simpl; [done|]. rewrite zlen_cons. pose proof (zlen_nonneg s). destruct (u =? 10); [lia|]. destruct (index_newline s); simpl; [lia|done].
Qed.

Lemma slice_start {A : Type} (s : list A) n : 0 <= n <= zlen s -> slice s 0 n = ztake n s.
Proof. intros Hn. rewrite slice_prefix. unfold js_index. destruct (Z.ltb_spec n 0); [lia|]. by rewrite Z.min_l by lia. Qed.

Lemma slice_from_app {A : Type} (part rest : list A) : slice_from (part ++ rest) (zlen part) = rest.
Proof.
  pose proof (zlen_nonneg part). pose proof (zlen_nonneg rest). unfold slice_from, js_index. rewrite zlen_app. destruct (Z.ltb_spec (zlen part) 0); [lia|].
  rewrite Z.min_l by lia. rewrite zdrop_app_r by lia. by rewrite Z.sub_diag, zdrop_0.
Qed.

(** What follows an insertion goes behind it. *)
Lemma splice_splice s pos a b : 0 <= pos -> splice (splice s pos pos a) (pos + zlen a) (pos + zlen a) b = splice s pos pos (a ++ b).
Proof.
  intros Hpos. pose proof (zlen_nonneg s). pose proof (zlen_nonneg a). unfold splice, js_index. destruct (Z.ltb_spec pos 0); [lia|]. destruct (Z.ltb_spec (pos + zlen a) 0); [lia|].
  set (i := Z.min pos (zlen s)). assert (0 <= i <= zlen s) by lia.
  assert (Hl : zlen (ztake i s ++ a ++ zdrop i s) = zlen s + zlen a) by (rewrite !zlen_app, zlen_ztake, zlen_zdrop by done; lia).
  rewrite Hl. replace (Z.min (pos + zlen a) (zlen s + zlen a)) with (zlen (ztake i s ++ a)) by (rewrite zlen_app, zlen_ztake by done; lia).
  rewrite (app_assoc (ztake i s) a). rewrite ztake_app_l, ztake_all, zdrop_app_r by lia. by rewrite Z.sub_diag, zdrop_0, <- !app_assoc.
Qed.

Lemma insertText_text e pos t now : getText (fst (insertText e pos t now)) = splice (getText e) pos pos t.
Proof. unfold insertText, splice, slice_from. rewrite slice_prefix. apply text_of_doc. Qed.

Lemma insertText_depth e pos t now : getUndoStackDepth (fst (insertText e pos t now)) = getUndoStackDepth e + 1.
Proof. unfold insertText, getUndoStackDepth. simpl. by rewrite zlen_app. Qed.

(** * Acceptance *)

Inductive acceptance : Type := Whole | Word | Line.

Definition accept (g : manager) (k : acceptance) (now : Z) : manager * bool :=
  match k with Whole => acceptGhostText g now | Word => acceptWord g now | Line => acceptLine g now end.

Fixpoint accept_all (g : manager) (ks : list (acceptance * Z)) : manager * list bool :=
  match ks with
  | [] => (g, [])
  | (k, now) :: ks => let '(g, b) := accept g k now in let '(g, bs) := accept_all g ks in (g, b :: bs)
  end.

(** The suggestion [rest] is shown at [pos], or nothing is left. *)
Definition shown (g : manager) (pos : Z) (rest : ustring) : Prop :=
  match rest with
  | [] => active g = false
  | _ => active g = true /\ exists s, current g = Some s /\ Ghost.pos s = pos /\ text s = rest
  end.

Lemma shown_has g pos rest : shown g pos rest -> hasGhostText g = negb (bool_decide (rest = [])).
Proof.
  unfold shown, hasGhostText. destruct rest as [|u rest]; [by intros ->|]. intros (-> & s & -> & _ & ->). simpl. done.
Qed.

(** What an acceptance takes of a suggestion. *)
Definition takes (k : acceptance) (rest part rest' : ustring) : Prop := rest = part ++ rest' /\ part <> [] /\ (k = Whole -> rest' = []).

Lemma accept_part_shown g s pos part rest' now : active g = true -> Ghost.pos s = pos -> text s = part ++ rest' ->
  edited (accept_part g s part now) = fst (insertText (edited g) pos part now) /\ shown (accept_part g s part now) (pos + zlen part) rest'.
Proof.
  intros Hact Hpos Htext. unfold accept_part. rewrite Htext, slice_from_app, Hpos. destruct rest' as [|u rest']; [done|].
  rewrite zlen_cons. pose proof (zlen_nonneg rest'). destruct (Z.gtb_spec (1 + zlen rest') 0); [|lia]. split; [done|]. split; [done|]. by eexists.
Qed.

Lemma accept_shown g k now pos rest : shown g pos rest -> rest <> [] ->
  exists part rest', takes k rest part rest' /\ snd (accept g k now) = true /\
    edited (fst (accept g k now)) = fst (insertText (edited g) pos part now) /\ shown (fst (accept g k now)) (pos + zlen part) rest'.
Proof.
  intros Hs Hne. pose proof (shown_has _ _ _ Hs) as Hh. rewrite bool_decide_eq_false_2 in Hh by done. destruct rest as [|u rest]; [done|].
  destruct Hs as (Hact & s & Hc & Hpos & Htext). destruct k; simpl; unfold acceptGhostText, acceptWord, acceptLine; rewrite Hh, Hc; simpl.
  - exists (u :: rest), []. rewrite Hpos, Htext. split_and!; [|done|done|done]. by split_and!; [rewrite app_nil_r| |].
  - destruct (match_word_prefix u rest) as (w & r & Hw & Hr). rewrite Htext, Hw. rewrite Hr in Htext. exists (u :: w), r. split; [by split_and!|]. split; [done|]. by apply accept_part_shown.
  - rewrite Htext. set (part := match index_newline _ with Some i => slice _ 0 (i + 1) | None => _ end).
    assert (exists r, u :: rest = part ++ r /\ part <> []) as (r & Hr & Hp).
    { subst part. pose proof (index_newline_range (u :: rest)) as Hi. destruct (index_newline (u :: rest)) as [i|]; [|by exists []; rewrite app_nil_r].
      rewrite slice_start by lia. exists (zdrop (i + 1) (u :: rest)). rewrite ztake_zdrop. split; [done|]. intros Hz. apply (f_equal zlen) in Hz. rewrite zlen_ztake, zlen_nil in Hz by lia. lia. }
    exists part, r. split; [by split_and!|]. split; [done|]. apply accept_part_shown; [done|done|by rewrite Htext].
Qed.

Lemma accept_nothing g k now pos : shown g pos [] -> accept g k now = (g, false).
Proof. intros Hs%shown_has. destruct k; simpl; unfold acceptGhostText, acceptWord, acceptLine; by rewrite Hs. Qed.

Definition count_true (bs : list bool) : Z := zlen (List.filter (fun b : bool => b) bs).

Lemma accept_all_shown ks : forall g pos rest, 0 <= pos -> shown g pos rest ->
  let '(g', bs) := accept_all g ks in
  exists part rest', rest = part ++ rest' /\ shown g' (pos + zlen part) rest' /\ getText (edited g') = splice (getText (edited g)) pos pos part /\
    getUndoStackDepth (edited g') = getUndoStackDepth (edited g) + count_true bs /\
    ((exists now, (Whole, now) ∈ ks) \/ (length rest <= length ks)%nat -> rest' = []).
Proof.
  induction ks as [|[k now] ks IH]; intros g pos rest Hpos Hs; simpl.
  - exists [], rest. rewrite Z.add_0_r. unfold splice, count_true. simpl. rewrite ztake_zdrop, Z.add_0_r. split_and!; try done.
    intros [(now & Hin%elem_of_nil)|Hl]; [done|]. by apply length_zero_iff_nil; lia.
  - destruct (decide (rest = [])) as [->|Hne].
    + rewrite (accept_nothing _ _ _ _ Hs). specialize (IH g pos [] Hpos Hs). destruct (accept_all g ks) as [g' bs].
      destruct IH as (part & rest' & Hnil & H1 & H2 & H3 & H4). symmetry in Hnil. apply app_nil in Hnil as [-> ->]. exists [], []. by split_and!.
    + destruct (accept_shown g k now pos rest Hs Hne) as (part & rest' & (-> & Hp & Hw) & Hb & He & Hs'). destruct (accept g k now) as [g1 b]. cbn [fst snd] in *. subst b.
      specialize (IH g1 (pos + zlen part) rest' ltac:(pose proof (zlen_nonneg part); lia) Hs'). destruct (accept_all g1 ks) as [g' bs].
      destruct IH as (part2 & rest2 & -> & H1 & H2 & H3 & H4). exists (part ++ part2), rest2. rewrite He, insertText_text, splice_splice in H2 by done.
      rewrite He, insertText_depth in H3. split_and!; [by rewrite app_assoc|by rewrite zlen_app, Z.add_assoc|done| |].
      * rewrite H3. unfold count_true. simpl. rewrite zlen_cons. lia.
      * intros [(now' & [Heq|Hin]%elem_of_cons)|Hl].
        -- injection Heq as <- _. specialize (Hw eq_refl). by apply app_nil in Hw as [-> ->].
        -- apply H4. left. by exists now'.
        -- apply H4. right. rewrite length_app in Hl. destruct part; [done|]. simpl in Hl. lia.
Qed.

(** A suggestion shown at a position is accepted in any sequence of whole, word and line
    acceptances: the document is the old one with a beginning of the suggestion inserted at
    the position, what is still shown is the rest of it, right behind that beginning; one
    whole acceptance, or as many acceptances as the suggestion has units, leave nothing to
    show, so that the document has the whole suggestion once, whatever the pieces were; each
    acceptance that answers [true] is one transaction, and one that has nothing to accept
    changes nothing. *)
Theorem ghost_text_is_inserted_once g pos text source id now ks : 0 <= pos ->
  let '(g', bs) := accept_all (setGhostText g pos text source id now) ks in
  exists part rest, text = part ++ rest /\ getText (edited g') = splice (getText (edited g)) pos pos part /\
    hasGhostText g' = negb (bool_decide (rest = [])) /\ (rest <> [] -> exists s, current g' = Some s /\ Ghost.pos s = pos + zlen part /\ Ghost.text s = rest) /\
    getUndoStackDepth (edited g') = getUndoStackDepth (edited g) + count_true bs /\
    ((exists now, (Whole, now) ∈ ks) \/ (length text <= length ks)%nat -> rest = []).
Proof.
  intros Hpos. set (g0 := setGhostText _ _ _ _ _ _). destruct text as [|u text].
  - assert (Hno : hasGhostText g0 = false) by done. assert (Hall : forall ks, accept_all g0 ks = (g0, map (fun _ => false) ks)).
    { clear ks. induction ks as [|[k t] ks IH]; simpl; [done|]. assert (accept g0 k t = (g0, false)) as ->; [|by rewrite IH]. by destruct k; simpl; unfold acceptGhostText, acceptWord, acceptLine; rewrite Hno. }
    rewrite Hall. exists [], []. unfold splice. simpl. rewrite ztake_zdrop. split_and!; try done. unfold count_true. rewrite Z.add_comm. clear. induction ks; simpl; [done|assumption].
  - assert (Hs : shown g0 pos (u :: text)) by (split; [done|by eexists]). pose proof (accept_all_shown ks g0 pos (u :: text) Hpos Hs) as H. destruct (accept_all g0 ks) as [g' bs].
    destruct H as (part & rest & H1 & H2 & H3 & H4 & H5). exists part, rest. split_and!; [done|done|by eapply shown_has| |done|done].
    intros Hne. destruct rest; [done|]. by destruct H2 as (_ & s & ?); exists s.
Qed.

(** The suggestion "go on" is accepted behind "we ", one word and then the rest. *)
Lemma ghost_text_is_inserted_once_witness :
  let ks := [(Word, 1); (Whole, 2)] in
  0 <= 3 /\ getText (edited (fst (accept_all (setGhostText (new_manager (new_editor [119; 101; 32])) 3 [103; 111; 32; 111; 110] "ai-stream" "gt" 0) ks)))
            = [119; 101; 32; 103; 111; 32; 111; 110].
Proof.
  intros ks. split; [done|]. pose proof (ghost_text_is_inserted_once (new_manager (new_editor [119; 101; 32])) 3 [103; 111; 32; 111; 110] "ai-stream" "gt" 0 ks ltac:(done)) as H.
  destruct (accept_all _ ks) as [g' bs]. destruct H as (part & rest & Htext & Hdoc & _ & _ & _ & Hrest). simpl fst. rewrite Hdoc.
  rewrite Hrest, app_nil_r in Htext by (left; exists 2; apply list_elem_of_In; simpl; auto). rewrite <- Htext. by vm_compute.
Defined.
