(* ===== verification/EditDiff.v ===== *)
(** Local edits of a text (agent-core/src/tools/edit-diff.ts): the old text is looked for as it
    is, and then up to typography; a match of the second kind is replaced on the lines it
    touches, the others keep their characters.

    Modelling choices: texts are lists of UTF-16 code units; [normalize('NFKC')], which is a
    table of the Unicode standard, is a parameter. *)

From S2P Require Import Prelude Text RpcLines Editor.

Open Scope Z_scope.

Record DiffFuzzyMatchResult : Type := MkMatch { found : bool; index : Z; matchLength : Z; usedFuzzyMatch : bool; contentForReplacement : ustring }.

Inductive line_ending : Type := CRLF | LF.

(** [s.indexOf(t)]; [None] for -1. *)
Fixpoint is_prefix (t s : ustring) : bool :=
  match t, s with
  | [], _ => true
  | u :: t, v :: s => (u =? v) && is_prefix t s
  | _ :: _, [] => false
  end.

Fixpoint index_of (s t : ustring) : option Z :=
  if is_prefix t s then Some 0
  else match s with [] => None | _ :: s => Z.succ <$> index_of s t end.

Definition detectLineEnding (content : ustring) : line_ending :=
  match index_of content [13; 10], index_of content [10] with
  | _, None => LF
  | None, _ => LF
  | Some crlfIdx, Some lfIdx => if crlfIdx <? lfIdx then CRLF else LF
  end.

(** [text.replace(/\r\n/g, '\n')] and [text.replace(/\r/g, '\n')]. *)
Fixpoint join_crlf (s : ustring) : ustring :=
  match s with
  | [] => []
  | u :: s' => match s' with v :: s'' => if (u =? 13) && (v =? 10) then 10 :: join_crlf s'' else u :: join_crlf s' | [] => [u] end
  end.

Definition normalizeToLF (text : ustring) : ustring := map (fun u => if u =? 13 then 10 else u) (join_crlf text).

Definition restoreLineEndings (text : ustring) (ending : line_ending) : ustring :=
  match ending with CRLF => flat_map (fun u => if u =? 10 then [13; 10] else [u]) text | LF => text end.

Definition trimEnd (s : ustring) : ustring := rev (trim_left (rev s)).

(** The replacements of quotes, dashes, punctuation and spaces; what they put in is in ASCII. *)
Definition plain_mark (u : Z) : Z :=
  if in_range 0x2018 0x201b u then 39
  else if in_range 0x201c 0x201f u then 34
  else if in_range 0x2010 0x2015 u || (u =? 0x2212) then 45
  else if u =? 0xff0c then 44
  else if u =? 0x3002 then 46
  else if u =? 0xff1a then 58
  else if u =? 0xff1b then 59
  else if u =? 0xff1f then 63
  else if u =? 0xff01 then 33
  else if (u =? 0xa0) || in_range 0x2002 0x200a u || (u =? 0x202f) || (u =? 0x205f) || (u =? 0x3000) then 32
  else u.

(** The matches of [[^\n]*\n|[^\n]+]. *)
Fixpoint splitLinesWithEndings (content : ustring) : list ustring :=
  match content with
  | [] => []
  | u :: s =>
      if u =? 10 then [10] :: splitLinesWithEndings s
      else match splitLinesWithEndings s with line :: lines => (u :: line) :: lines | [] => [[u]] end
  end.

Record LineSpan : Type := MkSpan { sp_start : Z; sp_end : Z }.
Record TextReplacement : Type := MkReplacement { rp_index : Z; rp_length : Z; rp_newText : ustring }.

Fixpoint spans (offset : Z) (lines : list ustring) : list LineSpan :=
  match lines with [] => [] | line :: lines => MkSpan offset (offset + zlen line) :: spans (offset + zlen line) lines end.

Definition getLineSpans (content : ustring) : list LineSpan := spans 0 (splitLinesWithEndings content).

Inductive edit_error : Type := OutsideBase.

(** The loop for [startLine], from the index [i]. *)
Fixpoint find_start (lines : list LineSpan) (at_ : Z) (i : nat) : option nat :=
  match lines with
  | [] => None
  | line :: lines => if (sp_start line <=? at_) && (at_ <? sp_end line) then Some i else find_start lines at_ (S i)
  end.

(** The loop for [endLine]: the first line from [i] on whose end is not before [stop]. *)
Fixpoint find_end (lines : list LineSpan) (stop : Z) (i : nat) : option nat :=
  match lines with
  | [] => None
  | line :: lines => if sp_end line <? stop then find_end lines stop (S i) else Some i
  end.

Definition getReplacementLineRange (lines : list LineSpan) (r : TextReplacement) : result edit_error (nat * nat) :=
  match find_start lines (rp_index r) 0 with
  | None => Err OutsideBase
  | Some startLine =>
      match find_end (drop startLine lines) (rp_index r + rp_length r) startLine with
      | None => Err OutsideBase
      | Some endLine => Ok (startLine, S endLine)
      end
  end.

(** [s.substring(a, b)] and [s.substring(a)]. *)
Definition clamp (s : ustring) (i : Z) : Z := Z.max 0 (Z.min i (zlen s)).
Definition substring (s : ustring) (a b : Z) : ustring := subarray s (Z.min (clamp s a) (clamp s b)) (Z.max (clamp s a) (clamp s b)).
Definition substring_from (s : ustring) (a : Z) : ustring := zdrop (clamp s a) s.

(** The last replacement goes first. *)
Definition applyReplacements (content : ustring) (replacements : list TextReplacement) (offset : Z) : ustring :=
  foldr (fun r result =>
           let matchIndex := rp_index r - offset in
           substring result 0 matchIndex ++ rp_newText r ++ substring_from result (matchIndex + rp_length r)) content replacements.

Record group : Type := MkGroup { startLine : nat; endLine : nat; replacements : list TextReplacement }.

(** The loop that groups the replacements; the last group of [groups] is the current one. *)
Fixpoint group_loop (baseLines : list LineSpan) (sorted : list TextReplacement) (groups : list group) : result edit_error (list group) :=
  match sorted with
  | [] => Ok groups
  | r :: sorted =>
      let* (s, e) := getReplacementLineRange baseLines r in
      match last groups with
      | Some g =>
          if (s <? endLine g)%nat
          then group_loop baseLines sorted (removelast groups ++ [MkGroup (startLine g) (Nat.max (endLine g) e) (replacements g ++ [r])])
          else group_loop baseLines sorted (groups ++ [MkGroup s e [r]])
      | None => group_loop baseLines sorted [MkGroup s e [r]]
      end
  end.

Definition offset_of (baseLines : list LineSpan) (i : nat) : Z := match baseLines !! i with Some sp => sp_start sp | None => 0 end.
Definition end_of (baseLines : list LineSpan) (i : nat) : Z := match baseLines !! i with Some sp => sp_end sp | None => 0 end.

(** The loop that puts the groups between the lines of the original. *)
Fixpoint merge_loop (originalLines : list ustring) (baseContent : ustring) (baseLines : list LineSpan) (originalLineIndex : nat) (groups : list group) : ustring :=
  match groups with
  | [] => concat (drop originalLineIndex originalLines)
  | g :: groups =>
      let groupStartOffset := offset_of baseLines (startLine g) in
      let groupEndOffset := end_of baseLines (endLine g - 1) in
      concat (slice originalLines (Z.of_nat originalLineIndex) (Z.of_nat (startLine g)))
      ++ applyReplacements (slice baseContent groupStartOffset groupEndOffset) (replacements g) groupStartOffset
      ++ merge_loop originalLines baseContent baseLines (endLine g) groups
  end.

Definition applyReplacementsPreservingUnchangedLines (originalContent baseContent : ustring) (rs : list TextReplacement) : result edit_error ustring :=
  let originalLines := splitLinesWithEndings originalContent in
  let baseLines := getLineSpans baseContent in
  if negb (bool_decide (length originalLines = length baseLines)) then Ok (applyReplacements baseContent rs 0)
  else
    let* groups := group_loop baseLines (js_sort (fun a b => rp_index a - rp_index b) rs) [] in
    Ok (merge_loop originalLines baseContent baseLines 0 groups).

Section Fuzzy.
Variable nfkc : ustring -> ustring.

Definition normalizeForFuzzyMatch (text : ustring) : ustring := map plain_mark (join_lines (map trimEnd (split_lines (nfkc text)))).

Definition fuzzyFindText (content oldText : ustring) : DiffFuzzyMatchResult :=
  match index_of content oldText with
  | Some exactIndex => MkMatch true exactIndex (zlen oldText) false content
  | None =>
      let fuzzyContent := normalizeForFuzzyMatch content in
      let fuzzyOldText := normalizeForFuzzyMatch oldText in
      match index_of fuzzyContent fuzzyOldText with
      | None => MkMatch false (-1) 0 false content
      | Some fuzzyIndex => MkMatch true fuzzyIndex (zlen fuzzyOldText) true fuzzyContent
      end
  end.

(** [success] with [newContent]. *)
Definition applyFuzzyTextEdit (originalContent oldText newText : ustring) : result edit_error (bool * ustring) :=
  let lineEnding := detectLineEnding originalContent in
  let contentLF := normalizeToLF originalContent in
  let oldTextLF := normalizeToLF oldText in
  let newTextLF := normalizeToLF newText in
  let m := fuzzyFindText contentLF oldTextLF in
  if negb (found m) then Ok (false, originalContent)
  else
    let* replacedLF :=
      (if usedFuzzyMatch m
       then applyReplacementsPreservingUnchangedLines contentLF (normalizeForFuzzyMatch contentLF) [MkReplacement (index m) (matchLength m) newTextLF]
       else Ok (slice contentLF 0 (index m) ++ newTextLF ++ slice_from contentLF (index m + matchLength m))) in
    Ok (true, restoreLineEndings replacedLF lineEnding).

End Fuzzy.
