(* ===== verification/EditDiffProofs.v ===== *)
(** What a local edit promises: it replaces the first occurrence, or the lines that the first
    match up to typography touches, or nothing; and where it breaks its promise. *)

From S2P Require Import Prelude Text RpcLines Editor EditorProofs EditDiff.

Open Scope Z_scope.

(** * Occurrences *)

Definition occurs (t s : ustring) : Prop := exists pre post, s = pre ++ t ++ post.

Lemma is_prefix_app t s : is_prefix t s = true <-> exists post, s = t ++ post.
Proof.
  revert s. induction t as [|u t IH]; intros s; simpl; [split; [by exists s|done]|]. destruct s as [|v s]; [split; [done|by intros [? ?]]|].
  rewrite andb_true_iff, Z.eqb_eq, IH. split; [intros (-> & post & ->); by exists post|intros [post [= -> ->]]; split; [done|by exists post]].
Qed.

(** The index is that of the first occurrence. *)
Lemma index_of_spec s t : match index_of s t with
  | Some i => exists pre post, s = pre ++ t ++ post /\ zlen pre = i /\ forall pre' post', s = pre' ++ t ++ post' -> i <= zlen pre'
  | None => ~ occurs t s
  end.
Proof.
  induction s as [|u s IH]; cbn [index_of].
  - destruct (is_prefix t []) eqn:E.
    + apply is_prefix_app in E as [post Hp]. exists [], post. split_and!; [done|done|intros; apply zlen_nonneg].
    + intros (pre & post & H). destruct pre; [|done]. assert (is_prefix t [] = true); [apply is_prefix_app; by exists post|congruence].
  - destruct (is_prefix t (u :: s)) eqn:E.
    + apply is_prefix_app in E as [post Hp]. exists [], post. split_and!; [done|done|intros; apply zlen_nonneg].
    + assert (Hno : forall post, u :: s <> t ++ post) by (intros post H; assert (is_prefix t (u :: s) = true); [apply is_prefix_app; by exists post|congruence]).
      destruct (index_of s t) as [i|]; simpl.
      * destruct IH as (pre & post & -> & <- & Hmin). exists (u :: pre), post. rewrite zlen_cons. split_and!; [done|lia|].
        intros [|v pre'] post' H; [by destruct (Hno post')|]. injection H as _ H. rewrite zlen_cons. specialize (Hmin _ _ H). lia.
      * intros ([|v pre] & post & H); [by destruct (Hno post)|]. injection H as _ H. apply IH. by exists pre, post.
Qed.

(** * Lines *)

Lemma concat_lines s : concat (splitLinesWithEndings s) = s.
Proof.
  induction s as [|u s IH]; simpl; [done|]. destruct (Z.eqb_spec u 10) as [->|]; [simpl; by rewrite IH|].
  destruct (splitLinesWithEndings s) as [|line lines]; simpl in *; by rewrite <- IH.
Qed.

Lemma spans_length lines : forall off, length (spans off lines) = length lines.
Proof. induction lines; intros off; simpl; [done|]. by f_equal. Qed.

(** Where the [i]th line starts. *)
Definition line_start (lines : list ustring) (i : nat) : Z := zlen (concat (take i lines)).

Lemma spans_lookup lines i : forall off, (i < length lines)%nat -> spans off lines !! i = Some (MkSpan (off + line_start lines i) (off + line_start lines (S i))).
Proof.
  revert i. induction lines as [|l lines IH]; intros i off Hi; simpl in *; [lia|]. destruct i as [|i]; simpl.
  - unfold line_start. simpl. rewrite app_nil_r. f_equal; f_equal; rewrite ?zlen_nil; lia.
  - rewrite IH by lia. unfold line_start. simpl. rewrite !zlen_app. f_equal; f_equal; lia.
Qed.

Lemma line_start_step lines i l : lines !! i = Some l -> line_start lines (S i) = line_start lines i + zlen l.
Proof. intros Hl. unfold line_start. rewrite (take_S_r _ _ _ Hl), concat_app, zlen_app. simpl. by rewrite app_nil_r. Qed.

Lemma line_start_all lines i : (length lines <= i)%nat -> line_start lines i = zlen (concat lines).
Proof. intros Hi. unfold line_start. by rewrite take_ge. Qed.

(** The searches over the spans find what they look for, when it is there. *)
Lemma find_start_from lines at_ i : forall off, off <= at_ < off + zlen (concat lines) ->
  exists s, find_start (spans off lines) at_ i = Some (i + s)%nat /\ (s < length lines)%nat /\ off + line_start lines s <= at_ < off + line_start lines (S s).
Proof.
  revert i. induction lines as [|l lines IH]; intros i off Hat; simpl in *; [rewrite zlen_nil in Hat; lia|]. rewrite zlen_app in Hat.
  destruct (Z.leb_spec off at_); [|lia]. destruct (Z.ltb_spec at_ (off + zlen l)); simpl.
  - exists 0%nat. rewrite Nat.add_0_r. unfold line_start. simpl. rewrite app_nil_r, zlen_nil. split_and!; [done|lia|lia|lia].
  - destruct (IH (S i) (off + zlen l)) as (s & -> & Hs & Hr); [lia|]. exists (S s). unfold line_start in *. simpl in *. rewrite !zlen_app.
    split_and!; [f_equal; lia|lia|lia|lia].
Qed.

Lemma find_end_from lines stop i : forall off, lines <> [] -> stop <= off + zlen (concat lines) ->
  exists e, find_end (spans off lines) stop i = Some (i + e)%nat /\ (e < length lines)%nat /\ stop <= off + line_start lines (S e) /\ (e <> 0%nat -> off + line_start lines e < stop).
Proof.
  revert i. induction lines as [|l lines IH]; intros i off Hne Hstop; [done|]. simpl in *. rewrite zlen_app in Hstop. destruct (Z.ltb_spec (off + zlen l) stop).
  - destruct (decide (lines = [])) as [->|Hl]; [simpl in Hstop; rewrite zlen_nil in Hstop; lia|].
    destruct (IH (S i) (off + zlen l) Hl) as (e & -> & He & Hend & Hmin); [lia|]. exists (S e). unfold line_start in *. simpl in *. rewrite !zlen_app.
    split_and!; [f_equal; lia|lia|lia|]. intros _. destruct e as [|e]; [simpl; rewrite zlen_nil; lia|]. specialize (Hmin ltac:(done)). lia.
  - exists 0%nat. rewrite Nat.add_0_r. unfold line_start. simpl. rewrite app_nil_r. split_and!; [done|lia|lia|done].
Qed.

Lemma drop_spans lines i : forall off, (i <= length lines)%nat -> drop i (spans off lines) = spans (off + line_start lines i) (drop i lines).
Proof.
  revert i. induction lines as [|l lines IH]; intros i off Hi; simpl in Hi; [by assert (i = 0%nat) as -> by lia|].
  destruct i as [|i]; unfold line_start; simpl; [by rewrite zlen_nil, Z.add_0_r|]. rewrite IH by lia. unfold line_start. rewrite zlen_app. f_equal. lia.
Qed.

Lemma line_start_add lines i j : line_start lines (i + j) = line_start lines i + line_start (drop i lines) j.
Proof. unfold line_start. by rewrite <- take_take_drop, concat_app, zlen_app. Qed.

Lemma line_start_le lines i : line_start lines i <= zlen (concat lines).
Proof. rewrite <- (take_drop i lines) at 2. rewrite concat_app, zlen_app. pose proof (zlen_nonneg (concat (drop i lines))). unfold line_start. lia. Qed.

(** * One replacement *)

Lemma app_split {A : Type} (l1 l2 k1 k2 : list A) : l1 ++ l2 = k1 ++ k2 -> zlen l1 <= zlen k1 -> exists d, k1 = l1 ++ d /\ l2 = d ++ k2.
Proof.
  intros H Hle. apply app_eq_app in H as [d [[-> ->]|[-> ->]]]; [|by exists d]. rewrite zlen_app in Hle. pose proof (zlen_nonneg d).
  exists []. rewrite app_nil_r. assert (d = []) as -> by (apply zlen_0_nil; lia). by rewrite app_nil_r.
Qed.

Lemma clamp_in s i : 0 <= i <= zlen s -> clamp s i = i.
Proof. unfold clamp. lia. Qed.

Lemma replace_one a m b n off : applyReplacements (a ++ m ++ b) [MkReplacement (off + zlen a) (zlen m) n] off = a ++ n ++ b.
Proof.
  pose proof (zlen_nonneg a). pose proof (zlen_nonneg m). pose proof (zlen_nonneg b). unfold applyReplacements. simpl. unfold substring, substring_from.
  replace (off + zlen a - off) with (zlen a) by lia. rewrite !clamp_in by (rewrite ?zlen_app; lia). rewrite Z.min_l, Z.max_r by lia. f_equal; [|f_equal].
  - unfold subarray. rewrite zdrop_0, Z.sub_0_r, ztake_app_l, ztake_all by lia. done.
  - rewrite zdrop_app_r, zdrop_app_r by lia. replace (zlen a + zlen m - zlen a - zlen m) with 0 by lia. apply zdrop_0.
Qed.

Lemma slice_middle {A : Type} (p m q : list A) : slice (p ++ m ++ q) (zlen p) (zlen p + zlen m) = m.
Proof.
  pose proof (zlen_nonneg p). pose proof (zlen_nonneg m). pose proof (zlen_nonneg q). unfold slice, js_index. rewrite !zlen_app.
  destruct (Z.ltb_spec (zlen p) 0); [lia|]. destruct (Z.ltb_spec (zlen p + zlen m) 0); [lia|]. rewrite !Z.min_l by lia. unfold subarray.
  rewrite zdrop_app_r, Z.sub_diag, zdrop_0 by lia. rewrite ztake_app_l, ztake_all by lia. done.
Qed.

(** The lines of the base that a match touches, and the lines of the original in their place:
    [a] and [b] are what the first and the last of them have besides the match. *)
Record touches (originalLines baseLines : list ustring) (m n : ustring) (at_ : Z) (result : ustring) (s e : nat) (a b : ustring) : Prop := MkTouches {
  to_range : (s < e <= length baseLines)%nat;
  to_match : concat (take (e - s) (drop s baseLines)) = a ++ m ++ b;
  to_at : zlen (concat (take s baseLines)) + zlen a = at_;
  to_first : exists l, baseLines !! s = Some l /\ zlen a < zlen l;
  to_last : m <> [] -> exists l, baseLines !! (e - 1)%nat = Some l /\ zlen b < zlen l;
  to_result : result = concat (take s originalLines) ++ (a ++ n ++ b) ++ concat (drop e originalLines);
}.

Lemma preserving_touches original base x m y n : base = x ++ m ++ y -> zlen x < zlen base ->
  length (splitLinesWithEndings original) = length (splitLinesWithEndings base) ->
  exists s e a b result, applyReplacementsPreservingUnchangedLines original base [MkReplacement (zlen x) (zlen m) n] = Ok result /\
    touches (splitLinesWithEndings original) (splitLinesWithEndings base) m n (zlen x) result s e a b.
Proof.
  intros Hbase Hx Hlen. pose proof (concat_lines base) as Hcat. pose proof (zlen_nonneg x). pose proof (zlen_nonneg m). pose proof (zlen_nonneg y).
  assert (Htotal : zlen base = zlen x + zlen m + zlen y) by (rewrite Hbase, !zlen_app; lia).
  unfold applyReplacementsPreservingUnchangedLines, getLineSpans. rewrite spans_length, Hlen. rewrite bool_decide_eq_true_2 by done. simpl negb. cbv iota.
  set (bl := splitLinesWithEndings base) in *. set (ol := splitLinesWithEndings original) in *.
  destruct (find_start_from bl (zlen x) 0 0) as (s & Hs & Hsl & Hsr); [by rewrite Hcat|]. simpl in Hs. rewrite !Z.add_0_l in Hsr.
  assert (Hrest : zlen (concat (drop s bl)) = zlen base - line_start bl s).
  { rewrite <- Hcat. rewrite <- (take_drop s bl) at 2. rewrite concat_app, zlen_app. unfold line_start. lia. }
  destruct (find_end_from (drop s bl) (zlen x + zlen m) s (0 + line_start bl s)) as (k & Hk & Hkl & Hke & Hkm).
  { intros Hd. apply (f_equal length) in Hd. rewrite length_drop in Hd. simpl in Hd. lia. }
  { lia. }
  rewrite length_drop in Hkl. rewrite Z.add_0_l, <- line_start_add in Hke. rewrite Z.add_0_l, <- line_start_add in Hkm.
  change (js_sort _ [?r]) with [r]. cbn [group_loop]. unfold getReplacementLineRange. cbn [rp_index rp_length]. rewrite Hs, drop_spans by lia. rewrite Hk. cbn [bind_res last group_loop].
  set (e := S (s + k)). rewrite Nat.add_succ_r in Hke. fold e in Hke.
  (* the text before, on and after the lines *)
  set (p := concat (take s bl)). set (mid := concat (take (e - s) (drop s bl))). set (q := concat (drop e bl)).
  assert (Hparts : p ++ mid ++ q = base).
  { unfold p, mid, q. rewrite app_assoc, <- concat_app, take_take_drop. replace (s + (e - s))%nat with e by lia. by rewrite <- concat_app, take_drop. }
  assert (Hmid : zlen p + zlen mid = line_start bl e).
  { unfold p, mid, line_start. rewrite <- zlen_app, <- concat_app, take_take_drop. by replace (s + (e - s))%nat with e by lia. }
  change (line_start bl s) with (zlen p) in *.
  destruct (app_split p (mid ++ q) x (m ++ y)) as (a & -> & Hmq); [by rewrite Hparts|lia|]. rewrite zlen_app in *.
  rewrite app_assoc in Hmq. destruct (app_split (a ++ m) y mid q) as (b & Hb & _); [by rewrite <- Hmq|rewrite zlen_app; lia|]. rewrite <- app_assoc in Hb.
  assert (Hstart : offset_of (spans 0 bl) s = zlen p) by (unfold offset_of; rewrite spans_lookup by lia; done).
  assert (Hend : end_of (spans 0 bl) (e - 1) = zlen p + zlen mid).
  { unfold end_of. rewrite spans_lookup by lia. cbn [sp_end]. replace (S (e - 1)) with e by lia. lia. }
  exists s, e, a, b. eexists. split; [reflexivity|]. split; [lia|done|done| | |].
  - destruct (lookup_lt_is_Some_2 bl s Hsl) as [l Hl]. exists l. split; [done|]. rewrite (line_start_step _ _ _ Hl) in Hsr. change (line_start bl s) with (zlen p) in Hsr. lia.
  - intros Hm. assert (0 < zlen m) by (destruct m; [done|rewrite zlen_cons; pose proof (zlen_nonneg m); lia]).
    destruct (lookup_lt_is_Some_2 bl (e - 1)) as [l Hl]; [lia|]. exists l. split; [done|]. pose proof (line_start_step _ _ _ Hl) as Hstep.
    replace (S (e - 1)) with e in Hstep by lia. replace (e - 1)%nat with (s + k)%nat in Hstep by lia. rewrite Hb, !zlen_app in Hmid.
    assert (line_start bl (s + k) < zlen p + zlen a + zlen m); [|lia]. destruct (decide (k = 0%nat)) as [->|]; [|lia]. rewrite Nat.add_0_r. change (line_start bl s) with (zlen p). lia.
  - cbn [merge_loop startLine endLine replacements]. rewrite Hstart, Hend. rewrite <- Hparts, slice_middle, Hb, replace_one. f_equal.
    rewrite slice_start by (unfold zlen; lia). unfold ztake. by rewrite Nat2Z.id.
Qed.

(** * Line endings *)

Lemma join_crlf_plain s : 13 ∉ s -> join_crlf s = s.
Proof.
  induction s as [|u s IH]; [done|]. intros [Hu Hs]%not_elem_of_cons. destruct s as [|v s]; [done|].
  change (join_crlf (u :: v :: s)) with (if (u =? 13) && (v =? 10) then 10 :: join_crlf s else u :: join_crlf (v :: s)).
  destruct (Z.eqb_spec u 13); [congruence|]. simpl andb. cbv iota. by rewrite IH.
Qed.

Lemma join_crlf_restore t : 13 ∉ t -> join_crlf (restoreLineEndings t CRLF) = t.
Proof.
  induction t as [|u t IH]; [done|]. intros [Hu Ht]%not_elem_of_cons. cbn [restoreLineEndings flat_map]. fold (restoreLineEndings t CRLF).
  destruct (Z.eqb_spec u 10) as [->|]; cbn [app].
  - change (join_crlf (13 :: 10 :: restoreLineEndings t CRLF)) with (10 :: join_crlf (restoreLineEndings t CRLF)). by rewrite IH.
  - destruct (restoreLineEndings t CRLF) as [|v s] eqn:E; [simpl in IH; by rewrite <- IH|].
    change (join_crlf (u :: v :: s)) with (if (u =? 13) && (v =? 10) then 10 :: join_crlf s else u :: join_crlf (v :: s)).
    destruct (Z.eqb_spec u 13); [congruence|]. simpl andb. cbv iota. by rewrite IH.
Qed.

Lemma lf_plain s : 13 ∉ s -> map (fun u => if u =? 13 then 10 else u) s = s.
Proof. induction s as [|u s IH]; simpl; [done|]. intros [Hu Hs]%not_elem_of_cons. destruct (Z.eqb_spec u 13); [congruence|]. by rewrite IH. Qed.

Lemma normalize_restore t ending : 13 ∉ t -> normalizeToLF (restoreLineEndings t ending) = t.
Proof.
  intros Ht. unfold normalizeToLF. destruct ending; [rewrite join_crlf_restore by done|cbn [restoreLineEndings]; rewrite join_crlf_plain by done]; by apply lf_plain.
Qed.

Lemma index_none s t : ~ occurs t s -> index_of s t = None.
Proof. intros Hno. pose proof (index_of_spec s t) as H. destruct (index_of s t); [|done]. destruct H as (pre & post & ? & _). destruct Hno. by exists pre, post. Qed.

Lemma first_newline t : 13 ∉ t -> 10 ∈ t -> exists i, index_of (restoreLineEndings t CRLF) [13; 10] = Some i /\ index_of (restoreLineEndings t CRLF) [10] = Some (Z.succ i).
Proof.
  induction t as [|u t IH]; intros Ht H10; [by apply not_elem_of_nil in H10|]. apply not_elem_of_cons in Ht as [Hu Ht].
  cbn [restoreLineEndings flat_map]. fold (restoreLineEndings t CRLF). destruct (Z.eqb_spec u 10) as [->|Hn]; cbn [app].
  - exists 0. done.
  - apply elem_of_cons in H10 as [|H10]; [congruence|]. destruct (IH Ht H10) as (i & H1 & H2). exists (Z.succ i). cbn [index_of is_prefix].
    destruct (Z.eqb_spec 13 u); [congruence|]. destruct (Z.eqb_spec 10 u); [congruence|]. simpl andb. cbv iota. by rewrite H1, H2.
Qed.

Lemma detect_restore t ending : 13 ∉ t -> 10 ∈ t \/ ending = LF -> detectLineEnding (restoreLineEndings t ending) = ending.
Proof.
  intros Ht Hend. unfold detectLineEnding. destruct ending.
  - destruct Hend as [H10|]; [|done]. destruct (first_newline t Ht H10) as (i & -> & ->). by destruct (Z.ltb_spec i (Z.succ i)); [|lia].
  - rewrite (index_none _ [13; 10]); [by destruct (index_of _ [10])|]. intros (pre & post & Heq). apply Ht. cbn [restoreLineEndings] in Heq. rewrite Heq. apply elem_of_app. right. by left.
Qed.

(** * Edits *)

Section Edits.
Variable nfkc : ustring -> ustring.

(** C33: an edit, branch by branch, on texts with their line endings made uniform. Where the old
    text occurs, its first occurrence is replaced and nothing else. Where it does not, but its
    normal form occurs in the normal form of the text and is not empty, there are two cases:
    when both forms of the text have as many lines, the lines that the first match touches are
    replaced by their normal form with the new text in place of the match, and every other line
    keeps its characters; when they have not, the whole text is replaced by its normal form,
    edited, so that no line need keep its characters. Where there is no match the text is
    returned as it was. A text whose lines all end alike is read without its line endings and
    written with them. [blank_last_line_rewrites_the_text] is an edit of the second case, and
    [blank_old_text_matches] one whose old text has an empty normal form, of which nothing is
    said. *)
Theorem edit_rewrites_matched_lines (original oldText newText : ustring) :
  let c := normalizeToLF original in let o := normalizeToLF oldText in let n := normalizeToLF newText in
  let base := normalizeForFuzzyMatch nfkc c in let m := normalizeForFuzzyMatch nfkc o in
  let done_ t := Ok (true, restoreLineEndings t (detectLineEnding original)) in
  (occurs o c -> exists x y, c = x ++ o ++ y /\ (forall x' y', c = x' ++ o ++ y' -> zlen x <= zlen x') /\
     applyFuzzyTextEdit nfkc original oldText newText = done_ (x ++ n ++ y)) /\
  (~ occurs o c -> ~ occurs m base -> applyFuzzyTextEdit nfkc original oldText newText = Ok (false, original)) /\
  (~ occurs o c -> occurs m base -> m <> [] -> exists x y, base = x ++ m ++ y /\ (forall x' y', base = x' ++ m ++ y' -> zlen x <= zlen x') /\
     if decide (length (splitLinesWithEndings c) = length (splitLinesWithEndings base))
     then exists s e a b t, touches (splitLinesWithEndings c) (splitLinesWithEndings base) m n (zlen x) t s e a b /\
            applyFuzzyTextEdit nfkc original oldText newText = done_ t
     else applyFuzzyTextEdit nfkc original oldText newText = done_ (x ++ n ++ y)) /\
  (forall t ending, 13 ∉ t -> 10 ∈ t \/ ending = LF -> original = restoreLineEndings t ending -> c = t /\ detectLineEnding original = ending).
Proof.
  intros c o n base m done_. unfold applyFuzzyTextEdit. fold c o n. unfold fuzzyFindText. fold base m. split_and!.
  - intros Hocc. pose proof (index_of_spec c o) as H. destruct (index_of c o) as [i|]; [|done]. destruct H as (x & y & Hc & Hi & Hmin). exists x, y.
    split; [done|]. split; [by rewrite Hi|]. cbn [found negb usedFuzzyMatch index matchLength bind_res]. unfold done_. do 3 f_equal. rewrite Hc, <- Hi.
    pose proof (slice_middle [] x (o ++ y)) as Hx. rewrite zlen_nil, Z.add_0_l in Hx. simpl in Hx. rewrite Hx. f_equal. f_equal.
    rewrite app_assoc, <- zlen_app. apply slice_from_app.
  - intros Hno Hnm. by rewrite (index_none _ _ Hno), (index_none _ _ Hnm).
  - intros Hno Hocc Hm. rewrite (index_none _ _ Hno). pose proof (index_of_spec base m) as H. destruct (index_of base m) as [i|]; [|done].
    destruct H as (x & y & Hb & Hi & Hmin). exists x, y. split; [done|]. split; [by rewrite Hi|]. cbn [found negb usedFuzzyMatch index matchLength]. rewrite <- Hi. destruct (decide _) as [Hlen|Hlen].
    + assert (Hx : zlen x < zlen base). { rewrite Hb, !zlen_app. destruct m; [done|]. rewrite zlen_cons. pose proof (zlen_nonneg m). pose proof (zlen_nonneg y). lia. }
      destruct (preserving_touches c base x m y n Hb Hx Hlen) as (s & e & a & b & t & -> & Ht). by exists s, e, a, b, t.
    + unfold applyReplacementsPreservingUnchangedLines, getLineSpans. rewrite spans_length, bool_decide_eq_false_2 by done. cbn [negb bind_res]. unfold done_. do 3 f_equal.
      rewrite Hb. apply (replace_one x m y n 0).
  - intros t ending Ht Hend ->. split; [by apply normalize_restore|by apply detect_restore].
Qed.

End Edits.

(** * Where edits fall short, already with texts that NFKC leaves alone *)

(** An old text of white space matches the empty text, and the new text goes to the top. *)
Lemma blank_old_text_matches : applyFuzzyTextEdit (fun s => s) [97; 98] [32; 32] [88] = Ok (true, [88; 97; 98]).
Proof. by vm_compute. Qed.

(** On an empty text it is an error that no result announces. *)
Lemma blank_old_text_throws : applyFuzzyTextEdit (fun s => s) [] [32] [88] = Err OutsideBase.
Proof. by vm_compute. Qed.

(** A last line of white space has no line in the normal form, so that a match on the second
    line rewrites the punctuation of the first. *)
Lemma blank_last_line_rewrites_the_text :
  applyFuzzyTextEdit (fun s => s) [97; 0xff0c; 10; 120; 0xff0c; 10; 32] [120; 44] [121] = Ok (true, [97; 44; 10; 121; 10]).
Proof. by vm_compute. Qed.

(** Of mixed line endings the first decides for all lines. *)
Lemma mixed_line_endings_are_rewritten :
  applyFuzzyTextEdit (fun s => s) [97; 13; 10; 98; 10; 99] [99] [100] = Ok (true, [97; 13; 10; 98; 13; 10; 100]).
Proof. by vm_compute. Qed.
