(* ===== verification/Typography.v ===== *)
(** Layout of prose (editor-core/src/typography.ts): paragraphs of a Chinese text are indented,
    headings, lists, scene headers and code are not; a Western text loses the space around
    its lines and the doubled spaces inside. *)

From S2P Require Import Prelude Text RpcLines Editor EditorProofs.

Open Scope Z_scope.

Inductive typography_mode : Type := Chinese | Western | Plain.

(** [enabled] and [indentString] of [TypographyOptions], and the mode. *)
Record options : Type := MkOptions { enabled : option bool; indentString : option ustring; mode : option typography_mode }.

Definition DEFAULT_INDENT : ustring := [0x3000; 0x3000].

Fixpoint starts_with (prefix s : ustring) : bool :=
  match prefix, s with
  | [], _ => true
  | p :: prefix, u :: s => (p =? u) && starts_with prefix s
  | _ :: _, [] => false
  end.

(** The code units the flag [i] identifies: of the characters the expression names, only
    the letters of ASCII have two cases. *)
Definition fold_case (u : Z) : Z := if in_range 97 122 u then u - 32 else u.

(** A character of [set], then white space. *)
Definition then_white (set : ustring) (s : ustring) : bool :=
  match s with u :: v :: _ => existsb (Z.eqb u) set && is_white v | _ => false end.

Fixpoint skip_while (p : Z -> bool) (s : ustring) : ustring := match s with u :: s' => if p u then skip_while p s' else s | [] => [] end.

(** [#{1,6}\s]. *)
Definition is_heading (s : ustring) : bool :=
  let hashes := zlen (Ghost.take_while (Z.eqb 35) s) in
  (1 <=? hashes) && (hashes <=? 6) && match skip_while (Z.eqb 35) s with v :: _ => is_white v | [] => false end.

Definition is_digit (u : Z) : bool := in_range 48 57 u.

(** [\d+\.\s]. *)
Definition is_numbered (s : ustring) : bool :=
  match s with u :: s => is_digit u && then_white [46] (skip_while is_digit s) | [] => false end.

(** [[0-9一二三四五六七八九十]]. *)
Definition is_numeral (u : Z) : bool :=
  is_digit u || existsb (Z.eqb u) [0x4e00; 0x4e8c; 0x4e09; 0x56db; 0x4e94; 0x516d; 0x4e03; 0x516b; 0x4e5d; 0x5341].

(** [第[0-9一二三四五六七八九十]+[场幕章回]\s]. *)
Definition is_chapter (s : ustring) : bool :=
  match s with
  | c :: u :: s => (c =? 0x7b2c) && is_numeral u && then_white [0x573a; 0x5e55; 0x7ae0; 0x56de] (skip_while is_numeral s)
  | _ => false
  end.

(** The expression for the lines that stay at the margin. *)
Definition at_margin (s : ustring) : bool :=
  is_heading s || then_white [62; 42; 45; 43] s || is_numbered s
  || starts_with [73; 78; 84; 46] (map fold_case (take 4 s)) || starts_with [69; 88; 84; 46] (map fold_case (take 4 s))
  || starts_with [0x5185; 0x666f] s || starts_with [0x5916; 0x666f] s || is_chapter s.

Definition FENCE : ustring := [96; 96; 96].

(** One line; [inCodeBlock] is the variable the callback captures. *)
Definition format_line (indent : ustring) (inCodeBlock : bool) (line : ustring) : bool * ustring :=
  let trimmed := trim_left line in
  if starts_with FENCE trimmed then (negb inCodeBlock, line)
  else if inCodeBlock || bool_decide (trimmed = []) then (inCodeBlock, line)
  else if at_margin trimmed then (inCodeBlock, trimmed)
  else (inCodeBlock, indent ++ skip_while (fun u => (u =? 0x3000) || is_white u) trimmed).

Fixpoint format_lines (indent : ustring) (inCodeBlock : bool) (lines : list ustring) : list ustring :=
  match lines with
  | [] => []
  | line :: lines => let '(inCodeBlock, line) := format_line indent inCodeBlock line in line :: format_lines indent inCodeBlock lines
  end.

Definition formatChineseTypography (text : ustring) (o : options) : ustring :=
  if bool_decide (enabled o = Some false) then text
  else join_lines (format_lines (default DEFAULT_INDENT (indentString o)) false (split_lines text)).

(** [line.replace(/[ ]{2,}/g, ' ')]. *)
Fixpoint collapse (s : ustring) : ustring :=
  match s with
  | [] => []
  | u :: s' => match s' with v :: _ => if (u =? 32) && (v =? 32) then collapse s' else u :: collapse s' | [] => [u] end
  end.

Definition formatWesternTypography (text : ustring) : ustring := join_lines (map (fun line => collapse (trim line)) (split_lines text)).

Definition formatTypography (text : ustring) (o : options) : ustring :=
  if bool_decide (enabled o = Some false) then text
  else
    match mode o with
    | Some Plain | None => text
    | Some Western => formatWesternTypography text
    | Some Chinese => formatChineseTypography text o
    end.

(** * Properties

    The layout moves white space only, and a text that has been laid out is left as it is. *)

(** * Lines *)

Definition one_line (s : ustring) : Prop := 10 ∉ s.

Lemma one_line_splits line : one_line line -> split_lines line = [line].
Proof.
  induction line as [|u s IH]; intros H; simpl; [done|]. apply not_elem_of_cons in H as [Hu Hs]. destruct (Z.eqb_spec u 10); [congruence|]. by rewrite IH.
Qed.

Lemma split_lines_app line s : one_line line -> split_lines (line ++ 10 :: s) = line :: split_lines s.
Proof.
  induction line as [|u l IH]; intros H; simpl; [done|]. apply not_elem_of_cons in H as [Hu Hl]. destruct (Z.eqb_spec u 10); [congruence|]. by rewrite IH.
Qed.

Lemma split_of_join lines : lines <> [] -> Forall one_line lines -> split_lines (join_lines lines) = lines.
Proof.
  intros Hne Hall. induction Hall as [|line lines Hl Hls IH]; [done|]. destruct lines as [|l ls]; [by apply one_line_splits|].
  rewrite join_cons, split_lines_app by done. by rewrite IH.
Qed.

Lemma split_lines_one_line s : Forall one_line (split_lines s).
Proof.
  assert (Hnil : one_line []) by apply not_elem_of_nil. induction s as [|u s IH]; simpl; [by constructor|]. destruct (Z.eqb_spec u 10); [by constructor|].
  destruct (split_lines s) as [|line lines]; [constructor; [|done]|inversion IH; subst; constructor; [|done]]; apply not_elem_of_cons; split; done.
Qed.

(** * White space *)

Definition ink (s : ustring) : ustring := List.filter (fun u => negb (is_white u)) s.

Lemma ink_app s t : ink (s ++ t) = ink s ++ ink t.
Proof. apply List.filter_app. Qed.

Lemma ink_rev s : ink (rev s) = rev (ink s).
Proof. apply List.filter_rev. Qed.

Lemma ink_white s : forallb is_white s = true -> ink s = [].
Proof. induction s as [|u s IH]; simpl; [done|]. intros [-> Hs]%andb_true_iff. by apply IH. Qed.

Lemma ink_trim_left s : ink (trim_left s) = ink s.
Proof. induction s as [|u s IH]; simpl; [done|]. destruct (is_white u) eqn:E; simpl; [done|]. by rewrite E. Qed.

Lemma ink_trim s : ink (trim s) = ink s.
Proof. unfold trim. by rewrite ink_rev, ink_trim_left, ink_rev, rev_involutive, ink_trim_left. Qed.

Lemma ink_join lines : ink (join_lines lines) = concat (map ink lines).
Proof.
  induction lines as [|line lines IH]; [done|]. destruct lines as [|l ls]; [simpl; by rewrite app_nil_r|].
  rewrite join_cons by done. rewrite ink_app. change (ink (10 :: join_lines (l :: ls))) with (ink (join_lines (l :: ls))). by rewrite IH.
Qed.

Lemma ink_lines (f : list ustring -> list ustring) s : map ink (f (split_lines s)) = map ink (split_lines s) -> ink (join_lines (f (split_lines s))) = ink s.
Proof. intros H. rewrite ink_join, H, <- ink_join. by rewrite join_split. Qed.

Lemma trim_left_app s t : forallb is_white s = true -> trim_left (s ++ t) = trim_left t.
Proof. induction s as [|u s IH]; simpl; [done|]. intros [-> Hs]%andb_true_iff. by apply IH. Qed.

Definition tight (s : ustring) : Prop := match s with u :: _ => is_white u = false | [] => True end.

Lemma trim_left_tight s : tight s -> trim_left s = s.
Proof. destruct s as [|u s]; simpl; [done|]. by intros ->. Qed.

Lemma trim_left_suffix s : exists pre, s = pre ++ trim_left s.
Proof. induction s as [|u s [pre IH]]; simpl; [by exists []|]. destruct (is_white u); [exists (u :: pre); simpl; by rewrite <- IH|by exists []]. Qed.

Lemma subset_trim_left s u : u ∈ trim_left s -> u ∈ s.
Proof. destruct (trim_left_suffix s) as [pre Hs]. intros Hu. rewrite Hs. apply elem_of_app. by right. Qed.

Lemma subset_trim s u : u ∈ trim s -> u ∈ s.
Proof. unfold trim. rewrite list_elem_of_In, <- in_rev, <- list_elem_of_In. intros Hu%subset_trim_left. rewrite list_elem_of_In, <- in_rev, <- list_elem_of_In in Hu. by apply subset_trim_left. Qed.

(** * Chinese layout *)

Lemma skip_tight s : tight s -> skip_while (fun u => (u =? 0x3000) || is_white u) s = s.
Proof.
  destruct s as [|u s]; simpl; [done|]. intros Hu. rewrite Hu. destruct (Z.eqb_spec u 0x3000) as [->|]; [discriminate Hu|done].
Qed.

Section Chinese.
Variable indent : ustring.
Hypothesis Hwhite : forallb is_white indent = true.
Hypothesis Hline : one_line indent.

(** The text of a line, trimmed, and how it is laid out. *)
Lemma format_line_cases b line : let '(b', line') := format_line indent b line in
  (line' = line \/ (line' = trim_left line \/ line' = indent ++ trim_left line)) /\ format_line indent b line' = (b', line').
Proof.
  pose proof (trim_left_head line) as Htight. change (tight (trim_left line)) in Htight. unfold format_line at 1.
  destruct (starts_with FENCE (trim_left line)) eqn:Ef; [split; [by left|]; unfold format_line; by rewrite Ef|].
  destruct (b || bool_decide (trim_left line = [])) eqn:Eb; [split; [by left|]; unfold format_line; by rewrite Ef, Eb|].
  destruct (at_margin (trim_left line)) eqn:Em.
  - split; [auto|]. unfold format_line. rewrite (trim_left_tight _ Htight). by rewrite Ef, Eb, Em.
  - rewrite (skip_tight _ Htight). split; [auto|]. unfold format_line. rewrite trim_left_app, (trim_left_tight _ Htight) by done. rewrite Ef, Eb, Em. by rewrite skip_tight.
Qed.

Lemma format_line_ink b line : ink (snd (format_line indent b line)) = ink line.
Proof.
  pose proof (format_line_cases b line) as H. destruct (format_line indent b line) as [b' line']. simpl. destruct H as [[-> | [-> | ->]] _]; [done|apply ink_trim_left|].
  by rewrite ink_app, (ink_white indent), ink_trim_left.
Qed.

Lemma format_line_one b line : one_line line -> one_line (snd (format_line indent b line)).
Proof.
  intros Hl. pose proof (format_line_cases b line) as H. destruct (format_line indent b line) as [b' line']. simpl.
  destruct H as [[-> | [-> | ->]] _]; [done|by intros ?%subset_trim_left|]. intros [?|?%subset_trim_left]%elem_of_app; [by apply Hline|by apply Hl].
Qed.

Lemma format_lines_again lines : forall b, format_lines indent b (format_lines indent b lines) = format_lines indent b lines.
Proof.
  induction lines as [|line lines IH]; intros b; simpl; [done|]. pose proof (format_line_cases b line) as H. destruct (format_line indent b line) as [b' line']. destruct H as [_ H].
  simpl. rewrite H. by rewrite IH.
Qed.

Lemma format_lines_ink lines : forall b, map ink (format_lines indent b lines) = map ink lines.
Proof.
  induction lines as [|line lines IH]; intros b; simpl; [done|]. pose proof (format_line_ink b line) as H. destruct (format_line indent b line) as [b' line'].
  simpl in *. by rewrite H, IH.
Qed.

Lemma format_lines_one lines : forall b, Forall one_line lines -> Forall one_line (format_lines indent b lines).
Proof.
  induction lines as [|line lines IH]; intros b Hall; simpl; [done|]. inversion Hall; subst. pose proof (format_line_one b line) as H. destruct (format_line indent b line) as [b' line'].
  constructor; [by apply H|by apply IH].
Qed.

Lemma format_lines_nonempty b s : format_lines indent b (split_lines s) <> [].
Proof. pose proof (split_lines_nonempty s) as H. destruct (split_lines s); [done|]. simpl. by destruct (format_line _ _ _). Qed.

End Chinese.

(** * Western layout *)

Lemma collapse_cons u v s : collapse (u :: v :: s) = if (u =? 32) && (v =? 32) then collapse (v :: s) else u :: collapse (v :: s).
Proof. done. Qed.

Lemma collapse_head s : head (collapse s) = head s.
Proof.
  induction s as [|u s IH]; [done|]. destruct s as [|v s]; [done|]. rewrite collapse_cons. destruct (Z.eqb_spec u 32) as [->|]; [|done].
  destruct (Z.eqb_spec v 32) as [->|]; [|done]. simpl andb. cbv iota. by rewrite IH.
Qed.

Lemma collapse_last s : last (collapse s) = last s.
Proof.
  induction s as [|u s IH]; [done|]. destruct s as [|v s]; [done|]. rewrite collapse_cons, last_cons_cons. destruct (_ && _); [done|].
  rewrite last_cons, IH. destruct (last (v :: s)) eqn:E; [done|]. by apply last_None in E.
Qed.

Fixpoint single_spaced (s : ustring) : Prop :=
  match s with [] => True | u :: s => (u = 32 -> head s <> Some 32) /\ single_spaced s end.

Lemma collapse_single s : single_spaced (collapse s).
Proof.
  induction s as [|u s IH]; [done|]. destruct s as [|v s]; [done|]. rewrite collapse_cons. destruct (Z.eqb_spec u 32); simpl andb; cbv iota.
  - destruct (Z.eqb_spec v 32); [done|]. split; [|done]. intros _. rewrite collapse_head. simpl. congruence.
  - by split.
Qed.

Lemma single_collapse s : single_spaced s -> collapse s = s.
Proof.
  induction s as [|u s IH]; [done|]. intros [Hu Hs]. destruct s as [|v s]; [done|]. rewrite collapse_cons. rewrite IH by done.
  destruct (Z.eqb_spec u 32) as [->|]; [|done]. destruct (Z.eqb_spec v 32) as [->|]; [by destruct Hu|done].
Qed.

Lemma ink_collapse s : ink (collapse s) = ink s.
Proof.
  induction s as [|u s IH]; [done|]. destruct s as [|v s]; [done|]. rewrite collapse_cons. destruct (Z.eqb_spec u 32) as [->|]; [|simpl andb; cbv iota; simpl in *; by rewrite IH].
  destruct (Z.eqb_spec v 32); simpl andb; cbv iota; [by rewrite IH|]. simpl in *. by rewrite IH.
Qed.

Lemma subset_collapse s u : u ∈ collapse s -> u ∈ s.
Proof.
  induction s as [|w s IH]; [done|]. destruct s as [|v s]; [done|]. rewrite collapse_cons. destruct (_ && _); [by right; apply IH|].
  intros [->|?]%elem_of_cons; [by left|right; by apply IH].
Qed.

(** White at neither end. *)
Definition trimmed (s : ustring) : Prop := (forall u, head s = Some u -> is_white u = false) /\ (forall u, last s = Some u -> is_white u = false).

Lemma last_rev (s : ustring) : last (rev s) = head s.
Proof. destruct s as [|u s]; [done|]. simpl. by rewrite last_snoc. Qed.

Lemma trim_trimmed s : trimmed (trim s).
Proof.
  unfold trim. pose proof (trim_left_head s) as Ha. set (a := trim_left s) in *. pose proof (trim_left_head (rev a)) as Hb. destruct (trim_left_suffix (rev a)) as [pre Hpre].
  set (b := trim_left (rev a)) in *. split; intros u.
  - intros Hu. assert (Hl : last b = Some u) by (by rewrite <- (rev_involutive b), last_rev). destruct (decide (b = [])) as [Hnil|Hne]; [by rewrite Hnil in Hl|].
    apply last_Some in Hl as [b' Hb']. rewrite Hb', app_assoc in Hpre. apply (f_equal last) in Hpre. rewrite last_snoc, last_rev in Hpre. destruct a; [done|]. by injection Hpre as ->.
  - rewrite last_rev. destruct b; [done|]. intros [= <-]. done.
Qed.

Lemma trimmed_trim s : trimmed s -> trim s = s.
Proof.
  intros [Hh Hl]. unfold trim. rewrite (trim_left_tight s) by (destruct s; [done|by apply Hh]). rewrite trim_left_tight; [apply rev_involutive|].
  rewrite <- (rev_involutive s), last_rev in Hl. destruct (rev s); [done|by apply Hl].
Qed.

Lemma western_again line : collapse (trim (collapse (trim line))) = collapse (trim line).
Proof.
  rewrite trimmed_trim; [apply single_collapse, collapse_single|]. destruct (trim_trimmed line) as [Hh Hl]. split; [by rewrite collapse_head|by rewrite collapse_last].
Qed.

Lemma western_one line : one_line line -> one_line (collapse (trim line)).
Proof. by intros Hl ?%subset_collapse%subset_trim. Qed.

(** * Both *)

(** Every line laid out is a line, has the ink it had, and is laid out already. *)
Record layout (f : list ustring -> list ustring) : Prop := MkLayout {
  ly_again : forall lines, f (f lines) = f lines;
  ly_ink : forall lines, map ink (f lines) = map ink lines;
  ly_one : forall lines, Forall one_line lines -> Forall one_line (f lines);
  ly_some : forall s, f (split_lines s) <> [];
}.

Definition lay_out (f : list ustring -> list ustring) (s : ustring) : ustring := join_lines (f (split_lines s)).

Lemma layout_again f s : layout f -> lay_out f (lay_out f s) = lay_out f s /\ ink (lay_out f s) = ink s.
Proof.
  intros Hf. split; [|by apply ink_lines, ly_ink]. unfold lay_out. rewrite split_of_join; [by rewrite (ly_again _ Hf)|by apply ly_some|]. apply (ly_one _ Hf), split_lines_one_line.
Qed.

Lemma chinese_layout indent : forallb is_white indent = true -> one_line indent -> layout (format_lines indent false).
Proof.
  intros Hw Hl. split; [intros lines; by apply format_lines_again|intros lines; by apply format_lines_ink|intros lines; by apply format_lines_one|intros s; apply format_lines_nonempty].
Qed.

Lemma western_layout : layout (map (fun line => collapse (trim line))).
Proof.
  split.
  - intros lines. rewrite map_map. apply map_ext. apply western_again.
  - intros lines. rewrite map_map. apply map_ext. intros line. by rewrite ink_collapse, ink_trim.
  - intros lines Hall. apply Forall_map. eapply Forall_impl; [exact Hall|]. apply western_one.
  - intros s. pose proof (split_lines_nonempty s). by destruct (split_lines s).
Qed.

(** With an indent of white space within a line, the default among them, layout in any mode
    keeps every character that is not white space, in order, and a text that was laid out is
    left as it is: Chinese paragraphs are not indented again, headings, lists, scene headers
    and fenced code are recognised again, and Western lines have nothing left to trim. *)
Theorem layout_is_idempotent (text : ustring) (o : options) :
  let indent := default DEFAULT_INDENT (indentString o) in
  forallb is_white indent = true -> one_line indent ->
  formatTypography (formatTypography text o) o = formatTypography text o /\ ink (formatTypography text o) = ink text.
Proof.
  intros indent Hw Hl. unfold formatTypography. destruct (bool_decide (enabled o = Some false)) eqn:Ee; [done|]. destruct (mode o) as [[| |]|]; [| |done|done].
  - unfold formatChineseTypography. rewrite Ee. by apply (layout_again (format_lines indent false)), chinese_layout.
  - apply (layout_again _ text), western_layout.
Qed.

(** A paragraph under a heading, one of them indented already. *)
Lemma layout_is_idempotent_witness :
  let o := MkOptions None None (Some Chinese) in let text := [35; 32; 65; 10; 66; 10; 0x3000; 67] in
  formatTypography text o = [35; 32; 65; 10; 0x3000; 0x3000; 66; 10; 0x3000; 0x3000; 67] /\ formatTypography (formatTypography text o) o = formatTypography text o.
Proof.
  intros o text. split; [by vm_compute|]. refine (proj1 (layout_is_idempotent text o _ _)); [by vm_compute|]. intros H. apply list_elem_of_In in H. simpl in H. by destruct H as [?|[?|?]].
Defined.
