(* ===== verification/Materializer.v ===== *)
(** The read models of the domain log ([DomainMaterializer] of
    storage/src/domain-materializer.ts): the generic projection of every aggregate and the
    tables of workspaces, folders, documents and snapshots, written from changes and rebuilt
    from change sets.  The tables of lanes and branch tips are those of [Lanes]; this component
    deletes from them.

    Modelling choices: a change is a JavaScript object, the finite map of its properties; a
    stored JSON text is kept as its value, whose text is [stringify]; a change that is written
    with a revision or time that is no number is refused, as the driver refuses to bind it.
    [foreign_keys] is as in [Lanes]. *)

From S2P Require Import Prelude JsValue Lanes.

Local Open Scope Z_scope.

Abbreviation change := (gmap string jsv).

Definition cprop (c : change) (key : string) : jsv := default VUndef (c !! key).
Definition cstr (c : change) (key : string) : string := match cprop c key with VStr s => s | _ => EmptyString end.
Definition cnum (c : change) (key : string) : Z := match cprop c key with VNum n => n | _ => 0 end.

Definition is_op (c : change) (op : string) : bool := match cprop c "operation" with VStr s => bool_decide (s = op) | _ => false end.

(** * Rows *)

Record workspace_row : Type := MkWorkspace {
  w_title : string;
  w_owner : string;
  w_category : option string;
  w_targetSize : option Z;
  w_synopsis : option string;
  w_coverImage : option string;
  w_metadata : option string;
  w_createdAt : Z;
  w_updatedAt : Z
}.

Record folder_row : Type := MkFolder {
  f_workspaceId : string;
  f_title : string;
  f_orderIndex : Z;
  f_summary : option string;
  f_createdAt : Z;
  f_updatedAt : Z
}.

Record document_row : Type := MkDocument {
  dc_folderId : string;
  dc_workspaceId : string;
  dc_title : string;
  dc_orderIndex : Z;
  dc_synopsis : option string;
  dc_contentSize : Z;
  dc_status : option string;
  dc_createdAt : Z;
  dc_updatedAt : Z
}.

Record snapshot_row : Type := MkSnapshot {
  sn_version : Z;
  sn_contentJson : string;
  sn_contentMarkdown : string;
  sn_contentSize : Z;
  sn_updatedAt : Z
}.

Record generic_row : Type := MkGeneric {
  gp_revision : Z;
  gp_payload : jsv;
  gp_payloadHash : string;
  gp_updatedAt : Z
}.

(** Workspace, aggregate type, aggregate identifier. *)
Abbreviation coordinate := (string * string * string)%type.

Record tables : Type := MkTables {
  t_workspaces : gmap string workspace_row;
  t_folders : gmap string folder_row;
  t_documents : gmap string document_row;
  t_snapshots : gmap string snapshot_row;
  t_deltas : gmap Z string;
  t_lanes : gmap string lane;
  t_tips : gmap (string * string) tip_row;
  t_generic : gmap coordinate generic_row
}.

Inductive mat_error : Type := BadCoordinate | NotJson | NotBindable | OtherWorkspace | HashMismatch.

(** * Reading payloads *)

Definition asRecord (payload : jsv) : list (string * jsv) := match payload with VObj fs => fs | _ => [] end.

Definition hasOwn (record : list (string * jsv)) (key : string) : bool := bool_decide (is_Some (assoc_get record key)).

Fixpoint stringValue (record : list (string * jsv)) (keys : list string) : option string :=
  match keys with
  | [] => None
  | k :: keys => match assoc_get record k with Some (VStr s) => Some s | _ => stringValue record keys end
  end.

Fixpoint numberValue (record : list (string * jsv)) (keys : list string) : option Z :=
  match keys with
  | [] => None
  | k :: keys => match assoc_get record k with Some (VNum n) => Some n | _ => numberValue record keys end
  end.

Definition jsonString (v : jsv) : option string :=
  match v with
  | VUndef | VNull => None
  | VStr s => Some s
  | v => Some (stringify v)
  end.

Definition metadataValue (record : list (string * jsv)) (existing : option string) : option string :=
  if hasOwn record "metadata" then jsonString (prop (VObj record) "metadata")
  else if hasOwn record "projectType" || hasOwn record "project_type" || hasOwn record "features" then
    let projectType := match prop (VObj record) "projectType" with
                       | VUndef | VNull => prop (VObj record) "project_type"
                       | v => v
                       end in
    let present k v := match v with VUndef => [] | v => [(k, v)] end in
    Some (stringify (VObj (present "projectType" projectType ++ present "features" (prop (VObj record) "features"))))
  else existing.

Fixpoint content_json (record : list (string * jsv)) (keys : list string) (existing : option string) : string :=
  match keys with
  | [] => default "{}" existing
  | k :: keys =>
      match assoc_get record k with
      | None | Some VUndef => content_json record keys existing
      | Some (VStr s) => s
      | Some v => stringify v
      end
  end.

Definition contentJsonValue (record : list (string * jsv)) (existing : option string) : string :=
  content_json record ["contentJson"; "content_json"; "contentAst"; "content_ast"] existing.

Definition hasContentPayload (record : list (string * jsv)) : bool :=
  existsb (hasOwn record) ["contentJson"; "content_json"; "contentAst"; "content_ast"; "contentMarkdown"; "content_markdown";
                           "markdown"; "content"; "text"; "body"; "html"].

(** * Aggregates *)

Inductive aggregate : Type := AWorkspace | AFolder | ADocument | AUnknown.

#[export] Instance aggregate_eq_dec : EqDecision aggregate.
Proof. solve_decision. Defined.

Definition lower_char (c : Ascii.ascii) : Ascii.ascii :=
  let n := Ascii.N_of_ascii c in if (65 <=? n)%N && (n <=? 90)%N then Ascii.ascii_of_N (n + 32) else c.

Definition normalizeAggregateType (value : string) : aggregate :=
  let kept c := negb (is_space c) && negb (Ascii.N_of_ascii c =? 95)%N && negb (Ascii.N_of_ascii c =? 45)%N in
  let n := String.string_of_list_ascii (List.filter kept (map lower_char (String.list_ascii_of_string value))) in
  if bool_decide (n ∈ ["project"; "projects"; "workspace"; "workspaces"]) then AWorkspace
  else if bool_decide (n ∈ ["volume"; "volumes"; "folder"; "folders"]) then AFolder
  else if bool_decide (n ∈ ["chapter"; "chapters"; "document"; "documents"]) then ADocument
  else AUnknown.

Definition materializationRank (c : change) : Z :=
  let rank := match normalizeAggregateType (cstr c "aggregateType") with
              | AWorkspace => 0 | AFolder => 1 | ADocument => 2 | AUnknown => 3 end in
  if is_op c "delete" then 10 - rank else rank.

Definition orderChangesForForeignKeys (changes : list change) : list change :=
  js_sort (fun a b => materializationRank a - materializationRank b) changes.

(** * Operations *)

Section Materializer.
Variable foreign_keys : bool.

Definition set_workspaces (t : tables) x := MkTables x (t_folders t) (t_documents t) (t_snapshots t) (t_deltas t) (t_lanes t) (t_tips t) (t_generic t).
Definition set_folders (t : tables) x := MkTables (t_workspaces t) x (t_documents t) (t_snapshots t) (t_deltas t) (t_lanes t) (t_tips t) (t_generic t).
Definition set_documents (t : tables) x := MkTables (t_workspaces t) (t_folders t) x (t_snapshots t) (t_deltas t) (t_lanes t) (t_tips t) (t_generic t).
Definition set_snapshots (t : tables) x := MkTables (t_workspaces t) (t_folders t) (t_documents t) x (t_deltas t) (t_lanes t) (t_tips t) (t_generic t).
Definition set_generic (t : tables) x := MkTables (t_workspaces t) (t_folders t) (t_documents t) (t_snapshots t) (t_deltas t) (t_lanes t) (t_tips t) x.

Definition assertGenericProjectionCoordinate (value : jsv) : result mat_error string :=
  match value with
  | VStr s => if blank s then Err BadCoordinate else Ok s
  | _ => Err BadCoordinate
  end.

(** One iteration of [applyGenericInTransaction]. *)
Definition apply_generic (workspaceId : string) (t : tables) (c : change) : result mat_error tables :=
  let* w := assertGenericProjectionCoordinate (VStr workspaceId) in
  let* ty := assertGenericProjectionCoordinate (cprop c "aggregateType") in
  let* id := assertGenericProjectionCoordinate (cprop c "aggregateId") in
  if is_op c "upsert" then
    let payload := cprop c "payload" in
    throw_if negb (json_safe payload) with NotJson in
    match cprop c "revision", cprop c "occurredAt" with
    | VNum revision, VNum occurredAt =>
        Ok (set_generic t (<[(w, ty, id) := MkGeneric revision payload (fnv_text (stringify payload)) occurredAt]> (t_generic t)))
    | _, _ => Err NotBindable
    end
  else if is_op c "delete" then Ok (set_generic t (delete (w, ty, id) (t_generic t)))
  else Ok t.

Definition applyGenericInTransaction (t : tables) (workspaceId : string) (changes : list change) : result mat_error tables :=
  fold_res (apply_generic workspaceId) t changes.

Definition ensureWorkspace (t : tables) (id : string) (occurredAt : Z) : tables :=
  match t_workspaces t !! id with
  | Some _ => t
  | None => set_workspaces t (<[id := MkWorkspace id EmptyString (Some "general") (Some 0) None None None occurredAt occurredAt]> (t_workspaces t))
  end.

Definition ensureFolder (t : tables) (id workspaceId : string) (occurredAt : Z) : tables :=
  match t_folders t !! id with
  | Some _ => t
  | None => set_folders t (<[id := MkFolder workspaceId id 0 None occurredAt occurredAt]> (t_folders t))
  end.

(** [a ?? b]. *)
Definition or_else {A : Type} (a b : option A) : option A := match a with Some _ => a | None => b end.

Definition upsertWorkspace (t : tables) (c : change) : tables :=
  let payload := asRecord (cprop c "payload") in
  let id := cstr c "aggregateId" in
  let occurredAt := cnum c "occurredAt" in
  let existing := t_workspaces t !! id in
  set_workspaces t (<[id := MkWorkspace
    (default id (or_else (stringValue payload ["title"; "name"]) (w_title <$> existing)))
    (default EmptyString (or_else (stringValue payload ["owner"; "ownerId"; "owner_id"; "author"]) (w_owner <$> existing)))
    (Some (default "general" (or_else (stringValue payload ["category"; "genre"; "projectType"; "project_type"]) (existing ≫= w_category))))
    (Some (default 0 (or_else (numberValue payload ["targetSize"; "target_size"]) (existing ≫= w_targetSize))))
    (or_else (stringValue payload ["description"; "synopsis"; "intro"]) (existing ≫= w_synopsis))
    (or_else (stringValue payload ["coverImage"; "cover_image"; "cover"]) (existing ≫= w_coverImage))
    (metadataValue payload (existing ≫= w_metadata))
    (default occurredAt (or_else (numberValue payload ["createdAt"; "created_at"]) (w_createdAt <$> existing)))
    (default occurredAt (or_else (numberValue payload ["updatedAt"; "updated_at"]) (w_updatedAt <$> existing)))]> (t_workspaces t)).

Definition upsertFolder (t : tables) (workspaceId : string) (c : change) : tables :=
  let payload := asRecord (cprop c "payload") in
  let id := cstr c "aggregateId" in
  let occurredAt := cnum c "occurredAt" in
  let existing := t_folders t !! id in
  let parentWorkspaceId := default workspaceId
    (or_else (stringValue payload ["workspaceId"; "workspace_id"; "projectId"; "project_id"]) (f_workspaceId <$> existing)) in
  let t := ensureWorkspace t parentWorkspaceId occurredAt in
  set_folders t (<[id := MkFolder parentWorkspaceId
    (default id (or_else (stringValue payload ["title"; "name"]) (f_title <$> existing)))
    (default 0 (or_else (numberValue payload ["orderIndex"; "order_index"; "order"]) (f_orderIndex <$> existing)))
    (or_else (stringValue payload ["summary"; "description"; "intro"]) (existing ≫= f_summary))
    (default occurredAt (or_else (numberValue payload ["createdAt"; "created_at"]) (f_createdAt <$> existing)))
    (default occurredAt (or_else (numberValue payload ["updatedAt"; "updated_at"]) (f_updatedAt <$> existing)))]> (t_folders t)).

Definition upsertSnapshot (t : tables) (documentId : string) (payload : list (string * jsv)) (c : change) (documentContentSize : Z) : tables :=
  let existing := t_snapshots t !! documentId in
  set_snapshots t (<[documentId := MkSnapshot
    (default (cnum c "revision") (numberValue payload ["version"; "snapshotVersion"; "snapshot_version"; "revision"]))
    (contentJsonValue payload (sn_contentJson <$> existing))
    (default EmptyString (or_else (stringValue payload ["contentMarkdown"; "content_markdown"; "markdown"; "content"; "text"; "body"; "html"])
                                  (sn_contentMarkdown <$> existing)))
    (default documentContentSize (numberValue payload ["contentSize"; "content_size"; "wordCount"; "word_count"]))
    (default (cnum c "occurredAt") (numberValue payload ["updatedAt"; "updated_at"]))]> (t_snapshots t)).

Definition upsertDocument (t : tables) (workspaceId : string) (c : change) : tables :=
  let payload := asRecord (cprop c "payload") in
  let id := cstr c "aggregateId" in
  let occurredAt := cnum c "occurredAt" in
  let existing := t_documents t !! id in
  let parentWorkspaceId := default workspaceId
    (or_else (stringValue payload ["workspaceId"; "workspace_id"; "projectId"; "project_id"]) (dc_workspaceId <$> existing)) in
  let folderId := or_else (stringValue payload ["folderId"; "folder_id"; "volumeId"; "volume_id"]) (dc_folderId <$> existing) in
  let contentSize := default 0
    (or_else (numberValue payload ["contentSize"; "content_size"; "wordCount"; "word_count"]) (dc_contentSize <$> existing)) in
  match truthy folderId with
  | None => t
  | Some folderId =>
      let t := ensureWorkspace t parentWorkspaceId occurredAt in
      let t := ensureFolder t folderId parentWorkspaceId occurredAt in
      let t := set_documents t (<[id := MkDocument folderId parentWorkspaceId
        (default id (or_else (stringValue payload ["title"; "name"]) (dc_title <$> existing)))
        (default 0 (or_else (numberValue payload ["orderIndex"; "order_index"; "order"]) (dc_orderIndex <$> existing)))
        (or_else (stringValue payload ["synopsis"; "summary"; "description"; "intro"]) (existing ≫= dc_synopsis))
        contentSize
        (Some (default "draft" (or_else (stringValue payload ["status"]) (existing ≫= dc_status))))
        (default occurredAt (or_else (numberValue payload ["createdAt"; "created_at"]) (dc_createdAt <$> existing)))
        (default occurredAt (or_else (numberValue payload ["updatedAt"; "updated_at"]) (dc_updatedAt <$> existing)))]> (t_documents t)) in
      if hasContentPayload payload then upsertSnapshot t id payload c contentSize else t
  end.

(** * Deletions *)

(** Delete the documents [gone], and what hangs on them. *)
Definition delete_documents (t : tables) (gone : string -> bool) : tables :=
  MkTables (t_workspaces t) (t_folders t)
    (filter (fun p => gone (fst p) = false) (t_documents t))
    (filter (fun p => gone (fst p) = false) (t_snapshots t))
    (filter (fun p => gone (snd p) = false) (t_deltas t))
    (t_lanes t)
    (filter (fun p => gone (snd (fst p)) = false) (t_tips t))
    (t_generic t).

Definition deleteDocument (t : tables) (documentId : string) : tables :=
  delete_documents t (fun d => bool_decide (d = documentId)).

Definition deleteFolder (t : tables) (folderId : string) : tables :=
  let gone d := match t_documents t !! d with Some r => bool_decide (dc_folderId r = folderId) | None => false end in
  let t := delete_documents t gone in
  set_folders t (delete folderId (t_folders t)).

Definition deleteWorkspace (t : tables) (workspaceId : string) : tables :=
  let in_folder f := match t_folders t !! f with Some r => bool_decide (f_workspaceId r = workspaceId) | None => false end in
  let gone d := match t_documents t !! d with
                | Some r => bool_decide (dc_workspaceId r = workspaceId) || in_folder (dc_folderId r)
                | None => false
                end in
  let t := delete_documents t gone in
  let lanes := fst (purgeWorkspace foreign_keys (MkLaneDb ∅ ∅ (t_lanes t) (t_tips t)) workspaceId) in
  MkTables (delete workspaceId (t_workspaces t))
    (filter (fun p => f_workspaceId (snd p) <> workspaceId) (t_folders t))
    (t_documents t) (t_snapshots t) (t_deltas t) (d_lanes lanes) (d_tips lanes) (t_generic t).

Definition deleteGenericProjections (t : tables) (workspaceId : string) : tables :=
  set_generic t (filter (fun p => fst (fst (fst p)) <> workspaceId) (t_generic t)).

(** * Transactions *)

(** One iteration of [applyInTransaction]. *)
Definition apply_specialised (workspaceId : string) (t : tables) (c : change) : tables :=
  let kind := normalizeAggregateType (cstr c "aggregateType") in
  if is_op c "upsert" then
    match kind with
    | AWorkspace => upsertWorkspace t c
    | AFolder => upsertFolder t workspaceId c
    | ADocument => upsertDocument t workspaceId c
    | AUnknown => t
    end
  else if is_op c "delete" then
    match kind with
    | AWorkspace => deleteWorkspace t (cstr c "aggregateId")
    | AFolder => deleteFolder t (cstr c "aggregateId")
    | ADocument => deleteDocument t (cstr c "aggregateId")
    | AUnknown => t
    end
  else t.

Definition applyInTransaction (t : tables) (workspaceId : string) (changes : list change) : result mat_error tables :=
  let* t' := applyGenericInTransaction t workspaceId changes in
  Ok (foldl (apply_specialised workspaceId) t' (orderChangesForForeignKeys changes)).

(** A change set, for what the rebuild reads of it: workspace, revision and changes. *)
Definition apply_set (workspaceId : string) (t : tables) (cs : string * Z * list change) : result mat_error tables :=
  let '(w, _, changes) := cs in
  throw_if negb (bool_decide (w = workspaceId)) with OtherWorkspace in
  applyInTransaction t workspaceId changes.

Definition rebuildInTransaction (t : tables) (workspaceId : string) (sets : list (string * Z * list change)) : result mat_error tables :=
  let t := deleteGenericProjections t workspaceId in
  let t := deleteWorkspace t workspaceId in
  fold_res (apply_set workspaceId) t (js_sort (fun a b => snd (fst a) - snd (fst b)) sets).

(** * Queries *)

Definition parseGenericProjection (row : coordinate * generic_row) : result mat_error (coordinate * generic_row) :=
  let '((w, ty, id), r) := row in
  let* _ := assertGenericProjectionCoordinate (VStr w) in
  let* _ := assertGenericProjectionCoordinate (VStr ty) in
  let* _ := assertGenericProjectionCoordinate (VStr id) in
  throw_if negb (bool_decide (fnv_text (stringify (gp_payload r)) = gp_payloadHash r)) with HashMismatch in
  Ok row.

Definition getGenericProjection (t : tables) (workspaceId aggregateType aggregateId : string)
  : result mat_error (option (coordinate * generic_row)) :=
  let* w := assertGenericProjectionCoordinate (VStr workspaceId) in
  let* ty := assertGenericProjectionCoordinate (VStr aggregateType) in
  let* id := assertGenericProjectionCoordinate (VStr aggregateId) in
  match t_generic t !! (w, ty, id) with
  | Some r => let* p := parseGenericProjection ((w, ty, id), r) in Ok (Some p)
  | None => Ok None
  end.

(** [ORDER BY aggregate_type ASC, aggregate_id ASC]. *)
Definition compare_coordinates (a b : coordinate * generic_row) : Z :=
  let cmp x y := match String.compare x y with Lt => -1 | Eq => 0 | Gt => 1 end in
  let d := cmp (snd (fst (fst a))) (snd (fst (fst b))) in
  if d =? 0 then cmp (snd (fst a)) (snd (fst b)) else d.

Definition listGenericProjections (t : tables) (workspaceId : string) (aggregateType : option string)
  : result mat_error (list (coordinate * generic_row)) :=
  let* w := assertGenericProjectionCoordinate (VStr workspaceId) in
  let* _ := match aggregateType with Some ty => assertGenericProjectionCoordinate (VStr ty) | None => Ok EmptyString end in
  let wanted (p : coordinate * generic_row) :=
    bool_decide (fst (fst (fst p)) = w) &&
    match aggregateType with Some ty => bool_decide (snd (fst (fst p)) = ty) | None => true end in
  fold_res (fun acc p => let* p := parseGenericProjection p in Ok (acc ++ [p])) []
    (js_sort compare_coordinates (List.filter wanted (map_to_list (t_generic t)))).
End Materializer.
