(* ===== verification/MaterializerProofs.v ===== *)
(** What [Materializer] makes of the generic projections: each is the last write of its
    aggregate, whether the changes came one set at a time or in a rebuild.  The specialised
    tables never touch them. *)

From Stdlib Require Import Sorting.Sorted.
From S2P Require Import Prelude JsValue Lanes Materializer.

Local Open Scope Z_scope.

(** * The specification: the last change of an aggregate decides *)

Definition targets (c : change) (ty id : string) : bool :=
  match cprop c "aggregateType", cprop c "aggregateId" with
  | VStr a, VStr b => bool_decide (a = ty) && bool_decide (b = id)
  | _, _ => false
  end.

Definition projected_row (c : change) : generic_row :=
  MkGeneric (cnum c "revision") (cprop c "payload") (fnv_text (stringify (cprop c "payload"))) (cnum c "occurredAt").

Definition project_change (ty id : string) (acc : option generic_row) (c : change) : option generic_row :=
  if targets c ty id then
    if is_op c "upsert" then Some (projected_row c) else if is_op c "delete" then None else acc
  else acc.

Definition projected (changes : list change) (ty id : string) : option generic_row := foldl (project_change ty id) None changes.

Section MaterializerProofs.
Variable foreign_keys : bool.

Lemma coordinate_inv v s : assertGenericProjectionCoordinate v = Ok s -> v = VStr s /\ blank s = false.
Proof. unfold assertGenericProjectionCoordinate. destruct v; try done. destruct (blank s0) eqn:E; [done|]. by intros [= ->]. Qed.

Lemma apply_generic_lookup w t c t' w' ty id :
  apply_generic w t c = Ok t' ->
  t_generic t' !! (w', ty, id) = if decide (w' = w) then project_change ty id (t_generic t !! (w', ty, id)) c else t_generic t !! (w', ty, id).
Proof.
  unfold apply_generic, project_change, projected_row, cnum. intros H. inv_bind.
  apply coordinate_inv in Hv as [[= <-] _], Hv0 as [Hty _], Hv1 as [Hid _]. unfold targets. rewrite Hty, Hid.
  destruct (is_op c "upsert").
  - destruct (negb _); [done|]. destruct (cprop c "revision"); try done. destruct (cprop c "occurredAt"); try done.
    injection H as <-. cbn. destruct (decide (w' = w)) as [->|Hw]; [|by rewrite lookup_insert_ne by congruence].
    repeat case_bool_decide; subst; cbn; [by rewrite lookup_insert_eq|..]; by rewrite lookup_insert_ne by congruence.
  - destruct (is_op c "delete"); injection H as <-; cbn.
    + destruct (decide (w' = w)) as [->|Hw]; [|by rewrite lookup_delete_ne by congruence].
      repeat case_bool_decide; subst; cbn; [by rewrite lookup_delete_eq|..]; by rewrite lookup_delete_ne by congruence.
    + destruct (decide (w' = w)); [|done]. by destruct (_ && _).
Qed.

Lemma applyGeneric_lookup w changes : forall t t' w' ty id,
  applyGenericInTransaction t w changes = Ok t' ->
  t_generic t' !! (w', ty, id) =
    if decide (w' = w) then foldl (project_change ty id) (t_generic t !! (w', ty, id)) changes else t_generic t !! (w', ty, id).
Proof.
  induction changes as [|c changes IH]; intros t t' w' ty id; cbn [applyGenericInTransaction fold_res foldl].
  - intros [= <-]. by destruct (decide _).
  - intros H. apply bind_res_ok in H as (t1 & H1 & H). rewrite (IH _ _ _ _ _ H), (apply_generic_lookup _ _ _ _ _ _ _ H1).
    by destruct (decide _).
Qed.

(** * The specialised tables leave the generic ones alone *)

Lemma ensureWorkspace_generic t w o : t_generic (ensureWorkspace t w o) = t_generic t.
Proof. unfold ensureWorkspace. by destruct (t_workspaces t !! w). Qed.

Lemma ensureFolder_generic t f w o : t_generic (ensureFolder t f w o) = t_generic t.
Proof. unfold ensureFolder. by destruct (t_folders t !! f). Qed.

Lemma upsertDocument_generic t w c : t_generic (upsertDocument t w c) = t_generic t.
Proof.
  unfold upsertDocument. destruct (truthy _); [|done]. destruct (hasContentPayload _);
    cbn; by rewrite ensureFolder_generic, ensureWorkspace_generic.
Qed.

Lemma apply_specialised_generic w t c : t_generic (apply_specialised foreign_keys w t c) = t_generic t.
Proof.
  unfold apply_specialised. destruct (is_op c "upsert"); [|destruct (is_op c "delete"); [|done]];
    destruct (normalizeAggregateType _); try done.
  - cbn. apply ensureWorkspace_generic.
  - apply upsertDocument_generic.
Qed.

Lemma apply_specialised_all_generic w t l : t_generic (foldl (apply_specialised foreign_keys w) t l) = t_generic t.
Proof. revert t. induction l as [|c l IH]; intros t; [done|]. cbn [foldl]. by rewrite IH, apply_specialised_generic. Qed.

(** * Applying and rebuilding *)

Lemma applyInTransaction_lookup t w changes t' w' ty id :
  applyInTransaction foreign_keys t w changes = Ok t' ->
  t_generic t' !! (w', ty, id) =
    if decide (w' = w) then foldl (project_change ty id) (t_generic t !! (w', ty, id)) changes else t_generic t !! (w', ty, id).
Proof.
  unfold applyInTransaction. intros H. inv_bind. injection H as <-. rewrite apply_specialised_all_generic. by apply applyGeneric_lookup.
Qed.

Lemma apply_sets_lookup w sets : forall t t' w' ty id,
  fold_res (apply_set foreign_keys w) t sets = Ok t' ->
  t_generic t' !! (w', ty, id) =
    if decide (w' = w) then foldl (project_change ty id) (t_generic t !! (w', ty, id)) (List.concat (map snd sets))
    else t_generic t !! (w', ty, id).
Proof.
  induction sets as [|[[ws k] changes] sets IH]; intros t t' w' ty id; cbn [fold_res].
  - intros [= <-]. by destruct (decide _).
  - intros H. apply bind_res_ok in H as (t1 & H1 & H). rewrite (IH _ _ _ _ _ H). cbn [apply_set] in H1.
    case_bool_decide as Hw; [|done]. rewrite (applyInTransaction_lookup _ _ _ _ _ _ _ H1). cbn. rewrite foldl_app. by destruct (decide _).
Qed.

(** After a rebuild the generic projections of the workspace are those of the sets, in the
    order of their revisions, and the others are untouched. *)
Lemma rebuild_lookup t w sets t' w' ty id :
  StronglySorted (fun a b : string * Z * list change => snd (fst a) < snd (fst b)) sets ->
  rebuildInTransaction foreign_keys t w sets = Ok t' ->
  t_generic t' !! (w', ty, id) =
    if decide (w' = w) then projected (List.concat (map snd sets)) ty id else t_generic t !! (w', ty, id).
Proof.
  intros Hsorted. unfold rebuildInTransaction. rewrite (js_sort_unique (fun a => snd (fst a)) sets) by done.
  intros H. rewrite (apply_sets_lookup _ _ _ _ _ _ _ H). cbn [deleteWorkspace deleteGenericProjections t_generic set_generic delete_documents].
  destruct (decide (w' = w)) as [->|Hw].
  - unfold projected. f_equal. apply map_lookup_filter_None. right. by intros x _ [].
  - destruct (t_generic t !! (w', ty, id)) as [r|] eqn:E.
    + by apply map_lookup_filter_Some.
    + apply map_lookup_filter_None. by left.
Qed.
End MaterializerProofs.

(** * Concrete runs *)

Definition document_change (op : string) (payload : jsv) : change :=
  list_to_map [("id", VStr "c"); ("aggregateType", VStr "document"); ("aggregateId", VStr "d"); ("operation", VStr op);
               ("revision", VNum 1); ("occurredAt", VNum 1); ("payload", payload)].

Definition no_tables : tables := MkTables ∅ ∅ ∅ ∅ ∅ ∅ ∅ ∅.

Definition run_changes (t : tables) (changes : list change) : tables :=
  match applyInTransaction true t "w" changes with Ok t => t | Err _ => t end.

(** A document deleted and created again in one change set: sorting the changes for the
    foreign keys runs the deletion last, so the document is gone from its table, while its
    generic projection, written in the order of the changes, is there. *)
Example recreated_document_is_lost :
  let upsert := document_change "upsert" (VObj [("folderId", VStr "f"); ("title", VStr "t")]) in
  let t := run_changes (run_changes no_tables [upsert]) [document_change "delete" VUndef; upsert] in
  (dc_title <$> t_documents (run_changes no_tables [upsert]) !! "d") = Some "t" /\
  (dc_title <$> t_documents t !! "d") = None /\ (gp_revision <$> t_generic t !! ("w", "document", "d")) = Some 1.
Proof. vm_compute. auto. Qed.

(** A rebuild deletes the lanes, the branch tips and the pending deltas of the workspace, which
    the log of changes does not hold. *)
Example rebuild_drops_lanes_and_deltas :
  let upsert := document_change "upsert" (VObj [("folderId", VStr "f"); ("title", VStr "t")]) in
  let t0 := run_changes no_tables [upsert] in
  let t := MkTables (t_workspaces t0) (t_folders t0) (t_documents t0) (t_snapshots t0) {[1 := "d"]}
             {["main" := MkLane "main" "w" "Main" None None true 0 0]} {[("main", "d") := MkTip 1 1 1 1 0]} (t_generic t0) in
  match rebuildInTransaction true t "w" [("w", 1, [upsert])] with
  | Ok t' => (dc_title <$> t_documents t' !! "d") = Some "t" /\ map_to_list (t_lanes t') = [] /\
      map_to_list (t_tips t') = [] /\ map_to_list (t_deltas t') = []
  | Err _ => False
  end.
Proof. vm_compute. auto. Qed.
