(* ===== verification/DomainLog.v ===== *)
(** The daemon's copy of the desktop's change log ([DomainProjectionStore] of
    storage/src/domain-projection.ts, with the codec of domain-change-codec.ts and the checks
    of protocol/src/domain-sync.ts): change sets are appended one revision at a time, served in
    pages, captured and restored as snapshots; the read models of [Materializer] follow.

    Modelling choices: a transaction returns the new store or the error, which leaves the store
    as it was; the clock reading and the random epoch are arguments; [JSON.parse] undoes
    [JSON.stringify] on the values stored, so a stored text is kept as its value. *)

From S2P Require Import Prelude JsValue Lanes Materializer.

Local Open Scope Z_scope.

(** * Data *)

Record change_set : Type := MkChangeSet {
  cs_id : string;
  cs_workspaceId : string;
  cs_sourceDeviceId : string;
  cs_baseRevision : Z;
  cs_revision : Z;
  cs_changes : list change;
  cs_checksum : string;
  cs_createdAt : Z
}.

Definition with_changes (cs : change_set) (changes : list change) : change_set :=
  MkChangeSet (cs_id cs) (cs_workspaceId cs) (cs_sourceDeviceId cs) (cs_baseRevision cs) (cs_revision cs) changes
    (cs_checksum cs) (cs_createdAt cs).

Inductive log_error : Type :=
| NotJsonSafe | ChecksumMismatch | EmptyIdentifier | BadRevision | BadChange | IdCollision | Constraint
| MaterializerFailed (e : mat_error) | BadQuery | CorruptEnvelope | CorruptChecksum | OutOfOrder | CursorMismatch
| PageTooLarge | BadSnapshot.

(** * Checksums *)

Definition change_value (c : change) : jsv := VObj (map_to_list c).

Definition unsigned_value (cs : change_set) : jsv :=
  VObj [("id", VStr (cs_id cs)); ("workspaceId", VStr (cs_workspaceId cs)); ("sourceDeviceId", VStr (cs_sourceDeviceId cs));
        ("baseRevision", VNum (cs_baseRevision cs)); ("revision", VNum (cs_revision cs));
        ("changes", VArr (map change_value (cs_changes cs))); ("createdAt", VNum (cs_createdAt cs))].

Definition calculateDomainChangeSetChecksum (cs : change_set) : string := fnv_text (stableSerialize (unsigned_value cs)).

Definition checksum_ok (cs : change_set) : bool := bool_decide (calculateDomainChangeSetChecksum cs = cs_checksum cs).

(** * The wire form *)

Definition is_undef (v : jsv) : bool := match v with VUndef => true | _ => false end.

Definition wire_change_ok (c : change) : bool :=
  forallb (fun kv => bool_decide (fst kv = "payload") || json_safe (snd kv)) (map_to_list c) &&
  ((is_op c "delete" && is_undef (cprop c "payload")) || json_safe (cprop c "payload")).

Definition restore_payload (c : change) : change :=
  if is_op c "delete" && bool_decide (c !! "payload" = None) then <["payload" := VUndef]> c else c.

Definition restoreDomainChangeSetWireValue (cs : change_set) : result log_error change_set :=
  throw_if negb (forallb wire_change_ok (cs_changes cs)) with NotJsonSafe in
  if checksum_ok cs then Ok cs
  else
    let legacy := with_changes cs (map restore_payload (cs_changes cs)) in
    throw_if negb (checksum_ok legacy) with ChecksumMismatch in
    Ok legacy.

Definition change_ok (c : change) : bool :=
  js_truthy (cprop c "id") && js_truthy (cprop c "aggregateType") && js_truthy (cprop c "aggregateId") &&
  (is_op c "upsert" || is_op c "delete") &&
  ((negb (is_op c "upsert") && is_undef (cprop c "payload")) || json_safe (cprop c "payload")).

Definition validateChangeSet (cs : change_set) : result log_error unit :=
  throw_if blank (cs_id cs) || blank (cs_workspaceId cs) || blank (cs_sourceDeviceId cs) with EmptyIdentifier in
  throw_if (cs_baseRevision cs <? 0) || negb (cs_revision cs =? cs_baseRevision cs + 1) ||
           bool_decide (cs_checksum cs = EmptyString) with BadRevision in
  throw_if negb (forallb change_ok (cs_changes cs)) with BadChange in
  throw_if negb (checksum_ok cs) with ChecksumMismatch in
  Ok tt.

(** * The storage codec *)

(** The value of a change in the envelope: a payload that is [undefined] is left out. *)
Definition encode_change (c : change) : change :=
  match c !! "payload" with Some VUndef => delete "payload" c | _ => c end.

Fixpoint undefined_payloads (index : Z) (changes : list change) : list Z :=
  match changes with
  | [] => []
  | c :: changes =>
      match c !! "payload" with Some VUndef => [index] | _ => [] end ++ undefined_payloads (index + 1) changes
  end.

Definition serializeDomainChanges (changes : list change) : result log_error jsv :=
  let envelope := VObj [("version", VNum 2); ("changes", VArr (map (fun c => change_value (encode_change c)) changes));
                        ("undefinedPayloadIndices", VArr (map VNum (undefined_payloads 0 changes)))] in
  throw_if negb (json_safe envelope) with NotJsonSafe in Ok envelope.

Definition sentinel : string := "__inkpi_domain_projection_undefined__".

Fixpoint restoreLegacyUndefined (v : jsv) : jsv :=
  match v with
  | VArr items => VArr (map restoreLegacyUndefined items)
  | VObj [(k, VBool true)] => if bool_decide (k = sentinel) then VUndef else v
  | VObj fs => VObj (map (fun kv => (fst kv, restoreLegacyUndefined (snd kv))) fs)
  | v => v
  end.

Definition to_change (v : jsv) : result log_error change :=
  match v with VObj fs => Ok (list_to_map fs) | _ => Err CorruptEnvelope end.

Definition to_changes (vs : list jsv) : result log_error (list change) :=
  fold_res (fun acc v => let* c := to_change v in Ok (acc ++ [c])) [] vs.

Fixpoint restore_indices (changes : list change) (seen : list Z) (indices : list jsv) : result log_error (list change) :=
  match indices with
  | [] => Ok changes
  | VNum i :: indices =>
      match (if (0 <=? i) && (i <? zlen changes) then changes !! Z.to_nat i else None) with
      | Some c =>
          throw_if bool_decide (i ∈ seen) || negb (is_op c "delete") || bool_decide (is_Some (c !! "payload")) with CorruptEnvelope in
          restore_indices (<[Z.to_nat i := <["payload" := VUndef]> c]> changes) (i :: seen) indices
      | None => Err CorruptEnvelope
      end
  | _ => Err CorruptEnvelope
  end.

Definition deserializeDomainChanges (v : jsv) : result log_error (list change) :=
  match v with
  | VArr items => to_changes (map restoreLegacyUndefined items)
  | _ =>
      match prop v "version", prop v "changes", prop v "undefinedPayloadIndices" with
      | VNum 2, VArr changes, VArr indices => let* cs := to_changes changes in restore_indices cs [] indices
      | _, _, _ => Err CorruptEnvelope
      end
  end.

(** * The store *)

Record set_row : Type := MkSetRow {
  sr_workspaceId : string;
  sr_sourceDeviceId : string;
  sr_baseRevision : Z;
  sr_revision : Z;
  sr_changes : jsv;
  sr_checksum : string;
  sr_createdAt : Z
}.

Record cursor_row : Type := MkCursor { cu_revision : Z; cu_updatedAt : Z; cu_epoch : string }.

Record store : Type := MkStore {
  s_sets : gmap string set_row;
  s_cursors : gmap string cursor_row;
  s_tables : tables
}.

Record apply_result : Type := MkApplied { ap_accepted : bool; ap_duplicate : bool; ap_revision : Z }.

Record snapshot : Type := MkSnap {
  sp_workspaceId : string;
  sp_revision : Z;
  sp_changeSets : list change_set;
  sp_createdAt : Z;
  sp_epoch : string
}.

Record page : Type := MkPage {
  pg_workspaceId : string;
  pg_afterRevision : Z;
  pg_revision : Z;
  pg_epoch : string;
  pg_reset : bool;
  pg_changeSets : list change_set
}.

Section Store.
Variable foreign_keys : bool.

Definition getCursor (st : store) (workspaceId : string) : Z := default 0 (cu_revision <$> s_cursors st !! workspaceId).

Definition getEpoch (st : store) (workspaceId : string) : string := default EmptyString (cu_epoch <$> s_cursors st !! workspaceId).

(** The [INSERT] of a change set: the primary key and the unique triple. *)
Definition insert_set (st : store) (cs : change_set) : result log_error store :=
  let* changes := serializeDomainChanges (cs_changes cs) in
  throw_if bool_decide (is_Some (s_sets st !! cs_id cs)) with Constraint in
  throw_if existsb (fun p => bool_decide (sr_workspaceId (snd p) = cs_workspaceId cs) &&
                             bool_decide (sr_sourceDeviceId (snd p) = cs_sourceDeviceId cs) &&
                             (sr_revision (snd p) =? cs_revision cs)) (map_to_list (s_sets st)) with Constraint in
  Ok (MkStore (<[cs_id cs := MkSetRow (cs_workspaceId cs) (cs_sourceDeviceId cs) (cs_baseRevision cs) (cs_revision cs)
                                changes (cs_checksum cs) (cs_createdAt cs)]> (s_sets st))
              (s_cursors st) (s_tables st)).

Definition mat {A : Type} (r : result mat_error A) : result log_error A :=
  match r with Ok a => Ok a | Err e => Err (MaterializerFailed e) end.

Definition apply (st : store) (now : Z) (epoch : string) (input : change_set) : result log_error (store * apply_result) :=
  let* cs := restoreDomainChangeSetWireValue input in
  let* _ := validateChangeSet cs in
  match s_sets st !! cs_id cs with
  | Some existing =>
      throw_if negb (bool_decide (sr_workspaceId existing = cs_workspaceId cs)) ||
               negb (bool_decide (sr_sourceDeviceId existing = cs_sourceDeviceId cs)) ||
               negb (bool_decide (sr_checksum existing = cs_checksum cs)) ||
               negb (sr_revision existing =? cs_revision cs) with IdCollision in
      Ok (st, MkApplied true true (sr_revision existing))
  | None =>
      let revision := getCursor st (cs_workspaceId cs) in
      if negb (cs_baseRevision cs =? revision) || negb (cs_revision cs =? revision + 1)
      then Ok (st, MkApplied false false revision)
      else
        let* st := insert_set st cs in
        let* t := mat (applyInTransaction foreign_keys (s_tables st) (cs_workspaceId cs) (cs_changes cs)) in
        let kept := default epoch (cu_epoch <$> s_cursors st !! cs_workspaceId cs) in
        Ok (MkStore (s_sets st) (<[cs_workspaceId cs := MkCursor (cs_revision cs) now kept]> (s_cursors st)) t,
            MkApplied true false (cs_revision cs))
  end.

(** * Reading the log *)

Definition rows_after (st : store) (workspaceId : string) (after : Z) : list (string * set_row) :=
  js_sort (fun a b => sr_revision (snd a) - sr_revision (snd b))
    (List.filter (fun p => bool_decide (sr_workspaceId (snd p) = workspaceId) && (after <? sr_revision (snd p))) (map_to_list (s_sets st))).

Definition read_row (row : string * set_row) : result log_error change_set :=
  let '(id, r) := row in
  let* changes := deserializeDomainChanges (sr_changes r) in
  let cs := MkChangeSet id (sr_workspaceId r) (sr_sourceDeviceId r) (sr_baseRevision r) (sr_revision r) changes
              (sr_checksum r) (sr_createdAt r) in
  if checksum_ok cs then Ok cs
  else
    let legacy := with_changes cs (map (fun c : change => if bool_decide (is_Some (c !! "payload")) then c else <["payload" := VUndef]> c) changes) in
    throw_if negb (checksum_ok legacy) with CorruptChecksum in Ok legacy.

Fixpoint read_rows (expected : Z) (rows : list (string * set_row)) : result log_error (list change_set) :=
  match rows with
  | [] => Ok []
  | row :: rows =>
      let* cs := read_row row in
      throw_if negb (cs_revision cs =? expected) || negb (cs_baseRevision cs =? cs_revision cs - 1) with OutOfOrder in
      let* rest := read_rows (expected + 1) rows in
      Ok (cs :: rest)
  end.

Definition MAX_SAFE : Z := 2 ^ 53 - 1.

Definition bad_limit (limit : Z) : bool := (limit <? 1) || (1000 <? limit).

Definition list_sets (st : store) (workspaceId : string) (after : Z) (limit : option Z) : result log_error (list change_set) :=
  throw_if blank workspaceId || (after <? 0) with BadQuery in
  throw_if match limit with Some n => bad_limit n | None => false end with BadQuery in
  let rows := rows_after st workspaceId after in
  read_rows (after + 1) (match limit with Some n => ztake n rows | None => rows end).

Definition captureSnapshot (st : store) (now : Z) (workspaceId : string) : result log_error snapshot :=
  let revision := getCursor st workspaceId in
  let* sets := list_sets st workspaceId 0 None in
  throw_if negb (default 0 (cs_revision <$> last sets) =? revision) with CursorMismatch in
  Ok (MkSnap workspaceId revision sets now (getEpoch st workspaceId)).

(** An upper estimate of the size of a change set on the wire. *)
Definition row_bytes (row : string * set_row) : Z :=
  let '(id, r) := row in
  utf8_length (stringify (sr_changes r)) + 6 * (utf8_length id + utf8_length (sr_workspaceId r) + utf8_length (sr_sourceDeviceId r)) + 256.

Definition PAGE_BYTES : Z := 1024 * 1024.

(** How many of the first rows fit in a page. *)
Fixpoint page_count (bytes count : Z) (rows : list (string * set_row)) : result log_error Z :=
  match rows with
  | [] => Ok count
  | row :: rows =>
      if PAGE_BYTES <? bytes + row_bytes row
      then throw_if count =? 0 with PageTooLarge in Ok count
      else page_count (bytes + row_bytes row) (count + 1) rows
  end.

Definition readPage (st : store) (workspaceId : string) (after : Z) (epoch : string) (limit : option Z) : result log_error page :=
  throw_if (after <? 0) || (MAX_SAFE <? after) with BadQuery in
  let limit := default 100 limit in
  throw_if blank workspaceId || bad_limit limit with BadQuery in
  let revision := getCursor st workspaceId in
  let current := getEpoch st workspaceId in
  let reset := (revision <? after) ||
    (negb (bool_decide (epoch = current)) && negb ((after =? 0) && bool_decide (epoch = EmptyString))) in
  if reset then Ok (MkPage workspaceId after revision current true [])
  else
    let* count := page_count 0 0 (ztake limit (rows_after st workspaceId after)) in
    let* sets := (if count =? 0 then Ok [] else list_sets st workspaceId after (Some count)) in
    throw_if bool_decide (sets = []) && negb (after =? revision) with CursorMismatch in
    Ok (MkPage workspaceId after revision current false sets).

(** * Snapshots *)

Fixpoint validate_sets (workspaceId : string) (expected : Z) (seen : list string) (sets : list change_set) : result log_error Z :=
  match sets with
  | [] => Ok expected
  | cs :: sets =>
      let* _ := validateChangeSet cs in
      throw_if bool_decide (cs_id cs ∈ seen) with BadSnapshot in
      throw_if negb (bool_decide (cs_workspaceId cs = workspaceId)) || negb (cs_revision cs =? expected) ||
               negb (cs_baseRevision cs =? expected - 1) with BadSnapshot in
      validate_sets workspaceId (expected + 1) (cs_id cs :: seen) sets
  end.

Definition validateSnapshot (s : snapshot) : result log_error unit :=
  throw_if blank (sp_workspaceId s) || (sp_revision s <? 0) with BadSnapshot in
  let* expected := validate_sets (sp_workspaceId s) 1 [] (sp_changeSets s) in
  throw_if negb (sp_revision s =? expected - 1) with BadSnapshot in
  Ok tt.

Definition restore_all (sets : list change_set) : result log_error (list change_set) :=
  fold_res (fun acc cs => let* cs := restoreDomainChangeSetWireValue cs in Ok (acc ++ [cs])) [] sets.

Definition delete_log (st : store) (workspaceId : string) : store :=
  MkStore (filter (fun p => sr_workspaceId (snd p) <> workspaceId) (s_sets st)) (delete workspaceId (s_cursors st)) (s_tables st).

Definition set_triple (cs : change_set) : string * Z * list change := (cs_workspaceId cs, cs_revision cs, cs_changes cs).

Definition restoreSnapshot (st : store) (now : Z) (epoch : string) (input : snapshot) : result log_error store :=
  let* sets := restore_all (sp_changeSets input) in
  let s := MkSnap (sp_workspaceId input) (sp_revision input) sets (sp_createdAt input) (sp_epoch input) in
  let* _ := validateSnapshot s in
  let* st := fold_res insert_set (delete_log st (sp_workspaceId s)) sets in
  let* t := mat (rebuildInTransaction foreign_keys (s_tables st) (sp_workspaceId s) (map set_triple sets)) in
  Ok (MkStore (s_sets st) (<[sp_workspaceId s := MkCursor (sp_revision s) now epoch]> (s_cursors st)) t).

Definition rebuild (st : store) (workspaceId : string) : result log_error store :=
  let* sets := list_sets st workspaceId 0 None in
  let* t := mat (rebuildInTransaction foreign_keys (s_tables st) workspaceId (map set_triple sets)) in
  Ok (MkStore (s_sets st) (s_cursors st) t).

Definition purgeWorkspace (st : store) (workspaceId : string) : store * Z :=
  let gone := List.filter (fun p => bool_decide (sr_workspaceId (snd p) = workspaceId)) (map_to_list (s_sets st)) in
  let st' := delete_log st workspaceId in
  (MkStore (s_sets st') (s_cursors st') (deleteGenericProjections (s_tables st') workspaceId), zlen gone).
End Store.
