(* ===== verification/DomainLogProofs.v ===== *)
(** Lemmas about [DomainLog]: the storage codec loses nothing, a store represents a log of
    change sets per workspace, and every read returns a piece of that log. *)

From Stdlib Require Import Sorting.Sorted.
From S2P Require Import Prelude JsValue Lanes Materializer DomainLog.

Local Open Scope Z_scope.

(** * The codec *)

(** A change that can be stored: every property is JSON, but for the payload of a deletion,
    which may be [undefined]. *)
Definition storable (c : change) : Prop :=
  forall k v, c !! k = Some v -> json_safe v = true \/ (k = "payload" /\ v = VUndef /\ is_op c "delete" = true).

Lemma wire_change_storable c : wire_change_ok c = true -> storable c.
Proof.
  unfold wire_change_ok. intros H k v Hk. apply andb_true_iff in H as [H1 H2]. rewrite forallb_forall in H1.
  specialize (H1 (k, v)). cbn in H1. destruct (decide (k = "payload")) as [->|Hne].
  - unfold cprop in H2. rewrite Hk in H2. cbn in H2. apply orb_true_iff in H2 as [H2|H2]; [|by left].
    apply andb_true_iff in H2 as [Hop Hu]. right. by destruct v.
  - left. rewrite bool_decide_false in H1 by done. apply H1. apply list_elem_of_In, elem_of_map_to_list. exact Hk.
Qed.

Lemma storable_wire c : storable c -> is_op c "delete" = true \/ json_safe (cprop c "payload") = true -> wire_change_ok c = true.
Proof.
  intros H Hp. apply andb_true_iff. split.
  - apply forallb_forall. intros [k v] Hin%list_elem_of_In%elem_of_map_to_list. cbn.
    destruct (H k v Hin) as [->|(-> & _)]; [apply orb_true_r|by rewrite bool_decide_true].
  - destruct Hp as [Hd| ->]; [|apply orb_true_r]. rewrite Hd. cbn. unfold cprop.
    destruct (c !! "payload") as [v|] eqn:E; [|done]. cbn. destruct (H _ _ E) as [->|(_ & -> & _)]; [apply orb_true_r|done].
Qed.

Lemma is_op_payload c v op : is_op (<["payload" := v]> c) op = is_op c op.
Proof. unfold is_op, cprop. by rewrite lookup_insert_ne. Qed.

Lemma is_op_delete_payload c op : is_op (delete "payload" c) op = is_op c op.
Proof. unfold is_op, cprop. by rewrite lookup_delete_ne. Qed.

Lemma encode_cases c :
  (c !! "payload" = Some VUndef /\ encode_change c = delete "payload" c) \/
  (c !! "payload" <> Some VUndef /\ encode_change c = c).
Proof. unfold encode_change. destruct (c !! "payload") as [[]|]; by (left + right). Qed.

Lemma encode_change_safe c : storable c -> json_safe (change_value (encode_change c)) = true.
Proof.
  intros H. apply forallb_forall. intros [k v] Hin%list_elem_of_In%elem_of_map_to_list. cbn.
  assert (Hkv : c !! k = Some v /\ (k = "payload" -> v <> VUndef)).
  { destruct (encode_cases c) as [[E Ec]|[E Ec]]; rewrite Ec in Hin.
    - apply lookup_delete_Some in Hin as [? ?]. split; [done|congruence].
    - split; [done|]. intros ->. congruence. }
  destruct Hkv as [Hk Hne].
  destruct (H k v Hk) as [?|(-> & -> & _)]; [done|]. by destruct Hne.
Qed.

Lemma to_change_value c : to_change (change_value c) = Ok c.
Proof. unfold to_change, change_value. by rewrite list_to_map_to_list. Qed.

Lemma to_changes_values acc cs :
  fold_res (fun acc v => let* c := to_change v in Ok (acc ++ [c])) acc (map change_value cs) = Ok (acc ++ cs).
Proof.
  revert acc. induction cs as [|c cs IH]; intros acc; cbn [map fold_res]; [by rewrite app_nil_r|].
  rewrite to_change_value. cbn [bind_res]. rewrite IH. by rewrite <- app_assoc.
Qed.

Lemma to_changes_value cs : to_changes (map change_value cs) = Ok cs.
Proof. exact (to_changes_values [] cs). Qed.

Lemma zlen_snoc {A : Type} (l : list A) x : zlen (l ++ [x]) = zlen l + 1.
Proof. rewrite zlen_app, zlen_cons, zlen_nil. lia. Qed.

Lemma restore_encoded cs : forall pre seen,
  Forall storable cs -> Forall (fun i => i < zlen pre) seen ->
  restore_indices (pre ++ map encode_change cs) seen (map VNum (undefined_payloads (zlen pre) cs)) = Ok (pre ++ cs).
Proof.
  induction cs as [|c cs IH]; intros pre seen Hst Hseen; cbn [map undefined_payloads restore_indices].
  - done.
  - apply Forall_cons in Hst as [Hc Hst].
    pose proof (zlen_nonneg pre) as Hpre.
    assert (Hnext : restore_indices (pre ++ c :: map encode_change cs) (zlen pre :: seen)
        (map VNum (undefined_payloads (zlen pre + 1) cs)) = Ok (pre ++ c :: cs) /\
        restore_indices (pre ++ c :: map encode_change cs) seen (map VNum (undefined_payloads (zlen pre + 1) cs)) = Ok (pre ++ c :: cs)).
    { rewrite <- (zlen_snoc pre c), (cons_middle c pre), (cons_middle c pre cs), !app_assoc. split; apply IH; try done.
      - rewrite zlen_snoc. constructor; [lia|]. eapply Forall_impl; [exact Hseen|]. simpl. lia.
      - rewrite zlen_snoc. eapply Forall_impl; [exact Hseen|]. simpl. lia. }
    destruct (encode_cases c) as [[Ep He]|[Ep He]]; rewrite He.
    2: { assert (Hn : match c !! "payload" with Some VUndef => [zlen pre] | _ => [] end = []) by (by destruct (c !! "payload") as [[]|]).
         rewrite Hn. apply Hnext. }
    rewrite Ep.
    assert (Hd : is_op c "delete" = true).
    { destruct (Hc _ _ Ep) as [?|(_ & _ & ?)]; done. }
    cbn [app map restore_indices].
    assert (Hin : (0 <=? zlen pre) && (zlen pre <? zlen (pre ++ delete "payload" c :: map encode_change cs)) = true).
    { rewrite zlen_app, zlen_cons. pose proof (zlen_nonneg (map encode_change cs)). apply andb_true_iff. split; [apply Z.leb_le|apply Z.ltb_lt]; lia. }
    rewrite Hin. unfold zlen at 1. rewrite Nat2Z.id, list_lookup_middle by done.
    rewrite is_op_delete_payload, Hd, lookup_delete_eq.
    rewrite bool_decide_false; [|intros Hs; rewrite Forall_forall in Hseen; specialize (Hseen _ Hs); simpl in Hseen; lia].
    rewrite bool_decide_false by (by intros [? ?]). cbn [orb negb].
    unfold zlen at 1. rewrite Nat2Z.id, insert_app_r_alt, Nat.sub_diag by lia. cbn [insert list_insert].
    rewrite insert_delete_id by done. apply Hnext.
Qed.

(** Reading back what was stored gives the changes. *)
Lemma codec_roundtrip changes :
  Forall storable changes ->
  exists text, serializeDomainChanges changes = Ok text /\ deserializeDomainChanges text = Ok changes.
Proof.
  intros Hst. unfold serializeDomainChanges.
  set (envelope := VObj _). assert (Hsafe : json_safe envelope = true).
  { cbn. rewrite !andb_true_r. apply andb_true_iff. split.
    - apply forallb_forall. intros v (c & <- & Hin)%in_map_iff. apply encode_change_safe.
      rewrite Forall_forall in Hst. apply Hst. by apply list_elem_of_In.
    - apply forallb_forall. by intros v (i & <- & _)%in_map_iff. }
  rewrite Hsafe. exists envelope. split; [done|].
  change (bind_res (to_changes (map (fun c => change_value (encode_change c)) changes))
    (fun cs => restore_indices cs [] (map VNum (undefined_payloads 0 changes))) = Ok changes).
  rewrite <- (map_map encode_change change_value), to_changes_value. cbn [bind_res].
  apply (restore_encoded changes [] []); [done|constructor].
Qed.

(** * The log a store represents *)

Definition row_text (cs : change_set) : jsv :=
  match serializeDomainChanges (cs_changes cs) with Ok v => v | Err _ => VUndef end.

(** The row of a change set. *)
Definition entry (cs : change_set) : string * set_row :=
  (cs_id cs, MkSetRow (cs_workspaceId cs) (cs_sourceDeviceId cs) (cs_baseRevision cs) (cs_revision cs) (row_text cs)
               (cs_checksum cs) (cs_createdAt cs)).

Definition good (cs : change_set) : Prop := validateChangeSet cs = Ok tt /\ Forall storable (cs_changes cs).

(** The change sets of a workspace, in order: revisions [first + 1], [first + 2], and so on. *)
Definition chain (w : string) (first : Z) (l : list change_set) : Prop :=
  forall i cs, l !! i = Some cs ->
  cs_workspaceId cs = w /\ cs_revision cs = first + Z.of_nat i + 1 /\ cs_baseRevision cs = first + Z.of_nat i /\ good cs.

(** The rows of workspace [w] are those of the change sets [l]. *)
Record holds (sets : gmap string set_row) (w : string) (l : list change_set) : Prop := {
  ho_rows id row : sets !! id = Some row -> sr_workspaceId row = w -> exists cs, cs ∈ l /\ (id, row) = entry cs;
  ho_sets cs : cs ∈ l -> sets !! cs_id cs = Some (snd (entry cs));
  ho_chain : chain w 0 l
}.

Record represents (st : store) (w : string) (l : list change_set) : Prop := {
  rp_holds : holds (s_sets st) w l;
  rp_cursor : getCursor st w = zlen l
}.

Lemma good_checksum cs : good cs -> checksum_ok cs = true.
Proof.
  intros [Hv _]. unfold validateChangeSet in Hv. destruct (blank _ || _ || _); [done|]. destruct (_ || _ || _); [done|].
  destruct (negb (forallb _ _)); [done|]. by destruct (checksum_ok cs).
Qed.

Lemma good_workspace cs : good cs -> blank (cs_workspaceId cs) = false.
Proof.
  intros [Hv _]. unfold validateChangeSet in Hv. destruct (blank (cs_workspaceId cs)); [|done].
  by rewrite orb_true_r in Hv.
Qed.

Lemma read_row_entry cs : good cs -> read_row (entry cs) = Ok cs.
Proof.
  intros Hg. pose proof (good_checksum cs Hg) as Hsum. destruct Hg as [_ Hst].
  destruct (codec_roundtrip _ Hst) as (text & Hs & Hd). unfold entry, read_row, row_text. cbn. rewrite Hs, Hd. cbn [bind_res].
  replace (MkChangeSet _ _ _ _ _ _ _ _) with cs by (by destruct cs). by rewrite Hsum.
Qed.

Lemma chain_cons w k cs l : chain w k (cs :: l) -> chain w (k + 1) l.
Proof. intros H i cs' Hi. destruct (H (S i) cs' Hi) as (? & ? & ? & ?). split_and!; [done|lia|lia|done]. Qed.

Lemma chain_drop w k n l : chain w k l -> chain w (k + Z.of_nat n) (drop n l).
Proof. intros H i cs Hi. rewrite lookup_drop in Hi. destruct (H _ _ Hi) as (? & ? & ? & ?). split_and!; [done|lia|lia|done]. Qed.

Lemma chain_take w k n l : chain w k l -> chain w k (take n l).
Proof. intros H i cs Hi. apply lookup_take_Some in Hi as [Hi _]. by apply H. Qed.

Lemma chain_sorted w k l : chain w k l -> StronglySorted (fun a b : string * set_row => sr_revision (snd a) < sr_revision (snd b)) (map entry l).
Proof.
  revert k. induction l as [|cs l IH]; intros k H; [constructor|]. cbn [map]. constructor.
  - by apply (IH (k + 1)), chain_cons with cs.
  - apply Forall_forall. intros x (cs' & <- & Hin)%list_elem_of_In%in_map_iff. apply list_elem_of_In, list_elem_of_lookup in Hin as [i Hi].
    destruct (H 0%nat cs eq_refl) as (_ & Hr & _). destruct (H (S i) cs' Hi) as (_ & Hr' & _). cbn. lia.
Qed.

Lemma chain_read w k l : chain w k l -> read_rows (k + 1) (map entry l) = Ok l.
Proof.
  revert k. induction l as [|cs l IH]; intros k H; [done|]. cbn [map read_rows].
  destruct (H 0%nat cs eq_refl) as (_ & Hr & Hb & Hg). rewrite read_row_entry by done. cbn [bind_res].
  rewrite (proj2 (Z.eqb_eq _ _)) by lia. rewrite (proj2 (Z.eqb_eq _ _)) by lia. cbn [negb orb].
  rewrite (IH (k + 1)) by (by apply chain_cons with cs). done.
Qed.

Lemma chain_in w k l cs : chain w k l -> cs ∈ l -> k < cs_revision cs <= k + zlen l /\ cs_workspaceId cs = w /\ good cs.
Proof.
  intros H [i Hi]%list_elem_of_lookup. destruct (H _ _ Hi) as (? & ? & _ & ?). apply lookup_lt_Some in Hi. unfold zlen. split_and!; [lia|lia|done|done].
Qed.

Lemma StronglySorted_nodup {A : Type} (R : A -> A -> Prop) (l : list A) : (forall x, ~ R x x) -> StronglySorted R l -> NoDup l.
Proof.
  intros Hirr. induction 1 as [|x l _ IH Hall]; constructor; [|done]. intros Hx. rewrite Forall_forall in Hall.
  by apply (Hirr x), Hall.
Qed.

Lemma rows_after_eq st w l after :
  represents st w l -> 0 <= after -> rows_after st w after = map entry (zdrop after l).
Proof.
  intros [[Hrows Hsets Hchain] _] Hafter. unfold rows_after, zdrop.
  assert (Hd : chain w after (drop (Z.to_nat after) l)).
  { pose proof (chain_drop w 0 (Z.to_nat after) l Hchain) as H. by rewrite Z2Nat.id, Z.add_0_l in H. }
  pose proof (chain_sorted _ _ _ Hd) as Hsorted.
  apply (js_sort_unique (fun p : string * set_row => sr_revision (snd p))); [exact Hsorted|].
  apply NoDup_Permutation.
  - apply NoDup_ListNoDup, List.NoDup_filter, NoDup_ListNoDup, NoDup_map_to_list.
  - by eapply StronglySorted_nodup; [|exact Hsorted]; intros x; simpl; lia.
  - intros [id row]. rewrite !list_elem_of_In, List.filter_In, <- list_elem_of_In, elem_of_map_to_list, in_map_iff. cbn [snd]. split.
    + intros [Hin H]. apply andb_true_iff in H as [Hw Hk]. apply bool_decide_eq_true in Hw. apply Z.ltb_lt in Hk.
      destruct (Hrows _ _ Hin Hw) as (cs & Hcs & He). exists cs. split; [done|]. apply list_elem_of_In.
      apply list_elem_of_lookup in Hcs as [i Hi]. destruct (Hchain _ _ Hi) as (_ & Hr & _). injection He as -> ->. cbn in Hk.
      apply list_elem_of_lookup. exists (i - Z.to_nat after)%nat. rewrite lookup_drop.
      by replace (Z.to_nat after + (i - Z.to_nat after))%nat with i by lia.
    + intros (cs & [= <- <-] & Hin%list_elem_of_In). destruct (chain_in _ _ _ _ Hd Hin) as (Hr & Hw & _).
      assert (Hl : cs ∈ l) by (by apply list_elem_of_lookup in Hin as [i Hi]; rewrite lookup_drop in Hi; eapply list_elem_of_lookup_2).
      split; [by apply Hsets|]. cbn. rewrite bool_decide_true by done. apply Z.ltb_lt. lia.
Qed.

Lemma represents_blank st w l : represents st w l -> l <> [] -> blank w = false.
Proof.
  intros [[_ _ Hc] _] Hl. destruct l as [|cs l]; [done|]. destruct (Hc 0%nat cs eq_refl) as (<- & _ & _ & Hg). by apply good_workspace.
Qed.

(** Reading returns the piece of the log asked for. *)
Lemma list_sets_eq st w l after limit :
  represents st w l -> blank w = false -> 0 <= after -> match limit with Some n => bad_limit n = false | None => True end ->
  list_sets st w after limit = Ok (match limit with Some n => ztake n (zdrop after l) | None => zdrop after l end).
Proof.
  intros Hrep Hw Hafter Hlim. unfold list_sets. rewrite Hw, (proj2 (Z.ltb_ge _ _)) by done. cbn [orb].
  rewrite (rows_after_eq _ _ _ _ Hrep Hafter).
  assert (Hd : chain w after (zdrop after l)).
  { pose proof (chain_drop w 0 (Z.to_nat after) l (ho_chain _ _ _ (rp_holds _ _ _ Hrep))) as H. by rewrite Z2Nat.id, Z.add_0_l in H. }
  destruct limit as [n|].
  - rewrite Hlim. unfold ztake. rewrite firstn_map. by apply chain_read with w, chain_take.
  - by apply chain_read with w.
Qed.

(** * Writing *)

Lemma chain_snoc w l cs :
  chain w 0 l -> cs_workspaceId cs = w -> cs_revision cs = zlen l + 1 -> cs_baseRevision cs = zlen l -> good cs -> chain w 0 (l ++ [cs]).
Proof.
  intros H Hw Hr Hb Hg i cs' Hi. apply lookup_app_Some in Hi as [Hi|[Hlen Hi]]; [by apply H|].
  apply list_lookup_singleton_Some in Hi as [Hi <-]. unfold zlen in *. split_and!; [done|lia|lia|done].
Qed.

Lemma holds_insert sets w l cs :
  holds sets w l -> chain w 0 (l ++ [cs]) -> sets !! cs_id cs = None -> holds (<[cs_id cs := snd (entry cs)]> sets) w (l ++ [cs]).
Proof.
  intros [Hrows Hsets _] Hc Hnew. split; [..|done].
  - intros id row. rewrite lookup_insert_Some. intros [[<- <-]|[Hne Hin]] Hw.
    + exists cs. split; [apply elem_of_app; right; by left|done].
    + destruct (Hrows _ _ Hin Hw) as (cs' & Hcs & He). exists cs'. split; [apply elem_of_app; by left|done].
  - intros cs' [Hin|Hin]%elem_of_app.
    + rewrite lookup_insert_ne; [by apply Hsets|]. intros He. specialize (Hsets _ Hin). by rewrite <- He, Hnew in Hsets.
    + apply list_elem_of_singleton in Hin as ->. by rewrite lookup_insert_eq.
Qed.

Lemma holds_insert_other sets w l cs :
  holds sets w l -> cs_workspaceId cs <> w -> sets !! cs_id cs = None -> holds (<[cs_id cs := snd (entry cs)]> sets) w l.
Proof.
  intros [Hrows Hsets Hc] Hw Hnew. split; [..|done].
  - intros id row. rewrite lookup_insert_Some. intros [[<- <-]|[Hne Hin]] Hw'; [done|by apply Hrows].
  - intros cs' Hin. rewrite lookup_insert_ne; [by apply Hsets|]. intros He. specialize (Hsets _ Hin). by rewrite <- He, Hnew in Hsets.
Qed.

Lemma insert_set_inv st cs st' :
  good cs -> insert_set st cs = Ok st' ->
  s_sets st !! cs_id cs = None /\ st' = MkStore (<[cs_id cs := snd (entry cs)]> (s_sets st)) (s_cursors st) (s_tables st).
Proof.
  intros [_ Hst]. destruct (codec_roundtrip _ Hst) as (text & Hs & _). unfold insert_set, entry, row_text. rewrite Hs. cbn [bind_res].
  case_bool_decide as Hid; [done|]. destruct (existsb _ _); [done|]. intros [= <-]. split; [by apply eq_None_not_Some|done].
Qed.

Lemma insert_set_ok st cs :
  good cs -> s_sets st !! cs_id cs = None ->
  (forall id row, s_sets st !! id = Some row -> sr_workspaceId row = cs_workspaceId cs -> sr_revision row <> cs_revision cs) ->
  insert_set st cs = Ok (MkStore (<[cs_id cs := snd (entry cs)]> (s_sets st)) (s_cursors st) (s_tables st)).
Proof.
  intros [_ Hst] Hid Huniq. destruct (codec_roundtrip _ Hst) as (text & Hs & _). unfold insert_set, entry, row_text. rewrite Hs. cbn [bind_res].
  rewrite bool_decide_false by (rewrite Hid; by intros [? ?]). destruct (existsb _ _) eqn:E; [|done].
  apply existsb_exists in E as ([id row] & Hin & Hrow). apply list_elem_of_In, elem_of_map_to_list in Hin. cbn in Hrow.
  apply andb_true_iff in Hrow as [Hrow Hr]. apply andb_true_iff in Hrow as [Hw _]. apply bool_decide_eq_true in Hw.
  apply Z.eqb_eq in Hr. by destruct (Huniq _ _ Hin Hw).
Qed.

(** What the wire form yields. *)
Lemma restore_payload_storable c : storable c -> storable (restore_payload c).
Proof.
  intros H. unfold restore_payload. destruct (is_op c "delete") eqn:Ed; [|done]. cbn. case_bool_decide as Hn; [|done].
  intros k v. rewrite lookup_insert_Some. intros [[<- <-]|[_ Hk]].
  - right. by rewrite is_op_payload.
  - rewrite is_op_payload. by apply H.
Qed.

Lemma restore_wire_spec input cs :
  restoreDomainChangeSetWireValue input = Ok cs ->
  Forall storable (cs_changes cs) /\ exists changes, cs = with_changes input changes.
Proof.
  unfold restoreDomainChangeSetWireValue. destruct (forallb wire_change_ok _) eqn:Hw; [|done]. cbn [negb].
  assert (Hst : Forall storable (cs_changes input)).
  { apply Forall_forall. intros c Hin%list_elem_of_In. apply wire_change_storable. rewrite forallb_forall in Hw. by apply Hw. }
  destruct (checksum_ok input).
  - intros [= <-]. split; [done|]. exists (cs_changes input). by destruct input.
  - destruct (checksum_ok _); [|done]. intros [= <-]. split; [|by eexists]. cbn. apply Forall_forall.
    intros c' (c & <- & Hin)%list_elem_of_In%in_map_iff. apply restore_payload_storable. rewrite Forall_forall in Hst. apply Hst. by apply list_elem_of_In.
Qed.

(** A change set already restored is left alone. *)
Lemma restore_wire_id cs :
  good cs -> forallb wire_change_ok (cs_changes cs) = true -> restoreDomainChangeSetWireValue cs = Ok cs.
Proof. intros Hg Hw. unfold restoreDomainChangeSetWireValue. by rewrite Hw, good_checksum. Qed.

Lemma good_wire cs : good cs -> forallb wire_change_ok (cs_changes cs) = true.
Proof.
  intros [Hv Hst]. unfold validateChangeSet in Hv. destruct (blank _ || _ || _); [done|]. destruct (_ || _ || _); [done|].
  destruct (forallb change_ok _) eqn:Hc; [|done]. rewrite forallb_forall in *. intros c Hin. specialize (Hc c Hin).
  apply storable_wire; [rewrite Forall_forall in Hst; apply Hst; by apply list_elem_of_In|].
  unfold change_ok in Hc. apply andb_true_iff in Hc as [Hc Hp]. apply andb_true_iff in Hc as [_ Hop].
  apply orb_true_iff in Hp as [Hp|Hp]; [|by right]. left. by destruct (is_op c "upsert").
Qed.
