(* ===== verification/DomainLogTheorems.v ===== *)
(** What [DomainLog] promises: every store the operations reach is, per workspace, a log of
    consecutive revisions and its projection; a change set is appended exactly at the end;
    what a store reads, captures and restores is a piece of such a log. *)

From Stdlib Require Import Sorting.Sorted.
From S2P Require Import Prelude JsValue Lanes Materializer MaterializerProofs DomainLog DomainLogProofs.

Local Open Scope Z_scope.

(** The changes of a log, oldest first. *)
Definition log_changes (l : list change_set) : list change := List.concat (map cs_changes l).

Section Theorems.
Variable foreign_keys : bool.

(** The store is the logs [L] and their projections. *)
Record models (st : store) (L : string -> list change_set) : Prop := {
  mo_log w : represents st w (L w);
  mo_generic w ty id : t_generic (s_tables st) !! (w, ty, id) = projected (log_changes (L w)) ty id
}.

Definition extend (L : string -> list change_set) (w : string) (l : list change_set) : string -> list change_set :=
  fun w' => if decide (w' = w) then l else L w'.

Lemma log_changes_app l k : log_changes (l ++ k) = log_changes l ++ log_changes k.
Proof. unfold log_changes. by rewrite map_app, concat_app. Qed.

Lemma getCursor_set sets cursors w row t w' :
  getCursor (MkStore sets (<[w := row]> cursors) t) w' = if decide (w' = w) then cu_revision row else default 0 (cu_revision <$> cursors !! w').
Proof.
  unfold getCursor. cbn. destruct (decide (w' = w)) as [->|Hne]; [by rewrite lookup_insert_eq|by rewrite lookup_insert_ne].
Qed.

(** A change set that goes to the end of its log. *)
Definition follows (L : string -> list change_set) (cs : change_set) : Prop :=
  good cs /\ cs_revision cs = zlen (L (cs_workspaceId cs)) + 1 /\ cs_baseRevision cs = zlen (L (cs_workspaceId cs)).

Lemma follows_chain st L cs :
  models st L -> follows L cs -> chain (cs_workspaceId cs) 0 (L (cs_workspaceId cs) ++ [cs]).
Proof. intros Hm (Hg & Hr & Hb). apply chain_snoc; try done. apply (rp_holds _ _ _ (mo_log _ _ Hm _)). Qed.

Lemma append_models st L cs t now kept :
  models st L -> follows L cs -> s_sets st !! cs_id cs = None ->
  applyInTransaction foreign_keys (s_tables st) (cs_workspaceId cs) (cs_changes cs) = Ok t ->
  models (MkStore (<[cs_id cs := snd (entry cs)]> (s_sets st))
            (<[cs_workspaceId cs := MkCursor (cs_revision cs) now kept]> (s_cursors st)) t)
    (extend L (cs_workspaceId cs) (L (cs_workspaceId cs) ++ [cs])).
Proof.
  intros Hm Hf Hnew Ht. pose proof (follows_chain _ _ _ Hm Hf) as Hc. split.
  - intros w. unfold extend. split.
    + cbn [s_sets]. destruct (decide (w = cs_workspaceId cs)) as [->|Hw].
      * apply holds_insert; [apply Hm|done|done].
      * apply holds_insert_other; [apply Hm|congruence|done].
    + rewrite getCursor_set. destruct (decide (w = cs_workspaceId cs)) as [->|Hw]; [|apply (rp_cursor _ _ _ (mo_log _ _ Hm w))].
      cbn. destruct Hf as (_ & -> & _). by rewrite zlen_snoc.
  - intros w ty id. cbn [s_tables]. rewrite (applyInTransaction_lookup _ _ _ _ _ _ _ _ Ht), (mo_generic _ _ Hm). unfold extend.
    destruct (decide (w = cs_workspaceId cs)) as [->|Hw]; [|done]. unfold projected. rewrite log_changes_app, foldl_app.
    unfold log_changes at 3. cbn. by rewrite app_nil_r.
Qed.

Lemma models_unique st L cs id row :
  models st L -> cs_revision cs = zlen (L (cs_workspaceId cs)) + 1 ->
  s_sets st !! id = Some row -> sr_workspaceId row = cs_workspaceId cs -> sr_revision row <> cs_revision cs.
Proof.
  intros Hm Hr Hin Hw. destruct (mo_log _ _ Hm (cs_workspaceId cs)) as [[Hrows _ Hc] _].
  destruct (Hrows _ _ Hin Hw) as (cs' & Hcs & [= _ ->]). cbn. pose proof (chain_in _ _ _ _ Hc Hcs). lia.
Qed.

(** What [apply] does, case by case, to a valid change set. *)
Lemma apply_cases st L now epoch input cs :
  models st L -> restoreDomainChangeSetWireValue input = Ok cs -> validateChangeSet cs = Ok tt ->
  let l := L (cs_workspaceId cs) in
  match s_sets st !! cs_id cs with
  | Some old =>
      (exists w cs', cs' ∈ L w /\ entry cs' = (cs_id cs, old)) /\
      apply foreign_keys st now epoch input =
        if bool_decide (sr_workspaceId old = cs_workspaceId cs) && bool_decide (sr_sourceDeviceId old = cs_sourceDeviceId cs) &&
           bool_decide (sr_checksum old = cs_checksum cs) && (sr_revision old =? cs_revision cs)
        then Ok (st, MkApplied true true (cs_revision cs)) else Err IdCollision
  | None =>
      if cs_baseRevision cs =? zlen l then
        match applyInTransaction foreign_keys (s_tables st) (cs_workspaceId cs) (cs_changes cs) with
        | Ok t => exists st', apply foreign_keys st now epoch input = Ok (st', MkApplied true false (zlen l + 1)) /\
            models st' (extend L (cs_workspaceId cs) (l ++ [cs])) /\
            s_cursors st' = <[cs_workspaceId cs := MkCursor (zlen l + 1) now (default epoch (cu_epoch <$> s_cursors st !! cs_workspaceId cs))]> (s_cursors st)
        | Err e => apply foreign_keys st now epoch input = Err (MaterializerFailed e)
        end
      else apply foreign_keys st now epoch input = Ok (st, MkApplied false false (zlen l))
  end.
Proof.
  intros Hm Hin Hval l. unfold apply. rewrite Hin. cbn [bind_res]. rewrite Hval. cbn [bind_res].
  assert (Hgood : good cs) by (split; [done|by destruct (restore_wire_spec _ _ Hin)]).
  assert (Hrev : cs_revision cs = cs_baseRevision cs + 1).
  { unfold validateChangeSet in Hval. destruct (blank _ || _ || _); [done|].
    destruct ((cs_baseRevision cs <? 0) || _ || _) eqn:E; [done|]. apply orb_false_iff in E as [E _]. apply orb_false_iff in E as [_ E].
    apply negb_false_iff, Z.eqb_eq in E. done. }
  destruct (s_sets st !! cs_id cs) as [old|] eqn:Eold.
  - split.
    + exists (sr_workspaceId old). destruct (mo_log _ _ Hm (sr_workspaceId old)) as [[Hrows _ _] _].
      destruct (Hrows _ _ Eold eq_refl) as (cs' & ? & ?). by exists cs'.
    + repeat (case_bool_decide; cbn [negb orb andb]; [|done]). destruct (sr_revision old =? cs_revision cs) eqn:Er; [|done].
      cbn. by rewrite (proj1 (Z.eqb_eq _ _) Er).
  - unfold l. rewrite (rp_cursor _ _ _ (mo_log _ _ Hm _)). destruct (cs_baseRevision cs =? zlen (L (cs_workspaceId cs))) eqn:Eb; cbn [negb orb]; [|done].
    apply Z.eqb_eq in Eb. rewrite (proj2 (Z.eqb_eq (cs_revision cs) _)) by lia. cbn [negb].
    rewrite insert_set_ok; [|done|done|].
    2: { intros id row. apply (models_unique st L cs id row Hm). lia. }
    cbn [bind_res s_tables]. destruct (applyInTransaction _ _ _ _) as [t|e] eqn:Et; cbn [mat bind_res]; [|done].
    replace (zlen (L (cs_workspaceId cs)) + 1) with (cs_revision cs) by lia.
    eexists. split; [done|]. cbn [s_sets s_cursors]. split; [|done]. apply append_models; try done. split_and!; [done|lia|done].
Qed.

(** * Replacing a log *)

Lemma restore_all_spec sets0 : forall acc sets,
  fold_res (fun acc cs => let* cs := restoreDomainChangeSetWireValue cs in Ok (acc ++ [cs])) acc sets0 = Ok sets ->
  exists new, sets = acc ++ new /\ Forall (fun cs => Forall storable (cs_changes cs)) new.
Proof.
  induction sets0 as [|cs sets0 IH]; intros acc sets; cbn [fold_res].
  - intros [= <-]. exists []. by rewrite app_nil_r.
  - intros H. apply bind_res_ok in H as (acc' & H1 & H). apply bind_res_ok in H1 as (cs' & Hcs & [= <-]).
    destruct (IH _ _ H) as (new & -> & Hnew). exists (cs' :: new). rewrite <- app_assoc. split; [done|].
    constructor; [|done]. by destruct (restore_wire_spec _ _ Hcs).
Qed.

Lemma validate_sets_spec w sets : forall expected seen e,
  Forall (fun cs => Forall storable (cs_changes cs)) sets ->
  validate_sets w expected seen sets = Ok e ->
  chain w (expected - 1) sets /\ e = expected + zlen sets /\ NoDup (map cs_id sets) /\ (forall cs, cs ∈ sets -> cs_id cs ∉ seen).
Proof.
  induction sets as [|cs sets IH]; intros expected seen e Hst; cbn [validate_sets].
  - intros [= <-]. split_and!; [by intros i cs Hi|by rewrite zlen_nil, Z.add_0_r|constructor|]. intros cs Hin. by apply elem_of_nil in Hin.
  - apply Forall_cons in Hst as [Hcs Hst]. intros H. apply bind_res_ok in H as ([] & Hv & H).
    case_bool_decide as Hseen; [done|]. case_bool_decide as Hw; [|done]. cbn [negb orb] in H.
    destruct (cs_revision cs =? expected) eqn:Er; [|done]. destruct (cs_baseRevision cs =? expected - 1) eqn:Eb; [|done]. cbn [negb orb] in H.
    apply Z.eqb_eq in Er, Eb. destruct (IH _ _ _ Hst H) as (Hc & -> & Hnd & Hns).
    split_and!.
    + intros [|i] cs' Hi; [injection Hi as <-; split_and!; [done|lia|lia|by split]|].
      destruct (Hc i cs' Hi) as (? & ? & ? & ?). split_and!; [done|lia|lia|done].
    + rewrite zlen_cons. lia.
    + cbn [map]. constructor; [|done]. intros (cs' & He & Hin)%list_elem_of_In%in_map_iff. apply (Hns cs'); [by apply list_elem_of_In|].
      rewrite He. by left.
    + intros cs' [->|Hin]%elem_of_cons; [done|]. intros Hs. apply (Hns cs' Hin). by right.
Qed.

Lemma insert_all_spec w sets : forall st st' pre,
  chain w 0 (pre ++ sets) -> holds (s_sets st) w pre -> fold_res insert_set st sets = Ok st' ->
  holds (s_sets st') w (pre ++ sets) /\ (forall w' l, w' <> w -> holds (s_sets st) w' l -> holds (s_sets st') w' l) /\
  s_cursors st' = s_cursors st /\ s_tables st' = s_tables st.
Proof.
  induction sets as [|cs sets IH]; intros st st' pre Hc Hh; cbn [fold_res].
  - intros [= <-]. by rewrite app_nil_r.
  - intros H. apply bind_res_ok in H as (st1 & H1 & H).
    assert (Hcs : cs ∈ pre ++ cs :: sets) by (apply elem_of_app; right; by left).
    destruct (chain_in _ _ _ _ Hc Hcs) as (_ & Hw & Hg). apply insert_set_inv in H1 as [Hnew ->]; [|done].
    rewrite cons_middle, app_assoc in Hc.
    assert (Hh1 : holds (<[cs_id cs := snd (entry cs)]> (s_sets st)) w (pre ++ [cs])).
    { apply holds_insert; [done| |done]. pose proof (chain_take w 0 (length (pre ++ [cs])) _ Hc) as Ht. by rewrite take_app_length in Ht. }
    destruct (IH (MkStore (<[cs_id cs := snd (entry cs)]> (s_sets st)) (s_cursors st) (s_tables st)) st' (pre ++ [cs]) Hc Hh1 H) as (H1 & H2 & H3 & H4).
    rewrite <- app_assoc in H1. split_and!; [done| |done|done].
    intros w' l Hne Hl. apply H2; [done|]. apply holds_insert_other; [done|congruence|done].
Qed.

Lemma delete_log_holds st w w' l :
  holds (s_sets st) w' l -> holds (s_sets (delete_log st w)) w' (if decide (w' = w) then [] else l).
Proof.
  intros [Hrows Hsets Hc]. destruct (decide (w' = w)) as [->|Hne]; (split; [..|]); cbn [delete_log s_sets].
  - intros id row Hin Hw. apply map_lookup_filter_Some in Hin as [_ Hn]. done.
  - intros cs Hin. by apply elem_of_nil in Hin.
  - by intros i cs Hi.
  - intros id row Hin Hw. apply map_lookup_filter_Some in Hin as [Hin _]. by apply Hrows.
  - intros cs Hin. apply map_lookup_filter_Some. split; [by apply Hsets|]. cbn. destruct (chain_in _ _ _ _ Hc Hin) as (_ & -> & _). done.
  - done.
Qed.

Lemma triples_sorted w k l : chain w k l -> StronglySorted (fun a b : string * Z * list change => snd (fst a) < snd (fst b)) (map set_triple l).
Proof.
  intros H. apply chain_sorted in H. induction l as [|cs l IH]; [constructor|]. cbn [map] in *. inversion H as [|? ? Hs Hall]; subst.
  constructor; [by apply IH|]. rewrite List.Forall_map in *. exact Hall.
Qed.

Lemma triples_changes l : List.concat (map snd (map set_triple l)) = log_changes l.
Proof. unfold log_changes. by rewrite map_map. Qed.

Lemma restore_models st L now epoch input st' :
  models st L -> restoreSnapshot foreign_keys st now epoch input = Ok st' ->
  exists sets, restore_all (sp_changeSets input) = Ok sets /\ models st' (extend L (sp_workspaceId input) sets) /\
    s_cursors st' = <[sp_workspaceId input := MkCursor (zlen sets) now epoch]> (delete (sp_workspaceId input) (s_cursors st)).
Proof.
  intros Hm H. unfold restoreSnapshot in H. apply bind_res_ok in H as (sets & Hall & H). exists sets. split; [done|].
  destruct (restore_all_spec _ _ _ Hall) as (new & -> & Hst). cbn [app] in *.
  apply bind_res_ok in H as ([] & Hv & H). unfold validateSnapshot in Hv. cbn [sp_workspaceId sp_revision sp_changeSets] in *.
  destruct (blank _ || _); [done|]. apply bind_res_ok in Hv as (e & Hvs & Hv).
  destruct (validate_sets_spec _ _ _ _ _ Hst Hvs) as (Hc & -> & _). rewrite Z.sub_diag in Hc.
  destruct (sp_revision input =? 1 + zlen new - 1) eqn:Er; [|done]. apply Z.eqb_eq in Er.
  set (w := sp_workspaceId input) in *. apply bind_res_ok in H as (st1 & Hins & H). apply bind_res_ok in H as (t & Ht & [= <-]).
  assert (Hempty : holds (s_sets (delete_log st w)) w []).
  { pose proof (delete_log_holds st w w (L w) (rp_holds _ _ _ (mo_log _ _ Hm w))) as Hd. by rewrite decide_True in Hd. }
  destruct (insert_all_spec w new _ _ [] Hc Hempty Hins) as (H1 & H2 & H3 & H4). cbn [app] in H1.
  destruct (rebuildInTransaction foreign_keys (s_tables st1) w (map set_triple new)) as [t'|] eqn:Ert; [|done]. cbn [mat] in Ht. injection Ht as ->.
  assert (Hrev : sp_revision input = zlen new) by lia. split; [split|].
  - intros w'. unfold extend. split.
    + cbn [s_sets]. destruct (decide (w' = w)) as [->|Hne]; [done|]. apply H2; [done|].
      pose proof (delete_log_holds st w w' (L w') (rp_holds _ _ _ (mo_log _ _ Hm w'))) as Hd. by rewrite decide_False in Hd.
    + rewrite getCursor_set. cbn [cu_revision]. destruct (decide (w' = w)) as [->|Hne]; [done|]. rewrite H3. cbn [delete_log s_cursors].
      rewrite lookup_delete_ne by done. apply (rp_cursor _ _ _ (mo_log _ _ Hm w')).
  - intros w' ty id. cbn [s_tables].
    rewrite (rebuild_lookup foreign_keys _ _ _ _ w' ty id (triples_sorted _ _ _ Hc) Ert), triples_changes. unfold extend.
    destruct (decide (w' = w)) as [->|Hne]; [done|]. rewrite H4. apply Hm.
  - cbn [s_cursors]. by rewrite H3, Hrev.
Qed.

Lemma rebuild_models st L w st' : models st L -> rebuild foreign_keys st w = Ok st' -> models st' L.
Proof.
  intros Hm H. unfold rebuild in H. apply bind_res_ok in H as (sets & Hl & H). apply bind_res_ok in H as (t & Ht & [= <-]).
  assert (Hsets : sets = L w).
  { destruct (blank w) eqn:Eb; [by unfold list_sets in Hl; rewrite Eb in Hl|].
    rewrite (list_sets_eq st w (L w) 0 None (mo_log _ _ Hm w) Eb) in Hl by done. rewrite zdrop_0 in Hl. by injection Hl. }
  subst sets. destruct (rebuildInTransaction _ _ _ _) as [t'|] eqn:Er; [|done]. cbn [mat] in Ht. injection Ht as ->.
  split; [intros w0; destruct (mo_log _ _ Hm w0); by split|]. intros w' ty id. cbn [s_tables].
  rewrite (rebuild_lookup foreign_keys _ _ _ _ w' ty id (triples_sorted _ _ _ (ho_chain _ _ _ (rp_holds _ _ _ (mo_log _ _ Hm w)))) Er), triples_changes.
  destruct (decide (w' = w)) as [->|Hne]; [done|apply Hm].
Qed.

Lemma purge_models st L w : models st L -> models (fst (purgeWorkspace st w)) (extend L w []).
Proof.
  intros Hm. split.
  - intros w'. unfold extend. split.
    + pose proof (delete_log_holds st w w' (L w') (rp_holds _ _ _ (mo_log _ _ Hm w'))) as Hd. exact Hd.
    + unfold getCursor. cbn. destruct (decide (w' = w)) as [->|Hne]; [by rewrite lookup_delete_eq|].
      rewrite lookup_delete_ne by done. apply (rp_cursor _ _ _ (mo_log _ _ Hm w')).
  - intros w' ty id. cbn. unfold extend. destruct (decide (w' = w)) as [->|Hne].
    + apply map_lookup_filter_None. right. by intros x _ [].
    + rewrite <- (mo_generic _ _ Hm). destruct (t_generic (s_tables st) !! (w', ty, id)) as [r|] eqn:E.
      * by apply map_lookup_filter_Some.
      * apply map_lookup_filter_None. by left.
Qed.

(** * Reachable stores *)

Inductive store_reach : store -> Prop :=
| reach_empty t : t_generic t = ∅ -> store_reach (MkStore ∅ ∅ t)
| reach_apply st now epoch input st' r :
    store_reach st -> apply foreign_keys st now epoch input = Ok (st', r) -> store_reach st'
| reach_restore st now epoch input st' :
    store_reach st -> restoreSnapshot foreign_keys st now epoch input = Ok st' -> store_reach st'
| reach_rebuild st w st' : store_reach st -> rebuild foreign_keys st w = Ok st' -> store_reach st'
| reach_purge st w : store_reach st -> store_reach (fst (purgeWorkspace st w)).

Lemma models_ext st L L' : (forall w, L w = L' w) -> models st L -> models st L'.
Proof. intros He [Hl Hg]. split; intros; rewrite <- He; auto. Qed.

(** An applied change set leaves the store, or appends to one log. *)
Lemma apply_effect st L now epoch input st' r :
  models st L -> apply foreign_keys st now epoch input = Ok (st', r) ->
  st' = st \/ exists cs, good cs /\ models st' (extend L (cs_workspaceId cs) (L (cs_workspaceId cs) ++ [cs])) /\
    exists k, s_cursors st' = <[cs_workspaceId cs := MkCursor k now (default epoch (cu_epoch <$> s_cursors st !! cs_workspaceId cs))]> (s_cursors st).
Proof.
  intros Hm Ha. pose proof Ha as Ha'. unfold apply in Ha'. apply bind_res_ok in Ha' as (cs & Hin & Ha').
  apply bind_res_ok in Ha' as ([] & Hval & _). pose proof (apply_cases st L now epoch input cs Hm Hin Hval) as Hc. cbv zeta in Hc.
  destruct (s_sets st !! cs_id cs) as [old|].
  - destruct Hc as [_ Hc]. rewrite Hc in Ha. left. by destruct (_ && _); simplify_eq.
  - destruct (cs_baseRevision cs =? _).
    + destruct (applyInTransaction _ _ _ _) as [t|e]; [|congruence]. destruct Hc as (st1 & Hc & Hm' & Hcur). right.
      rewrite Hc in Ha. injection Ha as <- _. exists cs. split; [split; [done|by destruct (restore_wire_spec _ _ Hin)]|]. split; [done|]. by eexists.
    + left. congruence.
Qed.

Lemma apply_models st L now epoch input st' r :
  models st L -> apply foreign_keys st now epoch input = Ok (st', r) -> exists L', models st' L'.
Proof.
  intros Hm Ha. destruct (apply_effect _ _ _ _ _ _ _ Hm Ha) as [->|(cs & _ & Hm' & _)]; by eexists.
Qed.

Lemma empty_models t : t_generic t = ∅ -> models (MkStore ∅ ∅ t) (fun _ => []).
Proof.
  intros Ht. split.
  - intros w. split; [split|]; cbn; try done.
    intros cs Hin. by apply elem_of_nil in Hin.
  - intros w ty id. cbn. by rewrite Ht.
Qed.

Lemma reach_models st : store_reach st -> exists L, models st L.
Proof.
  induction 1 as [t Ht|st now epoch input st' r _ [L Hm] Ha|st now epoch input st' _ [L Hm] Hr|st w st' _ [L Hm] Hr|st w _ [L Hm]].
  - eexists. by apply empty_models.
  - by eapply apply_models.
  - destruct (restore_models _ _ _ _ _ _ Hm Hr) as (sets & _ & Hm' & _). by eexists.
  - exists L. by eapply rebuild_models.
  - eexists. by apply purge_models.
Qed.

(** C20: every store the operations reach is a log per workspace, and the projection of it.
    However change sets are applied, snapshots restored, workspaces rebuilt and purged: the
    rows of a workspace are exactly change sets with revisions 1, 2, ... up to the cursor,
    each valid with its checksum and each following the one before, reading the whole log
    gives them in order, and the generic projection of every aggregate is the last write among
    their changes, the same as replaying the log from nothing. *)
Theorem store_is_a_log_and_its_projection st :
  store_reach st ->
  exists L, forall w,
    chain w 0 (L w) /\ getCursor st w = zlen (L w) /\
    (blank w = false -> list_sets st w 0 None = Ok (L w)) /\
    (forall id row, s_sets st !! id = Some row -> sr_workspaceId row = w -> exists cs, cs ∈ L w /\ (id, row) = entry cs) /\
    (forall ty id, t_generic (s_tables st) !! (w, ty, id) = projected (log_changes (L w)) ty id).
Proof.
  intros [L Hm]%reach_models. exists L. intros w. destruct (mo_log _ _ Hm w) as [[Hrows Hsets Hc] Hcur].
  split_and!; [done|done| |done|by intros; apply Hm].
  intros Hw. rewrite (list_sets_eq st w (L w) 0 None (mo_log _ _ Hm w) Hw) by done. by rewrite zdrop_0.
Qed.

(** Applying a change set is a compare-and-set on the log.  For a valid set: an unknown
    identifier whose base is the current revision is appended as the next revision, and the
    store is then the extended log with its projection; any other base is refused and nothing
    changes; a set already stored is acknowledged without any change; another set under a
    stored identifier is an error. *)
Theorem apply_is_compare_and_set st L now epoch input cs :
  models st L -> restoreDomainChangeSetWireValue input = Ok cs -> validateChangeSet cs = Ok tt ->
  let l := L (cs_workspaceId cs) in
  match s_sets st !! cs_id cs with
  | Some old =>
      (exists w cs', cs' ∈ L w /\ entry cs' = (cs_id cs, old)) /\
      apply foreign_keys st now epoch input =
        if bool_decide (sr_workspaceId old = cs_workspaceId cs) && bool_decide (sr_sourceDeviceId old = cs_sourceDeviceId cs) &&
           bool_decide (sr_checksum old = cs_checksum cs) && (sr_revision old =? cs_revision cs)
        then Ok (st, MkApplied true true (cs_revision cs)) else Err IdCollision
  | None =>
      if cs_baseRevision cs =? zlen l then
        match applyInTransaction foreign_keys (s_tables st) (cs_workspaceId cs) (cs_changes cs) with
        | Ok t => exists st', apply foreign_keys st now epoch input = Ok (st', MkApplied true false (zlen l + 1)) /\
            models st' (extend L (cs_workspaceId cs) (l ++ [cs])) /\
            s_cursors st' = <[cs_workspaceId cs := MkCursor (zlen l + 1) now (default epoch (cu_epoch <$> s_cursors st !! cs_workspaceId cs))]> (s_cursors st)
        | Err e => apply foreign_keys st now epoch input = Err (MaterializerFailed e)
        end
      else apply foreign_keys st now epoch input = Ok (st, MkApplied false false (zlen l))
  end.
Proof. exact (apply_cases st L now epoch input cs). Qed.

(** * Pages *)

Lemma page_count_spec rows : forall bytes count,
  0 <= bytes -> 0 <= count -> (forall row, row ∈ rows -> row_bytes row <= PAGE_BYTES) -> (count = 0 -> bytes = 0) ->
  exists n, page_count bytes count rows = Ok n /\ count <= n <= count + zlen rows /\ (rows <> [] -> 0 < n).
Proof.
  induction rows as [|row rows IH]; intros bytes count Hb Hc Hrows H0; cbn [page_count].
  - exists count. split; [done|]. split; [rewrite zlen_nil; lia|done].
  - assert (Hpos : 0 <= row_bytes row).
    { destruct row as [id r]. unfold row_bytes, utf8_length.
      assert (Hn : forall l, 0 <= foldr (fun c n => (if (Ascii.N_of_ascii c <? 128)%N then 1 else 2) + n) 0 l)
        by (induction l as [|a l IHl]; simpl; [lia|destruct (_ <? _)%N; lia]).
      pose proof (Hn (String.list_ascii_of_string (stringify (sr_changes r)))). pose proof (Hn (String.list_ascii_of_string id)).
      pose proof (Hn (String.list_ascii_of_string (sr_workspaceId r))). pose proof (Hn (String.list_ascii_of_string (sr_sourceDeviceId r))). lia. }
    assert (Hrow : row_bytes row <= PAGE_BYTES) by (apply Hrows; by left).
    rewrite zlen_cons. pose proof (zlen_nonneg rows). destruct (PAGE_BYTES <? bytes + row_bytes row) eqn:E.
    + apply Z.ltb_lt in E. destruct (count =? 0) eqn:Ec; [apply Z.eqb_eq in Ec; specialize (H0 Ec); lia|].
      apply Z.eqb_neq in Ec. exists count. split; [done|]. split; [lia|]. lia.
    + destruct (IH (bytes + row_bytes row) (count + 1)) as (n & Hn & Hr & _); [lia|lia|intros r Hr; apply Hrows; by right|lia|].
      exists n. split; [done|]. split; [lia|]. lia.
Qed.

(** What a page holds: nothing when the client must start over, and else the next change sets
    of the log, at least one unless there are none. *)
Lemma readPage_spec st L w after epoch limit :
  models st L -> blank w = false -> 0 <= after <= MAX_SAFE -> 1 <= limit <= 1000 ->
  (forall row, row ∈ map entry (L w) -> row_bytes row <= PAGE_BYTES) ->
  let reset := (zlen (L w) <? after) ||
    (negb (bool_decide (epoch = getEpoch st w)) && negb ((after =? 0) && bool_decide (epoch = EmptyString))) in
  exists n, readPage st w after epoch (Some limit) =
      Ok (MkPage w after (zlen (L w)) (getEpoch st w) reset (if reset then [] else ztake n (zdrop after (L w)))) /\
    0 <= n <= limit /\ (after < zlen (L w) -> 0 < n).
Proof.
  intros Hm Hw Hafter Hlimit Hrows reset. unfold readPage. cbn [default from_option]. change (id limit) with limit.
  rewrite (proj2 (Z.ltb_ge after 0)) by lia. rewrite (proj2 (Z.ltb_ge MAX_SAFE after)) by lia. cbn [orb].
  assert (Hbad : forall k, 1 <= k <= limit -> bad_limit k = false).
  { intros k Hk. unfold bad_limit. rewrite (proj2 (Z.ltb_ge k 1)) by lia. rewrite (proj2 (Z.ltb_ge 1000 k)) by lia. done. }
  rewrite Hw, Hbad by lia. cbn [orb]. rewrite (rp_cursor _ _ _ (mo_log _ _ Hm w)). fold reset.
  destruct reset eqn:Ereset.
  { exists 1. split; [done|]. split; [lia|]. lia. }
  assert (Hle : after <= zlen (L w)).
  { unfold reset in Ereset. apply orb_false_iff in Ereset as [E _]. by apply Z.ltb_ge in E. }
  rewrite (rows_after_eq st w (L w) after (mo_log _ _ Hm w)) by lia.
  assert (Hlen : zlen (map entry (zdrop after (L w))) = zlen (L w) - after).
  { unfold zlen at 1. rewrite length_map. fold (zlen (zdrop after (L w))). by rewrite zlen_zdrop by lia. }
  set (rows := ztake limit (map entry (zdrop after (L w)))).
  assert (Hrowslen : zlen rows = Z.min limit (zlen (L w) - after)).
  { unfold rows. destruct (Z.le_gt_cases limit (zlen (map entry (zdrop after (L w))))) as [H|H].
    - rewrite zlen_ztake by lia. lia.
    - rewrite ztake_all by lia. lia. }
  destruct (page_count_spec rows 0 0) as (n & Hn & Hr & Hpos); [lia|lia| |done|].
  { intros row Hin. apply Hrows. unfold rows, ztake in Hin. apply list_elem_of_lookup in Hin as [i Hi].
    apply lookup_take_Some in Hi as [Hi _]. unfold zdrop in Hi. rewrite <- skipn_map, lookup_drop in Hi. by eapply list_elem_of_lookup_2. }
  rewrite Hn. cbn [bind_res]. exists n. split; [|split].
  - destruct (n =? 0) eqn:E0.
    + apply Z.eqb_eq in E0 as ->. cbn [bind_res]. rewrite ztake_0. cbn [andb].
      assert (Hempty : zlen (L w) - after = 0).
      { destruct (decide (rows = [])) as [He|He]; [|specialize (Hpos He); lia]. rewrite He, zlen_nil in Hrowslen. lia. }
      rewrite (proj2 (Z.eqb_eq after _)) by lia. cbn [negb]. by rewrite andb_false_r.
    + apply Z.eqb_neq in E0. rewrite (list_sets_eq st w (L w) after (Some n) (mo_log _ _ Hm w) Hw) by (try lia; by rewrite Hbad by lia).
      cbn [bind_res]. rewrite bool_decide_false; [done|]. intros He. apply (f_equal zlen) in He.
      rewrite zlen_ztake, zlen_nil in He; [lia|]. rewrite zlen_zdrop by lia. lia.
  - lia.
  - intros Hlt. apply Hpos. intros He. rewrite He, zlen_nil in Hrowslen. lia.
Qed.

Lemma capture_spec st L now w :
  models st L -> blank w = false -> captureSnapshot st now w = Ok (MkSnap w (zlen (L w)) (L w) now (getEpoch st w)).
Proof.
  intros Hm Hw. unfold captureSnapshot. rewrite (list_sets_eq st w (L w) 0 None (mo_log _ _ Hm w) Hw) by done. rewrite zdrop_0. cbn [bind_res].
  destruct (mo_log _ _ Hm w) as [[_ _ Hc] Hcur]. rewrite Hcur.
  assert (Hlast : default 0 (cs_revision <$> last (L w)) = zlen (L w)).
  { destruct (last (L w)) as [cs|] eqn:E; [|by apply last_None in E as ->]. rewrite last_lookup in E. destruct (Hc _ _ E) as (_ & Hr & _).
    cbn. rewrite Hr. apply lookup_lt_Some in E. unfold zlen. lia. }
  by rewrite Hlast, Z.eqb_refl.
Qed.
End Theorems.

(** * Concrete runs *)

Definition empty_tables : tables := MkTables ∅ ∅ ∅ ∅ ∅ ∅ ∅ ∅.
Definition empty_store : store := MkStore ∅ ∅ empty_tables.

Definition signed (cs : change_set) : change_set :=
  MkChangeSet (cs_id cs) (cs_workspaceId cs) (cs_sourceDeviceId cs) (cs_baseRevision cs) (cs_revision cs) (cs_changes cs)
    (calculateDomainChangeSetChecksum cs) (cs_createdAt cs).

(** A change set of one change to the record of a workspace, a deletion having no payload. *)
Definition one_change (id w : string) (revision : Z) (deletion : bool) : change_set :=
  signed (MkChangeSet id w "device" (revision - 1) revision
    [list_to_map [("id", VStr "change"); ("aggregateType", VStr "custom"); ("aggregateId", VStr "record");
                  ("operation", VStr (if deletion then "delete" else "upsert")); ("revision", VNum revision);
                  ("occurredAt", VNum revision);
                  ("payload", if deletion then VUndef else VObj [("text", VNum revision)])]] EmptyString revision).

Definition apply_all (st : store) (sets : list change_set) : store :=
  foldl (fun st cs => match apply true st 7 "epoch" cs with Ok (st, _) => st | Err _ => st end) st sets.

Lemma empty_store_models : models empty_store (fun _ => []).
Proof. by apply empty_models. Qed.

Lemma store_is_a_log_and_its_projection_witness :
  exists L, zlen (L "book") = 2 /\ projected (log_changes (L "book")) "custom" "record" = None.
Proof.
  assert (Hreach : store_reach true (apply_all empty_store [one_change "a" "book" 1 false; one_change "b" "book" 2 true])).
  { eapply (reach_apply true (apply_all empty_store [one_change "a" "book" 1 false]) 7 "epoch" (one_change "b" "book" 2 true));
      [|by vm_compute].
    eapply (reach_apply true empty_store 7 "epoch" (one_change "a" "book" 1 false)); [by constructor|by vm_compute]. }
  destruct (store_is_a_log_and_its_projection true _ Hreach) as [L HL]. destruct (HL "book") as (_ & Hcur & _ & _ & Hgen).
  exists L. split; [rewrite <- Hcur; by vm_compute|]. rewrite <- Hgen. by vm_compute.
Defined.

Lemma apply_is_compare_and_set_witness :
  let cs := one_change "a" "book" 1 false in
  exists st', apply true empty_store 7 "epoch" cs = Ok (st', MkApplied true false (zlen (@nil change_set) + 1)) /\
    models st' (extend (fun _ => []) "book" ([] ++ [cs])).
Proof.
  intros cs. pose proof (apply_is_compare_and_set true empty_store (fun _ => []) 7 "epoch" cs cs empty_store_models) as H.
  cbv zeta in H. specialize (H ltac:(by vm_compute) ltac:(by vm_compute)).
  change (s_sets empty_store !! cs_id cs) with (@None set_row) in H. change (cs_baseRevision cs =? zlen (@nil change_set)) with true in H.
  assert (Hok : is_ok (applyInTransaction true (s_tables empty_store) (cs_workspaceId cs) (cs_changes cs)) = true) by (vm_compute; reflexivity).
  destruct (applyInTransaction true (s_tables empty_store) (cs_workspaceId cs) (cs_changes cs)) as [t|e]; [|discriminate Hok].
  destruct H as (st' & Ha & Hm & _). exists st'. by split.
Defined.

Definition outcome (r : result log_error (store * apply_result)) : option apply_result :=
  match r with Ok (_, a) => Some a | Err _ => None end.

(** A second set on the same base is refused, the same set again is acknowledged, another one
    under its identifier is an error. *)
Example apply_refuses_and_acknowledges :
  map (fun cs => outcome (apply true (apply_all empty_store [one_change "a" "book" 1 false]) 8 "e" cs))
    [one_change "b" "book" 1 true; one_change "a" "book" 1 false; one_change "a" "book" 2 false] =
  [Some (MkApplied false false 1); Some (MkApplied true true 1); None].
Proof. vm_compute. reflexivity. Qed.
