(* ===== verification/DomainWatch.v ===== *)
(** The observer of a workspace's change log ([watchDomainChanges] of
    protocol/src/domain-watch.ts): it takes a snapshot, then follows the pages, and starts over
    when the host says that its history was replaced.

    Modelling choices: one turn of the generator is a request to the reader, during which
    anything may happen, and the processing of the answer; the pause between polls and the
    abort signal stop the generator between two turns and are not modelled.  The consumer's
    [view] is what the events it received add up to. *)

From S2P Require Import Prelude JsValue Lanes Materializer DomainLog.

Local Open Scope Z_scope.

(** * The generator *)

Inductive snapshot_kind : Type := KSnapshot | KReset.

Record watcher : Type := MkWatcher {
  wa_revision : Z;
  wa_epoch : string;
  wa_snapshotType : snapshot_kind;
  wa_needsSnapshot : bool
}.

Definition new_watcher : watcher := MkWatcher 0 EmptyString KSnapshot true.

Inductive watch_event : Type :=
| WSnapshot (kind : snapshot_kind) (s : snapshot)
| WChanges (revision : Z) (sets : list change_set).

Inductive watch_error : Type :=
| BadOptions | InvalidSnapshot | SnapshotRevision | InvalidPage | ResetWithChanges | EpochChanged | PageRevision
| NotContiguous | NotRestored (e : log_error).

Definition check_options (workspaceId : string) (pageSize interval : Z) : result watch_error unit :=
  throw_if blank workspaceId || (pageSize <? 1) || (1000 <? pageSize) || (interval <? 1) || (60000 <? interval) with BadOptions in
  Ok tt.

Fixpoint validateChanges (workspaceId : string) (expected : Z) (changes : list change_set) : result watch_error (list change_set) :=
  match changes with
  | [] => Ok []
  | input :: changes =>
      match restoreDomainChangeSetWireValue input with
      | Err e => Err (NotRestored e)
      | Ok cs =>
          throw_if negb (bool_decide (cs_workspaceId cs = workspaceId)) || negb (cs_baseRevision cs =? expected - 1) ||
                   negb (cs_revision cs =? expected) with NotContiguous in
          let* rest := validateChanges workspaceId (expected + 1) changes in
          Ok (cs :: rest)
      end
  end.

(** What the reader answers to a request. *)
Inductive answer : Type :=
| ASnapshot (s : snapshot)
| APage (p : page).

Definition on_snapshot (workspaceId : string) (w : watcher) (s : snapshot) : result watch_error (watcher * option watch_event) :=
  throw_if negb (bool_decide (sp_workspaceId s = workspaceId)) || (sp_revision s <? 0) || (MAX_SAFE <? sp_revision s) with InvalidSnapshot in
  let* sets := validateChanges workspaceId 1 (sp_changeSets s) in
  throw_if negb (default 0 (cs_revision <$> last sets) =? sp_revision s) with SnapshotRevision in
  Ok (MkWatcher (sp_revision s) (sp_epoch s) (wa_snapshotType w) false,
      Some (WSnapshot (wa_snapshotType w) (MkSnap (sp_workspaceId s) (sp_revision s) sets (sp_createdAt s) (sp_epoch s)))).

Definition on_page (workspaceId : string) (pageSize : Z) (w : watcher) (p : page) : result watch_error (watcher * option watch_event) :=
  throw_if negb (bool_decide (pg_workspaceId p = workspaceId)) || negb (pg_afterRevision p =? wa_revision w) ||
           (pg_revision p <? 0) || (MAX_SAFE <? pg_revision p) || (pageSize <? zlen (pg_changeSets p)) with InvalidPage in
  if pg_reset p then
    throw_if negb (bool_decide (pg_changeSets p = [])) with ResetWithChanges in
    Ok (MkWatcher (wa_revision w) (wa_epoch w) KReset true, None)
  else
    throw_if negb (bool_decide (pg_epoch p = wa_epoch w)) && negb ((wa_revision w =? 0) && bool_decide (wa_epoch w = EmptyString))
      with EpochChanged in
    let* changes := validateChanges workspaceId (wa_revision w + 1) (pg_changeSets p) in
    let nextRevision := default (wa_revision w) (cs_revision <$> last changes) in
    throw_if (pg_revision p <? nextRevision) || (bool_decide (changes = []) && negb (wa_revision w =? pg_revision p)) with PageRevision in
    if bool_decide (changes = []) then Ok (MkWatcher (wa_revision w) (pg_epoch p) (wa_snapshotType w) (wa_needsSnapshot w), None)
    else Ok (MkWatcher nextRevision (pg_epoch p) (wa_snapshotType w) (wa_needsSnapshot w), Some (WChanges nextRevision changes)).

Definition on_answer (workspaceId : string) (pageSize : Z) (w : watcher) (a : answer) : result watch_error (watcher * option watch_event) :=
  match a with
  | ASnapshot s => on_snapshot workspaceId w s
  | APage p => on_page workspaceId pageSize w p
  end.

(** The log a consumer has put together from the events. *)
Definition view_event (view : list change_set) (e : option watch_event) : list change_set :=
  match e with
  | Some (WSnapshot _ s) => sp_changeSets s
  | Some (WChanges _ sets) => view ++ sets
  | None => view
  end.

(** * The reader *)

(** What a host offers to an observer; [now] is the host's clock. *)
Class DomainWatchReader (H : Type) : Type := {
  snapshotDomain : H -> Z -> string -> result log_error snapshot;
  pullDomainChangePage : H -> string -> Z -> string -> option Z -> result log_error page
}.

(** The daemon answers from its store. *)
#[export] Instance store_reader : DomainWatchReader store := {
  snapshotDomain := captureSnapshot;
  pullDomainChangePage := readPage
}.

Definition request `{DomainWatchReader H} (h : H) (now : Z) (workspaceId : string) (pageSize : Z) (w : watcher) : result log_error answer :=
  if wa_needsSnapshot w
  then let* s := snapshotDomain h now workspaceId in Ok (ASnapshot s)
  else let* p := pullDomainChangePage h workspaceId (wa_revision w) (wa_epoch w) (Some pageSize) in Ok (APage p).

(** * Host and observer *)

Record system : Type := MkSystem {
  y_store : store;
  y_watcher : watcher;
  y_inflight : option answer;
  y_view : list change_set;
  y_failed : option watch_error
}.

Section System.
Variable foreign_keys : bool.
Variable workspaceId : string.
Variable pageSize : Z.

Definition with_store (y : system) (st : store) : system :=
  MkSystem st (y_watcher y) (y_inflight y) (y_view y) (y_failed y).

Definition process (y : system) (a : answer) : system :=
  match on_answer workspaceId pageSize (y_watcher y) a with
  | Ok (w, e) => MkSystem (y_store y) w None (view_event (y_view y) e) (y_failed y)
  | Err e => MkSystem (y_store y) (y_watcher y) None (y_view y) (Some e)
  end.

Definition answer_epoch (a : answer) : string := match a with ASnapshot s => sp_epoch s | APage p => pg_epoch p end.

(** A random epoch is not empty and is none the observer has seen. *)
Definition fresh (y : system) (epoch : string) : Prop :=
  epoch <> EmptyString /\ epoch <> wa_epoch (y_watcher y) /\
  match y_inflight y with Some a => epoch <> answer_epoch a | None => True end.

Inductive system_step : system -> system -> Prop :=
| step_apply y now epoch input st r :
    fresh y epoch -> apply foreign_keys (y_store y) now epoch input = Ok (st, r) -> system_step y (with_store y st)
| step_restore y now epoch input st :
    fresh y epoch -> restoreSnapshot foreign_keys (y_store y) now epoch input = Ok st -> system_step y (with_store y st)
| step_rebuild y w st : rebuild foreign_keys (y_store y) w = Ok st -> system_step y (with_store y st)
| step_purge y w : system_step y (with_store y (fst (purgeWorkspace (y_store y) w)))
| step_request y now a :
    y_inflight y = None -> y_failed y = None -> request (y_store y) now workspaceId pageSize (y_watcher y) = Ok a ->
    system_step y (MkSystem (y_store y) (y_watcher y) (Some a) (y_view y) (y_failed y))
| step_process y a : y_inflight y = Some a -> system_step y (process y a).

Definition started (t : tables) : system := MkSystem (MkStore ∅ ∅ t) new_watcher None [] None.

Inductive system_reach : system -> Prop :=
| reach_started t : t_generic t = ∅ -> system_reach (started t)
| reach_next y y' : system_reach y -> system_step y y' -> system_reach y'.
End System.
