(* ===== verification/DomainWatchProofs.v ===== *)
(** What [DomainWatch] promises: a consumer's view is always a prefix of the log the host has
    under the epoch the observer knows, whatever is written, restored or purged while requests
    are in flight; and an observer left alone catches up. *)

From S2P Require Import Prelude JsValue Lanes Materializer MaterializerProofs DomainLog DomainLogProofs DomainLogTheorems DomainWatch.

Local Open Scope Z_scope.

(** * Prefixes *)

Lemma ztake_prefix {A : Type} (l k : list A) n : n <= zlen l -> ztake n (l ++ k) = ztake n l.
Proof. apply ztake_app_l. Qed.

Lemma ztake_step {A : Type} (l : list A) n m : 0 <= n -> 0 <= m -> ztake n l ++ ztake m (zdrop n l) = ztake (n + m) l.
Proof. intros. by rewrite ztake_split. Qed.

Lemma zlen_nonpos_nil {A : Type} (l : list A) : zlen l <= 0 -> l = [].
Proof. intros H. apply zlen_0_nil. pose proof (zlen_nonneg l). lia. Qed.

(** * Validating what the store answers *)

Lemma validateChanges_spec w k l l' :
  chain w k l -> validateChanges w (k + 1) l = Ok l' -> l' = l.
Proof.
  revert k l'. induction l as [|cs l IH]; intros k l' Hc; cbn [validateChanges]; [by intros [= <-]|].
  destruct (Hc 0%nat cs eq_refl) as (_ & _ & _ & Hg). rewrite restore_wire_id by (try apply good_wire; done).
  destruct (_ || _ || _); [done|]. intros H. apply bind_res_ok in H as (rest & Hr & [= <-]). f_equal.
  apply (IH (k + 1)); [by apply chain_cons with cs|done].
Qed.

Lemma validateChanges_ok w k l : chain w k l -> validateChanges w (k + 1) l = Ok l.
Proof.
  revert k. induction l as [|cs l IH]; intros k Hc; cbn [validateChanges]; [done|].
  destruct (Hc 0%nat cs eq_refl) as (Hw & Hr & Hb & Hg). rewrite restore_wire_id by (try apply good_wire; done).
  rewrite bool_decide_true by done. rewrite (proj2 (Z.eqb_eq _ _)) by lia. rewrite (proj2 (Z.eqb_eq _ _)) by lia. cbn [negb orb].
  rewrite (IH (k + 1)) by (by apply chain_cons with cs). done.
Qed.

Lemma chain_last w k l : chain w k l -> default k (cs_revision <$> last l) = k + zlen l.
Proof.
  intros Hc. destruct (last l) as [cs|] eqn:E; [|apply last_None in E as ->; cbn; rewrite zlen_nil; lia].
  rewrite last_lookup in E. destruct (Hc _ _ E) as (_ & Hr & _). cbn. rewrite Hr. apply lookup_lt_Some in E. unfold zlen. lia.
Qed.

Lemma chain_zdrop w l n : chain w 0 l -> 0 <= n -> chain w n (zdrop n l).
Proof. intros H Hn. pose proof (chain_drop w 0 (Z.to_nat n) l H) as Hd. by rewrite Z2Nat.id, Z.add_0_l in Hd. Qed.

(** * The invariant *)

Section Watch.
Variable foreign_keys : bool.
Variable w : string.
Variable pageSize : Z.

(** A view that holds [rev] change sets, under an epoch, is a prefix of the log if the epoch
    is still the store's; under no epoch it is empty. *)
Definition view_ok (st : store) (L : string -> list change_set) (epoch : string) (rev : Z) (view : list change_set) : Prop :=
  0 <= rev /\ (epoch = EmptyString -> rev = 0 /\ view = []) /\
  (epoch = getEpoch st w -> rev <= zlen (L w) /\ view = ztake rev (L w)).

Definition answer_ok (st : store) (L : string -> list change_set) (wa : watcher) (view : list change_set) (a : answer) : Prop :=
  match a with
  | ASnapshot s => chain w 0 (sp_changeSets s) /\ sp_revision s = zlen (sp_changeSets s) /\
      view_ok st L (sp_epoch s) (sp_revision s) (sp_changeSets s)
  | APage p => wa_needsSnapshot wa = false /\
      (pg_reset p = false -> chain w (wa_revision wa) (pg_changeSets p) /\
         view_ok st L (pg_epoch p) (wa_revision wa + zlen (pg_changeSets p)) (view ++ pg_changeSets p))
  end.

(** Every stored epoch was drawn. *)
Definition epochs_ok (st : store) : Prop := forall w' row, s_cursors st !! w' = Some row -> cu_epoch row <> EmptyString.

Lemma no_epoch_no_log st L w' : models st L -> epochs_ok st -> getEpoch st w' = EmptyString -> L w' = [].
Proof.
  intros Hm He H. pose proof (rp_cursor _ _ _ (mo_log _ _ Hm w')) as Hc. unfold getEpoch, getCursor in *. specialize (He w').
  destruct (s_cursors st !! w') as [row|]; [by destruct (He row)|]. cbn in Hc. by apply zlen_0_nil.
Qed.

Record watch_inv (y : system) (L : string -> list change_set) : Prop := {
  wi_models : models (y_store y) L;
  wi_epochs : epochs_ok (y_store y);
  wi_rev : 0 <= wa_revision (y_watcher y);
  wi_view : wa_needsSnapshot (y_watcher y) = false ->
    view_ok (y_store y) L (wa_epoch (y_watcher y)) (wa_revision (y_watcher y)) (y_view y);
  wi_answer a : y_inflight y = Some a -> answer_ok (y_store y) L (y_watcher y) (y_view y) a
}.

(** Any change of the store that, for the observed workspace, extends the log under the same
    epoch, or takes an epoch nobody has seen, or drops log and epoch. *)
Definition store_moves (st st' : store) (L L' : string -> list change_set) (seen : string -> Prop) : Prop :=
  (getEpoch st' w = getEpoch st w /\ exists k, L' w = L w ++ k) \/
  (getEpoch st' w <> EmptyString /\ ~ seen (getEpoch st' w)) \/
  (getEpoch st' w = EmptyString /\ L' w = []).

Lemma view_ok_moves st st' L L' epoch rev view (seen : string -> Prop) :
  store_moves st st' L L' seen -> seen epoch -> view_ok st L epoch rev view -> view_ok st' L' epoch rev view.
Proof.
  intros Hmv Hseen (H0 & Hempty & Hcur). split; [done|]. split; [done|]. intros He.
  destruct Hmv as [[Hep [k Hk]]|[[_ Hns]|[Hep Hnil]]].
  - rewrite Hep in He. destruct (Hcur He) as [Hle ->]. rewrite Hk, zlen_app. pose proof (zlen_nonneg k).
    split; [lia|]. by rewrite ztake_prefix.
  - by rewrite He in Hseen.
  - rewrite Hep in He. destruct (Hempty He) as [-> ->]. rewrite Hnil. by split; [apply Z.le_refl|].
Qed.

Definition seen_by (y : system) (epoch : string) : Prop :=
  epoch = wa_epoch (y_watcher y) \/ match y_inflight y with Some a => epoch = answer_epoch a | None => False end.

Lemma inv_store y L st' L' :
  watch_inv y L -> models st' L' -> epochs_ok st' ->
  store_moves (y_store y) st' L L' (seen_by y) -> watch_inv (with_store y st') L'.
Proof.
  intros [Hm He Hrev Hv Ha] Hm' He' Hmv. split; cbn [with_store y_store y_watcher y_inflight y_view]; [done|done|done|..].
  - intros Hn. eapply view_ok_moves; [exact Hmv|by left|by apply Hv].
  - intros a Hin. specialize (Ha a Hin). destruct a as [s|p]; cbn [answer_ok] in *.
    + destruct Ha as (? & ? & Hok). split_and!; [done..|]. eapply view_ok_moves; [exact Hmv| |done]. right. by rewrite Hin.
    + destruct Ha as (Hn & Hp). split; [done|]. intros Hr. destruct (Hp Hr) as [Hc Hok]. split; [done|].
      eapply view_ok_moves; [exact Hmv| |done]. right. by rewrite Hin.
Qed.

Lemma fresh_unseen y epoch : fresh y epoch -> epoch <> EmptyString /\ ~ seen_by y epoch.
Proof.
  intros (H1 & H2 & H3). split; [done|]. intros [H|H]; [done|]. destruct (y_inflight y); [done|done].
Qed.

Lemma getEpoch_set sets cursors w1 row t w2 :
  getEpoch (MkStore sets (<[w1 := row]> cursors) t) w2 = if decide (w2 = w1) then cu_epoch row else default EmptyString (cu_epoch <$> cursors !! w2).
Proof. unfold getEpoch. cbn. destruct (decide (w2 = w1)) as [->|Hne]; [by rewrite lookup_insert_eq|by rewrite lookup_insert_ne]. Qed.

Lemma getEpoch_cursors st st' w' : s_cursors st' !! w' = s_cursors st !! w' -> getEpoch st' w' = getEpoch st w'.
Proof. unfold getEpoch. by intros ->. Qed.

Lemma inv_apply y L now epoch input st r :
  watch_inv y L -> fresh y epoch -> apply foreign_keys (y_store y) now epoch input = Ok (st, r) ->
  exists L', watch_inv (with_store y st) L'.
Proof.
  intros Hi Hf Ha. pose proof (wi_models _ _ Hi) as Hm. destruct (fresh_unseen _ _ Hf) as [Hne Hns].
  destruct (apply_effect _ _ _ _ _ _ _ _ Hm Ha) as [->|(cs & _ & Hm' & k & Hcur)].
  { exists L. destruct y. exact Hi. }
  eexists. eapply inv_store; [exact Hi|exact Hm'|..].
  - intros w' row. rewrite Hcur, lookup_insert_Some. intros [[<- <-]|[_ Hin]]; [|by apply (wi_epochs _ _ Hi w')]. cbn.
    destruct (s_cursors (y_store y) !! cs_workspaceId cs) as [row|] eqn:E; [by apply (wi_epochs _ _ Hi _ _ E)|done].
  - unfold store_moves, extend. destruct (decide (w = cs_workspaceId cs)) as [Hw|Hw].
    + rewrite <- Hw in *. destruct (s_cursors (y_store y) !! w) as [row|] eqn:E.
      * left. unfold getEpoch. rewrite Hcur, lookup_insert_eq, E. split; [done|]. by eexists.
      * right. left. unfold getEpoch. by rewrite Hcur, lookup_insert_eq.
    + left. split; [apply getEpoch_cursors; by rewrite Hcur, lookup_insert_ne|]. exists []. by rewrite app_nil_r.
Qed.

Lemma inv_restore y L now epoch input st :
  watch_inv y L -> fresh y epoch -> restoreSnapshot foreign_keys (y_store y) now epoch input = Ok st ->
  exists L', watch_inv (with_store y st) L'.
Proof.
  intros Hi Hf Hr. pose proof (wi_models _ _ Hi) as Hm. destruct (fresh_unseen _ _ Hf) as [Hne Hns].
  destruct (restore_models _ _ _ _ _ _ _ Hm Hr) as (sets & _ & Hm' & Hcur).
  eexists. eapply inv_store; [exact Hi|exact Hm'|..].
  - intros w' row. rewrite Hcur, lookup_insert_Some. intros [[<- <-]|[_ Hin]]; [done|].
    apply lookup_delete_Some in Hin as [_ Hin]. by apply (wi_epochs _ _ Hi w').
  - unfold store_moves, extend. destruct (decide (w = sp_workspaceId input)) as [->|Hw].
    + right. left. unfold getEpoch. by rewrite Hcur, lookup_insert_eq.
    + left. split; [apply getEpoch_cursors; by rewrite Hcur, lookup_insert_ne, lookup_delete_ne|]. exists []. by rewrite app_nil_r.
Qed.

Lemma inv_rebuild y L w' st :
  watch_inv y L -> rebuild foreign_keys (y_store y) w' = Ok st -> watch_inv (with_store y st) L.
Proof.
  intros Hi Hr. pose proof (rebuild_models _ _ _ _ _ (wi_models _ _ Hi) Hr) as Hm'.
  assert (Hcur : s_cursors st = s_cursors (y_store y)) by (unfold rebuild in Hr; inv_bind; by injection Hr as <-).
  eapply inv_store; [exact Hi|exact Hm'|..].
  - intros w1 row. rewrite Hcur. apply (wi_epochs _ _ Hi).
  - left. split; [apply getEpoch_cursors; by rewrite Hcur|]. exists []. by rewrite app_nil_r.
Qed.

Lemma inv_purge y L w' :
  watch_inv y L -> exists L', watch_inv (with_store y (fst (purgeWorkspace (y_store y) w'))) L'.
Proof.
  intros Hi. pose proof (purge_models _ _ w' (wi_models _ _ Hi)) as Hm'. eexists. eapply inv_store; [exact Hi|exact Hm'|..].
  - intros w1 row Hin. cbn in Hin. apply lookup_delete_Some in Hin as [_ Hin]. by apply (wi_epochs _ _ Hi w1).
  - unfold store_moves, extend. destruct (decide (w = w')) as [<-|Hw].
    + right. right. unfold getEpoch. cbn. by rewrite lookup_delete_eq.
    + left. split; [apply getEpoch_cursors; cbn; by rewrite lookup_delete_ne|]. exists []. by rewrite app_nil_r.
Qed.

(** * Requests *)

Lemma page_count_nonneg rows : forall bytes count n, 0 <= count -> page_count bytes count rows = Ok n -> count <= n.
Proof.
  induction rows as [|row rows IH]; intros bytes count n Hc; cbn [page_count]; [intros [= <-]; lia|].
  destruct (_ <? _); [destruct (count =? 0); [done|intros [= <-]; lia]|]. intros H. apply IH in H; lia.
Qed.

Lemma readPage_inv st L after epoch limit p :
  models st L -> readPage st w after epoch limit = Ok p ->
  0 <= after /\ pg_epoch p = getEpoch st w /\ pg_revision p = zlen (L w) /\ pg_afterRevision p = after /\
  (pg_reset p = false -> after <= zlen (L w) /\ (epoch = getEpoch st w \/ (after = 0 /\ epoch = EmptyString)) /\
     exists n, 0 <= n /\ pg_changeSets p = ztake n (zdrop after (L w))).
Proof.
  intros Hm. unfold readPage. destruct ((after <? 0) || _) eqn:Ea; [done|]. apply orb_false_iff in Ea as [Ea _]. apply Z.ltb_ge in Ea.
  destruct (blank w || _) eqn:Ew; [done|]. apply orb_false_iff in Ew as [Ew _]. rewrite (rp_cursor _ _ _ (mo_log _ _ Hm w)).
  destruct ((zlen (L w) <? after) || _) eqn:Er; [by intros [= <-]|]. apply orb_false_iff in Er as [Er1 Er2]. apply Z.ltb_ge in Er1.
  intros H. apply bind_res_ok in H as (n & Hn & H). apply bind_res_ok in H as (sets & Hs & H).
  apply page_count_nonneg in Hn; [|lia]. destruct (bool_decide (sets = []) && _); [done|]. injection H as <-. split_and!; try done.
  intros _. split; [done|]. split.
  - apply andb_false_iff in Er2 as [Er2|Er2]; apply negb_false_iff in Er2.
    + left. by apply bool_decide_eq_true in Er2.
    + apply andb_true_iff in Er2 as [E0 E1]. right. split; [by apply Z.eqb_eq|by apply bool_decide_eq_true in E1].
  - exists n. split; [done|]. cbn [pg_changeSets]. destruct (n =? 0) eqn:E0.
    + apply Z.eqb_eq in E0 as ->. by injection Hs.
    + destruct (bad_limit n) eqn:Eb.
      * unfold list_sets in Hs. rewrite Eb in Hs. by destruct (blank w || _).
      * rewrite (list_sets_eq st w (L w) after (Some n) (mo_log _ _ Hm w) Ew Ea Eb) in Hs. by injection Hs.
Qed.

Lemma view_ok_full st L : models st L -> epochs_ok st -> view_ok st L (getEpoch st w) (zlen (L w)) (L w).
Proof.
  intros Hm He. split; [apply zlen_nonneg|]. split.
  - intros H. rewrite (no_epoch_no_log _ _ _ Hm He H). done.
  - intros _. split; [lia|]. by rewrite ztake_all by lia.
Qed.

Lemma inv_request y L now a :
  watch_inv y L -> y_inflight y = None -> request (y_store y) now w pageSize (y_watcher y) = Ok a ->
  watch_inv (MkSystem (y_store y) (y_watcher y) (Some a) (y_view y) (y_failed y)) L.
Proof.
  intros Hi Hin Hr. destruct (Hi) as [Hm He Hrev Hv _]. split; try done. cbn [y_inflight y_store y_watcher y_view]. intros a' [= <-].
  unfold request in Hr. destruct (wa_needsSnapshot (y_watcher y)) eqn:En; apply bind_res_ok in Hr as (x & Hx & [= <-]); cbn [answer_ok].
  - cbn in Hx. destruct (blank w) eqn:Ew.
    { unfold captureSnapshot, list_sets in Hx. by rewrite Ew in Hx. }
    rewrite (capture_spec _ _ _ _ Hm Ew) in Hx. injection Hx as <-. cbn.
    split; [apply (mo_log _ _ Hm w)|]. split; [done|by apply view_ok_full].
  - cbn in Hx. destruct (readPage_inv _ _ _ _ _ _ Hm Hx) as (H0 & Hep & _ & _ & Hp). split; [done|]. intros Hres.
    destruct (Hp Hres) as (Hle & Hepoch & n & Hn & ->). set (rev := wa_revision (y_watcher y)) in *.
    assert (Hc : chain w rev (zdrop rev (L w))) by (apply chain_zdrop; [apply (mo_log _ _ Hm w)|done]).
    split; [by apply chain_take|]. rewrite Hep.
    assert (Hview : y_view y = ztake rev (L w)).
    { destruct (Hv eq_refl) as (_ & Hempty & Hcur). destruct Hepoch as [He'|[Hz He']]; [by apply Hcur|].
      destruct (Hempty He') as [_ ->]. by rewrite Hz. }
    pose proof (zlen_nonneg (ztake n (zdrop rev (L w)))). split; [lia|]. split.
    + intros Hno. rewrite Hview, (no_epoch_no_log _ _ _ Hm He Hno) in *. rewrite zlen_nil in Hle. assert (rev = 0) as -> by lia.
      unfold ztake, zdrop. rewrite drop_nil, take_nil. by rewrite take_nil.
    + intros _. rewrite Hview. assert (Hmin : zlen (ztake n (zdrop rev (L w))) <= zlen (L w) - rev).
      { rewrite <- zlen_zdrop by lia. apply zlen_ztake_le. }
      split; [lia|]. rewrite ztake_step by lia. destruct (Z.le_gt_cases n (zlen (L w) - rev)) as [Hn'|Hn'].
      * rewrite zlen_ztake; [done|]. rewrite zlen_zdrop by lia. lia.
      * rewrite (ztake_all n (zdrop rev (L w))) by (rewrite zlen_zdrop by lia; lia). rewrite zlen_zdrop by lia.
        rewrite !ztake_all by lia. done.
Qed.

(** * Processing *)

Lemma inv_process y L a : watch_inv y L -> y_inflight y = Some a -> watch_inv (process w pageSize y a) L.
Proof.
  intros Hi Hin. destruct (Hi) as [Hm He Hrev Hv Ha]. specialize (Ha a Hin). unfold process.
  assert (Hdone : forall wa view f, 0 <= wa_revision wa ->
    (wa_needsSnapshot wa = false -> view_ok (y_store y) L (wa_epoch wa) (wa_revision wa) view) ->
    watch_inv (MkSystem (y_store y) wa None view f) L) by (by intros; split).
  destruct (on_answer w pageSize (y_watcher y) a) as [[wa e]|err] eqn:Eo; [|by apply Hdone].
  destruct a as [s|p]; cbn [on_answer answer_ok] in *.
  - destruct Ha as (Hc & Hlen & Hok). unfold on_snapshot in Eo. destruct (_ || _ || _); [done|].
    apply bind_res_ok in Eo as (sets & Hs & Eo). apply (validateChanges_spec w 0) in Hs as ->; [|done].
    destruct (negb _); [done|]. injection Eo as <- <-. apply Hdone; [apply Hok|]. intros _. exact Hok.
  - destruct Ha as (Hn & Hp). unfold on_page in Eo. destruct (_ || _ || _ || _ || _); [done|].
    destruct (pg_reset p) eqn:Ers.
    { destruct (negb _); [done|]. injection Eo as <- <-. by apply Hdone. }
    destruct (Hp eq_refl) as [Hc Hok]. destruct (negb _ && negb _); [done|].
    apply bind_res_ok in Eo as (sets & Hs & Eo). apply (validateChanges_spec w _) in Hs as ->; [|done].
    rewrite (chain_last _ _ _ Hc) in Eo. destruct (_ || _); [done|]. case_bool_decide as Hempty; injection Eo as <- <-.
    + rewrite Hempty, zlen_nil, Z.add_0_r, app_nil_r in Hok. apply Hdone; [done|]. intros _. exact Hok.
    + apply Hdone; [apply Hok|]. intros _. exact Hok.
Qed.

Lemma watch_inv_step y y' L : watch_inv y L -> system_step foreign_keys w pageSize y y' -> exists L', watch_inv y' L'.
Proof.
  intros Hi Hs. destruct Hs as [y now epoch input st r Hf Ha|y now epoch input st Hf Hr|y w' st Hr|y w'|y now a Hin _ Hr|y a Hin].
  - by eapply inv_apply.
  - by eapply inv_restore.
  - exists L. by eapply inv_rebuild.
  - by eapply inv_purge.
  - exists L. by eapply inv_request.
  - exists L. by apply inv_process.
Qed.

Lemma watch_inv_reach y : system_reach foreign_keys w pageSize y -> exists L, watch_inv y L.
Proof.
  induction 1 as [t Ht|y y' _ [L IH] Hs]; [|by eapply watch_inv_step].
  exists (fun _ => []). split; cbn; try done. by apply empty_models.
Qed.

(** C17: an observer's view is never a mixture of histories.  Whatever change sets are applied
    to any workspace, and whenever logs are restored from snapshots, rebuilt or purged, also
    while a request of the observer is in flight: as long as the epoch the observer holds is
    the host's, what its consumer has put together is exactly the host's log up to the
    observer's revision. *)
Theorem observed_view_is_a_prefix_of_the_log y :
  system_reach foreign_keys w pageSize y -> blank w = false ->
  wa_needsSnapshot (y_watcher y) = false -> wa_epoch (y_watcher y) = getEpoch (y_store y) w ->
  exists l, list_sets (y_store y) w 0 None = Ok l /\
    wa_revision (y_watcher y) <= zlen l /\ y_view y = ztake (wa_revision (y_watcher y)) l.
Proof.
  intros [L Hi]%watch_inv_reach Hw Hn He. exists (L w).
  rewrite (list_sets_eq _ w (L w) 0 None (mo_log _ _ (wi_models _ _ Hi) w) Hw) by done. rewrite zdrop_0. split; [done|].
  destruct (wi_view _ _ Hi Hn) as (_ & _ & Hcur). by apply Hcur.
Qed.

(** * Catching up *)

(** One turn of the generator on a host nobody else writes to. *)
Definition turn (now : Z) (y : system) : system :=
  match request (y_store y) now w pageSize (y_watcher y) with
  | Ok a => process w pageSize (MkSystem (y_store y) (y_watcher y) (Some a) (y_view y) (y_failed y)) a
  | Err _ => y
  end.

Definition caught_up (y : system) (l : list change_set) : Prop :=
  y_failed y = None /\ wa_needsSnapshot (y_watcher y) = false /\ wa_epoch (y_watcher y) = getEpoch (y_store y) w /\
  wa_revision (y_watcher y) = zlen l /\ y_view y = l.

(** An observer behind a change set that fits in no page gets no further: its request for a
    page throws. *)
Lemma large_set_stops_the_observer now y row rows :
  blank w = false -> 1 <= pageSize <= 1000 -> wa_needsSnapshot (y_watcher y) = false -> wa_epoch (y_watcher y) = getEpoch (y_store y) w ->
  0 <= wa_revision (y_watcher y) <= MAX_SAFE -> wa_revision (y_watcher y) <= getCursor (y_store y) w ->
  rows_after (y_store y) w (wa_revision (y_watcher y)) = row :: rows -> PAGE_BYTES < row_bytes row ->
  request (y_store y) now w pageSize (y_watcher y) = Err PageTooLarge /\ turn now y = y.
Proof.
  intros Hw Hp Hn He Hr Hc Hrows Hb.
  assert (E : request (y_store y) now w pageSize (y_watcher y) = Err PageTooLarge); [|unfold turn; by rewrite E].
  unfold request. rewrite Hn. unfold pullDomainChangePage. simpl. unfold readPage, bad_limit. rewrite Hw, He.
  rewrite (proj2 (Z.ltb_ge _ _)), (proj2 (Z.ltb_ge MAX_SAFE _)) by lia. simpl. rewrite (proj2 (Z.ltb_ge pageSize 1)), (proj2 (Z.ltb_ge 1000 _)), (proj2 (Z.ltb_ge (getCursor _ _) _)) by lia.
  rewrite bool_decide_eq_true_2 by done. simpl. rewrite Hrows. unfold ztake. destruct (Z.to_nat pageSize) as [|n] eqn:En; [lia|]. simpl.
  by rewrite Z.add_0_l, (proj2 (Z.ltb_lt _ _) Hb).
Qed.

Section CatchUp.
Variable now : Z.
Variable L : string -> list change_set.
Hypothesis Hw : blank w = false.
Hypothesis Hsize : 1 <= pageSize <= 1000.
Hypothesis Hlen : zlen (L w) <= MAX_SAFE.
Hypothesis Hrows : forall row, row ∈ map entry (L w) -> row_bytes row <= PAGE_BYTES.

Definition ready (y : system) : Prop := watch_inv y L /\ y_inflight y = None /\ y_failed y = None.

Lemma ready_chain y : ready y -> chain w 0 (L w).
Proof. intros [Hi _]. apply (mo_log _ _ (wi_models _ _ Hi) w). Qed.

Lemma turn_snapshot y : ready y -> wa_needsSnapshot (y_watcher y) = true -> caught_up (turn now y) (L w).
Proof.
  intros Hr Hn. pose proof (ready_chain _ Hr) as Hc. destruct Hr as (Hi & Hin & Hf). unfold turn, request. rewrite Hn. cbn [snapshotDomain store_reader].
  rewrite (capture_spec _ _ now w (wi_models _ _ Hi) Hw). cbn [bind_res]. unfold process. cbn [on_answer y_watcher]. unfold on_snapshot. cbn.
  pose proof (zlen_nonneg (L w)). rewrite bool_decide_true by done.
  rewrite (proj2 (Z.ltb_ge (zlen (L w)) 0)) by lia. rewrite (proj2 (Z.ltb_ge MAX_SAFE (zlen (L w)))) by lia. cbn [negb orb].
  change 1 with (0 + 1). rewrite (validateChanges_ok w 0 (L w) Hc). cbn [bind_res]. rewrite (chain_last w 0 (L w) Hc), Z.add_0_l, Z.eqb_refl. cbn.
  by split_and!.
Qed.

Definition must_reset (y : system) : bool :=
  (zlen (L w) <? wa_revision (y_watcher y)) ||
  (negb (bool_decide (wa_epoch (y_watcher y) = getEpoch (y_store y) w)) &&
   negb ((wa_revision (y_watcher y) =? 0) && bool_decide (wa_epoch (y_watcher y) = EmptyString))).

Lemma on_page_good wa r epoch reset sets :
  0 <= r <= MAX_SAFE -> zlen sets <= pageSize ->
  on_page w pageSize wa (MkPage w (wa_revision wa) r epoch reset sets) =
  if reset then if bool_decide (sets = []) then Ok (MkWatcher (wa_revision wa) (wa_epoch wa) KReset true, None) else Err ResetWithChanges
  else on_page w pageSize wa (MkPage w (wa_revision wa) r epoch false sets).
Proof.
  intros Hr Hs. destruct reset; [|done]. unfold on_page. cbn.
  rewrite bool_decide_true, Z.eqb_refl by done. rewrite !(proj2 (Z.ltb_ge _ _)) by lia. cbn. by case_bool_decide.
Qed.

Lemma on_page_changes wa r epoch sets :
  0 <= r <= MAX_SAFE -> zlen sets <= pageSize -> chain w (wa_revision wa) sets ->
  wa_revision wa + zlen sets <= r -> (sets = [] -> wa_revision wa = r) ->
  epoch = wa_epoch wa \/ (wa_revision wa = 0 /\ wa_epoch wa = EmptyString) ->
  exists e, on_page w pageSize wa (MkPage w (wa_revision wa) r epoch false sets) =
    Ok (MkWatcher (wa_revision wa + zlen sets) epoch (wa_snapshotType wa) (wa_needsSnapshot wa), e).
Proof.
  intros Hr Hs Hc Hle Hempty Hep. unfold on_page. cbn.
  rewrite bool_decide_true, Z.eqb_refl by done. rewrite !(proj2 (Z.ltb_ge _ _)) by lia. cbn [negb orb].
  assert (Hepoch : negb (bool_decide (epoch = wa_epoch wa)) && negb ((wa_revision wa =? 0) && bool_decide (wa_epoch wa = EmptyString)) = false).
  { destruct Hep as [->|[-> ->]]; [by rewrite bool_decide_true|]. apply andb_false_r. }
  rewrite Hepoch, (validateChanges_ok _ _ _ Hc). cbn [bind_res]. rewrite (chain_last _ _ _ Hc).
  rewrite (proj2 (Z.ltb_ge _ _)) by lia. cbn [orb]. clear Hepoch. case_bool_decide as He.
  - rewrite (Hempty He) in *. rewrite Z.eqb_refl. cbn. rewrite He, zlen_nil, Z.add_0_r. by eexists.
  - cbn. by eexists.
Qed.

Lemma turn_page y :
  ready y -> wa_needsSnapshot (y_watcher y) = false -> wa_revision (y_watcher y) <= MAX_SAFE ->
  y_store (turn now y) = y_store y /\ ready (turn now y) /\
  if must_reset y then wa_needsSnapshot (y_watcher (turn now y)) = true
  else wa_needsSnapshot (y_watcher (turn now y)) = false /\ wa_epoch (y_watcher (turn now y)) = getEpoch (y_store y) w /\
    wa_revision (y_watcher y) <= wa_revision (y_watcher (turn now y)) <= zlen (L w) /\
    (wa_revision (y_watcher y) < zlen (L w) -> wa_revision (y_watcher y) < wa_revision (y_watcher (turn now y))).
Proof.
  intros Hr Hn Hmax. pose proof (ready_chain _ Hr) as Hc. destruct (Hr) as (Hi & Hin & Hf).
  set (wa := y_watcher y) in *. set (rev := wa_revision wa) in *.
  assert (Hrev0 : 0 <= rev) by apply (wi_rev _ _ Hi). pose proof (zlen_nonneg (L w)) as Hl0.
  destruct (readPage_spec (y_store y) L w rev (wa_epoch wa) pageSize (wi_models _ _ Hi) Hw) as (n & Hpage & Hbound & Hpos); [lia|done|done|].
  fold (must_reset y) in Hpage. set (sets := if must_reset y then [] else ztake n (zdrop rev (L w))) in Hpage.
  assert (Hreq : request (y_store y) now w pageSize wa = Ok (APage (MkPage w rev (zlen (L w)) (getEpoch (y_store y) w) (must_reset y) sets))).
  { unfold request. rewrite Hn. cbn [pullDomainChangePage store_reader]. fold rev. by rewrite Hpage. }
  assert (Hinv := inv_process _ L _ (inv_request y L now _ Hi Hin Hreq) eq_refl).
  unfold turn. fold wa. rewrite Hreq. unfold process in *. cbn [on_answer y_watcher y_store y_view y_failed] in *. fold wa in Hinv.
  assert (Hsets : zlen sets <= pageSize).
  { unfold sets. destruct (must_reset y); [rewrite zlen_nil; lia|]. unfold ztake, zlen. rewrite length_take. lia. }
  rewrite on_page_good in * by (try done; lia). destruct (must_reset y) eqn:Ereset.
  - rewrite bool_decide_true in * by done. cbn [y_store]. split; [done|]. by split.
  - unfold must_reset in Ereset. apply orb_false_iff in Ereset as [E1 E2]. apply Z.ltb_ge in E1. fold wa rev in E1, E2.
    assert (Hdrop : zlen (zdrop rev (L w)) = zlen (L w) - rev) by (rewrite zlen_zdrop; lia).
    assert (Hlen' : zlen sets = Z.min n (zlen (L w) - rev)).
    { unfold sets. destruct (Z.le_gt_cases n (zlen (L w) - rev)); [rewrite zlen_ztake by lia; lia|rewrite ztake_all by lia; lia]. }
    destruct (on_page_changes wa (zlen (L w)) (getEpoch (y_store y) w) sets) as [e He].
    + lia.
    + done.
    + apply chain_take, chain_zdrop; done.
    + fold rev. lia.
    + intros Hnil. rewrite Hnil, zlen_nil in Hlen'. fold rev. lia.
    + apply andb_false_iff in E2 as [E2|E2]; apply negb_false_iff in E2; [left; symmetry; by apply bool_decide_eq_true in E2|right].
      apply andb_true_iff in E2 as [H0 H1]. split; [by apply Z.eqb_eq|by apply bool_decide_eq_true in H1].
    + rewrite He in Hinv. rewrite He. cbn. fold rev. split; [done|]. split; [by split|]. split; [done|]. split; [done|]. split; [lia|]. lia.
Qed.

Lemma view_caught_up y : ready y -> wa_needsSnapshot (y_watcher y) = false -> wa_epoch (y_watcher y) = getEpoch (y_store y) w ->
  wa_revision (y_watcher y) = zlen (L w) -> caught_up y (L w).
Proof.
  intros (Hi & Hin & Hf) Hn He Hr. split_and!; try done. destruct (wi_view _ _ Hi Hn) as (_ & _ & Hcur). destruct (Hcur He) as [_ ->].
  rewrite Hr. apply ztake_all. lia.
Qed.

Lemma pages_catch_up k : forall y, ready y -> wa_needsSnapshot (y_watcher y) = false -> wa_epoch (y_watcher y) = getEpoch (y_store y) w ->
  wa_revision (y_watcher y) <= zlen (L w) -> zlen (L w) - wa_revision (y_watcher y) <= Z.of_nat k ->
  exists n, caught_up (Nat.iter n (turn now) y) (L w).
Proof.
  induction k as [|k IH]; intros y Hr Hn He Hle Hk.
  - exists 0%nat. apply view_caught_up; try done. cbn. lia.
  - destruct (decide (wa_revision (y_watcher y) = zlen (L w))) as [Heq|Hne]; [exists 0%nat; by apply view_caught_up|].
    destruct (turn_page y Hr Hn) as (Hst & Hr' & Hturn); [lia|].
    assert (Hnr : must_reset y = false).
    { unfold must_reset. rewrite (proj2 (Z.ltb_ge _ _)) by lia. by rewrite bool_decide_true. }
    rewrite Hnr in Hturn. destruct Hturn as (Hn' & He' & Hle' & Hpos).
    destruct (IH (turn now y) Hr' Hn') as [n Hcaught]; [by rewrite Hst|lia|lia|].
    exists (S n). by rewrite Nat.iter_succ_r.
Qed.

Lemma snapshot_catches_up y : ready y -> wa_needsSnapshot (y_watcher y) = true -> exists n, caught_up (Nat.iter n (turn now) y) (L w).
Proof. intros. exists 1%nat. by apply turn_snapshot. Qed.

Lemma catches_up y : ready y -> wa_revision (y_watcher y) <= MAX_SAFE -> exists n, caught_up (Nat.iter n (turn now) y) (L w).
Proof.
  intros Hr Hmax. destruct (wa_needsSnapshot (y_watcher y)) eqn:Hn; [by apply snapshot_catches_up|].
  destruct (turn_page y Hr Hn Hmax) as (Hst & Hr' & Hturn). destruct (must_reset y).
  - destruct (snapshot_catches_up _ Hr' Hturn) as [n Hc]. exists (S n). by rewrite Nat.iter_succ_r.
  - destruct Hturn as (Hn' & He' & Hle & _). destruct (pages_catch_up (Z.to_nat (zlen (L w))) (turn now y)) as [n Hc]; try done.
    + by rewrite Hst.
    + lia.
    + pose proof (wi_rev _ _ (proj1 Hr')). lia.
    + exists (S n). by rewrite Nat.iter_succ_r.
Qed.
End CatchUp.

(** C39: an observer left alone catches up. Every change set of the host fits in a page of one
    mebibyte and the revisions are safe integers. Then from any state reached, with no request
    in flight and no failure so far, finitely many turns of the generator on a host that nobody
    writes to, whatever page size it was given, bring the consumer to exactly the host's log,
    without an error. [large_set_stops_the_observer] is a host with a change set that fits in no
    page. *)
Theorem observer_catches_up y l now :
  system_reach foreign_keys w pageSize y -> blank w = false -> 1 <= pageSize <= 1000 ->
  y_inflight y = None -> y_failed y = None -> wa_revision (y_watcher y) <= MAX_SAFE ->
  list_sets (y_store y) w 0 None = Ok l -> zlen l <= MAX_SAFE -> (forall row, row ∈ map entry l -> row_bytes row <= PAGE_BYTES) ->
  exists n, caught_up (Nat.iter n (turn now) y) l.
Proof.
  intros [L Hi]%watch_inv_reach Hw Hsize Hin Hf Hmax Hl Hlen Hrows.
  rewrite (list_sets_eq _ w (L w) 0 None (mo_log _ _ (wi_models _ _ Hi) w) Hw), zdrop_0 in Hl by done. injection Hl as <-.
  by apply (catches_up now L Hw Hsize Hlen Hrows y).
Qed.
End Watch.

(** * Concrete runs *)

Definition book_1 : store := apply_all empty_store [one_change "a" "book" 1 false].
Definition book_2 : store := apply_all empty_store [one_change "a" "book" 1 false; one_change "b" "book" 2 true].

(** The observer took its snapshot of the first revision; then a second one was applied. *)
Definition behind : system := with_store (turn "book" 2 5 (with_store (started empty_tables) book_1)) book_2.

Lemma behind_reach : system_reach true "book" 2 behind.
Proof.
  set (y0 := started empty_tables). set (y1 := with_store y0 book_1).
  assert (H1 : system_reach true "book" 2 y1).
  { apply (reach_next true "book" 2 y0 y1); [by apply reach_started|]. eapply (step_apply true "book" 2 y0 7 "epoch" (one_change "a" "book" 1 false)); [|by vm_compute].
    split; [done|split; done]. }
  set (s := MkSnap "book" 1 [one_change "a" "book" 1 false] 5 "epoch").
  assert (H2 : system_reach true "book" 2 (MkSystem book_1 new_watcher (Some (ASnapshot s)) [] None)).
  { eapply reach_next; [exact H1|]. apply (step_request true "book" 2 y1 5 (ASnapshot s)); by vm_compute. }
  assert (H3 : system_reach true "book" 2 (turn "book" 2 5 y1)).
  { eapply reach_next; [exact H2|].
    assert (Hp : turn "book" 2 5 y1 = process "book" 2 (MkSystem book_1 new_watcher (Some (ASnapshot s)) [] None) (ASnapshot s)) by (by vm_compute).
    rewrite Hp. apply step_process. reflexivity. }
  eapply reach_next; [exact H3|].
  eapply (step_apply true "book" 2 (turn "book" 2 5 y1) 7 "other" (one_change "b" "book" 2 true)); [|by vm_compute].
  split; [|split]; vm_compute; [discriminate|discriminate|exact I].
Qed.

Lemma observed_view_is_a_prefix_of_the_log_witness :
  exists l, list_sets (y_store behind) "book" 0 None = Ok l /\ wa_revision (y_watcher behind) <= zlen l /\
    y_view behind = ztake (wa_revision (y_watcher behind)) l.
Proof. apply (observed_view_is_a_prefix_of_the_log true "book" 2 behind behind_reach); by vm_compute. Defined.

Lemma observer_catches_up_witness :
  exists n, caught_up "book" (Nat.iter n (turn "book" 2 9) behind) [one_change "a" "book" 1 false; one_change "b" "book" 2 true].
Proof.
  apply (observer_catches_up true "book" 2 behind [one_change "a" "book" 1 false; one_change "b" "book" 2 true] 9 behind_reach).
  - reflexivity.
  - lia.
  - vm_compute. reflexivity.
  - vm_compute. reflexivity.
  - vm_compute. discriminate.
  - vm_compute. reflexivity.
  - vm_compute. discriminate.
  - intros row Hin. apply list_elem_of_In in Hin. cbn [map In] in Hin. destruct Hin as [<-|[<-|[]]]; vm_compute; discriminate.
Defined.
