(* ===== verification/TaskRouter.v ===== *)
(** The ownership of durable tasks and what survives of them ([TaskRouter] of
    agent-core/src/tasks/task-router.ts): which stored tasks a router accepts when it starts,
    what it makes of those that were running, how tasks own others, how cancellation and
    shutdown walk down the owned trees, and the queue of the writes behind the status it shows.

    Modelling choices: a method is taken up to its first [await], with equal readings of the
    clock; what a stored record must be checked for is a dynamic value; input, context and
    progress of a task, the details of its errors, which are stored sanitized, its listeners
    and observers, and the execution of its handler are left out.  A deferred continuation (the end of an owner that waits for its children) is not run
    here.  The stack of a walk has fuel, proved enough. *)

From S2P Require Import Prelude JsValue JsonText SessionEntries.

Inductive task_status : Type :=
| Created | Queued | Running | Completing | Checkpointed | WaitingUser | Interrupted | Completed | Failed | Cancelled.

#[export] Instance task_status_dec : EqDecision task_status.
Proof. solve_decision. Defined.

Definition status_name (s : task_status) : string :=
  match s with
  | Created => "created" | Queued => "queued" | Running => "running" | Completing => "completing" | Checkpointed => "checkpointed"
  | WaitingUser => "waiting-user" | Interrupted => "interrupted" | Completed => "completed" | Failed => "failed" | Cancelled => "cancelled"
  end.

Definition isTerminal (s : task_status) : bool := match s with WaitingUser | Completed | Failed | Cancelled => true | _ => false end.
Definition isSettledTaskStatus (s : task_status) : bool := match s with Completed | Failed | Cancelled => true | _ => false end.

(** An attempt or a step of an execution. *)
Record trace_item : Type := MkItem { it_status : task_status; it_finishedAt : option Z; it_error : jsv }.

(** The durable metadata of an execution; what a store may have corrupted is dynamic. *)
Record run_info : Type := MkRun {
  rn_status : task_status;
  rn_finishedAt : option Z;
  rn_updatedAt : Z;
  rn_parent : jsv;
  rn_completion : jsv;
  rn_admission : jsv
}.

(** A stored record, with the snapshot of the task. *)
Record execution : Type := MkExecution {
  ex_id : string;
  ex_kind : string;
  ex_cancellable : bool;
  ex_status : task_status;
  ex_result : jsv;
  ex_error : jsv;
  ex_finishedAt : option Z;
  ex_updatedAt : Z;
  ex_run : option run_info;
  ex_steps : list trace_item;
  ex_tries : list trace_item
}.

Inductive router_error : Type :=
| DuplicateTask
| InvalidCompletion (id : string)
| InvalidParent (id : string)
| NoDurableResult (id : string)
| OwnershipCycle
| InvalidAdmission (id : string)
| DuplicateAdmission (requestId : string)
| EmptyTaskId | EmptyKind | BadInput | EmptyRequestId
| Recovering
| TaskExists | RequestExists
| UnknownTask (id : string)
| OutOfFuel (* of the model *).

(** * What a store may contain *)

Definition run_of (e : execution) (f : run_info -> jsv) : jsv := match ex_run e with Some r => f r | None => VUndef end.

(** The last record of an identifier, as in the [Map] made of the records. *)
Definition stored_by_id (records : list execution) (id : string) : option execution :=
  List.find (fun e => bool_decide (ex_id e = id)) (rev records).

Definition completion_invalid (e : execution) (with_kind : bool) : bool :=
  let pending := run_of e rn_completion in
  let result := prop pending "result" in
  js_truthy pending &&
  (negb (match prop pending "version" with VNum 1 => true | _ => false end) || (with_kind && negb (js_truthy result)) ||
   negb (is_string (prop result "taskId") (ex_id e)) || (with_kind && negb (is_string (prop result "kind") (ex_kind e))) ||
   negb (is_string (prop result "status") "completed")).

(** The first loop of [validateTaskOwnership]. *)
Definition validate_record (records : list execution) (e : execution) : result router_error unit :=
  throw_if completion_invalid e true with InvalidCompletion (ex_id e) in
  let parent := run_of e rn_parent in
  if negb (js_truthy parent) then Ok tt
  else
    throw_if match prop parent "detached", prop parent "taskId" with
             | VBool _, VStr p => negb (bool_decide (is_Some (stored_by_id records p)))
             | _, _ => true
             end with InvalidParent (ex_id e) in
    throw_if negb (js_truthy (prop parent "detached")) && isSettledTaskStatus (ex_status e) && negb (js_truthy (ex_result e)) with NoDurableResult (ex_id e) in
    Ok tt.

Definition parent_of (records : list execution) (e : execution) : option execution :=
  let parent := run_of e rn_parent in if js_truthy parent then stored_by_id records (as_str (prop parent "taskId")) else None.

(** The climb of the second loop; the identifiers on the path are those being visited. *)
Fixpoint climb_owners (records : list execution) (fuel : nat) (verified : gset string) (path : list string) (ancestor : option execution) : result router_error (list string) :=
  match ancestor with
  | None => Ok path
  | Some e =>
      if bool_decide (ex_id e ∈ verified) then Ok path
      else
        throw_if bool_decide (ex_id e ∈ path) with OwnershipCycle in
        match fuel with
        | 0 => Err OwnershipCycle
        | S fuel => climb_owners records fuel verified (ex_id e :: path) (parent_of records e)
        end
  end.

Definition verify_owner (records : list execution) (verified : gset string) (e : execution) : result router_error (gset string) :=
  let* path := climb_owners records (S (length records)) verified [] (Some e) in Ok (list_to_set path ∪ verified).

Definition validateTaskOwnership (records : list execution) : result router_error unit :=
  throw_if negb (bool_decide (NoDup (map ex_id records))) with DuplicateTask in
  let* _ := fold_res (fun _ e => validate_record records e) tt records in
  let* _ := fold_res (verify_owner records) ∅ records in
  Ok tt.

(** * Tasks of a running router *)

(** [ownedChildren] is a set in the order of insertion, [signal.aborted] that of its
    controller, [scheduled] the identifier of its schedule. *)
Record task : Type := MkTask {
  t_exec : execution;
  t_ownedChildren : list string;
  t_aborted : bool;
  t_cancelling : bool;
  t_persistenceFailed : bool;
  t_scheduled : option string;
  t_committed : option execution
}.

(** [records] and [requests] are maps in the order of insertion; [writes] are the calls of
    [persist] that have not settled; [store] is the execution store. *)
Record router : Type := MkRouter {
  records : list (string * task);
  requests : list (string * string);
  writes : list (string * execution);
  store : gmap string execution;
  recoveryPending : bool
}.

Definition getRecord (s : router) (id : string) : result router_error task :=
  match assoc_get (records s) id with Some t => Ok t | None => Err (UnknownTask id) end.

Definition put (s : router) (id : string) (t : task) : router :=
  MkRouter (assoc_set (records s) id t) (requests s) (writes s) (store s) (recoveryPending s).

Definition t_status (t : task) : task_status := ex_status (t_exec t).

Definition with_exec (t : task) (e : execution) : task :=
  MkTask e (t_ownedChildren t) (t_aborted t) (t_cancelling t) (t_persistenceFailed t) (t_scheduled t) (t_committed t).

(** [controller.abort()] and [unschedule]. *)
Definition aborted (t : task) : task :=
  MkTask (t_exec t) (t_ownedChildren t) true (t_cancelling t) (t_persistenceFailed t) None (t_committed t).

Definition settle_last (items : list trace_item) (status : task_status) (finishedAt : Z) (error : jsv) : list trace_item :=
  match list.last items with
  | Some it => if bool_decide (it_status it = Running) then removelast items ++ [MkItem status (Some finishedAt) error] else items
  | None => items
  end.

(** [markExecutionSettled]; a live task has a run. *)
Definition markExecutionSettled (e : execution) (status : task_status) (error : jsv) (now : Z) : execution :=
  let finishedAt := default now (ex_finishedAt e) in
  MkExecution (ex_id e) (ex_kind e) (ex_cancellable e) (ex_status e) (ex_result e) (ex_error e) (ex_finishedAt e) (ex_updatedAt e)
    (option_map (fun r => MkRun status (Some finishedAt) finishedAt (rn_parent r) (rn_completion r) (rn_admission r)) (ex_run e))
    (settle_last (ex_steps e) status finishedAt error) (settle_last (ex_tries e) status finishedAt error).

(** The assignments to the snapshot that end a task. *)
Definition ended (e : execution) (status : task_status) (result error : jsv) (now : Z) : execution :=
  markExecutionSettled
    (MkExecution (ex_id e) (ex_kind e) (ex_cancellable e) status result (ex_error e) (Some now) (ex_updatedAt e) (ex_run e) (ex_steps e) (ex_tries e))
    status error now.

Definition with_error (e : execution) (error : jsv) : execution :=
  MkExecution (ex_id e) (ex_kind e) (ex_cancellable e) (ex_status e) (ex_result e) error (ex_finishedAt e) (ex_updatedAt e) (ex_run e) (ex_steps e) (ex_tries e).

(** [persistedRecord]: the execution with the time of the write. *)
Definition persistedRecord (e : execution) (now : Z) : execution :=
  MkExecution (ex_id e) (ex_kind e) (ex_cancellable e) (ex_status e) (ex_result e) (ex_error e) (ex_finishedAt e) now
    (option_map (fun r => MkRun (rn_status r) (rn_finishedAt r) now (rn_parent r) (rn_completion r) (rn_admission r)) (ex_run e)) (ex_steps e) (ex_tries e).

(** The live task after a write was asked for. *)
Definition touched (t : task) (now : Z) : task :=
  let e := persistedRecord (t_exec t) now in
  with_exec t (MkExecution (ex_id e) (ex_kind e) (ex_cancellable e) (ex_status e) (ex_result e) (ex_error e) (ex_finishedAt e)
                 (ex_updatedAt (t_exec t)) (ex_run e) (ex_steps e) (ex_tries e)).

Definition persist (s : router) (id : string) (t : task) (now : Z) : router :=
  let s := put s id (touched t now) in
  MkRouter (records s) (requests s) (writes s ++ [(id, persistedRecord (t_exec t) now)]) (store s) (recoveryPending s).

(** * Cancellation and shutdown *)

Definition interruptionError (message : string) : jsv := VObj [("code", VStr "TASK_INTERRUPTED"); ("message", VStr message); ("retryable", VBool true)].

Definition task_result (e : execution) (status : task_status) (error : jsv) : jsv :=
  VObj [("taskId", VStr (ex_id e)); ("kind", VStr (ex_kind e)); ("status", VStr (status_name status)); ("error", error)].

Definition cancelled_error : jsv := VObj [("code", VStr "TASK_CANCELLED"); ("message", VStr "Task was cancelled"); ("retryable", VBool true)].

Definition cancelling (t : task) : task :=
  MkTask (t_exec t) (t_ownedChildren t) (t_aborted t) true (t_persistenceFailed t) (t_scheduled t) (t_committed t).

(** An owner waits for its children before it ends. *)
Definition finishCancelled (s : router) (id : string) (t : task) (force : bool) (now : Z) : router :=
  if (negb force && isTerminal (t_status t)) || bool_decide (t_status t = Interrupted) || t_cancelling t then s
  else
    let t := cancelling t in
    match t_ownedChildren t with
    | _ :: _ => put s id t
    | [] => persist s id (with_exec t (ended (t_exec t) Cancelled (task_result (t_exec t) Cancelled cancelled_error) cancelled_error now)) now
    end.

Definition finishInterrupted (s : router) (id : string) (t : task) (now : Z) : router :=
  if isTerminal (t_status t) then s
  else
    let error := interruptionError "Task was interrupted by runtime shutdown; resume it to continue" in
    let t := aborted t in
    persist s id (with_exec t (ended (with_error (t_exec t) error) Interrupted (ex_result (t_exec t)) error now)) now.

(** The frames of the stack: [exiting] is [false] and [true]. *)
Inductive frame : Type := Enter (id : string) | Exit (id : string).

Definition all_known (s : router) (ids : list string) : result router_error unit :=
  fold_res (fun _ id => let* _ := getRecord s id in Ok tt) tt ids.

(** The loop of [cancelOwnedTree] and [interruptOwnedTree]: tasks that [skip] are passed over,
    with what they own; [act] is done on the way up.  The head of the list is the top of the
    stack. *)
Fixpoint walk (skip : task -> bool) (act : router -> string -> task -> router) (fuel : nat) (s : router) (visited : gset string) (stack : list frame) : result router_error router :=
  match stack with
  | [] => Ok s
  | f :: stack =>
      match fuel with
      | 0 => Err OutOfFuel
      | S fuel =>
          match f with
          | Exit id => let* t := getRecord s id in walk skip act fuel (if skip t then s else act s id t) visited stack
          | Enter id =>
              let* t := getRecord s id in
              if bool_decide (id ∈ visited) then walk skip act fuel s visited stack
              else
                let visited := {[id]} ∪ visited in
                if skip t then walk skip act fuel s visited stack
                else
                  let* _ := all_known s (rev (t_ownedChildren t)) in
                  walk skip act fuel s visited (map Enter (t_ownedChildren t) ++ Exit id :: stack)
          end
      end
  end.

(** Every task is entered once, and left once. *)
Definition walk_fuel (s : router) : nat := S (sum_list_with (fun kt => S (length (t_ownedChildren (snd kt)))) (records s)).

Definition skips_cancel (t : task) : bool := t_cancelling t || bool_decide (t_status t = Interrupted) || isSettledTaskStatus (t_status t).

Definition cancel_one (now : Z) (s : router) (id : string) (t : task) : router :=
  finishCancelled (put s id (aborted t)) id (aborted t) (bool_decide (t_status t = WaitingUser)) now.

Definition cancelOwnedTree (s : router) (id : string) (now : Z) : result router_error router :=
  walk skips_cancel (cancel_one now) (walk_fuel s) s ∅ [Enter id].

Definition skips_interrupt (t : task) : bool := bool_decide (t_status t = Interrupted) || isTerminal (t_status t).

Definition interruptOwnedTree (s : router) (id : string) (now : Z) : result router_error router :=
  walk skips_interrupt (fun s id t => finishInterrupted s id t now) (walk_fuel s) s ∅ [Enter id].

(** [cancel]: whether the task was cancelled, with its status. *)
Definition cancel (s : router) (id : string) (now : Z) : result router_error (router * bool * task_status) :=
  let* t := getRecord s id in
  let terminal := isTerminal (t_status t) && (negb (bool_decide (t_status t = WaitingUser)) || bool_decide (t_ownedChildren t = [])) in
  if terminal || bool_decide (t_status t = Interrupted) || negb (ex_cancellable (t_exec t)) then Ok (s, false, t_status t)
  else
    let* s := cancelOwnedTree s id now in
    let* t := getRecord s id in
    Ok (s, true, t_status t).

(** The loop of [finishStop] over the records. *)
Definition interrupt_all (s : router) (now : Z) : result router_error router :=
  fold_res (fun s id =>
    let* t := getRecord s id in
    if isTerminal (t_status t) || bool_decide (t_status t = Interrupted) then Ok s else interruptOwnedTree s id now) s (records s).*1.

(** * Submission *)

Record submission : Type := MkSubmission { sb_id : string; sb_kind : string; sb_inputIsObject : bool; sb_cancellable : bool }.

Definition validateTask (task : submission) : result router_error unit :=
  throw_if blank (chars (sb_id task)) with EmptyTaskId in
  throw_if blank (chars (sb_kind task)) with EmptyKind in
  throw_if negb (sb_inputIsObject task) with BadInput in
  Ok tt.

Definition validateRequestId (requestId : jsv) : result router_error string :=
  match requestId with VStr r => throw_if blank (chars r) with EmptyRequestId in Ok r | _ => Err EmptyRequestId end.

Definition own (t : task) (child : string) : task :=
  MkTask (t_exec t) (if bool_decide (child ∈ t_ownedChildren t) then t_ownedChildren t else t_ownedChildren t ++ [child])
    (t_aborted t) (t_cancelling t) (t_persistenceFailed t) (t_scheduled t) (t_committed t).

Definition admission_receipt (requestId taskId : string) (acceptedAt : Z) : jsv :=
  VObj [("version", VNum 1); ("requestId", VStr requestId); ("taskId", VStr taskId); ("acceptedAt", VNum acceptedAt)].

Definition parent_value (parent : option (string * bool)) : jsv :=
  match parent with Some (p, detached) => VObj [("taskId", VStr p); ("detached", VBool detached)] | None => VUndef end.

Definition new_task (task : submission) (requestId : string) (parent : option (string * bool)) (now : Z) : TaskRouter.task :=
  MkTask (MkExecution (sb_id task) (sb_kind task) (sb_cancellable task) Queued VUndef VUndef None now
            (Some (MkRun Queued None now (parent_value parent) VUndef (admission_receipt requestId (sb_id task) now))) [] [])
    [] false false false None None.

(** The owner that is unknown leaves the record behind. *)
Definition createTask (s : router) (task : submission) (requestId : string) (parent : option (string * bool)) (now : Z) : router * result router_error unit :=
  match (let* _ := validateTask task in
         let* _ := validateRequestId (VStr requestId) in
         throw_if recoveryPending s with Recovering in
         throw_if bool_decide (is_Some (assoc_get (records s) (sb_id task))) with TaskExists in
         throw_if bool_decide (is_Some (assoc_get (requests s) requestId)) with RequestExists in
         Ok tt) with
  | Err e => (s, Err e)
  | Ok _ =>
      let t := new_task task requestId parent now in
      let s := put s (sb_id task) t in
      let owned := match parent with
                   | Some (p, false) => let* o := getRecord s p in Ok (put s p (own o (sb_id task)))
                   | _ => Ok s
                   end in
      match owned with
      | Err e => (s, Err e)
      | Ok s =>
          let s := MkRouter (records s) (assoc_set (requests s) requestId (sb_id task)) (writes s) (store s) (recoveryPending s) in
          match getRecord s (sb_id task) with Ok t => (persist s (sb_id task) t now, Ok tt) | Err e => (s, Err e) end
      end
  end.

Definition submit (s : router) (task : submission) (requestId : string) (now : Z) : router * result router_error unit := createTask s task requestId None now.

(** * The writes behind the status *)

(** What an execution changes of the snapshot; [None] for a property the patch does not have. *)
Record patch : Type := MkPatch {
  pt_status : option task_status;
  pt_result : option jsv;
  pt_error : option jsv;
  pt_finishedAt : option (option Z)
}.

Definition patched (e : execution) (p : patch) (now : Z) : execution :=
  MkExecution (ex_id e) (ex_kind e) (ex_cancellable e) (default (ex_status e) (pt_status p)) (default (ex_result e) (pt_result p))
    (default (ex_error e) (pt_error p)) (default (ex_finishedAt e) (pt_finishedAt p)) (ex_updatedAt e)
    (option_map (fun r => MkRun (default (rn_status r) (pt_status p)) (rn_finishedAt r) now (rn_parent r) (rn_completion r) (rn_admission r)) (ex_run e))
    (ex_steps e) (ex_tries e).

Definition update (s : router) (id : string) (p : patch) (now : Z) : result router_error router :=
  let* t := getRecord s id in Ok (persist s id (with_exec t (patched (t_exec t) p now)) now).

(** The message of what the store threw, when it threw an [Error]. *)
Definition persistence_error (error : option string) : jsv :=
  let message := "Durable task state could not be saved" in
  VObj [("code", VStr "TASK_PERSISTENCE_FAILED"); ("message", VStr (match error with Some m => String.append message (String.append ": " m) | None => message end));
        ("retryable", VBool true)].

Definition failed_persistence (t : task) : task :=
  MkTask (t_exec t) (t_ownedChildren t) (t_aborted t) (t_cancelling t) true (t_scheduled t) (t_committed t).

Definition committed_as (t : task) (e : execution) : task :=
  MkTask (t_exec t) (t_ownedChildren t) (t_aborted t) (t_cancelling t) (t_persistenceFailed t) (t_scheduled t) (Some e).

(** The task shows what went wrong, which is in no store. *)
Definition finishPersistenceFailure (s : router) (id : string) (error : option string) (now : Z) : result router_error router :=
  let* t := getRecord s id in
  if t_persistenceFailed t then Ok s
  else
    let* s := fold_res (fun s child => let* _ := getRecord s child in cancelOwnedTree s child now) (put s id (failed_persistence t)) (t_ownedChildren t) in
    let* t := getRecord s id in
    let t := aborted t in
    let error := persistence_error error in
    let e := ended (with_error (t_exec t) error) Failed (task_result (t_exec t) Failed error) error now in
    Ok (put s id (committed_as (with_exec t e) (persistedRecord e now))).

(** The first write of the queue settles: it is done, or the store threw. *)
Definition settle_write (s : router) (thrown : option (option string)) (now : Z) : result router_error router :=
  match writes s with
  | [] => Ok s
  | (id, e) :: ws =>
      let s := MkRouter (records s) (requests s) ws (store s) (recoveryPending s) in
      let* t := getRecord s id in
      if t_persistenceFailed t then Ok s
      else
        match thrown with
        | None =>
            let s := put s id (committed_as t e) in
            Ok (MkRouter (records s) (requests s) (writes s) (<[id := e]> (store s)) (recoveryPending s))
        | Some error => finishPersistenceFailure s id error now
        end
  end.

(** [status]: the status and the result of the snapshot it returns. *)
Definition status (s : router) (id : string) : result router_error (task_status * jsv) :=
  let* t := getRecord s id in
  Ok (match t_committed t with Some e => (ex_status e, ex_result e) | None => (Created, VUndef) end).

(** * Recovery *)

Definition nullish (v : jsv) : bool := match v with VUndef | VNull => true | _ => false end.

(** The snapshot of a stored task: what was running is interrupted. *)
Definition normalized (e : execution) (now : Z) : execution :=
  let error := interruptionError "Task was interrupted before the previous runtime stopped" in
  if negb (isTerminal (ex_status e)) && negb (bool_decide (ex_status e = Interrupted)) then
    MkExecution (ex_id e) (ex_kind e) (ex_cancellable e) Interrupted (ex_result e) error (Some now) (ex_updatedAt e) (ex_run e) (ex_steps e) (ex_tries e)
  else if bool_decide (ex_status e = Interrupted) then
    MkExecution (ex_id e) (ex_kind e) (ex_cancellable e) Interrupted (ex_result e) (if nullish (ex_error e) then error else ex_error e)
      (Some (default now (ex_finishedAt e))) (ex_updatedAt e) (ex_run e) (ex_steps e) (ex_tries e)
  else e.

(** The run of the record, whose admission receipt old stores do not have. *)
Definition recovered_run (e : execution) (updatedAt : Z) : run_info :=
  let r := default (MkRun (ex_status e) (ex_finishedAt e) updatedAt VUndef VUndef VUndef) (ex_run e) in
  MkRun (rn_status r) (rn_finishedAt r) (rn_updatedAt r) (rn_parent r) (rn_completion r)
    (if nullish (rn_admission r) then admission_receipt (ex_id e) (ex_id e) updatedAt else rn_admission r).

Definition receipt_invalid (id : string) (receipt : jsv) : bool :=
  negb (match prop receipt "version" with VNum 1 => true | _ => false end) || negb (is_string (prop receipt "taskId") id) ||
  negb (is_number (prop receipt "acceptedAt")).

Definition with_run (e : execution) (r : run_info) : execution :=
  MkExecution (ex_id e) (ex_kind e) (ex_cancellable e) (ex_status e) (ex_result e) (ex_error e) (ex_finishedAt e) (ex_updatedAt e) (Some r) (ex_steps e) (ex_tries e).

(** The live execution of a stored record. *)
Definition recovered (stored : execution) (now : Z) : execution :=
  let e := normalized stored now in
  let r := recovered_run e (ex_updatedAt stored) in
  if bool_decide (ex_status e = Interrupted) then
    markExecutionSettled (with_run e (MkRun Interrupted (ex_finishedAt e) now (rn_parent r) (rn_completion r) (rn_admission r))) Interrupted (ex_error e) now
  else with_run e r.

Definition hydrate (now : Z) (s : router) (stored : execution) : result router_error router :=
  let id := ex_id stored in
  if bool_decide (is_Some (assoc_get (records s) id)) then Ok s
  else
    let r := recovered_run (normalized stored now) (ex_updatedAt stored) in
    throw_if completion_invalid stored false with InvalidCompletion id in
    throw_if receipt_invalid id (rn_admission r) with InvalidAdmission id in
    let* requestId := validateRequestId (prop (rn_admission r) "requestId") in
    throw_if bool_decide (is_Some (assoc_get (requests s) requestId)) with DuplicateAdmission requestId in
    let t := MkTask (recovered stored now) [] false false false None (Some stored) in
    let s := MkRouter (records s) (assoc_set (requests s) requestId id) (writes s) (store s) (recoveryPending s) in
    Ok (persist (put s id t) id t now).

(** The last loop of [finishRecovery]: an owned task joins its owner, unless both have ended. *)
Definition adopt (s : router) (id : string) : result router_error router :=
  let* t := getRecord s id in
  let parent := run_of (t_exec t) rn_parent in
  if negb (js_truthy parent) || js_truthy (prop parent "detached") then Ok s
  else
    let p := as_str (prop parent "taskId") in
    let* owner := getRecord s p in
    if bool_decide (t_status owner = Completed) && isSettledTaskStatus (t_status t) then Ok s
    else Ok (put s p (own owner id)).

Definition finishRecovery (now : Z) (s : router) (loaded : list execution) : result router_error router :=
  let* _ := validateTaskOwnership loaded in
  let* s := fold_res (hydrate now) s loaded in
  fold_res adopt s (records s).*1.

(** A router over what a store holds. *)
Definition new_router (stored : gmap string execution) : router := MkRouter [] [] [] stored true.

Definition recover (stored : gmap string execution) (loaded : list execution) (now : Z) : result router_error router :=
  let* s := finishRecovery now (new_router stored) loaded in
  Ok (MkRouter (records s) (requests s) (writes s) (store s) false).
