(* ===== verification/TaskRouterProofs.v ===== *)
(** What the task router promises of owned tasks: it starts exactly on stores whose ownership
    is a forest, with nothing in flight; a cancellation reaches every live task below and no
    other; a shutdown leaves nothing in flight; and a status it shows is in the store. *)

From S2P Require Import Prelude JsValue JsonText SessionEntries TaskRouter.

Abbreviation at_ s id := (assoc_get (records s) id).

Lemma getRecord_at s id t : at_ s id = Some t -> getRecord s id = Ok t.
Proof. unfold getRecord. by intros ->. Qed.

Lemma getRecord_inv s id t : getRecord s id = Ok t -> at_ s id = Some t.
Proof. unfold getRecord. destruct (at_ s id); [by intros [= ->]|done]. Qed.

Lemma at_put s id t id' : at_ (put s id t) id' = if decide (id' = id) then Some t else at_ s id'.
Proof. unfold put. simpl. destruct (decide _) as [->|?]; [apply assoc_get_set_eq|by apply assoc_get_set_ne]. Qed.

Lemma assoc_key {A} (l : list (string * A)) k : is_Some (assoc_get l k) <-> k ∈ l.*1.
Proof.
  split.
  - intros [v Hv%assoc_get_in]. apply list_elem_of_fmap. by exists (k, v).
  - intros ([k0 v] & -> & Hin)%list_elem_of_fmap. induction l as [|[k' v'] l IH]; [by inversion Hin|]. simpl.
    case_bool_decide as E; [by eexists|]. apply elem_of_cons in Hin as [[= -> ->]|Hin]; [done|by apply IH].
Qed.

Lemma at_key s id : is_Some (at_ s id) <-> id ∈ (records s).*1.
Proof. apply assoc_key. Qed.

(** Owned tasks are records. *)
Definition closed (s : router) : Prop := forall id t, at_ s id = Some t -> forall c, c ∈ t_ownedChildren t -> is_Some (at_ s c).

Lemma all_known_ok s ids : (forall id, id ∈ ids -> is_Some (at_ s id)) -> all_known s ids = Ok tt.
Proof.
  unfold all_known. induction ids as [|id ids IH]; intros H; [done|]. simpl. destruct (H id ltac:(by left)) as [t Ht]. rewrite (getRecord_at s id t Ht). simpl.
  apply IH. intros x Hx. apply H. by right.
Qed.

(** * Walks *)

Section Walk.
Context (skip : task -> bool) (act : router -> string -> task -> router) (upd : task -> task).
Hypothesis act_records : forall s id t, at_ s id = Some t -> skip t = false -> records (act s id t) = assoc_set (records s) id (upd t).
Context (asked : string -> task -> list (string * execution)).
Hypothesis act_store : forall s id t, skip t = false -> store (act s id t) = store s.
Hypothesis act_writes : forall s id t, at_ s id = Some t -> skip t = false -> writes (act s id t) = writes s ++ asked id t.
Hypothesis upd_children : forall t, t_ownedChildren (upd t) = t_ownedChildren t.

(** The tasks a walk gets to: along owned tasks none of which is skipped. *)
Inductive reaches (s : router) (root : string) : string -> Prop :=
| reach_root t : at_ s root = Some t -> skip t = false -> reaches s root root
| reach_child id t c tc : reaches s root id -> at_ s id = Some t -> c ∈ t_ownedChildren t -> at_ s c = Some tc -> skip tc = false -> reaches s root c.

Lemma reaches_live s root id : reaches s root id -> exists t, at_ s id = Some t /\ skip t = false.
Proof. destruct 1; eauto. Qed.

Definition exits (stack : list frame) : list string := omap (fun f => match f with Exit id => Some id | Enter _ => None end) stack.
Definition enters (stack : list frame) : list string := omap (fun f => match f with Enter id => Some id | Exit _ => None end) stack.

Lemma exits_app a b : exits (a ++ b) = exits a ++ exits b.
Proof. apply omap_app. Qed.
Lemma enters_app a b : enters (a ++ b) = enters a ++ enters b.
Proof. apply omap_app. Qed.
Lemma exits_enter ids : exits (map Enter ids) = [].
Proof. by induction ids. Qed.
Lemma enters_enter ids : enters (map Enter ids) = ids.
Proof. induction ids as [|id ids IH]; [done|]. simpl. by rewrite <- IH at 2. Qed.

(** What holds whenever the loop looks at its stack: the tasks in [did] have been acted on. *)
Record walking (s0 : router) (root : string) (cur : router) (visited did : gset string) (stack : list frame) : Prop := MkWalking {
  wk_keys : (records cur).*1 = (records s0).*1;
  wk_at : forall id t, at_ s0 id = Some t -> at_ cur id = Some (if decide (id ∈ did) then upd t else t);
  wk_store : store cur = store s0;
  wk_writes : exists more, writes cur = writes s0 ++ more /\ forall id t, at_ s0 id = Some t -> id ∈ did -> asked id t ⊆ more;
  wk_did : forall id, id ∈ did -> id ∈ visited /\ reaches s0 root id /\ id ∉ exits stack;
  wk_exits : forall id, id ∈ exits stack -> id ∈ visited /\ reaches s0 root id;
  wk_once : NoDup (exits stack);
  wk_enters : forall id, id ∈ enters stack -> exists t, at_ s0 id = Some t /\ (skip t = false -> reaches s0 root id);
  wk_root : root ∈ visited \/ root ∈ enters stack;
  wk_visited : forall id, id ∈ visited -> reaches s0 root id -> id ∈ did \/ id ∈ exits stack;
  wk_children : forall id t c, id ∈ visited -> reaches s0 root id -> at_ s0 id = Some t -> c ∈ t_ownedChildren t -> c ∈ visited \/ c ∈ enters stack;
}.

Definition unvisited (s0 : router) (visited : gset string) : nat :=
  sum_list_with (fun kt => if bool_decide (kt.1 ∈ visited) then 0 else S (length (t_ownedChildren (kt.2)))) (records s0).

Lemma unvisited_less s0 visited id t : at_ s0 id = Some t -> id ∉ visited ->
  unvisited s0 ({[id]} ∪ visited) + S (length (t_ownedChildren t)) <= unvisited s0 visited.
Proof.
  intros Hat%assoc_get_in Hnew. unfold unvisited. induction (records s0) as [|[k u] l IH]; [by inversion Hat|]. cbn [sum_list_with].
  assert (Hle : forall l : list (string * task), sum_list_with (fun kt => if bool_decide (kt.1 ∈ {[id]} ∪ visited) then 0 else S (length (t_ownedChildren (kt.2)))) l
    <= sum_list_with (fun kt => if bool_decide (kt.1 ∈ visited) then 0 else S (length (t_ownedChildren (kt.2)))) l).
  { clear. induction l as [|[k u] l IH]; [done|]. cbn [sum_list_with fst snd]. repeat case_bool_decide; try lia. set_solver. }
  apply elem_of_cons in Hat as [[= <- <-]|Hat].
  - cbn [fst snd]. rewrite bool_decide_eq_true_2 by set_solver. rewrite bool_decide_eq_false_2 by done. specialize (Hle l). simpl in *. lia.
  - specialize (IH Hat). cbn [fst snd]. repeat case_bool_decide; try lia. set_solver.
Qed.

Section Steps.
Context (s0 : router) (root : string).
Hypothesis Hclosed : closed s0.
Abbreviation walking := (walking s0 root).

Lemma exit_step cur visited did id stack : walking cur visited did (Exit id :: stack) ->
  exists t, at_ cur id = Some t /\ skip t = false /\ walking (act cur id t) visited ({[id]} ∪ did) stack.
Proof.
  intros [Hk Hat Hst Hwr Hdid Hex Hone Hen Hroot Hvis Hch]. destruct (Hex id ltac:(by left)) as [Hv Hr].
  destruct (reaches_live _ _ _ Hr) as (t & Ht & Hlive). assert (Hnot : id ∉ did) by (intros Hd; apply Hdid in Hd as (_ & _ & Hd); apply Hd; by left).
  pose proof (Hat id t Ht) as Hcur. rewrite decide_False in Hcur by done. exists t. split_and!; [done|done|].
  cbn in Hone. apply NoDup_cons in Hone as [Hout Hone]. constructor.
  - rewrite act_records, assoc_set_keys by done. rewrite decide_True; [done|]. apply at_key. eauto.
  - intros x u Hx. rewrite act_records by done. destruct (decide (x = id)) as [->|Hne].
    + rewrite assoc_get_set_eq, decide_True by set_solver. congruence.
    + rewrite assoc_get_set_ne, (Hat x u Hx) by done. by destruct (decide (x ∈ did)), (decide (x ∈ {[id]} ∪ did)); try set_solver.
  - by rewrite act_store.
  - destruct Hwr as (more & Hwr & Hasked). exists (more ++ asked id t). rewrite act_writes, Hwr, app_assoc by done. split; [done|].
    intros x u Hx [->%elem_of_singleton|Hd]%elem_of_union y Hy; apply elem_of_app; [right; congruence|left; by eapply Hasked].
  - intros x [Hx%elem_of_singleton|Hx]%elem_of_union; [by subst x|]. apply Hdid in Hx as (? & ? & Hx). split_and!; try done. intros Hin. apply Hx. by right.
  - intros x Hx. apply Hex. by right.
  - done.
  - done.
  - done.
  - intros x Hx Hrx. destruct (Hvis x Hx Hrx) as [?|[->|?]%elem_of_cons]; [left; set_solver|left; set_solver|by right].
  - done.
Qed.

Lemma enter_seen cur visited did id stack : walking cur visited did (Enter id :: stack) -> id ∈ visited -> walking cur visited did stack.
Proof.
  intros [Hk Hat Hst Hwr Hdid Hex Hone Hen Hroot Hvis Hch] Hv. constructor; try done.
  - intros x Hx. apply Hen. by right.
  - destruct Hroot as [?|[->|?]%elem_of_cons]; auto.
  - intros x t c Hx Hrx Ht Hc. destruct (Hch x t c Hx Hrx Ht Hc) as [?|[->|?]%elem_of_cons]; auto.
Qed.

Lemma enter_at cur visited did id stack : walking cur visited did (Enter id :: stack) -> id ∉ visited ->
  exists t, at_ s0 id = Some t /\ at_ cur id = Some t /\ (skip t = false -> reaches s0 root id).
Proof.
  intros Hw Hv. destruct (wk_enters _ _ _ _ _ _ Hw id ltac:(by left)) as (t & Ht & Hr). exists t. split_and!; try done.
  rewrite (wk_at _ _ _ _ _ _ Hw id t Ht). rewrite decide_False; [done|]. intros Hd. by apply (wk_did _ _ _ _ _ _ Hw) in Hd as [? _].
Qed.

Lemma enter_skip cur visited did id stack t : walking cur visited did (Enter id :: stack) -> at_ s0 id = Some t -> skip t = true ->
  walking cur ({[id]} ∪ visited) did stack.
Proof.
  intros [Hk Hat Hst Hwr Hdid Hex Hone Hen Hroot Hvis Hch] Ht Hs.
  assert (Hno : ~ reaches s0 root id) by (intros (u & Hu & Hl)%reaches_live; congruence). constructor; try done.
  - intros x Hx. apply Hdid in Hx as (? & ? & ?). split_and!; try done. set_solver.
  - intros x Hx. apply Hex in Hx as [? ?]. split; [set_solver|done].
  - intros x Hx. apply Hen. by right.
  - destruct Hroot as [?|[->|?]%elem_of_cons]; [left; set_solver|left; set_solver|by right].
  - intros x [->%elem_of_singleton|Hx]%elem_of_union Hrx; [done|by apply Hvis].
  - intros x u c [->%elem_of_singleton|Hx]%elem_of_union Hrx Hu Hc; [done|].
    destruct (Hch x u c Hx Hrx Hu Hc) as [?|[->|?]%elem_of_cons]; [left; set_solver|left; set_solver|by right].
Qed.

Lemma enter_live cur visited did id stack t : walking cur visited did (Enter id :: stack) -> id ∉ visited -> at_ s0 id = Some t -> skip t = false ->
  walking cur ({[id]} ∪ visited) did (map Enter (t_ownedChildren t) ++ Exit id :: stack).
Proof.
  intros Hw Hv Ht Hs. pose proof Hw as [Hk Hat Hst Hwr Hdid Hex Hone Hen Hroot Hvis Hch].
  destruct (Hen id ltac:(by left)) as (u & Hu & Hr). assert (u = t) as -> by congruence. specialize (Hr Hs).
  constructor; rewrite ?exits_app, ?enters_app, ?exits_enter, ?enters_enter; cbn; try done.
  - intros x Hx. apply Hdid in Hx as (? & ? & ?). split_and!; [set_solver|done|]. intros [->|?]%elem_of_cons; done.
  - intros x [->|Hx]%elem_of_cons; [split; [set_solver|done]|]. apply Hex in Hx as [? ?]. split; [set_solver|done].
  - apply NoDup_cons. split; [|done]. intros Hin. apply Hv. by apply Hex.
  - intros x [Hx|Hx]%elem_of_app; [|apply Hen; by right]. destruct (Hclosed id t Ht x Hx) as [tx Htx]. exists tx. split; [done|]. intros Hlx. by eapply reach_child.
  - destruct Hroot as [?|[->|?]%elem_of_cons]; [left; set_solver|left; set_solver|]. right. apply elem_of_app. by right.
  - intros x [->%elem_of_singleton|Hx]%elem_of_union Hrx; [right; by left|]. destruct (Hvis x Hx Hrx); [by left|]. right. by right.
  - intros x u c Hx Hrx Hux Hc. rewrite elem_of_app. apply elem_of_union in Hx as [->%elem_of_singleton|Hx]; [right; left; congruence|].
    destruct (Hch x u c Hx Hrx Hux Hc) as [?|[->|?]%elem_of_cons]; [left; set_solver|left; set_solver|right; by right].
Qed.

(** Enough fuel for every state of the loop. *)
Lemma walk_walking fuel : forall cur visited did stack, walking cur visited did stack -> length stack + unvisited s0 visited <= fuel ->
  exists s' visited' did', walk skip act fuel cur visited stack = Ok s' /\ walking s' visited' did' [].
Proof.
  induction fuel as [|fuel IH]; intros cur visited did [|f stack] Hw Hfuel; cbn [walk]; try (by exists cur, visited, did).
  { cbn in Hfuel. lia. }
  cbn [length] in Hfuel. destruct f as [id|id].
  - destruct (decide (id ∈ visited)) as [Hv|Hv].
    + destruct (wk_enters _ _ _ _ _ _ Hw id ltac:(by left)) as (t & Ht & _). rewrite (getRecord_at cur id _ (wk_at _ _ _ _ _ _ Hw id t Ht)).
      cbn [bind_res]. rewrite bool_decide_eq_true_2 by done. apply (IH _ _ did); [by eapply enter_seen|lia].
    + destruct (enter_at _ _ _ _ _ Hw Hv) as (t & Ht & Hcur & _). rewrite (getRecord_at cur id t Hcur). cbn [bind_res].
      rewrite bool_decide_eq_false_2 by done. pose proof (unvisited_less s0 visited id t Ht Hv) as Hless. destruct (skip t) eqn:Hs.
      * apply (IH _ _ did); [by eapply enter_skip|lia].
      * rewrite all_known_ok.
        -- cbn [bind_res]. apply (IH _ _ did); [by apply enter_live|]. rewrite length_app, length_map. cbn [length]. lia.
        -- intros c Hc%list_elem_of_In. apply in_rev, list_elem_of_In in Hc. apply at_key. rewrite (wk_keys _ _ _ _ _ _ Hw). apply at_key. by eapply Hclosed.
  - destruct (exit_step _ _ _ _ _ Hw) as (t & Ht & Hs & Hw'). rewrite (getRecord_at cur id t Ht). cbn [bind_res]. rewrite Hs.
    eapply IH; [exact Hw'|lia].
Qed.

(** A walk acts once on each task it reaches, and on no other. *)
Lemma walk_reaches t : at_ s0 root = Some t ->
  exists s', walk skip act (walk_fuel s0) s0 ∅ [Enter root] = Ok s' /\ (records s').*1 = (records s0).*1 /\ store s' = store s0 /\
    (exists more, writes s' = writes s0 ++ more /\ forall id u, at_ s0 id = Some u -> reaches s0 root id -> asked id u ⊆ more) /\
    (forall id, reaches s0 root id \/ ~ reaches s0 root id) /\
    forall id u, at_ s0 id = Some u -> (reaches s0 root id -> at_ s' id = Some (upd u)) /\ (~ reaches s0 root id -> at_ s' id = Some u).
Proof.
  intros Hroot. assert (Hw : walking s0 ∅ ∅ [Enter root]).
  { constructor; cbn.
    - done.
    - intros id u Hu. by rewrite decide_False by set_solver.
    - done.
    - exists []. rewrite app_nil_r. split; [done|]. intros id u _ Hid. set_solver.
    - intros id Hid. set_solver.
    - intros id Hid. by inversion Hid.
    - constructor.
    - intros id ->%list_elem_of_singleton. exists t. split; [done|]. by apply reach_root.
    - right. by left.
    - intros id Hid. set_solver.
    - intros id u c Hid. set_solver. }
  destruct (walk_walking (walk_fuel s0) _ _ _ _ Hw) as (s' & visited & did & -> & [Hk Hat Hst Hwr Hdid _ _ _ Hr Hvis Hch]).
  { unfold walk_fuel, unvisited. apply le_n_S. generalize (records s0). clear. induction l as [|kt l IH]; [done|]. cbn [sum_list_with].
    rewrite bool_decide_eq_false_2 by set_solver. lia. }
  exists s'. assert (Hall : forall id, reaches s0 root id -> id ∈ visited).
  { induction 1 as [u Hu Hs|id u c tc Hri IH Hu Hc Htc Hs]; [by destruct Hr as [?|Hn]; [|by inversion Hn]|].
    destruct (Hch id u c IH Hri Hu Hc) as [?|Hn]; [done|by inversion Hn]. }
  assert (Hdone : forall id, reaches s0 root id -> id ∈ did) by (intros id Hri; destruct (Hvis id (Hall id Hri) Hri) as [?|Hn]; [done|by inversion Hn]).
  split_and!; [done|done|done| | |].
  { destruct Hwr as (more & ? & Hasked). exists more. split; [done|]. intros id u Hu Hri. apply (Hasked id u Hu). by apply Hdone. }
  { intros id. destruct (decide (id ∈ did)) as [Hd|Hd]; [left; by apply Hdid in Hd as (_ & ? & _)|right; auto]. }
  intros id u Hu. split; intros Hri.
  - rewrite (Hat id u Hu), decide_True; [done|]. by apply Hdone.
  - rewrite (Hat id u Hu), decide_False; [done|]. intros Hd. by apply Hdid in Hd as (_ & ? & _).
Qed.
End Steps.
End Walk.

Lemma assoc_set_twice {A} (l : list (string * A)) k v w : assoc_set (assoc_set l k v) k w = assoc_set l k w.
Proof.
  induction l as [|[k' u] l IH]; simpl; [by rewrite bool_decide_eq_true_2|]. case_bool_decide as E; simpl.
  - by rewrite bool_decide_eq_true_2.
  - by rewrite bool_decide_eq_false_2, IH.
Qed.

(** * Cancellation *)

(** A task that was cancelled, at once or when what it owns has ended. *)
Definition cancelled_now (now : Z) (t : task) : task :=
  let t := cancelling (aborted t) in
  with_exec t (ended (t_exec t) Cancelled (task_result (t_exec t) Cancelled cancelled_error) cancelled_error now).

Definition after_cancel (now : Z) (t : task) : task :=
  match t_ownedChildren t with [] => touched (cancelled_now now t) now | _ => cancelling (aborted t) end.

Definition cancel_writes (now : Z) (id : string) (t : task) : list (string * execution) :=
  match t_ownedChildren t with [] => [(id, persistedRecord (t_exec (cancelled_now now t)) now)] | _ => [] end.

Lemma cancel_one_spec now s id t : skips_cancel t = false ->
  store (cancel_one now s id t) = store s /\ records (cancel_one now s id t) = assoc_set (records s) id (after_cancel now t) /\ writes (cancel_one now s id t) = writes s ++ cancel_writes now id t.
Proof.
  unfold skips_cancel. intros [[Hc Hi]%orb_false_iff Hs]%orb_false_iff. unfold cancel_one, finishCancelled, after_cancel, cancel_writes.
  change (t_status (aborted t)) with (t_status t). change (t_cancelling (aborted t)) with (t_cancelling t).
  assert (Hf : negb (bool_decide (t_status t = WaitingUser)) && isTerminal (t_status t) = false) by (by destruct (t_status t)).
  rewrite Hf, Hi, Hc. cbn [orb]. change (t_ownedChildren (cancelling (aborted t))) with (t_ownedChildren t).
  destruct (t_ownedChildren t); cbn; rewrite assoc_set_twice; [done|]. by rewrite app_nil_r.
Qed.

Lemma after_cancel_children now t : t_ownedChildren (after_cancel now t) = t_ownedChildren t.
Proof. unfold after_cancel. by destruct (t_ownedChildren t) eqn:E; cbn. Qed.

(** A live task of the tree below [root], along live tasks. *)
Abbreviation live_below := (reaches skips_cancel).

Lemma cancelOwnedTree_spec s id t now : closed s -> at_ s id = Some t ->
  exists s', cancelOwnedTree s id now = Ok s' /\ (records s').*1 = (records s).*1 /\ store s' = store s /\
    (exists more, writes s' = writes s ++ more /\ forall k u, at_ s k = Some u -> live_below s id k -> cancel_writes now k u ⊆ more) /\
    (forall k, live_below s id k \/ ~ live_below s id k) /\
    forall k u, at_ s k = Some u -> (live_below s id k -> at_ s' k = Some (after_cancel now u)) /\ (~ live_below s id k -> at_ s' k = Some u).
Proof.
  intros Hc Ht. apply (walk_reaches skips_cancel (cancel_one now) (after_cancel now)) with (t := t); try done.
  - intros s1 k u _ Hs. by apply cancel_one_spec.
  - intros s1 k u Hs. by apply cancel_one_spec.
  - intros s1 k u _ Hs. by apply cancel_one_spec.
  - apply after_cancel_children.
Qed.

(** What a cancelled task has become: nothing runs for it any more; it has ended, and the end
    is being written, or it waits for what it owns. *)
Record cancelled_from (s' : router) (k : string) (u u' : task) : Prop := MkCancelledFrom {
  cf_aborted : t_aborted u' = true;
  cf_unscheduled : t_scheduled u' = None;
  cf_cancelling : t_cancelling u' = true;
  cf_children : t_ownedChildren u' = t_ownedChildren u;
  cf_leaf : t_ownedChildren u = [] -> t_status u' = Cancelled /\ exists e, (k, e) ∈ writes s' /\ ex_status e = Cancelled;
  cf_owner : t_ownedChildren u <> [] -> t_exec u' = t_exec u;
}.

(** C13: a cancellation reaches every live task below, and no other.  On a router whose owned
    tasks are records, [cancel] ends; it refuses a task that has ended, was interrupted or may
    not be cancelled, and changes nothing; otherwise the task and every task it owns, directly
    or through tasks that are live, is aborted and taken from the scheduler, and those that own
    nothing are cancelled and written as such, while an owner waits for them; every other task
    is as it was. *)
Theorem cancel_reaches_the_owned_tree s id t now : closed s -> at_ s id = Some t ->
  (exists s' st, cancel s id now = Ok (s', true, st) /\ ex_cancellable (t_exec t) = true /\ (records s').*1 = (records s).*1 /\
     forall k u, at_ s k = Some u ->
       (live_below s id k -> exists u', at_ s' k = Some u' /\ cancelled_from s' k u u') /\ (~ live_below s id k -> at_ s' k = Some u)) \/
  (cancel s id now = Ok (s, false, t_status t) /\ (ex_cancellable (t_exec t) = false \/ t_status t = Interrupted \/ isTerminal (t_status t) = true)).
Proof.
  intros Hc Ht. unfold cancel. rewrite (getRecord_at s id t Ht). cbn [bind_res].
  destruct (isTerminal (t_status t) && _) eqn:E1; cbn [orb]; [right; split; [done|]; right; right; by apply andb_true_iff in E1 as [? _]|].
  destruct (bool_decide (t_status t = Interrupted)) eqn:E2; cbn [orb]; [apply bool_decide_eq_true in E2; right; split; [done|auto]|]. destruct (ex_cancellable (t_exec t)) eqn:E3; cbn [negb]; [left|right; split; [done|auto]].
  destruct (cancelOwnedTree_spec s id t now Hc Ht) as (s' & -> & Hk & _ & (more & Hw & Hmore) & _ & Hat). cbn [bind_res].
  assert (Hid : is_Some (at_ s' id)) by (apply at_key; rewrite Hk; apply at_key; eauto). destruct Hid as [t' Ht']. rewrite (getRecord_at s' id t' Ht'). cbn [bind_res].
  exists s', (t_status t'). split_and!; try done. intros k u Hu. destruct (Hat k u Hu) as [H1 H2]. split; [|done]. intros Hr.
  exists (after_cancel now u). split; [by apply H1|]. specialize (Hmore k u Hu Hr). unfold cancel_writes in Hmore. unfold after_cancel in *.
  destruct (t_ownedChildren u) eqn:Eu; constructor; cbn; try done; try (intros ?; congruence).
  intros _. split; [done|]. eexists. split; [rewrite Hw; apply elem_of_app; right; apply Hmore; by left|done].
Qed.

(** * Shutdown *)

Definition shutdown_error : jsv := interruptionError "Task was interrupted by runtime shutdown; resume it to continue".

Definition interrupted_now (now : Z) (t : task) : task :=
  with_exec (aborted t) (ended (with_error (t_exec t) shutdown_error) Interrupted (ex_result (t_exec t)) shutdown_error now).

Definition after_interrupt (now : Z) (t : task) : task := touched (interrupted_now now t) now.

Definition interrupt_writes (now : Z) (id : string) (t : task) : list (string * execution) := [(id, persistedRecord (t_exec (interrupted_now now t)) now)].

Lemma interrupt_one_spec now s id t : skips_interrupt t = false ->
  store (finishInterrupted s id t now) = store s /\ records (finishInterrupted s id t now) = assoc_set (records s) id (after_interrupt now t) /\
  writes (finishInterrupted s id t now) = writes s ++ interrupt_writes now id t.
Proof. unfold skips_interrupt. intros [_ Ht]%orb_false_iff. unfold finishInterrupted. by rewrite Ht. Qed.

Lemma interruptOwnedTree_spec s id t now : closed s -> at_ s id = Some t ->
  exists s', interruptOwnedTree s id now = Ok s' /\ (records s').*1 = (records s).*1 /\ store s' = store s /\
    (exists more, writes s' = writes s ++ more /\ forall k u, at_ s k = Some u -> reaches skips_interrupt s id k -> interrupt_writes now k u ⊆ more) /\
    (forall k, reaches skips_interrupt s id k \/ ~ reaches skips_interrupt s id k) /\
    forall k u, at_ s k = Some u -> (reaches skips_interrupt s id k -> at_ s' k = Some (after_interrupt now u)) /\ (~ reaches skips_interrupt s id k -> at_ s' k = Some u).
Proof.
  intros Hc Ht. apply (walk_reaches skips_interrupt _ (after_interrupt now)) with (t := t); try done.
  - intros s1 k u _ Hs. by apply interrupt_one_spec.
  - intros s1 k u Hs. by apply interrupt_one_spec.
  - intros s1 k u _ Hs. by apply interrupt_one_spec.
Qed.

Lemma skips_interrupted now t : skips_interrupt (after_interrupt now t) = true.
Proof. unfold skips_interrupt. by rewrite bool_decide_eq_true_2. Qed.

(** A shutdown under way: a task is as it was, or interrupted and written as such. *)
Record interrupting (now : Z) (s cur : router) : Prop := MkInterrupting {
  ig_keys : (records cur).*1 = (records s).*1;
  ig_store : store cur = store s;
  ig_tasks : exists more, writes cur = writes s ++ more /\
    forall k u, at_ s k = Some u ->
      at_ cur k = Some u \/ (skips_interrupt u = false /\ at_ cur k = Some (after_interrupt now u) /\ interrupt_writes now k u ⊆ more);
}.

Lemma interrupting_closed now s cur : closed s -> interrupting now s cur -> closed cur.
Proof.
  intros Hc [Hk _ (more & _ & Ht)] id t Hat c Hin. assert (Hid : is_Some (at_ s id)) by (apply at_key; rewrite <- Hk; apply at_key; eauto).
  destruct Hid as [u Hu]. assert (Hch : t_ownedChildren t = t_ownedChildren u).
  { destruct (Ht id u Hu) as [E|(_ & E & _)]; rewrite E in Hat; by injection Hat as <-. }
  apply at_key. rewrite Hk. apply at_key. rewrite Hch in Hin. by eapply Hc.
Qed.

Lemma interrupting_step now s cur id t : closed s -> interrupting now s cur -> at_ cur id = Some t -> skips_interrupt t = false ->
  exists s', interruptOwnedTree cur id now = Ok s' /\ interrupting now s s' /\
    (forall k v, at_ s' k = Some v -> skips_interrupt v = true \/ (k <> id /\ at_ cur k = Some v)).
Proof.
  intros Hc Hi Hat Hlive. pose proof (interrupting_closed now s cur Hc Hi) as Hcc.
  destruct (interruptOwnedTree_spec cur id t now Hcc Hat) as (s' & Hrun & Hk & Hst & (more & Hw & Hmore) & Hdec & Htasks). exists s'. split; [done|].
  pose proof Hi as [Hki Hsi (more0 & Hw0 & Ht0)]. split; [constructor|].
  - congruence.
  - congruence.
  - exists (more0 ++ more). split; [by rewrite Hw, Hw0, app_assoc|]. intros k u Hu. destruct (Ht0 k u Hu) as [E|(Hs & E & Hin)].
    + destruct (Htasks k u E) as [H1 H2]. destruct (Hdec k) as [Hr|Hr]; [right|left; by apply H2]. split_and!; [|by apply H1|].
      * destruct (reaches_live _ _ _ _ Hr) as (v & Hv & ?). congruence.
      * intros x Hx. apply elem_of_app. right. by apply (Hmore k u E Hr).
    + right. destruct (Htasks k _ E) as [_ H2]. split_and!; [done| |].
      * apply H2. intros (v & Hv & Hlv)%reaches_live. rewrite E in Hv. injection Hv as <-. by rewrite skips_interrupted in Hlv.
      * intros x Hx. apply elem_of_app. left. by apply Hin.
  - intros k v Hv. assert (Hck : is_Some (at_ cur k)) by (apply at_key; rewrite <- Hk; apply at_key; eauto). destruct Hck as [u Hu].
    destruct (Htasks k u Hu) as [H1 H2]. destruct (Hdec k) as [Hr|Hr].
    + rewrite (H1 Hr) in Hv. injection Hv as <-. left. apply skips_interrupted.
    + right. rewrite (H2 Hr) in Hv. injection Hv as <-. split; [|done]. intros ->. apply Hr. exact (reach_root skips_interrupt cur id t Hat Hlive).
Qed.

Lemma interrupt_loop now s ids : closed s -> forall cur, interrupting now s cur -> (forall id, id ∈ ids -> is_Some (at_ s id)) ->
  exists s', fold_res (fun s id =>
      let* t := getRecord s id in
      if isTerminal (t_status t) || bool_decide (t_status t = Interrupted) then Ok s else interruptOwnedTree s id now) cur ids = Ok s' /\
    interrupting now s s' /\ (forall k v, at_ s' k = Some v -> skips_interrupt v = true \/ (k ∉ ids /\ at_ cur k = Some v)).
Proof.
  intros Hc. induction ids as [|id ids IH]; intros cur Hi Hids; cbn [fold_res].
  { exists cur. split_and!; try done. intros k v Hv. right. split; [by intros Hn; inversion Hn|done]. }
  destruct (Hids id ltac:(by left)) as [u Hu]. assert (Hcur : is_Some (at_ cur id)) by (apply at_key; rewrite (ig_keys _ _ _ Hi); apply at_key; eauto).
  destruct Hcur as [t Ht]. rewrite (getRecord_at cur id t Ht). cbn [bind_res].
  assert (Hskip : isTerminal (t_status t) || bool_decide (t_status t = Interrupted) = skips_interrupt t) by apply orb_comm. rewrite Hskip.
  destruct (skips_interrupt t) eqn:Es.
  - cbn [bind_res]. destruct (IH cur Hi ltac:(intros x Hx; apply Hids; by right)) as (s' & Hrun & Hi' & Hend). exists s'. split_and!; try done.
    intros k v Hv. destruct (Hend k v Hv) as [?|[Hn Hv']]; [by left|]. destruct (decide (k = id)) as [->|Hne]; [left; congruence|].
    right. split; [|done]. intros [?|?]%elem_of_cons; done.
  - destruct (interrupting_step now s cur id t Hc Hi Ht Es) as (s1 & -> & Hi1 & Hs1). cbn [bind_res].
    destruct (IH s1 Hi1 ltac:(intros x Hx; apply Hids; by right)) as (s' & Hrun & Hi' & Hend). exists s'. split_and!; try done.
    intros k v Hv. destruct (Hend k v Hv) as [?|[Hn Hv']]; [by left|]. destruct (Hs1 k v Hv') as [?|[Hne Hv1]]; [by left|].
    right. split; [|done]. intros [?|?]%elem_of_cons; done.
Qed.

(** C32: a shutdown leaves nothing in flight.  The loop of [stop] ends; afterwards every task
    has ended or is interrupted: those that had ended, or were interrupted before, are as they
    were, every other one is aborted, taken from the scheduler, and its interruption is being
    written, so that the next runtime can resume it. *)
Theorem shutdown_leaves_nothing_in_flight s now : closed s ->
  exists s', interrupt_all s now = Ok s' /\ (records s').*1 = (records s).*1 /\ store s' = store s /\
    forall k u, at_ s k = Some u ->
      if skips_interrupt u then at_ s' k = Some u
      else exists u' e, at_ s' k = Some u' /\ t_status u' = Interrupted /\ t_aborted u' = true /\ t_scheduled u' = None /\
             t_ownedChildren u' = t_ownedChildren u /\ (k, e) ∈ writes s' /\ ex_status e = Interrupted.
Proof.
  intros Hc. destruct (interrupt_loop now s (records s).*1 Hc s) as (s' & Hrun & [Hk Hst (more & Hw & Ht)] & Hend).
  - constructor; [done|done|]. exists []. rewrite app_nil_r. split; [done|]. intros k u Hu. by left.
  - intros id Hid. by apply at_key.
  - exists s'. split_and!; [exact Hrun|done|done|]. intros k u Hu. destruct (Ht k u Hu) as [E|(Hs & E & Hin)].
    + destruct (skips_interrupt u) eqn:Es; [done|]. destruct (Hend k u E) as [?|[Hn _]]; [congruence|]. destruct Hn. apply at_key. eauto.
    + rewrite Hs. eexists _, _. split_and!; [exact E|done..| |].
      * rewrite Hw. apply elem_of_app. right. apply Hin. by left.
      * done.
Qed.

(** * Ownership is a forest *)

Section Forest.
Context (l : list execution).
Hypothesis Hnd : NoDup (map ex_id l).

Lemma stored_some id e : stored_by_id l id = Some e <-> e ∈ l /\ ex_id e = id.
Proof.
  unfold stored_by_id. split.
  - intros H. apply find_some in H as [H1 H2]. apply in_rev, list_elem_of_In in H1. by apply bool_decide_eq_true in H2.
  - intros [He Hid]. destruct (List.find _ (rev l)) as [e'|] eqn:E.
    + apply find_some in E as [H1 H2]. apply in_rev, list_elem_of_In in H1. apply bool_decide_eq_true in H2. f_equal.
      apply list_elem_of_lookup in H1 as [i Hi], He as [j Hj]. assert (i = j) as ->; [|congruence].
      eapply (NoDup_lookup (map ex_id l)); [done| |]; change (map ex_id l) with (ex_id <$> l); rewrite list_lookup_fmap; [by rewrite Hi|]. rewrite Hj. simpl. congruence.
    + eapply find_none in E; [|apply in_rev; rewrite rev_involutive; by apply list_elem_of_In]. simpl in E. by rewrite bool_decide_eq_true_2 in E.
Qed.

Lemma stored_in id : is_Some (stored_by_id l id) <-> id ∈ map ex_id l.
Proof.
  split.
  - intros [e [He <-]%stored_some]. by apply list_elem_of_fmap_2.
  - intros (e & -> & He)%list_elem_of_fmap. exists e. by apply stored_some.
Qed.

Lemma parent_in e p : parent_of l e = Some p -> p ∈ l.
Proof. unfold parent_of. destruct (js_truthy _); [|done]. by intros [? _]%stored_some. Qed.

(** The owners of a task end after [n] of them. *)
Inductive rooted_in : execution -> nat -> Prop :=
| rooted_here e : parent_of l e = None -> rooted_in e 0
| rooted_above e p n : parent_of l e = Some p -> rooted_in p n -> rooted_in e (S n).

Lemma rooted_det e n m : rooted_in e n -> rooted_in e m -> n = m.
Proof. intros H. revert m. induction H as [e He|e p n He _ IH]; intros m Hm; inversion Hm; subst; try congruence. f_equal. apply IH. congruence. Qed.

Definition rooted (e : execution) : Prop := exists n, rooted_in e n.

Lemma rooted_up e p : parent_of l e = Some p -> rooted e <-> rooted p.
Proof.
  intros Hp. split.
  - intros [n Hn]. inversion Hn; subst; [congruence|]. eexists. by replace p with p0 by congruence.
  - intros [n Hn]. eexists. by eapply rooted_above.
Qed.

Lemma same_execution e e' : e ∈ l -> e' ∈ l -> ex_id e = ex_id e' -> e = e'.
Proof. intros He He' Hid. assert (Some e = Some e') as [=]; [|done]. rewrite <- (proj2 (stored_some (ex_id e) e)) by done. by rewrite (proj2 (stored_some (ex_id e) e')). Qed.

Lemma owners_sound fuel : forall verified path anc path',
  climb_owners l fuel verified path anc = Ok path' -> (forall e, e ∈ l -> ex_id e ∈ verified -> rooted e) -> (forall e, anc = Some e -> e ∈ l) ->
  (forall e, anc = Some e -> rooted e) /\ exists new, path' = new ++ path /\ (forall e, e ∈ l -> ex_id e ∈ new -> rooted e) /\
    (forall e, anc = Some e -> ex_id e ∈ new \/ ex_id e ∈ verified).
Proof.
  assert (Hnone : forall path path', @Ok router_error _ path = Ok path' -> (forall e : execution, None = Some e -> rooted e) /\ exists new, path' = new ++ path /\ (forall e, e ∈ l -> ex_id e ∈ new -> rooted e) /\
    (forall verified e, None = Some e -> ex_id e ∈ new \/ ex_id e ∈ (verified : gset string))).
  { intros path path' [= <-]. split; [done|]. exists []. split_and!; try done. intros e _ Hn. by inversion Hn. }
  induction fuel as [|fuel IH]; intros verified path [e|] path' H Hv Hin; cbn [climb_owners] in H;
    try (destruct (Hnone _ _ H) as (? & new & ? & ? & ?); split; [done|]; exists new; split_and!; done).
  - case_bool_decide as E; [|by case_bool_decide]. injection H as <-. split; [intros e' [= <-]; apply Hv; auto|].
    exists []. split_and!; [done| |intros e' [= <-]; by right]. intros e' _ Hn. by inversion Hn.
  - case_bool_decide as E.
    { injection H as <-. split; [intros e' [= <-]; apply Hv; auto|]. exists []. split_and!; [done| |intros e' [= <-]; by right]. intros e' _ Hn. by inversion Hn. }
    case_bool_decide as E2; [done|]. destruct (IH _ _ _ _ H Hv (parent_in e)) as (Hr & new & -> & Hnew & _).
    assert (Hre : rooted e). { destruct (parent_of l e) as [p|] eqn:Ep; [apply (rooted_up e p Ep); by apply Hr|exists 0; by constructor]. }
    split; [by intros e' [= <-]|]. exists (new ++ [ex_id e]). rewrite <- app_assoc. split_and!; [done| |intros e' [= <-]; left; apply elem_of_app; right; by left].
    intros e' He' [Hn|Hn%list_elem_of_singleton]%elem_of_app; [by apply Hnew|]. by rewrite (same_execution e' e He' (Hin e eq_refl) Hn).
Qed.

(** What is on the path is owned, through others, by the record in hand. *)
Lemma owners_complete fuel : forall verified path anc n, length l < fuel + length path -> NoDup path -> (forall id, id ∈ path -> id ∈ map ex_id l) ->
  (forall e, anc = Some e -> e ∈ l /\ rooted_in e n /\ forall e', e' ∈ l -> ex_id e' ∈ path -> exists m, n < m /\ rooted_in e' m) ->
  is_ok (climb_owners l fuel verified path anc) = true.
Proof.
  assert (Hpath : forall path, NoDup path -> (forall id, id ∈ path -> id ∈ map ex_id l) -> length path <= length l).
  { intros path Hp Hsub. rewrite <- (length_map ex_id l). apply submseteq_length, NoDup_submseteq; [done|]. intros id Hid. by apply Hsub. }
  induction fuel as [|fuel IH]; intros verified path [e|] n Hlen Hp Hsub Hanc; cbn [climb_owners]; try done.
  { specialize (Hpath path Hp Hsub). cbn in Hlen. lia. }
  destruct (Hanc e eq_refl) as (He & Hr & Hbelow). case_bool_decide as E1; [done|]. case_bool_decide as E2.
  { destruct (Hbelow e He E2) as (m & Hm & Hrm). pose proof (rooted_det _ _ _ Hr Hrm). lia. }
  apply (IH _ _ _ (pred n)).
  - cbn [length]. lia.
  - by apply NoDup_cons.
  - intros id [->|Hid]%elem_of_cons; [by apply list_elem_of_fmap_2|by apply Hsub].
  - intros p Hp'. split; [by eapply parent_in|]. inversion Hr as [e0 Hn|e0 p0 k Hp0 Hk]; subst; [congruence|]. assert (p0 = p) as -> by congruence.
    split; [done|]. intros e' He' [Hid|Hid]%elem_of_cons.
    + rewrite (same_execution e' e He' He Hid). exists (S k). split; [simpl; lia|done].
    + destruct (Hbelow e' He' Hid) as (m & Hm & Hrm). exists m. split; [simpl; lia|done].
Qed.

Lemma owners_verified : forall es verified, (forall e, e ∈ es -> e ∈ l) -> (forall e, e ∈ l -> ex_id e ∈ verified -> rooted e) ->
  is_ok (fold_res (verify_owner l) verified es) = true <-> Forall rooted es.
Proof.
  induction es as [|e es IH]; intros verified Hin Hv; cbn [fold_res]; [by split|]. unfold verify_owner at 1.
  destruct (climb_owners l (S (length l)) verified [] (Some e)) as [path|err] eqn:E; cbn [bind_res].
  - destruct (owners_sound _ _ _ _ _ E Hv) as (Hr & new & -> & Hnew & _); [intros e' [= <-]; apply Hin; by left|].
    rewrite IH; [|intros e' He'; apply Hin; by right|].
    + rewrite Forall_cons. split; [intros H; split; [by apply Hr|done]|by intros [_ ?]].
    + intros e' He' [Hn|Hn]%elem_of_union; [|by apply Hv]. rewrite app_nil_r in Hn. apply elem_of_list_to_set in Hn. by apply Hnew.
  - split; [done|]. intros [[n Hn] _]%Forall_cons. exfalso. pose proof (owners_complete (S (length l)) verified [] (Some e) n) as H. rewrite E in H. simpl in H.
    discriminate H; [lia|constructor|intros id Hid; by inversion Hid|]. intros e' [= <-]. split_and!; [apply Hin; by left|done|intros ? _ Hn'; by inversion Hn'].
Qed.
End Forest.

(** * What a store may contain *)

(** A pending completion is that of the task. *)
Definition completion_sound (e : execution) : Prop :=
  js_truthy (run_of e rn_completion) = true ->
  prop (run_of e rn_completion) "version" = VNum 1 /\
  let result := prop (run_of e rn_completion) "result" in
  prop result "taskId" = VStr (ex_id e) /\ prop result "kind" = VStr (ex_kind e) /\ prop result "status" = VStr "completed".

(** The owner of a task is stored, and an owned task that has ended has its result. *)
Definition parent_sound (l : list execution) (e : execution) : Prop :=
  js_truthy (run_of e rn_parent) = true ->
  exists detached p, prop (run_of e rn_parent) "detached" = VBool detached /\ prop (run_of e rn_parent) "taskId" = VStr p /\ p ∈ map ex_id l /\
    (detached = false -> isSettledTaskStatus (ex_status e) = true -> js_truthy (ex_result e) = true).

(** The receipt of the admission, which old stores do not have. *)
Definition admission_of (e : execution) : jsv :=
  let a := run_of e rn_admission in if nullish a then admission_receipt (ex_id e) (ex_id e) (ex_updatedAt e) else a.

Definition admission_sound (e : execution) : Prop :=
  prop (admission_of e) "version" = VNum 1 /\ prop (admission_of e) "taskId" = VStr (ex_id e) /\ is_number (prop (admission_of e) "acceptedAt") = true /\
  exists r, prop (admission_of e) "requestId" = VStr r /\ blank (chars r) = false.

Definition requested (e : execution) : string := as_str (prop (admission_of e) "requestId").

Record sound_store (l : list execution) : Prop := MkSoundStore {
  ss_ids : NoDup (map ex_id l);
  ss_completions : Forall completion_sound l;
  ss_parents : Forall (parent_sound l) l;
  ss_forest : Forall (rooted l) l;
  ss_admissions : Forall admission_sound l;
  ss_requests : NoDup (map requested l);
}.

Lemma is_string_spec v s : is_string v s = true <-> v = VStr s.
Proof. destruct v; simpl; split; try done; [by intros ->%bool_decide_eq_true|intros [= ->]; by apply bool_decide_eq_true]. Qed.

Lemma is_one_spec v : (match v with VNum 1 => true | _ => false end) = true <-> v = VNum 1.
Proof. destruct v as [| | |[|[p|p|]|]| | |]; split; done. Qed.

Lemma completion_valid e : completion_invalid e true = false <-> completion_sound e.
Proof.
  unfold completion_invalid, completion_sound. destruct (js_truthy (run_of e rn_completion)); cbn [andb]; [|by split].
  set (result := prop _ "result"). rewrite !orb_false_iff, !negb_false_iff, is_one_spec, !is_string_spec. split; [tauto|].
  intros H. destruct (H eq_refl) as (H1 & H2 & H3 & H4). split_and!; try done. by destruct result.
Qed.

Lemma completion_still_valid e : completion_invalid e true = false -> completion_invalid e false = false.
Proof.
  rewrite completion_valid. unfold completion_invalid, completion_sound. destruct (js_truthy (run_of e rn_completion)); cbn [andb]; [|done].
  intros H. destruct (H eq_refl) as (-> & H2 & _ & H4). by rewrite (proj2 (is_string_spec _ _) H2), (proj2 (is_string_spec _ _) H4).
Qed.

Lemma validate_record_ok l e : NoDup (map ex_id l) -> validate_record l e = Ok tt <-> completion_sound e /\ parent_sound l e.
Proof.
  intros Hnd. unfold validate_record. rewrite <- completion_valid. destruct (completion_invalid e true); [split; [done|by intros [? _]]|].
  unfold parent_sound. destruct (js_truthy (run_of e rn_parent)); cbn [negb]; [|by split]. split.
  - destruct (prop (run_of e rn_parent) "detached") as [| |d| | | |]; try done. destruct (prop (run_of e rn_parent) "taskId") as [| | | |p| |]; try done.
    case_bool_decide as Hp; cbn [negb]; [|done]. intros H. split; [done|]. intros _. exists d, p. split_and!; try done; [by apply (stored_in l Hnd)|].
    intros -> Hs. cbn [js_truthy negb] in H. rewrite Hs in H. by destruct (js_truthy (ex_result e)).
  - intros [_ H]. destruct (H eq_refl) as (d & p & -> & -> & Hp & Hres). rewrite bool_decide_eq_true_2 by (by apply (stored_in l Hnd)). cbn [negb js_truthy].
    destruct d; [done|]. cbn [negb andb]. destruct (isSettledTaskStatus (ex_status e)); [|done]. by rewrite Hres.
Qed.

Lemma fold_each {A E} (f : A -> result E unit) es : is_ok (fold_res (fun _ e => f e) tt es) = true <-> Forall (fun e => f e = Ok tt) es.
Proof.
  induction es as [|e es IH]; [by split|]. cbn [fold_res]. rewrite Forall_cons, <- IH. destruct (f e) as [[]|]; [|by split; [|intros [? _]]].
  cbn [bind_res]. tauto.
Qed.

Lemma ownership_valid l : is_ok (validateTaskOwnership l) = true <->
  NoDup (map ex_id l) /\ Forall completion_sound l /\ Forall (parent_sound l) l /\ Forall (rooted l) l.
Proof.
  unfold validateTaskOwnership. case_bool_decide as Hnd; cbn [negb]; [|split; [done|by intros [? _]]].
  pose proof (fold_each (validate_record l) l) as Hrec. pose proof (owners_verified l Hnd l ∅ ltac:(done) ltac:(set_solver)) as Hown.
  assert (Hsound : Forall (fun e => validate_record l e = Ok tt) l <-> Forall completion_sound l /\ Forall (parent_sound l) l).
  { rewrite !Forall_forall. split; [intros H; split; intros e He; by apply (validate_record_ok l e Hnd), H|].
    intros [H1 H2] e He. apply (validate_record_ok l e Hnd). auto. }
  rewrite Hsound in Hrec. destruct (fold_res (fun _ e => validate_record l e) tt l) as [[]|e]; cbn [bind_res is_ok] in *.
  - destruct (fold_res (verify_owner l) ∅ l); cbn [bind_res is_ok] in *; naive_solver.
  - split; [done|]. intros (_ & H1 & H2 & _). apply Hrec. auto.
Qed.

(** * Recovery *)

(** What is written of a stored record. *)
Definition rewritten (now : Z) (e : execution) : string * execution := (ex_id e, persistedRecord (recovered e now) now).

(** The task of a stored record, before it joins its owner. *)
Definition recovered_task (now : Z) (e : execution) : task := touched (MkTask (recovered e now) [] false false false None (Some e)) now.

Lemma recovered_admission e now : rn_admission (recovered_run (normalized e now) (ex_updatedAt e)) = admission_of e.
Proof.
  assert (H : ex_id (normalized e now) = ex_id e /\ ex_run (normalized e now) = ex_run e) by (unfold normalized; repeat case_match; done).
  destruct H as [H1 H2]. unfold recovered_run, admission_of, run_of. rewrite H1, H2. by destruct (ex_run e).
Qed.

Lemma receipt_valid e : (receipt_invalid (ex_id e) (admission_of e) = false /\ exists r, validateRequestId (prop (admission_of e) "requestId") = Ok r) <-> admission_sound e.
Proof.
  unfold receipt_invalid, admission_sound. rewrite !orb_false_iff, !negb_false_iff, is_one_spec, is_string_spec.
  assert (Hr : (exists r, validateRequestId (prop (admission_of e) "requestId") = Ok r) <-> exists r, prop (admission_of e) "requestId" = VStr r /\ blank (chars r) = false); [|tauto].
  split.
  - intros [r H]. destruct (prop (admission_of e) "requestId") as [| | | |s| |]; try done. simpl in H. exists s. by destruct (blank (chars s)).
  - intros (r & -> & Hb). exists r. simpl. by rewrite Hb.
Qed.

Lemma hydrated now es : forall before s, NoDup (map ex_id (before ++ es)) -> Forall completion_sound es ->
  records s = map (fun e => (ex_id e, recovered_task now e)) before -> (requests s).*1 = map requested before -> NoDup (map requested before) ->
  match fold_res (hydrate now) s es with
  | Ok s' => Forall admission_sound es /\ NoDup (map requested (before ++ es)) /\
             records s' = map (fun e => (ex_id e, recovered_task now e)) (before ++ es) /\ store s' = store s /\ writes s' = writes s ++ map (rewritten now) es
  | Err _ => ~ (Forall admission_sound es /\ NoDup (map requested (before ++ es)))
  end.
Proof.
  induction es as [|e es IH]; intros before s Hnd Hcs Hrec Hreq Hndr; cbn [fold_res]; [rewrite !app_nil_r; by split_and!|].
  apply Forall_cons in Hcs as [Hce Hcs].
  assert (Hkeys : (records s).*1 = map ex_id before) by (rewrite Hrec; by rewrite <- list_fmap_compose).
  assert (Hnew : ex_id e ∉ (records s).*1).
  { rewrite Hkeys. rewrite map_app in Hnd. apply NoDup_app in Hnd as (_ & Hnot & _). intros Hin. apply (Hnot _ Hin). by left. }
  unfold hydrate at 1. rewrite bool_decide_eq_false_2 by (by rewrite assoc_key). rewrite (completion_still_valid e) by (by apply completion_valid).
  rewrite recovered_admission. destruct (receipt_invalid (ex_id e) (admission_of e)) eqn:Er; cbn [bind_res].
  { intros [[He _]%Forall_cons _]. apply receipt_valid in He as [He _]. congruence. }
  destruct (validateRequestId (prop (admission_of e) "requestId")) as [r|err] eqn:Ev; cbn [bind_res].
  2:{ intros [[He _]%Forall_cons _]. apply receipt_valid in He as [_ [r He]]. congruence. }
  assert (Hadm : admission_sound e) by (apply receipt_valid; eauto).
  assert (Hr : requested e = r). { unfold requested. destruct (prop (admission_of e) "requestId") as [| | | |s0| |]; try done. simpl in Ev. destruct (blank _); [done|]. by injection Ev. }
  case_bool_decide as Edup; cbn [bind_res].
  { intros [_ Hn]. rewrite map_app in Hn. apply NoDup_app in Hn as (_ & Hn & _). apply assoc_key in Edup. rewrite Hreq in Edup. apply (Hn _ Edup). cbn [map]. rewrite Hr. by left. }
  rewrite assoc_key in Edup. specialize (IH (before ++ [e])). rewrite <- app_assoc in IH. cbn [app] in IH.
  match goal with |- context[fold_res (hydrate now) ?x es] => set (s1 := x) end.
  assert (H1 : records s1 = map (fun e => (ex_id e, recovered_task now e)) (before ++ [e])).
  { subst s1. cbn [persist records put touched with_exec]. rewrite assoc_set_twice, assoc_set_fresh by done. by rewrite Hrec, map_app. }
  assert (H2 : (requests s1).*1 = map requested (before ++ [e])).
  { subst s1. cbn [persist requests put]. rewrite assoc_set_keys, decide_False by done. by rewrite Hreq, map_app, <- Hr. }
  assert (H3 : NoDup (map requested (before ++ [e]))).
  { rewrite map_app. apply NoDup_app. split_and!; [done| |apply NoDup_singleton]. intros x Hx ->%list_elem_of_singleton. apply Edup. by rewrite Hreq, <- Hr. }
  specialize (IH s1 Hnd Hcs H1 H2 H3). assert (Hst : store s1 = store s /\ writes s1 = writes s ++ [rewritten now e]) by done. destruct Hst as [Hst Hwr]. clearbody s1. destruct (fold_res (hydrate now) s1 es) as [s'|].
  - destruct IH as (? & ? & ? & ? & Hw). split_and!; [by constructor|done|done|congruence|]. by rewrite Hw, Hwr, <- app_assoc.
  - intros [[_ ?]%Forall_cons ?]. by apply IH.
Qed.

(** The status of a task after a restart. *)
Definition restarted (s : task_status) : task_status := if isTerminal s then s else Interrupted.

Lemma recovered_status now e : t_status (recovered_task now e) = restarted (ex_status e).
Proof. by destruct e as [? ? ? [] ? ? ? ? ? ? ?]. Qed.

Lemma recovered_parent now e : run_of (t_exec (recovered_task now e)) rn_parent = run_of e rn_parent.
Proof. by destruct e as [? ? ? [] ? ? ? ? [] ? ?]. Qed.

(** [child] is one of the tasks [owner] owns after a restart: one that has ended is left out
    when its owner has been completed. *)
Definition joins (owner child : execution) : Prop :=
  js_truthy (run_of child rn_parent) = true /\ prop (run_of child rn_parent) "detached" = VBool false /\
  prop (run_of child rn_parent) "taskId" = VStr (ex_id owner) /\ ~ (ex_status owner = Completed /\ isSettledTaskStatus (ex_status child) = true).

(** The status shown of a task is that of the record. *)
Definition shows (e : execution) (t : task) : Prop := t_committed t = Some e /\ t_persistenceFailed t = false.

(** The first owned tasks have joined their owners. *)
Record adopting (now : Z) (l : list execution) (s0 cur : router) (before : list string) : Prop := MkAdopting {
  ad_keys : (records cur).*1 = map ex_id l;
  ad_store : store cur = store s0;
  ad_writes : writes cur = writes s0;
  ad_tasks : forall e, e ∈ l -> exists t, at_ cur (ex_id e) = Some t /\ t_exec t = t_exec (recovered_task now e) /\ shows e t /\
    (forall c, c ∈ t_ownedChildren t <-> c ∈ before /\ exists ec, ec ∈ l /\ ex_id ec = c /\ joins e ec);
}.

Lemma elem_of_own t c x : x ∈ t_ownedChildren (own t c) <-> x ∈ t_ownedChildren t \/ x = c.
Proof. unfold own. simpl. case_bool_decide; [naive_solver|]. rewrite elem_of_app, list_elem_of_singleton. done. Qed.

Section Adopt.
Context (now : Z) (l : list execution) (st : router).
Hypothesis Hnd : NoDup (map ex_id l).
Hypothesis Hpar : Forall (parent_sound l) l.

Lemma joins_nobody cur before ec : adopting now l st cur before -> ec ∈ l -> (forall owner, owner ∈ l -> ~ joins owner ec) -> adopting now l st cur (before ++ [ex_id ec]).
Proof.
  intros [Hk Hs Hw Ht] Hec Hno. constructor; try done. intros e He. destruct (Ht e He) as (t & Hat & He1 & Hc & Hch). exists t. split_and!; try done.
  intros c. rewrite Hch, elem_of_app, list_elem_of_singleton. split; [naive_solver|]. intros [[?| ->] (ec' & Hec' & Hid & Hj)]; [by eauto|].
  rewrite (same_execution l Hnd ec' ec Hec' Hec Hid) in Hj. by destruct (Hno e He).
Qed.

Lemma adopt_step cur before ec : adopting now l st cur before -> ec ∈ l ->
  exists s', adopt cur (ex_id ec) = Ok s' /\ adopting now l st s' (before ++ [ex_id ec]).
Proof.
  intros Ha Hec. pose proof Ha as [Hk Hs Hw Ht]. destruct (Ht ec Hec) as (t & Hat & Hex & _ & _). unfold adopt. rewrite (getRecord_at _ _ _ Hat). cbn [bind_res].
  rewrite Hex, recovered_parent. rewrite Forall_forall in Hpar. pose proof (Hpar ec Hec) as Hp. unfold parent_sound in Hp.
  destruct (js_truthy (run_of ec rn_parent)) eqn:Etr; cbn [negb orb].
  2:{ exists cur. split; [done|]. apply joins_nobody; try done. intros o _ (H & _). congruence. }
  destruct (Hp eq_refl) as (d & p & Ed & Ep & Hin & _). rewrite Ed, Ep. destruct d; cbn [js_truthy].
  { exists cur. split; [done|]. apply joins_nobody; try done. intros o _ (_ & H & _). congruence. }
  apply list_elem_of_fmap in Hin as (o & -> & Ho). destruct (Ht o Ho) as (to & Hato & Hexo & Hco & Hcho). cbn [as_str]. rewrite (getRecord_at _ _ _ Hato). cbn [bind_res].
  assert (Hst : t_status to = restarted (ex_status o)) by (unfold t_status; rewrite Hexo; apply recovered_status).
  assert (Hst' : t_status t = restarted (ex_status ec)) by (unfold t_status; rewrite Hex; apply recovered_status).
  assert (Hguard : bool_decide (t_status to = Completed) && isSettledTaskStatus (t_status t) = bool_decide (ex_status o = Completed) && isSettledTaskStatus (ex_status ec)).
  { rewrite Hst, Hst'. by destruct (ex_status o), (ex_status ec). }
  rewrite Hguard. destruct (bool_decide (ex_status o = Completed) && isSettledTaskStatus (ex_status ec)) eqn:Eg.
  { exists cur. split; [done|]. apply joins_nobody; try done. intros o' Ho' (_ & _ & Hid & Hn). apply Hn. rewrite Ep in Hid. injection Hid as Hid.
    rewrite <- (same_execution l Hnd o o' Ho Ho' Hid). apply andb_true_iff in Eg as [H1 H2]. by apply bool_decide_eq_true in H1. }
  eexists. split; [done|]. assert (Hj : joins o ec).
  { split_and!; try done. intros [H1 H2]. by rewrite bool_decide_eq_true_2, H2 in Eg. }
  constructor.
  - cbn [records put]. rewrite assoc_set_keys, decide_True; [done|]. apply at_key. eauto.
  - done.
  - done.
  - intros e He. destruct (Ht e He) as (te & Hate & Hexe & Hce & Hche). destruct (decide (ex_id e = ex_id o)) as [Heq|Hne].
    + apply (same_execution l Hnd e o He Ho) in Heq as ->. exists (own to (ex_id ec)). rewrite at_put, decide_True by done. split_and!; try done.
      intros c. rewrite elem_of_own, Hcho, elem_of_app, list_elem_of_singleton. split; [naive_solver|]. intros [[?| ->] ?]; [left; by split|by right].
    + exists te. rewrite at_put, decide_False by done. split_and!; try done. intros c. rewrite Hche, elem_of_app, list_elem_of_singleton. split; [naive_solver|].
      intros [[?| ->] (ec' & Hec' & Hid & Hj')]; [by eauto|]. rewrite (same_execution l Hnd ec' ec Hec' Hec Hid) in Hj'.
      destruct Hj as (_ & _ & H1 & _), Hj' as (_ & _ & H2 & _). congruence.
Qed.

Lemma all_adopted ids : forall cur before, adopting now l st cur before -> (forall id, id ∈ ids -> id ∈ map ex_id l) ->
  exists s', fold_res adopt cur ids = Ok s' /\ adopting now l st s' (before ++ ids).
Proof.
  induction ids as [|id ids IH]; intros cur before Ha Hids; cbn [fold_res]; [exists cur; by rewrite app_nil_r|].
  pose proof (Hids id ltac:(by left)) as (ec & -> & Hec)%list_elem_of_fmap. destruct (adopt_step cur before ec Ha Hec) as (s1 & -> & Ha1). cbn [bind_res].
  destruct (IH s1 _ Ha1 ltac:(intros x Hx; apply Hids; by right)) as (s' & Hrun & Ha'). exists s'. split; [done|]. by rewrite <- app_assoc in Ha'.
Qed.
End Adopt.

Lemma rewritten_status now e : ex_status (snd (rewritten now e)) = restarted (ex_status e).
Proof. apply (recovered_status now e). Qed.

Lemma assoc_get_map {A} (f : execution -> A) l e : NoDup (map ex_id l) -> e ∈ l -> assoc_get (map (fun e => (ex_id e, f e)) l) (ex_id e) = Some (f e).
Proof.
  induction l as [|x l IH]; intros Hnd He; [by inversion He|]. cbn [map] in *. apply NoDup_cons in Hnd as [Hx Hnd]. cbn [assoc_get].
  apply elem_of_cons in He as [->|He]; [by rewrite bool_decide_eq_true_2|]. rewrite bool_decide_eq_false_2; [by apply IH|].
  intros Heq. apply Hx. rewrite Heq. by apply list_elem_of_fmap_2.
Qed.

(** What a router that starts has made of a store. *)
Record started (stored : gmap string execution) (l : list execution) (now : Z) (s : router) : Prop := MkStarted {
  st_ready : recoveryPending s = false;
  st_store : store s = stored;
  st_writes : writes s = map (rewritten now) l;
  st_keys : (records s).*1 = map ex_id l;
  st_tasks : forall e, e ∈ l -> exists t, at_ s (ex_id e) = Some t /\ t_exec t = t_exec (recovered_task now e) /\ shows e t /\
    forall c, c ∈ t_ownedChildren t <-> exists ec, ec ∈ l /\ ex_id ec = c /\ joins e ec;
}.

Lemma recover_spec stored l now :
  match recover stored l now with Ok s => sound_store l /\ started stored l now s | Err _ => ~ sound_store l end.
Proof.
  unfold recover, finishRecovery. pose proof (ownership_valid l) as Hv. destruct (validateTaskOwnership l) as [u|err]; cbn [bind_res is_ok] in *.
  2:{ intros [H1 H2 H3 H4 _ _]. assert (false = true) by (apply Hv; auto). done. }
  destruct (proj1 Hv eq_refl) as (Hnd & Hcs & Hpar & Hforest). pose proof (hydrated now l [] (new_router stored) Hnd Hcs eq_refl eq_refl ltac:(constructor)) as Hh.
  destruct (fold_res (hydrate now) (new_router stored) l) as [s1|err]; cbn [bind_res].
  2:{ intros [_ _ _ _ H5 H6]. apply Hh. auto. }
  destruct Hh as (Hadm & Hreq & Hrec & Hst & Hwr). cbn [app] in *.
  assert (Hk : (records s1).*1 = map ex_id l) by (rewrite Hrec; by rewrite <- list_fmap_compose).
  destruct (all_adopted now l s1 Hnd Hpar (records s1).*1 s1 []) as (s2 & -> & [Hk2 Hst2 Hwr2 Ht2]).
  { constructor; try done. intros e He. eexists. split_and!; [rewrite Hrec; by apply assoc_get_map|done|done|].
    intros c. split; [intros Hn; by inversion Hn|intros [Hn _]; by inversion Hn]. }
  { intros id. by rewrite Hk. }
  cbn [bind_res app] in *. split; [by constructor|]. constructor; cbn [recoveryPending store writes records].
  - done.
  - by rewrite Hst2, Hst.
  - by rewrite Hwr2, Hwr.
  - done.
  - intros e He. destruct (Ht2 e He) as (t & Hat & Hex & Hc & Hch). exists t. split_and!; try done. intros c. rewrite Hch, Hk. split; [naive_solver|].
    intros (ec & Hec & <- & Hj). split; [by apply list_elem_of_fmap_2|eauto].
Qed.

Lemma started_at stored l now s id t : started stored l now s -> at_ s id = Some t -> exists e, e ∈ l /\ ex_id e = id /\ shows e t /\
  t_status t = restarted (ex_status e) /\ forall c, c ∈ t_ownedChildren t <-> exists ec, ec ∈ l /\ ex_id ec = c /\ joins e ec.
Proof.
  intros Hs Hat. assert (Hid : id ∈ map ex_id l) by (rewrite <- (st_keys _ _ _ _ Hs); apply at_key; eauto). apply list_elem_of_fmap in Hid as (e & -> & He).
  destruct (st_tasks _ _ _ _ Hs e He) as (t' & Hat' & Hex & Hc & Hch). assert (t' = t) as -> by congruence. exists e. split_and!; try done.
  unfold t_status. rewrite Hex. apply recovered_status.
Qed.

Lemma started_closed stored l now s : started stored l now s -> closed s.
Proof.
  intros Hs id t Hat c Hc. destruct (started_at _ _ _ _ _ _ Hs Hat) as (e & He & Hid & Hsh & Hst & Hch). destruct (proj1 (Hch c) Hc) as (ec & Hec & <- & Hj).
  apply at_key. rewrite (st_keys _ _ _ _ Hs). by apply list_elem_of_fmap_2.
Qed.

(** C14: a router starts exactly on sound stores, with nothing in flight.  Recovery accepts the
    stored tasks exactly when their identifiers and admissions are unique, their owners are
    stored and form a forest, every pending completion is that of its task and every owned task
    that ended has its result.  Then every stored task, and no other, is a task of the router,
    in the same order; it shows what was stored; one that had ended keeps its status, every
    other is interrupted, and that status is being written; and a task owns exactly the tasks
    stored as its own, but those that have ended when it was completed. *)
Theorem recovery_accepts_forests stored l now :
  (is_ok (recover stored l now) = true <-> sound_store l) /\
  forall s, recover stored l now = Ok s ->
    recoveryPending s = false /\ store s = stored /\ (records s).*1 = map ex_id l /\
    map (fun w => (fst w, ex_status (snd w))) (writes s) = map (fun e => (ex_id e, restarted (ex_status e))) l /\
    forall e, e ∈ l -> exists t, at_ s (ex_id e) = Some t /\ t_status t = restarted (ex_status e) /\ skips_interrupt t = true /\
      status s (ex_id e) = Ok (ex_status e, ex_result e) /\
      forall c, c ∈ t_ownedChildren t <-> exists ec, ec ∈ l /\ ex_id ec = c /\ joins e ec.
Proof.
  pose proof (recover_spec stored l now) as H. destruct (recover stored l now) as [s|err]; cbn [is_ok]; [|split; [by split|done]]. destruct H as [Hsound Hs].
  split; [by split|]. intros s' [= <-]. pose proof Hs as [H1 H2 H3 H4 H5]. split_and!; try done.
  - rewrite H3, map_map. apply map_ext. intros e. by rewrite <- (rewritten_status now e).
  - intros e He. destruct (H5 e He) as (t & Hat & Hex & [Hc _] & Hch). exists t.
    assert (Hst : t_status t = restarted (ex_status e)) by (unfold t_status; rewrite Hex; apply recovered_status). split_and!; try done.
    + unfold skips_interrupt. rewrite Hst. by destruct (ex_status e).
    + unfold status. rewrite (getRecord_at _ _ _ Hat). cbn [bind_res]. by rewrite Hc.
Qed.

(** * What a status shows *)

(** [t'] shows what [t] showed. *)
Definition shows_as (t t' : task) : Prop := t_committed t' = t_committed t /\ t_persistenceFailed t' = t_persistenceFailed t.

(** Except for a task whose failure is being handled, a task shows what the store holds, or
    that it could not be stored; what is stored is known. *)
Record durable_but (x : option string) (s : router) : Prop := MkDurable {
  du_closed : closed s;
  du_shown : forall id t, at_ s id = Some t -> x <> Some id ->
    if t_persistenceFailed t then exists e error, t_committed t = Some e /\ ex_status e = Failed /\ ex_result e = task_result e Failed (persistence_error error)
    else t_committed t = store s !! id;
  du_failing : forall id t, x = Some id -> at_ s id = Some t -> t_persistenceFailed t = true;
  du_known : forall id, is_Some (store s !! id) -> is_Some (at_ s id);
}.

Lemma is_Some_put s id t k : is_Some (at_ s k) -> is_Some (at_ (put s id t) k).
Proof. rewrite at_put. by destruct (decide _). Qed.

Lemma durable_put x s id t t' : durable_but x s -> at_ s id = Some t -> shows_as t t' ->
  (forall c, c ∈ t_ownedChildren t' -> is_Some (at_ s c)) -> durable_but x (put s id t').
Proof.
  intros [Hc Hs Hf Hk] Hat [E1 E2] Hch. constructor.
  - intros k u. rewrite at_put. destruct (decide (k = id)) as [->|Hne]; [intros [= <-] c Hin; by apply is_Some_put, Hch|].
    intros Hu c Hin. apply is_Some_put. by eapply Hc.
  - intros k u. rewrite at_put. destruct (decide (k = id)) as [->|Hne]; [intros [= <-] Hx; rewrite E2, E1; by apply Hs|apply Hs].
  - intros k u Hx. rewrite at_put. destruct (decide (k = id)) as [->|Hne]; [intros [= <-]; rewrite E2; by eapply Hf|by apply Hf].
  - intros k Hst. by apply is_Some_put, Hk.
Qed.

Lemma durable_new s id t : durable_but None s -> at_ s id = None -> t_committed t = None -> t_persistenceFailed t = false -> t_ownedChildren t = [] ->
  durable_but None (put s id t).
Proof.
  intros [Hc Hs Hf Hk] Hat E1 E2 E3. constructor.
  - intros k u. rewrite at_put. destruct (decide (k = id)) as [->|Hne]; [intros [= <-] c; rewrite E3; intros Hn; by inversion Hn|].
    intros Hu c Hin. apply is_Some_put. by eapply Hc.
  - intros k u. rewrite at_put. destruct (decide (k = id)) as [->|Hne]; [intros [= <-] _|apply Hs]. rewrite E1, E2.
    simpl. destruct (store s !! id) eqn:Est; [|done]. destruct (Hk id); [eauto|congruence].
  - done.
  - intros k Hst. by apply is_Some_put, Hk.
Qed.

Lemma durable_persist x s id t t' now : durable_but x s -> at_ s id = Some t -> shows_as t t' -> t_ownedChildren t' = t_ownedChildren t ->
  durable_but x (persist s id t' now).
Proof.
  intros Hd Hat Hsh Hch. assert (Hd' : durable_but x (put s id (touched t' now))).
  { apply (durable_put x s id t); [done|done|done|]. cbn. rewrite Hch. intros c Hin. by eapply du_closed. }
  destruct Hd' as [H1 H2 H3 H4]. by constructor.
Qed.

(** A walk changes nothing of what is shown. *)
Lemma durable_kept x s s' : durable_but x s -> (records s').*1 = (records s).*1 -> store s' = store s ->
  (forall k u, at_ s k = Some u -> exists u', at_ s' k = Some u' /\ shows_as u u' /\ t_ownedChildren u' = t_ownedChildren u) -> durable_but x s'.
Proof.
  intros [Hc Hs Hf Hk] Hkeys Hst Htasks.
  assert (Hsame : forall k, is_Some (at_ s k) <-> is_Some (at_ s' k)) by (intros k; by rewrite !at_key, Hkeys).
  assert (Hback : forall k u', at_ s' k = Some u' -> exists u, at_ s k = Some u /\ shows_as u u' /\ t_ownedChildren u' = t_ownedChildren u).
  { intros k u' Hu'. destruct (proj2 (Hsame k) ltac:(eauto)) as [u Hu]. destruct (Htasks k u Hu) as (v & Hv & ? & ?). assert (v = u') as -> by congruence. eauto. }
  constructor.
  - intros k u' Hu' c Hin. destruct (Hback k u' Hu') as (u & Hu & _ & Hch). rewrite Hch in Hin. apply Hsame. by eapply Hc.
  - intros k u' Hu' Hx. destruct (Hback k u' Hu') as (u & Hu & [E1 E2] & _). rewrite E1, E2, Hst. by apply Hs.
  - intros k u' Hx Hu'. destruct (Hback k u' Hu') as (u & Hu & [E1 E2] & _). rewrite E2. by eapply Hf.
  - intros k. rewrite Hst, <- Hsame. apply Hk.
Qed.

Lemma durable_cancelled x s id now s' : durable_but x s -> is_Some (at_ s id) -> cancelOwnedTree s id now = Ok s' ->
  durable_but x s' /\ (records s').*1 = (records s).*1.
Proof.
  intros Hd [t Hat] Hrun. destruct (cancelOwnedTree_spec s id t now (du_closed _ _ Hd) Hat) as (s1 & Hrun1 & Hk & Hst & _ & Hdec & Htasks).
  assert (s1 = s') as -> by congruence. split; [|done]. apply (durable_kept x s); try done. intros k u Hu. destruct (Htasks k u Hu) as [H1 H2].
  destruct (Hdec k) as [Hr|Hr].
  - exists (after_cancel now u). split_and!; [by apply H1| |apply after_cancel_children]. unfold after_cancel. by destruct (t_ownedChildren u).
  - exists u. by split_and!; [apply H2| |].
Qed.

Lemma durable_children x now ids : forall s s', durable_but x s ->
  fold_res (fun s child => let* _ := getRecord s child in cancelOwnedTree s child now) s ids = Ok s' -> durable_but x s'.
Proof.
  induction ids as [|id ids IH]; intros s s' Hd; cbn [fold_res]; [by intros [= <-]|].
  destruct (getRecord s id) as [t|] eqn:Et; cbn [bind_res]; [|done]. apply getRecord_inv in Et.
  destruct (cancelOwnedTree s id now) as [s1|] eqn:Ec; cbn [bind_res]; [|done]. apply IH. by eapply durable_cancelled; [| |exact Ec].
Qed.

Lemma durable_failure s id error now s' : durable_but None s -> finishPersistenceFailure s id error now = Ok s' -> durable_but None s'.
Proof.
  intros Hd. unfold finishPersistenceFailure. destruct (getRecord s id) as [t|] eqn:Et; cbn [bind_res]; [|done]. apply getRecord_inv in Et.
  destruct (t_persistenceFailed t); [by intros [= <-]|].
  destruct (fold_res _ (put s id (failed_persistence t)) (t_ownedChildren t)) as [s1|] eqn:Ef; cbn [bind_res]; [|done].
  assert (Hd1 : durable_but (Some id) s1).
  { eapply durable_children; [|exact Ef]. destruct Hd as [Hc Hs Hf Hk]. constructor.
    - intros k u. rewrite at_put. destruct (decide (k = id)) as [->|Hne]; [intros [= <-]|intros Hu]; intros c Hin; apply is_Some_put; by eapply Hc.
    - intros k u. rewrite at_put. destruct (decide (k = id)) as [->|Hne]; [done|]. intros Hu _. by apply Hs.
    - intros k u [= <-]. rewrite at_put, decide_True by done. by intros [= <-].
    - intros k Hst. by apply is_Some_put, Hk. }
  destruct (getRecord s1 id) as [t1|] eqn:Et1; cbn [bind_res]; [|done]. apply getRecord_inv in Et1. intros [= <-].
  destruct Hd1 as [Hc Hs Hf Hk]. constructor.
  - intros k u. rewrite at_put. destruct (decide (k = id)) as [->|Hne]; [intros [= <-]|intros Hu]; intros c Hin; apply is_Some_put; by eapply Hc.
  - intros k u. rewrite at_put. destruct (decide (k = id)) as [->|Hne]; [|intros Hu _; apply Hs; congruence].
    intros [= <-] _. cbn. rewrite (Hf id t1 eq_refl Et1). by eexists _, error.
  - done.
  - intros k Hst. by apply is_Some_put, Hk.
Qed.

Lemma durable_settled s thrown now s' : durable_but None s -> settle_write s thrown now = Ok s' -> durable_but None s'.
Proof.
  intros Hd. unfold settle_write. destruct (writes s) as [|[id e] ws]; [by intros [= <-]|]. set (s1 := MkRouter (records s) (requests s) ws (store s) (recoveryPending s)).
  assert (Hd1 : durable_but None s1) by (by destruct Hd; constructor). clearbody s1. clear Hd.
  destruct (getRecord s1 id) as [t|] eqn:Et; cbn [bind_res]; [|done]. apply getRecord_inv in Et. destruct (t_persistenceFailed t) eqn:Ep; [by intros [= <-]|].
  destruct thrown as [error|]; [by apply durable_failure|]. intros [= <-]. destruct Hd1 as [Hc Hs Hf Hk].
  change (durable_but None (MkRouter (records (put s1 id (committed_as t e))) (requests s1) (writes s1) (<[id:=e]> (store s1)) (recoveryPending s1))).
  assert (Hat : forall k, at_ (MkRouter (records (put s1 id (committed_as t e))) (requests s1) (writes s1) (<[id:=e]> (store s1)) (recoveryPending s1)) k
    = if decide (k = id) then Some (committed_as t e) else at_ s1 k) by apply at_put.
  constructor.
  - intros k u. rewrite Hat. intros Hu c Hin. rewrite Hat. destruct (decide (c = id)); [done|].
    destruct (decide (k = id)) as [->|Hne]; [injection Hu as <-|]; by eapply Hc.
  - intros k u. rewrite Hat. cbn [store]. destruct (decide (k = id)) as [->|Hne].
    + intros [= <-] _. cbn. by rewrite Ep, lookup_insert_eq.
    + intros Hu Hx. rewrite lookup_insert_ne by done. by apply Hs.
  - done.
  - intros k. rewrite Hat. cbn [store]. destruct (decide (k = id)) as [->|Hne]; [done|]. rewrite lookup_insert_ne by done. apply Hk.
Qed.

Lemma durable_created s task requestId parent now : durable_but None s -> durable_but None (fst (createTask s task requestId parent now)).
Proof.
  intros Hd. unfold createTask. destruct (bind_res _ _) as [u|err] eqn:Eg; [|done].
  assert (Hnew : at_ s (sb_id task) = None).
  { destruct (at_ s (sb_id task)) eqn:Ea; [|done]. destruct (validateTask task); [|done]. cbn [bind_res] in Eg. destruct (validateRequestId _); [|done].
    cbn [bind_res] in Eg. destruct (recoveryPending s); [done|]. by rewrite bool_decide_eq_true_2 in Eg. }
  clear Eg u. pose proof (durable_new s (sb_id task) (new_task task requestId parent now) Hd Hnew eq_refl eq_refl eq_refl) as Hd1.
  set (s1 := put s (sb_id task) (new_task task requestId parent now)) in *.
  assert (Hin1 : is_Some (at_ s1 (sb_id task))) by (unfold s1; rewrite at_put, decide_True by done; eauto). clearbody s1.
  destruct (match parent with Some (p, false) => _ | _ => _ end) as [s2|err] eqn:Eo; [|done].
  assert (Hd2 : durable_but None s2 /\ is_Some (at_ s2 (sb_id task))).
  { destruct parent as [[p [|]]|]; [by injection Eo as <-| |by injection Eo as <-]. destruct (getRecord s1 p) as [o|] eqn:Ep; [|done]. apply getRecord_inv in Ep.
    injection Eo as <-. split; [|by apply is_Some_put]. apply (durable_put None s1 p o); [done|done|done|].
    intros c [Hc | ->]%elem_of_own; [by eapply du_closed|done]. }
  destruct Hd2 as [Hd2 [t Ht]]. rewrite (getRecord_at (MkRouter _ _ _ _ _) (sb_id task) t Ht). cbn [fst].
  apply (durable_persist None _ (sb_id task) t); [|done..]. by destruct Hd2; constructor.
Qed.

(** * Runs *)

(** The steps of a router: a submission, of a root or of a child, a cancellation, a shutdown,
    an update by an execution, and a write that settles. *)
Inductive task_step : router -> router -> Prop :=
| step_submit s task requestId parent now : task_step s (fst (createTask s task requestId parent now))
| step_cancel s id now s' done st : cancel s id now = Ok (s', done, st) -> task_step s s'
| step_stop s now s' : interrupt_all s now = Ok s' -> task_step s s'
| step_update s id p now s' : update s id p now = Ok s' -> task_step s s'
| step_write s thrown now s' : settle_write s thrown now = Ok s' -> task_step s s'.

Lemma durable_step s s' : durable_but None s -> task_step s s' -> durable_but None s'.
Proof.
  intros Hd Hstep. destruct Hstep as [s|s id now s' done st H|s now s' H|s id p now s' H|s thrown now s' H].
  - by apply durable_created.
  - unfold cancel in H. destruct (getRecord s id) as [t|] eqn:Et; cbn [bind_res] in H; [|done]. apply getRecord_inv in Et.
    case_match; [by injection H as <-|]. destruct (cancelOwnedTree s id now) as [s1|] eqn:Ec; cbn [bind_res] in H; [|done].
    destruct (getRecord s1 id); [|done]. injection H as <-. by eapply durable_cancelled; [| |exact Ec].
  - destruct (interrupt_loop now s (records s).*1 (du_closed _ _ Hd) s) as (s1 & Hrun & [Hk Hst (more & _ & Ht)] & _).
    + constructor; [done|done|]. exists []. rewrite app_nil_r. split; [done|]. by left.
    + intros id Hid. by apply at_key.
    + assert (s1 = s') as -> by (unfold interrupt_all in H; congruence). apply (durable_kept None s); try done. intros k u Hu.
      destruct (Ht k u Hu) as [E|(_ & E & _)]; eexists; split_and!; done.
  - unfold update in H. destruct (getRecord s id) as [t|] eqn:Et; cbn [bind_res] in H; [|done]. apply getRecord_inv in Et. injection H as <-.
    by apply (durable_persist None s id t).
  - by eapply durable_settled.
Qed.

Lemma durable_run s s' : durable_but None s -> rtc task_step s s' -> durable_but None s'.
Proof. intros Hd. induction 1 as [|s s1 s2 Hstep _ IH]; [done|]. apply IH. by eapply durable_step. Qed.

(** [stored] is a store that lists [l]. *)
Definition lists (stored : gmap string execution) (l : list execution) : Prop := forall id e, stored !! id = Some e <-> e ∈ l /\ ex_id e = id.

Lemma durable_started stored l now s : lists stored l -> started stored l now s -> durable_but None s.
Proof.
  intros Hl Hs. constructor.
  - by eapply started_closed.
  - intros id t Hat _. destruct (started_at _ _ _ _ _ _ Hs Hat) as (e & He & <- & [Hc Hp] & _). rewrite Hp, Hc, (st_store _ _ _ _ Hs). symmetry. by apply Hl.
  - done.
  - intros id. rewrite (st_store _ _ _ _ Hs). intros [e [He <-]%Hl]. apply at_key. rewrite (st_keys _ _ _ _ Hs). by apply list_elem_of_fmap_2.
Qed.

(** C23: the status shown is the one that is stored.  In every run of a router that started on a
    store, through submissions, cancellations, shutdowns, updates of executions and writes that
    settle or fail, [status] shows of every task exactly the status and the result that the
    store holds, "created" when it holds none, whatever has happened since in memory; or it
    shows that the task could not be stored, once a write of it has failed.  Owned tasks are
    always records. *)
Theorem status_is_durable stored l now s0 s : lists stored l -> recover stored l now = Ok s0 -> rtc task_step s0 s ->
  closed s /\
  forall id t, at_ s id = Some t ->
    if t_persistenceFailed t then exists e error, status s id = Ok (Failed, task_result e Failed (persistence_error error))
    else status s id = Ok (match store s !! id with Some e => (ex_status e, ex_result e) | None => (Created, VUndef) end).
Proof.
  intros Hl Hrun Hsteps. pose proof (recover_spec stored l now) as Hr. rewrite Hrun in Hr. destruct Hr as [_ Hs].
  destruct (durable_run s0 s (durable_started _ _ _ _ Hl Hs) Hsteps) as [Hc Hshown _ _]. split; [done|].
  intros id t Hat. specialize (Hshown id t Hat ltac:(done)). unfold status. rewrite (getRecord_at _ _ _ Hat). cbn [bind_res].
  destruct (t_persistenceFailed t).
  - destruct Hshown as (e & error & -> & E1 & E2). exists e, error. by rewrite E1, E2.
  - by rewrite Hshown.
Qed.

(** * Examples *)

Definition demo_parent (p : string) (detached : bool) : jsv := VObj [("taskId", VStr p); ("detached", VBool detached)].

Definition demo_execution (id : string) (status : task_status) (result parent : jsv) : execution :=
  MkExecution id "review" true status result VUndef None 1 (Some (MkRun status None 1 parent VUndef VUndef)) [] [].

(** A task that was running, with an owned task that was running and a detached one that had
    been completed. *)
Definition demo_list : list execution :=
  [demo_execution "root" Running VUndef VUndef; demo_execution "child" Running VUndef (demo_parent "root" false);
   demo_execution "aside" Completed (VStr "done") (demo_parent "root" true)].

Definition demo_store : gmap string execution := list_to_map (map (fun e => (ex_id e, e)) demo_list).

(** A router with a task and a task it owns. *)
Definition demo_empty : router := MkRouter [] [] [] ∅ false.
Definition demo_root : router := fst (createTask demo_empty (MkSubmission "root" "review" true true) "q1" None 1).
Definition demo_router : router := fst (createTask demo_root (MkSubmission "child" "review" true true) "q2" (Some ("root", false)) 2).

Lemma demo_steps : rtc task_step demo_empty demo_router.
Proof. eapply rtc_l; [apply step_submit|]. eapply rtc_l; [apply step_submit|]. apply rtc_refl. Qed.

Lemma demo_durable : durable_but None demo_router.
Proof. eapply durable_run; [|apply demo_steps]. apply (durable_started ∅ [] 0); [|constructor; try done; intros e He; by inversion He]. intros id e. split; [done|intros [Hn _]; by inversion Hn]. Qed.

Lemma demo_closed : closed demo_router.
Proof. apply demo_durable. Qed.

Lemma recovery_accepts_forests_witness : sound_store demo_list /\ exists s, recover demo_store demo_list 5 = Ok s /\ status s "child" = Ok (Running, VUndef).
Proof.
  destruct (recovery_accepts_forests demo_store demo_list 5) as [Hok H]. assert (E : is_ok (recover demo_store demo_list 5) = true) by (vm_compute; reflexivity).
  split; [exact (proj1 Hok E)|]. destruct (recover demo_store demo_list 5) as [s|err]; [|discriminate E]. exists s. split; [reflexivity|].
  destruct (H s eq_refl) as (_ & _ & _ & _ & Ht).
  destruct (Ht (demo_execution "child" Running VUndef (demo_parent "root" false))) as (t & _ & _ & _ & Hs & _); [right; by left|exact Hs].
Defined.

Lemma cancel_reaches_the_owned_tree_witness : exists s' st u, cancel demo_router "root" 5 = Ok (s', true, st) /\ at_ s' "child" = Some u /\ t_status u = Cancelled.
Proof.
  destruct (cancel_reaches_the_owned_tree demo_router "root" _ 5 demo_closed eq_refl) as [(s' & st & Hrun & _ & _ & Ht)|[_ [H|[H|H]]]]; try done.
  destruct (Ht "child" _ eq_refl) as [H _]. destruct H as (u & Hu & Hfrom); [|exists s', st, u; split_and!; [done|done|by apply (cf_leaf _ _ _ _ Hfrom)]].
  eapply (reach_child skips_cancel demo_router "root" "root"); [by eapply reach_root|done|by left|done|done].
Defined.

Lemma shutdown_leaves_nothing_in_flight_witness : exists s' u, interrupt_all demo_router 5 = Ok s' /\ at_ s' "child" = Some u /\ t_status u = Interrupted.
Proof.
  destruct (shutdown_leaves_nothing_in_flight demo_router 5 demo_closed) as (s' & Hrun & _ & _ & Ht). destruct (Ht "child" _ eq_refl) as (u & e & Hu & Hst & _).
  by exists s', u.
Defined.

Lemma status_is_durable_witness : exists s, settle_write demo_router (Some None) 5 = Ok s /\ closed s /\ status s "child" = Ok (Created, VUndef).
Proof.
  destruct (settle_write demo_router (Some None) 5) as [s|err] eqn:E; [|discriminate E].
  assert (Hat : is_Some (at_ s "child") /\ option_map t_persistenceFailed (at_ s "child") = Some false /\ store s !! "child" = None).
  { vm_compute in E. injection E as <-. vm_compute. split_and!; [by eexists|done|done]. }
  exists s. split; [reflexivity|]. destruct Hat as ([t Hat] & Hp & Hst). rewrite Hat in Hp. injection Hp as Hp.
  destruct (status_is_durable ∅ [] 0 demo_empty s) as [Hc Ht].
  - intros id e. split; [done|intros [Hn _]; by inversion Hn].
  - reflexivity.
  - etrans; [apply demo_steps|]. by eapply rtc_once, step_write.
  - split; [exact Hc|]. specialize (Ht "child" t Hat). by rewrite Hp, Hst in Ht.
Defined.
