(* ===== verification/SqliteBackend.v ===== *)
(** The session backend in a database ([SqliteSessionBackend] of
    packages/session-backends/src/sqlite.ts) with the statements of [InkRepository]
    (storage/src/repository.ts) it executes and the transactions of [InkDb] (storage/src/db.ts).

    Modelling choices: a table is the list or the map of its rows; the driver is the class
    [SqliteDriver], which says what a column holds after a value was bound to it, or that the
    value is refused; a number that is no number is refused as well.  The [n]th statement of a
    call that writes may fail, the [COMMIT] of its transaction included; a rollback succeeds.
    The readings of the clock are [clock].  Searches are not modelled. *)

From S2P Require Import Prelude JsValue JsonText SessionEntries SessionBackends Materializer.

(** * The driver *)

(** What a column of the affinity [TEXT] or [INTEGER] holds when a value has been bound. *)
Class SqliteDriver : Type := {
  text_value : jsv -> option (option string);
  integer_value : jsv -> option (option Z);
}.

(** Strings, integers a [number] holds exactly and [null] are stored as they are. *)
Class SqliteDriverLaws `{SqliteDriver} : Prop := {
  text_null : text_value VNull = Some None;
  text_string s : text_value (VStr s) = Some (Some s);
  integer_null : integer_value VNull = Some None;
  integer_safe n : (Z.abs n <= 2 ^ 53 - 1)%Z -> integer_value (VNum n) = Some (Some n);
}.

Definition bound {A : Type} (v : option A) : result backend_error A := match v with Some a => Ok a | None => Err DriverError end.

(** A column declared [NOT NULL]. *)
Definition not_null {A : Type} (v : option (option A)) : result backend_error A :=
  let* v := bound v in bound v.

(** * Session entries *)

Record entry_row : Type := MkEntryRow {
  er_id : string;
  er_sessionId : string;
  er_seq : Z;
  er_parentId : option string;
  er_laneId : option string;
  er_operationId : option string;
  er_type : string;
  er_payloadJson : string;
  er_timestamp : Z;
  er_version : option Z;
  er_hash : option string
}.

(** [value || null] and [value ?? null]. *)
Definition or_null (v : jsv) : jsv := if js_truthy v then v else VNull.
Definition nullish_or (v otherwise : jsv) : jsv := match v with VUndef | VNull => otherwise | v => v end.

(** [JSON.stringify(payload)], which is [undefined] for [undefined]. *)
Definition payload_text (v : jsv) : jsv := match v with VUndef => VUndef | v => VStr (of_chars (JSON_text v)) end.

Definition same_key (a b : entry_row) : bool := bool_decide (er_sessionId a = er_sessionId b) && bool_decide (er_id a = er_id b).

(** [INSERT ... ON CONFLICT(session_id, id) DO UPDATE]. *)
Definition upsert (t : list entry_row) (r : entry_row) : list entry_row :=
  if existsb (same_key r) t then map (fun r' => if same_key r r' then r else r') t else t ++ [r].

Section Driver.
Context `{SqliteDriver}.

Definition entry_columns (entry : jsv) : result backend_error entry_row :=
  let* id := not_null (text_value (prop entry "id")) in
  let* sessionId := not_null (text_value (prop entry "sessionId")) in
  let* seq := not_null (integer_value (prop entry "seq")) in
  let* parentId := bound (text_value (or_null (prop entry "parentId"))) in
  let* laneId := bound (text_value (or_null (prop entry "laneId"))) in
  let* operationId := bound (text_value (or_null (prop entry "operationId"))) in
  let* type := not_null (text_value (prop entry "type")) in
  let* payload := not_null (text_value (payload_text (prop entry "payload"))) in
  let* timestamp := not_null (integer_value (prop entry "timestamp")) in
  let* version := bound (integer_value (nullish_or (prop entry "version") (VNum 1))) in
  let* hash := bound (text_value (nullish_or (prop entry "hash") VNull)) in
  Ok (MkEntryRow id sessionId seq parentId laneId operationId type payload timestamp version hash).

Definition saveSessionEntry (t : list entry_row) (entry : jsv) : result backend_error (list entry_row) :=
  let* r := entry_columns entry in Ok (upsert t r).

(** [value || null] of a column, and a property that is there only when the column is truthy. *)
Definition column_or_null (v : option string) : jsv := or_null (match v with Some s => VStr s | None => VNull end).
Definition optional_property (key : string) (v : jsv) : list (string * jsv) := if js_truthy v then [(key, v)] else [].

Definition entry_of_row (r : entry_row) : result backend_error jsv :=
  match JSON_parse (chars (er_payloadJson r)) with
  | None => Err InvalidJson
  | Some payload =>
      Ok (VObj ([("id", VStr (er_id r)); ("sessionId", VStr (er_sessionId r)); ("seq", VNum (er_seq r)); ("parentId", column_or_null (er_parentId r))]
                ++ optional_property "laneId" (column_or_null (er_laneId r))
                ++ optional_property "operationId" (column_or_null (er_operationId r))
                ++ [("type", VStr (er_type r)); ("payload", payload); ("timestamp", VNum (er_timestamp r));
                    ("version", VNum (match er_version r with Some 0%Z | None => 1%Z | Some v => v end))]
                ++ match er_hash r with Some h => [("hash", VStr h)] | None => [] end))
  end.

Fixpoint entries_of_rows (rows : list entry_row) : result backend_error (list jsv) :=
  match rows with
  | [] => Ok []
  | r :: rows => let* e := entry_of_row r in let* es := entries_of_rows rows in Ok (e :: es)
  end.

Definition by_seq (a b : entry_row) : Z := er_seq a - er_seq b.

Definition getSessionEntries (t : list entry_row) (sessionId : string) : result backend_error (list jsv) :=
  entries_of_rows (js_sort by_seq (List.filter (fun r => bool_decide (er_sessionId r = sessionId)) t)).

(** The loop over a batch inside of a transaction, and the end of the transaction. *)
Fixpoint save_batch (io : option nat) (t : list entry_row) (batch : list jsv) : result backend_error (list entry_row) :=
  match batch with
  | [] => throw_if bool_decide (io = Some 0) with DriverError in Ok t
  | e :: batch =>
      let* t := saveSessionEntry t e in
      throw_if bool_decide (io = Some 0) with DriverError in
      save_batch (option_map pred io) t batch
  end.

Definition append_rows (io : option nat) (t : list entry_row) (sessionId : string) (entries : list jsv) : result backend_error (list entry_row) :=
  let* current := getSessionEntries t sessionId in
  let* batch := prepareEntryBatch sessionId current entries in
  save_batch io t batch.

Definition fork_rows (io : option nat) (t : list entry_row) (source target : string) (headId : option (option string)) : result backend_error (list entry_row) :=
  let* entries := getSessionEntries t source in
  let* existing := getSessionEntries t target in
  let* entries := forkEntries source target entries existing headId in
  let* batch := prepareEntryBatch target [] entries in
  save_batch io t batch.
End Driver.

(** * Documents *)

(** A row of [document_deltas]; its key is [AUTOINCREMENT]. *)
Record delta_row : Type := MkDeltaRow { dl_id : Z; dl_documentId : string; dl_stepJson : string; dl_clientTimestamp : Z; dl_createdAt : Z }.

Record database : Type := MkDatabase {
  db_entries : list entry_row;
  db_workspaces : gmap string workspace_row;
  db_folders : gmap string folder_row;
  db_documents : gmap string document_row;
  db_snapshots : gmap string snapshot_row;
  db_deltas : list delta_row;
  db_lastDelta : Z
}.

Definition empty_database : database := MkDatabase [] ∅ ∅ ∅ ∅ [] 0.

(** A statement that writes, or none when its guard fails. *)
Definition statement : Type := database -> option (result backend_error database).

(** Statements outside of a transaction: those before a failure stay done. *)
Fixpoint run_statements (io : option nat) (d : database) (l : list statement) : database * result backend_error unit :=
  match l with
  | [] => (d, Ok tt)
  | f :: l =>
      match f d with
      | None => run_statements io d l
      | Some (Err e) => (d, Err e)
      | Some (Ok d') => if bool_decide (io = Some 0) then (d, Err DriverError) else run_statements (option_map pred io) d' l
      end
  end.

Section Documents.
Context `{SqliteDriver} (foreign_keys : bool).

(** An inserted row needs a new key, and rows its foreign keys name. *)
Definition inserted {A : Type} (t : gmap string A) (id : string) (row : A) (refers : bool) : result backend_error (gmap string A) :=
  throw_if bool_decide (is_Some (t !! id)) || (foreign_keys && negb refers) with DriverError in Ok (<[id := row]> t).

Definition createWorkspace (d : database) (id : string) (row : workspace_row) : result backend_error database :=
  let* t := inserted (db_workspaces d) id row true in
  Ok (MkDatabase (db_entries d) t (db_folders d) (db_documents d) (db_snapshots d) (db_deltas d) (db_lastDelta d)).

Definition createFolder (d : database) (id : string) (row : folder_row) : result backend_error database :=
  let* t := inserted (db_folders d) id row (bool_decide (is_Some (db_workspaces d !! f_workspaceId row))) in
  Ok (MkDatabase (db_entries d) (db_workspaces d) t (db_documents d) (db_snapshots d) (db_deltas d) (db_lastDelta d)).

Definition createDocument (d : database) (id : string) (row : document_row) : result backend_error database :=
  let* t := inserted (db_documents d) id row
              (bool_decide (is_Some (db_folders d !! dc_folderId row)) && bool_decide (is_Some (db_workspaces d !! dc_workspaceId row))) in
  Ok (MkDatabase (db_entries d) (db_workspaces d) (db_folders d) t (db_snapshots d) (db_deltas d) (db_lastDelta d)).

(** The folders of a workspace. *)
Definition getFolders (d : database) (workspaceId : string) : list string :=
  omap (fun '(id, row) => if bool_decide (f_workspaceId row = workspaceId) then Some id else None) (map_to_list (db_folders d)).

Definition refers_to_document (d : database) (id : string) : bool := negb foreign_keys || bool_decide (is_Some (db_documents d !! id)).

Definition upsertSnapshot (d : database) (snapshot : jsv) : result backend_error database :=
  let* id := bound (text_value (prop snapshot "documentId")) in
  let* version := not_null (integer_value (prop snapshot "version")) in
  let* contentJson := not_null (text_value (prop snapshot "contentJson")) in
  let* contentMarkdown := not_null (text_value (prop snapshot "contentMarkdown")) in
  let* contentSize := bound (integer_value (prop snapshot "contentSize")) in
  let* updatedAt := not_null (integer_value (prop snapshot "updatedAt")) in
  let* id := bound id in
  throw_if negb (refers_to_document d id) with DriverError in
  Ok (MkDatabase (db_entries d) (db_workspaces d) (db_folders d) (db_documents d)
        (<[id := MkSnapshot version contentJson contentMarkdown (default 0%Z contentSize) updatedAt]> (db_snapshots d)) (db_deltas d) (db_lastDelta d)).

Definition snapshot_value (documentId : string) (r : snapshot_row) : jsv :=
  VObj [("documentId", VStr documentId); ("version", VNum (sn_version r)); ("contentJson", VStr (sn_contentJson r));
        ("contentMarkdown", VStr (sn_contentMarkdown r)); ("contentSize", VNum (sn_contentSize r)); ("updatedAt", VNum (sn_updatedAt r))].

Definition appendDelta (d : database) (delta : jsv) : result backend_error database :=
  let* documentId := not_null (text_value (prop delta "documentId")) in
  let* stepJson := not_null (text_value (prop delta "stepJson")) in
  let* clientTimestamp := not_null (integer_value (prop delta "clientTimestamp")) in
  let* createdAt := not_null (integer_value (prop delta "createdAt")) in
  throw_if negb (refers_to_document d documentId) with DriverError in
  let id := (db_lastDelta d + 1)%Z in
  Ok (MkDatabase (db_entries d) (db_workspaces d) (db_folders d) (db_documents d) (db_snapshots d)
        (db_deltas d ++ [MkDeltaRow id documentId stepJson clientTimestamp createdAt]) id).

Definition delta_value (r : delta_row) : jsv :=
  VObj [("id", VNum (dl_id r)); ("documentId", VStr (dl_documentId r)); ("stepJson", VStr (dl_stepJson r));
        ("clientTimestamp", VNum (dl_clientTimestamp r)); ("createdAt", VNum (dl_createdAt r))].

(** The rows are in the order of their keys. *)
Definition getDeltas (d : database) (documentId : string) (afterId : option Z) : list jsv :=
  map delta_value (List.filter (fun r => bool_decide (dl_documentId r = documentId) && (default 0 afterId <=? dl_id r)%Z) (db_deltas d)).

(** * The backend *)

Context (defaultWorkspaceId defaultFolderId : option string) (clock : nat -> Z).

Definition or_default (id : option string) (otherwise : string) : string :=
  match id with Some s => if bool_decide (s = EmptyString) then otherwise else s | None => otherwise end.

(** The statements of [ensureDocument]; the readings of the clock are numbered from [t], with
    a number for each row that may be made. *)
Definition ensureDocument (d : database) (t : nat) (documentId : string) (contentSize : jsv) : list statement :=
  if bool_decide (is_Some (db_documents d !! documentId)) then []
  else
    let workspaceId := or_default defaultWorkspaceId "ws_default" in
    let folderId := or_default defaultFolderId "folder_default" in
    [ fun d => if bool_decide (is_Some (db_workspaces d !! workspaceId)) then None
               else Some (createWorkspace d workspaceId
                            (MkWorkspace "Default Workspace" "creator" (Some "general") (Some 0%Z) None None None (clock t) (clock (S t))));
      fun d => match getFolders d workspaceId with
               | [] => Some (createFolder d folderId (MkFolder workspaceId "Default Folder" 1 None (clock (2 + t)) (clock (3 + t))))
               | _ => None
               end;
      fun d => Some (let* size := bound (integer_value (match contentSize with VUndef => VNum 0 | v => v end)) in
                     createDocument d documentId
                       (MkDocument folderId workspaceId ("Document " +:+ documentId) 1 None (default 0%Z size) (Some "draft") (clock (4 + t)) (clock (5 + t)))) ].

(** The state of a backend: its database, the readings of the clock so far, and whether it is
    closed. *)
Record backend : Type := MkBackend { data : database; ticks : nat; closed : bool }.

Definition open (d : database) : backend := MkBackend d 0 false.

Definition with_data (b : backend) (r : database * result backend_error unit) : backend * result backend_error unit :=
  (MkBackend (fst r) (6 + ticks b) (closed b), snd r).

Definition with_entries (b : backend) (r : result backend_error (list entry_row)) : backend * result backend_error unit :=
  match r with
  | Err e => (b, Err e)
  | Ok t =>
      let d := data b in
      (MkBackend (MkDatabase t (db_workspaces d) (db_folders d) (db_documents d) (db_snapshots d) (db_deltas d) (db_lastDelta d)) (ticks b) (closed b), Ok tt)
  end.

Definition saveSnapshot (b : backend) (io : option nat) (snapshot : jsv) : backend * result backend_error unit :=
  if closed b then (b, Err Closed)
  else
    with_data b (run_statements io (data b)
      (ensureDocument (data b) (ticks b) (delta_document snapshot) (prop snapshot "contentSize") ++ [fun d => Some (upsertSnapshot d snapshot)])).

Definition getSnapshot (b : backend) (documentId : string) : result backend_error jsv :=
  if closed b then Err Closed
  else Ok (match db_snapshots (data b) !! documentId with Some r => snapshot_value documentId r | None => VNull end).

Definition appendDocumentDelta (b : backend) (io : option nat) (delta : jsv) : backend * result backend_error unit :=
  with_data b (run_statements io (data b)
    (ensureDocument (data b) (ticks b) (delta_document delta) (VNum 0) ++ [fun d => Some (appendDelta d delta)])).

#[local] Instance run : SessionBackend backend := fun b io c =>
  match c with
  | Close => (MkBackend (data b) (ticks b) true, Ok Done)
  | _ =>
      if closed b then (b, Err Closed)
      else
        let t := db_entries (data b) in
        match c with
        | Initialize | Close => (b, Ok Done)
        | AppendEntries sessionId entries | LoadEntries sessionId entries => Memory.done_if (with_entries b (append_rows io t sessionId entries))
        | GetEntries sessionId from =>
            (b, throw_if negb (validateStorageId sessionId) with InvalidStorageId in
                let* es := getSessionEntries t sessionId in Ok (Entries (from_timestamp from es)))
        | GetEntryPage sessionId options =>
            (b, let* es := getSessionEntries t sessionId in let* p := pageEntries sessionId es options in Ok (APage p))
        | ForkSession source target headId => Memory.done_if (with_entries b (fork_rows io t source target headId))
        | AppendDelta delta => Memory.done_if (appendDocumentDelta b io delta)
        | GetDeltas documentId from => (b, Ok (Entries (getDeltas (data b) documentId from)))
        end
  end.
End Documents.
