(* ===== verification/SqliteProofs.v ===== *)
(** What the database backend promises: it is a [JournalStore], which stores the columns of an
    entry, and it answers as the memory backend does, with the entries in that form; where it
    differs from the other backends. *)

From Stdlib Require Import Sorting.Sorted.
From S2P Require Import Prelude JsValue JsonText JsonTextProofs SessionEntries SessionEntriesProofs JsonLines SessionBackends SessionBackendsProofs SessionStores SessionTheorems Materializer SqliteBackend.

(** * Entries and their rows *)

(** The form in which an entry comes back from its columns. *)
Definition hash_field (v : jsv) : list (string * jsv) := match v with VStr h => [("hash", VStr h)] | _ => [] end.

Definition row_form (e : jsv) : jsv :=
  VObj ([("id", prop e "id"); ("sessionId", prop e "sessionId"); ("seq", prop e "seq"); ("parentId", prop e "parentId")]
        ++ optional_property "laneId" (or_null (prop e "laneId")) ++ optional_property "operationId" (or_null (prop e "operationId"))
        ++ [("type", prop e "type"); ("payload", prop e "payload"); ("timestamp", prop e "timestamp"); ("version", VNum 1)]
        ++ hash_field (prop e "hash")).

(** A property of the type [string | null], or none. *)
Definition textual (v : jsv) : Prop := v = VUndef \/ v = VNull \/ exists s, v = VStr s.

(** An entry whose properties are of the types of [SessionEntry]. *)
Record fits_columns (e : jsv) : Prop := MkFits {
  fc_storable : storable e;
  fc_payload : prop e "payload" <> VUndef;
  fc_lane : textual (prop e "laneId");
  fc_operation : textual (prop e "operationId");
  fc_hash : textual (prop e "hash");
  fc_timestamp : forall t, prop e "timestamp" = VNum t -> (Z.abs t <= 2 ^ 53 - 1)%Z;
}.

Lemma optional_cases key v : textual v ->
  optional_property key (or_null v) = [] \/ exists s, s <> EmptyString /\ v = VStr s /\ optional_property key (or_null v) = [(key, VStr s)].
Proof.
  intros [->|[->|(s & ->)]]; [by left|by left|]. unfold or_null, optional_property. simpl. case_bool_decide as E; [by left|].
  right. exists s. split_and!; try done. simpl. by rewrite bool_decide_eq_false_2.
Qed.

Lemma hash_cases v : hash_field v = [] \/ exists s, v = VStr s /\ hash_field v = [("hash", VStr s)].
Proof. destruct v as [| | | |s| |]; eauto. Qed.

Ltac by_columns e :=
  let H := fresh in
  intros H; unfold row_form;
  destruct (optional_cases "laneId" (prop e "laneId") (fc_lane e H)) as [->|(? & ? & ? & ->)];
  destruct (optional_cases "operationId" (prop e "operationId") (fc_operation e H)) as [->|(? & ? & ? & ->)];
  destruct (hash_cases (prop e "hash")) as [->|(? & ? & ->)].

Lemma row_form_columns e : fits_columns e ->
  prop (row_form e) "type" = prop e "type" /\ prop (row_form e) "payload" = prop e "payload" /\
  prop (row_form e) "timestamp" = prop e "timestamp" /\ prop (row_form e) "version" = VNum 1 /\ prop (row_form e) "journalBatch" = VUndef.
Proof. by_columns e; by split_and!. Qed.

Lemma row_form_texts e : fits_columns e ->
  optional_property "laneId" (or_null (prop (row_form e) "laneId")) = optional_property "laneId" (or_null (prop e "laneId")) /\
  optional_property "operationId" (or_null (prop (row_form e) "operationId")) = optional_property "operationId" (or_null (prop e "operationId")) /\
  hash_field (prop (row_form e) "hash") = hash_field (prop e "hash") /\
  textual (prop (row_form e) "laneId") /\ textual (prop (row_form e) "operationId") /\ textual (prop (row_form e) "hash").
Proof.
  by_columns e; split_and!; simpl; unfold or_null, optional_property, textual; simpl; rewrite ?bool_decide_eq_false_2 by done; simpl;
    rewrite ?bool_decide_eq_false_2 by done; eauto.
Qed.

Lemma row_form_idem e : fits_columns e -> row_form (row_form e) = row_form e.
Proof.
  intros H. destruct (row_form_columns e H) as (H1 & H2 & H3 & _ & _), (row_form_texts e H) as (H4 & H5 & H6 & _).
  unfold row_form at 1. by rewrite H1, H2, H3, H4, H5, H6.
Qed.

Lemma plain_safe v : plain v -> json_safe v = true.
Proof.
  induction v as [| | | | |items IH|fs IH] using jsv_deep_ind; simpl; try done.
  - intros Hp%plain_items. apply forallb_forall. intros x Hx%list_elem_of_In. rewrite Forall_forall in *. auto.
  - intros [_ Hp%plain_fields]. apply forallb_forall. intros x Hx%list_elem_of_In. rewrite Forall_forall in *. auto.
Qed.

Lemma plain_property e key : plain e -> prop e key <> VUndef -> plain (prop e key).
Proof.
  destruct e as [| | | | | |fs]; try done. intros [_ Hp%plain_fields]. simpl. destruct (assoc_get fs key) as [v|] eqn:E; [|done].
  intros _. apply assoc_get_in in E. rewrite Forall_forall in Hp. by apply (Hp (key, v)).
Qed.

Section Placed.
Context (sessionId : string) (ids : gset string) (last : Z) (e : jsv).
Hypothesis Hp : placed sessionId ids last e.
Hypothesis Hf : fits_columns e.
Hypothesis Hids : EmptyString ∉ ids.

Lemma row_form_plain : plain (row_form e).
Proof.
  destruct Hp as [_ _ Hs (id & Hi & _) (n & Hn & _) Hpar (t & Ht) (ty & Hty & _) _]. destruct (fc_storable e Hf) as [Hpl _].
  pose proof (fc_payload e Hf) as Hpay. assert (Hpp := plain_property e "payload" Hpl Hpay).
  assert (Hprops : plain (prop e "id") /\ plain (prop e "sessionId") /\ plain (prop e "seq") /\ plain (prop e "parentId") /\ plain (prop e "type") /\ plain (prop e "timestamp")).
  { split_and!; apply plain_property; try done; try congruence. destruct Hpar as [->|(p & -> & _)]; done. }
  destruct Hprops as (P1 & P2 & P3 & P4 & P5 & P6). clear - Hf P1 P2 P3 P4 P5 P6 Hpp. revert Hf.
  by_columns e; (split; [apply (bool_decide_unpack _); reflexivity|]); cbn -[plain]; split_and!; done.
Qed.

Lemma row_form_placed : placed sessionId ids last (row_form e).
Proof.
  pose proof (plain_safe _ row_form_plain) as Hsafe. destruct (row_form_columns e Hf) as (H1 & H2 & H3 & H4 & H5).
  destruct Hp as [_ _ Hs Hi Hn Hpar Ht Hty _]. constructor; rewrite ?H1, ?H3, ?H4; try done. by eexists.
Qed.

Lemma row_form_fits : fits_columns (row_form e).
Proof.
  destruct (row_form_columns e Hf) as (H1 & H2 & H3 & H4 & H5), (row_form_texts e Hf) as (_ & _ & _ & ? & ? & ?).
  constructor; try done.
  - split; [exact row_form_plain|done].
  - rewrite H2. by apply Hf.
  - rewrite H3. by apply Hf.
Qed.

(** A row for the entry, from which the form comes back. *)
Lemma columns_of_entry `{SqliteDriverLaws} : exists r, entry_columns e = Ok r /\ entry_of_row r = Ok (row_form e) /\
  er_id r = entry_id e /\ er_sessionId r = sessionId /\ er_seq r = entry_seq e.
Proof.
  destruct Hp as [_ _ Hs (id & Hi & _) (n & Hn & Hsafe & _) Hpar (t & Ht) (ty & Hty & _) Hv].
  assert (Hopt : forall v, textual v -> exists c, text_value (or_null v) = Some c /\ column_or_null c = or_null v).
  { intros v [->|[->|(s & ->)]]; [exists None; by rewrite text_null|exists None; by rewrite text_null|]. unfold or_null at 1. cbn [js_truthy].
    case_bool_decide as E; cbn [negb]; [exists None; rewrite text_null; by subst s|]. exists (Some s). by rewrite text_string. }
  assert (Hp' : textual (prop e "parentId")). { destruct Hpar as [->|(p & -> & _)]; [right; by left|right; right; eauto]. }
  destruct (Hopt _ Hp') as (cp & Ecp & Ecp'). destruct (Hopt _ (fc_lane e Hf)) as (cl & Ecl & Ecl'). destruct (Hopt _ (fc_operation e Hf)) as (co & Eco & Eco').
  assert (Hh : exists ch, text_value (nullish_or (prop e "hash") VNull) = Some ch /\ match ch with Some h => [("hash", VStr h)] | None => [] end = hash_field (prop e "hash")).
  { destruct (fc_hash e Hf) as [->|[->|(s & ->)]]; simpl; rewrite ?text_null, ?text_string; eauto. }
  destruct Hh as (ch & Ech & Ech').
  assert (Hpay : exists s, payload_text (prop e "payload") = VStr s /\ JSON_parse (chars s) = Some (prop e "payload")).
  { pose proof (fc_payload e Hf) as Hne. pose proof (plain_property e "payload" (proj1 (fc_storable e Hf)) Hne) as Hpl.
    exists (of_chars (JSON_text (prop e "payload"))). split; [by destruct (prop e "payload")|].
    unfold JSON_text. rewrite of_chars_chars. by apply parse_stringify. }
  destruct Hpay as (s & Es & Eparse).
  eexists. split.
  - unfold entry_columns. rewrite Hi, Hs, Hn, Hty, Ht, Hv, Ecp, Ecl, Eco, Es, Ech. cbn [nullish_or].
    rewrite !text_string, !integer_safe by (done || by apply (fc_timestamp e Hf)). reflexivity.
  - unfold entry_of_row. cbn [er_payloadJson er_id er_sessionId er_seq er_parentId er_laneId er_operationId er_type er_timestamp er_version er_hash].
    rewrite Eparse, Ecp', Ecl', Eco', Ech'. unfold entry_id, entry_seq, row_form. rewrite Hi, Hs, Hn, Hty, Ht. split_and!; try done.
    do 5 f_equal. destruct Hpar as [->|(p & -> & Hin)]; [done|]. unfold or_null. cbn [js_truthy]. case_bool_decide; [by subst p|done].
Qed.
End Placed.

Lemma row_entry r e : entry_of_row r = Ok e -> entry_id e = er_id r /\ entry_seq e = er_seq r.
Proof. unfold entry_of_row. destruct (JSON_parse _); [|done]. by intros [= <-]. Qed.

Lemma no_empty_id s J : valid_log s J -> EmptyString ∉ ids_of J.
Proof.
  intros Hv (e & He & Hid)%elem_of_ids. apply list_elem_of_split in He as (a & b & ->). apply valid_log_app in Hv as [_ [Hp _]].
  destruct (pl_id _ _ _ _ Hp) as (id & Hi & Hb & _). unfold entry_id in Hid. rewrite Hi in Hid. simpl in Hid. by subst id.
Qed.

(** * The table of entries *)

Definition rows_of (t : list entry_row) (s : string) : list entry_row := List.filter (fun r => bool_decide (er_sessionId r = s)) t.

(** The rows of each session are the entries of its journal, in their order. *)
Definition table_holds (t : list entry_row) (J : journals_of) : Prop :=
  forall s, validateStorageId s = true ->
    valid_log s (J s) /\ Forall fits_columns (J s) /\ map row_form (J s) = J s /\ Forall2 (fun r e => entry_of_row r = Ok e) (rows_of t s) (J s).

Section Table.
Context `{SqliteDriverLaws}.
Implicit Types (t : list entry_row) (J : journals_of) (s : string).

Lemma rows_read rows es : Forall2 (fun r e => entry_of_row r = Ok e) rows es -> entries_of_rows rows = Ok es.
Proof. induction 1 as [|r e rows es Hr _ IH]; simpl; [done|]. by rewrite Hr, IH. Qed.

Lemma rows_sorted rows es : Forall2 (fun r e => entry_of_row r = Ok e) rows es -> StronglySorted seq_lt es ->
  StronglySorted (fun a b => (er_seq a < er_seq b)%Z) rows.
Proof.
  induction 1 as [|r e rows es Hr Hall IH]; intros Hs; [constructor|]. inversion Hs as [|? ? Hs' Hlt]; subst. constructor; [by apply IH|].
  apply row_entry in Hr as [_ Hr]. clear - Hr Hall Hlt. induction Hall as [|r' e' rows es [_ Hr']%row_entry _ IH]; constructor; inversion Hlt; subst; [|by apply IH].
  unfold seq_lt in *. lia.
Qed.

Lemma table_read t J s : table_holds t J -> validateStorageId s = true -> getSessionEntries t s = Ok (J s).
Proof.
  intros HT Hid. destruct (HT s Hid) as (Hv & _ & _ & Hrows). unfold getSessionEntries. fold (rows_of t s).
  pose proof (js_sort_unique er_seq (rows_of t s) (rows_of t s)) as Hsort. fold by_seq in Hsort. rewrite Hsort; [by apply rows_read| |done].
  eapply rows_sorted; [exact Hrows|]. by apply valid_log_sorted in Hv.
Qed.

Lemma upsert_new t J r : table_holds t J -> validateStorageId (er_sessionId r) = true -> er_id r ∉ ids_of (J (er_sessionId r)) -> upsert t r = t ++ [r].
Proof.
  intros HT Hid Hnew. unfold upsert. destruct (existsb (same_key r) t) eqn:E; [|done]. exfalso. apply Hnew.
  apply existsb_exists in E as (r' & Hin & Hk). apply andb_true_iff in Hk as [Hs%bool_decide_eq_true Hi%bool_decide_eq_true].
  destruct (HT _ Hid) as (_ & _ & _ & Hrows). assert (Hr' : r' ∈ rows_of t (er_sessionId r)).
  { apply list_elem_of_In, filter_In. split; [done|]. by apply bool_decide_eq_true_2. }
  apply list_elem_of_lookup in Hr' as [i Hr']. destruct (Forall2_lookup_l _ _ _ _ _ Hrows Hr') as (e & He & [Hee _]%row_entry).
  apply elem_of_ids. exists e. split; [by apply list_elem_of_lookup_2 in He|congruence].
Qed.

Lemma valid_log_form s (J : list jsv) e batch : fits_columns e -> valid_log s (J ++ e :: batch) -> valid_log s ((J ++ [row_form e]) ++ batch).
Proof.
  intros Hf [Hv [Hp Hb]]%valid_log_app. rewrite <- app_assoc. apply valid_log_app. split; [done|]. split; [by apply row_form_placed|done].
Qed.

(** A new entry of a session is a new row. *)
Lemma entry_saved t J s e batch : table_holds t J -> validateStorageId s = true -> valid_log s (J s ++ e :: batch) -> fits_columns e ->
  exists t', saveSessionEntry t e = Ok t' /\ table_holds t' (fun o => if decide (o = s) then J s ++ [row_form e] else J o).
Proof.
  intros HT Hid Hv Hf. destruct (HT s Hid) as (_ & HF & Hform & Hrows). pose proof Hv as [Hold [Hp _]]%valid_log_app.
  destruct (columns_of_entry s _ _ e Hp Hf (no_empty_id s _ Hold)) as (r & Hc & He & Hi & Hs & _).
  exists (t ++ [r]). unfold saveSessionEntry. rewrite Hc. cbn [bind_res]. rewrite (upsert_new t J); [|done|by rewrite Hs|rewrite Hs, Hi; by eapply placed_fresh].
  split; [done|]. assert (Hrows' : forall o, rows_of (t ++ [r]) o = rows_of t o ++ if decide (o = s) then [r] else []).
  { intros o. unfold rows_of. rewrite List.filter_app. simpl. rewrite Hs. destruct (decide (o = s)) as [->|Hne]; [by rewrite bool_decide_eq_true_2|].
    by rewrite bool_decide_eq_false_2 by congruence. }
  intros o Ho. rewrite Hrows'. destruct (decide (o = s)) as [->|Hne]; [|rewrite app_nil_r; by apply HT]. split_and!.
  - pose proof (valid_log_form s (J s) e batch Hf Hv) as Hv'. by apply valid_log_app in Hv' as [? _].
  - apply Forall_app_2; [done|]. apply Forall_singleton. by eapply row_form_fits.
  - rewrite map_app, Hform. cbn [map]. by rewrite row_form_idem.
  - apply Forall2_app; [done|by repeat constructor].
Qed.

Lemma batch_saved batch s : validateStorageId s = true -> Forall fits_columns batch -> forall t J io, table_holds t J -> valid_log s (J s ++ batch) ->
  match save_batch io t batch with
  | Ok t' => table_holds t' (fun o => if decide (o = s) then J s ++ map row_form batch else J o)
  | Err _ => io <> None
  end.
Proof.
  intros Hid. induction 1 as [|e batch Hf _ IH]; intros t J io HT Hv; cbn [save_batch].
  - case_bool_decide as Hio; [by rewrite Hio|]. intros o Ho. cbn [map]. rewrite app_nil_r. destruct (decide (o = s)) as [->|]; by apply HT.
  - destruct (entry_saved t J s e batch HT Hid Hv Hf) as (t' & -> & HT'). cbn [bind_res]. case_bool_decide as Hio; [by rewrite Hio|].
    specialize (IH t' _ (option_map pred io) HT'). cbn beta in IH. rewrite decide_True in IH by done. specialize (IH (valid_log_form s (J s) e batch Hf Hv)).
    destruct (save_batch _ t' batch) as [t2|]; [|by destruct io]. intros o Ho. specialize (IH o Ho). cbn beta in IH.
    destruct (decide (o = s)) as [->|]; [|done]. cbn [map]. by rewrite <- app_assoc in IH.
Qed.
End Table.

(** * The database backend keeps the promise *)

Section Store.
Context `{SqliteDriverLaws} (foreign_keys : bool) (defaultWorkspaceId defaultFolderId : option string) (clock : nat -> Z).
Implicit Types (b : backend) (J : journals_of) (s : string).

#[local] Instance sqlite_backend : SessionBackend backend := SqliteBackend.run foreign_keys defaultWorkspaceId defaultFolderId clock.

Definition sqlite_holds b J : Prop := closed b = false /\ table_holds (db_entries (data b)) J.

Lemma fits_versioned e e' : fits_columns e -> versioned e e' -> fits_columns e'.
Proof.
  intros [Hst ? ? ? ? ?] Hver. pose proof (storable_versioned e e' Hst Hver) as Hst'. destruct Hver as (fs & -> & ->). cbn [with_field] in *.
  constructor; rewrite ?prop_set; done.
Qed.

Lemma columns_moved target fs : fits_columns (VObj fs) ->
  fits_columns (moved target (VObj fs)) /\ row_form (moved target (VObj fs)) = moved target (row_form (VObj fs)).
Proof.
  intros [Hst ? ? ? ? ?]. pose proof (storable_moved target fs Hst) as Hst'. unfold moved in *. cbn [with_field] in *. split.
  - constructor; rewrite ?prop_set; done.
  - unfold row_form at 1. by rewrite !prop_set.
Qed.

Lemma sqlite_sound b J s : sqlite_holds b J -> validateStorageId s = true -> sound_journal s (J s).
Proof. intros [_ HT] Hid. destruct (HT s Hid) as (Hv & Hf & _). split; [done|]. eapply Forall_impl; [exact Hf|]. by intros e [? ? ? ? ? ?]. Qed.

Lemma sqlite_stored b J s : sqlite_holds b J -> validateStorageId s = true -> Forall fits_columns (J s) /\ map row_form (J s) = J s.
Proof. intros [_ HT] Hid. by destruct (HT s Hid) as (_ & ? & ? & _). Qed.

Lemma sqlite_page b J io s options : sqlite_holds b J -> validateStorageId s = true ->
  run_call b io (GetEntryPage s options) = (b, let* p := pageEntries s (J s) options in Ok (APage p)).
Proof. intros [Hc HT] Hid. unfold run_call, sqlite_backend, SqliteBackend.run. by rewrite Hc, (table_read _ J). Qed.

Lemma sqlite_get b J io s from : sqlite_holds b J -> validateStorageId s = true ->
  run_call b io (GetEntries s from) = (b, Ok (Entries (from_timestamp from (J s)))).
Proof. intros [Hc HT] Hid. unfold run_call, sqlite_backend, SqliteBackend.run. by rewrite Hc, Hid, (table_read _ J). Qed.

Lemma sqlite_fork b J io source target headId : sqlite_holds b J -> validateStorageId source = true -> validateStorageId target = true ->
  run_call b io (ForkSession source target headId) =
    match forkEntries source target (J source) (J target) headId with
    | Err e => (b, Err e)
    | Ok es => run_call b io (AppendEntries target es)
    end.
Proof.
  intros [Hc HT] Hs Ht. unfold run_call, sqlite_backend, SqliteBackend.run. rewrite Hc. unfold fork_rows, append_rows.
  rewrite !(table_read _ J) by done. cbn [bind_res]. destruct (HT source Hs) as (Hv & _).
  destruct (forkEntries_cases source target (J source) (J target) headId Hv Hs Ht) as [(es & -> & _ & -> & _)|(e & -> & _)]; done.
Qed.

Lemma sqlite_append b J io s es b' r : sqlite_holds b J -> validateStorageId s = true -> Forall fits_columns es ->
  run_call b io (AppendEntries s es) = (b', r) -> append_outcome sqlite_holds (fun _ _ => True) (map row_form) b J io s es b' r.
Proof.
  intros [Hc HT] Hid Hes. unfold append_outcome, run_call, sqlite_backend, SqliteBackend.run, append_rows. rewrite Hc, (table_read _ J) by done.
  cbn [bind_res]. destruct (prepareEntryBatch s (J s) es) as [batch|e] eqn:E; cbn [bind_res]; [|intros [= <- <-]; by exists J].
  destruct (HT s Hid) as (Hv & _). apply prepareEntryBatch_valid in E as (_ & Hv' & Hver); [|done].
  assert (Hb : Forall fits_columns batch).
  { clear - Hes Hver. induction Hver as [|x y xs ys Hxy _ IH]; [constructor|]. inversion Hes; subst. constructor; [by eapply fits_versioned|by apply IH]. }
  pose proof (batch_saved batch s Hid Hb _ J io HT Hv') as Hsave. destruct (save_batch io _ batch) as [t'|e']; intros [= <- <-].
  - exists (fun o => if decide (o = s) then J s ++ map row_form batch else J o). split_and!; [by split| |done|left; by rewrite decide_True].
    intros o Ho. by rewrite decide_False.
  - exists J. split_and!; try done. right. split_and!; [done|by left|by left].
Qed.

#[local] Instance sqlite_store : JournalStore backend := {|
  holds := sqlite_holds; ready := fun _ _ => True; fits := fits_columns; stored := row_form;
  store_sound := sqlite_sound; store_stored := sqlite_stored; fits_moved := columns_moved; store_page := sqlite_page; store_get := sqlite_get;
  store_fork := sqlite_fork; store_append := sqlite_append |}.
End Store.

(** * Journals in the form of rows *)

Definition page_in_rows (p : page) : page := MkPage (map row_form (p_entries p)) (p_nextCursor p).

Definition in_rows (r : outcome) : outcome :=
  match r with Ok (Entries es) => Ok (Entries (map row_form es)) | Ok (APage p) => Ok (APage (page_in_rows p)) | r => r end.

Lemma ids_form J : ids_of (map row_form J) = ids_of J.
Proof. unfold ids_of. by rewrite map_map. Qed.

Lemma last_form (l : list jsv) : list.last (map row_form l) = option_map row_form (list.last l).
Proof. induction l as [|x [|y l] IH]; [done|done|]. exact IH. Qed.

Lemma last_seq_form J : last_seq (map row_form J) = last_seq J.
Proof. unfold last_seq. rewrite last_form. by destruct (list.last J). Qed.

Lemma prepare_form s J es : prepareEntryBatch s (map row_form J) es = prepareEntryBatch s J es.
Proof. unfold prepareEntryBatch. by rewrite ids_form, last_seq_form. Qed.

Lemma filter_form (p : jsv -> bool) l : (forall e, e ∈ l -> p (row_form e) = p e) -> List.filter p (map row_form l) = map row_form (List.filter p l).
Proof.
  induction l as [|e l IH]; intros H; [done|]. cbn [map List.filter]. rewrite H by (by left). rewrite IH by (intros x Hx; apply H; by right).
  by destruct (p e).
Qed.

Lemma existsb_form (p : jsv -> bool) l : (forall e, p (row_form e) = p e) -> existsb p (map row_form l) = existsb p l.
Proof. intros H. induction l as [|e l IH]; [done|]. cbn [map existsb]. by rewrite H, IH. Qed.

Lemma from_timestamp_form from l : Forall fits_columns l -> from_timestamp from (map row_form l) = map row_form (from_timestamp from l).
Proof.
  intros Hf. destruct from as [t|]; [|done]. apply filter_form. intros e He. rewrite Forall_forall in Hf.
  destruct (row_form_columns e (Hf e He)) as (_ & _ & Ht & _). unfold entry_timestamp. by rewrite Ht.
Qed.

Lemma ztake_form n (l : list jsv) : ztake n (map row_form l) = map row_form (ztake n l).
Proof. unfold ztake. by rewrite firstn_map. Qed.

Lemma page_form s J options : pageEntries s (map row_form J) options =
  match pageEntries s J options with Ok p => Ok (page_in_rows p) | Err e => Err e end.
Proof.
  unfold pageEntries. rewrite last_seq_form. destruct (negb (validateStorageId s)); [done|]. destruct (_ || _); [done|]. destruct (negb _ && negb _); [done|].
  set (upper := default (last_seq J) _). set (dir := default _ (o_direction options)).
  assert (Hc : (match o_cursor options with Some c => negb (valid_cursor s dir upper (map row_form J) c) | None => false end) =
    match o_cursor options with Some c => negb (valid_cursor s dir upper J c) | None => false end).
  { destruct (o_cursor options) as [c|]; [|done]. unfold valid_cursor. by rewrite !existsb_form. }
  rewrite Hc. match goal with |- context[if ?c then Err PageCursor else _] => destruct c end; [done|]. rewrite filter_form by done.
  set (l := List.filter _ J). assert (Hl : (if bool_decide (dir = "backward") then rev (map row_form l) else map row_form l) = map row_form (if bool_decide (dir = "backward") then rev l else l)).
  { case_bool_decide; [by rewrite map_rev|done]. }
  rewrite Hl. set (k := if bool_decide (dir = "backward") then rev l else l). unfold page_in_rows. cbn [p_entries p_nextCursor].
  rewrite ztake_form, last_form. do 2 f_equal. destruct (list.last (ztake _ k)); [|done]. cbn [option_map]. unfold zlen. by rewrite length_map.
Qed.

Lemma find_form id l : List.find (fun e => bool_decide (entry_id e = id)) (map row_form l) = option_map row_form (List.find (fun e => bool_decide (entry_id e = id)) l).
Proof. induction l as [|e l IH]; [done|]. cbn [map List.find]. change (entry_id (row_form e)) with (entry_id e). by case_bool_decide. Qed.

Lemma climb_form J fuel : forall seen id, climb (map row_form J) fuel seen id =
  match climb J fuel seen id with Ok path => Ok (map row_form path) | Err e => Err e end.
Proof.
  induction fuel as [|fuel IH]; intros seen [id|]; try done; cbn [climb]; rewrite <- map_rev, find_form.
  - by destruct (List.find _ (rev J)).
  - destruct (List.find _ (rev J)) as [e|]; [|done]. cbn [option_map]. case_bool_decide; [done|].
    change (entry_parent (row_form e)) with (entry_parent e). rewrite IH. by destruct (climb J fuel _ _).
Qed.

Lemma form_moved target e : row_form (moved target e) = moved target (row_form e).
Proof. destruct e as [| | | | | |fs]; [done..|]. unfold moved. cbn [with_field]. unfold row_form at 1. by rewrite !prop_set. Qed.

Lemma fork_form source target J T T' headId : length T' = length T -> forkEntries source target (map row_form J) T' headId =
  match forkEntries source target J T headId with Ok es => Ok (map row_form es) | Err e => Err e end.
Proof.
  intros HT. unfold forkEntries. destruct (negb _); [done|]. destruct (negb _); [done|]. rewrite HT, length_map. destruct (_ || _); [done|].
  assert (Hm : forall l, map (moved target) (map row_form l) = map row_form (map (moved target) l)).
  { intros l. rewrite !map_map. apply map_ext. intros e. by rewrite form_moved. }
  change (fun e => with_field e "sessionId" (VStr target)) with (moved target). destruct headId as [id|]; cbn [bind_res]; [|by rewrite Hm].
  rewrite climb_form. destruct (climb J _ _ _); [|done]. cbn [bind_res]. by rewrite <- map_rev, Hm.
Qed.

(** * The database backend answers as the memory backend *)

Section Answers.
Context `{SqliteDriverLaws} (foreign_keys : bool) (defaultWorkspaceId defaultFolderId : option string) (clock : nat -> Z).
Implicit Types (m : Memory.backend) (b : backend).
#[local] Existing Instance sqlite_backend.
Abbreviation run_sqlite := (@run_call backend (sqlite_backend foreign_keys defaultWorkspaceId defaultFolderId clock)).

(** A call on journals with valid identifiers, and entries of the type of [SessionEntry]. *)
Definition journal_call (c : call) : Prop :=
  match c with
  | Initialize | Close => True
  | AppendEntries s es | LoadEntries s es => validateStorageId s = true /\ Forall fits_columns es
  | GetEntries s _ | GetEntryPage s _ => validateStorageId s = true
  | ForkSession source target _ => validateStorageId source = true /\ validateStorageId target = true
  | AppendDelta _ | GetDeltas _ _ => False
  end.

(** The database has the journals of the memory in the form of rows. *)
Record same_journals m b : Prop := MkSameJournals {
  sj_memory : memory_holds m (Memory.journal m);
  sj_fits : forall s, validateStorageId s = true -> Forall fits_columns (Memory.journal m s);
  sj_rows : sqlite_holds b (fun s => map row_form (Memory.journal m s));
}.

Definition alike m b : Prop := Memory.closed m = closed b /\ (Memory.closed m = false -> same_journals m b).

Lemma fits_stored e : fits_columns e -> storable e.
Proof. by intros [? _ _ _ _ _]. Qed.

Lemma rows_holds b J J' : (forall s, J s = J' s) -> sqlite_holds b J -> sqlite_holds b J'.
Proof. intros HJ [Hc HT]. split; [done|]. intros s Hs. rewrite <- HJ. by apply HT. Qed.

(** Two batches with the same rows, or the same reason why not. *)
Definition same_batch (a b : result backend_error (list jsv)) : Prop :=
  match a, b with Ok x, Ok y => map row_form x = map row_form y | Err e, Err e' => e = e' | _, _ => False end.

Lemma same_batch_refl a : same_batch a a.
Proof. by destruct a. Qed.

Lemma alike_append m b s es es' : same_journals m b -> validateStorageId s = true -> Forall fits_columns es -> Forall fits_columns es' ->
  same_batch (prepareEntryBatch s (Memory.journal m s) es) (prepareEntryBatch s (Memory.journal m s) es') ->
  snd (run_sqlite b None (AppendEntries s es')) = in_rows (snd (run_call m None (AppendEntries s es))) /\
  alike (fst (run_call m None (AppendEntries s es))) (fst (run_sqlite b None (AppendEntries s es'))).
Proof.
  intros [Hm Hf Hb] Hs Hes Hes' Hsame. destruct (run_call m None (AppendEntries s es)) as [m' r] eqn:Em. destruct (run_sqlite b None (AppendEntries s es')) as [b' r'] eqn:Eb.
  assert (Hst : Forall storable es) by (eapply Forall_impl; [exact Hes|apply fits_stored]).
  destruct (memory_append m _ None s es m' r Hm Hs Hst Em) as (Jm & (Hcm & HJm & Hsm) & Hom & _ & Hcm').
  destruct (sqlite_append foreign_keys defaultWorkspaceId defaultFolderId clock b _ None s es' b' r' Hb Hs Hes' Eb) as (Jb & Hb' & Hob & _ & Hcb').
  rewrite prepare_form in Hcb'. cbn [fst snd]. destruct (prepareEntryBatch s (Memory.journal m s) es) as [batch|e] eqn:E, (prepareEntryBatch s (Memory.journal m s) es') as [batch'|e']; simpl in Hsame; try done.
  - destruct Hcm' as [(-> & HJ & _)|(_ & [?|Hn] & _)]; [|done|by destruct Hn]. destruct Hcb' as [(-> & HJ' & _)|(_ & [?|Hn] & _)]; [|done|by destruct Hn].
    apply prepareEntryBatch_valid in E as (_ & _ & Hver); [|apply (memory_sound m _ s Hm Hs)].
    split; [done|]. split; [by rewrite Hcm, (proj1 Hb')|]. intros _. constructor.
    + split_and!; [done|done|]. intros o Ho. rewrite <- HJm. by apply Hsm.
    + intros o Ho. rewrite <- HJm. destruct (decide (o = s)) as [->|Hne]; [|rewrite Hom by done; by apply Hf]. rewrite HJ. apply Forall_app_2; [by apply Hf|].
      clear - Hes Hver. induction Hver as [|x y xs ys Hxy _ IH]; [constructor|]. inversion Hes; subst. constructor; [by eapply fits_versioned|by apply IH].
    + eapply rows_holds; [|exact Hb']. intros o. cbn beta. rewrite <- HJm. destruct (decide (o = s)) as [->|Hne]; [by rewrite HJ, HJ', map_app, Hsame|].
      by rewrite Hom, Hob.
  - destruct Hcm' as (_ & HJ & Hr). destruct Hcb' as (_ & HJ' & Hr'). destruct (Hr I) as [-> _]. destruct (Hr' I) as [-> _]. subst e'.
    split; [done|]. split; [by rewrite Hcm, (proj1 Hb')|]. intros _. constructor.
    + split_and!; [done|done|]. intros o Ho. rewrite <- HJm. by apply Hsm.
    + intros o Ho. rewrite <- HJm. destruct (decide (o = s)) as [->|Hne]; [rewrite HJ|rewrite Hom by done]; by apply Hf.
    + eapply rows_holds; [|exact Hb']. intros o. cbn beta. rewrite <- HJm. destruct (decide (o = s)) as [->|Hne]; [by rewrite HJ, HJ'|by rewrite Hom, Hob].
Qed.

Lemma selected_columns s target J headId selected : valid_log s J -> Forall fits_columns J -> fork_selects target J headId selected -> Forall fits_columns selected.
Proof.
  intros Hv Hf (l & -> & Hl)%(selected_from s); [|done]. apply Forall_map. eapply Forall_impl; [exact Hl|]. intros x [Hx (fs & ->)].
  rewrite Forall_forall in Hf. exact (proj1 (columns_moved target fs (Hf _ Hx))).
Qed.

(** Every call keeps the two backends together. *)
Lemma alike_call m b c : alike m b -> journal_call c ->
  snd (run_sqlite b None c) = in_rows (snd (run_call m None c)) /\ alike (fst (run_call m None c)) (fst (run_sqlite b None c)).
Proof.
  intros [Hclosed Hdata] Hok. destruct (Memory.closed m) eqn:Hc.
  { assert (Ha : alike m b) by (split; [congruence|by rewrite Hc]). unfold run_call, Memory.run, sqlite_backend, SqliteBackend.run. rewrite Hc, <- Hclosed.
    destruct c; try (split; [done|exact Ha]). split; [done|]. unfold Memory.close. rewrite Hc. split; [done|]. cbn [fst]. congruence. }
  specialize (Hdata eq_refl). pose proof Hdata as [Hm Hf Hb].
  assert (Hstay : forall r r' : outcome, r' = in_rows r -> r' = in_rows r /\ alike m b) by (intros r r' ->; split; [done|by split; [congruence|]]).
  destruct c as [| |s es|s es|s from|s options|src tgt h|d|doc from]; simpl in Hok; try done.
  - unfold run_call, Memory.run, sqlite_backend, SqliteBackend.run. rewrite Hc, <- Hclosed. by apply Hstay.
  - unfold run_call, Memory.run, sqlite_backend, SqliteBackend.run, Memory.close. rewrite Hc. by split.
  - destruct Hok. apply alike_append; try done. apply same_batch_refl.
  - exact (alike_append m b s es es Hdata (proj1 Hok) (proj2 Hok) (proj2 Hok) (same_batch_refl _)).
  - rewrite (memory_get m _ None s from Hm Hok), (sqlite_get _ _ _ _ b _ None s from Hb Hok). apply Hstay. cbn [in_rows]. by rewrite from_timestamp_form by (by apply Hf).
  - rewrite (memory_page m _ None s options Hm Hok), (sqlite_page _ _ _ _ b _ None s options Hb Hok). apply Hstay. cbn [snd]. rewrite page_form.
    by destruct (pageEntries _ _ _).
  - destruct Hok as [Hs Ht]. rewrite (memory_fork m _ None src tgt h Hm Hs Ht), (sqlite_fork _ _ _ _ b _ None src tgt h Hb Hs Ht).
    rewrite (fork_form src tgt _ (Memory.journal m tgt)) by apply length_map. destruct (memory_sound m _ src Hm Hs) as [Hval _].
    pose proof (sqlite_sound _ _ src Hb Hs) as [Hval' _].
    destruct (forkEntries_cases src tgt _ (Memory.journal m tgt) h Hval Hs Ht) as [(sel & Efork & _ & HT & Hv & Hspec)|(e & -> & _)]; [|by apply Hstay].
    pose proof (selected_columns _ _ _ _ _ Hval (Hf src Hs) Hspec) as Hsel.
    destruct (forkEntries_cases src tgt _ (Memory.journal m tgt) h Hval' Hs Ht) as [(sel' & Efork' & _ & _ & Hv' & Hspec')|(e & Efork' & _)];
      rewrite (fork_form src tgt _ (Memory.journal m tgt)), Efork in Efork' by done; [|done]. injection Efork' as <-. rewrite Efork.
    apply (alike_append m b tgt sel (map row_form sel)); try done.
    + exact (selected_columns _ _ _ _ _ Hval' (proj1 (sqlite_stored _ _ src Hb Hs)) Hspec').
    + rewrite HT, !prepareEntryBatch_stored by done. simpl. rewrite map_map. apply list_fmap_ext. intros k x Hx. symmetry. apply row_form_idem.
      rewrite Forall_forall in Hsel. apply Hsel. by eapply list_elem_of_lookup_2.
Qed.

Lemma alike_answers calls : Forall journal_call calls -> forall m b, alike m b ->
  @answers backend (sqlite_backend foreign_keys defaultWorkspaceId defaultFolderId clock) b calls = map in_rows (answers m calls).
Proof.
  induction 1 as [|c calls Hc _ IH]; intros m b Ha; [done|]. destruct (alike_call m b c Ha Hc) as [Hr Ha']. cbn [answers].
  destruct (run_call m None c) as [m' r], (run_sqlite b None c) as [b' r']. cbn [fst snd] in *. cbn [map]. rewrite Hr. f_equal. by apply IH.
Qed.

Lemma alike_new d : db_entries d = [] -> alike Memory.new (SqliteBackend.open d).
Proof.
  intros Hd. split; [done|]. intros _. constructor.
  - split_and!; [done|done|]. intros s _. by split; [|constructor].
  - intros s _. constructor.
  - split; [done|]. cbn [data SqliteBackend.open]. rewrite Hd. intros s _. by split_and!.
Qed.

(** C12: the database backend answers as the memory backend.  Over a database without session
    entries, whatever else it holds, every sequence of calls on journals, of entries with the
    types of [SessionEntry], gets the answers and the errors of the backend that keeps them in
    memory; an entry comes back with the columns of its row and nothing else. *)
Theorem sqlite_answers_as_memory d calls : db_entries d = [] -> Forall journal_call calls ->
  @answers backend (SqliteBackend.run foreign_keys defaultWorkspaceId defaultFolderId clock) (SqliteBackend.open d) calls = map in_rows (answers Memory.new calls).
Proof. intros Hd Hc. apply alike_answers; [done|]. by apply alike_new. Qed.
End Answers.

(** * Documents *)

Section Documents.
Context `{SqliteDriverLaws} (foreign_keys : bool) (defaultWorkspaceId defaultFolderId : option string) (clock : nat -> Z).

(** The default folder is where the default workspace needs it: a row of it, or neither a
    folder of the workspace nor a row of its name. *)
Definition folder_in_place (d : database) : Prop :=
  let workspaceId := or_default defaultWorkspaceId "ws_default" in
  let folderId := or_default defaultFolderId "folder_default" in
  match getFolders d workspaceId with [] => db_folders d !! folderId = None | _ => is_Some (db_workspaces d !! workspaceId) /\ is_Some (db_folders d !! folderId) end.

Definition snapshot_ok (snapshot : jsv) : Prop :=
  exists id version json markdown size updatedAt, snapshot = snapshot_value id (MkSnapshot version json markdown size updatedAt) /\
    (Z.abs version <= 2 ^ 53 - 1)%Z /\ (Z.abs size <= 2 ^ 53 - 1)%Z /\ (Z.abs updatedAt <= 2 ^ 53 - 1)%Z.

Lemma inserted_new {A : Type} (t : gmap string A) id row refers : t !! id = None -> refers = true -> inserted foreign_keys t id row refers = Ok (<[id := row]> t).
Proof. intros Hn ->. unfold inserted. rewrite Hn, bool_decide_eq_false_2 by (by intros [? ?]). by rewrite andb_false_r. Qed.

(** Afterwards the document is there. *)
Lemma document_ensured d t id size : folder_in_place d -> (Z.abs size <= 2 ^ 53 - 1)%Z -> db_documents d !! id = None ->
  exists d', run_statements None d (ensureDocument foreign_keys defaultWorkspaceId defaultFolderId clock d t id (VNum size)) = (d', Ok tt) /\ is_Some (db_documents d' !! id).
Proof.
  unfold folder_in_place, ensureDocument. set (w := or_default _ "ws_default"). set (f := or_default _ "folder_default"). cbn zeta.
  intros Hplace Hsize Hnew. rewrite bool_decide_eq_false_2 by (rewrite Hnew; by intros [? ?]).
  rewrite integer_safe by done. cbn [bound bind_res]. destruct (getFolders d w) as [|g gs] eqn:Hg.
  - assert (Hstep : exists d1, (match (if bool_decide (is_Some (db_workspaces d !! w)) then None
        else Some (createWorkspace foreign_keys d w (MkWorkspace "Default Workspace" "creator" (Some "general") (Some 0%Z) None None None (clock t) (clock (S t))))) with
        | None => d1 = d | Some r => r = Ok d1 end) /\ is_Some (db_workspaces d1 !! w) /\ getFolders d1 w = [] /\ db_folders d1 = db_folders d /\ db_documents d1 = db_documents d).
    { case_bool_decide as Hw; [by exists d|]. eexists. split; [unfold createWorkspace; rewrite inserted_new; [reflexivity|by apply eq_None_not_Some|done]|].
      cbn. split_and!; try done. rewrite lookup_insert_eq. by eexists. }
    destruct Hstep as (d1 & Hd1 & Hw1 & Hg1 & Hf1 & Hdoc1).
    assert (Hrest : exists d', run_statements None d1
      [fun d0 => match getFolders d0 w with [] => Some (createFolder foreign_keys d0 f (MkFolder w "Default Folder" 1 None (clock (2 + t)) (clock (3 + t)))) | _ => None end;
       fun d0 => Some (createDocument foreign_keys d0 id (MkDocument f w ("Document " +:+ id) 1 None size (Some "draft") (clock (4 + t)) (clock (5 + t))))] = (d', Ok tt) /\
      is_Some (db_documents d' !! id)).
    { cbn [run_statements]. rewrite Hg1. unfold createFolder. rewrite Hf1, inserted_new by (done || by apply bool_decide_eq_true_2). cbn [bind_res].
      rewrite bool_decide_eq_false_2 by done. cbn [option_map]. unfold createDocument. cbn [db_documents db_folders db_workspaces dc_folderId dc_workspaceId].
      rewrite Hdoc1, lookup_insert_eq, inserted_new; [|done|by rewrite !bool_decide_eq_true_2]. cbn [bind_res]. rewrite bool_decide_eq_false_2 by done.
      eexists. split; [done|]. cbn. rewrite lookup_insert_eq. by eexists. }
    destruct Hrest as (d' & Hrun & Hdoc). exists d'. split; [|done]. rewrite <- Hrun.
    cbn [run_statements option_map]. case_bool_decide; cbn iota beta in Hd1 |- *; [by subst d1|]. rewrite Hd1. by rewrite bool_decide_eq_false_2 by done.
  - destruct Hplace as [Hw Hf]. cbn [run_statements option_map]. rewrite bool_decide_eq_true_2, Hg by done. unfold createDocument. rewrite inserted_new; [|done|cbn; by rewrite !bool_decide_eq_true_2].
    cbn [bind_res]. rewrite bool_decide_eq_false_2 by done. eexists. split; [done|]. cbn. rewrite lookup_insert_eq. by eexists.
Qed.

Lemma run_statements_app l1 l2 : forall d d', run_statements None d l1 = (d', Ok tt) -> run_statements None d (l1 ++ l2) = run_statements None d' l2.
Proof.
  induction l1 as [|f l1 IH]; intros d d'; cbn [run_statements app option_map]; [by intros [= ->]|]. destruct (f d) as [[d1|e]|]; [|done|by apply IH].
  rewrite bool_decide_eq_false_2 by done. apply IH.
Qed.

(** The document of a snapshot or a delta is there when the snapshot or the delta is written. *)
Lemma with_document d t id size last : folder_in_place d -> (Z.abs size <= 2 ^ 53 - 1)%Z ->
  exists d', is_Some (db_documents d' !! id) /\
    run_statements None d (ensureDocument foreign_keys defaultWorkspaceId defaultFolderId clock d t id (VNum size) ++ [last]) = run_statements None d' [last].
Proof.
  intros Hplace Hsize. destruct (db_documents d !! id) as [row|] eqn:E.
  - exists d. split; [by eexists|]. unfold ensureDocument. by rewrite E, bool_decide_eq_true_2.
  - destruct (document_ensured d t id size Hplace Hsize E) as (d' & Hrun & Hd). exists d'. split; [done|]. by apply run_statements_app.
Qed.

(** A saved snapshot is found again, whether its document is known or not. *)
Lemma saved_snapshot_is_found b snapshot : closed b = false -> folder_in_place (data b) -> snapshot_ok snapshot ->
  let '(b', r) := SqliteBackend.saveSnapshot foreign_keys defaultWorkspaceId defaultFolderId clock b None snapshot in
  r = Ok tt /\ SqliteBackend.getSnapshot b' (delta_document snapshot) = Ok snapshot.
Proof.
  intros Hc Hplace (id & version & js & markdown & size & updatedAt & -> & Hv & Hs & Hu). unfold SqliteBackend.saveSnapshot. rewrite Hc.
  destruct (with_document (data b) (ticks b) id size (fun d => Some (upsertSnapshot foreign_keys d (snapshot_value id (MkSnapshot version js markdown size updatedAt)))) Hplace Hs)
    as (d' & Hd & Hrun).
  change (delta_document _) with id. change (prop _ "contentSize") with (VNum size).
  match type of Hrun with _ = ?y => match goal with |- context [with_data b ?x] => assert (x = y) as -> by exact Hrun end end. cbn [run_statements].
  assert (Hup : exists d2, upsertSnapshot foreign_keys d' (snapshot_value id (MkSnapshot version js markdown size updatedAt)) = Ok d2 /\
    db_snapshots d2 !! id = Some (MkSnapshot version js markdown size updatedAt)).
  { unfold upsertSnapshot. cbn [prop snapshot_value assoc_get default sn_version sn_contentJson sn_contentMarkdown sn_contentSize sn_updatedAt bool_decide].
    simpl. rewrite !text_string, !integer_safe by done. cbn [not_null bound bind_res]. unfold refers_to_document. rewrite bool_decide_eq_true_2 by done.
    rewrite orb_true_r. cbn [negb]. eexists. split; [done|]. cbn. by rewrite lookup_insert_eq. }
  destruct Hup as (d2 & -> & Hfound). rewrite bool_decide_eq_false_2 by done. cbn [with_data fst snd]. split; [done|]. unfold SqliteBackend.getSnapshot. cbn [closed data]. by rewrite Hc, Hfound.
Qed.
End Documents.

(** * Where it differs *)

(** A driver that stores what it can as it is. *)
#[local] Instance plain_driver : SqliteDriver := {|
  text_value v := match v with VNull => Some None | VStr s => Some (Some s) | _ => None end;
  integer_value v := match v with VNull => Some None | VNum n => Some (Some n) | _ => None end |}.

#[local] Instance plain_driver_laws : SqliteDriverLaws.
Proof. by split. Qed.

Abbreviation sample_sqlite := (SqliteBackend.run true None None (fun k => Z.of_nat k)).

Definition delta_of (doc : string) : jsv := VObj [("documentId", VStr doc); ("stepJson", VStr "{}"); ("clientTimestamp", VNum 1); ("createdAt", VNum 2)].

Definition delta_ids (r : outcome) : list Z := match r with Ok (Entries es) => map (fun d => as_num (prop d "id")) es | _ => [] end.

(** The other backends number the deltas of each document from one; the database numbers all of
    them together, so the same [fromId] selects different deltas. *)
Lemma deltas_are_numbered_together :
  let calls := [AppendDelta (delta_of "a"); AppendDelta (delta_of "b"); AppendDelta (delta_of "b"); GetDeltas "b" None; GetDeltas "b" (Some 2%Z)] in
  map delta_ids (answers Memory.new calls) = [[]; []; []; [1; 2]; [2]]%Z /\
  map delta_ids (@answers _ sample_sqlite (SqliteBackend.open empty_database) calls) = [[]; []; []; [2; 3]; [2; 3]]%Z.
Proof. vm_compute. auto. Qed.

(** A database whose default workspace has a folder, but not the default one. *)
Definition other_folder : database :=
  MkDatabase [] {["ws_default" := MkWorkspace "Mine" "me" None None None None None 0 0]} {["volume_1" := MkFolder "ws_default" "Volume 1" 1 None 0 0]} ∅ ∅ [] 0.

(** The default folder is made only when the workspace has no folder, and the document refers
    to it in any case: no snapshot of a new document can be saved. *)
Lemma other_folder_blocks_documents :
  let snapshot := snapshot_value "d" (MkSnapshot 1 "{}" EmptyString 0 5) in
  snd (SqliteBackend.saveSnapshot true None None (fun k => Z.of_nat k) (SqliteBackend.open other_folder) None snapshot) = Err DriverError /\
  snd (SqliteBackend.saveSnapshot true None None (fun k => Z.of_nat k) (SqliteBackend.open empty_database) None snapshot) = Ok tt.
Proof. vm_compute. auto. Qed.

(** An entry that is no [SessionEntry], for want of a payload, is one for the backend in memory. *)
Lemma entry_without_payload :
  let calls := [AppendEntries "s" [VObj [("id", VStr "e1"); ("sessionId", VStr "s"); ("seq", VNum 1); ("parentId", VNull); ("type", VStr "custom"); ("timestamp", VNum 1)]]] in
  answers Memory.new calls = [Ok Done] /\ @answers _ sample_sqlite (SqliteBackend.open empty_database) calls = [Err DriverError].
Proof. vm_compute. auto. Qed.

(** * Witnesses *)

Definition noted_entry : jsv := sample_entry "s" "e1" 1 VNull [("note", VStr "lost"); ("laneId", VStr "main")].

Lemma noted_fits : Forall fits_columns [noted_entry; e2].
Proof.
  assert (Hn : storable noted_entry).
  { split; [|reflexivity]. split; [apply (bool_decide_unpack _); reflexivity|]. cbn -[Z.pow]. split_and!; try lia; try done. apply (bool_decide_unpack _). reflexivity. }
  pose proof samples_storable as H. rewrite !Forall_cons in H. destruct H as (_ & H2 & _).
  rewrite !Forall_cons. split_and!; [..|constructor]; constructor; try done; try (by left); try (right; right; by eexists).
  all: intros t [= <-]; lia.
Defined.

Definition sqlite_calls : list call :=
  [AppendEntries "s" [noted_entry]; AppendEntries "s" [e2]; AppendEntries "s" [e2]; ForkSession "s" "t" (Some (Some "e1"));
   GetEntryPage "s" (MkOptions (Some 1%Z) (Some "backward") None); GetEntries "t" None; Close; GetEntries "s" None].

Lemma sqlite_answers_as_memory_witness :
  @answers backend sample_sqlite (SqliteBackend.open other_folder) sqlite_calls = map in_rows (answers Memory.new sqlite_calls) /\
  map is_ok (answers Memory.new sqlite_calls) = [true; true; false; true; true; true; true; false].
Proof.
  split; [|reflexivity]. apply (sqlite_answers_as_memory true None None (fun k => Z.of_nat k) other_folder sqlite_calls); [reflexivity|].
  pose proof noted_fits as H. rewrite !Forall_cons in H. destruct H as (H1 & H2 & _). unfold sqlite_calls. rewrite !Forall_cons. simpl.
  split_and!; try done; by apply Forall_singleton.
Defined.
